(* ===== verification/_CoqProject ===== *)
-Q . S2P
Prelude.v
Containers.v
Strings.v
Base64.v
Hash.v
CanonPath.v
Names.v
StorePath.v
ContentAddress.v
OutputsSpec.v
DerivedPath.v
Derivations.v
ATerm.v
DerivationHash.v
Resolve.v
PathInfo.v
Serialise.v
Streams.v
Fso.v
Nar.v
Wire.v
NarInfo.v
Graph.v
LocalDb.v
LocalStore.v
Gc.v
GcLocal.v
References.v
Worker.v
Substitution.v
SubstitutionInv.v
SubstitutionWork.v
SubstitutionLoop.v
SubstitutionSpec.v
Expr.v
Scoping.v
Values.v
Eval.v
AttrSets.v
Primops.v
ListPrimops.v
StringPrimops.v
Evaluator.v
EvalInv.v
EvalResults.v
EvalSafe.v
PrimopsSafe.v
ListPrimopsSafe.v
EvaluatorSafe.v
EvalFuel.v
EvalKeep.v
PrimopsSpec.v
ClosureSpec.v
ParserState.v
Urls.v
ThreadPool.v
TaskGraph.v
ThreadPoolInv.v
ThreadPoolSpec.v
Suggestions.v
LruCache.v
StringContext.v
