(* ===== verification/Prelude.v ===== *)
(** * A verification development of zix (Nix in C++)

    ** The program

    Nix builds packages into a store, a directory of immutable file system
    objects named by cryptographic hashes. Its core is the store layer
    (src/src/libstore) over a utility layer (src/src/libutil); the evaluator of
    the Nix expression language (src/src/libexpr), fetchers and commands sit on
    top of them. This development models the formats, the computations and the
    state machines of the two lower layers and the evaluator, by translating
    each C++ function into a Gallina definition of the same name, and proves
    what makes them correct.

    ** Conventions

    - Strings and byte buffers are lists of [ascii] (type [bytes], literals
      [L "..."]), machine integers are [Z] with their wrap-around written out
      ([i32], [u32], [u64], [i64]), [std::set] and [std::map] are the sorted
      lists of Containers, whose order is the one of the key type.
    - Code that throws or asserts has type [result]: [Ok], [Err (Throw e)] with
      the class of the exception, [Err AssertFailed] for an aborted process,
      [Err UndefinedBehaviour]. Messages are not modelled.
    - Loops that are not structural take fuel and yield [Err OutOfFuel] when it
      runs out; termination theorems show how much is enough (usually the
      length of the input, or a bound on the reachable paths for closures and
      the collector), and the other theorems either assume that much or choose
      it in the definition.
    - Code outside the repository is a parameter: the digest functions (class
      [Hash.Digest], law: the length of a digest), Ed25519 (class
      [PathInfo.Sodium], law: a signature verifies under its key),
      boost's integer parsing (classes [LexicalCast], [LexicalCastU64]), the
      file system and the child processes as arguments of the operations, and
      for the evaluator [fetchToStore], which copies a file to the store.
      Every theorem that uses such a law has a witness with a concrete
      instance.

    ** Files

    - Prelude: failures, the error monad and its notation, characters, string
      searches, machine arithmetic, tactics, the hint database [nix].
      Containers: sorted sets and maps (std::set, std::map).
    - Strings (libutil/strings*, split.hh, util.cc): tokenising, joining,
      replacing, quoting. Base64 (util.cc). Hash (hash.cc): hashes, their four
      textual forms, parsing. CanonPath (canon-path.*, file-path-impl.hh):
      path canonicalisation, CanonPath and its operations.
    - Names (names.cc): package names and the order of versions. StorePath
      (path.cc), ContentAddress (content-address.cc, store-api.cc: the
      computation of store paths), OutputsSpec, DerivedPath (derived-path*.cc,
      downstream-placeholder.cc).
    - Derivations (derivations.cc: data, type, ATerm parser and printer),
      ATerm (their round trip), DerivationHash (hashDerivationModulo with its
      memo table), Resolve (resolution and rewriting).
    - Serialise (serialise.*: the wire encoding over any source, as a class
      with laws), Streams (the concrete sources and sinks as instances,
      framing), Fso (source accessors and file system object sinks, classes
      with the in-memory implementation), Nar (archives), Wire (the worker and
      serve protocol serialisers).
    - PathInfo (path-info.cc, local-keys.cc: fingerprints, signatures), NarInfo
      (nar-info.cc), References (references.cc, path-references.cc).
    - Graph (topo-sort.hh, and closure.hh as a step relation of its threads),
      LocalDb (schema.sql and local-store.cc: tables, statements, operations),
      LocalStore (what they promise together), Gc (gc.cc and misc.cc against
      the class [StoreDb]), GcLocal (the local store as an instance of it, and
      the properties of a collection).
    - Worker (goal.*, worker.*: the goals as objects on a heap, waiting,
      notification, slots, children), Substitution (substitution-goal.cc,
      drv-output-substitution-goal.cc, Worker::run, ensurePath: coroutines cut
      at their suspension points, the main loop as a transition system whose
      events are the choices of the environment), SubstitutionInv (its
      invariant and the operations of the worker), SubstitutionWork (the
      coroutine), SubstitutionLoop (the steps of the loop), SubstitutionSpec
      (what a run promises).
    - Expr (nixexpr.*: syntax trees, static environments, [bindVars]), Scoping
      (what [bindVars] establishes), ParserState (parser-state.hh and actions
      of parser.y: attribute paths, inherited attributes, formal arguments,
      indented strings).
    - Values (value.hh, symbol-table.hh, attr-set.*, checked-arithmetic.hh: the
      heap of values and environments, in a state monad with failures), Eval
      (eval.cc, eval-inline.hh: evaluation, forcing, calls, equality, coercion),
      Primops, ListPrimops, StringPrimops (primops.cc). The mutual recursion of
      the evaluator goes through the record [Rec] of its entry points; Evaluator
      ties the knot, [evaluator fuel] being the record whose calls may nest
      [fuel] deep.
    - AttrSets (attribute sets as finite maps), EvalInv (the validity of heaps
      and the class [Rec_safe] of what one entry point may assume of the
      others), EvalSafe, PrimopsSafe, ListPrimopsSafe (the operations against
      that class), EvaluatorSafe (its instance, and the safety of evaluations),
      EvalFuel (more fuel changes nothing), EvalResults (results are computed
      values), EvalKeep (values are stable, black holes are undone; the two
      equalities agree), PrimopsSpec (sorting, replacing, rounding), ClosureSpec
      (closures of graphs whose elements the operator builds).
    - StringContext (value/context.cc): the dependencies strings carry. Urls
      (url.cc, url-parts.hh, store-reference.cc): URLs, query strings and
      references to stores. Suggestions (suggestions.cc), LruCache
      (lru-cache.hh).
    - ThreadPool (thread-pool.cc, thread-pool.hh: the pool and processGraph as a
      transition system of threads with locks and a condition variable),
      TaskGraph (the tasks without the threads, with the invariant of the
      graph), ThreadPoolInv (the invariant of the pool, and the simulation of
      its steps by TaskGraph), ThreadPoolSpec (what processGraph promises).

    ** What is proved

    - Round trips: derivations in ATerm form and on the wire, hashes, store
      paths, content addresses, derived paths, output specifications, archives,
      framed streams, NAR infos, path infos, registered paths, signatures,
      Base64, URLs, store references, string contexts.
    - The language a parser accepts (store paths), injectivity of what is
      hashed or signed (store path fingerprints, signed fingerprints).
    - Refinement and equivalence: paths as lists of components, memoised and
      plain derivation hashes, chunked and whole-stream scanning and rewriting,
      the closure computation under every interleaving, the two-row edit
      distance, the cache with its cross-linked containers.
    - Parallel graph processing: under every interleaving a node is processed
      once, after its dependencies; the outcome means what it says; there is no
      deadlock and no lost wake-up, and the number of steps is bounded.
    - The collector: what a root known at the start keeps alive survives every
      run (a root that arrives later may come too late), and a full run leaves
      exactly the reachable paths. The store: an invariant of all
      databases a history of operations reaches, and when deletion is refused.
    - The scheduler on path substitutions: under every interleaving of the
      loop, the copying threads and other processes no assertion fails and no
      destroyed goal is used, slots are respected, success means validity, the
      run makes progress and ends. The assumptions are that the addresses of
      goals are not reused, that the references substituters report are acyclic
      (a run shows that this is needed), and that their answers for other paths
      than asked for can be checked without an abort.
    - The expression language: variables are resolved to the innermost
      definition or [with]; no evaluation of a parsed expression reads outside
      of an environment, set or list or fails an assertion, whatever the fuel,
      unless it uses [elemAt], [ceil] or [floor], for which it can, or has an
      [inherit (e)] that merging sets in the parser has broken; a value never
      changes once computed, and forcing one leaves no black hole behind; the equality of [==] and the one of
      [assert] agree; [//], [sort], [replaceStrings] and [genericClosure] meet
      declarative specifications; indented strings of one token are stripped line
      by line.
    - Termination with explicit bounds, the classification of derivations,
      resolution, the well-formedness of computed store paths.
    - Defects: theorems that exhibit behaviour at odds with a comment or with
      the evident intent (unescaped platform strings, dynamic outputs left out
      of a hash, acknowledged roots that are deleted, positions that are not
      hashed, assertions reachable from outside data, list indices truncated
      before they are checked, merged sets with inherited attributes that read
      out of bounds, and others).

    ** Not modelled

    Of the expression language the lexer and the grammar (generated code),
    positions and messages, the debugger, external values, printing, and the
    primitive operations that touch the store, files or the network are left
    out; the garbage-collected heap of the evaluator only grows. The standard
    library does not specify in which order [std::stable_sort] and [std::set]
    compare elements; the model scans linearly. Fetchers and flakes, the
    command line and the configuration machinery are glue over git, curl, JSON
    and the modelled components. Of the scheduler the derivation goals (builds,
    hooks, sandboxes), timeouts and statistics are missing: they are almost
    wholly made of system calls. System call wrappers, sandboxing, terminals,
    logging, networking and the bindings have no functional content beyond the
    calls they make. JSON adapters are left out
    because the JSON library is not part of the repository. In the modelled
    files, retries after a busy database, caches of query results, database
    migration, finding the roots of the collector on disk and realisations of
    content-addressed derivations are left out. *)

From Stdlib Require Export ZArith Ascii String Lia.
From stdpp Require Export base list strings sorting sets.

#[global] Set Default Goal Selector "!".

(** ** Experimental features (libutil/experimental-features.hh) *)

Inductive ExperimentalFeature :=
| CaDerivations | ImpureDerivations | Flakes | FetchTree | NixCommand
| GitHashing | RecursiveNix | NoUrlLiterals | FetchClosure | AutoAllocateUids
| Cgroups | DaemonTrustOverride | DynamicDerivations | ParseTomlTimestamps
| ReadOnlyLocalStore | LocalOverlayStore | ConfigurableImpureEnv
| MountedSSHStore | VerifiedFetches | PipeOperators | BLAKE3Hashes.

#[export] Instance ExperimentalFeature_eq_dec : EqDecision ExperimentalFeature.
Proof. solve_decision. Defined.

(** ** Failures

    An exception class of the C++ code ([MakeError] hierarchy), a failed
    [assert] (which aborts the process and cannot be caught), or undefined
    behaviour. Exception messages are not modelled. [OutOfFuel] is no outcome
    of the code: a loop modelled with fuel yields it when the fuel was too
    small, and the theorems show that it never is. *)

Inductive exn :=
| Error
| BadHash
| UsageError
| FormatError
| BadStorePath
| BadStorePathName
| SerialisationError
| EndOfFile
| OutOfRange
| FileNotFound
| InvalidPath
| PathInUse
| BuildError
| GCLimitReached
| SubstituterDisabled
| ParseError
| EvalError
| AssertionError
| ThrownError
| Abort
| TypeError
| UndefinedVarError
| MissingArgumentError
| InfiniteRecursionError
| BadNixStringContextElem
| BadURL
| InvalidArgument
| MissingExperimentalFeature (f : ExperimentalFeature).

Inductive failure :=
| Throw (e : exn)
| AssertFailed
| UndefinedBehaviour
| OutOfFuel.

Inductive result (A : Type) :=
| Ok (a : A)
| Err (f : failure).
Arguments Ok {A} _.
Arguments Err {A} _.

#[export] Instance exn_eq_dec : EqDecision exn.
Proof. solve_decision. Defined.
#[export] Instance failure_eq_dec : EqDecision failure.
Proof. solve_decision. Defined.
#[export] Instance result_eq_dec `{EqDecision A} : EqDecision (result A).
Proof. solve_decision. Defined.

Definition rbind {A B} (m : result A) (k : A -> result B) : result B :=
  match m with Ok a => k a | Err f => Err f end.

Definition throw {A} (e : exn) : result A := Err (Throw e).

(** [assert(b)]. *)
Definition assert_ (b : bool) : result unit :=
  if b then Ok tt else Err AssertFailed.

Definition is_ok {A} (m : result A) : bool :=
  match m with Ok _ => true | Err _ => false end.

Declare Scope nix_scope.
Delimit Scope nix_scope with nix.
Notation "'let*' x ':=' m 'in' k" := (rbind m (fun x => k))
  (at level 10, x pattern, m at level 100, k at level 200) : nix_scope.
Notation "m ';;;' k" := (rbind m (fun _ => k))
  (at level 100, k at level 200, right associativity) : nix_scope.
#[global] Open Scope nix_scope.

Fixpoint rmapM {A B} (f : A -> result B) (l : list A) : result (list B) :=
  match l with
  | [] => Ok []
  | x :: l => let* y := f x in let* ys := rmapM f l in Ok (y :: ys)
  end.

(** [ExperimentalFeatureSettings::require], the settings being the
    predicate [isEnabled]. *)
Definition xpSettings := ExperimentalFeature -> bool.
Definition require (xp : xpSettings) (f : ExperimentalFeature) : result unit :=
  if xp f then Ok tt else throw (MissingExperimentalFeature f).

Lemma rbind_Ok {A B} (m : result A) (k : A -> result B) b :
  rbind m k = Ok b <-> exists a, m = Ok a /\ k a = Ok b.
Proof. destruct m; simpl; naive_solver. Qed.

Lemma rbind_Ok_l {A B} (a : A) (k : A -> result B) : rbind (Ok a) k = k a.
Proof. done. Qed.

Lemma rbind_assoc {A B C} (m : result A) (k : A -> result B) (k' : B -> result C) :
  rbind (rbind m k) k' = rbind m (fun a => rbind (k a) k').
Proof. by destruct m. Qed.

Lemma rbind_ext {A B} (m : result A) (k k' : A -> result B) :
  (forall a, k a = k' a) -> rbind m k = rbind m k'.
Proof. destruct m; simpl; auto. Qed.

Lemma require_Ok xp f u : require xp f = Ok u <-> xp f = true.
Proof. unfold require. destruct (xp f), u; split; done. Qed.

Lemma assert_Ok b u : assert_ b = Ok u <-> b = true.
Proof. unfold assert_. destruct b, u; split; done. Qed.

Lemma rmapM_Ok {A B} (f : A -> result B) l l' :
  rmapM f l = Ok l' <-> Forall2 (fun x y => f x = Ok y) l l'.
Proof.
  revert l'. induction l as [|x l IH]; intros l'; simpl.
  - split; [intros [= <-]; constructor | by inversion 1].
  - rewrite rbind_Ok. split.
    + intros (y & Hy & Hr). apply rbind_Ok in Hr as (ys & Hys & [= <-]).
      constructor; [done | by apply IH].
    + inversion 1; subst. eexists; split; [done|].
      apply rbind_Ok. eexists; split; [by apply IH | done].
Qed.

Lemma Ok_inj {A} (a b : A) : Ok a = Ok b -> a = b.
Proof. congruence. Qed.

(** Split every monadic hypothesis into its successful steps. *)
Ltac inv_result :=
  repeat match goal with
  | H : Ok _ = Ok _ |- _ => apply Ok_inj in H; try subst
  | H : Err _ = Ok _ |- _ => discriminate H
  | H : throw _ = Ok _ |- _ => discriminate H
  | H : Ok _ = Err _ |- _ => discriminate H
  | H : rbind ?m _ = Ok _ |- _ =>
      apply rbind_Ok in H; destruct H as (? & ? & H)
  | H : require _ _ = Ok _ |- _ => apply require_Ok in H
  | H : assert_ _ = Ok _ |- _ => apply assert_Ok in H
  end.

Create HintDb nix.
Create Rewrite HintDb nix.
#[export] Hint Rewrite @rbind_Ok_l @rbind_assoc : nix.

(** ** Bytes

    A C++ [std::string] or [std::string_view] is a list of bytes; a byte is
    an [ascii], its value as [unsigned char] is [code c]. *)

Abbreviation bytes := (list ascii).
Abbreviation L := list_ascii_of_string.
Definition dquote : ascii := "034"%char.
Definition backslash : ascii := "\"%char.
Definition newline : ascii := "010"%char.
Definition carriage : ascii := "013"%char.
Definition tabulator : ascii := "009"%char.
Definition NUL : ascii := "000"%char.

Definition code (c : ascii) : Z := Z.of_N (N_of_ascii c).
(** The conversion to [unsigned char], which keeps the low 8 bits. *)
Definition chr (z : Z) : ascii := ascii_of_N (Z.to_N (z mod 256)).

Lemma code_bound c : (0 <= code c < 256)%Z.
Proof.
  unfold code. pose proof (N_ascii_bounded c). lia.
Qed.

Lemma chr_code c : chr (code c) = c.
Proof.
  unfold chr. rewrite Z.mod_small by apply code_bound.
  unfold code. rewrite N2Z.id. apply ascii_N_embedding.
Qed.

Lemma code_chr z : code (chr z) = (z mod 256)%Z.
Proof.
  unfold code, chr. pose proof (Z.mod_pos_bound z 256 ltac:(lia)).
  rewrite N_ascii_embedding by lia. lia.
Qed.

Lemma code_inj c d : code c = code d -> c = d.
Proof. intros H. rewrite <- (chr_code c), <- (chr_code d). by rewrite H. Qed.

Lemma chr_inj x y : (0 <= x < 256 -> 0 <= y < 256 -> chr x = chr y -> x = y)%Z.
Proof.
  intros Hx Hy H. apply (f_equal code) in H. rewrite !code_chr in H.
  by rewrite !Z.mod_small in H.
Qed.

#[export] Hint Rewrite chr_code code_chr : nix.

(** [lo <= c && c <= hi], as the C++ code writes character ranges. *)
Definition in_range (lo hi c : ascii) : bool :=
  ((code lo <=? code c) && (code c <=? code hi))%Z.
Definition char_eqb (c d : ascii) : bool := bool_decide (c = d).
Definition is_digit : ascii -> bool := in_range "0" "9".
Definition is_lower : ascii -> bool := in_range "a" "z".
Definition is_upper : ascii -> bool := in_range "A" "Z".
Definition is_alpha (c : ascii) : bool := is_lower c || is_upper c.
Definition one_of (s : bytes) (c : ascii) : bool := bool_decide (c ∈ s).

Lemma char_eqb_eq c d : char_eqb c d = true <-> c = d.
Proof. apply bool_decide_eq_true. Qed.
Lemma char_eqb_ne c d : char_eqb c d = false <-> c <> d.
Proof. apply bool_decide_eq_false. Qed.

(** ** [std::string_view] searches

    The result [None] is [npos]. *)

Fixpoint find_if (p : ascii -> bool) (s : bytes) : option nat :=
  match s with
  | [] => None
  | c :: s => if p c then Some 0 else S <$> find_if p s
  end.

(** [s.find(c)], [s.find_first_of(cs)], [s.find_first_not_of(cs)]. *)
Definition find_char (c : ascii) : bytes -> option nat := find_if (char_eqb c).
Definition find_first_of (cs : bytes) : bytes -> option nat := find_if (one_of cs).
Definition find_first_not_of (cs : bytes) : bytes -> option nat :=
  find_if (fun c => negb (one_of cs c)).

(** The same searches started at offset [pos], with absolute results. *)
Definition find_from (f : bytes -> option nat) (s : bytes) (pos : nat) : option nat :=
  (fun i => pos + i) <$> f (drop pos s).

Fixpoint rfind_if (p : ascii -> bool) (s : bytes) : option nat :=
  match s with
  | [] => None
  | c :: s =>
      match rfind_if p s with
      | Some i => Some (S i)
      | None => if p c then Some 0 else None
      end
  end.
Definition rfind_char (c : ascii) : bytes -> option nat := rfind_if (char_eqb c).
Definition find_last_not_of (cs : bytes) : bytes -> option nat :=
  rfind_if (fun c => negb (one_of cs c)).

Fixpoint starts_with (s p : bytes) {struct p} : bool :=
  match p, s with
  | [], _ => true
  | c :: p, d :: s => char_eqb c d && starts_with s p
  | _ :: _, [] => false
  end.

(** [s.find(needle)]. *)
Fixpoint find_sub (needle s : bytes) : option nat :=
  if starts_with s needle then Some 0
  else match s with
       | [] => None
       | _ :: s => S <$> find_sub needle s
       end.

(** [s.substr(pos, len)] for [pos <= size]. *)
Definition substr (s : bytes) (pos len : nat) : bytes := take len (drop pos s).

(** *** Facts about searches *)

Lemma starts_with_spec s p : starts_with s p = true <-> exists t, s = p ++ t.
Proof.
  revert s. induction p as [|c p IH]; intros [|d s]; simpl.
  - naive_solver.
  - naive_solver.
  - naive_solver.
  - rewrite andb_true_iff, char_eqb_eq, IH. naive_solver.
Qed.

Lemma starts_with_app p t : starts_with (p ++ t) p = true.
Proof. apply starts_with_spec. eauto. Qed.

Lemma starts_with_take s p :
  starts_with s p = bool_decide (take (length p) s = p).
Proof.
  apply eq_true_iff_eq. rewrite starts_with_spec, bool_decide_eq_true. split.
  - intros [t ->]. by rewrite take_app_length.
  - intros H. exists (drop (length p) s). rewrite <- H at 1. by rewrite take_drop.
Qed.

Lemma find_if_Some p s i :
  find_if p s = Some i <->
  exists c, s !! i = Some c /\ p c = true /\ Forall (fun d => p d = false) (take i s).
Proof.
  revert i. induction s as [|d s IH]; intros i; simpl.
  - split; [done|]. intros (c & H & _). by rewrite lookup_nil in H.
  - destruct (p d) eqn:Ed.
    + split.
      * intros [= <-]. eexists; split; [done|]. auto.
      * intros (c & H1 & H2 & H3). destruct i as [|i]; [done|].
        simpl in H3. inversion H3; congruence.
    + rewrite fmap_Some. split.
      * intros (j & Hj & ->). apply IH in Hj as (c & ? & ? & ?).
        exists c. simpl. auto.
      * intros (c & H1 & H2 & H3). destruct i as [|i]; simpl in *; [congruence|].
        exists i. split; [|done]. apply IH. inversion H3; subst. eauto.
Qed.

Lemma find_if_None p s : find_if p s = None <-> Forall (fun d => p d = false) s.
Proof.
  induction s as [|d s IH]; simpl; [done|].
  rewrite Forall_cons. destruct (p d) eqn:Ed; [naive_solver|].
  rewrite fmap_None, IH. naive_solver.
Qed.

Lemma find_if_lt p s i : find_if p s = Some i -> i < length s.
Proof. intros (c & H & _)%find_if_Some. by eapply lookup_lt_Some. Qed.

Lemma find_if_app_None p s t :
  Forall (fun d => p d = false) s -> find_if p (s ++ t) = (fun i => length s + i) <$> find_if p t.
Proof.
  induction 1 as [|d s Hd Hs IH]; simpl.
  - by destruct (find_if p t).
  - rewrite Hd, IH. by destruct (find_if p t).
Qed.

(** A delimiter ends the longest prefix free of it. *)
Lemma find_char_app c s t : c ∉ s -> find_char c (s ++ c :: t) = Some (length s).
Proof.
  intros Hc. unfold find_char. rewrite find_if_app_None.
  - simpl. unfold char_eqb. rewrite bool_decide_true by done. simpl. by rewrite Nat.add_0_r.
  - apply Forall_forall. intros d Hd. apply char_eqb_ne. set_solver.
Qed.

Lemma find_char_None c s : find_char c s = None <-> c ∉ s.
Proof.
  unfold find_char. rewrite find_if_None, Forall_forall. split.
  - intros H Hc. specialize (H c Hc). by apply char_eqb_ne in H.
  - intros H d Hd. apply char_eqb_ne. set_solver.
Qed.

Lemma rfind_if_None p s : rfind_if p s = None <-> Forall (fun d => p d = false) s.
Proof.
  induction s as [|d s IH]; simpl; [done|].
  rewrite Forall_cons. destruct (rfind_if p s); [naive_solver|].
  destruct (p d) eqn:Ed; naive_solver.
Qed.

Lemma rfind_if_app_None p s t :
  Forall (fun d => p d = false) t -> rfind_if p (s ++ t) = rfind_if p s.
Proof.
  intros Ht. induction s as [|d s IH]; simpl.
  - by apply rfind_if_None.
  - by rewrite IH.
Qed.

Lemma rfind_if_app_Some p s t i :
  rfind_if p t = Some i -> rfind_if p (s ++ t) = Some (length s + i).
Proof. intros Ht. induction s as [|d s IH]; simpl; [done|]. by rewrite IH. Qed.

Lemma rfind_char_None c s : rfind_char c s = None <-> c ∉ s.
Proof.
  unfold rfind_char. rewrite rfind_if_None, Forall_forall. split.
  - intros H Hc. specialize (H c Hc). by apply char_eqb_ne in H.
  - intros H d Hd. apply char_eqb_ne. set_solver.
Qed.

Lemma rfind_char_app c s t : c ∉ t -> rfind_char c (s ++ c :: t) = Some (length s).
Proof.
  intros Hc. unfold rfind_char. rewrite (rfind_if_app_Some _ _ _ 0).
  - by rewrite Nat.add_0_r.
  - simpl. apply rfind_char_None in Hc. unfold rfind_char in Hc. rewrite Hc.
    unfold char_eqb. by rewrite bool_decide_true.
Qed.

(** [rfind] splits a string at the last occurrence. *)
Lemma rfind_char_split c s i :
  rfind_char c s = Some i ->
  s = take i s ++ c :: drop (S i) s /\ c ∉ drop (S i) s /\ i < length s.
Proof.
  unfold rfind_char. revert i. induction s as [|d s IH]; intros i; simpl; [done|].
  destruct (rfind_if (char_eqb c) s) as [j|] eqn:E.
  - intros [= <-]. destruct (IH j eq_refl) as (H1 & H2 & H3).
    simpl. split; [by f_equal|]. split; [done | lia].
  - destruct (char_eqb c d) eqn:Ed; [|done]. intros [= <-]. simpl.
    apply char_eqb_eq in Ed as ->. rewrite drop_0.
    split; [done|]. split; [|lia]. by apply rfind_char_None.
Qed.

Lemma find_char_split c s i :
  find_char c s = Some i ->
  s = take i s ++ c :: drop (S i) s /\ c ∉ take i s /\ i < length s.
Proof.
  unfold find_char. intros H. pose proof (find_if_lt _ _ _ H) as Hlt.
  apply find_if_Some in H as (d & Hd & Hp & Hf). apply char_eqb_eq in Hp as <-.
  split; [by rewrite take_drop_middle|]. split; [|done].
  rewrite Forall_forall in Hf. intros Hc. specialize (Hf _ Hc). by apply char_eqb_ne in Hf.
Qed.

Lemma find_sub_Some needle s i :
  find_sub needle s = Some i ->
  exists pre post, s = pre ++ needle ++ post /\ length pre = i.
Proof.
  revert i. induction s as [|c s IH]; intros i; simpl.
  - destruct (starts_with [] needle) eqn:E; [|done]. intros [= <-].
    apply starts_with_spec in E as [t Ht]. exists [], t. by split.
  - destruct (starts_with (c :: s) needle) eqn:E.
    + intros [= <-]. apply starts_with_spec in E as [t Ht]. exists [], t. by split.
    + rewrite fmap_Some. intros (j & Hj & ->).
      destruct (IH j Hj) as (pre & post & -> & <-). exists (c :: pre), post. by split.
Qed.

Lemma find_sub_None needle s :
  find_sub needle s = None <-> forall pre post, s <> pre ++ needle ++ post.
Proof.
  induction s as [|c s IH]; simpl.
  - destruct (starts_with [] needle) eqn:E.
    + split; [done|]. apply starts_with_spec in E as [t Ht]. intros H. by destruct (H [] t).
    + split; [|done]. intros _ [|??] post; [|done]. simpl. intros H.
      rewrite H, starts_with_app in E. done.
  - destruct (starts_with (c :: s) needle) eqn:E.
    + split; [done|]. apply starts_with_spec in E as [t Ht]. intros H. by destruct (H [] t).
    + rewrite fmap_None, IH. split.
      * intros H [|d pre] post; simpl; [|naive_solver].
        intros Hs. rewrite Hs, starts_with_app in E. done.
      * intros H pre post Hs. apply (H (c :: pre) post). by rewrite Hs.
Qed.

Lemma find_sub_leftmost needle s i j :
  find_sub needle s = Some i -> j < i -> starts_with (drop j s) needle = false.
Proof.
  revert i j. induction s as [|c s IH]; intros i j; simpl.
  - destruct (starts_with [] needle); intros [= <-]; lia.
  - destruct (starts_with (c :: s) needle) eqn:E; [intros [= <-]; lia|].
    rewrite fmap_Some. intros (k & Hk & ->) Hj. destruct j as [|j]; simpl; [done|].
    eapply IH; [done|lia].
Qed.

(** ** Machine arithmetic *)

(** [lia] with division and remainder by constants. *)
Ltac zlia := Z.to_euclidean_division_equations; lia.

(** Two's complement wrap-around of a 32-bit [int], and of [unsigned int]. *)
Definition i32 (z : Z) : Z := ((z + 2 ^ 31) mod 2 ^ 32 - 2 ^ 31)%Z.
Definition u32 (z : Z) : Z := (z mod 2 ^ 32)%Z.
Definition u64 (z : Z) : Z := (z mod 2 ^ 64)%Z.

(** Character table lookup [tbl\[i\]]. *)
Definition tbl (t : bytes) (i : Z) : ascii := nth (Z.to_nat i) t NUL.

Lemma i32_mod z k : (0 <= k <= 32 -> i32 z mod 2 ^ k = z mod 2 ^ k)%Z.
Proof.
  intros Hk. unfold i32. rewrite (Z.mod_eq _ (2 ^ 32)) by lia.
  replace (z + 2 ^ 31 - 2 ^ 32 * ((z + 2 ^ 31) / 2 ^ 32) - 2 ^ 31)%Z
    with (z + (- (2 ^ (32 - k) * ((z + 2 ^ 31) / 2 ^ 32))) * 2 ^ k)%Z.
  - apply Z_mod_plus_full.
  - set (q := ((z + 2 ^ 31) / 2 ^ 32)%Z).
    assert (2 ^ 32 = 2 ^ (32 - k) * 2 ^ k)%Z as E
      by (rewrite <- Z.pow_add_r by lia; f_equal; lia).
    transitivity (z - (2 ^ (32 - k) * 2 ^ k) * q)%Z; [ring | rewrite <- E; ring].
Qed.

Lemma u32_mod z k : (0 <= k <= 32 -> u32 z mod 2 ^ k = z mod 2 ^ k)%Z.
Proof.
  intros Hk. unfold u32. rewrite <- !Z.land_ones, <- Z.land_assoc by lia.
  f_equal. apply Z.bits_inj'. intros n Hn. rewrite Z.land_spec, !Z.testbit_ones_nonneg by lia.
  destruct (n <? k)%Z eqn:E1, (n <? 32)%Z eqn:E2; lia.
Qed.

(** [(x >> n) & (2^k - 1)] only depends on the low [n + k] bits. *)
Lemma shiftr_land_ones x n k :
  (0 <= n -> 0 <= k -> Z.land (Z.shiftr x n) (Z.ones k) = (x mod 2 ^ (n + k)) / 2 ^ n)%Z.
Proof.
  intros Hn Hk. rewrite Z.land_ones, Z.shiftr_div_pow2 by lia.
  rewrite Z.pow_add_r by lia. rewrite Z.rem_mul_r by lia.
  rewrite Z.mul_comm, Z.div_add by lia.
  rewrite (Z.div_small (x mod _)) by (apply Z.mod_pos_bound; lia). lia.
Qed.

(** [a << n | b] for a [b] of [n] bits. *)
Lemma lor_shiftl_add a b n :
  (0 <= n -> 0 <= b < 2 ^ n -> Z.lor (Z.shiftl a n) b = a * 2 ^ n + b)%Z.
Proof.
  intros Hn Hb. rewrite <- Z.shiftl_mul_pow2 by lia. symmetry.
  rewrite <- Z.lxor_lor; [apply Z.add_nocarry_lxor|];
    apply Z.bits_inj'; intros i Hi; rewrite Z.land_spec, Z.bits_0, Z.shiftl_spec by lia;
    destruct (Z.ltb_spec i n).
  1,3: by rewrite Z.testbit_neg_r by lia.
  all: apply andb_false_intro2; destruct (decide (b = 0)%Z) as [->|]; [by rewrite Z.bits_0|];
    apply Z.bits_above_log2; [lia|]; apply Z.log2_lt_pow2; [lia|];
    eapply Z.lt_le_trans; [apply Hb|]; by apply Z.pow_le_mono_r; lia.
Qed.
