(* ===== verification/Containers.v ===== *)
(** * Ordered containers

    [std::set] and [std::map] as strictly sorted lists: iteration order is
    part of the behaviour of the code that prints or hashes a container, so
    the model keeps it. Keys carry a three-way comparison ([operator <=>]);
    byte strings compare by unsigned bytes, as [std::string] does. *)

From S2P Require Import Prelude.
From stdpp Require Import sorting.

(** ** Key order *)

Class OrdKey (K : Type) := {
  kcompare : K -> K -> comparison;
  kcompare_eq : forall x y, kcompare x y = Eq <-> x = y;
  kcompare_antisym : forall x y, kcompare y x = CompOpp (kcompare x y);
  kcompare_trans : forall x y z, kcompare x y = Lt -> kcompare y z = Lt -> kcompare x z = Lt;
}.

Definition klt {K} `{OrdKey K} (x y : K) : Prop := kcompare x y = Lt.
Definition kltb {K} `{OrdKey K} (x y : K) : bool :=
  match kcompare x y with Lt => true | _ => false end.

Section order.
Context {K : Type} `{OrdKey K}.
Implicit Types x y z : K.

Lemma kltb_spec x y : kltb x y = true <-> klt x y.
Proof. unfold kltb, klt. by destruct (kcompare x y). Qed.

Lemma kcompare_refl x : kcompare x x = Eq.
Proof. by apply kcompare_eq. Qed.

Lemma klt_irrefl x : ~ klt x x.
Proof. unfold klt. by rewrite kcompare_refl. Qed.

Lemma kcompare_gt x y : kcompare x y = Gt <-> klt y x.
Proof. unfold klt. rewrite (kcompare_antisym x y). by destruct (kcompare x y). Qed.

#[global] Instance klt_trans : Transitive klt.
Proof. intros x y z. apply kcompare_trans. Qed.

Lemma klt_ne x y : klt x y -> x <> y.
Proof. intros Hlt ->. by apply (klt_irrefl y). Qed.

#[global] Instance OrdKey_eq_dec : EqDecision K.
Proof.
  intros x y. destruct (kcompare x y) eqn:E.
  - left. by apply kcompare_eq.
  - right. by apply klt_ne.
  - right. apply not_eq_sym, klt_ne. by apply kcompare_gt.
Defined.
End order.

(** Lexicographic comparison of byte strings. *)
Fixpoint bytes_compare (s t : bytes) : comparison :=
  match s, t with
  | [], [] => Eq
  | [], _ :: _ => Lt
  | _ :: _, [] => Gt
  | c :: s, d :: t =>
      match Z.compare (code c) (code d) with
      | Eq => bytes_compare s t
      | o => o
      end
  end.

Lemma bytes_compare_eq s t : bytes_compare s t = Eq <-> s = t.
Proof.
  revert t. induction s as [|c s IH]; intros [|d t]; simpl; try done.
  destruct (Z.compare_spec (code c) (code d)) as [E|E|E].
  - apply code_inj in E as ->. rewrite IH. naive_solver.
  - split; [done|]. intros [= -> ->]. lia.
  - split; [done|]. intros [= -> ->]. lia.
Qed.

Lemma bytes_compare_antisym s t : bytes_compare t s = CompOpp (bytes_compare s t).
Proof.
  revert t. induction s as [|c s IH]; intros [|d t]; simpl; try done.
  rewrite (Z.compare_antisym (code c)). destruct (code c ?= code d)%Z; simpl; auto.
Qed.

Lemma bytes_compare_trans s t u :
  bytes_compare s t = Lt -> bytes_compare t u = Lt -> bytes_compare s u = Lt.
Proof.
  revert t u. induction s as [|c s IH]; intros [|d t] [|e u]; simpl; try done.
  destruct (Z.compare_spec (code c) (code d)) as [E1|E1|E1],
    (Z.compare_spec (code d) (code e)) as [E2|E2|E2]; try done;
    destruct (Z.compare_spec (code c) (code e)) as [E3|E3|E3]; try done; try lia.
  apply IH.
Qed.

Lemma bytes_compare_app p s t : bytes_compare (p ++ s) (p ++ t) = bytes_compare s t.
Proof. induction p as [|c p IH]; simpl; [done|]. by rewrite Z.compare_refl. Qed.

#[export] Instance bytes_OrdKey : OrdKey bytes := {|
  kcompare := bytes_compare;
  kcompare_eq := bytes_compare_eq;
  kcompare_antisym := bytes_compare_antisym;
  kcompare_trans := bytes_compare_trans;
|}.

#[export] Instance Z_OrdKey : OrdKey Z := {|
  kcompare := Z.compare;
  kcompare_eq := Z.compare_eq_iff;
  kcompare_antisym := Z.compare_antisym;
  kcompare_trans := Z.lt_trans;
|}.

(** Comparison through an injective projection: a defaulted [operator <=>] of
    a class with one member. *)
Definition OrdKey_by {A K} `{OrdKey K} (f : A -> K) (f_inj : forall x y, f x = f y -> x = y) : OrdKey A.
Proof.
  refine {| kcompare := fun x y => kcompare (f x) (f y) |}.
  - intros x y. rewrite kcompare_eq. split; [apply f_inj|by intros ->].
  - intros x y. apply kcompare_antisym.
  - intros x y z. apply kcompare_trans.
Defined.

(** Lexicographic comparison of pairs ([std::pair]'s [operator <=>]). *)
Section pair_order.
Context {A B : Type} `{OrdKey A} `{OrdKey B}.

Definition pair_compare (x y : A * B) : comparison :=
  match kcompare x.1 y.1 with Eq => kcompare x.2 y.2 | o => o end.

Lemma pair_compare_eq x y : pair_compare x y = Eq <-> x = y.
Proof.
  destruct x as [a b], y as [a' b']. unfold pair_compare. simpl.
  destruct (kcompare a a') eqn:E.
  - apply kcompare_eq in E as ->. rewrite kcompare_eq. naive_solver.
  - split; [done|]. intros [= -> ->]. by rewrite kcompare_refl in E.
  - split; [done|]. intros [= -> ->]. by rewrite kcompare_refl in E.
Qed.

Lemma pair_compare_antisym x y : pair_compare y x = CompOpp (pair_compare x y).
Proof.
  unfold pair_compare. rewrite (kcompare_antisym x.1 y.1).
  destruct (kcompare x.1 y.1); simpl; auto. apply kcompare_antisym.
Qed.

Lemma pair_compare_trans x y z :
  pair_compare x y = Lt -> pair_compare y z = Lt -> pair_compare x z = Lt.
Proof.
  destruct x as [a b], y as [a' b'], z as [a2 b2]. unfold pair_compare. simpl.
  destruct (kcompare a a') eqn:E1; try done.
  - apply kcompare_eq in E1 as ->. destruct (kcompare a' a2); try done.
    apply kcompare_trans.
  - intros _. destruct (kcompare a' a2) eqn:E2; try done.
    + apply kcompare_eq in E2 as ->. by rewrite E1.
    + by rewrite (kcompare_trans _ _ _ E1 E2).
Qed.

#[export] Instance pair_OrdKey : OrdKey (A * B) := {|
  kcompare := pair_compare;
  kcompare_eq := pair_compare_eq;
  kcompare_antisym := pair_compare_antisym;
  kcompare_trans := pair_compare_trans;
|}.
End pair_order.

(** ** [std::set] *)

Section sset.
Context {K : Type} `{OrdKey K}.
Implicit Types (x y : K) (s l : list K).

(** The representation invariant of a set: keys strictly increase. *)
Definition sset_wf (s : list K) : Prop := StronglySorted klt s.

(** [insert]: a key already present is left alone. *)
Fixpoint sset_insert x s : list K :=
  match s with
  | [] => [x]
  | y :: s' =>
      match kcompare x y with
      | Lt => x :: s
      | Eq => s
      | Gt => y :: sset_insert x s'
      end
  end.

(** [count(x) > 0]. *)
Definition sset_mem x s : bool := bool_decide (x ∈ s).

(** [erase(x)]. *)
Definition sset_erase x s : list K := filter (fun y => y <> x) s.

Definition sset_of_list l : list K := foldl (fun s x => sset_insert x s) [] l.

(** Range insert, [s.insert(t.begin(), t.end())]. *)
Definition sset_union s l : list K := foldl (fun s x => sset_insert x s) s l.

Lemma sset_insert_elem x y s : y ∈ sset_insert x s <-> y = x \/ y ∈ s.
Proof.
  induction s as [|z s IH]; simpl; [set_solver|].
  destruct (kcompare x z) eqn:E.
  - apply kcompare_eq in E as ->. set_solver.
  - set_solver.
  - rewrite !elem_of_cons, IH. naive_solver.
Qed.

Lemma sset_insert_wf x s : sset_wf s -> sset_wf (sset_insert x s).
Proof.
  unfold sset_wf. induction 1 as [|z s Hs IH Hz]; simpl; [repeat constructor|].
  destruct (kcompare x z) eqn:E.
  - by constructor.
  - constructor; [by constructor|]. constructor; [done|].
    eapply Forall_impl; [done|]. intros y. by apply klt_trans.
  - constructor; [done|]. apply Forall_forall. intros y [->|Hy]%sset_insert_elem.
    + by apply kcompare_gt.
    + rewrite Forall_forall in Hz. auto.
Qed.

Lemma sset_union_elem y s l : y ∈ sset_union s l <-> y ∈ s \/ y ∈ l.
Proof.
  unfold sset_union. revert s. induction l as [|x l IH]; intros s; simpl; [set_solver|].
  rewrite IH, sset_insert_elem. set_solver.
Qed.

Lemma sset_union_wf s l : sset_wf s -> sset_wf (sset_union s l).
Proof.
  unfold sset_union. revert s. induction l as [|x l IH]; intros s Hs; simpl; [done|].
  by apply IH, sset_insert_wf.
Qed.

Lemma sset_of_list_elem y l : y ∈ sset_of_list l <-> y ∈ l.
Proof. unfold sset_of_list. rewrite (sset_union_elem y [] l). set_solver. Qed.

Lemma sset_of_list_wf l : sset_wf (sset_of_list l).
Proof. apply (sset_union_wf []). constructor. Qed.

Lemma sset_erase_elem x y s : y ∈ sset_erase x s <-> y <> x /\ y ∈ s.
Proof. unfold sset_erase. by rewrite list_elem_of_filter. Qed.

Lemma sset_erase_wf x s : sset_wf s -> sset_wf (sset_erase x s).
Proof.
  unfold sset_wf, sset_erase. induction 1 as [|z s Hs IH Hz]; [constructor|].
  rewrite filter_cons. case_decide; [|done]. constructor; [done|].
  apply Forall_forall. intros y [_ Hy]%list_elem_of_filter.
  rewrite Forall_forall in Hz. auto.
Qed.

(** Two sets with the same elements are the same list. *)
Lemma sset_ext s t :
  sset_wf s -> sset_wf t -> (forall x, x ∈ s <-> x ∈ t) -> s = t.
Proof.
  unfold sset_wf. intros Hs. revert t. induction Hs as [|x s Hs IH Hx]; intros t Ht Hst.
  - destruct t as [|y t]; [done|]. specialize (Hst y). set_solver.
  - destruct Ht as [|y t Ht Hy]; [specialize (Hst x); set_solver|].
    rewrite Forall_forall in Hx. rewrite Forall_forall in Hy.
    assert (x = y) as ->.
    { destruct (decide (x = y)) as [|Hne]; [done|].
      assert (x ∈ t) by (specialize (Hst x); set_solver).
      assert (y ∈ s) by (specialize (Hst y); set_solver).
      exfalso. apply (klt_irrefl x). transitivity y; auto. }
    f_equal. apply IH; [done|]. intros z.
    pose proof (Hst z) as Hz. rewrite !elem_of_cons in Hz.
    split; intros Hin.
    + destruct Hz as [[->|]%(fun f => f (or_intror Hin)) _]; [|done].
      exfalso. by apply (klt_irrefl y), Hx.
    + destruct Hz as [_ [->|]%(fun f => f (or_intror Hin))]; [|done].
      exfalso. by apply (klt_irrefl y), Hy.
Qed.

(** Inserting the elements of a sorted list in order rebuilds it. *)
Lemma sset_insert_snoc x s : sset_wf (s ++ [x]) -> sset_insert x s = s ++ [x].
Proof.
  unfold sset_wf. induction s as [|y s IH]; simpl; [done|]. intros Hs.
  apply StronglySorted_inv in Hs as [Hs Hy]. rewrite IH by done.
  assert (klt y x) as Hyx by (rewrite Forall_forall in Hy; apply Hy; set_solver).
  apply kcompare_gt in Hyx. by rewrite Hyx.
Qed.

Lemma sset_union_sorted s l : sset_wf (s ++ l) -> sset_union s l = s ++ l.
Proof.
  unfold sset_union. revert s. induction l as [|x l IH]; intros s Hs; simpl.
  - by rewrite app_nil_r.
  - assert (sset_wf (s ++ [x])) as Hsx.
    { unfold sset_wf in *. rewrite cons_middle, app_assoc in Hs.
      by apply StronglySorted_app in Hs as (? & ? & ?). }
    rewrite sset_insert_snoc by done. rewrite IH by (by rewrite <- app_assoc).
    by rewrite <- app_assoc.
Qed.

Lemma sset_of_list_sorted l : sset_wf l -> sset_of_list l = l.
Proof. apply (sset_union_sorted []). Qed.

Lemma sset_nodup s : sset_wf s -> NoDup s.
Proof.
  induction 1 as [|x s Hs IH Hx]; constructor; [|done]. intros Hin. rewrite Forall_forall in Hx.
  by apply (klt_irrefl x), Hx.
Qed.

Lemma sset_insert_length x s : x ∉ s -> length (sset_insert x s) = S (length s).
Proof.
  induction s as [|y s IH]; intros Hx; cbn [sset_insert]; [done|]. rewrite not_elem_of_cons in Hx.
  destruct (kcompare x y) eqn:E; [apply kcompare_eq in E as ->; naive_solver|done|].
  cbn [length]. rewrite IH; naive_solver.
Qed.
End sset.

(** ** [std::map] *)

Section smap.
Context {K V : Type} `{OrdKey K}.
Implicit Types (k : K) (v : V) (m l : list (K * V)).

Definition smap_wf (m : list (K * V)) : Prop := StronglySorted klt (fst <$> m).

(** [find(k)]. *)
Fixpoint smap_lookup k m : option V :=
  match m with
  | [] => None
  | (k', v) :: m => if bool_decide (k = k') then Some v else smap_lookup k m
  end.

(** [insert_or_assign(k, v)], and [m\[k\] = v]. *)
Fixpoint smap_insert k v m : list (K * V) :=
  match m with
  | [] => [(k, v)]
  | (k', v') :: m' =>
      match kcompare k k' with
      | Lt => (k, v) :: m
      | Eq => (k, v) :: m'
      | Gt => (k', v') :: smap_insert k v m'
      end
  end.

(** [emplace(k, v)]: an existing binding wins. *)
Definition smap_emplace k v m : list (K * V) :=
  match smap_lookup k m with
  | Some _ => m
  | None => smap_insert k v m
  end.

(** [erase(k)]. *)
Definition smap_erase k m : list (K * V) := filter (fun kv => kv.1 <> k) m.

Definition smap_of_list l : list (K * V) := foldl (fun m kv => smap_insert kv.1 kv.2 m) [] l.

Lemma smap_lookup_insert_eq k v m : smap_lookup k (smap_insert k v m) = Some v.
Proof.
  induction m as [|[k' v'] m IH]; simpl; [by rewrite bool_decide_true|].
  destruct (kcompare k k') eqn:E; simpl; try by rewrite bool_decide_true.
  apply kcompare_gt, klt_ne in E. by rewrite bool_decide_false by congruence.
Qed.

Lemma smap_lookup_insert_ne k k2 v m :
  k <> k2 -> smap_lookup k2 (smap_insert k v m) = smap_lookup k2 m.
Proof.
  intros Hne. induction m as [|[k' v'] m IH]; simpl.
  - by rewrite bool_decide_false by congruence.
  - destruct (kcompare k k') eqn:E; simpl.
    + apply kcompare_eq in E as ->. by rewrite !bool_decide_false by congruence.
    + by rewrite (bool_decide_false (k2 = k)) by congruence.
    + by rewrite IH.
Qed.

Lemma smap_insert_insert k v w m : smap_insert k w (smap_insert k v m) = smap_insert k w m.
Proof.
  induction m as [|[k' v'] m IH]; simpl; [by rewrite kcompare_refl|].
  destruct (kcompare k k') eqn:E; simpl; rewrite ?kcompare_refl, ?E; [done|done|by rewrite IH].
Qed.

Lemma smap_insert_keys k v m : fst <$> smap_insert k v m = sset_insert k (fst <$> m).
Proof.
  induction m as [|[k' v'] m IH]; csimpl; [done|].
  destruct (kcompare k k') eqn:E; csimpl; [|done|by rewrite IH].
  by apply kcompare_eq in E as ->.
Qed.

Lemma smap_insert_wf k v m : smap_wf m -> smap_wf (smap_insert k v m).
Proof. unfold smap_wf. rewrite smap_insert_keys. apply sset_insert_wf. Qed.

Lemma smap_emplace_wf k v m : smap_wf m -> smap_wf (smap_emplace k v m).
Proof. unfold smap_emplace. case_match; [done|]. apply smap_insert_wf. Qed.

Lemma smap_lookup_None k m : smap_lookup k m = None <-> k ∉ (fst <$> m).
Proof.
  induction m as [|[k' v'] m IH]; simpl; [set_solver|].
  case_bool_decide; subst; [set_solver|]. rewrite IH. set_solver.
Qed.

Lemma smap_lookup_erase k x m : smap_lookup x (smap_erase k m) = if decide (x = k) then None else smap_lookup x m.
Proof.
  unfold smap_erase. induction m as [|[y v] m IH]; [by destruct (decide _)|].
  rewrite filter_cons. destruct (decide (fst (y, v) <> k)) as [Hy|Hy]; cbn [fst] in Hy.
  - cbn [smap_lookup]. case_bool_decide as E; [subst; by rewrite decide_False|exact IH].
  - apply dec_stable in Hy as ->. rewrite IH. cbn [smap_lookup]. destruct (decide (x = k)); [done|].
    by rewrite bool_decide_false.
Qed.

Lemma smap_lookup_insert k v x m : smap_lookup x (smap_insert k v m) = if decide (x = k) then Some v else smap_lookup x m.
Proof.
  destruct (decide (x = k)) as [->|Hx]; [apply smap_lookup_insert_eq|]. by apply smap_lookup_insert_ne.
Qed.

Lemma smap_lookup_Some_elem k v m : smap_lookup k m = Some v -> (k, v) ∈ m.
Proof.
  induction m as [|[k' v'] m IH]; simpl; [done|].
  case_bool_decide; subst; [intros [= ->]|]; set_solver.
Qed.

Lemma smap_elem_lookup k v m : smap_wf m -> (k, v) ∈ m -> smap_lookup k m = Some v.
Proof.
  unfold smap_wf. induction m as [|[k' v'] m IH]; simpl; [set_solver|].
  intros [Hm Hk]%StronglySorted_inv Hin. rewrite Forall_forall in Hk.
  apply elem_of_cons in Hin as [[= -> ->]|Hin]; [by rewrite bool_decide_true|].
  rewrite bool_decide_false; [auto|]. intros ->.
  apply (klt_irrefl k'), Hk, list_elem_of_fmap. by exists (k', v).
Qed.

Lemma smap_insert_snoc k v m :
  smap_wf (m ++ [(k, v)]) -> smap_insert k v m = m ++ [(k, v)].
Proof.
  unfold smap_wf. induction m as [|[k' v'] m IH]; simpl; [done|].
  intros [Hm Hk]%StronglySorted_inv. rewrite IH by done.
  assert (klt k' k) as Hlt.
  { rewrite Forall_forall in Hk. apply Hk. rewrite fmap_app. set_solver. }
  apply kcompare_gt in Hlt. by rewrite Hlt.
Qed.

Lemma smap_wf_prefix m kv l : smap_wf (m ++ kv :: l) -> smap_wf (m ++ [kv]).
Proof.
  unfold smap_wf. rewrite cons_middle, app_assoc, fmap_app.
  by intros (? & ? & ?)%StronglySorted_app.
Qed.

Lemma smap_wf_fresh k v m l : smap_wf (m ++ (k, v) :: l) -> smap_lookup k m = None.
Proof.
  intros Hm. apply smap_lookup_None. intros Hk. unfold smap_wf in Hm. rewrite fmap_app in Hm.
  apply StronglySorted_app in Hm as (Hlt & _ & _). apply (klt_irrefl k).
  rewrite fmap_cons in Hlt. apply Hlt; set_solver.
Qed.

Lemma smap_emplace_snoc k v m :
  smap_wf (m ++ [(k, v)]) -> smap_emplace k v m = m ++ [(k, v)].
Proof.
  intros Hwf. unfold smap_emplace. destruct (smap_lookup k m) as [v'|] eqn:E.
  - exfalso. apply smap_lookup_Some_elem in E. unfold smap_wf in Hwf.
    rewrite fmap_app in Hwf. simpl in Hwf. apply StronglySorted_app in Hwf as (Hlt & _ & _).
    apply (klt_irrefl k), Hlt; [|set_solver]. apply list_elem_of_fmap. by exists (k, v').
  - by apply smap_insert_snoc.
Qed.

Lemma smap_inserts_sorted m l :
  smap_wf (m ++ l) -> foldl (fun m kv => smap_insert kv.1 kv.2 m) m l = m ++ l.
Proof.
  revert m. induction l as [|[k v] l IH]; intros m Hm; simpl.
  - by rewrite app_nil_r.
  - rewrite smap_insert_snoc by (by eapply smap_wf_prefix).
    rewrite IH by (by rewrite <- app_assoc). by rewrite <- app_assoc.
Qed.

Lemma smap_of_list_sorted l : smap_wf l -> smap_of_list l = l.
Proof. apply (smap_inserts_sorted []). Qed.
End smap.

#[export] Hint Resolve sset_insert_wf sset_union_wf sset_of_list_wf sset_erase_wf
  smap_insert_wf smap_emplace_wf : nix.

Lemma filter_all {A} (P : A -> Prop) `{forall x, Decision (P x)} l : Forall P l -> filter P l = l.
Proof. induction 1 as [|x l Hx Hl IH]; [done|]. rewrite filter_cons_True by done. by rewrite IH. Qed.
