(* ===== verification/Strings.v ===== *)
(** * String utilities (libutil/strings-inline.hh, strings.cc, util.cc, split.hh)

    Tokenising, splitting and joining, trimming, replacing and rewriting,
    shell quoting, indentation and line handling. Loops over positions are
    written over positions as in the source, with fuel where the position
    does not decrease structurally; the lemmas show the fuel is enough by
    equating each loop with a structural reference. *)

From S2P Require Import Prelude.
From S2P Require Import Containers.

(** ** Tokenising, splitting, joining (strings-inline.hh) *)

(** The [while (pos != npos)] loop of [basicTokenizeString]; [pos] is the
    start of the next token. *)
Fixpoint tokenize_loop (fuel : nat) (s separators : bytes) (pos : option nat) : list bytes :=
  match fuel, pos with
  | S fuel, Some pos =>
      let end_ := default (length s) (find_from (find_first_of separators) s (pos + 1)) in
      substr s pos (end_ - pos)
        :: tokenize_loop fuel s separators (find_from (find_first_not_of separators) s end_)
  | _, _ => []
  end.
Definition tokenizeString (s separators : bytes) : list bytes :=
  tokenize_loop (S (length s)) s separators (find_from (find_first_not_of separators) s 0).

(** [tokenizeString<StringSet>]. *)
Definition tokenizeStringSet (s separators : bytes) : list bytes :=
  sset_of_list (tokenizeString s separators).

(** The [while (pos <= s.size())] loop of [basicSplitString]. *)
Fixpoint split_loop (fuel : nat) (s separators : bytes) (pos : nat) : list bytes :=
  match fuel with
  | S fuel =>
      if pos <=? length s then
        let end_ := default (length s) (find_from (find_first_of separators) s pos) in
        substr s pos (end_ - pos) :: split_loop fuel s separators (end_ + 1)
      else []
  | O => []
  end.
Definition splitString (s separators : bytes) : list bytes :=
  split_loop (S (length s)) s separators 0.

(** The second loop of [basicConcatStringsSep]; the flag is [tail]. *)
Fixpoint concat_loop (sep : bytes) (tail : bool) (acc : bytes) (ss : list bytes) : bytes :=
  match ss with
  | [] => acc
  | i :: ss => concat_loop sep true ((if tail then acc ++ sep else acc) ++ i) ss
  end.
Definition concatStringsSep (sep : bytes) (ss : list bytes) : bytes :=
  concat_loop sep false [] ss.

Fixpoint dropEmptyInit_loop (sep acc : bytes) (ss : list bytes) : bytes :=
  match ss with
  | [] => acc
  | i :: ss =>
      dropEmptyInit_loop sep ((if bool_decide (acc = []) then acc else acc ++ sep) ++ i) ss
  end.
Definition dropEmptyInitThenConcatStringsSep (sep : bytes) (ss : list bytes) : bytes :=
  dropEmptyInit_loop sep [] ss.

(** ** Prefixes (split.hh, util.cc) *)

(** [splitPrefixTo]: the prefix and the updated view. *)
Definition splitPrefixTo (string : bytes) (separator : ascii) : option bytes * bytes :=
  match find_char separator string with
  | Some i => (Some (take i string), drop (i + 1) string)
  | None => (None, string)
  end.

Definition hasPrefix (s prefix : bytes) : bool :=
  bool_decide (take (length prefix) s = prefix).

Definition hasSuffix (s suffix : bytes) : bool :=
  (length suffix <=? length s) && bool_decide (drop (length s - length suffix) s = suffix).

(** [splitPrefix]: whether the prefix was there, and the updated view. *)
Definition splitPrefix (string prefix : bytes) : bool * bytes :=
  if hasPrefix string prefix then (true, drop (length prefix) string) else (false, string).

(** ** Trimming (util.cc) *)

Definition whitespace : bytes := [" "%char; newline; carriage; tabulator].

Definition chomp (s : bytes) : bytes :=
  match find_last_not_of whitespace s with
  | None => []
  | Some i => take (i + 1) s
  end.

Definition trim (s ws : bytes) : bytes :=
  match find_first_not_of ws s with
  | None => []
  | Some i =>
      match find_last_not_of ws s with
      | None => drop i s
      | Some j => substr s i (j - i + 1)
      end
  end.

(** ** Replacing (util.cc) *)

(** [res.replace(pos, len, to)]. *)
Definition replace_at (s : bytes) (pos len : nat) (to : bytes) : bytes :=
  take pos s ++ to ++ drop (pos + len) s.

Fixpoint replace_loop (fuel : nat) (res from to : bytes) (pos : nat) : bytes :=
  match fuel with
  | O => res
  | S fuel =>
      match find_from (find_sub from) res pos with
      | None => res
      | Some p => replace_loop fuel (replace_at res p (length from) to) from to (p + length to)
      end
  end.
Definition replaceStrings (res from to : bytes) : bytes :=
  if bool_decide (from = []) then res
  else replace_loop (S (length res)) res from to 0.

(** The inner loop of [rewriteStrings]: [j] is not advanced past the
    replacement, so the loop may not end; [None] is running out of fuel. *)
Fixpoint rewrite_loop (fuel : nat) (s from to : bytes) (j : nat) : option bytes :=
  match fuel with
  | O => None
  | S fuel =>
      match find_from (find_sub from) s j with
      | None => Some s
      | Some j => rewrite_loop fuel (replace_at s j (length from) to) from to j
      end
  end.

Fixpoint rewriteStrings_fuel (fuel : nat) (s : bytes) (rewrites : list (bytes * bytes)) :
    option bytes :=
  match rewrites with
  | [] => Some s
  | (from, to) :: rewrites =>
      if bool_decide (from = to) then rewriteStrings_fuel fuel s rewrites
      else match rewrite_loop fuel s from to 0 with
           | None => None
           | Some s => rewriteStrings_fuel fuel s rewrites
           end
  end.

(** ** Case, shell quoting, lines (util.cc) *)

(** [std::tolower] in the C locale. *)
Definition tolower (c : ascii) : ascii :=
  if is_upper c then chr (code c + 32) else c.
Definition toLower (s : bytes) : bytes := tolower <$> s.

Definition squote : ascii := "'"%char.
Definition shellEscape (s : bytes) : bytes :=
  [squote] ++ concat ((fun i => if char_eqb i squote then L "'\''" else [i]) <$> s) ++ [squote].

Definition getLine (s : bytes) : bytes * bytes :=
  match find_char newline s with
  | None => (s, [])
  | Some i =>
      let line := take i s in
      let line :=
        match line !! (length line - 1) with
        | Some c => if char_eqb c carriage then take (length line - 1) line else line
        | None => line
        end in
      (line, drop (i + 1) s)
  end.

(** First loop of [stripIndentation]: [(minIndent, curIndent, atStartOfLine)]. *)
Definition indent_step (st : nat * nat * bool) (c : ascii) : nat * nat * bool :=
  let '(minIndent, curIndent, atStartOfLine) := st in
  if atStartOfLine && char_eqb c " " then (minIndent, S curIndent, atStartOfLine)
  else if char_eqb c newline then
    ((if atStartOfLine then Nat.max minIndent curIndent else minIndent), 0, true)
  else if atStartOfLine then (Nat.min minIndent curIndent, curIndent, false)
  else (minIndent, curIndent, atStartOfLine).

Fixpoint strip_loop (fuel : nat) (s : bytes) (minIndent pos : nat) (res : bytes) : bytes :=
  match fuel with
  | S fuel =>
      if pos <? length s then
        let eol := default (length s) (find_from (find_char newline) s pos) in
        let res :=
          if minIndent <? eol - pos
          then res ++ substr s (pos + minIndent) (eol - pos - minIndent) else res in
        strip_loop fuel s minIndent (eol + 1) (res ++ [newline])
      else res
  | O => res
  end.
(** [minIndent] starts at 10000. *)
Definition initialIndent : nat := 100 * 100.
Definition stripIndentation (s : bytes) : bytes :=
  let '(minIndent, _, _) := foldl indent_step (initialIndent, 0, true) s in
  strip_loop (S (length s)) s minIndent 0 [].

(** ** [shellSplitString] (strings.cc) *)

Record shell_state := ShellState {
  sh_result : list bytes;
  sh_current : bytes;
  sh_startedCurrent : bool;
  sh_escaping : bool;
}.

Definition pushCurrent (st : shell_state) : shell_state :=
  if sh_startedCurrent st
  then ShellState (sh_result st ++ [sh_current st]) [] false (sh_escaping st)
  else st.
Definition pushChar (c : ascii) (st : shell_state) : shell_state :=
  ShellState (sh_result st) (sh_current st ++ [c]) true (sh_escaping st).
Definition startCurrent (st : shell_state) : shell_state :=
  ShellState (sh_result st) (sh_current st) true (sh_escaping st).
Definition setEscaping (b : bool) (st : shell_state) : shell_state :=
  ShellState (sh_result st) (sh_current st) (sh_startedCurrent st) b.

(** What the outer loop is in: the two nested loops are states of the
    scanner, since each consumes the same input. *)
Inductive shell_mode := Unquoted | DoubleQuoted | SingleQuoted.

Definition dq_escapable (c : ascii) : bool :=
  char_eqb c "$" || char_eqb c "`" || char_eqb c dquote || char_eqb c backslash.

Definition inDoubleQuotes_step (c : ascii) (st : shell_state) : shell_mode * shell_state :=
  if sh_escaping st then
    let st := if dq_escapable c then pushChar c st else pushChar c (pushChar backslash st) in
    (DoubleQuoted, setEscaping false st)
  else if char_eqb c backslash then (DoubleQuoted, setEscaping true st)
  else if char_eqb c dquote then (Unquoted, st)
  else (DoubleQuoted, pushChar c st).

Definition inSingleQuotes_step (c : ascii) (st : shell_state) : shell_mode * shell_state :=
  if char_eqb c squote then (Unquoted, st) else (SingleQuoted, pushChar c st).

Definition unquoted_step (c : ascii) (st : shell_state) : shell_mode * shell_state :=
  if sh_escaping st then (Unquoted, setEscaping false (pushChar c st))
  else if char_eqb c backslash then (Unquoted, setEscaping true st)
  else if char_eqb c " " || char_eqb c tabulator then (Unquoted, pushCurrent st)
  else if char_eqb c dquote then (DoubleQuoted, startCurrent st)
  else if char_eqb c squote then (SingleQuoted, startCurrent st)
  else (Unquoted, pushChar c st).

Definition shell_step (ms : shell_mode * shell_state) (c : ascii) : shell_mode * shell_state :=
  let '(m, st) := ms in
  match m with
  | Unquoted => unquoted_step c st
  | DoubleQuoted => inDoubleQuotes_step c st
  | SingleQuoted => inSingleQuotes_step c st
  end.

Definition shellSplitString (s : bytes) : result (list bytes) :=
  match foldl shell_step (Unquoted, ShellState [] [] false false) s with
  | (Unquoted, st) => Ok (sh_result (pushCurrent st))
  | (_, _) => throw Error
  end.

(** ** Splitting agrees with a structural reference *)

Section split_ref.
Variable sep : ascii -> bool.

(** The fields of [s] between separators. *)
Fixpoint split_ref (s : bytes) : list bytes :=
  match s with
  | [] => [[]]
  | c :: s =>
      if sep c then [] :: split_ref s
      else match split_ref s with
           | [] => [[c]]
           | f :: fs => (c :: f) :: fs
           end
  end.

Lemma split_ref_nonnil s : split_ref s <> [].
Proof. destruct s as [|c s]; simpl; [done|]. by repeat case_match. Qed.

Lemma split_ref_find s :
  split_ref s =
  match find_if sep s with
  | Some i => take i s :: split_ref (drop (S i) s)
  | None => [s]
  end.
Proof.
  induction s as [|c s IH]; simpl; [done|].
  destruct (sep c); [done|]. rewrite IH.
  by destruct (find_if sep s).
Qed.

Lemma split_ref_app s t :
  Forall (fun c => sep c = false) s ->
  split_ref (s ++ t) =
  match split_ref t with [] => [s] | f :: fs => (s ++ f) :: fs end.
Proof.
  induction 1 as [|c s Hc Hs IH]; simpl.
  - pose proof (split_ref_nonnil t). by destruct (split_ref t).
  - rewrite Hc, IH. by destruct (split_ref t).
Qed.

Lemma split_ref_none s : Forall (fun c => sep c = false) s -> split_ref s = [s].
Proof. intros Hs. rewrite split_ref_find. by apply find_if_None in Hs as ->. Qed.

Lemma split_ref_fields s f :
  f ∈ split_ref s -> Forall (fun c => sep c = false) f.
Proof.
  revert f. induction s as [|c s IH]; intros f; simpl; [set_solver|].
  destruct (sep c) eqn:Ec; [set_solver|].
  pose proof (split_ref_nonnil s). destruct (split_ref s) as [|g gs]; [done|].
  rewrite elem_of_cons. intros [->|?]; [constructor|]; set_solver.
Qed.

(** The tokens are the nonempty fields. *)
Lemma split_ref_skip s :
  filter (fun f => f <> []) (split_ref s) =
  match find_if (fun c => negb (sep c)) s with
  | None => []
  | Some i => filter (fun f => f <> []) (split_ref (drop i s))
  end.
Proof.
  induction s as [|c s IH]; simpl; [done|].
  destruct (sep c) eqn:Ec; simpl.
  - rewrite filter_cons, IH. by destruct (find_if _ s).
  - by rewrite Ec.
Qed.
End split_ref.

Lemma split_loop_ref fuel s seps pos :
  pos <= length s -> length s - pos < fuel ->
  split_loop fuel s seps pos = split_ref (one_of seps) (drop pos s).
Proof.
  revert pos. induction fuel as [|fuel IH]; intros pos Hpos Hf; [lia|]. simpl.
  rewrite (proj2 (Nat.leb_le _ _) Hpos). rewrite split_ref_find.
  unfold find_from, find_first_of, substr.
  destruct (find_if (one_of seps) (drop pos s)) as [i|] eqn:E; simpl.
  - pose proof (find_if_lt _ _ _ E) as Hi. rewrite length_drop in Hi.
    replace (pos + i - pos) with i by lia. f_equal.
    rewrite IH by lia. rewrite drop_drop. do 2 f_equal. lia.
  - rewrite take_ge by (rewrite length_drop; lia). f_equal.
    destruct fuel; simpl; [done|]. by rewrite (proj2 (Nat.leb_gt _ _)) by lia.
Qed.

Lemma splitString_ref s seps : splitString s seps = split_ref (one_of seps) s.
Proof. unfold splitString. rewrite split_loop_ref by lia. by rewrite drop_0. Qed.

(** One token: a maximal separator-free run. *)
Lemma tokenize_loop_ref fuel s seps pos :
  length s - pos < fuel ->
  tokenize_loop fuel s seps (find_from (find_first_not_of seps) s pos) =
  filter (fun f => f <> []) (split_ref (one_of seps) (drop pos s)).
Proof.
  revert pos. induction fuel as [|fuel IH]; intros pos Hf; [lia|].
  rewrite split_ref_skip. unfold find_from at 1, find_first_not_of at 1.
  destruct (find_if _ (drop pos s)) as [i|] eqn:E; [|done].
  pose proof (find_if_lt _ _ _ E) as Hi. rewrite length_drop in Hi.
  apply find_if_Some in E as (c & Hc & Hsep & _). rewrite lookup_drop in Hc.
  apply negb_true_iff in Hsep. rewrite drop_drop. cbn [tokenize_loop fmap option_fmap option_map].
  set (q := pos + i) in *. unfold substr. rewrite (drop_S s c q) by done.
  cbn [split_ref]. rewrite Hsep, split_ref_find. rewrite IH by (unfold find_from;
    destruct (find_first_of seps (drop (q + 1) s)); simpl; lia).
  unfold find_from, find_first_of. replace (q + 1) with (S q) by lia.
  destruct (find_if (one_of seps) (drop (S q) s)) as [j|] eqn:Ej;
    cbn [fmap option_fmap option_map from_option id].
  - rewrite filter_cons_True by done. replace (S q + j) with (S (q + j)) by lia. replace (S (q + j) - q) with (S j) by lia.
    rewrite firstn_cons. f_equal. apply find_if_Some in Ej as (d & Hd & Hds & _).
    rewrite lookup_drop in Hd. replace (S q + j) with (S (q + j)) in Hd by lia.
    rewrite (drop_S s d (S (q + j))) by done. cbn [split_ref]. rewrite Hds.
    rewrite filter_cons_False by (intros Hn; by apply Hn).
    rewrite drop_drop. do 3 f_equal. lia.
  - rewrite filter_cons_True by done. rewrite filter_nil.
    rewrite take_ge by (simpl; rewrite length_drop; lia). by rewrite drop_all.
Qed.

Lemma tokenizeString_ref s seps :
  tokenizeString s seps = filter (fun f => f <> []) (split_ref (one_of seps) s).
Proof. unfold tokenizeString. rewrite tokenize_loop_ref by lia. by rewrite drop_0. Qed.

Lemma concat_loop_tail sep acc ss :
  concat_loop sep true acc ss = acc ++ concat ((fun s => sep ++ s) <$> ss).
Proof.
  revert acc. induction ss as [|s ss IH]; intros acc; simpl; [by rewrite app_nil_r|].
  rewrite IH. by rewrite <- !app_assoc.
Qed.

Lemma concatStringsSep_cons sep s ss :
  concatStringsSep sep (s :: ss) = s ++ concat ((fun s => sep ++ s) <$> ss).
Proof. unfold concatStringsSep. simpl. apply concat_loop_tail. Qed.

Lemma concatStringsSep_cons2 sep s t ss :
  concatStringsSep sep (s :: t :: ss) = s ++ sep ++ concatStringsSep sep (t :: ss).
Proof. rewrite !concatStringsSep_cons. simpl. by rewrite <- !app_assoc. Qed.

Lemma concat_split_ref sepc s :
  concatStringsSep [sepc] (split_ref (one_of [sepc]) s) = s.
Proof.
  induction s as [|c s IH]; simpl; [done|].
  pose proof (split_ref_nonnil (one_of [sepc]) s).
  destruct (split_ref (one_of [sepc]) s) as [|f fs] eqn:E; [done|].
  unfold one_of. case_bool_decide as Hc.
  - assert (c = sepc) as -> by set_solver. rewrite concatStringsSep_cons2, IH. done.
  - rewrite concatStringsSep_cons in *. simpl. by f_equal.
Qed.

Lemma split_concat sepc ss :
  ss <> [] -> Forall (fun f => sepc ∉ f) ss ->
  split_ref (one_of [sepc]) (concatStringsSep [sepc] ss) = ss.
Proof.
  intros Hne Hss. induction Hss as [|f ss Hf Hss IH]; [done|].
  assert (Forall (fun c => one_of [sepc] c = false) f) as Hf'.
  { apply Forall_forall. intros c Hc. unfold one_of. apply bool_decide_eq_false. set_solver. }
  destruct ss as [|g ss].
  - rewrite concatStringsSep_cons. simpl. rewrite app_nil_r. by apply split_ref_none.
  - rewrite concatStringsSep_cons2, split_ref_app by done. simpl.
    unfold one_of at 1. rewrite bool_decide_true by set_solver.
    rewrite IH by done. by rewrite app_nil_r.
Qed.

(** Splitting and joining are inverse: for a single separator character,
    joining the fields of any string gives the string back, and splitting the
    join of a nonempty list of separator-free strings gives the list back. *)
Theorem splitString_concatStringsSep (sepc : ascii) :
  (forall s, concatStringsSep [sepc] (splitString s [sepc]) = s) /\
  (forall ss, ss <> [] -> Forall (fun f => sepc ∉ f) ss ->
     splitString (concatStringsSep [sepc] ss) [sepc] = ss).
Proof.
  split.
  - intros s. rewrite splitString_ref. apply concat_split_ref.
  - intros ss Hne Hss. rewrite splitString_ref. by apply split_concat.
Qed.

Lemma splitString_concatStringsSep_witness :
  splitString (concatStringsSep [","%char] [L "a"; []; L "bc"]) [","%char] = [L "a"; []; L "bc"].
Proof.
  apply (proj2 (splitString_concatStringsSep ","%char)); [done|].
  repeat constructor; unfold not; intros H%list_elem_of_In; simpl in H; naive_solver.
Defined.

(** [tokenizeString] returns exactly the nonempty fields of
    [splitString], in order, so every token is nonempty and free of
    separators. *)
Theorem tokenizeString_nonempty_fields (s seps : bytes) :
  tokenizeString s seps = filter (fun f => f <> []) (splitString s seps) /\
  Forall (fun tok => tok <> [] /\ Forall (fun c => one_of seps c = false) tok)
         (tokenizeString s seps).
Proof.
  rewrite tokenizeString_ref, splitString_ref. split; [done|].
  apply Forall_forall. intros f [Hne Hf]%list_elem_of_filter.
  split; [done|]. by eapply split_ref_fields.
Qed.

(** ** Shell quoting round trip *)

Definition escape_body (s : bytes) : bytes :=
  concat ((fun i => if char_eqb i squote then L "'\''" else [i]) <$> s).

Lemma shell_body r cur s rest :
  foldl shell_step (SingleQuoted, ShellState r cur true false) (escape_body s ++ rest) =
  foldl shell_step (SingleQuoted, ShellState r (cur ++ s) true false) rest.
Proof.
  revert cur. induction s as [|c s IH]; intros cur; [simpl; by rewrite app_nil_r|].
  change (escape_body (c :: s)) with
    ((if char_eqb c squote then L "'\''" else [c]) ++ escape_body s).
  rewrite <- app_assoc, foldl_app. replace (cur ++ c :: s) with ((cur ++ [c]) ++ s)
    by (by rewrite <- app_assoc).
  rewrite <- IH. f_equal. destruct (char_eqb c squote) eqn:E.
  - by apply char_eqb_eq in E as ->.
  - simpl. unfold inSingleQuotes_step. by rewrite E.
Qed.

Lemma shell_word r s rest :
  foldl shell_step (Unquoted, ShellState r [] false false) (shellEscape s ++ rest) =
  foldl shell_step (Unquoted, ShellState r s true false) rest.
Proof.
  unfold shellEscape. fold (escape_body s). rewrite <- !app_assoc, foldl_app.
  apply (shell_body r [] s ([squote] ++ rest)).
Qed.

Lemma shell_words args r a :
  foldl shell_step (Unquoted, ShellState r a true false)
    (concat ((fun s => L " " ++ s) <$> (shellEscape <$> args))) =
  (Unquoted, ShellState (r ++ removelast (a :: args)) (List.last (a :: args) []) true false).
Proof.
  revert r a. induction args as [|b args IH]; intros r a; [simpl; by rewrite app_nil_r|].
  rewrite !fmap_cons. cbn [concat]. rewrite <- !app_assoc, foldl_app.
  change (foldl shell_step _ (L " ")) with (Unquoted, ShellState (r ++ [a]) [] false false).
  rewrite shell_word, IH. by rewrite <- app_assoc.
Qed.

(** Quoting is inverted by splitting: the words of a command line made
    of quoted arguments separated by single spaces are the arguments, whatever
    bytes they hold. *)
Theorem shellSplitString_shellEscape (args : list bytes) :
  shellSplitString (concatStringsSep (L " ") (shellEscape <$> args)) = Ok args.
Proof.
  unfold shellSplitString. destruct args as [|a args]; [done|].
  rewrite fmap_cons, concatStringsSep_cons, shell_word, shell_words.
  unfold pushCurrent. cbn [sh_startedCurrent sh_result sh_current].
  f_equal. symmetry. by apply app_removelast_last.
Qed.

(** ** Replacing and rewriting *)

Lemma find_from_app f (pre rest : bytes) :
  find_from f (pre ++ rest) (length pre) = (fun i => length pre + i) <$> f rest.
Proof. unfold find_from. by rewrite drop_app_length. Qed.

Lemma replace_at_app (pre mid to post : bytes) :
  replace_at (pre ++ mid ++ post) (length pre) (length mid) to = pre ++ to ++ post.
Proof.
  unfold replace_at. by rewrite take_app_length, <- drop_drop, !drop_app_length.
Qed.

(** [pieces] cut a string at the leftmost, non-overlapping occurrences of
    [from]: each piece ends right before the first occurrence that follows,
    the last piece has none. *)
Fixpoint leftmost_pieces (from : bytes) (pieces : list bytes) : Prop :=
  match pieces with
  | [] => False
  | [p] => find_sub from p = None
  | p :: ps => find_sub from (p ++ from) = Some (length p) /\ leftmost_pieces from ps
  end.

Lemma find_sub_app_Some needle s t i :
  find_sub needle s = Some i -> find_sub needle (s ++ t) = Some i.
Proof.
  revert i. induction s as [|c s IH]; intros i; simpl.
  - destruct (starts_with [] needle) eqn:E; [|done]. intros [= <-].
    apply starts_with_spec in E as [u Hu]. symmetry in Hu. apply app_eq_nil in Hu as [-> ->].
    by destruct t.
  - destruct (starts_with (c :: s) needle) eqn:E.
    + intros [= <-]. apply starts_with_spec in E as [u Hu].
      change (c :: s ++ t) with ((c :: s) ++ t). by rewrite Hu, <- app_assoc, starts_with_app.
    + rewrite fmap_Some. intros (j & Hj & ->). rewrite (IH j Hj).
      destruct (starts_with (c :: s ++ t) needle) eqn:E'; [|done].
      apply find_sub_Some in Hj as (pre & post & -> & _).
      apply starts_with_spec in E' as [u Hu]. exfalso.
      assert (starts_with (c :: pre ++ needle ++ post) needle = true) as Hc; [|congruence].
      rewrite starts_with_take. apply bool_decide_eq_true.
      apply (f_equal (take (length needle))) in Hu. rewrite take_app_length in Hu.
      change (c :: ?x ++ t) with ((c :: x) ++ t) in Hu.
      rewrite take_app_le in Hu; [done|]. simpl. rewrite !length_app. lia.
Qed.

Lemma find_sub_cut from rest i :
  find_sub from rest = Some i ->
  exists p post, rest = p ++ from ++ post /\ length p = i /\
    find_sub from (p ++ from) = Some (length p).
Proof.
  intros E. pose proof (find_sub_Some _ _ _ E) as (p & post & -> & <-).
  exists p, post. split; [done|]. split; [done|].
  destruct (find_sub from (p ++ from)) as [k|] eqn:Ek.
  - apply (find_sub_app_Some _ _ post) in Ek. rewrite <- app_assoc in Ek. congruence.
  - exfalso. rewrite find_sub_None in Ek. apply (Ek p []). by rewrite app_nil_r.
Qed.

Lemma replace_loop_pieces from rest :
  from <> [] ->
  exists pieces, concatStringsSep from pieces = rest /\ leftmost_pieces from pieces /\
    forall to pre fuel, length rest < fuel ->
      replace_loop fuel (pre ++ rest) from to (length pre) = pre ++ concatStringsSep to pieces.
Proof.
  intros Hne. remember (length rest) as n eqn:Hn. revert rest Hn.
  induction (lt_wf n) as [n _ IH]; intros rest ->.
  destruct (find_sub from rest) as [i|] eqn:E.
  - apply find_sub_cut in E as (p & post & -> & _ & E).
    assert (0 < length from) by (destruct from; simpl; [done | lia]).
    destruct (IH (length post)) with (rest := post) as (ps & Hps & Hl & Hr);
      [rewrite !length_app; lia | done |].
    destruct ps as [|q ps]; [done|].
    exists (p :: q :: ps). rewrite concatStringsSep_cons2, Hps. split; [done|].
    split; [done|]. intros to pre [|fuel] Hf; [lia|]. cbn [replace_loop].
    rewrite find_from_app, (app_assoc p), (find_sub_app_Some _ _ _ _ E). cbn [fmap option_fmap option_map].
    rewrite <- length_app, <- (app_assoc p), (app_assoc pre), replace_at_app.
    rewrite <- length_app, (app_assoc (pre ++ p) to), Hr
      by (rewrite !length_app in Hf; lia).
    rewrite concatStringsSep_cons2. by rewrite <- !app_assoc.
  - exists [rest]. rewrite concatStringsSep_cons. simpl. rewrite app_nil_r.
    split; [done|]. split; [done|]. intros to pre [|fuel] Hf; [lia|]. cbn [replace_loop].
    rewrite find_from_app, E, concatStringsSep_cons. simpl. by rewrite app_nil_r.
Qed.

(** [replaceStrings] replaces exactly the leftmost non-overlapping
    occurrences: the subject is cut at them into pieces that do not depend on
    the replacement, and the result is the pieces joined by the replacement;
    in particular the loop ends on every input. *)
Theorem replaceStrings_pieces (s from : bytes) :
  from <> [] ->
  exists pieces, concatStringsSep from pieces = s /\ leftmost_pieces from pieces /\
    forall to, replaceStrings s from to = concatStringsSep to pieces.
Proof.
  intros Hne. destruct (replace_loop_pieces from s Hne) as (ps & H1 & H2 & H3).
  exists ps. split; [done|]. split; [done|]. intros to. unfold replaceStrings.
  rewrite bool_decide_false by done. apply (H3 to []). lia.
Qed.

Lemma replaceStrings_pieces_witness :
  exists pieces, concatStringsSep (L "aa") pieces = L "xaaay" /\
    leftmost_pieces (L "aa") pieces /\
    forall to, replaceStrings (L "xaaay") (L "aa") to = concatStringsSep to pieces.
Proof. by apply (replaceStrings_pieces (L "xaaay") (L "aa")). Defined.

Lemma find_from_ge f s j k : find_from f s j = Some k -> j <= k.
Proof. unfold find_from. rewrite fmap_Some. intros (i & _ & ->). lia. Qed.

(** A search that fails at [j] continues at [j + 1]. *)
Lemma find_from_step from s j :
  starts_with (drop j s) from = false -> find_from (find_sub from) s j = find_from (find_sub from) s (S j).
Proof.
  intros Hj. unfold find_from. destruct (drop j s) as [|c r] eqn:E.
  - rewrite (drop_ge s (S j)); [cbn [find_sub]; by rewrite Hj|].
    apply (f_equal length) in E. rewrite length_drop in E. simpl in E. lia.
  - assert (drop (S j) s = r) as ->.
    { replace (S j) with (j + 1) by lia. by rewrite <- drop_drop, E. }
    cbn [find_sub]. rewrite Hj. destruct (find_sub from r); simpl; [f_equal; lia | done].
Qed.

Lemma length_replace_at s p (from to : bytes) :
  length from = length to -> p + length from <= length s ->
  length (replace_at s p (length from) to) = length s.
Proof.
  intros Hl Hp. unfold replace_at.
  rewrite !length_app, length_take, length_drop. lia.
Qed.

Lemma find_from_occurrence from s j k :
  from <> [] -> find_from (find_sub from) s j = Some k ->
  exists post, drop k s = from ++ post /\ k + length from <= length s.
Proof.
  intros Hne. unfold find_from. rewrite fmap_Some. intros (i & Hi & ->).
  apply find_sub_Some in Hi as (pre & post & Hs & <-).
  assert (drop (j + length pre) s = from ++ post) as Hd.
  { by rewrite <- drop_drop, Hs, drop_app_length. }
  exists post. split; [done|].
  apply (f_equal length) in Hd. rewrite length_drop, length_app in Hd.
  assert (0 < length from) by (destruct from; simpl; [done|lia]). lia.
Qed.

Lemma drop_replace_at s p len to :
  p <= length s -> drop p (replace_at s p len to) = to ++ drop (p + len) s.
Proof.
  intros Hp. unfold replace_at. rewrite drop_app_ge by (rewrite length_take; lia).
  rewrite length_take. by replace (p - p `min` length s) with 0 by lia.
Qed.

(** Replacing by a string of the same length ends: each step moves the
    search at least one position to the right. *)
Lemma rewrite_loop_total from to s j fuel :
  from <> to -> length from = length to -> length s - j < fuel ->
  exists r, rewrite_loop fuel s from to j = Some r /\ length r = length s.
Proof.
  intros Hne Hlen. assert (from <> []) as Hnil by (intros ->; destruct to; done).
  revert s j. induction fuel as [|fuel IH]; intros s j Hf; [lia|]. cbn [rewrite_loop].
  destruct (find_from (find_sub from) s j) as [k|] eqn:E; [|by exists s].
  pose proof (find_from_ge _ _ _ _ E).
  apply find_from_occurrence in E as (post & Hd & Hk); [|done].
  set (s' := replace_at s k (length from) to).
  assert (length s' = length s) as Hl by (by apply length_replace_at).
  assert (starts_with (drop k s') from = false) as Hno.
  { unfold s'. rewrite drop_replace_at, starts_with_take by lia.
    apply bool_decide_eq_false. rewrite Hlen, take_app_length. congruence. }
  assert (0 < length from) by (destruct from; simpl; [done|lia]).
  destruct fuel as [|fuel]; [lia|].
  destruct (IH s' (S k)) as (r & Hr & Hlr); [lia|].
  exists r. split; [|lia]. rewrite <- Hr. cbn [rewrite_loop]. by rewrite find_from_step.
Qed.

(** When every rewrite replaces a string by one of the same length (hash
    parts and store path placeholders of one size), [rewriteStrings] returns,
    within a number of steps linear in the subject, and keeps its length. *)
Theorem rewriteStrings_same_length_total (s : bytes) (rewrites : list (bytes * bytes)) (fuel : nat) :
  Forall (fun r => length r.1 = length r.2) rewrites -> length s < fuel ->
  exists r, rewriteStrings_fuel fuel s rewrites = Some r /\ length r = length s.
Proof.
  intros Hr. revert s. induction Hr as [|[from to] rewrites Hl Hr IH]; intros s Hf; simpl in *.
  - by exists s.
  - case_bool_decide as E; [by apply IH|].
    destruct (rewrite_loop_total from to s 0 fuel) as (r & -> & Hlr); [done|done|lia|].
    destruct (IH r) as (r' & Hr' & Hlr'); [lia|]. exists r'. split; [done|lia].
Qed.

Lemma rewriteStrings_same_length_total_witness :
  exists r, rewriteStrings_fuel 5 (L "aabb") [(L "ab", L "ba"); (L "x", L "y")] = Some r /\
    length r = 4.
Proof.
  apply (rewriteStrings_same_length_total (L "aabb") [(L "ab", L "ba"); (L "x", L "y")] 5);
    [repeat constructor | simpl; lia].
Defined.

Lemma rewrite_loop_diverges fuel from ext s j :
  from <> [] -> is_Some (find_from (find_sub from) s j) ->
  rewrite_loop fuel s from (from ++ ext) j = None.
Proof.
  intros Hf. revert s j. induction fuel as [|fuel IH]; intros s j [k Hk]; [done|].
  cbn [rewrite_loop]. rewrite Hk.
  apply find_from_occurrence in Hk as (r & Hd & Hlen); [|done].
  apply IH. unfold find_from. rewrite drop_replace_at by lia. rewrite <- app_assoc.
  destruct (find_sub from (from ++ _)) as [i|] eqn:E; [by eexists|].
  exfalso. rewrite find_sub_None in E. by eapply (E []).
Qed.

(** The search position is not advanced past a replacement, so a rewrite
    whose replacement starts with the string it replaces never ends once that
    string occurs in the subject. *)
Theorem rewriteStrings_prefix_diverges (fuel : nat) (pre from ext post : bytes) :
  from <> [] -> ext <> [] ->
  rewriteStrings_fuel fuel (pre ++ from ++ post) [(from, from ++ ext)] = None.
Proof.
  intros Hf He. simpl. rewrite bool_decide_false by
    (intros Heq; apply He; rewrite <- (app_nil_r from) in Heq at 1; by apply app_inv_head in Heq).
  rewrite rewrite_loop_diverges; [done|done|].
  unfold find_from. rewrite drop_0.
  destruct (find_sub from (pre ++ from ++ post)) as [i|] eqn:E; [by eexists|].
  rewrite find_sub_None in E. by destruct (E pre post).
Qed.

Lemma rewriteStrings_prefix_diverges_witness :
  rewriteStrings_fuel 7 (L "ba") [(L "a", L "ab")] = None.
Proof. by apply (rewriteStrings_prefix_diverges 7 (L "b") (L "a") (L "b") []). Defined.

(** ** Indentation *)

(** A line: its indentation and its text, which starts with neither a space
    nor a line break and has no line break inside. *)
Definition text_line (l : nat * bytes) : Prop :=
  match l.2 with
  | [] => False
  | c :: _ => c <> " "%char /\ newline ∉ l.2
  end.
Definition indented (k : nat) (body : bytes) : bytes := replicate k " "%char ++ body ++ [newline].

Lemma indent_spaces mi cur k rest :
  foldl indent_step (mi, cur, true) (replicate k " "%char ++ rest) =
  foldl indent_step (mi, cur + k, true) rest.
Proof.
  revert cur. induction k as [|k IH]; intros cur; [by rewrite Nat.add_0_r|].
  cbn [replicate app foldl]. change (indent_step (mi, cur, true) " ") with (mi, S cur, true).
  rewrite IH. do 2 f_equal. f_equal. lia.
Qed.

Lemma indent_text mi cur body rest :
  newline ∉ body ->
  foldl indent_step (mi, cur, false) (body ++ newline :: rest) = foldl indent_step (mi, 0, true) rest.
Proof.
  induction body as [|c body IH]; intros Hn; [done|]. cbn [app foldl].
  assert (char_eqb c newline = false) as E by (apply char_eqb_ne; set_solver).
  unfold indent_step at 2. simpl. rewrite E. apply IH. set_solver.
Qed.

Lemma indent_line mi k body rest :
  text_line (k, body) ->
  foldl indent_step (mi, 0, true) (indented k body ++ rest) =
  foldl indent_step (Nat.min mi k, 0, true) rest.
Proof.
  unfold text_line, indented. simpl. destruct body as [|c body]; [done|]. intros [Hc Hn].
  rewrite <- !app_assoc, indent_spaces. cbn [app foldl].
  assert (char_eqb c " " = false) as E1 by (by apply char_eqb_ne).
  assert (char_eqb c newline = false) as E2 by (apply char_eqb_ne; set_solver).
  unfold indent_step at 2. cbn [andb]. rewrite E1, E2. apply indent_text. set_solver.
Qed.

Lemma find_indented k body rest :
  newline ∉ body -> find_char newline (indented k body ++ rest) = Some (k + length body).
Proof.
  intros Hn. unfold indented. rewrite <- !app_assoc.
  rewrite (app_assoc (replicate k _) body). simpl. rewrite find_char_app.
  - by rewrite length_app, length_replicate.
  - rewrite elem_of_app. intros [Hr|?]; [|done]. by apply elem_of_replicate in Hr as [? _].
Qed.

Lemma drop_indented m k body rest :
  m <= k -> take (k + length body - m) (drop m (indented k body ++ rest)) = replicate (k - m) " "%char ++ body.
Proof.
  intros Hm. unfold indented. rewrite <- !app_assoc.
  rewrite drop_app_le by (rewrite length_replicate; lia).
  rewrite drop_replicate, (app_assoc (replicate _ _) body).
  apply take_app_length'. rewrite length_app, length_replicate. lia.
Qed.

Lemma strip_line fuel m pre k body rest res :
  newline ∉ body -> m <= k ->
  strip_loop (S fuel) (pre ++ indented k body ++ rest) m (length pre) res =
  strip_loop fuel ((pre ++ indented k body) ++ rest) m (length (pre ++ indented k body))
    (res ++ indented (k - m) body).
Proof.
  intros Hn Hm. cbn [strip_loop]. rewrite (proj2 (Nat.ltb_lt _ _)) by
    (unfold indented; rewrite !length_app; simpl; lia).
  rewrite find_from_app, find_indented by done.
  cbn [fmap option_fmap option_map from_option id].
  replace (length pre + (k + length body) - length pre) with (k + length body) by lia.
  unfold substr. rewrite <- drop_drop, drop_app_length, drop_indented by done.
  f_equal.
  - by rewrite <- app_assoc.
  - unfold indented. rewrite !length_app, length_replicate. simpl. lia.
  - unfold indented. destruct (m <? k + length body) eqn:E; [by rewrite <- !app_assoc|].
    apply Nat.ltb_ge in E. assert (k - m = 0) as -> by lia.
    destruct body; [done | simpl in *; lia].
Qed.

Lemma foldl_min_le (ls : list (nat * bytes)) mi :
  foldl (fun m l => Nat.min m l.1) mi ls <= mi /\
  Forall (fun l => foldl (fun m l => Nat.min m l.1) mi ls <= l.1) ls.
Proof.
  revert mi. induction ls as [|l ls IH]; intros mi; simpl; [done|].
  destruct (IH (Nat.min mi l.1)) as [H1 H2]. split; [lia|]. constructor; [lia | done].
Qed.

Lemma strip_lines ls m pre res fuel :
  Forall text_line ls -> Forall (fun l => m <= l.1) ls -> length ls < fuel ->
  strip_loop fuel (pre ++ concat ((fun l => indented l.1 l.2) <$> ls)) m (length pre) res =
  res ++ concat ((fun l => indented (l.1 - m) l.2) <$> ls).
Proof.
  intros Hls. revert pre res fuel.
  induction Hls as [|[k body] ls Hl Hls IH]; intros pre res [|fuel] Hm Hf; simpl in Hf; try lia.
  - cbn [fmap list_fmap concat]. rewrite !app_nil_r. cbn [strip_loop].
    by rewrite (proj2 (Nat.ltb_ge _ _)) by lia.
  - apply Forall_cons in Hm as [Hk Hm]. rewrite !fmap_cons. cbn [concat fst snd].
    rewrite strip_line; [|by unfold text_line in Hl; simpl in Hl; destruct body as [|? ?]; naive_solver|done].
    rewrite IH by (done || lia). by rewrite <- app_assoc.
Qed.

Lemma indent_lines mi ls :
  Forall text_line ls ->
  foldl indent_step (mi, 0, true) (concat ((fun l => indented l.1 l.2) <$> ls)) =
  (foldl (fun m l => Nat.min m l.1) mi ls, 0, true).
Proof.
  intros Hls. revert mi. induction Hls as [|[k body] ls Hl Hls IH]; intros mi; [done|].
  rewrite fmap_cons. cbn [concat fst snd]. by rewrite indent_line, IH.
Qed.

(** On a text all of whose lines have something other than spaces,
    [stripIndentation] removes exactly the common indentation, and nothing
    else, from the start of every line. *)
Theorem stripIndentation_common_indent (ls : list (nat * bytes)) :
  Forall text_line ls ->
  stripIndentation (concat ((fun l => indented l.1 l.2) <$> ls)) =
  concat ((fun l => indented (l.1 - foldl (fun m l => Nat.min m l.1) initialIndent ls) l.2) <$> ls).
Proof.
  intros Hls. unfold stripIndentation. rewrite indent_lines by done.
  apply (strip_lines ls _ [] []); [done|apply foldl_min_le|].
  clear Hls. induction ls as [|l ls IH]; [simpl; lia|].
  rewrite fmap_cons. cbn [concat length]. rewrite length_app. unfold indented at 1.
  rewrite !length_app. simpl. lia.
Qed.

Lemma stripIndentation_common_indent_witness :
  stripIndentation (L "  ab" ++ [newline] ++ L "   c" ++ [newline]) =
  L "ab" ++ [newline] ++ L " c" ++ [newline].
Proof.
  refine (stripIndentation_common_indent [(2, L "ab"); (3, L "c")] _).
  repeat constructor; unfold text_line; simpl; try discriminate;
    unfold not; intros H%list_elem_of_In; simpl in H; naive_solver.
Defined.

(** A whitespace-only line raises the common indentation to its own
    width, so the characters of the lines before it that lie within that
    width are deleted: a line indented by two spaces and followed by one of
    four spaces loses its first two letters. *)
Theorem stripIndentation_blank_line_deletes_text :
  stripIndentation (L "  abc" ++ [newline] ++ L "    " ++ [newline]) =
  L "c" ++ [newline; newline].
Proof. vm_compute. reflexivity. Qed.
