(* ===== verification/Base64.v ===== *)
(** * Base64 (libutil/util.cc: [base64Encode], [base64Decode])

    The encoder keeps a signed 32-bit accumulator that is never masked, the
    decoder an unsigned one: the model wraps both at their width, and the
    round trip shows that the overflow is harmless. *)

From S2P Require Import Prelude.
#[local] Open Scope Z_scope.

Definition base64Chars : bytes :=
  L "ABCDEFGHIJKLMNOPQRSTUVWXYZabcdefghijklmnopqrstuvwxyz0123456789+/".

(** ** Encoding *)

(** [while (nbits >= 6)]; [n] is fuel, [nbits] is enough. *)
Fixpoint enc_drain (n : nat) (data : Z) (nbits : nat) (res : bytes) : nat * bytes :=
  match n with
  | O => (nbits, res)
  | S n =>
      if (6 <=? nbits)%nat then
        let nbits := (nbits - 6)%nat in
        enc_drain n data nbits
          (res ++ [tbl base64Chars (Z.land (Z.shiftr data (Z.of_nat nbits)) 63)])
      else (nbits, res)
  end.

Definition enc_step (st : Z * nat * bytes) (c : ascii) : Z * nat * bytes :=
  let '(data, nbits, res) := st in
  let data := i32 (Z.lor (Z.shiftl data 8) (code c)) in
  let nbits := (nbits + 8)%nat in
  let '(nbits, res) := enc_drain nbits data nbits res in
  (data, nbits, res).

(** [while (res.size() % 4) res.push_back('=')]. *)
Definition pad4 (res : bytes) : bytes :=
  res ++ replicate ((4 - length res mod 4) mod 4)%nat "="%char.

Definition base64Encode (s : bytes) : bytes :=
  let '(data, nbits, res) := foldl enc_step (0, 0%nat, []) s in
  let res :=
    if bool_decide (nbits = 0%nat) then res
    else res ++ [tbl base64Chars (Z.land (i32 (Z.shiftl data (6 - Z.of_nat nbits))) 63)] in
  pad4 res.

(** ** Decoding *)

(** [base64DecodeChars\[c\]], [None] for [npos]. *)
Definition base64DecodeChar (c : ascii) : option Z := Z.of_nat <$> find_char c base64Chars.

Fixpoint dec_loop (s : bytes) (d : Z) (bits : nat) (res : bytes) : result bytes :=
  match s with
  | [] => Ok res
  | c :: s =>
      if char_eqb c "=" then Ok res
      else if char_eqb c newline then dec_loop s d bits res
      else match base64DecodeChar c with
           | None => throw FormatError
           | Some digit =>
               let bits := (bits + 6)%nat in
               let d := u32 (Z.lor (Z.shiftl d 6) digit) in
               if (8 <=? bits)%nat
               then dec_loop s d (bits - 8)%nat
                      (res ++ [chr (Z.land (Z.shiftr d (Z.of_nat bits - 8)) 255)])
               else dec_loop s d bits res
           end
  end.
Definition base64Decode (s : bytes) : result bytes := dec_loop s 0 0 [].

(** ** Facts *)

Lemma base64_table i :
  0 <= i < 64 ->
  base64DecodeChar (tbl base64Chars i) = Some i /\
  char_eqb (tbl base64Chars i) "=" = false /\
  char_eqb (tbl base64Chars i) newline = false.
Proof.
  intros Hi.
  assert (Hall : forallb (fun n =>
     let c := tbl base64Chars (Z.of_nat n) in
     bool_decide (base64DecodeChar c = Some (Z.of_nat n)) &&
     negb (char_eqb c "=") && negb (char_eqb c newline)) (seq 0 64) = true)
    by (vm_compute; reflexivity).
  rewrite forallb_forall in Hall. specialize (Hall (Z.to_nat i)).
  rewrite Z2Nat.id in Hall by lia. rewrite in_seq in Hall.
  specialize (Hall ltac:(lia)). cbv zeta in Hall.
  rewrite !andb_true_iff, !negb_true_iff, bool_decide_eq_true in Hall. tauto.
Qed.

Lemma i32_ex x : exists q, i32 x = x + 2 ^ 32 * q.
Proof. unfold i32. exists (- ((x + 2 ^ 31) / 2 ^ 32)). rewrite Z.mod_eq by lia. lia. Qed.

Lemma u32_ex x : exists q, u32 x = x + 2 ^ 32 * q.
Proof. unfold u32. exists (- (x / 2 ^ 32)). rewrite Z.mod_eq by lia. lia. Qed.

Lemma land63 x n : 0 <= n -> Z.land (Z.shiftr x n) 63 = (x mod 2 ^ (n + 6)) / 2 ^ n.
Proof. intros Hn. change 63 with (Z.ones 6). by rewrite shiftr_land_ones by lia. Qed.

Lemma land255 x n : 0 <= n -> Z.land (Z.shiftr x n) 255 = (x mod 2 ^ (n + 8)) / 2 ^ n.
Proof. intros Hn. change 255 with (Z.ones 8). by rewrite shiftr_land_ones by lia. Qed.

Ltac solve_bits :=
  repeat match goal with
  | |- context [i32 ?x] => let q := fresh "q" in
      destruct (i32_ex x) as [q ->]
  | |- context [u32 ?x] => let q := fresh "q" in
      destruct (u32_ex x) as [q ->]
  end;
  rewrite ?Z.shiftl_mul_pow2 by lia;
  cbn [Z.of_nat Z.add Z.sub Z.pow Z.pow_pos Pos.iter Z.mul Pos.of_succ_nat Pos.succ] in *;
  zlia.

(** The reference encoder: three bytes to four characters. *)
Fixpoint b64_ref (s : bytes) : bytes :=
  match s with
  | c1 :: c2 :: c3 :: s =>
      tbl base64Chars (code c1 / 4)
      :: tbl base64Chars (code c1 mod 4 * 16 + code c2 / 16)
      :: tbl base64Chars (code c2 mod 16 * 4 + code c3 / 64)
      :: tbl base64Chars (code c3 mod 64) :: b64_ref s
  | [c1; c2] =>
      [tbl base64Chars (code c1 / 4); tbl base64Chars (code c1 mod 4 * 16 + code c2 / 16);
       tbl base64Chars (code c2 mod 16 * 4); "="%char]
  | [c1] => [tbl base64Chars (code c1 / 4); tbl base64Chars (code c1 mod 4 * 16); "="%char; "="%char]
  | [] => []
  end.

(** Induction on a byte string three bytes at a time. *)
Lemma bytes3_ind (P : bytes -> Prop) :
  P [] -> (forall a, P [a]) -> (forall a b, P [a; b]) ->
  (forall a b c s, P s -> P (a :: b :: c :: s)) -> forall s, P s.
Proof.
  intros H0 H1 H2 H3. fix IH 1. intros [|a [|b [|c s]]]; [done|apply H1|apply H2|apply H3, IH].
Qed.

Lemma enc1 data res a :
  exists data', foldl enc_step (data, 0%nat, res) [a] =
    (data', 2%nat, res ++ [tbl base64Chars (code a / 4)]) /\ data' mod 4 = code a mod 4.
Proof.
  pose proof (code_bound a). eexists. split.
  - simpl. rewrite land63, lor_shiftl_add by lia. do 4 f_equal. solve_bits.
  - solve_bits.
Qed.

Lemma enc2 data res b :
  exists data', enc_step (data, 2%nat, res) b =
    (data', 4%nat, res ++ [tbl base64Chars (data mod 4 * 16 + code b / 16)]) /\
    data' mod 16 = code b mod 16.
Proof.
  pose proof (code_bound b). eexists. split.
  - simpl. rewrite land63, lor_shiftl_add by lia. do 4 f_equal. solve_bits.
  - solve_bits.
Qed.

Lemma enc3 data res c :
  exists data', enc_step (data, 4%nat, res) c =
    (data', 0%nat, res ++ [tbl base64Chars (data mod 16 * 4 + code c / 64);
                           tbl base64Chars (code c mod 64)]).
Proof.
  pose proof (code_bound c). eexists. simpl. rewrite !land63, !lor_shiftl_add by lia.
  rewrite <- app_assoc. simpl. do 2 f_equal. f_equal; [f_equal; solve_bits|].
  do 2 f_equal. solve_bits.
Qed.

(** The end of [base64Encode]: the last partial sextet and the padding. *)
Definition enc_finish (st : Z * nat * bytes) : bytes :=
  let '(data, nbits, res) := st in
  pad4 (if bool_decide (nbits = 0%nat) then res
        else res ++ [tbl base64Chars (Z.land (i32 (Z.shiftl data (6 - Z.of_nat nbits))) 63)]).

Lemma pad4_app res l : (length res mod 4 = 0)%nat -> pad4 (res ++ l) = res ++ pad4 l.
Proof.
  intros Hres. unfold pad4. rewrite <- app_assoc, length_app. do 3 f_equal.
  rewrite <- Nat.Div0.add_mod_idemp_l, Hres. done.
Qed.

Lemma enc_ref s data res :
  (length res mod 4 = 0)%nat ->
  enc_finish (foldl enc_step (data, 0%nat, res) s) = res ++ b64_ref s.
Proof.
  revert data res. induction s as [|a|a b|a b c s IH] using bytes3_ind; intros data res Hres.
  - simpl. rewrite <- (app_nil_r res) at 1. by rewrite pad4_app.
  - destruct (enc1 data res a) as (d1 & -> & H1). cbn [enc_finish].
    rewrite bool_decide_false, <- app_assoc, pad4_app by done. f_equal.
    change (6 - Z.of_nat 2) with 4. change 63 with (Z.ones 6). rewrite Z.land_ones by lia.
    replace (i32 (Z.shiftl d1 4) mod 2 ^ 6) with (code a mod 4 * 16) by solve_bits. done.
  - destruct (enc1 data res a) as (d1 & E1 & H1).
    change [a; b] with ([a] ++ [b]). rewrite foldl_app, E1. cbn [foldl].
    destruct (enc2 d1 (res ++ [tbl base64Chars (code a / 4)]) b) as (d2 & -> & H2).
    cbn [enc_finish]. rewrite bool_decide_false, <- !app_assoc, pad4_app by done. f_equal.
    change (6 - Z.of_nat 4) with 2. change 63 with (Z.ones 6). rewrite Z.land_ones by lia.
    rewrite H1. replace (i32 (Z.shiftl d2 2) mod 2 ^ 6) with (code b mod 16 * 4) by solve_bits.
    done.
  - destruct (enc1 data res a) as (d1 & E1 & H1).
    change (a :: b :: c :: s) with ([a] ++ b :: c :: s). rewrite foldl_app, E1. cbn [foldl].
    destruct (enc2 d1 (res ++ [tbl base64Chars (code a / 4)]) b) as (d2 & -> & H2).
    destruct (enc3 d2 ((res ++ [tbl base64Chars (code a / 4)]) ++
      [tbl base64Chars (d1 mod 4 * 16 + code b / 16)]) c) as (d3 & ->).
    rewrite IH.
    + rewrite H1, H2, <- !app_assoc. done.
    + rewrite !length_app, <- !Nat.add_assoc, Nat.Div0.add_mod, Hres. done.
Qed.

Lemma base64Encode_ref s : base64Encode s = b64_ref s.
Proof. apply (enc_ref s 0 []). done. Qed.

(** One decoded character. *)
Lemma dec_char i s d bits res :
  0 <= i < 64 ->
  dec_loop (tbl base64Chars i :: s) d bits res =
  (let d := u32 (d * 64 + i) in
   if (2 <=? bits)%nat
   then dec_loop s d (bits - 2)%nat (res ++ [chr (Z.land (Z.shiftr d (Z.of_nat bits - 2)) 255)])
   else dec_loop s d (bits + 6)%nat res).
Proof.
  intros Hi. destruct (base64_table i Hi) as (H1 & H2 & H3).
  cbn [dec_loop]. rewrite H1, H2, H3, lor_shiftl_add by lia. cbv zeta.
  change (2 ^ 6) with 64.
  destruct (Nat.leb_spec 2 bits), (Nat.leb_spec 8 (bits + 6)); try lia; [|done].
  replace (bits + 6 - 8)%nat with (bits - 2)%nat by lia.
  by replace (Z.of_nat (bits + 6) - 8) with (Z.of_nat bits - 2) by lia.
Qed.

Lemma dec_pad s d bits res : dec_loop ("="%char :: s) d bits res = Ok res.
Proof. reflexivity. Qed.

Lemma chr_eq x c : x mod 256 = code c -> chr x = c.
Proof. intros H. apply code_inj. by rewrite code_chr. Qed.

Ltac dec_steps :=
  repeat (rewrite dec_char by zlia; cbv zeta; cbn [Nat.leb Nat.add Nat.sub]);
  rewrite ?dec_pad, !land255, <- ?app_assoc by lia; cbn [app].

Lemma dec_ref s d res : dec_loop (b64_ref s) d 0 res = Ok (res ++ s).
Proof.
  revert d res. induction s as [|a|a b|a b c s IH] using bytes3_ind; intros d res; cbn [b64_ref].
  - by rewrite app_nil_r.
  - pose proof (code_bound a). dec_steps. do 3 f_equal. apply chr_eq. solve_bits.
  - pose proof (code_bound a). pose proof (code_bound b). dec_steps.
    do 3 f_equal; [|f_equal]; apply chr_eq; solve_bits.
  - pose proof (code_bound a). pose proof (code_bound b). pose proof (code_bound c).
    dec_steps. rewrite IH, <- app_assoc. cbn [app].
    do 3 f_equal; [|f_equal; [|f_equal]]; apply chr_eq; solve_bits.
Qed.

Lemma base64Decode_Encode s : base64Decode (base64Encode s) = Ok s.
Proof. rewrite base64Encode_ref. apply (dec_ref s 0 []). Qed.

Lemma base64Encode_length s : length (base64Encode s) = (4 * ((length s + 2) / 3))%nat.
Proof.
  rewrite base64Encode_ref. induction s as [|a|a b|a b c s IH] using bytes3_ind; try done.
  cbn [b64_ref length]. rewrite IH.
  replace (S (S (S (length s))) + 2)%nat with (length s + 2 + 1 * 3)%nat by lia.
  rewrite Nat.div_add by lia. lia.
Qed.

(** The characters an encoded string is made of. *)
Lemma base64Encode_alphabet s c : c ∈ base64Encode s -> c ∈ base64Chars ++ ["="%char].
Proof.
  assert (forall i, 0 <= i < 64 -> tbl base64Chars i ∈ base64Chars) as Ht.
  { intros i Hi. unfold tbl. apply list_elem_of_In, nth_In.
    change (length base64Chars) with 64%nat. lia. }
  rewrite base64Encode_ref, elem_of_app.
  induction s as [|a|a b|a b e s IH] using bytes3_ind; cbn [b64_ref];
    rewrite ?elem_of_cons, ?elem_of_nil; [done|..]; pose proof (code_bound a);
    try pose proof (code_bound b); try pose proof (code_bound e).
  1-3: intros H'; repeat destruct H' as [->|H'];
    first [done | left; apply Ht; zlia | by right; left | destruct (IH H'); set_solver].
Qed.

(** Decoding inverts encoding on every byte string, although the
    encoder's accumulator overflows [int] on inputs of more than a few bytes
    and the decoder's overflows [unsigned int]; the encoding has the padded
    length of RFC 4648. *)
Theorem base64_roundtrip (s : bytes) :
  base64Decode (base64Encode s) = Ok s /\
  length (base64Encode s) = (4 * ((length s + 2) / 3))%nat.
Proof. split; [apply base64Decode_Encode | apply base64Encode_length]. Qed.
