(* ===== verification/Hash.v ===== *)
(** * Hashes and their textual forms (libutil/hash.hh, hash.cc)

    A [Hash] is an algorithm, a size and a 64-byte array. The file models
    printing in base 16, nix32, base 64 and SRI form, parsing of every form,
    comparison and compression. The digest computed by the Zig library behind
    [hashString] is an interface ([Digest]) whose only law is the length of
    its result. *)

From S2P Require Import Prelude.
From S2P Require Import Containers.
From S2P Require Import Strings.
From S2P Require Import Base64.

(** ** Data *)

Inductive HashAlgorithm := MD5 | SHA1 | SHA256 | SHA512 | BLAKE3.
Inductive HashFormat := Base64 | Nix32 | Base16 | SRI.

#[export] Instance HashAlgorithm_eq_dec : EqDecision HashAlgorithm.
Proof. solve_decision. Defined.
#[export] Instance HashFormat_eq_dec : EqDecision HashFormat.
Proof. solve_decision. Defined.

Definition regularHashSize (type : HashAlgorithm) : nat :=
  match type with
  | BLAKE3 => 32 | MD5 => 16 | SHA1 => 20 | SHA256 => 32 | SHA512 => 64
  end.

Definition maxHashSize : nat := 64.

Record Hash := MkHash {
  hashSize : nat;
  hash : bytes;
  algo : HashAlgorithm;
}.

#[export] Instance Hash_eq_dec : EqDecision Hash.
Proof. solve_decision. Defined.

(** The representation invariant: the array has [maxHashSize] bytes and those
    beyond [hashSize] are zero. *)
Definition Hash_wf (h : Hash) : Prop :=
  length (hash h) = maxHashSize /\ 0 < hashSize h <= maxHashSize /\
  drop (hashSize h) (hash h) = replicate (maxHashSize - hashSize h) NUL.

(** A hash of the size its algorithm prescribes. *)
Definition Hash_regular (h : Hash) : Prop :=
  Hash_wf h /\ hashSize h = regularHashSize (algo h).

(** ** Construction *)

(** [Hash::Hash(algo, xpSettings)]: the zero hash. *)
Definition Hash_zero (xp : xpSettings) (a : HashAlgorithm) : result Hash :=
  (if bool_decide (a = BLAKE3) then require xp BLAKE3Hashes else Ok tt) ;;;
  assert_ (regularHashSize a <=? maxHashSize) ;;;
  Ok (MkHash (regularHashSize a) (replicate maxHashSize NUL) a).

(** The digest functions of libutil/hash.zig, called through
    [nix_libutil_hash_create/update/finish]. *)
Class Digest := {
  digest : HashAlgorithm -> bytes -> bytes;
  digest_length : forall a s, length (digest a s) = regularHashSize a;
}.

Definition hashString `{Digest} (xp : xpSettings) (ha : HashAlgorithm) (s : bytes) : result Hash :=
  let* h := Hash_zero xp ha in
  Ok (MkHash (hashSize h) (digest ha s ++ drop (regularHashSize ha) (hash h)) ha).

(** ** Comparison *)

Definition byte_at (s : bytes) (i : nat) : Z := code (nth i s NUL).

Definition Hash_eqb (h h2 : Hash) : bool :=
  (hashSize h =? hashSize h2) &&
  forallb (fun i => (byte_at (hash h) i =? byte_at (hash h2) i)%Z) (seq 0 (hashSize h)).

(** Position in the enumeration, for [algo <=> h.algo]. *)
Definition algo_code (a : HashAlgorithm) : Z :=
  match a with MD5 => 42 | SHA1 => 43 | SHA256 => 44 | SHA512 => 45 | BLAKE3 => 46 end%Z.

Fixpoint hash_compare_loop (h h2 : bytes) (idx : list nat) : comparison :=
  match idx with
  | [] => Eq
  | i :: idx =>
      match (byte_at h i ?= byte_at h2 i)%Z with
      | Eq => hash_compare_loop h h2 idx
      | o => o
      end
  end.
Definition Hash_compare (h h2 : Hash) : comparison :=
  match Nat.compare (hashSize h) (hashSize h2) with
  | Eq =>
      match hash_compare_loop (hash h) (hash h2) (seq 0 (hashSize h)) with
      | Eq => (algo_code (algo h) ?= algo_code (algo h2))%Z
      | o => o
      end
  | o => o
  end.

(** ** Names of algorithms and formats *)

Definition parseHashAlgoOpt (s : bytes) : option HashAlgorithm :=
  if bool_decide (s = L "blake3") then Some BLAKE3
  else if bool_decide (s = L "md5") then Some MD5
  else if bool_decide (s = L "sha1") then Some SHA1
  else if bool_decide (s = L "sha256") then Some SHA256
  else if bool_decide (s = L "sha512") then Some SHA512
  else None.

Definition parseHashAlgo (s : bytes) : result HashAlgorithm :=
  match parseHashAlgoOpt s with Some a => Ok a | None => throw UsageError end.

Definition printHashAlgo (ha : HashAlgorithm) : bytes :=
  match ha with
  | BLAKE3 => L "blake3" | MD5 => L "md5" | SHA1 => L "sha1"
  | SHA256 => L "sha256" | SHA512 => L "sha512"
  end.

Definition parseHashFormatOpt (s : bytes) : option HashFormat :=
  if bool_decide (s = L "base16") then Some Base16
  else if bool_decide (s = L "nix32") then Some Nix32
  else if bool_decide (s = L "base32") then Some Nix32
  else if bool_decide (s = L "base64") then Some Base64
  else if bool_decide (s = L "sri") then Some SRI
  else None.

Definition parseHashFormat (s : bytes) : result HashFormat :=
  match parseHashFormatOpt s with Some f => Ok f | None => throw UsageError end.

Definition printHashFormat (f : HashFormat) : bytes :=
  match f with
  | Base64 => L "base64" | Nix32 => L "nix32" | Base16 => L "base16" | SRI => L "sri"
  end.

(** ** Printing *)

Definition base16Len (h : Hash) : nat := hashSize h * 2.
Definition base32Len (h : Hash) : nat := (hashSize h * 8 - 1) / 5 + 1.
Definition base64Len (h : Hash) : nat :=
  Z.to_nat (Z.land (Z.of_nat (4 * hashSize h / 3 + 3)) (Z.lnot 3)).

Definition base16Chars : bytes := L "0123456789abcdef".
Definition nix32Chars : bytes := L "0123456789abcdfghijklmnpqrsvwxyz".

Definition hexByte (b : Z) : bytes :=
  [tbl base16Chars (Z.shiftr b 4); tbl base16Chars (Z.land b 15)].
Definition printHash16 (h : Hash) : bytes :=
  concat ((fun i => hexByte (byte_at (hash h) i)) <$> seq 0 (hashSize h)).

(** The value of the [n]-th nix32 digit: five bits from bit [5 n]. *)
Definition digit32 (h : bytes) (size n : nat) : Z :=
  let b := n * 5 in
  let i := b / 8 in
  let j := Z.of_nat (b mod 8) in
  let c := (Z.lor (Z.shiftr (byte_at h i) j)
             (if (size - 1 <=? i)%nat then 0 else Z.shiftl (byte_at h (i + 1)%nat) (8 - j)) mod 256)%Z in
  Z.land c 31.

Definition printHash32 (h : Hash) : result bytes :=
  assert_ (negb (hashSize h =? 0)) ;;;
  let len := base32Len h in
  assert_ (negb (len =? 0)) ;;;
  Ok ((fun n => tbl nix32Chars (digit32 (hash h) (hashSize h) n)) <$> reverse (seq 0 len)).

Definition to_string (h : Hash) (hashFormat : HashFormat) (includeAlgo : bool) : result bytes :=
  let s :=
    if bool_decide (hashFormat = SRI) || includeAlgo
    then printHashAlgo (algo h) ++ (if bool_decide (hashFormat = SRI) then L "-" else L ":")
    else [] in
  match hashFormat with
  | Base16 => Ok (s ++ printHash16 h)
  | Nix32 => let* t := printHash32 h in Ok (s ++ t)
  | Base64 | SRI => Ok (s ++ base64Encode (take (hashSize h) (hash h)))
  end.

Definition printHash16or32 (h : Hash) : result bytes :=
  to_string h (if bool_decide (algo h = MD5) then Base16 else Nix32) false.

(** ** Parsing *)

Definition parseHexDigit (c : ascii) : result Z :=
  if in_range "0" "9" c then Ok (code c - code "0")%Z
  else if in_range "A" "F" c then Ok (code c - code "A" + 10)%Z
  else if in_range "a" "f" c then Ok (code c - code "a" + 10)%Z
  else throw BadHash.

(** [n] bytes remain, the next one is [hash\[i\]]. *)
Fixpoint parse16_loop (n i : nat) (rest h : bytes) : result bytes :=
  match n with
  | O => Ok h
  | S n =>
      let* hi := parseHexDigit (nth (i * 2) rest NUL) in
      let* lo := parseHexDigit (nth (i * 2 + 1) rest NUL) in
      parse16_loop n (i + 1) rest (<[i := chr (Z.lor (Z.shiftl hi 4) lo)]> h)
  end.

(** One round of the base-32 loop: merge [digit] at bit [5 n]. *)
Definition put32 (size : nat) (n : nat) (digit : Z) (h : bytes) : result bytes :=
  let b := n * 5 in
  let i := b / 8 in
  let j := Z.of_nat (b mod 8) in
  let h := <[i := chr (Z.lor (byte_at h i) (Z.shiftl digit j))]> h in
  if i <? size - 1
  then Ok (<[i + 1 := chr (Z.lor (byte_at h (i + 1)) (Z.shiftr digit (8 - j)))]> h)
  else if bool_decide (Z.shiftr digit (8 - j) = 0)%Z then Ok h else throw BadHash.

(** The characters are read from the end of the string: [cs] is what remains
    of [rest] reversed. *)
Fixpoint parse32_loop (size n : nat) (cs h : bytes) : result bytes :=
  match cs with
  | [] => Ok h
  | c :: cs =>
      match find_char c nix32Chars with
      | None => throw BadHash
      | Some digit =>
          let* h := put32 size n (Z.of_nat digit) h in
          parse32_loop size (n + 1) cs h
      end
  end.

(** [Hash::Hash(rest, algo, isSRI)]. *)
Definition Hash_parse (xp : xpSettings) (rest : bytes) (a : HashAlgorithm) (isSRI : bool) :
    result Hash :=
  let* h := Hash_zero xp a in
  if negb isSRI && (length rest =? base16Len h) then
    let* b := parse16_loop (hashSize h) 0 rest (hash h) in
    Ok (MkHash (hashSize h) b a)
  else if negb isSRI && (length rest =? base32Len h) then
    let* b := parse32_loop (hashSize h) 0 (reverse rest) (hash h) in
    Ok (MkHash (hashSize h) b a)
  else if isSRI || (length rest =? base64Len h) then
    (* the exception of [base64Decode] is caught and not rethrown *)
    let d := match base64Decode rest with Ok d => d | Err _ => [] end in
    if negb (length d =? hashSize h) then throw BadHash
    else assert_ (negb (hashSize h =? 0)) ;;;
         Ok (MkHash (hashSize h) (take (hashSize h) d ++ drop (hashSize h) (hash h)) a)
  else throw BadHash.

Definition parseNonSRIUnprefixed (xp : xpSettings) (s : bytes) (a : HashAlgorithm) : result Hash :=
  Hash_parse xp s a false.

Definition parseSRI (xp : xpSettings) (original : bytes) : result Hash :=
  match splitPrefixTo original "-" with
  | (None, _) => throw BadHash
  | (Some hashRaw, rest) =>
      let* parsedType := parseHashAlgo hashRaw in
      Hash_parse xp rest parsedType true
  end.

(** The algorithm prefix if there is one, whether it ended in a dash, and the
    rest of the string. *)
Definition getParsedTypeAndSRI (rest : bytes) : result (option HashAlgorithm * bool * bytes) :=
  match splitPrefixTo rest ":" with
  | (Some hashRaw, rest) => let* a := parseHashAlgo hashRaw in Ok (Some a, false, rest)
  | (None, rest) =>
      match splitPrefixTo rest "-" with
      | (Some hashRaw, rest) => let* a := parseHashAlgo hashRaw in Ok (Some a, true, rest)
      | (None, rest) => Ok (None, false, rest)
      end
  end.

Definition parseAnyPrefixed (xp : xpSettings) (original : bytes) : result Hash :=
  let* (optParsedType, isSRI, rest) := getParsedTypeAndSRI original in
  match optParsedType with
  | None => throw BadHash
  | Some a => Hash_parse xp rest a isSRI
  end.

Definition parseAny (xp : xpSettings) (original : bytes) (optAlgo : option HashAlgorithm) :
    result Hash :=
  let* (optParsedType, isSRI, rest) := getParsedTypeAndSRI original in
  match optParsedType, optAlgo with
  | None, None => throw BadHash
  | Some a, Some a' => if bool_decide (a <> a') then throw BadHash else Hash_parse xp rest a isSRI
  | Some a, None => Hash_parse xp rest a isSRI
  | None, Some a' => Hash_parse xp rest a' isSRI
  end.

Definition newHashAllowEmpty (xp : xpSettings) (hashStr : bytes) (ha : option HashAlgorithm) :
    result Hash :=
  if bool_decide (hashStr = []) then
    match ha with
    | None => throw BadHash
    | Some a => let* h := Hash_zero xp a in let* _ := to_string h SRI true in Ok h
    end
  else parseAny xp hashStr ha.

(** ** Compression *)

Fixpoint compress_loop (idx : list nat) (newSize : nat) (src h : bytes) : bytes :=
  match idx with
  | [] => h
  | i :: idx =>
      let k := i mod newSize in
      compress_loop idx newSize src (<[k := chr (Z.lxor (byte_at h k) (byte_at src i))]> h)
  end.
(** [newSize] is at least 1 at every call (a zero size divides by zero). *)
Definition compressHash (xp : xpSettings) (h : Hash) (newSize : nat) : result Hash :=
  let* r := Hash_zero xp (algo h) in
  if bool_decide (newSize = 0 /\ hashSize h <> 0) then Err UndefinedBehaviour
  else Ok (MkHash newSize (compress_loop (seq 0 (hashSize h)) newSize (hash h) (hash r)) (algo r)).

(** ** Bits of a byte array *)

Definition bit (h : bytes) (k : nat) : bool := Z.testbit (byte_at h (k / 8)) (Z.of_nat (k mod 8)).

Lemma byte_at_bound h i : (0 <= byte_at h i < 256)%Z.
Proof. apply code_bound. Qed.

Lemma testbit_byte_high h i r : (8 <= r)%Z -> Z.testbit (byte_at h i) r = false.
Proof.
  intros Hr. pose proof (byte_at_bound h i).
  destruct (decide (byte_at h i = 0)%Z) as [->|]; [apply Z.bits_0|].
  apply Z.bits_above_log2; [lia|]. apply Z.log2_lt_pow2; [lia|].
  eapply Z.lt_le_trans; [apply byte_at_bound|]. change 256%Z with (2 ^ 8)%Z.
  apply Z.pow_le_mono_r; lia.
Qed.

Lemma testbit_mod256 x r : (0 <= r < 8)%Z -> Z.testbit (x mod 256) r = Z.testbit x r.
Proof. intros Hr. change 256%Z with (2 ^ 8)%Z. by rewrite Z.mod_pow2_bits_low by lia. Qed.

Lemma bit_pos h i r : r < 8 -> bit h (8 * i + r) = Z.testbit (byte_at h i) (Z.of_nat r).
Proof.
  intros Hr. unfold bit. replace (8 * i + r) with (r + i * 8) by lia.
  rewrite Nat.div_add, Nat.Div0.mod_add, Nat.div_small, Nat.mod_small by lia. done.
Qed.

(** Every bit number is a byte index and an offset. *)
Lemma bit_index k : exists i r, k = 8 * i + r /\ r < 8 /\ i = k / 8 /\ r = k mod 8.
Proof.
  exists (k / 8), (k mod 8). split; [apply Nat.div_mod_eq|].
  split; [|done]. by apply Nat.mod_upper_bound.
Qed.

Lemma bytes_bit_ext s t :
  length s = length t -> (forall k, k < 8 * length s -> bit s k = bit t k) -> s = t.
Proof.
  intros Hl Hb. apply (nth_ext _ _ NUL NUL); [done|]. intros i Hi. apply code_inj.
  fold (byte_at s i) (byte_at t i). apply Z.bits_inj'. intros r Hr.
  destruct (Z.ltb_spec r 8); [|by rewrite !testbit_byte_high by lia].
  specialize (Hb (8 * i + Z.to_nat r) ltac:(lia)). rewrite !bit_pos in Hb by lia.
  by rewrite Z2Nat.id in Hb by lia.
Qed.

Lemma byte_at_insert h i c k :
  i < length h -> byte_at (<[i := c]> h) k = if decide (k = i) then code c else byte_at h k.
Proof.
  intros Hi. unfold byte_at. rewrite !nth_lookup.
  destruct (decide (k = i)) as [->|Hne].
  - by rewrite list_lookup_insert_eq.
  - by rewrite list_lookup_insert_ne.
Qed.

Lemma bit_overflow h k : length h <= k / 8 -> bit h k = false.
Proof.
  intros Hk. unfold bit, byte_at. rewrite nth_overflow by lia. apply Z.bits_0.
Qed.

Lemma nth_replicate_NUL n k : nth k (replicate n NUL) NUL = NUL.
Proof.
  rewrite nth_lookup. destruct (replicate n NUL !! k) eqn:E; [|done].
  by apply lookup_replicate in E as [-> _].
Qed.

Lemma bit_replicate_NUL n k : bit (replicate n NUL) k = false.
Proof.
  unfold bit, byte_at. rewrite nth_replicate_NUL. apply Z.bits_0.
Qed.

(** ** Nix32 digits are groups of five bits *)

Lemma digit32_bits h size n t :
  t < 5 -> n * 5 < 8 * size ->
  Z.testbit (digit32 h size n) (Z.of_nat t) = (n * 5 + t <? 8 * size) && bit h (n * 5 + t).
Proof.
  intros Ht Hn. unfold digit32. rewrite Z.land_spec. change 31%Z with (Z.ones 5).
  rewrite Z.testbit_ones_nonneg by lia. rewrite (proj2 (Z.ltb_lt _ 5)) by lia.
  rewrite andb_true_r, testbit_mod256, Z.lor_spec, Z.shiftr_spec by lia.
  destruct (bit_index (n * 5)) as (i & j & Hb & Hj & <- & <-).
  rewrite Hb in *. destruct (Nat.leb_spec 8 (j + t)) as [Hc|Hc].
  - rewrite (testbit_byte_high h i) by lia. rewrite orb_false_l.
    replace (8 * i + j + t) with (8 * (i + 1) + (j + t - 8)) by lia.
    rewrite bit_pos by lia. destruct (Nat.leb_spec (size - 1) i).
    + rewrite Z.bits_0. by rewrite (proj2 (Nat.ltb_ge _ _)) by lia.
    + rewrite (proj2 (Nat.ltb_lt _ _)), andb_true_l, Z.shiftl_spec by lia. f_equal. lia.
  - rewrite <- Nat.add_assoc, bit_pos by lia.
    rewrite (proj2 (Nat.ltb_lt _ _)), andb_true_l by lia.
    destruct (size - 1 <=? i).
    + rewrite Z.bits_0, orb_false_r. f_equal. lia.
    + rewrite Z.shiftl_spec, (Z.testbit_neg_r _ (_ - _)), orb_false_r by lia. f_equal. lia.
Qed.

Lemma digit32_bound h size n : (0 <= digit32 h size n < 32)%Z.
Proof.
  unfold digit32. change 31%Z with (Z.ones 5). rewrite Z.land_ones by lia.
  apply Z.mod_pos_bound. lia.
Qed.

Lemma testbit_small d r : (0 <= d < 32 -> 5 <= r -> Z.testbit d r = false)%Z.
Proof.
  intros Hd Hr. destruct (decide (d = 0)%Z) as [->|]; [apply Z.bits_0|].
  apply Z.bits_above_log2; [lia|]. apply Z.log2_lt_pow2; [lia|].
  eapply Z.lt_le_trans; [apply Hd|]. change 32%Z with (2 ^ 5)%Z. apply Z.pow_le_mono_r; lia.
Qed.

(** The bits a digit [d] put at position [n] contributes. *)
Definition digit_bit (d : Z) (n k : nat) : bool :=
  (n * 5 <=? k) && Z.testbit d (Z.of_nat k - Z.of_nat (n * 5)).

Lemma digit_bit_range d n k :
  (0 <= d < 32)%Z -> digit_bit d n k = true -> n * 5 <= k < n * 5 + 5.
Proof.
  intros Hd. unfold digit_bit. intros [Hk%Nat.leb_le Ht]%andb_true_iff.
  split; [done|]. destruct (decide (k < n * 5 + 5)) as [|Hge]; [done|].
  rewrite testbit_small in Ht by lia. done.
Qed.

Lemma testbit_put b d j r :
  (0 <= j)%Z -> r < 8 ->
  Z.testbit (code (chr (Z.lor b (Z.shiftl d j)))) (Z.of_nat r) =
  Z.testbit b (Z.of_nat r) || Z.testbit d (Z.of_nat r - j).
Proof.
  intros Hj Hr. rewrite code_chr, testbit_mod256, Z.lor_spec, Z.shiftl_spec by lia. done.
Qed.

Lemma testbit_put_high b d j r :
  (0 <= j <= 8)%Z -> r < 8 ->
  Z.testbit (code (chr (Z.lor b (Z.shiftr d (8 - j))))) (Z.of_nat r) =
  Z.testbit b (Z.of_nat r) || Z.testbit d (Z.of_nat r + 8 - j).
Proof.
  intros Hj Hr. rewrite code_chr, testbit_mod256, Z.lor_spec, Z.shiftr_spec by lia.
  do 2 f_equal. lia.
Qed.

Lemma digit_bit_at d n i j i' r :
  n * 5 = 8 * i + j -> j < 8 -> r < 8 ->
  (0 <= d < 32)%Z ->
  digit_bit d n (8 * i' + r) =
  if decide (i' = i) then Z.testbit d (Z.of_nat r - Z.of_nat j)
  else if decide (i' = i + 1) then Z.testbit d (Z.of_nat r + 8 - Z.of_nat j)
  else false.
Proof.
  intros Hn Hj Hr Hd. unfold digit_bit. rewrite Hn.
  destruct (decide (i' = i)) as [->|]; [|destruct (decide (i' = i + 1)) as [->|]].
  - replace (Z.of_nat (8 * i + r) - Z.of_nat (8 * i + j))%Z with (Z.of_nat r - Z.of_nat j)%Z by lia.
    destruct (Nat.leb_spec (8 * i + j) (8 * i + r)); [done|].
    by rewrite (Z.testbit_neg_r _ (Z.of_nat r - Z.of_nat j)) by lia.
  - rewrite (proj2 (Nat.leb_le _ _)), andb_true_l by lia. f_equal. lia.
  - destruct (Nat.leb_spec (8 * i + j) (8 * i' + r)); [|done].
    rewrite testbit_small by lia. done.
Qed.

Lemma put32_spec size n d h h' :
  (0 <= d < 32)%Z -> size <= length h -> n * 5 < 8 * size ->
  put32 size n d h = Ok h' ->
  length h' = length h /\ forall k, bit h' k = bit h k || digit_bit d n k.
Proof.
  intros Hd Hs Hn. unfold put32.
  destruct (bit_index (n * 5)) as (i & j & Hb & Hj & <- & <-).
  assert (i < length h) as Hi by lia.
  assert (Hlow : forall k, bit (<[i:=chr (Z.lor (byte_at h i) (Z.shiftl d (Z.of_nat j)))]> h) k =
    bit h k || (if decide (k / 8 = i) then Z.testbit d (Z.of_nat (k mod 8) - Z.of_nat j) else false)).
  { intros k. unfold bit. rewrite byte_at_insert by done.
    destruct (decide (k / 8 = i)) as [->|]; [|by rewrite orb_false_r].
    apply testbit_put; [lia|]. by apply Nat.mod_upper_bound. }
  set (g := <[i:=_]> h) in *. assert (length g = length h) as Hg by apply length_insert.
  destruct (Nat.ltb_spec i (size - 1)) as [Hi1|Hi1].
  - intros [= <-]. rewrite length_insert. split; [done|]. intros k.
    destruct (bit_index k) as (i' & r & -> & Hr & Hi' & Hr').
    rewrite (digit_bit_at d n i j) by done. unfold bit at 1. rewrite <- Hi', <- Hr'.
    rewrite byte_at_insert by lia.
    destruct (decide (i' = i + 1)) as [->|].
    + rewrite decide_False by lia. rewrite testbit_put_high, <- bit_pos, Hlow by lia.
      rewrite <- Hi', decide_False by lia. by rewrite orb_false_r.
    + rewrite <- bit_pos, Hlow, <- Hi', <- Hr' by done. by destruct (decide (i' = i)).
  - case_bool_decide as Hz; [|done]. intros [= <-]. split; [done|]. intros k.
    destruct (bit_index k) as (i' & r & -> & Hr & Hi' & Hr').
    rewrite (digit_bit_at d n i j), Hlow, <- Hi', <- Hr' by done.
    destruct (decide (i' = i)) as [->|]; [done|].
    destruct (decide (i' = i + 1)) as [->|]; [|done].
    replace (Z.of_nat r + 8 - Z.of_nat j)%Z with (Z.of_nat r + (8 - Z.of_nat j))%Z by lia.
    by rewrite <- Z.shiftr_spec, Hz, Z.bits_0 by lia.
Qed.

(** The merge is refused exactly when a bit beyond the hash is set. *)
Lemma put32_ok_iff size n d h :
  (0 <= d < 32)%Z -> n * 5 < 8 * size ->
  (exists h', put32 size n d h = Ok h') <->
  (forall k, 8 * size <= k -> digit_bit d n k = false).
Proof.
  intros Hd Hn. unfold put32.
  destruct (bit_index (n * 5)) as (i & j & Hb & Hj & <- & <-).
  destruct (Nat.ltb_spec i (size - 1)) as [Hi1|Hi1].
  - split; [|by eexists]. intros _ k Hk.
    destruct (digit_bit d n k) eqn:E; [|done]. apply digit_bit_range in E; lia.
  - assert (size = i + 1) as -> by lia. case_bool_decide as Hz.
    + split; [|by eexists]. intros _ k Hk.
      destruct (bit_index k) as (i' & r & -> & Hr & Hi' & Hr').
      rewrite (digit_bit_at d n i j) by done. rewrite decide_False by lia.
      destruct (decide (i' = i + 1)); [|done].
      replace (Z.of_nat r + 8 - Z.of_nat j)%Z with (Z.of_nat r + (8 - Z.of_nat j))%Z by lia.
      by rewrite <- Z.shiftr_spec, Hz, Z.bits_0 by lia.
    + split; [by intros [? ?]|]. intros Hbits. exfalso. apply Hz.
      apply Z.bits_inj'. intros r Hr. rewrite Z.bits_0, Z.shiftr_spec by done.
      destruct (Z.ltb_spec r 5); [|apply testbit_small; lia].
      specialize (Hbits (8 * (i + 1) + Z.to_nat r) ltac:(lia)).
      rewrite (digit_bit_at d n i j), decide_False, decide_True in Hbits by lia.
      rewrite <- Hbits. f_equal. lia.
Qed.

(** ** Parsing nix32 inverts printing *)

Lemma nix32_table d :
  (0 <= d < 32)%Z -> find_char (tbl nix32Chars d) nix32Chars = Some (Z.to_nat d).
Proof.
  intros Hd.
  assert (Hall : forallb (fun n =>
    bool_decide (find_char (tbl nix32Chars (Z.of_nat n)) nix32Chars = Some n)) (seq 0 32) = true)
    by (vm_compute; reflexivity).
  rewrite forallb_forall in Hall. specialize (Hall (Z.to_nat d)).
  rewrite Z2Nat.id, in_seq, bool_decide_eq_true in Hall by lia. apply Hall. lia.
Qed.

Lemma nix32_find c i :
  find_char c nix32Chars = Some i -> i < 32 /\ tbl nix32Chars (Z.of_nat i) = c.
Proof.
  intros H. pose proof (find_if_lt _ _ _ H) as Hlt. apply find_if_Some in H as (d & Hd & He & _).
  apply char_eqb_eq in He as <-. split; [done|].
  unfold tbl. rewrite Nat2Z.id, nth_lookup, Hd. done.
Qed.

Lemma digit32_digit_bit h size n k :
  n * 5 < 8 * size ->
  digit_bit (digit32 h size n) n k =
  (n * 5 <=? k) && (k <? n * 5 + 5) && ((k <? 8 * size) && bit h k).
Proof.
  intros Hn. destruct (Nat.leb_spec (n * 5) k) as [Hk|Hk].
  2:{ unfold digit_bit. by rewrite (proj2 (Nat.leb_gt _ _)) by lia. }
  destruct (Nat.ltb_spec k (n * 5 + 5)) as [Hk5|Hk5].
  - unfold digit_bit. rewrite (proj2 (Nat.leb_le _ _)), !andb_true_l by lia.
    replace (Z.of_nat k - Z.of_nat (n * 5))%Z with (Z.of_nat (k - n * 5)) by lia.
    rewrite digit32_bits by lia. by replace (n * 5 + (k - n * 5)) with k by lia.
  - rewrite andb_false_r, andb_false_l. destruct (digit_bit _ _ _) eqn:E; [|done].
    apply digit_bit_range in E; [lia|apply digit32_bound].
Qed.

Definition digits32 (h : bytes) (size : nat) (ns : list nat) : bytes :=
  (fun n => tbl nix32Chars (digit32 h size n)) <$> ns.

Lemma parse32_printed h size len n g :
  (n + len) * 5 < 8 * size + 5 -> size <= length g ->
  exists g', parse32_loop size n (digits32 h size (seq n len)) g = Ok g' /\
    length g' = length g /\
    forall k, bit g' k =
      bit g k || ((n * 5 <=? k) && (k <? (n + len) * 5) && ((k <? 8 * size) && bit h k)).
Proof.
  revert n g. induction len as [|len IH]; intros n g Hn Hg.
  - exists g. split; [done|]. split; [done|]. intros k.
    destruct (Nat.leb_spec (n * 5) k), (Nat.ltb_spec k ((n + 0) * 5)); try lia;
      by rewrite orb_false_r.
  - unfold digits32. cbn [seq]. rewrite fmap_cons. cbn [parse32_loop].
    pose proof (digit32_bound h size n) as Hd.
    rewrite nix32_table, Z2Nat.id by lia.
    destruct (proj2 (put32_ok_iff size n (digit32 h size n) g Hd ltac:(lia))) as [g1 Hg1].
    { intros k Hk. rewrite digit32_digit_bit by lia.
      by rewrite (proj2 (Nat.ltb_ge k (8 * size))), andb_false_l, andb_false_r by lia. }
    rewrite Hg1. cbn [rbind]. apply put32_spec in Hg1 as [Hl Hb]; [|done..|lia].
    replace (n + 1) with (S n) by lia.
    destruct (IH (S n) g1) as (g' & Hg' & Hl' & Hb'); [lia|lia|].
    exists g'. split; [done|]. split; [lia|]. intros k.
    rewrite Hb', Hb, digit32_digit_bit by lia. rewrite <- orb_assoc. f_equal.
    rewrite <- andb_orb_distrib_l. f_equal.
    destruct (Nat.leb_spec (n * 5) k), (Nat.ltb_spec k (n * 5 + 5)),
      (Nat.leb_spec (S n * 5) k), (Nat.ltb_spec k ((S n + len) * 5)),
      (Nat.ltb_spec k ((n + S len) * 5)); try done; lia.
Qed.

Lemma wf_high_bits h k : Hash_wf h -> 8 * hashSize h <= k -> bit (hash h) k = false.
Proof.
  intros (Hl & Hs & Hz) Hk. unfold bit, byte_at. rewrite nth_lookup.
  assert (hashSize h <= k / 8) as Hi by (apply Nat.div_le_lower_bound; lia).
  replace (k / 8) with (hashSize h + (k / 8 - hashSize h)) by lia.
  rewrite <- lookup_drop, Hz, <- nth_lookup, nth_replicate_NUL. apply Z.bits_0.
Qed.

Lemma base32Len_bounds h :
  0 < hashSize h -> 8 * hashSize h <= base32Len h * 5 < 8 * hashSize h + 5.
Proof.
  intros Hs. unfold base32Len.
  pose proof (Nat.div_mod_eq (hashSize h * 8 - 1) 5).
  pose proof (Nat.mod_upper_bound (hashSize h * 8 - 1) 5 ltac:(lia)). lia.
Qed.

Lemma parse32_print h :
  Hash_wf h ->
  parse32_loop (hashSize h) 0
    (digits32 (hash h) (hashSize h) (seq 0 (base32Len h))) (replicate maxHashSize NUL) =
  Ok (hash h).
Proof.
  intros Hwf. pose proof Hwf as (Hl & Hs & Hz). pose proof (base32Len_bounds h ltac:(lia)).
  destruct (parse32_printed (hash h) (hashSize h) (base32Len h) 0 (replicate maxHashSize NUL))
    as (g & -> & Hg & Hb); [lia|rewrite length_replicate; lia|].
  f_equal. rewrite length_replicate in Hg. apply bytes_bit_ext; [lia|].
  intros k _. rewrite Hb, bit_replicate_NUL, orb_false_l.
  change (0 * 5 <=? k) with true. change (0 + base32Len h) with (base32Len h).
  destruct (Nat.ltb_spec k (8 * hashSize h)).
  - by rewrite (proj2 (Nat.ltb_lt _ _)) by lia.
  - rewrite wf_high_bits by done. by rewrite andb_false_r.
Qed.

(** Conversely, printing a parsed hash gives the string back. *)
Fixpoint digits_bit (cs : bytes) (n k : nat) : bool :=
  match cs with
  | [] => false
  | c :: cs => digit_bit (Z.of_nat (default 0 (find_char c nix32Chars))) n k || digits_bit cs (n + 1) k
  end.

Lemma parse32_bits size n cs g g' :
  (n + length cs) * 5 < 8 * size + 5 -> size <= length g ->
  parse32_loop size n cs g = Ok g' ->
  length g' = length g /\ (forall k, bit g' k = bit g k || digits_bit cs n k) /\
  (forall m c, cs !! m = Some c -> exists d, find_char c nix32Chars = Some d /\ d < 32 /\
     tbl nix32Chars (Z.of_nat d) = c /\
     forall k, 8 * size <= k -> digit_bit (Z.of_nat d) (n + m) k = false).
Proof.
  revert n g. induction cs as [|c cs IH]; intros n g Hn Hg Hp; cbn [parse32_loop length] in *.
  - injection Hp as <-. split; [done|]. split; [intros k; by rewrite orb_false_r | done].
  - destruct (find_char c nix32Chars) as [d|] eqn:Ed; [|done].
    pose proof (nix32_find _ _ Ed) as [Hd Htbl].
    apply rbind_Ok in Hp as (g1 & Hg1 & Hp).
    pose proof (proj1 (put32_ok_iff size n (Z.of_nat d) g ltac:(lia) ltac:(lia))
      (ex_intro _ g1 Hg1)) as Hover.
    apply put32_spec in Hg1 as [Hl Hb]; [|lia..].
    apply IH in Hp as (Hl' & Hb' & Hcs); [|lia..].
    split; [lia|]. split.
    + intros k. rewrite Hb', Hb. cbn [digits_bit]. rewrite Ed. by rewrite <- orb_assoc.
    + intros [|m] e He; simpl in He.
      * injection He as <-. exists d. rewrite Nat.add_0_r. auto.
      * destruct (Hcs m e He) as (d' & ? & ? & ? & ?). exists d'.
        replace (n + S m) with (n + 1 + m) by lia. auto.
Qed.

Lemma digits_bit_at cs n m c k :
  (forall m c, cs !! m = Some c -> exists d, find_char c nix32Chars = Some d /\ d < 32) ->
  cs !! m = Some c -> (n + m) * 5 <= k < (n + m) * 5 + 5 ->
  digits_bit cs n k = digit_bit (Z.of_nat (default 0 (find_char c nix32Chars))) (n + m) k.
Proof.
  revert n m. induction cs as [|e cs IH]; intros n m Hcs Hm Hk; [done|]. cbn [digits_bit].
  assert (forall n', n' > n -> digit_bit (Z.of_nat (default 0 (find_char e nix32Chars))) n k = true ->
    n' * 5 <= k -> False) as Hlow.
  { intros n' Hn' Hb. destruct (Hcs 0 e eq_refl) as (d & Hd & Hlt). rewrite Hd in Hb.
    apply digit_bit_range in Hb; simpl; lia. }
  destruct m as [|m]; simpl in Hm.
  - injection Hm as ->. rewrite Nat.add_0_r in *.
    assert (digits_bit cs (n + 1) k = false) as ->; [|by rewrite orb_false_r].
    clear - Hk. assert (k < (n + 1) * 5) as Hlt by lia. clear Hk. revert Hlt. generalize (n + 1). clear n.
    induction cs as [|e cs IH]; intros n Hk; [done|]. cbn [digits_bit].
    rewrite IH by lia. unfold digit_bit. by rewrite (proj2 (Nat.leb_gt _ _)) by lia.
  - destruct (digit_bit _ n k) eqn:E.
    + exfalso. apply (Hlow (n + S m)); [lia|done|lia].
    + rewrite orb_false_l. replace (n + S m) with (n + 1 + m) by lia.
      apply IH; [|done|lia]. intros m' c' Hc'. apply (Hcs (S m') c' Hc').
Qed.

Lemma print_parse32 size cs g len :
  0 < size -> length cs = len -> len * 5 < 8 * size + 5 -> size <= maxHashSize ->
  parse32_loop size 0 cs (replicate maxHashSize NUL) = Ok g ->
  digits32 g size (seq 0 len) = cs.
Proof.
  intros Hs Hlen Hb Hmax Hp.
  apply parse32_bits in Hp as (Hl & Hbits & Hcs); [|lia|rewrite length_replicate; lia].
  apply list_eq. intros m. unfold digits32. rewrite list_lookup_fmap.
  destruct (decide (m < len)) as [Hm|Hm].
  2:{ rewrite lookup_seq_ge by lia. symmetry. apply lookup_ge_None. lia. }
  rewrite lookup_seq_lt by lia. simpl.
  destruct (cs !! m) as [c|] eqn:Ec; [|apply lookup_ge_None in Ec; lia].
  destruct (Hcs m c Ec) as (d & Hd & Hlt & Htbl & Hover). rewrite <- Htbl. do 2 f_equal.
  apply Z.bits_inj'. intros t Ht. destruct (Z.ltb_spec t 5).
  2:{ rewrite !testbit_small by (try lia; apply digit32_bound). done. }
  rewrite <- (Z2Nat.id t) by done. rewrite digit32_bits, Hbits, bit_replicate_NUL by lia.
  rewrite orb_false_l, (digits_bit_at cs 0 m c), Hd by
    (try lia; try done; intros m' c' Hc'; destruct (Hcs m' c' Hc') as (? & ? & ? & _); eauto).
  change (0 + m) with m in *. cbn [from_option id]. destruct (Nat.ltb_spec (m * 5 + Z.to_nat t) (8 * size)).
  - rewrite andb_true_l. unfold digit_bit. rewrite (proj2 (Nat.leb_le _ _)), andb_true_l by lia.
    f_equal. lia.
  - specialize (Hover (m * 5 + Z.to_nat t) ltac:(lia)). unfold digit_bit in Hover.
    rewrite (proj2 (Nat.leb_le _ _)), andb_true_l in Hover by lia.
    rewrite andb_false_l, <- Hover. f_equal. lia.
Qed.

(** ** Base 16 *)

Lemma nth_concat_pairs (f : nat -> bytes) n s m e :
  (forall i, length (f i) = 2) -> m < n -> e < 2 ->
  nth (m * 2 + e) (concat (f <$> seq s n)) NUL = nth e (f (s + m)) NUL.
Proof.
  intros Hf. revert s m. induction n as [|n IH]; intros s m Hm He; [lia|].
  cbn [seq]. rewrite fmap_cons. cbn [concat]. destruct m as [|m].
  - rewrite app_nth1 by (rewrite Hf; lia). by rewrite Nat.add_0_r.
  - rewrite app_nth2 by (rewrite Hf; lia). rewrite Hf.
    replace (S m * 2 + e - 2) with (m * 2 + e) by lia.
    rewrite IH by lia. do 2 f_equal. lia.
Qed.

Lemma length_concat_pairs (f : nat -> bytes) l :
  (forall i, length (f i) = 2) -> length (concat (f <$> l)) = length l * 2.
Proof.
  intros Hf. induction l as [|x l IH]; [done|]. rewrite fmap_cons. cbn [concat length].
  rewrite length_app, Hf, IH. lia.
Qed.

Lemma parseHexDigit_tbl d : (0 <= d < 16)%Z -> parseHexDigit (tbl base16Chars d) = Ok d.
Proof.
  intros Hd.
  assert (Hall : forallb (fun n =>
    bool_decide (parseHexDigit (tbl base16Chars (Z.of_nat n)) = Ok (Z.of_nat n))) (seq 0 16) = true)
    by (vm_compute; reflexivity).
  rewrite forallb_forall in Hall. specialize (Hall (Z.to_nat d)).
  rewrite Z2Nat.id, in_seq, bool_decide_eq_true in Hall by lia. apply Hall. lia.
Qed.

Lemma hex_join b : (0 <= b < 256)%Z -> Z.lor (Z.shiftl (Z.shiftr b 4) 4) (Z.land b 15) = b.
Proof.
  intros Hb. change 15%Z with (Z.ones 4). rewrite Z.land_ones by lia.
  rewrite lor_shiftl_add by (lia || apply Z.mod_pos_bound; lia).
  rewrite Z.shiftr_div_pow2 by lia. zlia.
Qed.

Lemma parse16_printed src n i rest g :
  (forall m, i <= m < i + n ->
     nth (m * 2) rest NUL = nth 0 (hexByte (byte_at src m)) NUL /\
     nth (m * 2 + 1) rest NUL = nth 1 (hexByte (byte_at src m)) NUL) ->
  i + n <= length g ->
  exists g', parse16_loop n i rest g = Ok g' /\ length g' = length g /\
    forall k, nth k g' NUL = if decide (i <= k < i + n) then nth k src NUL else nth k g NUL.
Proof.
  revert i g. induction n as [|n IH]; intros i g Hr Hg.
  - exists g. split; [done|]. split; [done|]. intros k. by rewrite decide_False by lia.
  - cbn [parse16_loop]. destruct (Hr i) as [-> ->]; [lia|]. unfold hexByte. cbn [nth].
    pose proof (byte_at_bound src i) as Hb.
    rewrite !parseHexDigit_tbl; cycle 1.
    { change 15%Z with (Z.ones 4). rewrite Z.land_ones by lia. apply Z.mod_pos_bound. lia. }
    { rewrite Z.shiftr_div_pow2 by lia. zlia. }
    cbn [rbind]. rewrite hex_join by done.
    destruct (IH (i + 1) (<[i:=chr (byte_at src i)]> g)) as (g' & -> & Hl & Hk).
    { intros m Hm. apply Hr. lia. }
    { rewrite length_insert. lia. }
    exists g'. split; [done|]. rewrite length_insert in Hl. split; [done|]. intros k. rewrite Hk.
    destruct (decide (i + 1 <= k < i + 1 + n)); [by rewrite decide_True by lia|].
    destruct (decide (k = i)) as [->|].
    + rewrite decide_True by lia. rewrite nth_lookup, list_lookup_insert_eq by lia.
      simpl. unfold byte_at. apply chr_code.
    + rewrite decide_False by lia. by rewrite !nth_lookup, list_lookup_insert_ne by lia.
Qed.

Lemma parse16_print h :
  Hash_wf h ->
  parse16_loop (hashSize h) 0 (printHash16 h) (replicate maxHashSize NUL) = Ok (hash h).
Proof.
  intros (Hl & Hs & Hz).
  destruct (parse16_printed (hash h) (hashSize h) 0 (printHash16 h) (replicate maxHashSize NUL))
    as (g & -> & Hg & Hk).
  - intros m Hm. unfold printHash16. split.
    + rewrite <- (Nat.add_0_r (m * 2)). by rewrite nth_concat_pairs by (done || lia).
    + by rewrite nth_concat_pairs by (done || lia).
  - rewrite length_replicate. lia.
  - f_equal. apply (nth_ext _ _ NUL NUL); [rewrite Hg, length_replicate; lia|].
    intros k _. rewrite Hk. case_decide as Hd; [done|].
    rewrite nth_replicate_NUL. symmetry.
    destruct (decide (k < length (hash h))); [|by rewrite nth_overflow by lia].
    rewrite nth_lookup. replace k with (hashSize h + (k - hashSize h)) by lia.
    rewrite <- lookup_drop, Hz, <- nth_lookup. apply nth_replicate_NUL.
Qed.

(** ** Text forms and parsing *)

(** The experimental feature BLAKE3 hashes need. *)
Definition algo_enabled (xp : xpSettings) (a : HashAlgorithm) : Prop :=
  a = BLAKE3 -> xp BLAKE3Hashes = true.

Lemma Hash_zero_Ok xp a :
  algo_enabled xp a ->
  Hash_zero xp a = Ok (MkHash (regularHashSize a) (replicate maxHashSize NUL) a).
Proof.
  intros Hxp. unfold Hash_zero. case_bool_decide as Ha.
  - rewrite (proj2 (require_Ok _ _ tt)) by auto. by destruct a.
  - by destruct a.
Qed.

Lemma Hash_zero_inv xp a h :
  Hash_zero xp a = Ok h ->
  algo_enabled xp a /\ h = MkHash (regularHashSize a) (replicate maxHashSize NUL) a.
Proof.
  unfold Hash_zero. intros H. inv_result. split; [|done].
  intros ->. rewrite bool_decide_true in H0 by done. by inv_result.
Qed.

Lemma Hash_zero_wf xp a h : Hash_zero xp a = Ok h -> Hash_regular h.
Proof.
  intros [_ ->]%Hash_zero_inv. split; [|done]. unfold Hash_wf, maxHashSize. simpl.
  destruct a; simpl; repeat split; lia.
Qed.

(** The body of each format, without prefix. *)
Definition hash_body (h : Hash) (f : HashFormat) : bytes :=
  match f with
  | Base16 => printHash16 h
  | Nix32 => reverse (digits32 (hash h) (hashSize h) (seq 0 (base32Len h)))
  | Base64 | SRI => base64Encode (take (hashSize h) (hash h))
  end.

Lemma to_string_body h f incl :
  0 < hashSize h ->
  to_string h f incl =
  Ok ((if bool_decide (f = SRI) || incl
       then printHashAlgo (algo h) ++ (if bool_decide (f = SRI) then L "-" else L ":") else [])
      ++ hash_body h f).
Proof.
  intros Hs. unfold to_string. destruct f; try done.
  unfold printHash32. rewrite (proj2 (assert_Ok _ tt)).
  2:{ apply negb_true_iff, Nat.eqb_neq. lia. }
  cbn [rbind]. rewrite (proj2 (assert_Ok _ tt)).
  2:{ apply negb_true_iff, Nat.eqb_neq. unfold base32Len. lia. }
  cbn [rbind]. unfold hash_body, digits32. by rewrite fmap_reverse.
Qed.

Lemma hash_body_length h f :
  Hash_regular h ->
  length (hash_body h f) =
  match f with
  | Base16 => base16Len h | Nix32 => base32Len h | Base64 | SRI => base64Len h
  end.
Proof.
  intros [(Hl & Hs & Hz) Hr]. destruct f; simpl.
  1,4: rewrite base64Encode_length, length_take, Nat.min_l by lia; unfold base64Len;
    rewrite Hr; by destruct (algo h).
  - unfold digits32. by rewrite length_reverse, length_fmap, length_seq.
  - unfold printHash16, base16Len. rewrite length_concat_pairs by done. by rewrite length_seq.
Qed.

(** Parsing a body of the given format, the format being recognised by its
    length. *)
Lemma Hash_parse_body xp h f :
  Hash_regular h -> algo_enabled xp (algo h) ->
  Hash_parse xp (hash_body h f) (algo h) (bool_decide (f = SRI)) = Ok h.
Proof.
  intros Hreg Hxp. pose proof Hreg as [Hwf Hr]. pose proof Hwf as (Hl & Hs & Hz).
  unfold Hash_parse. rewrite Hash_zero_Ok by done. cbn [rbind hashSize hash].
  rewrite hash_body_length by done.
  replace (MkHash (regularHashSize (algo h)) (replicate maxHashSize NUL) (algo h))
    with (MkHash (hashSize h) (replicate maxHashSize NUL) (algo h)) by (by rewrite Hr).
  change (base16Len (MkHash (hashSize h) ?x ?y)) with (base16Len h).
  change (base32Len (MkHash (hashSize h) ?x ?y)) with (base32Len h).
  change (base64Len (MkHash (hashSize h) ?x ?y)) with (base64Len h).
  assert (base64Encode (take (hashSize h) (hash h)) = hash_body h Base64) as Hb by done.
  destruct f; cbn [negb andb orb];
    [rewrite (bool_decide_false (Base64 = SRI)) by done
    |rewrite (bool_decide_false (Nix32 = SRI)) by done
    |rewrite (bool_decide_false (Base16 = SRI)) by done
    |rewrite (bool_decide_true (SRI = SRI)) by done]; cbn [negb andb orb].
  2: rewrite (proj2 (Nat.eqb_neq (base32Len h) (base16Len h)))
       by (unfold base32Len, base16Len; rewrite Hr; by destruct (algo h)).
  2: rewrite Nat.eqb_refl; unfold hash_body; rewrite reverse_involutive, <- Hr,
       parse32_print by done; cbn [rbind]; destruct h; simpl in *; by subst.
  2: rewrite Nat.eqb_refl; unfold hash_body; rewrite <- Hr, parse16_print by done;
       cbn [rbind]; destruct h; simpl in *; by subst.
  1: rewrite (proj2 (Nat.eqb_neq (base64Len h) (base16Len h)))
       by (unfold base64Len, base16Len; rewrite Hr; by destruct (algo h)).
  1: rewrite (proj2 (Nat.eqb_neq (base64Len h) (base32Len h)))
       by (unfold base64Len, base32Len; rewrite Hr; by destruct (algo h)).
  1: rewrite Nat.eqb_refl.
  all: unfold hash_body; rewrite base64Decode_Encode, length_take, Nat.min_l by lia;
    rewrite Hr, Nat.eqb_refl; cbn [negb]; rewrite (proj2 (assert_Ok _ tt))
      by (apply negb_true_iff, Nat.eqb_neq; lia);
    cbn [rbind]; rewrite <- Hr, take_take, Nat.min_id, drop_replicate, <- Hz, take_drop;
    destruct h; simpl in *; by subst.
Qed.

Lemma hash_body16_alphabet h c : c ∈ hash_body h Base16 -> c ∈ base16Chars.
Proof.
  cbn [hash_body]. unfold printHash16. intros Hin. apply list_elem_of_In, in_concat in Hin as (l & Hl & Hin).
  apply list_elem_of_In, list_elem_of_fmap in Hl as (i & -> & _).
  pose proof (byte_at_bound (hash h) i) as Hb. change 256%Z with (2 ^ 8)%Z in Hb.
  apply list_elem_of_In. unfold hexByte in Hin. destruct Hin as [<-|[<-|[]]].
  - apply nth_In. change (length base16Chars) with 16. rewrite Z.shiftr_div_pow2 by lia. zlia.
  - apply nth_In. change (length base16Chars) with 16. change 15%Z with (Z.ones 4).
    rewrite Z.land_ones by lia. zlia.
Qed.

Lemma hash_body_no_sep h f c :
  c = ":"%char \/ c = "-"%char -> c ∉ hash_body h f.
Proof.
  intros Hc Hin.
  assert (c ∈ base64Chars ++ L "=" \/ c ∈ nix32Chars \/ c ∈ base16Chars) as Ha.
  { destruct f; unfold hash_body in Hin.
    1,4: left; by apply base64Encode_alphabet in Hin.
    - right; left. apply elem_of_reverse, list_elem_of_fmap in Hin as (n & -> & _).
      apply list_elem_of_In, nth_In. pose proof (digit32_bound (hash h) (hashSize h) n).
      change (length nix32Chars) with 32. lia.
    - right; right. by apply hash_body16_alphabet in Hin. }
  clear Hin. destruct Hc as [-> | ->];
    destruct Ha as [Ha|[Ha|Ha]]; apply (bool_decide_eq_true_2 _) in Ha; vm_compute in Ha; discriminate.
Qed.

Lemma parseHashAlgo_print a : parseHashAlgo (printHashAlgo a) = Ok a.
Proof. by destruct a. Qed.

Lemma printHashAlgo_no_sep a c :
  c = ":"%char \/ c = "-"%char -> c ∉ printHashAlgo a.
Proof.
  intros [-> | ->] H; apply (bool_decide_eq_true_2 _) in H; destruct a; vm_compute in H; discriminate.
Qed.

Lemma splitPrefixTo_app p c t : c ∉ p -> splitPrefixTo (p ++ c :: t) c = (Some p, t).
Proof.
  intros Hc. unfold splitPrefixTo. rewrite find_char_app by done.
  rewrite take_app_length. f_equal. rewrite cons_middle, app_assoc.
  replace (length p + 1) with (length (p ++ [c])) by (rewrite length_app; simpl; lia).
  apply drop_app_length.
Qed.

Lemma splitPrefixTo_None t c : c ∉ t -> splitPrefixTo t c = (None, t).
Proof. intros Hc. unfold splitPrefixTo. apply find_char_None in Hc. by rewrite Hc. Qed.

Lemma getParsedTypeAndSRI_text h f incl :
  getParsedTypeAndSRI
    ((if bool_decide (f = SRI) || incl
      then printHashAlgo (algo h) ++ (if bool_decide (f = SRI) then L "-" else L ":") else [])
     ++ hash_body h f) =
  Ok (if bool_decide (f = SRI) || incl then Some (algo h) else None,
      bool_decide (f = SRI), hash_body h f).
Proof.
  unfold getParsedTypeAndSRI. pose proof (hash_body_no_sep h f) as Hb.
  pose proof (printHashAlgo_no_sep (algo h)) as Ha.
  destruct (bool_decide_reflect (f = SRI)) as [Hf|Hf]; cbn [orb].
  - rewrite <- app_assoc. cbn [app list_ascii_of_string].
    rewrite splitPrefixTo_None.
    2:{ rewrite elem_of_app, elem_of_cons. intros [?|[?|?]]; naive_solver. }
    rewrite splitPrefixTo_app by naive_solver. by rewrite parseHashAlgo_print.
  - destruct incl.
    + rewrite <- app_assoc. cbn [app list_ascii_of_string].
      rewrite splitPrefixTo_app by naive_solver. by rewrite parseHashAlgo_print.
    + cbn [app]. by rewrite !splitPrefixTo_None by naive_solver.
Qed.

(** A printed hash parses, with the algorithm from the text or from the caller. *)
Lemma parseAny_text xp h f incl optAlgo s :
  Hash_regular h -> algo_enabled xp (algo h) ->
  optAlgo = Some (algo h) \/ optAlgo = None /\ (f = SRI \/ incl = true) ->
  to_string h f incl = Ok s -> parseAny xp s optAlgo = Ok h.
Proof.
  intros Hreg Hxp Hopt Hs. rewrite to_string_body in Hs by (destruct Hreg as [(_ & ? & _) _]; lia).
  injection Hs as <-. unfold parseAny. rewrite getParsedTypeAndSRI_text. cbn [rbind].
  pose proof (Hash_parse_body xp h f Hreg Hxp) as Hp.
  destruct Hopt as [-> | [-> Hpre]].
  - destruct (bool_decide (f = SRI) || incl); [by rewrite bool_decide_false by auto | done].
  - by destruct Hpre as [-> | ->]; rewrite ?orb_true_r.
Qed.

Lemma parseAnyPrefixed_text xp h f incl s :
  Hash_regular h -> algo_enabled xp (algo h) -> f = SRI \/ incl = true ->
  to_string h f incl = Ok s -> parseAnyPrefixed xp s = Ok h.
Proof. intros Hreg Hxp Hf Hs. rewrite <- (parseAny_text xp h f incl None s) by auto. done. Qed.

(** C33: every textual form of a hash parses back to the hash: with the
    algorithm given by the prefix, by the caller, or by both. *)
Theorem Hash_parseAny_to_string (xp : xpSettings) (h : Hash) (f : HashFormat) (incl : bool)
    (optAlgo : option HashAlgorithm) :
  Hash_regular h -> algo_enabled xp (algo h) ->
  optAlgo = Some (algo h) \/ optAlgo = None /\ (f = SRI \/ incl = true) ->
  exists s, to_string h f incl = Ok s /\ parseAny xp s optAlgo = Ok h.
Proof.
  intros Hreg Hxp Hopt. pose proof Hreg as [(_ & Hs & _) _].
  pose proof (to_string_body h f incl (proj1 Hs)) as E. eexists. split; [exact E|].
  by apply (parseAny_text xp h f incl).
Qed.

Definition example_hash : Hash :=
  MkHash 20 (L "abcdefghijklmnopqrst" ++ replicate 44 NUL) SHA1.
Lemma example_hash_regular : Hash_regular example_hash.
Proof. repeat split; simpl; unfold maxHashSize; lia. Qed.

Lemma Hash_parseAny_to_string_witness :
  exists s, to_string example_hash Nix32 true = Ok s /\
    parseAny (fun _ => false) s None = Ok example_hash.
Proof.
  apply (Hash_parseAny_to_string (fun _ => false) example_hash Nix32 true None).
  - apply example_hash_regular.
  - by unfold algo_enabled.
  - right. split; [reflexivity | by right].
Defined.

(** Nix32 text is canonical: a string of the right length that parses is
    the string the resulting hash prints as, so distinct strings give distinct
    hashes. *)
Theorem Hash_nix32_canonical (xp : xpSettings) (a : HashAlgorithm) (s : bytes) (h : Hash) :
  length s = (regularHashSize a * 8 - 1) / 5 + 1 ->
  parseNonSRIUnprefixed xp s a = Ok h -> to_string h Nix32 false = Ok s.
Proof.
  intros Hlen Hp. unfold parseNonSRIUnprefixed, Hash_parse in Hp.
  apply rbind_Ok in Hp as (z & [Hxp ->]%Hash_zero_inv & Hp).
  unfold base16Len, base32Len in Hp. cbn [hashSize hash negb andb] in Hp. rewrite Hlen in Hp.
  rewrite (proj2 (Nat.eqb_neq _ _)) in Hp by (by destruct a). rewrite Nat.eqb_refl in Hp.
  apply rbind_Ok in Hp as (g & Hg & [= <-]).
  rewrite to_string_body by (simpl; destruct a; simpl; lia). cbn [bool_decide orb].
  rewrite (bool_decide_false (Nix32 = SRI)) by done. cbn [orb app hash_body hash hashSize].
  pose proof (base32Len_bounds (MkHash (regularHashSize a) g a)
    ltac:(simpl; destruct a; simpl; lia)) as Hb. unfold base32Len in *. cbn [hashSize] in *.
  rewrite (print_parse32 _ (reverse s) g).
  - by rewrite reverse_involutive.
  - destruct a; simpl; lia.
  - by rewrite length_reverse.
  - lia.
  - destruct a; unfold maxHashSize; simpl; lia.
  - done.
Qed.

Lemma Hash_nix32_canonical_witness :
  match parseNonSRIUnprefixed (fun _ => false) (L "fqwsx1ibdmw3lcrdblnpw5s3c5hxlrxk") SHA1 with
  | Ok h => to_string h Nix32 false = Ok (L "fqwsx1ibdmw3lcrdblnpw5s3c5hxlrxk")
  | Err _ => False
  end.
Proof.
  destruct (parseNonSRIUnprefixed _ _ _) eqn:E.
  - refine (Hash_nix32_canonical _ SHA1 (L "fqwsx1ibdmw3lcrdblnpw5s3c5hxlrxk") _ _ E).
    vm_compute. reflexivity.
  - vm_compute in E. discriminate E.
Defined.

(** ** Parsing establishes the invariant *)

Lemma drop_insert_below {A} (l : list A) i n x : i < n -> drop n (<[i:=x]> l) = drop n l.
Proof. intros Hi. by apply drop_insert_lt. Qed.

Lemma parse16_frame n i rest g g' size :
  i + n <= size -> parse16_loop n i rest g = Ok g' ->
  length g' = length g /\ drop size g' = drop size g.
Proof.
  revert i g. induction n as [|n IH]; intros i g Hs Hp; cbn [parse16_loop] in Hp; inv_result; [done|].
  apply IH in Hp as [-> ->]; [|lia]. by rewrite length_insert, drop_insert_below by lia.
Qed.

Lemma parse32_frame size n cs g g' :
  (n + length cs) * 5 < 8 * size + 5 -> parse32_loop size n cs g = Ok g' ->
  length g' = length g /\ drop size g' = drop size g.
Proof.
  revert n g. induction cs as [|c cs IH]; intros n g Hn Hp; cbn [parse32_loop length] in *;
    [by inv_result|].
  case_match; [|done]. apply rbind_Ok in Hp as (g1 & Hg1 & Hp). apply IH in Hp as [-> ->]; [|lia].
  unfold put32 in Hg1. destruct (bit_index (n * 5)) as (i & j & Hb & Hj & Hi & Hj').
  rewrite <- Hi, <- Hj' in Hg1. destruct (Nat.ltb_spec i (size - 1)).
  - injection Hg1 as <-. by rewrite !length_insert, !drop_insert_below by lia.
  - case_bool_decide; [|done]. injection Hg1 as <-.
    by rewrite length_insert, drop_insert_below by lia.
Qed.

Lemma Hash_parse_regular xp s a sri h :
  Hash_parse xp s a sri = Ok h -> Hash_regular h /\ algo h = a.
Proof.
  unfold Hash_parse. intros Hp. apply rbind_Ok in Hp as (z & Hz & Hp).
  apply Hash_zero_inv in Hz as [_ ->]. unfold base16Len, base32Len in Hp.
  cbn [hashSize hash] in Hp. unfold Hash_regular, Hash_wf.
  assert (0 < regularHashSize a <= maxHashSize) as Hs by (destruct a; unfold maxHashSize; simpl; lia).
  assert (forall b, length b = length (replicate maxHashSize NUL) /\
    drop (regularHashSize a) b = drop (regularHashSize a) (replicate maxHashSize NUL) ->
    length b = maxHashSize /\ 0 < regularHashSize a <= maxHashSize /\
    drop (regularHashSize a) b = replicate (maxHashSize - regularHashSize a) NUL) as Hwf.
  { intros b [Hl Hd]. rewrite length_replicate in Hl. by rewrite Hd, drop_replicate. }
  destruct (negb sri && (length s =? regularHashSize a * 2)).
  { inv_result. cbn [hashSize hash algo]. split; [|done]. split; [|done].
    apply Hwf. eapply parse16_frame; [|done]. lia. }
  destruct (negb sri && (length s =? (regularHashSize a * 8 - 1) / 5 + 1)) eqn:E32.
  { inv_result. cbn [hashSize hash algo]. split; [|done]. split; [|done].
    apply Hwf. eapply parse32_frame; [|done]. rewrite length_reverse.
    apply andb_true_iff in E32 as [_ Hl%Nat.eqb_eq].
    pose proof (base32Len_bounds (MkHash (regularHashSize a) [] a) ltac:(simpl; lia)) as Hb.
    unfold base32Len in Hb. cbn [hashSize] in Hb. lia. }
  destruct (sri || _); [|done].
  destruct (negb (length _ =? regularHashSize a)) eqn:El; [done|].
  apply negb_false_iff, Nat.eqb_eq in El. inv_result. cbn [hashSize hash algo].
  split; [|done]. split; [|done]. apply Hwf.
  rewrite length_app, length_take, length_drop, El, Nat.min_id, !length_replicate.
  split; [lia|]. rewrite drop_app_ge by (rewrite length_take; lia).
  rewrite length_take, El, Nat.min_id, Nat.sub_diag. by rewrite drop_0.
Qed.

(** Whatever the input, a hash that parses has the size its algorithm
    prescribes and a zero tail; in particular no byte is written outside the
    array. *)
Theorem Hash_parseAny_regular (xp : xpSettings) (s : bytes) (optAlgo : option HashAlgorithm) (h : Hash) :
  parseAny xp s optAlgo = Ok h -> Hash_regular h /\ (forall a, optAlgo = Some a -> algo h = a).
Proof.
  unfold parseAny. intros Hp. apply rbind_Ok in Hp as ([[[a|] sri] rest] & _ & Hp);
    destruct optAlgo as [a'|]; try case_bool_decide; try done;
    apply Hash_parse_regular in Hp as [? <-]; split; try done; intros ? [= <-]; try done.
Qed.

Lemma Hash_parseAny_regular_witness :
  match parseAny (fun _ => false) (L "md5:00112233445566778899aabbccddeeff") None with
  | Ok h => Hash_regular h
  | Err _ => False
  end.
Proof.
  destruct (parseAny _ _ _) eqn:E.
  - apply (Hash_parseAny_regular _ _ _ _ E).
  - vm_compute in E. discriminate E.
Defined.

(** ** Compression *)

(** The bytes whose index is [k] modulo the new size, combined by xor. *)
Definition xor_class (src : bytes) (idx : list nat) (newSize k : nat) : Z :=
  foldr Z.lxor 0%Z ((fun i => byte_at src i) <$> filter (fun i => i mod newSize = k) idx).

Lemma lxor_byte x y : (0 <= x < 256 -> 0 <= y < 256 -> 0 <= Z.lxor x y < 256)%Z.
Proof.
  intros Hx Hy. assert (Z.lxor x y = Z.lxor x y mod 2 ^ 8)%Z as ->; [|apply Z.mod_pos_bound; lia].
  apply Z.bits_inj'. intros r Hr. destruct (Z.ltb_spec r 8).
  - by rewrite Z.mod_pow2_bits_low.
  - rewrite Z.mod_pow2_bits_high, Z.lxor_spec by lia.
    rewrite <- (Z.mod_small x (2 ^ 8)), <- (Z.mod_small y (2 ^ 8)) by lia.
    by rewrite !Z.mod_pow2_bits_high by lia.
Qed.

Lemma compress_loop_spec idx newSize src h :
  0 < newSize <= length h ->
  length (compress_loop idx newSize src h) = length h /\
  drop newSize (compress_loop idx newSize src h) = drop newSize h /\
  forall k, byte_at (compress_loop idx newSize src h) k =
            Z.lxor (byte_at h k) (xor_class src idx newSize k).
Proof.
  intros Hn. revert h Hn. induction idx as [|i idx IH]; intros h Hn; cbn [compress_loop].
  - split; [done|]. split; [done|]. intros k. by rewrite Z.lxor_0_r.
  - pose proof (Nat.mod_upper_bound i newSize ltac:(lia)) as Hi.
    edestruct (IH (<[i mod newSize := chr (Z.lxor (byte_at h (i mod newSize)) (byte_at src i))]> h))
      as (Hl & Hd & Hk); [by rewrite length_insert|].
    rewrite length_insert in Hl. rewrite drop_insert_below in Hd by done.
    split; [done|]. split; [done|]. intros k. rewrite Hk, byte_at_insert by lia.
    unfold xor_class. rewrite filter_cons. destruct (decide (k = i mod newSize)) as [->|Hne].
    + rewrite decide_True by done. cbn [fmap list_fmap foldr].
      rewrite code_chr, Z.mod_small by (apply lxor_byte; apply byte_at_bound).
      by rewrite Z.lxor_assoc.
    + by rewrite decide_False by congruence.
Qed.

Lemma compressHash_size xp h n :
  algo_enabled xp (algo h) -> 0 < n ->
  exists r, compressHash xp h n = Ok r /\ hashSize r = n /\ algo r = algo h.
Proof.
  intros Hxp Hn. unfold compressHash. rewrite Hash_zero_Ok by done. cbn [rbind hash algo].
  rewrite bool_decide_false by lia. by eexists.
Qed.

Lemma hash_body32_length h : length (hash_body h Nix32) = base32Len h.
Proof. unfold hash_body, digits32. by rewrite length_reverse, length_fmap, length_seq. Qed.

Lemma hash_body32_alphabet h c : c ∈ hash_body h Nix32 -> c ∈ nix32Chars.
Proof.
  unfold hash_body. rewrite elem_of_reverse. intros (n & -> & _)%list_elem_of_fmap.
  apply list_elem_of_In, nth_In. pose proof (digit32_bound (hash h) (hashSize h) n).
  change (length nix32Chars) with 32. lia.
Qed.

(** [compressHash] yields a well-formed hash of the requested size whose
    byte [k] is the xor of all source bytes at positions congruent to [k]. *)
Theorem compressHash_spec (xp : xpSettings) (h : Hash) (newSize : nat) :
  algo_enabled xp (algo h) -> 0 < newSize <= maxHashSize ->
  exists r, compressHash xp h newSize = Ok r /\ Hash_wf r /\ hashSize r = newSize /\
    algo r = algo h /\
    forall k, byte_at (hash r) k = xor_class (hash h) (seq 0 (hashSize h)) newSize k.
Proof.
  intros Hxp Hn. unfold compressHash. rewrite Hash_zero_Ok by done. cbn [rbind hash algo].
  rewrite bool_decide_false by lia. eexists. split; [done|].
  destruct (compress_loop_spec (seq 0 (hashSize h)) newSize (hash h) (replicate maxHashSize NUL))
    as (Hl & Hd & Hk); [by rewrite length_replicate|].
  unfold Hash_wf. cbn [hash hashSize algo]. rewrite Hl, Hd, length_replicate, drop_replicate.
  repeat split; try lia. intros k. rewrite Hk. unfold byte_at at 1.
  by rewrite nth_replicate_NUL, Z.lxor_0_l.
Qed.

Lemma compressHash_spec_witness :
  exists r, compressHash (fun _ => false) example_hash 3 = Ok r /\ Hash_wf r /\ hashSize r = 3 /\
    algo r = SHA1 /\
    forall k, byte_at (hash r) k = xor_class (hash example_hash) (seq 0 20) 3 k.
Proof.
  apply (compressHash_spec (fun _ => false) example_hash 3).
  - by unfold algo_enabled.
  - unfold maxHashSize. lia.
Defined.

(** [operator ==] ignores the algorithm while [operator <=>] does not: a
    SHA-256 and a BLAKE3 hash with the same bytes compare equal with the first
    and different with the second. *)
Theorem Hash_eqb_compare_disagree :
  exists h h2 : Hash, Hash_regular h /\ Hash_regular h2 /\
    Hash_eqb h h2 = true /\ Hash_compare h h2 = Lt.
Proof.
  exists (MkHash 32 (replicate maxHashSize NUL) SHA256), (MkHash 32 (replicate maxHashSize NUL) BLAKE3).
  repeat split; try (unfold maxHashSize; simpl; lia); vm_compute; reflexivity.
Qed.
