(* ===== verification/CanonPath.v ===== *)
(** * Paths (libutil/file-path-impl.hh, canon-path.hh, canon-path.cc, file-system.cc)

    The path canonicalisation loop with its symlink hook, the lexical
    operations on canonical paths, and the path helpers of file-system.cc.
    A [CanonPath] is its string, as in the source; [comps] and [render]
    relate it to its list of components, and the operations are shown to
    implement the obvious operations on that list. *)

From S2P Require Import Prelude.
From S2P Require Import Containers.
From S2P Require Import Strings.

Definition slash : ascii := "/"%char.

(** ** The canonicalisation loop (file-path-impl.hh) *)

(** [while (!remaining.empty() && isPathSep(remaining\[0\])) remove_prefix(1)]. *)
Fixpoint skip_slashes (s : bytes) : bytes :=
  match s with
  | c :: s' => if char_eqb c slash then skip_slashes s' else s
  | [] => []
  end.

(** [result.erase(rfind('/'))], on a nonempty result. *)
Definition erase_last (res : bytes) : bytes :=
  match rfind_char slash res with
  | Some i => take i res
  | None => []   (* [erase(npos)] throws; never reached: a result starts with a slash *)
  end.

Section canonPathInner.
Context {S : Type}.
(** [hookComponent]: may change the result so far and what remains. *)
Variable hook : S -> bytes -> bytes -> result (S * bytes * bytes).

(** [None] is running out of fuel. *)
Fixpoint canonPathInner_loop (fuel : nat) (st : S) (remaining res : bytes) :
    option (result bytes) :=
  match fuel with
  | O => None
  | Datatypes.S fuel =>
      let remaining := skip_slashes remaining in
      if bool_decide (remaining = []) then
        Some (Ok (if bool_decide (res = []) then [slash] else res))
      else
        let nextComp :=
          match find_char slash remaining with
          | None => remaining
          | Some i => take i remaining
          end in
        if bool_decide (nextComp = L ".") then
          canonPathInner_loop fuel st (drop 1 remaining) res
        else if bool_decide (nextComp = L "..") then
          canonPathInner_loop fuel st (drop 2 remaining)
            (if bool_decide (res = []) then res else erase_last res)
        else
          let '(res, remaining) :=
            match find_char slash remaining with
            | None => (res ++ [slash] ++ remaining, [])
            | Some i => (res ++ [slash] ++ take i remaining, drop i remaining)
            end in
          match hook st res remaining with
          | Err f => Some (Err f)
          | Ok (st, res, remaining) => canonPathInner_loop fuel st remaining res
          end
  end.
End canonPathInner.

(** ** Canonical paths (canon-path.cc) *)

Definition no_hook (st : unit) (res remaining : bytes) : result (unit * bytes * bytes) :=
  Ok (st, res, remaining).

(** [absPathPure]; an empty argument fails the assertion. *)
Definition absPathPure (path : bytes) : result bytes :=
  assert_ (negb (bool_decide (path = []))) ;;;
  match canonPathInner_loop no_hook (S (length path)) tt path [] with
  | Some r => r
  | None => Err OutOfFuel
  end.

Definition CanonPath_raw (raw : bytes) : result bytes := absPathPure (L "/" ++ raw).

Definition CanonPath_in (raw root : bytes) : result bytes :=
  absPathPure
    (match raw with
     | c :: _ => if char_eqb c slash then raw else root ++ L "/" ++ raw
     | [] => root ++ L "/" ++ raw
     end).

Definition isRoot (path : bytes) : bool := length path <=? 1.
Definition absOrEmpty (path : bytes) : bytes := if isRoot path then [] else path.
Definition rel (path : bytes) : bytes := drop 1 path.

(** [max((size_t) 1, path.rfind('/'))], [npos] being the largest [size_t]. *)
Definition parentLen (path : bytes) : nat :=
  match rfind_char slash path with Some i => Nat.max 1 i | None => length path end.

Definition parent (path : bytes) : option bytes :=
  if isRoot path then None else Some (take (parentLen path) path).

Definition pop (path : bytes) : result bytes :=
  assert_ (negb (isRoot path)) ;;; Ok (take (parentLen path) path).

Definition dirOf_ (path : bytes) : option bytes :=
  if isRoot path then None
  else Some (match rfind_char slash path with Some i => take i path | None => path end).

Definition baseName (path : bytes) : option bytes :=
  if isRoot path then None
  else Some (match rfind_char slash path with Some i => drop (i + 1) path | None => path end).

Definition isWithin (path parent : bytes) : bool :=
  negb ((length path <? length parent)
        || negb (bool_decide (take (length parent) path = parent))
        || ((1 <? length parent) && (length parent <? length path)
            && negb (char_eqb (nth (length parent) path NUL) slash))).

Definition removePrefix (path prefix : bytes) : result bytes :=
  assert_ (isWithin path prefix) ;;;
  if isRoot prefix then Ok path
  else if length path =? length prefix then Ok [slash]
  else Ok (drop (length prefix) path).

Definition extend (path x : bytes) : bytes :=
  if isRoot x then path
  else if isRoot path then path ++ rel x
  else path ++ x.

Definition push (path c : bytes) : result bytes :=
  assert_ (bool_decide (find_char slash c = None)) ;;;
  assert_ (negb (bool_decide (c = L ".")) && negb (bool_decide (c = L ".."))) ;;;
  Ok ((if isRoot path then path else path ++ [slash]) ++ c).

(** [CanonPath(elems)]. *)
Fixpoint CanonPath_elems_loop (path : bytes) (elems : list bytes) : result bytes :=
  match elems with
  | [] => Ok path
  | s :: elems => let* path := push path s in CanonPath_elems_loop path elems
  end.
Definition CanonPath_elems (elems : list bytes) : result bytes := CanonPath_elems_loop [slash] elems.

(** *** Iteration over components *)

(** An [Iterator] is its [remaining] view; it is at the end when the view is
    empty (iterators compare by position). *)
Definition it_deref (remaining : bytes) : bytes :=
  match find_char slash remaining with Some i => take i remaining | None => remaining end.
Definition it_next (remaining : bytes) : bytes :=
  match find_char slash remaining with Some i => drop (i + 1) remaining | None => [] end.

Fixpoint it_list (fuel : nat) (remaining : bytes) : list bytes :=
  match fuel, remaining with
  | S fuel, _ :: _ => it_deref remaining :: it_list fuel (it_next remaining)
  | _, _ => []
  end.
(** The components [for (auto & name : path)] visits. *)
Definition path_iter (path : bytes) : list bytes := it_list (length path) (rel path).

(** The loop of [makeRelative] that drops the common components. *)
Fixpoint skip_common (fuel : nat) (p1 p2 : bytes) : bytes * bytes :=
  match fuel with
  | S fuel =>
      if negb (bool_decide (p1 = [])) && negb (bool_decide (p2 = []))
         && bool_decide (it_deref p1 = it_deref p2)
      then skip_common fuel (it_next p1) (it_next p2)
      else (p1, p2)
  | O => (p1, p2)
  end.

(** [while (p1 != end()) { ++p1; res += "/"?; res += ".."; }]. *)
Fixpoint dotdots (fuel : nat) (p1 res : bytes) : bytes :=
  match fuel, p1 with
  | S fuel, _ :: _ =>
      dotdots fuel (it_next p1) ((if bool_decide (res = []) then res else res ++ [slash]) ++ L "..")
  | _, _ => res
  end.

Definition makeRelative (this path : bytes) : bytes :=
  let '(p1, p2) := skip_common (length this) (rel this) (rel path) in
  if bool_decide (p1 = []) && bool_decide (p2 = []) then L "."
  else if bool_decide (p1 = []) then p2
  else
    let res := dotdots (length this) p1 [] in
    if bool_decide (p2 = []) then res
    else (if bool_decide (res = []) then res else res ++ [slash]) ++ p2.

(** *** Order and access control *)

Section order.
(** Whether [char] is signed on the target (it is on x86-64 and on Darwin,
    not on AArch64 Linux). *)
Variable char_signed : bool.

(** The value compared by [c_i <=> c_j], slashes counting as 0. *)
Definition path_char (c : ascii) : Z :=
  if char_eqb c slash then 0%Z
  else if char_signed && (128 <=? code c)%Z then (code c - 256)%Z else code c.

Fixpoint path_compare (p q : bytes) : comparison :=
  match p, q with
  | c :: p, d :: q =>
      match (path_char c ?= path_char d)%Z with
      | Eq => path_compare p q
      | o => o
      end
  | [], [] => Eq
  | [], _ :: _ => Lt
  | _ :: _, [] => Gt
  end.

(** [allowed.lower_bound(p)] in a set sorted by [path_compare]. *)
Fixpoint lower_bound (p : bytes) (allowed : list bytes) : option bytes :=
  match allowed with
  | [] => None
  | a :: allowed =>
      match path_compare a p with Lt => lower_bound p allowed | _ => Some a end
  end.

Definition path_count (p : bytes) (allowed : list bytes) : bool :=
  existsb (fun a => match path_compare a p with Eq => true | _ => false end) allowed.

(** [while (!path.isRoot()) { path.pop(); if (allowed.count(path)) return true; }]. *)
Fixpoint parent_allowed (fuel : nat) (path : bytes) (allowed : list bytes) : bool :=
  match fuel with
  | S fuel =>
      if isRoot path then false
      else
        let path := take (parentLen path) path in
        if path_count path allowed then true else parent_allowed fuel path allowed
  | O => false
  end.

Definition isAllowed (this : bytes) (allowed : list bytes) : bool :=
  match lower_bound this allowed with
  | Some lb => if isWithin lb this then true else parent_allowed (length this) this allowed
  | None => parent_allowed (length this) this allowed
  end.
End order.

(** ** Native path helpers (file-system.cc, POSIX) *)

Definition isAbsolute (path : bytes) : bool :=
  match path with c :: _ => char_eqb c slash | [] => false end.

Definition rstrip (p : ascii -> bool) (s : bytes) : bytes :=
  match rfind_if (fun c => negb (p c)) s with Some i => take (i + 1) s | None => [] end.

(** [std::filesystem::path::parent_path()] on POSIX: a path of slashes only
    is its own parent; otherwise the last component and the slashes before it
    go, except that the root stays. *)
Definition parent_path (p : bytes) : bytes :=
  if bool_decide (rstrip (char_eqb slash) p = []) then p
  else
    let q := rstrip (fun c => negb (char_eqb slash c)) p in
    let r := rstrip (char_eqb slash) q in
    if bool_decide (r = []) then take 1 q else r.

Definition dirOf (path : bytes) : bytes :=
  match rfind_char slash path with
  | None => L "."
  | Some _ => parent_path path
  end.

(** The index of the last character that is not a trailing slash (0 when all
    are slashes). *)
Fixpoint base_last (path : bytes) (last : nat) : nat :=
  match last with
  | O => O
  | S l => if char_eqb (nth last path NUL) slash then base_last path l else last
  end.

Definition baseNameOf (path : bytes) : bytes :=
  match path with
  | [] => []
  | _ =>
      let last := base_last path (length path - 1) in
      let pos :=
        match rfind_char slash (take (last + 1) path) with
        | None => 0
        | Some p => p + 1
        end in
      substr path pos (last + 1 - pos)
  end.

Definition isInDir (path dir : bytes) : bool :=
  bool_decide (take 1 path = [slash]) && bool_decide (take (length dir) path = dir)
  && (length dir + 2 <=? length path) && char_eqb (nth (length dir) path NUL) slash.

Definition isDirOrInDir (path dir : bytes) : bool :=
  bool_decide (path = dir) || isInDir path dir.

Section native.
(** The file system: whether a path is a symbolic link, and its target. *)
Variable is_symlink : bytes -> bool.
Variable readLink : bytes -> result bytes.

Definition maxFollow : nat := 2 ^ 10.

(** The hook of [canonPath]; the state is [followCount]. *)
Definition symlink_hook (resolveSymlinks : bool) (followCount : nat) (res remaining : bytes) :
    result (nat * bytes * bytes) :=
  if resolveSymlinks && is_symlink res then
    let followCount := S followCount in
    if maxFollow <=? followCount then throw Error
    else
      let* target := readLink res in
      let remaining := target ++ remaining in
      if isAbsolute remaining then Ok (followCount, [], remaining)
      else
        let res := dirOf res in
        Ok (followCount, (if bool_decide (res = L "/") then [] else res), remaining)
  else Ok (followCount, res, remaining).

(** [canonPath(path, resolveSymlinks)]; [None] is running out of fuel. *)
Definition canonPath_fuel (fuel : nat) (path : bytes) (resolveSymlinks : bool) :
    option (result bytes) :=
  if bool_decide (path = []) then Some (Err AssertFailed)
  else if negb (isAbsolute path) then Some (throw Error)
  else canonPathInner_loop (symlink_hook resolveSymlinks) fuel 0 path [].
End native.

(** [canonPath(path)] without symlink resolution. *)
Definition canonPath (path : bytes) : result bytes :=
  match canonPath_fuel (fun _ => false) (fun _ => throw Error) (S (length path)) path false with
  | Some r => r
  | None => Err OutOfFuel
  end.

(** [absPath(path, dir)] for a given directory. *)
Definition absPath (path dir : bytes) : result bytes :=
  canonPath (if isAbsolute path then path else dir ++ L "/" ++ path).

(** ** Components *)

Definition valid_comp (c : bytes) : Prop :=
  c <> [] /\ c <> L "." /\ c <> L ".." /\ slash ∉ c.

Definition render (cs : list bytes) : bytes := concat ((fun c => slash :: c) <$> cs).
Definition render1 (cs : list bytes) : bytes := if bool_decide (cs = []) then [slash] else render cs.

(** A canonical path, as documented in canon-path.hh: it starts with a slash,
    ends with one only if it is the root, and has no empty, [.] or [..]
    component. *)
Definition CanonPath_wf (p : bytes) : Prop :=
  exists cs, Forall valid_comp cs /\ p = render1 cs.

(** What canonicalisation does to a list of raw components. *)
Definition comp_step (acc : list bytes) (c : bytes) : list bytes :=
  if bool_decide (c = []) || bool_decide (c = L ".") then acc
  else if bool_decide (c = L "..") then removelast acc
  else acc ++ [c].
Definition canon_comps (acc : list bytes) (s : bytes) : list bytes :=
  foldl comp_step acc (split_ref (char_eqb slash) s).

Lemma valid_snoc cs c : Forall valid_comp (cs ++ [c]) -> Forall valid_comp cs /\ valid_comp c.
Proof. rewrite Forall_app, Forall_singleton. done. Qed.

Lemma render_app cs ds : render (cs ++ ds) = render cs ++ render ds.
Proof. unfold render. by rewrite fmap_app, concat_app. Qed.

Lemma render_snoc cs c : render (cs ++ [c]) = render cs ++ slash :: c.
Proof. rewrite render_app. unfold render at 2. simpl. by rewrite app_nil_r. Qed.

Lemma render_nil cs : render cs = [] <-> cs = [].
Proof. by destruct cs. Qed.

Lemma canon_comps_skip acc s : canon_comps acc (skip_slashes s) = canon_comps acc s.
Proof.
  induction s as [|c s IH]; [done|]. simpl. destruct (char_eqb c slash) eqn:E; [|done].
  rewrite IH. apply char_eqb_eq in E as ->. done.
Qed.

Lemma canon_comps_slash acc s : canon_comps acc (slash :: s) = canon_comps acc s.
Proof. done. Qed.

(** Cutting off the first component. *)
Lemma canon_comps_next acc s :
  s <> [] ->
  canon_comps acc s =
  match find_char slash s with
  | None => comp_step acc s
  | Some i => canon_comps (comp_step acc (take i s)) (drop i s)
  end.
Proof.
  intros Hs. unfold canon_comps at 1. rewrite split_ref_find. unfold find_char.
  destruct (find_if (char_eqb slash) s) as [i|] eqn:E; [|done].
  cbn [foldl]. apply find_if_Some in E as (c & Hc & Hp & _). apply char_eqb_eq in Hp as <-.
  by rewrite (drop_S s slash i).
Qed.

Lemma skip_slashes_head s :
  match skip_slashes s with [] => True | c :: _ => c <> slash end.
Proof.
  induction s as [|c s IH]; simpl; [done|].
  destruct (char_eqb c slash) eqn:E; [done|]. by apply char_eqb_ne in E.
Qed.

Lemma skip_slashes_length s : length (skip_slashes s) <= length s.
Proof. induction s as [|c s IH]; simpl; [done|]. case_match; simpl; lia. Qed.

Lemma erase_last_render acc c : slash ∉ c -> erase_last (render (acc ++ [c])) = render acc.
Proof.
  intros Hc. unfold erase_last. rewrite render_snoc, rfind_char_app by done.
  by rewrite take_app_length.
Qed.

Lemma comp_step_valid acc c :
  Forall valid_comp acc -> slash ∉ c -> Forall valid_comp (comp_step acc c).
Proof.
  intros Hacc Hc. unfold comp_step. repeat case_bool_decide; simpl; try done.
  - destruct acc as [|a acc _] using rev_ind; [done|]. rewrite removelast_last.
    by apply Forall_app in Hacc as [? _].
  - apply Forall_app. split; [done|]. by repeat constructor.
Qed.

Lemma split_slash_fields s f : f ∈ split_ref (char_eqb slash) s -> slash ∉ f.
Proof.
  intros Hf%split_ref_fields Hin. rewrite Forall_forall in Hf. specialize (Hf _ Hin).
  by apply char_eqb_ne in Hf.
Qed.

Lemma canon_comps_valid acc s : Forall valid_comp acc -> Forall valid_comp (canon_comps acc s).
Proof.
  unfold canon_comps. pose proof (split_slash_fields s) as Hf. revert acc Hf.
  induction (split_ref _ s) as [|f fs IH]; intros acc Hf Hacc; [done|]. simpl.
  apply IH; [set_solver|]. apply comp_step_valid; set_solver.
Qed.

(** ** The loop computes the canonical components *)

Lemma nextComp_split (s : bytes) :
  s <> [] -> (match s with [] => True | c :: _ => c <> slash end) ->
  let next := match find_char slash s with None => s | Some i => take i s end in
  let rest := match find_char slash s with None => [] | Some i => drop i s end in
  s = next ++ rest /\ next <> [] /\ slash ∉ next /\
  (forall acc, canon_comps acc s = canon_comps (comp_step acc next) rest).
Proof.
  intros Hne Hhd. destruct (find_char slash s) as [i|] eqn:E; cbv zeta.
  - pose proof (find_char_split _ _ _ E) as (Hs & Hno & Hi).
    split; [by rewrite take_drop|]. split.
    { destruct s as [|c s]; [done|]. destruct i; [|done].
      simpl in Hs. exfalso. apply Hhd. by injection Hs. }
    split; [done|]. intros acc. by rewrite canon_comps_next, E.
  - split; [by rewrite app_nil_r|]. split; [done|]. split; [by apply find_char_None|].
    intros acc. by rewrite canon_comps_next, E.
Qed.

Section loop.
Context {S : Type} (hook : S -> bytes -> bytes -> result (S * bytes * bytes)).

Definition is_dots (c : bytes) : bool := bool_decide (c = L ".") || bool_decide (c = L "..").

(** One iteration, on components: the end is reached, or the next component
    is consumed. *)
Lemma canonPathInner_step remaining acc :
  Forall valid_comp acc ->
  (canon_comps acc remaining = acc /\ forall fuel st,
     canonPathInner_loop hook (Datatypes.S fuel) st remaining (render acc) = Some (Ok (render1 acc)))
  \/ exists next rest,
    length next + length rest <= length remaining /\ 0 < length next /\ slash ∉ next /\
    canon_comps acc remaining = canon_comps (comp_step acc next) rest /\
    forall fuel st,
      canonPathInner_loop hook (Datatypes.S fuel) st remaining (render acc) =
      if is_dots next then canonPathInner_loop hook fuel st rest (render (comp_step acc next))
      else match hook st (render (acc ++ [next])) rest with
           | Err f => Some (Err f)
           | Ok (st, res, remaining) => canonPathInner_loop hook fuel st remaining res
           end.
Proof.
  intros Hacc. rewrite <- (canon_comps_skip acc remaining).
  pose proof (skip_slashes_length remaining) as Hlen. pose proof (skip_slashes_head remaining) as Hhd.
  cbn [canonPathInner_loop]. set (rem := skip_slashes remaining) in *.
  destruct (decide (rem = [])) as [Hrem|Hrem].
  { left. split; [by rewrite Hrem|]. intros fuel st. rewrite bool_decide_true by done. unfold render1.
    destruct acc; [done|]. by rewrite !bool_decide_false. }
  right. pose proof (nextComp_split rem Hrem Hhd) as (Hs & Hne & Hno & Hc). cbv zeta in *.
  assert (match find_char slash rem with
          | None => (render acc ++ [slash] ++ rem, [])
          | Some i => (render acc ++ [slash] ++ take i rem, drop i rem) end =
          (render acc ++ [slash] ++ match find_char slash rem with None => rem | Some i => take i rem end,
           match find_char slash rem with None => [] | Some i => drop i rem end)) as Hpair
    by (by destruct (find_char slash rem)).
  set (next := match find_char slash rem with None => rem | Some i => take i rem end) in *.
  set (rest := match find_char slash rem with None => [] | Some i => drop i rem end) in *.
  exists next, rest. rewrite Hs, length_app in Hlen. rewrite Hc.
  split; [lia|]. split; [destruct next; simpl; [done|lia]|]. do 2 (split; [done|]). intros fuel st.
  rewrite Hpair. clear Hpair. clearbody next rest.
  rewrite (bool_decide_false (rem = [])) by done. unfold is_dots, comp_step.
  rewrite (bool_decide_false (next = [])) by done. rewrite orb_false_l.
  rewrite Hs. case_bool_decide as H1; [by rewrite H1|]. cbn [orb]. case_bool_decide as H2.
  - rewrite H2. change (drop 2 (L ".." ++ rest)) with rest. f_equal.
    destruct acc as [|c acc _] using rev_ind; [done|].
    rewrite removelast_last, bool_decide_false by (rewrite render_nil; by destruct acc).
    apply valid_snoc in Hacc as [_ Hcv]. by rewrite erase_last_render by apply Hcv.
  - by rewrite render_snoc.
Qed.

Lemma not_dots_comp next acc :
  is_dots next = false -> 0 < length next -> slash ∉ next ->
  valid_comp next /\ comp_step acc next = acc ++ [next].
Proof.
  unfold is_dots. rewrite orb_false_iff, !bool_decide_eq_false. intros [H1 H2] Hn Hno.
  assert (next <> []) by (by destruct next; [simpl in *; lia|]).
  split; [done|]. unfold comp_step. by rewrite !bool_decide_false.
Qed.

Hypothesis hook_id : forall st res remaining, hook st res remaining = Ok (st, res, remaining).

Lemma canonPathInner_ref fuel st remaining acc :
  Forall valid_comp acc -> length remaining < fuel ->
  canonPathInner_loop hook fuel st remaining (render acc) =
  Some (Ok (render1 (canon_comps acc remaining))).
Proof.
  revert remaining acc. induction fuel as [|fuel IH]; intros remaining acc Hacc Hf; [lia|].
  destruct (canonPathInner_step remaining acc Hacc)
    as [[-> ->]|(next & rest & Hlen & Hnext & Hno & -> & ->)]; [done|].
  pose proof (comp_step_valid acc next Hacc Hno) as Hacc'.
  destruct (is_dots next) eqn:E; [by rewrite IH by (done || lia)|].
  rewrite hook_id. destruct (not_dots_comp next acc E Hnext Hno) as [_ Estep].
  rewrite <- Estep. by rewrite IH by (done || lia).
Qed.

Lemma canonPathInner_ref0 fuel st remaining :
  length remaining < fuel ->
  canonPathInner_loop hook fuel st remaining [] = Some (Ok (render1 (canon_comps [] remaining))).
Proof. intros Hf. by apply (canonPathInner_ref fuel st remaining []). Qed.
End loop.

(** Canonicalisation of any string gives the canonical components. *)
Lemma absPathPure_ref s : s <> [] -> absPathPure s = Ok (render1 (canon_comps [] s)).
Proof.
  intros Hs. unfold absPathPure. rewrite bool_decide_false by done. cbn [negb assert_ rbind].
  by rewrite (canonPathInner_ref0 no_hook) by (done || lia).
Qed.

Lemma CanonPath_raw_ref raw : CanonPath_raw raw = Ok (render1 (canon_comps [] raw)).
Proof. unfold CanonPath_raw. by rewrite absPathPure_ref. Qed.

Lemma canonPath_ref s : isAbsolute s = true -> canonPath s = Ok (render1 (canon_comps [] s)).
Proof.
  intros Hs. unfold canonPath, canonPath_fuel. rewrite Hs.
  rewrite bool_decide_false by (by destruct s). cbn [negb].
  by rewrite (canonPathInner_ref0 (symlink_hook _ _ _)) by (done || lia).
Qed.

Lemma comp_step_valid_comp acc c : valid_comp c -> comp_step acc c = acc ++ [c].
Proof.
  intros (? & ? & ? & _). unfold comp_step. by rewrite !bool_decide_false.
Qed.

Lemma split_ref_comp c s :
  slash ∉ c -> split_ref (char_eqb slash) (c ++ slash :: s) = c :: split_ref (char_eqb slash) s.
Proof.
  intros Hc. rewrite split_ref_find. pose proof (find_char_app slash c s Hc) as E.
  unfold find_char in E. rewrite E, take_app_length. f_equal. f_equal.
  rewrite <- Nat.add_1_r, <- drop_drop, drop_app_length. done.
Qed.

Lemma canon_comps_comp acc c s :
  slash ∉ c -> canon_comps acc (c ++ slash :: s) = canon_comps (comp_step acc c) s.
Proof. intros Hc. unfold canon_comps. by rewrite split_ref_comp. Qed.

Lemma canon_comps_one acc c : slash ∉ c -> canon_comps acc c = comp_step acc c.
Proof.
  intros Hc. unfold canon_comps. rewrite split_ref_none; [done|].
  apply Forall_forall. intros d Hd. apply char_eqb_ne. set_solver.
Qed.

(** Resolving a canonical relative path appends its components. *)
Lemma canon_comps_render acc cs s :
  Forall valid_comp cs ->
  canon_comps acc (render cs ++ slash :: s) = canon_comps (acc ++ cs) s.
Proof.
  intros Hcs. revert acc. induction Hcs as [|c cs Hc Hcs IH]; intros acc.
  { by rewrite app_nil_r. }
  unfold render. rewrite fmap_cons. simpl. fold (render cs).
  rewrite canon_comps_slash, <- app_assoc.
  destruct cs as [|d cs].
  - simpl. rewrite canon_comps_comp by apply Hc. by rewrite comp_step_valid_comp.
  - change (render (d :: cs) ++ slash :: s) with (slash :: ((d ++ render cs) ++ slash :: s)).
    rewrite canon_comps_comp, comp_step_valid_comp by (done || apply Hc).
    rewrite (cons_middle c acc (d :: cs)), app_assoc, <- IH. done.
Qed.

Lemma canon_comps_render_end acc cs :
  Forall valid_comp cs -> canon_comps acc (render cs) = acc ++ cs.
Proof.
  intros Hcs. destruct cs as [|c cs _] using rev_ind.
  { by rewrite app_nil_r. }
  apply valid_snoc in Hcs as [Hcs Hc]. rewrite render_snoc, canon_comps_render by done.
  rewrite canon_comps_one, comp_step_valid_comp by (done || apply Hc). by rewrite app_assoc.
Qed.

Lemma canon_comps_render1 acc cs :
  Forall valid_comp cs -> canon_comps acc (render1 cs) = acc ++ cs.
Proof.
  intros Hcs. unfold render1. case_bool_decide; [subst; by rewrite app_nil_r|].
  by apply canon_comps_render_end.
Qed.

(** ** Iteration visits the components *)

Lemma it_list_render fuel c cs :
  Forall valid_comp (c :: cs) -> length cs < fuel -> it_list fuel (c ++ render cs) = c :: cs.
Proof.
  revert c cs. induction fuel as [|fuel IH]; intros c cs Hcs Hf; [lia|].
  inversion Hcs as [|?? (Hne & _ & _ & Hc) Hcs']; subst. destruct cs as [|d cs].
  - unfold render. simpl. rewrite app_nil_r. destruct c as [|x c]; [done|].
    unfold it_deref, it_next. cbn [it_list]. apply find_char_None in Hc as ->.
    by destruct fuel.
  - change (render (d :: cs)) with (slash :: d ++ render cs).
    assert (forall s, it_list (S fuel) (c ++ s) = it_deref (c ++ s) :: it_list fuel (it_next (c ++ s)))
      as -> by (by destruct c).
    unfold it_deref, it_next. rewrite find_char_app by done.
    rewrite take_app_length, <- drop_drop, drop_app_length. cbn [drop].
    f_equal. apply IH; [done|simpl in Hf; lia].
Qed.

Lemma length_render cs : length cs <= length (render cs).
Proof.
  induction cs as [|c cs IH]; [done|]. change (render (c :: cs)) with (slash :: c ++ render cs).
  cbn [length]. rewrite length_app. lia.
Qed.

Lemma rel_render1 c cs : rel (render1 (c :: cs)) = c ++ render cs.
Proof. done. Qed.

Lemma path_iter_render1 cs : Forall valid_comp cs -> path_iter (render1 cs) = cs.
Proof.
  intros Hcs. destruct cs as [|c cs]; [done|]. unfold path_iter.
  rewrite rel_render1. apply it_list_render; [done|].
  pose proof (length_render (c :: cs)). simpl in *. done.
Qed.

(** ** The lexical operations on components *)

Lemma isRoot_render1 cs : Forall valid_comp cs -> isRoot (render1 cs) = bool_decide (cs = []).
Proof.
  intros Hcs. unfold render1. case_bool_decide; [done|]. unfold isRoot.
  destruct cs as [|c cs]; [done|]. inversion Hcs as [|?? (Hne & _)]; subst.
  destruct c; [done|]. done.
Qed.

Lemma render1_cons c cs : render1 (c :: cs) = render (c :: cs).
Proof. done. Qed.
Lemma render1_snoc cs c : render1 (cs ++ [c]) = render cs ++ slash :: c.
Proof. unfold render1. rewrite bool_decide_false by (by destruct cs). apply render_snoc. Qed.

Lemma take_parentLen cs c :
  slash ∉ c -> take (parentLen (render1 (cs ++ [c]))) (render1 (cs ++ [c])) = render1 cs.
Proof.
  intros Hc. unfold parentLen. rewrite render1_snoc, rfind_char_app by done.
  unfold render1. destruct cs as [|d cs]; [done|].
  rewrite bool_decide_false by done. rewrite Nat.max_r by (simpl; lia).
  by rewrite take_app_length.
Qed.

Lemma parent_render1 cs c :
  Forall valid_comp (cs ++ [c]) -> parent (render1 (cs ++ [c])) = Some (render1 cs).
Proof.
  intros Hcs. unfold parent. rewrite isRoot_render1, bool_decide_false by (done || by destruct cs).
  apply valid_snoc in Hcs as [_ Hc]. by rewrite take_parentLen by apply Hc.
Qed.

Lemma push_render1 cs c :
  Forall valid_comp cs -> valid_comp c -> push (render1 cs) c = Ok (render1 (cs ++ [c])).
Proof.
  intros Hcs (Hne & H1 & H2 & Hc). unfold push.
  rewrite (bool_decide_true (find_char _ _ = None)) by by apply find_char_None.
  rewrite !bool_decide_false by done. cbn.
  rewrite isRoot_render1 by done. f_equal. rewrite render1_snoc. unfold render1.
  case_bool_decide; [by subst|]. by rewrite <- app_assoc.
Qed.

Lemma extend_render1 cs ds :
  Forall valid_comp cs -> Forall valid_comp ds ->
  extend (render1 cs) (render1 ds) = render1 (cs ++ ds).
Proof.
  intros Hcs Hds. unfold extend. rewrite !isRoot_render1 by done.
  repeat case_bool_decide; subst.
  - by rewrite app_nil_r.
  - destruct ds; [done|]. done.
  - unfold render1. rewrite !bool_decide_false by (done || by destruct cs). by rewrite render_app.
Qed.

(** A rendering that continues another one does so at a component boundary. *)
Lemma render_prefix_comps cs ds t :
  Forall valid_comp cs -> Forall valid_comp ds ->
  render cs ++ t = render ds -> (t = [] \/ exists t', t = slash :: t') ->
  exists es, ds = cs ++ es.
Proof.
  intros Hcs. revert ds. induction Hcs as [|c cs (Hne & _ & _ & Hc) Hcs IH]; intros ds Hds H Ht.
  { eauto. }
  destruct Hds as [|d ds (_ & _ & _ & Hd) Hds]; [done|].
  unfold render in H. rewrite !fmap_cons in H. simpl in H. injection H as H.
  fold (render cs) (render ds) in H. rewrite <- app_assoc in H.
  assert (forall es u, (u = [] \/ exists u', u = slash :: u') ->
    (render es ++ u = [] \/ exists t', render es ++ u = slash :: t')) as Hb.
  { intros [|e es] u Hu; [done|]. right. by eexists. }
  assert (c = d /\ render cs ++ t = render ds) as [-> Hr].
  { pose proof (Hb cs t Ht) as H1. pose proof (Hb ds [] ltac:(by left)) as H2.
    rewrite app_nil_r in H2. clear -H H1 H2 Hc Hd. revert d Hd H. induction c as [|x c IH]; intros [|y d] Hd H.
    - done.
    - exfalso. simpl in H. destruct H1 as [H1|[t' H1]]; rewrite H1 in H; [done|].
      assert (y = slash) as -> by congruence. set_solver.
    - exfalso. simpl in H. destruct H2 as [H2|[t' H2]]; rewrite H2 in H; [done|].
      assert (x = slash) as -> by congruence. set_solver.
    - injection H as -> H. destruct (IH ltac:(set_solver) d ltac:(set_solver) H) as [-> ?]. done. }
  destruct (IH ds Hds Hr Ht) as [es ->]. by exists es.
Qed.

Lemma isWithin_render1 cs ds :
  Forall valid_comp cs -> Forall valid_comp ds ->
  isWithin (render1 cs) (render1 ds) = true <-> ds `prefix_of` cs.
Proof.
  intros Hcs Hds. unfold isWithin. rewrite negb_true_iff, !orb_false_iff, negb_false_iff,
    bool_decide_eq_true, !andb_false_iff, negb_false_iff, char_eqb_eq, !Nat.ltb_ge.
  destruct ds as [|d ds].
  { split; [intros _; apply prefix_nil|]. intros _.
    destruct cs; (split; [|simpl; auto]); simpl; split; (lia || done). }
  rewrite render1_cons. split.
  - intros [[Hlen Htake] Hb].
    assert (render (d :: ds) ++ drop (length (render (d :: ds))) (render1 cs) = render1 cs) as Hsplit
      by (rewrite <- Htake at 1; apply take_drop).
    destruct cs as [|c cs].
    { exfalso. inversion Hds as [|?? (Hne & _)]; subst. destruct d; simpl in *; [done|lia]. }
    rewrite render1_cons in *. eapply (render_prefix_comps _ _ _ Hds Hcs Hsplit).
    destruct (drop _ _) as [|x t] eqn:E; [by left|]. right. exists t. f_equal.
    assert (length (render (d :: ds)) < length (render (c :: cs))) as Hlt.
    { apply (f_equal length) in E. rewrite length_drop in E. cbn [length] in E. lia. }
    assert (render (c :: cs) !! length (render (d :: ds)) = Some x) as Hx
      by (by rewrite <- (Nat.add_0_r (length _)), <- lookup_drop, E).
    apply (nth_lookup_Some _ _ NUL) in Hx. destruct Hb as [[Hb|Hb]|Hb].
    + exfalso. inversion Hds as [|?? (Hne & _)]; subst. destruct d; cbn in *; [done|lia].
    + lia.
    + by rewrite Hx in Hb.
  - intros [es ->]. rewrite <- app_comm_cons, render1_cons, app_comm_cons, render_app.
    rewrite take_app_length, length_app. split; [split; [lia|done]|].
    destruct es as [|e es]; [left; right; change (length (render [])) with 0; lia|]. right.
    rewrite app_nth2, Nat.sub_diag by lia. done.
Qed.

Lemma removePrefix_render1 ds es :
  Forall valid_comp (ds ++ es) ->
  removePrefix (render1 (ds ++ es)) (render1 ds) = Ok (render1 es).
Proof.
  intros Hv. pose proof Hv as [Hds Hes]%Forall_app. unfold removePrefix.
  rewrite (proj2 (isWithin_render1 _ _ Hv Hds)) by (by exists es). cbn [assert_ rbind].
  rewrite isRoot_render1 by done. case_bool_decide; [by subst|].
  unfold render1. rewrite (bool_decide_false (ds ++ es = [])), (bool_decide_false (ds = []))
    by (done || by destruct ds).
  rewrite render_app, length_app, drop_app_length.
  destruct (Nat.eqb_spec (length (render ds) + length (render es)) (length (render ds))) as [E|E].
  - assert (length (render es) = 0) as E0%nil_length_inv by lia.
    apply render_nil in E0 as ->. done.
  - destruct es; [|done]. cbn in E. lia.
Qed.

Lemma baseName_render1 cs c :
  Forall valid_comp (cs ++ [c]) -> baseName (render1 (cs ++ [c])) = Some c.
Proof.
  intros Hcs. unfold baseName. rewrite isRoot_render1, bool_decide_false by (done || by destruct cs).
  apply valid_snoc in Hcs as [_ Hc]. rewrite render1_snoc, rfind_char_app by apply Hc.
  by rewrite <- drop_drop, drop_app_length.
Qed.

(** ** Relative paths *)

Lemma it_deref_rel c cs : slash ∉ c -> it_deref (rel (render1 (c :: cs))) = c.
Proof.
  intros Hc. rewrite rel_render1. unfold it_deref. destruct cs as [|d cs].
  - unfold render. simpl. rewrite app_nil_r. by apply find_char_None in Hc as ->.
  - change (render (d :: cs)) with (slash :: d ++ render cs).
    by rewrite find_char_app, take_app_length.
Qed.

Lemma it_next_rel c cs : slash ∉ c -> it_next (rel (render1 (c :: cs))) = rel (render1 cs).
Proof.
  intros Hc. rewrite rel_render1. unfold it_next. destruct cs as [|d cs].
  - unfold render. simpl. rewrite app_nil_r. by apply find_char_None in Hc as ->.
  - change (render (d :: cs)) with (slash :: d ++ render cs).
    rewrite find_char_app, <- drop_drop, drop_app_length by done. done.
Qed.

Lemma rel_nil cs : Forall valid_comp cs -> rel (render1 cs) = [] <-> cs = [].
Proof.
  intros Hcs. destruct Hcs as [|c cs (Hne & _)]; [done|]. rewrite rel_render1.
  by destruct c.
Qed.

Lemma skip_common_rel fuel cs ds :
  Forall valid_comp cs -> Forall valid_comp ds ->
  exists k cs' ds', cs = k ++ cs' /\ ds = k ++ ds' /\
    skip_common fuel (rel (render1 cs)) (rel (render1 ds)) = (rel (render1 cs'), rel (render1 ds')).
Proof.
  revert cs ds. induction fuel as [|fuel IH]; intros cs ds Hcs Hds; [by exists [], cs, ds|].
  cbn [skip_common]. destruct (_ && _) eqn:E; [|by exists [], cs, ds].
  apply andb_true_iff in E as [[E1 E2]%andb_true_iff E3%bool_decide_eq_true].
  destruct Hcs as [|c cs Hc Hcs]; [done|]. destruct Hds as [|d ds Hd Hds]; [done|].
  rewrite !it_next_rel by (apply Hc || apply Hd).
  rewrite !it_deref_rel in E3 by (apply Hc || apply Hd). subst d.
  destruct (IH cs ds Hcs Hds) as (k & cs' & ds' & -> & -> & ->).
  by exists (c :: k), cs', ds'.
Qed.

Definition ups (n : nat) : list bytes := replicate n (L "..").

Lemma dotdots_rel fuel cs res :
  Forall valid_comp cs -> length cs <= fuel -> res <> [] ->
  dotdots fuel (rel (render1 cs)) res = res ++ render (ups (length cs)).
Proof.
  intros Hcs. revert fuel res. induction Hcs as [|c cs Hc Hcs IH]; intros fuel res Hf Hres.
  { change (rel (render1 [])) with (@nil ascii). unfold render. simpl. rewrite app_nil_r.
    by destruct fuel. }
  destruct fuel as [|fuel]; [cbn in Hf; lia|]. cbn [length] in *.
  assert (exists x s, rel (render1 (c :: cs)) = x :: s) as (x & s & E).
  { destruct c as [|x c]; [by destruct Hc|]. by exists x, (c ++ render cs). }
  cbn [dotdots]. rewrite E at 1. rewrite it_next_rel by apply Hc.
  rewrite bool_decide_false, IH by (done || lia || by destruct res).
  change (render (ups (S (length cs)))) with (slash :: L ".." ++ render (ups (length cs))).
  by rewrite <- !app_assoc.
Qed.

Lemma dotdots_rel0 fuel c cs :
  Forall valid_comp (c :: cs) -> length cs < fuel ->
  dotdots fuel (rel (render1 (c :: cs))) [] = L ".." ++ render (ups (length cs)).
Proof.
  intros Hv Hf. destruct fuel as [|fuel]; [lia|]. inversion Hv as [|?? Hc Hcs]; subst.
  assert (exists x s, rel (render1 (c :: cs)) = x :: s) as (x & s & E).
  { destruct c as [|x c]; [by destruct Hc|]. by exists x, (c ++ render cs). }
  cbn [dotdots]. rewrite E at 1. rewrite it_next_rel by apply Hc.
  by rewrite bool_decide_true, dotdots_rel by (done || lia).
Qed.

(** Leaving the components [cs] again. *)
Lemma canon_comps_ups acc n s :
  canon_comps acc ((L ".." ++ render (ups n)) ++ slash :: s) =
  canon_comps (take (length acc - S n) acc) s.
Proof.
  assert (forall acc, comp_step acc (L "..") = take (length acc - 1) acc) as Hstep.
  { intros a. change (comp_step a (L "..")) with (removelast a).
    by rewrite removelast_firstn_len, <- Nat.sub_1_r. }
  assert (forall m : nat, slash ∉ L ".." ) as Hno by (intros _; apply (bool_decide_unpack _); done).
  revert acc. induction n as [|n IH]; intros acc.
  - unfold render. cbn [ups replicate fmap list_fmap concat]. rewrite app_nil_r.
    by rewrite canon_comps_comp, Hstep by apply (Hno 0).
  - change (render (ups (S n))) with (slash :: L ".." ++ render (ups n)).
    rewrite <- app_assoc. rewrite <- app_comm_cons.
    rewrite canon_comps_comp, IH, Hstep by apply (Hno 0).
    rewrite take_take, length_take. f_equal. f_equal. lia.
Qed.

Lemma canon_comps_trailing acc s : canon_comps acc (s ++ [slash]) = canon_comps acc s.
Proof.
  unfold canon_comps. revert acc.
  assert (split_ref (char_eqb slash) (s ++ [slash]) = split_ref (char_eqb slash) s ++ [[]]) as ->.
  { induction s as [|c s IH]; [done|]. simpl. rewrite IH.
    destruct (char_eqb slash c); [done|].
    pose proof (split_ref_nonnil (char_eqb slash) s). by destruct (split_ref _ s). }
  intros acc. by rewrite foldl_app.
Qed.

Lemma CanonPath_in_relative cs raw :
  Forall valid_comp cs -> isAbsolute raw = false ->
  CanonPath_in raw (render1 cs) = Ok (render1 (canon_comps cs raw)).
Proof.
  intros Hcs Hraw. unfold CanonPath_in.
  assert (forall x : bytes, match raw with
     | c :: _ => if char_eqb c slash then raw else x
     | [] => x end = x) as ->.
  { intros x. destruct raw as [|c raw]; [done|]. unfold isAbsolute in Hraw. by rewrite Hraw. }
  rewrite absPathPure_ref by (destruct cs; done). f_equal. f_equal.
  unfold render1. case_bool_decide; [subst; done|]. by apply (canon_comps_render []).
Qed.

Lemma isAbsolute_app s t : s <> [] -> isAbsolute (s ++ t) = isAbsolute s.
Proof. by destruct s. Qed.

Lemma valid_comp_relative c : valid_comp c -> isAbsolute c = false.
Proof.
  intros (Hne & _ & _ & Hc). destruct c as [|x c]; [done|]. apply char_eqb_ne. set_solver.
Qed.

Lemma makeRelative_cases cs ds :
  Forall valid_comp cs -> Forall valid_comp ds ->
  exists k cs' ds', cs = k ++ cs' /\ ds = k ++ ds' /\
    makeRelative (render1 cs) (render1 ds) =
    match cs', ds' with
    | [], [] => L "."
    | [], d :: ds' => d ++ render ds'
    | _ :: cs', [] => L ".." ++ render (ups (length cs'))
    | _ :: cs', d :: ds' => (L ".." ++ render (ups (length cs'))) ++ slash :: d ++ render ds'
    end.
Proof.
  intros Hcs Hds. unfold makeRelative.
  destruct (skip_common_rel (length (render1 cs)) cs ds Hcs Hds) as (k & cs' & ds' & -> & -> & ->).
  exists k, cs', ds'. split; [done|]. split; [done|].
  pose proof (proj2 (proj1 (Forall_app _ _ _) Hcs)) as Hcs'.
  pose proof (proj2 (proj1 (Forall_app _ _ _) Hds)) as Hds'.
  rewrite !(bool_decide_ext _ _ (rel_nil _ Hcs')), !(bool_decide_ext _ _ (rel_nil _ Hds')).
  destruct cs' as [|c cs']; [by destruct ds'|].
  rewrite (bool_decide_false (c :: cs' = [])) by done. cbn [andb].
  rewrite dotdots_rel0; [|done|].
  - destruct ds' as [|d ds']; [done|]. rewrite !bool_decide_false by done.
    rewrite <- app_assoc. done.
  - unfold render1. rewrite bool_decide_false by (by destruct k).
    pose proof (length_render (k ++ c :: cs')) as H. rewrite length_app in H. cbn in H |- *. lia.
Qed.

(** The promise made in canon-path.hh: resolving [p.makeRelative(q)]
    against [p] gives back [q], for all canonical paths. *)
Theorem makeRelative_roundtrip p q :
  CanonPath_wf p -> CanonPath_wf q -> CanonPath_in (makeRelative p q) p = Ok q.
Proof.
  intros (cs & Hcs & ->) (ds & Hds & ->).
  destruct (makeRelative_cases cs ds Hcs Hds) as (k & cs' & ds' & -> & -> & ->).
  pose proof (proj2 (proj1 (Forall_app _ _ _) Hds)) as Hds'.
  assert (forall d ds', Forall valid_comp (d :: ds') -> forall acc,
    canon_comps acc (d ++ render ds') = acc ++ d :: ds') as Hdown.
  { intros d es Hv acc. rewrite <- (canon_comps_render_end acc (d :: es)) by done. done. }
  destruct cs' as [|c cs'], ds' as [|d ds']; rewrite ?app_nil_r in *.
  - rewrite CanonPath_in_relative by done. done.
  - rewrite CanonPath_in_relative, Hdown; [done..|]. inversion Hds'; subst.
    rewrite isAbsolute_app by (by destruct d; destruct H1). by apply valid_comp_relative.
  - rewrite CanonPath_in_relative by done. rewrite <- canon_comps_trailing, canon_comps_ups.
    rewrite length_app. cbn [length].
    by replace (length k + S (length cs') - S (length cs')) with (length k) by lia; rewrite take_app_length.
  - rewrite CanonPath_in_relative by done. rewrite canon_comps_ups, length_app. cbn [length].
    replace (length k + S (length cs') - S (length cs')) with (length k) by lia.
    by rewrite take_app_length, Hdown.
Qed.

Lemma CanonPath_wf_root : CanonPath_wf [slash].
Proof. by exists []. Qed.

Lemma CanonPath_raw_wf raw p : CanonPath_raw raw = Ok p -> CanonPath_wf p.
Proof.
  rewrite CanonPath_raw_ref. intros [= <-]. eexists. split; [|done]. by apply canon_comps_valid.
Qed.

Lemma CanonPath_raw_self p : CanonPath_raw p = Ok p -> CanonPath_wf p.
Proof. apply CanonPath_raw_wf. Qed.

Lemma makeRelative_roundtrip_witness :
  CanonPath_in (makeRelative (L "/foo/bar") (L "/foo/baz/x")) (L "/foo/bar") = Ok (L "/foo/baz/x")
  /\ makeRelative (L "/foo/bar") (L "/foo/baz/x") = L "../baz/x".
Proof.
  split; [|reflexivity].
  apply (makeRelative_roundtrip (L "/foo/bar") (L "/foo/baz/x"));
    by apply CanonPath_raw_self.
Defined.

(** ** Claims on canonicalisation and the component operations *)

(** [CanonPath(raw)] never fails; its result satisfies the documented
    invariant of the class, is a fixed point of canonicalisation, and has the
    components obtained from the fields of [raw] between slashes by dropping
    empty and [.] fields and letting [..] remove the last component kept (at
    the root it removes nothing), so that no path escapes the root. *)
Theorem CanonPath_raw_canonical raw :
  exists p, CanonPath_raw raw = Ok p /\ CanonPath_wf p /\ CanonPath_raw p = Ok p /\
    path_iter p = foldl comp_step [] (split_ref (char_eqb slash) raw).
Proof.
  assert (Forall valid_comp (canon_comps [] raw)) as Hv by by apply canon_comps_valid.
  exists (render1 (canon_comps [] raw)). split; [apply CanonPath_raw_ref|].
  split; [by eexists|]. split; [|by apply path_iter_render1].
  by rewrite CanonPath_raw_ref, canon_comps_render1.
Qed.

(** C38: canonical paths are lists of components: for valid component lists,
    iteration visits exactly the components, [push] appends one, [parent] and
    [pop] remove the last one (and refuse the root), [operator /] concatenates,
    [isWithin] decides the prefix relation of the component lists, and
    [removePrefix] undoes concatenation. *)
Theorem CanonPath_component_refinement cs ds c :
  Forall valid_comp cs -> Forall valid_comp ds -> valid_comp c ->
  path_iter (render1 cs) = cs
  /\ push (render1 cs) c = Ok (render1 (cs ++ [c]))
  /\ parent (render1 (cs ++ [c])) = Some (render1 cs)
  /\ pop (render1 (cs ++ [c])) = Ok (render1 cs)
  /\ baseName (render1 (cs ++ [c])) = Some c
  /\ parent (render1 []) = None /\ pop (render1 []) = Err AssertFailed
  /\ extend (render1 cs) (render1 ds) = render1 (cs ++ ds)
  /\ (isWithin (render1 cs) (render1 ds) = true <-> ds `prefix_of` cs)
  /\ removePrefix (render1 (cs ++ ds)) (render1 cs) = Ok (render1 ds).
Proof.
  intros Hcs Hds Hc. assert (Forall valid_comp (cs ++ [c])) as Hcc
    by (apply Forall_app; by split; [|apply Forall_singleton]).
  split; [by apply path_iter_render1|]. split; [by apply push_render1|].
  split; [by apply parent_render1|]. split.
  { unfold pop. rewrite isRoot_render1, bool_decide_false by (done || by destruct cs).
    cbn. by rewrite take_parentLen by apply Hc. }
  split; [by apply baseName_render1|]. do 2 (split; [done|]).
  split; [by apply extend_render1|]. split; [by apply isWithin_render1|].
  apply removePrefix_render1. by apply Forall_app.
Qed.

Lemma valid_comp_dec_true c :
  bool_decide (c <> [] /\ c <> L "." /\ c <> L ".." /\ slash ∉ c) = true -> valid_comp c.
Proof. apply bool_decide_eq_true_1. Qed.

Lemma CanonPath_component_refinement_witness :
  isWithin (L "/a/b") (L "/a") = true /\ isWithin (L "/ab") (L "/a") = false /\
  removePrefix (render1 ([L "a"] ++ [L "b"])) (render1 [L "a"]) = Ok (render1 [L "b"]).
Proof.
  split; [reflexivity|]. split; [reflexivity|].
  apply (CanonPath_component_refinement [L "a"] [L "b"] (L "c"));
    repeat constructor; by apply (valid_comp_dec_true _).
Defined.

(** [push] asserts that its argument has no slash and is neither [.] nor
    [..], but accepts the empty string: the result of [CanonPath("/a") / ""]
    ends in a slash, which the class documents to be impossible. *)
Theorem push_empty_breaks_invariant :
  push (L "/a") [] = Ok (L "/a/") /\ ~ CanonPath_wf (L "/a/").
Proof.
  split; [done|]. intros (cs & Hcs & E).
  pose proof (CanonPath_raw_ref (L "/a/")) as H. rewrite E, canon_comps_render1, app_nil_l, <- E in H by done.
  vm_compute in H. done.
Qed.

(** ** Access control *)

Section allowed.
Context (sg : bool).

(** Characters on which the comparison orders slashes first: no NUL, and
    only ASCII where [char] is signed. *)
Definition path_char_ok (c : ascii) : Prop := c <> NUL /\ (sg = false \/ (code c < 128)%Z).

Lemma path_char_pos c : path_char_ok c -> c <> slash -> (0 < path_char sg c)%Z.
Proof.
  intros [H0 Hs] Hne. unfold path_char. rewrite (proj2 (char_eqb_ne _ _) Hne).
  assert (code c <> 0)%Z by (intros E; apply H0, code_inj; done).
  pose proof (code_bound c). destruct Hs as [->|Hs]; [simpl; lia|].
  rewrite andb_comm. destruct (Z.leb_spec 128 (code c)); simpl; lia.
Qed.

Lemma path_char_inj c d :
  path_char_ok c -> path_char_ok d -> path_char sg c = path_char sg d -> c = d.
Proof.
  intros Hc Hd E. pose proof (path_char_pos c Hc). pose proof (path_char_pos d Hd).
  unfold path_char in *. destruct (char_eqb c slash) eqn:E1.
  - apply char_eqb_eq in E1 as ->. destruct (char_eqb d slash) eqn:E2;
      [by apply char_eqb_eq in E2|]. apply char_eqb_ne in E2. specialize (H0 E2). lia.
  - destruct (char_eqb d slash) eqn:E2.
    { apply char_eqb_ne in E1. specialize (H E1). lia. }
    pose proof (code_bound c). pose proof (code_bound d). apply code_inj.
    destruct Hc as [_ Hc], Hd as [_ Hd].
    destruct sg; simpl in E; [|lia].
    destruct (Z.leb_spec 128 (code c)), (Z.leb_spec 128 (code d)); lia || naive_solver lia.
Qed.

Lemma path_compare_eq p q :
  Forall path_char_ok p -> Forall path_char_ok q -> path_compare sg p q = Eq <-> p = q.
Proof.
  intros Hp. revert q. induction Hp as [|c p Hc Hp IH]; intros q Hq.
  { destruct q; split; done. }
  destruct Hq as [|d q Hd Hq]; [done|]. cbn [path_compare].
  destruct (Z.compare_spec (path_char sg c) (path_char sg d)) as [E|E|E].
  - apply path_char_inj in E as ->; [|done..]. rewrite IH by done. naive_solver.
  - split; [done|]. intros [= -> _]. lia.
  - split; [done|]. intros [= -> _]. lia.
Qed.

(** What lies between a path and something below it is below the path. *)
Lemma path_compare_between p q t :
  Forall path_char_ok (p ++ t) -> Forall path_char_ok q -> (t = [] \/ exists t', t = slash :: t') ->
  path_compare sg q p <> Lt -> path_compare sg q (p ++ t) <> Gt ->
  q = p \/ exists t', q = p ++ slash :: t'.
Proof.
  revert q. induction p as [|c p IH]; intros q Hp Hq Ht H1 H2.
  - destruct q as [|d q]; [by left|]. right. exists q. f_equal.
    destruct Ht as [->|[t' ->]]; [done|]. inversion Hq; subst.
    destruct (decide (d = slash)) as [->|Hne]; [done|]. exfalso. apply H2. simpl.
    pose proof (path_char_pos d ltac:(done) Hne).
    change (path_char sg slash) with 0%Z.
    by rewrite (proj2 (Z.compare_gt_iff _ _)).
  - destruct q as [|d q]; [done|]. inversion Hq; inversion Hp; subst. simpl in H1, H2.
    destruct (Z.compare_spec (path_char sg d) (path_char sg c)) as [E|E|E]; [|done..].
    apply path_char_inj in E as ->; [|done..].
    destruct (IH q) as [->|[t' ->]]; [done..|by left|]. right. by exists t'.
Qed.

Definition path_sorted (allowed : list bytes) : Prop :=
  StronglySorted (fun a b => path_compare sg a b = Lt) allowed.

Lemma path_compare_antisym p q : path_compare sg q p = CompOpp (path_compare sg p q).
Proof.
  revert q. induction p as [|c p IH]; intros [|d q]; cbn [path_compare]; try done.
  rewrite (Z.compare_antisym (path_char sg c)).
  destruct (path_char sg c ?= path_char sg d)%Z; simpl; auto.
Qed.

Lemma path_compare_app p t : path_compare sg (p ++ t) p <> Lt.
Proof. induction p as [|c p IH]; simpl; [by destruct t|]. by rewrite Z.compare_refl. Qed.

(** [lower_bound] finds an element below every element that is not less
    than the key. *)
Lemma lower_bound_spec p allowed :
  path_sorted allowed ->
  match lower_bound sg p allowed with
  | None => Forall (fun a => path_compare sg a p = Lt) allowed
  | Some lb => lb ∈ allowed /\ path_compare sg lb p <> Lt /\
      Forall (fun a => path_compare sg a p = Lt \/ a = lb \/ path_compare sg lb a = Lt) allowed
  end.
Proof.
  induction 1 as [|a allowed Hs IH Ha]; simpl; [done|].
  destruct (path_compare sg a p) eqn:E.
  2: { destruct (lower_bound sg p allowed) as [lb|]; [|by constructor].
       destruct IH as (? & ? & ?). split; [by right|]. split; [done|]. constructor; auto. }
  all: split; [by left|]; split; [by rewrite E|]; constructor; [auto|];
    eapply Forall_impl; [done|]; simpl; auto.
Qed.
End allowed.

Section isAllowed.
Context (sg : bool) (allowed : list bytes).
Hypothesis allowed_wf : Forall CanonPath_wf allowed.
Hypothesis allowed_ok : Forall (Forall (path_char_ok sg)) allowed.

Lemma path_count_spec p :
  Forall (path_char_ok sg) p -> path_count sg p allowed = bool_decide (p ∈ allowed).
Proof.
  intros Hp. apply eq_true_iff_eq. unfold path_count. rewrite existsb_exists, bool_decide_eq_true.
  rewrite Forall_forall in allowed_ok. split.
  - intros (a & Ha & E). apply list_elem_of_In in Ha.
    destruct (path_compare sg a p) eqn:E'; [|done..].
    apply path_compare_eq in E' as ->; auto.
  - intros Ha. exists p. split; [by apply list_elem_of_In|].
    by rewrite (proj2 (path_compare_eq sg p p Hp Hp)).
Qed.

Lemma render1_chars_prefix cs ds :
  Forall (path_char_ok sg) (render1 (cs ++ ds)) -> Forall (path_char_ok sg) (render1 cs).
Proof.
  intros H. assert (path_char_ok sg slash) by (split; [done|right; vm_compute; done]).
  unfold render1 in *. destruct cs as [|c cs]; [by repeat constructor|].
  rewrite bool_decide_false in * by done. rewrite render_app in H. by apply Forall_app in H as [? _].
Qed.

(** The loop over the parents looks up every proper prefix. *)
Lemma parent_allowed_spec fuel cs :
  Forall valid_comp cs -> length cs <= fuel -> Forall (path_char_ok sg) (render1 cs) ->
  parent_allowed sg fuel (render1 cs) allowed = true <->
  exists ds e es, cs = ds ++ e :: es /\ render1 ds ∈ allowed.
Proof.
  intros Hcs. revert fuel. induction cs as [|c cs IH] using rev_ind; intros fuel Hf Hok.
  { split; [by destruct fuel|]. intros ([|??] & e & es & ? & _); done. }
  rewrite length_app in Hf. cbn [length] in Hf. destruct fuel as [|fuel]; [lia|].
  pose proof (valid_snoc _ _ Hcs) as [Hcs' Hc]. pose proof (render1_chars_prefix _ _ Hok) as Hok'.
  cbn [parent_allowed]. rewrite isRoot_render1, bool_decide_false by (done || by destruct cs).
  rewrite take_parentLen, path_count_spec by (done || apply Hc). case_bool_decide as Hin.
  { split; [|done]. intros _. by exists cs, c, []. }
  rewrite IH by (done || lia). split; intros (ds & e & es & E & H).
  - exists ds, e, (es ++ [c]). split; [|done]. by rewrite E, <- app_assoc.
  - destruct es as [|e' es _] using rev_ind.
    + apply app_inj_tail in E as [-> ->]. done.
    + rewrite app_comm_cons, app_assoc in E. apply app_inj_tail in E as [-> _]. by exists ds, e, es.
Qed.

Lemma isWithin_wf p q :
  CanonPath_wf p -> CanonPath_wf q -> isWithin p q = true ->
  exists cs ds, Forall valid_comp (cs ++ ds) /\ q = render1 cs /\ p = render1 (cs ++ ds).
Proof.
  intros (ps & Hps & ->) (qs & Hqs & ->) H. apply isWithin_render1 in H as [es ->]; [|done..]. eauto.
Qed.

Hypothesis allowed_sorted : path_sorted sg allowed.

(** [lower_bound] finds a path below [this] whenever there is one. *)
Lemma lower_bound_within this a :
  CanonPath_wf this -> Forall (path_char_ok sg) this -> a ∈ allowed -> isWithin a this = true ->
  exists lb, lower_bound sg this allowed = Some lb /\ isWithin lb this = true.
Proof.
  intros (cs & Hcs & ->) Hok Ha Hw. pose proof (lower_bound_spec sg (render1 cs) _ allowed_sorted) as Hlb.
  rewrite Forall_forall in allowed_wf, allowed_ok.
  apply isWithin_wf in Hw as (cs' & ds & Hv & E & ->); [|by auto|by exists cs].
  apply Forall_app in Hv as [Hcs' Hds].
  assert (cs' = cs) as -> by (rewrite <- (path_iter_render1 cs), <- (path_iter_render1 cs'); congruence).
  assert (render1 (cs ++ ds) = render1 cs ++ (if bool_decide (cs = []) then drop 1 (render ds) else render ds))
    as Happ.
  { unfold render1. case_bool_decide as E1.
    - apply app_eq_nil in E1 as [-> ->]. done.
    - case_bool_decide as E2; [subst; by destruct ds|]. apply render_app. }
  assert (path_compare sg (render1 (cs ++ ds)) (render1 cs) <> Lt) as Hge.
  { rewrite Happ. apply path_compare_app. }
  destruct (lower_bound sg (render1 cs) allowed) as [lb|].
  2: { rewrite Forall_forall in Hlb. by specialize (Hlb _ Ha). }
  exists lb. split; [done|]. destruct Hlb as (Hlbin & Hlb1 & Hlb2). rewrite Forall_forall in Hlb2.
  specialize (Hlb2 _ Ha) as [?|[<-|Hlt]]; [done| |].
  { apply isWithin_render1; [by apply Forall_app|done|by exists ds]. }
  destruct (allowed_wf _ Hlbin) as (ls & Hls & ->).
  apply isWithin_render1; [done..|]. destruct cs as [|c cs]; [apply prefix_nil|].
  rewrite bool_decide_false in Happ by done.
  destruct (path_compare_between sg (render1 (c :: cs)) (render1 ls) (render ds)) as [E'|[t E']].
  - rewrite <- Happ. auto.
  - auto.
  - destruct ds; [by left|right; by eexists].
  - done.
  - by rewrite <- Happ, Hlt.
  - exists []. rewrite app_nil_r.
    by rewrite <- (path_iter_render1 (c :: cs)), <- E', path_iter_render1.
  - assert (ls <> []) as Hne. { intros ->. apply (f_equal length) in E'. rewrite length_app in E'. cbn in E'. lia. }
    unfold render1 in E'. rewrite !bool_decide_false in E' by done.
    eapply render_prefix_comps; [..|by rewrite <- E'|eauto]; done.
Qed.
End isAllowed.

(** [isAllowed] decides what its documentation says: whether [this] is
    within an allowed path or an allowed path is within [this]. The set must
    be sorted by the comparison of the class, and the paths must be free of
    NUL and, where [char] is signed, of non-ASCII characters. *)
Theorem isAllowed_spec sg this allowed :
  CanonPath_wf this -> Forall CanonPath_wf allowed ->
  Forall (path_char_ok sg) this -> Forall (Forall (path_char_ok sg)) allowed ->
  path_sorted sg allowed ->
  isAllowed sg this allowed = true <->
  exists a, a ∈ allowed /\ (isWithin this a = true \/ isWithin a this = true).
Proof.
  intros Hthis Hwf Hok Hoks Hsorted. unfold isAllowed.
  pose proof Hthis as (cs & Hcs & E). pose proof (lower_bound_spec sg this _ Hsorted) as Hlb.
  assert (forall a, a ∈ allowed -> isWithin this a = true ->
    isWithin a this = true \/ parent_allowed sg (length this) this allowed = true) as Hup.
  { intros a Ha Hw. rewrite Forall_forall in Hwf.
    destruct (isWithin_wf this a Hthis (Hwf _ Ha) Hw) as (ds & es & Hv & -> & ->).
    pose proof Hv as [Hds Hes]%Forall_app. destruct es as [|e es].
    - left. rewrite app_nil_r. by apply isWithin_render1.
    - right. apply (parent_allowed_spec sg allowed Hoks); [done| |done|by exists ds, e, es].
      unfold render1. case_bool_decide as En; [by destruct ds|apply length_render]. }
  assert (length cs <= length this) as Hlen.
  { subst. unfold render1. case_bool_decide as En; [subst; cbn; lia|apply length_render]. }
  split.
  - intros H. assert ((exists lb, lower_bound sg this allowed = Some lb /\ isWithin lb this = true)
      \/ parent_allowed sg (length this) this allowed = true) as [(lb & Elb & Hw)|Hp].
    { destruct (lower_bound sg this allowed) as [lb|]; [|by right].
      destruct (isWithin lb this) eqn:Ew; [left; eauto|by right]. }
    + rewrite Elb in Hlb. exists lb. split; [apply Hlb|by right].
    + subst this. apply parent_allowed_spec in Hp as (ds & e & es & -> & Hin); [|done..].
      exists (render1 ds). split; [done|]. left. apply isWithin_render1; [done| |by exists (e :: es)].
      by apply Forall_app in Hcs as [? _].
  - intros (a & Ha & Hw).
    assert (isWithin a this = true \/ parent_allowed sg (length this) this allowed = true) as [Hd|Hp]
      by (destruct Hw; eauto).
    + destruct (lower_bound_within sg allowed Hwf Hoks Hsorted this a) as (lb & -> & ->); done.
    + destruct (lower_bound sg this allowed) as [lb|]; [by destruct (isWithin lb this)|done].
Qed.

Lemma isAllowed_spec_witness :
  isAllowed true (L "/a/b/c") [L "/a/b"; L "/a/d"] = true <->
  exists a, a ∈ [L "/a/b"; L "/a/d"] /\
    (isWithin (L "/a/b/c") a = true \/ isWithin a (L "/a/b/c") = true).
Proof.
  apply (isAllowed_spec true (L "/a/b/c") [L "/a/b"; L "/a/d"]).
  - by apply CanonPath_raw_self.
  - repeat constructor; by apply CanonPath_raw_self.
  - repeat constructor; (done || by right).
  - repeat constructor; (done || by right).
  - repeat constructor.
Defined.

(** On targets where [char] is signed, a UTF-8 name breaks the documented
    order (a directory directly followed by its children) and with it
    [isAllowed]: with ["/a/b"] allowed, access to its parent ["/a"] is denied
    as soon as a sibling ["/a\xc3"] is allowed as well. *)
Theorem isAllowed_signed_char_denies_parent :
  let sibling := L "/a" ++ [chr 195] in
  path_sorted true [sibling; L "/a/b"] /\
  isWithin (L "/a/b") (L "/a") = true /\
  isAllowed true (L "/a") [sibling; L "/a/b"] = false /\
  isAllowed false (L "/a") [L "/a/b"; sibling] = true.
Proof. split; [repeat constructor|]. repeat split; reflexivity. Qed.

(** ** Symlink resolution *)

Lemma rfind_if_last p s c : p c = true -> rfind_if p (s ++ [c]) = Some (length s).
Proof. intros Hc. rewrite (rfind_if_app_Some _ _ _ 0); [f_equal; lia|]. simpl. by rewrite Hc. Qed.

Lemma rstrip_app p s c t :
  p c = false -> Forall (fun d => p d = true) t -> rstrip p (s ++ c :: t) = s ++ [c].
Proof.
  intros Hc Ht. unfold rstrip. change (c :: t) with ([c] ++ t). rewrite app_assoc.
  rewrite rfind_if_app_None by (eapply Forall_impl; [done|]; intros d Hd; by rewrite Hd).
  rewrite rfind_if_last by by rewrite Hc.
  replace (length s + 1) with (length (s ++ [c])) by (rewrite length_app; done).
  by rewrite take_app_length.
Qed.

Lemma rstrip_all p t : Forall (fun d => p d = true) t -> rstrip p t = [].
Proof.
  intros Ht. unfold rstrip. rewrite (proj2 (rfind_if_None _ _)); [done|].
  eapply Forall_impl; [done|]. intros d Hd. by rewrite Hd.
Qed.

Lemma valid_comp_last c : valid_comp c -> exists c' x, c = c' ++ [x] /\ x <> slash.
Proof.
  intros (Hne & _ & _ & Hc). destruct c as [|x c _] using rev_ind; [done|].
  exists c, x. split; [done|]. set_solver.
Qed.

Lemma dirOf_render acc c :
  Forall valid_comp (acc ++ [c]) -> dirOf (render (acc ++ [c])) = render1 acc.
Proof.
  intros [Hacc Hc]%valid_snoc. destruct (valid_comp_last c Hc) as (c' & x & Ex & Hx).
  unfold dirOf. rewrite render_snoc, rfind_char_app by apply Hc. unfold parent_path.
  assert (rstrip (char_eqb slash) (render acc ++ slash :: c) = render acc ++ slash :: c) as E1.
  { rewrite Ex. change (slash :: c' ++ [x]) with ((slash :: c') ++ [x]). rewrite app_assoc.
    apply rstrip_app; [by apply char_eqb_ne|constructor]. }
  rewrite E1, bool_decide_false by (by destruct (render acc)).
  rewrite (rstrip_app _ (render acc) slash c); [|done|].
  2: { apply Forall_forall. intros d Hd. apply negb_true_iff, char_eqb_ne. destruct Hc as (_ & _ & _ & Hc). set_solver. }
  destruct acc as [|a acc _] using rev_ind; [done|].
  apply valid_snoc in Hacc as [Hacc Ha]. destruct (valid_comp_last a Ha) as (a' & y & Ey & Hy).
  rewrite render1_snoc, render_snoc, Ey. change (slash :: a' ++ [y]) with ((slash :: a') ++ [y]).
  rewrite app_assoc, <- app_assoc. cbn [app].
  rewrite rstrip_app; [|by apply char_eqb_ne|by repeat constructor].
  rewrite bool_decide_false; [done|]. by destruct (render acc).
Qed.

Section symlinks.
Context (is_symlink : bytes -> bool) (readLink : bytes -> result bytes) (resolve : bool).
Let loop := canonPathInner_loop (symlink_hook is_symlink readLink resolve).

(** The hook fails, changes nothing, or follows one more link and goes on
    from a rendered prefix. *)
Lemma symlink_hook_cases fc acc rest :
  Forall valid_comp acc -> acc <> [] ->
  (exists f, symlink_hook is_symlink readLink resolve fc (render acc) rest = Err f)
  \/ symlink_hook is_symlink readLink resolve fc (render acc) rest = Ok (fc, render acc, rest)
  \/ exists acc' rest', S fc < maxFollow /\ Forall valid_comp acc' /\
      symlink_hook is_symlink readLink resolve fc (render acc) rest = Ok (S fc, render acc', rest').
Proof.
  intros Hv Hne. unfold symlink_hook. destruct (_ && _); [|auto].
  destruct (Nat.leb_spec maxFollow (S fc)); [left; by eexists|].
  destruct (readLink (render acc)) as [target|f]; cbn [rbind]; [|left; by eexists].
  right; right. destruct (isAbsolute _); [by exists [], (target ++ rest)|].
  destruct acc as [|c acc _] using rev_ind; [done|]. rewrite dirOf_render by done.
  apply valid_snoc in Hv as [Hv _]. exists acc, (target ++ rest). split; [done|]. split; [done|].
  unfold render1. destruct acc as [|a acc]; [done|]. do 3 f_equal.
  rewrite !bool_decide_false; [done..|]. inversion Hv as [|?? (Ha & _)]; subst. by destruct a.
Qed.

Lemma canonPath_loop_total k n fc remaining acc :
  maxFollow - fc <= k -> length remaining <= n -> Forall valid_comp acc ->
  exists fuel r, (forall fuel', fuel <= fuel' -> loop fuel' fc remaining (render acc) = Some r) /\
    (forall p, r = Ok p -> CanonPath_wf p).
Proof.
  revert n fc remaining acc. induction k as [k IHk] using lt_wf_ind.
  induction n as [n IHn] using lt_wf_ind. intros fc remaining acc Hk Hn Hacc.
  destruct (canonPathInner_step (symlink_hook is_symlink readLink resolve) remaining acc Hacc)
    as [[_ Hend]|(next & rest & Hlen & Hnext & Hno & _ & Hstep)].
  { exists 1, (Ok (render1 acc)). split; [|intros p [= <-]; by exists acc].
    intros [|f] Hf; [lia|]. apply Hend. }
  assert (forall fuel r fc' acc' rest', (forall f, fuel <= f -> loop f fc' rest' (render acc') = Some r) ->
    (forall f, loop (S f) fc remaining (render acc) = loop f fc' rest' (render acc')) ->
    forall f, S fuel <= f -> loop f fc remaining (render acc) = Some r) as Hlift.
  { intros fuel r fc' acc' rest' H1 H2 [|f] Hf; [lia|]. rewrite H2. apply H1. lia. }
  destruct (is_dots next) eqn:E.
  - destruct (IHn (length rest) ltac:(lia) fc rest (comp_step acc next)) as (fuel & r & H1 & H2);
      [done|done|by apply comp_step_valid|].
    exists (S fuel), r. split; [|done]. eapply Hlift; [done|]. intros f. apply Hstep.
  - destruct (not_dots_comp next acc E Hnext Hno) as [Hval _].
    assert (Forall valid_comp (acc ++ [next])) as Hacc' by (apply Forall_app; by split; [|apply Forall_singleton]).
    destruct (symlink_hook_cases fc (acc ++ [next]) rest Hacc' ltac:(by destruct acc))
      as [[f Hh]|[Hh|(acc' & rest' & Hfc & Hval' & Hh)]].
    + exists 1, (Err f). split; [|done]. intros [|f'] Hf; [lia|]. unfold loop. by rewrite Hstep, Hh.
    + destruct (IHn (length rest) ltac:(lia) fc rest (acc ++ [next])) as (fuel & r & H1 & H2); [done..|].
      exists (S fuel), r. split; [|done]. eapply Hlift; [done|]. intros f. unfold loop. by rewrite Hstep, Hh.
    + destruct (IHk (maxFollow - S fc) ltac:(lia) (length rest') (S fc) rest' acc') as (fuel & r & H1 & H2);
        [done..|].
      exists (S fuel), r. split; [|done]. eapply Hlift; [done|]. intros f. unfold loop. by rewrite Hstep, Hh.
Qed.
End symlinks.

(** Resolving symlinks terminates on every file system, cyclic links
    included: with enough fuel [canonPath] returns, either an exception
    (more than 1024 links followed, a failing [readLink], a relative or empty
    argument) or a path in canonical form. *)
Theorem canonPath_symlinks_terminates is_symlink readLink path resolve :
  exists fuel r,
    (forall fuel', fuel <= fuel' -> canonPath_fuel is_symlink readLink fuel' path resolve = Some r) /\
    (forall p, r = Ok p -> CanonPath_wf p).
Proof.
  unfold canonPath_fuel. case_bool_decide; [by exists 0, (Err AssertFailed)|].
  destruct (isAbsolute path); cbn [negb]; [|by exists 0, (throw Error)].
  by apply (canonPath_loop_total is_symlink readLink resolve maxFollow (length path) 0 path []); [lia|..].
Qed.
