(* ===== verification/Names.v ===== *)
(** * Derivation names and versions (libstore/names.cc)

    Splitting a package name into name and version, and the version
    comparison used by [nix-env] and [builtins.compareVersions]. The integer
    conversion of the components is Boost's [lexical_cast], a parameter with
    its documented behaviour on the strings the code gives it. *)

From S2P Require Import Prelude.
From S2P Require Import Containers.

(** ** Names *)

Record DrvName := mkDrvName {
  fullName : bytes;
  name : bytes;
  version : bytes;
  hits : Z;
}.

(** [s\[i\] == '-' && i + 1 < s.size() && !isalpha(s\[i + 1\])]. *)
Definition is_version_dash (s : bytes) (i : nat) : bool :=
  char_eqb (nth i s NUL) "-" && (i + 1 <? length s) && negb (is_alpha (nth (i + 1) s NUL)).

Fixpoint DrvName_loop (n : nat) (s : bytes) (i : nat) : DrvName :=
  match n with
  | O => mkDrvName s s [] 0
  | S n =>
      if is_version_dash s i then mkDrvName s (take i s) (drop (i + 1) s) 0
      else DrvName_loop n s (i + 1)
  end.

Definition DrvName_parse (s : bytes) : DrvName := DrvName_loop (length s) s 0.

(** [DrvName::matches]; the regular-expression engine is a parameter. *)
Definition matches (regex_match : bytes -> bytes -> bool) (this n : DrvName) : bool :=
  if negb (bool_decide (name this = L "*")) && negb (regex_match (name this) (name n)) then false
  else if negb (bool_decide (version this = [])) && negb (bool_decide (version this = version n))
  then false else true.

Definition drvNamesFromArgs (opArgs : list bytes) : list DrvName := DrvName_parse <$> opArgs.

(** ** Version components *)

Definition is_sep (c : ascii) : bool := char_eqb c "." || char_eqb c "-".

Fixpoint take_while (p : ascii -> bool) (s : bytes) : bytes :=
  match s with c :: s => if p c then c :: take_while p s else [] | [] => [] end.
Fixpoint drop_while (p : ascii -> bool) (s : bytes) : bytes :=
  match s with c :: s' => if p c then drop_while p s' else s | [] => [] end.

(** [nextComponent(p, end)]: the component and the rest of the string. *)
Definition nextComponent (s : bytes) : bytes * bytes :=
  let s := drop_while is_sep s in
  match s with
  | [] => ([], [])
  | c :: _ =>
      let p := if is_digit c then is_digit else fun c => negb (is_digit c) && negb (is_sep c) in
      (take_while p s, drop_while p s)
  end.

(** [boost::lexical_cast<int>] on the components: a digit string denotes its
    value when it fits an [int] and is refused otherwise; a string without
    digits is refused. *)
Definition digits_value (s : bytes) : Z := foldl (fun acc c => (acc * 10 + (code c - 48))%Z) 0%Z s.

Class LexicalCast := {
  lexical_cast_int : bytes -> option Z;
  lexical_cast_digits : forall s,
    s <> [] -> Forall (fun c => is_digit c = true) s -> (digits_value s < 2 ^ 31)%Z ->
    lexical_cast_int s = Some (digits_value s);
  lexical_cast_overflow : forall s,
    Forall (fun c => is_digit c = true) s -> (2 ^ 31 <= digits_value s)%Z -> lexical_cast_int s = None;
  lexical_cast_no_digit : forall s,
    Forall (fun c => is_digit c = false) s -> lexical_cast_int s = None;
}.

Section versions.
Context `{LexicalCast}.

(** [string2Int<int>]; the guard on a leading minus is for unsigned types. *)
Definition string2Int (s : bytes) : option Z := lexical_cast_int s.

Definition componentsLT (c1 c2 : bytes) : bool :=
  let n1 := string2Int c1 in
  let n2 := string2Int c2 in
  match n1, n2 with
  | Some x1, Some x2 => (x1 <? x2)%Z
  | _, _ =>
      if bool_decide (c1 = []) && bool_decide (is_Some n2) then true
      else if bool_decide (c1 = L "pre") && negb (bool_decide (c2 = L "pre")) then true
      else if bool_decide (c2 = L "pre") then false
      else if bool_decide (is_Some n2) then true
      else if bool_decide (is_Some n1) then false
      else kltb c1 c2
  end.

(** [None] is running out of fuel. *)
Fixpoint compareVersions_loop (fuel : nat) (p1 p2 : bytes) : option comparison :=
  match fuel with
  | O => None
  | S fuel =>
      if bool_decide (p1 = []) && bool_decide (p2 = []) then Some Eq
      else
        let '(c1, p1) := nextComponent p1 in
        let '(c2, p2) := nextComponent p2 in
        if componentsLT c1 c2 then Some Lt
        else if componentsLT c2 c1 then Some Gt
        else compareVersions_loop fuel p1 p2
  end.

(** Each iteration consumes a character: the fuel is the length of both. *)
Definition compareVersions (v1 v2 : bytes) : option comparison :=
  compareVersions_loop (S (length v1 + length v2)) v1 v2.
End versions.

(** ** Parsing names *)

Lemma DrvName_loop_spec n s i :
  i + n = length s -> (forall j, j < i -> is_version_dash s j = false) ->
  (exists j, is_version_dash s j = true /\ (forall k, k < j -> is_version_dash s k = false)
     /\ DrvName_loop n s i = mkDrvName s (take j s) (drop (j + 1) s) 0)
  \/ (forall j, is_version_dash s j = false) /\ DrvName_loop n s i = mkDrvName s s [] 0.
Proof.
  revert i. induction n as [|n IH]; intros i Hi Hno; simpl.
  - right. split; [|done]. intros j. destruct (Nat.lt_ge_cases j i) as [|Hj]; [by apply Hno|].
    unfold is_version_dash. destruct (Nat.ltb_spec (j + 1) (length s)); [lia|].
    by rewrite andb_false_r.
  - destruct (is_version_dash s i) eqn:E; [left; by exists i|].
    apply IH; [lia|]. intros j Hj. destruct (decide (j = i)) as [->|]; [done|]. apply Hno. lia.
Qed.

Lemma is_version_dash_split s i :
  is_version_dash s i = true <->
  exists a c b, s = a ++ "-"%char :: c :: b /\ length a = i /\ is_alpha c = false.
Proof.
  unfold is_version_dash. rewrite !andb_true_iff, char_eqb_eq, Nat.ltb_lt, negb_true_iff. split.
  - intros [[H1 H2] H3]. exists (take i s), (nth (i + 1) s NUL), (drop (i + 2) s).
    split; [|split; [rewrite length_take; lia|done]].
    rewrite <- (take_drop i s) at 1. f_equal.
    assert (forall k, k < length s -> drop k s = nth k s NUL :: drop (S k) s) as Hd.
    { intros k Hk. destruct (lookup_lt_is_Some_2 s k Hk) as [x Hx].
      apply drop_S. by rewrite (nth_lookup s), Hx. }
    rewrite (Hd i), H1 by lia. f_equal. rewrite <- Nat.add_1_r, (Hd (i + 1)) by lia.
    f_equal. f_equal. lia.
  - intros (a & c & b & -> & <- & Hc). rewrite !app_nth2, length_app by lia.
    replace (length a - length a) with 0 by lia. replace (length a + 1 - length a) with 1 by lia.
    simpl. repeat split; [lia|done].
Qed.

(** A package name splits at its first dash that is followed by a
    character other than a letter, and nowhere else: either there is such a
    dash, the name is what precedes it and the version the nonempty rest; or
    there is none, and the whole string is the name. *)
Theorem DrvName_parse_spec s :
  let d := DrvName_parse s in
  fullName d = s /\
  ((exists a c b, s = a ++ "-"%char :: c :: b /\ is_alpha c = false
      /\ (forall j, j < length a -> is_version_dash s j = false)
      /\ name d = a /\ version d = c :: b)
   \/ (forall j, is_version_dash s j = false) /\ name d = s /\ version d = []).
Proof.
  cbv zeta. unfold DrvName_parse.
  destruct (DrvName_loop_spec (length s) s 0) as [(j & Hj & Hmin & ->)|[Hno ->]]; [lia|lia| |].
  - split; [done|]. left. apply is_version_dash_split in Hj as (a & c & b & E & <- & Hc).
    exists a, c, b. split; [done|]. split; [done|]. split; [done|]. rewrite E. simpl.
    by rewrite take_app_length, <- drop_drop, drop_app_length.
  - split; [done|]. by right.
Qed.

(** ** The order of versions *)

(** The sort key of a component: [pre] first, then strings, then numbers. *)
Definition comp_key `{LexicalCast} (c : bytes) : Z * (bytes * Z) :=
  match string2Int c with
  | Some n => (2, ([], n))%Z
  | None => if bool_decide (c = L "pre") then (0, ([], 0))%Z else (1, (c, 0))%Z
  end.

(** Lexicographic comparison of the first [n] keys of two infinite sequences. *)
Fixpoint lexn {K} `{OrdKey K} (n : nat) (f g : nat -> K) : comparison :=
  match n with
  | O => Eq
  | S n =>
      match kcompare (f 0) (g 0) with
      | Eq => lexn n (fun i => f (S i)) (fun i => g (S i))
      | o => o
      end
  end.

Section lexn.
Context {K : Type} `{OrdKey K}.
Implicit Types f g h : nat -> K.

Lemma lexn_antisym n f g : lexn n g f = CompOpp (lexn n f g).
Proof.
  revert f g. induction n as [|n IH]; intros f g; simpl; [done|].
  rewrite (kcompare_antisym (f 0) (g 0)). destruct (kcompare (f 0) (g 0)); simpl; auto.
Qed.

Lemma lexn_trans n f g h : lexn n f g <> Gt -> lexn n g h <> Gt -> lexn n f h <> Gt.
Proof.
  revert f g h. induction n as [|n IH]; intros f g h; simpl; [done|].
  destruct (kcompare (f 0) (g 0)) eqn:E1; [|intros _|done].
  - apply kcompare_eq in E1 as ->. destruct (kcompare (g 0) (h 0)); [|done|done]. by apply IH.
  - destruct (kcompare (g 0) (h 0)) eqn:E2; [|intros _|done].
    + apply kcompare_eq in E2 as <-. by rewrite E1.
    + by rewrite (kcompare_trans _ _ _ E1 E2).
Qed.

(** The rest of two sequences that agree from [n] on does not matter. *)
Lemma lexn_le n m f g : n <= m -> (forall i, n <= i -> f i = g i) -> lexn m f g = lexn n f g.
Proof.
  revert m f g. induction n as [|n IH]; intros m f g Hm Hfg.
  - clear Hm. revert f g Hfg. induction m as [|m IHm]; intros f g Hfg; simpl; [done|].
    rewrite (Hfg 0), kcompare_refl by lia. apply IHm. intros. apply Hfg. lia.
  - destruct m as [|m]; [lia|]. simpl. destruct (kcompare (f 0) (g 0)); [|done..].
    apply IH; [lia|]. intros i Hi. apply Hfg. lia.
Qed.

Lemma lexn_ext n f g f' g' :
  (forall i, f i = f' i) -> (forall i, g i = g' i) -> lexn n f g = lexn n f' g'.
Proof.
  revert f g f' g'. induction n as [|n IH]; intros f g f' g' Hf Hg; simpl; [done|].
  rewrite Hf, Hg. destruct (kcompare _ _); [|done..]. by apply IH.
Qed.
End lexn.

(** The components of a version: what repeated calls of [nextComponent] give. *)
Fixpoint components (fuel : nat) (v : bytes) : list bytes :=
  match fuel with
  | O => []
  | S fuel =>
      match v with
      | [] => []
      | _ => let '(c, v) := nextComponent v in c :: components fuel v
      end
  end.

Lemma drop_while_length p s : length (drop_while p s) <= length s.
Proof. induction s as [|c s IH]; simpl; [done|]. case_match; simpl; lia. Qed.

Lemma nextComponent_length v : v <> [] -> length (nextComponent v).2 < length v.
Proof.
  intros Hv. unfold nextComponent. destruct (drop_while is_sep v) as [|c s] eqn:E.
  { destruct v; [done|simpl; lia]. }
  assert (length (c :: s) <= length v) by (rewrite <- E; apply drop_while_length).
  assert (is_sep c = false) as Hc.
  { clear -E. induction v as [|d v IH]; simpl in E; [done|].
    destruct (is_sep d) eqn:Ed; [auto|congruence]. }
  cbn [snd drop_while]. destruct (is_digit c) eqn:Ed.
  - cbn [drop_while]. rewrite Ed. pose proof (drop_while_length is_digit s). cbn in *. lia.
  - cbn [drop_while]. rewrite Ed, Hc. cbn [negb andb].
    match goal with |- context [drop_while ?p s] => pose proof (drop_while_length p s) end.
    cbn in *. lia.
Qed.

Lemma nextComponent_nil : nextComponent [] = ([], []).
Proof. done. Qed.

Section order.
Context `{LexicalCast}.

Lemma string2Int_nil : string2Int [] = None.
Proof. by apply lexical_cast_no_digit. Qed.
Lemma string2Int_pre : string2Int (L "pre") = None.
Proof. apply lexical_cast_no_digit. by repeat constructor. Qed.

Lemma componentsLT_key c1 c2 : componentsLT c1 c2 = kltb (comp_key c1) (comp_key c2).
Proof.
  unfold componentsLT, comp_key, kltb. pose proof string2Int_nil as Hnil. pose proof string2Int_pre as Hpre.
  destruct (string2Int c1) as [x1|] eqn:E1, (string2Int c2) as [x2|] eqn:E2.
  - cbn. unfold pair_compare. cbn. by destruct (Z.compare_spec x1 x2), (Z.ltb_spec x1 x2); try lia.
  - rewrite (bool_decide_false (c1 = L "pre")) by (intros ->; congruence).
    rewrite (bool_decide_false (is_Some None)) by by intros [? ?]. rewrite andb_false_r. cbn [andb].
    by case_bool_decide.
  - rewrite !(bool_decide_true (is_Some (Some x2))) by eauto.
    rewrite (bool_decide_false (c2 = L "pre")) by (intros ->; congruence).
    cbn [negb]. rewrite !andb_true_r. by repeat case_bool_decide.
  - rewrite (bool_decide_false (is_Some None)) by by intros [? ?]. rewrite andb_false_r.
    unfold kltb. destruct (decide (c1 = L "pre")) as [H1|H1], (decide (c2 = L "pre")) as [H2|H2];
      rewrite ?(bool_decide_true _ H1), ?(bool_decide_false _ H1), ?(bool_decide_true _ H2),
        ?(bool_decide_false _ H2); cbn; try done.
    unfold pair_compare. cbn. by destruct (bytes_compare c1 c2).
Qed.

(** The keys of a version, continued with the key of the empty component. *)
Definition version_key (v : bytes) (i : nat) : Z * (bytes * Z) :=
  comp_key (nth i (components (S (length v)) v) []).

Lemma components_fuel n v : length v < n -> components n v = components (S (length v)) v.
Proof.
  revert v. induction n as [n IH] using lt_wf_ind. intros v Hn. destruct n as [|n]; [lia|].
  destruct v as [|c v]; [done|]. pose proof (nextComponent_length (c :: v) ltac:(done)) as Hl.
  cbn [components]. destruct (nextComponent (c :: v)) as [d w]. cbn [snd] in Hl. f_equal.
  cbn [length] in *. rewrite IH by lia. symmetry. apply IH; lia.
Qed.

Lemma version_key_0 v : version_key v 0 = comp_key (nextComponent v).1.
Proof.
  unfold version_key. destruct v as [|c v]; [done|]. cbn [components].
  by destruct (nextComponent (c :: v)).
Qed.

Lemma version_key_S v i : version_key v (S i) = version_key (nextComponent v).2 i.
Proof.
  unfold version_key. destruct v as [|c v]; [by destruct i|].
  pose proof (nextComponent_length (c :: v) ltac:(done)) as Hl.
  cbn [components]. destruct (nextComponent (c :: v)) as [d w]. cbn [snd nth] in *.
  by rewrite (components_fuel _ w) by done.
Qed.

Lemma compareVersions_loop_ref fuel v1 v2 :
  length v1 + length v2 < fuel ->
  compareVersions_loop fuel v1 v2 = Some (lexn fuel (version_key v1) (version_key v2)).
Proof.
  revert v1 v2. induction fuel as [|fuel IH]; intros v1 v2 Hf; [lia|].
  cbn [compareVersions_loop lexn]. destruct (_ && _) eqn:E.
  { apply andb_true_iff in E as [->%bool_decide_eq_true ->%bool_decide_eq_true].
    rewrite kcompare_refl, (lexn_le 0); [done|lia|done]. }
  rewrite !version_key_0, (lexn_ext _ _ _ _ _ (version_key_S v1) (version_key_S v2)).
  assert (length (nextComponent v1).2 + length (nextComponent v2).2 < length v1 + length v2) as Hl.
  { assert (forall v, length (nextComponent v).2 <= length v) as Hle.
    { intros [|c v]; [done|]. apply Nat.lt_le_incl. by apply nextComponent_length. }
    pose proof (Hle v1). pose proof (Hle v2).
    destruct v1 as [|c1 v1]; [destruct v2 as [|c2 v2]; [done|]|].
    - pose proof (nextComponent_length (c2 :: v2) ltac:(done)). lia.
    - pose proof (nextComponent_length (c1 :: v1) ltac:(done)). lia. }
  destruct (nextComponent v1) as [c1 w1], (nextComponent v2) as [c2 w2]. cbn [fst snd] in *.
  rewrite !componentsLT_key. unfold kltb. rewrite (kcompare_antisym (comp_key c1) (comp_key c2)).
  destruct (kcompare (comp_key c1) (comp_key c2)); cbn [CompOpp]; [|done..].
  apply IH. lia.
Qed.

(** [n] iterations are enough when [n] exceeds the total length. *)
Lemma compareVersions_lexn n v1 v2 :
  length v1 + length v2 < n ->
  compareVersions v1 v2 = Some (lexn n (version_key v1) (version_key v2)).
Proof.
  intros Hn. unfold compareVersions. rewrite compareVersions_loop_ref by lia. f_equal.
  symmetry. apply lexn_le; [lia|]. intros i Hi. unfold version_key.
  assert (forall f v, length (components f v) <= length v) as Hl.
  { induction f as [|f IH]; intros v; [simpl; lia|]. destruct v as [|c v]; [done|].
    pose proof (nextComponent_length (c :: v) ltac:(done)). cbn [components].
    destruct (nextComponent (c :: v)) as [d w]. cbn [length snd] in *. specialize (IH w). lia. }
  by rewrite !nth_overflow by (etransitivity; [apply Hl|lia]).
Qed.
End order.

(** [compareVersions] always returns, and is a total preorder: every
    version equals itself, swapping the arguments swaps the result, and
    "not greater" is transitive. It is what sorting packages by version
    relies on. *)
Theorem compareVersions_total_preorder `{LexicalCast} v1 v2 v3 :
  compareVersions v1 v1 = Some Eq /\
  (exists o12 o23 o13,
     compareVersions v1 v2 = Some o12 /\ compareVersions v2 v1 = Some (CompOpp o12) /\
     compareVersions v2 v3 = Some o23 /\ compareVersions v1 v3 = Some o13 /\
     (o12 <> Gt -> o23 <> Gt -> o13 <> Gt)).
Proof.
  pose (n := S (length v1 + length v1 + length v2 + length v2 + length v3)).
  split.
  - rewrite (compareVersions_lexn (S (length v1 + length v1))) by lia.
    by rewrite (lexn_le 0) by (lia || done).
  - eexists _, _, _. rewrite !(compareVersions_lexn n) by (unfold n; lia).
    split; [done|]. split; [by rewrite lexn_antisym|]. do 2 (split; [done|]). apply lexn_trans.
Qed.

(** A numeric version component that does not fit a C++ [int] is compared
    as a string, hence sorts before every smaller number: version
    [20240102030405] is older than version [1]. *)
Theorem compareVersions_int_overflow `{LexicalCast} :
  compareVersions (L "20240102030405") (L "1") = Some Lt.
Proof.
  unfold compareVersions. cbn [compareVersions_loop].
  change (nextComponent (L "20240102030405")) with (L "20240102030405", @nil ascii).
  change (nextComponent (L "1")) with (L "1", @nil ascii). cbn [bool_decide].
  replace (componentsLT (L "20240102030405") (L "1")) with true; [done|].
  unfold componentsLT, string2Int. rewrite (lexical_cast_overflow (L "20240102030405")).
  - rewrite (lexical_cast_digits (L "1")); [done|done|by repeat constructor|done].
  - by repeat constructor.
  - by apply Z.leb_le.
Qed.

(** The parameter can be instantiated: a conversion with the stated behaviour. *)
#[local] Instance lexical_cast_decimal : LexicalCast.
Proof.
  refine {| lexical_cast_int := fun s =>
    if bool_decide (s <> []) && bool_decide (Forall (fun c => is_digit c = true) s)
       && bool_decide (digits_value s < 2 ^ 31)%Z then Some (digits_value s) else None |}.
  - intros s H1 H2 H3. by rewrite !bool_decide_true.
  - intros s H1 H2. rewrite (bool_decide_false (_ < _)%Z) by lia. by rewrite andb_false_r.
  - intros s Hs. destruct s as [|c s]; [done|]. rewrite (bool_decide_false (Forall _ _)); [by rewrite andb_false_r|].
    inversion Hs; inversion 1; congruence.
Defined.

Lemma compareVersions_total_preorder_witness :
  compareVersions (L "2.3pre1") (L "2.3pre1") = Some Eq /\
  compareVersions (L "2.3pre1") (L "2.3") = Some Lt /\ compareVersions (L "2.3a") (L "2.3.1") = Some Lt.
Proof.
  split; [|split; vm_compute; reflexivity].
  apply (compareVersions_total_preorder (L "2.3pre1") (L "2.3") (L "2.3.1")).
Defined.

Lemma compareVersions_int_overflow_witness :
  compareVersions (L "20240102030405") (L "1") = Some Lt.
Proof. apply compareVersions_int_overflow. Defined.
