(* ===== verification/StorePath.v ===== *)
(** * Store paths (libstore/path.cc, path.hh, path-regex.hh, store-api.cc)

    A store path is its base name [<hash>-<name>]; the constructors validate
    it, and a store directory turns it into a file name and back. *)

From S2P Require Import Prelude.
From S2P Require Import Containers.
From S2P Require Import Strings.
From S2P Require Import Hash.
From S2P Require Import CanonPath.

(** ** Validation *)

Definition HashLen : nat := 32.
Definition MaxPathLen : nat := 211.

Definition name_char (c : ascii) : bool :=
  is_digit c || is_lower c || is_upper c || one_of (L "+-._?=") c.

Definition checkName (name : bytes) : result unit :=
  if bool_decide (name = []) then throw BadStorePathName
  else if MaxPathLen <? length name then throw BadStorePathName
  else
    (if char_eqb (nth 0 name NUL) "." then
       if length name =? 1 then throw BadStorePathName
       else if char_eqb (nth 1 name NUL) "-" then throw BadStorePathName
       else if char_eqb (nth 1 name NUL) "." then
         if length name =? 2 then throw BadStorePathName
         else if char_eqb (nth 2 name NUL) "-" then throw BadStorePathName
         else Ok tt
       else Ok tt
     else Ok tt) ;;;
    if forallb name_char name then Ok tt else throw BadStorePathName.

(** [catch (BadStorePathName &) { throw BadStorePath }]. *)
Definition checkPathName (path name : bytes) : result unit :=
  match checkName name with
  | Err (Throw BadStorePathName) => throw BadStorePath
  | r => r
  end.

Record StorePath := mkStorePath { sp_to_string : bytes }.

#[export] Instance StorePath_eq_dec : EqDecision StorePath.
Proof. solve_decision. Defined.

#[export] Instance StorePath_OrdKey : OrdKey StorePath :=
  OrdKey_by sp_to_string (fun x y => ltac:(destruct x, y; simpl; congruence)).

(** [name()] and [hashPart()]; [substr] past the end throws, which [name]
    never does on a constructed path. *)
Definition sp_name (p : StorePath) : bytes := drop (HashLen + 1) (sp_to_string p).
Definition sp_hashPart (p : StorePath) : bytes := take HashLen (sp_to_string p).

Definition hash_char (c : ascii) : bool :=
  negb (one_of (L "eout") c) && (is_digit c || is_lower c).

Definition StorePath_parse (baseName : bytes) : result StorePath :=
  let p := mkStorePath baseName in
  if length baseName <? HashLen + 1 then throw BadStorePath
  else if forallb hash_char (sp_hashPart p) then
    checkPathName baseName (sp_name p) ;;; Ok p
  else throw BadStorePath.

(** [StorePath(hash, name)]; the hash part is not validated here, but its
    length must leave [name()] in range. *)
Definition StorePath_make (h : Hash) (name : bytes) : result StorePath :=
  let* s := to_string h Nix32 false in
  let p := mkStorePath (s ++ L "-" ++ name) in
  if length (sp_to_string p) <? HashLen + 1 then throw OutOfRange
  else checkPathName (sp_to_string p) (sp_name p) ;;; Ok p.

Definition drvExtension : bytes := L ".drv".
Definition isDerivation (p : StorePath) : bool := hasSuffix (sp_name p) drvExtension.
Definition requireDerivation (p : StorePath) : result unit :=
  if isDerivation p then Ok tt else throw FormatError.

(** ** Store directories *)

(** Every exception class but [std::out_of_range] derives from [nix::Error]. *)
Definition catch_Error {A} (r : result A) (handler : result A) : result A :=
  match r with
  | Err (Throw OutOfRange) => r
  | Err (Throw _) => handler
  | _ => r
  end.

Section StoreDirConfig.
Context (storeDir : bytes).

Definition parseStorePath (path : bytes) : result StorePath :=
  let* p := canonPath path in
  if negb (bool_decide (dirOf p = storeDir)) then throw BadStorePath
  else StorePath_parse (baseNameOf p).

Definition maybeParseStorePath (path : bytes) : result (option StorePath) :=
  catch_Error (let* p := parseStorePath path in Ok (Some p)) (Ok None).

Definition isStorePath (path : bytes) : result bool :=
  let* p := maybeParseStorePath path in Ok (bool_decide (is_Some p)).

Definition printStorePath (path : StorePath) : bytes := storeDir ++ L "/" ++ sp_to_string path.

Fixpoint parseStorePathSet_loop (paths : list bytes) (res : list StorePath) :
    result (list StorePath) :=
  match paths with
  | [] => Ok res
  | i :: paths => let* p := parseStorePath i in parseStorePathSet_loop paths (sset_insert p res)
  end.
Definition parseStorePathSet (paths : list bytes) : result (list StorePath) :=
  parseStorePathSet_loop paths [].

Definition printStorePathSet (paths : list StorePath) : list bytes :=
  sset_of_list (printStorePath <$> paths).

Definition isInStore (path : bytes) : bool := isInDir path storeDir.

Definition toStorePath (path : bytes) : result (StorePath * bytes) :=
  if negb (isInStore path) then throw Error
  else
    match find_from (find_char slash) path (length storeDir + 1) with
    | None => let* p := parseStorePath path in Ok (p, [])
    | Some i => let* p := parseStorePath (take i path) in Ok (p, drop i path)
    end.
End StoreDirConfig.

(** ** Names *)

(** The language of [nameRegexStr], [(?!\.\.?(-|$))\[0-9a-zA-Z\+\-\._\?=\]+]:
    a nonempty string over the alphabet whose first dash-separated field is
    neither [.] nor [..]. *)
Definition name_regex (s : bytes) : bool :=
  negb (bool_decide (s = [])) && forallb name_char s
  && negb (bool_decide (head (split_ref (char_eqb "-"%char) s) ∈ [Some (L "."); Some (L "..")])).

Lemma dots_field s :
  (head (split_ref (char_eqb "-"%char) s) = Some (L ".") <->
     s = L "." \/ exists t, s = L ".-" ++ t) /\
  (head (split_ref (char_eqb "-"%char) s) = Some (L "..") <->
     s = L ".." \/ exists t, s = L "..-" ++ t).
Proof.
  rewrite split_ref_find. fold (find_char "-" s).
  destruct (find_char "-" s) as [i|] eqn:E; simpl.
  - apply find_char_split in E as (Hs & Hno & Hi). split; split.
    + intros [= Ht]. right. exists (drop (S i) s). by rewrite Hs, Ht at 1.
    + intros [->|[t ->]]; [by destruct i as [|[|]]|]. destruct i as [|[|i]]; [done..|]. set_solver.
    + intros [= Ht]. right. exists (drop (S i) s). by rewrite Hs, Ht at 1.
    + intros [->|[t ->]]; [by destruct i as [|[|[|]]]|]. destruct i as [|[|[|i]]]; [done..|]. set_solver.
  - apply find_char_None in E. split; split.
    + intros [= ->]. by left.
    + intros [->|[t ->]]; [done|set_solver].
    + intros [= ->]. by left.
    + intros [->|[t ->]]; [done|set_solver].
Qed.

(** The dot tests of [checkName] exclude exactly those fields. *)
Lemma checkName_dots (s : bytes) :
  s <> [] ->
  (if char_eqb (nth 0 s NUL) "." then
     if length s =? 1 then throw BadStorePathName
     else if char_eqb (nth 1 s NUL) "-" then throw BadStorePathName
     else if char_eqb (nth 1 s NUL) "." then
       if length s =? 2 then throw BadStorePathName
       else if char_eqb (nth 2 s NUL) "-" then throw BadStorePathName
       else Ok tt
     else Ok tt
   else Ok tt) =
  if bool_decide (head (split_ref (char_eqb "-"%char) s) ∈ [Some (L "."); Some (L "..")])
  then throw BadStorePathName else Ok tt.
Proof.
  intros Hs. destruct (dots_field s) as [H1 H2].
  assert (bool_decide (head (split_ref (char_eqb "-"%char) s) ∈ [Some (L "."); Some (L "..")])
    = match s with
      | "."%char :: [] => true | "."%char :: "-"%char :: _ => true
      | "."%char :: "."%char :: [] => true | "."%char :: "."%char :: "-"%char :: _ => true
      | _ => false end) as ->.
  { apply eq_true_iff_eq. rewrite bool_decide_eq_true, !elem_of_cons, H1, H2. split.
    - intros [[->|[t ->]]|[[->|[t ->]]|[]%not_elem_of_nil]]; done.
    - intros H. repeat case_match; try done; subst; naive_solver. }
  destruct s as [|c0 [|c1 [|c2 s]]]; [done|..]; unfold char_eqb; cbn [nth length Nat.eqb];
    repeat case_bool_decide; subst; try done; repeat case_match; congruence.
Qed.

Lemma checkName_regex s :
  checkName s = if name_regex s && (length s <=? MaxPathLen) then Ok tt else throw BadStorePathName.
Proof.
  unfold checkName, name_regex. destruct (decide (s = [])) as [->|Hs]; [done|].
  rewrite bool_decide_false by done. rewrite checkName_dots by done. cbn [negb andb].
  rewrite Nat.leb_antisym. destruct (MaxPathLen <? length s); cbn [negb]; [by rewrite andb_false_r|].
  rewrite andb_true_r. case_bool_decide; cbn [rbind throw negb].
  - by rewrite andb_false_r.
  - by rewrite andb_true_r.
Qed.

(** ** Parsing base names *)

Lemma hash_char_nix32 c : hash_char c = true <-> c ∈ nix32Chars.
Proof.
  assert (forallb (fun n => bool_decide (hash_char (chr (Z.of_nat n)) = one_of nix32Chars (chr (Z.of_nat n))))
    (seq 0 256) = true) as Hall by (vm_compute; reflexivity).
  rewrite forallb_forall in Hall. specialize (Hall (Z.to_nat (code c))).
  pose proof (code_bound c). rewrite Z2Nat.id, chr_code, in_seq, bool_decide_eq_true in Hall by lia.
  rewrite Hall by lia. apply bool_decide_eq_true.
Qed.

Lemma StorePath_parse_inv s p :
  StorePath_parse s = Ok p <->
  p = mkStorePath s /\ HashLen < length s /\ Forall (fun c => c ∈ nix32Chars) (take HashLen s) /\
  name_regex (drop (HashLen + 1) s) = true /\ length (drop (HashLen + 1) s) <= MaxPathLen.
Proof.
  unfold StorePath_parse, checkPathName, sp_hashPart, sp_name. cbn [sp_to_string].
  rewrite checkName_regex. destruct (Nat.ltb_spec (length s) (HashLen + 1)) as [Hl|Hl].
  { split; [done|]. unfold HashLen in *. lia. }
  destruct (forallb hash_char (take HashLen s)) eqn:Eh.
  - rewrite forallb_forall in Eh. destruct (_ && _) eqn:En.
    + apply andb_true_iff in En as [En1 En2%Nat.leb_le]. cbn [rbind]. split.
      * intros [= <-]. split; [done|]. split; [lia|]. split; [|done].
        apply Forall_forall. intros c Hc. by apply hash_char_nix32, Eh, list_elem_of_In.
      * by intros (-> & _).
    + split; [done|]. intros (_ & _ & _ & H1 & H2%Nat.leb_le). by rewrite H1, H2 in En.
  - split; [done|]. intros (_ & _ & H & _). exfalso. apply not_true_iff_false in Eh. apply Eh.
    apply forallb_forall. intros c Hc%list_elem_of_In. rewrite Forall_forall in H.
    by apply hash_char_nix32, H.
Qed.

Lemma StorePath_parse_valid s p :
  StorePath_parse s = Ok p -> slash ∉ s -> valid_comp s.
Proof.
  intros (_ & Hl & _)%StorePath_parse_inv Hs. unfold HashLen in Hl.
  assert (forall t : bytes, length t <= 2 -> s <> t) as Hne by (intros t Ht ->; lia).
  repeat split; [..|done]; apply Hne; simpl; lia.
Qed.

(** ** File names of store paths *)

Lemma baseNameOf_render acc c :
  Forall valid_comp (acc ++ [c]) -> baseNameOf (render (acc ++ [c])) = c.
Proof.
  intros [_ Hc]%valid_snoc. rewrite render_snoc. destruct (valid_comp_last c Hc) as (c' & x & E & Hx).
  unfold baseNameOf.
  assert (exists a t, render acc ++ slash :: c = a :: t) as (a & t & Eat) by (destruct (render acc); eauto).
  rewrite Eat, <- Eat.
  assert (base_last (render acc ++ slash :: c) (length (render acc ++ slash :: c) - 1)
          = length (render acc ++ slash :: c) - 1) as ->.
  { rewrite E, length_app. cbn [length]. rewrite length_app. cbn [length].
    replace (length (render acc) + S (length c' + 1) - 1) with (S (length (render acc) + length c')) by lia.
    unfold base_last. rewrite app_nth2 by lia.
    replace (S (length (render acc) + length c') - length (render acc)) with (S (length c')) by lia.
    cbn [nth]. rewrite app_nth2, Nat.sub_diag by lia. cbn [nth].
    by rewrite (proj2 (char_eqb_ne _ _) Hx). }
  rewrite (Nat.sub_add 1) by (rewrite length_app; cbn [length]; lia).
  rewrite firstn_all, rfind_char_app by apply Hc. unfold substr.
  rewrite <- drop_drop, drop_app_length. change (drop 1 (slash :: c)) with c. rewrite take_ge; [done|].
  rewrite length_app. cbn [length]. lia.
Qed.

Lemma canonPath_wf s q : canonPath s = Ok q -> CanonPath_wf q.
Proof.
  intros H. destruct (isAbsolute s) eqn:E.
  - rewrite canonPath_ref in H by done. inv_result. eexists. split; [|done]. by apply canon_comps_valid.
  - unfold canonPath, canonPath_fuel in H. rewrite E in H. by destruct (bool_decide _).
Qed.

Lemma canonPath_print ds b :
  Forall valid_comp ds -> valid_comp b ->
  canonPath (render1 ds ++ L "/" ++ b) = Ok (render1 (ds ++ [b])).
Proof.
  intros Hds Hb. rewrite canonPath_ref by (by destruct ds). do 2 f_equal.
  change (L "/" ++ b) with (slash :: b). destruct ds as [|d ds].
  - change (render1 [] ++ slash :: b) with (slash :: slash :: b).
    rewrite !canon_comps_slash, canon_comps_one by apply Hb. by rewrite comp_step_valid_comp.
  - rewrite render1_cons, canon_comps_render, canon_comps_one by (done || apply Hb).
    by rewrite comp_step_valid_comp.
Qed.

Lemma parseStorePath_render d ds b :
  Forall valid_comp (ds ++ [b]) ->
  (if negb (bool_decide (dirOf (render1 (ds ++ [b])) = d)) then throw BadStorePath
   else StorePath_parse (baseNameOf (render1 (ds ++ [b])))) =
  if bool_decide (render1 ds = d) then StorePath_parse b else throw BadStorePath.
Proof.
  intros Hv. rewrite render1_snoc, <- render_snoc, dirOf_render, baseNameOf_render by done.
  by case_bool_decide.
Qed.

(** A parsed path is the base name below the store directory. *)
Lemma parseStorePath_inv d s p :
  parseStorePath d s = Ok p ->
  exists ds, Forall valid_comp (ds ++ [sp_to_string p]) /\ d = render1 ds /\
    StorePath_parse (sp_to_string p) = Ok p /\ canonPath s = Ok (render1 (ds ++ [sp_to_string p])).
Proof.
  unfold parseStorePath. intros H. apply rbind_Ok in H as (q & Hq & H).
  destruct (canonPath_wf _ _ Hq) as (cs & Hcs & ->).
  destruct cs as [|b ds _] using rev_ind.
  { exfalso. change (render1 []) with [slash] in H. by destruct (bool_decide _). }
  rewrite parseStorePath_render in H by done. case_bool_decide as Hd; [|done].
  pose proof H as (-> & _)%StorePath_parse_inv. by exists ds.
Qed.

Lemma parseStorePath_print_render ds p :
  Forall valid_comp ds -> StorePath_parse (sp_to_string p) = Ok p -> slash ∉ sp_to_string p ->
  parseStorePath (render1 ds) (printStorePath (render1 ds) p) = Ok p.
Proof.
  intros Hds Hp Hs. pose proof (StorePath_parse_valid _ _ Hp Hs) as Hv.
  unfold parseStorePath, printStorePath. rewrite canonPath_print by done. cbn [rbind].
  rewrite parseStorePath_render by (apply Forall_app; by split; [|apply Forall_singleton]).
  by rewrite bool_decide_true.
Qed.

(** ** Claims *)

(** The base names [StorePath] accepts are 32 nix32 characters, one
    character, and a name of at most 211 characters in the language of
    [nameRegexStr]; everything else is refused with [BadStorePath], and what
    is accepted is kept unchanged. *)
Theorem StorePath_parse_language s :
  (forall p, StorePath_parse s = Ok p <->
     p = mkStorePath s /\ exists h c n, s = h ++ c :: n /\ length h = HashLen /\
       Forall (fun x => x ∈ nix32Chars) h /\ name_regex n = true /\ length n <= MaxPathLen /\
       sp_hashPart p = h /\ sp_name p = n)
  /\ ((exists p, StorePath_parse s = Ok p) \/ StorePath_parse s = throw BadStorePath).
Proof.
  split.
  - intros p. rewrite StorePath_parse_inv. unfold sp_hashPart, sp_name. split.
    + intros (-> & Hl & Hh & Hn & Hm). split; [done|].
      destruct (lookup_lt_is_Some_2 s HashLen Hl) as [c Hc].
      exists (take HashLen s), c, (drop (HashLen + 1) s). cbn [sp_to_string].
      split; [by rewrite Nat.add_1_r, take_drop_middle|].
      split; [rewrite length_take; lia|]. done.
    + intros (-> & h & c & n & -> & Hlen & Hh & Hn & Hm & _). split; [done|].
      rewrite <- Hlen, take_app_length, <- drop_drop, drop_app_length, length_app. cbn [drop length].
      split; [lia|done].
  - unfold StorePath_parse, checkPathName. rewrite checkName_regex. repeat case_match; eauto.
    all: simplify_eq/=; eauto.
Qed.

(** Parsing and printing are inverse: a path that parses is, up to
    canonicalisation, the printed form of the result, and the printed form
    parses to the same store path. *)
Theorem parseStorePath_printStorePath storeDir s p :
  parseStorePath storeDir s = Ok p ->
  canonPath s = canonPath (printStorePath storeDir p) /\
  parseStorePath storeDir (printStorePath storeDir p) = Ok p.
Proof.
  intros (ds & Hv & -> & Hp & Hs)%parseStorePath_inv. pose proof (valid_snoc _ _ Hv) as [Hds Hb].
  split; [|by apply parseStorePath_print_render; [..|apply Hb]].
  unfold printStorePath. by rewrite canonPath_print.
Qed.

Definition example_base : bytes := L "00bgd045z0d4icpbc2yyz4gx48ak44la-net-tools-1.60".

Lemma parseStorePath_printStorePath_witness :
  parseStorePath (L "/nix/store") (printStorePath (L "/nix/store") (mkStorePath example_base))
  = Ok (mkStorePath example_base).
Proof.
  apply (parseStorePath_printStorePath (L "/nix/store")
    (L "/nix//store/./" ++ example_base) (mkStorePath example_base)).
  vm_compute. reflexivity.
Defined.

(** [toStorePath] splits a file name below a store object into the store
    path and the remaining path. *)
Theorem toStorePath_split storeDir p rest :
  CanonPath_wf storeDir -> StorePath_parse (sp_to_string p) = Ok p -> slash ∉ sp_to_string p ->
  (rest = [] \/ exists t, rest = slash :: t) ->
  toStorePath storeDir (printStorePath storeDir p ++ rest) = Ok (p, rest).
Proof.
  intros (ds & Hds & ->) Hp Hs Hrest. unfold toStorePath, isInStore, isInDir.
  pose proof (StorePath_parse_valid _ _ Hp Hs) as (Hne & _).
  unfold printStorePath. set (d := render1 ds) in *.
  assert (exists t, d = slash :: t) as [t Et] by (destruct ds; [by exists []|by eexists]).
  rewrite (bool_decide_true (take 1 _ = _)) by by rewrite Et.
  rewrite <- app_assoc, take_app_length, bool_decide_true by done.
  rewrite !length_app, app_nth2, Nat.sub_diag by lia. cbn [length L nth app andb].
  rewrite (proj2 (Nat.leb_le _ _)) by (destruct (sp_to_string p); [done|cbn [length]; lia]).
  change (char_eqb "/" slash) with true. cbn [andb negb].
  unfold find_from. rewrite <- drop_drop, drop_app_length. cbn [drop]. rewrite drop_0.
  pose proof (parseStorePath_print_render ds p Hds Hp Hs) as Hparse. fold d in Hparse.
  unfold printStorePath in Hparse. destruct Hrest as [->|[u ->]].
  - rewrite app_nil_r, (proj2 (find_char_None _ _) Hs). cbn [fmap option_fmap option_map].
    change ("/"%char :: sp_to_string p) with (L "/" ++ sp_to_string p). by rewrite Hparse.
  - rewrite find_char_app by done. cbn [fmap option_fmap option_map].
    replace (d ++ "/"%char :: sp_to_string p ++ slash :: u)
      with ((d ++ L "/" ++ sp_to_string p) ++ slash :: u) by (by rewrite <- !app_assoc).
    replace (length d + 1 + length (sp_to_string p)) with (length (d ++ L "/" ++ sp_to_string p))
      by (rewrite !length_app; cbn [length L]; lia).
    by rewrite take_app_length, drop_app_length, Hparse.
Qed.

Lemma toStorePath_split_witness :
  toStorePath (L "/nix/store")
    (printStorePath (L "/nix/store") (mkStorePath example_base) ++ L "/bin/netstat")
  = Ok (mkStorePath example_base, L "/bin/netstat").
Proof.
  apply (toStorePath_split (L "/nix/store") (mkStorePath example_base) (L "/bin/netstat")).
  - by apply CanonPath_raw_self.
  - vm_compute. reflexivity.
  - apply (bool_decide_unpack _). vm_compute. done.
  - right. by eexists.
Defined.

(** The character between hash and name is never checked: a base name
    with a colon instead of the dash is a valid store path with the same hash
    part and name as the one with the dash. *)
Theorem StorePath_separator_unchecked :
  let hash := L "00bgd045z0d4icpbc2yyz4gx48ak44la" in
  StorePath_parse (hash ++ L ":foo") = Ok (mkStorePath (hash ++ L ":foo")) /\
  sp_hashPart (mkStorePath (hash ++ L ":foo")) = sp_hashPart (mkStorePath (hash ++ L "-foo")) /\
  sp_name (mkStorePath (hash ++ L ":foo")) = sp_name (mkStorePath (hash ++ L "-foo")).
Proof. vm_compute. done. Qed.

(** [maybeParseStorePath] and [isStorePath] are meant to return "no store
    path" on any other string, but abort on the empty one: [canonPath] asserts
    that its argument is not empty, and no [catch] intercepts that. *)
Theorem maybeParseStorePath_empty_aborts storeDir :
  maybeParseStorePath storeDir [] = Err AssertFailed /\ isStorePath storeDir [] = Err AssertFailed.
Proof. done. Qed.
