(* ===== verification/ContentAddress.v ===== *)
(** * Content addresses and store path computation
    (libstore/content-address.cc, libutil/file-content-address.cc, store-api.cc)

    Ingestion methods and their renderings, content addresses with and
    without references, and the functions that compute a store path from
    them. *)

From S2P Require Import Prelude.
From S2P Require Import Containers.
From S2P Require Import Strings.
From S2P Require Import Hash.
From S2P Require Import CanonPath.
From S2P Require Import StorePath.

(** ** File ingestion methods (file-content-address.cc) *)

Module FileSerialisationMethod.
Inductive t := Flat | NixArchive.
End FileSerialisationMethod.
Abbreviation FileSerialisationMethod := FileSerialisationMethod.t.

Module FileIngestionMethod.
Inductive t := Flat | NixArchive | Git.
#[export] Instance eq_dec : EqDecision t.
Proof. solve_decision. Defined.
End FileIngestionMethod.
Abbreviation FileIngestionMethod := FileIngestionMethod.t.
Export (hints) FileIngestionMethod.

Definition parseFileSerialisationMethodOpt (input : bytes) : option FileSerialisationMethod :=
  if bool_decide (input = L "flat") then Some FileSerialisationMethod.Flat
  else if bool_decide (input = L "nar") then Some FileSerialisationMethod.NixArchive
  else None.

Definition parseFileSerialisationMethod (input : bytes) : result FileSerialisationMethod :=
  match parseFileSerialisationMethodOpt input with Some m => Ok m | None => throw UsageError end.

(** [static_cast] between the two enumerations. *)
Definition serialisation_as_ingestion (m : FileSerialisationMethod) : FileIngestionMethod :=
  match m with
  | FileSerialisationMethod.Flat => FileIngestionMethod.Flat
  | FileSerialisationMethod.NixArchive => FileIngestionMethod.NixArchive
  end.

Definition parseFileIngestionMethod (input : bytes) : result FileIngestionMethod :=
  if bool_decide (input = L "git") then Ok FileIngestionMethod.Git
  else match parseFileSerialisationMethodOpt input with
       | Some m => Ok (serialisation_as_ingestion m)
       | None => throw UsageError
       end.

Definition renderFileSerialisationMethod (m : FileSerialisationMethod) : bytes :=
  match m with
  | FileSerialisationMethod.Flat => L "flat"
  | FileSerialisationMethod.NixArchive => L "nar"
  end.

Definition renderFileIngestionMethod (m : FileIngestionMethod) : bytes :=
  match m with
  | FileIngestionMethod.Flat => renderFileSerialisationMethod FileSerialisationMethod.Flat
  | FileIngestionMethod.NixArchive => renderFileSerialisationMethod FileSerialisationMethod.NixArchive
  | FileIngestionMethod.Git => L "git"
  end.

(** ** Content address methods (content-address.cc) *)

Module ContentAddressMethod.
Inductive t := Flat | NixArchive | Git | Text.
#[export] Instance eq_dec : EqDecision t.
Proof. solve_decision. Defined.
End ContentAddressMethod.
Abbreviation ContentAddressMethod := ContentAddressMethod.t.
Export (hints) ContentAddressMethod.

Definition getFileIngestionMethod (m : ContentAddressMethod) : FileIngestionMethod :=
  match m with
  | ContentAddressMethod.Flat => FileIngestionMethod.Flat
  | ContentAddressMethod.NixArchive => FileIngestionMethod.NixArchive
  | ContentAddressMethod.Git => FileIngestionMethod.Git
  | ContentAddressMethod.Text => FileIngestionMethod.Flat
  end.

Definition fileIngestionMethodToContentAddressMethod (m : FileIngestionMethod) : ContentAddressMethod :=
  match m with
  | FileIngestionMethod.Flat => ContentAddressMethod.Flat
  | FileIngestionMethod.NixArchive => ContentAddressMethod.NixArchive
  | FileIngestionMethod.Git => ContentAddressMethod.Git
  end.

Definition caMethod_render (m : ContentAddressMethod) : bytes :=
  match m with
  | ContentAddressMethod.Text => L "text"
  | _ => renderFileIngestionMethod (getFileIngestionMethod m)
  end.

Definition caMethod_parse (m : bytes) : result ContentAddressMethod :=
  if bool_decide (m = L "text") then Ok ContentAddressMethod.Text
  else let* m := parseFileIngestionMethod m in Ok (fileIngestionMethodToContentAddressMethod m).

(** ** Content addresses *)

Record ContentAddress := mkContentAddress {
  ca_method : ContentAddressMethod;
  ca_hash : Hash;
}.

#[export] Instance ContentAddress_eq_dec : EqDecision ContentAddress.
Proof. solve_decision. Defined.

Section xp.
Context (xp : xpSettings).

Definition makeFileIngestionPrefix (m : FileIngestionMethod) : result bytes :=
  match m with
  | FileIngestionMethod.Flat => Ok []
  | FileIngestionMethod.NixArchive => Ok (L "r:")
  | FileIngestionMethod.Git => require xp GitHashing ;;; Ok (L "git:")
  end.

Definition caMethod_renderPrefix (m : ContentAddressMethod) : result bytes :=
  match m with
  | ContentAddressMethod.Text => Ok (L "text:")
  | _ => makeFileIngestionPrefix (getFileIngestionMethod m)
  end.

(** [parsePrefix(m)]: the method and what is left of the view. *)
Definition caMethod_parsePrefix (m : bytes) : result (ContentAddressMethod * bytes) :=
  let '(b, m) := splitPrefix m (L "r:") in
  if b : bool then Ok (ContentAddressMethod.NixArchive, m)
  else
    let '(b, m) := splitPrefix m (L "git:") in
    if b : bool then require xp GitHashing ;;; Ok (ContentAddressMethod.Git, m)
    else
      let '(b, m) := splitPrefix m (L "text:") in
      if b : bool then Ok (ContentAddressMethod.Text, m)
      else Ok (ContentAddressMethod.Flat, m).

Definition renderPrefixModern (m : ContentAddressMethod) : result bytes :=
  match m with
  | ContentAddressMethod.Text => Ok (L "text:")
  | _ => let* p := makeFileIngestionPrefix (getFileIngestionMethod m) in Ok (L "fixed:" ++ p)
  end.

Definition caMethod_renderWithAlgo (m : ContentAddressMethod) (ha : HashAlgorithm) : result bytes :=
  let* p := renderPrefixModern m in Ok (p ++ printHashAlgo ha).

Definition ContentAddress_render (ca : ContentAddress) : result bytes :=
  let* p := renderPrefixModern (ca_method ca) in
  let* h := to_string (ca_hash ca) Nix32 true in
  Ok (p ++ h).

(** [parseHashAlgorithm_]. *)
Definition parse_prefix_algo (rest : bytes) : result (HashAlgorithm * bytes) :=
  match splitPrefixTo rest ":" with
  | (None, _) => throw UsageError
  | (Some hashAlgoRaw, rest) => let* a := parseHashAlgo hashAlgoRaw in Ok (a, rest)
  end.

Definition parseContentAddressMethodPrefix (rest : bytes) :
    result (ContentAddressMethod * HashAlgorithm * bytes) :=
  match splitPrefixTo rest ":" with
  | (None, _) => throw UsageError
  | (Some prefix, rest) =>
      if bool_decide (prefix = L "text") then
        let* (hashAlgo, rest) := parse_prefix_algo rest in
        Ok (ContentAddressMethod.Text, hashAlgo, rest)
      else if bool_decide (prefix = L "fixed") then
        let* (method, rest) :=
          match splitPrefix rest (L "r:") with
          | (true, rest) => Ok (ContentAddressMethod.NixArchive, rest)
          | (false, rest) =>
              match splitPrefix rest (L "git:") with
              | (true, rest) => require xp GitHashing ;;; Ok (ContentAddressMethod.Git, rest)
              | (false, rest) => Ok (ContentAddressMethod.Flat, rest)
              end
          end in
        let* (hashAlgo, rest) := parse_prefix_algo rest in
        Ok (method, hashAlgo, rest)
      else throw UsageError
  end.

Definition ContentAddress_parse (rawCa : bytes) : result ContentAddress :=
  let* (p, rest) := parseContentAddressMethodPrefix rawCa in
  let* h := parseNonSRIUnprefixed xp rest p.2 in
  Ok (mkContentAddress p.1 h).

Definition caMethod_parseWithAlgo (caMethod : bytes) : result (ContentAddressMethod * HashAlgorithm) :=
  let* (p, _) := parseContentAddressMethodPrefix (caMethod ++ L ":") in Ok p.

Definition ContentAddress_parseOpt (rawCaOpt : bytes) : result (option ContentAddress) :=
  if bool_decide (rawCaOpt = []) then Ok None
  else let* ca := ContentAddress_parse rawCaOpt in Ok (Some ca).

Definition renderContentAddress (ca : option ContentAddress) : result bytes :=
  match ca with Some ca => ContentAddress_render ca | None => Ok [] end.

Definition printMethodAlgo (ca : ContentAddress) : result bytes :=
  let* p := caMethod_renderPrefix (ca_method ca) in Ok (p ++ printHashAlgo (algo (ca_hash ca))).
End xp.

(** ** References *)

Record StoreReferences := mkStoreReferences {
  others : list StorePath;
  self : bool;
}.

Definition refs_empty (r : StoreReferences) : bool := negb (self r) && bool_decide (others r = []).
Definition refs_size (r : StoreReferences) : nat := (if self r then 1 else 0) + length (others r).

(** [TextInfo] and [FixedOutputInfo]. *)
Inductive ContentAddressWithReferences :=
| TextInfo (hash : Hash) (references : list StorePath)
| FixedOutputInfo (method : FileIngestionMethod) (hash : Hash) (references : StoreReferences).

Definition withoutRefs (ca : ContentAddress) : ContentAddressWithReferences :=
  match ca_method ca with
  | ContentAddressMethod.Text => TextInfo (ca_hash ca) []
  | m => FixedOutputInfo (getFileIngestionMethod m) (ca_hash ca) (mkStoreReferences [] false)
  end.

Definition fromParts (method : ContentAddressMethod) (h : Hash) (refs : StoreReferences) :
    result ContentAddressWithReferences :=
  match method with
  | ContentAddressMethod.Text =>
      if self refs then throw Error else Ok (TextInfo h (others refs))
  | m => Ok (FixedOutputInfo (getFileIngestionMethod m) h refs)
  end.

Definition getMethod (ca : ContentAddressWithReferences) : ContentAddressMethod :=
  match ca with
  | TextInfo _ _ => ContentAddressMethod.Text
  | FixedOutputInfo m _ _ => fileIngestionMethodToContentAddressMethod m
  end.

Definition getHash (ca : ContentAddressWithReferences) : Hash :=
  match ca with TextInfo h _ => h | FixedOutputInfo _ h _ => h end.

(** ** Store path computation (store-api.cc) *)

(** [outputPathName] of derivations.cc. *)
Definition outputPathName (drvName outputName : bytes) : bytes :=
  if bool_decide (outputName = L "out") then drvName else drvName ++ L "-" ++ outputName.

Section make.
Context `{Digest} (xp : xpSettings) (storeDir : bytes).

(** The string whose hash becomes the hash part. *)
Definition fingerprint (type hash name : bytes) : bytes :=
  type ++ L ":" ++ hash ++ L ":" ++ storeDir ++ L ":" ++ name.

Definition makeStorePath (type hash name : bytes) : result StorePath :=
  let* d := hashString xp SHA256 (fingerprint type hash name) in
  let* h := compressHash xp d 20 in
  StorePath_make h name.

Definition makeStorePath_hash (type : bytes) (hash : Hash) (name : bytes) : result StorePath :=
  let* s := to_string hash Base16 true in makeStorePath type s name.

Definition makeOutputPath (id : bytes) (hash : Hash) (name : bytes) : result StorePath :=
  makeStorePath_hash (L "output:" ++ id) hash (outputPathName name id).

Definition makeType (type : bytes) (references : StoreReferences) : bytes :=
  foldl (fun type i => type ++ L ":" ++ printStorePath storeDir i) type (others references)
  ++ (if self references then L ":self" else []).

Definition makeFixedOutputPath (name : bytes) (method : FileIngestionMethod) (hash : Hash)
    (references : StoreReferences) : result StorePath :=
  if bool_decide (method = FileIngestionMethod.Git) && negb (bool_decide (algo hash = SHA1))
  then throw Error
  else if bool_decide (algo hash = SHA256) && bool_decide (method = FileIngestionMethod.NixArchive)
  then makeStorePath_hash (makeType (L "source") references) hash name
  else if negb (refs_empty references) then throw Error
  else
    let* prefix := makeFileIngestionPrefix xp method in
    let* h := to_string hash Base16 true in
    let* digest := hashString xp SHA256 (L "fixed:out:" ++ prefix ++ h ++ L ":") in
    makeStorePath_hash (L "output:out") digest name.

Definition makeFixedOutputPathFromCA (name : bytes) (ca : ContentAddressWithReferences) :
    result StorePath :=
  match ca with
  | TextInfo h references =>
      assert_ (bool_decide (algo h = SHA256)) ;;;
      makeStorePath_hash (makeType (L "text") (mkStoreReferences references false)) h name
  | FixedOutputInfo m h references => makeFixedOutputPath name m h references
  end.
End make.

(** ** Round trips *)

Lemma splitPrefix_app p t : splitPrefix (p ++ t) p = (true, t).
Proof. unfold splitPrefix, hasPrefix. by rewrite take_app_length, bool_decide_true, drop_app_length. Qed.

Definition method_enabled (xp : xpSettings) (m : ContentAddressMethod) : Prop :=
  m = ContentAddressMethod.Git -> xp GitHashing = true.

(** The part of a rendering before the hash parses back. *)
Lemma parse_prefix_renderPrefixModern xp m p a rest :
  method_enabled xp m -> renderPrefixModern xp m = Ok p ->
  parseContentAddressMethodPrefix xp (p ++ printHashAlgo a ++ L ":" ++ rest) = Ok (m, a, rest).
Proof.
  intros Hm Hp.
  assert (forall rest, parse_prefix_algo (printHashAlgo a ++ L ":" ++ rest) = Ok (a, rest)) as Ha.
  { intros r. unfold parse_prefix_algo. change (L ":" ++ r) with (":"%char :: r).
    rewrite splitPrefixTo_app by (apply printHashAlgo_no_sep; by left). by rewrite parseHashAlgo_print. }
  unfold parseContentAddressMethodPrefix. destruct m; cbn in Hp.
  - inv_result. simpl app. change (splitPrefixTo _ _) with (Some (L "fixed"), printHashAlgo a ++ L ":" ++ rest).
    cbv iota beta. rewrite bool_decide_false, bool_decide_true by done.
    assert (splitPrefix (printHashAlgo a ++ L ":" ++ rest) (L "r:") = (false, printHashAlgo a ++ L ":" ++ rest)) as ->
      by (by destruct a).
    assert (splitPrefix (printHashAlgo a ++ L ":" ++ rest) (L "git:") = (false, printHashAlgo a ++ L ":" ++ rest)) as ->
      by (by destruct a).
    cbn [rbind]. by rewrite Ha.
  - inv_result. simpl app.
    change (splitPrefixTo _ _) with (Some (L "fixed"), L "r:" ++ printHashAlgo a ++ L ":" ++ rest).
    cbv iota beta. rewrite bool_decide_false, bool_decide_true, splitPrefix_app by done. cbn [rbind]. by rewrite Ha.
  - inv_result. simpl app.
    change (splitPrefixTo _ _) with (Some (L "fixed"), L "git:" ++ printHashAlgo a ++ L ":" ++ rest).
    cbv iota beta. rewrite bool_decide_false, bool_decide_true by done.
    change (splitPrefix (L "git:" ++ ?x) (L "r:")) with (false, L "git:" ++ x). cbv iota beta.
    rewrite splitPrefix_app. unfold require. rewrite Hm by done. cbn [rbind]. by rewrite Ha.
  - inv_result. simpl app. change (splitPrefixTo _ _) with (Some (L "text"), printHashAlgo a ++ L ":" ++ rest).
    cbv iota beta. rewrite bool_decide_true by done. by rewrite Ha.
Qed.

Lemma renderPrefixModern_Ok xp m : method_enabled xp m -> exists p, renderPrefixModern xp m = Ok p.
Proof.
  intros Hm. destruct m; cbn; eauto. unfold require. rewrite Hm by done. cbn. eauto.
Qed.

(** A content address whose hash and method are usable under the settings. *)
Definition ca_ok (xp : xpSettings) (ca : ContentAddress) : Prop :=
  Hash_regular (ca_hash ca) /\ algo_enabled xp (algo (ca_hash ca)) /\ method_enabled xp (ca_method ca).

Lemma ContentAddress_parse_render xp ca :
  ca_ok xp ca ->
  exists s, ContentAddress_render xp ca = Ok s /\ ContentAddress_parse xp s = Ok ca /\ s <> [].
Proof.
  intros (Hreg & Ha & Hm). destruct ca as [m h]. cbn [ca_hash ca_method] in *.
  destruct (renderPrefixModern_Ok xp m Hm) as [p Hp].
  exists (p ++ printHashAlgo (algo h) ++ L ":" ++ hash_body h Nix32).
  split; [|split].
  - unfold ContentAddress_render. cbn [ca_method ca_hash]. rewrite Hp. cbn [rbind].
    rewrite to_string_body by (destruct Hreg as [(_ & ? & _) _]; lia).
    rewrite (bool_decide_false (Nix32 = SRI)) by done. cbn [orb rbind]. by rewrite <- app_assoc.
  - unfold ContentAddress_parse. rewrite (parse_prefix_renderPrefixModern xp m p (algo h)) by done.
    cbn [rbind fst snd]. unfold parseNonSRIUnprefixed. pose proof (Hash_parse_body xp h Nix32 Hreg Ha) as Hb.
    rewrite (bool_decide_false (Nix32 = SRI)) in Hb by done. by rewrite Hb.
  - destruct p; [|done]. by destruct (algo h).
Qed.

(** The rendering of an optional content address is read back. *)
Lemma parseOpt_render xp o s :
  (forall ca, o = Some ca -> ca_ok xp ca) -> renderContentAddress xp o = Ok s ->
  ContentAddress_parseOpt xp s = Ok o.
Proof.
  intros Hok Hs. unfold ContentAddress_parseOpt. destruct o as [ca|]; cbn in Hs; [|by injection Hs as <-].
  destruct (ContentAddress_parse_render xp ca) as (s' & Hs' & Hp & Hne); [auto|].
  rewrite Hs in Hs'. injection Hs' as <-. by rewrite bool_decide_false, Hp.
Qed.

(** Content addresses, optional or not, and methods with an algorithm
    parse back from their renderings. The hash must have the regular size of
    its algorithm, and the features for Git hashing and BLAKE3 must be enabled
    if they are used. *)
Theorem ContentAddress_roundtrip xp ca :
  Hash_regular (ca_hash ca) -> algo_enabled xp (algo (ca_hash ca)) -> method_enabled xp (ca_method ca) ->
  (exists s, ContentAddress_render xp ca = Ok s /\ ContentAddress_parse xp s = Ok ca /\
     renderContentAddress xp (Some ca) = Ok s /\ ContentAddress_parseOpt xp s = Ok (Some ca))
  /\ (exists s, caMethod_renderWithAlgo xp (ca_method ca) (algo (ca_hash ca)) = Ok s /\
        caMethod_parseWithAlgo xp s = Ok (ca_method ca, algo (ca_hash ca)))
  /\ caMethod_parse (caMethod_render (ca_method ca)) = Ok (ca_method ca)
  /\ (renderContentAddress xp None = Ok [] /\ ContentAddress_parseOpt xp [] = Ok None).
Proof.
  intros Hreg Ha Hm. destruct (ContentAddress_parse_render xp ca) as (s & Hs & Hp & Hne); [done|].
  split; [|split; [|split; [by destruct ca as [[] h]|done]]].
  - exists s. do 3 (split; [done|]). apply parseOpt_render; [by intros ? [= <-]|done].
  - destruct (renderPrefixModern_Ok xp (ca_method ca) Hm) as [p Hr].
    exists (p ++ printHashAlgo (algo (ca_hash ca))). unfold caMethod_renderWithAlgo, caMethod_parseWithAlgo.
    rewrite Hr. split; [done|].
    pose proof (parse_prefix_renderPrefixModern xp _ p (algo (ca_hash ca)) [] Hm Hr) as Hparse.
    rewrite app_nil_r in Hparse. rewrite <- app_assoc. by rewrite Hparse.
Qed.

Lemma ContentAddress_roundtrip_witness :
  let ca := mkContentAddress ContentAddressMethod.NixArchive example_hash in
  exists s, ContentAddress_render (fun _ => false) ca = Ok s /\ ContentAddress_parse (fun _ => false) s = Ok ca /\
     renderContentAddress (fun _ => false) (Some ca) = Ok s /\
     ContentAddress_parseOpt (fun _ => false) s = Ok (Some ca).
Proof.
  cbv zeta.
  apply (ContentAddress_roundtrip (fun _ => false) (mkContentAddress ContentAddressMethod.NixArchive example_hash));
    unfold algo_enabled, method_enabled, Hash_regular, Hash_wf, maxHashSize; cbn; repeat split; try done; try lia.
Defined.

(** Putting a method, a hash and references together and taking them
    apart again loses nothing; the one combination refused is a
    self-reference under text hashing. *)
Theorem fromParts_spec method h refs :
  (fromParts method h refs = throw Error <-> method = ContentAddressMethod.Text /\ self refs = true) /\
  (forall ca, fromParts method h refs = Ok ca ->
     getMethod ca = method /\ getHash ca = h /\
     match ca with
     | TextInfo _ references => references = others refs /\ self refs = false
     | FixedOutputInfo _ _ references => references = refs
     end) /\
  (forall ca, withoutRefs ca = match fromParts (ca_method ca) (ca_hash ca) (mkStoreReferences [] false) with
                             | Ok c => c | Err _ => withoutRefs ca end).
Proof.
  unfold fromParts. split; [|split].
  - destruct method, (self refs); naive_solver.
  - intros ca Hca. destruct method; [..|destruct (self refs) eqn:E]; inv_result; done.
  - intros [m hh]. unfold withoutRefs. cbn. by destruct m.
Qed.

(** ** Computed store paths are valid *)

Lemma hashString_Ok `{Digest} xp a s :
  algo_enabled xp a -> exists h, hashString xp a s = Ok h /\ Hash_regular h /\ algo h = a.
Proof.
  intros Ha. unfold hashString. rewrite Hash_zero_Ok by done. cbn [rbind hashSize hash].
  eexists. split; [done|]. split; [|done]. unfold Hash_regular, Hash_wf. cbn [hash hashSize algo].
  rewrite length_app, digest_length, length_drop, length_replicate.
  rewrite drop_app_length', drop_replicate by by rewrite digest_length. unfold maxHashSize. destruct a; simpl; repeat split; lia.
Qed.

(** A 20-byte hash fills the hash part exactly. *)
Lemma StorePath_make_20 h name :
  hashSize h = 20 ->
  StorePath_make h name =
  if name_regex name && (length name <=? MaxPathLen)
  then Ok (mkStorePath (hash_body h Nix32 ++ L "-" ++ name)) else throw BadStorePath.
Proof.
  intros Hs. unfold StorePath_make. rewrite to_string_body by lia.
  rewrite (bool_decide_false (Nix32 = SRI)) by done. cbn [orb app rbind sp_to_string].
  assert (length (hash_body h Nix32) = HashLen) as Hl.
  { rewrite hash_body32_length. unfold base32Len. by rewrite Hs. }
  rewrite !length_app, Hl. cbn [length L]. rewrite (proj2 (Nat.ltb_ge _ _)) by lia.
  unfold sp_name. cbn [sp_to_string]. rewrite <- Hl, <- drop_drop, drop_app_length. cbn [drop L app].
  unfold checkPathName. rewrite drop_0, checkName_regex. by destruct (_ && _).
Qed.

Lemma StorePath_make_valid h name p :
  hashSize h = 20 -> StorePath_make h name = Ok p ->
  StorePath_parse (sp_to_string p) = Ok p /\ sp_name p = name /\ slash ∉ sp_to_string p.
Proof.
  intros Hs H. rewrite StorePath_make_20 in H by done. destruct (_ && _) eqn:E; [|done]. inv_result.
  assert (length (hash_body h Nix32) = HashLen) as Hl.
  { rewrite hash_body32_length. unfold base32Len. by rewrite Hs. }
  apply andb_true_iff in E as [En Em%Nat.leb_le].
  assert (sp_name (mkStorePath (hash_body h Nix32 ++ L "-" ++ name)) = name) as Hn.
  { unfold sp_name. cbn [sp_to_string]. by rewrite <- Hl, <- drop_drop, drop_app_length. }
  assert (Forall (fun c => c ∈ nix32Chars) (hash_body h Nix32)) as Hh
    by (apply Forall_forall; intros c; apply hash_body32_alphabet).
  split; [|split; [done|]].
  - apply StorePath_parse_inv. cbn [sp_to_string] in *. unfold sp_name in Hn. cbn [sp_to_string] in Hn.
    rewrite Hn, <- Hl, take_app_length. split; [done|]. split; [rewrite length_app; cbn; lia|]. done.
  - cbn [sp_to_string]. rewrite !elem_of_app. intros [Hin|[Hin|Hin]].
    + rewrite Forall_forall in Hh. specialize (Hh _ Hin). apply (bool_decide_eq_true_2 _) in Hh.
      by vm_compute in Hh.
    + apply (bool_decide_eq_true_2 _) in Hin. by vm_compute in Hin.
    + unfold name_regex in En. apply andb_true_iff in En as [[_ En]%andb_true_iff _].
      rewrite forallb_forall in En. apply list_elem_of_In, En in Hin. by vm_compute in Hin.
Qed.

Lemma makeStorePath_cases `{Digest} xp d type hash name :
  exists h, hashSize h = 20 /\ makeStorePath xp d type hash name = StorePath_make h name.
Proof.
  unfold makeStorePath. destruct (hashString_Ok xp SHA256 (fingerprint d type hash name)) as (x & -> & _ & Hx);
    [done|]. cbn [rbind].
  destruct (compressHash_size xp x 20) as (r & -> & Hr & _); [by rewrite Hx|lia|].
  cbn [rbind]. by exists r.
Qed.

(** [makeStorePath] succeeds exactly on valid names, refusing the others
    with [BadStorePath]; its result carries the name and is a store path the
    parser accepts: printed and parsed again it is unchanged. *)
Theorem makeStorePath_valid `{Digest} xp storeDir type hash name :
  CanonPath_wf storeDir ->
  if name_regex name && (length name <=? MaxPathLen) then
    exists p, makeStorePath xp storeDir type hash name = Ok p /\ sp_name p = name /\
      parseStorePath storeDir (printStorePath storeDir p) = Ok p
  else makeStorePath xp storeDir type hash name = throw BadStorePath.
Proof.
  intros (ds & Hds & ->).
  destruct (makeStorePath_cases xp (render1 ds) type hash name) as (h & Hh & ->).
  pose proof (StorePath_make_20 h name Hh) as E. destruct (_ && _) eqn:En; [|done].
  destruct (StorePath_make_valid h name _ Hh E) as (Hp & Hn & Hs).
  eexists. split; [done|]. split; [done|]. by apply parseStorePath_print_render.
Qed.

(** A digest function with the stated behaviour, for the concrete instances. *)
Definition padded_digest : Digest.
Proof.
  refine {| digest := fun a s => take (regularHashSize a) (s ++ replicate (regularHashSize a) NUL) |}.
  intros a s. rewrite length_take, length_app, length_replicate. lia.
Defined.

Lemma makeStorePath_valid_witness :
  exists p, @makeStorePath padded_digest (fun _ => false) (L "/nix/store") (L "source") (L "sha256:00") (L "foo")
              = Ok p /\ sp_name p = L "foo" /\
    parseStorePath (L "/nix/store") (printStorePath (L "/nix/store") p) = Ok p.
Proof.
  apply (@makeStorePath_valid padded_digest (fun _ => false) (L "/nix/store") (L "source") (L "sha256:00") (L "foo")).
  by apply CanonPath_raw_self.
Defined.

(** ** Fingerprints are unambiguous *)

Definition colon : ascii := ":"%char.

Lemma split_ref_joined sep t ts :
  sep ∉ t -> Forall (fun u => sep ∉ u) ts ->
  split_ref (char_eqb sep) (t ++ concat ((fun u => sep :: u) <$> ts)) = t :: ts.
Proof.
  intros Ht Hts. revert t Ht. induction Hts as [|u ts Hu Hts IH]; intros t Ht.
  - rewrite fmap_nil. cbn [concat]. rewrite app_nil_r. apply split_ref_none.
    apply Forall_forall. intros d Hd. apply char_eqb_ne. set_solver.
  - rewrite fmap_cons. cbn [concat]. rewrite split_ref_find. rewrite <- app_comm_cons.
    pose proof (find_char_app sep t (u ++ concat ((λ u0 : list ascii, sep :: u0) <$> ts)) Ht) as E.
    unfold find_char in E. rewrite E, take_app_length, <- Nat.add_1_r, <- drop_drop, drop_app_length.
    cbn [drop]. rewrite drop_0. f_equal. by apply IH.
Qed.

Lemma makeType_joined d type refs :
  makeType d type refs =
  type ++ concat ((fun u => colon :: u) <$>
    ((printStorePath d <$> others refs) ++ (if self refs then [L "self"] else []))).
Proof.
  unfold makeType. generalize type. induction (others refs) as [|r rs IH]; intros t.
  - cbn [foldl fmap list_fmap app]. by destruct (self refs).
  - cbn [foldl]. rewrite IH, fmap_cons, <- app_comm_cons, fmap_cons. cbn [concat].
    by rewrite <- !app_assoc.
Qed.

(** A list of store paths, possibly followed by [self]. *)
Lemma refs_list_inj d (o1 o2 : list StorePath) (s1 s2 : bool) :
  isAbsolute d = true ->
  (printStorePath d <$> o1) ++ (if s1 then [L "self"] else []) =
  (printStorePath d <$> o2) ++ (if s2 then [L "self"] else []) -> o1 = o2 /\ s1 = s2.
Proof.
  intros Hd. assert (forall p, printStorePath d p <> L "self") as Hne.
  { intros p E. apply (f_equal isAbsolute) in E. unfold printStorePath in E.
    rewrite isAbsolute_app, Hd in E by (by destruct d). by vm_compute in E. }
  revert o2. induction o1 as [|[p1] o1 IH]; intros [|[p2] o2] E.
  - split; [done|]. by destruct s1, s2.
  - rewrite fmap_cons, <- app_comm_cons in E. rewrite fmap_nil, app_nil_l in E.
    destruct s1; [|done]. exfalso. apply (Hne (mkStorePath p2)). congruence.
  - rewrite fmap_cons, <- app_comm_cons in E. rewrite fmap_nil, app_nil_l in E.
    destruct s2; [|done]. exfalso. apply (Hne (mkStorePath p1)). congruence.
  - rewrite !fmap_cons, <- !app_comm_cons in E. injection E as E1 E2.
    destruct (IH o2 E2) as [-> ->]. split; [|done]. f_equal. f_equal.
    unfold printStorePath in E1. cbn [sp_to_string] in E1. by repeat apply app_inv_head in E1.
Qed.

Lemma app_sep_inj (sep : ascii) a1 a2 b1 b2 :
  sep ∉ b1 -> sep ∉ b2 -> a1 ++ sep :: b1 = a2 ++ sep :: b2 -> a1 = a2 /\ b1 = b2.
Proof.
  intros H1 H2 E. pose proof (rfind_char_app sep a1 b1 H1) as F1.
  rewrite E, rfind_char_app in F1 by done. injection F1 as F1.
  apply app_inj_1 in E as [-> E]; [|done]. split; [done|]. by injection E.
Qed.

Lemma printHashAlgo_inj a1 a2 : printHashAlgo a1 = printHashAlgo a2 -> a1 = a2.
Proof.
  intros E. pose proof (parseHashAlgo_print a1) as H1. rewrite E, parseHashAlgo_print in H1.
  by inv_result.
Qed.

(** A printed hash in front of a separator-free context is recovered. *)
Lemma to_string16_inj h1 h2 t1 t2 :
  Hash_regular h1 -> Hash_regular h2 ->
  t1 ++ L ":" ++ (printHashAlgo (algo h1) ++ L ":" ++ hash_body h1 Base16) =
  t2 ++ L ":" ++ (printHashAlgo (algo h2) ++ L ":" ++ hash_body h2 Base16) -> t1 = t2 /\ h1 = h2.
Proof.
  intros R1 R2 E.
  assert (forall t a b : bytes, t ++ L ":" ++ a ++ L ":" ++ b = (t ++ colon :: a) ++ colon :: b) as Hassoc
    by (intros; by rewrite <- !app_assoc).
  rewrite !Hassoc in E.
  apply (app_sep_inj colon) in E as [E Eb]; [|by apply hash_body_no_sep; left..].
  apply (app_sep_inj colon) in E as [Et Ea]; [|by apply printHashAlgo_no_sep; left..].
  apply printHashAlgo_inj in Ea. split; [done|].
  pose proof (Hash_parse_body (fun _ => true) h1 Base16 R1 ltac:(done)) as P1.
  pose proof (Hash_parse_body (fun _ => true) h2 Base16 R2 ltac:(done)) as P2.
  rewrite Eb, Ea, P2 in P1. by inv_result.
Qed.

Lemma name_regex_no c s :
  name_char c = false -> name_regex s = true -> c ∉ s.
Proof.
  unfold name_regex. rewrite !andb_true_iff, forallb_forall. intros Hc [[_ H] _] Hin.
  apply list_elem_of_In, H in Hin. congruence.
Qed.

(** The string hashed into a [source] or [text] store path determines
    everything it is made of: the type, the references, the self-reference
    flag, the content hash and the name. Equal store paths for different
    inputs thus need a hash collision. *)
Theorem fingerprint_injective storeDir t1 t2 refs1 refs2 h1 h2 s1 s2 n1 n2 :
  isAbsolute storeDir = true -> colon ∉ storeDir -> colon ∉ t1 -> colon ∉ t2 ->
  Forall (fun p => colon ∉ sp_to_string p) (others refs1 ++ others refs2) ->
  Hash_regular h1 -> Hash_regular h2 -> name_regex n1 = true -> name_regex n2 = true ->
  to_string h1 Base16 true = Ok s1 -> to_string h2 Base16 true = Ok s2 ->
  fingerprint storeDir (makeType storeDir t1 refs1) s1 n1 =
  fingerprint storeDir (makeType storeDir t2 refs2) s2 n2 ->
  t1 = t2 /\ refs1 = refs2 /\ h1 = h2 /\ n1 = n2.
Proof.
  intros Habs Hd Ht1 Ht2 [Hr1 Hr2]%Forall_app R1 R2 Hn1 Hn2 S1 S2 E.
  rewrite to_string_body in S1, S2 by (match goal with R : Hash_regular ?h |- 0 < hashSize ?h =>
    destruct R as [(_ & ? & _) _]; lia end).
  rewrite (bool_decide_false (Base16 = SRI)) in S1, S2 by done. cbn [orb] in S1, S2.
  rewrite <- app_assoc in S1, S2. inv_result. unfold fingerprint in E.
  assert (forall n t s, t ++ L ":" ++ s ++ L ":" ++ storeDir ++ L ":" ++ n
    = ((t ++ L ":" ++ s) ++ L ":" ++ storeDir) ++ colon :: n) as Hassoc
    by (intros; by rewrite <- !app_assoc).
  rewrite !Hassoc in E.
  apply (app_sep_inj colon) in E as [E ->]; [|by eapply name_regex_no..].
  apply app_inv_tail, to_string16_inj in E as [E ->]; [|done..].
  rewrite !makeType_joined in E.
  assert (forall refs, Forall (fun p => colon ∉ sp_to_string p) (others refs) ->
    Forall (fun u => colon ∉ u)
      ((printStorePath storeDir <$> others refs) ++ (if self refs then [L "self"] else []))) as Hno.
  { intros refs Hr. apply Forall_app. split.
    - apply Forall_fmap. eapply Forall_impl; [done|]. intros p Hp. unfold compose, printStorePath.
      rewrite !elem_of_app. intros [?|[Hin|?]]; [done| |done].
      apply (bool_decide_eq_true_2 _) in Hin. by vm_compute in Hin.
    - destruct (self refs); [|done]. apply Forall_singleton. apply (bool_decide_unpack _). by vm_compute. }
  apply (f_equal (split_ref (char_eqb colon))) in E.
  rewrite !split_ref_joined in E by auto. injection E as -> E.
  apply refs_list_inj in E as [Eo Es]; [|done]. destruct refs1, refs2. cbn in *. by subst.
Qed.

Lemma fingerprint_injective_witness :
  let refs := mkStoreReferences [mkStorePath example_base] true in
  L "source" = L "source" /\ refs = refs /\ example_hash = example_hash /\ L "foo" = L "foo".
Proof.
  cbv zeta. eapply (fingerprint_injective (L "/nix/store") (L "source") (L "source")
    (mkStoreReferences [mkStorePath example_base] true) (mkStoreReferences [mkStorePath example_base] true)
    example_hash example_hash _ _ (L "foo") (L "foo")).
  2,3,4,5: apply (bool_decide_unpack _); vm_compute; done.
  2,3: unfold Hash_regular, Hash_wf, maxHashSize; cbn; repeat split; lia.
  1,2,3: by vm_compute.
  all: reflexivity.
Defined.

(** ** The alphabet of computed store paths *)

(** A store path the parser accepts whose characters are all name characters,
    the separator included. *)
Definition store_path_ok (p : StorePath) : Prop :=
  StorePath_parse (sp_to_string p) = Ok p /\ Forall (fun c => name_char c = true) (sp_to_string p).

Lemma store_path_ok_no p c : store_path_ok p -> name_char c = false -> c ∉ sp_to_string p.
Proof. intros [_ H] Hc Hin. rewrite Forall_forall in H. specialize (H _ Hin). congruence. Qed.

Lemma StorePath_make_ok h name p :
  hashSize h = 20 -> StorePath_make h name = Ok p -> store_path_ok p.
Proof.
  intros Hs H. split; [by apply (StorePath_make_valid h name p Hs H)|].
  rewrite StorePath_make_20 in H by done. destruct (_ && _) eqn:E; [|done]. inv_result.
  apply andb_true_iff in E as [E _]. cbn [sp_to_string].
  unfold name_regex in E. apply andb_true_iff in E as [[_ E]%andb_true_iff _].
  rewrite forallb_forall in E. apply Forall_forall. intros c. rewrite !elem_of_app. intros [Hc|[Hc|Hc]].
  - apply hash_body32_alphabet in Hc. revert c Hc. apply Forall_forall.
    by repeat constructor.
  - by apply list_elem_of_singleton in Hc as ->.
  - by apply E, list_elem_of_In.
Qed.

Lemma makeStorePath_hash_ok `{Digest} xp d type h name p :
  makeStorePath_hash xp d type h name = Ok p -> store_path_ok p.
Proof.
  unfold makeStorePath_hash. intros H'. inv_result.
  destruct (makeStorePath_cases xp d type x name) as (r & Hr & E). rewrite E in H'.
  by eapply StorePath_make_ok.
Qed.

Lemma makeFixedOutputPathFromCA_ok `{Digest} xp d name ca p :
  makeFixedOutputPathFromCA xp d name ca = Ok p -> store_path_ok p.
Proof.
  unfold makeFixedOutputPathFromCA, makeFixedOutputPath. intros Hca.
  repeat case_match; inv_result; try done; by eapply makeStorePath_hash_ok.
Qed.
