(* ===== verification/OutputsSpec.v ===== *)
(** * Output specifications (libstore/outputs-spec.cc)

    Which outputs of a derivation are meant: all, or a nonempty set of names,
    written [*] or [out,dev]; and the extended form with a default, written
    after a caret. *)

From S2P Require Import Prelude.
From S2P Require Import Containers.
From S2P Require Import Strings.
From S2P Require Import StorePath.

Inductive OutputsSpec := All | Names (names : list bytes).

#[export] Instance OutputsSpec_eq_dec : EqDecision OutputsSpec.
Proof. solve_decision. Defined.

Definition contains (this : OutputsSpec) (outputName : bytes) : bool :=
  match this with
  | All => true
  | Names outputNames => sset_mem outputName outputNames
  end.

(** *** The regular expression

    A single star, or one or more [nameRegexStr] separated by commas. The look-ahead of a name sees the rest of the
    whole input, commas included. *)

(** [\.\.?(-|$)] matches a prefix of [rest]. *)
Definition dots_ahead (rest : bytes) : bool :=
  match rest with
  | "."%char :: rest =>
      match rest with
      | [] => true
      | "-"%char :: _ => true
      | "."%char :: rest => match rest with [] => true | "-"%char :: _ => true | _ => false end
      | _ => false
      end
  | _ => false
  end.

Definition name_field (f rest : bytes) : bool :=
  negb (bool_decide (f = [])) && forallb name_char f && negb (dots_ahead rest).

Fixpoint list_regex (fields : list bytes) : bool :=
  match fields with
  | [] => false
  | [f] => name_field f f
  | f :: fields => name_field f (f ++ L ",") && list_regex fields
  end.

(** [None] is [std::nullopt]. *)
Definition OutputsSpec_parseOpt (s : bytes) : result (option OutputsSpec) :=
  if bool_decide (s = L "*") then Ok (Some All)
  else if list_regex (split_ref (char_eqb ","%char) s) then
    let names := tokenizeStringSet s (L ",") in
    assert_ (negb (bool_decide (names = []))) ;;; Ok (Some (Names names))
  else Ok None.

Definition OutputsSpec_parse (s : bytes) : result OutputsSpec :=
  let* spec := OutputsSpec_parseOpt s in
  match spec with Some spec => Ok spec | None => throw Error end.

Definition OutputsSpec_to_string (this : OutputsSpec) : bytes :=
  match this with
  | All => L "*"
  | Names outputNames => concatStringsSep (L ",") outputNames
  end.

Definition union_ (this that : OutputsSpec) : OutputsSpec :=
  match this with
  | All => All
  | Names theseNames =>
      match that with
      | All => All
      | Names thoseNames => Names (sset_union theseNames thoseNames)
      end
  end.

Definition isSubsetOf (this that : OutputsSpec) : bool :=
  match that with
  | All => true
  | Names thoseNames =>
      match this with
      | All => false
      | Names theseNames =>
          foldl (fun ret o => if sset_mem o thoseNames then ret else false) true theseNames
      end
  end.

Inductive ExtendedOutputsSpec := Default | Explicit (spec : OutputsSpec).

Definition ExtendedOutputsSpec_parseOpt (s : bytes) : result (option (bytes * ExtendedOutputsSpec)) :=
  match rfind_char "^" s with
  | None => Ok (Some (s, Default))
  | Some found =>
      let* specOpt := OutputsSpec_parseOpt (drop (found + 1) s) in
      match specOpt with
      | None => Ok None
      | Some spec => Ok (Some (take found s, Explicit spec))
      end
  end.

Definition ExtendedOutputsSpec_parse (s : bytes) : result (bytes * ExtendedOutputsSpec) :=
  let* spec := ExtendedOutputsSpec_parseOpt s in
  match spec with Some spec => Ok spec | None => throw Error end.

Definition ExtendedOutputsSpec_to_string (this : ExtendedOutputsSpec) : bytes :=
  match this with
  | Default => []
  | Explicit outputSpec => L "^" ++ OutputsSpec_to_string outputSpec
  end.

(** The invariant of [OutputsSpec]: a set of names is sorted and not empty;
    the names are those a derivation may use. *)
Definition OutputsSpec_wf (s : OutputsSpec) : Prop :=
  match s with
  | All => True
  | Names names => names <> [] /\ sset_wf names /\ Forall (fun n => name_regex n = true) names
  end.

(** ** Parsing and printing *)

Lemma dots_ahead_field s :
  dots_ahead s = bool_decide (head (split_ref (char_eqb "-"%char) s) ∈ [Some (L "."); Some (L "..")]).
Proof.
  symmetry. apply eq_true_iff_eq. destruct (dots_field s) as [H1 H2].
  rewrite bool_decide_eq_true, !elem_of_cons, H1, H2. unfold dots_ahead. split.
  - intros [[->|[t ->]]|[[->|[t ->]]|[]%not_elem_of_nil]]; done.
  - intros H. repeat case_match; try done; subst; naive_solver.
Qed.

Lemma name_field_regex f : name_field f f = name_regex f.
Proof. unfold name_field, name_regex. by rewrite dots_ahead_field. Qed.

Lemma dots_ahead_comma f : dots_ahead (f ++ L ",") = true -> dots_ahead f = true.
Proof.
  unfold dots_ahead. destruct f as [|c0 [|c1 [|c2 f]]]; cbn; repeat case_match; done.
Qed.

Lemma list_regex_names names :
  names <> [] -> Forall (fun n => name_regex n = true) names -> list_regex names = true.
Proof.
  intros Hne Hall. induction Hall as [|n names Hn Hall IH]; [done|].
  rewrite <- name_field_regex in Hn. destruct names as [|m names]; [done|].
  change (list_regex (n :: m :: names)) with (name_field n (n ++ L ",") && list_regex (m :: names)).
  rewrite IH by done. rewrite andb_true_r. unfold name_field in *.
  apply andb_true_iff in Hn as [-> Hn]. cbn [andb]. apply negb_true_iff in Hn. apply negb_true_iff.
  destruct (dots_ahead (n ++ L ",")) eqn:E; [|done]. apply dots_ahead_comma in E. congruence.
Qed.

Lemma name_regex_chars c n : name_regex n = true -> name_char c = false -> c ∉ n.
Proof.
  unfold name_regex. rewrite !andb_true_iff, forallb_forall. intros [[_ H] _] Hc Hin.
  apply list_elem_of_In, H in Hin. congruence.
Qed.

Lemma split_ref_concat sep n names :
  Forall (fun n => sep ∉ n) (n :: names) ->
  split_ref (char_eqb sep) (concatStringsSep [sep] (n :: names)) = n :: names.
Proof.
  intros Hall. revert n Hall. induction names as [|m names IH]; intros n Hall.
  - inversion Hall; subst. rewrite concatStringsSep_cons. cbn. rewrite app_nil_r.
    apply split_ref_none, Forall_forall. intros d Hd. apply char_eqb_ne. set_solver.
  - inversion Hall as [|?? Hn Hr]; subst. rewrite concatStringsSep_cons2.
    rewrite split_ref_find. change ([sep] ++ ?x) with (sep :: x).
    pose proof (find_char_app sep n (concatStringsSep [sep] (m :: names)) Hn) as E. unfold find_char in E.
    rewrite E, take_app_length, <- Nat.add_1_r, <- drop_drop, drop_app_length. cbn [drop].
    rewrite drop_0. f_equal. by apply IH.
Qed.

Lemma concatStringsSep_elem c sep names :
  c ∈ concatStringsSep sep names -> c ∈ sep \/ exists n, n ∈ names /\ c ∈ n.
Proof.
  induction names as [|n names IH]; [by intros ?%not_elem_of_nil|].
  destruct names as [|m names].
  - rewrite concatStringsSep_cons. cbn. rewrite app_nil_r. right. exists n. split; [by left|done].
  - rewrite concatStringsSep_cons2, !elem_of_app. intros [?|[?|Hin]].
    + right. exists n. split; [by left|done].
    + by left.
    + destruct (IH Hin) as [?|(k & ? & ?)]; [by left|]. right. exists k. split; [by right|done].
Qed.

Lemma one_of_single sep : forall c, one_of [sep] c = char_eqb sep c.
Proof.
  intros c. unfold one_of, char_eqb. apply bool_decide_ext. rewrite elem_of_cons. set_solver.
Qed.

Lemma split_ref_ext p q s : (forall c, p c = q c) -> split_ref p s = split_ref q s.
Proof. intros H. induction s as [|c s IH]; simpl; [done|]. by rewrite H, IH. Qed.

Lemma OutputsSpec_parseOpt_print spec :
  OutputsSpec_wf spec -> OutputsSpec_parseOpt (OutputsSpec_to_string spec) = Ok (Some spec).
Proof.
  destruct spec as [|names]; [done|]. intros (Hne & Hwf & Hall).
  destruct names as [|n names]; [done|]. unfold OutputsSpec_parseOpt. cbn [OutputsSpec_to_string].
  assert (Forall (fun n => ","%char ∉ n) (n :: names)) as Hc
    by (eapply Forall_impl; [done|]; intros; by apply name_regex_chars).
  rewrite bool_decide_false.
  - change (L ",") with [","%char] at 1. rewrite split_ref_concat, list_regex_names by done.
    unfold tokenizeStringSet. rewrite tokenizeString_ref.
    change (L ",") with [","%char]. rewrite (split_ref_ext _ _ _ (one_of_single _)).
    rewrite split_ref_concat by done.
    assert (filter (fun f => f <> []) (n :: names) = n :: names) as ->.
    { clear -Hall. induction Hall as [|m l Hm Hl IH]; [done|]. rewrite filter_cons_True; [by f_equal|].
      by intros ->. }
    by rewrite sset_of_list_sorted.
  - intros E. apply Forall_inv in Hall. destruct n as [|x n]; [done|].
    apply (name_regex_chars "*") in Hall; [|done]. rewrite concatStringsSep_cons in E.
    apply (f_equal head) in E. injection E as ->. set_solver.
Qed.

Lemma OutputsSpec_no_caret spec : OutputsSpec_wf spec -> "^"%char ∉ OutputsSpec_to_string spec.
Proof.
  intros Hwf. destruct spec as [|names]; [apply (bool_decide_unpack _); by vm_compute|].
  destruct Hwf as (_ & _ & Hall). rewrite Forall_forall in Hall.
  cbn [OutputsSpec_to_string]. intros [Hin|(n & Hn & Hin)]%concatStringsSep_elem.
  - apply (bool_decide_eq_true_2 _) in Hin. by vm_compute in Hin.
  - by apply (name_regex_chars _ n (Hall _ Hn)) in Hin.
Qed.

(** Output specifications parse back from their printed form, alone and
    after a caret behind any prefix; the assertion that a parsed set of names
    is not empty never fails. *)
Theorem OutputsSpec_roundtrip spec prefix :
  OutputsSpec_wf spec ->
  OutputsSpec_parse (OutputsSpec_to_string spec) = Ok spec /\
  ExtendedOutputsSpec_parse (prefix ++ ExtendedOutputsSpec_to_string (Explicit spec))
    = Ok (prefix, Explicit spec) /\
  ("^"%char ∉ prefix -> ExtendedOutputsSpec_parse (prefix ++ ExtendedOutputsSpec_to_string Default)
    = Ok (prefix, Default)) /\
  (forall s, exists r, OutputsSpec_parseOpt s = Ok r).
Proof.
  intros Hwf. pose proof (OutputsSpec_parseOpt_print spec Hwf) as Hp.
  split; [unfold OutputsSpec_parse; by rewrite Hp|].
  pose proof (OutputsSpec_no_caret spec Hwf) as Hcaret.
  split; [|split].
  - unfold ExtendedOutputsSpec_parse, ExtendedOutputsSpec_parseOpt. cbn [ExtendedOutputsSpec_to_string].
    change (L "^" ++ ?x) with ("^"%char :: x). rewrite rfind_char_app by done.
    rewrite take_app_length, <- drop_drop, drop_app_length. cbn [drop]. rewrite drop_0.
    by rewrite Hp.
  - intros Hno. unfold ExtendedOutputsSpec_parse, ExtendedOutputsSpec_parseOpt. cbn [ExtendedOutputsSpec_to_string].
    rewrite app_nil_r, (proj2 (rfind_char_None _ _) Hno). done.
  - intros s. unfold OutputsSpec_parseOpt. case_bool_decide; [eauto|].
    destruct (list_regex _) eqn:E; [|eauto]. rewrite bool_decide_false; [cbn; eauto|].
    intros En. assert (forall f, f ∉ tokenizeStringSet s (L ",")) as Hno
      by (rewrite En; intros; apply not_elem_of_nil).
    unfold tokenizeStringSet in Hno. setoid_rewrite sset_of_list_elem in Hno.
    change (L ",") with [","%char] in Hno.
    rewrite tokenizeString_ref, (split_ref_ext _ _ _ (one_of_single _)) in Hno.
    destruct (split_ref (char_eqb ","%char) s) as [|f fs]; [done|].
    apply (Hno f), list_elem_of_filter. split; [|by left]. intros ->. destruct fs; done.
Qed.

Lemma OutputsSpec_roundtrip_witness :
  OutputsSpec_parse (L "dev,out") = Ok (Names [L "dev"; L "out"]).
Proof.
  apply (OutputsSpec_roundtrip (Names [L "dev"; L "out"]) []).
  split; [done|]. split; [by repeat constructor|]. by repeat constructor.
Defined.

(** ** Set operations *)

Lemma isSubsetOf_Names names those :
  isSubsetOf (Names names) (Names those) = bool_decide (Forall (fun o => o ∈ those) names).
Proof.
  cbn [isSubsetOf]. unfold sset_mem.
  assert (forall l b, foldl (fun ret o => if bool_decide (o ∈ those) then ret else false) b l
    = b && bool_decide (Forall (fun o => o ∈ those) l)) as H.
  { induction l as [|x l IH]; intros b; cbn [foldl].
    - by rewrite bool_decide_true, andb_true_r.
    - rewrite IH. destruct (decide (x ∈ those)) as [Hx|Hx].
      + rewrite (bool_decide_true (x ∈ those)) by done. f_equal. apply bool_decide_ext.
        rewrite Forall_cons. naive_solver.
      + rewrite (bool_decide_false (x ∈ those)) by done. rewrite (bool_decide_false (Forall _ (x :: l))).
        * by rewrite andb_false_r.
        * rewrite Forall_cons. naive_solver. }
  apply H.
Qed.

(** [union_] and [isSubsetOf] are the set operations on the outputs
    contained, [union_] keeps the invariant, and [isSubsetOf] is exact (all
    outputs are no subset of a set of names, whatever its elements). *)
Theorem OutputsSpec_set_operations a b :
  (forall o, contains (union_ a b) o = contains a o || contains b o) /\
  (OutputsSpec_wf a -> OutputsSpec_wf b -> OutputsSpec_wf (union_ a b)) /\
  (isSubsetOf a b = true <->
   b = All \/ a <> All /\ forall o, contains a o = true -> contains b o = true).
Proof.
  split; [|split].
  - intros o. destruct a as [|na], b as [|nb]; cbn; rewrite ?orb_true_r; try done.
    unfold sset_mem. apply eq_true_iff_eq.
    rewrite orb_true_iff, !bool_decide_eq_true. apply sset_union_elem.
  - destruct a as [|na], b as [|nb]; cbn; try done. intros (Hn & Hw & Ha) (_ & _ & Hb).
    split; [|split; [by apply sset_union_wf|]].
    + destruct na as [|x na]; [done|]. intros E.
      assert (x ∈ sset_union (x :: na) nb) as Hx by (apply sset_union_elem; left; by left).
      rewrite E in Hx. by apply not_elem_of_nil in Hx.
    + rewrite Forall_forall in *. intros x [Hx|Hx]%sset_union_elem; auto.
  - destruct b as [|nb]; [cbn; naive_solver|]. destruct a as [|na]; [cbn; naive_solver|].
    rewrite isSubsetOf_Names, bool_decide_eq_true, Forall_forall. cbn. unfold sset_mem.
    setoid_rewrite bool_decide_eq_true. naive_solver.
Qed.

Lemma OutputsSpec_set_operations_witness :
  OutputsSpec_wf (union_ (Names [L "out"]) (Names [L "dev"])) /\
  union_ (Names [L "out"]) (Names [L "dev"]) = Names [L "dev"; L "out"].
Proof.
  split; [|reflexivity]. apply (OutputsSpec_set_operations (Names [L "out"]) (Names [L "dev"])).
  all: split; [done|]; split; by repeat constructor.
Defined.

(** The look-ahead of the name pattern rejects the names [.] and [..] only
    at the end of the input or before a dash: followed by a comma they are
    accepted as output names, although they are no valid names. *)
Theorem OutputsSpec_parse_accepts_dot :
  OutputsSpec_parse (L ".,out") = Ok (Names [L "."; L "out"]) /\
  name_regex (L ".") = false /\ OutputsSpec_parse (L "out,.") = throw Error.
Proof. vm_compute. done. Qed.
