(* ===== verification/DerivedPath.v ===== *)
(** * Derived paths (libstore/derived-path.cc, derived-path-map.cc,
    downstream-placeholder.cc)

    References to store objects that may still have to be built: a store path,
    or an output of a derivation that is itself given by such a reference. *)

From S2P Require Import Prelude.
From S2P Require Import Containers.
From S2P Require Import Strings.
From S2P Require Import Hash.
From S2P Require Import CanonPath.
From S2P Require Import StorePath.
From S2P Require Import ContentAddress.
From S2P Require Import OutputsSpec.

Module SingleDerivedPath.
Inductive t := Opaque (path : StorePath) | Built (drvPath : t) (output : bytes).
#[export] Instance eq_dec : EqDecision t.
Proof. solve_decision. Defined.
End SingleDerivedPath.
Abbreviation SingleDerivedPath := SingleDerivedPath.t.
Export (hints) SingleDerivedPath.

Module DerivedPath.
Inductive t := Opaque (path : StorePath) | Built (drvPath : SingleDerivedPath) (outputs : OutputsSpec).
End DerivedPath.
Abbreviation DerivedPath := DerivedPath.t.

(** ** Printing *)

Section print.
Context (storeDir : bytes).

Fixpoint single_to_string (p : SingleDerivedPath) : bytes :=
  match p with
  | SingleDerivedPath.Opaque path => printStorePath storeDir path
  | SingleDerivedPath.Built drvPath output => single_to_string drvPath ++ L "^" ++ output
  end.

(** The inner path is printed with [to_string]. *)
Definition single_to_string_legacy (p : SingleDerivedPath) : bytes :=
  match p with
  | SingleDerivedPath.Opaque path => printStorePath storeDir path
  | SingleDerivedPath.Built drvPath output => single_to_string drvPath ++ L "!" ++ output
  end.

Definition derived_to_string (p : DerivedPath) : bytes :=
  match p with
  | DerivedPath.Opaque path => printStorePath storeDir path
  | DerivedPath.Built drvPath outputs =>
      single_to_string drvPath ++ L "^" ++ OutputsSpec_to_string outputs
  end.

Definition derived_to_string_legacy (p : DerivedPath) : bytes :=
  match p with
  | DerivedPath.Opaque path => printStorePath storeDir path
  | DerivedPath.Built drvPath outputs =>
      single_to_string_legacy drvPath ++ L "!" ++ OutputsSpec_to_string outputs
  end.
End print.

(** ** Parsing *)

Section parse.
Context (storeDir : bytes) (xp : xpSettings).

Definition drvRequireExperiment (drv : SingleDerivedPath) : result unit :=
  match drv with
  | SingleDerivedPath.Opaque _ => Ok tt
  | SingleDerivedPath.Built _ _ => require xp DynamicDerivations
  end.

Definition single_Built_parse (drv : SingleDerivedPath) (output : bytes) : result SingleDerivedPath :=
  drvRequireExperiment drv ;;; Ok (SingleDerivedPath.Built drv output).

Definition derived_Built_parse (drv : SingleDerivedPath) (outputsS : bytes) : result DerivedPath :=
  drvRequireExperiment drv ;;;
  let* outputs := OutputsSpec_parse outputsS in
  Ok (DerivedPath.Built drv outputs).

(** Each recursive call is on a shorter string. *)
Fixpoint parseWithSingle_fuel (fuel : nat) (s : bytes) (separator : ascii) : result SingleDerivedPath :=
  match fuel with
  | O => Err OutOfFuel
  | S fuel =>
      match rfind_char separator s with
      | None => let* p := parseStorePath storeDir s in Ok (SingleDerivedPath.Opaque p)
      | Some n =>
          let* drv := parseWithSingle_fuel fuel (take n s) separator in
          single_Built_parse drv (drop (n + 1) s)
      end
  end.
Definition parseWithSingle (s : bytes) (separator : ascii) : result SingleDerivedPath :=
  parseWithSingle_fuel (S (length s)) s separator.

Definition single_parse (s : bytes) : result SingleDerivedPath := parseWithSingle s "^".
Definition single_parseLegacy (s : bytes) : result SingleDerivedPath := parseWithSingle s "!".

Definition parseWith (s : bytes) (separator : ascii) : result DerivedPath :=
  match rfind_char separator s with
  | None => let* p := parseStorePath storeDir s in Ok (DerivedPath.Opaque p)
  | Some n =>
      let* drv := parseWithSingle (take n s) separator in
      derived_Built_parse drv (drop (n + 1) s)
  end.

Definition derived_parse (s : bytes) : result DerivedPath := parseWith s "^".
Definition derived_parseLegacy (s : bytes) : result DerivedPath := parseWith s "!".
End parse.

Definition fromSingle (req : SingleDerivedPath) : DerivedPath :=
  match req with
  | SingleDerivedPath.Opaque o => DerivedPath.Opaque o
  | SingleDerivedPath.Built drvPath output => DerivedPath.Built drvPath (Names [output])
  end.

Fixpoint single_getBaseStorePath (p : SingleDerivedPath) : StorePath :=
  match p with
  | SingleDerivedPath.Opaque path => path
  | SingleDerivedPath.Built drvPath _ => single_getBaseStorePath drvPath
  end.

Definition derived_getBaseStorePath (p : DerivedPath) : StorePath :=
  match p with
  | DerivedPath.Opaque path => path
  | DerivedPath.Built drvPath _ => single_getBaseStorePath drvPath
  end.

(** ** Maps over derived paths (derived-path-map.cc) *)

Inductive ChildNode (V : Type) :=
| mkChildNode (value : V) (childMap : list (bytes * ChildNode V)).
Arguments mkChildNode {V} _ _.

Definition node_value {V} (n : ChildNode V) : V := let 'mkChildNode v _ := n in v.
Definition node_childMap {V} (n : ChildNode V) : list (bytes * ChildNode V) :=
  let 'mkChildNode _ m := n in m.

Definition DerivedPathMap (V : Type) : Type := list (StorePath * ChildNode V).

Section DerivedPathMap.
Context {V : Type} (dflt : V).

(** [map\[k\]], which inserts a default node if there is none, followed by an
    update [f] of that node through the reference. *)
Definition slot_update {K} `{OrdKey K} (f : ChildNode V -> ChildNode V) (k : K)
    (m : list (K * ChildNode V)) : list (K * ChildNode V) :=
  smap_insert k (f (default (mkChildNode dflt []) (smap_lookup k m))) m.

(** [ensureSlot(k)] and an update [f] of the slot it returns. *)
Fixpoint updateSlot (f : ChildNode V -> ChildNode V) (k : SingleDerivedPath) (m : DerivedPathMap V) :
    DerivedPathMap V :=
  match k with
  | SingleDerivedPath.Opaque path => slot_update f path m
  | SingleDerivedPath.Built drvPath output =>
      updateSlot (fun n => mkChildNode (node_value n) (slot_update f output (node_childMap n))) drvPath m
  end.

Definition ensureSlot (k : SingleDerivedPath) (m : DerivedPathMap V) : DerivedPathMap V :=
  updateSlot (fun n => n) k m.

Fixpoint findSlot (k : SingleDerivedPath) (m : DerivedPathMap V) : option (ChildNode V) :=
  match k with
  | SingleDerivedPath.Opaque path => smap_lookup path m
  | SingleDerivedPath.Built drvPath output =>
      match findSlot drvPath m with
      | None => None
      | Some n => smap_lookup output (node_childMap n)
      end
  end.
End DerivedPathMap.

(** ** Downstream placeholders (downstream-placeholder.cc) *)

Section placeholder.
Context `{Digest} (xp : xpSettings).

(** A [DownstreamPlaceholder] is its hash. *)
Definition placeholder_render (h : Hash) : result bytes :=
  let* s := to_string h Nix32 false in Ok (L "/" ++ s).

(** [substr(0, size - 4)], the subtraction wrapping around on shorter names. *)
Definition unknownCaOutput (drvPath : StorePath) (outputName : bytes) : result Hash :=
  require xp CaDerivations ;;;
  let drvNameWithExtension := sp_name drvPath in
  let drvName :=
    if length drvNameWithExtension <? 4 then drvNameWithExtension
    else take (length drvNameWithExtension - 4) drvNameWithExtension in
  hashString xp SHA256
    (L "nix-upstream-output:" ++ sp_hashPart drvPath ++ L ":" ++ outputPathName drvName outputName).

Definition unknownDerivation (placeholder : Hash) (outputName : bytes) : result Hash :=
  require xp DynamicDerivations ;;;
  let* compressed := compressHash xp placeholder 20 in
  let* s := to_string compressed Nix32 false in
  hashString xp SHA256 (L "nix-computed-output:" ++ s ++ L ":" ++ outputName).

Fixpoint fromSingleDerivedPathBuilt (drvPath : SingleDerivedPath) (output : bytes) : result Hash :=
  match drvPath with
  | SingleDerivedPath.Opaque path => unknownCaOutput path output
  | SingleDerivedPath.Built drvPath2 output2 =>
      let* h := fromSingleDerivedPathBuilt drvPath2 output2 in unknownDerivation h output
  end.
End placeholder.

(** ** Round trips *)

(** Whether parsing a path needs dynamic derivations. *)
Fixpoint single_nested (p : SingleDerivedPath) : bool :=
  match p with
  | SingleDerivedPath.Opaque _ => false
  | SingleDerivedPath.Built (SingleDerivedPath.Opaque _) _ => false
  | SingleDerivedPath.Built _ _ => true
  end.

(** The base is a valid store path and no component contains [sep]. *)
Fixpoint single_ok (storeDir : bytes) (sep : ascii) (p : SingleDerivedPath) : Prop :=
  match p with
  | SingleDerivedPath.Opaque path =>
      StorePath_parse (sp_to_string path) = Ok path /\ slash ∉ sp_to_string path /\
      sep ∉ printStorePath storeDir path
  | SingleDerivedPath.Built drvPath output => single_ok storeDir sep drvPath /\ sep ∉ output
  end.

Section roundtrip.
Context (storeDir : bytes) (xp : xpSettings).
Hypothesis storeDir_wf : CanonPath_wf storeDir.

Lemma parseStorePath_print p sep :
  single_ok storeDir sep (SingleDerivedPath.Opaque p) ->
  parseStorePath storeDir (printStorePath storeDir p) = Ok p /\
  rfind_char sep (printStorePath storeDir p) = None.
Proof.
  intros (Hp & Hs & Hsep). destruct storeDir_wf as (ds & Hds & ->). split.
  - by apply parseStorePath_print_render.
  - by apply rfind_char_None.
Qed.

Lemma parseWithSingle_print fuel p :
  (single_nested p = true -> xp DynamicDerivations = true) ->
  single_ok storeDir "^" p -> length (single_to_string storeDir p) < fuel ->
  parseWithSingle_fuel storeDir xp fuel (single_to_string storeDir p) "^" = Ok p.
Proof.
  revert p. induction fuel as [|fuel IH]; intros p Hxp Hok Hf; [lia|].
  cbn [parseWithSingle_fuel]. destruct p as [path|drv output]; cbn [single_to_string] in *.
  - destruct (parseStorePath_print _ _ Hok) as [-> ->]. done.
  - destruct Hok as [Hdrv Hout]. change (L "^" ++ output) with ("^"%char :: output) in *.
    rewrite rfind_char_app, take_app_length, <- drop_drop, drop_app_length by done.
    rewrite length_app in Hf. cbn [length drop] in *. rewrite drop_0, IH; [|..|done|lia].
    + cbn [rbind]. unfold single_Built_parse. destruct drv; [done|]. cbn [drvRequireExperiment single_nested] in *.
      unfold require. by rewrite Hxp.
    + intros Hn. apply Hxp. destruct drv; done.
Qed.
End roundtrip.

(** A single derived path parses back from its printed form, and so does
    a derived path, provided the store paths are valid, no component contains
    a caret, and dynamic derivations are enabled if the path is nested. *)
Theorem DerivedPath_roundtrip storeDir xp drv outputs :
  CanonPath_wf storeDir -> single_ok storeDir "^" drv -> OutputsSpec_wf outputs ->
  ((exists d o, drv = SingleDerivedPath.Built d o) -> xp DynamicDerivations = true) ->
  single_parse storeDir xp (single_to_string storeDir drv) = Ok drv /\
  derived_parse storeDir xp (derived_to_string storeDir (DerivedPath.Built drv outputs))
    = Ok (DerivedPath.Built drv outputs) /\
  (forall p, drv = SingleDerivedPath.Opaque p ->
     derived_parse storeDir xp (derived_to_string storeDir (DerivedPath.Opaque p)) = Ok (DerivedPath.Opaque p)).
Proof.
  intros Hd Hok Hout Hxp.
  assert (single_parse storeDir xp (single_to_string storeDir drv) = Ok drv) as Hs.
  { apply parseWithSingle_print; auto. intros Hn. apply Hxp. destruct drv; [done|eauto]. }
  split; [done|]. split.
  - unfold derived_parse, parseWith. cbn [derived_to_string].
    change (L "^" ++ ?x) with ("^"%char :: x).
    rewrite rfind_char_app by by apply OutputsSpec_no_caret.
    rewrite take_app_length, <- drop_drop, drop_app_length. cbn [drop]. rewrite drop_0.
    unfold single_parse in Hs. rewrite Hs. cbn [rbind]. unfold derived_Built_parse, OutputsSpec_parse.
    rewrite OutputsSpec_parseOpt_print by done.
    destruct drv as [|d o]; [done|]. cbn [drvRequireExperiment]. unfold require. rewrite Hxp by eauto. done.
  - intros p ->. unfold derived_parse, parseWith. cbn [derived_to_string].
    destruct (parseStorePath_print storeDir Hd _ _ Hok) as [-> ->]. done.
Qed.

Definition example_drv : StorePath := mkStorePath (L "00bgd045z0d4icpbc2yyz4gx48ak44la-foo.drv").

Lemma DerivedPath_roundtrip_witness :
  let drv := SingleDerivedPath.Built (SingleDerivedPath.Opaque example_drv) (L "out") in
  single_parse (L "/nix/store") (fun _ => true) (single_to_string (L "/nix/store") drv) = Ok drv.
Proof.
  cbv zeta.
  apply (DerivedPath_roundtrip (L "/nix/store") (fun _ => true)
    (SingleDerivedPath.Built (SingleDerivedPath.Opaque example_drv) (L "out")) All).
  - by apply CanonPath_raw_self.
  - repeat split; try (apply (bool_decide_unpack _); vm_compute; done).
  - done.
  - done.
Defined.

(** The legacy printer of a nested path prints its inner part in the new
    syntax, with a caret, which the legacy parser does not accept even with
    every feature enabled; one level of nesting less and both agree. *)
Theorem DerivedPath_legacy_nested_unparsable :
  let store := L "/nix/store" in
  let one := SingleDerivedPath.Built (SingleDerivedPath.Opaque example_drv) (L "a") in
  let two := SingleDerivedPath.Built one (L "b") in
  derived_parseLegacy store (fun _ => true)
    (derived_to_string_legacy store (DerivedPath.Built one (Names [L "c"])))
  = Ok (DerivedPath.Built one (Names [L "c"])) /\
  derived_parseLegacy store (fun _ => true)
    (derived_to_string_legacy store (DerivedPath.Built two (Names [L "c"]))) = throw BadStorePath.
Proof. vm_compute. done. Qed.

(** ** Slots *)

(** [k'] is a descendant of [k]. *)
Fixpoint below (k' k : SingleDerivedPath) : Prop :=
  match k' with
  | SingleDerivedPath.Opaque _ => False
  | SingleDerivedPath.Built d _ => d = k \/ below d k
  end.

Fixpoint depth (k : SingleDerivedPath) : nat :=
  match k with SingleDerivedPath.Opaque _ => 0 | SingleDerivedPath.Built d _ => S (depth d) end.

Lemma below_depth k' k : below k' k -> depth k < depth k'.
Proof. induction k' as [|d IH o]; simpl; [done|]. intros [->|H%IH]; lia. Qed.

#[export] Instance below_dec k' k : Decision (below k' k).
Proof. induction k' as [|d IH o]; simpl; apply _. Defined.

Section slots.
Context {V : Type} (dflt : V).
Abbreviation node0 := (mkChildNode dflt []).

(** The slot itself. *)
Lemma findSlot_updateSlot f k (m : DerivedPathMap V) :
  findSlot k (updateSlot dflt f k m) = Some (f (default node0 (findSlot k m))).
Proof.
  revert f. induction k as [p|d IH o]; intros f; cbn [findSlot updateSlot].
  - apply smap_lookup_insert_eq.
  - rewrite IH. cbn [node_childMap]. unfold slot_update. rewrite smap_lookup_insert_eq.
    by destruct (findSlot d m).
Qed.

(** Slots that are no relatives of it. *)
Lemma findSlot_updateSlot_other f k k' (m : DerivedPathMap V) :
  k' <> k -> ~ below k' k -> ~ below k k' -> findSlot k' (updateSlot dflt f k m) = findSlot k' m.
Proof.
  revert f k'. induction k as [p|d IH o]; intros f k' Hne Hb1 Hb2; cbn [updateSlot].
  - induction k' as [q|d' IH' o']; cbn [findSlot].
    + apply smap_lookup_insert_ne. congruence.
    + simpl in Hb1. rewrite IH'; [done|naive_solver..].
  - destruct (decide (k' = d)) as [->|Hkd]; [by destruct Hb2; left|].
    destruct (decide (below k' d)) as [Hbd|Hbd].
    2: { apply IH; [done|done|]. intros H. apply Hb2. by right. }
    revert Hne Hb1 Hb2 Hbd. clear Hkd. induction k' as [q|d' IH' o']; intros Hne Hb1 Hb2 Hbd; [done|].
    cbn [findSlot]. destruct Hbd as [->|Hbd].
    + rewrite findSlot_updateSlot. cbn [node_childMap]. unfold slot_update.
      rewrite smap_lookup_insert_ne by congruence. by destruct (findSlot d m).
    + simpl in Hb1. rewrite IH'; [done|naive_solver|naive_solver| |done].
      intros [->|H]; apply below_depth in Hbd; [lia|]. apply below_depth in H. lia.
Qed.

(** Its ancestors exist and keep their values. *)
Lemma findSlot_updateSlot_above f k k' (m : DerivedPathMap V) :
  below k k' ->
  exists n, findSlot k' (updateSlot dflt f k m) = Some n /\     node_value n = node_value (default node0 (findSlot k' m)).
Proof.
  revert f. induction k as [p|d IH o]; intros f; [done|]. intros [->|Hb]; cbn [updateSlot].
  - rewrite findSlot_updateSlot. by eexists.
  - by apply IH.
Qed.

(** Its descendants, when the update leaves the children alone. *)
Lemma findSlot_updateSlot_below f k k' (m : DerivedPathMap V) :
  (forall n, node_childMap (f n) = node_childMap n) -> below k' k ->
  findSlot k' (updateSlot dflt f k m) = findSlot k' m.
Proof.
  intros Hf. induction k' as [q|d IH o]; [done|]. cbn [findSlot]. intros [->|Hb].
  - rewrite findSlot_updateSlot, Hf. by destruct (findSlot k m).
  - by rewrite IH.
Qed.
End slots.

(** A [DerivedPathMap] is a map from derived paths to values: writing [v]
    into the slot of [k] changes the value at [k], creates slots with the
    default value for the paths [k] goes through where there are none, and
    leaves every other value as it was. *)
Theorem DerivedPathMap_write {V} (dflt v : V) k k' (m : DerivedPathMap V) :
  node_value <$> findSlot k' (updateSlot dflt (fun n => mkChildNode v (node_childMap n)) k m) =
  if bool_decide (k' = k) then Some v
  else match findSlot k' m with
       | Some n => Some (node_value n)
       | None => if bool_decide (below k k') then Some dflt else None
       end.
Proof.
  case_bool_decide as Hk; [subst; by rewrite findSlot_updateSlot|].
  destruct (decide (below k k')) as [Hb|Hb].
  { rewrite bool_decide_true by done.
    destruct (findSlot_updateSlot_above dflt (fun n => mkChildNode v (node_childMap n)) k k' m Hb) as (n & -> & Hn).
    cbn. rewrite Hn. by destruct (findSlot k' m). }
  rewrite bool_decide_false by done.
  destruct (decide (below k' k)) as [Hb'|Hb'].
  - rewrite findSlot_updateSlot_below by done. by destruct (findSlot k' m).
  - rewrite findSlot_updateSlot_other by done. by destruct (findSlot k' m).
Qed.
