(* ===== verification/Derivations.v ===== *)
(** * Derivations and their ATerm form (libstore/derivations.cc, derivations.hh)

    The abstract syntax of derivations, the classification of derivations by
    their outputs, and the parser and printer of [.drv] files. *)

From S2P Require Import Prelude.
From S2P Require Import Containers.
From S2P Require Import Strings.
From S2P Require Import Hash.
From S2P Require Import CanonPath.
From S2P Require Import StorePath.
From S2P Require Import ContentAddress.
From S2P Require Import DerivedPath.

(** ** Abstract syntax *)

Module DerivationOutput.
Inductive t :=
| InputAddressed (path : StorePath)
| CAFixed (ca : ContentAddress)
| CAFloating (method : ContentAddressMethod) (hashAlgo : HashAlgorithm)
| Deferred
| Impure (method : ContentAddressMethod) (hashAlgo : HashAlgorithm).
#[export] Instance eq_dec : EqDecision t.
Proof. solve_decision. Defined.
End DerivationOutput.
Abbreviation DerivationOutput := DerivationOutput.t.
Export (hints) DerivationOutput.

Module DerivationType.
Inductive t :=
| InputAddressed (deferred : bool)
| ContentAddressed (sandboxed fixed : bool)
| Impure.
End DerivationType.
Abbreviation DerivationType := DerivationType.t.

Abbreviation InputNode := (ChildNode (list bytes)).

Record BasicDerivation := mkBasicDerivation {
  outputs : list (bytes * DerivationOutput);
  inputSrcs : list StorePath;
  platform : bytes;
  builder : bytes;
  args : list bytes;
  env : list (bytes * bytes);
  drv_name : bytes;
}.

Record Derivation := mkDerivation {
  basic : BasicDerivation;
  inputDrvs : DerivedPathMap (list bytes);
}.
Coercion basic : Derivation >-> BasicDerivation.

(** ** Output types *)

Definition isCA (t : DerivationType) : bool :=
  match t with
  | DerivationType.InputAddressed _ => false
  | DerivationType.ContentAddressed _ _ => true
  | DerivationType.Impure => true
  end.

Definition isFixed (t : DerivationType) : bool :=
  match t with
  | DerivationType.InputAddressed _ => false
  | DerivationType.ContentAddressed _ fixed => fixed
  | DerivationType.Impure => false
  end.

Definition hasKnownOutputPaths (t : DerivationType) : bool :=
  match t with
  | DerivationType.InputAddressed deferred => negb deferred
  | DerivationType.ContentAddressed _ fixed => fixed
  | DerivationType.Impure => false
  end.

Definition isSandboxed (t : DerivationType) : bool :=
  match t with
  | DerivationType.InputAddressed _ => true
  | DerivationType.ContentAddressed sandboxed _ => sandboxed
  | DerivationType.Impure => false
  end.

Definition isImpure (t : DerivationType) : bool :=
  match t with
  | DerivationType.InputAddressed _ => false
  | DerivationType.ContentAddressed _ _ => false
  | DerivationType.Impure => true
  end.

Definition isBuiltin (d : BasicDerivation) : bool := bool_decide (take 8 (builder d) = L "builtin:").

Section paths.
Context `{Digest} (xp : xpSettings) (storeDir : bytes).

Definition CAFixed_path (ca : ContentAddress) (drvName outputName : bytes) : result StorePath :=
  makeFixedOutputPathFromCA xp storeDir (outputPathName drvName outputName) (withoutRefs ca).

Definition DerivationOutput_path (o : DerivationOutput) (drvName outputName : bytes) :
    result (option StorePath) :=
  match o with
  | DerivationOutput.InputAddressed path => Ok (Some path)
  | DerivationOutput.CAFixed ca => let* p := CAFixed_path ca drvName outputName in Ok (Some p)
  | DerivationOutput.CAFloating _ _ => Ok None
  | DerivationOutput.Deferred => Ok None
  | DerivationOutput.Impure _ _ => Ok None
  end.

Definition outputNames (d : BasicDerivation) : list bytes := sset_of_list (fst <$> outputs d).

Definition outputsAndOptPaths (d : BasicDerivation) :
    result (list (bytes * (DerivationOutput * option StorePath))) :=
  let* l := rmapM (fun '(outputName, output) =>
              let* p := DerivationOutput_path output (drv_name d) outputName in
              Ok (outputName, (output, p))) (outputs d) in
  Ok (foldl (fun m kv => smap_emplace kv.1 kv.2 m) [] l).
End paths.

Definition nameFromPath (drvPath : StorePath) : result bytes :=
  requireDerivation drvPath ;;;
  let nameWithSuffix := sp_name drvPath in
  Ok (take (length nameWithSuffix - length drvExtension) nameWithSuffix).

(** The five sets [BasicDerivation::type()] sorts the output names into, and
    [floatingHashAlgo]. *)
Record output_sets := mkOutputSets {
  inputAddressedOutputs : list bytes;
  fixedCAOutputs : list bytes;
  floatingCAOutputs : list bytes;
  deferredIAOutputs : list bytes;
  impureOutputs : list bytes;
  floatingHashAlgo : option HashAlgorithm;
}.

Definition classify (s : output_sets) (i : bytes * DerivationOutput) : result output_sets :=
  let '(mkOutputSets ia fixed floating deferred impure algo) := s in
  match i.2 with
  | DerivationOutput.InputAddressed _ => Ok (mkOutputSets (sset_insert i.1 ia) fixed floating deferred impure algo)
  | DerivationOutput.CAFixed _ => Ok (mkOutputSets ia (sset_insert i.1 fixed) floating deferred impure algo)
  | DerivationOutput.CAFloating _ ha =>
      let floating := sset_insert i.1 floating in
      match algo with
      | None => Ok (mkOutputSets ia fixed floating deferred impure (Some ha))
      | Some a => if bool_decide (a <> ha) then throw Error
                  else Ok (mkOutputSets ia fixed floating deferred impure algo)
      end
  | DerivationOutput.Deferred => Ok (mkOutputSets ia fixed floating (sset_insert i.1 deferred) impure algo)
  | DerivationOutput.Impure _ _ => Ok (mkOutputSets ia fixed floating deferred (sset_insert i.1 impure) algo)
  end.

Fixpoint classify_all (s : output_sets) (l : list (bytes * DerivationOutput)) : result output_sets :=
  match l with
  | [] => Ok s
  | i :: l => let* s := classify s i in classify_all s l
  end.

Definition is_empty {A} (l : list A) : bool := match l with [] => true | _ => false end.

Definition drv_type (d : BasicDerivation) : result DerivationType :=
  let* s := classify_all (mkOutputSets [] [] [] [] [] None) (outputs d) in
  let '(mkOutputSets ia fixed floating deferred impure _) := s in
  if is_empty ia && is_empty fixed && is_empty floating && is_empty deferred && is_empty impure
  then throw Error
  else if negb (is_empty ia) && is_empty fixed && is_empty floating && is_empty deferred && is_empty impure
  then Ok (DerivationType.InputAddressed false)
  else if is_empty ia && negb (is_empty fixed) && is_empty floating && is_empty deferred && is_empty impure
  then
    if 1 <? length fixed then throw Error
    else if negb (bool_decide (head fixed = Some (L "out"))) then throw Error
    else Ok (DerivationType.ContentAddressed false true)
  else if is_empty ia && is_empty fixed && negb (is_empty floating) && is_empty deferred && is_empty impure
  then Ok (DerivationType.ContentAddressed true false)
  else if is_empty ia && is_empty fixed && is_empty floating && negb (is_empty deferred) && is_empty impure
  then Ok (DerivationType.InputAddressed true)
  else if is_empty ia && is_empty fixed && is_empty floating && is_empty deferred && negb (is_empty impure)
  then Ok DerivationType.Impure
  else throw Error.

(** ** Parsing ATerms

    A [StringViewStream] is its [remaining] view. *)

Definition parser (A : Type) : Type := bytes -> result (A * bytes).

Definition expect (s : bytes) (str : bytes) : result bytes :=
  if starts_with str s then Ok (drop (length s) str) else throw FormatError.

(** The loop that finds the end of a string literal: [n] characters are read,
    [escaped] says whether a backslash was among them. *)
Fixpoint scan_string (s : bytes) (n : nat) (escaped : bool) : result (nat * bool) :=
  match s with
  | [] => Ok (n, escaped)
  | c :: s' =>
      if char_eqb c dquote then Ok (n, escaped)
      else if char_eqb c backslash then
        match s' with
        | [] => throw FormatError
        | _ :: s'' => scan_string s'' (n + 2) true
        end
      else scan_string s' (n + 1) escaped
  end.

(** The [escapes] table. *)
Definition escapes (c : ascii) : ascii :=
  if char_eqb c "n" then newline
  else if char_eqb c "r" then carriage
  else if char_eqb c "t" then tabulator
  else c.

Fixpoint unescape (content : bytes) : result bytes :=
  match content with
  | [] => Ok []
  | c :: content =>
      if char_eqb c backslash then
        match content with
        | [] => Err UndefinedBehaviour
        | d :: content => let* res := unescape content in Ok (escapes d :: res)
        end
      else let* res := unescape content in Ok (c :: res)
  end.

(** [remove_prefix(contentLen + 1)] is undefined when the closing quote is
    missing. *)
Definition parseString : parser bytes := fun str =>
  let* str := expect [dquote] str in
  let* (contentLen, escaped) := scan_string str 0 false in
  if length str <? contentLen + 1 then Err UndefinedBehaviour
  else
    let content := take contentLen str in
    let str := drop (contentLen + 1) str in
    if negb escaped then Ok (content, str)
    else let* res := unescape content in Ok (res, str).

Definition validatePath (s : bytes) : result unit :=
  match s with
  | c :: _ => if char_eqb c slash then Ok tt else throw FormatError
  | [] => throw FormatError
  end.

Definition parsePath : parser bytes := fun str =>
  let* (s, str) := parseString str in
  validatePath s ;;; Ok (s, str).

Definition endOfList (str : bytes) : bool * bytes :=
  match str with
  | ","%char :: str => (false, str)
  | "]"%char :: str => (true, str)
  | _ => (false, str)
  end.

(** [while (!endOfList(str)) elem], threading an accumulator. *)
Fixpoint parse_list {A} (elem : A -> parser A) (fuel : nat) (acc : A) (str : bytes) : result (A * bytes) :=
  match fuel with
  | O => Err OutOfFuel
  | S fuel =>
      let '(e, str) := endOfList str in
      if e : bool then Ok (acc, str)
      else let* (acc, str) := elem acc str in parse_list elem fuel acc str
  end.
(** Each iteration consumes a character. *)
Definition while_list {A} (elem : A -> parser A) (acc : A) : parser A := fun str =>
  parse_list elem (S (length str)) acc str.

Definition parseStrings (arePaths : bool) : parser (list bytes) := fun str =>
  let* str := expect (L "[") str in
  while_list (fun res str =>
    let* (s, str) := (if arePaths then parsePath else parseString) str in
    Ok (sset_insert s res, str)) [] str.

Inductive DerivationATermVersion := Traditional | DynamicDerivations_.

Definition parseNonDynamic : parser InputNode := fun str =>
  let* (value, str) := parseStrings false str in Ok (mkChildNode value [], str).

Fixpoint parseDerivedPathMapNode (fuel : nat) (version : DerivationATermVersion) (str : bytes) :
    result (InputNode * bytes) :=
  match fuel with
  | O => Err OutOfFuel
  | S fuel =>
      match version with
      | Traditional => parseNonDynamic str
      | DynamicDerivations_ =>
          match head str with
          | Some "["%char => parseNonDynamic str
          | Some "("%char =>
              let* str := expect (L "(") str in
              let* (value, str) := parseStrings false str in
              let* str := expect (L ",[") str in
              let* (childMap, str) := while_list (fun childMap str =>
                let* str := expect (L "(") str in
                let* (outputName, str) := parseString str in
                let* str := expect (L ",") str in
                let* (node, str) := parseDerivedPathMapNode fuel version str in
                let* str := expect (L ")") str in
                Ok (smap_insert outputName node childMap, str)) [] str in
              let* str := expect (L ")") str in
              Ok (mkChildNode value childMap, str)
          | _ => throw FormatError
          end
      end
  end.

Section parse.
Context (storeDir : bytes) (xp : xpSettings).

Definition parseDerivationOutput (pathS hashAlgoStr hashS : bytes) : result DerivationOutput :=
  if negb (bool_decide (hashAlgoStr = [])) then
    let* (method, hashAlgoStr) := caMethod_parsePrefix xp hashAlgoStr in
    (if bool_decide (method = ContentAddressMethod.Text) then require xp DynamicDerivations else Ok tt) ;;;
    let* hashAlgo := parseHashAlgo hashAlgoStr in
    if bool_decide (hashS = L "impure") then
      require xp ImpureDerivations ;;;
      if negb (bool_decide (pathS = [])) then throw FormatError
      else Ok (DerivationOutput.Impure method hashAlgo)
    else if negb (bool_decide (hashS = [])) then
      validatePath pathS ;;;
      let* h := parseNonSRIUnprefixed xp hashS hashAlgo in
      Ok (DerivationOutput.CAFixed (mkContentAddress method h))
    else
      require xp CaDerivations ;;;
      if negb (bool_decide (pathS = [])) then throw FormatError
      else Ok (DerivationOutput.CAFloating method hashAlgo)
  else if bool_decide (pathS = []) then Ok DerivationOutput.Deferred
  else
    validatePath pathS ;;;
    let* p := parseStorePath storeDir pathS in
    Ok (DerivationOutput.InputAddressed p).

Definition parseDerivationOutput_str : parser DerivationOutput := fun str =>
  let* str := expect (L ",") str in
  let* (pathS, str) := parseString str in
  let* str := expect (L ",") str in
  let* (hashAlgo, str) := parseString str in
  let* str := expect (L ",") str in
  let* (hash, str) := parseString str in
  let* str := expect (L ")") str in
  let* o := parseDerivationOutput pathS hashAlgo hash in
  Ok (o, str).

Definition parse_output (m : list (bytes * DerivationOutput)) : parser (list (bytes * DerivationOutput)) :=
  fun str =>
    let* str := expect (L "(") str in
    let* (id, str) := parseString str in
    let* (output, str) := parseDerivationOutput_str str in
    Ok (smap_emplace id output m, str).

Definition parse_inputDrv (version : DerivationATermVersion) (m : DerivedPathMap (list bytes)) :
    parser (DerivedPathMap (list bytes)) := fun str =>
  let* str := expect (L "(") str in
  let* (drvPath, str) := parsePath str in
  let* str := expect (L ",") str in
  let* p := parseStorePath storeDir drvPath in
  let* (node, str) := parseDerivedPathMapNode (S (length str)) version str in
  let* str := expect (L ")") str in
  Ok (smap_insert p node m, str).

Definition parse_arg (l : list bytes) : parser (list bytes) := fun str =>
  let* (s, str) := parseString str in Ok (l ++ [s], str).

Definition parse_env (m : list (bytes * bytes)) : parser (list (bytes * bytes)) := fun str =>
  let* str := expect (L "(") str in
  let* (name, str) := parseString str in
  let* str := expect (L ",") str in
  let* (value, str) := parseString str in
  let* str := expect (L ")") str in
  Ok (smap_insert name value m, str).

Definition parse_version : parser DerivationATermVersion := fun str =>
  let* str := expect (L "D") str in
  match head str with
  | Some "e"%char => let* str := expect (L "erive(") str in Ok (Traditional, str)
  | Some "r"%char =>
      let* str := expect (L "rvWithVersion(") str in
      let* (versionS, str) := parseString str in
      (if bool_decide (versionS = L "xp-dyn-drv") then require xp DynamicDerivations
       else throw FormatError) ;;;
      let* str := expect (L ",") str in
      Ok (DynamicDerivations_, str)
  | _ => throw Error
  end.

(** What follows the closing parenthesis is ignored. *)
Definition parseDerivation (s name : bytes) : result Derivation :=
  let* (version, str) := parse_version s in
  let* str := expect (L "[") str in
  let* (outs, str) := while_list parse_output [] str in
  let* str := expect (L ",[") str in
  let* (inputs, str) := while_list (parse_inputDrv version) [] str in
  let* str := expect (L ",") str in
  let* (srcs, str) := parseStrings true str in
  let* srcs := parseStorePathSet storeDir srcs in
  let* str := expect (L ",") str in
  let* (plat, str) := parseString str in
  let* str := expect (L ",") str in
  let* (bld, str) := parseString str in
  let* str := expect (L ",[") str in
  let* (arguments, str) := while_list parse_arg [] str in
  let* str := expect (L ",[") str in
  let* (environ, str) := while_list parse_env [] str in
  let* str := expect (L ")") str in
  Ok (mkDerivation (mkBasicDerivation outs srcs plat bld arguments environ name) inputs).
End parse.

(** ** Printing ATerms *)

Definition escape_char (c : ascii) : bytes :=
  if char_eqb c dquote || char_eqb c backslash then [backslash; c]
  else if char_eqb c newline then [backslash; "n"%char]
  else if char_eqb c carriage then [backslash; "r"%char]
  else if char_eqb c tabulator then [backslash; "t"%char]
  else [c].

Definition printString (s : bytes) : bytes := [dquote] ++ (s ≫= escape_char) ++ [dquote].
Definition printUnquotedString (s : bytes) : bytes := [dquote] ++ s ++ [dquote].

(** The elements separated by commas, between brackets. *)
Definition print_list (elems : list bytes) : bytes := L "[" ++ concatStringsSep (L ",") elems ++ L "]".
Definition printStrings (l : list bytes) : bytes := print_list (printString <$> l).
Definition printUnquotedStrings (l : list bytes) : bytes := print_list (printUnquotedString <$> l).

Fixpoint unparseDerivedPathMapNode (node : InputNode) : bytes :=
  let 'mkChildNode value childMap := node in
  L "," ++
  match childMap with
  | [] => printUnquotedStrings value
  | _ =>
      L "(" ++ printUnquotedStrings value ++ L "," ++
      print_list ((fun kv => L "(" ++ printUnquotedString kv.1 ++ unparseDerivedPathMapNode kv.2 ++ L ")")
                  <$> childMap) ++ L ")"
  end.

Definition hasDynamicDrvDep (d : Derivation) : bool :=
  existsb (fun kv => negb (is_empty (node_childMap kv.2))) (inputDrvs d).

Section unparse.
Context `{Digest} (xp : xpSettings) (storeDir : bytes).

(** The three strings describing an output. *)
Definition output_strings (maskOutputs : bool) (drvName outputName : bytes) (o : DerivationOutput) :
    result (bytes * bytes * bytes) :=
  match o with
  | DerivationOutput.InputAddressed path =>
      Ok (if maskOutputs then [] else printStorePath storeDir path, [], [])
  | DerivationOutput.CAFixed ca =>
      let* p := (if maskOutputs then Ok []
                 else let* p := CAFixed_path xp storeDir ca drvName outputName in
                      Ok (printStorePath storeDir p)) in
      let* ma := printMethodAlgo xp ca in
      let* h := to_string (ca_hash ca) Base16 false in
      Ok (p, ma, h)
  | DerivationOutput.CAFloating method hashAlgo =>
      let* p := caMethod_renderPrefix xp method in Ok ([], p ++ printHashAlgo hashAlgo, [])
  | DerivationOutput.Deferred => Ok ([], [], [])
  | DerivationOutput.Impure method hashAlgo =>
      let* p := caMethod_renderPrefix xp method in Ok ([], p ++ printHashAlgo hashAlgo, L "impure")
  end.

Definition unparse_output (maskOutputs : bool) (drvName : bytes) (i : bytes * DerivationOutput) :
    result bytes :=
  let* (ph, hs) := output_strings maskOutputs drvName i.1 i.2 in
  Ok (L "(" ++ printUnquotedString i.1 ++ L "," ++ printUnquotedString ph.1 ++ L "," ++
      printUnquotedString ph.2 ++ L "," ++ printUnquotedString hs ++ L ")").

Definition unparse_input (key : bytes) (node : InputNode) : bytes :=
  L "(" ++ printUnquotedString key ++ unparseDerivedPathMapNode node ++ L ")".

Definition unparse_env (maskOutputs : bool) (outs : list (bytes * DerivationOutput)) (i : bytes * bytes) : bytes :=
  L "(" ++ printString i.1 ++ L "," ++
  printString (if maskOutputs && bool_decide (is_Some (smap_lookup i.1 outs)) then [] else i.2) ++ L ")".

(** [actualInputs], when given, replaces the input derivations. *)
Definition unparse (d : Derivation) (maskOutputs : bool) (actualInputs : option (list (bytes * InputNode))) :
    result bytes :=
  let* outs := rmapM (unparse_output maskOutputs (drv_name d)) (outputs d) in
  Ok ((if hasDynamicDrvDep d
       then L "DrvWithVersion(" ++ printUnquotedString (L "xp-dyn-drv") ++ L ","
       else L "Derive(") ++
      print_list outs ++ L "," ++
      print_list (match actualInputs with
                  | Some inputs => (fun kv => unparse_input kv.1 kv.2) <$> inputs
                  | None => (fun kv => unparse_input (printStorePath storeDir kv.1) kv.2) <$> inputDrvs d
                  end) ++ L "," ++
      printUnquotedStrings (printStorePathSet storeDir (inputSrcs d)) ++ L "," ++
      printUnquotedString (platform d) ++ L "," ++
      printString (builder d) ++ L "," ++
      printStrings (args d) ++ L "," ++
      print_list (unparse_env maskOutputs (outputs d) <$> env d) ++ L ")").
End unparse.

(** ** The type of a derivation *)

Inductive output_kind := KInputAddressed | KFixed | KFloating | KDeferred | KImpure.
#[export] Instance output_kind_eq_dec : EqDecision output_kind.
Proof. solve_decision. Defined.

Definition kind_of (o : DerivationOutput) : output_kind :=
  match o with
  | DerivationOutput.InputAddressed _ => KInputAddressed
  | DerivationOutput.CAFixed _ => KFixed
  | DerivationOutput.CAFloating _ _ => KFloating
  | DerivationOutput.Deferred => KDeferred
  | DerivationOutput.Impure _ _ => KImpure
  end.

Definition get_set (k : output_kind) (s : output_sets) : list bytes :=
  match k with
  | KInputAddressed => inputAddressedOutputs s
  | KFixed => fixedCAOutputs s
  | KFloating => floatingCAOutputs s
  | KDeferred => deferredIAOutputs s
  | KImpure => impureOutputs s
  end.

Definition names_of (k : output_kind) (l : list (bytes * DerivationOutput)) : list bytes :=
  fst <$> filter (fun i => kind_of i.2 = k) l.

(** All floating outputs use the algorithm [a], if there is one already. *)
Definition floating_agree (a : option HashAlgorithm) (l : list (bytes * DerivationOutput)) : Prop :=
  exists b, Forall (fun i => match i.2 with DerivationOutput.CAFloating _ c => c = b | _ => True end) l /\
    match a with Some c => c = b | None => True end.

Lemma classify_Ok s i s' :
  classify s i = Ok s' ->
  forall k, get_set k s' = if bool_decide (kind_of i.2 = k) then sset_insert i.1 (get_set k s) else get_set k s.
Proof.
  destruct s, i as [n o]. unfold classify. cbn [fst snd]. intros H k.
  destruct o; cbn in H; repeat case_match; inv_result; destruct k; done.
Qed.

Lemma classify_all_sets s l s' :
  classify_all s l = Ok s' -> forall k, get_set k s' = sset_union (get_set k s) (names_of k l).
Proof.
  revert s. induction l as [|i l IH]; intros s; cbn [classify_all]; [by intros [= <-]|].
  intros H k. apply rbind_Ok in H as (s1 & H1 & H). rewrite (IH _ H k), (classify_Ok _ _ _ H1 k).
  unfold names_of. case_bool_decide; [by rewrite filter_cons_True|by rewrite filter_cons_False].
Qed.

Lemma classify_all_agree s l :
  (exists s', classify_all s l = Ok s') <-> floating_agree (floatingHashAlgo s) l.
Proof.
  revert s. induction l as [|[n o] l IH]; intros s; cbn [classify_all].
  { split; [|eauto]. intros _. exists (default MD5 (floatingHashAlgo s)). split; [constructor|by destruct (floatingHashAlgo s)]. }
  assert (forall s1, classify s (n, o) = Ok s1 ->
    ((exists s', rbind (classify s (n, o)) (fun s => classify_all s l) = Ok s') <->
     floating_agree (floatingHashAlgo s1) l)) as Hstep by (intros s1 ->; apply IH).
  destruct s as [ia fx fl de im al].
  assert ((forall m a, o <> DerivationOutput.CAFloating m a) ->
    floating_agree al ((n, o) :: l) <-> floating_agree al l) as Hother.
  { intros Hno. unfold floating_agree. setoid_rewrite Forall_cons. cbn [snd].
    split; intros (b & Hb & Ha); exists b; (split; [|done]); [apply Hb|split; [|done]].
    destruct o; try done. by destruct (Hno method hashAlgo). }
  cbn [floatingHashAlgo] in *. destruct o as [p|ca|m a| |m a].
  1,2,4,5: (rewrite Hstep by reflexivity; cbn [floatingHashAlgo]; symmetry; by apply Hother).
  unfold classify in *. cbn [snd fst] in *. destruct al as [c|].
  - case_bool_decide as Hc.
    + split; [by intros [? ?]|]. intros (b & Hb%Forall_inv & <-). cbn in Hb. congruence.
    + subst c. rewrite Hstep by reflexivity. cbn [floatingHashAlgo]. unfold floating_agree.
      setoid_rewrite Forall_cons. cbn [snd]. naive_solver.
  - rewrite Hstep by reflexivity. cbn [floatingHashAlgo]. unfold floating_agree.
    setoid_rewrite Forall_cons. cbn [snd]. naive_solver.
Qed.

Lemma classify_all_error s l f : classify_all s l = Err f -> f = Throw Error.
Proof.
  revert s. induction l as [|i l IH]; intros s; cbn [classify_all]; [done|].
  destruct (classify s i) as [s1|g] eqn:E; cbn [rbind]; [by apply IH|]. intros [= <-].
  destruct s, i as [n o]. unfold classify, throw in E. cbn in E. repeat case_match; congruence.
Qed.

(** The kind of output each type of derivation stands for. *)
Definition type_kind (t : DerivationType) : option output_kind :=
  match t with
  | DerivationType.InputAddressed false => Some KInputAddressed
  | DerivationType.InputAddressed true => Some KDeferred
  | DerivationType.ContentAddressed false true => Some KFixed
  | DerivationType.ContentAddressed true false => Some KFloating
  | DerivationType.ContentAddressed _ _ => None
  | DerivationType.Impure => Some KImpure
  end.

Definition has_kind (k : output_kind) (l : list (bytes * DerivationOutput)) : bool :=
  existsb (fun i => bool_decide (kind_of i.2 = k)) l.

Lemma is_empty_names k l : is_empty (sset_of_list (names_of k l)) = negb (has_kind k l).
Proof.
  apply eq_true_iff_eq. rewrite negb_true_iff. unfold has_kind.
  rewrite <- not_true_iff_false, existsb_exists. split.
  - intros He (i & Hi & Hk%bool_decide_eq_true). apply list_elem_of_In in Hi.
    assert (i.1 ∈ sset_of_list (names_of k l)) as Hin.
    { apply sset_of_list_elem, list_elem_of_fmap. exists i. split; [done|]. by apply list_elem_of_filter. }
    destruct (sset_of_list (names_of k l)); [by apply not_elem_of_nil in Hin|done].
  - intros H. destruct (sset_of_list (names_of k l)) as [|n ns] eqn:E; [done|]. exfalso. apply H.
    assert (n ∈ names_of k l) as Hin by (apply sset_of_list_elem; rewrite E; by left).
    apply list_elem_of_fmap in Hin as (i & -> & Hi). apply list_elem_of_filter in Hi as [Hk Hi].
    exists i. split; [by apply list_elem_of_In|by apply bool_decide_eq_true].
Qed.

Lemma has_kind_only k l :
  l <> [] -> (forall k', k' <> k -> has_kind k' l = false) <-> Forall (fun i => kind_of i.2 = k) l.
Proof.
  intros _. rewrite Forall_forall. unfold has_kind. split.
  - intros H i Hi. destruct (decide (kind_of i.2 = k)) as [|Hk]; [done|]. specialize (H _ Hk).
    rewrite <- not_true_iff_false, existsb_exists in H. exfalso. apply H. exists i.
    split; [by apply list_elem_of_In|by apply bool_decide_eq_true].
  - intros H k' Hk. rewrite <- not_true_iff_false, existsb_exists. intros (i & Hi & Hki%bool_decide_eq_true).
    apply list_elem_of_In in Hi. rewrite (H _ Hi) in Hki. congruence.
Qed.

Lemma names_of_all k l : Forall (fun i => kind_of i.2 = k) l -> names_of k l = fst <$> l.
Proof.
  unfold names_of. induction 1 as [|i l Hi Hl IH]; [done|]. rewrite filter_cons_True by done.
  rewrite !fmap_cons. by f_equal.
Qed.

(** The only kind among the outputs, if there is exactly one. *)
Definition sole_kind (l : list (bytes * DerivationOutput)) : option output_kind :=
  match filter (fun k => has_kind k l = true) [KInputAddressed; KFixed; KFloating; KDeferred; KImpure] with
  | [k] => Some k
  | _ => None
  end.

Lemma sole_kind_spec l k :
  sole_kind l = Some k <-> l <> [] /\ Forall (fun i => kind_of i.2 = k) l.
Proof.
  assert (Forall (fun i => kind_of i.2 = k) l <-> forall k', k' <> k -> has_kind k' l = false) as Honly.
  { destruct l; [|symmetry; by apply has_kind_only]. split; [done|constructor]. }
  assert (l <> [] -> exists k', has_kind k' l = true) as Hsome.
  { destruct l as [|i l]; [done|]. intros _. exists (kind_of i.2). cbn. by rewrite bool_decide_true. }
  rewrite Honly. unfold sole_kind. split.
  - intros H. split; [by intros ->|]. intros k' Hk'. rewrite !filter_cons in H.
    destruct (has_kind KInputAddressed l) eqn:E1, (has_kind KFixed l) eqn:E2, (has_kind KFloating l) eqn:E3,
      (has_kind KDeferred l) eqn:E4, (has_kind KImpure l) eqn:E5; vm_compute in H; simplify_eq; destruct k'; congruence.
  - intros [[k' Hk']%Hsome H]. assert (k' = k) as ->.
    { destruct (decide (k' = k)) as [|Hne]; [done|]. rewrite H in Hk' by done. done. }
    rewrite !filter_cons.
    destruct k; rewrite Hk', ?(H KInputAddressed), ?(H KFixed), ?(H KFloating), ?(H KDeferred), ?(H KImpure)
      by done; done.
Qed.

(** The type for a kind, [fixed] being the names of the fixed outputs. *)
Definition type_for (k : output_kind) (fixed : list bytes) : result DerivationType :=
  match k with
  | KInputAddressed => Ok (DerivationType.InputAddressed false)
  | KFixed =>
      if 1 <? length fixed then throw Error
      else if negb (bool_decide (head fixed = Some (L "out"))) then throw Error
      else Ok (DerivationType.ContentAddressed false true)
  | KFloating => Ok (DerivationType.ContentAddressed true false)
  | KDeferred => Ok (DerivationType.InputAddressed true)
  | KImpure => Ok DerivationType.Impure
  end.

(** The chain of tests in [drv_type] picks the only kind. *)
Lemma drv_type_sole d :
  smap_wf (outputs d) -> floating_agree None (outputs d) ->
  drv_type d = match sole_kind (outputs d) with
               | Some k => type_for k (fst <$> outputs d)
               | None => throw Error
               end.
Proof.
  intros Hwf Hag. apply (classify_all_agree (mkOutputSets [] [] [] [] [] None)) in Hag as [s Hs].
  unfold drv_type. rewrite Hs. cbn [rbind]. pose proof (classify_all_sets _ _ _ Hs) as Hsets.
  assert (forall k, is_empty (get_set k s) = negb (has_kind k (outputs d))) as Hemp.
  { intros k. rewrite Hsets, <- is_empty_names. by destruct k. }
  pose proof (Hemp KInputAddressed) as H1. pose proof (Hemp KFixed) as H2. pose proof (Hemp KFloating) as H3.
  pose proof (Hemp KDeferred) as H4. pose proof (Hemp KImpure) as H5.
  assert (sole_kind (outputs d) = Some KFixed -> fixedCAOutputs s = fst <$> outputs d) as Hfix.
  { intros [_ Hall]%sole_kind_spec. change (fixedCAOutputs s) with (get_set KFixed s). rewrite (Hsets KFixed), (names_of_all KFixed) by done.
    by apply sset_of_list_sorted. }
  destruct s as [ia fx fl de im al]. cbn [get_set inputAddressedOutputs fixedCAOutputs
    floatingCAOutputs deferredIAOutputs impureOutputs] in *. rewrite H1, H2, H3, H4, H5.
  unfold sole_kind in *. rewrite !filter_cons in *.
  destruct (has_kind KInputAddressed (outputs d)), (has_kind KFixed (outputs d)), (has_kind KFloating (outputs d)),
    (has_kind KDeferred (outputs d)), (has_kind KImpure (outputs d)); try reflexivity.
  cbn in Hfix |- *. by rewrite Hfix.
Qed.

(** [BasicDerivation::type()] accepts exactly the derivations with at
    least one output whose outputs are all of one kind, a fixed output being
    the only one and named [out], and floating outputs sharing one hash
    algorithm; the kind determines the type. Everything else is an [Error]. *)
Theorem drv_type_spec d :
  smap_wf (outputs d) ->
  (forall t, drv_type d = Ok t <->
     outputs d <> [] /\ (exists k, type_kind t = Some k /\ Forall (fun i => kind_of i.2 = k) (outputs d)) /\
     (isFixed t = true -> fst <$> outputs d = [L "out"]) /\ floating_agree None (outputs d))
  /\ (forall f, drv_type d = Err f -> f = Throw Error).
Proof.
  intros Hwf. destruct (classify_all (mkOutputSets [] [] [] [] [] None) (outputs d)) as [s|f] eqn:E.
  - assert (floating_agree None (outputs d)) as Hag
      by (apply (classify_all_agree (mkOutputSets [] [] [] [] [] None)); eauto).
    rewrite drv_type_sole by done. split.
    + intros t. destruct (sole_kind (outputs d)) as [k|] eqn:Ek.
      * pose proof Ek as [Hne Hall]%sole_kind_spec. split.
        -- intros Ht. split; [done|].
           destruct k; cbn in Ht; inv_result;
             try (split; [eexists; by split|]; by split).
           destruct (fst <$> outputs d) as [|a [|b l]] eqn:Ef; [done| |done]. cbn in Ht.
           case_bool_decide as Ha; [|done]. cbn in Ht. inv_result. injection Ha as ->. split; [eexists; by split|done].
        -- intros (_ & (k' & Hk' & Hall') & Hfix & _).
           assert (k' = k) as -> by (assert (sole_kind (outputs d) = Some k')
             by (by apply sole_kind_spec); congruence).
           destruct t as [[]|[] []|]; cbn in Hk'; simplify_eq/=; try done. by rewrite Hfix.
      * split; [done|]. intros (Hne & (k & _ & Hall) & _). exfalso.
        assert (sole_kind (outputs d) = Some k) by (by apply sole_kind_spec). congruence.
    + intros f. unfold type_for, throw. repeat case_match; congruence.
  - unfold drv_type. rewrite E. pose proof (classify_all_error _ _ _ E) as ->.
    split; [|by intros f [= <-]]. intros t. split; [done|]. intros (_ & _ & _ & Hag).
    apply (classify_all_agree (mkOutputSets [] [] [] [] [] None)) in Hag as [s Hs]. congruence.
Qed.

Lemma drv_type_spec_witness :
  drv_type (mkBasicDerivation [(L "out", DerivationOutput.Deferred)] [] [] [] [] [] (L "foo"))
  = Ok (DerivationType.InputAddressed true).
Proof.
  apply (drv_type_spec (mkBasicDerivation [(L "out", DerivationOutput.Deferred)] [] [] [] [] [] (L "foo"))).
  - by repeat constructor.
  - split; [done|]. split; [exists KDeferred; by repeat constructor|]. split; [done|].
    exists MD5. by repeat constructor.
Defined.
