(* ===== verification/ATerm.v ===== *)
(** * Round trip of the ATerm form of derivations (libstore/derivations.cc)

    Printing a derivation and parsing the result gives the derivation back.
    The lemmas go through the grammar bottom up: string literals, lists,
    outputs, input derivations, and the whole. *)

From S2P Require Import Prelude.
From S2P Require Import Containers.
From S2P Require Import Strings.
From S2P Require Import Hash.
From S2P Require Import CanonPath.
From S2P Require Import StorePath.
From S2P Require Import ContentAddress.
From S2P Require Import DerivedPath.
From S2P Require Import Derivations.

(** ** Tokens *)

Lemma expect_app p t : expect p (p ++ t) = Ok t.
Proof. unfold expect. by rewrite starts_with_app, drop_app_length. Qed.

(** A string that needs no escaping. *)
Definition plain (s : bytes) : Prop := dquote ∉ s /\ backslash ∉ s.

Lemma plain_nil : plain [].
Proof. split; apply not_elem_of_nil. Qed.
Lemma plain_app s t : plain s -> plain t -> plain (s ++ t).
Proof. intros [? ?] [? ?]. split; set_solver. Qed.
#[local] Hint Resolve plain_nil plain_app : core.

Lemma scan_plain s rest n e :
  plain s -> scan_string (s ++ dquote :: rest) n e = Ok (n + length s, e).
Proof.
  intros [Hq Hb]. revert n. induction s as [|c s IH]; intros n; simpl.
  - by rewrite Nat.add_0_r.
  - rewrite (proj2 (char_eqb_ne c dquote)), (proj2 (char_eqb_ne c backslash)) by set_solver.
    rewrite IH by set_solver. do 2 f_equal. lia.
Qed.

Lemma parseString_plain s rest :
  plain s -> parseString (printUnquotedString s ++ rest) = Ok (s, rest).
Proof.
  intros Hs. unfold parseString, printUnquotedString. rewrite <- !app_assoc, expect_app. cbn [rbind].
  cbn [app]. rewrite scan_plain by done. cbn [rbind Nat.add].
  rewrite length_app. cbn [length]. rewrite (proj2 (Nat.ltb_ge _ _)) by lia. cbn [negb].
  by rewrite take_app_length, <- drop_drop, drop_app_length.
Qed.

(** Whether a literal contains an escape. *)
Definition needs_escape (s : bytes) : bool := existsb (fun c => negb (bool_decide (escape_char c = [c]))) s.

Lemma escape_char_cases c :
  (escape_char c = [c] /\ c <> dquote /\ c <> backslash) \/
  (exists d, escape_char c = [backslash; d] /\ escapes d = c /\ negb (bool_decide (escape_char c = [c])) = true).
Proof.
  unfold escape_char. destruct (char_eqb c dquote) eqn:E1.
  { right. apply char_eqb_eq in E1 as ->. by exists dquote. }
  destruct (char_eqb c backslash) eqn:E2.
  { right. apply char_eqb_eq in E2 as ->. by exists backslash. }
  apply char_eqb_ne in E1, E2. cbn [orb].
  destruct (char_eqb c newline) eqn:E3; [right; apply char_eqb_eq in E3 as ->; by exists "n"%char|].
  destruct (char_eqb c carriage) eqn:E4; [right; apply char_eqb_eq in E4 as ->; by exists "r"%char|].
  destruct (char_eqb c tabulator) eqn:E5; [right; apply char_eqb_eq in E5 as ->; by exists "t"%char|].
  by left.
Qed.

Lemma scan_escaped s rest n e :
  scan_string ((s ≫= escape_char) ++ dquote :: rest) n e =
  Ok (n + length (s ≫= escape_char), e || needs_escape s).
Proof.
  revert n e. induction s as [|c s IH]; intros n e.
  - simpl. by rewrite Nat.add_0_r, orb_false_r.
  - rewrite bind_cons, <- app_assoc, length_app. unfold needs_escape. cbn [existsb]. fold (needs_escape s).
    destruct (escape_char_cases c) as [(-> & Hq & Hb)|(d & -> & _ & ->)].
    + cbn [app length]. cbn [scan_string].
      rewrite (proj2 (char_eqb_ne c dquote)), (proj2 (char_eqb_ne c backslash)) by done.
      rewrite IH, (bool_decide_true ([c] = [c])) by done. cbn [negb orb]. do 2 f_equal. lia.
    + cbn [app length]. cbn [scan_string]. change (char_eqb backslash dquote) with false.
      change (char_eqb backslash backslash) with true. cbv iota.
      rewrite IH. cbn [orb]. rewrite orb_true_r. do 2 f_equal. lia.
Qed.

Lemma unescape_escape s : unescape (s ≫= escape_char) = Ok s.
Proof.
  induction s as [|c s IH]; [done|]. rewrite bind_cons.
  destruct (escape_char_cases c) as [(-> & _ & Hb)|(d & -> & Hd & _)]; cbn [app unescape].
  - rewrite (proj2 (char_eqb_ne c backslash)) by done. by rewrite IH.
  - change (char_eqb backslash backslash) with true. cbv iota. by rewrite IH, <- Hd.
Qed.

Lemma escape_none s : needs_escape s = false -> (s ≫= escape_char) = s.
Proof.
  induction s as [|c s IH]; [done|]. unfold needs_escape. cbn [existsb]. fold (needs_escape s).
  rewrite orb_false_iff, negb_false_iff, bool_decide_eq_true. intros [Hc Hs].
  rewrite bind_cons, Hc, IH by done. done.
Qed.

Lemma parseString_print s rest : parseString (printString s ++ rest) = Ok (s, rest).
Proof.
  unfold parseString, printString. rewrite <- !app_assoc, expect_app. cbn [rbind app].
  rewrite scan_escaped. cbn [rbind Nat.add orb]. rewrite length_app. cbn [length].
  rewrite (proj2 (Nat.ltb_ge _ _)) by lia.
  rewrite take_app_length, <- drop_drop, drop_app_length. cbn [drop]. rewrite drop_0.
  destruct (needs_escape s) eqn:E; cbn [negb].
  - by rewrite unescape_escape.
  - by rewrite escape_none.
Qed.

(** ** Lists *)

(** An element that [endOfList] does not take for a separator or the end. *)
Definition elem_start (s : bytes) : Prop :=
  match s with c :: _ => c <> ","%char /\ c <> "]"%char | [] => False end.

Lemma endOfList_elem s rest : elem_start s -> endOfList (s ++ rest) = (false, s ++ rest).
Proof.
  destruct s as [|c s]; [done|]. intros [H1 H2]. cbn [app endOfList].
  destruct c as [[] [] [] [] [] [] [] []]; try reflexivity; exfalso; (by apply H1) || (by apply H2).
Qed.

Section lists.
Context {A B : Type} (elem : A -> parser A) (pr : B -> bytes) (step : A -> B -> A).

(** The rest of a list, each element preceded by a comma. *)
Lemma parse_list_tail l acc rest fuel :
  (forall acc b rest, b ∈ l -> elem acc (pr b ++ rest) = Ok (step acc b, rest)) ->
  length l < fuel ->
  parse_list elem fuel acc (concat ((fun s => L "," ++ s) <$> (pr <$> l)) ++ L "]" ++ rest) =
  Ok (foldl step acc l, rest).
Proof.
  intros He. revert acc fuel. induction l as [|b l IH]; intros acc fuel Hf;
    (destruct fuel as [|fuel]; [lia|]); [done|].
  rewrite !fmap_cons. cbn [concat]. rewrite <- !app_assoc. cbn [parse_list endOfList app L].
  rewrite He by by left. cbn [rbind foldl]. apply IH; [|cbn [length] in Hf; lia].
  intros acc' b' rest' Hb'. apply He. by right.
Qed.

Lemma while_list_print l acc rest :
  (forall acc b rest, b ∈ l -> elem acc (pr b ++ rest) = Ok (step acc b, rest)) ->
  (forall b, b ∈ l -> elem_start (pr b)) ->
  while_list elem acc (concatStringsSep (L ",") (pr <$> l) ++ L "]" ++ rest) =
  Ok (foldl step acc l, rest).
Proof.
  intros He Hs. unfold while_list. destruct l as [|b l]; [done|].
  rewrite fmap_cons, concatStringsSep_cons, <- app_assoc.
  assert (length l <= length (concat ((fun s => L "," ++ s) <$> (pr <$> l)))) as Hlen.
  { clear. induction l as [|b l IH]; [done|]. rewrite !fmap_cons. cbn [concat length].
    rewrite !length_app. change (length (L ",")) with 1. lia. }
  cbn [parse_list]. rewrite endOfList_elem by (apply Hs; by left).
  rewrite He by by left. cbn [rbind foldl].
  apply parse_list_tail.
  - intros acc' b' rest' Hb'. apply He. by right.
  - rewrite !length_app. specialize (Hs b ltac:(by left)). destruct (pr b); [done|]. cbn [length]. lia.
Qed.
End lists.

Lemma expect_print_list l rest :
  expect (L "[") (print_list l ++ rest) = Ok (concatStringsSep (L ",") l ++ L "]" ++ rest).
Proof. unfold print_list. by rewrite <- !app_assoc, expect_app. Qed.

Lemma expect_comma_list l rest :
  expect (L ",[") (L "," ++ print_list l ++ rest) = Ok (concatStringsSep (L ",") l ++ L "]" ++ rest).
Proof.
  unfold print_list. rewrite <- !app_assoc.
  change (L "," ++ L "[" ++ ?x) with (L ",[" ++ x). by rewrite expect_app.
Qed.

Lemma elem_start_quote s t : elem_start (dquote :: s ++ t).
Proof. done. Qed.

(** *** Sets of strings *)

Lemma parseStrings_print arePaths l rest :
  sset_wf l -> Forall plain l -> (arePaths = true -> Forall (fun s => isAbsolute s = true) l) ->
  parseStrings arePaths (printUnquotedStrings l ++ rest) = Ok (l, rest).
Proof.
  intros Hwf Hp Ha. unfold parseStrings, printUnquotedStrings. rewrite expect_print_list. cbn [rbind].
  rewrite (while_list_print _ _ (fun acc s => sset_insert s acc)).
  - f_equal. f_equal. apply sset_of_list_sorted, Hwf.
  - intros acc s r Hs. rewrite Forall_forall in Hp. destruct arePaths.
    + unfold parsePath. rewrite parseString_plain by auto. cbn [rbind].
      specialize (Ha eq_refl). rewrite Forall_forall in Ha. specialize (Ha _ Hs).
      destruct s as [|c s]; [done|]. unfold isAbsolute in Ha. unfold validatePath. by rewrite Ha.
    + by rewrite parseString_plain by auto.
  - done.
Qed.

(** ** Input derivation nodes *)

Section node_ind.
Context {V : Type} (P : ChildNode V -> Prop).
Hypothesis step : forall v m, Forall (fun kv => P kv.2) m -> P (mkChildNode v m).

Fixpoint node_ind' (n : ChildNode V) : P n :=
  match n with
  | mkChildNode v m =>
      step v m ((fix go (l : list (bytes * ChildNode V)) : Forall (fun kv => P kv.2) l :=
        match l with
        | [] => List.Forall_nil _
        | kv :: l => List.Forall_cons _ kv l (node_ind' kv.2) (go l)
        end) m)
  end.
End node_ind.

(** Sorted sets and maps throughout, and names that need no escaping. *)
Inductive node_wf : InputNode -> Prop :=
| node_wf_intro v m :
    sset_wf v -> Forall plain v -> smap_wf m ->
    Forall (fun kv => plain kv.1 /\ node_wf kv.2) m -> node_wf (mkChildNode v m).

Fixpoint node_height (n : InputNode) : nat :=
  let 'mkChildNode _ m := n in S (list_max ((fun kv => node_height kv.2) <$> m)).

(** [unparseDerivedPathMapNode] without its leading comma. *)
Definition node_body (n : InputNode) : bytes := drop 1 (unparseDerivedPathMapNode n).
Lemma unparse_node_body n : unparseDerivedPathMapNode n = L "," ++ node_body n.
Proof. by destruct n. Qed.

Definition print_child (kv : bytes * InputNode) : bytes :=
  L "(" ++ printUnquotedString kv.1 ++ unparseDerivedPathMapNode kv.2 ++ L ")".

Lemma node_body_eq v m :
  node_body (mkChildNode v m) =
  if is_empty m then printUnquotedStrings v
  else L "(" ++ printUnquotedStrings v ++ L "," ++ print_list (print_child <$> m) ++ L ")".
Proof. by destruct m. Qed.

Lemma parse_node_print fuel node rest :
  node_wf node -> node_height node <= fuel ->
  parseDerivedPathMapNode fuel DynamicDerivations_ (node_body node ++ rest) = Ok (node, rest).
Proof.
  revert fuel rest. induction node as [v m IH] using node_ind'. intros fuel rest Hwf Hf.
  inversion Hwf as [?? Hv Hp Hm Hch]; subst. destruct fuel as [|fuel]; [cbn in Hf; lia|].
  rewrite node_body_eq. cbn [parseDerivedPathMapNode]. destruct m as [|kv m]; cbn [is_empty].
  { change (head (printUnquotedStrings v ++ rest)) with (Some "["%char). cbv iota.
    unfold parseNonDynamic. by rewrite parseStrings_print. }
  rewrite <- !app_assoc. change (head (L "(" ++ ?x)) with (Some "("%char). cbv iota.
  rewrite expect_app. cbn [rbind]. rewrite parseStrings_print by done. cbn [rbind].
  rewrite expect_comma_list. cbn [rbind].
  rewrite (while_list_print _ print_child (fun acc kv => smap_insert kv.1 kv.2 acc)).
  - cbn [rbind]. rewrite expect_app. cbn [rbind]. do 2 f_equal. f_equal. exact (smap_of_list_sorted _ Hm).
  - intros acc [k n] r Hin. rewrite Forall_forall in IH, Hch. specialize (IH _ Hin).
    specialize (Hch _ Hin) as [Hk Hn]. cbn [fst snd] in *. unfold print_child. cbn [fst snd].
    rewrite <- !app_assoc, expect_app. cbn [rbind]. rewrite parseString_plain by done. cbn [rbind].
    rewrite unparse_node_body, <- app_assoc, expect_app. cbn [rbind].
    rewrite IH; [cbn [rbind]; by rewrite expect_app|done|].
    cbn [node_height] in Hf. apply le_S_n in Hf. etransitivity; [|exact Hf].
    assert (node_height n ∈ (fun kv => node_height kv.2) <$> (kv :: m)) as Hin'
      by (apply list_elem_of_fmap; by exists (k, n)).
    pose proof (proj1 (list_max_le _ _) (le_n (list_max ((fun kv => node_height kv.2) <$> (kv :: m))))) as Hall.
    rewrite List.Forall_forall in Hall. apply Hall. by apply list_elem_of_In.
  - intros [k n] _. done.
Qed.

Lemma parse_node_traditional fuel v rest :
  sset_wf v -> Forall plain v ->
  parseDerivedPathMapNode (S fuel) Traditional (node_body (mkChildNode v []) ++ rest) = Ok (mkChildNode v [], rest).
Proof.
  intros Hv Hp. rewrite node_body_eq. cbn [parseDerivedPathMapNode is_empty]. unfold parseNonDynamic.
  by rewrite parseStrings_print.
Qed.

Lemma length_concatStringsSep_elem s l : s ∈ l -> length s <= length (concatStringsSep (L ",") l).
Proof.
  induction l as [|t l IH]; [by intros ?%not_elem_of_nil|]. destruct l as [|u l].
  - intros ->%list_elem_of_singleton. rewrite concatStringsSep_cons. cbn. rewrite app_nil_r. done.
  - rewrite concatStringsSep_cons2, !length_app. intros [->|Hin]%elem_of_cons; [lia|].
    specialize (IH Hin). lia.
Qed.

Lemma node_height_length node : node_height node <= length (node_body node).
Proof.
  induction node as [v m IH] using node_ind'. rewrite node_body_eq. cbn [node_height].
  destruct m as [|kv m]; [cbn; lia|]. cbn [is_empty]. rewrite !length_app.
  change (length (L "(")) with 1. apply le_n_S. unfold print_list. rewrite !length_app.
  transitivity (length (concatStringsSep (L ",") (print_child <$> (kv :: m)))); [|lia].
  apply list_max_le, Forall_forall. intros h (kv' & -> & Hin)%list_elem_of_fmap.
  rewrite Forall_forall in IH. specialize (IH _ Hin).
  etransitivity; [|apply length_concatStringsSep_elem, list_elem_of_fmap; exists kv'; split; [done|exact Hin]].
  unfold print_child. rewrite unparse_node_body, !length_app. lia.
Qed.

(** ** Outputs *)

Definition method_ok (xp : xpSettings) (m : ContentAddressMethod) : Prop :=
  method_enabled xp m /\ (m = ContentAddressMethod.Text -> xp DynamicDerivations = true).

(** The features an output needs are enabled, and its parts are valid. *)
Definition output_wf (xp : xpSettings) (o : DerivationOutput) : Prop :=
  match o with
  | DerivationOutput.InputAddressed p => store_path_ok p
  | DerivationOutput.CAFixed ca =>
      Hash_regular (ca_hash ca) /\ algo_enabled xp (algo (ca_hash ca)) /\ method_ok xp (ca_method ca)
  | DerivationOutput.CAFloating m _ => xp CaDerivations = true /\ method_ok xp m
  | DerivationOutput.Deferred => True
  | DerivationOutput.Impure m _ => xp ImpureDerivations = true /\ method_ok xp m
  end.

Lemma renderPrefix_parse xp m p a :
  method_enabled xp m -> caMethod_renderPrefix xp m = Ok p ->
  caMethod_parsePrefix xp (p ++ printHashAlgo a) = Ok (m, printHashAlgo a) /\
  plain (p ++ printHashAlgo a) /\ p ++ printHashAlgo a <> [].
Proof.
  intros Hm Hp. assert (plain (printHashAlgo a)) as Hpa by (apply (bool_decide_unpack _); by destruct a).
  assert (forall q : bytes, plain q -> plain (q ++ printHashAlgo a)) as Happ by auto.
  destruct m; cbn in Hp; inv_result.
  - split; [by destruct a|]. split; [done|by destruct a].
  - split; [by destruct a|]. split; [apply Happ; by apply (bool_decide_unpack _)|done].
  - split; [destruct a; vm_compute; by rewrite Hm|].
    split; [apply Happ; by apply (bool_decide_unpack _)|done].
  - split; [by destruct a|]. split; [apply Happ; by apply (bool_decide_unpack _)|done].
Qed.

Lemma hash16_plain h : plain (hash_body h Base16).
Proof.
  assert (forall c, c ∈ hash_body h Base16 -> c <> dquote /\ c <> backslash) as H.
  { intros c Hc%hash_body16_alphabet. revert c Hc. apply Forall_forall. by repeat constructor. }
  split; intros Hin; by apply H in Hin as [? ?].
Qed.

Section whole.
Context `{Digest} (storeDir : bytes) (xp : xpSettings).
Hypothesis storeDir_wf : CanonPath_wf storeDir.

Lemma printStorePath_absolute p : isAbsolute (printStorePath storeDir p) = true.
Proof. destruct storeDir_wf as ([|c cs] & _ & ->); done. Qed.

Lemma validatePath_print p : validatePath (printStorePath storeDir p) = Ok tt.
Proof.
  pose proof (printStorePath_absolute p) as Ha. unfold validatePath. destruct (printStorePath storeDir p); [done|].
  unfold isAbsolute in Ha. by rewrite Ha.
Qed.

Lemma printStorePath_plain p : plain storeDir -> store_path_ok p -> plain (printStorePath storeDir p).
Proof.
  intros ? Hp. unfold printStorePath. apply plain_app; [done|]. apply plain_app; [by apply (bool_decide_unpack _)|].
  split; by apply store_path_ok_no.
Qed.

Lemma parseStorePath_ok p : store_path_ok p -> parseStorePath storeDir (printStorePath storeDir p) = Ok p.
Proof.
  intros Hp. destruct storeDir_wf as (ds & Hds & ->).
  apply parseStorePath_print_render; [done|apply Hp|by apply store_path_ok_no].
Qed.

(** Once the method and algorithm are parsed, the hash string decides. *)
Lemma parseDerivationOutput_algo m a q p hs :
  method_ok xp m -> caMethod_renderPrefix xp m = Ok q ->
  parseDerivationOutput storeDir xp p (q ++ printHashAlgo a) hs =
  (if bool_decide (hs = L "impure") then
     require xp ImpureDerivations ;;;
     if negb (bool_decide (p = [])) then throw FormatError else Ok (DerivationOutput.Impure m a)
   else if negb (bool_decide (hs = [])) then
     validatePath p ;;;
     let* h := parseNonSRIUnprefixed xp hs a in Ok (DerivationOutput.CAFixed (mkContentAddress m h))
   else
     require xp CaDerivations ;;;
     if negb (bool_decide (p = [])) then throw FormatError else Ok (DerivationOutput.CAFloating m a)).
Proof.
  intros [Hm Htext] Hr. destruct (renderPrefix_parse xp m q a Hm Hr) as (Hpar & _ & Hne).
  unfold parseDerivationOutput. rewrite (bool_decide_false (_ ++ _ = [])) by done. cbn [negb].
  rewrite Hpar. cbn [rbind].
  assert ((if bool_decide (m = ContentAddressMethod.Text) then require xp DynamicDerivations
           else Ok tt) = Ok tt) as -> by (case_bool_decide; [|done]; unfold require; by rewrite Htext).
  cbn [rbind]. by rewrite parseHashAlgo_print.
Qed.

Lemma parse_CAFixed ca q p :
  output_wf xp (DerivationOutput.CAFixed ca) -> caMethod_renderPrefix xp (ca_method ca) = Ok q ->
  parseDerivationOutput storeDir xp (printStorePath storeDir p) (q ++ printHashAlgo (algo (ca_hash ca)))
    (hash_body (ca_hash ca) Base16) = Ok (DerivationOutput.CAFixed ca).
Proof.
  intros (Hreg & Halgo & Hm) Hr. rewrite (parseDerivationOutput_algo (ca_method ca)) by done.
  pose proof (hash_body_length (ca_hash ca) Base16 Hreg) as Hlen. unfold base16Len in Hlen.
  pose proof (Hash_parse_body xp (ca_hash ca) Base16 Hreg Halgo) as Hpb.
  destruct Hreg as [_ Hr']. rewrite Hr' in Hlen.
  rewrite !(bool_decide_false (hash_body _ _ = _)) by
    (intros E; rewrite E in Hlen; cbn in Hlen; by destruct (algo (ca_hash ca))).
  cbn [negb]. rewrite validatePath_print. cbn [rbind]. unfold parseNonSRIUnprefixed.
  rewrite (bool_decide_false (Base16 = SRI)) in Hpb by done. rewrite Hpb. by destruct ca.
Qed.

(** The three strings of an output parse back and need no escaping. *)
Lemma output_strings_parse drvName outputName o p a h :
  output_wf xp o -> output_strings xp storeDir false drvName outputName o = Ok (p, a, h) ->
  parseDerivationOutput storeDir xp p a h = Ok o /\ (plain storeDir -> plain p) /\ plain a /\ plain h.
Proof.
  intros Hwf Ho. destruct o as [path|ca|m ha| |m ha]; cbn [output_strings] in Ho.
  - injection Ho as <- <- <-. unfold parseDerivationOutput.
    rewrite (bool_decide_true ([] = [])) by done. cbn [negb].
    rewrite bool_decide_false by (intros E; pose proof (printStorePath_absolute path) as Ha; by rewrite E in Ha). rewrite validatePath_print. cbn [rbind]. rewrite parseStorePath_ok by done.
    split; [done|]. by auto using printStorePath_plain.
  - apply rbind_Ok in Ho as (x & Hx & Ho). apply rbind_Ok in Hx as (sp & Hsp & Hx).
    apply rbind_Ok in Ho as (ma & Hma & Ho). apply rbind_Ok in Ho as (hs & Hhs & Ho).
    unfold printMethodAlgo in Hma. apply rbind_Ok in Hma as (q & Hq & Hma). inv_result.
    injection Ho as <- <- <-. pose proof Hwf as (Hreg & _ & Hm & _).
    apply makeFixedOutputPathFromCA_ok in Hsp.
    rewrite to_string_body in Hhs by (destruct Hreg as [(_ & ? & _) _]; lia).
    rewrite (bool_decide_false (Base16 = SRI)) in Hhs by done. cbn [orb app] in Hhs. inv_result.
    split; [by apply parse_CAFixed|]. split; [intros; by apply printStorePath_plain|].
    split; [eapply (renderPrefix_parse xp (ca_method ca)); done|apply hash16_plain].
  - destruct Hwf as (Hx & Hm). apply rbind_Ok in Ho as (q & Hq & Ho). inv_result. injection Ho as <- <- <-.
    rewrite (parseDerivationOutput_algo m) by done. unfold require. rewrite Hx.
    split; [done|]. split; [done|]. split; [|done]. eapply (renderPrefix_parse xp m); [apply Hm|done].
  - injection Ho as <- <- <-. split; [done|]. auto.
  - destruct Hwf as (Hx & Hm). apply rbind_Ok in Ho as (q & Hq & Ho). inv_result. injection Ho as <- <- <-.
    rewrite (parseDerivationOutput_algo m) by done. unfold require. rewrite Hx.
    split; [done|]. split; [done|]. split; [eapply (renderPrefix_parse xp m); [apply Hm|done]|].
    by apply (bool_decide_unpack _).
Qed.

Hypothesis storeDir_plain : plain storeDir.

Lemma parse_output_print drvName i s rest m :
  plain i.1 -> output_wf xp i.2 -> unparse_output xp storeDir false drvName i = Ok s ->
  parse_output storeDir xp m (s ++ rest) = Ok (smap_emplace i.1 i.2 m, rest).
Proof.
  intros Hi Hwf Hs. unfold unparse_output in Hs. apply rbind_Ok in Hs as ([[p a] h] & Ho & Hs).
  inv_result. destruct (output_strings_parse _ _ _ _ _ _ Hwf Ho) as (Hpar & Hp & Ha & Hh). specialize (Hp storeDir_plain).
  cbn [fst snd]. unfold parse_output, parseDerivationOutput_str. rewrite <- !app_assoc.
  rewrite expect_app. cbn [rbind]. rewrite parseString_plain by done. cbn [rbind].
  rewrite expect_app. cbn [rbind]. rewrite parseString_plain by done. cbn [rbind].
  rewrite expect_app. cbn [rbind]. rewrite parseString_plain by done. cbn [rbind].
  rewrite expect_app. cbn [rbind]. rewrite parseString_plain by done. cbn [rbind].
  rewrite expect_app. cbn [rbind]. by rewrite Hpar.
Qed.

Definition node_version (version : DerivationATermVersion) (n : InputNode) : Prop :=
  version = Traditional -> node_childMap n = [].

Lemma parse_inputDrv_print version p node rest m :
  store_path_ok p -> node_wf node -> node_version version node ->
  parse_inputDrv storeDir version m (unparse_input (printStorePath storeDir p) node ++ rest) =
  Ok (smap_insert p node m, rest).
Proof.
  intros Hp Hn Hv. unfold parse_inputDrv, unparse_input, parsePath. rewrite <- !app_assoc.
  rewrite expect_app. cbn [rbind]. rewrite parseString_plain by by apply printStorePath_plain. cbn [rbind].
  rewrite validatePath_print. cbn [rbind]. rewrite unparse_node_body, <- app_assoc, expect_app. cbn [rbind].
  rewrite parseStorePath_ok by done. cbn [rbind]. destruct version.
  - destruct node as [v cm]. specialize (Hv eq_refl). cbn in Hv. subst cm. inversion Hn; subst.
    rewrite parse_node_traditional by done. cbn [rbind]. by rewrite expect_app.
  - rewrite parse_node_print; [cbn [rbind]; by rewrite expect_app|done|].
    pose proof (node_height_length node). rewrite length_app. lia.
Qed.

Lemma parse_env_print outs i rest m :
  parse_env m (unparse_env false outs i ++ rest) = Ok (smap_insert i.1 i.2 m, rest).
Proof.
  unfold parse_env, unparse_env. cbn [andb]. rewrite <- !app_assoc.
  rewrite expect_app. cbn [rbind]. rewrite parseString_print. cbn [rbind].
  rewrite expect_app. cbn [rbind]. rewrite parseString_print. cbn [rbind]. by rewrite expect_app.
Qed.

(** Input sources are printed in the order of their base names. *)
Lemma printStorePathSet_sorted srcs :
  sset_wf srcs -> printStorePathSet storeDir srcs = printStorePath storeDir <$> srcs /\
  sset_wf (printStorePath storeDir <$> srcs).
Proof.
  intros Hs. assert (sset_wf (printStorePath storeDir <$> srcs)) as Hwf.
  { unfold sset_wf in *. induction Hs as [|p srcs Hs IH Hp]; [constructor|]. rewrite fmap_cons.
    constructor; [done|]. apply Forall_fmap. eapply Forall_impl; [done|]. intros q Hq.
    unfold compose, klt, printStorePath in *. cbn in *. by rewrite !bytes_compare_app. }
  split; [|done]. unfold printStorePathSet. by apply sset_of_list_sorted.
Qed.

Lemma parseStorePathSet_print srcs acc :
  Forall store_path_ok srcs ->
  parseStorePathSet_loop storeDir (printStorePath storeDir <$> srcs) acc = Ok (sset_union acc srcs).
Proof.
  intros Hs. revert acc. induction Hs as [|p srcs Hp Hs IH]; intros acc; [done|].
  rewrite fmap_cons. cbn [parseStorePathSet_loop]. rewrite parseStorePath_ok by done. cbn [rbind]. apply IH.
Qed.

(** A derivation within the reach of the format: sorted containers, valid
    store paths, enabled features, and no quotes or backslashes where the
    printer does not escape. *)
Record Derivation_wf (d : Derivation) : Prop := {
  wf_outputs : smap_wf (outputs d);
  wf_outputs_ok : Forall (fun i => plain i.1 /\ output_wf xp i.2) (outputs d);
  wf_inputDrvs : smap_wf (inputDrvs d);
  wf_inputDrvs_ok : Forall (fun kv => store_path_ok kv.1 /\ node_wf kv.2) (inputDrvs d);
  wf_dynamic : hasDynamicDrvDep d = true -> xp DynamicDerivations = true;
  wf_inputSrcs : sset_wf (inputSrcs d);
  wf_inputSrcs_ok : Forall store_path_ok (inputSrcs d);
  wf_platform : plain (platform d);
  wf_env : smap_wf (env d);
}.

Definition drv_version (d : Derivation) : DerivationATermVersion :=
  if hasDynamicDrvDep d then DynamicDerivations_ else Traditional.

Lemma node_version_ok d : Forall (fun kv => node_version (drv_version d) kv.2) (inputDrvs d).
Proof.
  apply Forall_forall. intros kv Hin. unfold node_version, drv_version.
  destruct (hasDynamicDrvDep d) eqn:E; [done|]. intros _. unfold hasDynamicDrvDep in E.
  apply not_true_iff_false in E. destruct (node_childMap kv.2) eqn:Em; [done|]. exfalso. apply E.
  apply existsb_exists. exists kv. split; [by apply list_elem_of_In|]. by rewrite Em.
Qed.

Lemma parse_version_print d rest :
  (hasDynamicDrvDep d = true -> xp DynamicDerivations = true) ->
  parse_version xp ((if hasDynamicDrvDep d
    then L "DrvWithVersion(" ++ printUnquotedString (L "xp-dyn-drv") ++ L "," else L "Derive(") ++ rest)
  = Ok (drv_version d, rest).
Proof.
  intros Hxp. unfold parse_version, drv_version. destruct (hasDynamicDrvDep d); [|done].
  change (L "DrvWithVersion(") with (L "D" ++ L "rvWithVersion("). rewrite <- !app_assoc, expect_app.
  cbn [rbind]. change (head (L "rvWithVersion(" ++ ?x)) with (Some "r"%char). cbv iota.
  rewrite expect_app. cbn [rbind]. rewrite parseString_plain by by apply (bool_decide_unpack _). cbn [rbind].
  rewrite bool_decide_true by done. unfold require. rewrite Hxp by done. cbn [rbind].
  by rewrite expect_app.
Qed.
End whole.

Lemma rmapM_fmap {A B} (f : A -> result B) (g : A -> B) l l' :
  (forall x y, f x = Ok y -> g x = y) -> rmapM f l = Ok l' ->
  l' = g <$> l /\ Forall (fun x => f x = Ok (g x)) l.
Proof.
  intros Hg Hl%rmapM_Ok. induction Hl as [|x y l l' Hxy Hl [-> IH]]; [done|].
  rewrite fmap_cons. pose proof (Hg _ _ Hxy) as E. rewrite E. split; [done|].
  constructor; [by rewrite E|done].
Qed.

Lemma emplaces_sorted {K V} `{OrdKey K} (m l : list (K * V)) :
  smap_wf (m ++ l) -> foldl (fun m kv => smap_emplace kv.1 kv.2 m) m l = m ++ l.
Proof.
  revert m. induction l as [|[k v] l IH]; intros m Hwf; cbn [foldl fst snd]; [by rewrite app_nil_r|].
  rewrite smap_emplace_snoc by by eapply smap_wf_prefix.
  rewrite IH; [|by rewrite <- app_assoc]. by rewrite <- app_assoc.
Qed.

(** C1: the ATerm form round-trips: whenever a well-formed derivation can be
    printed, parsing the text under the derivation's name gives exactly that
    derivation. This covers all kinds of outputs, dynamic derivation inputs
    (and the format version they need), and arbitrary bytes in the builder,
    the arguments and the environment. *)
Theorem parseDerivation_unparse `{Digest} storeDir xp d s :
  CanonPath_wf storeDir -> plain storeDir -> Derivation_wf xp d ->
  unparse xp storeDir d false None = Ok s -> parseDerivation storeDir xp s (drv_name d) = Ok d.
Proof.
  intros Hdir Hplain Hwf Hs. destruct Hwf. unfold unparse in Hs. apply rbind_Ok in Hs as (outs & Houts & Hs).
  apply Ok_inj in Hs. subst s.
  destruct (rmapM_fmap (unparse_output xp storeDir false (drv_name d))
    (fun i => match unparse_output xp storeDir false (drv_name d) i with Ok s => s | Err _ => [] end)
    _ _ ltac:(intros x y E; cbv beta; by rewrite E) Houts) as [-> Hall]. clear Houts. rewrite Forall_forall in Hall.
  rewrite Forall_forall in wf_outputs_ok0; rewrite Forall_forall in wf_inputDrvs_ok0.
  pose proof (node_version_ok d) as Hnv. rewrite Forall_forall in Hnv.
  unfold parseDerivation. rewrite parse_version_print by done. cbn [rbind].
  rewrite expect_print_list. cbn [rbind].
  rewrite (while_list_print _ _ (fun m i => smap_emplace i.1 i.2 m)).
  2: { intros acc i rest Hin. destruct (wf_outputs_ok0 _ Hin). eapply parse_output_print; eauto. }
  2: { intros i Hin. specialize (Hall _ Hin). cbv beta in Hall |- *.
       destruct (unparse_output xp storeDir false (drv_name d) i) eqn:E; [|done].
       unfold unparse_output in E. apply rbind_Ok in E as ([ph hs] & _ & E). by inv_result. }
  cbn [rbind]. rewrite expect_comma_list. cbn [rbind].
  rewrite (while_list_print _ _ (fun (m : DerivedPathMap (list bytes)) kv => smap_insert kv.1 kv.2 m)).
  2: { intros acc kv rest Hin. destruct (wf_inputDrvs_ok0 _ Hin). apply parse_inputDrv_print; auto. }
  2: done.
  cbn [rbind]. destruct (printStorePathSet_sorted storeDir _ wf_inputSrcs0) as [-> Hsrcs].
  rewrite expect_app. cbn [rbind]. rewrite parseStrings_print; [|done|..].
  2: { apply Forall_fmap. eapply Forall_impl; [done|]. intros p Hp. by apply printStorePath_plain. }
  2: { intros _. apply Forall_fmap, Forall_forall. intros p _. by apply printStorePath_absolute. }
  cbn [rbind]. unfold parseStorePathSet. rewrite parseStorePathSet_print by done. cbn [rbind].
  rewrite expect_app. cbn [rbind]. rewrite parseString_plain by done. cbn [rbind].
  rewrite expect_app. cbn [rbind]. rewrite parseString_print. cbn [rbind]. unfold printStrings.
  rewrite expect_comma_list. cbn [rbind].
  rewrite (while_list_print _ _ (fun l s => l ++ [s])).
  2: { intros acc a rest _. unfold parse_arg. by rewrite parseString_print. }
  2: done.
  cbn [rbind]. rewrite expect_comma_list. cbn [rbind].
  rewrite (while_list_print _ _ (fun (m : list (bytes * bytes)) kv => smap_insert kv.1 kv.2 m)).
  2: { intros acc kv rest _. apply parse_env_print. }
  2: done.
  cbn [rbind]. change (L ")") with (L ")" ++ []). rewrite expect_app. cbn [rbind].
  rewrite (emplaces_sorted []), (smap_inserts_sorted [] (inputDrvs d)), (smap_inserts_sorted [] (env d)),
    (sset_union_sorted []) by done.
  assert (forall (l acc : list bytes), foldl (fun l s => l ++ [s]) acc l = acc ++ l) as ->.
  { induction l as [|x l IH]; intros acc; cbn [foldl]; [by rewrite app_nil_r|]. by rewrite IH, <- app_assoc. }
  destruct d as [[] ?]. done.
Qed.

(** An example with every kind of part: a fixed output, a dynamic input, and
    characters to be escaped. *)
Definition example_derivation : Derivation :=
  mkDerivation
    (mkBasicDerivation
       [(L "out", DerivationOutput.CAFixed (mkContentAddress ContentAddressMethod.NixArchive example_hash))]
       [mkStorePath example_base] (L "x86_64-linux") (L "/bin/sh")
       [L "-c"; [dquote; newline; backslash]] [(L "PATH", L "/bin"); (L "x", [])] (L "foo"))
    [(example_drv, mkChildNode [L "dev"; L "out"] [(L "out", mkChildNode [L "out"] [])])].

Lemma parseDerivation_unparse_witness :
  exists s, @unparse padded_digest (fun _ => true) (L "/nix/store") example_derivation false None = Ok s /\
    parseDerivation (L "/nix/store") (fun _ => true) s (L "foo") = Ok example_derivation.
Proof.
  eexists. split; [vm_compute; reflexivity|].
  apply (@parseDerivation_unparse padded_digest (L "/nix/store") (fun _ => true) example_derivation).
  - by apply CanonPath_raw_self.
  - by apply (bool_decide_unpack _).
  - constructor; cbn [outputs inputDrvs inputSrcs platform env basic example_derivation].
    + by repeat constructor.
    + constructor; [|done]. split; [by apply (bool_decide_unpack _)|].
      unfold output_wf, Hash_regular, Hash_wf, algo_enabled, method_ok, method_enabled, maxHashSize.
      cbn. repeat split; try done; lia.
    + by repeat constructor.
    + constructor; [|done]. split.
      * split; [by vm_compute|]. apply (bool_decide_unpack _). by vm_compute.
      * repeat constructor; by apply (bool_decide_unpack _).
    + done.
    + by repeat constructor.
    + constructor; [|done]. split; [by vm_compute|]. apply (bool_decide_unpack _). by vm_compute.
    + by apply (bool_decide_unpack _).
    + by repeat constructor.
  - vm_compute. reflexivity.
Defined.

(** ** Termination of the parser *)

(** A parser that never runs out of fuel and consumes at least [n] characters. *)
Definition consumes {A} (n : nat) (r : result (A * bytes)) (str : bytes) : Prop :=
  match r with
  | Ok (_, str') => n + length str' <= length str
  | Err f => f <> OutOfFuel
  end.

Lemma consumes_bind {A B} n m (r : result (A * bytes)) (k : A * bytes -> result (B * bytes)) str :
  consumes n r str ->
  (forall a str', n + length str' <= length str -> consumes m (k (a, str')) str') ->
  consumes (n + m) (rbind r k) str.
Proof.
  destruct r as [[a str']|f]; cbn; [|done]. intros Hr Hk. specialize (Hk a str' Hr).
  unfold consumes in *. destruct (k (a, str')) as [[b str'']|f]; [lia|done].
Qed.

Lemma consumes_weaken {A} n m (r : result (A * bytes)) str : m <= n -> consumes n r str -> consumes m r str.
Proof. unfold consumes. destruct r as [[a str']|f]; [lia|done]. Qed.

Lemma consumes_check {A B} n (c : result B) (k : B -> result (A * bytes)) str :
  c <> Err OutOfFuel -> (forall b, consumes n (k b) str) -> consumes n (rbind c k) str.
Proof. destruct c as [b|f]; cbn; [auto|]. intros Hc _. congruence. Qed.

Lemma consumes_expect {A} n p str (k : bytes -> result (A * bytes)) :
  (forall str', length p + length str' <= length str -> consumes n (k str') str') ->
  consumes (length p + n) (rbind (expect p str) k) str.
Proof.
  intros Hk. unfold expect. destruct (starts_with str p) eqn:E; [|done]. cbn [rbind].
  apply starts_with_spec in E as [t ->]. rewrite drop_app_length. rewrite length_app in Hk.
  specialize (Hk t ltac:(lia)). unfold consumes in *. rewrite length_app.
  destruct (k t) as [[a s]|f]; [lia|done].
Qed.

Lemma consumes_ret {A} (a : A) str : consumes 0 (Ok (a, str)) str.
Proof. cbn. lia. Qed.

Lemma scan_no_fuel s n e : scan_string s n e <> Err OutOfFuel.
Proof.
  revert n e. induction s as [s IH] using (induction_ltof1 _ (@length ascii)). intros n e.
  destruct s as [|c s]; [done|]. cbn [scan_string]. repeat case_match; try done; apply IH; unfold ltof; cbn; lia.
Qed.

Lemma unescape_no_fuel s : unescape s <> Err OutOfFuel.
Proof.
  induction s as [s IH] using (induction_ltof1 _ (@length ascii)).
  destruct s as [|c s]; [done|]. cbn [unescape]. case_match.
  - destruct s as [|d s]; [done|]. specialize (IH s ltac:(unfold ltof; cbn; lia)).
    destruct (unescape s); cbn; congruence.
  - specialize (IH s ltac:(unfold ltof; cbn; lia)). destruct (unescape s); cbn; congruence.
Qed.

Lemma parseString_consumes str : consumes 1 (parseString str) str.
Proof.
  unfold parseString. apply (consumes_expect 0). intros s _.
  apply consumes_check; [apply scan_no_fuel|]. intros [n e].
  destruct (Nat.ltb_spec (length s) (n + 1)); [done|].
  assert (length (drop (n + 1) s) <= length s) by (rewrite length_drop; lia).
  destruct e; cbn [negb]; [|cbn; lia].
  apply consumes_check; [apply unescape_no_fuel|]. intros b. cbn. lia.
Qed.

Lemma parsePath_consumes str : consumes 1 (parsePath str) str.
Proof.
  unfold parsePath. apply (consumes_bind 1 0); [apply parseString_consumes|]. intros s str' _.
  apply consumes_check; [unfold validatePath; by repeat case_match|]. intros _. apply consumes_ret.
Qed.

Lemma endOfList_length str e str' : endOfList str = (e, str') -> length str' <= length str.
Proof. unfold endOfList. intros H. repeat case_match; simplify_eq/=; lia. Qed.

(** A list is parsed if its elements are, within the length of the input. *)
Lemma while_list_consumes {A} (elem : A -> parser A) acc str :
  (forall acc str', length str' <= length str -> consumes 1 (elem acc str') str') ->
  consumes 0 (while_list elem acc str) str.
Proof.
  intros He. unfold while_list. set (bound := length str) in He.
  enough (forall fuel acc str, length str <= bound -> length str < fuel ->
    consumes 0 (parse_list elem fuel acc str) str) as Hgen by (apply Hgen; unfold bound; lia).
  clearbody bound. clear acc str. induction fuel as [|fuel IH]; intros acc str Hb Hf; [lia|].
  cbn [parse_list]. destruct (endOfList str) as [e str'] eqn:E. apply endOfList_length in E.
  destruct e; [cbn; lia|]. specialize (He acc str' ltac:(lia)). unfold consumes in He |- *.
  destruct (elem acc str') as [[acc' str'']|f]; cbn [rbind]; [|done].
  specialize (IH acc' str'' ltac:(lia) ltac:(lia)). unfold consumes in IH.
  destruct (parse_list _ _ _ _) as [[??]|f]; [lia|done].
Qed.

(** Step through a parser written with [expect], sub-parsers and checks. *)
Ltac consume_with lem :=
  first
    [ apply consumes_ret
    | apply (consumes_expect 0); intros
    | eapply (consumes_weaken (_ + 0)); [|apply consumes_expect; intros]; [cbn; lia|]
    | apply (consumes_bind 1 0); [solve [lem]|intros]
    | apply (consumes_weaken (1 + 0)); [lia|apply consumes_bind; [solve [lem]|intros]] ].

Lemma parseStrings_consumes b str : consumes 1 (parseStrings b str) str.
Proof.
  unfold parseStrings. apply (consumes_expect 0). intros str' _. apply while_list_consumes.
  intros acc s _. apply (consumes_bind 1 0).
  - destruct b; [apply parsePath_consumes|apply parseString_consumes].
  - intros x s' _. apply consumes_ret.
Qed.

Ltac consume lem :=
  repeat consume_with ltac:(first [apply parseString_consumes | apply parsePath_consumes
    | apply parseStrings_consumes | lem]).

Lemma parse_node_consumes fuel version str :
  length str < fuel -> consumes 1 (parseDerivedPathMapNode fuel version str) str.
Proof.
  revert str. induction fuel as [|fuel IH]; intros str Hf; [lia|]. cbn [parseDerivedPathMapNode].
  assert (consumes 1 (parseNonDynamic str) str) as Hnd by (unfold parseNonDynamic; consume idtac).
  destruct version; [done|]. repeat case_match; try done.
  apply (consumes_expect 0). intros s1 Hs1. consume idtac.
  apply (consumes_weaken (0 + 0)); [lia|]. apply consumes_bind.
  - apply while_list_consumes. intros acc w Hw. apply (consumes_expect 0). intros. cbn in *.
    consume ltac:(apply IH; cbn in *; lia).
  - intros. consume idtac.
Qed.

(** *** The parts that are no parsers never run out of fuel either *)

Definition no_fuel {A} (r : result A) : Prop := r <> Err OutOfFuel.

Lemma rbind_no_fuel {A B} (m : result A) (k : A -> result B) :
  no_fuel m -> (forall a, no_fuel (k a)) -> no_fuel (rbind m k).
Proof. unfold no_fuel. destruct m; cbn; auto. congruence. Qed.

Lemma consumes_no_fuel {A} n (r : result (A * bytes)) str : consumes n r str -> no_fuel r.
Proof. unfold consumes, no_fuel. destruct r as [[??]|]; congruence. Qed.

Ltac no_fuel_tac :=
  repeat first
    [ done
    | apply rbind_no_fuel; [|intros]
    | progress (unfold require, assert_, throw, validatePath)
    | case_match ].

Lemma require_no_fuel xp f : no_fuel (require xp f).
Proof. unfold require. by case_match. Qed.

Lemma parse16_no_fuel n i rest h : no_fuel (parse16_loop n i rest h).
Proof.
  revert i h. induction n as [|n IH]; intros i h; cbn [parse16_loop]; [done|].
  apply rbind_no_fuel; [unfold parseHexDigit; no_fuel_tac|]. intros hi.
  apply rbind_no_fuel; [unfold parseHexDigit; no_fuel_tac|]. intros lo. apply IH.
Qed.

Lemma parse32_no_fuel size n rest h : no_fuel (parse32_loop size n rest h).
Proof.
  revert n h. induction rest as [|c rest IH]; intros n h; cbn [parse32_loop]; [done|].
  repeat case_match; try done. apply rbind_no_fuel; [unfold put32; no_fuel_tac|]. intros h'. apply IH.
Qed.

Lemma Hash_parse_no_fuel xp s a b : no_fuel (Hash_parse xp s a b).
Proof.
  unfold Hash_parse. apply rbind_no_fuel; [unfold Hash_zero; no_fuel_tac|]. intros h.
  repeat case_match; try done; apply rbind_no_fuel; intros;
    auto using parse16_no_fuel, parse32_no_fuel; no_fuel_tac.
Qed.

Lemma canonPath_no_fuel s : no_fuel (canonPath s).
Proof.
  destruct (isAbsolute s) eqn:E; [by rewrite canonPath_ref|].
  unfold canonPath, canonPath_fuel. rewrite E. by destruct (bool_decide _).
Qed.

Lemma parseStorePath_no_fuel d s : no_fuel (parseStorePath d s).
Proof.
  unfold parseStorePath. apply rbind_no_fuel; [apply canonPath_no_fuel|]. intros p. case_match; [done|].
  unfold StorePath_parse, checkPathName. rewrite checkName_regex. no_fuel_tac; congruence.
Qed.

Section parser_total.
Context (storeDir : bytes) (xp : xpSettings).

Lemma parseDerivationOutput_no_fuel p a h : no_fuel (parseDerivationOutput storeDir xp p a h).
Proof.
  unfold parseDerivationOutput, caMethod_parsePrefix, parseHashAlgo.
  repeat first [apply Hash_parse_no_fuel | apply parseStorePath_no_fuel | done | apply rbind_no_fuel; intros
    | case_match | progress unfold require, validatePath].
Qed.

Lemma parse_output_consumes m str : consumes 1 (parse_output storeDir xp m str) str.
Proof.
  unfold parse_output, parseDerivationOutput_str. apply (consumes_expect 0). intros. consume idtac.
  apply (consumes_weaken (0 + 0)); [lia|]. apply consumes_bind; [consume idtac|intros; consume idtac].
  apply consumes_check; [apply parseDerivationOutput_no_fuel|]. intros. consume idtac.
Qed.

Lemma parse_inputDrv_consumes version m str : consumes 1 (parse_inputDrv storeDir version m str) str.
Proof.
  unfold parse_inputDrv. apply (consumes_expect 0). intros. consume idtac.
  apply consumes_check; [apply parseStorePath_no_fuel|]. intros.
  consume ltac:(apply parse_node_consumes; lia).
Qed.

Lemma parse_version_no_fuel str : no_fuel (parse_version xp str).
Proof.
  unfold parse_version, expect.
  repeat first [done | apply require_no_fuel | eapply consumes_no_fuel, parseString_consumes
    | apply rbind_no_fuel; [|intros] | case_match].
Qed.

Lemma parseStorePathSet_no_fuel l acc : no_fuel (parseStorePathSet_loop storeDir l acc).
Proof.
  revert acc. induction l as [|x l IH]; intros acc; cbn [parseStorePathSet_loop]; [done|].
  apply rbind_no_fuel; [apply parseStorePath_no_fuel|]. auto.
Qed.
End parser_total.

(** The derivation parser terminates on every input, well-formed or not:
    each loop consumes input in every iteration, so that the fuel given by the
    length of the input is never exhausted. *)
Theorem parseDerivation_terminates storeDir xp s name :
  parseDerivation storeDir xp s name <> Err OutOfFuel.
Proof.
  unfold parseDerivation, parse_arg, parse_env, expect.
  repeat first
    [ done | apply parse_version_no_fuel | apply parseStorePathSet_no_fuel
    | eapply consumes_no_fuel; first
        [ apply parseString_consumes | apply parseStrings_consumes
        | apply while_list_consumes; intros; first
            [ apply parse_output_consumes | apply parse_inputDrv_consumes | solve [consume idtac] ] ]
    | apply rbind_no_fuel; [|intros [? ?]] | apply rbind_no_fuel; [|intros ?] | case_match ].
Qed.

(** An unterminated string literal is not rejected: for every text without
    quotes and backslashes, [parseString] on an opening quote followed by that
    text removes one character more than there is, which is undefined
    behaviour (only a backslash right before the end is diagnosed). A truncated
    [.drv] file therefore reaches it. *)
Theorem parseString_unterminated s :
  plain s ->
  parseString (dquote :: s) = Err UndefinedBehaviour /\
  (forall storeDir xp name,
     parseDerivation storeDir xp (L "Derive([(" ++ dquote :: s) name = Err UndefinedBehaviour).
Proof.
  intros [Hq Hb].
  assert (forall n e, scan_string s n e = Ok (n + length s, e)) as Hscan.
  { clear -Hq Hb. induction s as [|c s IH]; intros n e; cbn [scan_string length]; [by rewrite Nat.add_0_r|].
    rewrite (proj2 (char_eqb_ne c dquote)), (proj2 (char_eqb_ne c backslash)) by set_solver.
    rewrite IH by set_solver. do 2 f_equal. lia. }
  assert (parseString (dquote :: s) = Err UndefinedBehaviour) as Hp.
  { unfold parseString. change (dquote :: s) with ([dquote] ++ s). rewrite expect_app. cbn [rbind].
    rewrite Hscan. cbn [rbind]. by rewrite (proj2 (Nat.ltb_lt _ _)) by lia. }
  split; [done|]. intros storeDir xp name. unfold parseDerivation.
  change (parse_version xp (L "Derive([(" ++ dquote :: s)) with (Ok (Traditional, L "[(" ++ dquote :: s)).
  cbn [rbind]. change (expect (L "[") (L "[(" ++ dquote :: s)) with (Ok (L "(" ++ dquote :: s)).
  cbn [rbind]. unfold while_list. cbn [parse_list].
  change (endOfList (L "(" ++ dquote :: s)) with (false, L "(" ++ dquote :: s). cbv iota beta.
  unfold parse_output. rewrite expect_app. cbn [rbind]. by rewrite Hp.
Qed.

Lemma parseString_unterminated_witness : parseString (dquote :: L "out") = Err UndefinedBehaviour.
Proof. apply (parseString_unterminated (L "out")). by apply (bool_decide_unpack _). Defined.

(** The platform is printed without escaping, and the parser ignores what
    follows the closing parenthesis. A derivation whose [system] contains
    quotes is thus written as the text of a different derivation: here one
    with another builder, other arguments and an empty environment. *)
Theorem unparse_platform_injection :
  let q := dquote in
  let evil := L "x" ++ [q] ++ L "," ++ [q] ++ L "/bin/evil" ++ [q] ++ L ",[],[])" in
  let drv plat bld en := mkDerivation (mkBasicDerivation [(L "out", DerivationOutput.Deferred)] []
                                         plat bld [] en (L "foo")) [] in
  (let* s := @unparse padded_digest (fun _ => false) (L "/nix/store")
               (drv evil (L "/bin/sh") [(L "k", L "v")]) false None in
   parseDerivation (L "/nix/store") (fun _ => false) s (L "foo"))
  = Ok (drv (L "x") (L "/bin/evil") []).
Proof. vm_compute. reflexivity. Qed.
