(* ===== verification/DerivationHash.v ===== *)
(** * Derivation hashes and resolution (libstore/derivations.cc)

    [hashDerivationModulo] with its global memo table, and the operations
    built on it: filling in deferred output paths, resolving the inputs of a
    derivation, and checking a derivation against its store path. *)

From S2P Require Import Prelude.
From S2P Require Import Containers.
From S2P Require Import Strings.
From S2P Require Import Hash.
From S2P Require Import CanonPath.
From S2P Require Import StorePath.
From S2P Require Import ContentAddress.
From S2P Require Import DerivedPath.
From S2P Require Import Derivations.
From S2P Require Import ATerm.

Inductive DrvHashKind := Regular | Deferred_.
#[export] Instance DrvHashKind_eq_dec : EqDecision DrvHashKind.
Proof. solve_decision. Defined.

Record DrvHash := mkDrvHash {
  hashes : list (bytes * Hash);
  hash_kind : DrvHashKind;
}.

Abbreviation DrvHashes := (list (StorePath * DrvHash)).
Abbreviation InputMap := (list (bytes * InputNode)).

(** The kind a derivation has by itself. *)
Definition initial_kind (t : DerivationType) : DrvHashKind :=
  match t with
  | DerivationType.InputAddressed _ => Regular
  | DerivationType.ContentAddressed _ fixed => if fixed then Regular else Deferred_
  | DerivationType.Impure => Deferred_
  end.

Section hashModulo.
Context `{Digest} (xp : xpSettings) (storeDir : bytes).
(** [Store::readInvalidDerivation]. *)
Context (readInvalidDerivation : StorePath -> result Derivation).

(** The hashes of a fixed-output derivation. *)
Fixpoint fixed_hashes (name : bytes) (outs : list (bytes * DerivationOutput)) (m : list (bytes * Hash)) :
    result (list (bytes * Hash)) :=
  match outs with
  | [] => Ok m
  | (outputName, DerivationOutput.CAFixed ca) :: outs =>
      let* ma := printMethodAlgo xp ca in
      let* hs := to_string (ca_hash ca) Base16 false in
      let* p := CAFixed_path xp storeDir ca name outputName in
      let* h := hashString xp SHA256
        (L "fixed:out:" ++ ma ++ L ":" ++ hs ++ L ":" ++ printStorePath storeDir p) in
      fixed_hashes name outs (smap_insert outputName h m)
  | _ :: _ => throw OutOfRange   (* [std::bad_variant_access]; a fixed type has only fixed outputs *)
  end.

(** [inputs2\[h.to_string(Base16, false)\].value.insert(outputName)] for each
    output name. *)
Fixpoint add_outputs (hs : list (bytes * Hash)) (value : list bytes) (inputs2 : InputMap) : result InputMap :=
  match value with
  | [] => Ok inputs2
  | outputName :: value =>
      match smap_lookup outputName hs with
      | None => throw Error
      | Some h =>
          let* key := to_string h Base16 false in
          let n := default (mkChildNode [] []) (smap_lookup key inputs2) in
          add_outputs hs value
            (smap_insert key (mkChildNode (sset_insert outputName (node_value n)) (node_childMap n)) inputs2)
      end
  end.

Definition finish_hash (drv : Derivation) (maskOutputs : bool) (kind : DrvHashKind) (inputs2 : InputMap) :
    result DrvHash :=
  let* s := unparse xp storeDir drv maskOutputs (Some inputs2) in
  let* h := hashString xp SHA256 s in
  Ok (mkDrvHash (foldl (fun m i => smap_insert i.1 h m) [] (outputs drv)) kind).

(** [pathDerivationModulo] is a parameter of the loop, over some state. *)
Section step.
Context {S : Type} (pathModulo : StorePath -> S -> result DrvHash * S).

Fixpoint inputs_loop (inputs : DerivedPathMap (list bytes)) (kind : DrvHashKind) (inputs2 : InputMap) (st : S) :
    result (DrvHashKind * InputMap) * S :=
  match inputs with
  | [] => (Ok (kind, inputs2), st)
  | (drvPath, node) :: inputs =>
      match pathModulo drvPath st with
      | (Err f, st) => (Err f, st)
      | (Ok res, st) =>
          let kind := if bool_decide (hash_kind res = Deferred_) then Deferred_ else kind in
          match add_outputs (hashes res) (node_value node) inputs2 with
          | Err f => (Err f, st)
          | Ok inputs2 => inputs_loop inputs kind inputs2 st
          end
      end
  end.

Definition hash_step (drv : Derivation) (maskOutputs : bool) (st : S) : result DrvHash * S :=
  match drv_type drv with
  | Err f => (Err f, st)
  | Ok type =>
      if isFixed type then
        (let* m := fixed_hashes (drv_name drv) (outputs drv) [] in Ok (mkDrvHash m Regular), st)
      else
        match inputs_loop (inputDrvs drv) (initial_kind type) [] st with
        | (Err f, st) => (Err f, st)
        | (Ok (kind, inputs2), st) => (finish_hash drv maskOutputs kind inputs2, st)
        end
  end.
End step.

(** [pathDerivationModulo] around a given [hashDerivationModulo]: consult the
    memo table, else compute and store. *)
Definition pathDerivationModulo (hashModulo : Derivation -> bool -> DrvHashes -> result DrvHash * DrvHashes)
    (drvPath : StorePath) (drvHashes : DrvHashes) : result DrvHash * DrvHashes :=
  match smap_lookup drvPath drvHashes with
  | Some h => (Ok h, drvHashes)
  | None =>
      match readInvalidDerivation drvPath with
      | Err f => (Err f, drvHashes)
      | Ok drv =>
          match hashModulo drv false drvHashes with
          | (Err f, drvHashes) => (Err f, drvHashes)
          | (Ok h, drvHashes) => (Ok h, smap_insert drvPath h drvHashes)
          end
      end
  end.

(** The fuel bounds the depth of the derivation graph. *)
Fixpoint hashDerivationModulo (fuel : nat) (drv : Derivation) (maskOutputs : bool) (drvHashes : DrvHashes) :
    result DrvHash * DrvHashes :=
  match fuel with
  | O => (Err OutOfFuel, drvHashes)
  | S fuel => hash_step (pathDerivationModulo (hashDerivationModulo fuel)) drv maskOutputs drvHashes
  end.

Definition staticOutputHashes (fuel : nat) (drv : Derivation) (drvHashes : DrvHashes) :
    result (list (bytes * Hash)) * DrvHashes :=
  let '(r, drvHashes) := hashDerivationModulo fuel drv true drvHashes in
  (let* h := r in Ok (hashes h), drvHashes).

(** *** Specification: the same recursion without the table *)
Fixpoint hashModulo_spec (fuel : nat) (drv : Derivation) (maskOutputs : bool) : result DrvHash :=
  match fuel with
  | O => Err OutOfFuel
  | S fuel =>
      (hash_step (fun drvPath (_ : unit) =>
         (let* d := readInvalidDerivation drvPath in hashModulo_spec fuel d false, tt)) drv maskOutputs tt).1
  end.
End hashModulo.

(** ** Memoisation is transparent *)

Section memo.
Context `{Digest} (xp : xpSettings) (storeDir : bytes) (read : StorePath -> result Derivation).
Abbreviation spec := (hashModulo_spec xp storeDir read).
Abbreviation hashMod := (hashDerivationModulo xp storeDir read).

(** Every entry of the table is what the specification computes. *)
Definition cache_ok (c : DrvHashes) : Prop :=
  forall p h, smap_lookup p c = Some h ->
    exists fuel d, read p = Ok d /\ spec fuel d false = Ok h.

(** Two lookup functions related on success. *)
Section step_mono.
Context {S T : Type} (f : StorePath -> S -> result DrvHash * S) (g : StorePath -> T -> result DrvHash * T).
Context (RS : S -> Prop) (RT : T -> Prop).
Hypothesis fg : forall p s h s', RS s -> f p s = (Ok h, s') ->
  RS s' /\ forall t, RT t -> exists t', g p t = (Ok h, t') /\ RT t'.

Lemma inputs_loop_mono inputs kind i2 s r s' :
  RS s -> inputs_loop f inputs kind i2 s = (Ok r, s') ->
  RS s' /\ forall t, RT t -> exists t', inputs_loop g inputs kind i2 t = (Ok r, t') /\ RT t'.
Proof.
  revert kind i2 s. induction inputs as [|[p node] inputs IH]; intros kind i2 s Hs; cbn [inputs_loop].
  - intros [= <- <-]. eauto.
  - destruct (f p s) as [[h|e] s1] eqn:E; [|done].
    destruct (fg _ _ _ _ Hs E) as [Hs1 Hg].
    destruct (add_outputs (hashes h) (node_value node) i2) as [i2'|e] eqn:Ea; [|done].
    intros Hl. destruct (IH _ _ _ Hs1 Hl) as [Hs' Hrest]. split; [done|].
    intros t Ht. destruct (Hg t Ht) as (t1 & -> & Ht1). rewrite Ea. by apply Hrest.
Qed.

Lemma hash_step_mono drv m s h s' :
  RS s -> hash_step xp storeDir f drv m s = (Ok h, s') ->
  RS s' /\ forall t, RT t -> exists t', hash_step xp storeDir g drv m t = (Ok h, t') /\ RT t'.
Proof.
  intros Hs. unfold hash_step. destruct (drv_type drv) as [ty|e]; [|done].
  destruct (isFixed ty).
  - intros [= Hr <-]. split; [done|]. intros t Ht. rewrite Hr. eauto.
  - destruct (inputs_loop f _ _ _ s) as [[[k i2]|e] s1] eqn:E; [|done]. intros [= Hf <-].
    destruct (inputs_loop_mono _ _ _ _ _ _ Hs E) as [Hs1 Hrest]. split; [done|].
    intros t Ht. destruct (Hrest t Ht) as (t' & -> & Ht'). rewrite Hf. eauto.
Qed.
End step_mono.

(** More fuel does not change a result. *)
Lemma hashModulo_spec_fuel fuel fuel' drv m h :
  spec fuel drv m = Ok h -> fuel <= fuel' -> spec fuel' drv m = Ok h.
Proof.
  revert fuel' drv m h. induction fuel as [|fuel IH]; intros fuel' drv m h Hh Hle; [done|].
  destruct fuel' as [|fuel']; [lia|]. cbn [hashModulo_spec] in *.
  match type of Hh with (?r).1 = _ => destruct r as [r0 []] eqn:E; cbn in Hh; subst end.
  eapply (hash_step_mono _ _ (fun _ => True) (fun _ => True)) in E as [_ E]; [| |done].
  - destruct (E tt I) as ([] & -> & _). done.
  - intros p [] x [] _ [= Hx]. split; [done|]. intros [] _. exists tt. split; [|done].
    apply rbind_Ok in Hx as (d & -> & Hx). cbn [rbind]. by rewrite (IH fuel' d false x Hx) by lia.
Qed.

Lemma hashModulo_spec_det fuel fuel' drv m h h' :
  spec fuel drv m = Ok h -> spec fuel' drv m = Ok h' -> h = h'.
Proof.
  intros H1 H2. apply (hashModulo_spec_fuel _ (fuel + fuel')) in H1; [|lia].
  apply (hashModulo_spec_fuel _ (fuel + fuel')) in H2; [|lia]. congruence.
Qed.

(** The table is extended with a computed hash. *)
Lemma cache_ok_insert c p d fuel h :
  cache_ok c -> read p = Ok d -> spec fuel d false = Ok h -> cache_ok (smap_insert p h c).
Proof.
  intros Hc Hd Hh q x. destruct (decide (q = p)) as [->|Hne].
  - rewrite smap_lookup_insert_eq. intros [= <-]. eauto.
  - rewrite smap_lookup_insert_ne by done. apply Hc.
Qed.

Definition spec_lookup (fuel : nat) (p : StorePath) (_ : unit) : result DrvHash * unit :=
  (let* d := read p in spec fuel d false, tt).

Lemma spec_lookup_fuel fuel fuel' p h :
  fuel <= fuel' -> spec_lookup fuel p tt = (Ok h, tt) -> spec_lookup fuel' p tt = (Ok h, tt).
Proof.
  unfold spec_lookup. intros Hle [= Hh]. apply rbind_Ok in Hh as (d & -> & Hh). cbn [rbind].
  by rewrite (hashModulo_spec_fuel fuel fuel' d false h).
Qed.

Lemma inputs_loop_spec_fuel fuel fuel' inputs kind i2 r :
  fuel <= fuel' -> inputs_loop (spec_lookup fuel) inputs kind i2 tt = (Ok r, tt) ->
  inputs_loop (spec_lookup fuel') inputs kind i2 tt = (Ok r, tt).
Proof.
  intros Hle E. eapply (inputs_loop_mono _ _ (fun _ => True) (fun _ => True)) in E as [_ E]; [| |done].
  - destruct (E tt I) as ([] & -> & _). done.
  - intros p [] h [] _ Hh. split; [done|]. intros [] _. exists tt. split; [|done]. by eapply spec_lookup_fuel.
Qed.

(** A lookup that keeps the table right and agrees with the specification. *)
Definition lookup_sound (f : StorePath -> DrvHashes -> result DrvHash * DrvHashes) : Prop :=
  forall p c r c', cache_ok c -> f p c = (r, c') ->
    cache_ok c' /\ forall h, r = Ok h -> exists fuel, spec_lookup fuel p tt = (Ok h, tt).

Lemma inputs_loop_sound f inputs kind i2 c r c' :
  lookup_sound f -> cache_ok c -> inputs_loop f inputs kind i2 c = (r, c') ->
  cache_ok c' /\ forall x, r = Ok x -> exists fuel, inputs_loop (spec_lookup fuel) inputs kind i2 tt = (Ok x, tt).
Proof.
  intros Hf. revert kind i2 c. induction inputs as [|[p node] inputs IH]; intros kind i2 c Hc; cbn [inputs_loop].
  - intros [= <- <-]. split; [done|]. intros x [= <-]. by exists 0.
  - destruct (f p c) as [rp c1] eqn:E. destruct (Hf _ _ _ _ Hc E) as [Hc1 Hspec].
    destruct rp as [h|e]; [|intros [= <- <-]; by split].
    destruct (add_outputs (hashes h) (node_value node) i2) as [i2'|e] eqn:Ea; [|intros [= <- <-]; by split].
    intros Hl. destruct (IH _ _ _ Hc1 Hl) as [Hc' Hrest]. split; [done|].
    intros x Hx. destruct (Hrest x Hx) as [n2 H2]. destruct (Hspec h eq_refl) as [n1 H1].
    exists (n1 + n2). rewrite (spec_lookup_fuel n1 (n1 + n2) p h) by (lia || done). rewrite Ea.
    by apply (inputs_loop_spec_fuel n2); [lia|].
Qed.

Lemma hash_step_sound f drv m c r c' :
  lookup_sound f -> cache_ok c -> hash_step xp storeDir f drv m c = (r, c') ->
  cache_ok c' /\ forall h, r = Ok h -> exists fuel, spec fuel drv m = Ok h.
Proof.
  intros Hf Hc. unfold hash_step.
  assert (forall fuel, spec (S fuel) drv m = (hash_step xp storeDir (spec_lookup fuel) drv m tt).1) as Hspec by done.
  unfold hash_step in Hspec. destruct (drv_type drv) as [ty|e]; [|intros [= <- <-]; by split].
  destruct (isFixed ty).
  - intros [= <- <-]. split; [done|]. intros h Hh. exists 1. by rewrite (Hspec 0).
  - destruct (inputs_loop f _ _ _ c) as [rl c1] eqn:E.
    destruct (inputs_loop_sound _ _ _ _ _ _ _ Hf Hc E) as [Hc1 Hl].
    destruct rl as [[k i2]|e]; [|intros [= <- <-]; by split]. intros [= <- <-]. split; [done|].
    intros h Hh. destruct (Hl _ eq_refl) as [n Hn]. exists (S n). by rewrite Hspec, Hn.
Qed.

Lemma hashMod_sound fuel : lookup_sound (pathDerivationModulo read (hashMod fuel)).
Proof.
  induction fuel as [|fuel IH]; intros p c r c' Hc; unfold pathDerivationModulo;
    (destruct (smap_lookup p c) as [h0|] eqn:El;
      [intros [= <- <-]; split; [done|]; intros h [= <-]; destruct (Hc _ _ El) as (n & d & Hd & Hn);
       exists n; unfold spec_lookup; by rewrite Hd, <- Hn|]);
    (destruct (read p) as [d|e] eqn:Er; [|intros [= <- <-]; by split]).
  - intros [= <- <-]. by split.
  - cbn [hashDerivationModulo]. destruct (hash_step _ _ _ _ _ _) as [rs c1] eqn:E.
    destruct (hash_step_sound _ _ _ _ _ _ IH Hc E) as [Hc1 Hs].
    destruct rs as [h|e]; intros [= <- <-].
    + destruct (Hs h eq_refl) as [n Hn]. split; [by eapply cache_ok_insert|].
      intros h' [= <-]. exists n. unfold spec_lookup. by rewrite Er, <- Hn.
    + by split.
Qed.

Lemma hashMod_complete fuel drv m h c :
  cache_ok c -> spec fuel drv m = Ok h -> exists c', hashMod fuel drv m c = (Ok h, c') /\ cache_ok c'.
Proof.
  revert drv m h c. induction fuel as [|fuel IH]; intros drv m h c Hc Hs; [done|].
  cbn [hashModulo_spec hashDerivationModulo] in *.
  match type of Hs with (?r).1 = _ => destruct r as [r0 []] eqn:E; cbn in Hs; subst end.
  eapply (hash_step_mono _ (pathDerivationModulo read (hashMod fuel)) (fun _ => True) cache_ok) in E as [_ E];
    [by apply E| |done].
  intros p [] x [] _ [= Hx]. split; [done|]. apply rbind_Ok in Hx as (d & Hd & Hx).
  intros t Ht. unfold pathDerivationModulo. destruct (smap_lookup p t) as [y|] eqn:El.
  - destruct (Ht _ _ El) as (n & d' & Hd' & Hn). assert (d' = d) as -> by congruence.
    rewrite (hashModulo_spec_det _ _ _ _ _ _ Hn Hx). eauto.
  - rewrite Hd. destruct (IH d false x t Ht Hx) as (t' & -> & Ht').
    eexists. split; [done|]. by eapply cache_ok_insert.
Qed.
End memo.

(** C14: the memo table is transparent. Started with a table whose entries are
    right (the empty one, for instance), [hashDerivationModulo] keeps it right
    even when it throws, returns only what the recursion without a table
    returns, and returns it whenever that recursion does. *)
Theorem hashDerivationModulo_memo `{Digest} xp storeDir read fuel drv mask c :
  cache_ok xp storeDir read c ->
  (forall r c', hashDerivationModulo xp storeDir read fuel drv mask c = (r, c') ->
     cache_ok xp storeDir read c' /\
     forall h, r = Ok h -> exists fuel', hashModulo_spec xp storeDir read fuel' drv mask = Ok h) /\
  (forall h, hashModulo_spec xp storeDir read fuel drv mask = Ok h ->
     exists c', hashDerivationModulo xp storeDir read fuel drv mask c = (Ok h, c')).
Proof.
  intros Hc. split.
  - intros r c' Hr. destruct fuel as [|fuel]; [injection Hr as <- <-; by split|]. cbn [hashDerivationModulo] in Hr.
    eapply hash_step_sound; [apply hashMod_sound|done|done].
  - intros h Hh. destruct (hashMod_complete xp storeDir read fuel drv mask h c Hc Hh) as (c' & Hc' & _). eauto.
Qed.

Lemma hashDerivationModulo_memo_witness :
  let drv := mkDerivation (mkBasicDerivation [(L "out", DerivationOutput.Deferred)] [] [] [] [] [] (L "foo")) [] in
  exists c', @hashDerivationModulo padded_digest (fun _ => false) (L "/nix/store") (fun _ => throw Error) 1 drv true []
             = (@hashModulo_spec padded_digest (fun _ => false) (L "/nix/store") (fun _ => throw Error) 1 drv true, c').
Proof.
  cbv zeta. eapply (@hashDerivationModulo_memo padded_digest (fun _ => false) (L "/nix/store") (fun _ => throw Error)
    1 _ true []); [intros p h; done|]. vm_compute. reflexivity.
Defined.

(** ** Termination on acyclic graphs *)

Section acyclic.
Context `{Digest} (xp : xpSettings) (storeDir : bytes) (read : StorePath -> result Derivation).
(** Input derivations come before the derivations that use them, and reading
    a derivation terminates. *)
Context (rank : StorePath -> nat).
Hypothesis read_no_fuel : forall p, no_fuel (read p).
Hypothesis acyclic : forall p d, read p = Ok d -> Forall (fun kv => rank kv.1 < rank p) (inputDrvs d).

Lemma rbind_no_fuel_eqn {A B} (m : result A) (k : A -> result B) :
  no_fuel m -> (forall a, m = Ok a -> no_fuel (k a)) -> no_fuel (rbind m k).
Proof. unfold no_fuel. destruct m; cbn; auto. congruence. Qed.

Lemma to_string_no_fuel h f b : no_fuel (to_string h f b).
Proof. unfold to_string, printHash32, assert_. destruct f; no_fuel_tac. Qed.

Lemma hashString_no_fuel a s : no_fuel (hashString xp a s).
Proof. unfold hashString, Hash_zero. no_fuel_tac. Qed.

Lemma compressHash_no_fuel h n : no_fuel (compressHash xp h n).
Proof. unfold compressHash, Hash_zero. no_fuel_tac. Qed.

Lemma makeStorePath_hash_no_fuel t h n : no_fuel (makeStorePath_hash xp storeDir t h n).
Proof.
  unfold makeStorePath_hash, makeStorePath, StorePath_make, checkPathName.
  repeat first [done | apply to_string_no_fuel | apply hashString_no_fuel | apply compressHash_no_fuel
    | rewrite checkName_regex | apply rbind_no_fuel; intros | case_match | congruence].
Qed.

Lemma CAFixed_path_no_fuel ca n o : no_fuel (CAFixed_path xp storeDir ca n o).
Proof.
  unfold CAFixed_path, makeFixedOutputPathFromCA, makeFixedOutputPath, makeFileIngestionPrefix.
  repeat first [done | apply makeStorePath_hash_no_fuel | apply to_string_no_fuel | apply hashString_no_fuel
    | apply require_no_fuel | apply rbind_no_fuel; intros | case_match | progress unfold assert_].
Qed.

Lemma renderPrefix_no_fuel m : no_fuel (caMethod_renderPrefix xp m).
Proof. unfold caMethod_renderPrefix, makeFileIngestionPrefix. destruct m; no_fuel_tac. Qed.

Lemma rmapM_no_fuel {A B} (f : A -> result B) l : (forall x, no_fuel (f x)) -> no_fuel (rmapM f l).
Proof. intros Hf. induction l as [|x l IH]; cbn [rmapM]; [done|]. repeat (apply rbind_no_fuel; intros); done. Qed.

Lemma unparse_no_fuel drv m i2 : no_fuel (unparse xp storeDir drv m i2).
Proof.
  unfold unparse. apply rbind_no_fuel; [|done]. apply rmapM_no_fuel. intros [n o].
  unfold unparse_output, output_strings, printMethodAlgo.
  repeat first [done | apply CAFixed_path_no_fuel | apply renderPrefix_no_fuel | apply to_string_no_fuel
    | apply rbind_no_fuel; intros | case_match].
Qed.

Lemma fixed_hashes_no_fuel n outs acc : no_fuel (fixed_hashes xp storeDir n outs acc).
Proof.
  revert acc. induction outs as [|[o []] outs IH]; intros acc; cbn [fixed_hashes]; try done.
  unfold printMethodAlgo.
  repeat first [done | apply IH | apply CAFixed_path_no_fuel | apply renderPrefix_no_fuel
    | apply to_string_no_fuel | apply hashString_no_fuel | apply rbind_no_fuel; intros].
Qed.

Lemma add_outputs_no_fuel hs v i2 : no_fuel (add_outputs hs v i2).
Proof.
  revert i2. induction v as [|o v IH]; intros i2; cbn [add_outputs]; [done|]. case_match; [|done].
  apply rbind_no_fuel; [apply to_string_no_fuel|]. auto.
Qed.

Lemma drv_type_no_fuel d : no_fuel (drv_type d).
Proof.
  unfold drv_type. destruct (classify_all _ _) as [[]|f] eqn:E; cbn [rbind].
  - repeat case_match; done.
  - apply classify_all_error in E as ->. done.
Qed.

(** The step does not run out of fuel if no lookup it makes does. *)
Lemma hash_step_no_fuel {S} (f : StorePath -> S -> result DrvHash * S) drv m st :
  Forall (fun kv => forall st, no_fuel (f kv.1 st).1) (inputDrvs drv) ->
  no_fuel (hash_step xp storeDir f drv m st).1.
Proof.
  intros Hin. unfold hash_step. pose proof (drv_type_no_fuel drv) as Ht.
  destruct (drv_type drv) as [ty|e]; cbn [fst]; [|unfold no_fuel in *; congruence].
  destruct (isFixed ty); cbn [fst].
  { apply rbind_no_fuel; [apply fixed_hashes_no_fuel|done]. }
  assert (forall k i st, no_fuel (inputs_loop f (inputDrvs drv) k i st).1) as Hl.
  { induction Hin as [|[p node] inputs Hp Hin IHl]; intros k i s; cbn [inputs_loop]; [done|].
    specialize (Hp s). cbn [fst] in Hp. destruct (f p s) as [[h|e] s1]; cbn [fst] in *; [|unfold no_fuel in *; congruence].
    pose proof (add_outputs_no_fuel (hashes h) (node_value node) i) as Ha.
    destruct (add_outputs (hashes h) (node_value node) i) as [i'|e]; [apply IHl|]. cbn [fst].
    unfold no_fuel in *. congruence. }
  specialize (Hl (initial_kind ty) [] st). destruct (inputs_loop _ _ _ _ _) as [[[k i2]|e] s1]; cbn [fst] in *.
  - unfold finish_hash. apply rbind_no_fuel; [apply unparse_no_fuel|]. intros s.
    apply rbind_no_fuel; [apply hashString_no_fuel|done].
  - unfold no_fuel in *. congruence.
Qed.

Lemma hashModulo_terminates fuel drv m c :
  Forall (fun kv => rank kv.1 < fuel) (inputDrvs drv) ->
  no_fuel (hashDerivationModulo xp storeDir read (S fuel) drv m c).1.
Proof.
  revert drv m c. induction fuel as [fuel IH] using lt_wf_ind. intros drv m c Hin.
  cbn [hashDerivationModulo]. apply hash_step_no_fuel. eapply Forall_impl; [done|].
  intros [p node] Hp st. cbn [fst] in *. unfold pathDerivationModulo. destruct (smap_lookup p st); [done|].
  pose proof (read_no_fuel p) as Hr. destruct (read p) as [d|e] eqn:Er; [|unfold no_fuel in *; cbn [fst]; congruence].
  destruct fuel as [|fuel]; [lia|].
  assert (no_fuel (hashDerivationModulo xp storeDir read (S fuel) d false st).1) as Hd.
  { apply IH; [lia|]. eapply Forall_impl; [by apply (acyclic p)|]. intros kv Hkv. cbv beta in Hkv. lia. }
  destruct (hashDerivationModulo _ _ _ _ _ _ _) as [[h|e] st']; [done|]. cbn [fst] in *.
  unfold no_fuel in *. congruence.
Qed.
End acyclic.

(** On an acyclic store, where [rank] decreases from a derivation to its
    inputs, hashing terminates: a recursion depth of one more than the ranks
    of the inputs is enough, whatever is in the memo table. *)
Theorem hashDerivationModulo_terminates `{Digest} xp storeDir read rank fuel drv mask c :
  (forall p, read p <> Err OutOfFuel) ->
  (forall p d, read p = Ok d -> Forall (fun kv => rank kv.1 < rank p) (inputDrvs d)) ->
  Forall (fun kv => rank kv.1 < fuel) (inputDrvs drv) ->
  (hashDerivationModulo xp storeDir read (S fuel) drv mask c).1 <> Err OutOfFuel.
Proof. intros. by eapply (hashModulo_terminates xp storeDir read rank). Qed.

Lemma hashDerivationModulo_terminates_witness :
  (@hashDerivationModulo padded_digest (fun _ => true) (L "/nix/store")
     (fun _ => Ok (mkDerivation (basic example_derivation) [])) 2 example_derivation true []).1 <> Err OutOfFuel.
Proof.
  apply (@hashDerivationModulo_terminates padded_digest (fun _ => true) (L "/nix/store") _ (fun _ => 0)).
  - done.
  - intros p d [= <-]. constructor.
  - repeat constructor.
Defined.

(** ** What the hash does not see *)

(** The hash of a derivation does not depend on which outputs of
    dynamically produced derivations it uses: two derivations that agree on
    everything except the inner nodes of their input map have equal hashes. *)
Theorem hashDerivationModulo_ignores_dynamic_outputs `{Digest} xp storeDir read fuel d1 d2 mask c :
  basic d1 = basic d2 -> hasDynamicDrvDep d1 = hasDynamicDrvDep d2 ->
  Forall2 (fun x y => x.1 = y.1 /\ node_value x.2 = node_value y.2) (inputDrvs d1) (inputDrvs d2) ->
  hashDerivationModulo xp storeDir read fuel d1 mask c = hashDerivationModulo xp storeDir read fuel d2 mask c.
Proof.
  intros Hb Hd Hin. destruct fuel as [|fuel]; [done|]. cbn [hashDerivationModulo]. unfold hash_step.
  rewrite <- Hb. destruct (drv_type d1) as [ty|f]; [|done]. destruct (isFixed ty); [done|].
  assert (forall k i c, inputs_loop (pathDerivationModulo read (hashDerivationModulo xp storeDir read fuel))
      (inputDrvs d1) k i c =
    inputs_loop (pathDerivationModulo read (hashDerivationModulo xp storeDir read fuel)) (inputDrvs d2) k i c) as ->.
  { induction Hin as [|[p1 n1] [p2 n2] l1 l2 [Hp Hn] Hin IH]; [done|]. cbn in Hp, Hn. subst p2.
    intros k i c'. cbn [inputs_loop]. rewrite <- Hn. destruct (pathDerivationModulo _ _ _ _) as [[h|f] c1]; [|done].
    destruct (add_outputs _ _ _); [apply IH|done]. }
  destruct (inputs_loop _ _ _ _ _) as [[[k i2]|f] c1]; [|done]. f_equal.
  unfold finish_hash, unparse. by rewrite <- Hb, <- Hd.
Qed.

Lemma hashDerivationModulo_ignores_dynamic_outputs_witness :
  let drv o := mkDerivation (mkBasicDerivation [(L "out", DerivationOutput.Deferred)] [] [] [] [] [] (L "foo"))
                 [(example_drv, mkChildNode [] [(L "out", mkChildNode [o] [])])] in
  @hashDerivationModulo padded_digest (fun _ => true) (L "/nix/store") (fun _ => Ok example_derivation) 3
    (drv (L "out")) true [] =
  @hashDerivationModulo padded_digest (fun _ => true) (L "/nix/store") (fun _ => Ok example_derivation) 3
    (drv (L "doc")) true [].
Proof.
  cbv zeta. apply (@hashDerivationModulo_ignores_dynamic_outputs padded_digest).
  - reflexivity.
  - reflexivity.
  - by repeat constructor.
Defined.
