(* ===== verification/Resolve.v ===== *)
(** * Resolving derivations (libstore/derivations.cc)

    Rewriting a derivation, computing its deferred output paths, replacing its
    input derivations by their built outputs, checking it against its store
    path, and the path a [.drv] file is written to. *)

From S2P Require Import Prelude.
From S2P Require Import Containers.
From S2P Require Import Strings.
From S2P Require Import Hash.
From S2P Require Import CanonPath.
From S2P Require Import StorePath.
From S2P Require Import ContentAddress.
From S2P Require Import DerivedPath.
From S2P Require Import Derivations.
From S2P Require Import ATerm.
From S2P Require Import DerivationHash.

Section resolve.
Context `{Digest} (xp : xpSettings) (storeDir : bytes).
Context (readInvalidDerivation : StorePath -> result Derivation).
(** The bound on the replacements in one string. *)
Context (fuel : nat).

Definition hashPlaceholder (outputName : bytes) : result bytes :=
  let* h := hashString xp SHA256 (L "nix-output:" ++ outputName) in
  let* s := to_string h Nix32 false in
  Ok (L "/" ++ s).

Definition rewriteStrings_r (s : bytes) (rewrites : list (bytes * bytes)) : result bytes :=
  match rewriteStrings_fuel fuel s rewrites with Some s => Ok s | None => Err OutOfFuel end.

Fixpoint rewrite_env (l : list (bytes * bytes)) (rewrites : list (bytes * bytes)) (newEnv : list (bytes * bytes)) :
    result (list (bytes * bytes)) :=
  match l with
  | [] => Ok newEnv
  | (name, value) :: l =>
      let* envName := rewriteStrings_r name rewrites in
      let* envValue := rewriteStrings_r value rewrites in
      rewrite_env l rewrites (smap_emplace envName envValue newEnv)
  end.

Definition applyRewrites (d : BasicDerivation) (rewrites : list (bytes * bytes)) : result BasicDerivation :=
  match rewrites with
  | [] => Ok d
  | _ =>
      let* bld := rewriteStrings_r (builder d) rewrites in
      let* arguments := rmapM (fun arg => rewriteStrings_r arg rewrites) (args d) in
      let* environ := rewrite_env (env d) rewrites [] in
      Ok (mkBasicDerivation (outputs d) (inputSrcs d) (platform d) bld arguments environ (drv_name d))
  end.

(** The loop over the outputs: a deferred output gets the path computed from
    its hash, and so does the environment variable of its name. *)
Fixpoint fill_outputs (name : bytes) (hs : list (bytes * Hash)) (outs : list (bytes * DerivationOutput))
    (en : list (bytes * bytes)) : result (list (bytes * DerivationOutput) * list (bytes * bytes)) :=
  match outs with
  | [] => Ok ([], en)
  | (outputName, output) :: outs =>
      match output with
      | DerivationOutput.Deferred =>
          match smap_lookup outputName hs with
          | None => throw Error
          | Some h =>
              let* outPath := makeOutputPath xp storeDir outputName h name in
              let* (outs, en) := fill_outputs name hs outs
                (smap_insert outputName (printStorePath storeDir outPath) en) in
              Ok ((outputName, DerivationOutput.InputAddressed outPath) :: outs, en)
          end
      | _ =>
          let* (outs, en) := fill_outputs name hs outs en in
          Ok ((outputName, output) :: outs, en)
      end
  end.

(** [hashDerivationModulo(store, Derivation(drv), true)]: a basic derivation
    has no input derivations, so neither the store nor the memo table is
    consulted. *)
Definition basic_hash (d : BasicDerivation) : result DrvHash :=
  (hashDerivationModulo xp storeDir readInvalidDerivation 1 (mkDerivation d []) true []).1.

Definition rewriteDerivation (d : BasicDerivation) (rewrites : list (bytes * bytes)) : result BasicDerivation :=
  let* d := applyRewrites d rewrites in
  let* hashModulo := basic_hash d in
  let* (outs, en) := fill_outputs (drv_name d) (hashes hashModulo) (outputs d) (env d) in
  Ok (mkBasicDerivation outs (inputSrcs d) (platform d) (builder d) (args d) en (drv_name d)).

(** *** Resolving inputs *)

Abbreviation OutputMap := (list ((StorePath * bytes) * StorePath)).
Abbreviation ResolveState := (list StorePath * list (bytes * bytes))%type.

Section tryResolveInput.
Context (inputDrvOutputs : OutputMap).

Definition getPlaceholder (placeholderOpt : option Hash) (inputDrv : StorePath) (outputName : bytes) : result Hash :=
  match placeholderOpt with
  | Some placeholder => unknownDerivation xp placeholder outputName
  | None => unknownCaOutput xp inputDrv outputName
  end.

(** The first loop; [None] is [return false]. *)
Fixpoint resolve_values (placeholderOpt : option Hash) (inputDrv : StorePath) (value : list bytes)
    (st : ResolveState) : result (option ResolveState) :=
  match value with
  | [] => Ok (Some st)
  | outputName :: value =>
      match smap_lookup (inputDrv, outputName) inputDrvOutputs with
      | None => Ok None
      | Some actualPath =>
          let* rewrites :=
            (if xp CaDerivations then
               let* h := getPlaceholder placeholderOpt inputDrv outputName in
               let* s := placeholder_render h in
               Ok (smap_emplace s (printStorePath storeDir actualPath) st.2)
             else Ok st.2) in
          resolve_values placeholderOpt inputDrv value (sset_insert actualPath st.1, rewrites)
      end
  end.

Fixpoint tryResolveInput (placeholderOpt : option Hash) (inputDrv : StorePath) (inputNode : InputNode)
    (st : ResolveState) : result (option ResolveState) :=
  let 'mkChildNode value childMap := inputNode in
  let* r := resolve_values placeholderOpt inputDrv value st in
  match r with
  | None => Ok None
  | Some st =>
      (fix go (childMap : list (bytes * InputNode)) (st : ResolveState) : result (option ResolveState) :=
         match childMap with
         | [] => Ok (Some st)
         | (outputName, childNode) :: childMap =>
             match smap_lookup (inputDrv, outputName) inputDrvOutputs with
             | None => Ok None
             | Some actualPath =>
                 let* nextPlaceholder := getPlaceholder placeholderOpt inputDrv outputName in
                 let* r := tryResolveInput (Some nextPlaceholder) actualPath childNode st in
                 match r with
                 | None => Ok None
                 | Some st => go childMap st
                 end
             end
         end) childMap st
  end.

Fixpoint resolve_inputs (inputs : DerivedPathMap (list bytes)) (st : ResolveState) : result (option ResolveState) :=
  match inputs with
  | [] => Ok (Some st)
  | (inputDrv, inputNode) :: inputs =>
      let* r := tryResolveInput None inputDrv inputNode st in
      match r with None => Ok None | Some st => resolve_inputs inputs st end
  end.
End tryResolveInput.

Definition tryResolve (d : Derivation) (inputDrvOutputs : OutputMap) : result (option BasicDerivation) :=
  let* r := resolve_inputs inputDrvOutputs (inputDrvs d) (inputSrcs d, []) in
  match r with
  | None => Ok None
  | Some (srcs, inputRewrites) =>
      let* resolved := rewriteDerivation
        (mkBasicDerivation (outputs d) srcs (platform d) (builder d) (args d) (env d) (drv_name d)) inputRewrites in
      Ok (Some resolved)
  end.

(** [accum]: collects the known outputs of an input and of what it produces.
    The fuel bounds the height of the node. *)
Section accum.
Context (queryPartialDerivationOutputMap : StorePath -> result (list (bytes * option StorePath))).

Fixpoint accum (n : nat) (inputDrv : StorePath) (node : InputNode) (acc : OutputMap) : result OutputMap :=
  match n with
  | O => Err OutOfFuel
  | S n =>
      let* known := queryPartialDerivationOutputMap inputDrv in
      (fix go (known : list (bytes * option StorePath)) (acc : OutputMap) : result OutputMap :=
         match known with
         | [] => Ok acc
         | (outputName, Some outputPath) :: known =>
             let acc := smap_insert (inputDrv, outputName) outputPath acc in
             let* acc := match smap_lookup outputName (node_childMap node) with
                         | Some p => accum n outputPath p acc
                         | None => Ok acc
                         end in
             go known acc
         | (_, None) :: known => go known acc
         end) known acc
  end.

Fixpoint accum_all (inputs : DerivedPathMap (list bytes)) (acc : OutputMap) : result OutputMap :=
  match inputs with
  | [] => Ok acc
  | (inputDrv, node) :: inputs =>
      let* acc := accum (S (node_height node)) inputDrv node acc in accum_all inputs acc
  end.

Definition tryResolve_store (d : Derivation) : result (option BasicDerivation) :=
  let* inputDrvOutputs := accum_all (inputDrvs d) [] in tryResolve d inputDrvOutputs.
End accum.

(** *** Checking *)

Definition envHasRightPath (en : list (bytes * bytes)) (actual : StorePath) (varName : bytes) : result unit :=
  match smap_lookup varName en with
  | None => throw Error
  | Some v =>
      let* p := parseStorePath storeDir v in
      if bool_decide (p = actual) then Ok tt else throw Error
  end.

(** The loop over the outputs; the hashes are computed at the first
    input-addressed output. *)
Fixpoint check_outputs (n : nat) (d : Derivation) (drvName : bytes) (outs : list (bytes * DerivationOutput))
    (hashesModulo : option DrvHash) (drvHashes : DrvHashes) : result unit * DrvHashes :=
  match outs with
  | [] => (Ok tt, drvHashes)
  | (outputName, output) :: outs =>
      match output with
      | DerivationOutput.InputAddressed path =>
          let '(hm, drvHashes) :=
            match hashesModulo with
            | Some h => (Ok h, drvHashes)
            | None => hashDerivationModulo xp storeDir readInvalidDerivation n d true drvHashes
            end in
          match hm with
          | Err f => (Err f, drvHashes)
          | Ok h =>
              let r :=
                match smap_lookup outputName (hashes h) with
                | None => throw Error
                | Some currentOutputHash =>
                    let* recomputed := makeOutputPath xp storeDir outputName currentOutputHash drvName in
                    if bool_decide (path <> recomputed) then throw Error
                    else envHasRightPath (env d) path outputName
                end in
              match r with
              | Err f => (Err f, drvHashes)
              | Ok _ => check_outputs n d drvName outs (Some h) drvHashes
              end
          end
      | DerivationOutput.CAFixed ca =>
          match (let* path := CAFixed_path xp storeDir ca drvName outputName in
                 envHasRightPath (env d) path outputName) with
          | Err f => (Err f, drvHashes)
          | Ok _ => check_outputs n d drvName outs hashesModulo drvHashes
          end
      | _ => check_outputs n d drvName outs hashesModulo drvHashes
      end
  end.

Definition checkInvariants (n : nat) (d : Derivation) (drvPath : StorePath) (drvHashes : DrvHashes) :
    result unit * DrvHashes :=
  if negb (isDerivation drvPath) then (Err AssertFailed, drvHashes)
  else
    let drvName := take (length (sp_name drvPath) - length drvExtension) (sp_name drvPath) in
    if negb (bool_decide (drvName = drv_name d)) then (throw Error, drvHashes)
    else
      match drv_type d with
      | Err f => (Err f, drvHashes)
      | Ok _ => check_outputs n d drvName (outputs d) None drvHashes
      end.

(** [writeDerivation] in read-only mode: the path the file would have. *)
Definition writeDerivation_path (d : Derivation) : result StorePath :=
  let references := sset_union (inputSrcs d) (fst <$> inputDrvs d) in
  let suffix := drv_name d ++ drvExtension in
  let* contents := unparse xp storeDir d false None in
  let* h := hashString xp SHA256 contents in
  makeFixedOutputPathFromCA xp storeDir suffix (TextInfo h references).
End resolve.

(** ** Deferred outputs are filled in *)

Lemma fill_outputs_spec `{Digest} xp d name hs outs en outs' en' :
  fill_outputs xp d name hs outs en = Ok (outs', en') ->
  Forall2 (fun x y => x.1 = y.1 /\
    match x.2 with
    | DerivationOutput.Deferred => exists h p, smap_lookup x.1 hs = Some h /\
        makeOutputPath xp d x.1 h name = Ok p /\ y.2 = DerivationOutput.InputAddressed p
    | o => y.2 = o
    end) outs outs'.
Proof.
  revert en outs' en'. induction outs as [|[o out] outs IH]; intros en outs' en' Hf; cbn [fill_outputs] in Hf.
  { inv_result. simplify_eq. constructor. }
  destruct out; try (apply rbind_Ok in Hf as ([o1 e1] & H1 & Hf); inv_result; simplify_eq;
    constructor; [done|by eapply IH]).
  destruct (smap_lookup o hs) as [h|] eqn:El; [|done].
  apply rbind_Ok in Hf as (p & Hp & Hf). apply rbind_Ok in Hf as ([o1 e1] & H1 & Hf). inv_result. simplify_eq.
  constructor; [|by eapply IH]. split; [done|]. cbn. eauto.
Qed.

(** The environment variables of the outputs filled in hold their paths; the
    others are untouched. *)
Lemma fill_outputs_env `{Digest} xp d name hs outs en outs' en' :
  fill_outputs xp d name hs outs en = Ok (outs', en') -> NoDup (fst <$> outs) ->
  (forall n p, (n, DerivationOutput.Deferred) ∈ outs -> (n, DerivationOutput.InputAddressed p) ∈ outs' ->
     smap_lookup n en' = Some (printStorePath d p)) /\
  (forall n, (n, DerivationOutput.Deferred) ∉ outs -> smap_lookup n en' = smap_lookup n en).
Proof.
  revert en outs' en'. induction outs as [|[o out] outs IH]; intros en outs' en' Hf Hnd; cbn [fill_outputs] in Hf.
  { inv_result. simplify_eq. split; [|done]. by intros n p ?%not_elem_of_nil. }
  rewrite fmap_cons in Hnd. apply NoDup_cons in Hnd as [Hnew Hnd]. cbn [fst] in Hnew.
  assert (forall o1 e0 e1, fill_outputs xp d name hs outs e0 = Ok (o1, e1) -> forall x, (o, x) ∉ o1) as Hnew'.
  { intros o1 e0 e1 H1 x Hx. apply fill_outputs_spec in H1.
    apply list_elem_of_lookup in Hx as [i Hi].
    destruct (Forall2_lookup_r _ _ _ _ _ H1 Hi) as ([o2 x2] & Hin & Heq & _). cbn in Heq. subst o2.
    apply list_elem_of_lookup_2 in Hin. apply Hnew, list_elem_of_fmap. by exists (o, x2). }
  assert (out <> DerivationOutput.Deferred -> exists o1, fill_outputs xp d name hs outs en = Ok (o1, en')
    /\ outs' = (o, out) :: o1) as Hkeep.
  { intros Hne. destruct out; try done; apply rbind_Ok in Hf as ([o1 e1] & H1 & Hf); inv_result; simplify_eq; eauto. }
  destruct (decide (out = DerivationOutput.Deferred)) as [->|Hne].
  - clear Hkeep. destruct (smap_lookup o hs) as [h|] eqn:El; [|done].
    apply rbind_Ok in Hf as (p & Hp & Hf). apply rbind_Ok in Hf as ([o1 e1] & H1 & Hf). inv_result. simplify_eq.
    destruct (IH _ _ _ H1 Hnd) as [IH1 IH2]. split.
    + intros n q [[= ->]|Hin]%elem_of_cons [[= ->]|Hin']%elem_of_cons.
      * rewrite IH2; [apply smap_lookup_insert_eq|]. intros Hd. apply Hnew, list_elem_of_fmap.
        by exists (o, DerivationOutput.Deferred).
      * by destruct (Hnew' _ _ _ H1 (DerivationOutput.InputAddressed q)).
      * destruct Hnew. apply list_elem_of_fmap. by exists (o, DerivationOutput.Deferred).
      * by apply IH1.
    + intros n Hn. rewrite IH2 by set_solver. apply smap_lookup_insert_ne. set_solver.
  - destruct (Hkeep Hne) as (o1 & H1 & ->). destruct (IH _ _ _ H1 Hnd) as [IH1 IH2]. split.
    + intros n q [[= _ Hx]|Hin]%elem_of_cons Hin'; [congruence|].
      apply elem_of_cons in Hin' as [[= -> <-]|Hin'].
      * destruct Hnew. apply list_elem_of_fmap. by exists (o, DerivationOutput.Deferred).
      * by apply IH1.
    + intros n Hn. apply IH2. set_solver.
Qed.

Lemma smap_wf_NoDup {K V} `{OrdKey K} (m : list (K * V)) : smap_wf m -> NoDup (fst <$> m).
Proof.
  unfold smap_wf, sset_wf. induction 1 as [|x l Hl IH Hx]; constructor; [|done].
  intros Hin. rewrite Forall_forall in Hx. by apply (klt_irrefl x), Hx.
Qed.

Lemma applyRewrites_outputs fuel d rw d' :
  applyRewrites fuel d rw = Ok d' ->
  outputs d' = outputs d /\ inputSrcs d' = inputSrcs d /\ drv_name d' = drv_name d.
Proof. unfold applyRewrites. intros Ha. destruct rw; inv_result; done. Qed.

(** Resolving a derivation leaves no output deferred: each deferred output
    becomes input-addressed, at the path computed from the hash of the
    rewritten derivation, and the environment variable of its name holds that
    path; the other outputs, the sources and the name are unchanged. *)
Theorem rewriteDerivation_fills_deferred `{Digest} xp storeDir read fuel d rewrites d' :
  smap_wf (outputs d) -> rewriteDerivation xp storeDir read fuel d rewrites = Ok d' ->
  Forall2 (fun x y => x.1 = y.1 /\
    match x.2 with
    | DerivationOutput.Deferred => exists h p,
        makeOutputPath xp storeDir x.1 h (drv_name d) = Ok p /\ y.2 = DerivationOutput.InputAddressed p /\
        smap_lookup x.1 (env d') = Some (printStorePath storeDir p)
    | o => y.2 = o
    end) (outputs d) (outputs d') /\
  inputSrcs d' = inputSrcs d /\ drv_name d' = drv_name d.
Proof.
  intros Hwf Hr. unfold rewriteDerivation in Hr. apply rbind_Ok in Hr as (d1 & Ha & Hr).
  apply rbind_Ok in Hr as (hm & _ & Hr). apply rbind_Ok in Hr as ([outs en] & Hf & Hr). inv_result.
  destruct (applyRewrites_outputs _ _ _ _ Ha) as (Ho & Hs & Hn). cbn [outputs inputSrcs drv_name env].
  rewrite Ho, Hn in Hf. split; [|by rewrite Hs, Hn].
  pose proof (fill_outputs_spec _ _ _ _ _ _ _ _ Hf) as Hspec.
  destruct (fill_outputs_env _ _ _ _ _ _ _ _ Hf (smap_wf_NoDup _ Hwf)) as [Henv _].
  apply Forall2_same_length_lookup. split; [by eapply Forall2_length|].
  intros i x y Hx Hy. destruct (Forall2_lookup_lr _ _ _ _ _ _ Hspec Hx Hy) as [Heq Hout]. split; [done|].
  destruct x as [n []], y as [n' o']; cbn [fst snd] in *; subst n'; try done.
  destruct Hout as (h & p & _ & Hp & ->). exists h, p. split; [done|]. split; [done|].
  apply Henv; by eapply list_elem_of_lookup_2.
Qed.

Definition deferred_derivation : BasicDerivation :=
  mkBasicDerivation [(L "out", DerivationOutput.Deferred)] [] (L "x") (L "/bin/sh") [] [(L "out", [])] (L "foo").

Lemma rewriteDerivation_fills_deferred_witness :
  exists d', @rewriteDerivation padded_digest (fun _ => false) (L "/nix/store") (fun _ => throw Error) 100
               deferred_derivation [] = Ok d' /\ drv_name d' = L "foo" /\ drv_type d' = Ok (DerivationType.InputAddressed false).
Proof.
  destruct (@rewriteDerivation padded_digest (fun _ => false) (L "/nix/store") (fun _ => throw Error) 100
    deferred_derivation []) as [d'|f] eqn:E.
  - exists d'. split; [reflexivity|]. split.
    + apply (@rewriteDerivation_fills_deferred padded_digest _ _ _ _ deferred_derivation [] d' ltac:(by repeat constructor) E).
    + vm_compute in E. injection E as <-. reflexivity.
  - vm_compute in E. discriminate E.
Defined.

(** ** The sources of a resolved derivation *)

Section used.
Context (outs : list ((StorePath * bytes) * StorePath)).

(** The built paths an input node stands for. *)
Fixpoint used_paths (inputDrv : StorePath) (node : InputNode) : list StorePath :=
  let 'mkChildNode value childMap := node in
  omap (fun o => smap_lookup (inputDrv, o) outs) value ++
  (fix go (cm : list (bytes * InputNode)) : list StorePath :=
     match cm with
     | [] => []
     | (o, child) :: cm =>
         match smap_lookup (inputDrv, o) outs with Some p => used_paths p child | None => [] end ++ go cm
     end) childMap.

Context `{Digest} (xp : xpSettings) (storeDir : bytes).

Lemma resolve_values_srcs ph p value st st' :
  resolve_values xp storeDir outs ph p value st = Ok (Some st') ->
  (forall q, q ∈ st'.1 <-> q ∈ st.1 \/ q ∈ omap (fun o => smap_lookup (p, o) outs) value) /\
  (forall o, o ∈ value -> is_Some (smap_lookup (p, o) outs)).
Proof.
  revert st. induction value as [|o value IH]; intros st Hr; cbn [resolve_values] in Hr.
  { inv_result. simplify_eq. split; [|by intros o ?%not_elem_of_nil]. intros q. cbn. set_solver. }
  destruct (smap_lookup (p, o) outs) as [a|] eqn:El; [|done].
  apply rbind_Ok in Hr as (rw & _ & Hr). destruct (IH _ Hr) as [IH1 IH2]. split.
  - intros q. rewrite IH1. cbn [fst]. rewrite sset_insert_elem. cbn [omap list_omap]. rewrite El.
    rewrite elem_of_cons. tauto.
  - intros o' [->|Ho']%elem_of_cons; [by rewrite El|auto].
Qed.

Lemma tryResolveInput_srcs node ph p st st' :
  tryResolveInput xp storeDir outs ph p node st = Ok (Some st') ->
  forall q, q ∈ st'.1 <-> q ∈ st.1 \/ q ∈ used_paths p node.
Proof.
  revert ph p st st'. induction node as [value cm IH] using node_ind'. intros ph p st st' Hr q.
  cbn [tryResolveInput used_paths] in *. apply rbind_Ok in Hr as ([s1|] & Hv & Hr); [|done].
  apply resolve_values_srcs in Hv as [Hv _]. rewrite elem_of_app. specialize (Hv q).
  match goal with |- _ <-> _ \/ (_ \/ ?G) => enough (q ∈ st'.1 <-> q ∈ s1.1 \/ G) by tauto end. clear Hv value st.
  revert s1 Hr. induction IH as [|[o child] cm Hchild IHcm IHl]; intros s1 Hr; cbn [snd] in *.
  { inv_result. simplify_eq. set_solver. }
  destruct (smap_lookup (p, o) outs) as [a|] eqn:El; [|done].
  apply rbind_Ok in Hr as (ph' & _ & Hr). apply rbind_Ok in Hr as ([s2|] & Hc & Hr); [|done].
  rewrite (IHl _ Hr), (Hchild _ _ _ _ Hc), elem_of_app. tauto.
Qed.

Lemma resolve_inputs_srcs inputs st st' :
  resolve_inputs xp storeDir outs inputs st = Ok (Some st') ->
  forall q, q ∈ st'.1 <-> q ∈ st.1 \/ exists kv, kv ∈ inputs /\ q ∈ used_paths kv.1 kv.2.
Proof.
  revert st. induction inputs as [|[p node] inputs IH]; intros st Hr q; cbn [resolve_inputs] in Hr.
  { inv_result. simplify_eq. split; [by left|]. intros [?|(kv & ?%not_elem_of_nil & _)]; done. }
  apply rbind_Ok in Hr as ([s1|] & Hc & Hr); [|done].
  rewrite (IH _ Hr), (tryResolveInput_srcs _ _ _ _ _ Hc). setoid_rewrite elem_of_cons. split.
  - intros [[?|?]|(kv & ? & ?)]; [by left|right; exists (p, node); auto|right; eauto].
  - intros [?|(kv & [->|?] & ?)]; [by do 2 left|left; by right|right; eauto].
Qed.
End used.

(** A resolved derivation depends on exactly the sources of the original
    and the built paths of the outputs it used, followed through dynamically
    produced derivations; it keeps the name and has no input derivations. *)
Theorem tryResolve_inputSrcs `{Digest} xp storeDir read fuel d inputDrvOutputs r :
  tryResolve xp storeDir read fuel d inputDrvOutputs = Ok (Some r) -> smap_wf (outputs d) ->
  (forall p, p ∈ inputSrcs r <->
     p ∈ inputSrcs d \/ exists kv, kv ∈ inputDrvs d /\ p ∈ used_paths inputDrvOutputs kv.1 kv.2) /\
  drv_name r = drv_name d.
Proof.
  intros Hr Hwf. unfold tryResolve in Hr. apply rbind_Ok in Hr as ([[srcs rw]|] & Hi & Hr); [|done].
  apply rbind_Ok in Hr as (r' & Hw & Hr). inv_result. simplify_eq.
  unfold rewriteDerivation in Hw. apply rbind_Ok in Hw as (d1 & Ha & Hw).
  apply rbind_Ok in Hw as (hm & _ & Hw). apply rbind_Ok in Hw as ([outs en] & _ & Hw). inv_result.
  destruct (applyRewrites_outputs _ _ _ _ Ha) as (_ & Hs & Hn). cbn [inputSrcs drv_name] in *.
  split; [|done]. intros p. rewrite Hs. apply (resolve_inputs_srcs _ _ _ _ _ _ Hi).
Qed.

Lemma tryResolve_inputSrcs_witness :
  exists r, @tryResolve padded_digest (fun _ => false) (L "/nix/store") (fun _ => throw Error) 100
              (mkDerivation deferred_derivation [(example_drv, mkChildNode [L "out"] [])])
              [((example_drv, L "out"), mkStorePath example_base)] = Ok (Some r) /\
    (mkStorePath example_base ∈ inputSrcs r <->
     mkStorePath example_base ∈ inputSrcs deferred_derivation \/
     exists kv, kv ∈ [(example_drv, mkChildNode [L "out"] [])] /\
       mkStorePath example_base ∈ used_paths [((example_drv, L "out"), mkStorePath example_base)] kv.1 kv.2).
Proof.
  destruct (@tryResolve padded_digest (fun _ => false) (L "/nix/store") (fun _ => throw Error) 100
    (mkDerivation deferred_derivation [(example_drv, mkChildNode [L "out"] [])])
    [((example_drv, L "out"), mkStorePath example_base)]) as [[r|]|f] eqn:E.
  - exists r. split; [reflexivity|].
    apply (@tryResolve_inputSrcs padded_digest _ _ _ _ _ _ _ E). by repeat constructor.
  - vm_compute in E. discriminate E.
  - vm_compute in E. discriminate E.
Defined.
