(* ===== verification/PathInfo.v ===== *)
(** * Path infos and signatures (libstore/path-info.hh, path-info.cc,
    libutil/signature/local-keys.cc)

    What the store knows about a path, the string that is signed, keys and
    signatures. *)

From S2P Require Import Prelude.
From S2P Require Import Containers.
From S2P Require Import Strings.
From S2P Require Import Base64.
From S2P Require Import Hash.
From S2P Require Import CanonPath.
From S2P Require Import Names.
From S2P Require Import StorePath.
From S2P Require Import ContentAddress.
From S2P Require Import ATerm.

(** [UnkeyedValidPathInfo] without the fields internal to the local store. *)
Record UnkeyedValidPathInfo := mkPathInfo {
  pi_deriver : option StorePath;
  pi_narHash : Hash;
  pi_references : list StorePath;
  pi_registrationTime : Z;
  pi_narSize : Z;
  pi_ultimate : bool;
  pi_sigs : list bytes;
  pi_ca : option ContentAddress;
}.

(** [Hash::dummy]. *)
Definition Hash_dummy (xp : xpSettings) : result Hash := Hash_zero xp SHA256.
Definition dummy_hash : Hash := MkHash (regularHashSize SHA256) (replicate maxHashSize NUL) SHA256.

Record ValidPathInfo := mkValidPathInfo {
  vpi_path : StorePath;
  vpi_info : UnkeyedValidPathInfo;
}.

(** ** Decimal numbers *)

(** [std::to_string] of an unsigned number below [10 ^ fuel]. *)
Fixpoint dec_loop (fuel : nat) (n : Z) (acc : bytes) : bytes :=
  match fuel with
  | 0 => acc
  | S fuel =>
      let acc := chr (48 + n mod 10) :: acc in
      if (n <? 10)%Z then acc else dec_loop fuel (n / 10) acc
  end.
Definition to_string_u64 (n : Z) : bytes := dec_loop 20 n [].

(** [string2Int<uint64_t>]: [boost::lexical_cast] is documented to read back
    what [std::to_string] printed. *)
Class LexicalCastU64 := {
  lexical_cast_u64 : bytes -> option Z;
  lexical_cast_u64_spec : forall n, (0 <= n < 2 ^ 64)%Z -> lexical_cast_u64 (to_string_u64 n) = Some n;
}.
Definition string2Int_u64 `{LexicalCastU64} (s : bytes) : option Z :=
  if bool_decide (take 1 s = L "-") then None else lexical_cast_u64 s.

(** ** Keys and signatures *)

(** The functions of libsodium; what is relied on is that a signature made
    with a secret key is accepted under the public key derived from it. *)
Class Sodium := {
  sign_detached : bytes -> bytes -> bytes;
  verify_detached : bytes -> bytes -> bytes -> bool;
  sk_to_pk : bytes -> bytes;
  sign_length : forall sk d, length (sign_detached sk d) = 64;
  sign_verify : forall sk d, verify_detached (sk_to_pk sk) d (sign_detached sk d) = true;
}.

Record Key := mkKey { key_name : bytes; key_key : bytes }.

(** [BorrowedCryptoValue::parse]. *)
Definition crypto_parse (s : bytes) : bytes * bytes :=
  match find_char ":"%char s with
  | None | Some 0 => ([], [])
  | Some colon => (take colon s, drop (S colon) s)
  end.

Definition Key_parse (s : bytes) : result Key :=
  let (name, payload) := crypto_parse s in
  if bool_decide (name = []) || bool_decide (payload = []) then throw FormatError
  else let* key := base64Decode payload in Ok (mkKey name key).

Definition Key_to_string (k : Key) : bytes := key_name k ++ L ":" ++ base64Encode (key_key k).

Section signatures.
Context `{Sodium}.

Definition signDetached (k : Key) (data : bytes) : bytes :=
  key_name k ++ L ":" ++ base64Encode (sign_detached (key_key k) data).

Definition toPublicKey (k : Key) : Key := mkKey (key_name k) (sk_to_pk (key_key k)).

(** A signature that is not base64 is treated as the empty one, whose length
    is wrong. *)
Definition verifyDetachedAnon (key data sig : bytes) : result bool :=
  let sig2 := match base64Decode sig with Ok s => s | Err _ => [] end in
  if negb (length sig2 =? 64) then throw Error
  else Ok (verify_detached key data sig2).

Definition verifyDetached (data sig : bytes) (publicKeys : list (bytes * bytes)) : result bool :=
  let (name, payload) := crypto_parse sig in
  match smap_lookup name publicKeys with
  | None => Ok false
  | Some key => verifyDetachedAnon key data payload
  end.
End signatures.

(** ** [ValidPathInfo] *)

Section path_info.
Context `{Digest} (storeDir : bytes) (xp : xpSettings).

Definition info_fingerprint (i : ValidPathInfo) : result bytes :=
  if (pi_narSize (vpi_info i) =? 0)%Z then throw Error
  else
    let* h := to_string (pi_narHash (vpi_info i)) Nix32 true in
    Ok (L "1;" ++ printStorePath storeDir (vpi_path i) ++ L ";" ++ h ++ L ";"
        ++ to_string_u64 (pi_narSize (vpi_info i)) ++ L ";"
        ++ concatStringsSep (L ",") (printStorePathSet storeDir (pi_references (vpi_info i)))).

Definition contentAddressWithReferences (i : ValidPathInfo) : result (option ContentAddressWithReferences) :=
  match pi_ca (vpi_info i) with
  | None => Ok None
  | Some ca =>
      let references := pi_references (vpi_info i) in
      match ca_method ca with
      | ContentAddressMethod.Text =>
          assert_ (negb (sset_mem (vpi_path i) references)) ;;;
          Ok (Some (TextInfo (ca_hash ca) references))
      | m =>
          let hasSelfReference := sset_mem (vpi_path i) references in
          Ok (Some (FixedOutputInfo (getFileIngestionMethod m) (ca_hash ca)
                (mkStoreReferences (if hasSelfReference then sset_erase (vpi_path i) references else references)
                   hasSelfReference)))
      end
  end.

Definition isContentAddressed (i : ValidPathInfo) : result bool :=
  let* fullCaOpt := contentAddressWithReferences i in
  match fullCaOpt with
  | None => Ok false
  | Some ca =>
      let* caPath := makeFixedOutputPathFromCA xp storeDir (sp_name (vpi_path i)) ca in
      Ok (bool_decide (caPath = vpi_path i))
  end.

Context `{Sodium}.

Definition info_sign (k : Key) (i : ValidPathInfo) : result ValidPathInfo :=
  let* f := info_fingerprint i in
  let u := vpi_info i in
  Ok (mkValidPathInfo (vpi_path i)
        (mkPathInfo (pi_deriver u) (pi_narHash u) (pi_references u) (pi_registrationTime u) (pi_narSize u)
           (pi_ultimate u) (sset_insert (signDetached k f) (pi_sigs u)) (pi_ca u))).

Definition checkSignature (publicKeys : list (bytes * bytes)) (i : ValidPathInfo) (sig : bytes) : result bool :=
  let* f := info_fingerprint i in verifyDetached f sig publicKeys.

Fixpoint count_good (publicKeys : list (bytes * bytes)) (i : ValidPathInfo) (sigs : list bytes) : result Z :=
  match sigs with
  | [] => Ok 0%Z
  | sig :: sigs =>
      let* b := checkSignature publicKeys i sig in
      let* n := count_good publicKeys i sigs in
      Ok (if b then n + 1 else n)%Z
  end.

Definition maxSigs : Z := 2 ^ 64 - 1.
Definition checkSignatures (publicKeys : list (bytes * bytes)) (i : ValidPathInfo) : result Z :=
  let* ca := isContentAddressed i in
  if ca then Ok maxSigs else count_good publicKeys i (pi_sigs (vpi_info i)).
End path_info.

Definition shortRefs (i : ValidPathInfo) : list bytes := sp_to_string <$> pi_references (vpi_info i).

(** ** Lemmas on decimal numbers *)

Lemma digits_value_snoc s c : digits_value (s ++ [c]) = (digits_value s * 10 + (code c - 48))%Z.
Proof. unfold digits_value. by rewrite foldl_app. Qed.

Lemma dec_loop_spec fuel n acc :
  (0 <= n < 10 ^ Z.of_nat fuel)%Z -> 0 < fuel ->
  exists ds, dec_loop fuel n acc = ds ++ acc /\ ds <> [] /\ Forall (fun c => is_digit c = true) ds /\
    digits_value ds = n.
Proof.
  revert n acc. induction fuel as [|fuel IH]; intros n acc Hn Hf; [lia|]. cbn [dec_loop].
  assert (Hc : code (chr (48 + n mod 10)) = (48 + n mod 10)%Z).
  { rewrite code_chr, Z.mod_small; [done|]. pose proof (Z.mod_pos_bound n 10). lia. }
  assert (Hd : is_digit (chr (48 + n mod 10)) = true).
  { unfold is_digit, in_range. rewrite Hc. pose proof (Z.mod_pos_bound n 10).
    apply andb_true_iff. split; apply Z.leb_le; change (code "0") with 48%Z; change (code "9") with 57%Z; lia. }
  destruct (Z.ltb_spec n 10) as [Hlt|Hge].
  - exists [chr (48 + n mod 10)]. split; [done|]. split; [done|]. split; [by constructor|].
    unfold digits_value. cbn [foldl]. rewrite Hc, Z.mod_small; lia.
  - destruct fuel as [|fuel]; [lia|].
    destruct (IH (n / 10)%Z (chr (48 + n mod 10) :: acc)) as (ds & E & Hne & Hds & Hv); [|lia|].
    { rewrite Nat2Z.inj_succ, Z.pow_succ_r in Hn by lia. split; [apply Z.div_pos; lia|].
      apply Z.div_lt_upper_bound; lia. }
    exists (ds ++ [chr (48 + n mod 10)]). split; [by rewrite E, <- app_assoc|]. split; [by destruct ds|].
    split; [apply Forall_app; by repeat constructor|]. rewrite digits_value_snoc, Hv, Hc.
    pose proof (Z.div_mod n 10). lia.
Qed.

Lemma to_string_u64_spec n :
  (0 <= n < 2 ^ 64)%Z ->
  to_string_u64 n <> [] /\ Forall (fun c => is_digit c = true) (to_string_u64 n) /\ digits_value (to_string_u64 n) = n.
Proof.
  intros Hn. destruct (dec_loop_spec 20 n []) as (ds & E & H1 & H2 & H3); [|lia|].
  - change (10 ^ Z.of_nat 20)%Z with 100000000000000000000%Z. lia.
  - unfold to_string_u64. by rewrite E, app_nil_r.
Qed.

Lemma to_string_u64_inj n m :
  (0 <= n < 2 ^ 64)%Z -> (0 <= m < 2 ^ 64)%Z -> to_string_u64 n = to_string_u64 m -> n = m.
Proof.
  intros Hn Hm E. destruct (to_string_u64_spec n Hn) as (_ & _ & <-). rewrite E. by apply to_string_u64_spec.
Qed.

Lemma to_string_u64_no c n : (0 <= n < 2 ^ 64)%Z -> is_digit c = false -> c ∉ to_string_u64 n.
Proof.
  intros Hn Hc Hin. destruct (to_string_u64_spec n Hn) as (_ & Hd & _). rewrite Forall_forall in Hd.
  specialize (Hd _ Hin). congruence.
Qed.

(** The conversion can be instantiated. *)
#[local] Instance lexical_cast_u64_decimal : LexicalCastU64.
Proof.
  refine {| lexical_cast_u64 := fun s => Some (digits_value s) |}.
  intros n Hn. by destruct (to_string_u64_spec n Hn) as (_ & _ & ->).
Defined.

(** ** What is signed *)

Lemma app_sep_inj_l (sep : ascii) (a1 a2 b1 b2 : bytes) :
  sep ∉ a1 -> sep ∉ a2 -> a1 ++ sep :: b1 = a2 ++ sep :: b2 -> a1 = a2 /\ b1 = b2.
Proof.
  intros H1 H2 E. pose proof (find_char_app sep a1 b1 H1) as F1. pose proof (find_char_app sep a2 b2 H2) as F2.
  rewrite E, F2 in F1. injection F1 as F1. apply app_inj_1 in E as [-> [= ->]]; done.
Qed.

Lemma nix32_text_no h s c :
  Hash_regular h -> to_string h Nix32 true = Ok s -> c ∉ L ":" ++ nix32Chars -> name_char c = false -> c ∉ s.
Proof.
  intros [(_ & Hs & _) _] E Hc Hn. rewrite to_string_body in E by lia. injection E as <-.
  rewrite !elem_of_app. intros [[Hin|Hin]|Hin].
  - assert (Forall (fun c => name_char c = true) (printHashAlgo (algo h))) as Hall by (destruct (algo h); by repeat constructor).
    rewrite Forall_forall in Hall. specialize (Hall _ Hin). congruence.
  - apply Hc. rewrite elem_of_app. by left.
  - apply Hc. rewrite elem_of_app. right. by apply hash_body32_alphabet in Hin.
Qed.

Lemma to_string_inj h1 h2 s :
  Hash_regular h1 -> Hash_regular h2 -> to_string h1 Nix32 true = Ok s -> to_string h2 Nix32 true = Ok s -> h1 = h2.
Proof.
  intros R1 R2 E1 E2.
  pose proof (parseAnyPrefixed_text (fun _ => true) h1 Nix32 true s R1 ltac:(done) ltac:(by right) E1).
  pose proof (parseAnyPrefixed_text (fun _ => true) h2 Nix32 true s R2 ltac:(done) ltac:(by right) E2). congruence.
Qed.

Lemma printStorePath_no storeDir p c :
  c ∉ storeDir -> c <> slash -> name_char c = false -> store_path_ok p -> c ∉ printStorePath storeDir p.
Proof.
  intros Hd Hs Hn Hp. unfold printStorePath. rewrite !elem_of_app. intros [?|[Hin|Hin]]; [done| |].
  - apply Hs. by apply list_elem_of_singleton in Hin.
  - by eapply store_path_ok_no.
Qed.

Lemma printStorePath_inj storeDir p q : printStorePath storeDir p = printStorePath storeDir q -> p = q.
Proof. unfold printStorePath. intros E. apply app_inv_head, app_inv_head in E. destruct p, q. by f_equal. Qed.

#[export] Instance printStorePath_Inj storeDir : Inj (=) (=) (printStorePath storeDir).
Proof. intros p q. apply printStorePath_inj. Qed.

Lemma printed_refs_ok storeDir l :
  ","%char ∉ storeDir -> Forall store_path_ok l ->
  Forall (fun f => ","%char ∉ f /\ f <> []) (printStorePath storeDir <$> l).
Proof.
  intros Hd Hl. apply Forall_fmap. eapply Forall_impl; [done|]. intros p Hp. unfold compose. split.
  - by apply printStorePath_no.
  - unfold printStorePath. by destruct storeDir.
Qed.

(** Joined fields determine the list. *)
Lemma join_inj sepc (l1 l2 : list bytes) :
  Forall (fun f => sepc ∉ f /\ f <> []) l1 -> Forall (fun f => sepc ∉ f /\ f <> []) l2 ->
  concatStringsSep [sepc] l1 = concatStringsSep [sepc] l2 -> l1 = l2.
Proof.
  intros H1 H2 E.
  assert (Hne : forall f l, f <> [] -> concatStringsSep [sepc] (f :: l) <> []).
  { intros f l Hf. rewrite concatStringsSep_cons. by destruct f. }
  assert (Hsep : forall l, Forall (fun f => sepc ∉ f /\ f <> []) l -> Forall (fun f => sepc ∉ f) l).
  { intros l Hl. eapply Forall_impl; [done|]. naive_solver. }
  destruct l1 as [|f1 l1], l2 as [|f2 l2].
  - done.
  - exfalso. inversion H2 as [|? ? [_ Hf] _]; subst. by apply (Hne f2 l2 Hf).
  - exfalso. inversion H1 as [|? ? [_ Hf] _]; subst. by apply (Hne f1 l1 Hf).
  - rewrite <- (split_concat sepc (f1 :: l1)), E by auto. apply split_concat; auto.
Qed.

(** The words of a joined list, when no word is empty or has the separator. *)
Lemma tokenize_concat sepc l :
  Forall (fun f => f <> [] /\ sepc ∉ f) l -> tokenizeString (concatStringsSep [sepc] l) [sepc] = l.
Proof.
  intros Hl. rewrite tokenizeString_ref. destruct l as [|f l]; [done|]. rewrite split_concat.
  - apply filter_all. eapply Forall_impl; [done|]. by intros g [? _].
  - done.
  - eapply Forall_impl; [done|]. by intros g [_ ?].
Qed.

(** A path info with the properties the fingerprint needs. *)
Record info_ok (i : ValidPathInfo) : Prop := {
  io_path : store_path_ok (vpi_path i);
  io_hash : Hash_regular (pi_narHash (vpi_info i));
  io_size : (0 <= pi_narSize (vpi_info i) < 2 ^ 64)%Z;
  io_refs : sset_wf (pi_references (vpi_info i)) /\ Forall store_path_ok (pi_references (vpi_info i));
}.

(** C31: the signed string says everything that matters: two path infos with
    the same fingerprint have the same path, archive hash, size and
    references, so a signature cannot be carried over to different contents. *)
Theorem info_fingerprint_injective storeDir i1 i2 s :
  ";"%char ∉ storeDir -> ","%char ∉ storeDir -> info_ok i1 -> info_ok i2 ->
  info_fingerprint storeDir i1 = Ok s -> info_fingerprint storeDir i2 = Ok s ->
  vpi_path i1 = vpi_path i2 /\ pi_narHash (vpi_info i1) = pi_narHash (vpi_info i2) /\
  pi_narSize (vpi_info i1) = pi_narSize (vpi_info i2) /\
  pi_references (vpi_info i1) = pi_references (vpi_info i2).
Proof.
  intros Hd1 Hd2 [P1 R1 N1 [W1 O1]] [P2 R2 N2 [W2 O2]] F1 F2. unfold info_fingerprint in F1, F2.
  destruct (pi_narSize (vpi_info i1) =? 0)%Z; [done|]. destruct (pi_narSize (vpi_info i2) =? 0)%Z; [done|].
  apply rbind_Ok in F1 as (h1 & T1 & F1). apply rbind_Ok in F2 as (h2 & T2 & F2).
  rewrite <- F2 in F1. apply Ok_inj in F1. apply app_inv_head in F1.
  apply (app_sep_inj_l ";"%char) in F1 as [Ep F1]; [|by apply printStorePath_no..].
  assert (Hsc : ";"%char ∉ L ":" ++ nix32Chars) by by apply (bool_decide_unpack _).
  apply (app_sep_inj_l ";"%char) in F1 as [Eh F1];
    [|by apply (nix32_text_no _ _ _ R1 T1 Hsc)|by apply (nix32_text_no _ _ _ R2 T2 Hsc)].
  apply (app_sep_inj_l ";"%char) in F1 as [En F1]; [|by apply to_string_u64_no..].
  split; [by eapply printStorePath_inj|]. split; [subst h2; by eapply to_string_inj|].
  split; [by apply to_string_u64_inj|].
  destruct (printStorePathSet_sorted storeDir _ W1) as [Q1 _]. destruct (printStorePathSet_sorted storeDir _ W2) as [Q2 _].
  rewrite Q1, Q2 in F1. apply join_inj in F1; [|by apply printed_refs_ok..].
  by apply (inj (fmap (printStorePath storeDir))) in F1.
Qed.

Definition example_path_info : ValidPathInfo :=
  mkValidPathInfo (mkStorePath example_base)
    (mkPathInfo None dummy_hash [mkStorePath example_base] 0 1234 false [] None).

Lemma example_path_info_ok : info_ok example_path_info.
Proof.
  assert (store_path_ok (mkStorePath example_base)) as Hp.
  { split; [by vm_compute|]. apply (bool_decide_unpack _). by vm_compute. }
  split; cbn.
  - done.
  - unfold Hash_regular, Hash_wf, maxHashSize. cbn. repeat split; lia.
  - lia.
  - split; by repeat constructor.
Qed.

Lemma info_fingerprint_injective_witness :
  exists s, info_fingerprint (L "/nix/store") example_path_info = Ok s /\
    vpi_path example_path_info = vpi_path example_path_info.
Proof.
  eexists. split; [vm_compute; reflexivity|].
  eapply (info_fingerprint_injective (L "/nix/store") example_path_info example_path_info).
  - by apply (bool_decide_unpack _).
  - by apply (bool_decide_unpack _).
  - apply example_path_info_ok.
  - apply example_path_info_ok.
  - vm_compute. reflexivity.
  - vm_compute. reflexivity.
Defined.

(** A payload after a nonempty name without colons. *)
Lemma crypto_parse_app name payload :
  name <> [] -> ":"%char ∉ name -> crypto_parse (name ++ L ":" ++ payload) = (name, payload).
Proof.
  intros Hne Hc. unfold crypto_parse. change (L ":" ++ payload) with (":"%char :: payload).
  rewrite find_char_app by done. destruct name as [|c name]; [done|]. cbn [length].
  change (S (length name)) with (length (c :: name)). rewrite take_app_length.
  rewrite cons_middle, app_assoc. replace (S (length (c :: name))) with (length ((c :: name) ++ [":"%char])).
  - by rewrite drop_app_length.
  - rewrite length_app. cbn. lia.
Qed.

(** Keys and signatures work together: a key survives its textual form,
    and a path info signed with a secret key carries a signature that is
    accepted under the public key of the same name. *)
Theorem sign_verify_roundtrip `{Sodium} storeDir k i i' keys :
  key_name k <> [] -> ":"%char ∉ key_name k -> key_key k <> [] ->
  info_sign storeDir k i = Ok i' -> smap_lookup (key_name k) keys = Some (key_key (toPublicKey k)) ->
  Key_parse (Key_to_string k) = Ok k /\
  exists sig, sig ∈ pi_sigs (vpi_info i') /\ checkSignature storeDir keys i' sig = Ok true.
Proof.
  intros Hne Hc Hk Hsign Hkeys. split.
  - unfold Key_parse, Key_to_string. rewrite crypto_parse_app by done.
    rewrite (bool_decide_false (key_name k = [])) by done. cbn [orb].
    rewrite bool_decide_false; [rewrite base64Decode_Encode; by destruct k|].
    intros E. pose proof (base64Encode_length (key_key k)) as Hl. rewrite E in Hl. cbn [length] in Hl.
    destruct (key_key k) as [|c b]; [done|].
    assert (1 <= (length (c :: b) + 2) / 3) by (apply Nat.div_le_lower_bound; cbn [length]; lia). lia.
  - unfold info_sign in Hsign. apply rbind_Ok in Hsign as (f & Hf & Hsign). apply Ok_inj in Hsign. subst i'.
    exists (signDetached k f). cbn [vpi_info pi_sigs]. split; [apply sset_insert_elem; by left|].
    unfold checkSignature. change (info_fingerprint storeDir _) with (info_fingerprint storeDir i).
    rewrite Hf. cbn [rbind]. unfold verifyDetached, signDetached. rewrite crypto_parse_app by done.
    rewrite Hkeys. unfold verifyDetachedAnon. rewrite base64Decode_Encode, sign_length. cbn.
    by rewrite sign_verify.
Qed.

(** A signature scheme with the stated behaviour. *)
#[local] Instance example_sodium : Sodium.
Proof.
  refine {| sign_detached sk d := replicate 64 "s"%char; verify_detached pk d s := bool_decide (s = replicate 64 "s"%char);
            sk_to_pk sk := sk |}.
  - intros. apply length_replicate.
  - intros. by apply bool_decide_true.
Defined.

Lemma sign_verify_roundtrip_witness :
  exists i', info_sign (L "/nix/store") (mkKey (L "k") (L "secret")) example_path_info = Ok i' /\
    exists sig, sig ∈ pi_sigs (vpi_info i') /\ checkSignature (L "/nix/store") [(L "k", L "secret")] i' sig = Ok true.
Proof.
  destruct (info_sign (L "/nix/store") (mkKey (L "k") (L "secret")) example_path_info) as [i'|f] eqn:E.
  2: { vm_compute in E. discriminate E. }
  exists i'. split; [reflexivity|].
  apply (sign_verify_roundtrip (L "/nix/store") (mkKey (L "k") (L "secret")) example_path_info i' [(L "k", L "secret")]).
  - done.
  - by apply (bool_decide_unpack _).
  - done.
  - exact E.
  - reflexivity.
Defined.

(** Path info that claims a text content address and refers to itself makes
    the check of its signatures abort the process, instead of being refused. *)
Theorem checkSignatures_text_self_aborts `{Digest} `{Sodium} storeDir xp keys p info h :
  pi_ca info = Some (mkContentAddress ContentAddressMethod.Text h) -> p ∈ pi_references info ->
  checkSignatures storeDir xp keys (mkValidPathInfo p info) = Err AssertFailed.
Proof.
  intros Hca Hp. unfold checkSignatures, isContentAddressed, contentAddressWithReferences. cbn [vpi_info vpi_path].
  rewrite Hca. cbn [ca_method]. unfold sset_mem. by rewrite bool_decide_true by done.
Qed.

Lemma checkSignatures_text_self_aborts_witness :
  let p := mkStorePath example_base in
  let info := mkPathInfo None dummy_hash [p] 0 1 false [] (Some (mkContentAddress ContentAddressMethod.Text dummy_hash)) in
  @checkSignatures padded_digest (L "/nix/store") (fun _ => false) _ [] (mkValidPathInfo p info) = Err AssertFailed.
Proof.
  cbv zeta. apply (@checkSignatures_text_self_aborts padded_digest) with (h := dummy_hash).
  - reflexivity.
  - apply list_elem_of_here.
Defined.
