(* ===== verification/Serialise.v ===== *)
(** * Serialisation (libutil/serialise.hh, serialise.cc, util.hh)

    Sources and sinks. A source is an interface ([Source]) with the contract
    [SourceLaws]; the readers of integers, strings and lists are verified
    against the contract, and every concrete source of the code discharges
    it. A sink is described by the sequence of calls of its [operator ()]. *)

From S2P Require Import Prelude.
From S2P Require Import Containers.

(** ** Sources *)

(** [Source::read(data, len)] stores up to [len] bytes and returns how many:
    here the bytes stored are returned. [src_fuel] is no operation of the code
    but a bound on the reads that can still succeed; the loops over a source
    use it as fuel. *)
Class Source (S : Type) := {
  src_read : Z -> S -> result (bytes * S);
  src_fuel : S -> nat;
}.

(** What a source promises: [delivers s c] says that [s] will produce the
    bytes [c] and then the end of the file. A read of at least one byte
    returns a prefix; it may be empty only finitely often. *)
Class SourceLaws (S : Type) `{Source S} := {
  delivers : S -> bytes -> Prop;
  src_read_data : forall len s c, delivers s c -> c <> [] -> (0 < len)%Z ->
    exists d s' c', src_read len s = Ok (d, s') /\ c = d ++ c' /\ delivers s' c' /\
      (Z.of_nat (length d) <= len)%Z;
  src_read_eof : forall len s, delivers s [] -> (0 < len)%Z ->
    src_read len s = throw EndOfFile \/ exists s', src_read len s = Ok ([], s') /\ delivers s' [];
  src_read_fuel : forall len s c d s', delivers s c -> (0 < len)%Z -> src_read len s = Ok (d, s') ->
    src_fuel s' + Nat.max 1 (length d) <= src_fuel s;
}.

Definition size_t_max : Z := 2 ^ 64 - 1.
Definition uint_max : Z := 2 ^ 32 - 1.
(** The length can be written as a [size_t]. *)
Definition fits (s : bytes) : Prop := (Z.of_nat (length s) <= size_t_max)%Z.

(** [sink << n] for a [uint64_t]: the eight bytes, lowest first. *)
Definition le64 (n : Z) : bytes :=
  (fun i => chr (Z.land (Z.shiftr n (8 * Z.of_nat i)) 255)) <$> seq 0 8.

(** [readLittleEndian<uint64_t>]. *)
Fixpoint readLittleEndian_loop (p : bytes) (i : nat) (x : Z) : Z :=
  match p with
  | [] => x
  | c :: p => readLittleEndian_loop p (S i) (Z.lor x (u64 (Z.shiftl (code c) (Z.of_nat i * 8))))
  end.
Definition readLittleEndian (p : bytes) : Z := readLittleEndian_loop p 0 0.

(** ** Writing *)

(** What a writer does is the list of its calls of the sink. *)
Definition padding (len : nat) : bytes :=
  if decide (len mod 8 = 0) then [] else replicate (8 - len mod 8) NUL.
Definition writePadding (len : nat) : list bytes :=
  if decide (len mod 8 = 0) then [] else [replicate (8 - len mod 8) NUL].
Definition writeNum (n : Z) : list bytes := [le64 n].
Definition writeString (data : bytes) : list bytes :=
  writeNum (Z.of_nat (length data)) ++ [data] ++ writePadding (length data).
Definition writeStrings (ss : list bytes) : list bytes :=
  writeNum (Z.of_nat (length ss)) ++ concat (writeString <$> ss).

(** The bytes that reach the sink. *)
Definition encNum (n : Z) : bytes := concat (writeNum n).
Definition encString (data : bytes) : bytes := concat (writeString data).
Definition encStrings (ss : list bytes) : bytes := concat (writeStrings ss).

Arguments le64 : simpl never.
Arguments encNum : simpl never.
Arguments encString : simpl never.
Arguments encStrings : simpl never.

(** ** Reading *)

Section reading.
Context {S : Type} `{Source S}.

(** [Source::operator () (data, len)]. *)
Fixpoint exact_loop (fuel : nat) (len : Z) (s : S) : result (bytes * S) :=
  if (len =? 0)%Z then Ok ([], s)
  else match fuel with
       | 0 => Err OutOfFuel
       | Datatypes.S fuel =>
           let* (d, s) := src_read len s in
           let* (r, s) := exact_loop fuel (len - Z.of_nat (length d)) s in
           Ok (d ++ r, s)
       end.
Definition source_exact (len : Z) (s : S) : result (bytes * S) :=
  exact_loop (Datatypes.S (src_fuel s)) len s.

(** [readNum<T>], [max] being the largest value of [T]. *)
Definition readNum (max : Z) (s : S) : result (Z * S) :=
  let* (buf, s) := source_exact 8 s in
  let n := readLittleEndian buf in
  if (max <? n)%Z then throw SerialisationError else Ok (n, s).

Definition readInt : S -> result (Z * S) := readNum uint_max.
Definition readLongLong : S -> result (Z * S) := readNum size_t_max.

Definition readPadding (len : Z) (s : S) : result (unit * S) :=
  if (len mod 8 =? 0)%Z then Ok (tt, s)
  else
    let* (zero, s) := source_exact (8 - len mod 8) s in
    if forallb (char_eqb NUL) zero then Ok (tt, s) else throw SerialisationError.

Definition readString (max : Z) (s : S) : result (bytes * S) :=
  let* (len, s) := readNum size_t_max s in
  if (max <? len)%Z then throw SerialisationError
  else
    let* (res, s) := source_exact len s in
    let* (_, s) := readPadding len s in
    Ok (res, s).

(** [while (count--) acc = elem(acc)]; every element consumes input. *)
Fixpoint times_loop {A} (fuel : nat) (elem : A -> S -> result (A * S)) (count : Z) (acc : A) (s : S) :
    result (A * S) :=
  if (count =? 0)%Z then Ok (acc, s)
  else match fuel with
       | 0 => Err OutOfFuel
       | Datatypes.S fuel =>
           let* (acc, s) := elem acc s in
           times_loop fuel elem (count - 1) acc s
       end.
Definition read_times {A} (elem : A -> S -> result (A * S)) (acc : A) (s : S) : result (A * S) :=
  let* (count, s) := readNum size_t_max s in
  times_loop (Datatypes.S (src_fuel s)) elem count acc s.

(** [readStrings<Strings>] and [readStrings<StringSet>]. *)
Definition readStrings : S -> result (list bytes * S) :=
  read_times (fun ss s => let* (x, s) := readString size_t_max s in Ok (ss ++ [x], s)) [].
Definition readStringSet : S -> result (list bytes * S) :=
  read_times (fun ss s => let* (x, s) := readString size_t_max s in Ok (sset_insert x ss, s)) [].

(** [Source::drain]: the loop of [drainInto] with its buffer of 8192 bytes,
    into a [StringSink]; the source is returned as it was when it reported
    the end of the file. *)
Fixpoint drain_loop (fuel : nat) (acc : bytes) (s : S) : result (bytes * S) :=
  match fuel with
  | 0 => Err OutOfFuel
  | Datatypes.S fuel =>
      match src_read 8192 s with
      | Ok (d, s) => drain_loop fuel (acc ++ d) s
      | Err (Throw EndOfFile) => Ok (acc, s)
      | Err f => Err f
      end
  end.
Definition drain (s : S) : result (bytes * S) := drain_loop (Datatypes.S (src_fuel s)) [] s.
End reading.

(** ** Integers *)

(** The value of little-endian bytes, and the bytes of a value. *)
Fixpoint le_val (p : bytes) : Z :=
  match p with [] => 0 | c :: p => code c + 256 * le_val p end%Z.
Fixpoint le_bytes (k : nat) (n : Z) : bytes :=
  match k with 0 => [] | S k => chr n :: le_bytes k (n / 256) end.

Lemma le_val_bound p : (0 <= le_val p < 2 ^ (8 * Z.of_nat (length p)))%Z.
Proof.
  induction p as [|c p IH]; cbn [le_val length]; [lia|].
  rewrite Nat2Z.inj_succ, Z.mul_succ_r, Z.pow_add_r by lia.
  pose proof (code_bound c). change (2 ^ 8)%Z with 256%Z. nia.
Qed.

Lemma le_val_bytes k n : le_val (le_bytes k n) = (n mod 2 ^ (8 * Z.of_nat k))%Z.
Proof.
  revert n. induction k as [|k IH]; intros n; cbn [le_val le_bytes].
  - by rewrite Z.mod_1_r.
  - rewrite IH, code_chr.
    replace (8 * Z.of_nat (S k))%Z with (8 + 8 * Z.of_nat k)%Z by lia.
    rewrite Z.pow_add_r by lia. change (2 ^ 8)%Z with 256%Z. rewrite Z.rem_mul_r by lia. done.
Qed.

Lemma le_bytes_val p : le_bytes (length p) (le_val p) = p.
Proof.
  induction p as [|c p IH]; cbn [le_val le_bytes length]; [done|].
  pose proof (code_bound c). f_equal.
  - apply code_inj. rewrite code_chr.
    rewrite Z.mul_comm, Z.mod_add, Z.mod_small; lia.
  - rewrite Z.mul_comm, Z.div_add, Z.div_small by lia. done.
Qed.

Lemma le64_bytes n : le64 n = le_bytes 8 n.
Proof.
  unfold le64. cbn [seq fmap list_fmap le_bytes].
  assert (Hc : forall z, chr (Z.land z 255) = chr z).
  { intros z. unfold chr. change 255%Z with (Z.ones 8). rewrite Z.land_ones by lia.
    change (2 ^ 8)%Z with 256%Z. by rewrite Z.mod_mod. }
  rewrite !Hc, !Z.shiftr_div_pow2, !Z.div_div by lia.
  rewrite Z.div_1_r. repeat f_equal.
Qed.

Lemma length_le64 n : length (le64 n) = 8.
Proof. done. Qed.

Lemma readLittleEndian_loop_val p i x :
  (0 <= x < 2 ^ (8 * Z.of_nat i))%Z -> i + length p <= 8 ->
  readLittleEndian_loop p i x = (x + le_val p * 2 ^ (8 * Z.of_nat i))%Z.
Proof.
  revert i x. induction p as [|c p IH]; intros i x Hx Hi; cbn [readLittleEndian_loop le_val length] in *.
  - lia.
  - pose proof (code_bound c).
    assert (Hp : (2 ^ (8 * Z.of_nat (S i)) = 256 * 2 ^ (8 * Z.of_nat i))%Z).
    { rewrite Nat2Z.inj_succ, Z.mul_succ_r, Z.pow_add_r by lia. lia. }
    assert (Hlor : Z.lor x (u64 (Z.shiftl (code c) (Z.of_nat i * 8)))
                   = (x + code c * 2 ^ (8 * Z.of_nat i))%Z).
    { rewrite Z.shiftl_mul_pow2, (Z.mul_comm (Z.of_nat i)) by lia.
      unfold u64. rewrite Z.mod_small.
      - rewrite <- Z.shiftl_mul_pow2 by lia. rewrite Z.lor_comm, lor_shiftl_add by lia.
        rewrite Z.shiftl_mul_pow2 by lia. lia.
      - assert (2 ^ (8 * Z.of_nat (S i)) <= 2 ^ 64)%Z by (apply Z.pow_le_mono_r; lia). nia. }
    rewrite Hlor, IH; [rewrite Hp; lia | nia | lia].
Qed.

Lemma readLittleEndian_val p : length p = 8 -> readLittleEndian p = le_val p.
Proof. intros Hp. unfold readLittleEndian. rewrite readLittleEndian_loop_val; simpl; lia. Qed.

Lemma readLittleEndian_le64 n : (0 <= n < 2 ^ 64)%Z -> readLittleEndian (le64 n) = n.
Proof.
  intros Hn. rewrite readLittleEndian_val, le64_bytes, le_val_bytes by done.
  by rewrite Z.mod_small.
Qed.

Lemma le64_readLittleEndian p : length p = 8 -> le64 (readLittleEndian p) = p.
Proof. intros Hp. by rewrite readLittleEndian_val, le64_bytes, <- Hp, le_bytes_val. Qed.

Lemma readLittleEndian_bound p : length p = 8 -> (0 <= readLittleEndian p < 2 ^ 64)%Z.
Proof. intros Hp. rewrite readLittleEndian_val by done. pose proof (le_val_bound p). by rewrite Hp in *. Qed.

(** ** Reading against the contract *)

Section reading_laws.
Context {S : Type} `{SourceLaws S}.

(** [reads r a d]: from a source that starts with [d], [r] returns [a] and
    consumes exactly [d]. *)
Definition reads {A} (r : S -> result (A * S)) (a : A) (d : bytes) : Prop :=
  forall s c, delivers s (d ++ c) ->
    exists s', r s = Ok (a, s') /\ delivers s' c /\ src_fuel s' + length d <= src_fuel s.

(** [decodes r e P]: [r] is the decoder of the encoding [e] of the values
    satisfying [P], on every source: it returns [a] exactly when the source
    starts with [e a], and otherwise throws one of two exceptions. *)
Definition decodes {A} (r : S -> result (A * S)) (e : A -> bytes) (P : A -> Prop) : Prop :=
  (forall a, P a -> reads r a (e a)) /\
  (forall s c, delivers s c ->
     (exists a c', P a /\ c = e a ++ c') \/ r s = throw EndOfFile \/ r s = throw SerialisationError).

(** A successful read hands out a prefix, whatever the source holds. *)
Lemma src_read_split len s c d s' : delivers s c -> (0 < len)%Z -> src_read len s = Ok (d, s') ->
  exists c', c = d ++ c' /\ delivers s' c' /\ (Z.of_nat (length d) <= len)%Z.
Proof.
  intros Hs Hlen Hr. destruct c as [|x c].
  - destruct (src_read_eof len s Hs Hlen) as [E|(s2 & E & Hs2)]; rewrite Hr in E; [done|].
    simplify_eq. exists []. simpl. split; [done|]. split; [done|lia].
  - destruct (src_read_data len s _ Hs ltac:(done) Hlen) as (d2 & s2 & c2 & E & Hc & Hs2 & Hl).
    rewrite Hr in E. simplify_eq. by exists c2.
Qed.

Lemma reads_ret {A} (a : A) : reads (fun s => Ok (a, s)) a [].
Proof. intros s c Hs. exists s. simpl in *. split; [done|]. split; [done|]. lia. Qed.

Lemma reads_bind {A B} (r : S -> result (A * S)) (k : A -> S -> result (B * S)) a b d1 d2 :
  reads r a d1 -> reads (k a) b d2 -> reads (fun s => let* (x, s) := r s in k x s) b (d1 ++ d2).
Proof.
  intros H1 H2 s c Hs. rewrite <- app_assoc in Hs.
  destruct (H1 _ _ Hs) as (s1 & -> & Hs1 & ?). destruct (H2 _ _ Hs1) as (s2 & Hk & Hs2 & ?).
  exists s2. simpl. rewrite length_app. split; [done|]. split; [done|]. lia.
Qed.

Lemma reads_ext {A} (r r' : S -> result (A * S)) a d :
  (forall s, r s = r' s) -> reads r a d -> reads r' a d.
Proof. intros Hr Hd s c Hs. rewrite <- Hr. by apply Hd. Qed.

Lemma decodes_bind {A B} (r : S -> result (A * S)) (k : A -> S -> result (B * S))
    (e : A -> bytes) (P : A -> Prop) (e' : B -> bytes) (Q : B -> Prop) (f : B -> A) :
  decodes r e P -> (forall b, Q b -> P (f b)) ->
  (forall a, P a -> decodes (k a) e' (fun b => Q b /\ f b = a)) ->
  decodes (fun s => let* (x, s) := r s in k x s) (fun b => e (f b) ++ e' b) Q.
Proof.
  intros [Hr1 Hr2] HP Hk. split.
  - intros b Hb. apply (reads_bind _ _ (f b)); [by apply Hr1, HP|]. apply Hk; auto.
  - intros s c Hs. destruct (Hr2 _ _ Hs) as [(a & c1 & Ha & ->)|[-> | ->]]; [|by right; left|by right; right].
    destruct (Hr1 _ Ha _ _ Hs) as (s1 & -> & Hs1 & _). simpl.
    destruct (proj2 (Hk a Ha) _ _ Hs1) as [(b & c2 & [Hb <-] & ->)|?]; [|by right].
    left. exists b, c2. split; [done|]. by rewrite app_assoc.
Qed.

Lemma decodes_ret {A} (a : A) (P : A -> Prop) : P a -> (forall b, P b -> b = a) ->
  decodes (fun s => Ok (a, s)) (fun _ => []) P.
Proof.
  intros Ha HP. split.
  - intros b Hb. rewrite (HP b Hb). apply reads_ret.
  - intros s c _. left. by exists a, c.
Qed.

Lemma decodes_iff {A} (r : S -> result (A * S)) e e' (P Q : A -> Prop) :
  (forall a, P a <-> Q a) -> (forall a, Q a -> e a = e' a) -> decodes r e P -> decodes r e' Q.
Proof.
  intros HPQ He [H1 H2]. split.
  - intros a Ha. rewrite <- He by done. by apply H1, HPQ.
  - intros s c Hs. destruct (H2 s c Hs) as [(a & c' & Ha & ->)|?]; [|by right].
    left. exists a, c'. apply HPQ in Ha. by rewrite He.
Qed.

Lemma exact_loop_spec fuel len s c :
  delivers s c -> (0 <= len)%Z -> src_fuel s < fuel ->
  if decide (Z.to_nat len <= length c)
  then exists s', exact_loop fuel len s = Ok (take (Z.to_nat len) c, s') /\
         delivers s' (drop (Z.to_nat len) c) /\ src_fuel s' + Z.to_nat len <= src_fuel s
  else exact_loop fuel len s = throw EndOfFile.
Proof.
  revert len s c. induction fuel as [|fuel IH]; intros len s c Hs Hlen Hfuel; [lia|].
  cbn [exact_loop]. destruct (Z.eqb_spec len 0) as [->|Hlen0].
  { rewrite decide_True by (simpl; lia). exists s. simpl. by rewrite drop_0, Nat.add_0_r. }
  destruct c as [|x c].
  - rewrite decide_False by (simpl; lia).
    destruct (src_read_eof len s Hs ltac:(lia)) as [-> | (s' & Hr & Hs')]; [done|].
    pose proof (src_read_fuel len s _ _ _ Hs ltac:(lia) Hr) as Hf. simpl in Hf. rewrite Hr. cbn [rbind].
    specialize (IH (len - Z.of_nat (length (@nil ascii)))%Z s' [] Hs' ltac:(simpl; lia) ltac:(lia)).
    rewrite decide_False in IH by (simpl; lia). by rewrite IH.
  - destruct (src_read_data len s _ Hs ltac:(done) ltac:(lia)) as (d & s' & c' & Hr & Hc & Hs' & Hd).
    pose proof (src_read_fuel len s _ _ _ Hs ltac:(lia) Hr) as Hf. rewrite Hr. cbn [rbind]. rewrite Hc.
    specialize (IH (len - Z.of_nat (length d))%Z s' c' Hs' ltac:(lia) ltac:(lia)).
    replace (Z.to_nat (len - Z.of_nat (length d))) with (Z.to_nat len - length d) in IH by lia.
    destruct (decide (Z.to_nat len - length d <= length c')) as [Hle|Hgt].
    + destruct IH as (s2 & -> & Hs2 & Hf2). rewrite decide_True by (rewrite length_app; lia).
      exists s2. simpl. rewrite take_app_ge, drop_app_ge by lia. split; [done|]. split; [done|]. lia.
    + rewrite IH, decide_False by (rewrite length_app; lia). done.
Qed.

Lemma decodes_exact len : (0 <= len)%Z ->
  decodes (source_exact len) (fun d => d) (fun d => length d = Z.to_nat len).
Proof.
  intros Hlen. unfold source_exact. split.
  - intros d Hd s c Hs. pose proof (exact_loop_spec (Datatypes.S (src_fuel s)) len s _ Hs Hlen ltac:(lia)) as He.
    rewrite decide_True in He by (rewrite length_app; lia).
    destruct He as (s' & He & Hs' & Hf). rewrite <- Hd in *.
    rewrite take_app_length in He. rewrite drop_app_length in Hs'. by exists s'.
  - intros s c Hs. pose proof (exact_loop_spec (Datatypes.S (src_fuel s)) len s _ Hs Hlen ltac:(lia)) as He.
    destruct (decide _) as [Hle|]; [|by right; left]. left.
    exists (take (Z.to_nat len) c), (drop (Z.to_nat len) c). by rewrite take_drop, length_take_le.
Qed.

Lemma decodes_num max : (0 <= max < 2 ^ 64)%Z ->
  decodes (readNum max) encNum (fun n => (0 <= n <= max)%Z).
Proof.
  intros Hmax. unfold readNum, encNum, writeNum. simpl concat.
  apply (decodes_iff _ (fun n => le64 n ++ []) _ (fun n => (0 <= n <= max)%Z)); [done|done|].
  apply (decodes_bind _ _ (fun d => d) (fun d => length d = 8) (fun _ => []) _ le64).
  - by apply decodes_exact.
  - done.
  - intros buf Hbuf. pose proof (readLittleEndian_bound buf Hbuf).
    split.
    + intros n [Hn <-]. rewrite readLittleEndian_le64 by lia.
      rewrite (proj2 (Z.ltb_ge max n)) by lia. apply reads_ret.
    + intros s c _. cbn zeta. destruct (Z.ltb_spec max (readLittleEndian buf)); [by right; right|].
      left. exists (readLittleEndian buf), c. rewrite le64_readLittleEndian by done.
      split; [split; [lia|done] | done].
Qed.

Lemma padding_calls len : concat (writePadding len) = padding len.
Proof. unfold writePadding, padding. case_decide; simpl; by rewrite ?app_nil_r. Qed.

Lemma decodes_padding len : decodes (readPadding (Z.of_nat len)) (fun _ => padding len) (fun _ => True).
Proof.
  unfold readPadding, padding. replace (Z.of_nat len mod 8)%Z with (Z.of_nat (len mod 8)) by apply Nat2Z.inj_mod.
  destruct (Z.eqb_spec (Z.of_nat (len mod 8)) 0) as [E|E].
  { rewrite decide_True by lia. apply decodes_ret; [done|]. by intros []. }
  rewrite decide_False by lia.
  pose proof (Nat.mod_upper_bound len 8 ltac:(lia)).
  set (n := 8 - len mod 8).
  apply (decodes_iff _ (fun _ => replicate n NUL ++ []) _ (fun _ => True)); [done|by intros; rewrite app_nil_r|].
  apply (decodes_bind _ _ (fun d => d) (fun d => length d = n) (fun _ => []) _ (fun _ => replicate n NUL)).
  - apply (decodes_iff _ (fun d => d) _ (fun d => length d = Z.to_nat (8 - Z.of_nat (len mod 8)))); [|done|].
    + intros d. replace (Z.to_nat _) with n by lia. done.
    + apply decodes_exact. lia.
  - intros _ _. apply length_replicate.
  - intros zero Hz. destruct (forallb (char_eqb NUL) zero) eqn:Ez.
    + apply decodes_ret; [|by intros []]. split; [done|].
      rewrite <- Hz. clear Hz. induction zero as [|x zero IH]; [done|]. simpl in *.
      apply andb_true_iff in Ez as [Ex Ez]. apply char_eqb_eq in Ex as <-. by rewrite IH.
    + split; [|by intros s c _; right; right].
      intros [] [_ <-]. exfalso. clear Hz. generalize dependent n. intros n Ez.
      induction n as [|n IH]; [done|]. by apply IH.
Qed.

Lemma encString_eq d : encString d = encNum (Z.of_nat (length d)) ++ d ++ padding (length d).
Proof.
  unfold encString, writeString. rewrite concat_app, <- (padding_calls (length d)). done.
Qed.

Lemma encStrings_eq ss : encStrings ss = encNum (Z.of_nat (length ss)) ++ concat (encString <$> ss).
Proof.
  unfold encStrings, writeStrings. rewrite concat_app. f_equal.
  induction ss as [|x ss IH]; [done|]. by rewrite !fmap_cons, !concat_cons, concat_app, IH.
Qed.

Lemma decodes_string max : (0 <= max < 2 ^ 64)%Z ->
  decodes (readString max) encString (fun d => (Z.of_nat (length d) <= max)%Z).
Proof.
  intros Hmax. apply (decodes_iff _ (fun d => encNum (Z.of_nat (length d)) ++ d ++ padding (length d))
    _ (fun d => (Z.of_nat (length d) <= max)%Z)); [done|by intros; rewrite encString_eq|].
  apply (decodes_bind _ _ encNum (fun n => (0 <= n <= size_t_max)%Z) _ _ (fun d => Z.of_nat (length d))).
  { apply decodes_num. unfold size_t_max. lia. }
  { unfold size_t_max. lia. }
  intros len Hlen. destruct (Z.ltb_spec max len) as [Hm|Hm].
  { split; [lia|]. intros s c _. by right; right. }
  apply (decodes_bind _ _ (fun d => d) (fun d => length d = Z.to_nat len) _ _ id).
  { apply decodes_exact; lia. }
  { unfold id. lia. }
  intros res Hres. apply (decodes_iff _ (fun d => padding (length res) ++ []) _ (fun d => d = res)).
  { unfold id. intros d. split; [intros ->; split; [lia|done] | by intros [_ ->]]. }
  { intros d [_ <-]. apply app_nil_r. }
  replace len with (Z.of_nat (length res)) by lia.
  apply (decodes_bind _ _ (fun _ => padding (length res)) (fun _ => True) (fun _ => []) _ (fun _ => tt)).
  - apply decodes_padding.
  - done.
  - intros [] _. apply decodes_ret; [done|]. by intros b [? _].
Qed.

Lemma drain_loop_spec fuel acc s c : delivers s c -> src_fuel s < fuel ->
  exists s', drain_loop fuel acc s = Ok (acc ++ c, s') /\ delivers s' [] /\ src_read 8192 s' = throw EndOfFile.
Proof.
  revert acc s c. induction fuel as [|fuel IH]; intros acc s c Hs Hfuel; [lia|]. cbn [drain_loop].
  destruct (src_read 8192 s) as [[d s1]|f] eqn:Er.
  - destruct (src_read_split 8192 _ _ _ _ Hs ltac:(lia) Er) as (c' & -> & Hs1 & _).
    pose proof (src_read_fuel 8192 _ _ _ _ Hs ltac:(lia) Er) as Hf.
    destruct (IH (acc ++ d) s1 c' Hs1 ltac:(lia)) as (s2 & -> & Hs2). exists s2. by rewrite app_assoc.
  - destruct c as [|x c].
    + destruct (src_read_eof 8192 s Hs ltac:(lia)) as [E|(s2 & E & _)]; rewrite Er in E; [|done]. injection E as ->.
      exists s. rewrite app_nil_r. done.
    + destruct (src_read_data 8192 s _ Hs ltac:(done) ltac:(lia)) as (? & ? & ? & E & _).
      by rewrite Er in E.
Qed.

(** Draining a source returns exactly what it delivers. *)
Lemma drain_spec s c : delivers s c ->
  exists s', drain s = Ok (c, s') /\ delivers s' [] /\ src_read 8192 s' = throw EndOfFile.
Proof. intros Hs. apply (drain_loop_spec _ []); [done|lia]. Qed.

Lemma delivers_fuel s c : delivers s c -> length c <= src_fuel s.
Proof.
  intros Hs. destruct (proj1 (decodes_exact (Z.of_nat (length c)) ltac:(lia)) c ltac:(simpl; lia) s [])
    as (s' & _ & _ & Hf); [by rewrite app_nil_r|]. lia.
Qed.

Lemma times_loop_reads {A B} (elem : A -> S -> result (A * S)) (enc : B -> bytes) (f : A -> B -> A) l fuel acc :
  (forall a b, b ∈ l -> reads (elem a) (f a b) (enc b)) -> length l < fuel ->
  reads (times_loop fuel elem (Z.of_nat (length l)) acc) (foldl f acc l) (concat (enc <$> l)).
Proof.
  revert fuel acc. induction l as [|b l IH]; intros fuel acc Helem Hfuel.
  { destruct fuel; apply reads_ret. }
  destruct fuel as [|fuel]; simpl in Hfuel; [lia|]. cbn [times_loop foldl length].
  rewrite (proj2 (Z.eqb_neq _ _)) by lia. rewrite fmap_cons. simpl concat.
  apply (reads_bind _ _ (f acc b)); [apply Helem; set_solver|].
  replace (Z.of_nat (Datatypes.S (length l)) - 1)%Z with (Z.of_nat (length l)) by lia.
  apply IH; [|lia]. intros a b' Hb'. apply Helem. set_solver.
Qed.

Lemma concat_nonempty_length {B} (enc : B -> bytes) l :
  Forall (fun b => enc b <> []) l -> length l <= length (concat (enc <$> l)).
Proof.
  induction 1 as [|b l Hb _ IH]; [done|]. rewrite fmap_cons. simpl. rewrite length_app.
  destruct (enc b); simpl; [done|lia].
Qed.

Lemma reads_times {A B} (elem : A -> S -> result (A * S)) (enc : B -> bytes) (f : A -> B -> A) l acc :
  (forall a b, b ∈ l -> reads (elem a) (f a b) (enc b)) -> Forall (fun b => enc b <> []) l ->
  (Z.of_nat (length l) <= size_t_max)%Z ->
  reads (read_times elem acc) (foldl f acc l) (encNum (Z.of_nat (length l)) ++ concat (enc <$> l)).
Proof.
  intros Helem Hne Hl. unfold read_times.
  apply (reads_bind _ _ (Z.of_nat (length l))).
  - apply (proj1 (decodes_num size_t_max ltac:(unfold size_t_max; lia))). lia.
  - intros s c Hs. pose proof (delivers_fuel _ _ Hs) as Hf. rewrite length_app in Hf.
    pose proof (concat_nonempty_length enc l Hne).
    apply (times_loop_reads elem enc f l); [done|lia|done].
Qed.

Lemma encNum_nonempty n : encNum n <> [].
Proof. done. Qed.

Lemma encString_nonempty d : encString d <> [].
Proof. by rewrite encString_eq. Qed.

Lemma foldl_snoc {B} (l acc : list B) : foldl (fun a b => a ++ [b]) acc l = acc ++ l.
Proof.
  revert acc. induction l as [|x l IH]; intros acc; simpl; [by rewrite app_nil_r|].
  by rewrite IH, <- app_assoc.
Qed.

Lemma times_loop_snoc {B} (r : S -> result (B * S)) e (P : B -> Prop) fuel count acc s c :
  decodes r e P -> (forall b, e b <> []) -> delivers s c -> src_fuel s < fuel -> (0 <= count)%Z ->
  let res := times_loop fuel (fun ss s => let* (x, s) := r s in Ok (ss ++ [x], s)) count acc s in
  (exists l c', Forall P l /\ Z.of_nat (length l) = count /\ c = concat (e <$> l) ++ c')
  \/ res = throw EndOfFile \/ res = throw SerialisationError.
Proof.
  intros [Hr1 Hr2] He. revert count acc s c.
  induction fuel as [|fuel IH]; intros count acc s c Hs Hfuel Hc; [lia|]. cbn [times_loop].
  destruct (Z.eqb_spec count 0) as [->|Hne]; [left; by exists [], c|].
  destruct (Hr2 _ _ Hs) as [(a & c1 & Ha & ->)|[-> | ->]]; [|by right; left|by right; right].
  destruct (Hr1 _ Ha _ _ Hs) as (s1 & -> & Hs1 & Hf). cbn [rbind].
  pose proof (He a). destruct (e a) as [|x0 d0] eqn:Ea; [done|]. simpl in Hf. rewrite <- Ea.
  destruct (IH (count - 1)%Z (acc ++ [a]) s1 c1 Hs1 ltac:(lia) ltac:(lia)) as [(l & c' & Hl & Hlen & ->)|?];
    [|by right].
  left. exists (a :: l), c'. rewrite fmap_cons. simpl. rewrite <- app_assoc.
  split; [by constructor|]. split; [lia|done].
Qed.

(** The decoder of a counted list whose elements have a nonempty encoding. *)
Lemma decodes_list {B} (r : S -> result (B * S)) e (P : B -> Prop) :
  decodes r e P -> (forall b, e b <> []) ->
  decodes (read_times (fun ss s => let* (x, s) := r s in Ok (ss ++ [x], s)) [])
    (fun l => encNum (Z.of_nat (length l)) ++ concat (e <$> l))
    (fun l => Forall P l /\ (Z.of_nat (length l) <= size_t_max)%Z).
Proof.
  intros Hr He. split.
  - intros l [Hl Hlen].
    replace l with (foldl (fun a b => a ++ [b]) [] l) at 1 by apply foldl_snoc.
    apply reads_times; [|by apply Forall_forall|done].
    intros a b Hb. rewrite <- (app_nil_r (e b)). apply (reads_bind _ _ b); [|apply reads_ret].
    apply Hr. by eapply Forall_forall.
  - intros s c Hs. unfold read_times.
    pose proof (decodes_num size_t_max ltac:(unfold size_t_max; lia)) as [Hn1 Hn2].
    destruct (Hn2 _ _ Hs) as [(n & c1 & Hn & ->)|[-> | ->]]; [|by right; left|by right; right].
    destruct (Hn1 _ Hn _ _ Hs) as (s1 & -> & Hs1 & _). cbn [rbind].
    destruct (times_loop_snoc r e P (Datatypes.S (src_fuel s1)) n [] s1 c1) as [(l & c' & Hl & Hlen & ->)|?];
      [done|done|done|lia|lia| |by right].
    left. exists l, c'. rewrite Hlen. split; [split; [done|lia]|]. by rewrite app_assoc.
Qed.

Lemma decodes_strings :
  decodes readStrings encStrings
    (fun ss => Forall (fun d => (Z.of_nat (length d) <= size_t_max)%Z) ss /\ (Z.of_nat (length ss) <= size_t_max)%Z).
Proof.
  eapply decodes_iff; cycle 2.
  - apply decodes_list; [apply decodes_string; unfold size_t_max; lia|apply encString_nonempty].
  - done.
  - intros ss _. symmetry. apply encStrings_eq.
Qed.
End reading_laws.
