(* ===== verification/Streams.v ===== *)
(** * Concrete sources and sinks (libutil/serialise.hh, serialise.cc)

    Every source of the code as an instance of the contract of [Serialise],
    the buffered sink, and the framing protocol built from both. *)

From S2P Require Import Prelude.
From S2P Require Import Containers.
From S2P Require Import Serialise.

(** ** [StringSource] *)

Record StringSource := mkStringSource { ss_s : bytes; ss_pos : nat }.

Definition StringSource_of (s : bytes) : StringSource := mkStringSource s 0.

(** [s.copy(data, len, pos)] copies at most what is left. *)
Definition StringSource_read (len : Z) (this : StringSource) : result (bytes * StringSource) :=
  if decide (ss_pos this = length (ss_s this)) then throw EndOfFile
  else
    let left := drop (ss_pos this) (ss_s this) in
    let d := if (len <? Z.of_nat (length left))%Z then take (Z.to_nat len) left else left in
    Ok (d, mkStringSource (ss_s this) (ss_pos this + length d)).

#[export] Instance StringSource_source : Source StringSource := {
  src_read := StringSource_read;
  src_fuel s := length (ss_s s) - ss_pos s;
}.

Definition StringSource_delivers (s : StringSource) (c : bytes) : Prop :=
  ss_pos s <= length (ss_s s) /\ c = drop (ss_pos s) (ss_s s).

(** Copying out at most [len] bytes of [left]. *)
Lemma copy_prefix (len : Z) (left : bytes) : (0 < len)%Z ->
  exists d c', (if (len <? Z.of_nat (length left))%Z then take (Z.to_nat len) left else left) = d /\
    left = d ++ c' /\ (Z.of_nat (length d) <= len)%Z /\ (left <> [] -> 1 <= length d).
Proof.
  intros Hlen. destruct (Z.ltb_spec len (Z.of_nat (length left))).
  - exists (take (Z.to_nat len) left), (drop (Z.to_nat len) left).
    rewrite take_drop, length_take. split; [done|]. split; [done|]. split; lia.
  - exists left, []. rewrite app_nil_r. split; [done|]. split; [done|]. split; [lia|].
    destruct left; simpl; [done|lia].
Qed.

#[export] Program Instance StringSource_laws : SourceLaws StringSource := {
  delivers := StringSource_delivers;
}.
Next Obligation.
  intros len [s pos] c [Hpos ->] Hc Hlen. simpl in *. unfold StringSource_read. simpl.
  rewrite decide_False by (intros ->; by rewrite drop_all in Hc).
  destruct (copy_prefix len (drop pos s) Hlen) as (d & c' & -> & Hd & Hl & _).
  exists d, (mkStringSource s (pos + length d)), c'. split; [done|]. split; [done|]. split; [|done].
  apply (f_equal length) in Hd as Hlen'. rewrite length_drop, length_app in Hlen'.
  split; simpl; [lia|]. by rewrite <- drop_drop, Hd, drop_app_length.
Qed.
Next Obligation.
  intros len [s pos] [Hpos Hc] Hlen. simpl in *. left. unfold StringSource_read. simpl.
  rewrite decide_True; [done|]. apply (f_equal length) in Hc. rewrite length_drop in Hc. simpl in Hc. lia.
Qed.
Next Obligation.
  intros len [s pos] c d s' [Hpos ->] Hlen. simpl in *. unfold StringSource_read. simpl.
  case_decide as E; [done|].
  destruct (copy_prefix len (drop pos s) Hlen) as (d' & c' & -> & Hd & Hl & Hne).
  intros Hr. apply Ok_inj in Hr. simplify_eq. simpl.
  apply (f_equal length) in Hd as Hlen'. rewrite length_drop, length_app in Hlen'.
  assert (1 <= length d); [|lia]. apply Hne. intros Hn. apply (f_equal length) in Hn.
  rewrite length_drop in Hn. simpl in Hn. lia.
Qed.

(** ** [BufferedSource] over an unbuffered one *)

Record BufferedSource (U : Type) := mkBufferedSource {
  bs_bufSize : nat;
  bs_buffer : bytes;
  bs_bufPosIn : nat;
  bs_bufPosOut : nat;
  bs_under : U;
}.
Arguments mkBufferedSource {U}.
Arguments bs_bufSize {U}.
Arguments bs_buffer {U}.
Arguments bs_bufPosIn {U}.
Arguments bs_bufPosOut {U}.
Arguments bs_under {U}.

Section buffered_source.
Context {U : Type} `{Source U}.

(** [if (!bufPosIn) bufPosIn = readUnbuffered(buffer.get(), bufSize)]. *)
Definition bs_fill (this : BufferedSource U) : result (BufferedSource U) :=
  if decide (bs_bufPosIn this = 0) then
    let* (d, u) := src_read (Z.of_nat (bs_bufSize this)) (bs_under this) in
    Ok (mkBufferedSource (bs_bufSize this) (d ++ drop (length d) (bs_buffer this)) (length d)
          (bs_bufPosOut this) u)
  else Ok this.

(** Copy out the data in the buffer. *)
Definition bs_copy (len : Z) (this : BufferedSource U) : bytes * BufferedSource U :=
  let left := take (bs_bufPosIn this - bs_bufPosOut this) (drop (bs_bufPosOut this) (bs_buffer this)) in
  let d := if (len <? Z.of_nat (length left))%Z then take (Z.to_nat len) left else left in
  let out := bs_bufPosOut this + length d in
  let '(i, o) := if decide (bs_bufPosIn this = out) then (0, 0) else (bs_bufPosIn this, out) in
  (d, mkBufferedSource (bs_bufSize this) (bs_buffer this) i o (bs_under this)).

Definition bs_read (len : Z) (this : BufferedSource U) : result (bytes * BufferedSource U) :=
  let* this := bs_fill this in Ok (bs_copy len this).

Definition bs_hasData (this : BufferedSource U) : bool := bs_bufPosOut this <? bs_bufPosIn this.

#[global] Instance BufferedSource_source : Source (BufferedSource U) := {
  src_read := bs_read;
  src_fuel s := (bs_bufPosIn s - bs_bufPosOut s) + src_fuel (bs_under s);
}.

(** What is in the buffer and not yet handed out. *)
Definition bs_pending (s : BufferedSource U) : bytes :=
  take (bs_bufPosIn s - bs_bufPosOut s) (drop (bs_bufPosOut s) (bs_buffer s)).

Definition bs_ok (s : BufferedSource U) : Prop :=
  0 < bs_bufSize s /\ length (bs_buffer s) = bs_bufSize s /\
  bs_bufPosOut s <= bs_bufPosIn s <= bs_bufSize s.

Context `{!SourceLaws U}.

Definition bs_delivers (s : BufferedSource U) (c : bytes) : Prop :=
  bs_ok s /\ (bs_bufPosIn s = 0 \/ bs_bufPosOut s < bs_bufPosIn s) /\
  exists cu, delivers (bs_under s) cu /\ c = bs_pending s ++ cu.

Lemma length_bs_pending s : bs_ok s -> length (bs_pending s) = bs_bufPosIn s - bs_bufPosOut s.
Proof. intros (_ & Hl & Ho). unfold bs_pending. rewrite length_take, length_drop. lia. Qed.

Lemma bs_copy_spec len s cu d s' :
  bs_ok s -> (0 < len)%Z -> delivers (bs_under s) cu -> bs_copy len s = (d, s') ->
  exists c', bs_pending s ++ cu = d ++ c' /\ bs_delivers s' c' /\ (Z.of_nat (length d) <= len)%Z /\
    bs_bufPosIn s' - bs_bufPosOut s' + length d = bs_bufPosIn s - bs_bufPosOut s /\
    bs_under s' = bs_under s /\ (bs_bufPosOut s < bs_bufPosIn s -> 1 <= length d).
Proof.
  intros Hok Hlen Hu. unfold bs_copy. fold (bs_pending s).
  destruct (copy_prefix len (bs_pending s) Hlen) as (d' & p & -> & Hp & Hl & Hne).
  pose proof (length_bs_pending s Hok) as Hpl. rewrite Hp, length_app in Hpl.
  assert (Hd : bs_bufPosOut s < bs_bufPosIn s -> 1 <= length d').
  { intros Hlt. apply Hne. rewrite Hp. intros E. apply (f_equal length) in E.
    rewrite length_app in E. simpl in E. lia. }
  destruct Hok as (Hs0 & Hs1 & Hs2).
  case_decide as E; intros [= <- <-]; simpl.
  - exists cu. assert (p = []) as -> by (destruct p; simpl in *; [done|lia]).
    rewrite Hp, app_nil_r. split; [done|]. split; [|split; [done|]; split; [lia|]; split; done].
    split; [by split_and!; simpl; try lia|]. split; [by left|]. exists cu. split; done.
  - exists (p ++ cu). rewrite Hp, <- app_assoc. split; [done|].
    split; [|split; [done|]; split; [lia|]; split; done].
    split; [by split_and!; simpl; try lia|]. split; [right; simpl; lia|]. exists cu. split; [done|].
    f_equal. unfold bs_pending in *. simpl. rewrite <- drop_drop.
    replace (bs_bufPosIn s - (bs_bufPosOut s + length d'))
      with (bs_bufPosIn s - bs_bufPosOut s - length d') by lia.
    by rewrite <- skipn_firstn_comm, Hp, drop_app_length.
Qed.

Lemma bs_fill_data s d u : bs_ok s -> bs_bufPosIn s = 0 -> length d <= bs_bufSize s ->
  let s1 := mkBufferedSource (bs_bufSize s) (d ++ drop (length d) (bs_buffer s)) (length d) (bs_bufPosOut s) u in
  bs_ok s1 /\ bs_pending s1 = d.
Proof.
  intros (H1 & H2 & H3) H0 Hd. assert (bs_bufPosOut s = 0) as E by lia. simpl. split.
  - split_and!; simpl; [done| |lia|done]. rewrite length_app, length_drop. lia.
  - unfold bs_pending. simpl. rewrite E, drop_0, Nat.sub_0_r. apply take_app_length.
Qed.

#[global] Program Instance BufferedSource_laws : SourceLaws (BufferedSource U) := {
  delivers := bs_delivers;
}.
Next Obligation.
  intros len s c (Hok & Hpos & cu & Hu & ->) Hc Hlen. simpl. unfold bs_read, bs_fill.
  case_decide as E.
  - assert (bs_pending s = []) as Hp by (unfold bs_pending; by rewrite E).
    rewrite Hp in *. simpl in *.
    destruct (src_read_data (Z.of_nat (bs_bufSize s)) _ _ Hu Hc) as (d & u & cu' & -> & -> & Hu' & Hd);
      [destruct Hok; lia|]. cbn [rbind].
    destruct (bs_fill_data s d u Hok E) as [Hok1 Hp1]; [lia|].
    destruct (bs_copy len _) as [d' s'] eqn:Ec.
    destruct (bs_copy_spec _ _ cu' _ _ Hok1 Hlen Hu' Ec) as (c' & Hc' & Hs' & Hl & _).
    rewrite Hp1 in Hc'. by exists d', s', c'.
  - cbn [rbind]. destruct (bs_copy len s) as [d' s'] eqn:Ec.
    destruct (bs_copy_spec _ _ cu _ _ Hok Hlen Hu Ec) as (c' & Hc' & Hs' & Hl & _).
    by exists d', s', c'.
Qed.
Next Obligation.
  intros len s (Hok & Hpos & cu & Hu & Hc) Hlen. simpl. unfold bs_read, bs_fill.
  symmetry in Hc. apply app_eq_nil in Hc as [Hp ->].
  pose proof (length_bs_pending s Hok) as Hl. rewrite Hp in Hl. simpl in Hl.
  rewrite decide_True by lia.
  destruct (src_read_eof (Z.of_nat (bs_bufSize s)) _ Hu) as [-> | (u & -> & Hu')];
    [destruct Hok; lia|by left|]. right. cbn [rbind].
  destruct (bs_fill_data s [] u Hok) as [Hok1 Hp1]; [lia|simpl; lia|].
  destruct (bs_copy len _) as [d' s'] eqn:Ec.
  destruct (bs_copy_spec _ _ [] _ _ Hok1 Hlen Hu' Ec) as (c' & Hc' & Hs' & _ & _).
  rewrite Hp1 in Hc'. symmetry in Hc'. apply app_eq_nil in Hc' as [-> ->]. by exists s'.
Qed.
Next Obligation.
  intros len s c d s' (Hok & Hpos & cu & Hu & ->) Hlen. simpl. unfold bs_read, bs_fill.
  case_decide as E.
  - destruct (src_read (Z.of_nat (bs_bufSize s)) (bs_under s)) as [[d0 u]|] eqn:Er; [|done].
    cbn [rbind]. intros Hr%Ok_inj.
    assert (H0 : (0 < Z.of_nat (bs_bufSize s))%Z) by (destruct Hok; lia).
    pose proof (src_read_fuel _ _ _ _ _ Hu H0 Er) as Hf.
    destruct (src_read_split _ _ _ _ _ Hu H0 Er) as (cu' & -> & Hu' & Hl).
    destruct (bs_fill_data s d0 u Hok E) as [Hok1 Hp1]; [lia|].
    destruct (bs_copy_spec _ _ cu' _ _ Hok1 Hlen Hu' Hr) as (c' & _ & _ & _ & Hio & -> & Hne).
    simpl in *. destruct Hok as (? & ? & ?). lia.
  - cbn [rbind]. intros Hr%Ok_inj.
    destruct (bs_copy_spec _ _ cu _ _ Hok Hlen Hu Hr) as (c' & _ & _ & _ & Hio & -> & Hne). lia.
Qed.
End buffered_source.

(** ** [TeeSource] and [LengthSource] *)

Record TeeSource (U : Type) := mkTeeSource { tee_orig : U; tee_sink : list bytes }.
Arguments mkTeeSource {U}.
Arguments tee_orig {U}.
Arguments tee_sink {U}.

Record LengthSource (U : Type) := mkLengthSource { len_next : U; len_total : Z }.
Arguments mkLengthSource {U}.
Arguments len_next {U}.
Arguments len_total {U}.

(** ** [SizedSource] and [ChainSource] *)

Record SizedSource (U : Type) := mkSizedSource { sized_orig : U; sized_remain : Z }.
Arguments mkSizedSource {U}.
Arguments sized_orig {U}.
Arguments sized_remain {U}.

Record ChainSource (U V : Type) := mkChainSource { ch_source1 : U; ch_source2 : V; ch_useSecond : bool }.
Arguments mkChainSource {U V}.
Arguments ch_source1 {U V}.
Arguments ch_source2 {U V}.
Arguments ch_useSecond {U V}.

Section wrappers.
Context {U V : Type} `{Source U} `{Source V}.

Definition tee_read (len : Z) (this : TeeSource U) : result (bytes * TeeSource U) :=
  let* (d, orig) := src_read len (tee_orig this) in
  Ok (d, mkTeeSource orig (tee_sink this ++ [d])).

Definition length_read (len : Z) (this : LengthSource U) : result (bytes * LengthSource U) :=
  let* (d, next) := src_read len (len_next this) in
  Ok (d, mkLengthSource next (u64 (len_total this + Z.of_nat (length d)))).

Definition sized_read (len : Z) (this : SizedSource U) : result (bytes * SizedSource U) :=
  if (sized_remain this <=? 0)%Z then throw EndOfFile
  else
    let* (d, orig) := src_read (Z.min len (sized_remain this)) (sized_orig this) in
    Ok (d, mkSizedSource orig (sized_remain this - Z.of_nat (length d))).

Definition chain_read (len : Z) (this : ChainSource U V) : result (bytes * ChainSource U V) :=
  let second :=
    let* (d, s2) := src_read len (ch_source2 this) in
    Ok (d, mkChainSource (ch_source1 this) s2 true) in
  if ch_useSecond this then second
  else
    match src_read len (ch_source1 this) with
    | Ok (d, s1) => Ok (d, mkChainSource s1 (ch_source2 this) false)
    | Err (Throw EndOfFile) => second
    | Err f => Err f
    end.

#[global] Instance TeeSource_source : Source (TeeSource U) := {
  src_read := tee_read;
  src_fuel s := src_fuel (tee_orig s);
}.
#[global] Instance LengthSource_source : Source (LengthSource U) := {
  src_read := length_read;
  src_fuel s := src_fuel (len_next s);
}.
#[global] Instance SizedSource_source : Source (SizedSource U) := {
  src_read := sized_read;
  src_fuel s := src_fuel (sized_orig s);
}.
#[global] Instance ChainSource_source : Source (ChainSource U V) := {
  src_read := chain_read;
  src_fuel s := (if ch_useSecond s then 0 else src_fuel (ch_source1 s)) + src_fuel (ch_source2 s);
}.

(** [SizedSource::drainAll]. *)
Fixpoint drainAll_loop (fuel : nat) (sum : Z) (this : SizedSource U) : result (Z * SizedSource U) :=
  if (0 <? sized_remain this)%Z then
    match fuel with
    | 0 => Err OutOfFuel
    | S fuel =>
        let* (d, this) := sized_read 8192 this in
        drainAll_loop fuel (u64 (sum + Z.of_nat (length d))) this
    end
  else Ok (sum, this).
Definition drainAll (this : SizedSource U) : result (Z * SizedSource U) :=
  drainAll_loop (S (src_fuel this)) 0 this.

Context `{!SourceLaws U} `{!SourceLaws V}.

#[global] Program Instance TeeSource_laws : SourceLaws (TeeSource U) := {
  delivers s c := delivers (tee_orig s) c;
}.
Next Obligation.
  intros len s c Hs Hc Hlen. simpl. unfold tee_read.
  destruct (src_read_data len _ _ Hs Hc Hlen) as (d & o & c' & -> & ? & ? & ?). simpl. by eexists _, _, _.
Qed.
Next Obligation.
  intros len s Hs Hlen. simpl. unfold tee_read.
  destruct (src_read_eof len _ Hs Hlen) as [-> | (o & -> & ?)]; [by left|]. right. simpl. by eexists.
Qed.
Next Obligation.
  intros len s c d s' Hs Hlen Hr. simpl in *. unfold tee_read in Hr. inv_result.
  destruct x as [d0 o]. inv_result. simplify_eq. by eapply src_read_fuel.
Qed.

(** The same source, with what has gone to the sink accounted for: together
    with what is still to come it makes up [total]. *)
Program Definition TeeSource_copies (total : bytes) : SourceLaws (TeeSource U) := {|
  delivers s c := delivers (tee_orig s) c /\ concat (tee_sink s) ++ c = total;
|}.
Next Obligation.
  intros total len s c [Hs Ht] Hc Hlen. simpl. unfold tee_read.
  destruct (src_read_data len _ _ Hs Hc Hlen) as (d & o & c' & -> & -> & ? & ?). simpl.
  eexists _, _, _. split; [done|]. split; [done|]. split; [|done]. simpl. split; [done|].
  rewrite concat_app, <- Ht, <- app_assoc. simpl. by rewrite app_nil_r.
Qed.
Next Obligation.
  intros total len s [Hs Ht] Hlen. simpl. unfold tee_read.
  destruct (src_read_eof len _ Hs Hlen) as [-> | (o & -> & ?)]; [by left|]. right. simpl.
  eexists. split; [done|]. simpl. split; [done|]. rewrite concat_app. simpl. rewrite !app_nil_r in *. done.
Qed.
Next Obligation.
  intros total len s c d s' [Hs _] Hlen Hr. simpl in *. unfold tee_read in Hr. inv_result.
  destruct x as [d0 o]. inv_result. simplify_eq. by eapply src_read_fuel.
Qed.

#[global] Program Instance LengthSource_laws : SourceLaws (LengthSource U) := {
  delivers s c := delivers (len_next s) c;
}.
Next Obligation.
  intros len s c Hs Hc Hlen. simpl. unfold length_read.
  destruct (src_read_data len _ _ Hs Hc Hlen) as (d & o & c' & -> & ? & ? & ?). simpl. by eexists _, _, _.
Qed.
Next Obligation.
  intros len s Hs Hlen. simpl. unfold length_read.
  destruct (src_read_eof len _ Hs Hlen) as [-> | (o & -> & ?)]; [by left|]. right. simpl. by eexists.
Qed.
Next Obligation.
  intros len s c d s' Hs Hlen Hr. simpl in *. unfold length_read in Hr. inv_result.
  destruct x as [d0 o]. inv_result. simplify_eq. by eapply src_read_fuel.
Qed.

(** A sized source cuts what the original delivers. *)
Definition sized_delivers (s : SizedSource U) (c : bytes) : Prop :=
  (0 <= sized_remain s)%Z /\ exists cu, delivers (sized_orig s) cu /\ c = take (Z.to_nat (sized_remain s)) cu.

#[global] Program Instance SizedSource_laws : SourceLaws (SizedSource U) := {
  delivers := sized_delivers;
}.
Next Obligation.
  intros len [o r] c (Hr & cu & Hu & ->) Hc Hlen. simpl in *. unfold sized_read. simpl.
  assert (r <> 0)%Z by (intros ->; done). rewrite (proj2 (Z.leb_gt r 0)) by lia.
  destruct (src_read_data (Z.min len r) o cu Hu) as (d & o' & cu' & -> & -> & Hu' & Hl);
    [by intros ->; rewrite take_nil in Hc|lia|]. simpl.
  eexists d, _, (take (Z.to_nat (r - Z.of_nat (length d))) cu'). split; [done|].
  rewrite take_app_ge by lia. replace (Z.to_nat (r - _)) with (Z.to_nat r - length d) by lia.
  split; [done|]. split; [|lia]. split; simpl; [lia|]. exists cu'. split; [done|]. f_equal. lia.
Qed.
Next Obligation.
  intros len [o r] (Hr & cu & Hu & Hc) Hlen. simpl in *. unfold sized_read. simpl.
  destruct (Z.leb_spec r 0); [by left|].
  assert (cu = []) as -> by (destruct cu, (Z.to_nat r) eqn:E; simpl in *; [done|done|lia|done]).
  destruct (src_read_eof (Z.min len r) o Hu ltac:(lia)) as [-> | (o' & -> & Hu')]; [by left|]. right.
  simpl. eexists. split; [done|]. split; simpl; [lia|]. exists []. by rewrite take_nil.
Qed.
Next Obligation.
  intros len [o r] c d s' (Hr & cu & Hu & ->) Hlen. simpl in *. unfold sized_read. simpl.
  destruct (Z.leb_spec r 0); [done|]. intros Hrd. inv_result. destruct x as [d0 o']. inv_result.
  simplify_eq. simpl. eapply src_read_fuel; [done| |done]. lia.
Qed.

Definition chain_delivers (s : ChainSource U V) (c : bytes) : Prop :=
  exists c1 c2, c = c1 ++ c2 /\ delivers (ch_source2 s) c2 /\
    if ch_useSecond s then c1 = [] else delivers (ch_source1 s) c1.

#[global] Program Instance ChainSource_laws : SourceLaws (ChainSource U V) := {
  delivers := chain_delivers;
}.
Next Obligation.
  intros len [s1 s2 b] c (c1 & c2 & -> & H2 & H1) Hc Hlen. simpl in *. unfold chain_read. simpl.
  assert (Hsec : c2 <> [] -> exists d s' c', (let* (d, s2) := src_read len s2 in Ok (d, mkChainSource s1 s2 true)) =
    Ok (d, s') /\ c2 = d ++ c' /\ chain_delivers s' c' /\ (Z.of_nat (length d) <= len)%Z).
  { intros Hne. destruct (src_read_data len s2 c2 H2 Hne Hlen) as (d & s2' & c' & -> & -> & Hs & Hl).
    exists d, (mkChainSource s1 s2' true), c'. split; [done|]. split; [done|]. split; [|done]. by exists [], c'. }
  destruct b; [by rewrite H1 in *; apply Hsec|].
  destruct c1 as [|x c1].
  - destruct (src_read_eof len s1 H1 Hlen) as [-> | (s1' & -> & H1')]; [by apply Hsec|].
    eexists [], _, c2. split; [done|]. split; [done|]. split; [by exists [], c2|simpl; lia].
  - destruct (src_read_data len s1 _ H1 ltac:(done) Hlen) as (d & s1' & c' & -> & -> & Hs & Hl).
    eexists d, _, (c' ++ c2). rewrite <- app_assoc. split; [done|]. split; [done|]. split; [by exists c', c2|done].
Qed.
Next Obligation.
  intros len [s1 s2 b] (c1 & c2 & Hc & H2 & H1) Hlen. simpl in *. unfold chain_read. simpl.
  symmetry in Hc. apply app_eq_nil in Hc as [-> ->].
  assert (Hsec : (let* (d, s2) := src_read len s2 in Ok (d, mkChainSource s1 s2 true)) = throw EndOfFile \/
    exists s', (let* (d, s2) := src_read len s2 in Ok (d, mkChainSource s1 s2 true)) = Ok ([], s') /\ chain_delivers s' []).
  { destruct (src_read_eof len s2 H2 Hlen) as [-> | (s2' & -> & Hs)]; [by left|]. right.
    eexists. split; [done|]. by exists [], []. }
  destruct b; [done|].
  destruct (src_read_eof len s1 H1 Hlen) as [-> | (s1' & -> & H1')]; [done|]. right.
  eexists. split; [done|]. by exists [], [].
Qed.
Next Obligation.
  intros len [s1 s2 b] c d s' (c1 & c2 & -> & H2 & H1) Hlen. simpl in *. unfold chain_read. simpl.
  assert (Hsec : (let* (d, s2) := src_read len s2 in Ok (d, mkChainSource s1 s2 true)) = Ok (d, s') ->
    src_fuel s' + Nat.max 1 (length d) <= src_fuel s2).
  { intros Hrd. inv_result. destruct x as [d0 s2']. inv_result. simplify_eq. simpl. by eapply src_read_fuel. }
  destruct b; [done|].
  destruct (src_read len s1) as [[d0 s1']|f] eqn:Er.
  - intros Hrd. inv_result. simplify_eq. simpl. pose proof (src_read_fuel _ _ _ _ _ H1 Hlen Er). lia.
  - destruct f as [[]| | |]; try done. intros Hrd. specialize (Hsec Hrd). simpl in *. lia.
Qed.
End wrappers.

(** ** [sinkToSource]

    The coroutine runs a function that feeds a sink; what the reader sees of
    it is the list of the calls it makes. Empty calls do not yield. *)

Record SinkToSource := mkSinkToSource { sts_calls : list bytes; sts_cur : bytes }.

Fixpoint next_call (calls : list bytes) : option (bytes * list bytes) :=
  match calls with
  | [] => None
  | [] :: calls => next_call calls
  | data :: calls => Some (data, calls)
  end.

Definition sts_read (len : Z) (this : SinkToSource) : result (bytes * SinkToSource) :=
  let* (cur, calls) :=
    match sts_cur this with
    | [] => match next_call (sts_calls this) with Some p => Ok p | None => throw EndOfFile end
    | cur => Ok (cur, sts_calls this)
    end in
  let d := if (len <? Z.of_nat (length cur))%Z then take (Z.to_nat len) cur else cur in
  Ok (d, mkSinkToSource calls (drop (length d) cur)).

#[export] Instance SinkToSource_source : Source SinkToSource := {
  src_read := sts_read;
  src_fuel s := length (sts_cur s) + length (concat (sts_calls s));
}.

Lemma next_call_concat calls :
  match next_call calls with
  | Some (data, rest) => data <> [] /\ concat calls = data ++ concat rest
  | None => concat calls = []
  end.
Proof. induction calls as [|[|x d] calls IH]; simpl; done. Qed.

Lemma sts_read_spec len s : (0 < len)%Z ->
  match sts_cur s ++ concat (sts_calls s) with
  | [] => sts_read len s = throw EndOfFile
  | c => exists d s', sts_read len s = Ok (d, s') /\ c = d ++ sts_cur s' ++ concat (sts_calls s') /\
           (Z.of_nat (length d) <= len)%Z /\ 1 <= length d
  end.
Proof.
  intros Hlen. destruct s as [calls cur]. unfold sts_read. simpl.
  assert (Hcopy : forall cur calls, cur <> [] -> exists d s',
    Ok (if (len <? Z.of_nat (length cur))%Z then take (Z.to_nat len) cur else cur,
        mkSinkToSource calls (drop (length (if (len <? Z.of_nat (length cur))%Z then take (Z.to_nat len) cur else cur)) cur))
      = Ok (d, s') /\ cur ++ concat calls = d ++ sts_cur s' ++ concat (sts_calls s') /\
    (Z.of_nat (length d) <= len)%Z /\ 1 <= length d).
  { clear cur calls. intros cur calls Hcur. destruct (copy_prefix len cur Hlen) as (d & c' & -> & Hd & Hl & Hne).
    eexists d, _. split; [done|]. simpl. rewrite Hd at 1 2. rewrite drop_app_length, <- app_assoc. auto. }
  destruct cur as [|x cur].
  - simpl. pose proof (next_call_concat calls) as Hn.
    destruct (next_call calls) as [[data rest]|]; [|by rewrite Hn].
    destruct Hn as [Hne ->]. cbn [rbind].
    destruct (data ++ concat rest) eqn:E; [by destruct data|]. rewrite <- E. by apply Hcopy.
  - cbn [rbind]. destruct ((x :: cur) ++ concat calls) eqn:E; [done|]. rewrite <- E. by apply Hcopy.
Qed.

#[export] Program Instance SinkToSource_laws : SourceLaws SinkToSource := {
  delivers s c := c = sts_cur s ++ concat (sts_calls s);
}.
Next Obligation.
  intros len s c -> Hc Hlen. pose proof (sts_read_spec len s Hlen) as Hr. simpl.
  destruct (sts_cur s ++ concat (sts_calls s)) eqn:E; [done|].
  destruct Hr as (d & s' & -> & Hd & Hl & _). by eexists d, s', _.
Qed.
Next Obligation.
  intros len s Hc Hlen. pose proof (sts_read_spec len s Hlen) as Hr. rewrite <- Hc in Hr. by left.
Qed.
Next Obligation.
  intros len s c d s' -> Hlen Hr. pose proof (sts_read_spec len s Hlen) as Hs. simpl in *.
  destruct (sts_cur s ++ concat (sts_calls s)) eqn:E; [by rewrite Hr in Hs|].
  destruct Hs as (d2 & s2 & E2 & Hd & _ & H1). rewrite E2 in Hr. simplify_eq.
  rewrite <- !length_app, E, Hd, !length_app. lia.
Qed.

(** ** [BufferedSink]

    [bk_buffer] is the filled part of the buffer, so [bufPos] is its length. *)

Record BufferedSink (T : Type) := mkBufferedSink {
  bk_bufSize : nat;
  bk_buffer : bytes;
  bk_under : T;
}.
Arguments mkBufferedSink {T}.
Arguments bk_bufSize {T}.
Arguments bk_buffer {T}.
Arguments bk_under {T}.

Fixpoint run_calls {T} (f : bytes -> T -> result T) (calls : list bytes) (t : T) : result T :=
  match calls with
  | [] => Ok t
  | d :: calls => let* t := f d t in run_calls f calls t
  end.

(** The unbuffered writes one call causes, and the buffer it leaves. *)
Definition buffered_call (bufSize : nat) (buf data : bytes) : list bytes * bytes :=
  match data with
  | [] => ([], buf)
  | _ =>
      if bufSize <=? length buf + length data
      then (match buf with [] => [data] | _ => [buf; data] end, [])
      else ([], buf ++ data)
  end.

Fixpoint buffered_calls (bufSize : nat) (buf : bytes) (ws : list bytes) : list bytes * bytes :=
  match ws with
  | [] => ([], buf)
  | w :: ws =>
      let '(calls, buf) := buffered_call bufSize buf w in
      let '(calls', buf) := buffered_calls bufSize buf ws in
      (calls ++ calls', buf)
  end.

Lemma buffered_call_spec sz buf w calls buf' :
  length buf < sz -> buffered_call sz buf w = (calls, buf') ->
  concat calls ++ buf' = buf ++ w /\ length buf' < sz /\
  Forall (fun d => d <> [] /\ (length d <= sz \/ d = w)) calls.
Proof.
  intros Hb. unfold buffered_call. destruct w as [|x w]; [intros [= <- <-]; by rewrite app_nil_r|].
  destruct (Nat.leb_spec sz (length buf + length (x :: w))); intros [= <- <-].
  - rewrite app_nil_r. destruct buf as [|y b]; simpl concat; rewrite ?app_nil_r.
    + split; [done|]. split; [done|]. apply Forall_singleton. auto.
    + split; [done|]. split; [simpl; lia|]. rewrite Forall_cons, Forall_singleton.
      split; (split; [done|]); [left; lia|by right].
  - split; [done|]. split; [|done]. rewrite length_app. lia.
Qed.

(** Nothing is lost, duplicated or reordered, the buffer is never full between
    calls, and no unbuffered write is empty. *)
Lemma buffered_calls_spec sz buf ws calls buf' :
  length buf < sz -> buffered_calls sz buf ws = (calls, buf') ->
  concat calls ++ buf' = buf ++ concat ws /\ length buf' < sz /\
  Forall (fun d => d <> [] /\ (length d <= sz \/ d ∈ ws)) calls.
Proof.
  revert buf calls. induction ws as [|w ws IH]; intros buf calls Hb; cbn [buffered_calls].
  { intros [= <- <-]. by rewrite app_nil_r. }
  destruct (buffered_call sz buf w) as [calls1 buf1] eqn:E1.
  destruct (buffered_calls sz buf1 ws) as [calls2 buf2] eqn:E2. intros [= <- <-].
  destruct (buffered_call_spec _ _ _ _ _ Hb E1) as (H1 & H2 & H3).
  destruct (IH _ _ H2 E2) as (H4 & H5 & H6). split; [|split; [done|]].
  - rewrite concat_app, <- app_assoc, H4, app_assoc, H1, <- app_assoc. done.
  - apply Forall_app. split; (eapply Forall_impl; [eassumption|]); set_solver.
Qed.
Section buffered_sink.
Context {T : Type} (writeUnbuffered : bytes -> T -> result T).

Definition bk_flush (this : BufferedSink T) : result (BufferedSink T) :=
  if decide (length (bk_buffer this) = 0) then Ok this
  else
    let* t := writeUnbuffered (bk_buffer this) (bk_under this) in
    Ok (mkBufferedSink (bk_bufSize this) [] t).

Fixpoint bk_loop (fuel : nat) (data : bytes) (this : BufferedSink T) : result (BufferedSink T) :=
  match data with
  | [] => Ok this
  | _ =>
      match fuel with
      | 0 => Err OutOfFuel
      | S fuel =>
          if bk_bufSize this <=? length (bk_buffer this) + length data then
            let* this := bk_flush this in
            let* t := writeUnbuffered data (bk_under this) in
            Ok (mkBufferedSink (bk_bufSize this) (bk_buffer this) t)
          else
            let n := if bk_bufSize this <? length (bk_buffer this) + length data
                     then bk_bufSize this - length (bk_buffer this) else length data in
            let this := mkBufferedSink (bk_bufSize this) (bk_buffer this ++ take n data) (bk_under this) in
            let* this := if decide (length (bk_buffer this) = bk_bufSize this) then bk_flush this else Ok this in
            bk_loop fuel (drop n data) this
      end
  end.
Definition bk_write (data : bytes) (this : BufferedSink T) : result (BufferedSink T) :=
  bk_loop (length data) data this.

Lemma bk_write_call data this :
  bk_write data this =
  let '(calls, buf) := buffered_call (bk_bufSize this) (bk_buffer this) data in
  let* t := run_calls writeUnbuffered calls (bk_under this) in
  Ok (mkBufferedSink (bk_bufSize this) buf t).
Proof.
  destruct this as [sz buf t]. unfold bk_write, buffered_call. destruct data as [|x data]; [done|].
  cbn [bk_loop length]. simpl bk_bufSize. simpl bk_buffer. simpl bk_under.
  destruct (Nat.leb_spec sz (length buf + S (length data))).
  - unfold bk_flush. simpl. destruct buf as [|y buf]; simpl.
    + by destruct (writeUnbuffered (x :: data) t).
    + destruct (writeUnbuffered (y :: buf) t) as [t1|]; simpl; [|done].
      by destruct (writeUnbuffered (x :: data) t1).
  - rewrite (proj2 (Nat.ltb_ge sz _)) by lia.
    change (S (length data)) with (length (x :: data)). rewrite take_ge, drop_ge by done. simpl.
    rewrite decide_False by (rewrite length_app; simpl; lia). simpl. by destruct (length data).
Qed.

Lemma run_calls_app (f : bytes -> T -> result T) l l' t :
  run_calls f (l ++ l') t = let* t := run_calls f l t in run_calls f l' t.
Proof.
  revert t. induction l as [|d l IH]; intros t; simpl; [done|].
  destruct (f d t); simpl; [apply IH|done].
Qed.

Lemma bk_writes_calls ws this :
  run_calls bk_write ws this =
  let '(calls, buf) := buffered_calls (bk_bufSize this) (bk_buffer this) ws in
  let* t := run_calls writeUnbuffered calls (bk_under this) in
  Ok (mkBufferedSink (bk_bufSize this) buf t).
Proof.
  revert this. induction ws as [|w ws IH]; intros this; [by destruct this|].
  cbn [run_calls buffered_calls]. rewrite bk_write_call.
  destruct (buffered_call _ _ w) as [calls1 buf1].
  destruct (buffered_calls _ buf1 ws) as [calls2 buf2] eqn:E2.
  rewrite run_calls_app, !rbind_assoc. apply rbind_ext. intros t. simpl. rewrite IH. simpl. by rewrite E2.
Qed.

End buffered_sink.

(** ** Framing: [FramedSink] and [FramedSource] *)

Section framed_sink.
Context {T : Type} (writeUnbuffered : bytes -> T -> result T).
Context (checkError : BufferedSink T -> result unit).

Definition framed_writeUnbuffered (data : bytes) (to : BufferedSink T) : result (BufferedSink T) :=
  checkError to ;;;
  let* to := bk_write writeUnbuffered (le64 (Z.of_nat (length data))) to in
  bk_write writeUnbuffered data to.

(** The destructor, without the [catch]. *)
Definition framed_close (to : BufferedSink T) : result (BufferedSink T) :=
  let* to := bk_write writeUnbuffered (le64 0) to in
  bk_flush writeUnbuffered to.

(** A [FramedSink] used as its clients do: written to, flushed, destroyed. *)
Definition framed_session (bufSize : nat) (ws : list bytes) (to : BufferedSink T) : result (BufferedSink T) :=
  let* this := run_calls (bk_write framed_writeUnbuffered) ws (mkBufferedSink bufSize [] to) in
  let* this := bk_flush framed_writeUnbuffered this in
  framed_close (bk_under this).
End framed_sink.

Record FramedSource (U : Type) := mkFramedSource {
  fr_from : U;
  fr_eof : bool;
  fr_pending : bytes;
  fr_pos : nat;
}.
Arguments mkFramedSource {U}.
Arguments fr_from {U}.
Arguments fr_eof {U}.
Arguments fr_pending {U}.
Arguments fr_pos {U}.

Definition FramedSource_of {U} (from : U) : FramedSource U := mkFramedSource from false [] 0.

(** The encoding of a chunk. *)
Definition frame (chunk : bytes) : bytes := encNum (Z.of_nat (length chunk)) ++ chunk.

Section framed_source.
Context {U : Type} `{Source U}.

(** [if (pos >= pending.size()) ...]: fetch the next frame; [None] after the
    end marker. *)
Definition fr_fill (this : FramedSource U) : result (option (FramedSource U) * U) :=
  if length (fr_pending this) <=? fr_pos this then
    let* (len, from) := readInt (fr_from this) in
    if (len =? 0)%Z then Ok (None, from)
    else
      let* (pending, from) := source_exact len from in
      Ok (Some (mkFramedSource from false pending 0), from)
  else Ok (Some this, fr_from this).

Definition fr_read (len : Z) (this : FramedSource U) : result (bytes * FramedSource U) :=
  if fr_eof this then throw EndOfFile
  else
    let* (next, from) := fr_fill this in
    match next with
    | None => Ok ([], mkFramedSource from true (fr_pending this) (fr_pos this))
    | Some this =>
        let left := drop (fr_pos this) (fr_pending this) in
        let d := if (len <? Z.of_nat (length left))%Z then take (Z.to_nat len) left else left in
        Ok (d, mkFramedSource (fr_from this) false (fr_pending this) (fr_pos this + length d))
    end.

#[global] Instance FramedSource_source : Source (FramedSource U) := {
  src_read := fr_read;
  src_fuel s := length (fr_pending s) - fr_pos s + src_fuel (fr_from s);
}.

(** The destructor: skip to the end marker; [None] is an exception, which is
    ignored. *)
Fixpoint fr_skip (fuel : nat) (from : U) : result U :=
  match fuel with
  | 0 => Err OutOfFuel
  | S fuel =>
      let* (n, from) := readInt from in
      if (n =? 0)%Z then Ok from
      else let* (_, from) := source_exact n from in fr_skip fuel from
  end.
Definition fr_close (this : FramedSource U) : result U :=
  if fr_eof this then Ok (fr_from this) else fr_skip (S (src_fuel (fr_from this))) (fr_from this).

Context `{!SourceLaws U}.

Definition chunk_ok (chunk : bytes) : Prop := chunk <> [] /\ (Z.of_nat (length chunk) <= uint_max)%Z.

(** The frames still to come, the end marker, and what follows it. *)
Definition fr_delivers (rest : bytes) (s : FramedSource U) (c : bytes) : Prop :=
  if fr_eof s then c = [] /\ delivers (fr_from s) rest
  else fr_pos s <= length (fr_pending s) /\ exists chunks, Forall chunk_ok chunks /\
    delivers (fr_from s) (concat (frame <$> chunks) ++ encNum 0 ++ rest) /\
    c = drop (fr_pos s) (fr_pending s) ++ concat chunks.

Lemma reads_int n : (0 <= n <= uint_max)%Z -> reads readInt n (encNum n).
Proof. intros Hn. apply (decodes_num uint_max); [unfold uint_max; lia|done]. Qed.

(** A fetch on a source that has handed out its pending data. *)
Lemma fr_fill_spec rest s c : fr_eof s = false -> fr_delivers rest s c ->
  (exists s1, fr_fill s = Ok (Some s1, fr_from s1) /\ fr_eof s1 = false /\ fr_delivers rest s1 c /\
     fr_pos s1 < length (fr_pending s1) /\ src_fuel s1 <= src_fuel s) \/
  (exists from, fr_fill s = Ok (None, from) /\ c = [] /\ delivers from rest /\
     src_fuel from + 1 <= src_fuel (fr_from s) /\ fr_pos s = length (fr_pending s)).
Proof.
  intros He. unfold fr_delivers at 1. rewrite He. intros (Hpos & chunks & Hch & Hs & ->).
  unfold fr_fill. destruct (Nat.leb_spec (length (fr_pending s)) (fr_pos s)) as [Hp|Hp].
  - rewrite drop_ge by lia. destruct chunks as [|chunk chunks].
    + right. destruct (reads_int 0 ltac:(unfold uint_max; lia) _ _ Hs) as (from & -> & Hf & Hfuel).
      exists from. simpl in *. split; [done|]. split; [done|]. split; [done|]. lia.
    + left. apply Forall_cons in Hch as [[Hc Hl] Hch].
      rewrite fmap_cons, concat_cons in Hs. unfold frame at 1 in Hs. rewrite <- !app_assoc in Hs.
      destruct (reads_int (Z.of_nat (length chunk)) ltac:(lia) _ _ Hs) as (from0 & -> & Hf0 & Hfuel0).
      assert (0 < length chunk) by (destruct chunk; simpl; [done|lia]).
      cbn [rbind]. rewrite (proj2 (Z.eqb_neq _ _)) by lia.
      destruct (proj1 (decodes_exact (Z.of_nat (length chunk)) ltac:(lia)) chunk ltac:(simpl; lia) _ _ Hf0)
        as (from & -> & Hf & Hfuel).
      cbn [rbind]. exists (mkFramedSource from false chunk 0). split; [done|]. split; [done|]. simpl.
      split; [split; [simpl; lia|]; by exists chunks|]. split; [done|]. lia.
  - left. exists s. split; [done|]. split; [done|]. split; [|split; [done|lia]].
    unfold fr_delivers. rewrite He. split; [done|]. by exists chunks.
Qed.

Lemma fr_read_spec rest len s c : (0 < len)%Z -> fr_delivers rest s c ->
  (fr_read len s = throw EndOfFile /\ c = [] /\ fr_eof s = true) \/
  exists d s' c', fr_read len s = Ok (d, s') /\ c = d ++ c' /\ fr_delivers rest s' c' /\
    (Z.of_nat (length d) <= len)%Z /\ src_fuel s' + Nat.max 1 (length d) <= src_fuel s.
Proof.
  intros Hlen Hs. unfold fr_read. destruct (fr_eof s) eqn:He.
  { left. unfold fr_delivers in Hs. rewrite He in Hs. by destruct Hs. }
  right. destruct (fr_fill_spec rest s c He Hs) as [(s1 & -> & He1 & Hs1 & Hp & Hf)|(from & -> & -> & Hf & Hfuel & Hp)].
  - cbn [rbind]. unfold fr_delivers in Hs1. rewrite He1 in Hs1. destruct Hs1 as (_ & chunks & Hch & Hd & ->).
    destruct (copy_prefix len (drop (fr_pos s1) (fr_pending s1)) Hlen) as (d & c' & -> & Hdc & Hl & Hne).
    apply (f_equal length) in Hdc as Hdl. rewrite length_drop, length_app in Hdl.
    assert (1 <= length d).
    { apply Hne. intros E. apply (f_equal length) in E. rewrite length_drop in E. simpl in E. lia. }
    eexists d, _, (c' ++ concat chunks). split; [done|]. rewrite Hdc, <- app_assoc. split; [done|].
    split; [|split; [done|]; simpl in *; lia].
    split; simpl; [lia|]. exists chunks. rewrite <- drop_drop, Hdc, drop_app_length. done.
  - cbn [rbind]. eexists [], _, []. split; [done|]. split; [done|]. split; [done|]. simpl in *. lia.
Qed.

(** For every continuation [rest] of the underlying source. *)
#[global] Program Instance FramedSource_laws (rest : bytes) : SourceLaws (FramedSource U) := {
  delivers := fr_delivers rest;
}.
Next Obligation.
  intros rest len s c Hs Hc Hlen.
  destruct (fr_read_spec rest len s c Hlen Hs) as [(_ & ? & _)|(d & s' & c' & ? & ? & ? & ? & _)]; [done|].
  by exists d, s', c'.
Qed.
Next Obligation.
  intros rest len s Hs Hlen.
  destruct (fr_read_spec rest len s [] Hlen Hs) as [(? & _ & _)|(d & s' & c' & ? & Hc & ? & ? & _)]; [by left|].
  right. symmetry in Hc. apply app_eq_nil in Hc as [-> ->]. by exists s'.
Qed.
Next Obligation.
  intros rest len s c d s' Hs Hlen Hr.
  destruct (fr_read_spec rest len s c Hlen Hs) as [(E & _ & _)|(d1 & s1 & c1 & E & _ & _ & _ & ?)];
    simpl in Hr; rewrite Hr in E; by simplify_eq.
Qed.

Lemma fr_skip_spec chunks rest fuel from : Forall chunk_ok chunks ->
  delivers from (concat (frame <$> chunks) ++ encNum 0 ++ rest) -> length chunks < fuel ->
  exists from', fr_skip fuel from = Ok from' /\ delivers from' rest.
Proof.
  intros Hch. revert fuel from. induction Hch as [|chunk chunks [Hc Hl] _ IH]; intros fuel from Hs Hfuel;
    (destruct fuel as [|fuel]; simpl in Hfuel; [lia|]); cbn [fr_skip].
  - destruct (reads_int 0 ltac:(unfold uint_max; lia) _ _ Hs) as (from' & -> & Hf & _). by exists from'.
  - rewrite fmap_cons, concat_cons in Hs. unfold frame at 1 in Hs. rewrite <- !app_assoc in Hs.
    destruct (reads_int (Z.of_nat (length chunk)) ltac:(lia) _ _ Hs) as (from0 & -> & Hf0 & _).
    assert (0 < length chunk) by (destruct chunk; simpl; [done|lia]).
    cbn [rbind]. rewrite (proj2 (Z.eqb_neq _ _)) by lia.
    destruct (proj1 (decodes_exact (Z.of_nat (length chunk)) ltac:(lia)) chunk ltac:(simpl; lia) _ _ Hf0)
      as (from1 & -> & Hf & _). cbn [rbind]. apply IH; [done|lia].
Qed.

Lemma fr_close_spec rest s c : fr_delivers rest s c ->
  exists from, fr_close s = Ok from /\ delivers from rest.
Proof.
  unfold fr_delivers, fr_close. destruct (fr_eof s).
  - intros [_ Hs]. by exists (fr_from s).
  - intros (_ & chunks & Hch & Hs & _). apply (fr_skip_spec chunks); [done|done|].
    pose proof (delivers_fuel _ _ Hs) as Hf. rewrite length_app in Hf.
    pose proof (concat_nonempty_length frame chunks). assert (length chunks <= length (concat (frame <$> chunks))).
    { apply concat_nonempty_length, Forall_forall. by intros chunk _. }
    lia.
Qed.
End framed_source.

(** ** What a framed session writes *)

(** An unbuffered sink that records its calls. *)
Definition record_call (d : bytes) (t : list bytes) : result (list bytes) := Ok (t ++ [d]).

Lemma run_record calls t : run_calls record_call calls t = Ok (t ++ calls).
Proof.
  revert t. induction calls as [|d calls IH]; intros t; simpl; [by rewrite app_nil_r|].
  by rewrite IH, <- app_assoc.
Qed.

(** The bytes a buffered recorder has received so far. *)
Definition received (to : BufferedSink (list bytes)) : bytes := concat (bk_under to) ++ bk_buffer to.
Definition sink_ok {T} (to : BufferedSink T) : Prop := length (bk_buffer to) < bk_bufSize to.

Lemma bk_write_received d to : sink_ok to ->
  exists to', bk_write record_call d to = Ok to' /\ received to' = received to ++ d /\ sink_ok to'.
Proof.
  intros Hok. rewrite bk_write_call. destruct (buffered_call _ _ d) as [calls buf] eqn:E.
  destruct (buffered_call_spec _ _ _ _ _ Hok E) as (H1 & H2 & _). rewrite run_record. simpl.
  eexists. split; [done|]. unfold received. simpl. split; [|done].
  by rewrite concat_app, <- app_assoc, H1, app_assoc.
Qed.

Lemma framed_run chunks to : sink_ok to ->
  exists to', run_calls (framed_writeUnbuffered record_call (fun _ => Ok tt)) chunks to = Ok to' /\
    received to' = received to ++ concat (frame <$> chunks) /\ sink_ok to'.
Proof.
  revert to. induction chunks as [|d chunks IH]; intros to Hok; simpl.
  { exists to. by rewrite app_nil_r. }
  unfold framed_writeUnbuffered at 1. cbn [rbind].
  destruct (bk_write_received (le64 (Z.of_nat (length d))) to Hok) as (to1 & -> & H1 & Hok1). cbn [rbind].
  destruct (bk_write_received d to1 Hok1) as (to2 & -> & H2 & Hok2). cbn [rbind].
  destruct (IH to2 Hok2) as (to3 & -> & H3 & Hok3). exists to3. split; [done|]. split; [|done].
  rewrite H3, H2, H1. unfold frame. change (encNum ?n) with (le64 n). by rewrite <- !app_assoc.
Qed.

Lemma bk_write_size {T} (f : bytes -> T -> result T) d to to' :
  bk_write f d to = Ok to' -> bk_bufSize to' = bk_bufSize to.
Proof. rewrite bk_write_call. destruct (buffered_call _ _ _). intros Hw. by inv_result. Qed.

Lemma run_framed_size {T} (f : bytes -> T -> result T) ce chunks to to' :
  run_calls (framed_writeUnbuffered f ce) chunks to = Ok to' -> bk_bufSize to' = bk_bufSize to.
Proof.
  revert to. induction chunks as [|d chunks IH]; intros to Hr; simpl in Hr; [by simplify_eq|].
  unfold framed_writeUnbuffered in Hr at 1. inv_result.
  apply IH in Hr. by erewrite Hr, bk_write_size, bk_write_size.
Qed.

Lemma framed_close_received to : sink_ok to ->
  exists calls, framed_close record_call to = Ok (mkBufferedSink (bk_bufSize to) [] calls) /\
    concat calls = received to ++ encNum 0.
Proof.
  intros Hok. unfold framed_close.
  destruct (bk_write_received (le64 0) to Hok) as (to1 & Hw & H1 & Hok1).
  assert (bk_bufSize to1 = bk_bufSize to) as Hsz.
  { rewrite bk_write_call in Hw. destruct (buffered_call _ _ _). inv_result. done. }
  rewrite Hw. cbn [rbind]. unfold bk_flush. case_decide as E.
  - destruct to1 as [sz [|] t]; [|done]. simpl in *. subst. exists t. split; [done|].
    unfold received in H1 at 1. simpl in H1. by rewrite app_nil_r in H1.
  - simpl. rewrite Hsz. eexists. split; [done|]. rewrite concat_app. simpl. rewrite app_nil_r. apply H1.
Qed.

Lemma framed_session_chunks bufSize ws to :
  0 < bufSize -> sink_ok to ->
  exists chunks calls,
    framed_session record_call (fun _ => Ok tt) bufSize ws to = Ok (mkBufferedSink (bk_bufSize to) [] calls) /\
    concat calls = received to ++ concat (frame <$> chunks) ++ encNum 0 /\ concat chunks = concat ws /\
    Forall (fun d => d <> [] /\ (length d <= bufSize \/ d ∈ ws)) chunks.
Proof.
  intros Hb Hok. unfold framed_session. rewrite bk_writes_calls. simpl bk_bufSize. simpl bk_buffer.
  destruct (buffered_calls bufSize [] ws) as [calls buf] eqn:E.
  destruct (buffered_calls_spec bufSize [] ws _ _ Hb E) as (H1 & H2 & H3).
  set (chunks := calls ++ match buf with [] => [] | _ => [buf] end).
  assert (Hf : Forall (fun d => d <> [] /\ (length d <= bufSize \/ d ∈ ws)) chunks).
  { apply Forall_app. split; [done|]. destruct buf; [done|]. apply Forall_singleton.
    split; [done|]. left. lia. }
  assert (Hc : concat chunks = concat ws).
  { simpl in H1. unfold chunks. rewrite concat_app, <- H1. f_equal. destruct buf; [done|]. apply app_nil_r. }
  destruct (framed_run chunks to Hok) as (to1 & Hr & Hrec & Hok1).
  destruct (framed_close_received to1 Hok1) as (out & Hcl & Hout).
  assert (bk_bufSize to1 = bk_bufSize to) as Hsz by (by eapply run_framed_size).
  exists chunks, out. split; [|by rewrite Hout, Hrec, <- app_assoc].
  unfold chunks in Hr. rewrite run_calls_app in Hr. simpl bk_under. rewrite <- Hsz, <- Hcl.
  destruct (run_calls _ calls to) as [to0|]; [|done]. cbn [rbind] in *. unfold bk_flush. simpl.
  destruct buf as [|x buf]; simpl in *; [by simplify_eq|].
  destruct (framed_writeUnbuffered _ _ (x :: buf) to0) as [to2|]; simpl in *; by simplify_eq.
Qed.

(** Framed streams round-trip over any transport that delivers the bytes:
    whatever is written to a [FramedSink], in whatever pieces, comes out of a
    [FramedSource] unchanged, followed by the end of the file; and when the
    [FramedSource] is gone, the transport stands exactly behind the frames, so
    that the protocol can go on. Writes must be shorter than 4 GiB. *)
Theorem framed_roundtrip {U} `{SourceLaws U} bufSize toSize ws rest :
  0 < bufSize -> (Z.of_nat bufSize <= uint_max)%Z -> 0 < toSize ->
  Forall (fun w => Z.of_nat (length w) <= uint_max)%Z ws ->
  exists calls,
    framed_session record_call (fun _ => Ok tt) bufSize ws (mkBufferedSink toSize [] [])
      = Ok (mkBufferedSink toSize [] calls) /\
    forall from : U, delivers from (concat calls ++ rest) ->
      exists s from', drain (FramedSource_of from) = Ok (concat ws, s) /\
        fr_close s = Ok from' /\ delivers from' rest.
Proof.
  intros Hb Hb' Ht Hws.
  destruct (framed_session_chunks bufSize ws (mkBufferedSink toSize [] []) Hb Ht)
    as (chunks & calls & Hs & Hc & Hcc & Hch).
  exists calls. split; [done|]. intros from Hfrom.
  assert (Hd : fr_delivers rest (FramedSource_of from) (concat ws)).
  { split; [done|]. exists chunks. rewrite Hcc. split; [|split; [|done]].
    - eapply Forall_impl; [exact Hch|]. intros d [Hd Hl]. split; [done|].
      destruct Hl; [lia|]. by eapply (Forall_forall (fun w => Z.of_nat (length w) <= uint_max)%Z).
    - rewrite Hc, <- !app_assoc in Hfrom. exact Hfrom. }
  pose proof (@drain_spec _ _ (FramedSource_laws rest) _ _ Hd) as (s & Hdr & Hs' & _).
  destruct (fr_close_spec rest s [] Hs') as (from' & Hcl & Hf'). by exists s, from'.
Qed.

Lemma framed_roundtrip_witness :
  exists calls,
    framed_session record_call (fun _ => Ok tt) 4 [L "ab"; L "cdefgh"; []; L "i"] (mkBufferedSink 16 [] [])
      = Ok (mkBufferedSink 16 [] calls) /\
    forall from : StringSource, delivers from (concat calls ++ L "rest") ->
      exists s from', drain (FramedSource_of from) = Ok (concat [L "ab"; L "cdefgh"; []; L "i"], s) /\
        fr_close s = Ok from' /\ delivers from' (L "rest").
Proof.
  apply (framed_roundtrip 4 16 [L "ab"; L "cdefgh"; []; L "i"] (L "rest")); [lia|by vm_compute|lia|].
  repeat constructor; by vm_compute.
Defined.

(** The wire format of strings and string lists is decoded exactly, over
    every source of the code and however it cuts the data into reads: a value
    is returned if and only if the input starts with its encoding (length,
    bytes, zero padding), and then nothing beyond the encoding is consumed;
    on every other input the readers throw [EndOfFile] or
    [SerialisationError]. *)
Theorem readString_decodes {S} `{SourceLaws S} (s : S) c max :
  delivers s c -> (0 <= max < 2 ^ 64)%Z ->
  ((exists d c', (Z.of_nat (length d) <= max)%Z /\ c = encString d ++ c' /\
      exists s', readString max s = Ok (d, s') /\ delivers s' c') \/
   (forall d c', (Z.of_nat (length d) <= max)%Z -> c <> encString d ++ c') /\
   (readString max s = throw EndOfFile \/ readString max s = throw SerialisationError)) /\
  ((exists ss c', c = encStrings ss ++ c' /\ exists s', readStrings s = Ok (ss, s') /\ delivers s' c') \/
   (readStrings s = throw EndOfFile \/ readStrings s = throw SerialisationError)).
Proof.
  intros Hs Hmax. split.
  - destruct (decodes_string max Hmax) as [H1 H2].
    destruct (H2 s c Hs) as [(d & c' & Hd & ->)|Herr].
    + left. exists d, c'. split; [done|]. split; [done|].
      destruct (H1 d Hd s c' Hs) as (s' & ? & ? & _). by exists s'.
    + right. split; [|done]. intros d c' Hd ->. destruct (H1 d Hd s c' Hs) as (s' & E & _).
      rewrite E in Herr. by destruct Herr.
  - destruct decodes_strings as [H1 H2].
    destruct (H2 s c Hs) as [(ss & c' & Hd & ->)|Herr]; [|by right].
    left. exists ss, c'. split; [done|]. destruct (H1 ss Hd s c' Hs) as (s' & ? & ? & _). by exists s'.
Qed.

Lemma readString_decodes_witness :
  let s := StringSource_of (encString (L "hello") ++ L "more") in
  ((exists d c', (Z.of_nat (length d) <= 100)%Z /\ encString (L "hello") ++ L "more" = encString d ++ c' /\
      exists s', readString 100 s = Ok (d, s') /\ delivers s' c') \/
   (forall d c', (Z.of_nat (length d) <= 100)%Z -> encString (L "hello") ++ L "more" <> encString d ++ c') /\
   (readString 100 s = throw EndOfFile \/ readString 100 s = throw SerialisationError)) /\
  ((exists ss c', encString (L "hello") ++ L "more" = encStrings ss ++ c' /\
      exists s', readStrings s = Ok (ss, s') /\ delivers s' c') \/
   (readStrings s = throw EndOfFile \/ readStrings s = throw SerialisationError)).
Proof.
  apply (readString_decodes (StringSource_of (encString (L "hello") ++ L "more"))); [|lia].
  split; simpl; [lia|done].
Defined.
