(* ===== verification/Fso.v ===== *)
(** * File system objects (libutil/source-accessor.hh, source-accessor.cc,
    fs-sink.hh, fs-sink.cc, memory-source-accessor.hh, memory-source-accessor.cc)

    The two interfaces between which file system objects move, [SourceAccessor]
    for reading and [FSOSink] for creating, the in-memory implementation of
    both, symlink resolution and recursive copying. *)

From S2P Require Import Prelude.
From S2P Require Import Containers.
From S2P Require Import Strings.
From S2P Require Import CanonPath.

(** ** Reading: [SourceAccessor] *)

Inductive FileType := tRegular | tSymlink | tDirectory | tChar | tBlock | tSocket | tFifo | tUnknown.
#[export] Instance FileType_eq_dec : EqDecision FileType.
Proof. solve_decision. Defined.

Record Stat := mkStat {
  st_type : FileType;
  st_fileSize : option Z;
  st_isExecutable : bool;
}.

Definition isNotNARSerialisable (st : Stat) : bool :=
  negb (bool_decide (st_type st = tRegular)) && negb (bool_decide (st_type st = tSymlink))
  && negb (bool_decide (st_type st = tDirectory)).

(** The virtual functions. [acc_readFile] is the variant returning a string;
    the one with a sink calls it, then the size callback, then the sink once. *)
Class SourceAccessor (A : Type) := {
  maybeLstat : A -> bytes -> result (option Stat);
  acc_readFile : A -> bytes -> result bytes;
  readDirectory : A -> bytes -> result (list (bytes * option FileType));
  readLink : A -> bytes -> result bytes;
}.

Section accessor.
Context {A : Type} `{SourceAccessor A} (acc : A).

Definition acc_lstat (path : bytes) : result Stat :=
  let* st := maybeLstat acc path in
  match st with Some st => Ok st | None => throw FileNotFound end.

Inductive SymlinkResolution := Ancestors | Full.

(** The body of the loop of [resolveSymlinks] for one component; the result is
    the new [res], [todo] and [linksAllowed]. *)
Definition resolve_step (mode : SymlinkResolution) (c : bytes) (todo : list bytes) (res : bytes)
    (linksAllowed : Z) : result (bytes * list bytes * Z) :=
  if bool_decide (c = []) || bool_decide (c = L ".") then Ok (res, todo, linksAllowed)
  else if bool_decide (c = L "..") then
    if isRoot res then Ok (res, todo, linksAllowed)
    else let* res := pop res in Ok (res, todo, linksAllowed)
  else
    let* res := push res c in
    if match mode with Full => true | Ancestors => negb (bool_decide (todo = [])) end then
      let* st := maybeLstat acc res in
      match st with
      | Some st =>
          if bool_decide (st_type st = tSymlink) then
            if (linksAllowed =? 0)%Z then throw Error
            else
              let* target := readLink acc res in
              let* res := pop res in
              let res := if isAbsolute target then [slash] else res in
              Ok (res, tokenizeString target (L "/") ++ todo, linksAllowed - 1)%Z
          else Ok (res, todo, linksAllowed)
      | None => Ok (res, todo, linksAllowed)
      end
    else Ok (res, todo, linksAllowed).

Fixpoint resolve_loop (fuel : nat) (mode : SymlinkResolution) (todo : list bytes) (res : bytes)
    (linksAllowed : Z) : result bytes :=
  match todo with
  | [] => Ok res
  | c :: todo =>
      match fuel with
      | 0 => Err OutOfFuel
      | S fuel =>
          let* (res, todo, linksAllowed) := resolve_step mode c todo res linksAllowed in
          resolve_loop fuel mode todo res linksAllowed
      end
  end.

Definition resolveSymlinks (fuel : nat) (path : bytes) (mode : SymlinkResolution) : result bytes :=
  resolve_loop fuel mode (path_iter path) [slash] 1024.
End accessor.

(** ** Writing: [FileSystemObjectSink] *)

(** [createRegularFile(path, func)] is split into what it does before and after
    calling [func] on a [CreateRegularFileSink], the handle [H]. *)
Class FSOSink (T H : Type) := {
  createDirectory : bytes -> T -> result T;
  createSymlink : bytes -> bytes -> T -> result T;
  openRegular : bytes -> T -> result (T * H);
  crf_isExecutable : H -> result H;
  crf_preallocateContents : Z -> H -> result H;
  crf_data : bytes -> H -> result H;
  closeRegular : bytes -> H -> T -> result T;
}.

Definition createRegularFile {T H} `{FSOSink T H} {A} (path : bytes) (func : H -> result (A * H)) (t : T) :
    result (A * T) :=
  let* (t, h) := openRegular path t in
  let* (a, h) := func h in
  let* t := closeRegular path h t in
  Ok (a, t).

(** [NullFileSystemObjectSink]. *)
#[export] Instance NullSink : FSOSink unit unit := {
  createDirectory _ t := Ok t;
  createSymlink _ _ t := Ok t;
  openRegular _ t := Ok (t, tt);
  crf_isExecutable h := Ok h;
  crf_preallocateContents _ h := Ok h;
  crf_data _ h := Ok h;
  closeRegular _ _ t := Ok t;
}.

(** [RegularFileSink]: the flag [regular] and the calls of the sink. *)
Record RegularFileSink := mkRegularFileSink { rf_regular : bool; rf_sink : list bytes }.
#[export] Instance RegularFileSink_sink : FSOSink RegularFileSink (list bytes) := {
  createDirectory _ t := Ok (mkRegularFileSink false (rf_sink t));
  createSymlink _ _ t := Ok (mkRegularFileSink false (rf_sink t));
  openRegular _ t := Ok (t, rf_sink t);
  crf_isExecutable h := Ok h;
  crf_preallocateContents _ h := Ok h;
  crf_data d h := Ok (h ++ [d]);
  closeRegular _ h t := Ok (mkRegularFileSink (rf_regular t) h);
}.

(** ** In memory *)

Inductive File :=
| Regular (executable : bool) (contents : bytes)
| Directory (contents : list (bytes * File))
| Symlink (target : bytes).

Definition set_entry (name : bytes) (contents : list (bytes * File)) (f : File) : File :=
  Directory (smap_insert name f contents).

(** [MemorySourceAccessor::open]. The pointer returned is used at once, to
    read or to change the file: that use is [k], which returns the file as
    changed; [None] is the null pointer. The result has the new tree. *)
Fixpoint mem_open {A} (names : list bytes) (create : option File) (newF : bool)
    (k : File -> result (A * File)) (cur : File) : result (option (A * File)) :=
  match names with
  | [] =>
      let cur := match create with Some f => if newF then f else cur | None => cur end in
      let* r := k cur in Ok (Some r)
  | name :: names =>
      match cur with
      | Directory contents =>
          let entry :=
            match smap_lookup name contents with
            | Some f => Some (f, newF)
            | None => match create with None => None | Some _ => Some (Directory [], true) end
            end in
          match entry with
          | None => Ok None
          | Some (f, newF) =>
              let* r := mem_open names create newF k f in
              Ok (match r with Some (a, f) => Some (a, set_entry name contents f) | None => None end)
          end
      | _ => Ok None
      end
  end.

(** [open(path, std::nullopt)] for reading. *)
Definition mem_find (root : File) (path : bytes) : result (option File) :=
  let* r := mem_open (path_iter path) None false (fun f => Ok (f, f)) root in Ok (fst <$> r).

Definition File_lstat (f : File) : Stat :=
  match f with
  | Regular e c => mkStat tRegular (Some (Z.of_nat (length c))) e
  | Directory _ => mkStat tDirectory None false
  | Symlink _ => mkStat tSymlink None false
  end.

Definition mem_readFile (root : File) (path : bytes) : result bytes :=
  let* f := mem_find root path in
  match f with Some (Regular _ c) => Ok c | _ => throw Error end.

Definition mem_readDirectory (root : File) (path : bytes) : result (list (bytes * option FileType)) :=
  let* f := mem_find root path in
  match f with
  | Some (Directory contents) =>
      Ok (foldl (fun res i => smap_insert i.1 (Some (st_type (File_lstat i.2))) res) [] contents)
  | _ => throw Error
  end.

Definition mem_readLink (root : File) (path : bytes) : result bytes :=
  let* f := mem_find root path in
  match f with Some (Symlink t) => Ok t | _ => throw Error end.

#[export] Instance MemorySourceAccessor : SourceAccessor File := {
  maybeLstat root path := let* f := mem_find root path in Ok (File_lstat <$> f);
  acc_readFile := mem_readFile;
  readDirectory := mem_readDirectory;
  readLink := mem_readLink;
}.

(** A use of the pointer that must not be null. *)
Definition mem_update {A} (path : bytes) (create : option File) (k : File -> result (A * File)) (root : File) :
    result (A * File) :=
  let* r := mem_open (path_iter path) create false k root in
  match r with Some r => Ok r | None => throw Error end.

Definition mem_addFile (path contents : bytes) (root : File) : result File :=
  let* (_, root) := mem_update path (Some (Regular false []))
    (fun f => match f with Regular e _ => Ok (tt, Regular e contents) | _ => throw Error end) root in
  Ok root.

Definition mem_createDirectory (path : bytes) (root : File) : result File :=
  let* (_, root) := mem_update path (Some (Directory []))
    (fun f => match f with Directory _ => Ok (tt, f) | _ => throw Error end) root in
  Ok root.

Definition mem_createSymlink (path target : bytes) (root : File) : result File :=
  let* (_, root) := mem_update path (Some (Symlink []))
    (fun f => match f with Symlink _ => Ok (tt, Symlink target) | _ => throw Error end) root in
  Ok root.

(** [createRegularFile]: the handle is the file itself, reached again through
    its path when the callback has returned. *)
Definition mem_openRegular (path : bytes) (root : File) : result (File * (bool * bytes)) :=
  let* (h, root) := mem_update path (Some (Regular false []))
    (fun f => match f with Regular e c => Ok ((e, c), f) | _ => throw Error end) root in
  Ok (root, h).
Definition mem_closeRegular (path : bytes) (h : bool * bytes) (root : File) : result File :=
  let* (_, root) := mem_update path None (fun _ => Ok (tt, Regular h.1 h.2)) root in Ok root.

#[export] Instance MemorySink : FSOSink File (bool * bytes) := {
  createDirectory := mem_createDirectory;
  createSymlink := mem_createSymlink;
  openRegular := mem_openRegular;
  crf_isExecutable h := Ok (true, h.2);
  crf_preallocateContents _ h := Ok h;
  crf_data d h := Ok (h.1, h.2 ++ d);
  closeRegular := mem_closeRegular;
}.

(** ** [copyRecursive] *)

Section copy.
Context {A T H : Type} `{SourceAccessor A} `{FSOSink T H} (acc : A).

Fixpoint copyRecursive (fuel : nat) (from to : bytes) (t : T) : result T :=
  match fuel with
  | 0 => Err OutOfFuel
  | S fuel =>
      let* stat := acc_lstat acc from in
      match st_type stat with
      | tSymlink => let* target := readLink acc from in createSymlink to target t
      | tRegular =>
          let* (_, t) := createRegularFile to (fun h =>
            let* h := if st_isExecutable stat then crf_isExecutable h else Ok h in
            let* s := acc_readFile acc from in
            let* h := crf_preallocateContents (Z.of_nat (length s)) h in
            let* h := crf_data s h in
            Ok (tt, h)) t in
          Ok t
      | tDirectory =>
          let* t := createDirectory to t in
          let* entries := readDirectory acc from in
          match entries with
          | [] => Ok t
          | (name, _) :: _ =>   (* the loop body ends in [break] *)
              let* from := push from name in
              let* to := push to name in
              copyRecursive fuel from to t
          end
      | _ => throw Error
      end
  end.
End copy.

(** ** Trees *)

Section File_ind.
Context (P : File -> Prop).
Hypothesis P_regular : forall e c, P (Regular e c).
Hypothesis P_directory : forall l, Forall (fun kv => P kv.2) l -> P (Directory l).
Hypothesis P_symlink : forall t, P (Symlink t).

Fixpoint File_ind' (f : File) : P f :=
  match f with
  | Regular e c => P_regular e c
  | Directory l =>
      P_directory l ((fix go (l : list (bytes * File)) : Forall (fun kv => P kv.2) l :=
        match l with
        | [] => List.Forall_nil _
        | kv :: l => List.Forall_cons _ kv l (File_ind' kv.2) (go l)
        end) l)
  | Symlink t => P_symlink t
  end.
End File_ind.

(** Directories are sorted maps with valid names throughout. *)
Inductive File_wf : File -> Prop :=
| wf_regular e c : File_wf (Regular e c)
| wf_directory l : smap_wf l -> Forall (fun kv => valid_comp kv.1 /\ File_wf kv.2) l -> File_wf (Directory l)
| wf_symlink t : File_wf (Symlink t).

Fixpoint file_height (f : File) : nat :=
  match f with
  | Directory l => S (list_max ((fun kv => file_height kv.2) <$> l))
  | _ => 0
  end.

(** The file at a list of components, and its replacement. *)
Fixpoint file_at (names : list bytes) (f : File) : option File :=
  match names with
  | [] => Some f
  | n :: names =>
      match f with
      | Directory l => match smap_lookup n l with Some f => file_at names f | None => None end
      | _ => None
      end
  end.
Fixpoint put (names : list bytes) (g f : File) : File :=
  match names with
  | [] => g
  | n :: names =>
      match f with
      | Directory l =>
          match smap_lookup n l with Some f => set_entry n l (put names g f) | None => Directory l end
      | _ => f
      end
  end.

Lemma file_at_app cs ds f : file_at (cs ++ ds) f = file_at cs f ≫= file_at ds.
Proof.
  revert f. induction cs as [|c cs IH]; intros f; [done|]. destruct f as [| l |]; simpl; try done.
  destruct (smap_lookup c l); [apply IH|done].
Qed.

Lemma file_at_put cs g f f' : file_at cs f = Some f' -> file_at cs (put cs g f) = Some g.
Proof.
  revert f. induction cs as [|c cs IH]; intros f; [done|]. destruct f as [| l |]; simpl; try done.
  destruct (smap_lookup c l) eqn:E; [|done]. intros Hf. simpl. rewrite smap_lookup_insert_eq. by apply IH.
Qed.

Lemma put_put cs g h f : put cs h (put cs g f) = put cs h f.
Proof.
  revert f. induction cs as [|c cs IH]; intros f; [done|]. destruct f as [| l |]; simpl; try done.
  destruct (smap_lookup c l) eqn:E; simpl; [|by rewrite E].
  rewrite smap_lookup_insert_eq. unfold set_entry. by rewrite smap_insert_insert, IH.
Qed.

Lemma put_snoc cs n g f l f0 : file_at cs f = Some (Directory l) -> smap_lookup n l = Some f0 ->
  put (cs ++ [n]) g f = put cs (set_entry n l g) f.
Proof.
  revert f. induction cs as [|c cs IH]; intros f; simpl.
  - intros [= ->] Hn. by rewrite Hn.
  - destruct f as [| m |]; try done. destruct (smap_lookup c m); [|done]. intros Hf Hn.
    by rewrite (IH _ Hf Hn).
Qed.

(** ** [open] *)

Lemma mem_open_existing {A} cs newF (k : File -> result (A * File)) root f :
  file_at cs root = Some f ->
  mem_open cs None newF k root = let* (a, g) := k f in Ok (Some (a, put cs g root)).
Proof.
  revert newF root. induction cs as [|c cs IH]; intros newF root; simpl.
  - intros [= ->]. destruct (k f) as [[]|]; done.
  - destruct root as [| l |]; try done. destruct (smap_lookup c l) eqn:E; [|done]. intros Hf.
    rewrite (IH _ _ Hf), rbind_assoc. destruct (k f) as [[]|]; done.
Qed.

Lemma mem_open_missing {A} cs newF (k : File -> result (A * File)) root :
  file_at cs root = None -> mem_open cs None newF k root = Ok None.
Proof.
  revert newF root. induction cs as [|c cs IH]; intros newF root; simpl; [done|].
  destruct root as [| l |]; try done. destruct (smap_lookup c l) eqn:E; [|done]. intros Hf.
  by rewrite (IH _ _ Hf).
Qed.

(** Creating a new entry of an existing directory. *)
Lemma mem_open_create {A} cs n create (k : File -> result (A * File)) root l :
  file_at cs root = Some (Directory l) -> smap_lookup n l = None ->
  mem_open (cs ++ [n]) (Some create) false k root =
  let* (a, g) := k create in Ok (Some (a, put cs (set_entry n l g) root)).
Proof.
  revert root. induction cs as [|c cs IH]; intros root; simpl.
  - intros [= ->] Hn. rewrite Hn. simpl. destruct (k create) as [[]|]; done.
  - destruct root as [| m |]; try done. destruct (smap_lookup c m) eqn:E; [|done]. intros Hf Hn.
    rewrite (IH _ Hf Hn), rbind_assoc. destruct (k create) as [[]|]; done.
Qed.

Lemma mem_find_at root cs : Forall valid_comp cs -> mem_find root (render1 cs) = Ok (file_at cs root).
Proof.
  intros Hcs. unfold mem_find. rewrite path_iter_render1 by done.
  destruct (file_at cs root) eqn:E; [by rewrite (mem_open_existing _ _ _ _ _ E)|].
  by rewrite (mem_open_missing _ _ _ _ E).
Qed.

Section at_path.
Context (cs : list bytes) (n : bytes) (root : File) (l : list (bytes * File)).
Hypothesis (Hcs : Forall valid_comp cs) (Hn : valid_comp n).
Hypothesis (Hdir : file_at cs root = Some (Directory l)).

Let valid_path : Forall valid_comp (cs ++ [n]).
Proof. apply Forall_app. auto. Qed.

Lemma mem_update_create {A} create (k : File -> result (A * File)) :
  smap_lookup n l = None ->
  mem_update (render1 (cs ++ [n])) (Some create) k root =
  let* (a, g) := k create in Ok (a, put cs (set_entry n l g) root).
Proof.
  intros Hnew. unfold mem_update. rewrite path_iter_render1 by done.
  rewrite (mem_open_create _ _ _ _ _ _ Hdir Hnew). destruct (k create) as [[]|]; done.
Qed.

Lemma mem_update_existing {A} (k : File -> result (A * File)) f :
  mem_update (render1 (cs ++ [n])) None k (put cs (set_entry n l f) root) =
  let* (a, g) := k f in Ok (a, put cs (set_entry n l g) root).
Proof.
  unfold mem_update. rewrite path_iter_render1 by done.
  assert (Hat : file_at cs (put cs (set_entry n l f) root) = Some (set_entry n l f)) by by eapply file_at_put.
  rewrite (mem_open_existing _ _ _ _ f).
  - destruct (k f) as [[a g]|]; [|done]. simpl. do 2 f_equal.
    rewrite (put_snoc _ _ _ _ _ f Hat) by apply smap_lookup_insert_eq.
    unfold set_entry. by rewrite put_put, smap_insert_insert.
  - rewrite file_at_app, Hat. simpl. by rewrite smap_lookup_insert_eq.
Qed.
End at_path.

(** ** Restoring a tree *)

(** The calls that create the file system object [f] at [path], depth first;
    [pieces] says how file contents are cut into writes. *)
Section replay.
Context {T H : Type} `{FSOSink T H} (pieces : bytes -> list bytes).

Fixpoint write_pieces (l : list bytes) (h : H) : result H :=
  match l with
  | [] => Ok h
  | d :: l => let* h := crf_data d h in write_pieces l h
  end.

Definition replay_regular (e : bool) (c path : bytes) (t : T) : result T :=
  let* (_, t) := createRegularFile path (fun h =>
    let* h := if e then crf_isExecutable h else Ok h in
    let* h := crf_preallocateContents (Z.of_nat (length c)) h in
    let* h := write_pieces (pieces c) h in
    Ok (tt, h)) t in
  Ok t.

Fixpoint replay (f : File) (path : bytes) (t : T) : result T :=
  match f with
  | Regular e c => replay_regular e c path t
  | Directory l =>
      let* t := createDirectory path t in
      (fix go (l : list (bytes * File)) (t : T) : result T :=
         match l with
         | [] => Ok t
         | (n, f) :: l => let* p := push path n in let* t := replay f p t in go l t
         end) l t
  | Symlink target => createSymlink path target t
  end.

Fixpoint replay_entries (l : list (bytes * File)) (path : bytes) (t : T) : result T :=
  match l with
  | [] => Ok t
  | (n, f) :: l => let* p := push path n in let* t := replay f p t in replay_entries l path t
  end.

Lemma replay_directory l path t :
  replay (Directory l) path t = let* t := createDirectory path t in replay_entries l path t.
Proof.
  simpl. apply rbind_ext. clear t. intros t. revert t.
  induction l as [|[n f] l IH]; intros t; simpl; [done|].
  apply rbind_ext. intros p. apply rbind_ext. intros t'. apply IH.
Qed.
End replay.

(** A way of cutting that loses nothing. *)
Definition cuts (pieces : bytes -> list bytes) : Prop := forall c, concat (pieces c) = c.

Lemma mem_write_pieces l (h : bool * bytes) : write_pieces l h = Ok (h.1, h.2 ++ concat l).
Proof.
  revert h. induction l as [|d l IH]; intros [e c]; simpl; [by rewrite app_nil_r|].
  rewrite IH. simpl. by rewrite <- app_assoc.
Qed.

Lemma mem_replay_regular pieces e c cs n root l :
  cuts pieces -> Forall valid_comp cs -> valid_comp n -> file_at cs root = Some (Directory l) ->
  smap_lookup n l = None ->
  replay_regular pieces e c (render1 (cs ++ [n])) root = Ok (put cs (set_entry n l (Regular e c)) root).
Proof.
  intros Hp Hcs Hn Hdir Hnew. unfold replay_regular, createRegularFile. simpl. unfold mem_openRegular.
  rewrite (mem_update_create cs n root l Hcs Hn Hdir) by done. simpl.
  replace (if e then _ else _) with (Ok (e, []) : result (bool * bytes)) by (by destruct e). simpl.
  rewrite mem_write_pieces. simpl. unfold mem_closeRegular. rewrite Hp.
  rewrite (mem_update_existing cs n root l Hcs Hn Hdir). done.
Qed.

(** [f] is restored under every fresh name of every directory. *)
Definition restores (pieces : bytes -> list bytes) (f : File) : Prop :=
  forall cs n root l, Forall valid_comp cs -> valid_comp n ->
    file_at cs root = Some (Directory l) -> smap_lookup n l = None ->
    replay pieces f (render1 (cs ++ [n])) root = Ok (put cs (set_entry n l f) root).

Lemma mem_replay_entries pieces todo dn ds root g :
  Forall (fun kv => valid_comp kv.1 /\ restores pieces kv.2) todo -> smap_wf (dn ++ todo) ->
  Forall valid_comp ds -> file_at ds root = Some g ->
  replay_entries pieces todo (render1 ds) (put ds (Directory dn) root) = Ok (put ds (Directory (dn ++ todo)) root).
Proof.
  intros Htodo. revert dn. induction Htodo as [|[m f] todo [Hm Hf] _ IH]; intros dn Hsm Hds Hat.
  - by rewrite app_nil_r.
  - simpl in *. rewrite push_render1 by done. cbn [rbind].
    assert (Hat1 : file_at ds (put ds (Directory dn) root) = Some (Directory dn)) by by eapply file_at_put.
    rewrite (Hf ds m _ dn Hds Hm Hat1) by (by eapply smap_wf_fresh). cbn [rbind]. unfold set_entry.
    rewrite put_put, (smap_insert_snoc m f dn) by (by eapply smap_wf_prefix).
    rewrite IH, <- app_assoc; [done|by rewrite <- app_assoc|done|done].
Qed.

(** Restoring into memory, below an existing directory, creates exactly the
    tree restored, under the name it was given. *)
Lemma mem_replay pieces f : cuts pieces -> File_wf f -> restores pieces f.
Proof.
  intros Hp. induction f as [e c|ents IH|t] using File_ind'; intros Hwf cs n root l Hcs Hn Hdir Hnew.
  - by apply mem_replay_regular.
  - rewrite replay_directory. simpl createDirectory. unfold mem_createDirectory.
    rewrite (mem_update_create cs n root l Hcs Hn Hdir) by done. cbn [rbind].
    inversion Hwf as [|? Hsm Hents|]; subst.
    set (root1 := put cs (set_entry n l (Directory [])) root).
    assert (Hat : file_at cs root1 = Some (set_entry n l (Directory []))) by by eapply file_at_put.
    assert (Hput : forall g, put (cs ++ [n]) g root1 = put cs (set_entry n l g) root).
    { intros g. rewrite (put_snoc _ _ _ _ _ _ Hat (smap_lookup_insert_eq _ _ _)).
      unfold root1, set_entry. by rewrite put_put, smap_insert_insert. }
    rewrite <- !Hput. change ents with ([] ++ ents) at 2.
    replace root1 with (put (cs ++ [n]) (Directory []) root1) at 1 by apply Hput.
    eapply mem_replay_entries; [|done|by apply Forall_app; auto|].
    + rewrite Forall_forall in IH, Hents |- *. intros kv Hin. destruct (Hents _ Hin). auto.
    + rewrite file_at_app, Hat. simpl. by rewrite smap_lookup_insert_eq.
  - simpl. unfold mem_createSymlink. by rewrite (mem_update_create cs n root l Hcs Hn Hdir) by done.
Qed.

(** At the root the accessor has a directory already. *)
Lemma mem_replay_root pieces l :
  cuts pieces -> File_wf (Directory l) -> replay pieces (Directory l) [slash] (Directory []) = Ok (Directory l).
Proof.
  intros Hp Hwf. rewrite replay_directory. simpl createDirectory.
  change (mem_createDirectory [slash] (Directory [])) with (Ok (Directory []) : result File). cbn [rbind].
  inversion Hwf as [|? Hsm Hents|]; subst.
  apply (mem_replay_entries pieces l [] [] (Directory []) (Directory [])); [|done|done|done].
  eapply Forall_impl; [exact Hents|]. intros kv [? ?]. split; [done|]. by apply mem_replay.
Qed.

(** [copyRecursive] leaves its loop over the entries of a directory after
    the first one, so that of every directory only the first entry arrives. *)
Theorem copyRecursive_first_entry_only :
  let tree := Directory [(L "a", Directory [(L "x", Symlink (L "t")); (L "y", Regular true (L "1"))]);
                         (L "b", Regular false (L "2"))] in
  copyRecursive tree 4 [slash] [slash] (Directory [])
    = Ok (Directory [(L "a", Directory [(L "x", Symlink (L "t"))])]).
Proof. vm_compute. reflexivity. Qed.

(** ** Symlink resolution *)

Lemma pop_render1 cs c : Forall valid_comp (cs ++ [c]) -> pop (render1 (cs ++ [c])) = Ok (render1 cs).
Proof.
  intros Hcs. unfold pop. rewrite isRoot_render1, bool_decide_false by (done || by destruct cs). simpl.
  apply valid_snoc in Hcs as [_ Hc]. by rewrite take_parentLen by apply Hc.
Qed.

Section resolve.
Context {A : Type} `{SourceAccessor A} (acc : A) (mode : SymlinkResolution).

Definition not_symlink (p : bytes) : Prop :=
  forall st, maybeLstat acc p = Ok (Some st) -> st_type st <> tSymlink.

(** No ancestor of the path, the path itself included, is a symlink. *)
Definition clean (cs : list bytes) : Prop :=
  forall ds es, cs = ds ++ es -> ds <> [] -> not_symlink (render1 ds).

(** What may come out: a failure of the accessor, too many links, or a
    canonical path whose proper ancestors, and in mode [Full] the path
    itself, are not symlinks. *)
Definition resolved (r : result bytes) : Prop :=
  match r with
  | Ok p => exists cs, Forall valid_comp cs /\ p = render1 cs /\
      clean (removelast cs) /\ (mode = Full -> clean cs)
  | Err f => f = Throw Error \/ exists q, maybeLstat acc q = Err f \/ readLink acc q = Err f
  end.

Lemma clean_nil : clean [].
Proof. intros ds es E. symmetry in E. by apply app_eq_nil in E as [-> _]. Qed.

Lemma clean_prefix cs c : clean (cs ++ [c]) -> clean cs.
Proof. intros Hc ds es -> Hds. apply (Hc ds (es ++ [c])); [by rewrite app_assoc|done]. Qed.

Lemma clean_snoc cs c : clean cs -> not_symlink (render1 (cs ++ [c])) -> clean (cs ++ [c]).
Proof.
  intros Hcs Hc ds es E Hds. destruct es as [|e es _] using rev_ind.
  - rewrite app_nil_r in E. by subst.
  - rewrite app_assoc in E. apply app_inj_tail in E as [-> _]. by apply (Hcs ds es).
Qed.

Lemma clean_removelast cs : clean cs -> clean (removelast cs).
Proof.
  destruct cs as [|c cs _] using rev_ind; [done|]. rewrite removelast_last. apply clean_prefix.
Qed.

Lemma resolved_clean cs : Forall valid_comp cs -> clean cs -> resolved (Ok (render1 cs)).
Proof. intros Hcs Hc. exists cs. split; [done|]. split; [done|]. split; [by apply clean_removelast|done]. Qed.

(** With enough fuel the loop has a result, which does not depend on the fuel. *)
Definition settles (todo : list bytes) (res : bytes) (links : nat) : Prop :=
  exists fuel r, (forall fuel', fuel <= fuel' -> resolve_loop acc fuel' mode todo res (Z.of_nat links) = r) /\
    resolved r.

Lemma settles_step c todo res links res' todo' links' :
  resolve_step acc mode c todo res (Z.of_nat links) = Ok (res', todo', Z.of_nat links') ->
  settles todo' res' links' -> settles (c :: todo) res links.
Proof.
  intros Hs (fuel & r & Hr & Hok). exists (S fuel), r. split; [|done].
  intros [|fuel'] Hf; [lia|]. simpl. rewrite Hs. simpl. apply Hr. lia.
Qed.

Lemma settles_fail c todo res links f :
  resolve_step acc mode c todo res (Z.of_nat links) = Err f -> resolved (Err f) -> settles (c :: todo) res links.
Proof.
  intros Hs Hok. exists 1, (Err f). split; [|done]. intros [|fuel'] Hf; [lia|]. simpl. by rewrite Hs.
Qed.

Lemma settles_end res links : resolved (Ok res) -> settles [] res links.
Proof. intros Hok. exists 0, (Ok res). split; [by intros []|done]. Qed.

Lemma tokens_no_slash t : Forall (fun c => slash ∉ c) (tokenizeString t (L "/")).
Proof.
  rewrite tokenizeString_ref. apply Forall_forall. intros f [_ Hf]%list_elem_of_filter.
  apply split_ref_fields in Hf. intros Hs. rewrite Forall_forall in Hf. by specialize (Hf _ Hs).
Qed.

(** The three ways a step goes on: it fails, it consumes a component, or it
    follows one of the links allowed. *)
Lemma resolve_step_cases c todo cs n :
  slash ∉ c -> Forall valid_comp cs -> clean cs ->
  let step := resolve_step acc mode c todo (render1 cs) (Z.of_nat n) in
  (exists f, step = Err f /\ resolved (Err f)) \/
  (exists cs', step = Ok (render1 cs', todo, Z.of_nat n) /\ Forall valid_comp cs' /\
     (clean cs' \/ todo = [] /\ resolved (Ok (render1 cs')))) \/
  (exists n' cs' toks, n = S n' /\ step = Ok (render1 cs', toks ++ todo, Z.of_nat n') /\
     Forall valid_comp cs' /\ clean cs' /\ Forall (fun c => slash ∉ c) toks).
Proof.
  intros Hc Hcs Hcl. unfold resolve_step.
  destruct (bool_decide (c = []) || bool_decide (c = L ".")) eqn:E1; [right; left; exists cs; auto|].
  apply orb_false_iff in E1 as [En Ed]. apply bool_decide_eq_false in En, Ed.
  case_bool_decide as E2.
  { right. left. destruct cs as [|x cs _] using rev_ind; [exists []; split; [done|]; auto|].
    rewrite isRoot_render1, bool_decide_false by (done || by destruct cs). rewrite pop_render1 by done.
    exists cs. apply valid_snoc in Hcs as [Hcs _]. split; [done|]. split; [done|]. left. by eapply clean_prefix. }
  assert (Hv : valid_comp c) by done.
  assert (Hcs' : Forall valid_comp (cs ++ [c])) by (apply Forall_app; auto).
  rewrite push_render1 by done. cbn [rbind].
  destruct (match mode with Full => true | Ancestors => _ end) eqn:Em.
  - destruct (maybeLstat acc (render1 (cs ++ [c]))) as [[st|]|f] eqn:Est; cbn [rbind].
    + destruct (decide (st_type st = tSymlink)) as [Esym|Esym];
        [rewrite (bool_decide_true (st_type st = tSymlink)) by done
        |rewrite (bool_decide_false (st_type st = tSymlink)) by done].
      * destruct (Z.eqb_spec (Z.of_nat n) 0) as [E0|E0]; [left; exists (Throw Error); simpl; auto|].
        destruct (readLink acc (render1 (cs ++ [c]))) as [target|f] eqn:El; cbn [rbind].
        -- right. right. rewrite pop_render1 by done. cbn [rbind].
           exists (n - 1), (if isAbsolute target then [] else cs), (tokenizeString target (L "/")).
           split; [lia|]. split; [|split; [by destruct (isAbsolute target)|]; split; [|apply tokens_no_slash]].
           ++ replace (Z.of_nat (n - 1)) with (Z.of_nat n - 1)%Z by lia. by destruct (isAbsolute target).
           ++ destruct (isAbsolute target); [apply clean_nil|done].
        -- left. exists f. split; [done|]. right. eauto.
      * right. left. exists (cs ++ [c]). split; [done|]. split; [done|]. left. apply clean_snoc; [done|].
        intros st' E. rewrite Est in E. by simplify_eq.
    + right. left. exists (cs ++ [c]). split; [done|]. split; [done|]. left. apply clean_snoc; [done|].
      intros st' E. by rewrite Est in E.
    + left. exists f. split; [done|]. right. eauto.
  - right. left. exists (cs ++ [c]). split; [done|]. split; [done|]. right.
    destruct mode eqn:Hm; [|done]. apply negb_false_iff, bool_decide_eq_true in Em. split; [done|].
    exists (cs ++ [c]). split; [done|]. split; [done|]. rewrite removelast_last, Hm. done.
Qed.

Lemma resolve_settles links todo cs :
  Forall (fun c => slash ∉ c) todo -> Forall valid_comp cs -> clean cs -> settles todo (render1 cs) links.
Proof.
  revert todo cs. induction (lt_wf links) as [links _ IHl]. intros todo cs Htodo. revert cs.
  induction Htodo as [|c todo Hc Htodo IH]; intros cs Hcs Hcl; [by apply settles_end, resolved_clean|].
  destruct (resolve_step_cases c todo cs links Hc Hcs Hcl)
    as [(f & Hs & Hf)|[(cs' & Hs & Hcs' & Hor)|(n' & cs' & toks & -> & Hs & Hcs' & Hcl' & Ht)]].
  - by eapply settles_fail.
  - eapply settles_step; [done|]. destruct Hor as [Hcl'|[-> Hres]]; [by apply IH|by apply settles_end].
  - eapply settles_step; [done|]. apply IHl; [lia|by apply Forall_app|done|done].
Qed.
End resolve.

(** Resolving symlinks through an accessor ends on every tree of links,
    cyclic ones included, and yields a canonical path none of whose proper
    ancestors is a symlink; in mode [Full] neither is the path itself. The
    failures are those of the accessor and the one for too many links; no
    assertion fails. *)
Theorem resolveSymlinks_clean {A} `{SourceAccessor A} (acc : A) (mode : SymlinkResolution) (path : bytes) :
  CanonPath_wf path ->
  exists fuel r, (forall fuel', fuel <= fuel' -> resolveSymlinks acc fuel' path mode = r) /\ resolved acc mode r.
Proof.
  intros (cs & Hcs & ->). unfold resolveSymlinks. rewrite path_iter_render1 by done.
  apply (resolve_settles acc mode 1024 cs []); [|done|apply clean_nil].
  eapply Forall_impl; [exact Hcs|]. by intros c (_ & _ & _ & ?).
Qed.

Lemma resolveSymlinks_clean_witness :
  let acc := Directory [(L "a", Symlink (L "b/./c")); (L "b", Directory [(L "c", Symlink (L "/d")); (L "x", Regular false [])]);
                        (L "d", Directory [])] in
  resolveSymlinks acc 100 (L "/a/../b/x") Full = Ok (L "/b/x") /\
  exists fuel r, (forall fuel', fuel <= fuel' -> resolveSymlinks acc fuel' (L "/a/e") Full = r) /\ resolved acc Full r.
Proof.
  split; [by vm_compute|]. apply resolveSymlinks_clean. by apply CanonPath_raw_self.
Defined.
