(* ===== verification/Nar.v ===== *)
(** * Nix archives (libutil/archive.hh, archive.cc)

    Dumping a file system object from an accessor, and the parser that
    restores one into a sink from a source. *)

From S2P Require Import Prelude.
From S2P Require Import Containers.
From S2P Require Import Strings.
From S2P Require Import CanonPath.
From S2P Require Import Serialise.
From S2P Require Import Streams.
From S2P Require Import Fso.
From stdpp Require Import pretty.

Definition narVersionMagic1 : bytes := L "nix-archive-1".
Definition caseHackSuffix : bytes := L "~nix~case~hack~".

(** ** Dumping *)

(** [sink << s1 << s2 ...]. *)
Definition emit (ss : list bytes) : list bytes := concat (writeString <$> ss).

Section dump.
Context {A : Type} `{SourceAccessor A} (acc : A) (useCaseHack : bool) (filter : bytes -> bool).

Definition dumpContents (path : bytes) : result (list bytes) :=
  let* s := acc_readFile acc path in
  Ok (emit [L "contents"] ++ writeNum (Z.of_nat (length s)) ++ [s] ++ writePadding (length s)).

(** Undo the case hack: the map from the names in the archive to the names in
    the directory. *)
Fixpoint unhack (entries : list (bytes * option FileType)) (unhacked : list (bytes * bytes)) :
    result (list (bytes * bytes)) :=
  match entries with
  | [] => Ok unhacked
  | (i, _) :: entries =>
      if useCaseHack then
        let name := match find_sub caseHackSuffix i with Some pos => take pos i | None => i end in
        match smap_lookup name unhacked with
        | Some _ => throw Error
        | None => unhack entries (smap_insert name i unhacked)
        end
      else unhack entries (smap_emplace i i unhacked)
  end.

(** The loop over the entries; [dump] is the recursive call. *)
Fixpoint dump_entries (dump : bytes -> result (list bytes)) (path : bytes) (l : list (bytes * bytes)) :
    result (list bytes) :=
  match l with
  | [] => Ok []
  | (name, real) :: l =>
      let* p := push path name in
      let* out :=
        if filter p then
          let* q := push path real in
          let* d := dump q in
          Ok (emit [L "entry"; L "("; L "name"; name; L "node"] ++ d ++ emit [L ")"])
        else Ok [] in
      let* rest := dump_entries dump path l in
      Ok (out ++ rest)
  end.

Fixpoint dump (fuel : nat) (path : bytes) : result (list bytes) :=
  match fuel with
  | 0 => Err OutOfFuel
  | S fuel =>
      let* st := acc_lstat acc path in
      let* body :=
        match st_type st with
        | tRegular =>
            let* contents := dumpContents path in
            Ok (emit [L "type"; L "regular"]
                ++ (if st_isExecutable st then emit [L "executable"; []] else []) ++ contents)
        | tDirectory =>
            let* entries := readDirectory acc path in
            let* unhacked := unhack entries [] in
            let* out := dump_entries (dump fuel) path unhacked in
            Ok (emit [L "type"; L "directory"] ++ out)
        | tSymlink =>
            let* target := readLink acc path in
            Ok (emit [L "type"; L "symlink"; L "target"; target])
        | _ => throw Error
        end in
      Ok (emit [L "("] ++ body ++ emit [L ")"])
  end.

Definition dumpPath (fuel : nat) (path : bytes) : result (list bytes) :=
  let* d := dump fuel path in Ok (emit [narVersionMagic1] ++ d).
End dump.

Definition dumpString (s : bytes) : list bytes :=
  emit [narVersionMagic1; L "("; L "type"; L "regular"; L "contents"; s; L ")"].

(** ** Parsing *)

Section parse.
Context {S T H : Type} `{Source S} `{FSOSink T H} (useCaseHack : bool).

Definition getString : S -> result (bytes * S) := readString size_t_max.

Definition expectTag (expected : bytes) (s : S) : result (unit * S) :=
  let* (tag, s) := getString s in
  if bool_decide (tag = expected) then Ok (tt, s) else throw SerialisationError.

(** The loop of [parseContents] with its buffer of 65536 bytes. *)
Fixpoint contents_loop (fuel : nat) (left : Z) (h : H) (s : S) : result (H * S) :=
  if (left =? 0)%Z then Ok (h, s)
  else match fuel with
       | 0 => Err OutOfFuel
       | Datatypes.S fuel =>
           let n := if (left <? 65536)%Z then left else 65536%Z in
           let* (buf, s) := source_exact n s in
           let* h := crf_data buf h in
           contents_loop fuel (left - n) h s
       end.

Definition parseContents (h : H) (s : S) : result (H * S) :=
  let* (size, s) := readLongLong s in
  let* h := crf_preallocateContents size h in
  let* (h, s) := contents_loop (Datatypes.S (src_fuel s)) size h s in
  let* (_, s) := readPadding size s in
  Ok (h, s).

(** The callback given to [createRegularFile]. *)
Definition parse_regular (s : S) (h : H) : result (S * H) :=
  let* (tag, s) := getString s in
  let* (tag, h, s) :=
    if bool_decide (tag = L "executable") then
      let* (s2, s) := getString s in
      if bool_decide (s2 = []) then
        let* h := crf_isExecutable h in
        let* (tag, s) := getString s in
        Ok (tag, h, s)
      else throw SerialisationError
    else Ok (tag, h, s) in
  let* (h, s) := if bool_decide (tag = L "contents") then parseContents h s else Ok (h, s) in
  let* (_, s) := expectTag (L ")") s in
  Ok (s, h).

Definition invalid_name (name : bytes) : bool :=
  bool_decide (name = []) || bool_decide (name = L ".") || bool_decide (name = L "..")
  || bool_decide (slash ∈ name) || bool_decide (NUL ∈ name).

(** The case hack: [names] counts the names seen that are equal up to case. *)
Definition case_hack (name : bytes) (names : list (bytes * Z)) : result (bytes * list (bytes * Z)) :=
  if useCaseHack then
    match smap_lookup (toLower name) names with
    | Some count =>
        let name' := name ++ caseHackSuffix ++ L (pretty (count + 1)%Z) in
        match smap_lookup (toLower name') (smap_insert (toLower name) (count + 1)%Z names) with
        | Some _ => throw SerialisationError
        | None => Ok (name', smap_insert (toLower name) (count + 1)%Z names)
        end
    | None => Ok (name, smap_insert (toLower name) 0%Z names)
    end
  else Ok (name, names).

Section entries.
Context (parse : bytes -> T -> S -> result (T * S)) (path : bytes).

Fixpoint parse_entries (fuel : nat) (names : list (bytes * Z)) (prevName : bytes) (t : T) (s : S) :
    result (T * S) :=
  match fuel with
  | 0 => Err OutOfFuel
  | Datatypes.S fuel =>
      let* (tag, s) := getString s in
      if bool_decide (tag = L ")") then Ok (t, s)
      else if negb (bool_decide (tag = L "entry")) then throw SerialisationError
      else
        let* (_, s) := expectTag (L "(") s in
        let* (_, s) := expectTag (L "name") s in
        let* (name, s) := getString s in
        if invalid_name name then throw SerialisationError
        else if negb (kltb prevName name) then throw SerialisationError
        else
          let* (real, names) := case_hack name names in
          let* (_, s) := expectTag (L "node") s in
          let* p := push path real in
          let* (t, s) := parse p t s in
          let* (_, s) := expectTag (L ")") s in
          parse_entries fuel names name t s
  end.
End entries.

Fixpoint parse (fuel : nat) (path : bytes) (t : T) (s : S) : result (T * S) :=
  match fuel with
  | 0 => Err OutOfFuel
  | Datatypes.S fuel =>
      let* (_, s) := expectTag (L "(") s in
      let* (_, s) := expectTag (L "type") s in
      let* (type, s) := getString s in
      if bool_decide (type = L "regular") then
        let* (s, t) := createRegularFile path (parse_regular s) t in Ok (t, s)
      else if bool_decide (type = L "directory") then
        let* t := createDirectory path t in
        parse_entries (parse fuel) path (Datatypes.S (src_fuel s)) [] [] t s
      else if bool_decide (type = L "symlink") then
        let* (_, s) := expectTag (L "target") s in
        let* (target, s) := getString s in
        let* t := createSymlink path target t in
        let* (_, s) := expectTag (L ")") s in
        Ok (t, s)
      else throw SerialisationError
  end.

(** A [SerialisationError] while reading the magic counts as a wrong magic. *)
Definition parseDump (t : T) (s : S) : result (T * S) :=
  match readString (Z.of_nat (length narVersionMagic1)) s with
  | Ok (version, s) =>
      if bool_decide (version = narVersionMagic1) then parse (Datatypes.S (src_fuel s)) [slash] t s
      else throw SerialisationError
  | Err (Throw SerialisationError) => throw SerialisationError
  | Err f => Err f
  end.
End parse.

(** [copyNAR]: parse with a sink that ignores everything, while a [TeeSource]
    passes the data on. *)
Definition copyNAR {S} `{Source S} (useCaseHack : bool) (source : S) (sink : list bytes) : result (S * list bytes) :=
  let* (_, w) := parseDump (T := unit) (H := unit) useCaseHack tt (mkTeeSource source sink) in
  Ok (tee_orig w, tee_sink w).

(** ** The format *)

Definition encs (ss : list bytes) : bytes := concat (encString <$> ss).
Arguments encs : simpl never.

(** The archive of a tree without the magic, as archive.hh describes it. *)
Fixpoint nar (f : File) : bytes :=
  match f with
  | Regular e c =>
      encs ([L "("; L "type"; L "regular"] ++ (if e then [L "executable"; []] else [])
            ++ [L "contents"; c; L ")"])
  | Directory l =>
      encs [L "("; L "type"; L "directory"]
      ++ concat ((fun kv => encs [L "entry"; L "("; L "name"; kv.1; L "node"] ++ nar kv.2 ++ encs [L ")"]) <$> l)
      ++ encs [L ")"]
  | Symlink t => encs [L "("; L "type"; L "symlink"; L "target"; t; L ")"]
  end.

(** What can be archived: lengths fit 64 bits, and names have no NUL. *)
Inductive nar_ok : File -> Prop :=
| ok_regular e c : fits c -> nar_ok (Regular e c)
| ok_directory l : Forall (fun kv => fits kv.1 /\ NUL ∉ kv.1 /\ nar_ok kv.2) l -> nar_ok (Directory l)
| ok_symlink t : fits t -> nar_ok (Symlink t).

Lemma encs_cons d l : encs (d :: l) = encString d ++ encs l.
Proof. done. Qed.
Lemma encs_app l l' : encs (l ++ l') = encs l ++ encs l'.
Proof. unfold encs. by rewrite fmap_app, concat_app. Qed.
Lemma encs_nil : encs [] = [].
Proof. done. Qed.

Lemma emit_encs ss : concat (emit ss) = encs ss.
Proof.
  unfold emit, encs. induction ss as [|s ss IH]; [done|].
  by rewrite !fmap_cons, !concat_cons, concat_app, IH.
Qed.

(** How [parseContents] cuts a file. *)
Fixpoint chunks_fuel (fuel : nat) (c : bytes) : list bytes :=
  match c, fuel with
  | [], _ | _, 0 => []
  | _, S fuel => take (Z.to_nat 65536) c :: chunks_fuel fuel (drop (Z.to_nat 65536) c)
  end.
Definition chunks (c : bytes) : list bytes := chunks_fuel (length c) c.

Lemma chunks_fuel_cuts fuel c : length c <= fuel -> concat (chunks_fuel fuel c) = c.
Proof.
  revert c. induction fuel as [|fuel IH]; intros [|x c] Hf; simpl in Hf; try done; [lia|].
  cbn [chunks_fuel concat]. rewrite IH by (rewrite length_drop; cbn [length]; lia). apply take_drop.
Qed.

Lemma chunks_cuts : cuts chunks.
Proof. intros c. by apply chunks_fuel_cuts. Qed.

Lemma list_max_ge_elem {B} (f : B -> nat) l x : x ∈ l -> f x <= list_max (f <$> l).
Proof.
  induction l as [|y l IH]; [by rewrite elem_of_nil|]. rewrite elem_of_cons, fmap_cons. simpl.
  intros [->|Hx]; [lia|]. specialize (IH Hx). simpl in IH. lia.
Qed.

(** ** The parser accepts the format *)

Section parse_nar.
Context {S T H : Type} `{SourceLaws S} `{FSOSink T H}.
Implicit Types (s : S) (t : T) (h : H).

Lemma getString_enc s d c : fits d -> delivers s (encString d ++ c) ->
  exists s', getString s = Ok (d, s') /\ delivers s' c.
Proof.
  intros Hd Hs. destruct (proj1 (decodes_string size_t_max ltac:(unfold size_t_max; lia)) d Hd s c Hs)
    as (s' & ? & ? & _). by exists s'.
Qed.

Lemma expectTag_enc s d c : fits d -> delivers s (encString d ++ c) ->
  exists s', expectTag d s = Ok (tt, s') /\ delivers s' c.
Proof.
  intros Hd Hs. destruct (getString_enc s d c Hd Hs) as (s' & Hg & Hs'). exists s'. unfold expectTag.
  rewrite Hg. simpl. by rewrite bool_decide_true.
Qed.
End parse_nar.

Ltac fits_const := unfold fits; vm_compute; discriminate.
(** Advance the parser over the next string of the source. *)
Ltac nar_step :=
  match goal with
  | Hs : delivers ?s (encString ?d ++ ?c) |- context [expectTag ?d ?s] =>
      let s' := fresh "s" in let E := fresh "E" in let Hs' := fresh "Hs" in
      destruct (expectTag_enc s d c ltac:(first [assumption | fits_const]) Hs) as (s' & E & Hs');
      rewrite E; clear E; cbn [rbind]
  | Hs : delivers ?s (encString ?d ++ ?c) |- context [getString ?s] =>
      let s' := fresh "s" in let E := fresh "E" in let Hs' := fresh "Hs" in
      destruct (getString_enc s d c ltac:(first [assumption | fits_const]) Hs) as (s' & E & Hs');
      rewrite E; clear E; cbn [rbind]
  end.
(** Decide the comparison of two literal tags. *)
Ltac tag_cmp :=
  repeat match goal with
  | |- context [bool_decide (?a = ?a)] => rewrite (bool_decide_true (a = a)) by reflexivity
  | |- context [bool_decide (?a = ?b)] => rewrite (bool_decide_false (a = b)) by (vm_compute; discriminate)
  end.

Section parse_nar_tree.
Context {S T H : Type} `{SourceLaws S} `{FSOSink T H}.
Implicit Types (s : S) (t : T) (h : H).

Lemma contents_loop_enc fuel n s c rest h h' :
  delivers s (c ++ rest) -> length c <= n -> length c < fuel -> write_pieces (chunks_fuel n c) h = Ok h' ->
  exists s', contents_loop fuel (Z.of_nat (length c)) h s = Ok (h', s') /\ delivers s' rest.
Proof.
  revert fuel s c h. induction n as [|n IH]; intros fuel s c h Hs Hn Hfuel.
  { destruct c; [|simpl in Hn; lia]. intros [= <-]. exists s. split; [by destruct fuel|done]. }
  destruct c as [|x c]; [intros [= <-]; exists s; split; [by destruct fuel|done]|].
  destruct fuel as [|fuel]; [lia|]. cbn [chunks_fuel]. intros Hw. cbn [write_pieces] in Hw.
  apply rbind_Ok in Hw as (h1 & Hd & Hw). cbn [contents_loop]. rewrite (proj2 (Z.eqb_neq _ _)) by (simpl; lia).
  set (d := x :: c) in *.
  set (k := if (Z.of_nat (length d) <? 65536)%Z then Z.of_nat (length d) else 65536%Z).
  assert (Hk : length (take (Z.to_nat 65536) d) = Z.to_nat k /\ (0 <= k)%Z).
  { rewrite length_take. unfold k. destruct (Z.ltb_spec (Z.of_nat (length d)) 65536); lia. }
  rewrite <- (take_drop (Z.to_nat 65536) d), <- app_assoc in Hs.
  destruct (proj1 (decodes_exact k (proj2 Hk)) _ (proj1 Hk) s _ Hs) as (s1 & -> & Hs1 & _).
  cbn [rbind]. rewrite Hd. cbn [rbind].
  replace (Z.of_nat (length d) - k)%Z with (Z.of_nat (length (drop (Z.to_nat 65536) d))).
  - assert (0 < length d) by (unfold d; simpl; lia).
    apply (IH fuel s1 _ h1 Hs1); [| |done]; rewrite length_drop; lia.
  - rewrite length_drop. unfold k. destruct (Z.ltb_spec (Z.of_nat (length d)) 65536); lia.
Qed.

Lemma parseContents_enc s c rest h h' :
  fits c -> delivers s (encString c ++ rest) ->
  (let* h := crf_preallocateContents (Z.of_nat (length c)) h in write_pieces (chunks c) h) = Ok h' ->
  exists s', parseContents h s = Ok (h', s') /\ delivers s' rest.
Proof.
  intros Hc Hs Hw. rewrite encString_eq, <- !app_assoc in Hs. unfold parseContents, readLongLong.
  destruct (proj1 (decodes_num size_t_max ltac:(unfold size_t_max; lia)) (Z.of_nat (length c))
    ltac:(unfold fits in Hc; cbv beta; lia) s _ Hs) as (s1 & -> & Hs1 & _). cbn [rbind].
  apply rbind_Ok in Hw as (h1 & -> & Hw). cbn [rbind].
  pose proof (delivers_fuel _ _ Hs1) as Hf. rewrite length_app in Hf.
  destruct (contents_loop_enc (Datatypes.S (src_fuel s1)) (length c) s1 c _ h1 h' Hs1 ltac:(lia) ltac:(lia) Hw)
    as (s2 & -> & Hs2). cbn [rbind].
  destruct (proj1 (decodes_padding (length c)) tt I s2 _ Hs2) as (s3 & -> & Hs3 & _). by exists s3.
Qed.

Lemma parse_regular_enc s (e : bool) c rest h h' :
  fits c -> delivers s (encs ((if e then [L "executable"; []] else []) ++ [L "contents"; c; L ")"]) ++ rest) ->
  (let* h := if e then crf_isExecutable h else Ok h in
   let* h := crf_preallocateContents (Z.of_nat (length c)) h in write_pieces (chunks c) h) = Ok h' ->
  exists s', parse_regular s h = Ok (s', h') /\ delivers s' rest.
Proof.
  intros Hc Hs Hw. apply rbind_Ok in Hw as (h1 & Hh1 & Hw). unfold parse_regular.
  destruct e; cbn [app] in Hs; rewrite !encs_cons, encs_nil, <- !app_assoc, app_nil_l in Hs.
  - nar_step. tag_cmp. cbv iota. nar_step. tag_cmp. cbv iota. rewrite Hh1. cbn [rbind]. nar_step. tag_cmp. cbv iota.
    destruct (parseContents_enc _ c _ h1 h' Hc Hs2 Hw) as (s3 & -> & Hs3). cbn [rbind].
    nar_step. by eexists.
  - nar_step. tag_cmp. cbv iota. cbn [rbind]. tag_cmp. cbv iota. injection Hh1 as <-.
    destruct (parseContents_enc _ c _ h h' Hc Hs0 Hw) as (s3 & -> & Hs3). cbn [rbind].
    nar_step. by eexists.
Qed.

(** One entry of a directory. *)
Definition nar_entry (kv : bytes * File) : bytes :=
  encs [L "entry"; L "("; L "name"; kv.1; L "node"] ++ nar kv.2 ++ encs [L ")"].

Lemma nar_directory l :
  nar (Directory l) = encs [L "("; L "type"; L "directory"] ++ concat (nar_entry <$> l) ++ encs [L ")"].
Proof. done. Qed.

(** [f] is parsed from its archive into any sink that accepts it. *)
Definition parses (fuel : nat) (f : File) : Prop :=
  forall cs t t' s rest, Forall valid_comp cs -> replay chunks f (render1 cs) t = Ok t' ->
    delivers s (nar f ++ rest) ->
    exists s', parse false fuel (render1 cs) t s = Ok (t', s') /\ delivers s' rest.

Lemma invalid_name_false n : valid_comp n -> NUL ∉ n -> invalid_name n = false.
Proof. intros (? & ? & ? & ?) ?. unfold invalid_name. by rewrite !bool_decide_false. Qed.

Lemma parse_entries_enc fuel l n prev cs t t' s rest :
  Forall (fun kv => valid_comp kv.1 /\ fits kv.1 /\ NUL ∉ kv.1 /\ parses fuel kv.2) l ->
  StronglySorted klt (prev :: (fst <$> l)) -> length l < n -> Forall valid_comp cs ->
  replay_entries chunks l (render1 cs) t = Ok t' ->
  delivers s (concat (nar_entry <$> l) ++ encs [L ")"] ++ rest) ->
  exists s', parse_entries false (parse false fuel) (render1 cs) n [] prev t s = Ok (t', s') /\ delivers s' rest.
Proof.
  intros Hl. revert n prev t s. induction Hl as [|[name f] l (Hv & Hfit & Hnul & Hf) _ IH];
    intros n prev t s Hsort Hn Hcs Hr Hs; (destruct n as [|n]; [simpl in Hn; lia|]); cbn [parse_entries].
  - rewrite encs_cons, encs_nil, app_nil_r in Hs. change (concat (nar_entry <$> [])) with (@nil ascii) in Hs.
    rewrite app_nil_l in Hs. nar_step. tag_cmp. cbv iota. injection Hr as <-. by eexists.
  - rewrite fmap_cons, concat_cons in Hs. unfold nar_entry at 1 in Hs. cbn [fst snd] in *.
    rewrite !encs_cons, !encs_nil in Hs. rewrite <- !app_assoc, !app_nil_l in Hs.
    nar_step. tag_cmp. cbv iota. cbn [negb]. nar_step. nar_step. nar_step.
    rewrite invalid_name_false by done. rewrite fmap_cons in Hsort.
    inversion Hsort as [|?? Hsort' Hall]; subst. inversion Hall as [|?? Hlt _]; subst.
    rewrite (proj2 (kltb_spec prev name) Hlt). cbn [negb case_hack]. nar_step.
    cbn [replay_entries] in Hr. rewrite push_render1 in Hr |- * by done. cbn [rbind] in Hr |- *.
    apply rbind_Ok in Hr as (t1 & Hr1 & Hr).
    destruct (Hf (cs ++ [name]) t t1 _ _ ltac:(apply Forall_app; auto) Hr1 Hs4) as (s5 & -> & Hs5).
    cbn [rbind]. nar_step. apply (IH n name t1 _ Hsort'); [simpl in Hn; lia|done|done|].
    rewrite encs_cons, encs_nil, app_nil_r. exact Hs6.
Qed.

Lemma nar_entry_nonempty kv : nar_entry kv <> [].
Proof. unfold nar_entry. rewrite encs_cons. by rewrite encString_eq. Qed.

Lemma klt_nil_name n : valid_comp n -> klt [] n.
Proof. intros (Hn & _). by destruct n. Qed.

Lemma parse_nar f fuel : File_wf f -> nar_ok f -> file_height f < fuel -> parses fuel f.
Proof.
  revert fuel. induction f as [e c|l IH|tg] using File_ind'; intros fuel Hwf Hok Hfuel cs t t' s rest Hcs Hr Hs;
    (destruct fuel as [|fuel]; [lia|]); cbn [parse].
  - inversion Hok as [?? Hc| |]; subst. cbn [nar] in Hs. cbn [app] in Hs.
    rewrite !encs_cons, <- !app_assoc in Hs. do 3 nar_step. tag_cmp. cbv iota.
    cbn [replay] in Hr. unfold replay_regular, createRegularFile in *.
    rewrite rbind_assoc in Hr. apply rbind_Ok in Hr as ([t1 h1] & Ho & Hr). rewrite Ho. cbn [rbind] in Hr |- *.
    rewrite rbind_assoc in Hr. apply rbind_Ok in Hr as ([[] h2] & Hh & Hr).
    assert (Hw : (let* h := if e then crf_isExecutable h1 else Ok h1 in
       let* h := crf_preallocateContents (Z.of_nat (length c)) h in write_pieces (chunks c) h) = Ok h2).
    { apply rbind_Ok in Hh as (ha & -> & Hh). cbn [rbind]. apply rbind_Ok in Hh as (hb & -> & Hh).
      cbn [rbind]. apply rbind_Ok in Hh as (hc & -> & Hh). congruence. }
    destruct (parse_regular_enc _ e c rest h1 h2 Hc Hs2 Hw) as (s3 & -> & Hs3). cbn [rbind].
    rewrite rbind_assoc in Hr. apply rbind_Ok in Hr as (t2 & -> & Hr). cbn [rbind] in Hr |- *.
    injection Hr as <-. by exists s3.
  - inversion Hok as [|? Hents|]; subst. inversion Hwf as [|? Hsm Hwfs|]; subst.
    rewrite nar_directory in Hs. rewrite (encs_cons (L "(")), (encs_cons (L "type")), (encs_cons (L "directory")), encs_nil in Hs.
    rewrite <- !app_assoc, app_nil_l in Hs. do 3 nar_step. tag_cmp. cbv iota.
    rewrite replay_directory in Hr. apply rbind_Ok in Hr as (t1 & -> & Hr). cbn [rbind].
    eapply (parse_entries_enc fuel l); [| | |done|exact Hr|exact Hs2].
    + rewrite Forall_forall in IH, Hents, Hwfs |- *. intros kv Hin.
      destruct (Hents _ Hin) as (? & ? & ?), (Hwfs _ Hin) as [? ?]. split_and!; try done.
      apply IH; [done|done|done|]. simpl in Hfuel.
      assert (file_height kv.2 <= list_max ((fun kv => file_height kv.2) <$> l)); [|lia].
      apply (list_max_ge_elem (fun kv => file_height kv.2)). done.
    + constructor; [done|]. apply Forall_fmap. eapply Forall_impl; [exact Hwfs|].
      intros kv [Hk _]. by apply klt_nil_name.
    + pose proof (delivers_fuel _ _ Hs2) as Hf. rewrite length_app in Hf.
      pose proof (concat_nonempty_length nar_entry l) as Hc.
      assert (length l <= length (concat (nar_entry <$> l))); [|lia].
      apply Hc, Forall_forall. intros kv _. apply nar_entry_nonempty.
  - inversion Hok as [| |? Ht]; subst. cbn [nar] in Hs. rewrite !encs_cons, encs_nil, <- !app_assoc, app_nil_l in Hs.
    do 3 nar_step. tag_cmp. cbv iota. nar_step. nar_step. cbn [replay] in Hr. rewrite Hr. cbn [rbind].
    nar_step. by eexists.
Qed.
End parse_nar_tree.

Section parseDump_nar.
Context {S T H : Type} `{SourceLaws S} `{FSOSink T H}.

Lemma nar_height f : file_height f <= length (nar f).
Proof.
  induction f as [e c|l IH|t] using File_ind'; [simpl; lia| |simpl; lia].
  rewrite nar_directory, !length_app. cbn [file_height].
  assert (list_max ((fun kv => file_height kv.2) <$> l) <= length (concat (nar_entry <$> l))).
  { apply list_max_le, Forall_forall. intros h (kv & -> & Hin)%list_elem_of_fmap.
    rewrite Forall_forall in IH. specialize (IH _ Hin). clear -IH Hin.
    induction l as [|kv' l IHl]; [by apply elem_of_nil in Hin|].
    rewrite fmap_cons, concat_cons, length_app. apply elem_of_cons in Hin as [->|Hin]; [|specialize (IHl Hin); lia].
    unfold nar_entry. rewrite !length_app. lia. }
  rewrite (encs_cons (L "(")), length_app. assert (0 < length (encString (L "("))) by (vm_compute; lia). lia.
Qed.

Lemma parseDump_nar f (t t' : T) (s : S) rest :
  File_wf f -> nar_ok f -> replay chunks f [slash] t = Ok t' ->
  delivers s (encs [narVersionMagic1] ++ nar f ++ rest) ->
  exists s', parseDump false t s = Ok (t', s') /\ delivers s' rest.
Proof.
  intros Hwf Hok Hr Hs. unfold parseDump. rewrite encs_cons, encs_nil, <- !app_assoc, app_nil_l in Hs.
  destruct (proj1 (decodes_string (Z.of_nat (length narVersionMagic1)) ltac:(vm_compute; done)) narVersionMagic1
    ltac:(vm_compute; done) s _ Hs) as (s1 & -> & Hs1 & _).
  rewrite bool_decide_true by done. pose proof (delivers_fuel _ _ Hs1) as Hf. rewrite length_app in Hf.
  pose proof (nar_height f).
  by apply (parse_nar f (Datatypes.S (src_fuel s1)) Hwf Hok ltac:(lia) [] t t' s1 rest).
Qed.
End parseDump_nar.

(** ** Dumping from memory *)

Section dump_mem.
Context (root : File).

Lemma mem_readDirectory_at cs l : Forall valid_comp cs -> file_at cs root = Some (Directory l) -> smap_wf l ->
  mem_readDirectory root (render1 cs) = Ok ((fun kv => (kv.1, Some (st_type (File_lstat kv.2)))) <$> l).
Proof.
  intros Hcs Hat Hl. unfold mem_readDirectory. rewrite mem_find_at, Hat by done. cbn [rbind]. f_equal.
  set (g := fun kv : bytes * File => (kv.1, Some (st_type (File_lstat kv.2)))).
  transitivity (smap_of_list (g <$> l)).
  - unfold smap_of_list. generalize (@nil (bytes * option FileType)). clear Hl Hat.
    induction l as [|kv l IH]; intros m; simpl; [done|]. apply IH.
  - apply smap_of_list_sorted. unfold smap_wf in *. by rewrite <- list_fmap_compose.
Qed.

Lemma unhack_names (l : list (bytes * option FileType)) dn :
  smap_wf (dn ++ ((fun kv => (kv.1, kv.1)) <$> l)) ->
  unhack false l dn = Ok (dn ++ ((fun kv => (kv.1, kv.1)) <$> l)).
Proof.
  revert dn. induction l as [|[i ty] l IH]; intros dn Hwf; simpl; [by rewrite app_nil_r|].
  rewrite fmap_cons in Hwf. cbn [fst] in Hwf.
  rewrite smap_emplace_snoc by (by eapply smap_wf_prefix). rewrite IH; by rewrite <- app_assoc.
Qed.

Lemma dump_entries_nar (dmp : bytes -> result (list bytes)) cs l :
  Forall valid_comp cs -> Forall (fun kv => valid_comp kv.1 /\
    exists calls, dmp (render1 (cs ++ [kv.1])) = Ok calls /\ concat calls = nar kv.2) l ->
  exists calls, dump_entries (fun _ => true) dmp (render1 cs) ((fun kv => (kv.1, kv.1)) <$> l) = Ok calls /\
    concat calls = concat (nar_entry <$> l).
Proof.
  intros Hcs Hl. induction Hl as [|[n f] l (Hn & calls & Hd & Hc) _ (calls' & IH & IHc)]; [by exists []|].
  cbn [fst snd] in *. rewrite fmap_cons. cbn [dump_entries fst]. rewrite push_render1 by done. cbn [rbind].
  rewrite Hd. cbn [rbind]. rewrite IH. cbn [rbind]. eexists. split; [done|].
  rewrite fmap_cons, concat_cons, !concat_app, !emit_encs, Hc, IHc. unfold nar_entry. cbn [fst snd].
  by rewrite <- !app_assoc.
Qed.

Lemma dump_nar f fuel cs :
  File_wf f -> Forall valid_comp cs -> file_at cs root = Some f -> file_height f < fuel ->
  exists calls, dump root false (fun _ => true) fuel (render1 cs) = Ok calls /\ concat calls = nar f.
Proof.
  revert fuel cs. induction f as [e c|l IH|tg] using File_ind'; intros fuel cs Hwf Hcs Hat Hfuel;
    (destruct fuel as [|fuel]; [lia|]); cbn [dump]; unfold acc_lstat; simpl maybeLstat;
    rewrite mem_find_at, Hat by done; cbn [rbind fmap option_fmap option_map File_lstat st_type st_isExecutable].
  - unfold dumpContents. simpl acc_readFile. unfold mem_readFile. rewrite mem_find_at, Hat by done. cbn [rbind].
    eexists. split; [done|]. cbn [nar].
    assert (E : concat (writeNum (Z.of_nat (length c)) ++ [c] ++ writePadding (length c)) = encString c) by done.
    rewrite !concat_app, !emit_encs in *. rewrite E.
    destruct e; cbn [app]; rewrite ?emit_encs, !encs_cons, !encs_nil, <- ?app_assoc; done.
  - inversion Hwf as [|? Hsm Hents|]; subst. simpl readDirectory. rewrite (mem_readDirectory_at cs l) by done.
    cbn [rbind]. set (g := fun kv : bytes * File => (kv.1, Some (st_type (File_lstat kv.2)))).
    assert (Hgl : (fun kv : bytes * option FileType => (kv.1, kv.1)) <$> (g <$> l) = (fun kv => (kv.1, kv.1)) <$> l)
      by by rewrite <- list_fmap_compose.
    rewrite (unhack_names (g <$> l) []); rewrite Hgl; [|unfold smap_wf; simpl; by rewrite <- list_fmap_compose].
    cbn [rbind app]. destruct (dump_entries_nar (dump root false (fun _ => true) fuel) cs l Hcs) as (calls & Hd & Hc).
    + rewrite Forall_forall in IH, Hents |- *. intros [n f] Hin. destruct (Hents _ Hin) as [Hn Hf]. split; [done|].
      apply (IH _ Hin); [done|apply Forall_app; auto| |].
      * rewrite file_at_app, Hat. simpl. by rewrite (smap_elem_lookup n f l Hsm Hin).
      * cbn [file_height] in Hfuel. pose proof (list_max_ge_elem (fun kv => file_height kv.2) l _ Hin). simpl in *. lia.
    + rewrite Hd. cbn [rbind]. eexists. split; [done|].
      rewrite nar_directory, !concat_app, !emit_encs, Hc. rewrite (encs_cons (L "(") [L "type"; L "directory"]).
      rewrite (encs_cons (L "(") []), encs_nil, app_nil_r. by rewrite <- !app_assoc.
  - simpl readLink. unfold mem_readLink. rewrite mem_find_at, Hat by done. cbn [rbind].
    eexists. split; [done|]. rewrite !concat_app, !emit_encs. cbn [nar].
    rewrite !encs_cons, !encs_nil, <- !app_assoc. done.
Qed.
End dump_mem.

(** C15: archives round-trip. Dumping any directory tree held in memory
    succeeds, and parsing the result, from any source that delivers it and
    whatever follows, restores exactly that tree into an empty memory
    accessor and consumes exactly the archive. Into any other sink the parser
    makes the calls that create the tree, in order, and fails only if one of
    them does. *)
Theorem nar_roundtrip {S T H} `{SourceLaws S} `{FSOSink T H} l f :
  File_wf (Directory l) -> nar_ok (Directory l) -> File_wf f -> nar_ok f ->
  (exists calls, dumpPath (Directory l) false (fun _ => true) (Datatypes.S (file_height (Directory l))) [slash] = Ok calls /\
    forall (s : S) rest, delivers s (concat calls ++ rest) ->
      exists s', parseDump false (Directory []) s = Ok (Directory l, s') /\ delivers s' rest) /\
  (forall (t t' : T) (s : S) rest, replay chunks f [slash] t = Ok t' ->
     delivers s (encs [narVersionMagic1] ++ nar f ++ rest) ->
     exists s', parseDump false t s = Ok (t', s') /\ delivers s' rest).
Proof.
  intros Hwf Hok Hwf' Hok'. split; [|intros; by eapply parseDump_nar].
  destruct (dump_nar (Directory l) (Directory l) (Datatypes.S (file_height (Directory l))) [] Hwf)
    as (calls & Hd & Hc); [done|done|lia|].
  unfold dumpPath. change [slash] with (render1 []). rewrite Hd. cbn [rbind]. eexists. split; [done|].
  intros s rest Hs. rewrite concat_app, emit_encs, Hc, <- app_assoc in Hs.
  apply (parseDump_nar (Directory l)); [done|done| |done].
  apply mem_replay_root; [apply chunks_cuts|done].
Qed.

Definition example_tree : list (bytes * File) :=
  [(L "bin", Directory [(L "run", Regular true (L "#!/bin/sh"))]); (L "doc", Symlink (L "../doc"));
   (L "empty", Regular false [])].

Lemma example_tree_wf : File_wf (Directory example_tree) /\ nar_ok (Directory example_tree).
Proof.
  split.
  - constructor; [unfold smap_wf; repeat constructor; by vm_compute|].
    repeat constructor; simpl; try (apply (bool_decide_unpack _); by vm_compute); try by vm_compute.
  - repeat constructor; simpl; try (apply (bool_decide_unpack _); by vm_compute); by vm_compute.
Qed.

Lemma nar_roundtrip_witness :
  (exists calls, dumpPath (Directory example_tree) false (fun _ => true) 3 [slash] = Ok calls /\
    forall (s : StringSource) rest, delivers s (concat calls ++ rest) ->
      exists s', parseDump false (Directory []) s = Ok (Directory example_tree, s') /\ delivers s' rest) /\
  (forall (t t' : unit) (s : StringSource) rest, replay chunks (Directory example_tree) [slash] t = Ok t' ->
     delivers s (encs [narVersionMagic1] ++ nar (Directory example_tree) ++ rest) ->
     exists s', parseDump false t s = Ok (t', s') /\ delivers s' rest).
Proof.
  apply (nar_roundtrip example_tree (Directory example_tree)); apply example_tree_wf.
Defined.

Lemma null_write_pieces l : write_pieces (T := unit) (H := unit) l tt = Ok tt.
Proof. by induction l. Qed.

(** The sink that ignores everything accepts every tree. *)
Lemma null_replay f cs : File_wf f -> Forall valid_comp cs ->
  replay (T := unit) (H := unit) chunks f (render1 cs) tt = Ok tt.
Proof.
  intros Hwf. revert cs. induction f as [e c|l IH|t] using File_ind'; intros cs Hcs; [|clear -IH Hwf Hcs|done].
  - simpl. unfold replay_regular, createRegularFile. simpl. by destruct e; simpl; rewrite null_write_pieces.
  - rewrite replay_directory. simpl. inversion Hwf as [|? _ Hents|]; subst. clear Hwf.
    induction Hents as [|[n f] l [Hn Hf] _ IHl]; [done|]. apply Forall_cons in IH as [IHf IH].
    cbn [replay_entries fst snd] in *. rewrite push_render1 by done. cbn [rbind].
    rewrite IHf by (done || (apply Forall_app; auto)). cbn [rbind]. by apply IHl.
Qed.

(** [copyNAR] forwards exactly the archive: given a source that delivers an
    archive followed by anything, the bytes given to the sink are the archive,
    and the source is left right behind it. *)
Theorem copyNAR_exact {S} `{SourceLaws S} (s : S) f rest :
  File_wf f -> nar_ok f -> delivers s (encs [narVersionMagic1] ++ nar f ++ rest) ->
  exists s' calls, copyNAR false s [] = Ok (s', calls) /\ delivers s' rest /\
    concat calls = encs [narVersionMagic1] ++ nar f.
Proof.
  intros Hwf Hok Hs. set (total := encs [narVersionMagic1] ++ nar f ++ rest) in Hs.
  destruct (@parseDump_nar (TeeSource S) unit unit _ (TeeSource_copies total) _ f tt tt (mkTeeSource s []) rest)
    as (w & Hw & Hd & Ht); [done|done|by apply (null_replay f [])|by split|].
  unfold copyNAR. rewrite Hw. cbn [rbind]. eexists _, _. split; [done|]. split; [done|].
  unfold total in Ht. rewrite app_assoc in Ht. by apply app_inv_tail in Ht.
Qed.

Lemma copyNAR_exact_witness :
  exists s' calls, copyNAR false (StringSource_of (encs [narVersionMagic1] ++ nar (Directory example_tree) ++ L "tail")) []
      = Ok (s', calls) /\ delivers s' (L "tail") /\
    concat calls = encs [narVersionMagic1] ++ nar (Directory example_tree).
Proof.
  apply copyNAR_exact; [apply example_tree_wf|apply example_tree_wf|]. split; [simpl; lia|done].
Defined.

(** The tag between the type and the closing parenthesis of a regular file
    is not checked: any string other than [executable] and [contents] is
    skipped and the file restored as an empty one. Different archives thus
    restore the same object, and one without contents, which only lacks the
    tag, is refused. *)
Theorem parseDump_accepts_unknown_tag {S} `{SourceLaws S} (s : S) tag rest :
  fits tag -> tag <> L "executable" -> tag <> L "contents" ->
  delivers s (encs [narVersionMagic1; L "("; L "type"; L "regular"; tag; L ")"] ++ rest) ->
  exists s', parseDump false (mkRegularFileSink true []) s = Ok (mkRegularFileSink true [], s') /\ delivers s' rest.
Proof.
  intros Hfit H1 H2 Hs. unfold parseDump.
  rewrite !encs_cons, encs_nil, <- !app_assoc, app_nil_l in Hs.
  destruct (proj1 (decodes_string (Z.of_nat (length narVersionMagic1)) ltac:(vm_compute; done)) narVersionMagic1
    ltac:(vm_compute; done) s _ Hs) as (s1 & -> & Hs1 & _).
  rewrite bool_decide_true by done. cbn [parse]. do 3 nar_step. tag_cmp. cbv iota.
  unfold createRegularFile. simpl openRegular. cbn [rbind]. unfold parse_regular. nar_step.
  rewrite (bool_decide_false (tag = L "executable")) by done. cbn [rbind].
  rewrite (bool_decide_false (tag = L "contents")) by done. cbn [rbind]. nar_step. by eexists.
Qed.

Lemma parseDump_accepts_unknown_tag_witness :
  exists s', parseDump false (mkRegularFileSink true [])
      (StringSource_of (encs [narVersionMagic1; L "("; L "type"; L "regular"; L "anything"; L ")"] ++ L "x"))
    = Ok (mkRegularFileSink true [], s') /\ delivers s' (L "x").
Proof.
  apply (parseDump_accepts_unknown_tag _ (L "anything")); [fits_const|by vm_compute|by vm_compute|].
  split; [simpl; lia|done].
Defined.

(** ** The parser ends on every input *)

(** Sinks that fail only the way the code does. *)
Class SinkTotal (T H : Type) `{FSOSink T H} := {
  createDirectory_total : forall p (t : T), createDirectory p t <> Err OutOfFuel;
  createSymlink_total : forall p g (t : T), createSymlink p g t <> Err OutOfFuel;
  openRegular_total : forall p (t : T), openRegular p t <> Err OutOfFuel;
  isExecutable_total : forall h, crf_isExecutable h <> Err OutOfFuel;
  preallocate_total : forall n h, crf_preallocateContents n h <> Err OutOfFuel;
  data_total : forall d h, crf_data d h <> Err OutOfFuel;
  closeRegular_total : forall p h (t : T), closeRegular p h t <> Err OutOfFuel;
}.

#[export] Instance NullSink_total : SinkTotal unit unit.
Proof. by split. Qed.
#[export] Instance RegularFileSink_total : SinkTotal RegularFileSink (list bytes).
Proof. by split. Qed.

Section parse_terminates.
Context {S T H : Type} `{SourceLaws S} `{SinkTotal T H}.
Implicit Types (s : S) (t : T) (h : H).

(** [r] consumes at least [k], or fails the way the code does. *)
Definition uses {A} (k : nat) (s : S) (src : A -> S) (r : result A) : Prop :=
  match r with
  | Ok a => (exists c, delivers (src a) c) /\ src_fuel (src a) + k <= src_fuel s
  | Err f => f <> OutOfFuel
  end.

Lemma uses_bind {A B} k1 k2 k s (src1 : A -> S) (src2 : B -> S) r (f : A -> result B) :
  uses k1 s src1 r ->
  (forall a c, delivers (src1 a) c -> src_fuel (src1 a) + k1 <= src_fuel s -> uses k2 (src1 a) src2 (f a)) ->
  k <= k1 + k2 -> uses k s src2 (let* a := r in f a).
Proof.
  intros Hr Hf Hk. destruct r as [a|]; [|done]. destruct Hr as [[c Hc] Hle]. cbn [rbind].
  specialize (Hf a c Hc Hle). destruct (f a) as [b|]; [|done]. destruct Hf as [? ?]. split; [done|lia].
Qed.

Lemma uses_le {A} k k' s (src : A -> S) r : uses k s src r -> k' <= k -> uses k' s src r.
Proof. destruct r; [|done]. intros [? ?] ?. split; [done|lia]. Qed.

(** A step that does not touch the source. *)
Lemma uses_pure {A B} k s (src : B -> S) (r : result A) (f : A -> result B) :
  r <> Err OutOfFuel -> (forall a, r = Ok a -> uses k s src (f a)) -> uses k s src (let* a := r in f a).
Proof. intros Hr Hf. destruct r; [by apply Hf|]. simpl. congruence. Qed.

Lemma uses_decodes {A} (r : S -> result (A * S)) e P k s c :
  decodes r e P -> (forall a, P a -> k <= length (e a)) -> delivers s c -> uses k s snd (r s).
Proof.
  intros [H1' H2'] Hk Hs. destruct (H2' s c Hs) as [(a & c' & Ha & ->)|[-> | ->]]; [|done|done].
  destruct (H1' a Ha s c' Hs) as (s' & -> & Hs' & Hf). simpl. split; [by exists c'|]. specialize (Hk a Ha). lia.
Qed.

Lemma uses_getString s c : delivers s c -> uses 1 s snd (getString s).
Proof.
  apply (uses_decodes _ encString (fun d => (Z.of_nat (length d) <= size_t_max)%Z)).
  - apply decodes_string. unfold size_t_max. lia.
  - intros d _. rewrite encString_eq, length_app. change (length (encNum _)) with 8. lia.
Qed.

Lemma uses_expectTag tag s c : delivers s c -> uses 1 s snd (expectTag tag s).
Proof.
  intros Hs. unfold expectTag. eapply (uses_bind 1 0); [by eapply uses_getString| |lia].
  intros [d s1] c1 Hs1 _. simpl in *. case_bool_decide; [|done]. split; [by exists c1|]. simpl. lia.
Qed.

Lemma uses_exact len s c : (0 <= len)%Z -> delivers s c -> uses (Z.to_nat len) s snd (source_exact len s).
Proof.
  intros Hlen. apply (uses_decodes _ (fun d => d) (fun d => length d = Z.to_nat len)).
  - by apply decodes_exact.
  - lia.
Qed.

Lemma uses_contents fuel left h s c : (0 <= left)%Z -> delivers s c -> src_fuel s < fuel ->
  uses 0 s snd (contents_loop fuel left h s).
Proof.
  revert left h s c. induction fuel as [|fuel IH]; intros left h s c Hl Hs Hf; [lia|]. cbn [contents_loop].
  destruct (Z.eqb_spec left 0) as [|Hne]; [split; [by exists c|simpl; lia]|].
  set (n := if (left <? 65536)%Z then left else 65536%Z).
  assert (1 <= n <= left)%Z by (unfold n; destruct (Z.ltb_spec left 65536); lia).
  eapply (uses_bind (Z.to_nat n) 0); [eapply uses_exact; [lia|done]| |lia].
  intros [d s1] c1 Hs1 Hle. simpl in Hs1, Hle. apply uses_pure; [apply data_total|]. intros h1 _.
  simpl snd. by apply (IH _ _ _ c1); [lia| |lia].
Qed.

Lemma uses_parseContents h s c : delivers s c -> uses 0 s snd (parseContents h s).
Proof.
  intros Hs. unfold parseContents, readLongLong.
  destruct (decodes_num (S := S) size_t_max ltac:(unfold size_t_max; lia)) as [Hn1 Hn2].
  destruct (Hn2 s c Hs) as [(size & c1 & Hsize & ->)|[-> | ->]]; [|done|done].
  destruct (Hn1 size Hsize s c1 Hs) as (s1 & -> & Hs1 & Hf1). cbn [rbind].
  apply uses_pure; [apply preallocate_total|]. intros h1 _.
  assert (Hu : uses 0 s1 snd (contents_loop (Datatypes.S (src_fuel s1)) size h1 s1)).
  { eapply uses_contents; [lia|done|lia]. }
  destruct (contents_loop _ size h1 s1) as [[h2 s2]|]; [|done]. destruct Hu as [[c2 Hs2] Hf2]. cbn [rbind snd] in *.
  pose proof (decodes_padding (S := S) (Z.to_nat size)) as Hp. rewrite Z2Nat.id in Hp by lia.
  assert (Hu : uses 0 s2 snd (readPadding size s2)) by (eapply uses_decodes; [exact Hp|intros; apply Nat.le_0_l|done]).
  destruct (readPadding size s2) as [[u s3]|]; [|done]. destruct Hu as [Hs3 Hf3]. cbn [rbind snd] in *.
  split; [done|]. simpl. lia.
Qed.

Lemma uses_parse_regular h s c : delivers s c -> uses 1 s fst (parse_regular s h).
Proof.
  intros Hs. unfold parse_regular.
  eapply (uses_bind 1 0); [by eapply uses_getString| |lia]. intros [tag s1] c1 Hs1 _. simpl in Hs1.
  eapply (uses_bind 0 0 0 _ (fun r => r.2)); [| |lia].
  - simpl snd. case_bool_decide; [|split; [by exists c1|simpl; lia]].
    eapply (uses_bind 1 0); [by eapply uses_getString| |lia]. intros [s2' s2] c2 Hs2 _. simpl in Hs2 |- *.
    case_bool_decide; [|done]. apply uses_pure; [apply isExecutable_total|]. intros h1 _.
    eapply (uses_bind 1 0); [by eapply uses_getString| |lia]. intros [tag' s3] c3 Hs3 _. simpl in Hs3 |- *.
    split; [by exists c3|simpl; lia].
  - intros [[tag' h'] s2] c2 Hs2 _. simpl in Hs2 |- *.
    eapply (uses_bind 0 0 0 _ snd); [| |lia].
    + case_bool_decide; [by eapply uses_parseContents|split; [by exists c2|simpl; lia]].
    + intros [h3 s3] c3 Hs3 _. simpl in Hs3 |- *.
      eapply (uses_bind 1 0); [by eapply uses_expectTag| |lia]. intros [[] s4] c4 Hs4 _. simpl in Hs4 |- *.
      split; [by exists c4|simpl; lia].
Qed.

Lemma push_total p n : push p n <> Err OutOfFuel.
Proof. unfold push, assert_. by do 2 (case_match; simpl; [|done]). Qed.

Lemma case_hack_total b name names : case_hack b name names <> Err OutOfFuel.
Proof. unfold case_hack. repeat (case_match; try done). Qed.

Lemma uses_entries b (rec : bytes -> T -> S -> result (T * S)) path bound fuel names prev t s c :
  (forall p t s c, delivers s c -> src_fuel s < bound -> uses 1 s snd (rec p t s)) ->
  delivers s c -> src_fuel s < fuel -> src_fuel s < bound ->
  uses 1 s snd (parse_entries b rec path fuel names prev t s).
Proof.
  intros Hrec. revert names prev t s c. induction fuel as [|fuel IH]; intros names prev t s c Hs Hf Hb; [lia|].
  cbn [parse_entries].
  eapply (uses_bind 1 0); [by eapply uses_getString| |lia]. intros [tag s1] c1 Hs1 Hl1. simpl in Hs1, Hl1. cbn [snd fst].
  case_bool_decide; [split; [by exists c1|simpl; lia]|]. destruct (negb _); [done|].
  do 2 (eapply (uses_bind 1 0); [by eapply uses_expectTag| |lia]; intros [[] ?] ? ? ?; cbn [snd fst] in * ).
  eapply (uses_bind 1 0); [by eapply uses_getString| |lia]. intros [name s4] c4 Hs4 Hl4. simpl in Hs4, Hl4. cbn [snd fst].
  destruct (invalid_name name); [done|]. destruct (negb _); [done|].
  apply uses_pure; [apply case_hack_total|]. intros [real names'] _.
  eapply (uses_bind 1 0); [by eapply uses_expectTag| |lia]. intros [[] s5] c5 Hs5 Hl5. simpl in Hs5, Hl5. cbn [snd fst].
  apply uses_pure; [apply push_total|]. intros p _.
  eapply (uses_bind 1 0); [eapply Hrec; [done|lia]| |lia]. intros [t6 s6] c6 Hs6 Hl6. simpl in Hs6, Hl6. cbn [snd fst].
  eapply (uses_bind 1 0); [by eapply uses_expectTag| |lia]. intros [[] s7] c7 Hs7 Hl7. simpl in Hs7, Hl7. cbn [snd fst].
  eapply (uses_le 1); [|lia]. eapply IH; [done|lia|lia].
Qed.

Lemma uses_parse b fuel path t s c : delivers s c -> src_fuel s < fuel -> uses 1 s snd (parse b fuel path t s).
Proof.
  revert path t s c. induction fuel as [|fuel IH]; intros path t s c Hs Hf; [lia|]. cbn [parse].
  do 2 (eapply (uses_bind 1 0); [by eapply uses_expectTag| |lia]; intros [[] ?] ? ? ?; cbn [snd fst] in * ).
  eapply (uses_bind 1 0); [by eapply uses_getString| |lia]. intros [type s3] c3 Hs3 Hl3. simpl in Hs3, Hl3. cbn [snd fst].
  case_bool_decide; [|case_bool_decide; [|case_bool_decide; [|done]]].
  - unfold createRegularFile. rewrite rbind_assoc. apply uses_pure; [apply openRegular_total|]. intros [t1 h1] _.
    rewrite rbind_assoc. eapply (uses_bind 1 0); [by eapply uses_parse_regular| |lia].
    intros [s4 h4] c4 Hs4 Hl4. simpl in Hs4, Hl4. rewrite rbind_assoc.
    apply uses_pure; [apply closeRegular_total|]. intros t2 _. simpl. split; [by exists c4|simpl; lia].
  - apply uses_pure; [apply createDirectory_total|]. intros t1 _.
    eapply (uses_le 1); [|lia].
    eapply (uses_entries b (parse b fuel) path fuel (Datatypes.S (src_fuel s3)) [] [] t1); [|done|lia|lia].
    intros p t2 s2 c2 ? ?. by eapply IH.
  - eapply (uses_bind 1 0); [by eapply uses_expectTag| |lia]. intros [[] s4] c4 Hs4 Hl4. simpl in Hs4, Hl4. cbn [snd fst].
    eapply (uses_bind 1 0); [by eapply uses_getString| |lia]. intros [target s5] c5 Hs5 Hl5. simpl in Hs5, Hl5. cbn [snd fst].
    apply uses_pure; [apply createSymlink_total|]. intros t1 _.
    eapply (uses_bind 1 0); [by eapply uses_expectTag| |lia]. intros [[] s6] c6 Hs6 Hl6. simpl in Hs6, Hl6. cbn [snd fst].
    split; [by exists c6|simpl; lia].
Qed.
End parse_terminates.

(** The archive parser ends on every input, malicious ones included: from
    any source and into any sink, with the case hack or without, the fuel
    given by the length of the input is never exhausted. *)
Theorem parseDump_terminates {S T H} `{SourceLaws S} `{SinkTotal T H} (useCaseHack : bool) (t : T) (s : S) c :
  delivers s c -> parseDump useCaseHack t s <> Err OutOfFuel.
Proof.
  intros Hs. unfold parseDump.
  pose proof (decodes_string (S := S) (Z.of_nat (length narVersionMagic1)) ltac:(vm_compute; done)) as [Hd1 Hd2].
  destruct (Hd2 s c Hs) as [(v & c1 & Hv & ->)|[-> | ->]]; [|done|done].
  destruct (Hd1 v Hv s c1 Hs) as (s1 & -> & Hs1 & _). case_bool_decide; [|done].
  pose proof (uses_parse useCaseHack (Datatypes.S (src_fuel s1)) [slash] t s1 c1 Hs1 ltac:(lia)) as Hu.
  intros E. by rewrite E in Hu.
Qed.

Lemma parseDump_terminates_witness :
  parseDump true tt (StringSource_of (encs [narVersionMagic1; L "("; L "type"; L "directory"; L "entry"])) <> Err OutOfFuel.
Proof. eapply parseDump_terminates. split; [|reflexivity]. simpl; lia. Defined.
