(* ===== verification/Wire.v ===== *)
(** * Protocol serialisers (libstore/common-protocol.cc,
    length-prefixed-protocol-helper.hh, worker-protocol.cc, serve-protocol.cc,
    derivations.cc)

    [Serialise<T>] of the C++ code is a type class with a reader and a writer;
    [SerialiseLaws] states that they are inverse over every lawful source. *)

From S2P Require Import Prelude.
From S2P Require Import Containers.
From S2P Require Import Hash.
From S2P Require Import CanonPath.
From S2P Require Import StorePath.
From S2P Require Import ContentAddress.
From S2P Require Import DerivedPath.
From S2P Require Import Derivations.
From S2P Require Import ATerm.
From S2P Require Import Serialise.
From S2P Require Import Streams.
From S2P Require Import PathInfo.

(** The store directory, the experimental features and the negotiated
    protocol version a serialiser can see. *)
Record Conn := mkConn {
  cn_storeDir : bytes;
  cn_xp : xpSettings;
  cn_version : Z;
}.

Definition GET_PROTOCOL_MINOR (x : Z) : Z := Z.land x 255.
Definition minor_ge (conn : Conn) (n : Z) : bool := (n <=? GET_PROTOCOL_MINOR (cn_version conn))%Z.

Class Serialise (A : Type) := {
  ser_read : forall S (_ : Source S), Conn -> S -> result (A * S);
  ser_write : Conn -> A -> result (list bytes);
}.
Arguments ser_read {A _ S _}.

(** Writers in sequence. *)
Definition wseq (a b : result (list bytes)) : result (list bytes) :=
  let* x := a in let* y := b in Ok (x ++ y).
Infix "<<<" := wseq (at level 61, left associativity).

(** [conn.to << n] and [conn.to << s]. *)
Definition wnum (n : Z) : result (list bytes) := Ok (writeNum (u64 n)).
Definition wstr (s : bytes) : result (list bytes) := Ok (writeString s).

(** ** Protocol-agnostic serialisers *)

#[export] Instance string_serialise : Serialise bytes := {
  ser_read _ _ _ s := readString size_t_max s;
  ser_write _ str := wstr str;
}.

#[export] Instance StorePath_serialise : Serialise StorePath := {
  ser_read _ _ conn s :=
    let* (str, s) := readString size_t_max s in
    let* p := parseStorePath (cn_storeDir conn) str in Ok (p, s);
  ser_write conn p := wstr (printStorePath (cn_storeDir conn) p);
}.

#[export] Instance ContentAddress_serialise : Serialise ContentAddress := {
  ser_read _ _ conn s :=
    let* (str, s) := readString size_t_max s in
    let* ca := ContentAddress_parse (cn_xp conn) str in Ok (ca, s);
  ser_write conn ca := let* s := renderContentAddress (cn_xp conn) (Some ca) in wstr s;
}.

#[export] Instance opt_StorePath_serialise : Serialise (option StorePath) := {
  ser_read _ _ conn s :=
    let* (str, s) := readString size_t_max s in
    if bool_decide (str = []) then Ok (None, s)
    else let* p := parseStorePath (cn_storeDir conn) str in Ok (Some p, s);
  ser_write conn p :=
    wstr (match p with Some p => printStorePath (cn_storeDir conn) p | None => [] end);
}.

#[export] Instance opt_ContentAddress_serialise : Serialise (option ContentAddress) := {
  ser_read _ _ conn s :=
    let* (str, s) := readString size_t_max s in
    let* ca := ContentAddress_parseOpt (cn_xp conn) str in Ok (ca, s);
  ser_write conn ca :=
    match ca with
    | Some ca => let* s := renderContentAddress (cn_xp conn) (Some ca) in wstr s
    | None => wstr []
    end;
}.

(** *** Length-prefixed containers *)

Fixpoint wall {A} (w : A -> result (list bytes)) (l : list A) : result (list bytes) :=
  match l with
  | [] => Ok []
  | x :: l => w x <<< wall w l
  end.

Section containers.
Context {A B : Type} `{Serialise A} `{Serialise B}.

Definition vector_read {S} `{Source S} (conn : Conn) : S -> result (list A * S) :=
  read_times (fun l s => let* (x, s) := ser_read conn s in Ok (l ++ [x], s)) [].
Definition vector_write (conn : Conn) (l : list A) : result (list bytes) :=
  wnum (Z.of_nat (length l)) <<< wall (ser_write conn) l.

Definition set_read `{OrdKey A} {S} `{Source S} (conn : Conn) : S -> result (list A * S) :=
  read_times (fun l s => let* (x, s) := ser_read conn s in Ok (sset_insert x l, s)) [].
Definition set_write : Conn -> list A -> result (list bytes) := vector_write.

Definition map_read `{OrdKey A} {S} `{Source S} (conn : Conn) : S -> result (list (A * B) * S) :=
  read_times (fun m s =>
    let* (k, s) := ser_read conn s in
    let* (v, s) := ser_read conn s in
    Ok (smap_insert k v m, s)) [].
Definition map_write (conn : Conn) (m : list (A * B)) : result (list bytes) :=
  wnum (Z.of_nat (length m)) <<< wall (fun i => ser_write conn i.1 <<< ser_write conn i.2) m.

(** Tuples. *)
#[export] Instance pair_serialise : Serialise (A * B) := {
  ser_read _ _ conn s :=
    let* (a, s) := ser_read conn s in
    let* (b, s) := ser_read conn s in Ok ((a, b), s);
  ser_write conn p := ser_write conn p.1 <<< ser_write conn p.2;
}.
End containers.

(** ** Worker protocol *)

Inductive BuildMode := bmNormal | bmRepair | bmCheck.
Inductive TrustedFlag := NotTrusted | Trusted.
Definition uint8_max : Z := 255.
Definition int64_max : Z := 2 ^ 63 - 1.

#[export] Instance BuildMode_serialise : Serialise BuildMode := {
  ser_read _ _ _ s :=
    let* (temp, s) := readNum uint8_max s in
    if (temp =? 0)%Z then Ok (bmNormal, s)
    else if (temp =? 1)%Z then Ok (bmRepair, s)
    else if (temp =? 2)%Z then Ok (bmCheck, s)
    else throw Error;
  ser_write _ m := wnum (match m with bmNormal => 0 | bmRepair => 1 | bmCheck => 2 end);
}.

#[export] Instance TrustedFlag_serialise : Serialise (option TrustedFlag) := {
  ser_read _ _ _ s :=
    let* (temp, s) := readNum uint8_max s in
    if (temp =? 0)%Z then Ok (None, s)
    else if (temp =? 1)%Z then Ok (Some Trusted, s)
    else if (temp =? 2)%Z then Ok (Some NotTrusted, s)
    else throw Error;
  ser_write _ t := wnum (match t with None => 0 | Some Trusted => 1 | Some NotTrusted => 2 end);
}.

(** [std::optional<std::chrono::microseconds>], a signed 64-bit count. *)
#[export] Instance microseconds_serialise : Serialise (option Z) := {
  ser_read _ _ _ s :=
    let* (tag, s) := readNum uint8_max s in
    if (tag =? 0)%Z then Ok (None, s)
    else if (tag =? 1)%Z then let* (n, s) := readNum int64_max s in Ok (Some n, s)
    else throw Error;
  ser_write _ d := match d with None => wnum 0 | Some n => wnum 1 <<< wnum n end;
}.

Definition bool_max : Z := 1.

Definition worker_pathInfo_read {S} `{Source S} (conn : Conn) (s : S) : result (UnkeyedValidPathInfo * S) :=
  let* (deriver, s) := readString size_t_max s in
  let* (h, s) := readString size_t_max s in
  let* narHash := parseAny (cn_xp conn) h (Some SHA256) in
  let* deriver :=
    if bool_decide (deriver = []) then Ok None
    else let* p := parseStorePath (cn_storeDir conn) deriver in Ok (Some p) in
  let* (references, s) := set_read conn s in
  let* (registrationTime, s) := readNum int64_max s in
  let* (narSize, s) := readNum size_t_max s in
  if minor_ge conn 16 then
    let* (ultimate, s) := readNum bool_max s in
    let* (sigs, s) := readStringSet s in
    let* (c, s) := readString size_t_max s in
    let* ca := ContentAddress_parseOpt (cn_xp conn) c in
    Ok (mkPathInfo deriver narHash references registrationTime narSize (ultimate =? 1)%Z sigs ca, s)
  else Ok (mkPathInfo deriver narHash references registrationTime narSize false [] None, s).

Definition worker_pathInfo_write (conn : Conn) (info : UnkeyedValidPathInfo) : result (list bytes) :=
  wstr (match pi_deriver info with Some p => printStorePath (cn_storeDir conn) p | None => [] end)
  <<< (let* h := to_string (pi_narHash info) Base16 false in wstr h)
  <<< set_write conn (pi_references info)
  <<< wnum (pi_registrationTime info) <<< wnum (pi_narSize info)
  <<< (if minor_ge conn 16 then
         wnum (if pi_ultimate info then 1 else 0)
         <<< Ok (writeStrings (pi_sigs info))
         <<< (let* c := renderContentAddress (cn_xp conn) (pi_ca info) in wstr c)
       else Ok []).

#[export] Instance ValidPathInfo_serialise : Serialise (StorePath * UnkeyedValidPathInfo) := {
  ser_read _ _ conn s :=
    let* (path, s) := ser_read conn s in
    let* (info, s) := worker_pathInfo_read conn s in Ok ((path, info), s);
  ser_write conn p := ser_write conn p.1 <<< worker_pathInfo_write conn p.2;
}.

(** ** Serve protocol *)

Definition serve_pathInfo_read {S} `{Source S} (conn : Conn) (s : S) : result (UnkeyedValidPathInfo * S) :=
  let* dummy := Hash_dummy (cn_xp conn) in
  let* (d, s) := readString size_t_max s in
  let* deriver :=
    if bool_decide (d = []) then Ok None
    else let* p := parseStorePath (cn_storeDir conn) d in Ok (Some p) in
  let* (references, s) := set_read conn s in
  let* (_, s) := readLongLong s in
  let* (narSize, s) := readLongLong s in
  if minor_ge conn 4 then
    let* (h, s) := readString size_t_max s in
    let* narHash := if bool_decide (h = []) then Ok dummy else parseAnyPrefixed (cn_xp conn) h in
    let* (c, s) := readString size_t_max s in
    let* ca := ContentAddress_parseOpt (cn_xp conn) c in
    let* (sigs, s) := readStringSet s in
    Ok (mkPathInfo deriver narHash references 0 narSize false sigs ca, s)
  else Ok (mkPathInfo deriver dummy references 0 narSize false [] None, s).

Definition serve_pathInfo_write (conn : Conn) (info : UnkeyedValidPathInfo) : result (list bytes) :=
  wstr (match pi_deriver info with Some p => printStorePath (cn_storeDir conn) p | None => [] end)
  <<< set_write conn (pi_references info)
  <<< wnum (pi_narSize info) <<< wnum (pi_narSize info)
  <<< (if minor_ge conn 4 then
         (let* h := to_string (pi_narHash info) Nix32 true in wstr h)
         <<< (let* c := renderContentAddress (cn_xp conn) (pi_ca info) in wstr c)
         <<< Ok (writeStrings (pi_sigs info))
       else Ok []).

Record BuildOptions := mkBuildOptions {
  bo_maxSilentTime : Z;
  bo_buildTimeout : Z;
  bo_maxLogSize : Z;
  bo_nrRepeats : Z;
  bo_enforceDeterminism : bool;
  bo_keepFailed : bool;
}.

(** Fields that an old peer does not send keep their initial value -1, which is
    the maximum of [size_t] and [true] for a [bool]. *)
Definition BuildOptions_read {S} `{Source S} (conn : Conn) (s : S) : result (BuildOptions * S) :=
  let* (maxSilentTime, s) := readInt s in
  let* (buildTimeout, s) := readInt s in
  let* (maxLogSize, s) := if minor_ge conn 2 then readNum size_t_max s else Ok (size_t_max, s) in
  let* (nrRepeats, enforceDeterminism, s) :=
    if minor_ge conn 3 then
      let* (a, s) := readInt s in let* (b, s) := readInt s in Ok (a, negb (b =? 0)%Z, s)
    else Ok (size_t_max, true, s) in
  let* (keepFailed, s) :=
    if minor_ge conn 7 then let* (k, s) := readInt s in Ok (negb (k =? 0)%Z, s) else Ok (true, s) in
  Ok (mkBuildOptions maxSilentTime buildTimeout maxLogSize nrRepeats enforceDeterminism keepFailed, s).

Definition BuildOptions_write (conn : Conn) (o : BuildOptions) : result (list bytes) :=
  wnum (bo_maxSilentTime o) <<< wnum (bo_buildTimeout o)
  <<< (if minor_ge conn 2 then wnum (bo_maxLogSize o) else Ok [])
  <<< (if minor_ge conn 3 then wnum (bo_nrRepeats o) <<< wnum (if bo_enforceDeterminism o then 1 else 0) else Ok [])
  <<< (if minor_ge conn 7 then wnum (if bo_keepFailed o then 1 else 0) else Ok []).

(** ** Derivations on the wire (derivations.cc) *)

Section derivation.
Context `{Digest} (conn : Conn).

Definition readDerivationOutput {S} `{Source S} (s : S) : result (DerivationOutput * S) :=
  let* (pathS, s) := readString size_t_max s in
  let* (hashAlgo, s) := readString size_t_max s in
  let* (hash, s) := readString size_t_max s in
  let* o := parseDerivationOutput (cn_storeDir conn) (cn_xp conn) pathS hashAlgo hash in
  Ok (o, s).

Definition readDerivation {S} `{Source S} (name : bytes) (s : S) : result (BasicDerivation * S) :=
  let* (outs, s) := read_times (fun m s =>
    let* (n, s) := readString size_t_max s in
    let* (o, s) := readDerivationOutput s in
    Ok (smap_emplace n o m, s)) [] s in
  let* (srcs, s) := set_read conn s in
  let* (platform, s) := readString size_t_max s in
  let* (builder, s) := readString size_t_max s in
  let* (args, s) := readStrings s in
  let* (env, s) := read_times (fun m s =>
    let* (key, s) := readString size_t_max s in
    let* (value, s) := readString size_t_max s in
    Ok (smap_insert key value m, s)) [] s in
  Ok (mkBasicDerivation outs srcs platform builder args env name, s).

(** The three strings of an output. *)
Definition write_output (name : bytes) (i : bytes * DerivationOutput) : result (list bytes) :=
  wstr i.1 <<<
  match i.2 with
  | DerivationOutput.InputAddressed path => wstr (printStorePath (cn_storeDir conn) path) <<< wstr [] <<< wstr []
  | DerivationOutput.CAFixed ca =>
      (let* p := CAFixed_path (cn_xp conn) (cn_storeDir conn) ca name i.1 in wstr (printStorePath (cn_storeDir conn) p))
      <<< (let* ma := printMethodAlgo (cn_xp conn) ca in wstr ma)
      <<< (let* h := to_string (ca_hash ca) Base16 false in wstr h)
  | DerivationOutput.CAFloating method hashAlgo =>
      wstr [] <<< (let* p := caMethod_renderPrefix (cn_xp conn) method in wstr (p ++ printHashAlgo hashAlgo)) <<< wstr []
  | DerivationOutput.Deferred => wstr [] <<< wstr [] <<< wstr []
  | DerivationOutput.Impure method hashAlgo =>
      wstr [] <<< (let* p := caMethod_renderPrefix (cn_xp conn) method in wstr (p ++ printHashAlgo hashAlgo))
      <<< wstr (L "impure")
  end.

Definition writeDerivation (d : BasicDerivation) : result (list bytes) :=
  wnum (Z.of_nat (length (outputs d))) <<< wall (write_output (drv_name d)) (outputs d)
  <<< set_write conn (inputSrcs d)
  <<< wstr (platform d) <<< wstr (builder d) <<< Ok (writeStrings (args d))
  <<< wnum (Z.of_nat (length (env d))) <<< wall (fun i => wstr i.1 <<< wstr i.2) (env d).
End derivation.

(** ** Laws *)

Lemma fits_app a b : fits (a ++ b) -> fits a /\ fits b.
Proof. unfold fits. rewrite length_app. lia. Qed.

Lemma wseq_Ok a b calls :
  a <<< b = Ok calls <-> exists x y, a = Ok x /\ b = Ok y /\ calls = x ++ y.
Proof.
  unfold wseq. rewrite rbind_Ok. split.
  - intros (x & Hx & Hy). apply rbind_Ok in Hy as (y & Hy & [= <-]). eauto.
  - intros (x & y & -> & -> & ->). eauto.
Qed.

Lemma wseq_assoc a b c : a <<< (b <<< c) = a <<< b <<< c.
Proof. unfold wseq. destruct a, b, c; cbn [rbind]; try done. by rewrite app_assoc. Qed.

Lemma wseq_nil_r a : a <<< Ok [] = a.
Proof. unfold wseq. destruct a; cbn [rbind]; [by rewrite app_nil_r|done]. Qed.

(** What a value is on the wire. *)
Definition on_wire (r : result (list bytes)) : bytes := match r with Ok calls => concat calls | Err _ => [] end.

Section carries.
Context {S : Type} `{SourceLaws S}.

(** [carries w r a]: if the writer [w] succeeds, the reader [r] returns [a]
    from what was written and consumes all of it. *)
Definition carries {A} (w : result (list bytes)) (r : S -> result (A * S)) (a : A) : Prop :=
  forall calls, w = Ok calls -> fits (concat calls) -> reads r a (concat calls).

Lemma carries_ret {A} (a : A) : carries (Ok []) (fun s => Ok (a, s)) a.
Proof. intros calls [= <-] _. apply reads_ret. Qed.

Lemma carries_seq {A B} w1 w2 (r : S -> result (A * S)) (k : A -> S -> result (B * S)) a b :
  carries w1 r a -> carries w2 (k a) b -> carries (w1 <<< w2) (fun s => let* (x, s) := r s in k x s) b.
Proof.
  intros H1 H2 calls. rewrite wseq_Ok. intros (x & y & Hx & Hy & ->). rewrite concat_app.
  intros [Hfx Hfy]%fits_app. apply (reads_bind _ _ a); auto.
Qed.

(** The last part of a message. *)
Lemma carries_last {A B} w (r : S -> result (A * S)) (k : A -> S -> result (B * S)) a b :
  carries w r a -> carries (Ok []) (k a) b -> carries w (fun s => let* (x, s) := r s in k x s) b.
Proof. intros H1 H2. rewrite <- (wseq_nil_r w). by apply (carries_seq _ _ _ _ a). Qed.

(** A computation between two reads, and one before a write. *)
Lemma carries_check {A B} w (r : result A) (k : A -> S -> result (B * S)) a b :
  r = Ok a -> carries w (k a) b -> carries w (fun s => let* x := r in k x s) b.
Proof. by intros -> Hk. Qed.

Lemma carries_computed {A B} (c : result A) (w : A -> result (list bytes)) (r : S -> result (B * S)) b :
  (forall x, c = Ok x -> carries (w x) r b) -> carries (let* x := c in w x) r b.
Proof. intros Hc calls Hw. apply rbind_Ok in Hw as (x & Hx & Hw). by apply (Hc x). Qed.

Lemma carries_str d : carries (wstr d) (readString size_t_max) d.
Proof.
  intros calls [= <-] Hf. change (concat (writeString d)) with (encString d) in *.
  apply decodes_string; [unfold size_t_max; lia|].
  rewrite encString_eq in Hf. apply fits_app in Hf as [_ Hf]. by apply fits_app in Hf as [Hf _].
Qed.

Lemma carries_num max n : (0 <= max < 2 ^ 64)%Z -> (0 <= n <= max)%Z -> carries (wnum n) (readNum max) n.
Proof.
  intros Hmax Hn calls [= <-] Hf. unfold u64. rewrite Z.mod_small by lia.
  change (concat (writeNum n)) with (encNum n). by apply decodes_num.
Qed.

Lemma carries_parse {A} (f : bytes -> result A) d a :
  f d = Ok a ->
  carries (wstr d) (fun s => let* (str, s) := readString size_t_max s in let* x := f str in Ok (x, s)) a.
Proof.
  intros Hd. apply (carries_last _ _ _ d); [apply carries_str|].
  apply (carries_check _ _ _ a); [done|apply carries_ret].
Qed.

Lemma wall_wire {A} (w : A -> result (list bytes)) l calls :
  wall w l = Ok calls ->
  concat calls = concat ((fun x => on_wire (w x)) <$> l) /\ Forall (fun x => exists c, w x = Ok c) l.
Proof.
  revert calls. induction l as [|x l IH]; intros calls; cbn [wall].
  { intros [= <-]. done. }
  rewrite wseq_Ok. intros (cx & cl & Hx & Hl & ->). destruct (IH _ Hl) as [IH1 IH2].
  rewrite fmap_cons, concat_cons, concat_app, IH1. cbn beta. rewrite Hx. split; [done|]. constructor; eauto.
Qed.

Lemma concat_elem_fits {A} (g : A -> bytes) l x : x ∈ l -> fits (concat (g <$> l)) -> fits (g x).
Proof.
  induction l as [|y l IH]; [by rewrite elem_of_nil|]. rewrite elem_of_cons, fmap_cons, concat_cons.
  intros [->|Hx] Hf; apply fits_app in Hf as [? ?]; auto.
Qed.

(** A writer that never writes nothing. *)
Definition nonempty (w : result (list bytes)) : Prop := forall calls, w = Ok calls -> concat calls <> [].

Lemma nonempty_str d : nonempty (wstr d).
Proof. intros calls [= <-]. apply (encString_nonempty d). Qed.

Lemma nonempty_seq w1 w2 : nonempty w1 -> nonempty (w1 <<< w2).
Proof.
  intros H1 calls. rewrite wseq_Ok. intros (x & y & Hx & _ & ->). rewrite concat_app.
  specialize (H1 _ Hx). by destruct (concat x).
Qed.

Lemma nonempty_computed {A} (c : result A) (w : A -> result (list bytes)) :
  (forall x, nonempty (w x)) -> nonempty (let* x := c in w x).
Proof. intros Hw calls Hc. apply rbind_Ok in Hc as (x & _ & Hc). by eapply Hw. Qed.

(** A counted sequence of elements. *)
Lemma carries_times {A B} (elem : B -> S -> result (B * S)) (f : B -> A -> B) (w : A -> result (list bytes)) l acc :
  (forall b x, x ∈ l -> carries (w x) (elem b) (f b x)) -> (forall x, nonempty (w x)) ->
  carries (wnum (Z.of_nat (length l)) <<< wall w l) (read_times elem acc) (foldl f acc l).
Proof.
  intros Helem Hne calls. rewrite wseq_Ok. intros (x & y & [= <-] & Hy & ->).
  rewrite concat_app. intros [_ Hf]%fits_app.
  destruct (wall_wire _ _ _ Hy) as [E Hok]. rewrite E in Hf |- *. rewrite Forall_forall in Hok.
  assert (He : forall b x, x ∈ l -> reads (elem b) (f b x) (on_wire (w x))).
  { intros b z Hz. pose proof (concat_elem_fits _ _ _ Hz Hf) as Hfz. cbn beta in Hfz.
    destruct (Hok _ Hz) as [c Hc]. rewrite Hc in *. by apply Helem. }
  assert (Hn : Forall (fun x => on_wire (w x) <> []) l).
  { apply Forall_forall. intros z Hz. destruct (Hok _ Hz) as [c Hc]. rewrite Hc. by apply (Hne z). }
  assert (Hl : (Z.of_nat (length l) <= size_t_max)%Z).
  { pose proof (concat_nonempty_length (fun x => on_wire (w x)) l Hn). unfold fits in Hf. lia. }
  change (concat (writeNum (u64 (Z.of_nat (length l))))) with (encNum (u64 (Z.of_nat (length l)))).
  replace (u64 (Z.of_nat (length l))) with (Z.of_nat (length l)).
  - by apply (reads_times elem (fun x => on_wire (w x)) f).
  - unfold u64, size_t_max in *. rewrite Z.mod_small; lia.
Qed.
End carries.

(** A serialiser whose reader inverts its writer on the values that satisfy
    [ser_ok], over every lawful source. *)
Class SerialiseLaws (A : Type) `{Serialise A} := {
  ser_ok : Conn -> A -> Prop;
  ser_carries : forall (S : Type) (src : Source S) (laws : @SourceLaws S src) conn (a : A),
    ser_ok conn a -> @carries S src laws A (ser_write conn a) (ser_read conn) a;
  ser_nonempty : forall conn (a : A), nonempty (ser_write conn a);
}.

(** A store path that survives being printed and parsed on a connection. *)
Definition path_ok (conn : Conn) (p : StorePath) : Prop := CanonPath_wf (cn_storeDir conn) /\ store_path_ok p.

Lemma print_nonempty conn p : CanonPath_wf (cn_storeDir conn) -> printStorePath (cn_storeDir conn) p <> [].
Proof. intros Hw E. pose proof (printStorePath_absolute (cn_storeDir conn) Hw p) as Ha. by rewrite E in Ha. Qed.

(** The deriver field: the empty string stands for none. *)
Definition opt_path_text (conn : Conn) (p : option StorePath) : bytes :=
  match p with Some p => printStorePath (cn_storeDir conn) p | None => [] end.

Lemma parse_opt_path conn p :
  (forall q, p = Some q -> path_ok conn q) ->
  (if bool_decide (opt_path_text conn p = []) then Ok None
   else let* q := parseStorePath (cn_storeDir conn) (opt_path_text conn p) in Ok (Some q)) = Ok p.
Proof.
  intros Hp. destruct p as [q|]; cbn [opt_path_text]; [|done]. destruct (Hp q eq_refl) as [Hw Hq].
  rewrite bool_decide_false by by apply print_nonempty. by rewrite parseStorePath_ok.
Qed.

#[export, refine] Instance string_laws : SerialiseLaws bytes := {| ser_ok _ _ := True |}.
Proof.
  - intros. apply carries_str.
  - intros. apply nonempty_str.
Defined.

#[export, refine] Instance StorePath_laws : SerialiseLaws StorePath := {| ser_ok := path_ok |}.
Proof.
  - intros S src laws conn p [Hw Hp]. apply (carries_parse (parseStorePath (cn_storeDir conn))).
    by apply parseStorePath_ok.
  - intros. apply nonempty_str.
Defined.

#[export, refine] Instance ContentAddress_laws : SerialiseLaws ContentAddress := {| ser_ok conn := ca_ok (cn_xp conn) |}.
Proof.
  - intros S src laws conn ca Hca. apply carries_computed. intros str Hs.
    destruct (ContentAddress_parse_render _ _ Hca) as (s' & Hs' & Hp & _).
    assert (str = s') as -> by (cbn [renderContentAddress] in Hs; congruence).
    by apply (carries_parse (ContentAddress_parse (cn_xp conn))).
  - intros. apply nonempty_computed. intros. apply nonempty_str.
Defined.

#[export, refine] Instance opt_StorePath_laws : SerialiseLaws (option StorePath) :=
  {| ser_ok conn p := forall q, p = Some q -> path_ok conn q |}.
Proof.
  - intros S src laws conn p Hp. apply (carries_last _ _ _ (opt_path_text conn p)); [apply carries_str|].
    intros calls [= <-] _ s c Hs. exists s. cbn [app length concat] in *. split; [|split; [done|lia]].
    pose proof (parse_opt_path conn p Hp) as Hq. destruct (bool_decide _); [congruence|].
    by destruct (parseStorePath _ _); cbn [rbind] in *; [injection Hq as <-|].
  - intros. apply nonempty_str.
Defined.

#[export, refine] Instance opt_ContentAddress_laws : SerialiseLaws (option ContentAddress) :=
  {| ser_ok conn ca := forall c, ca = Some c -> ca_ok (cn_xp conn) c |}.
Proof.
  - intros S src laws conn ca Hca.
    assert (E : ser_write conn ca = let* s := renderContentAddress (cn_xp conn) ca in wstr s) by by destruct ca.
    rewrite E. apply carries_computed. intros str Hs.
    apply (carries_parse (ContentAddress_parseOpt (cn_xp conn))). by apply parseOpt_render.
  - intros conn [ca|]; [|apply nonempty_str]. apply nonempty_computed. intros. apply nonempty_str.
Defined.

(** ** Containers and tuples *)

Section container_laws.
Context {A B : Type} {serA : Serialise A} {lawsA : @SerialiseLaws A serA}.
Context {serB : Serialise B} {lawsB : @SerialiseLaws B serB}.
Context {S : Type} `{SourceLaws S}.

Lemma carries_vector conn (l : list A) :
  Forall (ser_ok conn) l -> carries (S := S) (vector_write conn l) (vector_read conn) l.
Proof.
  intros Hok. change l with ([] ++ l) at 2. rewrite <- (foldl_snoc l []).
  apply (carries_times (fun b s => let* (x, s) := ser_read conn s in Ok (b ++ [x], s))); [|apply ser_nonempty].
  intros b x Hx. apply (carries_last _ _ _ x); [|apply carries_ret].
  rewrite Forall_forall in Hok. by apply ser_carries, Hok.
Qed.

Lemma carries_set `{OrdKey A} conn (l : list A) :
  sset_wf l -> Forall (ser_ok conn) l -> carries (S := S) (set_write conn l) (set_read conn) l.
Proof.
  intros Hwf Hok. rewrite <- (sset_of_list_sorted l Hwf) at 2.
  apply (carries_times (fun b s => let* (x, s) := ser_read conn s in Ok (sset_insert x b, s))
    (fun b x => sset_insert x b)); [|apply ser_nonempty].
  intros b x Hx. apply (carries_last _ _ _ x); [|apply carries_ret].
  rewrite Forall_forall in Hok. by apply ser_carries, Hok.
Qed.

Lemma carries_map `{OrdKey A} conn (m : list (A * B)) :
  smap_wf m -> Forall (fun kv => ser_ok conn kv.1 /\ ser_ok conn kv.2) m ->
  carries (S := S) (map_write conn m) (map_read conn) m.
Proof.
  intros Hwf Hok. change m with ([] ++ m) at 2. rewrite <- (smap_inserts_sorted [] m Hwf).
  apply (carries_times (fun b s => let* (k, s) := ser_read conn s in let* (v, s) := ser_read conn s in
    Ok (smap_insert k v b, s)) (fun b kv => smap_insert kv.1 kv.2 b)).
  - intros b [k v] Hx. rewrite Forall_forall in Hok. destruct (Hok _ Hx).
    apply (carries_seq _ _ _ _ k); [by apply ser_carries|].
    apply (carries_last _ _ _ v); [by apply ser_carries|apply carries_ret].
  - intros [k v]. apply nonempty_seq, ser_nonempty.
Qed.
End container_laws.

(** ** Whole messages *)

Section messages.
Context {S : Type} `{SourceLaws S}.

Lemma carries_strings ss : carries (S := S) (Ok (writeStrings ss)) readStrings ss.
Proof.
  intros calls [= <-] Hf. change (concat (writeStrings ss)) with (encStrings ss) in *.
  apply decodes_strings. rewrite encStrings_eq in Hf. apply fits_app in Hf as [_ Hf]. split.
  - apply Forall_forall. intros x Hx. pose proof (concat_elem_fits encString _ _ Hx Hf) as Hx'.
    rewrite encString_eq in Hx'. apply fits_app in Hx' as [_ Hx']. by apply fits_app in Hx' as [Hx' _].
  - pose proof (concat_nonempty_length encString ss) as Hl. unfold fits in Hf.
    rewrite Forall_forall in Hl. specialize (Hl (fun x _ => encString_nonempty x)). lia.
Qed.

Lemma wall_strings ss : wall wstr ss = Ok (concat (writeString <$> ss)).
Proof. induction ss as [|x ss IH]; [done|]. cbn [wall]. by rewrite IH. Qed.

(** A sorted set of strings, read one by one into a set. *)
Lemma carries_string_set ss : sset_wf ss -> carries (S := S) (Ok (writeStrings ss)) readStringSet ss.
Proof.
  intros Hwf calls [= <-] Hf.
  assert (Hl : (Z.of_nat (length ss) <= size_t_max)%Z).
  { change (concat (writeStrings ss)) with (encStrings ss) in Hf. rewrite encStrings_eq in Hf.
    apply fits_app in Hf as [_ Hf]. pose proof (concat_nonempty_length encString ss) as Hl. unfold fits in Hf.
    rewrite Forall_forall in Hl. specialize (Hl (fun x _ => encString_nonempty x)). lia. }
  refine (_ (carries_times (S := S) (fun b s => let* (x, s) := readString size_t_max s in Ok (sset_insert x b, s))
    (fun b x => sset_insert x b) wstr ss [] _ nonempty_str (writeStrings ss) _ Hf)).
  - change (foldl _ [] ss) with (sset_of_list ss). by rewrite sset_of_list_sorted.
  - intros b x _. apply (carries_last _ _ _ x); [apply carries_str|apply carries_ret].
  - unfold wnum, wseq. rewrite wall_strings. cbn [rbind]. unfold writeStrings, u64, size_t_max in *.
    by rewrite Z.mod_small by lia.
Qed.

Section derivation_laws.
Context `{Digest} (conn : Conn).

(** A basic derivation the wire format can carry. *)
Record BasicDerivation_wf (d : BasicDerivation) : Prop := {
  bwf_outputs : smap_wf (outputs d);
  bwf_outputs_ok : Forall (fun i => output_wf (cn_xp conn) i.2) (outputs d);
  bwf_inputSrcs : sset_wf (inputSrcs d);
  bwf_inputSrcs_ok : Forall store_path_ok (inputSrcs d);
  bwf_env : smap_wf (env d);
}.

(** The output strings are the ones of the textual form. *)
Lemma write_output_strings name i :
  write_output conn name i =
  let* (ph, h) := output_strings (cn_xp conn) (cn_storeDir conn) false name i.1 i.2 in
  wstr i.1 <<< wstr ph.1 <<< wstr ph.2 <<< wstr h.
Proof.
  unfold write_output, output_strings. destruct i.2 as [p|ca|m a| |m a]; cbn [rbind fst snd]; rewrite ?wseq_assoc.
  - done.
  - unfold wseq. destruct (CAFixed_path _ _ _ _ _); [|done]. cbn [rbind].
    destruct (printMethodAlgo _ _); [|done]. cbn [rbind]. by destruct (to_string _ _ _).
  - unfold wseq. by destruct (caMethod_renderPrefix _ _).
  - done.
  - unfold wseq. by destruct (caMethod_renderPrefix _ _).
Qed.

Lemma carries_output name i m :
  CanonPath_wf (cn_storeDir conn) -> output_wf (cn_xp conn) i.2 ->
  carries (S := S) (write_output conn name i)
    (fun s => let* (n, s) := readString size_t_max s in
              let* (o, s) := readDerivationOutput conn s in Ok (smap_emplace n o m, s))
    (smap_emplace i.1 i.2 m).
Proof.
  intros Hdir Hwf. rewrite write_output_strings. apply carries_computed. intros [[p a] h] Ho. cbn [fst snd].
  destruct (output_strings_parse (cn_storeDir conn) (cn_xp conn) Hdir _ _ _ _ _ _ Hwf Ho) as [Hp _].
  rewrite <- !wseq_assoc. apply (carries_seq _ _ _ _ i.1); [apply carries_str|].
  apply (carries_last _ _ _ i.2); [|apply carries_ret]. unfold readDerivationOutput.
  apply (carries_seq _ _ _ _ p); [apply carries_str|]. apply (carries_seq _ _ _ _ a); [apply carries_str|].
  apply (carries_last _ _ _ h); [apply carries_str|]. by apply (carries_check _ _ _ i.2); [|apply carries_ret].
Qed.

Lemma carries_derivation d :
  CanonPath_wf (cn_storeDir conn) -> BasicDerivation_wf d ->
  carries (S := S) (writeDerivation conn d) (readDerivation conn (drv_name d)) d.
Proof.
  intros Hdir []. unfold writeDerivation, readDerivation. rewrite <- !wseq_assoc, (wseq_assoc (wnum _) (wall _ _)).
  rewrite Forall_forall in bwf_outputs_ok0.
  apply (carries_seq _ _ _ _ (outputs d)).
  { rewrite <- (emplaces_sorted [] (outputs d) bwf_outputs0) at 3.
    apply (carries_times _ (fun m i => smap_emplace i.1 i.2 m)).
    - intros m i Hi. by apply carries_output; [|apply bwf_outputs_ok0].
    - intros i. unfold write_output. apply nonempty_seq, nonempty_str. }
  apply (carries_seq _ _ _ _ (inputSrcs d)).
  { apply carries_set; [done|]. eapply Forall_impl; [done|]. by intros p Hp. }
  apply (carries_seq _ _ _ _ (platform d)); [apply carries_str|].
  apply (carries_seq _ _ _ _ (builder d)); [apply carries_str|].
  apply (carries_seq _ _ _ _ (args d)); [apply carries_strings|].
  apply (carries_last _ _ _ (env d)); [|destruct d; apply carries_ret].
  rewrite <- (smap_inserts_sorted [] (env d) bwf_env0) at 3.
  apply (carries_times _ (fun m i => smap_insert i.1 i.2 m)).
  - intros m i _. apply (carries_seq _ _ _ _ i.1); [apply carries_str|].
    apply (carries_last _ _ _ i.2); [apply carries_str|apply carries_ret].
  - intros i. apply nonempty_seq, nonempty_str.
Qed.
End derivation_laws.

Lemma to_string_prefix_nonempty h f s : to_string h f true = Ok s -> s <> [].
Proof.
  unfold to_string. rewrite orb_true_r. intros Hs ->.
  destruct f; [|apply rbind_Ok in Hs as (b & _ & Hs)| |]; by destruct (algo h).
Qed.

(** A path info the protocols can carry. *)
Record path_info_ok (conn : Conn) (info : UnkeyedValidPathInfo) : Prop := {
  pio_deriver : forall p, pi_deriver info = Some p -> path_ok conn p;
  pio_narHash : Hash_regular (pi_narHash info) /\ algo (pi_narHash info) = SHA256;
  pio_references : sset_wf (pi_references info) /\ Forall (path_ok conn) (pi_references info);
  pio_time : (0 <= pi_registrationTime info <= int64_max)%Z;
  pio_narSize : (0 <= pi_narSize info <= size_t_max)%Z;
  pio_sigs : sset_wf (pi_sigs info);
  pio_ca : forall ca, pi_ca info = Some ca -> ca_ok (cn_xp conn) ca;
}.

(** What a peer learns: worker connections before 1.16 do not send trust
    information; serve connections never send the registration time and the
    ultimate flag, and before 2.4 not even the hash. *)
Definition worker_view (conn : Conn) (info : UnkeyedValidPathInfo) : UnkeyedValidPathInfo :=
  if minor_ge conn 16 then info
  else mkPathInfo (pi_deriver info) (pi_narHash info) (pi_references info) (pi_registrationTime info)
         (pi_narSize info) false [] None.
Definition serve_view (conn : Conn) (info : UnkeyedValidPathInfo) : UnkeyedValidPathInfo :=
  if minor_ge conn 4
  then mkPathInfo (pi_deriver info) (pi_narHash info) (pi_references info) 0 (pi_narSize info) false (pi_sigs info) (pi_ca info)
  else mkPathInfo (pi_deriver info) dummy_hash (pi_references info) 0 (pi_narSize info) false [] None.

Lemma carries_ca {B} conn (o : option ContentAddress) (k : option ContentAddress -> S -> result (B * S)) w b :
  (forall ca, o = Some ca -> ca_ok (cn_xp conn) ca) -> carries w (k o) b ->
  carries ((let* c := renderContentAddress (cn_xp conn) o in wstr c) <<< w)
    (fun s => let* (c, s) := readString size_t_max s in
              let* ca := ContentAddress_parseOpt (cn_xp conn) c in k ca s) b.
Proof.
  intros Hok Hk. destruct (renderContentAddress (cn_xp conn) o) as [c|f] eqn:Ec; [|done]. cbn [rbind].
  apply (carries_seq _ _ _ _ c); [apply carries_str|].
  apply (carries_check _ _ _ o); [by apply parseOpt_render|done].
Qed.

Lemma carries_worker_info conn info :
  path_info_ok conn info ->
  carries (S := S) (worker_pathInfo_write conn info) (worker_pathInfo_read conn) (worker_view conn info).
Proof.
  intros [Hd [Hreg Ha] [Hrs Hr] Ht Hn Hs Hca]. unfold worker_pathInfo_write, worker_pathInfo_read, worker_view.
  rewrite <- !wseq_assoc.
  apply (carries_seq _ _ _ _ (opt_path_text conn (pi_deriver info))); [apply carries_str|].
  destruct (to_string (pi_narHash info) Base16 false) as [h|f] eqn:Eh; [|done]. cbn [rbind].
  apply (carries_seq _ _ _ _ h); [apply carries_str|].
  apply (carries_check _ _ _ (pi_narHash info)).
  { eapply parseAny_text; [done| |left; by rewrite Ha|done]. unfold algo_enabled. by rewrite Ha. }
  apply (carries_check _ _ _ (pi_deriver info)); [by apply parse_opt_path|].
  apply (carries_seq _ _ _ _ (pi_references info)); [by apply carries_set|].
  apply (carries_seq _ _ _ _ (pi_registrationTime info)); [by apply carries_num|].
  apply (carries_seq _ _ _ _ (pi_narSize info)); [by apply carries_num|].
  destruct (minor_ge conn 16); [|apply carries_ret]. rewrite <- ?wseq_assoc.
  apply (carries_seq _ _ _ _ (if pi_ultimate info then 1 else 0)%Z); [by destruct (pi_ultimate info); apply carries_num|].
  apply (carries_seq _ _ _ _ (pi_sigs info)); [by apply carries_string_set|].
  rewrite <- (wseq_nil_r (let* c := renderContentAddress _ _ in wstr c)).
  apply carries_ca; [done|]. destruct info as [? ? ? ? ? [] ? ?]; apply carries_ret.
Qed.

Lemma carries_serve_info conn info :
  path_info_ok conn info ->
  carries (S := S) (serve_pathInfo_write conn info) (serve_pathInfo_read conn) (serve_view conn info).
Proof.
  intros [Hd [Hreg Ha] [Hrs Hr] Ht Hn Hs Hca]. unfold serve_pathInfo_write, serve_pathInfo_read, serve_view.
  rewrite <- !wseq_assoc.
  apply (carries_check _ _ _ dummy_hash); [done|].
  apply (carries_seq _ _ _ _ (opt_path_text conn (pi_deriver info))); [apply carries_str|].
  apply (carries_check _ _ _ (pi_deriver info)); [by apply parse_opt_path|].
  apply (carries_seq _ _ _ _ (pi_references info)); [by apply carries_set|].
  apply (carries_seq _ _ _ _ (pi_narSize info)); [by apply carries_num|].
  apply (carries_seq _ _ _ _ (pi_narSize info)); [by apply carries_num|].
  destruct (minor_ge conn 4); [|apply carries_ret]. rewrite <- ?wseq_assoc.
  destruct (to_string (pi_narHash info) Nix32 true) as [h|f] eqn:Eh; [|done]. cbn [rbind].
  apply (carries_seq _ _ _ _ h); [apply carries_str|].
  apply (carries_check _ _ _ (pi_narHash info)).
  { pose proof Eh as E'. apply to_string_prefix_nonempty in E'. rewrite bool_decide_false by done.
    eapply parseAnyPrefixed_text; [done| |by right|done]. unfold algo_enabled. by rewrite Ha. }
  apply carries_ca; [done|].
  apply (carries_last _ _ _ (pi_sigs info)); [by apply carries_string_set|apply carries_ret].
Qed.
End messages.

(** [ValidPathInfo]: the path followed by the rest. *)
Lemma carries_ValidPathInfo {S} `{SourceLaws S} conn p info :
  path_ok conn p -> path_info_ok conn info ->
  carries (S := S) (ser_write conn (p, info)) (ser_read conn) (p, worker_view conn info).
Proof.
  intros Hp Hi. apply (carries_seq _ _ _ _ p); [by apply (ser_carries (A := StorePath))|].
  apply (carries_last _ _ _ (worker_view conn info)); [by apply carries_worker_info|apply carries_ret].
Qed.

#[export, refine] Instance BuildMode_laws : SerialiseLaws BuildMode := {| ser_ok _ _ := True |}.
Proof.
  - intros S src laws conn m _. destruct m; (eapply carries_last; [by apply carries_num|apply carries_ret]).
  - by intros conn m calls [= <-].
Defined.

#[export, refine] Instance TrustedFlag_laws : SerialiseLaws (option TrustedFlag) := {| ser_ok _ _ := True |}.
Proof.
  - intros S src laws conn t _. destruct t as [[]|]; (eapply carries_last; [by apply carries_num|apply carries_ret]).
  - by intros conn t calls [= <-].
Defined.

#[export, refine] Instance microseconds_laws : SerialiseLaws (option Z) :=
  {| ser_ok _ d := forall n, d = Some n -> (0 <= n <= int64_max)%Z |}.
Proof.
  - intros S src laws conn [n|] Hd.
    + apply (carries_seq _ _ _ _ 1%Z); [by apply carries_num|].
      apply (carries_last _ _ _ n); [|apply carries_ret]. apply carries_num; [done|auto].
    + apply (carries_last _ _ _ 0%Z); [by apply carries_num|apply carries_ret].
  - intros conn [n|]; [apply nonempty_seq|]; by intros calls [= <-].
Defined.

(** A derivation sent over a connection arrives unchanged: whatever
    [writeDerivation] puts on the wire, [readDerivation] with the same name
    reads back exactly, from any lawful source (a string, a buffer, a framed
    connection), leaving the source at the first byte after the message. *)
Theorem readDerivation_writeDerivation {S} `{SourceLaws S} `{Digest} conn d calls (s : S) rest :
  CanonPath_wf (cn_storeDir conn) -> BasicDerivation_wf conn d ->
  writeDerivation conn d = Ok calls -> fits (concat calls) -> delivers s (concat calls ++ rest) ->
  exists s', readDerivation conn (drv_name d) s = Ok (d, s') /\ delivers s' rest.
Proof.
  intros Hdir Hwf Hw Hf Hs.
  destruct (carries_derivation conn d Hdir Hwf calls Hw Hf s rest Hs) as (s' & ? & ? & _). by exists s'.
Qed.

Definition example_conn : Conn := mkConn (L "/nix/store") (fun _ => true) 293.

Lemma readDerivation_writeDerivation_witness :
  let d := basic example_derivation in
  exists calls s', @writeDerivation padded_digest example_conn d = Ok calls /\
    readDerivation example_conn (L "foo") (StringSource_of (concat calls ++ L "rest")) = Ok (d, s') /\
    delivers s' (L "rest").
Proof.
  intros d. destruct (@writeDerivation padded_digest example_conn d) as [calls|f] eqn:E.
  2: { vm_compute in E. discriminate E. }
  assert (length (concat calls) <= 2000) as Hlen.
  { assert (on_wire (Ok calls) = on_wire (@writeDerivation padded_digest example_conn d)) as Hc by by rewrite E.
    cbn [on_wire] in Hc. rewrite Hc. apply Nat.leb_le. vm_compute. reflexivity. }
  destruct (@readDerivation_writeDerivation StringSource _ _ padded_digest example_conn d calls
    (StringSource_of (concat calls ++ L "rest")) (L "rest")) as (s' & Hr & Hd).
  - by apply CanonPath_raw_self.
  - constructor; cbn [outputs inputSrcs env d basic example_derivation].
    + by repeat constructor.
    + constructor; [|done].
      unfold output_wf, Hash_regular, Hash_wf, algo_enabled, method_ok, method_enabled, maxHashSize.
      cbn. repeat split; try done; lia.
    + by repeat constructor.
    + constructor; [|done]. split; [by vm_compute|]. apply (bool_decide_unpack _). by vm_compute.
    + by repeat constructor.
  - exact E.
  - unfold fits, size_t_max. lia.
  - split; [cbn; lia|done].
  - exists calls, s'. done.
Defined.

(** Path information survives both protocols: reading back what the
    worker protocol wrote gives the information the negotiated version
    carries ([worker_view], everything from 1.16 on), and the serve protocol
    gives all but the registration time and the ultimate flag ([serve_view]). *)
Theorem pathInfo_roundtrip {S} `{SourceLaws S} conn info calls (s : S) rest :
  path_info_ok conn info -> fits (concat calls) -> delivers s (concat calls ++ rest) ->
  (worker_pathInfo_write conn info = Ok calls ->
   exists s', worker_pathInfo_read conn s = Ok (worker_view conn info, s') /\ delivers s' rest) /\
  (serve_pathInfo_write conn info = Ok calls ->
   exists s', serve_pathInfo_read conn s = Ok (serve_view conn info, s') /\ delivers s' rest).
Proof.
  intros Hok Hf Hs. split; intros Hw.
  - destruct (carries_worker_info conn info Hok calls Hw Hf s rest Hs) as (s' & ? & ? & _). by exists s'.
  - destruct (carries_serve_info conn info Hok calls Hw Hf s rest Hs) as (s' & ? & ? & _). by exists s'.
Qed.

Definition example_info : UnkeyedValidPathInfo :=
  mkPathInfo (Some (mkStorePath example_base)) dummy_hash [mkStorePath example_base] 42 1234 true [L "key:sig"]
    (Some (mkContentAddress ContentAddressMethod.NixArchive example_hash)).

Lemma pathInfo_roundtrip_witness :
  exists calls s', worker_pathInfo_write example_conn example_info = Ok calls /\
    worker_pathInfo_read example_conn (StringSource_of (concat calls ++ [])) = Ok (example_info, s').
Proof.
  destruct (worker_pathInfo_write example_conn example_info) as [calls|f] eqn:E.
  2: { vm_compute in E. discriminate E. }
  assert (length (concat calls) <= 2000) as Hlen.
  { assert (on_wire (Ok calls) = on_wire (worker_pathInfo_write example_conn example_info)) as Hc by by rewrite E.
    cbn [on_wire] in Hc. rewrite Hc. apply Nat.leb_le. vm_compute. reflexivity. }
  destruct (pathInfo_roundtrip example_conn example_info calls (StringSource_of (concat calls ++ [])) []) as [Hw _].
  - assert (path_ok example_conn (mkStorePath example_base)) as Hp.
    { split; [by apply CanonPath_raw_self|]. split; [by vm_compute|]. apply (bool_decide_unpack _). by vm_compute. }
    constructor; cbn [pi_deriver pi_narHash pi_references pi_registrationTime pi_narSize pi_sigs pi_ca example_info].
    + by intros p [= <-].
    + unfold Hash_regular, Hash_wf, maxHashSize. cbn. repeat split; try done; lia.
    + split; [by repeat constructor|]. by constructor.
    + unfold int64_max. lia.
    + unfold size_t_max. lia.
    + by repeat constructor.
    + intros ca [= <-]. unfold ca_ok, algo_enabled, method_enabled, Hash_regular, Hash_wf, maxHashSize. cbn.
      repeat split; try done; lia.
  - unfold fits, size_t_max. lia.
  - split; [cbn; lia|done].
  - destruct (Hw E) as (s' & Hr & _). exists calls, s'. done.
Defined.
