(* ===== verification/NarInfo.v ===== *)
(** * NAR info files (libstore/nar-info.hh, nar-info.cc)

    The text a binary cache serves for a path, its parser and its printer. *)

From S2P Require Import Prelude.
From S2P Require Import Containers.
From S2P Require Import Strings.
From S2P Require Import Hash.
From S2P Require Import CanonPath.
From S2P Require Import StorePath.
From S2P Require Import ContentAddress.
From S2P Require Import ATerm.
From S2P Require Import PathInfo.

Record NarInfo := mkNarInfo {
  ni_path : StorePath;
  ni_info : UnkeyedValidPathInfo;
  ni_url : bytes;
  ni_compression : bytes;
  ni_fileHash : option Hash;
  ni_fileSize : Z;
}.

Definition StorePath_dummy : StorePath := mkStorePath (L "ffffffffffffffffffffffffffffffff-x").
Definition narinfo_empty : NarInfo :=
  mkNarInfo StorePath_dummy (mkPathInfo None dummy_hash [] 0 0 false [] None) [] [] None 0.

(** Assignments to single fields. *)
Definition set_path (p : StorePath) (n : NarInfo) : NarInfo :=
  mkNarInfo p (ni_info n) (ni_url n) (ni_compression n) (ni_fileHash n) (ni_fileSize n).
Definition set_url (u : bytes) (n : NarInfo) : NarInfo :=
  mkNarInfo (ni_path n) (ni_info n) u (ni_compression n) (ni_fileHash n) (ni_fileSize n).
Definition set_compression (c : bytes) (n : NarInfo) : NarInfo :=
  mkNarInfo (ni_path n) (ni_info n) (ni_url n) c (ni_fileHash n) (ni_fileSize n).
Definition set_fileHash (h : Hash) (n : NarInfo) : NarInfo :=
  mkNarInfo (ni_path n) (ni_info n) (ni_url n) (ni_compression n) (Some h) (ni_fileSize n).
Definition set_fileSize (z : Z) (n : NarInfo) : NarInfo :=
  mkNarInfo (ni_path n) (ni_info n) (ni_url n) (ni_compression n) (ni_fileHash n) z.
Definition set_info (f : UnkeyedValidPathInfo -> UnkeyedValidPathInfo) (n : NarInfo) : NarInfo :=
  mkNarInfo (ni_path n) (f (ni_info n)) (ni_url n) (ni_compression n) (ni_fileHash n) (ni_fileSize n).
Definition set_narHash (h : Hash) (u : UnkeyedValidPathInfo) : UnkeyedValidPathInfo :=
  mkPathInfo (pi_deriver u) h (pi_references u) (pi_registrationTime u) (pi_narSize u) (pi_ultimate u) (pi_sigs u) (pi_ca u).
Definition set_narSize (z : Z) (u : UnkeyedValidPathInfo) : UnkeyedValidPathInfo :=
  mkPathInfo (pi_deriver u) (pi_narHash u) (pi_references u) (pi_registrationTime u) z (pi_ultimate u) (pi_sigs u) (pi_ca u).
Definition set_references (r : list StorePath) (u : UnkeyedValidPathInfo) : UnkeyedValidPathInfo :=
  mkPathInfo (pi_deriver u) (pi_narHash u) r (pi_registrationTime u) (pi_narSize u) (pi_ultimate u) (pi_sigs u) (pi_ca u).
Definition set_deriver (p : StorePath) (u : UnkeyedValidPathInfo) : UnkeyedValidPathInfo :=
  mkPathInfo (Some p) (pi_narHash u) (pi_references u) (pi_registrationTime u) (pi_narSize u) (pi_ultimate u) (pi_sigs u) (pi_ca u).
Definition set_sigs (s : list bytes) (u : UnkeyedValidPathInfo) : UnkeyedValidPathInfo :=
  mkPathInfo (pi_deriver u) (pi_narHash u) (pi_references u) (pi_registrationTime u) (pi_narSize u) (pi_ultimate u) s (pi_ca u).
Definition set_ca (c : option ContentAddress) (u : UnkeyedValidPathInfo) : UnkeyedValidPathInfo :=
  mkPathInfo (pi_deriver u) (pi_narHash u) (pi_references u) (pi_registrationTime u) (pi_narSize u) (pi_ultimate u) (pi_sigs u) c.

Section narinfo.
Context `{LexicalCastU64} (storeDir : bytes) (xp : xpSettings).

(** ** Parsing *)

Definition parseHashField (s : bytes) : result Hash :=
  match parseAnyPrefixed xp s with
  | Err (Throw BadHash) => throw Error
  | r => r
  end.

Fixpoint parse_refs (refs : list bytes) (acc : list StorePath) : result (list StorePath) :=
  match refs with
  | [] => Ok acc
  | r :: refs => let* p := StorePath_parse r in parse_refs refs (sset_insert p acc)
  end.

(** [havePath] and [haveNarHash] accompany the object under construction. *)
Record NarInfoState := mkNIS { nis_info : NarInfo; nis_havePath : bool; nis_haveNarHash : bool }.
Definition upd (st : NarInfoState) (n : NarInfo) : NarInfoState := mkNIS n (nis_havePath st) (nis_haveNarHash st).

(** One field. *)
Definition parse_field (name value : bytes) (st : NarInfoState) : result NarInfoState :=
  let n := nis_info st in
  if bool_decide (name = L "StorePath") then
    let* p := parseStorePath storeDir value in Ok (mkNIS (set_path p n) true (nis_haveNarHash st))
  else if bool_decide (name = L "URL") then Ok (upd st (set_url value n))
  else if bool_decide (name = L "Compression") then Ok (upd st (set_compression value n))
  else if bool_decide (name = L "FileHash") then
    let* h := parseHashField value in Ok (upd st (set_fileHash h n))
  else if bool_decide (name = L "FileSize") then
    match string2Int_u64 value with
    | None => throw Error
    | Some z => Ok (upd st (set_fileSize z n))
    end
  else if bool_decide (name = L "NarHash") then
    let* h := parseHashField value in Ok (mkNIS (set_info (set_narHash h) n) (nis_havePath st) true)
  else if bool_decide (name = L "NarSize") then
    match string2Int_u64 value with
    | None => throw Error
    | Some z => Ok (upd st (set_info (set_narSize z) n))
    end
  else if bool_decide (name = L "References") then
    if negb (bool_decide (pi_references (ni_info n) = [])) then throw Error
    else let* refs := parse_refs (tokenizeString value (L " ")) [] in
         Ok (upd st (set_info (set_references refs) n))
  else if bool_decide (name = L "Deriver") then
    if bool_decide (value = L "unknown-deriver") then Ok st
    else let* p := StorePath_parse value in Ok (upd st (set_info (set_deriver p) n))
  else if bool_decide (name = L "Sig") then
    Ok (upd st (set_info (set_sigs (sset_insert value (pi_sigs (ni_info n)))) n))
  else if bool_decide (name = L "CA") then
    if bool_decide (is_Some (pi_ca (ni_info n))) then throw Error
    else let* ca := ContentAddress_parseOpt xp value in Ok (upd st (set_info (set_ca ca) n))
  else Ok st.

(** The loop over the lines; [s] is the text from [pos] on. *)
Fixpoint parse_lines (fuel : nat) (s : bytes) (st : NarInfoState) : result NarInfoState :=
  match fuel with
  | 0 => Err OutOfFuel
  | S fuel =>
      if bool_decide (s = []) then Ok st
      else match find_char ":"%char s with
           | None => throw Error
           | Some colon =>
               let rest := drop (colon + 2) s in
               match find_char newline rest with
               | None => throw Error
               | Some eol =>
                   let* st := parse_field (take colon s) (take eol rest) st in
                   parse_lines fuel (drop (S eol) rest) st
               end
           end
  end.

Definition NarInfo_parse (s : bytes) : result NarInfo :=
  let* st := parse_lines (S (length s)) s (mkNIS narinfo_empty false false) in
  let n := if bool_decide (ni_compression (nis_info st) = []) then set_compression (L "bzip2") (nis_info st)
           else nis_info st in
  if negb (nis_havePath st) || negb (nis_haveNarHash st) || bool_decide (ni_url n = [])
     || (pi_narSize (ni_info n) =? 0)%Z
  then throw Error else Ok n.

(** ** Printing *)

Definition line (name value : bytes) : bytes := name ++ L ": " ++ value ++ [newline].

Definition NarInfo_to_string (n : NarInfo) : result bytes :=
  let u := ni_info n in
  assert_ (negb (bool_decide (ni_compression n = []))) ;;;
  let* fh := match ni_fileHash n with
             | Some h => assert_ (bool_decide (algo h = SHA256)) ;;; to_string h Nix32 true
             | None => Err AssertFailed
             end in
  assert_ (bool_decide (algo (pi_narHash u) = SHA256)) ;;;
  let* nh := to_string (pi_narHash u) Nix32 true in
  let* ca := match pi_ca u with
             | Some ca => let* c := renderContentAddress xp (Some ca) in Ok (line (L "CA") c)
             | None => Ok []
             end in
  Ok (line (L "StorePath") (printStorePath storeDir (ni_path n)) ++ line (L "URL") (ni_url n)
      ++ line (L "Compression") (ni_compression n) ++ line (L "FileHash") fh
      ++ line (L "FileSize") (to_string_u64 (ni_fileSize n)) ++ line (L "NarHash") nh
      ++ line (L "NarSize") (to_string_u64 (pi_narSize u))
      ++ line (L "References") (concatStringsSep (L " ") (sp_to_string <$> pi_references u))
      ++ (match pi_deriver u with Some p => line (L "Deriver") (sp_to_string p) | None => [] end)
      ++ concat (line (L "Sig") <$> pi_sigs u) ++ ca).
End narinfo.

(** ** Round trip *)

Section roundtrip.
Context `{LexicalCastU64} (storeDir : bytes) (xp : xpSettings).

(** The fields of a text, one after the other. *)
Fixpoint run_fields (fields : list (bytes * bytes)) (st : NarInfoState) : result NarInfoState :=
  match fields with
  | [] => Ok st
  | (name, value) :: fields => let* st := parse_field storeDir xp name value st in run_fields fields st
  end.

Definition field_ok (f : bytes * bytes) : Prop := ":"%char ∉ f.1 /\ newline ∉ f.2.
Definition text_of (fields : list (bytes * bytes)) : bytes := concat ((fun f => line f.1 f.2) <$> fields).

Lemma parse_line fuel name value rest st :
  field_ok (name, value) ->
  parse_lines storeDir xp (S fuel) (line name value ++ rest) st =
  let* st := parse_field storeDir xp name value st in parse_lines storeDir xp fuel rest st.
Proof.
  intros [Hn Hv]. cbn [fst snd] in *. cbn [parse_lines].
  assert (E : line name value ++ rest = name ++ ":"%char :: " "%char :: value ++ newline :: rest).
  { unfold line. rewrite <- !app_assoc. done. }
  rewrite bool_decide_false by (rewrite E; by destruct name).
  rewrite E, find_char_app by done. cbv zeta.
  assert (Ed : forall t, drop (length name + 2) (name ++ ":"%char :: " "%char :: t) = t).
  { intros t. by rewrite <- drop_drop, drop_app_length. }
  rewrite Ed, find_char_app by done. rewrite !take_app_length.
  replace (drop (S (length value)) (value ++ newline :: rest)) with rest; [done|].
  change (newline :: rest) with ([newline] ++ rest). rewrite app_assoc.
  replace (S (length value)) with (length (value ++ [newline])) by (rewrite length_app; cbn; lia).
  by rewrite drop_app_length.
Qed.

Lemma parse_text fields fuel st :
  Forall field_ok fields -> length fields < fuel ->
  parse_lines storeDir xp fuel (text_of fields) st = run_fields fields st.
Proof.
  intros Hf. revert fuel st. induction Hf as [|[name value] fields Hok Hf IH]; intros fuel st Hfuel;
    (destruct fuel as [|fuel]; [lia|]).
  - done.
  - unfold text_of. rewrite fmap_cons, concat_cons. cbn [fst snd]. rewrite parse_line by done.
    cbn [run_fields]. destruct (parse_field _ _ _ _ _); [|done]. cbn [rbind].
    apply IH. cbn [length] in Hfuel. lia.
Qed.

Lemma run_fields_app f1 f2 st :
  run_fields (f1 ++ f2) st = let* st := run_fields f1 st in run_fields f2 st.
Proof.
  revert st. induction f1 as [|[name value] f1 IH]; intros st; [done|]. cbn [run_fields app].
  destruct (parse_field _ _ _ _ _); [|done]. cbn [rbind]. apply IH.
Qed.

Lemma text_of_length fields : length fields <= length (text_of fields).
Proof.
  unfold text_of. induction fields as [|f fields IH]; [done|]. rewrite fmap_cons, concat_cons, length_app.
  unfold line at 1. rewrite !length_app. cbn [length] in *. lia.
Qed.

(** A NAR info within the reach of the format. *)
Record narinfo_ok (n : NarInfo) : Prop := {
  no_path : store_path_ok (ni_path n);
  no_url : ni_url n <> [] /\ newline ∉ ni_url n;
  no_compression : ni_compression n <> [] /\ newline ∉ ni_compression n;
  no_fileSize : (0 <= ni_fileSize n < 2 ^ 64)%Z;
  no_narSize : (0 < pi_narSize (ni_info n) < 2 ^ 64)%Z;
  no_hashes : Hash_regular (pi_narHash (ni_info n)) /\ forall h, ni_fileHash n = Some h -> Hash_regular h;
  no_refs : sset_wf (pi_references (ni_info n)) /\ Forall store_path_ok (pi_references (ni_info n));
  no_deriver : forall p, pi_deriver (ni_info n) = Some p -> store_path_ok p;
  no_sigs : sset_wf (pi_sigs (ni_info n)) /\ Forall (fun s => newline ∉ s) (pi_sigs (ni_info n));
  no_ca : forall ca, pi_ca (ni_info n) = Some ca -> ca_ok xp ca;
  no_local : pi_registrationTime (ni_info n) = 0%Z /\ pi_ultimate (ni_info n) = false;
}.

Lemma run_sigs sigs st :
  run_fields ((fun s => (L "Sig", s)) <$> sigs) st =
  Ok (upd st (set_info (set_sigs (sset_union (pi_sigs (ni_info (nis_info st))) sigs)) (nis_info st))).
Proof.
  revert st. induction sigs as [|s sigs IH]; intros st.
  - by destruct st as [[? [] ? ? ? ?] ? ?].
  - rewrite fmap_cons. cbn [run_fields]. change (parse_field storeDir xp (L "Sig") s st) with
      (Ok (upd st (set_info (set_sigs (sset_insert s (pi_sigs (ni_info (nis_info st))))) (nis_info st)))).
    cbn [rbind]. rewrite IH. done.
Qed.

Lemma string2Int_u64_print n : (0 <= n < 2 ^ 64)%Z -> string2Int_u64 (to_string_u64 n) = Some n.
Proof.
  intros Hn. unfold string2Int_u64. rewrite bool_decide_false; [by apply lexical_cast_u64_spec|].
  pose proof (to_string_u64_no "-"%char n Hn eq_refl) as Hno. destruct (to_string_u64 n) as [|c s]; [done|].
  cbn. intros [= ->]. apply Hno, list_elem_of_here.
Qed.

Lemma parse_refs_print l acc : Forall store_path_ok l -> parse_refs (sp_to_string <$> l) acc = Ok (sset_union acc l).
Proof.
  intros Hl. revert acc. induction Hl as [|p l Hp Hl IH]; intros acc; [done|].
  rewrite fmap_cons. cbn [parse_refs]. rewrite (proj1 Hp). cbn [rbind]. apply IH.
Qed.

Lemma store_path_ok_nonempty p : store_path_ok p -> sp_to_string p <> [].
Proof. intros [Hp _] E. rewrite E in Hp. done. Qed.

Lemma tokenize_refs l :
  Forall store_path_ok l ->
  tokenizeString (concatStringsSep (L " ") (sp_to_string <$> l)) (L " ") = sp_to_string <$> l.
Proof.
  intros Hl. apply tokenize_concat, Forall_fmap. eapply Forall_impl; [done|].
  intros q Hq. split; [by apply store_path_ok_nonempty|by eapply store_path_ok_no].
Qed.

Lemma parseHashField_print h s :
  Hash_regular h -> algo h = SHA256 -> to_string h Nix32 true = Ok s -> parseHashField xp s = Ok h.
Proof.
  intros Hr Ha Hs. unfold parseHashField. erewrite parseAnyPrefixed_text; [done|done| |by right|done].
  unfold algo_enabled. by rewrite Ha.
Qed.

Lemma ca_text_no_newline ca s : ca_ok xp ca -> renderContentAddress xp (Some ca) = Ok s -> newline ∉ s.
Proof.
  intros (Hreg & _ & _) Hs. cbn in Hs. unfold ContentAddress_render in Hs.
  apply rbind_Ok in Hs as (p & Hp & Hs). apply rbind_Ok in Hs as (t & Ht & Hs). apply Ok_inj in Hs. subst s.
  assert (Hno : newline ∉ L ":" ++ nix32Chars) by by apply (bool_decide_unpack _).
  rewrite elem_of_app. intros [Hin|Hin].
  - destruct (ca_method ca); cbn in Hp; unfold makeFileIngestionPrefix in Hp; repeat case_match; inv_result;
      revert Hin; by apply (bool_decide_unpack _).
  - by apply (nix32_text_no _ _ newline Hreg Ht Hno) in Hin.
Qed.

(** The fields of a printed NAR info. *)
Definition narinfo_fields (n : NarInfo) (fh nh : bytes) (ca : list bytes) : list (bytes * bytes) :=
  let u := ni_info n in
  [(L "StorePath", printStorePath storeDir (ni_path n)); (L "URL", ni_url n);
   (L "Compression", ni_compression n); (L "FileHash", fh); (L "FileSize", to_string_u64 (ni_fileSize n));
   (L "NarHash", nh); (L "NarSize", to_string_u64 (pi_narSize u));
   (L "References", concatStringsSep (L " ") (sp_to_string <$> pi_references u))]
  ++ (match pi_deriver u with Some p => [(L "Deriver", sp_to_string p)] | None => [] end)
  ++ ((fun s => (L "Sig", s)) <$> pi_sigs u) ++ ((fun c => (L "CA", c)) <$> ca).

Lemma text_of_app f1 f2 : text_of (f1 ++ f2) = text_of f1 ++ text_of f2.
Proof. unfold text_of. by rewrite fmap_app, concat_app. Qed.

Lemma NarInfo_to_string_fields n s :
  NarInfo_to_string storeDir xp n = Ok s ->
  exists fh nh ca h, s = text_of (narinfo_fields n fh nh ca) /\
    ni_fileHash n = Some h /\ algo h = SHA256 /\ to_string h Nix32 true = Ok fh /\
    algo (pi_narHash (ni_info n)) = SHA256 /\ to_string (pi_narHash (ni_info n)) Nix32 true = Ok nh /\
    match pi_ca (ni_info n) with
    | Some c => exists t, ca = [t] /\ renderContentAddress xp (Some c) = Ok t
    | None => ca = []
    end.
Proof.
  unfold NarInfo_to_string. intros Hs. apply rbind_Ok in Hs as (_ & _ & Hs). apply rbind_Ok in Hs as (fh & Hfh & Hs).
  apply rbind_Ok in Hs as (_ & Hna%assert_Ok%bool_decide_eq_true & Hs). apply rbind_Ok in Hs as (nh & Hnh & Hs).
  apply rbind_Ok in Hs as (cal & Hca & Hs). apply Ok_inj in Hs. subst s.
  destruct (ni_fileHash n) as [h|] eqn:Eh; [|done].
  apply rbind_Ok in Hfh as (_ & Hfa%assert_Ok%bool_decide_eq_true & Hfh).
  assert (Hca' : exists ca, cal = text_of ((fun c => (L "CA", c)) <$> ca) /\
    match pi_ca (ni_info n) with
    | Some c => exists t, ca = [t] /\ renderContentAddress xp (Some c) = Ok t | None => ca = [] end).
  { destruct (pi_ca (ni_info n)) as [c|].
    - apply rbind_Ok in Hca as (t & Ht & Hca). apply Ok_inj in Hca. exists [t]. split; [|by exists t].
      rewrite <- Hca. unfold text_of. cbn. by rewrite app_nil_r.
    - apply Ok_inj in Hca. by exists []. }
  destruct Hca' as (ca & -> & Hca'). exists fh, nh, ca, h.
  split; [|done]. unfold narinfo_fields. rewrite !text_of_app.
  assert (text_of ((fun s => (L "Sig", s)) <$> pi_sigs (ni_info n)) = concat (line (L "Sig") <$> pi_sigs (ni_info n))) as ->.
  { unfold text_of. by rewrite <- list_fmap_compose. }
  assert (text_of (match pi_deriver (ni_info n) with Some p => [(L "Deriver", sp_to_string p)] | None => [] end) =
    match pi_deriver (ni_info n) with Some p => line (L "Deriver") (sp_to_string p) | None => [] end) as ->.
  { destruct (pi_deriver (ni_info n)); [|done]. unfold text_of. cbn. by rewrite app_nil_r. }
  unfold text_of. cbn [fmap list_fmap fst snd]. cbn [concat]. rewrite app_nil_r, <- !app_assoc. done.
Qed.

Hypothesis storeDir_wf : CanonPath_wf storeDir.
Hypothesis storeDir_line : newline ∉ storeDir.

Lemma narinfo_fields_ok n fh nh ca h :
  narinfo_ok n -> ni_fileHash n = Some h -> to_string h Nix32 true = Ok fh ->
  to_string (pi_narHash (ni_info n)) Nix32 true = Ok nh ->
  match pi_ca (ni_info n) with
  | Some c => exists t, ca = [t] /\ renderContentAddress xp (Some c) = Ok t | None => ca = [] end ->
  Forall field_ok (narinfo_fields n fh nh ca).
Proof.
  intros [] Hh Hfh Hnh Hca.
  assert (Hno : newline ∉ L ":" ++ nix32Chars) by by apply (bool_decide_unpack _).
  assert (Hname : forall name v, bool_decide (":"%char ∉ name) = true -> newline ∉ v -> field_ok (name, v)).
  { intros name v Hc%bool_decide_eq_true Hv. done. }
  unfold narinfo_fields. apply Forall_app. split; [|apply Forall_app; split; [|apply Forall_app; split]].
  - repeat (apply Forall_cons; split); try apply Forall_nil; try apply Hname; try done.
    + by apply printStorePath_no.
    + apply no_url0.
    + apply no_compression0.
    + destruct no_hashes0 as [_ Hr]. by apply (nix32_text_no h fh newline (Hr h Hh) Hfh Hno).
    + by apply to_string_u64_no.
    + destruct no_hashes0 as [Hr _]. by apply (nix32_text_no _ nh newline Hr Hnh Hno).
    + apply to_string_u64_no; [lia|done].
    + destruct no_refs0 as [_ Hr]. clear -Hr. induction Hr as [|p l Hp Hl IH]; [by apply not_elem_of_nil|].
      rewrite fmap_cons. destruct l as [|q l].
      * rewrite concatStringsSep_cons. cbn. rewrite app_nil_r. by apply store_path_ok_no.
      * rewrite fmap_cons, concatStringsSep_cons2, !elem_of_app.
        intros [Hin|[Hin|Hin]]; [by apply (store_path_ok_no p newline Hp) in Hin|by apply list_elem_of_singleton in Hin|by apply IH].
  - destruct (pi_deriver (ni_info n)) as [p|]; [|done]. repeat constructor; cbn; [by apply (bool_decide_unpack _)|].
    eapply store_path_ok_no; [by apply no_deriver0|done].
  - apply Forall_fmap. eapply Forall_impl; [apply no_sigs0|]. intros v Hv. by apply Hname.
  - destruct (pi_ca (ni_info n)) as [c|]; [|by subst ca]. destruct Hca as (t & -> & Ht). repeat constructor; cbn;
      [by apply (bool_decide_unpack _)|]. eapply ca_text_no_newline; [by apply no_ca0|done].
Qed.

(** The state after the fixed fields. *)
Lemma run_fixed n fh nh h :
  narinfo_ok n -> ni_fileHash n = Some h -> algo h = SHA256 -> to_string h Nix32 true = Ok fh ->
  algo (pi_narHash (ni_info n)) = SHA256 -> to_string (pi_narHash (ni_info n)) Nix32 true = Ok nh ->
  run_fields (take 8 (narinfo_fields n fh nh [])) (mkNIS narinfo_empty false false) =
  Ok (mkNIS (mkNarInfo (ni_path n)
        (mkPathInfo None (pi_narHash (ni_info n)) (pi_references (ni_info n)) 0 (pi_narSize (ni_info n)) false [] None)
        (ni_url n) (ni_compression n) (Some h) (ni_fileSize n)) true true).
Proof.
  intros [] Hh Ha Hfh Hna Hnh. unfold narinfo_fields. cbn [take app run_fields].
  unfold parse_field at 1. rewrite bool_decide_true by done. rewrite parseStorePath_ok by done. cbn [rbind nis_haveNarHash].
  unfold parse_field at 1. cbn [bool_decide_true]. change (bool_decide (L "URL" = L "StorePath")) with false.
  change (bool_decide (L "URL" = L "URL")) with true. cbv iota. cbn [rbind].
  change (parse_field storeDir xp (L "Compression") ?v ?st) with (Ok (upd st (set_compression v (nis_info st)))). cbn [rbind].
  change (parse_field storeDir xp (L "FileHash") ?v ?st) with
    (let* h := parseHashField xp v in Ok (upd st (set_fileHash h (nis_info st)))).
  rewrite (parseHashField_print h) by (try done; by apply no_hashes0). cbn [rbind].
  change (parse_field storeDir xp (L "FileSize") ?v ?st) with
    (match string2Int_u64 v with None => throw Error | Some z => Ok (upd st (set_fileSize z (nis_info st))) end).
  rewrite string2Int_u64_print by done. cbn [rbind].
  change (parse_field storeDir xp (L "NarHash") ?v ?st) with
    (let* h := parseHashField xp v in Ok (mkNIS (set_info (set_narHash h) (nis_info st)) (nis_havePath st) true)).
  rewrite (parseHashField_print (pi_narHash (ni_info n))) by first [done | exact (proj1 no_hashes0)]. cbn [rbind].
  change (parse_field storeDir xp (L "NarSize") ?v ?st) with
    (match string2Int_u64 v with None => throw Error | Some z => Ok (upd st (set_info (set_narSize z) (nis_info st))) end).
  rewrite string2Int_u64_print by lia. cbn [rbind].
  change (parse_field storeDir xp (L "References") ?v ?st) with
    (if negb (bool_decide (pi_references (ni_info (nis_info st)) = [])) then throw Error
     else let* refs := parse_refs (tokenizeString v (L " ")) [] in
          Ok (upd st (set_info (set_references refs) (nis_info st)))).
  rewrite tokenize_refs by apply no_refs0. rewrite parse_refs_print by apply no_refs0.
  rewrite (sset_union_sorted []) by apply no_refs0. done.
Qed.
End roundtrip.

(** C32: nAR info files round-trip: whatever the printer writes for a
    well-formed NAR info, the parser reads back as the same NAR info, with
    all references, signatures and the content address. *)
Theorem NarInfo_parse_to_string `{LexicalCastU64} storeDir xp n s :
  CanonPath_wf storeDir -> newline ∉ storeDir -> narinfo_ok xp n ->
  NarInfo_to_string storeDir xp n = Ok s -> NarInfo_parse storeDir xp s = Ok n.
Proof.
  intros Hdir Hline Hok Hs.
  destruct (NarInfo_to_string_fields storeDir xp n s Hs) as (fh & nh & ca & h & -> & Hh & Ha & Hfh & Hna & Hnh & Hca).
  unfold NarInfo_parse. rewrite parse_text.
  2: { by eapply narinfo_fields_ok. }
  2: { pose proof (text_of_length (narinfo_fields storeDir n fh nh ca)). lia. }
  change (narinfo_fields storeDir n fh nh ca) with (take 8 (narinfo_fields storeDir n fh nh []) ++
    drop 8 (narinfo_fields storeDir n fh nh ca)).
  rewrite run_fields_app, (run_fixed storeDir xp Hdir n fh nh h) by done. cbn [rbind].
  change (drop 8 (narinfo_fields storeDir n fh nh ca)) with
    ((match pi_deriver (ni_info n) with Some p => [(L "Deriver", sp_to_string p)] | None => [] end)
     ++ ((fun s => (L "Sig", s)) <$> pi_sigs (ni_info n)) ++ ((fun c => (L "CA", c)) <$> ca)).
  destruct Hok. destruct n as [path [deriver narHash refs time size ultimate sigs nca] url compression fileHash fileSize].
  cbn [ni_path ni_info ni_url ni_compression ni_fileHash ni_fileSize pi_deriver pi_narHash pi_references
    pi_registrationTime pi_narSize pi_ultimate pi_sigs pi_ca] in *.
  destruct no_local0 as [-> ->]. subst fileHash. rewrite run_fields_app.
  match goal with |- context [run_fields _ _ (match deriver with _ => _ end) (mkNIS ?x true true)] =>
    assert (run_fields storeDir xp (match deriver with Some p => [(L "Deriver", sp_to_string p)] | None => [] end)
      (mkNIS x true true) = Ok (mkNIS (mkNarInfo path (mkPathInfo deriver narHash refs 0 size false [] None)
        url compression (Some h) fileSize) true true)) as -> end.
  { destruct deriver as [p|]; [|done]. cbn [run_fields].
    change (parse_field storeDir xp (L "Deriver") ?v ?st) with (if bool_decide (v = L "unknown-deriver") then Ok st
      else let* p := StorePath_parse v in Ok (upd st (set_info (set_deriver p) (nis_info st)))).
    rewrite bool_decide_false; [by rewrite (proj1 (no_deriver0 p eq_refl))|].
    intros E. pose proof (proj1 (no_deriver0 p eq_refl)) as Hp. by rewrite E in Hp. }
  cbn [rbind]. rewrite run_fields_app, run_sigs. cbn [rbind nis_info ni_info pi_sigs].
  rewrite (sset_union_sorted []) by apply no_sigs0. cbn [app].
  match goal with |- context [run_fields _ _ ((fun c => (L "CA", c)) <$> ca) ?x] =>
    assert (run_fields storeDir xp ((fun c => (L "CA", c)) <$> ca) x =
      Ok (mkNIS (mkNarInfo path (mkPathInfo deriver narHash refs 0 size false sigs nca)
        url compression (Some h) fileSize) true true)) as -> end.
  { destruct nca as [c|]; [|by subst ca]. destruct Hca as (t & -> & Ht). cbn [fmap list_fmap run_fields].
    change (parse_field storeDir xp (L "CA") ?v ?st) with (if bool_decide (is_Some (pi_ca (ni_info (nis_info st)))) then throw Error
      else let* ca := ContentAddress_parseOpt xp v in Ok (upd st (set_info (set_ca ca) (nis_info st)))).
    rewrite bool_decide_false by (cbn; by intros [? ?]).
    rewrite (parseOpt_render xp (Some c)); [done| |done]. intros ? [= <-]. by apply no_ca0. }
  cbn [rbind nis_info nis_havePath nis_haveNarHash ni_compression negb orb ni_url ni_info pi_narSize].
  rewrite (bool_decide_false (compression = [])) by apply no_compression0.
  cbv iota zeta. cbn [ni_url ni_info pi_narSize].
  rewrite bool_decide_false by apply no_url0. cbn [orb].
  destruct (Z.eqb_spec size 0); [lia|done].
Qed.

Definition example_narinfo : NarInfo :=
  mkNarInfo (mkStorePath example_base)
    (mkPathInfo (Some (mkStorePath example_base)) dummy_hash [mkStorePath example_base] 0 1234 false
       [L "key:sig1"; L "key:sig2"] (Some (mkContentAddress ContentAddressMethod.NixArchive example_hash)))
    (L "nar/x.nar.xz") (L "xz") (Some dummy_hash) 600.

Lemma NarInfo_parse_to_string_witness :
  exists s, NarInfo_to_string (L "/nix/store") (fun _ => true) example_narinfo = Ok s /\
    @NarInfo_parse lexical_cast_u64_decimal (L "/nix/store") (fun _ => true) s = Ok example_narinfo.
Proof.
  eexists. split; [vm_compute; reflexivity|].
  apply (@NarInfo_parse_to_string lexical_cast_u64_decimal (L "/nix/store") (fun _ => true) example_narinfo).
  - by apply CanonPath_raw_self.
  - by apply (bool_decide_unpack _).
  - assert (store_path_ok (mkStorePath example_base)) as Hp.
    { split; [by vm_compute|]. apply (bool_decide_unpack _). by vm_compute. }
    assert (Hash_regular dummy_hash) as Hd.
    { unfold Hash_regular, Hash_wf, maxHashSize. cbn. repeat split; lia. }
    split; cbn.
    + done.
    + split; [done|by apply (bool_decide_unpack _)].
    + split; [done|by apply (bool_decide_unpack _)].
    + lia.
    + lia.
    + split; [done|]. by intros h [= <-].
    + split; by repeat constructor.
    + by intros p [= <-].
    + split; [by repeat constructor|]. repeat constructor; by apply (bool_decide_unpack _).
    + intros ca [= <-]. unfold ca_ok, algo_enabled, method_enabled, Hash_regular, Hash_wf, maxHashSize. cbn.
      repeat split; try done; lia.
    + done.
  - vm_compute. reflexivity.
Defined.
