(* ===== verification/Graph.v ===== *)
(** * Graph algorithms (libutil/topo-sort.hh, libutil/closure.hh)

    The depth-first topological sort, and the concurrent closure computation
    as a step relation over its lock-protected state. *)

From S2P Require Import Prelude.
From S2P Require Import Containers.
From stdpp Require Import relations.

(** ** Topological sort *)

Section topo.
Context {T : Type} `{OrdKey T}.
Context (items : list T) (getChildren : T -> result (list T)) (makeCycleError : T -> T -> exn).

(** The variables captured by [dfsVisit]. *)
Record Topo := mkTopo {
  sorted : list T;
  visited : list T;
  parents : list T;
}.

(** The loop over the children of [path]. *)
Fixpoint visit_each (visit : T -> Topo -> result Topo) (path : T) (references : list T) (st : Topo) : result Topo :=
  match references with
  | [] => Ok st
  | i :: references =>
      let* st := if bool_decide (i <> path) && sset_mem i items then visit i st else Ok st in
      visit_each visit path references st
  end.

(** [*parent] is undefined for a null pointer. *)
Fixpoint dfsVisit (fuel : nat) (path : T) (parent : option T) (st : Topo) : result Topo :=
  match fuel with
  | 0 => Err OutOfFuel
  | S fuel =>
      if sset_mem path (parents st) then
        match parent with Some p => throw (makeCycleError path p) | None => Err UndefinedBehaviour end
      else if sset_mem path (visited st) then Ok st
      else
        let st := mkTopo (sorted st) (sset_insert path (visited st)) (sset_insert path (parents st)) in
        let* references := getChildren path in
        let* st := visit_each (fun i => dfsVisit fuel i (Some path)) path references st in
        Ok (mkTopo (sorted st ++ [path]) (visited st) (sset_erase path (parents st)))
  end.

Fixpoint visit_roots (fuel : nat) (l : list T) (st : Topo) : result Topo :=
  match l with
  | [] => Ok st
  | i :: l => let* st := dfsVisit fuel i None st in visit_roots fuel l st
  end.

(** A visit nests at most once per item. *)
Definition topoSort : result (list T) :=
  let* st := visit_roots (S (length items)) items (mkTopo [] [] []) in
  Ok (rev (sorted st)).

(** The edges the sort follows. *)
Definition edge (a b : T) : Prop :=
  a ∈ items /\ b ∈ items /\ a <> b /\ exists cs, getChildren a = Ok cs /\ b ∈ cs.

(** The invariant of the sort: the visited items are the finished ones and the
    ones on the stack, and the children of a finished item finished before it. *)
Record topo_ok (st : Topo) : Prop := {
  tk_nodup : NoDup (sorted st);
  tk_visited : forall x, x ∈ visited st <-> x ∈ sorted st \/ x ∈ parents st;
  tk_disjoint : forall x, x ∈ sorted st -> x ∈ parents st -> False;
  tk_items : forall x, x ∈ visited st -> x ∈ items;
  tk_vwf : sset_wf (visited st);
  tk_pwf : sset_wf (parents st);
  tk_order : forall l1 a l2 b, sorted st = l1 ++ a :: l2 -> edge a b -> b ∈ l1;
}.

(** An edge that closes a cycle. *)
Definition cycle_edge (a b : T) : Prop := edge b a /\ rtc edge a b.

(** Outcome of a visit of [path]: it is finished and the stack is unchanged,
    or a cycle is reported. *)
Definition visit_spec (path : T) (st : Topo) (r : result Topo) : Prop :=
  match r with
  | Ok st' => topo_ok st' /\ parents st' = parents st /\ path ∈ sorted st' /\
              (exists ext, sorted st' = sorted st ++ ext) /\ length (visited st) <= length (visited st')
  | Err f => exists a b, f = Throw (makeCycleError a b) /\ cycle_edge a b
  end.

(** The stack leads to the node being visited. *)
Definition called_from (path : T) (parent : option T) (st : Topo) : Prop :=
  match parent with
  | None => parents st = []
  | Some p => edge p path /\ forall q, q ∈ parents st -> rtc edge q p
  end.

Hypothesis children_total : forall a, a ∈ items -> exists cs, getChildren a = Ok cs.

Lemma visited_bound st : topo_ok st -> length (visited st) <= length items.
Proof.
  intros Hst. apply submseteq_length, NoDup_submseteq; [|apply Hst]. apply sset_nodup, Hst.
Qed.

Lemma visited_bound_new st x : topo_ok st -> x ∈ items -> x ∉ visited st -> length (visited st) < length items.
Proof.
  intros Hst Hx Hn. change (length (x :: visited st) <= length items).
  apply submseteq_length, NoDup_submseteq.
  - constructor; [done|]. apply sset_nodup, Hst.
  - intros y. rewrite elem_of_cons. intros [->|Hy]; [done|]. by apply Hst.
Qed.

(** Pushing a fresh node on the stack keeps the invariant. *)
Lemma topo_push st x :
  topo_ok st -> x ∈ items -> x ∉ visited st ->
  topo_ok (mkTopo (sorted st) (sset_insert x (visited st)) (sset_insert x (parents st))).
Proof.
  intros [Hnd Hvis Hdis Hit Hv Hp Hord] Hx Hn. split; cbn [sorted visited parents].
  - done.
  - intros y. rewrite !sset_insert_elem, Hvis. naive_solver.
  - intros y Hy. rewrite sset_insert_elem. intros [->|Hy']; [|by eapply Hdis]. apply Hn, Hvis. by left.
  - intros y. rewrite sset_insert_elem. naive_solver.
  - by apply sset_insert_wf.
  - by apply sset_insert_wf.
  - done.
Qed.

(** Finishing the node on top of the stack, all its children being finished. *)
Lemma topo_pop st x ps :
  topo_ok st -> x ∉ ps -> sset_wf ps -> parents st = sset_insert x ps ->
  (forall b, edge x b -> b ∈ sorted st) ->
  topo_ok (mkTopo (sorted st ++ [x]) (visited st) (sset_erase x (parents st))) /\
  sset_erase x (parents st) = ps.
Proof.
  intros [Hnd Hvis Hdis Hit Hv Hp Hord] Hx Hps Epar Hch.
  assert (Hxp : x ∈ parents st) by (rewrite Epar, sset_insert_elem; by left).
  assert (Hxs : x ∉ sorted st) by (intros Hs; by eapply Hdis).
  split.
  - split; cbn [sorted visited parents].
    + apply NoDup_app. split; [done|]. split; [|apply NoDup_singleton].
      intros y Hy. rewrite list_elem_of_singleton. by intros ->.
    + intros y. rewrite elem_of_app, list_elem_of_singleton, sset_erase_elem, Hvis.
      destruct (decide (y = x)) as [->|]; naive_solver.
    + intros y. rewrite elem_of_app, list_elem_of_singleton, sset_erase_elem. naive_solver.
    + done.
    + done.
    + by apply sset_erase_wf.
    + intros l1 a l2 b E He. destruct l2 as [|z l2 _] using rev_ind.
      * apply app_inj_tail in E as [<- <-]. by apply Hch.
      * rewrite app_comm_cons, app_assoc in E. apply app_inj_tail in E as [E _]. by eapply Hord.
  - apply sset_ext; [by apply sset_erase_wf|done|]. intros y.
    rewrite sset_erase_elem, Epar, sset_insert_elem. naive_solver.
Qed.

(** The loop over the children: each child among the items is finished. *)
Lemma visit_each_spec visit path cs st0 ps :
  (forall i st, edge path i -> topo_ok st -> parents st = ps -> length (visited st0) <= length (visited st) ->
     visit_spec i st (visit i st)) ->
  (forall i, i ∈ cs -> i ∈ items -> i <> path -> edge path i) ->
  forall st, topo_ok st -> parents st = ps -> length (visited st0) <= length (visited st) ->
  match visit_each visit path cs st with
  | Ok st' => topo_ok st' /\ parents st' = ps /\ (exists ext, sorted st' = sorted st ++ ext) /\
              length (visited st) <= length (visited st') /\
              forall i, i ∈ cs -> i ∈ items -> i <> path -> i ∈ sorted st'
  | Err f => exists a b, f = Throw (makeCycleError a b) /\ cycle_edge a b
  end.
Proof.
  intros Hvisit. induction cs as [|i cs IH]; intros Hcs st Hst Hps Hlen; cbn [visit_each].
  { split; [done|]. split; [done|]. split; [exists []; by rewrite app_nil_r|]. split; [done|]. intros i. by rewrite elem_of_nil. }
  assert (Hcs' : forall i, i ∈ cs -> i ∈ items -> i <> path -> edge path i).
  { intros j Hj. apply Hcs. by apply list_elem_of_further. }
  specialize (IH Hcs'). unfold sset_mem. case_bool_decide as Hne; cbn [andb].
  2: { cbn [rbind]. specialize (IH st Hst Hps Hlen). destruct (visit_each _ _ _ _) as [st'|]; [|done].
       destruct IH as (? & ? & ? & ? & Hall). do 4 (split; [done|]). intros j. rewrite elem_of_cons. naive_solver. }
  case_bool_decide as Hin.
  2: { cbn [rbind]. specialize (IH st Hst Hps Hlen). destruct (visit_each _ _ _ _) as [st'|]; [|done].
       destruct IH as (? & ? & ? & ? & Hall). do 4 (split; [done|]). intros j. rewrite elem_of_cons. naive_solver. }
  assert (edge path i) as He by (apply Hcs; [apply list_elem_of_here|done|done]).
  specialize (Hvisit i st He Hst Hps Hlen). destruct (visit i st) as [st1|f]; [|done]. cbn [rbind].
  destruct Hvisit as (Hst1 & Hp1 & Hi & [e1 E1] & Hl1).
  specialize (IH st1 Hst1 ltac:(congruence) ltac:(lia)). destruct (visit_each _ _ _ _) as [st'|]; [|done].
  destruct IH as (? & ? & [e2 E2] & ? & Hall). split; [done|]. split; [done|]. split; [|split; [lia|]].
  - exists (e1 ++ e2). by rewrite E2, E1, <- app_assoc.
  - intros j. rewrite elem_of_cons. intros [->|Hj] Hji Hjn; [|by apply Hall]. rewrite E2, elem_of_app. by left.
Qed.

Lemma dfsVisit_spec fuel path parent st :
  topo_ok st -> path ∈ items -> called_from path parent st -> length items < length (visited st) + fuel ->
  visit_spec path st (dfsVisit fuel path parent st).
Proof.
  revert path parent st. induction fuel as [|fuel IH]; intros path parent st Hst Hpath Hcall Hfuel.
  { pose proof (visited_bound st Hst). lia. }
  cbn [dfsVisit]. unfold sset_mem. case_bool_decide as Hpar.
  { destruct parent as [p|]; cbn [called_from] in Hcall.
    - destruct Hcall as [He Hq]. exists path, p. split; [done|]. split; [done|]. by apply Hq.
    - rewrite Hcall in Hpar. by apply elem_of_nil in Hpar. }
  case_bool_decide as Hvis.
  { split; [done|]. split; [done|]. split; [|split; [|lia]].
    - apply Hst in Hvis as [?|?]; done.
    - exists []. by rewrite app_nil_r. }
  destruct (children_total path Hpath) as [cs Hcs]. rewrite Hcs. cbn [rbind].
  set (st1 := mkTopo (sorted st) (sset_insert path (visited st)) (sset_insert path (parents st))).
  assert (Hst1 : topo_ok st1) by by apply topo_push.
  assert (Hl1 : length (visited st1) = S (length (visited st))) by by apply sset_insert_length.
  pose proof (visit_each_spec (fun i => dfsVisit fuel i (Some path)) path cs st1 (parents st1)) as Heach.
  specialize (Heach ltac:(
    intros i st2 He Hst2 Hp2 Hlen; apply IH; [done|apply He| |lia]; split; [done|];
    intros q; rewrite Hp2; unfold st1; cbn [parents]; rewrite sset_insert_elem; intros [->|Hq]; [done|];
    destruct parent as [p|]; cbn [called_from] in Hcall;
      [eapply rtc_r; [by apply Hcall|apply Hcall]|rewrite Hcall in Hq; by apply elem_of_nil in Hq])).
  specialize (Heach ltac:(intros i Hi Hii Hne; split; [done|]; split; [done|]; split; [congruence|]; by exists cs)).
  specialize (Heach st1 Hst1 eq_refl ltac:(lia)).
  destruct (visit_each _ _ _ _) as [st2|f]; [|done]. cbn [rbind].
  destruct Heach as (Hst2 & Hp2 & [ext Hext] & Hl2 & Hall).
  destruct (topo_pop st2 path (parents st) Hst2 Hpar (tk_pwf _ Hst) Hp2) as [Hst3 Hp3].
  { intros b (_ & Hb & Hne & cs' & Hcs' & Hin). rewrite Hcs in Hcs'. injection Hcs' as <-. apply Hall; done. }
  split; [done|]. split; [done|]. cbn [sorted visited]. split; [|split].
  - rewrite elem_of_app, list_elem_of_singleton. by right.
  - exists (ext ++ [path]). by rewrite Hext, <- app_assoc.
  - lia.
Qed.

Lemma visit_roots_spec fuel l st :
  topo_ok st -> parents st = [] -> length items < fuel -> (forall x, x ∈ l -> x ∈ items) ->
  match visit_roots fuel l st with
  | Ok st' => topo_ok st' /\ parents st' = [] /\ (forall x, x ∈ l -> x ∈ sorted st') /\
              (exists ext, sorted st' = sorted st ++ ext)
  | Err f => exists a b, f = Throw (makeCycleError a b) /\ cycle_edge a b
  end.
Proof.
  intros Hst Hp Hfuel. revert st Hst Hp. induction l as [|i l IH]; intros st Hst Hp Hl; cbn [visit_roots].
  { split; [done|]. split; [done|]. split; [intros x; by rewrite elem_of_nil|]. exists []. by rewrite app_nil_r. }
  pose proof (dfsVisit_spec fuel i None st Hst (Hl i ltac:(apply list_elem_of_here)) Hp ltac:(lia)) as Hv.
  destruct (dfsVisit fuel i None st) as [st1|f]; [|done]. cbn [rbind].
  destruct Hv as (Hst1 & Hp1 & Hi & [e1 E1] & _).
  specialize (IH st1 Hst1 ltac:(congruence) ltac:(intros x Hx; apply Hl; by apply list_elem_of_further)).
  destruct (visit_roots fuel l st1) as [st'|f]; [|done]. destruct IH as (? & ? & Hall & [e2 E2]).
  split; [done|]. split; [done|]. split.
  - intros x. rewrite elem_of_cons. intros [->|Hx]; [|by apply Hall]. rewrite E2, elem_of_app. by left.
  - exists (e1 ++ e2). by rewrite E2, E1, <- app_assoc.
Qed.

Lemma topo_tc st x y l1 l2 :
  topo_ok st -> tc edge x y -> sorted st = l1 ++ x :: l2 -> y ∈ l1.
Proof.
  intros Hst Hxy. revert l1 l2. induction Hxy as [x y He|x z y He _ IH]; intros l1 l2 E.
  - by eapply tk_order.
  - pose proof (tk_order _ Hst _ _ _ _ E He) as Hz. apply list_elem_of_split in Hz as (k1 & k2 & ->).
    rewrite <- app_assoc in E. specialize (IH _ _ E). rewrite elem_of_app. by left.
Qed.
End topo.

(** [a] comes before [b]. *)
Definition before {T} (a b : T) (l : list T) : Prop := exists l1 l2 l3, l = l1 ++ a :: l2 ++ b :: l3.

Lemma topoSort_cases {T} `{OrdKey T} (items : list T) getChildren makeCycleError :
  sset_wf items -> (forall a, a ∈ items -> exists cs, getChildren a = Ok cs) ->
  ((forall a b, ~ cycle_edge items getChildren a b) ->
   exists l, topoSort items getChildren makeCycleError = Ok l /\ Permutation l items /\
     forall a b, edge items getChildren a b -> before a b l) /\
  ((exists a b, cycle_edge items getChildren a b) ->
   exists a b, topoSort items getChildren makeCycleError = throw (makeCycleError a b) /\
     cycle_edge items getChildren a b).
Proof.
  intros Hwf Hch. unfold topoSort.
  pose proof (visit_roots_spec items getChildren makeCycleError Hch (S (length items)) items
    (mkTopo [] [] [])) as Hv.
  specialize (Hv ltac:(split; cbn; [constructor|intros x; rewrite elem_of_nil; naive_solver|
    intros x; by rewrite elem_of_nil|intros x; by rewrite elem_of_nil|constructor|constructor|by intros []])
    eq_refl ltac:(lia) ltac:(done)).
  destruct (visit_roots _ _ _ _) as [st|f]; cbn [rbind].
  - destruct Hv as (Hst & Hp & Hall & _). split.
    + intros Hac. exists (rev (sorted st)). split; [done|]. split.
      * rewrite <- Permutation_rev. apply NoDup_Permutation; [apply Hst|by apply sset_nodup|].
        intros x. split; [|apply Hall]. intros Hx. apply Hst, Hst. by left.
      * intros a b He. assert (Ha : a ∈ sorted st) by apply Hall, He.
        apply list_elem_of_split in Ha as (l1 & l2 & E).
        pose proof (tk_order _ _ _ Hst _ _ _ _ E He) as Hb. apply list_elem_of_split in Hb as (k1 & k2 & ->).
        exists (rev l2), (rev k2), (rev k1). rewrite E, !rev_app_distr. cbn [rev].
        by rewrite <- !app_assoc.
    + intros (a & b & He & Hr). exfalso. assert (Hb : b ∈ sorted st) by apply Hall, He.
      apply list_elem_of_split in Hb as (l1 & l2 & E).
      assert (Hin : b ∈ l1).
      { eapply (topo_tc items getChildren st b b); [done|by eapply tc_rtc_r; [apply tc_once|]|done]. }
      pose proof (tk_nodup _ _ _ Hst) as Hnd. rewrite E in Hnd. apply NoDup_app in Hnd as (_ & Hnd & _).
      by apply (Hnd b Hin), list_elem_of_here.
  - destruct Hv as (a & b & -> & Hc). split; [|by eauto]. intros Hac. by destruct (Hac a b).
Qed.

(** C30: the topological sort is correct and complete. Without a cycle among
    the items it returns all of them, each exactly once, every item before
    the items it refers to; with a cycle it throws the cycle error, and the
    reported pair is an edge that lies on a cycle. It terminates in both
    cases and never dereferences the null parent. *)
Theorem topoSort_spec {T} `{OrdKey T} (items : list T) getChildren makeCycleError :
  sset_wf items -> (forall a, a ∈ items -> exists cs, getChildren a = Ok cs) ->
  ((forall a b, ~ cycle_edge items getChildren a b) ->
   exists l, topoSort items getChildren makeCycleError = Ok l /\ Permutation l items /\
     forall a b, edge items getChildren a b -> before a b l) /\
  ((exists a b, cycle_edge items getChildren a b) ->
   exists a b, topoSort items getChildren makeCycleError = throw (makeCycleError a b) /\
     cycle_edge items getChildren a b).
Proof. apply topoSort_cases. Qed.

Definition example_children (a : bytes) : result (list bytes) :=
  Ok (if bool_decide (a = L "a") then [L "a"; L "b"; L "c"; L "z"]
      else if bool_decide (a = L "c") then [L "b"] else []).

Lemma topoSort_spec_witness :
  let items := [L "a"; L "b"; L "c"] in
  topoSort items example_children (fun _ _ => Error) = Ok [L "a"; L "c"; L "b"] /\
  (((forall a b, ~ cycle_edge items example_children a b) ->
    exists l, topoSort items example_children (fun _ _ => Error) = Ok l /\ Permutation l items /\
      forall a b, edge items example_children a b -> before a b l) /\
   ((exists a b, cycle_edge items example_children a b) ->
    exists a b, topoSort items example_children (fun _ _ => Error) = throw ((fun _ _ => Error) a b) /\
      cycle_edge items example_children a b)).
Proof.
  cbv zeta. split; [by vm_compute|]. apply topoSort_spec.
  - by repeat constructor.
  - intros a _. eexists. reflexivity.
Defined.

(** ** Closures

    The threads of [computeClosure] only interact under the lock of [State];
    a step of the model is one critical section. [getEdges] is the answer
    that the asynchronous query delivers through its promise; the query calls
    its continuation exactly once, in any thread and at any time. *)

Section closure.
Context {T : Type} `{OrdKey T} (getEdges : T -> result (list T)).

(** An element whose edges are being queried, or whose children are being
    enqueued. *)
Inductive Task :=
| Querying (x : T)
| Enqueueing (x : T) (children : list T).

Record ClosureState := mkClosure {
  cs_start : list T;  (** start elements not yet enqueued by the main thread *)
  cs_tasks : list Task;
  cs_pending : nat;
  cs_res : list T;
  cs_exc : option failure;
}.

Definition closure_init (startElts res : list T) : ClosureState := mkClosure startElts [] 0 res None.

(** [enqueue(current)]: the new state of [res] and [pending], and the query
    that is started. *)
Definition enqueue (current : T) (st : ClosureState) : ClosureState :=
  match cs_exc st with
  | Some _ => st
  | None =>
      if sset_mem current (cs_res st) then st
      else mkClosure (cs_start st) (Querying current :: cs_tasks st) (S (cs_pending st))
             (sset_insert current (cs_res st)) (cs_exc st)
  end.

Definition set_tasks (tasks : list Task) (st : ClosureState) : ClosureState :=
  mkClosure (cs_start st) tasks (cs_pending st) (cs_res st) (cs_exc st).

(** The end of a callback, in the normal and in the exceptional case; none if
    [assert(state->pending)] fails. *)
Definition finish (failed : option failure) (st : ClosureState) : option ClosureState :=
  match cs_pending st with
  | 0 => None
  | S n => Some (mkClosure (cs_start st) (cs_tasks st) n (cs_res st)
                   (match cs_exc st with Some e => Some e | None => failed end))
  end.

Inductive closure_step : ClosureState -> ClosureState -> Prop :=
| step_start x xs st :
    cs_start st = x :: xs ->
    closure_step st (enqueue x (mkClosure xs (cs_tasks st) (cs_pending st) (cs_res st) (cs_exc st)))
| step_edges x l1 l2 cs st :
    cs_tasks st = l1 ++ Querying x :: l2 -> getEdges x = Ok cs ->
    closure_step st (set_tasks (l1 ++ Enqueueing x cs :: l2) st)
| step_edges_failed x l1 l2 e st st' :
    cs_tasks st = l1 ++ Querying x :: l2 -> getEdges x = Err e ->
    finish (Some e) (set_tasks (l1 ++ l2) st) = Some st' -> closure_step st st'
| step_child x c cs l1 l2 st :
    cs_tasks st = l1 ++ Enqueueing x (c :: cs) :: l2 ->
    closure_step st (enqueue c (set_tasks (l1 ++ Enqueueing x cs :: l2) st))
| step_finish x l1 l2 st st' :
    cs_tasks st = l1 ++ Enqueueing x [] :: l2 ->
    finish None (set_tasks (l1 ++ l2) st) = Some st' -> closure_step st st'.

(** The main thread leaves its wait loop when nothing is pending. *)
Definition closure_final (st : ClosureState) : Prop := cs_start st = [] /\ cs_pending st = 0.
Definition closure_result (st : ClosureState) : result (list T) :=
  match cs_exc st with Some e => Err e | None => Ok (cs_res st) end.

(** One schedule: the main thread first, then the newest task. *)
Definition closure_next (st : ClosureState) : option ClosureState :=
  match cs_start st with
  | x :: xs => Some (enqueue x (mkClosure xs (cs_tasks st) (cs_pending st) (cs_res st) (cs_exc st)))
  | [] =>
      match cs_tasks st with
      | [] => None
      | Querying x :: ts =>
          match getEdges x with
          | Ok cs => Some (set_tasks (Enqueueing x cs :: ts) st)
          | Err e => finish (Some e) (set_tasks ts st)
          end
      | Enqueueing x (c :: cs) :: ts => Some (enqueue c (set_tasks (Enqueueing x cs :: ts) st))
      | Enqueueing x [] :: ts => finish None (set_tasks ts st)
      end
  end.

Fixpoint closure_run (fuel : nat) (st : ClosureState) : result ClosureState :=
  match closure_next st with
  | None => Ok st
  | Some st' => match fuel with 0 => Err OutOfFuel | S fuel => closure_run fuel st' end
  end.

(** The whole computation under that schedule. *)
Definition computeClosure (fuel : nat) (startElts res : list T) : result (list T) :=
  let* st := closure_run fuel (closure_init startElts res) in closure_result st.

(** What the closure should contain: the start elements and whatever can be
    reached from them, without going through elements that were in [res]
    before. *)
Inductive discovered (startElts res0 : list T) : T -> Prop :=
| disc_start x : x ∈ startElts -> discovered startElts res0 x
| disc_edge x cs c : discovered startElts res0 x -> x ∉ res0 -> getEdges x = Ok cs -> c ∈ cs ->
    discovered startElts res0 c.

Lemma closure_next_step st st' : closure_next st = Some st' -> closure_step st st'.
Proof.
  unfold closure_next. destruct (cs_start st) as [|x xs] eqn:Es; [|intros [= <-]; by eapply step_start].
  destruct (cs_tasks st) as [|[x|x [|c cs]] ts] eqn:Et; [done|..].
  - destruct (getEdges x) as [cs|e] eqn:Eg.
    + intros [= <-]. by apply (step_edges x [] ts).
    + intros Hf. by eapply (step_edges_failed x [] ts).
  - intros Hf. by eapply (step_finish x [] ts).
  - intros [= <-]. by apply (step_child x c cs [] ts).
Qed.

Lemma closure_run_steps fuel st st' : closure_run fuel st = Ok st' -> rtc closure_step st st' /\ closure_next st' = None.
Proof.
  revert st. induction fuel as [|fuel IH]; intros st; cbn [closure_run]; destruct (closure_next st) as [st1|] eqn:E.
  - done.
  - by intros [= <-].
  - intros Hr. destruct (IH _ Hr) as [? ?]. split; [|done]. eapply rtc_l; [by apply closure_next_step|done].
  - by intros [= <-].
Qed.

Section closure_proof.
Context (start0 res0 : list T).
Hypothesis res0_wf : sset_wf res0.
Local Notation disc := (discovered start0 res0).

Definition task_node (t : Task) : T := match t with Querying x => x | Enqueueing x _ => x end.

(** A task works on an element that was added, and its children come from
    the query. *)
Definition task_ok (res : list T) (t : Task) : Prop :=
  task_node t ∈ res /\ task_node t ∉ res0 /\ disc (task_node t) /\
  match t with
  | Querying _ => True
  | Enqueueing x cs => exists all, getEdges x = Ok all /\ forall c, c ∈ cs -> c ∈ all
  end.

(** The edges of [x] are still being dealt with, or already in the result. *)
Definition edges_covered (res : list T) (tasks : list Task) (x : T) : Prop :=
  Querying x ∈ tasks \/
  exists all, getEdges x = Ok all /\
    forall c, c ∈ all -> c ∈ res \/ exists cs, Enqueueing x cs ∈ tasks /\ c ∈ cs.

Record closure_inv (st : ClosureState) : Prop := {
  ci_pending : cs_pending st = length (cs_tasks st);
  ci_wf : sset_wf (cs_res st);
  ci_old : forall x, x ∈ res0 -> x ∈ cs_res st;
  ci_sound : forall x, x ∈ cs_res st -> x ∈ res0 \/ disc x;
  ci_start : forall x, x ∈ cs_start st -> x ∈ start0;
  ci_tasks : Forall (task_ok (cs_res st)) (cs_tasks st);
  ci_exc : forall e, cs_exc st = Some e -> exists x, disc x /\ x ∉ res0 /\ getEdges x = Err e;
  ci_started : cs_exc st = None -> forall x, x ∈ start0 -> x ∈ cs_res st \/ x ∈ cs_start st;
  ci_covered : cs_exc st = None -> forall x, x ∈ cs_res st -> x ∉ res0 ->
    edges_covered (cs_res st) (cs_tasks st) x;
}.

Lemma task_ok_mono res res' t : (forall x, x ∈ res -> x ∈ res') -> task_ok res t -> task_ok res' t.
Proof. intros Hr (? & ? & ? & ?). repeat split; auto. Qed.

(** Enqueueing a discovered element; [x] may be owed to the start elements or
    to a task that has just been shortened. *)
Lemma enqueue_inv x st :
  disc x ->
  cs_pending st = length (cs_tasks st) -> sset_wf (cs_res st) -> (forall y, y ∈ res0 -> y ∈ cs_res st) ->
  (forall y, y ∈ cs_res st -> y ∈ res0 \/ disc y) -> (forall y, y ∈ cs_start st -> y ∈ start0) ->
  Forall (task_ok (cs_res st)) (cs_tasks st) ->
  (forall e, cs_exc st = Some e -> exists y, disc y /\ y ∉ res0 /\ getEdges y = Err e) ->
  (cs_exc st = None -> forall y, y ∈ start0 -> y ∈ cs_res st \/ y ∈ cs_start st \/ y = x) ->
  (cs_exc st = None -> forall y, y ∈ cs_res st -> y ∉ res0 -> edges_covered (x :: cs_res st) (cs_tasks st) y) ->
  closure_inv (enqueue x st).
Proof.
  intros Hx Hpend Hwf Hold Hsound Hstart Htasks Hexc Hstarted Hcov. unfold enqueue.
  destruct (cs_exc st) as [e|] eqn:Ee; [split; try done; by rewrite Ee|].
  unfold sset_mem. case_bool_decide as Hin.
  - split; try done; rewrite Ee; try done.
    + intros _ y Hy. destruct (Hstarted eq_refl y Hy) as [?|[?| ->]]; auto.
    + intros _ y Hy Hn. destruct (Hcov eq_refl y Hy Hn) as [?|(all & Ha & Hc)]; [by left|].
      right. exists all. split; [done|]. intros c Hcin. destruct (Hc c Hcin) as [[->|?]%elem_of_cons|?]; auto.
  - split; cbn [cs_pending cs_tasks cs_res cs_start cs_exc length]; rewrite ?Ee; try done.
    + by rewrite Hpend.
    + by apply sset_insert_wf.
    + intros y Hy. rewrite sset_insert_elem. auto.
    + intros y. rewrite sset_insert_elem. intros [->|Hy]; auto.
    + constructor.
      * repeat split; cbn [task_node]; [apply sset_insert_elem; by left|by intros ?%Hold|done].
      * eapply Forall_impl; [done|]. intros t. apply task_ok_mono. intros y Hy. apply sset_insert_elem. by right.
    + intros _ y Hy. rewrite sset_insert_elem. destruct (Hstarted eq_refl y Hy) as [?|[?|?]]; auto.
    + intros _ y. rewrite sset_insert_elem. intros [->|Hy] Hn; [left; apply list_elem_of_here|].
      destruct (Hcov eq_refl y Hy Hn) as [?|(all & Ha & Hc)]; [left; by apply list_elem_of_further|].
      right. exists all. split; [done|]. intros c Hcin. rewrite sset_insert_elem.
      destruct (Hc c Hcin) as [[->|?]%elem_of_cons|(cs & Hcs & ?)]; [left; by left|left; by right|].
      right. exists cs. split; [by apply list_elem_of_further|done].
Qed.

(** Replacing one task of a covered state. *)
Lemma covered_replace res res' l1 l2 t ts y :
  (forall c, c ∈ res -> c ∈ res') ->
  edges_covered res (l1 ++ t :: l2) y ->
  (y = task_node t -> edges_covered res' (l1 ++ ts ++ l2) y) ->
  edges_covered res' (l1 ++ ts ++ l2) y.
Proof.
  intros Hr Hc Ht. destruct (decide (y = task_node t)) as [->|Hne]; [by apply Ht|].
  assert (Hin : forall u, u <> t -> u ∈ l1 ++ t :: l2 -> u ∈ l1 ++ ts ++ l2).
  { intros u Hu. rewrite !elem_of_app, elem_of_cons. naive_solver. }
  destruct Hc as [Hq|(all & Ha & Hc)].
  - left. apply Hin; [|done]. by intros <-.
  - right. exists all. split; [done|]. intros c Hcin. destruct (Hc c Hcin) as [?|(cs & Hcs & Hin')]; [auto|].
    right. exists cs. split; [|done]. apply Hin; [|done]. by intros <-.
Qed.

Lemma disc_child x cs c : disc x -> x ∉ res0 -> getEdges x = Ok cs -> c ∈ cs -> disc c.
Proof. apply disc_edge. Qed.

Lemma step_start_inv x xs st :
  closure_inv st -> cs_start st = x :: xs ->
  closure_inv (enqueue x (mkClosure xs (cs_tasks st) (cs_pending st) (cs_res st) (cs_exc st))).
Proof.
  intros [] Es. rewrite Es in *. apply enqueue_inv; cbn [cs_pending cs_tasks cs_res cs_start cs_exc]; try done.
  - apply disc_start, ci_start0, list_elem_of_here.
  - intros y Hy. apply ci_start0. by apply list_elem_of_further.
  - intros He y Hy. destruct (ci_started0 He y Hy) as [?|[->|?]%elem_of_cons]; auto.
  - intros He y Hy Hn. destruct (ci_covered0 He y Hy Hn) as [?|(all & Ha & Hc)]; [by left|].
    right. exists all. split; [done|]. intros c Hc'. destruct (Hc c Hc') as [?|?]; [left|by right].
    by apply list_elem_of_further.
Qed.

Lemma step_edges_inv x l1 l2 cs st :
  closure_inv st -> cs_tasks st = l1 ++ Querying x :: l2 -> getEdges x = Ok cs ->
  closure_inv (set_tasks (l1 ++ Enqueueing x cs :: l2) st).
Proof.
  intros [] Et Hcs. rewrite Et in *. split; cbn [set_tasks cs_pending cs_tasks cs_res cs_start cs_exc]; try done.
  - rewrite ci_pending0, !length_app. done.
  - rewrite Forall_app, Forall_cons in ci_tasks0 |- *. destruct ci_tasks0 as (? & (? & ? & ? & _) & ?).
    split; [done|]. split; [|done]. repeat split; try done. exists cs. done.
  - intros He y Hy Hn. eapply (covered_replace (cs_res st) _ l1 l2 (Querying x) [Enqueueing x cs]); [done|by apply ci_covered0|].
    intros ->. right. exists cs. split; [done|]. intros c Hc. right. exists cs. split; [|done].
    rewrite elem_of_app. right. apply list_elem_of_here.
Qed.

Lemma step_edges_failed_inv x l1 l2 e st st' :
  closure_inv st -> cs_tasks st = l1 ++ Querying x :: l2 -> getEdges x = Err e ->
  finish (Some e) (set_tasks (l1 ++ l2) st) = Some st' -> closure_inv st'.
Proof.
  intros [] Et Herr Hf. rewrite Et in *. unfold finish, set_tasks in Hf. cbn in Hf.
  destruct (cs_pending st) as [|n] eqn:Ep; [done|]. injection Hf as <-.
  rewrite Forall_app, Forall_cons in ci_tasks0. destruct ci_tasks0 as (? & (? & ? & ? & _) & ?).
  split; cbn [cs_pending cs_tasks cs_res cs_start cs_exc]; try done.
  - rewrite !length_app in *. cbn [length] in *. lia.
  - rewrite Forall_app. done.
  - intros e'. destruct (cs_exc st) as [e0|] eqn:Ee; intros [= <-]; [by apply ci_exc0|]. by exists x.
  - by destruct (cs_exc st).
  - by destruct (cs_exc st).
Qed.

Lemma step_child_inv x c cs l1 l2 st :
  closure_inv st -> cs_tasks st = l1 ++ Enqueueing x (c :: cs) :: l2 ->
  closure_inv (enqueue c (set_tasks (l1 ++ Enqueueing x cs :: l2) st)).
Proof.
  intros [] Et. rewrite Et in *.
  rewrite Forall_app, Forall_cons in ci_tasks0. destruct ci_tasks0 as (? & (? & ? & ? & all & Hall & Hin) & ?).
  cbn [task_node] in *.
  apply enqueue_inv; cbn [set_tasks cs_pending cs_tasks cs_res cs_start cs_exc]; try done.
  - eapply (disc_child x); [done..|]. apply Hin, list_elem_of_here.
  - rewrite ci_pending0, !length_app. done.
  - rewrite Forall_app, Forall_cons. split; [done|]. split; [|done]. repeat split; try done.
    exists all. split; [done|]. intros d Hd. apply Hin. by apply list_elem_of_further.
  - intros He y Hy. destruct (ci_started0 He y Hy); auto.
  - intros He y Hy Hn.
    eapply (covered_replace (cs_res st) _ l1 l2 (Enqueueing x (c :: cs)) [Enqueueing x cs]);
      [|by apply ci_covered0|]; [intros d; apply list_elem_of_further|].
    cbn [task_node app]. intros ->. destruct (ci_covered0 He x Hy Hn) as [Hq|(all' & Ha' & Hc')].
    + left. rewrite elem_of_app, elem_of_cons in Hq |- *. naive_solver.
    + right. exists all'. split; [done|]. intros d Hd. destruct (Hc' d Hd) as [?|(cs' & Hcs' & Hd')].
      { left. by apply list_elem_of_further. }
      rewrite elem_of_app, elem_of_cons in Hcs'. destruct Hcs' as [Hl|[[= ->]|Hl]].
      * right. exists cs'. split; [|done]. rewrite elem_of_app. by left.
      * apply elem_of_cons in Hd' as [->|Hd']; [left; apply list_elem_of_here|].
        right. exists cs. split; [|done]. rewrite elem_of_app. right. apply list_elem_of_here.
      * right. exists cs'. split; [|done]. rewrite elem_of_app. right. by apply list_elem_of_further.
Qed.

Lemma step_finish_inv x l1 l2 st st' :
  closure_inv st -> cs_tasks st = l1 ++ Enqueueing x [] :: l2 ->
  finish None (set_tasks (l1 ++ l2) st) = Some st' -> closure_inv st'.
Proof.
  intros [] Et Hf. rewrite Et in *. unfold finish, set_tasks in Hf. cbn in Hf.
  destruct (cs_pending st) as [|n] eqn:Ep; [done|]. injection Hf as <-.
  rewrite Forall_app, Forall_cons in ci_tasks0. destruct ci_tasks0 as (? & _ & ?).
  assert (Hexc : match cs_exc st with Some e => Some e | None => None end = cs_exc st) by by destruct (cs_exc st).
  split; cbn [cs_pending cs_tasks cs_res cs_start cs_exc]; rewrite ?Hexc; try done.
  - rewrite !length_app in *. cbn [length] in *. lia.
  - rewrite Forall_app. done.
  - intros He y Hy Hn. eapply (covered_replace (cs_res st) _ l1 l2 (Enqueueing x []) []); [done|by apply ci_covered0|].
    cbn [task_node app]. intros ->. destruct (ci_covered0 He x Hy Hn) as [Hq|(all & Ha & Hc)].
    + left. rewrite elem_of_app, elem_of_cons in Hq. rewrite elem_of_app. naive_solver.
    + right. exists all. split; [done|]. intros d Hd. destruct (Hc d Hd) as [?|(cs & Hcs & Hd')]; [by left|].
      right. exists cs. split; [|done]. rewrite elem_of_app, elem_of_cons in Hcs. rewrite elem_of_app.
      destruct Hcs as [?|[[= ->]|?]]; [by left| |by right]. by apply elem_of_nil in Hd'.
Qed.

Lemma closure_step_inv st st' : closure_step st st' -> closure_inv st -> closure_inv st'.
Proof.
  intros Hs Hi. destruct Hs.
  - by apply step_start_inv.
  - by eapply step_edges_inv.
  - by eapply step_edges_failed_inv.
  - by apply step_child_inv.
  - by eapply step_finish_inv.
Qed.

Lemma closure_inv_init : closure_inv (closure_init start0 res0).
Proof. split; cbn; try done; naive_solver. Qed.

Lemma closure_reachable_inv st : rtc closure_step (closure_init start0 res0) st -> closure_inv st.
Proof.
  intros Hr. pose proof closure_inv_init as Hi. revert Hi. induction Hr; [done|]. eauto using closure_step_inv.
Qed.

Lemma closure_inv_final st :
  closure_inv st -> closure_final st -> cs_exc st = None ->
  (forall x, x ∈ cs_res st <-> x ∈ res0 \/ disc x) /\
  (forall x, disc x -> x ∉ res0 -> exists cs, getEdges x = Ok cs).
Proof.
  intros [] [Hs Hp] He. rewrite Hp in ci_pending0. symmetry in ci_pending0. apply nil_length_inv in ci_pending0.
  rewrite ci_pending0 in *. rewrite Hs in *.
  assert (Hedges : forall x, x ∈ cs_res st -> x ∉ res0 ->
    exists all, getEdges x = Ok all /\ forall c, c ∈ all -> c ∈ cs_res st).
  { intros x Hx Hn. destruct (ci_covered0 He x Hx Hn) as [Hq|(all & Ha & Hc)]; [by apply elem_of_nil in Hq|].
    exists all. split; [done|]. intros c Hcin. destruct (Hc c Hcin) as [?|(cs & Hcs & _)]; [done|].
    by apply elem_of_nil in Hcs. }
  assert (Hdisc : forall x, disc x -> x ∈ cs_res st).
  { induction 1 as [x Hx|x cs c Hx IH Hn Hcs Hc].
    - destruct (ci_started0 He x Hx) as [?|Hin]; [done|]. by apply elem_of_nil in Hin.
    - destruct (Hedges x IH Hn) as (all & Ha & Hall). apply Hall. congruence. }
  split.
  - intros x. split; [apply ci_sound0|]. intros [?|?]; auto.
  - intros x Hx Hn. destruct (Hedges x (Hdisc x Hx) Hn) as (all & Ha & _). eauto.
Qed.

(** The main thread cannot get stuck. *)
Lemma closure_progress st : closure_inv st -> ~ closure_final st -> exists st', closure_step st st'.
Proof.
  intros [] Hnf. destruct (cs_start st) as [|x xs] eqn:Es; [|eexists; by eapply step_start].
  destruct (cs_pending st) as [|n] eqn:Ep; [by destruct Hnf|].
  destruct (cs_tasks st) as [|[x|x [|c cs]] ts] eqn:Et; [done|..].
  - destruct (getEdges x) as [cs|e] eqn:Eg; eexists; [by eapply (step_edges x [])|].
    eapply (step_edges_failed x []); [done..|]. unfold finish. cbn. by rewrite Ep.
  - eexists. eapply (step_finish x []); [done|]. unfold finish. cbn. by rewrite Ep.
  - eexists. by eapply (step_child x c cs []).
Qed.

(** The schedule stops only at the end. *)
Lemma closure_next_final st : closure_inv st -> closure_next st = None -> closure_final st.
Proof.
  intros [] Hn. unfold closure_next in Hn. destruct (cs_start st) as [|x xs] eqn:Es; [|done]. split; [done|].
  destruct (cs_tasks st) as [|[x|x [|c cs]] ts] eqn:Et; [done|..]; unfold finish, set_tasks in Hn; cbn in Hn.
  - destruct (getEdges x); [done|]. by destruct (cs_pending st).
  - by destruct (cs_pending st).
  - done.
Qed.

(** The work left for a task when no new element turns up. *)
Definition task_work (t : Task) : nat :=
  match t with
  | Querying x => 2 + match getEdges x with Ok cs => length cs | Err _ => 0 end
  | Enqueueing _ cs => 1 + length cs
  end.
Definition closure_work (st : ClosureState) : nat := length (cs_start st) + sum_list (task_work <$> cs_tasks st).

Lemma sum_work_app l1 l2 : sum_list (task_work <$> (l1 ++ l2)) = sum_list (task_work <$> l1) + sum_list (task_work <$> l2).
Proof. induction l1 as [|t l1 IH]; cbn; [done|]. cbn in IH. lia. Qed.

Lemma enqueue_measure x st :
  (cs_res (enqueue x st) = cs_res st /\ closure_work (enqueue x st) = closure_work st) \/
  length (cs_res (enqueue x st)) = S (length (cs_res st)).
Proof.
  unfold enqueue. destruct (cs_exc st); [by left|]. unfold sset_mem. case_bool_decide; [by left|].
  right. by apply sset_insert_length.
Qed.

(** Every step adds an element or reduces the work. *)
Lemma closure_step_measure st st' :
  closure_step st st' ->
  (length (cs_res st') = length (cs_res st) /\ closure_work st' < closure_work st) \/
  length (cs_res st') = S (length (cs_res st)).
Proof.
  destruct 1 as [x xs st Es|x l1 l2 cs st Et Hcs|x l1 l2 e st st' Et He Hf|x c cs l1 l2 st Et|x l1 l2 st st' Et Hf].
  - destruct (enqueue_measure x (mkClosure xs (cs_tasks st) (cs_pending st) (cs_res st) (cs_exc st))) as [[E1 E2]|E];
      [left|by right]. rewrite E1, E2. unfold closure_work. cbn. rewrite Es. cbn. split; [done|lia].
  - left. unfold closure_work, set_tasks. cbn [cs_res cs_start cs_tasks]. rewrite Et, !sum_work_app. cbn.
    rewrite Hcs. split; [done|lia].
  - left. unfold finish in Hf. cbn in Hf. destruct (cs_pending st); [done|]. injection Hf as <-.
    unfold closure_work. cbn [cs_res cs_start cs_tasks]. rewrite Et, !sum_work_app. cbn. split; [done|lia].
  - destruct (enqueue_measure c (set_tasks (l1 ++ Enqueueing x cs :: l2) st)) as [[E1 E2]|E]; [left|by right].
    rewrite E1, E2. unfold closure_work, set_tasks. cbn [cs_res cs_start cs_tasks]. rewrite Et, !sum_work_app. cbn.
    split; [done|lia].
  - left. unfold finish in Hf. cbn in Hf. destruct (cs_pending st); [done|]. injection Hf as <-.
    unfold closure_work. cbn [cs_res cs_start cs_tasks]. rewrite Et, !sum_work_app. cbn. split; [done|lia].
Qed.

Lemma closure_res_bound (U : list T) st :
  (forall x, x ∈ res0 \/ disc x -> x ∈ U) -> closure_inv st -> length (cs_res st) <= length U.
Proof.
  intros HU []. apply submseteq_length, NoDup_submseteq; [by apply sset_nodup|]. intros x Hx. by apply HU, ci_sound0.
Qed.

Lemma closure_terminates (U : list T) st :
  (forall x, x ∈ res0 \/ disc x -> x ∈ U) -> closure_inv st -> Acc (flip closure_step) st.
Proof.
  intros HU. remember (length U - length (cs_res st)) as n eqn:En. revert st En.
  induction n as [n IHn] using lt_wf_ind. intros st. remember (closure_work st) as m eqn:Em. revert st Em.
  induction m as [m IHm] using lt_wf_ind. intros st Em En Hi. constructor. intros st' Hs. red in Hs.
  pose proof (closure_step_inv _ _ Hs Hi) as Hi'. pose proof (closure_res_bound U st' HU Hi') as Hb.
  destruct (closure_step_measure _ _ Hs) as [[E1 E2]|E].
  - eapply IHm; [|done| |done]; [lia|]. lia.
  - eapply IHn; [|done|done]. lia.
Qed.

(** An element adds at most its own query and the enqueueing of its children. *)
Lemma enqueue_work B x st :
  (forall cs, getEdges x = Ok cs -> length cs <= B) -> closure_work (enqueue x st) <= closure_work st + 2 + B.
Proof.
  intros HB. unfold enqueue. destruct (cs_exc st); [lia|]. destruct (sset_mem x (cs_res st)); [lia|].
  unfold closure_work. cbn. destruct (getEdges x) as [cs|]; [specialize (HB cs eq_refl)|]; lia.
Qed.

Lemma closure_next_bound (U : list T) B st st' :
  (forall x, x ∈ res0 \/ disc x -> x ∈ U) -> (forall x cs, getEdges x = Ok cs -> length cs <= B) ->
  closure_inv st -> closure_next st = Some st' ->
  (length U - length (cs_res st')) * (B + 3) + closure_work st' < (length U - length (cs_res st)) * (B + 3) + closure_work st.
Proof.
  intros HU HB Hi Hn. pose proof (closure_next_step _ _ Hn) as Hs. pose proof (closure_step_inv _ _ Hs Hi) as Hi'.
  pose proof (closure_res_bound U st' HU Hi') as Hb. destruct (closure_step_measure _ _ Hs) as [[E1 E2]|E]; [rewrite E1; lia|].
  assert (closure_work st' <= closure_work st + 2 + B) as Hw; [|nia].
  unfold closure_next in Hn. destruct (cs_start st) as [|x xs] eqn:Es.
  - destruct (cs_tasks st) as [|[x|x [|c cs]] ts] eqn:Et; [done|..].
    + destruct (getEdges x) as [cs|e]; [injection Hn as <-; cbn in E; lia|].
      unfold finish, set_tasks in Hn. cbn in Hn. destruct (cs_pending st); [done|]. injection Hn as <-. cbn in E. lia.
    + unfold finish, set_tasks in Hn. cbn in Hn. destruct (cs_pending st); [done|]. injection Hn as <-. cbn in E. lia.
    + injection Hn as <-. etransitivity; [apply (enqueue_work B); by apply HB|].
      unfold closure_work, set_tasks. cbn [cs_start cs_tasks]. rewrite Et. cbn. lia.
  - injection Hn as <-. etransitivity; [apply (enqueue_work B); by apply HB|].
    unfold closure_work. cbn [cs_start cs_tasks]. rewrite Es. cbn. lia.
Qed.

(** Enough fuel for the schedule to come to its end. *)
Lemma closure_run_total (U : list T) B fuel st :
  (forall x, x ∈ res0 \/ disc x -> x ∈ U) -> (forall x cs, getEdges x = Ok cs -> length cs <= B) ->
  closure_inv st -> (length U - length (cs_res st)) * (B + 3) + closure_work st <= fuel ->
  exists st', closure_run fuel st = Ok st'.
Proof.
  intros HU HB. revert st. induction fuel as [|fuel IH]; intros st Hi Hf; cbn [closure_run];
    destruct (closure_next st) as [st'|] eqn:En; try (by eexists); pose proof (closure_next_bound U B st st' HU HB Hi En) as Hb;
    set (m := (length U - length (cs_res st)) * (B + 3)) in *; set (m' := (length U - length (cs_res st')) * (B + 3)) in *.
  - lia.
  - apply IH; [|fold m'; lia]. by eapply closure_step_inv; [apply closure_next_step|].
Qed.
End closure_proof.
End closure.

Lemma closure_outcome {T} `{OrdKey T} getEdges (startElts res0 : list T) st :
  sset_wf res0 -> rtc (closure_step getEdges) (closure_init startElts res0) st -> closure_final st ->
  match closure_result st with
  | Ok res => sset_wf res /\ (forall x, x ∈ res <-> x ∈ res0 \/ discovered getEdges startElts res0 x) /\
              (forall x, discovered getEdges startElts res0 x -> x ∉ res0 -> exists cs, getEdges x = Ok cs)
  | Err e => exists x, discovered getEdges startElts res0 x /\ x ∉ res0 /\ getEdges x = Err e
  end.
Proof.
  intros Hwf Hr Hf. pose proof (closure_reachable_inv _ _ _ Hwf st Hr) as Hi.
  unfold closure_result. destruct (cs_exc st) as [e|] eqn:Ee.
  - by apply (ci_exc _ _ _ _ Hi).
  - split; [apply Hi|]. by apply closure_inv_final.
Qed.

(** C29: whatever the interleaving of the threads, a closure computation that
    comes to its end returns exactly the elements already in the result and
    those discovered from the start elements, each of whose edges could be
    queried; it throws only the error of an element it had to expand. *)
Theorem computeClosure_correct {T} `{OrdKey T} getEdges (startElts res0 : list T) st :
  sset_wf res0 -> rtc (closure_step getEdges) (closure_init startElts res0) st -> closure_final st ->
  match closure_result st with
  | Ok res => sset_wf res /\ (forall x, x ∈ res <-> x ∈ res0 \/ discovered getEdges startElts res0 x) /\
              (forall x, discovered getEdges startElts res0 x -> x ∉ res0 -> exists cs, getEdges x = Ok cs)
  | Err e => exists x, discovered getEdges startElts res0 x /\ x ∉ res0 /\ getEdges x = Err e
  end.
Proof. apply closure_outcome. Qed.

(** The executable schedule: with enough fuel it answers, and its answer is
    the closure. *)
Lemma computeClosure_total {T} `{OrdKey T} getEdges (startElts res0 U : list T) B fuel :
  sset_wf res0 -> (forall x, x ∈ res0 \/ discovered getEdges startElts res0 x -> x ∈ U) ->
  (forall x cs, getEdges x = Ok cs -> length cs <= B) -> length U * (B + 3) + length startElts <= fuel ->
  match computeClosure getEdges fuel startElts res0 with
  | Ok res => sset_wf res /\ (forall x, x ∈ res <-> x ∈ res0 \/ discovered getEdges startElts res0 x) /\
              (forall x, discovered getEdges startElts res0 x -> x ∉ res0 -> exists cs, getEdges x = Ok cs)
  | Err e => exists x, discovered getEdges startElts res0 x /\ x ∉ res0 /\ getEdges x = Err e
  end.
Proof.
  intros Hwf HU HB Hf. pose proof (closure_reachable_inv getEdges startElts res0 Hwf _ (rtc_refl _ _)) as Hi.
  destruct (closure_run_total getEdges startElts res0 U B fuel _ HU HB Hi) as [st Hst].
  { unfold closure_work. cbn. nia. }
  unfold computeClosure. rewrite Hst. cbn [rbind]. destruct (closure_run_steps _ _ _ _ Hst) as [Hr Hn].
  apply (closure_outcome getEdges startElts res0 st Hwf Hr).
  eapply closure_next_final; [|done]. by apply (closure_reachable_inv getEdges startElts res0 Hwf).
Qed.

(** The closure computation always comes to its end: as long as it is not
    finished some thread can make a step, the [pending] assertions included,
    and if only finitely many elements can be discovered there is no infinite
    execution. *)
Theorem computeClosure_live {T} `{OrdKey T} getEdges (startElts res0 U : list T) st :
  sset_wf res0 -> (forall x, x ∈ res0 \/ discovered getEdges startElts res0 x -> x ∈ U) ->
  rtc (closure_step getEdges) (closure_init startElts res0) st ->
  (~ closure_final st -> exists st', closure_step getEdges st st') /\ Acc (flip (closure_step getEdges)) st.
Proof.
  intros Hwf HU Hr. pose proof (closure_reachable_inv _ _ _ Hwf st Hr) as Hi. split.
  - by eapply closure_progress.
  - by eapply closure_terminates.
Qed.

Lemma computeClosure_correct_witness :
  exists st, rtc (closure_step example_children) (closure_init [L "a"] []) st /\ closure_final st /\
    match closure_result st with
    | Ok res => sset_wf res /\ (forall x, x ∈ res <-> x ∈ [] \/ discovered example_children [L "a"] [] x) /\
                (forall x, discovered example_children [L "a"] [] x -> x ∉ [] -> exists cs, example_children x = Ok cs)
    | Err e => exists x, discovered example_children [L "a"] [] x /\ x ∉ [] /\ example_children x = Err e
    end.
Proof.
  destruct (closure_run example_children 20 (closure_init [L "a"] [])) as [st|f] eqn:E.
  2: { vm_compute in E. discriminate E. }
  exists st. destruct (closure_run_steps _ _ _ _ E) as [Hr _].
  assert (Hf : closure_final st) by (vm_compute in E; injection E as <-; split; reflexivity).
  split; [exact Hr|]. split; [exact Hf|].
  apply (computeClosure_correct example_children [L "a"] [] st); [constructor|exact Hr|exact Hf].
Defined.

Lemma example_discovered x : x ∈ [] \/ discovered example_children [L "a"] [] x -> x ∈ [L "a"; L "b"; L "c"; L "z"].
Proof.
  intros [Hx|Hx]; [by apply elem_of_nil in Hx|].
  induction Hx as [x Hx|x cs c Hx IH _ Hcs Hc]; [apply list_elem_of_singleton in Hx as ->; by apply (bool_decide_unpack _)|].
  unfold example_children in Hcs. injection Hcs as <-. repeat case_bool_decide.
  - revert Hc. rewrite !elem_of_cons. naive_solver.
  - revert Hc. rewrite !elem_of_cons. naive_solver.
  - by apply elem_of_nil in Hc.
Qed.

Lemma computeClosure_live_witness :
  let st := closure_init [L "a"] [] in
  (~ closure_final st -> exists st', closure_step example_children st st') /\
  Acc (flip (closure_step example_children)) st.
Proof.
  apply (computeClosure_live example_children [L "a"] [] [L "a"; L "b"; L "c"; L "z"]).
  - constructor.
  - apply example_discovered.
  - apply rtc_refl.
Defined.
