(* ===== verification/LocalDb.v ===== *)
(** * The database of the local store (libstore/schema.sql,
    libstore/local-store.cc)

    The three tables of the schema with their constraints, the prepared
    statements, and the operations of [LocalStore] on them. A transaction that
    throws is rolled back: an operation yields the new database or an error. *)

From S2P Require Import Prelude.
From S2P Require Import Containers.
From S2P Require Import Strings.
From S2P Require Import Hash.
From S2P Require Import CanonPath.
From S2P Require Import StorePath.
From S2P Require Import ContentAddress.
From S2P Require Import Derivations.
From S2P Require Import ATerm.
From S2P Require Import DerivationHash.
From S2P Require Import Resolve.
From S2P Require Import PathInfo.
From S2P Require Import Graph.

(** ** Tables; nullable columns are options *)

Record ValidPathsRow := mkVPRow {
  vp_id : Z;
  vp_path : bytes;
  vp_hash : bytes;
  vp_registrationTime : Z;
  vp_deriver : option bytes;
  vp_narSize : option Z;
  vp_ultimate : option Z;
  vp_sigs : option bytes;
  vp_ca : option bytes;
}.

Record Db := mkDb {
  db_ValidPaths : list ValidPathsRow;
  db_Refs : list (Z * Z);                             (** referrer, reference *)
  db_DerivationOutputs : list (Z * bytes * bytes);    (** drv, id, path *)
  db_lastId : Z;                                      (** of the [autoincrement] key *)
}.

(** Integers are bound as [int64_t]. *)
Definition i64 (z : Z) : Z := ((z + 2 ^ 63) mod 2 ^ 64 - 2 ^ 63)%Z.

(** ** Prepared statements *)

Definition QueryPathInfo (path : bytes) (db : Db) : option ValidPathsRow :=
  find (fun r => bool_decide (vp_path r = path)) (db_ValidPaths db).

(** A row with an existing path violates the uniqueness constraint. *)
Definition RegisterValidPath (path hash : bytes) (time : Z) (deriver : option bytes) (narSize ultimate : option Z)
    (sigs ca : option bytes) (db : Db) : result (Z * Db) :=
  match QueryPathInfo path db with
  | Some _ => throw Error
  | None =>
      let id := (db_lastId db + 1)%Z in
      Ok (id, mkDb (db_ValidPaths db ++ [mkVPRow id path hash time deriver narSize ultimate sigs ca])
                (db_Refs db) (db_DerivationOutputs db) id)
  end.

Definition UpdatePathInfo (narSize : option Z) (hash : bytes) (ultimate : option Z) (sigs ca : option bytes)
    (path : bytes) (db : Db) : Db :=
  mkDb ((fun r => if bool_decide (vp_path r = path)
                  then mkVPRow (vp_id r) (vp_path r) hash (vp_registrationTime r) (vp_deriver r) narSize ultimate sigs ca
                  else r) <$> db_ValidPaths db)
    (db_Refs db) (db_DerivationOutputs db) (db_lastId db).

Definition id_exists (id : Z) (db : Db) : bool := existsb (fun r => (vp_id r =? id)%Z) (db_ValidPaths db).

(** [insert or replace]; the foreign keys must exist. *)
Definition AddReference (referrer reference : Z) (db : Db) : result Db :=
  if id_exists referrer db && id_exists reference db then
    Ok (mkDb (db_ValidPaths db)
          (filter (fun r => r <> (referrer, reference)) (db_Refs db) ++ [(referrer, reference)])
          (db_DerivationOutputs db) (db_lastId db))
  else throw Error.

Definition AddDerivationOutput (drv : Z) (id path : bytes) (db : Db) : result Db :=
  if id_exists drv db then
    Ok (mkDb (db_ValidPaths db) (db_Refs db)
          (filter (fun o => o.1 <> (drv, id)) (db_DerivationOutputs db) ++ [(drv, id, path)]) (db_lastId db))
  else throw Error.

Definition paths_with_id (id : Z) (db : Db) : list bytes :=
  vp_path <$> filter (fun r => vp_id r = id) (db_ValidPaths db).

Definition QueryReferences (referrer : Z) (db : Db) : list bytes :=
  concat ((fun r => paths_with_id r.2 db) <$> filter (fun r => r.1 = referrer) (db_Refs db)).

Definition QueryReferrers (path : bytes) (db : Db) : list bytes :=
  match QueryPathInfo path db with
  | None => []
  | Some row => concat ((fun r => paths_with_id r.1 db) <$> filter (fun r => r.2 = vp_id row) (db_Refs db))
  end.

Definition QueryValidDerivers (path : bytes) (db : Db) : list bytes :=
  concat ((fun o => paths_with_id o.1.1 db) <$> filter (fun o => o.2 = path) (db_DerivationOutputs db)).

Definition QueryDerivationOutputs (drv : Z) (db : Db) : list (bytes * bytes) :=
  (fun o => (o.1.2, o.2)) <$> filter (fun o => o.1.1 = drv) (db_DerivationOutputs db).

(** The trigger [DeleteSelfRefs] runs first; then the references to the row
    restrict the deletion, and its own references and outputs go with it. *)
Definition InvalidatePath (path : bytes) (db : Db) : result Db :=
  match QueryPathInfo path db with
  | None => Ok db
  | Some row =>
      let id := vp_id row in
      let refs := filter (fun r => r <> (id, id)) (db_Refs db) in
      if existsb (fun r => (r.2 =? id)%Z) refs then throw Error
      else Ok (mkDb (filter (fun r => vp_path r <> path) (db_ValidPaths db))
                 (filter (fun r => r.1 <> id) refs)
                 (filter (fun o => o.1.1 <> id) (db_DerivationOutputs db)) (db_lastId db))
  end.

(** ** Operations of the local store *)

Section local_store.
Context `{Digest} (storeDir : bytes) (xp : xpSettings).
(** The derivation in a store path that may not be valid yet; the current time. *)
Context (readInvalidDerivation : StorePath -> result Derivation) (now : Z) (fuel : nat).

Definition isValidPath_ (db : Db) (path : StorePath) : bool :=
  bool_decide (is_Some (QueryPathInfo (printStorePath storeDir path) db)).

Definition queryValidPathId (db : Db) (path : StorePath) : result Z :=
  match QueryPathInfo (printStorePath storeDir path) db with
  | None => throw InvalidPath
  | Some row => Ok (vp_id row)
  end.

(** Paths of a result, inserted into a set. *)
Definition parse_set (l : list bytes) : result (list StorePath) :=
  let* ps := rmapM (parseStorePath storeDir) l in Ok (sset_of_list ps).

Definition queryPathInfoInternal (db : Db) (path : StorePath) : result (option ValidPathInfo) :=
  match QueryPathInfo (printStorePath storeDir path) db with
  | None => Ok None
  | Some row =>
      let* narHash := match parseAnyPrefixed xp (vp_hash row) with
                      | Err (Throw BadHash) => throw Error
                      | r => r
                      end in
      let* deriver := match vp_deriver row with
                      | Some s => let* p := parseStorePath storeDir s in Ok (Some p)
                      | None => Ok None
                      end in
      let narSize := u64 (default 0%Z (vp_narSize row)) in
      let ultimate := (default 0%Z (vp_ultimate row) =? 1)%Z in
      let sigs := match vp_sigs row with Some s => tokenizeStringSet s (L " ") | None => [] end in
      let* ca := match vp_ca row with Some s => ContentAddress_parseOpt xp s | None => Ok None end in
      let* references := parse_set (QueryReferences (vp_id row) db) in
      Ok (Some (mkValidPathInfo path
            (mkPathInfo deriver narHash references (vp_registrationTime row) narSize ultimate sigs ca)))
  end.

Definition sigs_column (sigs : list bytes) : option bytes :=
  if bool_decide (sigs = []) then None else Some (concatStringsSep (L " ") sigs).
Definition ca_column (ca : option ContentAddress) : result (option bytes) :=
  match ca with Some c => let* s := renderContentAddress xp (Some c) in Ok (Some s) | None => Ok None end.
Definition size_column (n : Z) : option Z := if (n =? 0)%Z then None else Some (i64 n).
Definition ultimate_column (b : bool) : option Z := if b then Some 1%Z else None.

Definition updatePathInfo (info : ValidPathInfo) (db : Db) : result Db :=
  let u := vpi_info info in
  let* hash := to_string (pi_narHash u) Base16 true in
  let* ca := ca_column (pi_ca u) in
  Ok (UpdatePathInfo (size_column (pi_narSize u)) hash (ultimate_column (pi_ultimate u)) (sigs_column (pi_sigs u)) ca
        (printStorePath storeDir (vpi_path info)) db).

(** [cacheDrvOutputMapping] for the outputs with a known path. *)
Fixpoint cache_outputs (id : Z) (outs : list (bytes * (DerivationOutput * option StorePath))) (db : Db) : result Db :=
  match outs with
  | [] => Ok db
  | (name, (_, Some p)) :: outs =>
      let* db := AddDerivationOutput id name (printStorePath storeDir p) db in cache_outputs id outs db
  | (_, (_, None)) :: outs => cache_outputs id outs db
  end.

Definition addValidPath (checkOutputs : bool) (info : ValidPathInfo) (db : Db) : result Db :=
  let u := vpi_info info in
  let* isCA := match pi_ca u with Some _ => isContentAddressed storeDir xp info | None => Ok true end in
  if negb isCA then throw Error
  else
    let* hash := to_string (pi_narHash u) Base16 true in
    let* ca := ca_column (pi_ca u) in
    let* (id, db) :=
      RegisterValidPath (printStorePath storeDir (vpi_path info)) hash
        (if (pi_registrationTime u =? 0)%Z then now else pi_registrationTime u)
        (match pi_deriver u with Some p => Some (printStorePath storeDir p) | None => None end)
        (size_column (pi_narSize u)) (ultimate_column (pi_ultimate u)) (sigs_column (pi_sigs u)) ca db in
    if isDerivation (vpi_path info) then
      let* drv := readInvalidDerivation (vpi_path info) in
      (if checkOutputs then fst (checkInvariants xp storeDir readInvalidDerivation fuel drv (vpi_path info) []) else Ok tt) ;;;
      let* outs := outputsAndOptPaths xp storeDir drv in
      cache_outputs id outs db
    else Ok db.

Fixpoint register_rows (infos : list (StorePath * ValidPathInfo)) (db : Db) : result Db :=
  match infos with
  | [] => Ok db
  | (_, i) :: infos =>
      assert_ (bool_decide (algo (pi_narHash (vpi_info i)) = SHA256)) ;;;
      let* db := if isValidPath_ db (vpi_path i) then updatePathInfo i db else addValidPath false i db in
      register_rows infos db
  end.

Fixpoint add_references (referrer : Z) (references : list StorePath) (db : Db) : result Db :=
  match references with
  | [] => Ok db
  | j :: references =>
      let* id := queryValidPathId db j in
      let* db := AddReference referrer id db in
      add_references referrer references db
  end.

Fixpoint register_refs (infos : list (StorePath * ValidPathInfo)) (db : Db) : result Db :=
  match infos with
  | [] => Ok db
  | (_, i) :: infos =>
      let* referrer := queryValidPathId db (vpi_path i) in
      let* db := add_references referrer (pi_references (vpi_info i)) db in
      register_refs infos db
  end.

Fixpoint check_derivations (infos : list (StorePath * ValidPathInfo)) : result unit :=
  match infos with
  | [] => Ok tt
  | (_, i) :: infos =>
      (if isDerivation (vpi_path i) then
         let* drv := readInvalidDerivation (vpi_path i) in
         fst (checkInvariants xp storeDir readInvalidDerivation fuel drv (vpi_path i) [])
       else Ok tt) ;;;
      check_derivations infos
  end.

Definition registerValidPaths (infos : list (StorePath * ValidPathInfo)) (db : Db) : result Db :=
  let* db := register_rows infos db in
  let paths := foldl (fun s i => sset_insert (vpi_path i.2) s) [] infos in
  let* db := register_refs infos db in
  check_derivations infos ;;;
  let* _ := topoSort paths
              (fun path => Ok (match smap_lookup path infos with
                               | Some i => pi_references (vpi_info i)
                               | None => []
                               end))
              (fun _ _ => BuildError) in
  Ok db.

Definition registerValidPath (info : ValidPathInfo) (db : Db) : result Db :=
  registerValidPaths [(vpi_path info, info)] db.

Definition queryReferrers (db : Db) (path : StorePath) : result (list StorePath) :=
  parse_set (QueryReferrers (printStorePath storeDir path) db).

Definition queryValidDerivers (db : Db) (path : StorePath) : result (list StorePath) :=
  parse_set (QueryValidDerivers (printStorePath storeDir path) db).

Definition queryStaticPartialDerivationOutputMap (db : Db) (path : StorePath) :
    result (list (bytes * option StorePath)) :=
  let* drvId := queryValidPathId db path in
  let* l := rmapM (fun o => let* p := parseStorePath storeDir o.2 in Ok (o.1, Some p)) (QueryDerivationOutputs drvId db) in
  Ok (foldl (fun m kv => smap_insert kv.1 kv.2 m) [] l).

Definition queryAllValidPaths (db : Db) : result (list StorePath) :=
  parse_set (vp_path <$> db_ValidPaths db).

Definition queryValidPaths (db : Db) (paths : list StorePath) : list StorePath :=
  foldl (fun s p => if isValidPath_ db p then sset_insert p s else s) [] paths.

Definition invalidatePath (path : StorePath) (db : Db) : result Db :=
  InvalidatePath (printStorePath storeDir path) db.

Definition invalidatePathChecked (path : StorePath) (db : Db) : result Db :=
  if isValidPath_ db path then
    let* referrers := queryReferrers db path in
    if negb (bool_decide (sset_erase path referrers = [])) then throw PathInUse
    else invalidatePath path db
  else Ok db.

(** The info of an invalid path is a null pointer. *)
Definition addSignatures (path : StorePath) (sigs : list bytes) (db : Db) : result Db :=
  let* info := queryPathInfoInternal db path in
  match info with
  | None => Err UndefinedBehaviour
  | Some i =>
      let u := vpi_info i in
      updatePathInfo (mkValidPathInfo (vpi_path i)
        (mkPathInfo (pi_deriver u) (pi_narHash u) (pi_references u) (pi_registrationTime u) (pi_narSize u)
           (pi_ultimate u) (sset_union (pi_sigs u) sigs) (pi_ca u))) db
  end.
End local_store.

(** ** The invariant of the tables *)

Section db.
Context (storeDir : bytes).

Definition has_id (db : Db) (id : Z) : Prop := exists r, r ∈ db_ValidPaths db /\ vp_id r = id.
Definition printed (s : bytes) : Prop := exists p, s = printStorePath storeDir p /\ store_path_ok p.

Record db_wf (db : Db) : Prop := {
  dw_ids : NoDup (vp_id <$> db_ValidPaths db);
  dw_last : Forall (fun r => (vp_id r <= db_lastId db)%Z) (db_ValidPaths db);
  dw_paths : NoDup (vp_path <$> db_ValidPaths db);
  dw_printed : Forall (fun r => printed (vp_path r)) (db_ValidPaths db);
  dw_refs : Forall (fun r => has_id db r.1 /\ has_id db r.2) (db_Refs db);
  dw_outs : Forall (fun o => has_id db o.1.1 /\ printed o.2) (db_DerivationOutputs db);
}.

Lemma find_Some {A} (f : A -> bool) l x : find f l = Some x -> x ∈ l /\ f x = true.
Proof. intros Hf. apply List.find_some in Hf as [Hi Hx]. split; [by apply list_elem_of_In|done]. Qed.

Lemma QueryPathInfo_Some path db r : QueryPathInfo path db = Some r -> r ∈ db_ValidPaths db /\ vp_path r = path.
Proof. intros Hf. apply find_Some in Hf as [Hi Hx]. split; [done|]. by apply bool_decide_eq_true in Hx. Qed.

Lemma NoDup_fmap_inj {A B} (f : A -> B) (l : list A) x y : NoDup (f <$> l) -> x ∈ l -> y ∈ l -> f x = f y -> x = y.
Proof.
  induction l as [|z l IH]; [by rewrite elem_of_nil|]. rewrite fmap_cons, NoDup_cons, !elem_of_cons.
  intros [Hz Hnd] [->|Hx] [->|Hy] E; [done|..|by apply IH].
  - exfalso. apply Hz. rewrite E. by apply list_elem_of_fmap_2.
  - exfalso. apply Hz. rewrite <- E. by apply list_elem_of_fmap_2.
Qed.

Lemma QueryPathInfo_elem db r : db_wf db -> r ∈ db_ValidPaths db -> QueryPathInfo (vp_path r) db = Some r.
Proof.
  intros [] Hr. unfold QueryPathInfo. destruct (find _ _) as [r'|] eqn:Ef.
  - apply find_Some in Ef as [Hr' E%bool_decide_eq_true]. f_equal. by eapply NoDup_fmap_inj.
  - apply list_elem_of_In in Hr. pose proof (List.find_none _ _ Ef _ Hr) as Hn. by apply bool_decide_eq_false in Hn.
Qed.

Lemma QueryPathInfo_None path db : QueryPathInfo path db = None -> path ∉ vp_path <$> db_ValidPaths db.
Proof.
  intros Hn Hin. apply list_elem_of_fmap in Hin as (r & -> & Hr). apply list_elem_of_In in Hr.
  pose proof (List.find_none _ _ Hn _ Hr) as E. by apply bool_decide_eq_false in E.
Qed.

Lemma id_exists_spec id db : id_exists id db = true <-> has_id db id.
Proof.
  unfold id_exists, has_id. rewrite existsb_exists. split.
  - intros (r & Hr & E%Z.eqb_eq). exists r. split; [by apply list_elem_of_In|done].
  - intros (r & Hr & <-). exists r. split; [by apply list_elem_of_In|apply Z.eqb_refl].
Qed.

Lemma paths_with_id_elem id db s :
  s ∈ paths_with_id id db <-> exists r, r ∈ db_ValidPaths db /\ vp_id r = id /\ vp_path r = s.
Proof.
  unfold paths_with_id. rewrite list_elem_of_fmap. split.
  - intros (r & -> & Hr). apply list_elem_of_filter in Hr as [? ?]. by exists r.
  - intros (r & Hr & Hid & <-). exists r. split; [done|]. by apply list_elem_of_filter.
Qed.

Lemma concat_fmap_elem {A B} (f : A -> list B) l y : y ∈ concat (f <$> l) <-> exists x, x ∈ l /\ y ∈ f x.
Proof.
  induction l as [|z l IH]; [cbn; rewrite elem_of_nil; split; [done|intros (x & Hx & _); by apply elem_of_nil in Hx]|].
  rewrite fmap_cons, concat_cons, elem_of_app, IH. split.
  - intros [Hy|(x & Hx & Hy)]; [exists z|exists x]; rewrite elem_of_cons; auto.
  - intros (x & [->|Hx]%elem_of_cons & Hy); eauto.
Qed.

(** ** The reference graph *)

(** The row of a path, and the references between valid paths. *)
Definition row_of (db : Db) (p : StorePath) : option ValidPathsRow := QueryPathInfo (printStorePath storeDir p) db.
Definition valid (db : Db) (p : StorePath) : Prop := is_Some (row_of db p).
Definition refers (db : Db) (p q : StorePath) : Prop :=
  exists rp rq, row_of db p = Some rp /\ row_of db q = Some rq /\ (vp_id rp, vp_id rq) ∈ db_Refs db.

Lemma isValidPath_spec db p : isValidPath_ storeDir db p = true <-> valid db p.
Proof. unfold isValidPath_, valid, row_of. apply bool_decide_eq_true. Qed.

Lemma row_of_elem db p r : row_of db p = Some r -> r ∈ db_ValidPaths db /\ vp_path r = printStorePath storeDir p.
Proof. apply QueryPathInfo_Some. Qed.

Lemma row_of_printed db r p :
  db_wf db -> r ∈ db_ValidPaths db -> vp_path r = printStorePath storeDir p -> row_of db p = Some r.
Proof. intros Hwf Hr E. unfold row_of. rewrite <- E. by apply QueryPathInfo_elem. Qed.

Lemma valid_ok db p : db_wf db -> valid db p -> store_path_ok p.
Proof.
  intros Hwf [r Hr]. apply row_of_elem in Hr as [Hr E]. pose proof (dw_printed _ Hwf) as Hp.
  rewrite Forall_forall in Hp. destruct (Hp r Hr) as (q & Eq & Hq). rewrite E in Eq.
  by apply printStorePath_inj in Eq as ->.
Qed.

(** Two rows with the same id are the same. *)
Lemma row_id_inj db r r' : db_wf db -> r ∈ db_ValidPaths db -> r' ∈ db_ValidPaths db -> vp_id r = vp_id r' -> r = r'.
Proof. intros [] ? ? ?. by eapply (NoDup_fmap_inj vp_id). Qed.

Lemma refers_valid db p q : refers db p q -> valid db p /\ valid db q.
Proof. intros (rp & rq & Hp & Hq & _). split; eexists; eauto. Qed.

Hypothesis storeDir_wf : CanonPath_wf storeDir.

Lemma parse_set_printed l :
  Forall printed l ->
  exists ps, parse_set storeDir l = Ok ps /\ sset_wf ps /\ forall p, p ∈ ps <-> printStorePath storeDir p ∈ l.
Proof.
  intros Hl.
  assert (exists ps, rmapM (parseStorePath storeDir) l = Ok ps /\ forall p, p ∈ ps <-> printStorePath storeDir p ∈ l)
    as (ps & Hps & Hin).
  { induction Hl as [|s l (p & -> & Hp) Hl (ps & IH & Hin)].
    - exists []. split; [done|]. intros p. by rewrite !elem_of_nil.
    - exists (p :: ps). cbn [rmapM]. rewrite parseStorePath_ok, IH by done. split; [done|].
      intros q. rewrite !elem_of_cons, Hin. split; (intros [E|?]; [left|by right]).
      + by rewrite E.
      + by apply printStorePath_inj in E. }
  exists (sset_of_list ps). unfold parse_set. rewrite Hps. split; [done|]. split; [apply sset_of_list_wf|].
  intros p. by rewrite sset_of_list_elem.
Qed.

Lemma path_of_id_printed db id : db_wf db -> Forall printed (paths_with_id id db).
Proof.
  intros Hwf. apply Forall_forall. intros s Hs. apply paths_with_id_elem in Hs as (r & Hr & _ & <-).
  pose proof (dw_printed _ Hwf) as Hp. rewrite Forall_forall in Hp. auto.
Qed.

(** [queryReferrers] answers the reference graph. *)
Lemma queryReferrers_spec db p :
  db_wf db ->
  exists l, queryReferrers storeDir db p = Ok l /\ sset_wf l /\ forall q, q ∈ l <-> refers db q p.
Proof.
  intros Hwf. unfold queryReferrers, QueryReferrers.
  change (QueryPathInfo (printStorePath storeDir p) db) with (row_of db p).
  destruct (row_of db p) as [row|] eqn:Er.
  - destruct (parse_set_printed (concat ((fun r => paths_with_id r.1 db) <$> filter (fun r => r.2 = vp_id row) (db_Refs db))))
      as (l & Hl & Hs & Hin).
    { apply Forall_forall. intros s Hx. apply concat_fmap_elem in Hx as (x & _ & Hx).
      pose proof (path_of_id_printed db x.1 Hwf) as Hp. rewrite Forall_forall in Hp. auto. }
    exists l. split; [done|]. split; [done|]. intros q. rewrite Hin, concat_fmap_elem. split.
    + intros ([a b] & Hab & Hq). apply list_elem_of_filter in Hab as [Hb Hab]. cbn [fst snd] in *. subst b.
      apply paths_with_id_elem in Hq as (r & Hr & <- & Hq). exists r, row. split; [by apply row_of_printed|done].
    + intros (rq & rp & Hq & Hp & Hab). assert (rp = row) as -> by congruence.
      apply row_of_elem in Hq as [Hq Eq]. exists (vp_id rq, vp_id row). split; [by apply list_elem_of_filter|].
      apply paths_with_id_elem. exists rq. done.
  - destruct (parse_set_printed []) as (l & Hl & Hs & Hin); [done|]. exists l. split; [done|]. split; [done|].
    intros q. rewrite Hin, elem_of_nil. split; [done|]. intros (rq & rp & _ & Hp & _). congruence.
Qed.

(** The references of a valid path. *)
Lemma references_spec db p r :
  db_wf db -> row_of db p = Some r ->
  exists l, parse_set storeDir (QueryReferences (vp_id r) db) = Ok l /\ sset_wf l /\ forall q, q ∈ l <-> refers db p q.
Proof.
  intros Hwf Hr. destruct (parse_set_printed (QueryReferences (vp_id r) db)) as (l & Hl & Hs & Hin).
  { apply Forall_forall. intros s Hx. apply concat_fmap_elem in Hx as (x & _ & Hx).
    pose proof (path_of_id_printed db x.2 Hwf) as Hp. rewrite Forall_forall in Hp. auto. }
  exists l. split; [done|]. split; [done|]. intros q. rewrite Hin. unfold QueryReferences. rewrite concat_fmap_elem. split.
  - intros ([a b] & Hab & Hq). apply list_elem_of_filter in Hab as [Ha Hab]. cbn [fst snd] in *. subst a.
    apply paths_with_id_elem in Hq as (rq & Hrq & <- & Hq). exists r, rq. split; [done|]. split; [by apply row_of_printed|done].
  - intros (rp & rq & Hp & Hq & Hab). assert (rp = r) as -> by congruence.
    apply row_of_elem in Hq as [Hq Eq]. exists (vp_id r, vp_id rq). split; [by apply list_elem_of_filter|].
    apply paths_with_id_elem. exists rq. done.
Qed.

(** ** Effects of the statements *)

Lemma RegisterValidPath_wf path hash time deriver size ultimate sigs ca db id db' :
  db_wf db -> printed path -> RegisterValidPath path hash time deriver size ultimate sigs ca db = Ok (id, db') ->
  db_wf db' /\ id = db_lastId db' /\ (db_lastId db < id)%Z /\
  db_ValidPaths db' = db_ValidPaths db ++ [mkVPRow id path hash time deriver size ultimate sigs ca] /\
  db_Refs db' = db_Refs db /\ db_DerivationOutputs db' = db_DerivationOutputs db.
Proof.
  intros [] Hp Hr. unfold RegisterValidPath in Hr. destruct (QueryPathInfo path db) eqn:Eq; [done|].
  apply Ok_inj in Hr. injection Hr as <- <-. cbn [db_ValidPaths db_Refs db_DerivationOutputs db_lastId].
  split; [|repeat split; try done; lia].
  set (row := mkVPRow (db_lastId db + 1) path hash time deriver size ultimate sigs ca).
  assert (Hhas : forall i, has_id db i ->
    has_id (mkDb (db_ValidPaths db ++ [row]) (db_Refs db) (db_DerivationOutputs db) (db_lastId db + 1)) i).
  { intros i (r & Hr & <-). exists r. cbn. rewrite elem_of_app. auto. }
  split; cbn [db_ValidPaths db_Refs db_DerivationOutputs db_lastId].
  - rewrite fmap_app. apply NoDup_app. split; [done|]. split; [|apply NoDup_singleton].
    intros i Hi. cbn. rewrite list_elem_of_singleton. intros ->. apply list_elem_of_fmap in Hi as (r & E & Hr).
    rewrite Forall_forall in dw_last0. specialize (dw_last0 r Hr). lia.
  - apply Forall_app. split; [|constructor; [cbn; lia|constructor]]. apply Forall_forall. intros r Hr. rewrite Forall_forall in dw_last0. specialize (dw_last0 r Hr). lia.
  - rewrite fmap_app. apply NoDup_app. split; [done|]. split; [|apply NoDup_singleton].
    intros s Hs. cbn. rewrite list_elem_of_singleton. intros ->. by apply QueryPathInfo_None in Eq.
  - apply Forall_app. split; [done|]. by repeat constructor.
  - eapply Forall_impl; [done|]. intros r [? ?]. auto.
  - eapply Forall_impl; [done|]. intros o [? ?]. auto.
Qed.

Lemma UpdatePathInfo_keys size hash ultimate sigs ca path db :
  let db' := UpdatePathInfo size hash ultimate sigs ca path db in
  vp_id <$> db_ValidPaths db' = vp_id <$> db_ValidPaths db /\
  vp_path <$> db_ValidPaths db' = vp_path <$> db_ValidPaths db.
Proof.
  cbn. rewrite <- !list_fmap_compose. split; apply list_fmap_ext; intros i r _; unfold compose; by case_bool_decide.
Qed.

Lemma has_id_keys db db' i :
  vp_id <$> db_ValidPaths db' = vp_id <$> db_ValidPaths db -> has_id db i -> has_id db' i.
Proof.
  intros E (r & Hr & <-). assert (vp_id r ∈ vp_id <$> db_ValidPaths db') as Hin.
  { rewrite E. by apply list_elem_of_fmap_2. }
  apply list_elem_of_fmap in Hin as (r' & Hid & Hr'). exists r'. done.
Qed.

Lemma UpdatePathInfo_wf size hash ultimate sigs ca path db :
  db_wf db -> db_wf (UpdatePathInfo size hash ultimate sigs ca path db).
Proof.
  intros []. destruct (UpdatePathInfo_keys size hash ultimate sigs ca path db) as [Eid Epath].
  set (db' := UpdatePathInfo size hash ultimate sigs ca path db) in *.
  assert (Hrow : forall r, r ∈ db_ValidPaths db' -> exists r0, r0 ∈ db_ValidPaths db /\ vp_id r0 = vp_id r /\ vp_path r0 = vp_path r).
  { intros r Hr. cbn in Hr. apply list_elem_of_fmap in Hr as (r0 & -> & Hr0). exists r0. by case_bool_decide. }
  split.
  - by rewrite Eid.
  - apply Forall_forall. intros r Hr. destruct (Hrow r Hr) as (r0 & Hr0 & <- & _).
    rewrite Forall_forall in dw_last0. by apply dw_last0.
  - by rewrite Epath.
  - apply Forall_forall. intros r Hr. destruct (Hrow r Hr) as (r0 & Hr0 & _ & <-).
    rewrite Forall_forall in dw_printed0. by apply dw_printed0.
  - eapply Forall_impl; [done|]. intros r [? ?]. split; by eapply has_id_keys.
  - eapply Forall_impl; [done|]. intros o [? ?]. split; [by eapply has_id_keys|done].
Qed.

Lemma AddReference_wf a b db db' :
  db_wf db -> AddReference a b db = Ok db' ->
  db_wf db' /\ db_ValidPaths db' = db_ValidPaths db /\ (forall x, x ∈ db_Refs db' <-> x ∈ db_Refs db \/ x = (a, b)).
Proof.
  intros [] Ha. unfold AddReference in Ha.
  destruct (id_exists a db) eqn:Ea; [|done]. destruct (id_exists b db) eqn:Eb; [|done]. apply Ok_inj in Ha. subst db'.
  apply id_exists_spec in Ea, Eb.
  assert (Hin : forall x, x ∈ filter (fun r => r <> (a, b)) (db_Refs db) ++ [(a, b)] <-> x ∈ db_Refs db \/ x = (a, b)).
  { intros x. rewrite elem_of_app, list_elem_of_filter, list_elem_of_singleton.
    destruct (decide (x = (a, b))); naive_solver. }
  split; [|split; [done|exact Hin]]. split; try done. cbn [db_Refs].
  apply Forall_forall. intros x Hx. apply Hin in Hx as [Hx| ->]; [|done]. rewrite Forall_forall in dw_refs0. by apply dw_refs0.
Qed.

Lemma AddDerivationOutput_wf drv id path db db' :
  db_wf db -> printed path -> AddDerivationOutput drv id path db = Ok db' ->
  db_wf db' /\ db_ValidPaths db' = db_ValidPaths db /\ db_Refs db' = db_Refs db.
Proof.
  intros [] Hp Ha. unfold AddDerivationOutput in Ha. destruct (id_exists drv db) eqn:Ed; [|done]. apply Ok_inj in Ha.
  subst db'. apply id_exists_spec in Ed. split; [|done]. split; try done. cbn [db_DerivationOutputs].
  apply Forall_app. split; [|by repeat constructor]. apply Forall_forall. intros o Ho.
  apply list_elem_of_filter in Ho as [_ Ho]. rewrite Forall_forall in dw_outs0. by apply dw_outs0.
Qed.

(** Deleting a path that nothing else refers to. *)
Lemma InvalidatePath_wf p db db' :
  db_wf db -> InvalidatePath (printStorePath storeDir p) db = Ok db' ->
  db_wf db' /\ row_of db' p = None /\ (forall q, q <> p -> row_of db' q = row_of db q) /\
  (forall x, x ∈ db_Refs db' <-> x ∈ db_Refs db /\ forall r, row_of db p = Some r -> x.1 <> vp_id r).
Proof.
  intros Hwf Hi. unfold InvalidatePath in Hi. change (QueryPathInfo _ db) with (row_of db p) in Hi.
  destruct (row_of db p) as [row|] eqn:Er.
  2: { apply Ok_inj in Hi. subst db'. split; [done|]. split; [done|]. split; [done|]. naive_solver. }
  destruct (existsb _ _) eqn:Eex; [done|]. apply Ok_inj in Hi.
  assert (Hnone : forall a, (a, vp_id row) ∈ db_Refs db -> a = vp_id row).
  { intros a Ha. destruct (decide (a = vp_id row)) as [|Hne]; [done|]. exfalso.
    apply not_true_iff_false in Eex. apply Eex, existsb_exists. exists (a, vp_id row). split; [|apply Z.eqb_refl].
    apply list_elem_of_In, list_elem_of_filter. split; [congruence|done]. }
  apply row_of_elem in Er as [Hrow Erow].
  assert (Hkeep : forall r, r ∈ db_ValidPaths db -> vp_id r <> vp_id row -> vp_path r <> printStorePath storeDir p).
  { intros r Hr Hne E. apply Hne. f_equal. eapply (NoDup_fmap_inj vp_path); [apply Hwf|done..|congruence]. }
  assert (Hids : forall i, has_id db i -> i <> vp_id row -> has_id db' i).
  { intros i (r & Hr & <-) Hne. exists r. subst db'. cbn. split; [|done]. apply list_elem_of_filter. auto. }
  assert (Hrefs : forall x, x ∈ db_Refs db' <-> x ∈ db_Refs db /\ x.1 <> vp_id row).
  { intros [a b]. subst db'. cbn [db_Refs fst]. rewrite !list_elem_of_filter. cbn [fst]. naive_solver. }
  assert (Hvp : db_ValidPaths db' = filter (fun r => vp_path r <> printStorePath storeDir p) (db_ValidPaths db)) by by subst db'.
  assert (Hwf' : db_wf db').
  { destruct Hwf. split; try (rewrite Hvp).
    + eapply sublist_NoDup; [done|]. apply fmap_sublist, sublist_filter.
    + apply Forall_forall. intros r [_ Hr]%list_elem_of_filter. subst db'. cbn [db_lastId].
      rewrite Forall_forall in dw_last0. by apply dw_last0.
    + eapply sublist_NoDup; [done|]. apply fmap_sublist, sublist_filter.
    + apply Forall_forall. intros r [_ Hr]%list_elem_of_filter. rewrite Forall_forall in dw_printed0. by apply dw_printed0.
    + apply Forall_forall. intros [a b] Hx. apply Hrefs in Hx as [Hx Ha]. cbn [fst snd] in *.
      rewrite Forall_forall in dw_refs0. destruct (dw_refs0 _ Hx) as [H1 H2]. cbn [fst snd] in *. split; apply Hids; try done.
      intros ->. by apply Ha, Hnone.
    + apply Forall_forall. intros o Ho. assert (o.1.1 <> vp_id row /\ o ∈ db_DerivationOutputs db) as [Hne Ho'].
      { subst db'. cbn [db_DerivationOutputs] in Ho. by apply list_elem_of_filter in Ho. }
      rewrite Forall_forall in dw_outs0. destruct (dw_outs0 _ Ho'). split; [|done]. by apply Hids. }
  split; [done|]. split; [|split].
  - destruct (row_of db' p) as [r|] eqn:E; [|done]. apply row_of_elem in E as [Hr E]. rewrite Hvp in Hr.
    by apply list_elem_of_filter in Hr as [? _].
  - intros q Hq. destruct (row_of db q) as [r|] eqn:E.
    + apply row_of_elem in E as [Hr E]. apply row_of_printed; [done| |done]. rewrite Hvp. apply list_elem_of_filter.
      split; [|done]. rewrite E. by intros ?%printStorePath_inj.
    + destruct (row_of db' q) as [r|] eqn:E'; [|done]. apply row_of_elem in E' as [Hr Eq]. rewrite Hvp in Hr.
      apply list_elem_of_filter in Hr as [_ Hr]. rewrite (row_of_printed db r q) in E; done.
  - intros x. rewrite Hrefs. split; [intros [? ?]; split; [done|]; by intros r [= <-]|]. intros [? Hx]. auto.
Qed.

(** Deletion in terms of the reference graph. *)
Lemma invalidatePathChecked_cases p db :
  db_wf db ->
  match invalidatePathChecked storeDir p db with
  | Ok db' => db_wf db' /\ (forall q, refers db q p -> q = p) /\ row_of db' p = None /\
      (forall q, q <> p -> row_of db' q = row_of db q) /\
      (forall a b, refers db' a b <-> refers db a b /\ a <> p /\ b <> p)
  | Err f => f = Throw PathInUse /\ exists q, q <> p /\ refers db q p
  end.
Proof.
  intros Hwf. unfold invalidatePathChecked. destruct (isValidPath_ storeDir db p) eqn:Ev.
  2: { assert (Hn : row_of db p = None).
       { destruct (row_of db p) eqn:E; [|done]. apply not_true_iff_false in Ev. destruct Ev.
         apply isValidPath_spec. unfold valid. by rewrite E. }
       assert (Hno : forall a b, refers db a b -> a <> p /\ b <> p).
       { intros a b (ra & rb & Ha & Hb & _). split; intros ->; congruence. }
       split; [done|]. split; [intros q Hq; by destruct (Hno _ _ Hq)|]. split; [done|]. split; [done|]. naive_solver. }
  destruct (queryReferrers_spec db p Hwf) as (l & Hl & Hs & Hin). rewrite Hl. cbn [rbind].
  case_bool_decide as He; cbn [negb].
  2: { split; [done|]. destruct (sset_erase p l) as [|q l'] eqn:E; [done|]. exists q.
       assert (q ∈ sset_erase p l) as Hq by (rewrite E; apply list_elem_of_here).
       apply sset_erase_elem in Hq as [? ?]. split; [done|]. by apply Hin. }
  assert (Honly : forall q, refers db q p -> q = p).
  { intros q Hq. apply Hin in Hq. destruct (decide (q = p)) as [|Hne]; [done|]. exfalso.
    assert (q ∈ sset_erase p l) as Hx by by apply sset_erase_elem. rewrite He in Hx. by apply elem_of_nil in Hx. }
  unfold invalidatePath. destruct (InvalidatePath (printStorePath storeDir p) db) as [db'|f] eqn:Ei.
  - destruct (InvalidatePath_wf p db db' Hwf Ei) as (Hwf' & Hp & Hq & Hrefs).
    split; [done|]. split; [done|]. split; [done|]. split; [done|].
    apply isValidPath_spec in Ev as [rp Erp].
    intros a b. split.
    + intros (ra & rb & Ha & Hb & Hab). assert (a <> p) by (intros ->; congruence). assert (b <> p) by (intros ->; congruence).
      split; [|done]. rewrite Hq in Ha, Hb by done. exists ra, rb. split; [done|]. split; [done|]. by apply Hrefs in Hab as [? _].
    + intros ((ra & rb & Ha & Hb & Hab) & Hna & Hnb). exists ra, rb. rewrite !Hq by done. split; [done|]. split; [done|].
      apply Hrefs. split; [done|]. intros r Er. assert (r = rp) as -> by congruence. cbn [fst]. intros E. apply Hna.
      apply row_of_elem in Ha as [Ha Ea], Erp as [Hrp Ep].
      assert (ra = rp) as -> by (by apply (row_id_inj db)). rewrite Ea in Ep. by apply printStorePath_inj in Ep.
  - exfalso. unfold InvalidatePath in Ei. apply isValidPath_spec in Ev as [rp Erp]. unfold row_of in Erp. rewrite Erp in Ei.
    destruct (existsb _ _) eqn:Eex; [|done]. apply existsb_exists in Eex as ([a b] & Hab & E%Z.eqb_eq). cbn [snd] in E. subst b.
    apply list_elem_of_In, list_elem_of_filter in Hab as [Hne Hab].
    pose proof (dw_refs _ Hwf) as Hr. rewrite Forall_forall in Hr. destruct (Hr _ Hab) as [(ra & Hra & Ea) _]. cbn [fst] in Ea.
    pose proof (dw_printed _ Hwf) as Hpr. rewrite Forall_forall in Hpr. destruct (Hpr ra Hra) as (q & Eq & Hq).
    assert (q = p) as ->.
    { apply Honly. exists ra, rp. split; [by apply row_of_printed|]. split; [done|]. by rewrite Ea. }
    apply Hne. rewrite <- Ea. apply row_of_elem in Erp as [Hrp Ep].
    assert (ra = rp) as ->; [|done]. eapply (NoDup_fmap_inj vp_path); [apply Hwf|done|done|congruence].
Qed.
End db.

(** ** Registration *)

Section registration.
Context `{Digest} (storeDir : bytes) (xp : xpSettings).
Context (readInvalidDerivation : StorePath -> result Derivation) (now : Z) (fuel : nat).
Hypothesis storeDir_wf : CanonPath_wf storeDir.
(** Input-addressed outputs of derivations are well-formed store paths. *)
Hypothesis outputs_ok : forall p d, readInvalidDerivation p = Ok d ->
  Forall (fun i => forall q, i.2 = DerivationOutput.InputAddressed q -> store_path_ok q) (outputs d).

Lemma smap_insert_sub {K V} `{OrdKey K} k v (m : list (K * V)) x : x ∈ smap_insert k v m -> x = (k, v) \/ x ∈ m.
Proof.
  induction m as [|[k' v'] m IH]; cbn [smap_insert]; [rewrite list_elem_of_singleton; auto|].
  destruct (kcompare k k'); rewrite !elem_of_cons; naive_solver.
Qed.

Lemma emplace_all_elem {K V} `{OrdKey K} (l m : list (K * V)) x :
  x ∈ foldl (fun m kv => smap_emplace kv.1 kv.2 m) m l -> x ∈ m \/ x ∈ l.
Proof.
  revert m. induction l as [|[k v] l IH]; intros m; [by left|]. cbn [foldl fst snd]. intros Hx.
  destruct (IH _ Hx) as [Hm|Hl]; [|right; by apply list_elem_of_further].
  unfold smap_emplace in Hm. destruct (smap_lookup k m); [by left|].
  apply smap_insert_sub in Hm as [->|?]; [right; apply list_elem_of_here|by left].
Qed.

Lemma outputsAndOptPaths_ok p d l :
  readInvalidDerivation p = Ok d -> outputsAndOptPaths xp storeDir d = Ok l ->
  Forall (fun o => forall q, o.2.2 = Some q -> store_path_ok q) l.
Proof.
  intros Hd Hl. unfold outputsAndOptPaths in Hl. apply rbind_Ok in Hl as (l' & Hl' & Hl). apply Ok_inj in Hl. subst l.
  apply Forall_forall. intros x Hx q Hq. apply emplace_all_elem in Hx as [Hx|Hx]; [by apply elem_of_nil in Hx|].
  apply rmapM_Ok in Hl'. apply list_elem_of_lookup_1 in Hx as [i Hi].
  destruct (Forall2_lookup_r _ _ _ i x Hl' Hi) as ([n o] & Ho & Hp). apply rbind_Ok in Hp as (r & Hr & Hp).
  apply Ok_inj in Hp. subst x. cbn [fst snd] in Hq. subst r. pose proof (outputs_ok p d Hd) as Hok.
  rewrite Forall_forall in Hok. specialize (Hok _ (list_elem_of_lookup_2 _ _ _ Ho)). cbn [snd] in Hok.
  destruct o as [path|ca| | |]; cbn [DerivationOutput_path] in Hr; inv_result; try done.
  - apply Hok. congruence.
  - unfold CAFixed_path in *. simplify_eq. by eapply makeFixedOutputPathFromCA_ok.
Qed.

Lemma cache_outputs_wf id outs db db' :
  db_wf storeDir db -> Forall (fun o => forall q, o.2.2 = Some q -> store_path_ok q) outs ->
  cache_outputs storeDir id outs db = Ok db' ->
  db_wf storeDir db' /\ db_ValidPaths db' = db_ValidPaths db /\ db_Refs db' = db_Refs db.
Proof.
  intros Hwf Ho. revert db Hwf. induction Ho as [|[n [o [q|]]] outs Hq Ho IH]; intros db Hwf; cbn [cache_outputs].
  - intros [= <-]. done.
  - intros Hc. apply rbind_Ok in Hc as (db1 & Ha & Hc).
    destruct (AddDerivationOutput_wf storeDir id n (printStorePath storeDir q) db db1) as (Hwf1 & E1 & E2); [done| |done|].
    { exists q. split; [done|]. by apply Hq. }
    destruct (IH db1 Hwf1 Hc) as (? & -> & ->). done.
  - intros Hc. by apply IH.
Qed.

(** The row written for an info. *)
Definition new_row (id : Z) (info : ValidPathInfo) (hash : bytes) (ca : option bytes) : ValidPathsRow :=
  let u := vpi_info info in
  mkVPRow id (printStorePath storeDir (vpi_path info)) hash
    (if (pi_registrationTime u =? 0)%Z then now else pi_registrationTime u)
    (match pi_deriver u with Some p => Some (printStorePath storeDir p) | None => None end)
    (size_column (pi_narSize u)) (ultimate_column (pi_ultimate u)) (sigs_column (pi_sigs u)) ca.

Lemma addValidPath_wf b info db db' :
  db_wf storeDir db -> store_path_ok (vpi_path info) ->
  addValidPath storeDir xp readInvalidDerivation now fuel b info db = Ok db' ->
  db_wf storeDir db' /\ db_Refs db' = db_Refs db /\
  exists id hash ca, (db_lastId db < id)%Z /\ db_ValidPaths db' = db_ValidPaths db ++ [new_row id info hash ca] /\
    to_string (pi_narHash (vpi_info info)) Base16 true = Ok hash /\ ca_column xp (pi_ca (vpi_info info)) = Ok ca.
Proof.
  intros Hwf Hp Ha. unfold addValidPath in Ha. apply rbind_Ok in Ha as (isCA & _ & Ha). destruct isCA; [|done]. cbn [negb] in Ha.
  apply rbind_Ok in Ha as (hash & Hhash & Ha). apply rbind_Ok in Ha as (ca & Hca & Ha).
  apply rbind_Ok in Ha as ([id db1] & Hr & Ha).
  destruct (RegisterValidPath_wf storeDir _ _ _ _ _ _ _ _ _ _ _ Hwf ltac:(by eexists) Hr) as (Hwf1 & _ & Hid & Evp & Eref & _).
  destruct (isDerivation (vpi_path info)).
  - apply rbind_Ok in Ha as (drv & Hdrv & Ha). apply rbind_Ok in Ha as (_ & _ & Ha).
    apply rbind_Ok in Ha as (outs & Houts & Ha).
    destruct (cache_outputs_wf id outs db1 db' Hwf1) as (? & Evp' & Eref'); [by eapply outputsAndOptPaths_ok|done|].
    rewrite Eref', Evp', Evp, Eref. split; [done|]. split; [done|]. by exists id, hash, ca.
  - apply Ok_inj in Ha. subst db1. rewrite Evp, Eref. split; [done|]. split; [done|]. by exists id, hash, ca.
Qed.

Lemma updatePathInfo_wf info db db' :
  db_wf storeDir db -> updatePathInfo storeDir xp info db = Ok db' -> db_wf storeDir db' /\ db_Refs db' = db_Refs db.
Proof.
  intros Hwf Hu. unfold updatePathInfo in Hu. apply rbind_Ok in Hu as (hash & _ & Hu).
  apply rbind_Ok in Hu as (ca & _ & Hu). apply Ok_inj in Hu. subst db'. split; [by apply UpdatePathInfo_wf|done].
Qed.

Lemma register_rows_wf infos db db' :
  db_wf storeDir db -> Forall (fun i => store_path_ok (vpi_path i.2)) infos ->
  register_rows storeDir xp readInvalidDerivation now fuel infos db = Ok db' ->
  db_wf storeDir db' /\ db_Refs db' = db_Refs db.
Proof.
  intros Hwf Hi. revert db Hwf. induction Hi as [|[k i] infos Hp Hi IH]; intros db Hwf; cbn [register_rows].
  { by intros [= <-]. }
  intros Hr. apply rbind_Ok in Hr as (_ & _ & Hr). apply rbind_Ok in Hr as (db1 & Hdb1 & Hr).
  assert (db_wf storeDir db1 /\ db_Refs db1 = db_Refs db) as [Hwf1 E1].
  { destruct (isValidPath_ storeDir db (vpi_path i)); [by eapply updatePathInfo_wf|].
    by destruct (addValidPath_wf _ _ _ _ Hwf Hp Hdb1) as (? & ? & _). }
  destruct (IH db1 Hwf1 Hr) as [? ->]. done.
Qed.

Lemma add_references_wf referrer refs db db' :
  db_wf storeDir db -> add_references storeDir referrer refs db = Ok db' ->
  db_wf storeDir db' /\ db_ValidPaths db' = db_ValidPaths db /\
  forall x, x ∈ db_Refs db' <-> x ∈ db_Refs db \/
    exists j r, j ∈ refs /\ row_of storeDir db j = Some r /\ x = (referrer, vp_id r).
Proof.
  revert db. induction refs as [|j refs IH]; intros db Hwf; cbn [add_references].
  { intros [= <-]. split; [done|]. split; [done|]. intros x. split; [by left|].
    intros [?|(j & r & Hj & _)]; [done|]. by apply elem_of_nil in Hj. }
  intros Ha. apply rbind_Ok in Ha as (id & Hid & Ha). apply rbind_Ok in Ha as (db1 & Hadd & Ha).
  destruct (AddReference_wf storeDir _ _ _ _ Hwf Hadd) as (Hwf1 & Evp & Hin). destruct (IH db1 Hwf1 Ha) as (? & Evp' & Hin').
  split; [done|]. split; [congruence|].
  assert (Erow : forall q, row_of storeDir db1 q = row_of storeDir db q).
  { intros q. unfold row_of, QueryPathInfo. by rewrite Evp. }
  unfold queryValidPathId in Hid. change (QueryPathInfo _ db) with (row_of storeDir db j) in Hid.
  destruct (row_of storeDir db j) as [rj|] eqn:Ej; [|done]. apply Ok_inj in Hid. subst id.
  intros x. rewrite Hin', Hin. split.
  - intros [[?|Hx]|(q & r & Hq & Hr & Hx)]; [by left|right|right].
    + exists j, rj. split; [apply list_elem_of_here|done].
    + exists q, r. split; [by apply list_elem_of_further|]. split; [by rewrite <- Erow|done].
  - intros [?|(q & r & [->|Hq]%elem_of_cons & Hr & Hx)]; [by left; left|left; right; congruence|].
    right. exists q, r. split; [done|]. split; [by rewrite Erow|done].
Qed.

Lemma register_refs_wf infos db db' :
  db_wf storeDir db -> register_refs storeDir infos db = Ok db' -> db_wf storeDir db' /\ db_ValidPaths db' = db_ValidPaths db.
Proof.
  revert db. induction infos as [|[k i] infos IH]; intros db Hwf; cbn [register_refs]; [by intros [= <-]|].
  intros Hr. apply rbind_Ok in Hr as (id & _ & Hr). apply rbind_Ok in Hr as (db1 & Ha & Hr).
  destruct (add_references_wf _ _ _ _ Hwf Ha) as (Hwf1 & E1 & _). destruct (IH db1 Hwf1 Hr) as [? ->]. done.
Qed.

Lemma registerValidPaths_wf infos db db' :
  db_wf storeDir db -> Forall (fun i => store_path_ok (vpi_path i.2)) infos ->
  registerValidPaths storeDir xp readInvalidDerivation now fuel infos db = Ok db' -> db_wf storeDir db'.
Proof.
  intros Hwf Hi Hr. unfold registerValidPaths in Hr. apply rbind_Ok in Hr as (db1 & H1 & Hr). cbv zeta in Hr.
  apply rbind_Ok in Hr as (db2 & H2 & Hr). apply rbind_Ok in Hr as (_ & _ & Hr). apply rbind_Ok in Hr as (_ & _ & Hr).
  apply Ok_inj in Hr. subst db2. destruct (register_rows_wf _ _ _ Hwf Hi H1) as [Hwf1 _].
  by destruct (register_refs_wf _ _ _ Hwf1 H2) as [? _].
Qed.
End registration.
