(* ===== verification/LocalStore.v ===== *)
(** * Behaviour of the local store's database (libstore/local-store.cc)

    What the operations of [LocalDb] promise together: the invariant of every
    database a history of operations can reach, what registration records,
    and when deletion is refused. *)

From S2P Require Import Prelude.
From S2P Require Import Containers.
From S2P Require Import Strings.
From S2P Require Import Hash.
From S2P Require Import CanonPath.
From S2P Require Import StorePath.
From S2P Require Import ContentAddress.
From S2P Require Import Derivations.
From S2P Require Import ATerm.
From S2P Require Import PathInfo.
From S2P Require Import Graph.
From S2P Require Import LocalDb.
From stdpp Require Import relations.

(** ** Histories *)

Inductive db_op :=
| Op_registerValidPaths (now : Z) (infos : list (StorePath * ValidPathInfo))
| Op_invalidatePathChecked (path : StorePath)
| Op_addSignatures (path : StorePath) (sigs : list bytes).

Definition op_ok (o : db_op) : Prop :=
  match o with
  | Op_registerValidPaths _ infos => Forall (fun i => store_path_ok (vpi_path i.2)) infos
  | _ => True
  end.

Definition empty_db : Db := mkDb [] [] [] 0.

Section history.
Context `{Digest} (storeDir : bytes) (xp : xpSettings).
Context (readInvalidDerivation : StorePath -> result Derivation) (fuel : nat).

Definition run_op (o : db_op) (db : Db) : result Db :=
  match o with
  | Op_registerValidPaths now infos => registerValidPaths storeDir xp readInvalidDerivation now fuel infos db
  | Op_invalidatePathChecked path => invalidatePathChecked storeDir path db
  | Op_addSignatures path sigs => addSignatures storeDir xp path sigs db
  end.

(** A transaction commits, or throws and is rolled back. *)
Inductive db_step : Db -> Db -> Prop :=
| step_commit o db db' : op_ok o -> run_op o db = Ok db' -> db_step db db'
| step_rollback o e db : op_ok o -> run_op o db = throw e -> db_step db db.

Hypothesis storeDir_wf : CanonPath_wf storeDir.
Hypothesis outputs_ok : forall p d, readInvalidDerivation p = Ok d ->
  Forall (fun i => forall q, i.2 = DerivationOutput.InputAddressed q -> store_path_ok q) (outputs d).

Lemma addSignatures_wf path sigs db db' :
  db_wf storeDir db -> addSignatures storeDir xp path sigs db = Ok db' -> db_wf storeDir db'.
Proof.
  intros Hwf Ha. unfold addSignatures in Ha. apply rbind_Ok in Ha as ([i|] & _ & Ha); [|done].
  by destruct (updatePathInfo_wf _ _ _ _ _ Hwf Ha).
Qed.

Lemma run_op_wf o db db' : db_wf storeDir db -> op_ok o -> run_op o db = Ok db' -> db_wf storeDir db'.
Proof.
  intros Hwf Ho Hr. destruct o as [now infos|p|p sigs]; cbn in Ho, Hr.
  - by eapply registerValidPaths_wf.
  - pose proof (invalidatePathChecked_cases storeDir storeDir_wf p db Hwf) as Hc. rewrite Hr in Hc. apply Hc.
  - by eapply addSignatures_wf.
Qed.

Lemma empty_db_wf : db_wf storeDir empty_db.
Proof. split; cbn; constructor. Qed.

Lemma reachable_wf db : rtc db_step empty_db db -> db_wf storeDir db.
Proof.
  intros Hr. apply rtc_ind_r with (z := db) (P := db_wf storeDir) in Hr; [done|apply empty_db_wf|].
  intros y z _ Hs Hy. destruct Hs; [by eapply run_op_wf|done].
Qed.
End history.

Lemma queryPathInfo_references storeDir xp db p i :
  CanonPath_wf storeDir -> db_wf storeDir db ->
  queryPathInfoInternal storeDir xp db p = Ok (Some i) ->
  vpi_path i = p /\ forall q, q ∈ pi_references (vpi_info i) <-> refers storeDir db p q.
Proof.
  intros Hd Hwf Hq. unfold queryPathInfoInternal in Hq.
  change (QueryPathInfo (printStorePath storeDir p) db) with (row_of storeDir db p) in Hq.
  destruct (row_of storeDir db p) as [r|] eqn:Er; [|done].
  destruct (references_spec storeDir Hd db p r Hwf Er) as (l & Hl & _ & Hin). rewrite Hl in Hq.
  apply rbind_Ok in Hq as (nh & _ & Hq). apply rbind_Ok in Hq as (dr & _ & Hq). apply rbind_Ok in Hq as (ca & _ & Hq).
  cbn [rbind] in Hq. apply Ok_inj in Hq. injection Hq as <-. done.
Qed.

(** C16: every database that registrations, deletions and added signatures can
    reach is well-formed (unique ids and paths, no dangling reference or
    derivation output, every path in the form of the store); so the
    references reported for a valid path are valid paths, [queryReferrers]
    always answers, and it answers the converse of the references. *)
Theorem local_store_invariant `{Digest} storeDir xp (readInvalidDerivation : StorePath -> result Derivation) fuel db :
  CanonPath_wf storeDir ->
  (forall p d, readInvalidDerivation p = Ok d ->
     Forall (fun i => forall q, i.2 = DerivationOutput.InputAddressed q -> store_path_ok q) (outputs d)) ->
  rtc (db_step storeDir xp readInvalidDerivation fuel) empty_db db ->
  db_wf storeDir db /\
  (forall p i q, queryPathInfoInternal storeDir xp db p = Ok (Some i) -> q ∈ pi_references (vpi_info i) ->
     isValidPath_ storeDir db q = true) /\
  (forall q, exists l, queryReferrers storeDir db q = Ok l /\
     forall p i, queryPathInfoInternal storeDir xp db p = Ok (Some i) -> (p ∈ l <-> q ∈ pi_references (vpi_info i))).
Proof.
  intros Hd Ho Hr. apply reachable_wf in Hr; [|done..]. split; [done|]. split.
  - intros p i q Hi Hq. apply queryPathInfo_references in Hi as [_ Hin]; [|done..]. apply isValidPath_spec.
    by apply Hin, refers_valid in Hq as [_ ?].
  - intros q. destruct (queryReferrers_spec storeDir Hd db q Hr) as (l & Hl & _ & Hin). exists l. split; [done|].
    intros p i Hi. apply queryPathInfo_references in Hi as [_ Hp]; [|done..]. by rewrite Hin, Hp.
Qed.

(** ** Registration *)

Section register.
Context `{Digest} (storeDir : bytes) (xp : xpSettings).
Context (readInvalidDerivation : StorePath -> result Derivation) (now : Z) (fuel : nat).
Hypothesis storeDir_wf : CanonPath_wf storeDir.
Hypothesis outputs_ok : forall p d, readInvalidDerivation p = Ok d ->
  Forall (fun i => forall q, i.2 = DerivationOutput.InputAddressed q -> store_path_ok q) (outputs d).

Notation row_of := (row_of storeDir).
Notation refers := (refers storeDir).

Lemma find_app {A} (f : A -> bool) l1 l2 :
  find f (l1 ++ l2) = match find f l1 with Some x => Some x | None => find f l2 end.
Proof. induction l1 as [|x l1 IH]; [done|]. cbn. by destruct (f x). Qed.

(** The rows after one info is written: its path is valid, the ids of the
    other paths and their columns stay. *)
Lemma write_row_spec i db db1 :
  db_wf storeDir db -> store_path_ok (vpi_path i) ->
  (if isValidPath_ storeDir db (vpi_path i) then updatePathInfo storeDir xp i db
   else addValidPath storeDir xp readInvalidDerivation now fuel false i db) = Ok db1 ->
  db_wf storeDir db1 /\ db_Refs db1 = db_Refs db /\ is_Some (row_of db1 (vpi_path i)) /\
  (forall q, q <> vpi_path i -> row_of db1 q = row_of db q) /\
  (forall r r1, row_of db (vpi_path i) = Some r -> row_of db1 (vpi_path i) = Some r1 -> vp_id r1 = vp_id r) /\
  (isValidPath_ storeDir db (vpi_path i) = false ->
   exists id hash ca, row_of db1 (vpi_path i) = Some (new_row storeDir now id i hash ca) /\ (db_lastId db < id)%Z /\
     to_string (pi_narHash (vpi_info i)) Base16 true = Ok hash /\ ca_column xp (pi_ca (vpi_info i)) = Ok ca).
Proof.
  intros Hwf Hp Hw. destruct (isValidPath_ storeDir db (vpi_path i)) eqn:Ev.
  - destruct (updatePathInfo_wf _ _ _ _ _ Hwf Hw) as [Hwf1 Eref]. split; [done|]. split; [done|].
    unfold updatePathInfo in Hw. apply rbind_Ok in Hw as (hash & _ & Hw).
    apply rbind_Ok in Hw as (ca & _ & Hw). apply Ok_inj in Hw. subst db1.
    set (path := printStorePath storeDir (vpi_path i)) in *.
    assert (Hfind : forall s, QueryPathInfo s (UpdatePathInfo (size_column (pi_narSize (vpi_info i))) hash
      (ultimate_column (pi_ultimate (vpi_info i))) (sigs_column (pi_sigs (vpi_info i))) ca path db) =
      (fun r => if bool_decide (vp_path r = path)
                then mkVPRow (vp_id r) (vp_path r) hash (vp_registrationTime r) (vp_deriver r)
                  (size_column (pi_narSize (vpi_info i))) (ultimate_column (pi_ultimate (vpi_info i)))
                  (sigs_column (pi_sigs (vpi_info i))) ca else r) <$> QueryPathInfo s db).
    { intros s. unfold QueryPathInfo, UpdatePathInfo. cbn [db_ValidPaths].
      induction (db_ValidPaths db) as [|r l IH]; [done|]. rewrite fmap_cons. cbn [find].
      rewrite IH. destruct (bool_decide (vp_path r = path)) eqn:E1; cbn [vp_path]; destruct (bool_decide (vp_path r = s)) eqn:E2;
        try done; cbn [fmap option_fmap option_map]; by rewrite E1. }
    apply isValidPath_spec in Ev as [r Er].
    assert (Hpath : vp_path r = path) by by apply row_of_elem in Er as [_ ?].
    unfold LocalDb.row_of in *. split; [rewrite Hfind, Er; by eexists|]. split; [|split; [|done]].
    + intros q Hq. rewrite Hfind. destruct (QueryPathInfo (printStorePath storeDir q) db) as [rq|] eqn:Eq; [|done]. cbn [fmap option_fmap option_map].
      rewrite bool_decide_false; [done|]. apply QueryPathInfo_Some in Eq as [_ Eq]. rewrite Eq. by intros ?%printStorePath_inj.
    + intros r0 r1. rewrite Hfind, Er. cbn [fmap option_fmap option_map]. intros [= <-] [= <-]. by case_bool_decide.
  - destruct (addValidPath_wf storeDir xp readInvalidDerivation now fuel outputs_ok _ _ _ _ Hwf Hp Hw)
      as (Hwf1 & Eref & id & hash & ca & Hid & Evp & Hhash & Hca).
    assert (Hnone : row_of db (vpi_path i) = None).
    { destruct (row_of db (vpi_path i)) eqn:E; [|done]. apply not_true_iff_false in Ev. destruct Ev.
      apply isValidPath_spec. unfold valid. by rewrite E. }
    assert (Hnew : row_of db1 (vpi_path i) = Some (new_row storeDir now id i hash ca)).
    { unfold LocalDb.row_of, QueryPathInfo in *. rewrite Evp, find_app, Hnone. cbn [find]. by rewrite bool_decide_true. }
    split; [done|]. split; [done|]. split; [by rewrite Hnew|]. split; [|split].
    + intros q Hq. unfold LocalDb.row_of, QueryPathInfo. rewrite Evp, find_app. destruct (find _ _); [done|]. cbn [find].
      rewrite bool_decide_false; [done|]. by intros E%printStorePath_inj.
    + intros r r1 Hr. congruence.
    + intros _. by exists id, hash, ca.
Qed.

(** Every registered reference is valid. *)
Lemma add_references_valid referrer refs db db' b :
  add_references storeDir referrer refs db = Ok db' -> b ∈ refs -> is_Some (row_of db b).
Proof.
  revert db. induction refs as [|j l IH]; intros db Ha Hb; [by apply elem_of_nil in Hb|].
  cbn [add_references] in Ha. apply rbind_Ok in Ha as (id & Hid & Ha). apply rbind_Ok in Ha as (db2 & Hadd & Ha).
  apply elem_of_cons in Hb as [->|Hb].
  - unfold queryValidPathId in Hid. unfold LocalDb.row_of. by destruct (QueryPathInfo _ db).
  - specialize (IH db2 Ha Hb). unfold LocalDb.row_of, QueryPathInfo in *.
    unfold AddReference in Hadd. destruct (_ && _); [|done]. apply Ok_inj in Hadd. by subst db2.
Qed.

(** Rows that keep their ids keep the reference graph. *)
Lemma refers_keep db db1 :
  db_wf storeDir db -> db_wf storeDir db1 -> db_Refs db1 = db_Refs db ->
  (forall q r, row_of db q = Some r -> exists r', row_of db1 q = Some r' /\ vp_id r' = vp_id r) ->
  forall a b, refers db1 a b <-> refers db a b.
Proof.
  intros Hwf Hwf1 Eref Hlift a b. split.
  - intros (ra & rb & Ha & Hb & Hab). rewrite Eref in Hab.
    pose proof (dw_refs _ _ Hwf) as Hrefs. rewrite Forall_forall in Hrefs.
    destruct (Hrefs _ Hab) as [(xa & Hxa & Ea) (xb & Hxb & Eb)]. cbn [fst snd] in *.
    assert (Hback : forall q rq x, row_of db1 q = Some rq -> x ∈ db_ValidPaths db -> vp_id x = vp_id rq -> row_of db q = Some x).
    { intros q rq x Hq Hx Ex. pose proof (dw_printed _ _ Hwf) as Hpr. rewrite Forall_forall in Hpr.
      destruct (Hpr x Hx) as (q' & Eq' & _). pose proof (row_of_printed storeDir db x q' Hwf Hx Eq') as Hq'.
      destruct (Hlift _ _ Hq') as (r' & Hr' & Eid). apply row_of_elem in Hr' as [Hr' Ep'], Hq as [Hq Ep].
      assert (r' = rq) as -> by (apply (row_id_inj storeDir db1); [done..|congruence]).
      rewrite Ep in Ep'. by apply printStorePath_inj in Ep' as ->. }
    exists xa, xb. split; [by eapply Hback|]. split; [by eapply Hback|]. by rewrite Ea, Eb.
  - intros (ra & rb & Ha & Hb & Hab). destruct (Hlift _ _ Ha) as (ra' & Ha1 & Ea), (Hlift _ _ Hb) as (rb' & Hb1 & Eb).
    exists ra', rb'. by rewrite Ea, Eb, Eref.
Qed.

(** The references of a registered path join the reference graph. *)
Lemma add_references_refers p r refs db db' :
  db_wf storeDir db -> row_of db p = Some r -> add_references storeDir (vp_id r) refs db = Ok db' ->
  db_wf storeDir db' /\ (forall q, row_of db' q = row_of db q) /\
  forall a b, refers db' a b <-> refers db a b \/ a = p /\ b ∈ refs.
Proof.
  intros Hwf Hr Ha. destruct (add_references_wf _ _ _ _ _ Hwf Ha) as (Hwf' & Evp & Hin).
  assert (Erow : forall q, row_of db' q = row_of db q).
  { intros q. unfold LocalDb.row_of, QueryPathInfo. by rewrite Evp. }
  split; [done|]. split; [done|].
  intros a b. unfold LocalDb.refers. setoid_rewrite Erow. setoid_rewrite Hin. split.
  - intros (ra & rb & Ha' & Hb' & [Hab|(j & rj & Hj & Erj & [= Ei Ej])]); [left; by exists ra, rb|].
    right. apply row_of_elem in Ha' as [Ha' Ea], Hb' as [Hb' Eb], Hr as [Hr Er], Erj as [Hrj Erj].
    assert (ra = r) as -> by by apply (row_id_inj storeDir db). assert (rb = rj) as -> by by apply (row_id_inj storeDir db).
    rewrite Ea in Er. apply printStorePath_inj in Er as ->. rewrite Eb in Erj. by apply printStorePath_inj in Erj as ->.
  - intros [(ra & rb & Ha' & Hb' & Hab)|[-> Hb]]; [exists ra, rb; auto|].
    destruct (add_references_valid _ _ _ _ _ Ha Hb) as [rb Erb]. exists r, rb. split; [done|]. split; [done|].
    right. by exists b, rb.
Qed.

(** One registration, as an extension of the reference graph. *)
Lemma registerValidPath_spec i db db' :
  db_wf storeDir db -> store_path_ok (vpi_path i) ->
  registerValidPath storeDir xp readInvalidDerivation now fuel i db = Ok db' ->
  db_wf storeDir db' /\ valid storeDir db' (vpi_path i) /\
  (forall q, q <> vpi_path i -> row_of db' q = row_of db q) /\
  (forall a b, refers db' a b <-> refers db a b \/ a = vpi_path i /\ b ∈ pi_references (vpi_info i)) /\
  (isValidPath_ storeDir db (vpi_path i) = false ->
   exists id hash ca, row_of db' (vpi_path i) = Some (new_row storeDir now id i hash ca) /\
     to_string (pi_narHash (vpi_info i)) Base16 true = Ok hash /\ ca_column xp (pi_ca (vpi_info i)) = Ok ca).
Proof.
  intros Hwf Hp Hr. unfold registerValidPath, registerValidPaths in Hr. cbn [register_rows register_refs foldl snd] in Hr.
  apply rbind_Ok in Hr as (db1 & Hr1 & Hr). apply rbind_Ok in Hr1 as (_ & _ & Hr1). apply rbind_Ok in Hr1 as (db1' & Hw & Hr1).
  apply Ok_inj in Hr1. subst db1'. apply rbind_Ok in Hr as (db2 & Hr2 & Hr). apply rbind_Ok in Hr2 as (id & Hid & Hr2).
  apply rbind_Ok in Hr2 as (db2' & Ha & Hr2). apply Ok_inj in Hr2. subst db2'.
  apply rbind_Ok in Hr as (_ & _ & Hr). apply rbind_Ok in Hr as (_ & _ & Hr). apply Ok_inj in Hr. subst db2.
  destruct (write_row_spec _ _ _ Hwf Hp Hw) as (Hwf1 & Eref & [r1 Er1] & Hother & Hkeep & Hnew).
  unfold queryValidPathId in Hid. change (QueryPathInfo _ db1) with (row_of db1 (vpi_path i)) in Hid. rewrite Er1 in Hid.
  apply Ok_inj in Hid. subst id. destruct (add_references_refers _ _ _ _ _ Hwf1 Er1 Ha) as (Hwf' & Erow & Hrefs).
  split; [done|]. split; [unfold valid; rewrite Erow, Er1; by eexists|].
  split; [intros q Hq; by rewrite Erow, Hother|]. split.
  - intros a b. rewrite Hrefs, (refers_keep db db1); [done..|].
    intros q r Hq. destruct (decide (q = vpi_path i)) as [->|Hne]; [|exists r; by rewrite Hother].
    exists r1. split; [done|]. by eapply Hkeep.
  - intros Hv. destruct (Hnew Hv) as (id & h & c & E & _ & ? & ?). exists id, h, c. by rewrite Erow.
Qed.
End register.

(** What registration records: the info, with the time of registration. *)
Definition recorded (now : Z) (i : ValidPathInfo) : ValidPathInfo :=
  let u := vpi_info i in
  mkValidPathInfo (vpi_path i)
    (mkPathInfo (pi_deriver u) (pi_narHash u) (pi_references u)
       (if (pi_registrationTime u =? 0)%Z then now else pi_registrationTime u)
       (pi_narSize u) (pi_ultimate u) (pi_sigs u) (pi_ca u)).

(** An info whose columns can be read back. *)
Record info_storable (xp : xpSettings) (i : ValidPathInfo) : Prop := {
  is_path : store_path_ok (vpi_path i);
  is_hash : Hash_regular (pi_narHash (vpi_info i));
  is_size : (0 <= pi_narSize (vpi_info i) < 2 ^ 64)%Z;
  is_deriver : forall p, pi_deriver (vpi_info i) = Some p -> store_path_ok p;
  is_refs : sset_wf (pi_references (vpi_info i));
  is_sigs : sset_wf (pi_sigs (vpi_info i)) /\ Forall (fun s => s <> [] /\ " "%char ∉ s) (pi_sigs (vpi_info i));
  is_ca : forall ca, pi_ca (vpi_info i) = Some ca -> ca_ok xp ca;
}.

Lemma size_column_read n : (0 <= n < 2 ^ 64)%Z -> u64 (default 0%Z (size_column n)) = n.
Proof.
  intros Hn. unfold size_column. destruct (Z.eqb_spec n 0) as [->|Hne]; [done|]. cbn [from_option]. unfold id, i64, u64.
  rewrite Zminus_mod, Zmod_mod, <- Zminus_mod. replace (n + 2 ^ 63 - 2 ^ 63)%Z with n by lia. by apply Z.mod_small.
Qed.

Lemma sigs_column_read sigs :
  sset_wf sigs -> Forall (fun s => s <> [] /\ " "%char ∉ s) sigs ->
  match sigs_column sigs with Some s => tokenizeStringSet s (L " ") | None => [] end = sigs.
Proof.
  intros Hs Hf. unfold sigs_column. case_bool_decide as E; [done|]. unfold tokenizeStringSet.
  change (L " ") with [" "%char]. rewrite tokenize_concat by done. by apply sset_of_list_sorted.
Qed.

Lemma ca_column_read xp o c :
  (forall ca, o = Some ca -> ca_ok xp ca) -> ca_column xp o = Ok c ->
  match c with Some s => ContentAddress_parseOpt xp s | None => Ok None end = Ok o.
Proof.
  intros Ho Hc. unfold ca_column in Hc. destruct o as [ca|]; [|by apply Ok_inj in Hc; subst c].
  apply rbind_Ok in Hc as (s & Hs & Hc). apply Ok_inj in Hc. subst c. by apply parseOpt_render.
Qed.

(** The query only depends on the row and the references of the path. *)
Lemma queryPathInfoInternal_ext storeDir xp db db' p :
  CanonPath_wf storeDir -> db_wf storeDir db -> db_wf storeDir db' -> row_of storeDir db' p = row_of storeDir db p ->
  (forall q, refers storeDir db' p q <-> refers storeDir db p q) ->
  queryPathInfoInternal storeDir xp db' p = queryPathInfoInternal storeDir xp db p.
Proof.
  intros Hd Hwf Hwf' Er Hin. unfold queryPathInfoInternal.
  change (QueryPathInfo (printStorePath storeDir p) db) with (row_of storeDir db p).
  change (QueryPathInfo (printStorePath storeDir p) db') with (row_of storeDir db' p).
  rewrite Er. destruct (row_of storeDir db p) as [r|] eqn:E; [|done].
  destruct (references_spec storeDir Hd db p r Hwf E) as (l & -> & Hs & Hl).
  destruct (references_spec storeDir Hd db' p r Hwf' Er) as (l' & -> & Hs' & Hl').
  assert (l' = l) as -> by (apply sset_ext; [done..|]; intros q; by rewrite Hl, Hl', Hin). done.
Qed.

(** A path that was not valid and whose registration succeeds is valid
    afterwards, the query returns the registered info (deriver, archive hash
    and size, references, signatures, content address) with the registration
    time filled in, and the info of every other path is unchanged. *)
Theorem registerValidPath_query `{Digest} storeDir xp (readInvalidDerivation : StorePath -> result Derivation) now fuel i db db' :
  CanonPath_wf storeDir ->
  (forall p d, readInvalidDerivation p = Ok d ->
     Forall (fun i => forall q, i.2 = DerivationOutput.InputAddressed q -> store_path_ok q) (outputs d)) ->
  db_wf storeDir db -> info_storable xp i -> isValidPath_ storeDir db (vpi_path i) = false ->
  registerValidPath storeDir xp readInvalidDerivation now fuel i db = Ok db' ->
  queryPathInfoInternal storeDir xp db' (vpi_path i) = Ok (Some (recorded now i)) /\
  forall q, q <> vpi_path i -> queryPathInfoInternal storeDir xp db' q = queryPathInfoInternal storeDir xp db q.
Proof.
  intros Hd Ho Hwf [] Hv Hr. destruct (registerValidPath_spec _ _ _ _ _ Ho _ _ _ Hwf is_path0 Hr)
    as (Hwf' & _ & Hother & Hrefs & Hnew). split.
  - destruct (Hnew Hv) as (id & hash & ca & Erow & Hhash & Hca). unfold queryPathInfoInternal.
    change (QueryPathInfo (printStorePath storeDir (vpi_path i)) db') with (row_of storeDir db' (vpi_path i)).
    destruct (references_spec storeDir Hd db' _ _ Hwf' Erow) as (l & Hl & Hs & Hin). rewrite Erow, Hl. unfold new_row.
    cbn [vp_hash vp_deriver vp_narSize vp_ultimate vp_sigs vp_ca vp_registrationTime].
    assert (Hen : algo_enabled xp (algo (pi_narHash (vpi_info i)))).
    { unfold registerValidPath, registerValidPaths in Hr. cbn [register_rows] in Hr.
      destruct (bool_decide (algo (pi_narHash (vpi_info i)) = SHA256)) eqn:E; [|done].
      apply bool_decide_eq_true in E. by rewrite E. }
    rewrite (parseAnyPrefixed_text xp _ Base16 true hash is_hash0 Hen (or_intror eq_refl) Hhash). cbn [rbind].
    rewrite size_column_read, sigs_column_read, (ca_column_read xp _ _ is_ca0 Hca) by (done || apply is_sigs0).
    assert (l = pi_references (vpi_info i)) as ->.
    { apply sset_ext; [done..|]. intros q. rewrite Hin, Hrefs. split; [|auto]. intros [(r & _ & Hp & _)|[_ ?]]; [|done].
      apply not_true_iff_false in Hv. destruct Hv. apply isValidPath_spec. by eexists. }
    destruct (pi_deriver (vpi_info i)) as [d|] eqn:Ed; cbn [rbind].
    + rewrite parseStorePath_ok by auto. cbn [rbind]. unfold recorded. rewrite Ed. by destruct (pi_ultimate (vpi_info i)).
    + unfold recorded. rewrite Ed. by destruct (pi_ultimate (vpi_info i)).
  - intros q Hq. apply queryPathInfoInternal_ext; [done..|by apply Hother|]. intros x. rewrite Hrefs. naive_solver.
Qed.

Lemma isValidPath_row storeDir db p :
  isValidPath_ storeDir db p = match row_of storeDir db p with Some _ => true | None => false end.
Proof. unfold isValidPath_, row_of. by destruct (QueryPathInfo _ _). Qed.

(** C36: deletion. A path that another path refers to is not deleted: the
    operation throws [PathInUse] and only then; otherwise it succeeds, the
    path is no longer valid (self-references do not matter), and every other
    path keeps its info. *)
Theorem invalidatePathChecked_spec storeDir xp p db :
  CanonPath_wf storeDir -> db_wf storeDir db ->
  ((exists q, q <> p /\ refers storeDir db q p) -> invalidatePathChecked storeDir p db = throw PathInUse) /\
  ((forall q, refers storeDir db q p -> q = p) ->
   exists db', invalidatePathChecked storeDir p db = Ok db' /\ isValidPath_ storeDir db' p = false /\
     forall q, q <> p -> isValidPath_ storeDir db' q = isValidPath_ storeDir db q /\
       queryPathInfoInternal storeDir xp db' q = queryPathInfoInternal storeDir xp db q).
Proof.
  intros Hd Hwf. pose proof (invalidatePathChecked_cases storeDir Hd p db Hwf) as Hc.
  destruct (invalidatePathChecked storeDir p db) as [db'|f].
  2: { destruct Hc as [-> (q & Hq & Hr)]. split; [done|]. intros Hno. by apply Hno in Hr. }
  destruct Hc as (Hwf' & Honly & Hp & Hother & Hrefs). split; [intros (q & Hq & Hr); by apply Honly in Hr|].
  intros _. exists db'. split; [done|].
  rewrite (isValidPath_row storeDir db' p), Hp. split; [done|].
  intros q Hq. rewrite !isValidPath_row, Hother by done. split; [done|]. apply queryPathInfoInternal_ext; [done..|by apply Hother|].
  intros x. rewrite Hrefs. split; [by intros [? _]|]. intros Hx. split; [done|]. split; [done|]. intros ->. by apply Honly in Hx.
Qed.

(** ** An example *)

Definition example_info (p : StorePath) (refs : list StorePath) : ValidPathInfo :=
  mkValidPathInfo p (mkPathInfo None dummy_hash refs 0 7 false [L "key:sig"] None).
Definition example_a : StorePath := mkStorePath (L "a" ++ drop 1 example_base).
Definition example_b : StorePath := mkStorePath (L "b" ++ drop 1 example_base).
Definition no_drv (p : StorePath) : result Derivation := throw Error.
Definition example_op (o : db_op) (db : Db) : Db :=
  match @run_op padded_digest (L "/nix/store") (fun _ => false) no_drv 1 o db with Ok db' => db' | Err _ => empty_db end.
Definition example_db : Db :=
  example_op (Op_registerValidPaths 5 [(example_b, example_info example_b [example_a; example_b])])
    (example_op (Op_registerValidPaths 4 [(example_a, example_info example_a [])]) empty_db).
(** The first path registered again, now with a reference to the second. *)
Definition example_cyclic : Db :=
  example_op (Op_registerValidPaths 6 [(example_a, example_info example_a [example_b])]) example_db.

Lemma example_paths_ok : store_path_ok example_a /\ store_path_ok example_b.
Proof. split; (split; [by vm_compute|apply (bool_decide_unpack _); by vm_compute]). Qed.

Lemma example_info_storable p refs :
  store_path_ok p -> sset_wf refs -> info_storable (fun _ => false) (example_info p refs).
Proof.
  intros Hp Hr. split; cbn; try done.
  - unfold Hash_regular, Hash_wf, maxHashSize. cbn. repeat split; lia.
  - split; [by repeat constructor|]. repeat constructor; [done|]. by apply (bool_decide_unpack _).
Qed.

Lemma example_step o db :
  op_ok o -> @run_op padded_digest (L "/nix/store") (fun _ => false) no_drv 1 o db = Ok (example_op o db) ->
  @db_step padded_digest (L "/nix/store") (fun _ => false) no_drv 1 db (example_op o db).
Proof. intros ? ?. by eapply step_commit. Qed.

Lemma example_reachable : rtc (@db_step padded_digest (L "/nix/store") (fun _ => false) no_drv 1) empty_db example_cyclic.
Proof.
  destruct example_paths_ok. unfold example_cyclic, example_db.
  do 3 (eapply rtc_r; [|apply example_step; [by repeat constructor|by vm_compute]]). apply rtc_refl.
Qed.

Lemma local_store_invariant_witness :
  (exists i, queryPathInfoInternal (L "/nix/store") (fun _ => false) example_cyclic example_b = Ok (Some i) /\
     example_a ∈ pi_references (vpi_info i)) /\
  isValidPath_ (L "/nix/store") example_cyclic example_a = true.
Proof.
  destruct (@local_store_invariant padded_digest (L "/nix/store") (fun _ => false) no_drv 1 example_cyclic) as (_ & Hv & _).
  - by apply CanonPath_raw_self.
  - intros p d [=].
  - apply example_reachable.
  - assert (exists i, queryPathInfoInternal (L "/nix/store") (fun _ => false) example_cyclic example_b = Ok (Some i) /\
     example_a ∈ pi_references (vpi_info i)) as (i & Hi & Ha).
    { eexists. split; [vm_compute; reflexivity|]. apply (bool_decide_unpack _). by vm_compute. }
    split; [by exists i|]. by eapply Hv.
Defined.

Lemma registerValidPath_query_witness :
  let i := example_info example_a [] in
  exists db', @registerValidPath padded_digest (L "/nix/store") (fun _ => false) no_drv 4 1 i empty_db = Ok db' /\
    queryPathInfoInternal (L "/nix/store") (fun _ => false) db' example_a = Ok (Some (recorded 4 i)).
Proof.
  cbv zeta. eexists. split; [vm_compute; reflexivity|].
  apply (@registerValidPath_query padded_digest (L "/nix/store") (fun _ => false) no_drv 4 1 (example_info example_a []) empty_db).
  - by apply CanonPath_raw_self.
  - intros p d [=].
  - apply empty_db_wf.
  - apply example_info_storable; [apply example_paths_ok|constructor].
  - by vm_compute.
  - vm_compute. reflexivity.
Defined.

Lemma example_db_wf : db_wf (L "/nix/store") example_db /\ db_wf (L "/nix/store") example_cyclic.
Proof.
  destruct example_paths_ok. split; eapply (reachable_wf (H := padded_digest) (L "/nix/store") (fun _ => false) no_drv 1);
    [by apply CanonPath_raw_self|by intros p d [=]| |by apply CanonPath_raw_self|by intros p d [=]|apply example_reachable].
  unfold example_db. do 2 (eapply rtc_r; [|apply example_step; [by repeat constructor|by vm_compute]]). apply rtc_refl.
Qed.

Lemma invalidatePathChecked_spec_witness :
  invalidatePathChecked (L "/nix/store") example_a example_db = throw PathInUse.
Proof.
  apply (invalidatePathChecked_spec (L "/nix/store") (fun _ => false) example_a example_db).
  - by apply CanonPath_raw_self.
  - apply example_db_wf.
  - exists example_b. split; [by apply (bool_decide_unpack _)|].
    eexists _, _. split; [vm_compute; reflexivity|]. split; [vm_compute; reflexivity|].
    apply (bool_decide_unpack _). by vm_compute.
Defined.

(** The cycle check of registration only sees the infos of the call: a
    valid path registered again can close a cycle through paths registered
    before, the registration succeeds, and from then on neither of the two
    paths can be deleted. *)
Theorem reregistration_closes_cycle :
  rtc (@db_step padded_digest (L "/nix/store") (fun _ => false) no_drv 1) empty_db example_cyclic /\
  example_a <> example_b /\
  refers (L "/nix/store") example_cyclic example_a example_b /\ refers (L "/nix/store") example_cyclic example_b example_a /\
  invalidatePathChecked (L "/nix/store") example_a example_cyclic = throw PathInUse /\
  invalidatePathChecked (L "/nix/store") example_b example_cyclic = throw PathInUse.
Proof.
  assert (Hsome : forall a b ra rb, row_of (L "/nix/store") example_cyclic a = Some ra -> row_of (L "/nix/store") example_cyclic b = Some rb ->
    bool_decide ((vp_id ra, vp_id rb) ∈ db_Refs example_cyclic) = true -> refers (L "/nix/store") example_cyclic a b).
  { intros a b ra rb Ha Hb Hab. exists ra, rb. split; [done|]. split; [done|]. by apply bool_decide_eq_true in Hab. }
  split; [apply example_reachable|]. split; [by apply (bool_decide_unpack _)|].
  split; [|split; [|split; by vm_compute]]; (eapply Hsome; [vm_compute; reflexivity|vm_compute; reflexivity|by vm_compute]).
Qed.

(** Adding signatures to a path that is not valid dereferences a null
    pointer instead of reporting an invalid path. *)
Theorem addSignatures_invalid_path storeDir xp path sigs db :
  isValidPath_ storeDir db path = false -> addSignatures storeDir xp path sigs db = Err UndefinedBehaviour.
Proof.
  intros Hv. unfold addSignatures, queryPathInfoInternal. unfold isValidPath_ in Hv.
  by destruct (QueryPathInfo (printStorePath storeDir path) db).
Qed.

Lemma addSignatures_invalid_path_witness :
  addSignatures (L "/nix/store") (fun _ => false) example_b [L "k:s"] empty_db = Err UndefinedBehaviour.
Proof. apply addSignatures_invalid_path. reflexivity. Defined.
