(* ===== verification/Gc.v ===== *)
(** * The garbage collector (libstore/gc.cc, libstore/misc.cc)

    [collectGarbage] against an interface to the database of valid paths,
    which the local store implements ([GcLocal.Gc_local]). Exceptions keep
    the state reached so far: deletions are not undone. The threads that
    receive temporary roots while the collection runs are a sequence of
    arrivals, delivered at the points where the collector takes their lock
    and between deletions. *)

From S2P Require Import Prelude.
From S2P Require Import Containers.
From S2P Require Import Strings.
From S2P Require Import CanonPath.
From S2P Require Import StorePath.
From S2P Require Import ContentAddress.
From S2P Require Import Derivations.
From S2P Require Import ATerm.
From S2P Require Import PathInfo.
From S2P Require Import Graph.
From S2P Require Import LocalDb.
From S2P Require Import LocalStore.
From stdpp Require Import relations.

(** ** What the collector asks of a store *)

Class StoreDb (D : Type) := {
  db_isValidPath : D -> StorePath -> bool;
  db_queryPathInfo : D -> StorePath -> result ValidPathInfo;
  db_queryReferrers : D -> StorePath -> result (list StorePath);
  db_queryValidDerivers : D -> StorePath -> result (list StorePath);
  db_queryPartialDerivationOutputMap : D -> StorePath -> result (list (bytes * option StorePath));
  db_invalidatePathChecked : StorePath -> D -> result D;
}.

(** ** Closures and orders of store paths (misc.cc) *)

Section misc.
Context {D : Type} `{StoreDb D} (db : D).

(** The outputs in an output map that are valid. *)
Definition valid_outputs (outs : list (bytes * option StorePath)) : list StorePath :=
  omap (fun o => match o.2 with Some p => if db_isValidPath db p then Some p else None | None => None end) outs.

Definition queryDeps (flipDirection includeOutputs includeDerivers : bool) (path : StorePath) : result (list StorePath) :=
  if flipDirection then
    let* referrers := db_queryReferrers db path in
    let* derivers := if includeOutputs then db_queryValidDerivers db path else Ok [] in
    let* outs := if includeDerivers && isDerivation path
                 then db_queryPartialDerivationOutputMap db path else Ok [] in
    Ok (sset_of_list (filter (fun r => r <> path) referrers ++ derivers ++ valid_outputs outs))
  else
    let* info := db_queryPathInfo db path in
    let* outs := if includeOutputs && isDerivation path
                 then db_queryPartialDerivationOutputMap db path else Ok [] in
    let deriver := if includeDerivers
                   then match pi_deriver (vpi_info info) with
                        | Some d => if db_isValidPath db d then [d] else []
                        | None => []
                        end
                   else [] in
    Ok (sset_of_list (filter (fun r => r <> path) (pi_references (vpi_info info)) ++ valid_outputs outs ++ deriver)).

Definition computeFSClosure (fuel : nat) (startPaths paths_ : list StorePath)
    (flipDirection includeOutputs includeDerivers : bool) : result (list StorePath) :=
  computeClosure (queryDeps flipDirection includeOutputs includeDerivers) fuel startPaths paths_.

Definition path_references (path : StorePath) : result (list StorePath) :=
  match db_queryPathInfo db path with
  | Ok info => Ok (pi_references (vpi_info info))
  | Err (Throw InvalidPath) => Ok []
  | Err f => Err f
  end.

Definition topoSortPaths (paths : list StorePath) : result (list StorePath) :=
  topoSort paths path_references (fun _ _ => BuildError).
End misc.

(** ** The collector *)

Inductive GCAction := gcReturnLive | gcReturnDead | gcDeleteDead | gcDeleteSpecific.
#[export] Instance GCAction_eq_dec : EqDecision GCAction.
Proof. solve_decision. Defined.

Record GCOptions := mkGCOptions {
  go_action : GCAction;
  go_ignoreLiveness : bool;
  go_pathsToDelete : list StorePath;
  go_maxFreed : Z;
}.

(** [Shared], with the clients waiting for [pending] and the roots that were
    acknowledged. *)
Record Shared := mkShared {
  sh_tempRoots : list bytes;
  sh_pending : option bytes;
  sh_waiting : list bytes;
  sh_acked : list bytes;
}.

(** What the filesystem answers: whether a temporary directory could be
    locked, the result of deleting a tree, the entries of the store directory
    and the entries of the links directory with their link counts. *)
Record GcFs := mkGcFs {
  fs_lockable : bytes -> bool;
  fs_deleteStorePath : bytes -> result Z;
  fs_entries : list bytes;
  fs_links : list (bytes * Z);
}.

Section gc.
Context {D : Type} `{StoreDb D} (storeDir realStoreDir linksDir reservedPath : bytes).
Context (options : GCOptions) (keepOutputs keepDerivations : bool) (fs : GcFs) (fuel : nat).
(** The permanent roots, and the temporary roots that existed before. *)
Context (rootMap tempRoots0 : list StorePath).

Record GcState := mkGc {
  gc_db : D;
  gc_dead : list StorePath;
  gc_alive : list StorePath;
  gc_shared : Shared;
  gc_arrivals : list (list bytes);                    (** roots still to arrive, in batches *)
  gc_cache : list (StorePath * list StorePath);       (** [referrersCache] *)
  gc_paths : list bytes;                              (** [results.paths] *)
  gc_bytesFreed : Z;
  gc_removed : list bytes;                            (** deleted from the disk, in order *)
}.

Definition set_db db st := mkGc db (gc_dead st) (gc_alive st) (gc_shared st) (gc_arrivals st) (gc_cache st)
  (gc_paths st) (gc_bytesFreed st) (gc_removed st).
Definition set_dead dead st := mkGc (gc_db st) dead (gc_alive st) (gc_shared st) (gc_arrivals st) (gc_cache st)
  (gc_paths st) (gc_bytesFreed st) (gc_removed st).
Definition set_alive alive st := mkGc (gc_db st) (gc_dead st) alive (gc_shared st) (gc_arrivals st) (gc_cache st)
  (gc_paths st) (gc_bytesFreed st) (gc_removed st).
Definition set_shared shared st := mkGc (gc_db st) (gc_dead st) (gc_alive st) shared (gc_arrivals st) (gc_cache st)
  (gc_paths st) (gc_bytesFreed st) (gc_removed st).
Definition set_cache cache st := mkGc (gc_db st) (gc_dead st) (gc_alive st) (gc_shared st) (gc_arrivals st) cache
  (gc_paths st) (gc_bytesFreed st) (gc_removed st).
Definition set_paths paths st := mkGc (gc_db st) (gc_dead st) (gc_alive st) (gc_shared st) (gc_arrivals st) (gc_cache st)
  paths (gc_bytesFreed st) (gc_removed st).
Definition set_freed freed st := mkGc (gc_db st) (gc_dead st) (gc_alive st) (gc_shared st) (gc_arrivals st) (gc_cache st)
  (gc_paths st) freed (gc_removed st).
Definition set_removed removed st := mkGc (gc_db st) (gc_dead st) (gc_alive st) (gc_shared st) (gc_arrivals st) (gc_cache st)
  (gc_paths st) (gc_bytesFreed st) removed.

Definition shouldDelete : bool :=
  bool_decide (go_action options = gcDeleteDead) || bool_decide (go_action options = gcDeleteSpecific).
Definition ignoring : bool := bool_decide (go_action options = gcDeleteSpecific) && go_ignoreLiveness options.
Definition gcKeepOutputs : bool := keepOutputs && negb ignoring.
Definition gcKeepDerivations : bool := keepDerivations && negb ignoring.

Definition roots : list StorePath := sset_of_list ((if go_ignoreLiveness options then [] else rootMap) ++ tempRoots0).

(** A client thread: the root is inserted, and acknowledged unless its path is
    the pending one. *)
Definition client_root (sh : Shared) (hashPart : bytes) : Shared :=
  let roots := sset_insert hashPart (sh_tempRoots sh) in
  if bool_decide (sh_pending sh = Some hashPart)
  then mkShared roots (sh_pending sh) (sh_waiting sh ++ [hashPart]) (sh_acked sh)
  else mkShared roots (sh_pending sh) (sh_waiting sh) (sh_acked sh ++ [hashPart]).

Definition arrive (st : GcState) : GcState :=
  match gc_arrivals st with
  | [] => st
  | batch :: rest =>
      mkGc (gc_db st) (gc_dead st) (gc_alive st) (foldl client_root (gc_shared st) batch) rest (gc_cache st)
        (gc_paths st) (gc_bytesFreed st) (gc_removed st)
  end.

(** [pending.reset()] and [notify_all]. *)
Definition releasePending (st : GcState) : GcState :=
  let sh := gc_shared st in
  set_shared (mkShared (sh_tempRoots sh) None [] (sh_acked sh ++ sh_waiting sh)) st.

Definition deleteFromStore (baseName : bytes) (st : GcState) : GcState * result unit :=
  let path := storeDir ++ L "/" ++ baseName in
  let realPath := realStoreDir ++ L "/" ++ baseName in
  if hasPrefix baseName (L "tmp-") && negb (fs_lockable fs realPath) then (st, Ok tt)
  else
    let st := set_paths (sset_insert path (gc_paths st)) st in
    match fs_deleteStorePath fs realPath with
    | Err f => (st, Err f)
    | Ok bytesFreed =>
        let st := set_removed (gc_removed st ++ [realPath]) (set_freed (u64 (gc_bytesFreed st + bytesFreed)) st) in
        if (go_maxFreed options <? gc_bytesFreed st)%Z then (st, throw GCLimitReached) else (st, Ok tt)
    end.

Definition markAlive (start path : StorePath) (st : GcState) : GcState * result unit :=
  let st := set_alive (sset_insert start (sset_insert path (gc_alive st))) st in
  match computeFSClosure (gc_db st) fuel [path] [] false gcKeepOutputs gcKeepDerivations with
  | Ok closure => (set_alive (sset_union (gc_alive st) closure) st, Ok tt)
  | Err (Throw InvalidPath) => (st, Ok tt)
  | Err f => (st, Err f)
  end.

(** The outputs of a derivation that name it as their deriver. *)
Fixpoint derived_outputs (db : D) (path : StorePath) (outs : list (bytes * option StorePath)) : result (list StorePath) :=
  match outs with
  | [] => Ok []
  | (_, Some o) :: outs =>
      let* mine := if db_isValidPath db o then
                     let* info := db_queryPathInfo db o in
                     Ok (bool_decide (pi_deriver (vpi_info info) = Some path))
                   else Ok false in
      let* l := derived_outputs db path outs in
      Ok (if mine : bool then o :: l else l)
  | (_, None) :: outs => derived_outputs db path outs
  end.

(** The referrers of a path, through the cache. *)
Definition cached_referrers (path : StorePath) (st : GcState) : GcState * result (list StorePath) :=
  match smap_lookup path (gc_cache st) with
  | Some l => (st, Ok l)
  | None =>
      match db_queryReferrers (gc_db st) path with
      | Ok l => (set_cache (smap_insert path l (gc_cache st)) st, Ok l)
      | Err f => (st, Err f)
      end
  end.

Definition kept_outputs (db : D) (path : StorePath) : result (list StorePath) :=
  if gcKeepDerivations && isDerivation path
  then let* m := db_queryPartialDerivationOutputMap db path in derived_outputs db path m
  else Ok [].

Definition kept_derivers (db : D) (path : StorePath) : result (list StorePath) :=
  if gcKeepOutputs then db_queryValidDerivers db path else Ok [].

(** The paths that keep a valid path alive: its referrers, and the outputs and
    derivers the settings ask for. *)
Definition visit_valid (path : StorePath) (st : GcState) : GcState * result (list StorePath) :=
  let '(st, referrers) := cached_referrers path st in
  (st,
   let* referrers := referrers in
   let* outs := kept_outputs (gc_db st) path in
   let* derivers := kept_derivers (gc_db st) path in
   Ok (referrers ++ outs ++ derivers)).

Definition alive_and_return (start path : StorePath) (st : GcState) : GcState * result (option (list StorePath)) :=
  match markAlive start path st with (st, Ok _) => (st, Ok None) | (st, Err f) => (st, Err f) end.

(** The part of an iteration from the critical section on. *)
Definition visit_locked (start path : StorePath) (st : GcState) : GcState * result (option (list StorePath)) :=
  let st := arrive st in
  if sset_mem (sp_hashPart path) (sh_tempRoots (gc_shared st)) then alive_and_return start path st
  else
    let sh := gc_shared st in
    let st := set_shared (mkShared (sh_tempRoots sh) (Some (sp_hashPart path)) (sh_waiting sh) (sh_acked sh)) st in
    if db_isValidPath (gc_db st) path then
      match visit_valid path st with (st, Ok l) => (st, Ok (Some l)) | (st, Err f) => (st, Err f) end
    else (st, Ok (Some [])).

(** One iteration of the loop: none when the function returns, otherwise the
    paths to enqueue. *)
Definition visit (start path : StorePath) (st : GcState) : GcState * result (option (list StorePath)) :=
  if sset_mem path (gc_alive st) then (set_alive (sset_insert start (gc_alive st)) st, Ok None)
  else if sset_mem path (gc_dead st) then (st, Ok (Some []))
  else if sset_mem path roots then alive_and_return start path st
  else if bool_decide (go_action options = gcDeleteSpecific) && negb (sset_mem path (go_pathsToDelete options))
  then (st, Ok None)
  else visit_locked start path st.

Definition enqueue_path (q : list StorePath * list StorePath) (path : StorePath) : list StorePath * list StorePath :=
  let '(visited, todo) := q in
  if sset_mem path visited then q else (sset_insert path visited, todo ++ [path]).

(** The loop: none when it returned early, otherwise the visited paths. *)
Fixpoint visit_loop (fuel : nat) (start : StorePath) (visited todo : list StorePath) (st : GcState) :
    GcState * result (option (list StorePath)) :=
  match todo with
  | [] => (st, Ok (Some visited))
  | path :: todo =>
      match fuel with
      | 0 => (st, Err OutOfFuel)
      | S fuel =>
          match visit start path st with
          | (st, Ok (Some l)) =>
              let '(visited, todo) := foldl enqueue_path (visited, todo) l in visit_loop fuel start visited todo st
          | r => r
          end
      end
  end.

Fixpoint delete_loop (l : list StorePath) (st : GcState) : GcState * result unit :=
  match l with
  | [] => (st, Ok tt)
  | path :: l =>
      let st := arrive st in
      if sset_mem path (gc_dead st) then delete_loop l st
      else
        let st := set_dead (sset_insert path (gc_dead st)) st in
        if shouldDelete then
          match db_invalidatePathChecked path (gc_db st) with
          | Err (Throw PathInUse) => delete_loop l st
          | Err f => (st, Err f)
          | Ok db =>
              match deleteFromStore (sp_to_string path) (set_db db st) with
              | (st, Ok _) => delete_loop l (set_cache (filter (fun e => e.1 <> path) (gc_cache st)) st)
              | (st, Err f) => (st, Err f)
              end
          end
        else delete_loop l st
  end.

Definition deleteReferrersClosure (start : StorePath) (st : GcState) : GcState * result unit :=
  let '(st, r) := visit_loop fuel start [start] [start] st in
  let '(st, r) :=
    match r with
    | Ok (Some visited) =>
        match topoSortPaths (gc_db st) visited with
        | Ok l => delete_loop l st
        | Err f => (st, Err f)
        end
    | Ok None => (st, Ok tt)
    | Err f => (st, Err f)
    end in
  (releasePending st, r).

(** [gcDeleteSpecific]. *)
Fixpoint delete_specific (paths : list StorePath) (st : GcState) : GcState * result unit :=
  match paths with
  | [] => (st, Ok tt)
  | i :: paths =>
      match deleteReferrersClosure i st with
      | (st, Ok _) => if sset_mem i (gc_dead st) then delete_specific paths st else (st, throw Error)
      | r => r
      end
  end.

(** The entries of the store directory. *)
Fixpoint delete_entries (entries : list bytes) (st : GcState) : GcState * result unit :=
  match entries with
  | [] => (st, Ok tt)
  | name :: entries =>
      if bool_decide (name ∈ [L "."; L ".."; baseNameOf linksDir]) then delete_entries entries st
      else
        match (match maybeParseStorePath storeDir (storeDir ++ L "/" ++ name) with
               | Ok (Some p) => deleteReferrersClosure p st
               | Ok None => deleteFromStore name st
               | Err f => (st, Err f)
               end) with
        | (st, Ok _) => delete_entries entries st
        | r => r
        end
  end.

(** Links that nothing else refers to. *)
Definition unused_links : list bytes :=
  (fun l => linksDir ++ L "/" ++ l.1) <$> filter (fun l => l.1 <> L "." /\ l.1 <> L ".." /\ l.2 = 1%Z) (fs_links fs).

Definition gc_init (db : D) (arrivals : list (list bytes)) : GcState :=
  mkGc db [] [] (mkShared (sset_of_list (sp_hashPart <$> tempRoots0)) None [] []) arrivals [] [] 0
    (if shouldDelete then [reservedPath] else []).

(** The traversal, with [GCLimitReached] caught around the second loop. *)
Definition gc_traverse (st : GcState) : GcState * result unit :=
  if bool_decide (go_action options = gcDeleteSpecific) then delete_specific (go_pathsToDelete options) st
  else if (0 <? go_maxFreed options)%Z then
    match delete_entries (fs_entries fs) st with
    | (st, Err (Throw GCLimitReached)) => (st, Ok tt)
    | r => r
    end
  else (st, Ok tt).

Definition collectGarbage (db : D) (arrivals : list (list bytes)) : GcState * result unit :=
  match gc_traverse (gc_init db arrivals) with
  | (st, Err f) => (st, Err f)
  | (st, Ok _) =>
      (match go_action options with
       | gcReturnLive => set_paths (sset_union (gc_paths st) (printStorePath storeDir <$> gc_alive st)) st
       | gcReturnDead => set_paths (sset_union (gc_paths st) (printStorePath storeDir <$> gc_dead st)) st
       | _ => set_removed (gc_removed st ++ unused_links) st
       end, Ok tt)
  end.
End gc.

(** ** What a store promises the collector *)

Definition refers_db {D} `{StoreDb D} (db : D) (a b : StorePath) : Prop :=
  exists i, db_queryPathInfo db a = Ok i /\ b ∈ pi_references (vpi_info i).
Definition derives_db {D} `{StoreDb D} (db : D) (a b : StorePath) : Prop :=
  exists l, db_queryValidDerivers db b = Ok l /\ a ∈ l.

Class StoreDbLaws (D : Type) `{StoreDb D} := {
  db_inv : D -> Prop;
  db_paths : D -> list StorePath;
  law_paths db p : db_inv db -> db_isValidPath db p = true -> p ∈ db_paths db;
  law_info db p : db_inv db ->
    if db_isValidPath db p then exists i, db_queryPathInfo db p = Ok i else db_queryPathInfo db p = throw InvalidPath;
  law_refs db a b : db_inv db -> refers_db db a b -> db_isValidPath db b = true;
  law_referrers db p : db_inv db -> exists l, db_queryReferrers db p = Ok l /\ forall q, q ∈ l <-> refers_db db q p;
  law_derivers db p : db_inv db ->
    exists l, db_queryValidDerivers db p = Ok l /\ forall q, q ∈ l -> db_isValidPath db q = true;
  law_outputs db p : db_inv db -> db_isValidPath db p = true ->
    exists m, db_queryPartialDerivationOutputMap db p = Ok m;
  law_invalidate p db : db_inv db ->
    match db_invalidatePathChecked p db with
    | Ok db' => db_inv db' /\ db_isValidPath db' p = false /\
        forall q, q <> p -> db_isValidPath db' q = db_isValidPath db q /\
          db_queryPathInfo db' q = db_queryPathInfo db q /\
          (db_isValidPath db q = true ->
           db_queryPartialDerivationOutputMap db' q = db_queryPartialDerivationOutputMap db q) /\
          forall a, a <> p -> derives_db db' a q <-> derives_db db a q
    | Err f => f = Throw PathInUse /\ exists q, q <> p /\ refers_db db q p
    end;
}.

Section laws.
Context {D : Type} `{StoreDbLaws D} (storeDir realStoreDir linksDir reservedPath : bytes).
Context (options : GCOptions) (keepOutputs keepDerivations : bool) (fs : GcFs) (fuel : nat).
Context (rootMap tempRoots0 : list StorePath).

Notation gcKeepOutputs := (gcKeepOutputs options keepOutputs).
Notation gcKeepDerivations := (gcKeepDerivations options keepDerivations).
Notation roots := (roots options rootMap tempRoots0).
Notation visit := (visit options keepOutputs keepDerivations fuel rootMap tempRoots0).
Notation visit_loop := (visit_loop options keepOutputs keepDerivations fuel rootMap tempRoots0).
Notation delete_loop := (delete_loop storeDir realStoreDir options fs).
Notation deleteReferrersClosure :=
  (deleteReferrersClosure storeDir realStoreDir options keepOutputs keepDerivations fs fuel rootMap tempRoots0).
Notation GcState := (@GcState D).

(** A path that is alive keeps another one: its references, and, depending on
    the settings, its deriver and the outputs of a derivation. *)
Definition keeps (db : D) (a b : StorePath) : Prop :=
  refers_db db a b \/
  (gcKeepDerivations = true /\ db_isValidPath db b = true /\ isDerivation b = true /\ db_isValidPath db a = true /\
   exists m n i, db_queryPartialDerivationOutputMap db b = Ok m /\ (n, Some a) ∈ m /\
     db_queryPathInfo db a = Ok i /\ pi_deriver (vpi_info i) = Some b) \/
  (gcKeepOutputs = true /\ db_isValidPath db b = true /\ derives_db db a b).

Lemma info_valid db p i : db_inv db -> db_queryPathInfo db p = Ok i -> db_isValidPath db p = true.
Proof. intros Hi Hq. pose proof (law_info db p Hi) as Hl. destruct (db_isValidPath db p); [done|]. by rewrite Hl in Hq. Qed.

Lemma keeps_valid db a b : db_inv db -> keeps db a b -> db_isValidPath db a = true /\ db_isValidPath db b = true.
Proof.
  intros Hi [Hr|[(_ & Hb & _ & Ha & _)|(_ & Hb & l & Hl & Ha)]].
  - split; [|by eapply law_refs]. destruct Hr as (i & Hq & _). by eapply info_valid.
  - done.
  - split; [|done]. destruct (law_derivers db b Hi) as (l' & Hl' & Hv). apply Hv. congruence.
Qed.

(** A database after some paths were deleted. *)
Record later (db0 db : D) : Prop := {
  lt_inv : db_inv db;
  lt_valid q : db_isValidPath db q = true -> db_isValidPath db0 q = true /\ db_queryPathInfo db q = db_queryPathInfo db0 q;
  lt_keeps a b : keeps db a b <-> keeps db0 a b /\ db_isValidPath db a = true /\ db_isValidPath db b = true;
}.

Lemma later_refl db : db_inv db -> later db db.
Proof. intros Hi. split; [done|done|]. intros a b. split; [|by intros [? _]]. intros Hk. by pose proof (keeps_valid _ _ _ Hi Hk). Qed.

Lemma later_refers db0 db a b :
  later db0 db -> refers_db db a b <-> refers_db db0 a b /\ db_isValidPath db a = true.
Proof.
  intros [Hi Hv _]. split.
  - intros (i & Hq & Hb). pose proof (info_valid _ _ _ Hi Hq) as Ha. destruct (Hv _ Ha) as [_ E].
    split; [|done]. exists i. by rewrite <- E.
  - intros [(i & Hq & Hb) Ha]. destruct (Hv _ Ha) as [_ E]. exists i. by rewrite E.
Qed.

Lemma invalidate_keeps p db db' a b :
  db_inv db -> db_invalidatePathChecked p db = Ok db' -> keeps db' a b <-> keeps db a b /\ a <> p /\ b <> p.
Proof.
  intros Hi He. pose proof (law_invalidate p db Hi) as Hl. rewrite He in Hl. destruct Hl as (Hi' & Hp & Hq).
  assert (Hne : keeps db' a b -> a <> p /\ b <> p).
  { intros [Ha Hb]%keeps_valid; [|done]. split; intros ->; congruence. }
  assert (a <> p -> b <> p -> keeps db' a b <-> keeps db a b) as Hsame; [|tauto].
  intros Ha Hb. destruct (Hq a Ha) as (Va & Qa & _), (Hq b Hb) as (Vb & _ & Ob & Db).
  unfold keeps, refers_db. rewrite Va, Vb, Qa, (Db a Ha). destruct (db_isValidPath db b); [by rewrite Ob|]. naive_solver.
Qed.

Lemma later_invalidate db0 db p db' : later db0 db -> db_invalidatePathChecked p db = Ok db' -> later db0 db'.
Proof.
  intros [Hi Hv Hk] He. pose proof (invalidate_keeps p db db') as Hk'. pose proof (law_invalidate p db Hi) as Hl.
  rewrite He in Hl. destruct Hl as (Hi' & Hp & Hq). split; [done|..].
  - intros q Hvq. assert (q <> p) as Hne by (intros ->; congruence). destruct (Hq q Hne) as (Vq & Qq & _).
    rewrite Qq. apply Hv. by rewrite <- Vq.
  - intros a b. rewrite (Hk' a b Hi He), Hk. split.
    + intros ((? & Va & Vb) & Ha & Hb). by rewrite (proj1 (Hq a Ha)), (proj1 (Hq b Hb)).
    + intros (? & Va & Vb). assert (a <> p) as Ha by (intros ->; congruence). assert (b <> p) as Hb by (intros ->; congruence).
      by rewrite <- (proj1 (Hq a Ha)), <- (proj1 (Hq b Hb)).
Qed.

(** ** The invariant of the collection *)

Definition is_root (p : StorePath) : Prop := p ∈ roots \/ sp_hashPart p ∈ sp_hashPart <$> tempRoots0.

(** The paths that must survive. *)
Definition protected (db0 : D) (p : StorePath) : Prop :=
  db_isValidPath db0 p = true /\ exists r, is_root r /\ rtc (keeps db0) r p.

Record gc_ok (db0 : D) (st : GcState) : Prop := {
  ok_start : db_inv db0;
  ok_later : later db0 (gc_db st);
  ok_dead : shouldDelete options = true -> forall p, p ∈ gc_dead st -> db_isValidPath (gc_db st) p = false;
  ok_unprotected p : p ∈ gc_dead st -> ~ protected db0 p;
  ok_cache q l : smap_lookup q (gc_cache st) = Some l ->
    (forall a, refers_db (gc_db st) a q -> a ∈ l) /\ (forall a, a ∈ l -> refers_db db0 a q);
  ok_temp h : h ∈ sp_hashPart <$> tempRoots0 -> h ∈ sh_tempRoots (gc_shared st);
  ok_protected p : protected db0 p -> db_isValidPath (gc_db st) p = true;
  ok_only p : db_isValidPath db0 p = true -> db_isValidPath (gc_db st) p = true \/ p ∈ gc_dead st;
}.

(** What visiting a path does not touch. *)
Record same_paths (st st' : GcState) : Prop := {
  sp_db : gc_db st' = gc_db st;
  sp_dead : gc_dead st' = gc_dead st;
  sp_alive x : x ∈ gc_alive st -> x ∈ gc_alive st';
  sp_temp h : h ∈ sh_tempRoots (gc_shared st) -> h ∈ sh_tempRoots (gc_shared st');
}.

Lemma same_paths_trans st1 st2 st3 : same_paths st1 st2 -> same_paths st2 st3 -> same_paths st1 st3.
Proof. intros [] []. split; [congruence|congruence|auto..]. Qed.

Lemma gc_ok_same db0 st st' : same_paths st st' -> gc_cache st' = gc_cache st -> gc_ok db0 st -> gc_ok db0 st'.
Proof. intros [Edb Edead _ Ht] Ec []. split; rewrite ?Edb, ?Edead, ?Ec; auto. Qed.

Lemma client_root_temp sh h b : h ∈ sh_tempRoots sh -> h ∈ sh_tempRoots (client_root sh b).
Proof. intros Hh. unfold client_root. case_bool_decide; cbn; rewrite sset_insert_elem; auto. Qed.

Lemma arrive_same (st : GcState) :
  same_paths st (arrive st) /\ gc_cache (arrive st) = gc_cache st /\ gc_alive (arrive st) = gc_alive st.
Proof.
  unfold arrive. destruct (gc_arrivals st) as [|batch rest]; [done|]. cbn. split; [|done]. split; [done..|]. cbn.
  intros h. generalize (gc_shared st). induction batch as [|b batch IH]; intros sh Hh; [done|]. cbn.
  by apply IH, client_root_temp.
Qed.

Lemma derived_outputs_spec db path outs :
  db_inv db -> exists l, derived_outputs db path outs = Ok l /\
    forall a, a ∈ l <-> exists n i, (n, Some a) ∈ outs /\ db_isValidPath db a = true /\
      db_queryPathInfo db a = Ok i /\ pi_deriver (vpi_info i) = Some path.
Proof.
  intros Hi. induction outs as [|[n [o|]] outs (l & IH & Hl)]; cbn [derived_outputs].
  - exists []. split; [done|]. intros a. rewrite elem_of_nil. split; [done|]. intros (n & i & Hin & _). by apply elem_of_nil in Hin.
  - rewrite IH. pose proof (law_info db o Hi) as Hv. destruct (db_isValidPath db o) eqn:Ev.
    + destruct Hv as [i Hq]. rewrite Hq. cbn [rbind]. eexists. split; [done|]. intros a. case_bool_decide as Ed.
      * rewrite elem_of_cons, Hl. setoid_rewrite elem_of_cons. split; [|naive_solver].
        intros [->|(m & j & ? & ?)]; [exists n, i; auto|exists m, j; auto].
      * rewrite Hl. setoid_rewrite elem_of_cons. split; [naive_solver|].
        intros (m & j & [[= _ ->]|?] & ? & ? & ?); [congruence|eauto 6].
    + cbn [rbind]. eexists. split; [done|]. intros a. rewrite Hl. setoid_rewrite elem_of_cons. naive_solver congruence.
  - exists l. split; [done|]. intros a. rewrite Hl. setoid_rewrite elem_of_cons. naive_solver.
Qed.

Lemma cached_referrers_spec db0 path st :
  gc_ok db0 st ->
  exists st' l, cached_referrers path st = (st', Ok l) /\ gc_ok db0 st' /\ same_paths st st' /\ gc_alive st' = gc_alive st /\
    (forall a, refers_db (gc_db st) a path -> a ∈ l) /\ (forall a, a ∈ l -> refers_db db0 a path).
Proof.
  intros Hok. pose proof (ok_later _ _ Hok) as Hlat. unfold cached_referrers.
  destruct (smap_lookup path (gc_cache st)) as [l|] eqn:El.
  { exists st, l. do 4 (split; [done|]). by apply (ok_cache _ _ Hok). }
  destruct (law_referrers (gc_db st) path (lt_inv _ _ Hlat)) as (l & Hl & Hlin). rewrite Hl.
  assert (Hb : forall a, a ∈ l -> refers_db db0 a path).
  { intros a Ha. apply Hlin, (later_refers db0 _ _ _ Hlat) in Ha. by destruct Ha. }
  eexists _, l. split; [reflexivity|]. split; [|split; [done|split; [done|split; [apply Hlin|done]]]].
  destruct Hok. split; cbn; auto. intros q l' Hq. destruct (decide (q = path)) as [->|Hne].
  - rewrite smap_lookup_insert_eq in Hq. injection Hq as <-. split; [apply Hlin|done].
  - rewrite smap_lookup_insert_ne in Hq by done. by apply ok_cache0.
Qed.

Lemma kept_outputs_spec db path :
  db_inv db -> db_isValidPath db path = true ->
  exists outs, kept_outputs options keepDerivations db path = Ok outs /\
    forall a, a ∈ outs <-> gcKeepDerivations = true /\ isDerivation path = true /\ db_isValidPath db a = true /\
      exists m n i, db_queryPartialDerivationOutputMap db path = Ok m /\ (n, Some a) ∈ m /\
        db_queryPathInfo db a = Ok i /\ pi_deriver (vpi_info i) = Some path.
Proof.
  intros Hi Hv. unfold kept_outputs.
  destruct gcKeepDerivations; cbn [andb]; [|exists []; split; [done|]; intros a; rewrite elem_of_nil; naive_solver].
  destruct (isDerivation path); [|exists []; split; [done|]; intros a; rewrite elem_of_nil; naive_solver].
  destruct (law_outputs _ _ Hi Hv) as [m Hm]. rewrite Hm. cbn [rbind].
  destruct (derived_outputs_spec db path m Hi) as (l & -> & Hl). exists l. split; [done|]. intros a. rewrite Hl. naive_solver.
Qed.

Lemma kept_derivers_spec db path :
  db_inv db ->
  exists ders, kept_derivers options keepOutputs db path = Ok ders /\
    forall a, a ∈ ders <-> gcKeepOutputs = true /\ derives_db db a path.
Proof.
  intros Hi. unfold kept_derivers. destruct (law_derivers db path Hi) as (l & Hl & _).
  destruct gcKeepOutputs; [|exists []; split; [done|]; intros a; rewrite elem_of_nil; naive_solver].
  exists l. split; [done|]. intros a. unfold derives_db. naive_solver congruence.
Qed.

(** Visiting a valid path finds everything that keeps it alive. *)
Lemma visit_valid_spec db0 path st :
  gc_ok db0 st -> db_isValidPath (gc_db st) path = true ->
  exists st' l, visit_valid options keepOutputs keepDerivations path st = (st', Ok l) /\ gc_ok db0 st' /\
    same_paths st st' /\ gc_alive st' = gc_alive st /\
    (forall a, keeps (gc_db st) a path -> a ∈ l) /\
    (forall a, a ∈ l -> db_isValidPath db0 a = true /\
       (gcKeepOutputs = false -> gcKeepDerivations = false -> refers_db db0 a path)).
Proof.
  intros Hok Hv. pose proof (ok_later _ _ Hok) as Hlat. pose proof (lt_inv _ _ Hlat) as Hi.
  destruct (cached_referrers_spec db0 path st Hok) as (st' & refs & Er & Hok' & Hsame & Ealive & Hin & Hback).
  unfold visit_valid. rewrite Er, (sp_db _ _ Hsame). cbn [rbind].
  destruct (kept_outputs_spec (gc_db st) path Hi Hv) as (outs & -> & Houts). cbn [rbind].
  destruct (kept_derivers_spec (gc_db st) path Hi) as (ders & -> & Hders). cbn [rbind].
  exists st', (refs ++ outs ++ ders). do 4 (split; [done|]). split.
  - intros a. rewrite !elem_of_app, Houts, Hders. intros [?|[?|?]]; [left; auto|right; left|right; right]; naive_solver.
  - intros a. rewrite !elem_of_app, Houts, Hders. intros [Ha|[(Hk & _ & Va & _)|(Hk & Hd)]].
    + apply Hback in Ha. split; [|done]. destruct Ha as (i & Hq & _). eapply info_valid; [apply Hok|done].
    + split; [by apply (lt_valid _ _ Hlat)|congruence].
    + split; [|congruence]. apply (lt_valid _ _ Hlat). destruct Hd as (l & Hl & Ha).
      destruct (law_derivers (gc_db st) path Hi) as (l' & Hl' & Hval). apply Hval. congruence.
Qed.

(** ** Marking paths as alive *)

(** Fuel for a closure and for the loop over the visited paths. *)
Definition fuel_ok (db0 : D) : Prop :=
  (S (length (db_paths db0)) * (length (db_paths db0) + 3) + 1 <= fuel)%nat.

Lemma valid_outputs_elem db outs a : a ∈ valid_outputs db outs -> db_isValidPath db a = true.
Proof.
  unfold valid_outputs. rewrite list_elem_of_omap. intros ([n [o|]] & _ & E); cbn in E; [|done].
  destruct (db_isValidPath db o) eqn:Ev; [|done]. congruence.
Qed.

Lemma queryDeps_spec db path :
  db_inv db ->
  match queryDeps db false gcKeepOutputs gcKeepDerivations path with
  | Ok l => sset_wf l /\ db_isValidPath db path = true /\ (forall a, a ∈ l -> db_isValidPath db a = true) /\
      (gcKeepOutputs = false -> gcKeepDerivations = false -> forall a, a ∈ l -> refers_db db path a)
  | Err f => f = Throw InvalidPath /\ db_isValidPath db path = false
  end.
Proof.
  intros Hi. unfold queryDeps. pose proof (law_info db path Hi) as Hv. destruct (db_isValidPath db path) eqn:Ev.
  2: { rewrite Hv. done. }
  destruct Hv as [i Hq]. rewrite Hq. cbn [rbind].
  assert (exists outs, (if gcKeepOutputs && isDerivation path then db_queryPartialDerivationOutputMap db path else Ok []) = Ok outs /\
    (gcKeepOutputs = false -> outs = [])) as (outs & -> & Hout).
  { destruct gcKeepOutputs; cbn [andb]; [|by exists []]. destruct (isDerivation path); [|by exists []].
    destruct (law_outputs db path Hi Ev) as [m Hm]. by exists m. }
  cbn [rbind]. split; [apply sset_of_list_wf|]. split; [done|]. split.
  - intros a. rewrite sset_of_list_elem, !elem_of_app. intros [[_ Ha]%list_elem_of_filter|[Ha|Ha]].
    + eapply law_refs; [done|]. by exists i.
    + by apply valid_outputs_elem in Ha.
    + destruct gcKeepDerivations; [|by apply elem_of_nil in Ha]. destruct (pi_deriver (vpi_info i)) as [d|]; [|by apply elem_of_nil in Ha].
      destruct (db_isValidPath db d) eqn:Ed; [|by apply elem_of_nil in Ha]. by apply list_elem_of_singleton in Ha as ->.
  - intros E1 E2 a. rewrite (Hout E1), E2, sset_of_list_elem. cbn. rewrite app_nil_r.
    intros [_ Ha]%list_elem_of_filter. by exists i.
Qed.

Lemma later_paths db0 db : db_inv db0 -> later db0 db -> forall p, db_isValidPath db p = true -> p ∈ db_paths db0.
Proof. intros Hi Hl p Hp. apply law_paths; [done|]. by apply (lt_valid _ _ Hl). Qed.

Lemma sset_subset_length (l U : list StorePath) : sset_wf l -> (forall a, a ∈ l -> a ∈ U) -> length l <= length U.
Proof. intros Hl Hin. apply submseteq_length, NoDup_submseteq; [by apply sset_nodup|done]. Qed.

(** The closure of a path is computed with the given fuel; without the keep
    settings it consists of what the path refers to. *)
Lemma computeFSClosure_spec db0 db path :
  fuel_ok db0 -> db_inv db0 -> later db0 db ->
  match computeFSClosure db fuel [path] [] false gcKeepOutputs gcKeepDerivations with
  | Ok l => gcKeepOutputs = false -> gcKeepDerivations = false -> forall x, x ∈ l -> rtc (refers_db db) path x
  | Err f => f = Throw InvalidPath
  end.
Proof.
  intros Hf Hi0 Hlat. pose proof (lt_inv _ _ Hlat) as Hi.
  set (deps := queryDeps db false gcKeepOutputs gcKeepDerivations).
  assert (Hdeps : forall x cs, deps x = Ok cs -> sset_wf cs /\ forall c, c ∈ cs -> c ∈ db_paths db0).
  { intros x cs Hx. pose proof (queryDeps_spec db x Hi) as Hq. fold deps in Hq. rewrite Hx in Hq.
    destruct Hq as (Hs & _ & Hv & _). split; [done|]. intros c Hc. eapply later_paths; eauto. }
  pose proof (computeClosure_total deps [path] [] (path :: db_paths db0) (length (db_paths db0)) fuel ltac:(constructor)) as Hc.
  unfold computeFSClosure. fold deps. unfold fuel_ok in Hf.
  assert (HU : forall x, x ∈ [] \/ discovered deps [path] [] x -> x ∈ path :: db_paths db0).
  { intros x [Hx|Hx]; [by apply elem_of_nil in Hx|]. apply elem_of_cons.
    destruct Hx as [x Hx|x cs c _ _ Hx Hx']; [left; by apply list_elem_of_singleton in Hx|right].
    destruct (Hdeps _ _ Hx) as [_ Hd]. by apply Hd. }
  assert (HB : forall x cs, deps x = Ok cs -> length cs <= length (db_paths db0)).
  { intros x cs Hx. destruct (Hdeps _ _ Hx). by apply sset_subset_length. }
  specialize (Hc HU HB ltac:(cbn [length]; lia)). destruct (computeClosure deps fuel [path] []) as [l|f].
  - destruct Hc as (_ & Hin & _). intros E1 E2 x Hx. apply Hin in Hx as [Hx|Hx]; [by apply elem_of_nil in Hx|].
    induction Hx as [x Hx|x cs c _ IH _ Hx Hc]; [by apply list_elem_of_singleton in Hx as ->|].
    eapply rtc_r; [apply IH|]. pose proof (queryDeps_spec db x Hi) as Hq. fold deps in Hq. rewrite Hx in Hq. by apply Hq.
  - destruct Hc as (x & _ & _ & Hx). pose proof (queryDeps_spec db x Hi) as Hq. fold deps in Hq. rewrite Hx in Hq. by destruct Hq.
Qed.

Lemma markAlive_spec db0 start path st :
  gc_ok db0 st ->
  let '(st', r) := markAlive options keepOutputs keepDerivations fuel start path st in
  gc_ok db0 st' /\ same_paths st st' /\ start ∈ gc_alive st' /\
  (fuel_ok db0 -> r = Ok tt /\
   (gcKeepOutputs = false -> gcKeepDerivations = false ->
    forall x, x ∈ gc_alive st' -> x ∈ gc_alive st \/ x = start \/ rtc (refers_db (gc_db st)) path x)).
Proof.
  intros Hok. unfold markAlive. set (st1 := set_alive _ st).
  assert (Hs1 : same_paths st st1) by (split; [done|done| |done]; cbn; intros x Hx; rewrite !sset_insert_elem; auto).
  assert (Hok1 : gc_ok db0 st1) by by apply (gc_ok_same _ st).
  assert (Hs : start ∈ gc_alive st1) by (cbn; rewrite sset_insert_elem; by left).
  assert (Hal : forall x, x ∈ gc_alive st1 -> x ∈ gc_alive st \/ x = start \/ rtc (refers_db (gc_db st)) path x).
  { intros x. cbn. rewrite !sset_insert_elem. intros [->|[->|?]]; auto using rtc_refl. }
  pose proof (computeFSClosure_spec db0 (gc_db st) path) as Hc. change (gc_db st1) with (gc_db st).
  destruct (computeFSClosure _ _ _ _ _ _ _) as [l|f].
  - assert (Hs2 : same_paths st1 (set_alive (sset_union (gc_alive st1) l) st1)).
    { split; [done|done| |done]. intros x Hx. cbn [gc_alive set_alive]. rewrite sset_union_elem. by left. }
    split; [by apply (gc_ok_same _ st1)|]. split; [by eapply same_paths_trans|].
    split; [cbn [gc_alive set_alive]; rewrite sset_union_elem; by left|].
    intros Hf. split; [done|]. intros E1 E2 x. cbn. rewrite sset_union_elem. intros [Hx|Hx]; [by apply Hal|].
    right. right. by apply Hc; [|apply Hok|apply Hok|..].
  - assert (Hres : let '(st', r) := (st1, @Err unit f) in gc_ok db0 st' /\ same_paths st st' /\ start ∈ gc_alive st') by done.
    destruct f as [e| | |]; try (split; [done|]; split; [done|]; split; [done|]; intros Hf;
      exfalso; by discriminate (Hc Hf (ok_start _ _ Hok) (ok_later _ _ Hok))).
    destruct (decide (e = InvalidPath)) as [->|Hne]; [done|].
    destruct e; try done; split; try done; split; try done; split; try done; intros Hf;
      exfalso; by discriminate (Hc Hf (ok_start _ _ Hok) (ok_later _ _ Hok)).
Qed.

(** ** The traversal *)

(** Why a path is counted as alive when neither setting keeps more. *)
Definition reachable (db0 : D) (p : StorePath) : Prop :=
  exists r, is_root r /\ rtc (refers_db db0) r p.
Definition plain_keep : Prop := gcKeepOutputs = false /\ gcKeepDerivations = false.
Definition alive_ok (db0 : D) (st : GcState) : Prop :=
  (forall h, h ∈ sh_tempRoots (gc_shared st) -> h ∈ sp_hashPart <$> tempRoots0) /\
  forall x, x ∈ gc_alive st -> db_isValidPath db0 x = true -> reachable db0 x.

Lemma refers_later_rtc db0 db a b : later db0 db -> rtc (refers_db db) a b -> rtc (refers_db db0) a b.
Proof. intros Hl. induction 1 as [|a b c Hab _ IH]; [done|]. apply (later_refers _ _ _ _ Hl) in Hab as [? _]. by eapply rtc_l. Qed.

Lemma reachable_trans db0 a b : reachable db0 a -> rtc (refers_db db0) a b -> reachable db0 b.
Proof. intros (r & Hr & Ha) Hb. exists r. split; [done|]. by etransitivity. Qed.

(** What one iteration establishes. [early] is the case where the function
    returns: the start is alive, or the path is not to be deleted. *)
Definition visit_post (db0 : D) (start path : StorePath) (st : GcState) (out : GcState * result (option (list StorePath))) : Prop :=
  gc_ok db0 out.1 /\ same_paths st out.1 /\
  match out.2 with
  | Ok (Some l) =>
      gc_alive out.1 = gc_alive st /\
      (path ∈ gc_dead st \/ (~ is_root path /\ forall a, keeps (gc_db st) a path -> a ∈ l)) /\
      (forall a, a ∈ l -> db_isValidPath db0 a = true /\ (plain_keep -> refers_db db0 a path))
  | Ok None => start ∈ gc_alive out.1 \/ go_action options = gcDeleteSpecific
  | Err f => ~ fuel_ok db0
  end.

Lemma markAlive_post db0 start path st st0 :
  same_paths st0 st -> gc_ok db0 st ->
  visit_post db0 start path st0 (alive_and_return options keepOutputs keepDerivations fuel start path st).
Proof.
  intros Hs Hok. pose proof (markAlive_spec db0 start path st Hok) as Hm. unfold alive_and_return.
  destruct (markAlive _ _ _ _ _ _ _) as [st' r].
  destruct Hm as (Hok' & Hs' & Hst & Hr). destruct r as [u|f]; (split; [done|]); (split; [by eapply same_paths_trans|]); [by left|].
  intros Hf. by destruct (Hr Hf).
Qed.

Lemma visit_locked_spec db0 start path st :
  gc_ok db0 st -> path ∉ roots ->
  visit_post db0 start path st (visit_locked options keepOutputs keepDerivations fuel start path st).
Proof.
  intros Hok Hr. unfold visit_locked, sset_mem. destruct (arrive_same st) as (Hs1 & Ec1 & Ea1).
  assert (gc_ok db0 (arrive st)) as Hok1 by by apply (gc_ok_same _ st).
  case_bool_decide as Ht; [by apply markAlive_post|].
  assert (Hroot : ~ is_root path) by (intros [?|Hp]; [done|]; by apply Ht, (ok_temp _ _ Hok1)).
  set (st2 := set_shared _ (arrive st)). assert (Hs2 : same_paths (arrive st) st2) by done.
  assert (gc_ok db0 st2) as Hok2 by by apply (gc_ok_same _ (arrive st)).
  pose proof (same_paths_trans _ _ _ Hs1 Hs2) as Hs. destruct (db_isValidPath (gc_db st2) path) eqn:Ev.
  - destruct (visit_valid_spec db0 path st2 Hok2 Ev) as (st3 & l & -> & Hok3 & Hs3 & Ea3 & Hk & Hl). split; [done|].
    split; [by eapply same_paths_trans|]. split; [cbn [fst]; rewrite Ea3; exact Ea1|]. split.
    + right. split; [done|]. by rewrite <- (sp_db _ _ Hs).
    + intros a Hin. destruct (Hl a Hin) as [? Hp]. split; [done|]. intros [? ?]. by apply Hp.
  - split; [done|]. split; [done|]. split; [exact Ea1|]. split; [right|intros a Hin; by apply elem_of_nil in Hin].
    split; [done|]. intros a Hk. exfalso. rewrite <- (sp_db _ _ Hs) in Hk.
    destruct (keeps_valid _ _ _ (lt_inv _ _ (ok_later _ _ Hok2)) Hk). congruence.
Qed.

Lemma visit_spec db0 start path st : gc_ok db0 st -> visit_post db0 start path st (visit start path st).
Proof.
  intros Hok. unfold Gc.visit. unfold sset_mem at 1 2 3.
  case_bool_decide as Ha.
  { set (st1 := set_alive _ st).
    assert (Hs1 : same_paths st st1) by (split; [done|done| |done]; cbn; intros x Hx; rewrite sset_insert_elem; auto).
    split; [by apply (gc_ok_same _ st)|]. split; [done|]. left. cbn. rewrite sset_insert_elem. by left. }
  case_bool_decide as Hd. { split; [done|]. split; [done|]. split; [done|]. split; [by left|]. intros a Hx. by apply elem_of_nil in Hx. }
  case_bool_decide as Hr; [by apply markAlive_post|].
  destruct (_ && _) eqn:Es; [|by apply visit_locked_spec].
  apply andb_true_iff in Es as [Es%bool_decide_eq_true _]. split; [done|]. split; [done|]. by right.
Qed.

Definition alive_post {A} (db0 : D) (out : GcState * A) : Prop := alive_ok db0 out.1 /\ gc_arrivals out.1 = [].

(** Without concurrent roots and keep settings, only reachable paths become
    alive. *)
Lemma visit_alive db0 start path st :
  plain_keep -> fuel_ok db0 -> gc_ok db0 st -> alive_ok db0 st -> gc_arrivals st = [] ->
  rtc (refers_db db0) path start -> (path = start \/ db_isValidPath db0 path = true) ->
  alive_post db0 (visit start path st).
Proof.
  intros [Hk1 Hk2] Hf Hok [Ht Hal] Harr Hstart Hpath.
  assert (Hmark : is_root path ->
    alive_post db0 (alive_and_return options keepOutputs keepDerivations fuel start path st)).
  { intros Hroot. assert (reachable db0 path) as Hp by (by exists path).
    pose proof (markAlive_spec db0 start path st Hok) as Hm. unfold alive_and_return.
    destruct (markAlive _ _ _ _ _ _ _) as [st' r] eqn:Em. destruct Hm as (_ & _ & _ & Hr).
    destruct (Hr Hf) as [-> Hx]. specialize (Hx Hk1 Hk2).
    assert (gc_shared st' = gc_shared st /\ gc_arrivals st' = gc_arrivals st) as [Es Ea].
    { unfold markAlive in Em. repeat case_match; by simplify_eq. }
    split; [|cbn [fst]; by rewrite Ea]. split; [cbn [fst]; by rewrite Es|]. intros x Hin Hv.
    destruct (Hx x Hin) as [Hin'|[->|Hr']]; [by apply Hal|by eapply reachable_trans|].
    eapply reachable_trans; [done|]. eapply refers_later_rtc; [apply Hok|done]. }
  unfold Gc.visit. unfold sset_mem at 1 2 3. case_bool_decide as Ha.
  { split; [|exact Harr]. split; [exact Ht|]. intros x. cbn. rewrite sset_insert_elem. intros [->|Hx] Hv; [|by apply Hal].
    destruct Hpath as [<-|Hp]; [by apply Hal|]. eapply reachable_trans; [by apply Hal|done]. }
  assert (Hsame : alive_ok db0 st /\ gc_arrivals st = []) by done.
  case_bool_decide as Hd; [exact Hsame|]. case_bool_decide as Hr; [apply Hmark; by left|].
  destruct (_ && _); [exact Hsame|]. unfold visit_locked, sset_mem, arrive. rewrite Harr.
  case_bool_decide as Hr'; [apply Hmark; right; by apply Ht|].
  clear Hpath. destruct (db_isValidPath _ path); [|exact Hsame]. unfold visit_valid, cached_referrers.
  repeat case_match; simplify_eq; exact Hsame.
Qed.

Lemma enqueue_path_spec l : forall visited todo,
  sset_wf visited -> (forall x, x ∈ todo -> x ∈ visited) ->
  let '(visited', todo') := foldl enqueue_path (visited, todo) l in
  sset_wf visited' /\ (forall x, x ∈ todo' -> x ∈ visited') /\ (forall x, x ∈ visited' <-> x ∈ visited \/ x ∈ l) /\
  (forall x, x ∈ visited' -> x ∈ visited \/ x ∈ todo') /\ (forall x, x ∈ todo -> x ∈ todo') /\
  length visited' + length todo = length visited + length todo'.
Proof.
  induction l as [|p l IH]; intros visited todo Hv Ht; cbn [foldl].
  { split; [done|]. split; [done|]. split; [intros x; rewrite elem_of_nil; naive_solver|]. split; [by left|]. done. }
  unfold enqueue_path at 2. unfold sset_mem. case_bool_decide as Hp.
  - specialize (IH visited todo Hv Ht). destruct (foldl _ _ _) as [v' t']. destruct IH as (? & ? & Hx & ? & ? & ?).
    split; [done|]. split; [done|]. split; [|done]. intros x. rewrite Hx, elem_of_cons. naive_solver.
  - specialize (IH (sset_insert p visited) (todo ++ [p]) (sset_insert_wf _ _ Hv)).
    destruct (foldl _ _ _) as [v' t']. destruct IH as (? & ? & Hx & Hn & Hk & Hl).
    { intros x. rewrite elem_of_app, list_elem_of_singleton, sset_insert_elem. naive_solver. }
    rewrite sset_insert_length, length_app in Hl by done. cbn in Hl.
    split; [done|]. split; [done|]. split; [intros x; rewrite Hx, elem_of_cons, sset_insert_elem; tauto|].
    split; [|split; [|lia]].
    + intros x Hxv. apply Hn in Hxv as [Hxv|?]; [|by right]. apply sset_insert_elem in Hxv as [->|?]; [|by left].
      right. apply Hk, elem_of_app. right. by apply list_elem_of_singleton.
    + intros x Hx'. apply Hk, elem_of_app. by left.
Qed.

(** The visited paths: those handled keep no unvisited path out. *)
Record loop_inv (db0 : D) (start : StorePath) (visited todo : list StorePath) (st : GcState) : Prop := {
  li_wf : sset_wf visited;
  li_todo x : x ∈ todo -> x ∈ visited;
  li_start : start ∈ visited;
  li_valid x : x ∈ visited -> x = start \/ db_isValidPath db0 x = true;
  li_path x : plain_keep -> x ∈ visited -> rtc (refers_db db0) x start;
  li_closed x : x ∈ visited -> x ∈ todo \/ x ∈ gc_dead st \/
    (~ is_root x /\ forall a, keeps (gc_db st) a x -> a ∈ visited);
}.

Lemma loop_inv_init db0 start st : loop_inv db0 start [start] [start] st.
Proof.
  split; try done; try (intros x; rewrite list_elem_of_singleton; intros ->; by left).
  - by repeat constructor.
  - apply list_elem_of_here.
  - intros x _. rewrite list_elem_of_singleton. by intros ->.
Qed.

Lemma loop_inv_step db0 start path visited todo st st' l :
  loop_inv db0 start visited (path :: todo) st -> same_paths st st' ->
  (path ∈ gc_dead st \/ (~ is_root path /\ forall a, keeps (gc_db st) a path -> a ∈ l)) ->
  (forall a, a ∈ l -> db_isValidPath db0 a = true /\ (plain_keep -> refers_db db0 a path)) ->
  let '(visited', todo') := foldl enqueue_path (visited, todo) l in loop_inv db0 start visited' todo' st'.
Proof.
  intros [Hwf Htodo Hstart Hvalid Hpath Hclosed] [Edb Edead _ _] Hp Hl.
  assert (path ∈ visited) as Hpv by (apply Htodo, list_elem_of_here).
  pose proof (enqueue_path_spec l visited todo Hwf) as He. destruct (foldl _ _ _) as [v' t'].
  destruct He as (? & ? & Hv' & Hn & Hk & _); [intros x Hx; by apply Htodo, list_elem_of_further|]. split; [done|done|..].
  - apply Hv'. by left.
  - intros x [Hx|Hx]%Hv'; [by apply Hvalid|]. right. by apply Hl.
  - intros x Hpk [Hx|Hx]%Hv'; [by apply Hpath|]. eapply rtc_l; [by apply Hl|]. by apply Hpath.
  - rewrite Edb, Edead. intros x Hx. destruct (Hn x Hx) as [Hxv|?]; [|by left].
    destruct (Hclosed x Hxv) as [[->|?]%elem_of_cons|[?|[? Hc]]].
    + right. destruct Hp as [?|[? Hc]]; [by left|right]. split; [done|]. intros a Ha. apply Hv'. right. by apply Hc.
    + left. by apply Hk.
    + right. by left.
    + right. right. split; [done|]. intros a Ha. apply Hv'. left. by apply Hc.
Qed.

Lemma gc_visited_bound db0 start visited todo st :
  db_inv db0 -> loop_inv db0 start visited todo st -> length visited <= S (length (db_paths db0)).
Proof.
  intros Hi Hl. change (S (length (db_paths db0))) with (length (start :: db_paths db0)).
  apply sset_subset_length; [apply Hl|]. intros a Ha. apply elem_of_cons.
  destruct (li_valid _ _ _ _ _ Hl a Ha) as [?|?]; [by left|right]. by apply law_paths.
Qed.

Lemma visit_loop_spec db0 start fuel' : forall visited todo st,
  gc_ok db0 st -> loop_inv db0 start visited todo st ->
  let out := visit_loop fuel' start visited todo st in
  gc_ok db0 out.1 /\ same_paths st out.1 /\
  (plain_keep -> fuel_ok db0 -> alive_ok db0 st -> gc_arrivals st = [] -> alive_post db0 out) /\
  match out.2 with
  | Ok (Some visited') => loop_inv db0 start visited' [] out.1
  | Ok None => start ∈ gc_alive out.1 \/ go_action options = gcDeleteSpecific
  | Err f => ~ fuel_ok db0 \/ fuel' < S (length (db_paths db0)) - length visited + length todo
  end.
Proof.
  induction fuel' as [|fuel' IH]; intros visited todo st Hok Hl; cbn [Gc.visit_loop]; destruct todo as [|path todo].
  - split; [done|]. split; [done|]. split; [done|]. done.
  - split; [done|]. split; [done|]. split; [done|]. right. cbn. lia.
  - split; [done|]. split; [done|]. split; [done|]. done.
  - pose proof (visit_spec db0 start path st Hok) as Hv. pose proof (visit_alive db0 start path st) as Ha.
    destruct (visit start path st) as [st1 r]. destruct Hv as (Hok1 & Hs1 & Hr). cbn [fst snd] in Hok1, Hs1, Hr.
    assert (Halive : plain_keep -> fuel_ok db0 -> alive_ok db0 st -> gc_arrivals st = [] -> alive_ok db0 st1 /\ gc_arrivals st1 = []).
    { intros Hk Hf Hal Harr. assert (path ∈ visited) as Hp by (apply Hl, list_elem_of_here).
      apply (Ha Hk Hf Hok Hal Harr); [by apply Hl|by apply Hl]. }
    destruct r as [[l|]|f]; [|split; [done|]; split; [done|]; split; [done|]; done|split; [done|]; split; [done|]; split; [done|]; by left].
    destruct Hr as (Ealive & Hp & Hl').
    pose proof (loop_inv_step db0 start path visited todo st st1 l Hl Hs1 Hp Hl') as Hl1.
    pose proof (enqueue_path_spec l visited todo (li_wf _ _ _ _ _ Hl)) as He.
    destruct (foldl enqueue_path (visited, todo) l) as [v' t'].
    destruct He as (_ & _ & _ & _ & _ & Elen); [intros x Hx; by apply Hl, list_elem_of_further|].
    specialize (IH v' t' st1 Hok1 Hl1). cbv zeta in IH |- *. destruct (visit_loop fuel' start v' t' st1) as [st2 r2].
    cbn [fst snd] in *. destruct IH as (Hok2 & Hs2 & Hal2 & Hr2). split; [done|]. split; [by eapply same_paths_trans|]. split.
    + intros Hk Hf Hal Harr. destruct (Halive Hk Hf Hal Harr). by apply Hal2.
    + destruct r2 as [[?|]|f]; [done|done|]. destruct Hr2 as [?|Hlt]; [by left|right].
      pose proof (gc_visited_bound db0 start v' t' st1 (ok_start _ _ Hok) Hl1). cbn [length]. lia.
Qed.

(** ** The deletion *)

(** The state of the deletion of the paths [V] in the order [done ++ l]: the
    ones not known to be dead are no roots, what keeps them alive is among
    them, referrers come first, and the paths dealt with are gone. *)
Record delete_inv (db0 : D) (done l : list StorePath) (st : GcState) : Prop := {
  di_nodup : NoDup (done ++ l);
  di_closed p : p ∈ done ++ l -> p ∈ gc_dead st \/
    (~ is_root p /\ forall a, keeps db0 a p -> db_isValidPath (gc_db st) a = true -> a ∈ done ++ l);
  di_order a b : a ∈ done ++ l -> b ∈ done ++ l -> a <> b -> refers_db (gc_db st) a b -> before a b (done ++ l);
  di_done p : shouldDelete options = true -> p ∈ done -> db_isValidPath (gc_db st) p = false;
}.

Lemma before_done {A} (a b : A) l1 l2 : NoDup (l1 ++ b :: l2) -> before a b (l1 ++ b :: l2) -> a ∈ l1.
Proof.
  intros Hnd (k1 & k2 & k3 & E). rewrite app_comm_cons, app_assoc in E.
  assert (l1 = k1 ++ a :: k2) as ->; [|rewrite elem_of_app, elem_of_cons; auto].
  clear -Hnd E. assert (b ∉ l1) as H1 by (apply NoDup_app in Hnd as (_ & Hx & _); intros Hb; by apply (Hx b Hb), list_elem_of_here).
  rewrite E in Hnd. assert (b ∉ k1 ++ a :: k2) as H2 by (apply NoDup_app in Hnd as (_ & Hx & _); intros Hb; by apply (Hx b Hb), list_elem_of_here).
  revert E H1 H2. generalize (k1 ++ a :: k2) as k. clear. revert l2 k3. induction l1 as [|x l1 IH]; intros l2 k3 [|y k] E H1 H2.
  - done.
  - injection E as <- E. exfalso. apply H2, list_elem_of_here.
  - injection E as -> E. exfalso. apply H1, list_elem_of_here.
  - injection E as <- E. f_equal. eapply IH; [done|..]; intros Hb; [by apply H1, list_elem_of_further|by apply H2, list_elem_of_further].
Qed.

(** A path that has to survive is never up for deletion. *)
Lemma delete_not_protected db0 done l st p :
  gc_ok db0 st -> delete_inv db0 done l st -> protected db0 p -> p ∈ done ++ l -> False.
Proof.
  intros Hok Hd [Hv (r & Hr & Hrp)]. revert Hv. pattern p. revert p Hrp. apply rtc_ind_r.
  - intros Hv Hin. destruct (di_closed _ _ _ _ Hd r Hin) as [Hdead|[Hn _]]; [|done].
    apply (ok_unprotected _ _ Hok r Hdead). split; [done|]. by exists r.
  - intros y z Hry Hyz IH Hz Hin. destruct (keeps_valid db0 y z (ok_start _ _ Hok) Hyz) as [Hy _].
    destruct (di_closed _ _ _ _ Hd z Hin) as [Hdead|[_ Hc]].
    { apply (ok_unprotected _ _ Hok z Hdead). split; [done|]. exists r. split; [done|]. by eapply rtc_r. }
    apply (IH Hy), Hc; [done|]. apply (ok_protected _ _ Hok). split; [done|]. by exists r.
Qed.

(** The next path of the order has no referrer left. *)
Lemma delete_no_referrer db0 done p l st q :
  gc_ok db0 st -> delete_inv db0 done (p :: l) st -> shouldDelete options = true ->
  q <> p -> refers_db (gc_db st) q p -> False.
Proof.
  intros Hok Hd Hs Hq Hr. pose proof (ok_later _ _ Hok) as Hlat. pose proof (lt_inv _ _ Hlat) as Hi.
  destruct (keeps_valid _ q p Hi (or_introl Hr)) as [Vq Vp].
  assert (p ∈ done ++ p :: l) as Hp by (rewrite elem_of_app, elem_of_cons; auto).
  destruct (di_closed _ _ _ _ Hd p Hp) as [Hdead|[_ Hc]]; [by rewrite (ok_dead _ _ Hok Hs p Hdead) in Vp|].
  assert (keeps db0 q p) as Hk by (left; by apply (later_refers _ _ _ _ Hlat) in Hr as [? _]).
  pose proof (di_order _ _ _ _ Hd q p (Hc q Hk Vq) Hp Hq Hr) as Hb.
  apply before_done in Hb; [|apply Hd]. pose proof (di_done _ _ _ _ Hd q Hs Hb). congruence.
Qed.

Lemma invalidate_refers p db db' a b :
  db_inv db -> db_invalidatePathChecked p db = Ok db' -> refers_db db' a b -> refers_db db a b.
Proof.
  intros Hi He (i & Hq & Hb). pose proof (law_invalidate p db Hi) as Hl. rewrite He in Hl. destruct Hl as (Hi' & Hp & Hother).
  assert (a <> p) as Ha. { intros ->. pose proof (info_valid _ _ _ Hi' Hq). congruence. }
  destruct (Hother a Ha) as (_ & E & _). exists i. by rewrite <- E.
Qed.

Lemma invalidate_valid p db db' q :
  db_inv db -> db_invalidatePathChecked p db = Ok db' -> db_isValidPath db' q = true -> q <> p /\ db_isValidPath db q = true.
Proof.
  intros Hi He Hv. pose proof (law_invalidate p db Hi) as Hl. rewrite He in Hl. destruct Hl as (_ & Hp & Hother).
  assert (q <> p) as Hq by (intros ->; congruence). split; [done|]. destruct (Hother q Hq) as [E _]. congruence.
Qed.

(** Deleting the next path from the database. *)
Lemma delete_step db0 done p l st db' :
  gc_ok db0 st -> delete_inv db0 done (p :: l) st -> p ∉ gc_dead st ->
  db_invalidatePathChecked p (gc_db st) = Ok db' ->
  let st' := set_db db' (set_dead (sset_insert p (gc_dead st)) st) in
  gc_ok db0 st' /\ delete_inv db0 (done ++ [p]) l st'.
Proof.
  intros Hok Hd Hdead He. pose proof (ok_later _ _ Hok) as Hlat. pose proof (lt_inv _ _ Hlat) as Hi.
  pose proof (law_invalidate p (gc_db st) Hi) as Hl. rewrite He in Hl. destruct Hl as (Hi' & Hp & Hother).
  pose proof (fun q => invalidate_valid p _ _ q Hi He) as Hval. pose proof (fun a b => invalidate_refers p _ _ a b Hi He) as Href.
  assert (Hin : p ∈ done ++ p :: l) by (rewrite elem_of_app, elem_of_cons; auto).
  assert (Hprot : ~ protected db0 p) by (intros Hx; by eapply delete_not_protected). split.
  - destruct Hok as [H1 H2 H3 H4 H5 H6 H7 H8].
    split; cbn [gc_db gc_dead gc_cache gc_shared set_db set_dead]; [done|by eapply later_invalidate|..|done| |].
    + intros Hs q. rewrite sset_insert_elem. intros [->|Hq]; [done|]. apply not_true_iff_false. intros Hv.
      apply Hval in Hv as [_ Hv]. rewrite H3 in Hv; done.
    + intros q. rewrite sset_insert_elem. intros [->|Hq]; [done|]. by apply H4.
    + intros q k Hk. destruct (H5 q k Hk) as [Hk1 Hk2]. split; [|done]. intros a Ha. by apply Hk1, Href.
    + intros q Hq. assert (q <> p) as Hne by (by intros ->). rewrite (proj1 (Hother q Hne)). by apply H7.
    + intros q Hq. rewrite sset_insert_elem. destruct (decide (q = p)) as [->|Hne]; [by right; left|].
      rewrite (proj1 (Hother q Hne)). destruct (H8 q Hq); auto.
  - destruct Hd as [D1 D2 D3 D4]. assert (E : (done ++ [p]) ++ l = done ++ p :: l) by by rewrite <- app_assoc.
    split; rewrite ?E; cbn [gc_db gc_dead set_db set_dead]; [done|..].
    + intros q Hq. rewrite sset_insert_elem. destruct (D2 q Hq) as [?|[? Hc]]; [by left; right|right]. split; [done|].
      intros a Ha Hva. apply Hc; [done|]. by apply Hval in Hva as [_ ?].
    + intros a b Ha Hb Hne Hr. apply D3; [done..|by apply Href].
    + intros q Hs Hq. apply elem_of_app in Hq as [Hq|Hq%list_elem_of_singleton]; [|by subst q].
      apply not_true_iff_false. intros Hv. apply Hval in Hv as [_ Hv]. rewrite D4 in Hv; done.
Qed.

(** A path that is dead already, or only counted as dead. *)
Lemma delete_skip db0 done p l st st' :
  delete_inv db0 done (p :: l) st -> gc_db st' = gc_db st -> (forall q, q ∈ gc_dead st -> q ∈ gc_dead st') ->
  (shouldDelete options = true -> db_isValidPath (gc_db st) p = false) -> delete_inv db0 (done ++ [p]) l st'.
Proof.
  intros [D1 D2 D3 D4] Edb Hdead Hp. assert (E : (done ++ [p]) ++ l = done ++ p :: l) by by rewrite <- app_assoc.
  split; rewrite ?E, ?Edb; [done|..|done|].
  - intros q Hq. destruct (D2 q Hq) as [?|?]; [left; auto|by right].
  - intros q Hs. rewrite elem_of_app, list_elem_of_singleton. intros [?| ->]; auto.
Qed.

(** The deletion of files does not touch the database. *)
Definition fs_ok : Prop :=
  (forall path, exists n, fs_deleteStorePath fs path = Ok n) /\ (2 ^ 64 - 1 <= go_maxFreed options)%Z.

Lemma deleteFromStore_spec name (st : GcState) :
  let out := deleteFromStore storeDir realStoreDir options fs name st in
  gc_db out.1 = gc_db st /\ gc_dead out.1 = gc_dead st /\ gc_cache out.1 = gc_cache st /\
  gc_shared out.1 = gc_shared st /\ gc_alive out.1 = gc_alive st /\ gc_arrivals out.1 = gc_arrivals st /\
  (fs_ok -> out.2 = Ok tt).
Proof.
  unfold deleteFromStore. destruct (_ && _); [done|].
  destruct (fs_deleteStorePath fs _) as [n|f] eqn:E.
  - assert (fs_ok -> (go_maxFreed options <? u64 (gc_bytesFreed st + n))%Z = false) as Hmax.
    { intros [_ Hm]. apply Z.ltb_ge. unfold u64. pose proof (Z.mod_pos_bound (gc_bytesFreed st + n) (2 ^ 64)). lia. }
    cbn [gc_bytesFreed set_removed set_freed]. destruct (_ <? _)%Z; repeat (split; [done|]); [|done]. intros Hf. by specialize (Hmax Hf).
  - repeat (split; [done|]). intros [Ht _]. destruct (Ht (realStoreDir ++ L "/" ++ name)) as [n Hn]. congruence.
Qed.

Lemma smap_lookup_filter (p q : StorePath) (m : list (StorePath * list StorePath)) l :
  smap_lookup q (filter (fun e => e.1 <> p) m) = Some l -> smap_lookup q m = Some l.
Proof.
  destruct (decide (q = p)) as [->|Hne].
  - intros Hl. apply smap_lookup_Some_elem, list_elem_of_filter in Hl as [Hp _]. done.
  - induction m as [|[k v] m IH]; [done|]. rewrite filter_cons. cbn [smap_lookup fst]. destruct (decide (k <> p)) as [Hk|Hk].
    + cbn [smap_lookup]. by case_bool_decide.
    + rewrite bool_decide_false; [done|]. intros ->. by apply Hk.
Qed.

(** What the deletion of [l] establishes. *)
Definition delete_post (db0 : D) (l : list StorePath) (st : GcState) (out : GcState * result unit) : Prop :=
  gc_ok db0 out.1 /\ gc_alive out.1 = gc_alive st /\
  (gc_arrivals st = [] -> gc_shared out.1 = gc_shared st /\ gc_arrivals out.1 = []) /\
  (fs_ok -> out.2 = Ok tt) /\ (forall p, p ∈ gc_dead st -> p ∈ gc_dead out.1) /\
  (out.2 = Ok tt -> forall p, p ∈ l -> p ∈ gc_dead out.1).

Lemma arrive_none (st : GcState) : gc_arrivals st = [] -> arrive st = st.
Proof. intros E. unfold arrive. by rewrite E. Qed.

Lemma delete_post_next db0 p l st st' out :
  delete_post db0 l st' out -> gc_alive st' = gc_alive (arrive st) -> gc_shared st' = gc_shared (arrive st) ->
  gc_arrivals st' = gc_arrivals (arrive st) -> p ∈ gc_dead st' -> (forall q, q ∈ gc_dead st -> q ∈ gc_dead st') ->
  delete_post db0 (p :: l) st out.
Proof.
  intros (I1 & I2 & I3 & I4 & I5 & I6) Ea Es Er Hp Hmono. destruct (arrive_same st) as (_ & _ & Ea1).
  split; [done|]. split; [congruence|]. split.
  { intros E. rewrite (arrive_none st E) in *. destruct I3 as [I3 I3']; [congruence|]. by rewrite I3. }
  split; [done|]. split; [auto|]. intros Hr q [->|Hq]%elem_of_cons; [by apply I5|by apply I6].
Qed.

(** A path that is only counted as dead. *)
Lemma gc_ok_mark db0 done p l st :
  gc_ok db0 st -> delete_inv db0 done (p :: l) st -> shouldDelete options = false ->
  gc_ok db0 (set_dead (sset_insert p (gc_dead st)) st).
Proof.
  intros Hok Hd Es. assert (Hin : p ∈ done ++ p :: l) by (rewrite elem_of_app, elem_of_cons; auto).
  pose proof (delete_not_protected _ _ _ _ p Hok Hd) as Hp. destruct Hok as [H1 H2 H3 H4 H5 H6 H7 H8].
  split; cbn [gc_db gc_dead gc_cache gc_shared set_dead]; try done; [by rewrite Es|..].
  - intros q. rewrite sset_insert_elem. intros [->|Hq]; [intros Hx; by apply Hp|by apply H4].
  - intros q Hq. rewrite sset_insert_elem. destruct (H8 q Hq); auto.
Qed.

(** The deletion loop: it never meets a path in use, everything it was given
    ends up dead, and it only fails when the filesystem does. *)
Lemma delete_loop_spec db0 l : forall done st,
  gc_ok db0 st -> delete_inv db0 done l st -> delete_post db0 l st (delete_loop l st).
Proof.
  induction l as [|p l IH]; intros done_ st Hok Hd; cbn [Gc.delete_loop].
  { do 5 (split; [done|]). intros _ p Hp. by apply elem_of_nil in Hp. }
  destruct (arrive_same st) as (Hs1 & Ec1 & Ea1).
  assert (Hok1 : gc_ok db0 (arrive st)) by by apply (gc_ok_same _ st).
  assert (Hd1 : delete_inv db0 done_ (p :: l) (arrive st)).
  { destruct Hd. split; rewrite ?(sp_db _ _ Hs1), ?(sp_dead _ _ Hs1); done. }
  unfold sset_mem. case_bool_decide as Hdead.
  { apply (delete_post_next db0 p l st (arrive st)); try done; [|intros q; by rewrite (sp_dead _ _ Hs1)].
    apply (IH (done_ ++ [p])); [done|]. apply (delete_skip db0 done_ p l (arrive st)); try done. intros Hs. by apply (ok_dead _ _ Hok1). }
  set (st1 := set_dead _ (arrive st)).
  assert (Hmono : forall q, q ∈ gc_dead st -> q ∈ gc_dead st1).
  { intros q Hq. cbn. rewrite sset_insert_elem, (sp_dead _ _ Hs1). auto. }
  assert (Hpd : p ∈ gc_dead st1) by (cbn; rewrite sset_insert_elem; by left).
  destruct (shouldDelete options) eqn:Es.
  2: { apply (delete_post_next db0 p l st st1); try done. apply (IH (done_ ++ [p])); [by eapply gc_ok_mark|].
       apply (delete_skip db0 done_ p l (arrive st)); try done; [cbn; intros q Hq; rewrite sset_insert_elem; auto|by rewrite Es]. }
  change (gc_db st1) with (gc_db (arrive st)).
  pose proof (law_invalidate p _ (lt_inv _ _ (ok_later _ _ Hok1))) as Hlaw.
  destruct (db_invalidatePathChecked p (gc_db (arrive st))) as [db'|f] eqn:Einv.
  2: { destruct Hlaw as [-> (q & Hq & Hr)]. exfalso. by eapply (delete_no_referrer db0 done_ p l (arrive st)). }
  destruct (delete_step db0 done_ p l (arrive st) db' Hok1 Hd1 Hdead Einv) as [Hok2 Hd2].
  fold st1 in Hok2, Hd2. set (st2 := set_db db' st1) in *.
  pose proof (deleteFromStore_spec (sp_to_string p) st2) as Hf. cbv zeta in Hf.
  destruct (deleteFromStore _ _ _ _ _ st2) as [st3 r]. cbn [fst snd] in Hf.
  destruct Hf as (F1 & F2 & F3 & F4 & F5 & F6 & F7).
  assert (Hok3 : gc_ok db0 st3) by (apply (gc_ok_same _ st2); [split; [done|done|by rewrite F5|by rewrite F4]|done..]).
  assert (Hd3 : delete_inv db0 (done_ ++ [p]) l st3) by (destruct Hd2; split; rewrite ?F1, ?F2; done).
  destruct r as [u|f].
  - eapply (delete_post_next db0 p l st); [apply (IH (done_ ++ [p]))|exact F5|exact F4|exact F6|cbn; by rewrite F2|cbn; by rewrite F2].
    + destruct Hok3 as [H1 H2 H3 H4 H5 H6 H7 H8]. split; try done. intros q k Hk. apply H5. cbn in Hk. by apply smap_lookup_filter in Hk.
    + destruct Hd3. split; done.
  - split; [done|]. split; [cbn [fst]; rewrite F5; exact Ea1|]. split.
    { intros E. cbn [fst]. rewrite F4, F6. cbn. by rewrite (arrive_none st E). }
    split; [intros Hfs; by specialize (F7 Hfs)|]. split; [|done]. cbn [fst]. rewrite F2. exact Hmono.
Qed.

(** ** The whole function *)

Definition acyclic (db : D) : Prop := forall a b, a <> b -> refers_db db b a -> ~ rtc (refers_db db) a b.

Lemma path_references_spec db a :
  db_inv db -> exists refs, path_references db a = Ok refs /\ forall b, b ∈ refs <-> refers_db db a b.
Proof.
  intros Hi. unfold path_references, refers_db. pose proof (law_info db a Hi) as Hv. destruct (db_isValidPath db a).
  - destruct Hv as [i ->]. exists (pi_references (vpi_info i)). split; [done|]. intros b. naive_solver.
  - rewrite Hv. exists []. split; [done|]. intros b. rewrite elem_of_nil. naive_solver.
Qed.

Lemma topoSortPaths_spec db V :
  db_inv db -> sset_wf V ->
  (forall l, topoSortPaths db V = Ok l -> Permutation l V /\
     forall a b, a ∈ V -> b ∈ V -> a <> b -> refers_db db a b -> before a b l) /\
  (acyclic db -> exists l, topoSortPaths db V = Ok l).
Proof.
  intros Hi HV. unfold topoSortPaths. set (err := fun _ _ : StorePath => BuildError).
  destruct (topoSort_cases V (path_references db) err HV) as [Hno Hyes].
  { intros a _. destruct (path_references_spec db a Hi) as (refs & Hr & _). by exists refs. }
  assert (Hedge : forall a b, edge V (path_references db) a b <-> a ∈ V /\ b ∈ V /\ a <> b /\ refers_db db a b).
  { intros a b. unfold edge. destruct (path_references_spec db a Hi) as (refs & -> & Hin). setoid_rewrite <- Hin. naive_solver. }
  split.
  - intros l Hl. destruct Hno as (l' & Hl' & Hp & Hb).
    { intros a b Hc. destruct Hyes as (x & y & Hx & _); [by exists a, b|]. rewrite Hl in Hx. done. }
    rewrite Hl in Hl'. injection Hl' as <-. split; [done|]. intros a b ? ? ? ?. apply Hb, Hedge. done.
  - intros Hac. destruct Hno as (l & Hl & _); [|by exists l]. intros a b [He Hr]. apply Hedge in He as (_ & _ & Hne & He).
    apply (Hac a b); [congruence|done|]. clear -Hr Hedge. induction Hr as [|x y z Hxy _ IH]; [done|].
    eapply rtc_l; [|done]. by apply Hedge in Hxy as (_ & _ & _ & ?).
Qed.

(** A traversal that ran to its end hands over a closed set of paths. *)
Lemma delete_inv_init db0 start V l st :
  gc_ok db0 st -> loop_inv db0 start V [] st -> topoSortPaths (gc_db st) V = Ok l -> delete_inv db0 [] l st.
Proof.
  intros Hok Hl Ht. pose proof (ok_later _ _ Hok) as Hlat.
  destruct (topoSortPaths_spec (gc_db st) V (lt_inv _ _ Hlat) (li_wf _ _ _ _ _ Hl)) as [Hsort _].
  destruct (Hsort l Ht) as [Hperm Hord]. assert (Hin : forall x, x ∈ l <-> x ∈ V) by (intros x; by rewrite Hperm).
  split; cbn [app].
  - rewrite Hperm. apply sset_nodup, Hl.
  - intros p Hp%Hin. destruct (li_closed _ _ _ _ _ Hl p Hp) as [Hx|[?|[Hr Hc]]]; [by apply elem_of_nil in Hx|by left|].
    destruct (decide (p ∈ gc_dead st)) as [?|Hdead]; [by left|right]. split; [done|]. intros a Ha Hva. apply Hin, Hc.
    apply (lt_keeps _ _ Hlat). split; [done|]. split; [done|].
    destruct (keeps_valid db0 a p (ok_start _ _ Hok) Ha) as [_ Hvp]. by destruct (ok_only _ _ Hok p Hvp).
  - intros a b Ha%Hin Hb%Hin. by apply Hord.
  - intros p _ Hp. by apply elem_of_nil in Hp.
Qed.

(** What [deleteReferrersClosure] establishes. *)
Definition closure_post (db0 : D) (start : StorePath) (st : GcState) (out : GcState * result unit) : Prop :=
  gc_ok db0 out.1 /\
  (plain_keep -> fuel_ok db0 -> alive_ok db0 st -> gc_arrivals st = [] -> alive_post db0 out) /\
  (fuel_ok db0 -> fs_ok -> acyclic db0 -> out.2 = Ok tt) /\
  (out.2 = Ok tt -> start ∈ gc_alive out.1 \/ start ∈ gc_dead out.1 \/ go_action options = gcDeleteSpecific) /\
  (forall p, p ∈ gc_dead st -> p ∈ gc_dead out.1) /\ (forall p, p ∈ gc_alive st -> p ∈ gc_alive out.1).

Lemma acyclic_later db0 db : later db0 db -> acyclic db0 -> acyclic db.
Proof.
  intros Hl Hac a b Hne Hr Hrtc. apply (later_refers _ _ _ _ Hl) in Hr as [Hr _].
  apply (Hac a b Hne Hr). by eapply refers_later_rtc.
Qed.

Lemma gc_ok_release db0 st : gc_ok db0 st -> gc_ok db0 (releasePending st).
Proof. intros Hok. by apply (gc_ok_same _ st). Qed.

Lemma loop_fuel db0 : fuel_ok db0 -> ~ fuel < S (length (db_paths db0)) - length ([] : list StorePath) + 1.
Proof. unfold fuel_ok. cbn [length]. nia. Qed.

Lemma deleteReferrersClosure_spec db0 start st : gc_ok db0 st -> closure_post db0 start st (deleteReferrersClosure start st).
Proof.
  intros Hok. unfold Gc.deleteReferrersClosure.
  pose proof (visit_loop_spec db0 start fuel [start] [start] st Hok (loop_inv_init db0 start st)) as Hv. cbv zeta in Hv.
  destruct (visit_loop fuel start [start] [start] st) as [st1 r1]. cbn [fst snd] in Hv. destruct Hv as (Hok1 & Hs1 & Hal & Hr1).
  assert (Hdead : forall p, p ∈ gc_dead st -> p ∈ gc_dead st1) by (intros p; by rewrite (sp_dead _ _ Hs1)).
  destruct r1 as [[V|]|f].
  - destruct (topoSortPaths (gc_db st1) V) as [l|f] eqn:Et.
    + pose proof (delete_loop_spec db0 l [] st1 Hok1 (delete_inv_init _ _ _ _ _ Hok1 Hr1 Et)) as Hd.
      destruct (delete_loop l st1) as [st2 r2]. destruct Hd as (D1 & D2 & D3 & D4 & D5 & D6). cbn [fst snd] in D1, D2, D3, D4, D5, D6.
      split; [by apply gc_ok_release|]. split; [|split; [|split; [|split]]]; cbn [fst snd].
      * intros Hk Hf Ha Harr. destruct (Hal Hk Hf Ha Harr) as [[A1 A2] A3]. destruct (D3 A3) as [E1 E2].
        split; [|done]. split; cbn; [by rewrite E1|by rewrite D2].
      * intros _ Hfs _. by apply D4.
      * intros Hr. right. left. apply D6; [done|].
        destruct (topoSortPaths_spec (gc_db st1) V (lt_inv _ _ (ok_later _ _ Hok1)) (li_wf _ _ _ _ _ Hr1)) as [Hsort _].
        destruct (Hsort l Et) as [-> _]. apply (li_start _ _ _ _ _ Hr1).
      * intros p Hp. by apply D5, Hdead.
      * intros p Hp. cbn. rewrite D2. by apply Hs1.
    + split; [by apply gc_ok_release|]. split; [done|]. split; [|split; [done|split; [done|apply Hs1]]].
      intros _ _ Hac. exfalso.
      destruct (topoSortPaths_spec (gc_db st1) V (lt_inv _ _ (ok_later _ _ Hok1)) (li_wf _ _ _ _ _ Hr1)) as [_ Hsort].
      destruct Hsort as [l Hl]; [|congruence]. eapply acyclic_later; [apply Hok1|done].
  - split; [by apply gc_ok_release|]. split; [done|]. split; [done|]. split; [|split; [done|apply Hs1]]. intros _. destruct Hr1; auto.
  - split; [by apply gc_ok_release|]. split; [done|]. split; [|split; [done|split; [done|apply Hs1]]].
    intros Hf. exfalso. destruct Hr1 as [?|Hlt]; [done|]. apply (loop_fuel db0 Hf). cbn in *. lia.
Qed.

Lemma gc_ok_init db0 arrivals : db_inv db0 -> gc_ok db0 (gc_init reservedPath options tempRoots0 db0 arrivals).
Proof.
  intros Hi. split; cbn; try done.
  - by apply later_refl.
  - intros _ p Hp. by apply elem_of_nil in Hp.
  - intros p Hp. by apply elem_of_nil in Hp.
  - intros h Hh. by apply sset_of_list_elem.
  - by intros p [? _].
  - by left.
Qed.

Lemma delete_specific_ok db0 paths : forall st, gc_ok db0 st ->
  gc_ok db0 (delete_specific storeDir realStoreDir options keepOutputs keepDerivations fs fuel rootMap tempRoots0 paths st).1.
Proof.
  induction paths as [|p paths IH]; intros st Hok; cbn [delete_specific]; [done|].
  destruct (deleteReferrersClosure_spec db0 p st Hok) as [Hok' _]. destruct (deleteReferrersClosure p st) as [st' [u|f]]; [|done].
  destruct (sset_mem _ _); [by apply IH|done].
Qed.

Notation delete_entries :=
  (delete_entries storeDir realStoreDir linksDir options keepOutputs keepDerivations fs fuel rootMap tempRoots0).

Lemma deleteFromStore_ok db0 name st : gc_ok db0 st -> gc_ok db0 (deleteFromStore storeDir realStoreDir options fs name st).1.
Proof.
  intros Hok. destruct (deleteFromStore_spec name st) as (F1 & F2 & F3 & F4 & F5 & _).
  apply (gc_ok_same _ st); [split; [done|done|by rewrite F5|by rewrite F4]|done..].
Qed.

Lemma delete_entries_ok db0 entries : forall st, gc_ok db0 st -> gc_ok db0 (delete_entries entries st).1.
Proof.
  induction entries as [|name entries IH]; intros st Hok; cbn [Gc.delete_entries]; [done|].
  case_bool_decide; [by apply IH|]. destruct (maybeParseStorePath storeDir _) as [[p|]|f]; [| |done].
  - destruct (deleteReferrersClosure_spec db0 p st Hok) as [Hok' _]. destruct (deleteReferrersClosure p st) as [st' [u|f]]; [by apply IH|done].
  - pose proof (deleteFromStore_ok db0 name st Hok) as Hok'. destruct (deleteFromStore _ _ _ _ name st) as [st' [u|f]]; [by apply IH|done].
Qed.

Lemma collectGarbage_ok db0 arrivals :
  db_inv db0 ->
  gc_ok db0 (collectGarbage storeDir realStoreDir linksDir reservedPath options keepOutputs keepDerivations fs fuel
    rootMap tempRoots0 db0 arrivals).1.
Proof.
  intros Hi. pose proof (gc_ok_init db0 arrivals Hi) as Hok. unfold collectGarbage, gc_traverse.
  assert (Hend : forall out : GcState * result unit, gc_ok db0 out.1 -> gc_ok db0 (match out with
    | (st, Err f) => (st, Err f)
    | (st, Ok _) => (match go_action options with
       | gcReturnLive => set_paths (sset_union (gc_paths st) (printStorePath storeDir <$> gc_alive st)) st
       | gcReturnDead => set_paths (sset_union (gc_paths st) (printStorePath storeDir <$> gc_dead st)) st
       | _ => set_removed (gc_removed st ++ unused_links linksDir fs) st end, Ok tt) end).1).
  { intros [st [u|f]] Hst; [|done]. cbn [fst] in *. destruct (go_action options); by apply (gc_ok_same _ st). }
  apply Hend. case_bool_decide; [by apply delete_specific_ok|]. destruct (_ <? _)%Z; [|done].
  pose proof (delete_entries_ok db0 (fs_entries fs) _ Hok) as He.
  destruct (delete_entries _ _) as [st [u|f]]; [done|]. cbn [fst] in He. repeat case_match; done.
Qed.

(** ** What is collected *)

Lemma maybeParse_print p :
  CanonPath_wf storeDir -> store_path_ok p -> maybeParseStorePath storeDir (storeDir ++ L "/" ++ sp_to_string p) = Ok (Some p).
Proof.
  intros Hd Hp. pose proof (parseStorePath_ok storeDir Hd p Hp) as Hparse. unfold maybeParseStorePath.
  change (storeDir ++ L "/" ++ sp_to_string p) with (printStorePath storeDir p). by rewrite Hparse.
Qed.

Lemma store_path_entry p :
  store_path_ok p -> is_ok (StorePath_parse (baseNameOf linksDir)) = false ->
  sp_to_string p ∉ [L "."; L ".."; baseNameOf linksDir].
Proof.
  intros [Hp _] Hl. rewrite !elem_of_cons, elem_of_nil. intros [E|[E|[E|[]]]]; rewrite E in Hp.
  - by vm_compute in Hp.
  - by vm_compute in Hp.
  - by rewrite Hp in Hl.
Qed.

(** Every store path in the directory is decided. *)
Lemma delete_entries_spec db0 entries :
  CanonPath_wf storeDir -> is_ok (StorePath_parse (baseNameOf linksDir)) = false ->
  Forall (fun name => is_ok (maybeParseStorePath storeDir (storeDir ++ L "/" ++ name)) = true) entries ->
  plain_keep -> fuel_ok db0 -> fs_ok -> acyclic db0 -> go_action options <> gcDeleteSpecific ->
  forall st, gc_ok db0 st -> alive_ok db0 st -> gc_arrivals st = [] ->
  let out := delete_entries entries st in
  out.2 = Ok tt /\ alive_ok db0 out.1 /\
  (forall p, p ∈ gc_dead st \/ p ∈ gc_alive st -> p ∈ gc_dead out.1 \/ p ∈ gc_alive out.1) /\
  (forall p, store_path_ok p -> sp_to_string p ∈ entries -> p ∈ gc_dead out.1 \/ p ∈ gc_alive out.1).
Proof.
  intros Hd Hlinks He Hk Hf Hfs Hac Hact. induction He as [|name entries Hname He IH]; intros st Hok Hal Harr; cbn [Gc.delete_entries].
  { split; [done|]. split; [done|]. split; [done|]. intros p _ Hp. by apply elem_of_nil in Hp. }
  case_bool_decide as Hskip.
  { destruct (IH st Hok Hal Harr) as (I1 & I2 & I3 & I4). split; [done|]. split; [done|]. split; [done|].
    intros p Hp [<-|Hin]%elem_of_cons; [|by apply I4]. by destruct (store_path_entry p Hp Hlinks). }
  destruct (maybeParseStorePath storeDir (storeDir ++ L "/" ++ name)) as [[p|]|f] eqn:Ep; [| |done].
  - destruct (deleteReferrersClosure_spec db0 p st Hok) as (C1 & C2 & C3 & C4 & C5 & C6).
    specialize (C2 Hk Hf Hal Harr). specialize (C3 Hf Hfs Hac).
    destruct (deleteReferrersClosure p st) as [st' r]. cbn [fst snd] in *. subst r. destruct C2 as [C2 C2'].
    destruct (IH st' C1 C2 C2') as (I1 & I2 & I3 & I4). split; [done|]. split; [done|]. split.
    + intros q [Hq|Hq]; apply I3; auto.
    + intros q Hq [<-|Hin]%elem_of_cons; [|by apply I4]. apply I3. rewrite (maybeParse_print q Hd Hq) in Ep.
      injection Ep as <-. destruct (C4 eq_refl) as [?|[?|?]]; [by right|by left|done].
  - destruct (deleteFromStore_spec name st) as (F1 & F2 & F3 & F4 & F5 & F6 & F7). specialize (F7 Hfs).
    pose proof (deleteFromStore_ok db0 name st Hok) as Hok'.
    destruct (deleteFromStore _ _ _ _ name st) as [st' r]. cbn [fst snd] in *. subst r.
    destruct (IH st' Hok') as (I1 & I2 & I3 & I4); [split; [by rewrite F4; apply Hal|by rewrite F5; apply Hal]|congruence|].
    split; [done|]. split; [done|]. rewrite F2, F5 in I3. split; [done|].
    intros q Hq [<-|Hin]%elem_of_cons; [|by apply I4]. by rewrite (maybeParse_print q Hd Hq) in Ep.
Qed.

Lemma refers_keeps db a b : rtc (refers_db db) a b -> rtc (keeps db) a b.
Proof. apply rtc_subrel. intros x y Hxy. by left. Qed.
End laws.

