(* ===== verification/GcLocal.v ===== *)
(** * Garbage collection of the local store (libstore/gc.cc, local-store.cc)

    What a collection promises, the local store as an instance of the
    interface the collector is written against, and collections of a small
    store. *)

From S2P Require Import Prelude.
From S2P Require Import Containers.
From S2P Require Import Strings.
From S2P Require Import CanonPath.
From S2P Require Import StorePath.
From S2P Require Import ContentAddress.
From S2P Require Import Derivations.
From S2P Require Import ATerm.
From S2P Require Import PathInfo.
From S2P Require Import Graph.
From S2P Require Import LocalDb.
From S2P Require Import LocalStore.

From S2P Require Import Gc.
From stdpp Require Import relations.

(** ** What a collection promises *)


(** C3: a full collection deletes exactly the garbage. In a store without
    reference cycles, with no size limit, no concurrent roots and neither keep
    setting, [collectGarbage] succeeds, and the paths valid afterwards are
    exactly those that were valid and can be reached from a root; no
    deletion finds its path in use. *)
Theorem collectGarbage_exact {D} `{StoreDbLaws D} storeDir realStoreDir linksDir reservedPath options fs fuel
    rootMap tempRoots0 (db0 : D) :
  db_inv db0 -> acyclic db0 -> go_action options = gcDeleteDead -> fs_ok options fs -> fuel_ok fuel db0 ->
  CanonPath_wf storeDir -> is_ok (StorePath_parse (baseNameOf linksDir)) = false ->
  Forall (fun name => is_ok (maybeParseStorePath storeDir (storeDir ++ L "/" ++ name)) = true) (fs_entries fs) ->
  (forall p, db_isValidPath db0 p = true -> store_path_ok p /\ sp_to_string p ∈ fs_entries fs) ->
  exists st, collectGarbage storeDir realStoreDir linksDir reservedPath options false false fs fuel rootMap tempRoots0 db0 []
               = (st, Ok tt) /\
    forall p, db_isValidPath (gc_db st) p = true <->
      db_isValidPath db0 p = true /\ reachable options rootMap tempRoots0 db0 p.
Proof.
  intros Hi Hac Hact Hfs Hf Hd Hlinks Hnames Hlisted.
  pose proof (collectGarbage_ok storeDir realStoreDir linksDir reservedPath options false false
    fs fuel rootMap tempRoots0 db0 [] Hi) as Hok.
  pose proof (gc_ok_init reservedPath options false false rootMap tempRoots0 db0 [] Hi) as Hinit.
  destruct (delete_entries_spec storeDir realStoreDir linksDir options false false fs fuel rootMap tempRoots0 db0 (fs_entries fs)
    Hd Hlinks Hnames) with (st := gc_init reservedPath options tempRoots0 db0 []) as (Hr & Hal & _ & Hall); try done.
  { by rewrite Hact. }
  { split; cbn; [intros h; by rewrite sset_of_list_elem|]. intros x Hx. by apply elem_of_nil in Hx. }
  unfold collectGarbage, gc_traverse in *. rewrite bool_decide_false in Hok |- * by by rewrite Hact.
  destruct Hfs as [Hfs1 Hfs2]. rewrite (proj2 (Z.ltb_lt 0 (go_maxFreed options))) in Hok |- * by lia.
  destruct (delete_entries _ _ _ _ _ _ _ _ _ _ _ _) as [st r]. cbn [fst snd] in *. subst r. rewrite Hact in *.
  eexists. split; [reflexivity|]. cbn [gc_db set_removed]. intros p. split.
  - intros Hv. destruct (lt_valid _ _ _ _ _ (ok_later _ _ _ _ _ _ _ Hok) p Hv) as [Hv0 _]. split; [done|].
    destruct (Hlisted p Hv0) as [Hp Hin]. destruct (Hall p Hp Hin) as [Hdead|Halive]; [|by apply Hal].
    exfalso. pose proof (ok_dead _ _ _ _ _ _ _ Hok) as Hx. cbn [gc_dead gc_db set_removed] in Hx.
    rewrite Hx in Hv; [done| |done]. unfold shouldDelete. by rewrite Hact.
  - intros [Hv (r & Hroot & Hrp)]. apply (ok_protected _ _ _ _ _ _ _ Hok). split; [done|]. exists r. split; [done|].
    by apply refers_keeps.
Qed.

(** ** The local store implements the interface *)

Section local.
Context (storeDir : bytes) (xp : xpSettings).

Definition local_queryPathInfo (db : Db) (p : StorePath) : result ValidPathInfo :=
  let* o := queryPathInfoInternal storeDir xp db p in
  match o with Some i => Ok i | None => throw InvalidPath end.

(** The output map as it is without content-addressed derivations. *)
#[export] Instance Gc_local : StoreDb Db := {|
  db_isValidPath := isValidPath_ storeDir;
  db_queryPathInfo := local_queryPathInfo;
  db_queryReferrers := queryReferrers storeDir;
  db_queryValidDerivers := queryValidDerivers storeDir;
  db_queryPartialDerivationOutputMap := queryStaticPartialDerivationOutputMap storeDir;
  db_invalidatePathChecked := invalidatePathChecked storeDir;
|}.

Definition readable (db : Db) : Prop :=
  db_wf storeDir db /\ forall p, isValidPath_ storeDir db p = true -> exists i, queryPathInfoInternal storeDir xp db p = Ok (Some i).

Hypothesis storeDir_wf : CanonPath_wf storeDir.

Lemma local_refers db a b : readable db -> refers_db db a b <-> refers storeDir db a b.
Proof.
  intros [Hwf Hread]. unfold refers_db. cbn. unfold local_queryPathInfo. split.
  - intros (i & Hq & Hb). apply rbind_Ok in Hq as ([i'|] & Hq & E); [|done]. injection E as ->.
    by apply (queryPathInfo_references storeDir xp db a i storeDir_wf Hwf Hq).
  - intros Hr. destruct (refers_valid _ _ _ _ Hr) as [Ha _]. apply isValidPath_spec in Ha. destruct (Hread a Ha) as [i Hi].
    exists i. rewrite Hi. split; [done|]. by apply (queryPathInfo_references storeDir xp db a i storeDir_wf Hwf Hi).
Qed.

Lemma queryValidDerivers_spec db p :
  db_wf storeDir db ->
  exists l, queryValidDerivers storeDir db p = Ok l /\ forall q, q ∈ l <->
    exists r n, row_of storeDir db q = Some r /\ (vp_id r, n, printStorePath storeDir p) ∈ db_DerivationOutputs db.
Proof.
  intros Hwf. unfold queryValidDerivers, QueryValidDerivers.
  destruct (parse_set_printed storeDir storeDir_wf (concat ((fun o => paths_with_id o.1.1 db) <$>
    filter (fun o => o.2 = printStorePath storeDir p) (db_DerivationOutputs db)))) as (l & Hl & _ & Hin).
  { apply Forall_forall. intros s Hx. apply concat_fmap_elem in Hx as (x & _ & Hx).
    pose proof (path_of_id_printed storeDir db x.1.1 Hwf) as Hp. rewrite Forall_forall in Hp. auto. }
  exists l. split; [done|]. intros q. rewrite Hin, concat_fmap_elem. split.
  - intros ([[a n] s] & Ho & Hq). apply list_elem_of_filter in Ho as [Hs Ho]. cbn [fst snd] in *. subst s.
    apply paths_with_id_elem in Hq as (r & Hr & <- & Hq). exists r, n. split; [by apply row_of_printed|done].
  - intros (r & n & Hr & Ho). apply row_of_elem in Hr as [Hr E]. exists (vp_id r, n, printStorePath storeDir p).
    split; [by apply list_elem_of_filter|]. apply paths_with_id_elem. by exists r.
Qed.

Lemma output_map_total db p :
  db_wf storeDir db -> isValidPath_ storeDir db p = true -> exists m, queryStaticPartialDerivationOutputMap storeDir db p = Ok m.
Proof.
  intros Hwf Hv. apply isValidPath_spec in Hv as [r Hr]. unfold queryStaticPartialDerivationOutputMap, queryValidPathId.
  change (QueryPathInfo (printStorePath storeDir p) db) with (row_of storeDir db p). rewrite Hr. cbn [rbind].
  assert (exists l, rmapM (fun o => let* q := parseStorePath storeDir o.2 in Ok (o.1, Some q)) (QueryDerivationOutputs (vp_id r) db) = Ok l)
    as [l ->]; [|by eexists].
  assert (Forall (fun o => printed storeDir o.2) (QueryDerivationOutputs (vp_id r) db)) as Hf.
  { apply Forall_forall. intros o Ho. unfold QueryDerivationOutputs in Ho. apply list_elem_of_fmap in Ho as (x & -> & Hx).
    apply list_elem_of_filter in Hx as [_ Hx]. pose proof (dw_outs _ _ Hwf) as Ho. rewrite Forall_forall in Ho. by apply Ho. }
  induction Hf as [|[n s] l (q & Hs & Hq) _ [l' IH]]; [by eexists|]. cbn [snd] in Hs. subst s. cbn [rmapM fst snd].
  rewrite parseStorePath_ok by done. cbn [rbind]. rewrite IH. by eexists.
Qed.

(** Deletion only removes the outputs of the deleted derivation. *)
Lemma invalidate_outputs p db db' r :
  row_of storeDir db p = Some r -> invalidatePathChecked storeDir p db = Ok db' ->
  db_DerivationOutputs db' = filter (fun o => o.1.1 <> vp_id r) (db_DerivationOutputs db).
Proof.
  intros Hr Hi. unfold invalidatePathChecked in Hi. rewrite isValidPath_row, Hr in Hi.
  apply rbind_Ok in Hi as (l & _ & Hi). destruct (negb _); [done|]. unfold invalidatePath, InvalidatePath in Hi.
  unfold row_of in Hr. rewrite Hr in Hi. destruct (existsb _ _); [done|]. apply Ok_inj in Hi. by subst db'.
Qed.

Lemma invalid_unchanged p db db' :
  row_of storeDir db p = None -> invalidatePathChecked storeDir p db = Ok db' -> db' = db.
Proof. intros Hr Hi. unfold invalidatePathChecked in Hi. rewrite isValidPath_row, Hr in Hi. by apply Ok_inj in Hi. Qed.

Lemma local_outputs_kept p db db' q :
  db_wf storeDir db -> invalidatePathChecked storeDir p db = Ok db' -> q <> p ->
  row_of storeDir db' q = row_of storeDir db q ->
  queryStaticPartialDerivationOutputMap storeDir db' q = queryStaticPartialDerivationOutputMap storeDir db q.
Proof.
  intros Hwf Hi Hq Hrow. destruct (row_of storeDir db p) as [rp|] eqn:Ep; [|by rewrite (invalid_unchanged p db db' Ep Hi)].
  unfold queryStaticPartialDerivationOutputMap, queryValidPathId.
  change (QueryPathInfo (printStorePath storeDir q) db') with (row_of storeDir db' q).
  change (QueryPathInfo (printStorePath storeDir q) db) with (row_of storeDir db q).
  rewrite Hrow. destruct (row_of storeDir db q) as [rq|] eqn:Eq; [|done]. cbn [rbind].
  unfold QueryDerivationOutputs. rewrite (invalidate_outputs p db db' rp Ep Hi).
  replace (filter (fun o => o.1.1 = vp_id rq) (filter (fun o => o.1.1 <> vp_id rp) (db_DerivationOutputs db)))
    with (filter (fun o => o.1.1 = vp_id rq) (db_DerivationOutputs db)); [done|].
  assert (vp_id rq <> vp_id rp) as Hid.
  { intros E. apply row_of_elem in Ep as [Hp Ep], Eq as [Hq' Eq]. assert (rq = rp) as -> by by apply (row_id_inj storeDir db).
    rewrite Ep in Eq. by apply printStorePath_inj in Eq. }
  rewrite list_filter_filter. apply list_filter_iff. intros o. split; [intros ->; done|by intros [? _]].
Qed.

Lemma local_derivers_kept p db db' a q :
  readable db -> db_wf storeDir db' -> invalidatePathChecked storeDir p db = Ok db' -> a <> p ->
  row_of storeDir db' a = row_of storeDir db a -> derives_db db' a q <-> derives_db db a q.
Proof.
  intros [Hwf _] Hwf' Hi Ha Hrow. unfold derives_db. cbn [db_queryValidDerivers Gc_local].
  destruct (queryValidDerivers_spec db q Hwf) as (l & -> & Hl), (queryValidDerivers_spec db' q Hwf') as (l' & -> & Hl').
  assert (a ∈ l' <-> a ∈ l) as Hiff; [|split; intros (k & [= <-] & Hk); eexists; (split; [done|]); tauto].
  rewrite Hl, Hl', Hrow. destruct (row_of storeDir db p) as [rp|] eqn:Ep; [|by rewrite (invalid_unchanged p db db' Ep Hi)].
  rewrite (invalidate_outputs p db db' rp Ep Hi). setoid_rewrite list_elem_of_filter. cbn [fst].
  split; [naive_solver|]. intros (r & n & Hr & Ho). exists r, n. split; [done|]. split; [|done]. intros E.
  apply row_of_elem in Ep as [Hp Ep], Hr as [Hr Er]. assert (r = rp) as -> by by apply (row_id_inj storeDir db).
  rewrite Ep in Er. by apply printStorePath_inj in Er.
Qed.

Lemma readable_invalidate p db db' :
  readable db -> invalidatePathChecked storeDir p db = Ok db' ->
  readable db' /\ isValidPath_ storeDir db' p = false /\
  forall q, q <> p -> row_of storeDir db' q = row_of storeDir db q /\ local_queryPathInfo db' q = local_queryPathInfo db q.
Proof.
  intros [Hwf Hread] Hi. pose proof (invalidatePathChecked_cases storeDir storeDir_wf p db Hwf) as Hc. rewrite Hi in Hc.
  destruct Hc as (Hwf' & Honly & Hp & Hother & Hrefs).
  assert (Hinfo : forall q, q <> p -> queryPathInfoInternal storeDir xp db' q = queryPathInfoInternal storeDir xp db q).
  { intros q Hq. apply queryPathInfoInternal_ext; [done..|by apply Hother|]. intros x. rewrite Hrefs. split; [by intros [? _]|].
    intros Hx. split; [done|]. split; [done|]. intros ->. by apply Honly in Hx. }
  split; [|split].
  - split; [done|]. intros q Hv. assert (q <> p) as Hq by (intros ->; by rewrite isValidPath_row, Hp in Hv).
    rewrite (Hinfo q Hq). apply Hread. by rewrite isValidPath_row, <- (Hother q Hq), <- isValidPath_row.
  - by rewrite isValidPath_row, Hp.
  - intros q Hq. split; [by apply Hother|]. unfold local_queryPathInfo. by rewrite (Hinfo q Hq).
Qed.

Definition local_paths (db : Db) : list StorePath :=
  match queryAllValidPaths storeDir db with Ok l => l | Err _ => [] end.

Lemma local_paths_spec db p : db_wf storeDir db -> isValidPath_ storeDir db p = true -> p ∈ local_paths db.
Proof.
  intros Hwf Hv. unfold local_paths, queryAllValidPaths.
  destruct (parse_set_printed storeDir storeDir_wf (vp_path <$> db_ValidPaths db)) as (l & -> & _ & Hin).
  { apply Forall_fmap, Forall_forall. intros r Hr. pose proof (dw_printed _ _ Hwf) as Hp. rewrite Forall_forall in Hp. by apply Hp. }
  apply Hin. apply isValidPath_spec in Hv as [r Hr]. apply row_of_elem in Hr as [Hr <-]. by apply list_elem_of_fmap_2.
Qed.

(** The laws, from the properties of the database. *)
#[export, refine] Instance Gc_local_laws : StoreDbLaws Db := {| db_inv := readable; db_paths := local_paths |}.
Proof.
  - intros db p [Hwf _]. by apply local_paths_spec.
  - intros db p [Hwf Hread]. cbn [db_isValidPath db_queryPathInfo Gc_local]. unfold local_queryPathInfo.
    destruct (isValidPath_ storeDir db p) eqn:Ev; [destruct (Hread p Ev) as [i ->]; by exists i|].
    unfold queryPathInfoInternal. unfold isValidPath_ in Ev. by destruct (QueryPathInfo _ db).
  - intros db a b Hi Hr. apply local_refers in Hr; [|done]. apply isValidPath_spec. by apply refers_valid in Hr as [_ ?].
  - intros db p Hi. destruct (queryReferrers_spec storeDir storeDir_wf db p (proj1 Hi)) as (l & Hl & _ & Hin).
    exists l. split; [done|]. intros q. by rewrite Hin, local_refers.
  - intros db p [Hwf _]. destruct (queryValidDerivers_spec db p Hwf) as (l & Hl & Hin). exists l. split; [done|].
    intros q Hq. apply Hin in Hq as (r & _ & Hr & _). apply isValidPath_spec. by exists r.
  - intros db p [Hwf _]. by apply output_map_total.
  - intros p db Hi. cbn [db_invalidatePathChecked db_isValidPath db_queryPathInfo db_queryPartialDerivationOutputMap Gc_local].
    destruct (invalidatePathChecked storeDir p db) as [db'|f] eqn:E.
    + destruct (readable_invalidate p db db' Hi E) as (Hi' & Hp & Hq). split; [done|]. split; [done|].
      intros q Hne. destruct (Hq q Hne) as [Hrow Hinfo]. split; [by rewrite !isValidPath_row, Hrow|]. split; [done|]. split.
      * intros _. by eapply local_outputs_kept; [apply Hi|..].
      * intros a Ha. eapply local_derivers_kept; [done|apply Hi'|done|done|by apply Hq].
    + pose proof (invalidatePathChecked_cases storeDir storeDir_wf p db (proj1 Hi)) as Hc. rewrite E in Hc.
      destruct Hc as [-> (q & Hq & Hr)]. split; [done|]. exists q. split; [done|]. by apply local_refers.
Defined.
End local.

(** ** Examples *)

Definition store : bytes := L "/nix/store".
Definition example_c : StorePath := mkStorePath (L "c" ++ drop 1 example_base).
Definition no_xp : xpSettings := fun _ => false.

(** [c] refers to [b], which refers to [a]. *)
Definition gc_example_db : Db :=
  example_op (Op_registerValidPaths 6 [(example_c, example_info example_c [example_b])])
    (example_op (Op_registerValidPaths 5 [(example_b, example_info example_b [example_a])])
      (example_op (Op_registerValidPaths 4 [(example_a, example_info example_a [])]) empty_db)).

Definition example_fs : GcFs :=
  mkGcFs (fun _ => true) (fun _ => Ok 1%Z)
    [L "."; L ".links"; sp_to_string example_a; L "garbage"; sp_to_string example_b; sp_to_string example_c]
    [(L "used", 2%Z); (L "unused", 1%Z)].
Definition example_options (action : GCAction) : GCOptions := mkGCOptions action false [] (2 ^ 64 - 1).

Lemma store_canonical : CanonPath_wf store.
Proof. by apply CanonPath_raw_self. Qed.

Lemma gc_example_wf : db_wf store gc_example_db.
Proof.
  destruct example_paths_ok. assert (store_path_ok example_c) by (split; [by vm_compute|apply (bool_decide_unpack _); by vm_compute]).
  eapply (reachable_wf (H := padded_digest) store no_xp no_drv 1); [apply store_canonical|by intros p d [=]|].
  unfold gc_example_db. do 3 (eapply rtc_r; [|apply example_step; [by repeat constructor|by vm_compute]]). apply rtc_refl.
Qed.

Lemma gc_example_valid p : isValidPath_ store gc_example_db p = true -> p ∈ [example_a; example_b; example_c].
Proof.
  intros Hv. apply (local_paths_spec store store_canonical) in Hv; [|apply gc_example_wf].
  assert (local_paths store gc_example_db = [example_a; example_b; example_c]) as E by by vm_compute. by rewrite E in Hv.
Qed.

Lemma gc_example_readable : readable store no_xp gc_example_db.
Proof.
  split; [apply gc_example_wf|]. intros p Hp%gc_example_valid.
  assert (Forall (fun p => exists i, queryPathInfoInternal store no_xp gc_example_db p = Ok (Some i)) [example_a; example_b; example_c]) as Hf
    by (repeat constructor; eexists; vm_compute; reflexivity).
  rewrite Forall_forall in Hf. by apply Hf.
Qed.

(** References that only go to older rows form no cycle. *)
Lemma acyclic_ids storeDir xp db :
  CanonPath_wf storeDir -> readable storeDir xp db -> Forall (fun r => (r.2 < r.1)%Z) (db_Refs db) ->
  @acyclic Db (Gc_local storeDir xp) db.
Proof.
  intros Hd Hr Hids.
  assert (Hlt : forall x y, @refers_db Db (Gc_local storeDir xp) db x y -> exists rx ry,
    row_of storeDir db x = Some rx /\ row_of storeDir db y = Some ry /\ (vp_id ry < vp_id rx)%Z).
  { intros x y (rx & ry & Hx & Hy & Hin)%(local_refers storeDir xp Hd db x y Hr). exists rx, ry. split; [done|]. split; [done|].
    rewrite Forall_forall in Hids. by apply (Hids _ Hin). }
  intros a b Hne Hba Hab. destruct (Hlt _ _ Hba) as (rb & ra & Hb & Ha & Hl).
  assert (forall r, row_of storeDir db b = Some r -> (vp_id r <= vp_id ra)%Z) as Hle; [|specialize (Hle rb Hb); lia].
  clear rb Hb Hl Hba Hne. revert ra Ha. induction Hab as [a|a x b Hax _ IH]; intros ra Ha r Hb; [assert (r = ra) as -> by congruence; lia|].
  destruct (Hlt _ _ Hax) as (ra' & rx & Ha' & Hx & Hl). specialize (IH rx Hx r Hb). assert (ra' = ra) as -> by congruence. lia.
Qed.

Lemma collectGarbage_exact_witness :
  exists st, @collectGarbage Db (Gc_local store no_xp) store store (store ++ L "/.links") (L "/nix/var/nix/db/reserved")
      (example_options gcDeleteDead) false false example_fs 25 [example_b] [] gc_example_db [] = (st, Ok tt) /\
    (forall p, isValidPath_ store (gc_db st) p = true <-> isValidPath_ store gc_example_db p = true /\
       @reachable Db (Gc_local store no_xp) (example_options gcDeleteDead) [example_b] [] gc_example_db p) /\
    isValidPath_ store (gc_db st) example_a = true /\ isValidPath_ store (gc_db st) example_c = false.
Proof.
  pose proof (@collectGarbage_exact Db (Gc_local store no_xp) (Gc_local_laws store no_xp store_canonical) store store
    (store ++ L "/.links") (L "/nix/var/nix/db/reserved") (example_options gcDeleteDead) example_fs 25 [example_b] [] gc_example_db) as Ht.
  destruct Ht as (st & Hst & Hp).
  - apply gc_example_readable.
  - apply acyclic_ids; [apply store_canonical|apply gc_example_readable|].
    assert (db_Refs gc_example_db = [(2, 1); (3, 2)]%Z) as -> by by vm_compute. repeat constructor.
  - reflexivity.
  - split; [intros path; by exists 1%Z|]. cbn. lia.
  - unfold fuel_ok. apply Nat.leb_le. vm_compute. reflexivity.
  - apply store_canonical.
  - by vm_compute.
  - repeat constructor.
  - intros p Hp%gc_example_valid.
    assert (Forall (fun p => store_path_ok p /\ sp_to_string p ∈ fs_entries example_fs) [example_a; example_b; example_c]) as Hf.
    { repeat constructor; try (by vm_compute); apply (bool_decide_unpack _); by vm_compute. }
    rewrite Forall_forall in Hf. by apply Hf.
  - exists st. split; [exact Hst|]. split; [exact Hp|]. vm_compute in Hst. injection Hst as <-. split; by vm_compute.
Defined.


(** A temporary root can be acknowledged to its client and deleted all the
    same. Only the path visited last is [pending]: a root for a path visited
    before is accepted without waiting, although that path is among those
    about to be deleted. *)
Theorem acknowledged_root_is_deleted :
  let hash := sp_hashPart example_a in
  let out := @collectGarbage Db (Gc_local store no_xp) store store (store ++ L "/.links") (L "/nix/var/nix/db/reserved")
      (example_options gcDeleteDead) false false example_fs 25 [] [] gc_example_db [[]; []; [hash]] in
  out.2 = Ok tt /\ isValidPath_ store gc_example_db example_a = true /\
  hash ∈ sh_acked (gc_shared out.1) /\ hash ∈ sh_tempRoots (gc_shared out.1) /\
  isValidPath_ store (gc_db out.1) example_a = false /\
  (store ++ L "/" ++ sp_to_string example_a) ∈ gc_removed out.1.
Proof. cbv zeta. repeat split; try (by vm_compute); apply (bool_decide_unpack _); by vm_compute. Qed.

(** Listing the dead paths deletes files: an entry of the store directory
    that is no store path is removed from the disk even when the action only
    asks for the dead or the live paths. *)
Theorem listing_deletes_foreign_entries :
  Forall (fun action =>
    let out := @collectGarbage Db (Gc_local store no_xp) store store (store ++ L "/.links") (L "/nix/var/nix/db/reserved")
      (example_options action) false false example_fs 25 [example_b] [] gc_example_db [] in
    out.2 = Ok tt /\ gc_removed out.1 = [store ++ L "/garbage"]) [gcReturnDead; gcReturnLive].
Proof. repeat constructor; by vm_compute. Qed.
