(* ===== verification/References.v ===== *)
(** * Reference scanning and rewriting (libutil/references.cc,
    libstore/path-references.cc)

    The scanner for hash parts with its skipping search, the sinks that scan
    and rewrite a stream chunk by chunk, and the hash modulo a string. *)

From S2P Require Import Prelude.
From S2P Require Import Containers.
From S2P Require Import Strings.
From S2P Require Import Hash.
From S2P Require Import CanonPath.
From S2P Require Import StorePath.
From S2P Require Import ContentAddress.
From S2P Require Import PathInfo.
From S2P Require Import Fso.
From S2P Require Import Nar.

(** ** The search *)

Definition refLength : nat := 32.
Definition isBase32 (c : ascii) : bool := one_of nix32Chars c.

(** The inner loop, from the end of the window at [i]: the offset of the last
    character that is not in the alphabet. *)
Fixpoint last_bad (n : nat) (s : bytes) (i : nat) : option nat :=
  match n with
  | 0 => None
  | S j => if isBase32 (nth (i + j) s NUL) then last_bad j s i else Some j
  end.

Fixpoint search_loop (fuel : nat) (s : bytes) (i : nat) (hashes seen : list bytes) : list bytes * list bytes :=
  match fuel with
  | 0 => (hashes, seen)
  | S fuel =>
      if i + refLength <=? length s then
        match last_bad refLength s i with
        | Some j => search_loop fuel s (i + (j + 1)) hashes seen
        | None =>
            let ref := take refLength (drop i s) in
            if sset_mem ref hashes
            then search_loop fuel s (i + 1) (sset_erase ref hashes) (sset_insert ref seen)
            else search_loop fuel s (i + 1) hashes seen
        end
      else (hashes, seen)
  end.

(** The position grows in every iteration. *)
Definition search (s : bytes) (hashes seen : list bytes) : list bytes * list bytes :=
  search_loop (S (length s)) s 0 hashes seen.

(** ** [RefScanSink] *)

Record RefScanSink := mkRefScanSink {
  rs_hashes : list bytes;
  rs_seen : list bytes;
  rs_tail : bytes;
}.

Definition ref_scan_init (hashes : list bytes) : RefScanSink := mkRefScanSink hashes [] [].

Definition ref_scan (this : RefScanSink) (data : bytes) : RefScanSink :=
  let tailLen := length data `min` refLength in
  let s := rs_tail this ++ take tailLen data in
  let '(hashes, seen) := search s (rs_hashes this) (rs_seen this) in
  let '(hashes, seen) := search data hashes seen in
  let rest := refLength - tailLen in
  let tail := if rest <? length (rs_tail this) then drop (length (rs_tail this) - rest) (rs_tail this) else rs_tail this in
  mkRefScanSink hashes seen (tail ++ drop (length data - tailLen) data).

(** ** [PathRefScanSink] *)

Fixpoint fromPaths_loop (refs : list StorePath) (hashes : list bytes) (backMap : list (bytes * StorePath)) :
    result (list bytes * list (bytes * StorePath)) :=
  match refs with
  | [] => Ok (hashes, backMap)
  | i :: refs =>
      let hashPart := sp_hashPart i in
      assert_ (bool_decide (smap_lookup hashPart backMap = None)) ;;;
      fromPaths_loop refs (sset_insert hashPart hashes) (smap_insert hashPart i backMap)
  end.
Definition fromPaths (refs : list StorePath) : result (list bytes * list (bytes * StorePath)) := fromPaths_loop refs [] [].

Fixpoint getResultPaths_loop (backMap : list (bytes * StorePath)) (seen : list bytes) (found : list StorePath) :
    result (list StorePath) :=
  match seen with
  | [] => Ok found
  | i :: seen =>
      match smap_lookup i backMap with
      | None => Err AssertFailed
      | Some p => getResultPaths_loop backMap seen (sset_insert p found)
      end
  end.
Definition getResultPaths (backMap : list (bytes * StorePath)) (this : RefScanSink) : result (list StorePath) :=
  getResultPaths_loop backMap (rs_seen this) [].

(** [scanForReferences]: the archive goes to the scanner and to the other
    sink, whose input is returned too. *)
Definition scanForReferences {A} `{SourceAccessor A} (acc : A) (useCaseHack : bool) (fuel : nat) (path : bytes)
    (refs : list StorePath) : result (list StorePath * list bytes) :=
  let* (hashes, backMap) := fromPaths refs in
  let* chunks := dumpPath acc useCaseHack (fun _ => true) fuel path in
  let* found := getResultPaths backMap (foldl ref_scan (ref_scan_init hashes) chunks) in
  Ok (found, chunks).

(** ** [RewritingSink], writing to a sink that collects its input *)

Record RewritingSink := mkRewritingSink {
  rw_rewrites : list (bytes * bytes);
  rw_maxRewriteSize : nat;
  rw_prev : bytes;
  rw_pos : Z;
  rw_matches : list Z;
  rw_next : bytes;
}.

Definition rewriting_init (rewrites : list (bytes * bytes)) : result RewritingSink :=
  assert_ (forallb (fun r => length r.1 =? length r.2) rewrites) ;;;
  Ok (mkRewritingSink rewrites (foldl (fun m r => Nat.max m (length r.1)) 0 rewrites) [] 0 [] []).

(** A rewrite of equal length ends within the length of its subject
    ([Strings.rewrite_loop_total]). *)
Definition rewriteStrings (s : bytes) (rewrites : list (bytes * bytes)) : result bytes :=
  match rewriteStrings_fuel (S (length s)) s rewrites with Some r => Ok r | None => Err OutOfFuel end.

Definition rewriting_write (this : RewritingSink) (data : bytes) : result RewritingSink :=
  let* s := rewriteStrings (rw_prev this ++ data) (rw_rewrites this) in
  let m := rw_maxRewriteSize this in
  let prev := if length s <? m then s else if m =? 0 then [] else take (m - 1) (drop (length s - m + 1) s) in
  let consumed := length s - length prev in
  Ok (mkRewritingSink (rw_rewrites this) m prev (u64 (rw_pos this + Z.of_nat consumed)) (rw_matches this)
        (rw_next this ++ take consumed s)).

Definition rewriting_flush (this : RewritingSink) : RewritingSink :=
  if bool_decide (rw_prev this = []) then this
  else mkRewritingSink (rw_rewrites this) (rw_maxRewriteSize this) [] (u64 (rw_pos this + Z.of_nat (length (rw_prev this))))
         (rw_matches this) (rw_next this ++ rw_prev this).

Fixpoint rewriting_all (this : RewritingSink) (chunks : list bytes) : result RewritingSink :=
  match chunks with
  | [] => Ok this
  | data :: chunks => let* this := rewriting_write this data in rewriting_all this chunks
  end.

(** ** [HashModuloSink] *)

(** [HashSink] hashes the concatenation of what it is given. *)
Definition hashModulo `{Digest} (xp : xpSettings) (ha : HashAlgorithm) (modulus : bytes)
    (chunks : list bytes) : result (Hash * Z) :=
  let* this := rewriting_init [(modulus, replicate (length modulus) NUL)] in
  let* this := rewriting_all this chunks in
  let this := rewriting_flush this in
  let* h := hashString xp ha (rw_next this ++ concat ((fun pos => L "|" ++ to_string_u64 pos) <$> rw_matches this)) in
  Ok (h, rw_pos this).

(** ** The search finds every occurrence *)

(** [x] is a string of 32 characters of the alphabet that occurs at [k]. *)
Definition hit (s : bytes) (k : nat) (x : bytes) : Prop :=
  length x = refLength /\ forallb isBase32 x = true /\ take refLength (drop k s) = x.
Definition found_from (s : bytes) (i : nat) (x : bytes) : Prop := exists k, i <= k /\ hit s k x.

Lemma last_bad_Some n s i j : last_bad n s i = Some j -> j < n /\ isBase32 (nth (i + j) s NUL) = false.
Proof.
  induction n as [|n IH]; [done|]. cbn [last_bad]. destruct (isBase32 (nth (i + n) s NUL)) eqn:E.
  - intros Hl. destruct (IH Hl). split; [lia|done].
  - intros [= <-]. split; [lia|done].
Qed.

Lemma last_bad_None n s i : last_bad n s i = None -> forall j, j < n -> isBase32 (nth (i + j) s NUL) = true.
Proof.
  induction n as [|n IH]; [lia|]. cbn [last_bad]. destruct (isBase32 (nth (i + n) s NUL)) eqn:E; [|done].
  intros Hl j Hj. destruct (decide (j = n)) as [->|]; [done|]. apply IH; [done|lia].
Qed.

Lemma hit_bound s k x : hit s k x -> k + refLength <= length s.
Proof.
  intros (Hl & _ & E). apply (f_equal length) in E. rewrite length_take, length_drop, Hl in E. unfold refLength in *. lia.
Qed.

Lemma hit_char s k x j : hit s k x -> k <= j -> j < k + refLength -> isBase32 (nth j s NUL) = true.
Proof.
  intros Hh Hk Hj. pose proof (hit_bound _ _ _ Hh) as Hb. destruct Hh as (Hl & Hall & E).
  rewrite forallb_forall in Hall. apply Hall. rewrite <- E. apply list_elem_of_In, list_elem_of_lookup.
  exists (j - k). rewrite lookup_take_lt by lia. rewrite lookup_drop. replace (k + (j - k)) with j by lia.
  destruct (lookup_lt_is_Some_2 s j) as [c Hc]; [lia|]. by rewrite (nth_lookup_Some _ _ NUL _ Hc).
Qed.

Lemma found_from_skip s i j x :
  j < refLength -> isBase32 (nth (i + j) s NUL) = false -> found_from s i x <-> found_from s (i + (j + 1)) x.
Proof.
  intros Hj Hbad. split; intros (k & Hk & Hh); [|exists k; split; [lia|done]].
  exists k. split; [|done]. destruct (decide (i + (j + 1) <= k)) as [?|Hlt]; [done|]. exfalso.
  rewrite (hit_char s k x (i + j) Hh) in Hbad; [done|lia|lia].
Qed.

Lemma found_from_window s i x :
  last_bad refLength s i = None -> i + refLength <= length s ->
  found_from s i x <-> x = take refLength (drop i s) \/ found_from s (i + 1) x.
Proof.
  intros Hbad Hlen. split.
  - intros (k & Hk & Hh). destruct (decide (k = i)) as [->|]; [left; symmetry; apply Hh|right]. exists k. split; [lia|done].
  - intros [->|(k & Hk & Hh)]; [|exists k; split; [lia|done]]. exists i. split; [done|].
    split; [rewrite length_take, length_drop; unfold refLength in *; lia|]. split; [|done].
    apply forallb_forall. intros c Hc. apply list_elem_of_In, list_elem_of_lookup in Hc as [n Hn].
    pose proof (lookup_lt_Some _ _ _ Hn) as Hlt. rewrite length_take in Hlt. rewrite lookup_take_lt, lookup_drop in Hn by lia.
    rewrite <- (nth_lookup_Some _ _ NUL _ Hn). apply (last_bad_None refLength); [done|lia].
Qed.

Lemma search_loop_spec fuel s : forall i hashes seen,
  length s - i < fuel -> sset_wf seen ->
  let '(hashes', seen') := search_loop fuel s i hashes seen in
  sset_wf seen' /\ (forall x, x ∈ seen' <-> x ∈ seen \/ (x ∈ hashes /\ found_from s i x)) /\
  (forall x, x ∈ hashes' <-> x ∈ hashes /\ ~ found_from s i x).
Proof.
  induction fuel as [|fuel IH]; intros i hashes seen Hf Hs; [lia|]. cbn [search_loop].
  destruct (Nat.leb_spec (i + refLength) (length s)) as [Hle|Hgt].
  2: { assert (forall x, ~ found_from s i x) as Hno.
       { intros x (k & Hk & Hh%hit_bound). lia. }
       split; [done|]. split; intros x; specialize (Hno x); tauto. }
  destruct (last_bad refLength s i) as [j|] eqn:Eb.
  - destruct (last_bad_Some _ _ _ _ Eb) as [Hj Hbad]. specialize (IH (i + (j + 1)) hashes seen ltac:(lia) Hs).
    destruct (search_loop _ _ _ _ _) as [h' s']. destruct IH as (? & I1 & I2).
    split; [done|]. split; intros x; rewrite (found_from_skip s i j x Hj Hbad); [apply I1|apply I2].
  - set (ref := take refLength (drop i s)).
    pose proof (fun x => found_from_window s i x Eb Hle) as Hw. fold ref in Hw. unfold sset_mem. case_bool_decide as Hm.
    + specialize (IH (i + 1) (sset_erase ref hashes) (sset_insert ref seen)).
      specialize (IH ltac:(unfold refLength in *; lia) (sset_insert_wf _ _ Hs)).
      destruct (search_loop _ _ _ _ _) as [h' s']. destruct IH as (? & I1 & I2). split; [done|].
      split; intros x; rewrite ?I1, ?I2, Hw, ?sset_insert_elem, ?sset_erase_elem; destruct (decide (x = ref)) as [->|]; tauto.
    + specialize (IH (i + 1) hashes seen ltac:(unfold refLength in *; lia) Hs).
      destruct (search_loop _ _ _ _ _) as [h' s']. destruct IH as (? & I1 & I2). split; [done|].
      split; intros x; rewrite ?I1, ?I2, Hw; destruct (decide (x = ref)) as [->|]; tauto.
Qed.

(** A reference that occurs in a string. *)
Definition occurs (s x : bytes) : Prop :=
  length x = refLength /\ forallb isBase32 x = true /\ exists pre post, s = pre ++ x ++ post.

Lemma found_occurs s x : found_from s 0 x <-> occurs s x.
Proof.
  split.
  - intros (k & _ & Hl & Hb & E). split; [done|]. split; [done|]. exists (take k s), (drop refLength (drop k s)).
    by rewrite <- E, take_drop, take_drop.
  - intros (Hl & Hb & pre & post & ->). exists (length pre). split; [lia|]. split; [done|]. split; [done|].
    by rewrite drop_app_length, <- Hl, take_app_length.
Qed.

Lemma search_spec s hashes seen :
  sset_wf seen ->
  let '(hashes', seen') := search s hashes seen in
  sset_wf seen' /\ (forall x, x ∈ seen' <-> x ∈ seen \/ (x ∈ hashes /\ occurs s x)) /\
  (forall x, x ∈ hashes' <-> x ∈ hashes /\ ~ occurs s x).
Proof.
  intros Hs. unfold search. pose proof (search_loop_spec (S (length s)) s 0 hashes seen ltac:(lia) Hs) as Hl.
  destruct (search_loop _ _ _ _ _) as [h' s']. destruct Hl as (? & H1 & H2).
  split; [done|]. split; intros x; rewrite ?H1, ?H2, found_occurs; done.
Qed.

(** ** Scanning a stream *)

Definition last_n (n : nat) (s : bytes) : bytes := drop (length s - n) s.

(** An occurrence inside a window of a string. *)
Lemma infix_window (A W B pre x post : bytes) :
  A ++ W ++ B = pre ++ x ++ post -> length A <= length pre -> length pre + length x <= length A + length W ->
  exists pre' post', W = pre' ++ x ++ post'.
Proof.
  intros E Hp Hx. exists (drop (length A) pre), (take (length A + length W - length pre - length x) post).
  assert (W = take (length W) (drop (length A) (A ++ W ++ B))) as HW by by rewrite drop_app_length, take_app_length.
  rewrite HW at 1. rewrite E, drop_app_le by done.
  rewrite take_app_ge, length_drop by (rewrite length_drop; lia). f_equal. rewrite take_app_ge by lia. do 2 f_equal. lia.
Qed.

(** An occurrence in a longer stream: it was there, lies in the new data, or
    spans the boundary. *)
Lemma occurs_app s data x :
  occurs (s ++ data) x <->
  occurs s x \/ occurs (last_n refLength s ++ take (length data `min` refLength) data) x \/ occurs data x.
Proof.
  unfold occurs. split.
  - intros (Hl & Hb & pre & post & E). destruct (decide (length s <= length pre)) as [Hpre|Hpre].
    { right. right. split; [done|]. split; [done|]. apply (infix_window s data [] pre x post); [by rewrite app_nil_r|done|].
      apply (f_equal length) in E. rewrite !length_app in E. lia. }
    destruct (decide (length pre + refLength <= length s)) as [Hin|Hout].
    { left. split; [done|]. split; [done|]. apply (infix_window [] s data pre x post); [done|cbn; lia|cbn; lia]. }
    right. left. split; [done|]. split; [done|].
    apply (infix_window (take (length s - refLength) s) _ (drop (length data `min` refLength) data) pre x post).
    + unfold last_n. by rewrite <- app_assoc, take_drop, app_assoc, take_drop.
    + rewrite length_take. lia.
    + apply (f_equal length) in E. unfold last_n. rewrite !length_app, !length_take, length_drop in *. lia.
  - intros [(Hl & Hb & pre & post & ->)|[(Hl & Hb & pre & post & E)|(Hl & Hb & pre & post & ->)]]; (split; [done|]); (split; [done|]).
    + exists pre, (post ++ data). by rewrite <- !app_assoc.
    + exists (take (length s - refLength) s ++ pre), (post ++ drop (length data `min` refLength) data).
      transitivity (take (length s - refLength) s ++ (last_n refLength s ++ take (length data `min` refLength) data)
        ++ drop (length data `min` refLength) data).
      * unfold last_n. by rewrite <- app_assoc, take_drop, app_assoc, take_drop.
      * by rewrite E, <- !app_assoc.
    + exists (s ++ pre), post. by rewrite <- app_assoc.
Qed.

(** The tail is the end of the stream. *)
Lemma tail_spec s data :
  let tailLen := length data `min` refLength in
  let rest := refLength - tailLen in
  let tail := last_n refLength s in
  (if rest <? length tail then drop (length tail - rest) tail else tail) ++ drop (length data - tailLen) data
  = last_n refLength (s ++ data).
Proof.
  cbv zeta. unfold last_n. rewrite length_drop, length_app.
  destruct (decide (refLength <= length data)) as [Hd|Hd].
  - replace (length data `min` refLength) with refLength by lia. rewrite Nat.sub_diag.
    rewrite (drop_app_ge s data) by lia. replace (length s + length data - refLength - length s) with (length data - refLength) by lia.
    destruct (Nat.ltb_spec 0 (length s - (length s - refLength))) as [?|?].
    + by rewrite (drop_ge (drop _ s)) by (rewrite length_drop; lia).
    + by rewrite (drop_ge s) by lia.
  - replace (length data `min` refLength) with (length data) by lia. rewrite Nat.sub_diag. cbn [drop].
    rewrite (drop_app_le s data) by lia. f_equal.
    destruct (Nat.ltb_spec (refLength - length data) (length s - (length s - refLength))) as [?|?].
    + rewrite drop_drop. f_equal. lia.
    + f_equal. lia.
Qed.

(** The invariant of the scanner after the stream [s]. *)
Record scan_ok (hashes0 : list bytes) (s : bytes) (this : RefScanSink) : Prop := {
  sk_wf : sset_wf (rs_seen this);
  sk_seen x : x ∈ rs_seen this <-> x ∈ hashes0 /\ occurs s x;
  sk_hashes x : x ∈ rs_hashes this <-> x ∈ hashes0 /\ ~ occurs s x;
  sk_tail : rs_tail this = last_n refLength s;
}.

Lemma occurs_dec s x : {occurs s x} + {~ occurs s x}.
Proof.
  destruct (decide (length x = refLength /\ forallb isBase32 x = true)) as [[Hl Hb]|Hno].
  - destruct (find_sub x s) as [i|] eqn:E.
    + left. split; [done|]. split; [done|]. apply find_sub_Some in E as (pre & post & -> & _). by exists pre, post.
    + right. intros (_ & _ & pre & post & Hs). by apply (proj1 (find_sub_None x s) E pre post).
  - right. intros (Hl & Hb & _). by apply Hno.
Qed.

Lemma ref_scan_ok hashes0 s this data : scan_ok hashes0 s this -> scan_ok hashes0 (s ++ data) (ref_scan this data).
Proof.
  intros [Hwf Hseen Hhash Htail]. unfold ref_scan. rewrite Htail.
  pose proof (search_spec (last_n refLength s ++ take (length data `min` refLength) data) (rs_hashes this) (rs_seen this) Hwf) as H1.
  destruct (search _ _ _) as [h1 s1]. destruct H1 as (Hw1 & S1 & X1).
  pose proof (search_spec data h1 s1 Hw1) as H2. destruct (search data h1 s1) as [h2 s2]. destruct H2 as (Hw2 & S2 & X2).
  split; cbn [rs_seen rs_hashes rs_tail]; [done|..|apply tail_spec].
  - intros x. rewrite S2, S1, X1, Hseen, Hhash, (occurs_app s data).
    destruct (occurs_dec s x), (occurs_dec (last_n refLength s ++ take (length data `min` refLength) data) x); tauto.
  - intros x. rewrite X2, X1, Hhash, (occurs_app s data). tauto.
Qed.

Lemma ref_scan_all hashes0 chunks s this :
  scan_ok hashes0 s this -> scan_ok hashes0 (s ++ concat chunks) (foldl ref_scan this chunks).
Proof.
  revert s this. induction chunks as [|c chunks IH]; intros s this Hs; cbn [foldl concat]; [by rewrite app_nil_r|].
  rewrite app_assoc. by apply IH, ref_scan_ok.
Qed.

Lemma scan_init_ok hashes0 : scan_ok hashes0 [] (ref_scan_init hashes0).
Proof.
  assert (Hno : forall x, ~ occurs [] x).
  { intros x (Hl & _ & pre & post & E). destruct pre, x; done. }
  split; cbn; [constructor| | |done]; intros x; rewrite ?elem_of_nil; specialize (Hno x); tauto.
Qed.

(** C17: the scanner finds exactly the references that occur in the stream,
    however the stream is cut into chunks: of the hashes it was given, those
    of 32 characters of the alphabet that are a substring of the
    concatenation. Skipping windows with a foreign character loses none, and
    none is lost at a boundary. *)
Theorem RefScanSink_exact (hashes : list bytes) (chunks : list bytes) x :
  x ∈ rs_seen (foldl ref_scan (ref_scan_init hashes) chunks) <-> x ∈ hashes /\ occurs (concat chunks) x.
Proof. apply (sk_seen hashes (concat chunks)). apply (ref_scan_all hashes chunks []). apply scan_init_ok. Qed.

(** ** Scanning an archive *)

Lemma fromPaths_loop_spec refs : forall hashes backMap h b,
  fromPaths_loop refs hashes backMap = Ok (h, b) ->
  (forall x, x ∈ hashes <-> is_Some (smap_lookup x backMap)) ->
  (forall x, x ∈ h <-> is_Some (smap_lookup x b)) /\
  (forall x p, smap_lookup x b = Some p <-> smap_lookup x backMap = Some p \/ (p ∈ refs /\ sp_hashPart p = x)).
Proof.
  induction refs as [|i refs IH]; intros hashes backMap h b; cbn [fromPaths_loop].
  { intros [= <- <-] Hx. split; [done|]. intros x p. rewrite elem_of_nil. naive_solver. }
  intros Hl Hx. destruct (bool_decide (smap_lookup (sp_hashPart i) backMap = None)) eqn:En; [|done].
  apply bool_decide_eq_true in En. cbn [assert_ rbind] in Hl. destruct (IH _ _ _ _ Hl) as [H1 H2].
  { intros x. rewrite sset_insert_elem, Hx. destruct (decide (x = sp_hashPart i)) as [->|Hne].
    - rewrite smap_lookup_insert_eq. split; [by eexists|by left].
    - rewrite smap_lookup_insert_ne by done. naive_solver. }
  split; [done|]. intros x p. rewrite H2, elem_of_cons. destruct (decide (x = sp_hashPart i)) as [->|Hne].
  - rewrite smap_lookup_insert_eq, En. split.
    + intros [[= <-]|[? ?]]; right; auto.
    + intros [?|[[->|?] ?]]; [done|by left|by right].
  - rewrite smap_lookup_insert_ne by done. naive_solver.
Qed.

Lemma getResultPaths_loop_spec b seen : forall found,
  (forall x, x ∈ seen -> is_Some (smap_lookup x b)) ->
  exists l, getResultPaths_loop b seen found = Ok l /\
    forall p, p ∈ l <-> p ∈ found \/ exists x, x ∈ seen /\ smap_lookup x b = Some p.
Proof.
  induction seen as [|i seen IH]; intros found Hs; cbn [getResultPaths_loop].
  { exists found. split; [done|]. intros p. split; [by left|]. intros [?|(x & Hx & _)]; [done|by apply elem_of_nil in Hx]. }
  destruct (Hs i (list_elem_of_here _ _)) as [q Hq]. rewrite Hq.
  destruct (IH (sset_insert q found)) as (l & Hl & Hin); [intros x Hx; by apply Hs, list_elem_of_further|].
  exists l. split; [done|]. intros p. rewrite Hin, sset_insert_elem. setoid_rewrite elem_of_cons. naive_solver congruence.
Qed.

(** C18: the references found in a file system object are exactly the
    candidates whose hash part occurs in its archive, and the archive itself
    reaches the other sink unchanged; the result never fails once the archive
    is written and no two candidates share a hash part. *)
Theorem scanForReferences_exact {A} `{SourceAccessor A} (acc : A) useCaseHack fuel path refs hashes backMap chunks :
  fromPaths refs = Ok (hashes, backMap) -> dumpPath acc useCaseHack (fun _ => true) fuel path = Ok chunks ->
  exists found, scanForReferences acc useCaseHack fuel path refs = Ok (found, chunks) /\
    forall p, p ∈ found <-> p ∈ refs /\ occurs (concat chunks) (sp_hashPart p).
Proof.
  intros Hf Hd. destruct (fromPaths_loop_spec refs [] [] hashes backMap Hf) as [H1 H2].
  { intros x. rewrite elem_of_nil. split; [done|]. by intros [? ?]. }
  pose proof (ref_scan_all hashes chunks [] _ (scan_init_ok hashes)) as [_ Hseen _ _]. cbn [app] in Hseen.
  unfold scanForReferences. rewrite Hf, Hd. cbn [rbind].
  destruct (getResultPaths_loop_spec backMap (rs_seen (foldl ref_scan (ref_scan_init hashes) chunks)) []) as (l & Hl & Hin).
  { intros x Hx. apply H1. by apply Hseen in Hx as [? _]. }
  exists l. unfold getResultPaths. rewrite Hl. split; [done|]. intros p. rewrite Hin, elem_of_nil. split.
  - intros [[]|(x & Hx & Hp)]. apply Hseen in Hx as [_ Hx]. apply H2 in Hp as [?|[? <-]]; done.
  - intros [Hp Ho]. right. exists (sp_hashPart p). assert (smap_lookup (sp_hashPart p) backMap = Some p) as Hb.
    { apply H2. right. done. }
    split; [|done]. apply Hseen. split; [|done]. apply H1. by eexists.
Qed.

(** ** Rewriting a stream *)

Section rewriting.
Context (from to : bytes).
Hypothesis from_ne : from <> [].
Hypothesis same_length : length to = length from.
Hypothesis disjoint : Forall (fun c => c ∉ from) to.

(** The leftmost occurrences replaced, from left to right. *)
Inductive rw : bytes -> bytes -> Prop :=
| rw_none s : find_sub from s = None -> rw s s
| rw_some s i r : find_sub from s = Some i -> rw (drop (i + length from) s) r -> rw s (take i s ++ to ++ r).

Lemma rw_det s r r' : rw s r -> rw s r' -> r = r'.
Proof.
  intros Hr. revert r'. induction Hr as [s Hn|s i r Hi Hr IH]; intros r' Hr'; inversion Hr'; subst; try congruence.
  assert (i0 = i) as -> by congruence. do 2 f_equal. by apply IH.
Qed.

Lemma rw_length s r : rw s r -> length r = length s.
Proof.
  induction 1 as [|s i r Hi Hr IH]; [done|]. rewrite !length_app, IH, same_length, length_take, length_drop.
  apply find_sub_Some in Hi as (pre & post & -> & <-). rewrite !length_app. lia.
Qed.

(** No occurrence starts in a prefix. *)
Definition no_start (u x : bytes) : Prop := forall k, k < length u -> starts_with (drop k (u ++ x)) from = false.

Lemma find_sub_skip u x : no_start u x -> find_sub from (u ++ x) = (fun i => length u + i) <$> find_sub from x.
Proof.
  induction u as [|c u IH]; intros Hn; [cbn; by destruct (find_sub from x)|]. cbn [app find_sub].
  specialize (Hn 0 ltac:(cbn; lia)) as H0. cbn [drop app] in H0. rewrite H0, IH.
  - by destruct (find_sub from x).
  - intros k Hk. apply (Hn (S k)). cbn. lia.
Qed.

Lemma rw_skip u x y : no_start u x -> rw x y -> rw (u ++ x) (u ++ y).
Proof.
  intros Hn Hr. pose proof (find_sub_skip u x Hn) as Hf. destruct Hr as [x Hx|x i r Hi Hr].
  - apply rw_none. by rewrite Hf, Hx.
  - rewrite Hi in Hf. cbn in Hf. replace (u ++ take i x ++ to ++ r) with (take (length u + i) (u ++ x) ++ to ++ r).
    + apply rw_some; [done|]. replace (length u + i + length from) with (length u + (i + length from)) by lia.
      by rewrite drop_app_add.
    + by rewrite take_app_add, <- app_assoc.
Qed.

Lemma starts_with_head s c : starts_with (c :: s) from = true -> c ∈ from.
Proof.
  intros [t Ht]%starts_with_spec. destruct from as [|d from']; [done|]. injection Ht as -> _. apply list_elem_of_here.
Qed.

(** No occurrence starts in a piece of the replacement. *)
Lemma no_start_to p x : Forall (fun c => c ∉ from) p -> no_start p x.
Proof.
  intros Hp k Hk. apply not_true_iff_false. intros Hs. destruct (drop k (p ++ x)) as [|c r] eqn:E.
  { apply (f_equal length) in E. rewrite length_drop, length_app in E. cbn in E. lia. }
  apply starts_with_head in Hs. assert (p !! k = Some c) as Hc.
  { apply (f_equal (fun l => l !! 0)) in E. rewrite lookup_drop, Nat.add_0_r, lookup_app_l in E by done. done. }
  rewrite Forall_forall in Hp. by apply (Hp c (list_elem_of_lookup_2 _ _ _ Hc)).
Qed.

Lemma rw_total s : exists r, rw s r.
Proof.
  remember (length s) as n eqn:En. revert s En. induction n as [n IH] using lt_wf_ind. intros s En.
  destruct (find_sub from s) as [i|] eqn:Ei; [|exists s; by apply rw_none].
  assert (0 < length from) by (destruct from; [done|cbn; lia]).
  destruct (IH (length (drop (i + length from) s))) with (s := drop (i + length from) s) as [r Hr]; [|done|].
  - rewrite length_drop. apply find_sub_Some in Ei as (pre & post & -> & <-). rewrite !length_app in *. lia.
  - exists (take i s ++ to ++ r). by apply rw_some.
Qed.

(** The loop of [rewriteStrings] computes it. *)
Lemma rewrite_loop_rw fuel : forall s j r,
  rewrite_loop fuel s from to j = Some r -> j <= length s -> exists y, r = take j s ++ y /\ rw (drop j s) y.
Proof.
  induction fuel as [|fuel IH]; intros s j r; [done|]. cbn [rewrite_loop].
  destruct (find_from (find_sub from) s j) as [k|] eqn:Ek.
  - intros Hr Hj. pose proof Ek as Ek'. unfold find_from in Ek. apply fmap_Some in Ek as (i & Hi & ->).
    apply find_from_occurrence in Ek' as (post & Hd & Hk); [|done].
    destruct (IH _ _ _ Hr) as (y & -> & Hy); [rewrite (length_replace_at s (j + i) from to) by done; lia|].
    rewrite drop_replace_at in Hy by lia.
    destruct (rw_total (drop (j + i + length from) s)) as [y' Hy'].
    pose proof (rw_det _ _ _ Hy (rw_skip to _ _ (no_start_to to _ disjoint) Hy')) as ->.
    exists (take i (drop j s) ++ to ++ y'). split.
    + unfold replace_at. rewrite take_app_le, take_take by (rewrite length_take; lia).
      by rewrite Nat.min_id, <- take_take_drop, <- app_assoc.
    + apply rw_some; [done|]. rewrite drop_drop. by replace (j + (i + length from)) with (j + i + length from) by lia.
  - intros [= <-] Hj. exists (drop j s). split; [by rewrite take_drop|]. apply rw_none. unfold find_from in Ek.
    by apply fmap_None in Ek.
Qed.

Lemma rewriteStrings_rw s : exists r, rewriteStrings s [(from, to)] = Ok r /\ rw s r.
Proof.
  assert (from <> to) as Hne.
  { intros E. destruct from as [|c f] eqn:Ef; [done|]. rewrite <- E in disjoint. apply Forall_inv in disjoint.
    apply disjoint, list_elem_of_here. }
  destruct (rewrite_loop_total from to s 0 (S (length s))) as (r & Hr & _); [done|done|lia|].
  exists r. unfold rewriteStrings. cbn [rewriteStrings_fuel]. rewrite bool_decide_false by done. rewrite Hr. split; [done|].
  destruct (rewrite_loop_rw _ _ _ _ Hr) as (y & -> & Hy); [lia|]. done.
Qed.

Lemma starts_with_window s x k : k + length from <= length s -> starts_with (drop k (s ++ x)) from = starts_with (drop k s) from.
Proof.
  intros Hk. rewrite !starts_with_take. apply bool_decide_ext.
  rewrite drop_app_le, take_app_le by (rewrite ?length_drop; lia). done.
Qed.

Lemma find_sub_None_starts s k : find_sub from s = None -> starts_with (drop k s) from = false.
Proof.
  intros Hn. apply not_true_iff_false. intros [t Ht]%starts_with_spec.
  apply (proj1 (find_sub_None from s) Hn (take k s) t). by rewrite <- Ht, take_drop.
Qed.

Lemma find_sub_bound s i : find_sub from s = Some i -> i + length from <= length s.
Proof. intros (pre & post & -> & <-)%find_sub_Some. rewrite !length_app. lia. Qed.

(** Rewriting more of a stream only concerns the end that is kept back: its
    last [length from - 1] characters. *)
Lemma rw_stream s T E P d y :
  rw s T -> T = E ++ P -> length P < length from -> (E = [] \/ S (length P) = length from) ->
  rw (P ++ d) y -> rw (s ++ d) (E ++ y).
Proof.
  intros HS. revert E P y. induction HS as [s Hn|s i r Hi Hr IH]; intros E P y HT HP HE Hy.
  - subst s. rewrite <- app_assoc. apply rw_skip; [|done]. intros k Hk. destruct HE as [->|HE]; [cbn in Hk; lia|].
    rewrite app_assoc, starts_with_window by (rewrite length_app; lia). by apply find_sub_None_starts.
  - pose proof (find_sub_bound _ _ Hi) as Hb. pose proof (rw_length _ _ Hr) as Hlr. rewrite length_drop in Hlr.
    assert (find_sub from (s ++ d) = Some i) as Hi' by by apply find_sub_app_Some.
    assert (forall r', rw (drop (i + length from) s ++ d) r' -> rw (s ++ d) (take i s ++ to ++ r')) as Hcons.
    { intros r' Hr'. rewrite <- (take_app_le s d i) by lia. apply rw_some; [done|]. by rewrite drop_app_le by lia. }
    assert (length E + length P = i + length from + length r) as Hlen.
    { apply (f_equal length) in HT. rewrite !length_app, length_take, same_length in HT. lia. }
    destruct (decide (length P <= length r)) as [Hle|Hgt].
    + assert (exists E', E = take i s ++ to ++ E' /\ r = E' ++ P) as (E' & -> & Hr').
      { exists (take (length r - length P) r). rewrite !app_assoc in HT |- *.
        rewrite <- (take_drop (length r - length P) r) in HT at 1. rewrite app_assoc in HT.
        apply app_inj_2 in HT as [HE1 HP1]; [|rewrite length_drop; lia]. split; [done|].
        etransitivity; [symmetry; apply (take_drop (length r - length P))|]. by rewrite HP1. }
      rewrite <- !app_assoc. apply Hcons. apply (IH E' P y Hr' HP); [|done].
      right. destruct HE as [HE|HE]; [|done]. apply (f_equal length) in HE. rewrite !length_app, same_length in HE. cbn in HE. lia.
    + assert (exists to1 p1, E = take i s ++ to1 /\ to = to1 ++ p1 /\ P = p1 ++ r) as (to1 & p1 & -> & Hto & HP1).
      { set (m := length from - (length P - length r)). exists (take m to), (drop m to).
        rewrite take_drop. rewrite <- (take_drop m to) in HT at 1. rewrite <- !app_assoc, (app_assoc (take i s)) in HT.
        apply app_inj_2 in HT as [HE1 HP1]; [done|]. rewrite length_app, length_drop. unfold m. lia. }
      assert (r = drop (i + length from) s) as Hrv.
      { apply (rw_det _ _ _ Hr), rw_none. destruct (find_sub from (drop (i + length from) s)) as [j|] eqn:Hj; [|done].
        apply find_sub_bound in Hj. rewrite length_drop in Hj. lia. }
      destruct (rw_total (drop (i + length from) s ++ d)) as [r' Hr'].
      assert (y = p1 ++ r') as ->.
      { apply (rw_det _ _ _ Hy). rewrite HP1, Hrv, <- app_assoc. apply rw_skip; [|done]. apply no_start_to.
        rewrite Hto in disjoint. by apply Forall_app in disjoint as [_ ?]. }
      rewrite <- app_assoc, (app_assoc to1), <- Hto. by apply Hcons.
Qed.

(** Nothing is left to rewrite. *)
Lemma rw_clean s r : rw s r -> find_sub from r = None.
Proof.
  induction 1 as [|s i r Hi Hr IH]; [done|]. pose proof (find_sub_bound _ _ Hi) as Hb.
  assert (length (take i s) = i) as Hlt by (rewrite length_take; lia).
  assert (Hto : find_sub from (to ++ r) = None) by by rewrite (find_sub_skip _ _ (no_start_to to r disjoint)), IH.
  rewrite find_sub_skip, Hto; [done|]. intros k Hk. rewrite Hlt in Hk.
  destruct (decide (k + length from <= i)) as [Hin|Hout].
  - rewrite starts_with_window by lia. rewrite <- (starts_with_window (take i s) (drop i s)), take_drop by lia.
    by eapply find_sub_leftmost.
  - apply not_true_iff_false. intros [t Ht]%starts_with_spec. destruct to as [|c to'] eqn:Et; [destruct from; done|].
    assert (from !! (i - k) = Some c) as Hc.
    { rewrite <- (lookup_app_l from t) by lia. rewrite <- Ht, lookup_drop, lookup_app_r by lia.
      by replace (k + (i - k) - length (take i s)) with 0 by lia. }
    apply Forall_inv in disjoint. by apply disjoint, (list_elem_of_lookup_2 _ _ _ Hc).
Qed.

Lemma rw_idempotent s r : rw s r -> rewriteStrings r [(from, to)] = Ok r.
Proof.
  intros Hr. destruct (rewriteStrings_rw r) as (r' & -> & Hr'). f_equal. apply (rw_det _ _ _ Hr').
  by apply rw_none, (rw_clean s).
Qed.

(** The state of the sink after the stream [s]. *)
Record rewriting_ok (s : bytes) (this : RewritingSink) : Prop := {
  ro_rewrites : rw_rewrites this = [(from, to)];
  ro_max : rw_maxRewriteSize this = length from;
  ro_out : rw s (rw_next this ++ rw_prev this);
  ro_prev : length (rw_prev this) < length from;
  ro_next : rw_next this = [] \/ S (length (rw_prev this)) = length from;
  ro_pos : rw_pos this = u64 (Z.of_nat (length (rw_next this)));
  ro_matches : rw_matches this = [];
}.

Lemma u64_add a b : u64 (u64 a + b) = u64 (a + b).
Proof. unfold u64. by rewrite Zplus_mod_idemp_l. Qed.

Lemma rewriting_write_ok s this data :
  rewriting_ok s this -> exists this', rewriting_write this data = Ok this' /\ rewriting_ok (s ++ data) this'.
Proof.
  intros []. assert (0 < length from) as Hn by (destruct from; [done|cbn; lia]).
  unfold rewriting_write. rewrite ro_rewrites0, ro_max0.
  destruct (rewriteStrings_rw (rw_prev this ++ data)) as (y & -> & Hy). cbn [rbind].
  pose proof (rw_stream _ _ _ _ data y ro_out0 eq_refl ro_prev0 ro_next0 Hy) as Hout.
  pose proof (rw_length _ _ Hy) as Hly. rewrite length_app in Hly.
  eexists. split; [reflexivity|]. destruct (Nat.ltb_spec (length y) (length from)) as [Hlt|Hge].
  - rewrite Nat.sub_diag. cbn [take]. rewrite app_nil_r. split; cbn; try done.
    + destruct ro_next0 as [?|?]; [by left|right]. lia.
    + by rewrite ro_pos0, u64_add, Z.add_0_r.
  - destruct (Nat.eqb_spec (length from) 0) as [?|_]; [lia|].
    set (prev' := take (length from - 1) (drop (length y - length from + 1) y)).
    assert (prev' = drop (length y - length from + 1) y) as Ep by (apply take_ge; rewrite length_drop; lia).
    assert (length prev' = length from - 1) as Hlp by (rewrite Ep, length_drop; lia).
    replace (length y - length prev') with (length y - length from + 1) by lia.
    split; cbn; try done; [by rewrite Ep, <- app_assoc, take_drop|lia|right; lia|].
    rewrite ro_pos0, u64_add. f_equal. rewrite length_app, length_take. lia.
Qed.

Lemma rewriting_all_ok chunks : forall s this,
  rewriting_ok s this -> exists this', rewriting_all this chunks = Ok this' /\ rewriting_ok (s ++ concat chunks) this'.
Proof.
  induction chunks as [|c chunks IH]; intros s this Hok; cbn [rewriting_all concat]; [exists this; by rewrite app_nil_r|].
  destruct (rewriting_write_ok s this c Hok) as (this1 & -> & Hok1). cbn [rbind]. rewrite app_assoc. by apply IH.
Qed.

Lemma rewriting_init_ok : exists this, rewriting_init [(from, to)] = Ok this /\ rewriting_ok [] this.
Proof.
  assert (0 < length from) by (destruct from; [done|cbn; lia]).
  unfold rewriting_init. cbn. rewrite same_length, Nat.eqb_refl. cbn. eexists. split; [reflexivity|].
  split; cbn; try done; [|by left]. apply rw_none. destruct from; done.
Qed.

Lemma rewriting_flush_ok s this :
  rewriting_ok s this ->
  rw s (rw_next (rewriting_flush this)) /\ rw_pos (rewriting_flush this) = u64 (Z.of_nat (length s)) /\
  rw_matches (rewriting_flush this) = [].
Proof.
  intros []. pose proof (rw_length _ _ ro_out0) as Hl. rewrite length_app in Hl.
  unfold rewriting_flush. case_bool_decide as Ep.
  - rewrite Ep in ro_out0, Hl. rewrite app_nil_r in ro_out0. split; [done|]. split; [|done]. rewrite ro_pos0. do 2 f_equal. cbn in Hl. lia.
  - cbn. split; [done|]. split; [|done]. rewrite ro_pos0, u64_add. f_equal. lia.
Qed.
End rewriting.

(** C37: rewriting a stream chunk by chunk gives what rewriting the whole
    stream at once gives, for every way of cutting it, when the replacement
    shares no character with the string it replaces; the position counts all
    bytes. *)
Theorem RewritingSink_exact (from to : bytes) (chunks : list bytes) :
  from <> [] -> length to = length from -> Forall (fun c => c ∉ from) to ->
  exists this0 this, rewriting_init [(from, to)] = Ok this0 /\ rewriting_all this0 chunks = Ok this /\
    rewriteStrings (concat chunks) [(from, to)] = Ok (rw_next (rewriting_flush this)) /\
    rw_pos (rewriting_flush this) = u64 (Z.of_nat (length (concat chunks))).
Proof.
  intros Hne Hl Hd. destruct (rewriting_init_ok from to Hne Hl Hd) as (this0 & H0 & Hok0).
  destruct (rewriting_all_ok from to Hne Hl Hd chunks [] this0 Hok0) as (this & Hall & Hok). cbn [app] in Hok.
  destruct (rewriting_flush_ok from to Hl _ _ Hok) as (Hrw & Hpos & _).
  destruct (rewriteStrings_rw from to Hne Hl Hd (concat chunks)) as (r & Hr & Hrw').
  exists this0, this. rewrite Hr, (rw_det from to _ _ _ Hrw' Hrw). done.
Qed.

Lemma RewritingSink_exact_witness :
  exists this0 this, rewriting_init [(L "aba", L "xyz")] = Ok this0 /\ rewriting_all this0 [L "ab"; L "abab"; L "ac"] = Ok this /\
    rewriteStrings (concat [L "ab"; L "abab"; L "ac"]) [(L "aba", L "xyz")] = Ok (rw_next (rewriting_flush this)) /\
    rw_pos (rewriting_flush this) = u64 (Z.of_nat (length (concat [L "ab"; L "abab"; L "ac"]))).
Proof.
  apply (RewritingSink_exact (L "aba") (L "xyz") [L "ab"; L "abab"; L "ac"]).
  - done.
  - reflexivity.
  - repeat constructor; by apply (bool_decide_unpack _).
Defined.

Section hash_modulo.
Context `{Digest} (xp : xpSettings) (ha : HashAlgorithm) (modulus : bytes).
Hypothesis modulus_ne : modulus <> [].
Hypothesis modulus_nul : NUL ∉ modulus.

Notation zeros := (replicate (length modulus) NUL).

Lemma zeros_disjoint : Forall (fun c => c ∉ modulus) zeros.
Proof. by apply Forall_replicate. Qed.

Lemma hashModulo_chunks chunks :
  hashModulo xp ha modulus chunks =
  let* s := rewriteStrings (concat chunks) [(modulus, zeros)] in
  let* h := hashString xp ha s in Ok (h, u64 (Z.of_nat (length (concat chunks)))).
Proof.
  pose proof zeros_disjoint as Hd. assert (Hl : length zeros = length modulus) by by rewrite length_replicate.
  destruct (rewriting_init_ok modulus zeros modulus_ne Hl Hd) as (this0 & H0 & Hok0).
  destruct (rewriting_all_ok modulus zeros modulus_ne Hl Hd chunks [] this0 Hok0) as (this & Hall & Hok). cbn [app] in Hok.
  destruct (rewriting_flush_ok modulus zeros Hl _ _ Hok) as (Hrw & Hpos & Hm).
  destruct (rewriteStrings_rw modulus zeros modulus_ne Hl Hd (concat chunks)) as (r & -> & Hrw').
  unfold hashModulo. rewrite H0. cbn [rbind]. rewrite Hall. cbn [rbind]. rewrite Hpos, Hm. cbn [fmap list_fmap concat].
  by rewrite app_nil_r, (rw_det _ _ _ _ _ Hrw' Hrw).
Qed.
End hash_modulo.

(** The hash modulo a string does not depend on how the data is cut into
    chunks: it is the hash of the data with the string zeroed out. *)
Theorem hashModulo_chunk_independent `{Digest} xp ha modulus chunks chunks' :
  modulus <> [] -> NUL ∉ modulus -> concat chunks = concat chunks' ->
  hashModulo xp ha modulus chunks = hashModulo xp ha modulus chunks' /\
  exists s, rewriteStrings (concat chunks) [(modulus, replicate (length modulus) NUL)] = Ok s /\
    hashModulo xp ha modulus chunks =
      let* h := hashString xp ha s in Ok (h, u64 (Z.of_nat (length (concat chunks)))).
Proof.
  intros Hne Hn E. split; [by rewrite !hashModulo_chunks, E|]. rewrite hashModulo_chunks by done.
  destruct (rewriteStrings_rw modulus (replicate (length modulus) NUL) Hne (length_replicate _ _)
    (zeros_disjoint modulus Hn) (concat chunks)) as (r & -> & _). by exists r.
Qed.

Lemma hashModulo_chunk_independent_witness :
  @hashModulo padded_digest (fun _ => false) SHA256 (L "aa") [L "xa"; L "ay"] =
  @hashModulo padded_digest (fun _ => false) SHA256 (L "aa") [L "xaay"].
Proof.
  apply (@hashModulo_chunk_independent padded_digest (fun _ => false) SHA256 (L "aa")).
  - done.
  - by apply (bool_decide_unpack _).
  - reflexivity.
Defined.

(** The positions of the occurrences are not part of the hash modulo a
    string: no position is ever recorded, so data whose occurrences were
    zeroed out beforehand has the same hash as the original. *)
Theorem hashModulo_zeroed_collision `{Digest} xp ha modulus s z :
  modulus <> [] -> NUL ∉ modulus -> rewriteStrings s [(modulus, replicate (length modulus) NUL)] = Ok z ->
  hashModulo xp ha modulus [z] = hashModulo xp ha modulus [s].
Proof.
  intros Hne Hn Hz. rewrite !hashModulo_chunks by done. cbn [concat]. rewrite !app_nil_r, Hz.
  pose proof (zeros_disjoint modulus Hn) as Hd. pose proof (length_replicate (length modulus) NUL) as Hl.
  destruct (rewriteStrings_rw modulus _ Hne Hl Hd s) as (r & Hr & Hrw). rewrite Hr in Hz. injection Hz as ->.
  rewrite (rw_idempotent modulus _ Hne Hl Hd s z Hrw), (rw_length modulus _ Hl s z Hrw). done.
Qed.

Lemma hashModulo_zeroed_collision_witness :
  @hashModulo padded_digest (fun _ => false) SHA256 (L "aa") [[NUL; NUL] ++ L "x"] =
  @hashModulo padded_digest (fun _ => false) SHA256 (L "aa") [L "aax"].
Proof.
  apply (@hashModulo_zeroed_collision padded_digest (fun _ => false) SHA256 (L "aa") (L "aax")).
  - done.
  - by apply (bool_decide_unpack _).
  - vm_compute. reflexivity.
Defined.

(** A file that mentions the first of two store paths. *)
Definition scan_file : File := Regular false (L "see /nix/store/" ++ example_base).
Definition scan_other : StorePath := mkStorePath (L "a" ++ drop 1 example_base).

Lemma scanForReferences_exact_witness :
  exists found chunks, scanForReferences scan_file false 2 [slash] [mkStorePath example_base; scan_other] = Ok (found, chunks) /\
    forall p, p ∈ found <-> p ∈ [mkStorePath example_base; scan_other] /\ occurs (concat chunks) (sp_hashPart p).
Proof.
  destruct (fromPaths [mkStorePath example_base; scan_other]) as [[h b]|] eqn:Ef; [|vm_compute in Ef; discriminate Ef].
  destruct (dumpPath scan_file false (fun _ => true) 2 [slash]) as [chunks|] eqn:Ed; [|vm_compute in Ed; discriminate Ed].
  destruct (scanForReferences_exact scan_file false 2 [slash] [mkStorePath example_base; scan_other] h b chunks Ef Ed) as (found & Hs & Hf).
  exists found, chunks. split; [exact Hs|exact Hf].
Defined.
