(* ===== verification/Worker.v ===== *)
(** * Goals and the worker (libstore/build/goal.hh, goal.cc, worker.hh, worker.cc)

    The state of the build scheduler and the operations the goals share. A
    goal is an object on a heap, addressed by a number; a [shared_ptr] or
    [weak_ptr] is an address, a destroyed goal is an address the heap no
    longer maps, and an object goes away as soon as no strong pointer is left
    ([collect]). [Goals] is ordered by the goals' keys, [WeakGoals] by address
    ([std::owner_less]).

    The classes of goals modelled so far are the two substitution goals; their
    coroutines are in the file on substitution. A coroutine is the point where
    it is suspended together with its local variables ([Co]); [top_co] is
    [None] once the goal has ended. Progress statistics, logging, error
    messages and the expected download sizes are left out. *)

From stdpp Require Import gmap.
From S2P Require Import Prelude.
From S2P Require Import Containers.
From S2P Require Import Hash.
From S2P Require Import StorePath.
From S2P Require Import ContentAddress.
From S2P Require Import PathInfo.

(** ** Data *)

Inductive ExitCode := ecBusy | ecSuccess | ecFailed | ecNoSubstituters | ecIncompleteClosure.
#[export] Instance ExitCode_eq_dec : EqDecision ExitCode.
Proof. solve_decision. Defined.

Module JobCategory.
Inductive t := Build | Substitution | Administration.
#[global] Instance eq_dec : EqDecision t.
Proof. solve_decision. Defined.
End JobCategory.

(** [BuildResult::Status]. *)
Module BuildStatus.
Inductive t :=
| Built | Substituted | AlreadyValid | PermanentFailure | InputRejected | OutputRejected
| TransientFailure | CachedFailure | TimedOut | MiscFailure | DependencyFailed
| LogLimitExceeded | NotDeterministic | ResolvesToAlreadyValid | NoSubstituters.
#[global] Instance eq_dec : EqDecision t.
Proof. solve_decision. Defined.
End BuildStatus.

Record DrvOutput := mkDrvOutput { do_drvHash : Hash; do_outputName : bytes }.
#[export] Instance DrvOutput_eq_dec : EqDecision DrvOutput.
Proof. solve_decision. Defined.

Definition strHash (d : DrvOutput) : result bytes := to_string (do_drvHash d) Base16 true.
Definition DrvOutput_to_string (d : DrvOutput) : result bytes :=
  let* h := strHash d in Ok (h ++ L "!" ++ do_outputName d).

Record Realisation := mkRealisation {
  rl_id : DrvOutput;
  rl_outPath : StorePath;
  rl_signatures : list bytes;
  rl_dependentRealisations : list (DrvOutput * StorePath);
}.

(** What a substituter answers to [queryPathInfo]. *)
Inductive info_reply :=
| InfoFound (info : ValidPathInfo)
| InfoInvalidPath
| InfoSubstituterDisabled
| InfoError.

(** Another store, asked for paths: its directory, whether it is trusted, and
    its answers. *)
Record Substituter := mkSubstituter {
  sub_storeDir : bytes;
  sub_isTrusted : bool;
  sub_queryPathInfo : StorePath -> info_reply;
  sub_queryRealisation : DrvOutput -> result (option Realisation);
}.

(** How the copying thread ends. *)
Inductive outcome := CopyDone | SubstituteGone | CopyFailed.
#[export] Instance outcome_eq_dec : EqDecision outcome.
Proof. solve_decision. Defined.

Inductive thread := Running | Finished (o : outcome).
#[export] Instance thread_eq_dec : EqDecision thread.
Proof. solve_decision. Defined.

(** The local variables of [PathSubstitutionGoal::init] and [tryToRun] while a
    substituter is being tried: the substituter, the path to copy from it, the
    info, the substituters not yet tried, and [substituterFailed]. *)
Record attempt := mkAttempt {
  at_sub : Substituter;
  at_path : StorePath;
  at_info : ValidPathInfo;
  at_rest : list Substituter;
  at_failed : bool;
}.

(** Suspension points. *)
Inductive Co :=
| Co_path_init                                (* not started *)
| Co_path_refs (a : attempt)                  (* waiting for the references *)
| Co_path_woken (a : attempt)                 (* [tryToRun], after [wakeUp(this)] *)
| Co_path_slot (a : attempt)                  (* waiting for a slot *)
| Co_path_running (a : attempt)               (* the thread is copying *)
| Co_out_init
| Co_out_query (sub : Substituter) (rest : list Substituter) (failed : bool)
| Co_out_refs (r : Realisation).

Inductive GoalClass :=
| PathSubstitution (path : StorePath) (repair : bool) (ca : option ContentAddress)
| DrvOutputSubstitution (id : DrvOutput).
#[export] Instance GoalClass_eq_dec : EqDecision GoalClass.
Proof. solve_decision. Defined.

Abbreviation gid := Z.

Record Goal := mkGoal {
  g_class : GoalClass;
  g_waitees : list (bytes * gid);
  g_waiters : list gid;
  g_nrFailed : nat;
  g_nrNoSubstituters : nat;
  g_nrIncompleteClosure : nat;
  g_exitCode : ExitCode;
  g_status : BuildStatus.t;
  g_co : option Co;
  g_thr : option thread;
}.

Definition new_goal (c : GoalClass) (co : Co) : Goal :=
  mkGoal c [] [] 0 0 0 ecBusy BuildStatus.MiscFailure (Some co) None.

Definition set_waitees (m : list (bytes * gid)) (G : Goal) : Goal :=
  mkGoal (g_class G) m (g_waiters G) (g_nrFailed G) (g_nrNoSubstituters G) (g_nrIncompleteClosure G)
    (g_exitCode G) (g_status G) (g_co G) (g_thr G).
Definition set_waiters (s : list gid) (G : Goal) : Goal :=
  mkGoal (g_class G) (g_waitees G) s (g_nrFailed G) (g_nrNoSubstituters G) (g_nrIncompleteClosure G)
    (g_exitCode G) (g_status G) (g_co G) (g_thr G).
Definition set_failures (nf ns ni : nat) (G : Goal) : Goal :=
  mkGoal (g_class G) (g_waitees G) (g_waiters G) nf ns ni
    (g_exitCode G) (g_status G) (g_co G) (g_thr G).
Definition set_exitCode (c : ExitCode) (G : Goal) : Goal :=
  mkGoal (g_class G) (g_waitees G) (g_waiters G) (g_nrFailed G) (g_nrNoSubstituters G)
    (g_nrIncompleteClosure G) c (g_status G) (g_co G) (g_thr G).
Definition set_status (s : BuildStatus.t) (G : Goal) : Goal :=
  mkGoal (g_class G) (g_waitees G) (g_waiters G) (g_nrFailed G) (g_nrNoSubstituters G)
    (g_nrIncompleteClosure G) (g_exitCode G) s (g_co G) (g_thr G).
Definition set_co (c : option Co) (G : Goal) : Goal :=
  mkGoal (g_class G) (g_waitees G) (g_waiters G) (g_nrFailed G) (g_nrNoSubstituters G)
    (g_nrIncompleteClosure G) (g_exitCode G) (g_status G) c (g_thr G).
Definition set_thr (t : option thread) (G : Goal) : Goal :=
  mkGoal (g_class G) (g_waitees G) (g_waiters G) (g_nrFailed G) (g_nrNoSubstituters G)
    (g_nrIncompleteClosure G) (g_exitCode G) (g_status G) (g_co G) t.

(** [Child]: the pipe is in [channels] until end of file was read from it
    ([ch_open]); its write side may be closed before that ([ch_closed]). *)
Record Child := mkChild {
  ch_goal : gid;
  ch_open : bool;
  ch_closed : bool;
  ch_respectTimeouts : bool;
  ch_inBuildSlot : bool;
}.

(** What the worker uses of the destination store. *)
Record StoreState := mkStoreState {
  st_valid : list StorePath;
  st_tempRoots : list StorePath;
  st_realisations : list Realisation;
}.

Record Worker := mkWorker {
  w_heap : gmap gid Goal;
  w_allocated : nat;                                  (* goals constructed so far *)
  w_topGoals : list (bytes * gid);
  w_awake : list gid;
  w_wantingToBuild : list gid;
  w_waitingForAnyGoal : list gid;
  w_waitingForAWhile : list gid;
  w_children : list Child;
  w_nrLocalBuilds : nat;
  w_nrSubstitutions : nat;
  w_substitutionGoals : list (StorePath * gid);
  w_drvOutputSubstitutionGoals : list (DrvOutput * gid);
  w_pathContentsGoodCache : list (StorePath * bool);
  w_store : StoreState;
}.

Definition set_heap (h : gmap gid Goal) (w : Worker) : Worker :=
  mkWorker h (w_allocated w) (w_topGoals w) (w_awake w) (w_wantingToBuild w) (w_waitingForAnyGoal w)
    (w_waitingForAWhile w) (w_children w) (w_nrLocalBuilds w) (w_nrSubstitutions w)
    (w_substitutionGoals w) (w_drvOutputSubstitutionGoals w) (w_pathContentsGoodCache w) (w_store w).
Definition set_topGoals (m : list (bytes * gid)) (w : Worker) : Worker :=
  mkWorker (w_heap w) (w_allocated w) m (w_awake w) (w_wantingToBuild w) (w_waitingForAnyGoal w)
    (w_waitingForAWhile w) (w_children w) (w_nrLocalBuilds w) (w_nrSubstitutions w)
    (w_substitutionGoals w) (w_drvOutputSubstitutionGoals w) (w_pathContentsGoodCache w) (w_store w).
Definition set_awake (s : list gid) (w : Worker) : Worker :=
  mkWorker (w_heap w) (w_allocated w) (w_topGoals w) s (w_wantingToBuild w) (w_waitingForAnyGoal w)
    (w_waitingForAWhile w) (w_children w) (w_nrLocalBuilds w) (w_nrSubstitutions w)
    (w_substitutionGoals w) (w_drvOutputSubstitutionGoals w) (w_pathContentsGoodCache w) (w_store w).
Definition set_wantingToBuild (s : list gid) (w : Worker) : Worker :=
  mkWorker (w_heap w) (w_allocated w) (w_topGoals w) (w_awake w) s (w_waitingForAnyGoal w)
    (w_waitingForAWhile w) (w_children w) (w_nrLocalBuilds w) (w_nrSubstitutions w)
    (w_substitutionGoals w) (w_drvOutputSubstitutionGoals w) (w_pathContentsGoodCache w) (w_store w).
Definition set_waiting (any awhile : list gid) (w : Worker) : Worker :=
  mkWorker (w_heap w) (w_allocated w) (w_topGoals w) (w_awake w) (w_wantingToBuild w) any
    awhile (w_children w) (w_nrLocalBuilds w) (w_nrSubstitutions w)
    (w_substitutionGoals w) (w_drvOutputSubstitutionGoals w) (w_pathContentsGoodCache w) (w_store w).
Definition set_children (c : list Child) (builds substs : nat) (w : Worker) : Worker :=
  mkWorker (w_heap w) (w_allocated w) (w_topGoals w) (w_awake w) (w_wantingToBuild w)
    (w_waitingForAnyGoal w) (w_waitingForAWhile w) c builds substs
    (w_substitutionGoals w) (w_drvOutputSubstitutionGoals w) (w_pathContentsGoodCache w) (w_store w).
Definition set_goalMaps (m : list (StorePath * gid)) (m' : list (DrvOutput * gid)) (w : Worker) : Worker :=
  mkWorker (w_heap w) (w_allocated w) (w_topGoals w) (w_awake w) (w_wantingToBuild w)
    (w_waitingForAnyGoal w) (w_waitingForAWhile w) (w_children w) (w_nrLocalBuilds w)
    (w_nrSubstitutions w) m m' (w_pathContentsGoodCache w) (w_store w).
Definition set_store (s : StoreState) (w : Worker) : Worker :=
  mkWorker (w_heap w) (w_allocated w) (w_topGoals w) (w_awake w) (w_wantingToBuild w)
    (w_waitingForAnyGoal w) (w_waitingForAWhile w) (w_children w) (w_nrLocalBuilds w)
    (w_nrSubstitutions w) (w_substitutionGoals w) (w_drvOutputSubstitutionGoals w)
    (w_pathContentsGoodCache w) s.

(** The settings the scheduler reads. *)
Record Settings := mkSettings {
  s_keepGoing : bool;
  s_tryFallback : bool;
  s_readOnlyMode : bool;
  s_useSubstitutes : bool;
  s_maxBuildJobs : nat;
  s_maxSubstitutionJobs : nat;
}.

(** ** Weak pointers and the heap *)

(** Maps from a path or an output to a weak pointer. *)
Fixpoint weak_lookup {K} `{EqDecision K} (k : K) (m : list (K * gid)) : option gid :=
  match m with
  | [] => None
  | (k', g) :: m => if bool_decide (k = k') then Some g else weak_lookup k m
  end.
Definition weak_insert {K} `{EqDecision K} (k : K) (g : gid) (m : list (K * gid)) : list (K * gid) :=
  (k, g) :: filter (fun kv => kv.1 <> k) m.

(** [lock() != nullptr]. *)
Definition alive (w : Worker) (g : gid) : bool := bool_decide (is_Some (w_heap w !! g)).

(** Access through a pointer. *)
Definition deref (w : Worker) (g : gid) : result Goal :=
  match w_heap w !! g with Some G => Ok G | None => Err UndefinedBehaviour end.

Definition upd (g : gid) (f : Goal -> Goal) (w : Worker) : Worker :=
  set_heap (alter f g (w_heap w)) w.

(** A strong pointer to [g] exists: a local variable holds it ([pins]), it is
    a top-level goal, or a living goal waits for it. *)
Definition strong (pins : list gid) (w : Worker) (g : gid) : bool :=
  bool_decide (g ∈ pins) || bool_decide (g ∈ (w_topGoals w).*2) ||
  existsb (fun kv => bool_decide (g ∈ (g_waitees kv.2).*2)) (map_to_list (w_heap w)).

(** The effect of the copying thread on the store. *)
Definition thread_effect (c : GoalClass) (o : outcome) (s : StoreState) : StoreState :=
  match c, o with
  | PathSubstitution p _ _, CopyDone =>
      mkStoreState (p :: st_valid s) (st_tempRoots s) (st_realisations s)
  | _, _ => s
  end.

Definition isValidPath (w : Worker) (p : StorePath) : bool := bool_decide (p ∈ st_valid (w_store w)).

(** [addToWeakGoals]. *)
Definition addToWeakGoals (goals : list gid) (g : gid) : list gid := sset_insert g goals.

Definition wakeUp (g : gid) (w : Worker) : Worker := set_awake (addToWeakGoals (w_awake w) g) w.

(** [for (auto & i : goals) if (auto g = i.lock()) wakeUp(g)]. *)
Definition wake_all (goals : list gid) (w : Worker) : Worker :=
  foldl (fun w g => if alive w g then wakeUp g w else w) w goals.

(** [std::list::erase] of the child [find_if] found. *)
Fixpoint erase_child (g : gid) (l : list Child) : option (Child * list Child) :=
  match l with
  | [] => None
  | c :: l =>
      if bool_decide (ch_goal c = g) then Some (c, l)
      else match erase_child g l with Some (c', l') => Some (c', c :: l') | None => None end
  end.

Section worker.
Context (settings : Settings) (storeDir : bytes).

(** [key()]. *)
Definition key (c : GoalClass) : bytes :=
  match c with
  | PathSubstitution p _ _ => L "a$" ++ sp_name p ++ L "$" ++ printStorePath storeDir p
  | DrvOutputSubstitution d => L "a$" ++ match DrvOutput_to_string d with Ok s => s | Err _ => [] end
  end.
Definition gkey (G : Goal) : bytes := key (g_class G).

Definition jobCategory (c : GoalClass) : JobCategory.t := JobCategory.Substitution.

(** [Goals]: a set of pointers ordered by their keys. *)
Definition goals_insert (G : Goal) (g : gid) (s : list (bytes * gid)) : list (bytes * gid) :=
  smap_emplace (gkey G) g s.
Definition goals_mem (G : Goal) (s : list (bytes * gid)) : bool := bool_decide (gkey G ∈ s.*1).
Definition goals_erase (G : Goal) (s : list (bytes * gid)) : list (bytes * gid) :=
  filter (fun kv => kv.1 <> gkey G) s.

(** ** Children *)

Definition childStarted (g : gid) (inBuildSlot respectTimeouts : bool) (w : Worker) : result Worker :=
  let* G := deref w g in
  let children := w_children w ++ [mkChild g true false respectTimeouts inBuildSlot] in
  Ok (match inBuildSlot, jobCategory (g_class G) with
      | true, JobCategory.Substitution =>
          set_children children (w_nrLocalBuilds w) (S (w_nrSubstitutions w)) w
      | true, JobCategory.Build =>
          set_children children (S (w_nrLocalBuilds w)) (w_nrSubstitutions w) w
      | _, _ => set_children children (w_nrLocalBuilds w) (w_nrSubstitutions w) w
      end).

Definition childTerminated (g : gid) (wakeSleepers : bool) (w : Worker) : result Worker :=
  match erase_child g (w_children w) with
  | None => Ok w
  | Some (c, children) =>
      let* G := deref w g in
      let* w :=
        match ch_inBuildSlot c, jobCategory (g_class G) with
        | true, JobCategory.Substitution =>
            assert_ (0 <? w_nrSubstitutions w) ;;;
            Ok (set_children children (w_nrLocalBuilds w) (w_nrSubstitutions w - 1) w)
        | true, JobCategory.Build =>
            assert_ (0 <? w_nrLocalBuilds w) ;;;
            Ok (set_children children (w_nrLocalBuilds w - 1) (w_nrSubstitutions w) w)
        | _, _ => Ok (set_children children (w_nrLocalBuilds w) (w_nrSubstitutions w) w)
        end in
      Ok (if wakeSleepers
          then set_wantingToBuild [] (wake_all (w_wantingToBuild w) w)
          else w)
  end.

Definition waitForBuildSlot (g : gid) (w : Worker) : result Worker :=
  let* G := deref w g in
  let isSubstitutionGoal := bool_decide (jobCategory (g_class G) = JobCategory.Substitution) in
  Ok (if (negb isSubstitutionGoal && (w_nrLocalBuilds w <? s_maxBuildJobs settings))
         || (isSubstitutionGoal && (w_nrSubstitutions w <? s_maxSubstitutionJobs settings))
      then wakeUp g w
      else set_wantingToBuild (addToWeakGoals (w_wantingToBuild w) g) w).

Definition waitForAnyGoal (g : gid) (w : Worker) : Worker :=
  set_waiting (addToWeakGoals (w_waitingForAnyGoal w) g) (w_waitingForAWhile w) w.
Definition waitForAWhile (g : gid) (w : Worker) : Worker :=
  set_waiting (w_waitingForAnyGoal w) (addToWeakGoals (w_waitingForAWhile w) g) w.

(** ** Destruction *)

Section pins.
(** [late] says how a thread ends that [join] has to wait for; [pins] are the
    goals held by local variables of the callers. *)
Context (late : gid -> outcome).

(** [thr.join()]: the outcome of the thread, if there was one. *)
Definition join (g : gid) (G : Goal) (w : Worker) : option outcome * Worker :=
  match g_thr G with
  | None => (None, w)
  | Some (Finished o) => (Some o, upd g (set_thr None) w)
  | Some Running =>
      (Some (late g),
       set_store (thread_effect (g_class G) (late g) (w_store w)) (upd g (set_thr None) w))
  end.

(** The virtual method [cleanup]; only [PathSubstitutionGoal] overrides it. *)
Definition cleanup (g : gid) (w : Worker) : result Worker :=
  let* G := deref w g in
  match g_class G with
  | PathSubstitution _ _ _ =>
      match join g G w with
      | (Some _, w) => childTerminated g true w
      | (None, w) => Ok w
      end
  | DrvOutputSubstitution _ => Ok w
  end.

(** The destructor: [~PathSubstitutionGoal] calls [cleanup]; the pointers of
    the object, [waitees] among them, go away with it. *)
Definition destroy (g : gid) (w : Worker) : result Worker :=
  let* w := cleanup g w in Ok (set_heap (delete g (w_heap w)) w).

(** Destroy the goals that no strong pointer refers to, until none is left. *)
Definition unreferenced (pins : list gid) (w : Worker) : option gid :=
  head (filter (fun g => strong pins w g = false) (map_to_list (w_heap w)).*1).
Fixpoint collect_loop (fuel : nat) (pins : list gid) (w : Worker) : result Worker :=
  match fuel with
  | 0 => Ok w
  | S fuel =>
      match unreferenced pins w with
      | None => Ok w
      | Some g => let* w := destroy g w in collect_loop fuel pins w
      end
  end.
Definition collect (pins : list gid) (w : Worker) : result Worker :=
  collect_loop (size (w_heap w)) pins w.

(** ** Waiting for other goals *)

Definition addWaitee (g waitee : gid) (w : Worker) : result Worker :=
  let* W := deref w waitee in
  let w := upd g (fun G => set_waitees (goals_insert W waitee (g_waitees G)) G) w in
  Ok (upd waitee (fun W => set_waiters (addToWeakGoals (g_waiters W) g) W) w).

Definition failed_code (result : ExitCode) : bool :=
  match result with ecFailed | ecNoSubstituters | ecIncompleteClosure => true | _ => false end.

Definition waiteeDone (pins : list gid) (g waitee : gid) (result : ExitCode) (w : Worker) : Prelude.result Worker :=
  let* G := deref w g in
  let* W := deref w waitee in
  assert_ (goals_mem W (g_waitees G)) ;;;
  let waitees := goals_erase W (g_waitees G) in
  let w := upd g (fun G => set_failures
      (if failed_code result then S (g_nrFailed G) else g_nrFailed G)
      (if bool_decide (result = ecNoSubstituters) then S (g_nrNoSubstituters G) else g_nrNoSubstituters G)
      (if bool_decide (result = ecIncompleteClosure) then S (g_nrIncompleteClosure G)
       else g_nrIncompleteClosure G) (set_waitees waitees G)) w in
  if bool_decide (waitees = []) || (bool_decide (result = ecFailed) && negb (s_keepGoing settings)) then
    let w := foldl (fun w kv => upd kv.2 (fun H => set_waiters (sset_erase g (g_waiters H)) H) w) w waitees in
    let w := upd g (set_waitees []) w in
    let* w := collect (g :: pins) w in
    Ok (wakeUp g w)
  else Ok w.

(** The loop of [amDone] over the waiters. *)
Fixpoint notify_waiters (pins : list gid) (waiters : list gid) (g : gid) (result : ExitCode) (w : Worker) :
    Prelude.result Worker :=
  match waiters with
  | [] => Ok w
  | i :: waiters =>
      let* w := if alive w i then waiteeDone pins i g result w else Ok w in
      notify_waiters pins waiters g result w
  end.

(** [Worker::removeGoal]. *)
Definition removeGoal (pins : list gid) (g : gid) (w : Worker) : Prelude.result Worker :=
  let* G := deref w g in
  let w :=
    match g_class G with
    | PathSubstitution _ _ _ =>
        set_goalMaps (filter (fun kv => kv.2 <> g) (w_substitutionGoals w)) (w_drvOutputSubstitutionGoals w) w
    | DrvOutputSubstitution _ =>
        set_goalMaps (w_substitutionGoals w) (filter (fun kv => kv.2 <> g) (w_drvOutputSubstitutionGoals w)) w
    end in
  let* w :=
    if goals_mem G (w_topGoals w) then
      collect pins (set_topGoals
        (if bool_decide (g_exitCode G = ecFailed) && negb (s_keepGoing settings) then []
         else goals_erase G (w_topGoals w)) w)
    else Ok w in
  Ok (set_waiting [] (w_waitingForAWhile w) (wake_all (w_waitingForAnyGoal w) w)).

(** [Goal::amDone] and the return of the coroutine to [final_awaiter], which
    resets [top_co]. *)
Definition amDone (pins : list gid) (g : gid) (result : ExitCode) (w : Worker) : Prelude.result Worker :=
  let* G := deref w g in
  assert_ (bool_decide (is_Some (g_co G))) ;;;
  assert_ (bool_decide (g_exitCode G = ecBusy)) ;;;
  assert_ (negb (bool_decide (result = ecBusy))) ;;;
  let w := upd g (set_exitCode result) w in
  let* w := notify_waiters pins (g_waiters G) g result w in
  let w := upd g (set_waiters []) w in
  let* w := removeGoal pins g w in
  let* w := cleanup g w in
  Ok (upd g (set_co None) w).
End pins.

(** ** Making goals *)

Section make.
(** The address of the [n]-th goal that is constructed. *)
Context (alloc : nat -> gid).

Definition allocate (G : Goal) (w : Worker) : gid * Worker :=
  let g := alloc (w_allocated w) in
  (g, mkWorker (<[g := G]> (w_heap w)) (S (w_allocated w)) (w_topGoals w) (w_awake w)
        (w_wantingToBuild w) (w_waitingForAnyGoal w) (w_waitingForAWhile w) (w_children w)
        (w_nrLocalBuilds w) (w_nrSubstitutions w) (w_substitutionGoals w)
        (w_drvOutputSubstitutionGoals w) (w_pathContentsGoodCache w) (w_store w)).

(** [goal_weak.lock()] of the slot for [k]. *)
Definition lock_slot {K} `{EqDecision K} (k : K) (m : list (K * gid)) (w : Worker) : option gid :=
  match weak_lookup k m with
  | Some g => if alive w g then Some g else None
  | None => None
  end.

Definition makePathSubstitutionGoal (path : StorePath) (repair : bool) (ca : option ContentAddress)
    (w : Worker) : gid * Worker :=
  match lock_slot path (w_substitutionGoals w) w with
  | Some g => (g, w)
  | None =>
      let '(g, w) := allocate (new_goal (PathSubstitution path repair ca) Co_path_init) w in
      (g, wakeUp g (set_goalMaps (weak_insert path g (w_substitutionGoals w))
                      (w_drvOutputSubstitutionGoals w) w))
  end.

Definition makeDrvOutputSubstitutionGoal (id : DrvOutput) (w : Worker) : gid * Worker :=
  match lock_slot id (w_drvOutputSubstitutionGoals w) w with
  | Some g => (g, w)
  | None =>
      let '(g, w) := allocate (new_goal (DrvOutputSubstitution id) Co_out_init) w in
      (g, wakeUp g (set_goalMaps (w_substitutionGoals w)
                      (weak_insert id g (w_drvOutputSubstitutionGoals w)) w))
  end.
End make.
End worker.

(** [Worker::failingExitStatus]. *)
Definition failingExitStatus (permanentFailure timedOut hashMismatch checkMismatch : bool) : Z :=
  let buildFailure := permanentFailure || timedOut || hashMismatch in
  let mask := 0%Z in
  let mask := if buildFailure then Z.lor mask 4 else mask in
  let mask := if timedOut then Z.lor mask 1 else mask in
  let mask := if hashMismatch then Z.lor mask 2 else mask in
  let mask := if checkMismatch then Z.lor mask 8 else mask in
  let mask := if (mask =? 0)%Z then mask else Z.lor mask 96 in
  if (mask =? 0)%Z then 1%Z else mask.
