(* ===== verification/Substitution.v ===== *)
(** * Substitution goals and the main loop (libstore/build/substitution-goal.cc,
    drv-output-substitution-goal.cc, [Worker::run] and [Worker::waitForInput])

    The coroutines of the two substitution goals, cut at their suspension
    points, and the main loop of the worker as a transition system. What the
    environment decides is an argument of a transition: which pipes are at end
    of file when [poll] returns, when and how a copying thread ends, which
    paths other processes add to the store. *)

From stdpp Require Import gmap.
From S2P Require Import Prelude.
From S2P Require Import Containers.
From S2P Require Import Hash.
From S2P Require Import StorePath.
From S2P Require Import ContentAddress.
From S2P Require Import PathInfo.
From S2P Require Import Worker.

Definition addTempRoot (p : StorePath) (w : Worker) : Worker :=
  let s := w_store w in
  set_store (mkStoreState (st_valid s) (sset_insert p (st_tempRoots s)) (st_realisations s)) w.

Definition queryRealisation (w : Worker) (id : DrvOutput) : option Realisation :=
  head (filter (fun r => rl_id r = id) (st_realisations (w_store w))).

Definition registerDrvOutput (r : Realisation) (w : Worker) : Worker :=
  let s := w_store w in
  set_store (mkStoreState (st_valid s) (st_tempRoots s) (r :: st_realisations s)) w.

(** [Worker::markContentsGood]. *)
Definition markContentsGood (p : StorePath) (w : Worker) : Worker :=
  mkWorker (w_heap w) (w_allocated w) (w_topGoals w) (w_awake w) (w_wantingToBuild w)
    (w_waitingForAnyGoal w) (w_waitingForAWhile w) (w_children w) (w_nrLocalBuilds w)
    (w_nrSubstitutions w) (w_substitutionGoals w) (w_drvOutputSubstitutionGoals w)
    (smap_insert p true (w_pathContentsGoodCache w)) (w_store w).

(** [co_await Suspend{}]. *)
Definition suspend (g : gid) (co : Co) (w : Worker) : Worker := upd g (set_co (Some co)) w.

Definition refs (i : ValidPathInfo) : list StorePath := pi_references (vpi_info i).

Section substitution.
Context `{Digest} (xp : xpSettings) (settings : Settings) (storeDir : bytes).
(** [getDefaultSubstituters()], and [pathInfoIsUntrusted] of the destination. *)
Context (substituters : list Substituter) (pathInfoIsUntrusted : ValidPathInfo -> bool).
Context (alloc : nat -> gid).
Context (late : gid -> outcome).

Definition subs : list Substituter := if s_useSubstitutes settings then substituters else [].

(** ** [PathSubstitutionGoal] *)

Definition path_done (pins : list gid) (g : gid) (result : ExitCode) (status : BuildStatus.t) (w : Worker) :
    Prelude.result Worker :=
  amDone settings storeDir late pins g result (upd g (set_status status) w).

(** The path to ask a substituter for, [None] for [continue]. *)
Definition substituter_path (path : StorePath) (ca : option ContentAddress) (sub : Substituter) :
    result (option StorePath) :=
  match ca with
  | Some ca =>
      let* p := makeFixedOutputPathFromCA xp (sub_storeDir sub) (sp_name path) (withoutRefs ca) in
      assert_ (negb (bool_decide (sub_storeDir sub = storeDir)) || bool_decide (p = path)) ;;;
      Ok (Some p)
  | None => Ok (if bool_decide (sub_storeDir sub = storeDir) then Some path else None)
  end.

(** The info of a substituter that can be used, [None] for [continue]. *)
Definition usable_info (path : StorePath) (sub : Substituter) (subPath : StorePath) :
    result (option ValidPathInfo) :=
  match sub_queryPathInfo sub subPath with
  | InfoInvalidPath => Ok None
  | InfoSubstituterDisabled => if s_tryFallback settings then Ok None else throw SubstituterDisabled
  | InfoError => if s_tryFallback settings then Ok None else throw Error
  | InfoFound info =>
      let* info :=
        if bool_decide (vpi_path info = path) then Ok (Some info)
        else
          let* ca := isContentAddressed (sub_storeDir sub) xp info in
          Ok (if ca && bool_decide (refs info = []) then Some (mkValidPathInfo path (vpi_info info)) else None) in
      Ok (match info with
          | Some info => if negb (sub_isTrusted sub) && pathInfoIsUntrusted info then None else Some info
          | None => None
          end)
  end.

Fixpoint add_references (g : gid) (path : StorePath) (l : list StorePath) (w : Worker) : result Worker :=
  match l with
  | [] => Ok w
  | i :: l =>
      if bool_decide (i = path) then add_references g path l w
      else
        let '(h, w) := makePathSubstitutionGoal alloc i false None w in
        let* w := addWaitee storeDir g h w in
        add_references g path l w
  end.

(** [tryToRun] up to its first suspension. *)
Definition tryToRun (pins : list gid) (g : gid) (path : StorePath) (a : attempt) (w : Worker) : result Worker :=
  let* G := deref w g in
  if 0 <? g_nrFailed G then
    path_done pins g
      (if (0 <? g_nrNoSubstituters G) || (0 <? g_nrIncompleteClosure G) then ecIncompleteClosure else ecFailed)
      BuildStatus.DependencyFailed w
  else
    assert_ (forallb (fun i => bool_decide (i = path) || isValidPath w i) (refs (at_info a))) ;;;
    Ok (suspend g (Co_path_woken a) (wakeUp g w)).

(** The loop over the substituters. *)
Fixpoint try_substituters (pins : list gid) (g : gid) (path : StorePath) (ca : option ContentAddress)
    (l : list Substituter) (substituterFailed : bool) (w : Worker) : result Worker :=
  match l with
  | [] =>
      path_done pins g (if substituterFailed then ecFailed else ecNoSubstituters)
        BuildStatus.NoSubstituters w
  | sub :: rest =>
      let* w := cleanup late g w in
      let* subPath := substituter_path path ca sub in
      match subPath with
      | None => try_substituters pins g path ca rest substituterFailed w
      | Some subPath =>
          let* info := usable_info path sub subPath in
          match info with
          | None => try_substituters pins g path ca rest substituterFailed w
          | Some info =>
              let a := mkAttempt sub subPath info rest substituterFailed in
              let* w := add_references g path (refs info) w in
              let* G := deref w g in
              if bool_decide (g_waitees G = []) then tryToRun pins g path a w
              else Ok (suspend g (Co_path_refs a) w)
          end
      end
  end.

Definition path_init (pins : list gid) (g : gid) (path : StorePath) (repair : bool)
    (ca : option ContentAddress) (w : Worker) : result Worker :=
  let w := addTempRoot path w in
  if negb repair && isValidPath w path then path_done pins g ecSuccess BuildStatus.AlreadyValid w
  else if s_readOnlyMode settings then throw Error
  else try_substituters pins g path ca subs false w.

(** The loop that waits for a slot, and the start of the thread. *)
Definition path_slot (g : gid) (a : attempt) (w : Worker) : result Worker :=
  if (Nat.max 1 (s_maxSubstitutionJobs settings) <=? w_nrSubstitutions w) then
    let* w := waitForBuildSlot settings g w in Ok (suspend g (Co_path_slot a) w)
  else
    let* w := childStarted g true false (upd g (set_thr (Some Running)) w) in
    Ok (suspend g (Co_path_running a) w).

(** After the thread: [tryToRun] returns to the loop unless it succeeded. *)
Definition path_finish (pins : list gid) (g : gid) (path : StorePath) (ca : option ContentAddress)
    (a : attempt) (w : Worker) : result Worker :=
  let* G := deref w g in
  let '(o, w) := join late g G w in
  let* w := childTerminated g true w in
  match o with
  | Some CopyDone => path_done pins g ecSuccess BuildStatus.Substituted (markContentsGood path w)
  | Some SubstituteGone => try_substituters pins g path ca (at_rest a) (at_failed a) w
  | Some CopyFailed => try_substituters pins g path ca (at_rest a) true w
  | None => Err UndefinedBehaviour
  end.

(** ** [DrvOutputSubstitutionGoal] *)

Definition out_done (pins : list gid) (g : gid) (result : ExitCode) (w : Worker) : Prelude.result Worker :=
  amDone settings storeDir late pins g result w.

(** The head of the loop over the substituters: start the query. *)
Definition out_try (pins : list gid) (g : gid) (l : list Substituter) (substituterFailed : bool) (w : Worker) :
    result Worker :=
  match l with
  | [] => out_done pins g (if substituterFailed then ecFailed else ecNoSubstituters) w
  | sub :: rest =>
      let* w := childStarted g true false w in
      Ok (suspend g (Co_out_query sub rest substituterFailed) w)
  end.

Definition out_init (pins : list gid) (g : gid) (id : DrvOutput) (w : Worker) : result Worker :=
  match queryRealisation w id with
  | Some _ => out_done pins g ecSuccess w
  | None => out_try pins g subs false w
  end.

(** The loop over [dependentRealisations]; [false] when it found an
    incompatible realisation. *)
Fixpoint add_realisations (g : gid) (id : DrvOutput) (l : list (DrvOutput * StorePath)) (w : Worker) :
    result (bool * Worker) :=
  match l with
  | [] => Ok (true, w)
  | (depId, depPath) :: l =>
      if bool_decide (depId = id) then add_realisations g id l w
      else
        let incompatible :=
          match queryRealisation w depId with
          | Some local => negb (bool_decide (rl_outPath local = depPath))
          | None => false
          end in
        if incompatible then Ok (false, w)
        else
          let '(h, w) := makeDrvOutputSubstitutionGoal alloc depId w in
          let* w := addWaitee storeDir g h w in
          add_realisations g id l w
  end.

Definition out_finish (pins : list gid) (g : gid) (r : Realisation) (w : Worker) : result Worker :=
  let* G := deref w g in
  if 0 <? g_nrFailed G then
    out_done pins g
      (if (0 <? g_nrNoSubstituters G) || (0 <? g_nrIncompleteClosure G) then ecIncompleteClosure else ecFailed) w
  else out_done pins g ecSuccess (registerDrvOutput r w).

Definition realisationFetched (pins : list gid) (g : gid) (r : Realisation) (w : Worker) : result Worker :=
  let '(h, w) := makePathSubstitutionGoal alloc (rl_outPath r) false None w in
  let* w := addWaitee storeDir g h w in
  let* G := deref w g in
  if bool_decide (g_waitees G = []) then out_finish pins g r w
  else Ok (suspend g (Co_out_refs r) w).

Definition out_query (pins : list gid) (g : gid) (id : DrvOutput) (sub : Substituter) (rest : list Substituter)
    (substituterFailed : bool) (w : Worker) : result Worker :=
  let* w := childTerminated g true w in
  match sub_queryRealisation sub id with
  | Err _ => out_try pins g rest true w
  | Ok None => out_try pins g rest substituterFailed w
  | Ok (Some r) =>
      let* (ok, w) := add_realisations g id (rl_dependentRealisations r) w in
      if ok then realisationFetched pins g r w else out_try pins g rest substituterFailed w
  end.

(** ** [Goal::work] *)

Definition work (pins : list gid) (g : gid) (w : Worker) : result Worker :=
  let* G := deref w g in
  match g_co G, g_class G with
  | None, _ => Err AssertFailed
  | Some Co_path_init, PathSubstitution path repair ca => path_init pins g path repair ca w
  | Some (Co_path_refs a), PathSubstitution path _ _ => tryToRun pins g path a w
  | Some (Co_path_woken a), PathSubstitution path _ _ => path_slot g a w
  | Some (Co_path_slot a), PathSubstitution path _ _ => path_slot g a w
  | Some (Co_path_running a), PathSubstitution path _ ca => path_finish pins g path ca a w
  | Some Co_out_init, DrvOutputSubstitution id => out_init pins g id w
  | Some (Co_out_query sub rest failed), DrvOutputSubstitution id => out_query pins g id sub rest failed w
  | Some (Co_out_refs r), DrvOutputSubstitution _ => out_finish pins g r w
  | Some _, _ => Err UndefinedBehaviour
  end.

(** ** [Worker::waitForInput] *)

(** What a [poll] reports: the children with an event, those whose deadline
    has passed, and whether the polling interval is over. *)
Record poll_result := mkPoll { p_ready : list gid; p_expired : list gid; p_elapsed : bool }.

(** [handleEOF] of both classes wakes the goal up. A pipe has an event only
    once its write side is closed. *)
Definition poll_child (p : poll_result) (c : Child) (w : Worker) : result (Child * Worker) :=
  match w_heap w !! ch_goal c with
  | None => Err AssertFailed
  | Some G =>
      let '(c, w) :=
        if ch_open c && ch_closed c && bool_decide (ch_goal c ∈ p_ready p)
        then (mkChild (ch_goal c) false true (ch_respectTimeouts c) (ch_inBuildSlot c), wakeUp (ch_goal c) w)
        else (c, w) in
      (* [timedOut] is unreachable for both classes *)
      assert_ (negb (bool_decide (g_exitCode G = ecBusy) && ch_respectTimeouts c &&
                     bool_decide (ch_goal c ∈ p_expired p))) ;;;
      Ok (c, w)
  end.

Fixpoint poll_children (p : poll_result) (l : list Child) (w : Worker) : result (list Child * Worker) :=
  match l with
  | [] => Ok ([], w)
  | c :: l =>
      let* (c, w) := poll_child p c w in
      let* (l, w) := poll_children p l w in
      Ok (c :: l, w)
  end.

Definition waitForInput (p : poll_result) (w : Worker) : result Worker :=
  let* (children, w) := poll_children p (w_children w) w in
  let w := set_children children (w_nrLocalBuilds w) (w_nrSubstitutions w) w in
  Ok (if negb (bool_decide (w_waitingForAWhile w = [])) && p_elapsed p
      then set_waiting (w_waitingForAnyGoal w) [] (wake_all (w_waitingForAWhile w) w)
      else w).

(** ** [Worker::run]

    [c_batch] is [awake2], [c_pending] the part of it still to be worked;
    [c_caller] are the goals the caller of [run] holds. *)
Record Config := mkConfig {
  c_worker : Worker;
  c_caller : list gid;
  c_batch : list gid;
  c_pending : list gid;
  c_finished : bool;
}.

(** [for (auto & i : awake) if (auto goal = i.lock()) awake2.insert(goal)]. *)
Definition lock_awake (w : Worker) : list (bytes * gid) :=
  foldl (fun s g => match w_heap w !! g with Some G => goals_insert storeDir G g s | None => s end)
    [] (w_awake w).

(** One step of the main loop. *)
Definition run_step (p : poll_result) (c : Config) : result Config :=
  let w := c_worker c in
  match c_pending c with
  | g :: pending =>
      let* w := work (c_caller c ++ c_batch c) g w in
      Ok (mkConfig w (c_caller c) (c_batch c) (if bool_decide (w_topGoals w = []) then [] else pending) false)
  | [] =>
      if negb (bool_decide (c_batch c = [])) then
        (* the end of the scope of awake2 *)
        let* w := collect late (c_caller c) w in
        Ok (mkConfig w (c_caller c) [] [] false)
      else if negb (bool_decide (w_awake w = [])) && negb (bool_decide (w_topGoals w = [])) then
        let awake2 := (lock_awake w).*2 in
        Ok (mkConfig (set_awake [] w) (c_caller c) awake2 awake2 false)
      else if bool_decide (w_topGoals w = []) then
        assert_ (negb (s_keepGoing settings) || bool_decide (w_awake w = [])) ;;;
        assert_ (negb (s_keepGoing settings) || bool_decide (w_wantingToBuild w = [])) ;;;
        assert_ (negb (s_keepGoing settings) || bool_decide (w_children w = [])) ;;;
        Ok (mkConfig w (c_caller c) [] [] true)
      else if negb (bool_decide (w_children w = [])) || negb (bool_decide (w_waitingForAWhile w = [])) then
        let* w := waitForInput p w in
        Ok (mkConfig w (c_caller c) [] [] false)
      else if bool_decide (w_awake w = []) && (s_maxBuildJobs settings =? 0) then throw Error
      else assert_ (negb (bool_decide (w_awake w = []))) ;;; Ok c
  end.

(** ** The environment *)

(** A thread or an asynchronous query of [g] ends: the write side of the pipe
    is closed and, for a copy, the store has changed. *)
Definition close_child (g : gid) (c : Child) : Child :=
  if bool_decide (ch_goal c = g)
  then mkChild (ch_goal c) (ch_open c) true (ch_respectTimeouts c) (ch_inBuildSlot c) else c.

Definition thread_ends (g : gid) (o : outcome) (w : Worker) : Worker :=
  let w := set_children (close_child g <$> w_children w) (w_nrLocalBuilds w) (w_nrSubstitutions w) w in
  match w_heap w !! g with
  | Some G =>
      match g_thr G with
      | Some Running =>
          set_store (thread_effect (g_class G) o (w_store w)) (upd g (set_thr (Some (Finished o))) w)
      | _ => w
      end
  | None => w
  end.

Definition external_path (p : StorePath) (w : Worker) : Worker :=
  set_store (thread_effect (PathSubstitution p false None) CopyDone (w_store w)) w.
End substitution.

Arguments mkConfig _ _ _ _ _.

Inductive event :=
| EvLoop (p : poll_result) (late : gid -> outcome)
| EvThread (g : gid) (o : outcome)
| EvExternal (p : StorePath).

Section system.
Context `{Digest} (xp : xpSettings) (settings : Settings) (storeDir : bytes).
Context (substituters : list Substituter) (pathInfoIsUntrusted : ValidPathInfo -> bool).
Context (alloc : nat -> gid).

Definition on_worker (f : Worker -> Worker) (c : Config) : Config :=
  mkConfig (f (c_worker c)) (c_caller c) (c_batch c) (c_pending c) (c_finished c).

Definition step (e : event) (c : Config) : result Config :=
  if c_finished c then Ok c
  else match e with
  | EvLoop p late =>
      run_step xp settings storeDir substituters pathInfoIsUntrusted alloc late p c
  | EvThread g o => Ok (on_worker (thread_ends g o) c)
  | EvExternal p => Ok (on_worker (external_path p) c)
  end.

Fixpoint exec (es : list event) (c : Config) : result Config :=
  match es with
  | [] => Ok c
  | e :: es => let* c := step e c in exec es c
  end.

Definition empty_worker (s : StoreState) : Worker :=
  mkWorker ∅ 0 [] [] [] [] [] [] 0 0 [] [] [] s.

(** The goals for a list of paths, and the set of them. *)
Fixpoint make_goals (paths : list (StorePath * bool)) (w : Worker) : list gid * Worker :=
  match paths with
  | [] => ([], w)
  | (p, repair) :: paths =>
      let '(g, w) := makePathSubstitutionGoal alloc p repair None w in
      let '(gs, w) := make_goals paths w in
      (g :: gs, w)
  end.

Definition top_goals (gs : list gid) (w : Worker) : list (bytes * gid) :=
  foldl (fun s g => match w_heap w !! g with Some G => goals_insert storeDir G g s | None => s end) [] gs.

(** The call of [run] by [buildPaths], [ensurePath] or [repairPath]. *)
Definition start_run (paths : list (StorePath * bool)) (s : StoreState) : Config :=
  let '(gs, w) := make_goals paths (empty_worker s) in
  mkConfig (set_topGoals (top_goals gs w) w) gs [] [] false.

(** [Store::ensurePath], with the events of the run it starts; [None] when the
    run has not ended yet. *)
Definition ensurePath (path : StorePath) (es : list event) (s : StoreState) : result (option StoreState) :=
  if bool_decide (path ∈ st_valid s) then Ok (Some s)
  else
    let* c := exec es (start_run [(path, false)] s) in
    if c_finished c then
      match c_caller c with
      | goal :: _ =>
          let* G := deref (c_worker c) goal in
          if bool_decide (g_exitCode G = ecSuccess) then Ok (Some (w_store (c_worker c))) else throw Error
      | [] => Err UndefinedBehaviour
      end
    else Ok None.
End system.
