(* ===== verification/SubstitutionInv.v ===== *)
(** * The invariant of the substitution scheduler

    When every goal is a path substitution: who waits for whom, which goals
    can make progress, which slots are taken, and what a finished goal
    guarantees. [Inv x R E B w]: [x] is the goal whose coroutine is running,
    [R] its waiters that are still to be notified, [E] the goals whose status
    is in flux, [B] the goals of the current batch that have not been worked
    yet. *)

From stdpp Require Import gmap.
From S2P Require Import Prelude.
From S2P Require Import Containers.
From S2P Require Import Hash.
From S2P Require Import StorePath.
From S2P Require Import ContentAddress.
From S2P Require Import PathInfo.
From S2P Require Import Worker.
From S2P Require Import Substitution.

Definition path_of (G : Goal) : StorePath :=
  match g_class G with
  | PathSubstitution p _ _ => p
  | DrvOutputSubstitution _ => mkStorePath []
  end.

Definition is_path (G : Goal) : Prop := exists p r, g_class G = PathSubstitution p r None.

Definition busy (G : Goal) : Prop := g_exitCode G = ecBusy.

(** Reduce projections of updated records. *)
Ltac wsimpl :=
  cbn [w_heap w_allocated w_topGoals w_awake w_wantingToBuild w_waitingForAnyGoal w_waitingForAWhile
       w_children w_nrLocalBuilds w_nrSubstitutions w_substitutionGoals w_drvOutputSubstitutionGoals
       w_pathContentsGoodCache w_store set_heap set_topGoals set_awake set_wantingToBuild set_waiting
       set_children set_goalMaps set_store upd wakeUp st_valid st_tempRoots st_realisations
       g_class g_waitees g_waiters g_nrFailed g_nrNoSubstituters g_nrIncompleteClosure g_exitCode g_status
       g_co g_thr set_waitees set_waiters set_failures set_exitCode set_status set_co set_thr] in *.

Section invariant.
Context {settings : Settings} {storeDir : bytes} {substituters : list Substituter}.
Context {alloc : nat -> gid} {rank : StorePath -> nat}.

#[local] Notation gkey := (gkey storeDir).

Definition path_key (p : StorePath) : bytes := key storeDir (PathSubstitution p false None).

Definition used (w : Worker) (g : gid) : Prop := exists i, i < w_allocated w /\ g = alloc i.

(** The waiters of [h] that count on a notification. *)
Definition effective (x : option gid) (R : list gid) (h : gid) (H : Goal) : list gid :=
  if decide (x = Some h) then R else g_waiters H.

(** A goal that has ended holds nothing, and has made its path valid if it
    succeeded. *)
Definition ended (w : Worker) (G : Goal) : Prop :=
  g_waitees G = [] /\ g_thr G = None /\
  (g_exitCode G = ecSuccess -> path_of G ∈ st_valid (w_store w)).

Definition attempt_ok (a : attempt) : Prop := Forall (fun s => s ∈ substituters) (at_rest a).

(** The references of the attempt are valid, waited for, or have failed. *)
Definition refs_ok (w : Worker) (G : Goal) (a : attempt) : Prop :=
  forall r, r ∈ refs (at_info a) -> r <> path_of G ->
    r ∈ st_valid (w_store w) \/ path_key r ∈ (g_waitees G).*1 \/ 0 < g_nrFailed G.

(** What a suspended goal waits for: [act] says that it will be worked,
    [want] that it waits for a slot, [rd] that the end of its thread has been
    seen. *)
Definition status (w : Worker) (act want rd : Prop) (G : Goal) : Prop :=
  match g_co G with
  | None => ~ busy G /\ ended w G /\ ~ act /\ ~ want
  | Some co =>
      busy G /\
      match co with
      | Co_path_init => g_waitees G = [] /\ g_thr G = None /\ act /\ ~ want
      | Co_path_refs a =>
          g_thr G = None /\ attempt_ok a /\ refs_ok w G a /\ ~ want /\ (g_waitees G = [] <-> act)
      | Co_path_woken a => g_waitees G = [] /\ g_thr G = None /\ attempt_ok a /\ act /\ ~ want
      | Co_path_slot a => g_waitees G = [] /\ g_thr G = None /\ attempt_ok a /\ (act /\ ~ want \/ ~ act /\ want)
      | Co_path_running a => g_waitees G = [] /\ g_thr G <> None /\ attempt_ok a /\ ~ want /\ (act <-> rd)
      | _ => False
      end
  end.

(** The end of the thread of [g] has been read from its pipe. *)
Definition eof_read (w : Worker) (g : gid) : Prop :=
  exists c, c ∈ w_children w /\ ch_goal c = g /\ ch_open c = false.

Definition held (w : Worker) (g : gid) : Prop :=
  g ∈ (w_topGoals w).*2 \/ exists h H, w_heap w !! h = Some H /\ g ∈ (g_waitees H).*2.

(** Who waits for whom. *)
Record Graph (x : option gid) (R : list gid) (w : Worker) : Prop := {
  gr_used : forall g G, w_heap w !! g = Some G -> used w g;
  gr_path : forall g G, w_heap w !! g = Some G -> is_path G;
  gr_waitees_wf : forall g G, w_heap w !! g = Some G -> smap_wf (g_waitees G);
  gr_waitees : forall g G k h, w_heap w !! g = Some G -> (k, h) ∈ g_waitees G ->
    exists H, w_heap w !! h = Some H /\ gkey H = k /\ g ∈ effective x R h H /\
      rank (path_of H) < rank (path_of G) /\ (x <> Some h -> busy H);
  gr_waiters : forall h H g G, w_heap w !! h = Some H -> g ∈ effective x R h H ->
    w_heap w !! g = Some G -> (gkey H, h) ∈ g_waitees G;
  gr_waiters_wf : forall h H, w_heap w !! h = Some H -> sset_wf (effective x R h H);
  gr_waiters_used : forall h H g, w_heap w !! h = Some H -> g ∈ effective x R h H -> used w g;
  (* the map of goals *)
  gr_map_busy : forall g G, w_heap w !! g = Some G -> busy G ->
    weak_lookup (path_of G) (w_substitutionGoals w) = Some g;
  gr_map_alive : forall p g G, weak_lookup p (w_substitutionGoals w) = Some g ->
    w_heap w !! g = Some G -> path_of G = p /\ (x <> Some g -> busy G);
  gr_self : forall g G h H, x = Some g -> w_heap w !! g = Some G -> w_heap w !! h = Some H -> busy H ->
    path_of H = path_of G -> h = g;
  gr_map_nodup : NoDup (w_substitutionGoals w).*1;
  gr_map_used : forall p g, weak_lookup p (w_substitutionGoals w) = Some g -> used w g;
  (* top-level goals *)
  gr_top_wf : smap_wf (w_topGoals w);
  gr_top : forall k g, (k, g) ∈ w_topGoals w ->
    exists G, w_heap w !! g = Some G /\ gkey G = k /\ (x <> Some g -> busy G);
  (* nothing is dropped with --keep-going *)
  gr_held : s_keepGoing settings = true -> forall g G, w_heap w !! g = Some G -> busy G -> held w g;
}.

(** The children and the slots they take. *)
Record Slots (w : Worker) : Prop := {
  sl_child : forall c, c ∈ w_children w -> exists G, w_heap w !! ch_goal c = Some G /\
    g_thr G <> None /\ ch_inBuildSlot c = true /\ ch_respectTimeouts c = false /\
    (ch_closed c = true <-> g_thr G <> Some Running) /\ (ch_open c = false -> ch_closed c = true);
  sl_thr : forall g G, w_heap w !! g = Some G -> g_thr G <> None -> g ∈ ch_goal <$> w_children w;
  sl_copied : forall g G, w_heap w !! g = Some G -> g_thr G = Some (Finished CopyDone) ->
    path_of G ∈ st_valid (w_store w);
  sl_nodup : NoDup (ch_goal <$> w_children w);
  sl_nr : w_nrSubstitutions w = length (w_children w);
  sl_max : length (w_children w) <= Nat.max 1 (s_maxSubstitutionJobs settings);
  sl_want : w_wantingToBuild w <> [] -> w_children w <> [];
}.

(** Who will be woken up. *)
Record Wakeups (x : option gid) (E B : list gid) (w : Worker) : Prop := {
  wk_wf : sset_wf (w_awake w);
  wk_nodup : NoDup (B ++ w_awake w);
  wk_used : forall g, g ∈ B ++ w_awake w -> used w g;
  wk_want_used : forall g, g ∈ w_wantingToBuild w -> used w g;
  wk_waiting : w_waitingForAnyGoal w = [] /\ w_waitingForAWhile w = [];
  wk_self : forall g, x = Some g -> g ∈ E /\ g ∉ B ++ w_awake w;
  wk_exempt : forall g, g ∈ E -> g ∉ w_wantingToBuild w;
  wk_status : forall g G, w_heap w !! g = Some G -> g ∉ E ->
    status w (g ∈ B ++ w_awake w) (g ∈ w_wantingToBuild w) (eof_read w g) G;
  wk_alive : s_keepGoing settings = true -> forall g,
    g ∈ B ++ w_awake w \/ g ∈ w_wantingToBuild w -> is_Some (w_heap w !! g);
}.

Definition Inv (x : option gid) (R E B : list gid) (w : Worker) : Prop :=
  Graph x R w /\ Slots w /\ Wakeups x E B w.

(** ** Facts on the data *)

Lemma key_inj p r ca q r' ca' :
  key storeDir (PathSubstitution p r ca) = key storeDir (PathSubstitution q r' ca') -> p = q.
Proof.
  destruct p as [p], q as [q]. cbn [key]. unfold sp_name, printStorePath. cbn [sp_to_string].
  intros E. assert (length p = length q) as Hl.
  { apply (f_equal length) in E. rewrite !length_app, !length_drop in E. cbn [length L] in E.
    revert E. generalize (HashLen + 1). intros n E. simpl in E. lia. }
  rewrite !app_assoc in E. f_equal.
  apply app_inj_2 in E as [_ E]; done.
Qed.

Lemma gkey_path (G H : Goal) : is_path G -> is_path H -> gkey G = gkey H -> path_of G = path_of H.
Proof.
  intros (p & r & Hp) (q & r' & Hq). unfold Worker.gkey, path_of. rewrite Hp, Hq. apply key_inj.
Qed.

Lemma gkey_of (G : Goal) : is_path G -> gkey G = path_key (path_of G).
Proof. intros (p & r & Hp). unfold Worker.gkey, path_of, path_key. by rewrite Hp. Qed.

Lemma wake_all_spec l w :
  exists s, wake_all l w = set_awake s w /\
    (sset_wf (w_awake w) -> sset_wf s) /\
    (forall g, g ∈ s <-> g ∈ w_awake w \/ (g ∈ l /\ is_Some (w_heap w !! g))).
Proof.
  unfold wake_all. revert w. induction l as [|i l IH]; intros w; cbn [foldl].
  - exists (w_awake w). split; [by destruct w|]. split; [done|]. set_solver.
  - unfold alive at 2. case_bool_decide as Hi.
    + destruct (IH (wakeUp i w)) as (s & -> & Hwf & Hs). exists s. split; [done|].
      split; [intros; apply Hwf; by apply sset_insert_wf|]. intros g. rewrite Hs. cbn.
      unfold addToWeakGoals. rewrite sset_insert_elem, elem_of_cons. naive_solver.
    + destruct (IH w) as (s & -> & Hwf & Hs). exists s. split; [done|]. split; [done|].
      intros g. rewrite Hs, elem_of_cons. naive_solver.
Qed.

Lemma erase_child_spec g l :
  NoDup (ch_goal <$> l) -> g ∈ ch_goal <$> l ->
  exists c l', erase_child g l = Some (c, l') /\ ch_goal c = g /\ c ∈ l /\
    (forall c', c' ∈ l' <-> c' ∈ l /\ ch_goal c' <> g) /\ NoDup (ch_goal <$> l') /\
    length l = S (length l').
Proof.
  induction l as [|c l IH]; csimpl; [set_solver|].
  intros [Hc Hnd]%NoDup_cons Hg. case_bool_decide as E.
  - exists c, l. split; [done|]. split; [done|]. split; [set_solver|]. split; [|done].
    intros c'. rewrite elem_of_cons. split.
    + intros Hin. split; [by right|]. intros E'. apply Hc. rewrite E, <- E'. by apply list_elem_of_fmap_2.
    + intros [[->|?] ?]; [done|done].
  - apply elem_of_cons in Hg as [->|Hg]; [done|].
    destruct (IH Hnd Hg) as (c' & l' & -> & ? & ? & Hl' & ? & ?). exists c', (c :: l').
    split; [done|]. split; [done|]. split; [set_solver|]. split.
    + intros c''. rewrite !elem_of_cons, Hl'. naive_solver.
    + csimpl. split; [|lia]. apply NoDup_cons. split; [|done].
      intros (c'' & E'' & Hc'')%list_elem_of_fmap. apply Hc, list_elem_of_fmap. exists c''.
      split; [done|]. by apply Hl'.
Qed.

(** ** Changes that do not touch the graph *)

Definition sim (G G' : Goal) : Prop :=
  g_class G' = g_class G /\ g_waitees G' = g_waitees G /\ g_waiters G' = g_waiters G /\
  g_exitCode G' = g_exitCode G.

Definition heap_sim (h h' : gmap gid Goal) : Prop := forall g, option_Forall2 sim (h !! g) (h' !! g).

Lemma sim_refl G : sim G G.
Proof. done. Qed.

Lemma sim_path G G' : sim G G' -> path_of G' = path_of G /\ gkey G' = gkey G /\ (busy G' <-> busy G).
Proof. intros (E & _ & _ & E'). unfold path_of, Worker.gkey, busy. by rewrite E, E'. Qed.

Lemma sim_effective x R h H H' : sim H H' -> effective x R h H' = effective x R h H.
Proof. intros (_ & _ & E & _). unfold effective. by rewrite E. Qed.

Lemma heap_sim_alter (f : Goal -> Goal) g h : (forall G, sim G (f G)) -> heap_sim h (alter f g h).
Proof.
  intros Hf i. destruct (decide (i = g)) as [->|Hne].
  - rewrite lookup_alter_eq. destruct (h !! g); simpl; constructor. apply Hf.
  - rewrite lookup_alter_ne by done. destruct (h !! i); constructor. apply sim_refl.
Qed.

Lemma heap_sim_sym h h' : heap_sim h h' -> heap_sim h' h.
Proof. intros Hs g. destruct (Hs g) as [G G' (? & ? & ? & ?)|]; constructor. repeat split; congruence. Qed.

Lemma heap_sim_back h h' g G' : heap_sim h h' -> h' !! g = Some G' -> exists G, h !! g = Some G /\ sim G G'.
Proof. intros Hs Hg. specialize (Hs g). rewrite Hg in Hs. inversion Hs; eauto. Qed.

Lemma heap_sim_fwd h h' g G : heap_sim h h' -> h !! g = Some G -> exists G', h' !! g = Some G' /\ sim G G'.
Proof. intros Hs Hg. specialize (Hs g). rewrite Hg in Hs. inversion Hs; eauto. Qed.

Lemma held_sim w w' g :
  heap_sim (w_heap w) (w_heap w') -> w_topGoals w' = w_topGoals w -> held w g -> held w' g.
Proof.
  intros Hs Ht [?|(h & H & Hh & Hg)]; [left; by rewrite Ht|].
  destruct (heap_sim_fwd _ _ _ _ Hs Hh) as (H' & Hh' & (_ & E & _)). right. exists h, H'.
  split; [done|]. by rewrite E.
Qed.

Lemma Graph_sim x R w w' :
  heap_sim (w_heap w) (w_heap w') -> w_allocated w' = w_allocated w ->
  w_substitutionGoals w' = w_substitutionGoals w -> w_topGoals w' = w_topGoals w ->
  Graph x R w -> Graph x R w'.
Proof.
  intros Hs Ha Hm Ht [].
  pose proof (fun g G' => heap_sim_back _ _ g G' Hs) as Hb. pose proof (fun g G => heap_sim_fwd _ _ g G Hs) as Hf.
  assert (forall g, used w' g <-> used w g) as Hu by (intros; unfold used; by rewrite Ha).
  constructor; rewrite ?Hm, ?Ht.
  - intros g G' (G & HG & _)%Hb. apply Hu. eauto.
  - intros g G' (G & HG & S)%Hb. unfold is_path. destruct S as (-> & _). by apply (gr_path0 g).
  - intros g G' (G & HG & S)%Hb. destruct S as (_ & -> & _). eauto.
  - intros g G' k h (G & HG & S)%Hb Hk. pose proof (sim_path _ _ S) as (-> & _ & _).
    destruct S as (_ & E & _). rewrite E in Hk.
    destruct (gr_waitees0 _ _ _ _ HG Hk) as (H & HH & <- & Hin & Hr & Hbusy).
    destruct (Hf _ _ HH) as (H' & HH' & S'). exists H'. rewrite (sim_effective _ _ _ _ _ S').
    destruct (sim_path _ _ S') as (-> & -> & ->). eauto 6.
  - intros h H' g G' (H & HH & SH)%Hb Hin (G & HG & SG)%Hb. rewrite (sim_effective _ _ _ _ _ SH) in Hin.
    destruct (sim_path _ _ SH) as (_ & -> & _). destruct SG as (_ & -> & _). eauto.
  - intros h H' (H & HH & SH)%Hb. rewrite (sim_effective _ _ _ _ _ SH). eauto.
  - intros h H' g (H & HH & SH)%Hb. rewrite (sim_effective _ _ _ _ _ SH), Hu. eauto.
  - intros g G' (G & HG & S)%Hb. destruct (sim_path _ _ S) as (-> & _ & ->). eauto.
  - intros p g G' Hp (G & HG & S)%Hb. destruct (sim_path _ _ S) as (-> & _ & ->). eauto.
  - intros g G' h H' Hx (G & HG & S)%Hb (H & HH & SH)%Hb. destruct (sim_path _ _ S) as (-> & _ & _).
    destruct (sim_path _ _ SH) as (-> & _ & ->). eauto.
  - done.
  - intros p g. rewrite Hu. eauto.
  - done.
  - intros k g Hk. destruct (gr_top0 _ _ Hk) as (G & HG & <- & HB). destruct (Hf _ _ HG) as (G' & HG' & S).
    exists G'. destruct (sim_path _ _ S) as (_ & -> & ->). eauto.
  - intros Hkg g G' (G & HG & S)%Hb HB. destruct (sim_path _ _ S) as (_ & _ & HB').
    eapply held_sim; eauto. apply HB' in HB. eauto.
Qed.

Lemma status_mono w w' act act' want want' rd rd' G :
  st_valid (w_store w) ⊆ st_valid (w_store w') ->
  (act <-> act') -> (want <-> want') -> (rd <-> rd') ->
  status w act want rd G -> status w' act' want' rd' G.
Proof.
  clear alloc rank settings.
  intros Hv Ha Hw Hr. unfold status, ended, refs_ok. destruct (g_co G) as [[]|]; naive_solver.
Qed.

(** Only a goal that waits for a slot is in [wantingToBuild]. *)
Lemma status_want w act want rd G : status w act want rd G -> want -> ~ act.
Proof. unfold status. destruct (g_co G) as [[]|]; tauto. Qed.

Lemma status_running w act want rd G : status w act want rd G -> g_thr G <> None -> ~ want.
Proof. unfold status, ended. destruct (g_co G) as [[]|]; tauto. Qed.

Lemma Inv_exempt x R E B w g : Inv x R E B w -> g ∉ w_wantingToBuild w -> Inv x R (g :: E) B w.
Proof.
  intros (? & ? & []) Hg. split; [done|]. split; [done|]. constructor; try done.
  - intros h Hh. apply wk_self0 in Hh. set_solver.
  - intros h [->|?]%elem_of_cons; auto.
  - intros h K HK Hh. apply wk_status0; [done|set_solver].
Qed.

Lemma status_woken w w' act act' want want' rd rd' G :
  st_valid (w_store w) ⊆ st_valid (w_store w') ->
  (act' <-> act \/ want) -> ~ want' -> (rd <-> rd') ->
  status w act want rd G -> status w' act' want' rd' G.
Proof.
  clear alloc rank settings.
  intros Hv Ha Hw Hr. unfold status, ended, refs_ok. destruct (g_co G) as [[]|]; naive_solver.
Qed.

(** The worker after a child of [g] has been removed and the goals that want a
    slot have been woken up. *)
Lemma terminate_ok late x R E B w g G :
  Inv x R E B w -> w_heap w !! g = Some G -> g_thr G <> None -> g ∈ E ->
  exists o w1 w', join late g G w = (Some o, w1) /\ childTerminated g true w1 = Ok w' /\
    Inv x R E B w' /\ w_heap w' = alter (set_thr None) g (w_heap w) /\
    w_topGoals w' = w_topGoals w /\ w_allocated w' = w_allocated w /\
    w_substitutionGoals w' = w_substitutionGoals w /\ w_wantingToBuild w' = [] /\ st_valid (w_store w) ⊆ st_valid (w_store w') /\
    (o = CopyDone -> path_of G ∈ st_valid (w_store w')) /\
    (forall h, h ∈ w_awake w' <-> h ∈ w_awake w \/ (h ∈ w_wantingToBuild w /\ is_Some (w_heap w !! h))).
Proof.
  intros (HG & HS & HW) Hg Hthr HE.
  assert (exists o s, join late g G w = (Some o, set_store s (upd g (set_thr None) w)) /\
    st_valid (w_store w) ⊆ st_valid s /\ (o = CopyDone -> path_of G ∈ st_valid s)) as (o & s & Hj & Hv & Ho).
  { unfold join. destruct (g_thr G) as [[|o]|] eqn:Et; [| |done].
    - exists (late g), (thread_effect (g_class G) (late g) (w_store w)). split; [done|].
      destruct (gr_path _ _ _ HG _ _ Hg) as (p & r & Hp). unfold path_of. rewrite Hp.
      destruct (late g); cbn; set_solver.
    - exists o, (w_store w). split; [by destruct w|]. split; [done|]. intros ->. by apply (sl_copied _ HS g). }
  exists o, (set_store s (upd g (set_thr None) w)).
  destruct (erase_child_spec g (w_children w) (sl_nodup _ HS) (sl_thr _ HS _ _ Hg Hthr))
    as (c & l' & Hec & Hcg & Hc & Hl' & Hnd & Hlen).
  set (w2 := set_children l' (w_nrLocalBuilds w) (w_nrSubstitutions w - 1) (set_store s (upd g (set_thr None) w))).
  destruct (wake_all_spec (w_wantingToBuild w) w2) as (aw & Hwk & Hwf & Haw).
  exists (set_wantingToBuild [] (set_awake aw w2)).
  assert (forall h, is_Some (w_heap w2 !! h) <-> is_Some (w_heap w !! h)) as Hal.
  { intros h. cbn. rewrite lookup_alter. case_decide; subst; [|done]. by rewrite fmap_is_Some. }
  assert (forall h, h ∈ aw <-> h ∈ w_awake w \/ (h ∈ w_wantingToBuild w /\ is_Some (w_heap w !! h))) as Haw'.
  { intros h. rewrite Haw, Hal. done. }
  split; [done|]. split.
  { unfold childTerminated. cbn [w_children set_store upd set_heap]. rewrite Hec. unfold deref. cbn [w_heap set_store upd set_heap].
    rewrite lookup_alter_eq, Hg. cbn [fmap option_fmap option_map rbind].
    destruct (sl_child _ HS c Hc) as (_ & _ & _ & -> & _). cbn [jobCategory].
    assert (0 <? w_nrSubstitutions w = true) as Hpos by (rewrite (sl_nr _ HS), Hlen; done).
    cbn [w_nrSubstitutions set_store upd set_heap]. rewrite Hpos. cbn [assert_ rbind]. by erewrite <- Hwk. }
  split.
  - split; [|split].
    + eapply Graph_sim; [| | | |done]; try done. by apply heap_sim_alter.
    + constructor; cbn.
      * intros c' [Hc' Hne]%Hl'. destruct (sl_child _ HS c' Hc') as (H & HH & Hrest). exists H.
        split; [|done]. by rewrite lookup_alter_ne.
      * intros h H HH Hh. rewrite lookup_alter in HH. case_decide as E'.
        { subst h. rewrite Hg in HH. injection HH as <-. done. }
        pose proof (sl_thr _ HS _ _ HH Hh) as (c' & Ec' & Hc')%list_elem_of_fmap.
        apply list_elem_of_fmap. exists c'. split; [done|]. apply Hl'. split; [done|congruence].
      * intros h H HH Hh. rewrite lookup_alter in HH. case_decide as E'.
        { subst h. rewrite Hg in HH. injection HH as <-. done. }
        apply Hv, (sl_copied _ HS h); done.
      * done.
      * rewrite (sl_nr _ HS). lia.
      * pose proof (sl_max _ HS). lia.
      * done.
    + constructor; cbn.
      * apply Hwf, (wk_wf _ _ _ _ HW).
      * apply NoDup_app. pose proof (wk_nodup _ _ _ _ HW) as (HB & HBa & Hna)%NoDup_app.
        split; [done|]. split; [|by apply sset_nodup, Hwf, (wk_wf _ _ _ _ HW)].
        intros h Hh [?|[Hwant [H HH]]]%Haw'; [by eapply HBa|].
        destruct (decide (h ∈ E)) as [He|He]; [by apply (wk_exempt _ _ _ _ HW h)|].
        eapply status_want; [eapply (wk_status _ _ _ _ HW); eauto|done|set_solver].
      * intros h [Hh|[?|[? _]]%Haw']%elem_of_app;
          [apply (wk_used _ _ _ _ HW)|apply (wk_used _ _ _ _ HW)|apply (wk_want_used _ _ _ _ HW)]; set_solver.
      * intros h. set_solver.
      * apply (wk_waiting _ _ _ _ HW).
      * intros h ->. destruct (wk_self _ _ _ _ HW h eq_refl) as [He Hna]. split; [done|].
        intros [?|[?|[Hwant _]]%Haw']%elem_of_app; [set_solver..|].
        by apply (wk_exempt _ _ _ _ HW h He).
      * set_solver.
      * intros h H HH He. rewrite lookup_alter in HH. case_decide as E'; [by subst|].
        eapply status_woken; [| | | |by apply (wk_status _ _ _ _ HW h H)]; [done| |set_solver|].
        { rewrite !elem_of_app, Haw'. naive_solver. }
        unfold eof_read. cbn. setoid_rewrite Hl'. naive_solver.
      * intros Hk h [Hh|?]; [|set_solver]. rewrite lookup_alter_is_Some.
        apply (wk_alive _ _ _ _ HW Hk). apply elem_of_app in Hh as [?|[?|[? _]]%Haw']; set_solver.
  - cbn. split_and!; done.
Qed.

(** ** Destruction *)

Lemma delete_graph x R w g :
  Graph x R w -> ~ held w g -> x <> Some g ->
  (s_keepGoing settings = true -> forall G, w_heap w !! g = Some G -> g_waitees G = []) ->
  Graph x R (set_heap (delete g (w_heap w)) w).
Proof.
  intros [] Hnh Hx Hkeep.
  assert (forall h K, delete g (w_heap w) !! h = Some K -> w_heap w !! h = Some K /\ h <> g) as Hb.
  { intros h K [? ?]%lookup_delete_Some. done. }
  constructor; wsimpl; try done.
  - intros h K [? _]%Hb. eauto.
  - intros h K [? _]%Hb. eauto.
  - intros h K [? _]%Hb. eauto.
  - intros h K k i [HK Hne]%Hb Hi. destruct (gr_waitees0 _ _ _ _ HK Hi) as (I & HI & ?). exists I.
    split; [|done]. rewrite lookup_delete_ne; [done|]. intros ->. apply Hnh. right. exists h, K.
    split; [done|]. apply list_elem_of_fmap. by exists (k, i).
  - intros h K i I [? _]%Hb ? [? _]%Hb. eauto.
  - intros h K [? _]%Hb. eauto.
  - intros h K i [? _]%Hb. eauto.
  - intros h K [? _]%Hb. eauto.
  - intros p h K ? [? _]%Hb. eauto.
  - intros h K i I ? [? _]%Hb [? _]%Hb. eauto.
  - intros k h Hk. destruct (gr_top0 _ _ Hk) as (K & HK & ?). exists K. split; [|done].
    rewrite lookup_delete_ne; [done|]. intros ->. apply Hnh. left. apply list_elem_of_fmap. by exists (k, h).
  - intros Hkg h K [HK Hne]%Hb HB. destruct (gr_held0 Hkg _ _ HK HB) as [?|(i & I & HI & Hi)]; [by left|].
    right. exists i, I. split; [|done]. wsimpl. rewrite lookup_delete_ne; [done|]. intros ->.
    rewrite (Hkeep Hkg _ HI) in Hi. set_solver.
Qed.

Lemma delete_ok x R E E' B w g G :
  Inv x R E' B w -> w_heap w !! g = Some G -> ~ held w g -> g_thr G = None -> x <> Some g ->
  (s_keepGoing settings = true -> g ∉ B ++ w_awake w /\ g ∉ w_wantingToBuild w /\ g_waitees G = []) ->
  E ⊆ E' -> E' ⊆ g :: E ->
  Inv x R E B (set_heap (delete g (w_heap w)) w).
Proof.
  intros (HG & HS & HW) Hg Hnh Hthr Hx Hkeep HE HE'.
  split; [apply delete_graph; try done; intros Hk G' HG'; simplify_eq; by apply Hkeep|].
  split; constructor; wsimpl; try by destruct HS.
  - intros c Hc. destruct (sl_child _ HS c Hc) as (K & HK & Ht & ?). exists K. split; [|done].
    rewrite lookup_delete_ne; [done|]. intros E1. congruence.
  - intros h K [_ ?]%lookup_delete_Some ?. by apply (sl_thr _ HS h K).
  - intros h K [_ ?]%lookup_delete_Some ?. by apply (sl_copied _ HS h K).
  - apply (wk_wf _ _ _ _ HW).
  - apply (wk_nodup _ _ _ _ HW).
  - apply (wk_used _ _ _ _ HW).
  - apply (wk_want_used _ _ _ _ HW).
  - apply (wk_waiting _ _ _ _ HW).
  - intros h Hh. destruct (wk_self _ _ _ _ HW h Hh) as [He ?]. split; [|done].
    apply HE' in He as [->|?]%elem_of_cons; done.
  - intros h Hh. apply (wk_exempt _ _ _ _ HW). auto.
  - intros h K [Hne HK]%lookup_delete_Some He. apply (wk_status _ _ _ _ HW); [done|].
    intros [->|?]%HE'%elem_of_cons; done.
  - intros Hk h Hh. rewrite lookup_delete_is_Some. split; [|by apply (wk_alive _ _ _ _ HW)].
    intros ->. destruct (Hkeep Hk) as (? & ? & _). naive_solver.
Qed.

Lemma strong_false pins w g : strong pins w g = false -> g ∉ pins /\ ~ held w g.
Proof.
  unfold strong, held. rewrite !orb_false_iff, !bool_decide_eq_false.
  intros [[Hp Ht] He]. split; [done|]. intros [?|(h & H & HH & Hg)]; [done|].
  apply not_true_iff_false in He. apply He, existsb_exists. exists (h, H).
  split; [by apply list_elem_of_In, elem_of_map_to_list|]. by apply bool_decide_eq_true.
Qed.

Lemma unreferenced_Some pins w g :
  unreferenced pins w = Some g -> exists G, w_heap w !! g = Some G /\ g ∉ pins /\ ~ held w g.
Proof.
  unfold unreferenced. intros Hh%head_Some_elem_of.
  apply list_elem_of_filter in Hh as [Hs ([g' G] & -> & HG)%list_elem_of_fmap].
  exists G. split; [by apply elem_of_map_to_list|]. by apply strong_false.
Qed.

(** What destroying objects leaves alone. *)
Record shrinks (pins : list gid) (w w' : Worker) : Prop := {
  sh_heap : w_heap w' ⊆ w_heap w;
  sh_pins : forall p, p ∈ pins -> w_heap w' !! p = w_heap w !! p;
  sh_top : w_topGoals w' = w_topGoals w;
  sh_alloc : w_allocated w' = w_allocated w;
  sh_map : w_substitutionGoals w' = w_substitutionGoals w;
  sh_valid : st_valid (w_store w) ⊆ st_valid (w_store w');
  sh_awake : forall h, h ∈ w_awake w' -> h ∈ w_awake w \/ h ∈ w_wantingToBuild w;
  sh_want : w_wantingToBuild w' ⊆ w_wantingToBuild w;
  sh_quiet : (w_awake w' = w_awake w /\ w_children w' = w_children w) \/
    exists g G, w_heap w !! g = Some G /\ g_co G <> None /\ w_heap w' !! g = None;
}.

Lemma shrinks_refl pins w : shrinks pins w w.
Proof. constructor; auto. Qed.

Lemma shrinks_trans pins w w1 w2 : shrinks pins w w1 -> shrinks pins w1 w2 -> shrinks pins w w2.
Proof.
  intros [] []. constructor; try congruence.
  - by transitivity (w_heap w1).
  - intros p Hp. rewrite sh_pins1; auto.
  - by transitivity (st_valid (w_store w1)).
  - intros h [?|?]%sh_awake1; auto.
  - by transitivity (w_wantingToBuild w1).
  - destruct sh_quiet0 as [[E1 E2]|(g & G & Hg & Hco & Hg')].
    + destruct sh_quiet1 as [[E3 E4]|(g & G & Hg & Hco & Hg')]; [left; split; congruence|].
      right. exists g, G. split; [by eapply lookup_weaken|done].
    + right. exists g, G. split; [done|]. split; [done|]. by eapply lookup_weaken_None.
Qed.

(** With --keep-going only goals that have ended lose their last pointer. *)
Lemma unheld_ended x R E B w g G :
  Inv x R E B w -> w_heap w !! g = Some G -> ~ held w g -> g ∉ E -> s_keepGoing settings = true ->
  (g ∉ B ++ w_awake w /\ g ∉ w_wantingToBuild w /\ g_waitees G = []) /\ g_thr G = None.
Proof.
  intros (HG & _ & HW) Hg Hnh HE Hk.
  assert (~ busy G) as Hb by (intros Hb; by eapply Hnh, (gr_held _ _ _ HG)).
  pose proof (wk_status _ _ _ _ HW g G Hg HE) as Hst. unfold status, ended in Hst.
  destruct (g_co G) as [co|]; [by destruct Hst|]. naive_solver.
Qed.

Lemma destroy_ok late x R E B pins w g :
  Inv x R E B w -> E ⊆ pins -> unreferenced pins w = Some g ->
  exists w', destroy late g w = Ok w' /\ Inv x R E B w' /\ shrinks pins w w' /\
    size (w_heap w') < size (w_heap w).
Proof.
  intros HI HE (G & Hg & Hp & Hnh)%unreferenced_Some.
  assert (g ∉ E) as HgE by auto. assert (x <> Some g) as Hx.
  { intros Hx. by destruct (wk_self _ _ _ _ (proj2 (proj2 HI)) g Hx). }
  pose proof (fun Hk => unheld_ended _ _ _ _ _ _ _ HI Hg Hnh HgE Hk) as Hkeep.
  unfold destroy, cleanup, deref. rewrite Hg. cbn [rbind].
  destruct (gr_path _ _ _ (proj1 HI) _ _ Hg) as (p & r & ->).
  destruct (decide (g_thr G = None)) as [Et|Et].
  - unfold join. rewrite Et. cbn [rbind]. eexists. split; [done|].
    split; [eapply delete_ok; [done|done|done|done|done|by intros ?%Hkeep; destruct_and?|set_solver|set_solver]|].
    split.
    + constructor; wsimpl; try done; [apply delete_subseteq| |by left|by left].
      intros q Hq. rewrite lookup_delete_ne; [done|]. by intros ->.
    + wsimpl. rewrite map_size_delete, Hg. pose proof (map_size_ne_0_lookup_2 _ g (mk_is_Some _ _ Hg)). lia.
  - assert (Inv x R (g :: E) B w) as HI'.
    { apply Inv_exempt; [done|]. eapply status_running; [|done].
      by apply (wk_status _ _ _ _ (proj2 (proj2 HI)) g G). }
    destruct (terminate_ok late _ _ _ _ _ _ _ HI' Hg Et ltac:(set_solver))
      as (o & w1 & w' & -> & -> & HI1 & Hh & Ht & Ha & Hm & Hwant & Hv & _ & Haw). cbn [rbind].
    eexists. split; [done|]. split.
    + eapply (delete_ok _ _ _ (g :: E)); [done|by rewrite Hh, lookup_alter_eq, Hg| |done|done| |set_solver|done].
      * intros Hh'. apply Hnh. eapply held_sim; [| |exact Hh']; [|done].
        rewrite Hh. by apply heap_sim_sym, heap_sim_alter.
      * intros Hk. by destruct (Hkeep Hk) as [_ ?].
    + assert (delete g (w_heap w') = delete g (w_heap w)) as E1.
      { rewrite Hh. apply map_eq. intros i. rewrite !lookup_delete. case_decide; [done|].
        by rewrite lookup_alter_ne. }
      rewrite E1. split; [constructor; wsimpl; try done|wsimpl].
      * apply delete_subseteq.
      * intros q Hq. rewrite lookup_delete_ne; [done|]. by intros ->.
      * intros h [?|[? _]]%Haw; auto.
      * rewrite Hwant. set_solver.
      * right. exists g, G. rewrite lookup_delete_eq. split_and!; try done. intros Eco.
        pose proof (wk_status _ _ _ _ (proj2 (proj2 HI)) g G Hg HgE) as Hst. unfold status, ended in Hst.
        rewrite Eco in Hst. naive_solver.
      * rewrite map_size_delete, Hg. pose proof (map_size_ne_0_lookup_2 _ g (mk_is_Some _ _ Hg)). lia.
Qed.

Lemma collect_ok late x R E B pins w :
  Inv x R E B w -> E ⊆ pins ->
  exists w', collect late pins w = Ok w' /\ Inv x R E B w' /\ shrinks pins w w' /\ unreferenced pins w' = None.
Proof.
  intros HI HE. unfold collect. assert (size (w_heap w) <= size (w_heap w)) as Hn by done. revert Hn.
  generalize (size (w_heap w)) at 2 3. intros n. revert w HI.
  induction n as [|n IH]; intros w HI Hn; cbn [collect_loop].
  - exists w. split; [done|]. split; [done|]. split; [apply shrinks_refl|].
    destruct (unreferenced pins w) as [g|] eqn:Eu; [|done].
    apply unreferenced_Some in Eu as (G & Hg & _).
    pose proof (map_size_ne_0_lookup_2 _ g (mk_is_Some _ _ Hg)). lia.
  - destruct (unreferenced pins w) as [g|] eqn:Eu; [|by exists w; auto using shrinks_refl].
    destruct (destroy_ok late _ _ _ _ _ _ _ HI HE Eu) as (w1 & -> & HI1 & Hs1 & Hsz). cbn [rbind].
    destruct (IH w1 HI1 ltac:(lia)) as (w2 & -> & HI2 & Hs2 & Hu). exists w2.
    split; [done|]. split; [done|]. split; [by eapply shrinks_trans|done].
Qed.

(** ** Notification *)

(** A goal that no longer exists need not be notified. *)
Lemma Graph_skip g i R w :
  Graph (Some g) (i :: R) w -> w_heap w !! i = None -> Graph (Some g) R w.
Proof.
  intros [] Hi.
  assert (forall h K j J, w_heap w !! j = Some J ->
    j ∈ effective (Some g) (i :: R) h K <-> j ∈ effective (Some g) R h K) as Heff.
  { intros h K j J Hj. unfold effective. case_decide; [|done]. rewrite elem_of_cons.
    split; [intros [->|?]; [congruence|done]|by right]. }
  assert (forall h K, effective (Some g) R h K ⊆ effective (Some g) (i :: R) h K) as Hsub.
  { intros h K. unfold effective. case_decide; set_solver. }
  constructor; try done.
  - intros j J k h Hj Hk. destruct (gr_waitees0 _ _ _ _ Hj Hk) as (K & HK & ? & Hin & ?).
    exists K. rewrite <- Heff by done. auto.
  - intros h K j J HK Hin HJ. rewrite <- Heff in Hin by done. eauto.
  - intros h K HK. specialize (gr_waiters_wf0 h K HK). revert gr_waiters_wf0. unfold effective.
    case_decide; [|done]. apply StronglySorted_inv.
  - intros h K j HK Hin%Hsub. eauto.
Qed.

(** [i] stops waiting for [g] and perhaps for other goals. *)
Record unwaits (g i : gid) (G : Goal) (w w' : Worker) (I I' : Goal) : Prop := {
  uw_same : w_allocated w' = w_allocated w /\ w_substitutionGoals w' = w_substitutionGoals w /\
    w_topGoals w' = w_topGoals w;
  uw_g : w_heap w !! g = Some G /\ w_heap w' !! g = Some G /\ ~ busy G;
  uw_i : w_heap w !! i = Some I /\ w_heap w' !! i = Some I';
  uw_I : g_class I' = g_class I /\ g_exitCode I' = g_exitCode I /\ g_waiters I' = g_waiters I;
  uw_wf : smap_wf (g_waitees I');
  uw_sub : g_waitees I' ⊆ g_waitees I;
  uw_not : (gkey G, g) ∉ g_waitees I';
  uw_other : forall h, h <> i -> h <> g ->
    option_Forall2 (fun H H' => g_class H' = g_class H /\ g_exitCode H' = g_exitCode H /\
      g_waitees H' = g_waitees H /\ (sset_wf (g_waiters H) -> sset_wf (g_waiters H')) /\
      forall j, j ∈ g_waiters H' <-> j ∈ g_waiters H /\ (j = i -> (gkey H, h) ∈ g_waitees I'))
      (w_heap w !! h) (w_heap w' !! h);
  uw_keep : s_keepGoing settings = true -> forall kv, kv ∈ g_waitees I -> kv ∈ g_waitees I' \/ kv.2 = g;
}.

Lemma unwaits_back g i G R w w' I I' h H' :
  Graph (Some g) (i :: R) w -> i <> g -> unwaits g i G w w' I I' -> w_heap w' !! h = Some H' ->
  exists H, w_heap w !! h = Some H /\ g_class H' = g_class H /\ g_exitCode H' = g_exitCode H /\
    (h <> i -> g_waitees H' = g_waitees H) /\ g_waitees H' ⊆ g_waitees H /\
    (forall j, j ∈ effective (Some g) R h H' -> j ∈ effective (Some g) (i :: R) h H /\
       (j = i -> (gkey H, h) ∈ g_waitees I')) /\
    (forall j, j ∈ effective (Some g) (i :: R) h H -> (j = i -> (gkey H, h) ∈ g_waitees I') ->
       j ∈ effective (Some g) R h H' ) /\
    sset_wf (effective (Some g) R h H').
Proof.
  intros HG Hne [_ (Hg & Hg' & _) (Hi & Hi') (HI1 & HI2 & HI3) Hwf Hsub Hnot Hoth _] Hh.
  destruct (decide (h = g)) as [->|Hhg].
  { rewrite Hg' in Hh. injection Hh as <-. exists G. split; [done|]. unfold effective.
    rewrite !decide_True by done. pose proof (gr_waiters_wf _ _ _ HG g G Hg) as Hw. unfold effective in Hw.
    rewrite decide_True in Hw by done. pose proof (sset_nodup _ Hw) as [Hn _]%NoDup_cons.
    split_and!; try done; [intros j Hj; split; [by right|by intros ->]| |by apply StronglySorted_inv in Hw as []].
    intros j [->|?]%elem_of_cons Hj; [|done]. destruct (Hnot (Hj eq_refl)). }
  assert (Some g <> Some h) as Hx by congruence.
  destruct (decide (h = i)) as [->|Hhi].
  { rewrite Hi' in Hh. injection Hh as <-. exists I. split; [done|]. unfold effective.
    rewrite !decide_False by done. rewrite HI3. pose proof (gr_waiters_wf _ _ _ HG i I Hi) as Hw.
    unfold effective in Hw. rewrite decide_False in Hw by done. split_and!; try done.
    intros j Hj. split; [done|]. intros ->.
    pose proof (gr_waiters _ _ _ HG i I i I Hi) as Hself. unfold effective in Hself.
    rewrite decide_False in Hself by done. specialize (Hself Hj Hi).
    destruct (gr_waitees _ _ _ HG _ _ _ _ Hi Hself) as (I2 & HI2' & _ & _ & Hr & _).
    rewrite Hi in HI2'. injection HI2' as <-. lia. }
  specialize (Hoth h Hhi Hhg). rewrite Hh in Hoth. inversion Hoth as [H H'' (E1 & E2 & E3 & E4 & E5) EH|]; subst.
  exists H. split; [done|]. unfold effective. rewrite !decide_False by done.
  pose proof (gr_waiters_wf _ _ _ HG h H (eq_sym EH)) as Hw. unfold effective in Hw.
  rewrite decide_False in Hw by done. split_and!; try done; [by rewrite E3|..]; auto.
  - intros j. rewrite E5. done.
  - intros j Hj Hji. apply E5. done.
Qed.

Lemma unwaits_fwd g i G w w' I I' h H :
  unwaits g i G w w' I I' -> w_heap w !! h = Some H -> exists H', w_heap w' !! h = Some H'.
Proof.
  intros [_ (Hg & Hg' & _) (Hi & Hi') _ _ _ _ Hoth _] Hh.
  destruct (decide (h = g)) as [->|Hhg]; [by eexists|]. destruct (decide (h = i)) as [->|Hhi]; [by eexists|].
  specialize (Hoth h Hhi Hhg). rewrite Hh in Hoth. inversion Hoth; eauto.
Qed.

Lemma same_class_path G G' : g_class G' = g_class G -> path_of G' = path_of G /\ gkey G' = gkey G.
Proof. intros E. unfold path_of, Worker.gkey. by rewrite E. Qed.

Lemma Graph_unwait g i G R w w' I I' :
  Graph (Some g) (i :: R) w -> i <> g -> unwaits g i G w w' I I' -> Graph (Some g) R w'.
Proof.
  intros HG Hne HU. pose proof (fun h H' => unwaits_back _ _ _ _ _ _ _ _ h H' HG Hne HU) as Hb.
  pose proof (fun h H => unwaits_fwd _ _ _ _ _ _ _ h H HU) as Hf.
  pose proof HU as [(Ha & Hm & Ht) (Hg & Hg' & HnB) (Hi & Hi') _ Hwf Hsub Hnot _ Hkeep].
  assert (forall h, used w' h <-> used w h) as Hu by (intros; unfold used; by rewrite Ha).
  constructor; rewrite ?Hm, ?Ht.
  - intros h H' (H & HH & _)%Hb. apply Hu. by eapply (gr_used _ _ _ HG).
  - intros h H' (H & HH & E & _)%Hb. unfold is_path. rewrite E. by apply (gr_path _ _ _ HG h).
  - intros h H' HH'. destruct (decide (h = i)) as [->|Hhi]; [by simplify_eq|].
    apply Hb in HH' as (H & HH & _ & _ & E & _). rewrite E by done. by eapply (gr_waitees_wf _ _ _ HG).
  - intros j J' k h HJ' Hk. destruct (Hb _ _ HJ') as (J & HJ & E1 & _ & _ & Hs & _).
    destruct (gr_waitees _ _ _ HG _ _ _ _ HJ (Hs _ Hk)) as (H & HH & Ek & Hin & Hr & HB).
    destruct (Hf _ _ HH) as (H' & HH'). exists H'. split; [done|].
    destruct (Hb _ _ HH') as (H2 & HH2 & E2 & E3 & _ & _ & _ & Hin2 & _). simplify_eq.
    destruct (same_class_path _ _ E1) as [-> _], (same_class_path _ _ E2) as [-> ->].
    unfold busy. rewrite E3. split; [done|]. split; [|done]. apply Hin2; [done|]. intros ->.
    rewrite Hi' in HJ'. by simplify_eq.
  - intros h H' j J' HH' Hin HJ'. destruct (Hb _ _ HH') as (H & HH & E1 & _ & _ & _ & Hin1 & _).
    destruct (Hb _ _ HJ') as (J & HJ & _ & _ & E2 & _). destruct (same_class_path _ _ E1) as [_ ->].
    destruct (Hin1 _ Hin) as [Hin2 Hji]. destruct (decide (j = i)) as [->|Hj].
    + rewrite Hi' in HJ'. simplify_eq. auto.
    + rewrite E2 by done. by eapply (gr_waiters _ _ _ HG).
  - intros h H' (H & HH & _ & _ & _ & _ & _ & _ & Hw)%Hb. done.
  - intros h H' j HH' Hin. apply Hb in HH' as (H & HH & _ & _ & _ & _ & Hin1 & _).
    apply Hu. by eapply (gr_waiters_used _ _ _ HG), Hin1.
  - intros h H' HH' HB. apply Hb in HH' as (H & HH & E1 & E2 & _). destruct (same_class_path _ _ E1) as [-> _].
    apply (gr_map_busy _ _ _ HG); [done|]. unfold busy in *. congruence.
  - intros p h H' Hp HH'. apply Hb in HH' as (H & HH & E1 & E2 & _). destruct (same_class_path _ _ E1) as [-> _].
    unfold busy. rewrite E2. by apply (gr_map_alive _ _ _ HG).
  - intros j J' h H' Hx HJ' HH' HB. apply Hb in HJ' as (J & HJ & E1 & _). apply Hb in HH' as (H & HH & E2 & E3 & _).
    destruct (same_class_path _ _ E1) as [-> _], (same_class_path _ _ E2) as [-> _].
    eapply (gr_self _ _ _ HG); [done|done|done|]. unfold busy in *. congruence.
  - apply (gr_map_nodup _ _ _ HG).
  - intros p h Hp. apply Hu. by eapply (gr_map_used _ _ _ HG).
  - apply (gr_top_wf _ _ _ HG).
  - intros k h Hk. destruct (gr_top _ _ _ HG k h Hk) as (H & HH & <- & HB). destruct (Hf _ _ HH) as (H' & HH').
    exists H'. split; [done|]. destruct (Hb _ _ HH') as (H2 & HH2 & E1 & E2 & _). simplify_eq.
    destruct (same_class_path _ _ E1) as [_ ->]. unfold busy. by rewrite E2.
  - intros Hk h H' HH' HB. destruct (Hb _ _ HH') as (H & HH & E1 & E2 & _).
    assert (busy H) as HB' by (unfold busy in *; congruence).
    destruct (gr_held _ _ _ HG Hk h H HH HB') as [?|(j & J & HJ & Hj)]; [left; by rewrite Ht|].
    destruct (Hf _ _ HJ) as (J' & HJ'). right. exists j, J'. split; [done|].
    destruct (Hb _ _ HJ') as (J2 & HJ2 & _ & _ & E3 & _). simplify_eq.
    destruct (decide (j = i)) as [->|Hji]; [|by rewrite E3]. rewrite Hi' in HJ'. simplify_eq.
    apply list_elem_of_fmap in Hj as (kv & -> & Hkv). destruct (Hkeep Hk kv Hkv) as [?|E4].
    + apply list_elem_of_fmap. by exists kv.
    + rewrite E4, Hg in HH. simplify_eq.
Qed.

(** ** Statuses in flux *)

(** Equal up to the waiters. *)
Definition wsim (G G' : Goal) : Prop := set_waiters [] G' = set_waiters [] G.

Lemma wsim_fields G G' : wsim G G' ->
  g_class G' = g_class G /\ g_waitees G' = g_waitees G /\ g_nrFailed G' = g_nrFailed G /\
  g_exitCode G' = g_exitCode G /\ g_co G' = g_co G /\ g_thr G' = g_thr G.
Proof. destruct G, G'. unfold wsim. cbn. naive_solver. Qed.

Lemma status_wsim w act want rd G G' : wsim G G' -> status w act want rd G -> status w act want rd G'.
Proof.
  intros (E1 & E2 & E3 & E4 & E5 & E6)%wsim_fields. unfold status, ended, refs_ok, busy.
  destruct (same_class_path _ _ E1) as [-> _]. by rewrite E2, E3, E4, E5, E6.
Qed.

Lemma Slots_heap w w' :
  (forall h, option_Forall2 (fun H H' => g_class H' = g_class H /\ g_thr H' = g_thr H)
    (w_heap w !! h) (w_heap w' !! h)) ->
  w_children w' = w_children w -> w_nrSubstitutions w' = w_nrSubstitutions w ->
  w_wantingToBuild w' = w_wantingToBuild w -> w_store w' = w_store w ->
  Slots w -> Slots w'.
Proof.
  intros Hh Hc Hn Hw Hs HS.
  assert (forall h H', w_heap w' !! h = Some H' -> exists H, w_heap w !! h = Some H /\
    path_of H' = path_of H /\ g_thr H' = g_thr H) as Hb.
  { intros h H' HH. specialize (Hh h). rewrite HH in Hh. inversion Hh as [H H2 [E1 E2]|]; subst.
    exists H. split; [done|]. by destruct (same_class_path _ _ E1) as [-> _]. }
  destruct HS. constructor; rewrite ?Hc, ?Hn, ?Hw, ?Hs; try done.
  - intros c Hcc. destruct (sl_child0 c Hcc) as (G & HG & Hrest). specialize (Hh (ch_goal c)). rewrite HG in Hh.
    inversion Hh as [? G' [E1 E2]|]; subst. exists G'. by rewrite E2.
  - intros g G' (G & HG & _ & ->)%Hb. eauto.
  - intros g G' (G & HG & -> & ->)%Hb. eauto.
Qed.

Lemma Wakeups_heap x E B w w' :
  (forall h, h ∉ E -> option_Forall2 wsim (w_heap w !! h) (w_heap w' !! h)) ->
  (forall h, is_Some (w_heap w !! h) -> is_Some (w_heap w' !! h)) ->
  w_allocated w' = w_allocated w -> w_awake w' = w_awake w -> w_wantingToBuild w' = w_wantingToBuild w ->
  w_waitingForAnyGoal w' = w_waitingForAnyGoal w -> w_waitingForAWhile w' = w_waitingForAWhile w ->
  w_children w' = w_children w -> w_store w' = w_store w ->
  Wakeups x E B w -> Wakeups x E B w'.
Proof.
  intros Hh Hal Ha Haw Hwant H1 H2 Hc Hs [].
  assert (forall h, used w' h <-> used w h) as Hu by (intros; unfold used; by rewrite Ha).
  constructor; rewrite ?Haw, ?Hwant, ?H1, ?H2; try done.
  - intros h Hin. apply Hu. auto.
  - intros h Hin. apply Hu. auto.
  - intros h H' HH' He. specialize (Hh h He). rewrite HH' in Hh. inversion Hh as [H H'' HS HH|]; subst.
    eapply status_mono; [| | | |eapply status_wsim; [done|]; by apply wk_status0]; rewrite ?Hs; try done.
    unfold eof_read. by rewrite Hc.
  - intros Hk h Hin. apply Hal. auto.
Qed.

Lemma Inv_wake x R E B w i :
  Inv x R E B w -> i ∈ E -> is_Some (w_heap w !! i) -> i ∉ B ++ w_awake w -> x <> Some i ->
  Inv x R E B (wakeUp i w).
Proof.
  intros (HG & HS & []) Hi [I HI] Hna Hx. split; [by destruct HG|]. split; [by destruct HS|]. unfold wakeUp, addToWeakGoals.
  constructor; wsimpl; try done.
  - by apply sset_insert_wf.
  - apply NoDup_app in wk_nodup0 as (HB & HBa & _). apply NoDup_app. split; [done|].
    split; [|by apply sset_nodup, sset_insert_wf]. intros h Hh [->|?]%sset_insert_elem; set_solver.
  - intros h [?|[->|?]%sset_insert_elem]%elem_of_app; [apply wk_used0; set_solver| |apply wk_used0; set_solver].
    by eapply (gr_used _ _ _ HG).
  - intros h Hh. destruct (wk_self0 h Hh) as [? Hn]. split; [done|].
    intros [?|[->|?]%sset_insert_elem]%elem_of_app; set_solver.
  - intros h H HH He. eapply status_mono; [| | | |by apply wk_status0]; try done.
    rewrite !elem_of_app, sset_insert_elem. assert (h <> i) by (by intros ->). naive_solver.
  - intros Hk h [Hh|?]; [|auto]. apply elem_of_app in Hh as [?|[->|?]%sset_insert_elem]; [set_solver|done|set_solver].
Qed.

Lemma Inv_close x R E B w i I :
  Inv x R (i :: E) B w -> w_heap w !! i = Some I -> x <> Some i ->
  status w (i ∈ B ++ w_awake w) (i ∈ w_wantingToBuild w) (eof_read w i) I -> Inv x R E B w.
Proof.
  intros (HG & HS & []) Hi Hx Hst. split; [done|]. split; [done|]. constructor; try done.
  - intros g Hg. destruct (wk_self0 g Hg) as [[->|?]%elem_of_cons ?]; done.
  - intros g Hg. apply wk_exempt0. set_solver.
  - intros h H HH He. destruct (decide (h = i)) as [->|]; [by simplify_eq|].
    apply wk_status0; set_solver.
Qed.

(** What goals other than [x] keep during an operation. *)
Record evolves (x : option gid) (pins : list gid) (w w' : Worker) : Prop := {
  ev_valid : st_valid (w_store w) ⊆ st_valid (w_store w');
  ev_alloc : w_allocated w' = w_allocated w;
  ev_top : w_topGoals w' ⊆ w_topGoals w;
  ev_pins : forall p, p ∈ pins -> is_Some (w_heap w !! p) -> is_Some (w_heap w' !! p);
  ev_back : forall h H', w_heap w' !! h = Some H' -> exists H, w_heap w !! h = Some H /\
    g_class H' = g_class H /\
    (x <> Some h -> g_co H' = g_co H /\ g_thr H' = g_thr H /\ g_exitCode H' = g_exitCode H);
}.

Lemma evolves_refl x pins w : evolves x pins w w.
Proof. constructor; eauto 10. Qed.

Lemma evolves_trans x pins w w1 w2 : evolves x pins w w1 -> evolves x pins w1 w2 -> evolves x pins w w2.
Proof.
  intros [] []. constructor.
  - by etransitivity.
  - congruence.
  - by etransitivity.
  - auto.
  - intros h H2 HH2. destruct (ev_back1 _ _ HH2) as (H1 & HH1 & E1 & F1).
    destruct (ev_back0 _ _ HH1) as (H & HH & E & F). exists H. split; [done|]. split; [congruence|].
    intros Hx. destruct (F1 Hx) as (-> & -> & ->). auto.
Qed.

Lemma evolves_shrinks x pins pins' w w' : shrinks pins' w w' -> pins ⊆ pins' -> evolves x pins w w'.
Proof.
  intros [] Hp. constructor; try done.
  - by rewrite sh_top0.
  - intros p Hin. rewrite sh_pins0 by auto. done.
  - intros h H' HH'. exists H'. split; [by eapply lookup_weaken|done].
Qed.

(** The waiter after the erasure of [waitee], as [waiteeDone] leaves it. *)
Definition counted (result : ExitCode) (waitees : list (bytes * gid)) (I : Goal) : Goal :=
  set_failures (if failed_code result then S (g_nrFailed I) else g_nrFailed I)
    (if bool_decide (result = ecNoSubstituters) then S (g_nrNoSubstituters I) else g_nrNoSubstituters I)
    (if bool_decide (result = ecIncompleteClosure) then S (g_nrIncompleteClosure I) else g_nrIncompleteClosure I)
    (set_waitees waitees I).

(** A goal with waitees is waiting for references. *)
Lemma waiting_status w act want rd I : status w act want rd I -> g_waitees I <> [] ->
  exists a, g_co I = Some (Co_path_refs a) /\ busy I /\ g_thr I = None /\ attempt_ok a /\ refs_ok w I a /\
    ~ want /\ ~ act.
Proof. unfold status, ended. destruct (g_co I) as [[]|]; naive_solver. Qed.

(** Its references are still accounted for after a notification. *)
Lemma refs_ok_counted w w' G I a result waitees :
  refs_ok w I a -> st_valid (w_store w) ⊆ st_valid (w_store w') -> is_path G -> result <> ecBusy ->
  (result = ecSuccess -> path_of G ∈ st_valid (w_store w)) ->
  (forall k, k ∈ (g_waitees I).*1 -> k = gkey G \/ k ∈ waitees.*1 \/ failed_code result = true) ->
  refs_ok w' (counted result waitees I) a.
Proof.
  intros Hr Hv HG Hres Hok Hk r Hin Hne. change (path_of (counted result waitees I)) with (path_of I) in Hne.
  unfold counted. wsimpl.
  destruct (failed_code result) eqn:Ef; [by right; right; lia|].
  destruct (Hr r Hin Hne) as [?|[Hkey|?]]; [by left; apply Hv| |by right; right].
  destruct (Hk _ Hkey) as [Ek|[?|?]]; [|by right; left|done].
  rewrite gkey_of in Ek by done. unfold path_key in Ek. apply key_inj in Ek. subst r. left.
  apply Hv, Hok. destruct result; cbn in Ef; congruence.
Qed.

Lemma goals_erase_elem G s kv : kv ∈ goals_erase storeDir G s <-> kv ∈ s /\ kv.1 <> gkey G.
Proof. unfold goals_erase. rewrite list_elem_of_filter. tauto. Qed.

Lemma goals_erase_wf G s : smap_wf s -> smap_wf (goals_erase storeDir G s).
Proof.
  unfold smap_wf, goals_erase. induction s as [|[k v] s IH]; [done|].
  rewrite filter_cons. csimpl. intros [Hs Hk]%StronglySorted_inv. case_decide; [|auto]. csimpl. constructor; [auto|].
  rewrite Forall_forall in Hk |- *. intros k' ([k2 v2] & -> & [_ Hin]%list_elem_of_filter)%list_elem_of_fmap.
  apply Hk, list_elem_of_fmap. by exists (k2, v2).
Qed.

(** The loop that unregisters [i] with its remaining waitees. *)
Lemma unregister_lookup i (l : list (bytes * gid)) w h :
  w_heap (foldl (fun w kv => upd kv.2 (fun H => set_waiters (sset_erase i (g_waiters H)) H) w) w l) !! h =
  if decide (h ∈ l.*2) then (fun H => set_waiters (sset_erase i (g_waiters H)) H) <$> w_heap w !! h
  else w_heap w !! h.
Proof.
  revert w. induction l as [|[k j] l IH]; intros w; [done|]. cbn [foldl]. rewrite IH. csimpl. wsimpl.
  rewrite lookup_alter. repeat case_decide; subst; try set_solver.
  destruct (w_heap w !! h) as [K|]; [|done]. cbn. f_equal. unfold set_waiters. cbn. f_equal.
  unfold sset_erase. rewrite list_filter_filter. apply list_filter_iff. naive_solver.
Qed.

Lemma unregister_same i (l : list (bytes * gid)) w :
  exists h, foldl (fun w kv => upd kv.2 (fun H => set_waiters (sset_erase i (g_waiters H)) H) w) w l = set_heap h w.
Proof.
  revert w. induction l as [|kv l IH]; intros w; cbn [foldl]; [exists (w_heap w); by destruct w|].
  destruct (IH (upd kv.2 (fun H => set_waiters (sset_erase i (g_waiters H)) H) w)) as [h ->]. by exists h.
Qed.

Lemma smap_unique (m : list (bytes * gid)) k g h : smap_wf m -> (k, g) ∈ m -> (k, h) ∈ m -> h = g.
Proof. intros Hwf Hg%(smap_elem_lookup _ _ _ Hwf) Hh%(smap_elem_lookup _ _ _ Hwf). congruence. Qed.

Section notify.
Context (g i : gid) (G I : Goal) (R : list gid) (w : Worker) (result : ExitCode).
Hypothesis HG : Graph (Some g) (i :: R) w.
Hypothesis Hg : w_heap w !! g = Some G.
Hypothesis Hi : w_heap w !! i = Some I.
Hypothesis Hnb : ~ busy G.

Let waitees := goals_erase storeDir G (g_waitees I).

Lemma notify_waits : (gkey G, g) ∈ g_waitees I /\ i <> g.
Proof.
  assert ((gkey G, g) ∈ g_waitees I) as Hw.
  { eapply (gr_waiters _ _ _ HG); [done| |done]. unfold effective. rewrite decide_True by done. set_solver. }
  split; [done|]. intros ->. destruct (gr_waitees _ _ _ HG _ _ _ _ Hi Hw) as (G' & HG' & _ & _ & Hr & _).
  simplify_eq. lia.
Qed.

(** The goals that [i] is registered with. *)
Lemma notify_registered h H :
  w_heap w !! h = Some H -> h <> g -> i ∈ g_waiters H -> (gkey H, h) ∈ waitees.
Proof.
  intros HH Hne Hin. apply goals_erase_elem.
  assert ((gkey H, h) ∈ g_waitees I) as Hw.
  { eapply (gr_waiters _ _ _ HG); [done| |done]. unfold effective. by rewrite decide_False by congruence. }
  split; [done|]. cbn. intros E. apply Hne. rewrite E in Hw.
  eapply smap_unique; [eapply (gr_waitees_wf _ _ _ HG); exact Hi|apply notify_waits|done].
Qed.

Lemma notify_self h : h ∈ waitees.*2 -> h <> i /\ h <> g.
Proof.
  intros ([k h'] & -> & [Hk Hne]%goals_erase_elem)%list_elem_of_fmap.
  destruct (gr_waitees _ _ _ HG _ _ _ _ Hi Hk) as (H & HH & E & _ & Hr & _).
  split; cbn; intros ->; simplify_eq; first [lia|done].
Qed.

Lemma unwaits_one : unwaits g i G w (upd i (counted result waitees) w) I (counted result waitees I).
Proof.
  destruct notify_waits as [Hw Hne].
  constructor; wsimpl; try done.
  - by rewrite lookup_alter_ne.
  - by rewrite lookup_alter_eq, Hi.
  - by eapply goals_erase_wf, (gr_waitees_wf _ _ _ HG).
  - intros kv [? _]%goals_erase_elem. done.
  - by intros [_ []]%goals_erase_elem.
  - intros h Hhi Hhg. rewrite lookup_alter_ne by done. destruct (w_heap w !! h) as [H|] eqn:HH; constructor.
    split_and!; try done. intros j. split; [|by intros []]. intros Hj. split; [done|]. intros ->.
    by apply notify_registered.
  - intros _ [k h] Hk. destruct (decide (k = gkey G)) as [->|Hk'].
    + right. eapply smap_unique; [eapply (gr_waitees_wf _ _ _ HG); exact Hi|done|done].
    + left. apply goals_erase_elem. done.
Qed.

Definition unwait_all : Worker :=
  upd i (set_waitees [])
    (foldl (fun w kv => upd kv.2 (fun H => set_waiters (sset_erase i (g_waiters H)) H) w)
       (upd i (counted result waitees) w) waitees).

Lemma unwait_all_lookup h :
  w_heap unwait_all !! h =
  if decide (h = i) then Some (counted result [] I)
  else if decide (h ∈ waitees.*2) then (fun H => set_waiters (sset_erase i (g_waiters H)) H) <$> w_heap w !! h
  else w_heap w !! h.
Proof.
  unfold unwait_all. wsimpl. rewrite lookup_alter.
  destruct (decide (i = h)) as [<-|Hih]; rewrite unregister_lookup; wsimpl.
  - rewrite decide_False by (by intros ?%notify_self; destruct_and?). rewrite lookup_alter_eq, Hi.
    by rewrite decide_True by done.
  - rewrite lookup_alter_ne by done. by rewrite (decide_False (P := h = i)) by congruence.
Qed.

Lemma unwait_all_same : exists h, unwait_all = set_heap h w.
Proof.
  unfold unwait_all. destruct (unregister_same i waitees (upd i (counted result waitees) w)) as [h ->].
  eexists. by unfold upd, set_heap.
Qed.

Lemma unwaits_all :
  (s_keepGoing settings = true -> waitees = []) ->
  unwaits g i G w unwait_all I (counted result [] I).
Proof.
  intros Hkeep. destruct notify_waits as [Hw Hne]. destruct unwait_all_same as [hp Hs].
  constructor; rewrite ?unwait_all_lookup; try done.
  - by rewrite Hs.
  - rewrite decide_False by done. rewrite decide_False; [done|]. by intros ?%notify_self; destruct_and?.
  - by rewrite decide_True.
  - constructor.
  - wsimpl. set_solver.
  - wsimpl. set_solver.
  - intros h Hhi Hhg. rewrite unwait_all_lookup, decide_False by done.
    destruct (w_heap w !! h) as [H|] eqn:HH; case_decide as Hin; cbn [fmap option_fmap option_map];
      constructor; wsimpl; split_and!; try done; try apply sset_erase_wf.
    + intros j. rewrite sset_erase_elem. set_solver.
    + intros j. split; [|by intros []]. intros Hj. split; [done|]. intros ->. destruct Hin.
      apply list_elem_of_fmap. exists (gkey H, h). split; [done|]. by apply notify_registered.
  - intros Hk [k h] Hkh. right. destruct (decide (k = gkey G)) as [->|Hk'].
    + eapply smap_unique; [eapply (gr_waitees_wf _ _ _ HG); exact Hi|done|done].
    + assert ((k, h) ∈ waitees) as Hin by (by apply goals_erase_elem). rewrite Hkeep in Hin by done. set_solver.
Qed.
End notify.

Lemma evolves_upd x pins w g f :
  (forall G, g_class (f G) = g_class G /\ (x <> Some g -> g_co (f G) = g_co G /\ g_thr (f G) = g_thr G /\
     g_exitCode (f G) = g_exitCode G)) ->
  evolves x pins w (upd g f w).
Proof.
  intros Hf. constructor; wsimpl; try done.
  - intros p _. by rewrite lookup_alter_is_Some.
  - intros h H'. rewrite lookup_alter. case_decide; [subst|by eauto 10].
    intros (H & HH & ->)%fmap_Some. exists H. split; [done|]. apply Hf.
Qed.

(** The invariant while [i] is being notified. *)
Lemma Inv_unwait g i G I I' R B w w' h :
  Inv (Some g) (i :: R) [g] B w -> i <> g -> i ∉ w_wantingToBuild w ->
  unwaits g i G w w' I I' -> w' = set_heap h w ->
  (forall j, j <> i -> option_Forall2 wsim (w_heap w !! j) (w_heap w' !! j)) -> g_thr I' = g_thr I ->
  Inv (Some g) R [i; g] B w'.
Proof.
  intros HI Hne Hwant HU -> Hsim Ht. pose proof HI as (HG & HS & _).
  destruct (Inv_exempt _ _ _ _ _ _ HI Hwant) as (_ & _ & HW').
  destruct (uw_i _ _ _ _ _ _ _ HU) as [Hi Hi'].
  split; [by eapply Graph_unwait|]. split.
  - apply (Slots_heap w); [|done..]. intros j. destruct (decide (j = i)) as [->|Hj].
    + rewrite Hi, Hi'. constructor. split; [apply HU|done].
    + destruct (Hsim j Hj) as [J J' (E1 & _ & _ & _ & _ & E2)%wsim_fields|]; by constructor.
  - apply (Wakeups_heap _ _ _ w); [..|done]; try done.
    + intros j Hj. apply Hsim. set_solver.
    + intros j Hj. destruct (decide (j = i)) as [->|Hji]; [by rewrite Hi'|].
      destruct (Hsim j Hji); [by eexists|by destruct Hj].
Qed.

(** The status of a goal that waits for references, after a notification. *)
Lemma status_counted w w' G I a result waitees act' want' rd' :
  g_co I = Some (Co_path_refs a) -> busy I -> g_thr I = None -> attempt_ok a ->
  refs_ok w I a -> st_valid (w_store w) ⊆ st_valid (w_store w') -> is_path G -> result <> ecBusy ->
  (result = ecSuccess -> path_of G ∈ st_valid (w_store w)) ->
  (forall k, k ∈ (g_waitees I).*1 -> k = gkey G \/ k ∈ waitees.*1 \/ failed_code result = true) ->
  ~ want' -> (waitees = [] <-> act') ->
  status w' act' want' rd' (counted result waitees I).
Proof.
  intros Hco HB Ht Ha Hr Hv Hp Hres Hok Hk Hw Hact. unfold status. unfold counted at 1. wsimpl. rewrite Hco.
  split; [exact HB|]. split; [exact Ht|]. split; [done|]. split; [by eapply refs_ok_counted|]. done.
Qed.

Lemma evolves_unwait_all x g i G I R pins w result :
  Graph (Some g) (i :: R) w -> w_heap w !! g = Some G -> w_heap w !! i = Some I ->
  evolves x pins w (unwait_all i G I w result).
Proof.
  intros HG Hg Hi. destruct (unwait_all_same i G I w result) as [hp Hs].
  pose proof (unwait_all_lookup g i G I R w result HG Hg Hi) as Hl.
  constructor; try by rewrite Hs.
  - intros p _ [P HP]. rewrite Hl, HP. repeat case_decide; by eexists.
  - intros h H'. rewrite Hl. case_decide as Eh; [subst; intros [= <-]; by exists I|].
    case_decide; [|by eauto 10]. intros (K & HK & ->)%fmap_Some. by exists K.
Qed.

(** The notification of one waiter. *)
Lemma waiteeDone_ok late pins g i G I R B result w :
  Inv (Some g) (i :: R) [g] B w -> w_heap w !! g = Some G -> w_heap w !! i = Some I -> g ∈ pins ->
  g_exitCode G = result -> result <> ecBusy -> (result = ecSuccess -> path_of G ∈ st_valid (w_store w)) ->
  exists w', waiteeDone settings storeDir late pins i g result w = Ok w' /\ Inv (Some g) R [g] B w' /\
    w_heap w' !! g = Some G /\ evolves (Some g) pins w w'.
Proof.
  intros HI Hg Hi Hp Hres Hnb Hok. pose proof HI as (HG & HS & HW).
  assert (~ busy G) as HnB by (unfold busy; congruence).
  destruct (notify_waits _ _ _ _ _ _ HG Hg Hi HnB) as [Hw Hne].
  assert (g_waitees I <> []) as Hne' by (intros E; rewrite E in Hw; set_solver).
  destruct (waiting_status _ _ _ _ _ (wk_status _ _ _ _ HW i I Hi ltac:(set_solver)) Hne')
    as (a & Hco & HB & Ht & Ha & Hr & Hwant & Hact).
  pose proof (gr_path _ _ _ HG _ _ Hg) as HpG.
  unfold waiteeDone, deref. rewrite Hi, Hg. cbn [rbind].
  assert (goals_mem storeDir G (g_waitees I) = true) as ->.
  { apply bool_decide_eq_true, list_elem_of_fmap. by exists (gkey G, g). }
  cbn [assert_ rbind]. set (waitees := goals_erase storeDir G (g_waitees I)).
  assert (forall k, k ∈ (g_waitees I).*1 -> k = gkey G \/ k ∈ waitees.*1) as Hks.
  { intros k ([k' h] & -> & Hk)%list_elem_of_fmap. destruct (decide (k' = gkey G)) as [->|Hk']; [by left|right].
    apply list_elem_of_fmap. exists (k', h). split; [done|]. by apply goals_erase_elem. }
  case_match eqn:Hcond.
  - change (upd i (set_waitees []) _) with (unwait_all i G I w result).
    assert (s_keepGoing settings = true -> waitees = []) as Hkeep.
    { intros Hk. rewrite Hk, andb_false_r, orb_false_r in Hcond. by apply bool_decide_eq_true in Hcond. }
    pose proof (unwaits_all g i G I R w result HG Hg Hi HnB Hkeep) as HU.
    destruct (unwait_all_same i G I w result) as [hp Hsame].
    assert (Inv (Some g) R [i; g] B (unwait_all i G I w result)) as HI1.
    { eapply Inv_unwait; [done|done|done|done|done| |done]. intros j Hj.
      rewrite (unwait_all_lookup g i G I R w result HG Hg Hi), decide_False by done.
      destruct (decide (j ∈ (goals_erase storeDir G (g_waitees I)).*2)), (w_heap w !! j); by constructor. }
    destruct (collect_ok late _ _ _ _ (i :: pins) _ HI1 ltac:(set_solver)) as (w2 & -> & HI2 & Hsh & _).
    cbn [rbind]. exists (wakeUp i w2). split; [done|].
    assert (w_heap w2 !! i = Some (counted result [] I)) as Hi2.
    { rewrite (sh_pins _ _ _ Hsh i) by set_solver. apply (uw_i _ _ _ _ _ _ _ HU). }
    assert (i ∉ w_wantingToBuild w2) as Hwant2.
    { intros Hin%(sh_want _ _ _ Hsh). by rewrite Hsame in Hin. }
    assert (i ∉ B ++ w_awake w2) as Hact2.
    { intros [?|[Hin|Hin]%(sh_awake _ _ _ Hsh)]%elem_of_app; [set_solver|..]; rewrite Hsame in Hin; set_solver. }
    split; [|split].
    + eapply Inv_close; [apply Inv_wake; [done|set_solver|done|done|congruence]|done|congruence|].
      eapply status_counted; [exact Hco|exact HB|exact Ht|exact Ha|exact Hr| |exact HpG|exact Hnb|exact Hok| |done|].
      * transitivity (st_valid (w_store (unwait_all i G I w result))); [by rewrite Hsame|apply Hsh].
      * intros k [->|Hk]%Hks; [by left|]. apply orb_true_iff in Hcond as [E%bool_decide_eq_true|E].
        { rewrite E in Hk. set_solver. }
        apply andb_true_iff in E as [->%bool_decide_eq_true _]. by right; right.
      * split; [|done]. intros _. apply elem_of_app. right. by apply sset_insert_elem; left.
    + wsimpl. rewrite (sh_pins _ _ _ Hsh g) by set_solver. apply (uw_g _ _ _ _ _ _ _ HU).
    + eapply evolves_trans; [by apply (evolves_unwait_all _ g i G I R)|].
      eapply evolves_trans; [eapply evolves_shrinks; [done|set_solver]|]. constructor; wsimpl; eauto 10.
  - exists (upd i (counted result waitees) w). split; [done|].
    pose proof (unwaits_one g i G I R w result HG Hg Hi HnB) as HU.
    assert (Inv (Some g) R [i; g] B (upd i (counted result waitees) w)) as HI1.
    { eapply Inv_unwait; [done|done|done|done|done| |done]. intros j Hj. wsimpl. rewrite lookup_alter_ne by done.
      destruct (w_heap w !! j); by constructor. }
    split; [|split; [by apply HU|by apply evolves_upd]].
    eapply Inv_close; [done|by apply HU|congruence|]. wsimpl.
    eapply status_counted; try done; [naive_solver|]. split; [|done].
    intros E. rewrite bool_decide_true in Hcond by done. done.
Qed.

Lemma notify_waiters_ok late pins g G R B result w :
  Inv (Some g) R [g] B w -> w_heap w !! g = Some G -> g ∈ pins ->
  g_exitCode G = result -> result <> ecBusy -> (result = ecSuccess -> path_of G ∈ st_valid (w_store w)) ->
  exists w', notify_waiters settings storeDir late pins R g result w = Ok w' /\ Inv (Some g) [] [g] B w' /\
    w_heap w' !! g = Some G /\ evolves (Some g) pins w w'.
Proof.
  revert w. induction R as [|i R IH]; intros w HI Hg Hp Hres Hnb Hok; cbn [notify_waiters].
  { exists w. auto using evolves_refl. }
  unfold alive. case_bool_decide as Hal.
  - destruct Hal as [I Hi].
    destruct (waiteeDone_ok late _ _ _ _ _ _ _ _ _ HI Hg Hi Hp Hres Hnb Hok) as (w1 & -> & HI1 & Hg1 & Hev).
    cbn [rbind]. destruct (IH w1 HI1 Hg1 Hp Hres Hnb) as (w2 & -> & HI2 & Hg2 & Hev2).
    { intros E. by apply (ev_valid _ _ _ _ Hev), Hok. }
    exists w2. split_and!; try done. by eapply evolves_trans.
  - cbn [rbind]. apply IH; try done. destruct HI as (HG & ?). split; [|done].
    eapply Graph_skip; [done|]. by apply eq_None_not_Some.
Qed.

(** ** Ending *)

(** Changes to the running goal that the graph does not see. *)
Lemma Graph_self g R w f :
  (forall G, g_class (f G) = g_class G /\ g_waitees (f G) = g_waitees G /\ (busy (f G) -> busy G)) ->
  Graph (Some g) R w -> Graph (Some g) R (upd g f w).
Proof.
  intros Hf HG.
  assert (forall h H', alter f g (w_heap w) !! h = Some H' -> exists H, w_heap w !! h = Some H /\
    g_class H' = g_class H /\ g_waitees H' = g_waitees H /\ (busy H' -> busy H) /\
    effective (Some g) R h H' = effective (Some g) R h H /\ (Some g <> Some h -> busy H -> busy H')) as Hb.
  { intros h H'. rewrite lookup_alter. unfold effective. case_decide as E; [subst|].
    - intros (H & HH & ->)%fmap_Some. exists H. destruct (Hf H) as (? & ? & ?). rewrite !decide_True by done.
      split_and!; congruence || done.
    - intros HH. exists H'. rewrite !decide_False by congruence. split_and!; done. }
  assert (forall h H, w_heap w !! h = Some H -> exists H', alter f g (w_heap w) !! h = Some H') as Hfw.
  { intros h H HH. rewrite lookup_alter. case_decide; [subst; rewrite HH|]; eauto. }
  destruct HG. constructor; wsimpl; try done.
  - intros h H' (H & HH & _)%Hb. eauto.
  - intros h H' (H & HH & E & _)%Hb. unfold is_path. rewrite E. by apply (gr_path0 h).
  - intros h H' (H & HH & _ & E & _)%Hb. rewrite E. eauto.
  - intros j J' k h (J & HJ & E1 & E2 & _)%Hb Hk. rewrite E2 in Hk.
    destruct (gr_waitees0 _ _ _ _ HJ Hk) as (H & HH & <- & Hin & Hr & HB).
    destruct (Hfw _ _ HH) as (H' & HH'). exists H'. destruct (Hb _ _ HH') as (H2 & HH2 & E3 & _ & _ & E4 & E5).
    simplify_eq. rewrite E4. destruct (same_class_path _ _ E1) as [-> _], (same_class_path _ _ E3) as [-> ->].
    split_and!; auto.
  - intros h H' j J' (H & HH & E1 & _ & _ & E2 & _)%Hb Hin (J & HJ & _ & E3 & _)%Hb.
    destruct (same_class_path _ _ E1) as [_ ->]. rewrite E3. rewrite E2 in Hin. eauto.
  - intros h H' (H & HH & _ & _ & _ & E & _)%Hb. rewrite E. eauto.
  - intros h H' j (H & HH & _ & _ & _ & E & _)%Hb. rewrite E. eauto.
  - intros h H' (H & HH & E & _ & HB & _)%Hb. destruct (same_class_path _ _ E) as [-> _]. eauto.
  - intros p h H' Hp (H & HH & E & _ & _ & _ & HB)%Hb. destruct (same_class_path _ _ E) as [-> _].
    destruct (gr_map_alive0 _ _ _ Hp HH). auto.
  - intros j J' h H' Hx (J & HJ & E1 & _)%Hb (H & HH & E2 & _ & HB & _)%Hb.
    destruct (same_class_path _ _ E1) as [-> _], (same_class_path _ _ E2) as [-> _]. eauto.
  - intros k h Hk. destruct (gr_top0 _ _ Hk) as (H & HH & <- & HB). destruct (Hfw _ _ HH) as (H' & HH').
    exists H'. destruct (Hb _ _ HH') as (H2 & HH2 & E & _ & _ & _ & E2). simplify_eq.
    destruct (same_class_path _ _ E) as [_ ->]. auto.
  - intros Hk h H' (H & HH & _ & _ & HB & _)%Hb HB'. destruct (gr_held0 Hk _ _ HH (HB HB')) as [?|(j & J & HJ & Hj)].
    + by left.
    + right. destruct (Hfw _ _ HJ) as (J' & HJ'). exists j, J'. split; [done|].
      destruct (Hb _ _ HJ') as (J2 & HJ2 & _ & -> & _). by simplify_eq.
Qed.

(** Forgetting the running goal in the map and among the top-level goals. *)
Lemma weak_lookup_filter (m : list (StorePath * gid)) g p h :
  NoDup m.*1 ->
  weak_lookup p (filter (fun kv => kv.2 <> g) m) = Some h <-> weak_lookup p m = Some h /\ h <> g.
Proof.
  induction m as [|[q j] m IH]; intros Hnd; [naive_solver|]. csimpl in Hnd. apply NoDup_cons in Hnd as [Hq Hnd].
  rewrite filter_cons. cbn [snd weak_lookup].
  assert (weak_lookup q m = None) as HNone.
  { clear IH Hnd. induction m as [|[q' j'] m IH]; [done|]. csimpl in Hq. cbn [weak_lookup].
    rewrite bool_decide_false by set_solver. apply IH. set_solver. }
  case_decide as Hj; cbn [weak_lookup]; case_bool_decide as Hp; subst; try by rewrite IH.
  - naive_solver.
  - rewrite IH, HNone by done. naive_solver.
Qed.

Lemma Graph_forget g R w G :
  Graph (Some g) R w -> w_heap w !! g = Some G -> ~ busy G ->
  Graph (Some g) R (set_goalMaps (filter (fun kv => kv.2 <> g) (w_substitutionGoals w))
    (w_drvOutputSubstitutionGoals w) w).
Proof.
  intros [] Hg HnB. constructor; wsimpl; try done.
  - intros h H HH HB. apply weak_lookup_filter; [done|]. split; [by apply gr_map_busy0|].
    intros ->. by simplify_eq.
  - intros p h H [Hp _]%weak_lookup_filter HH; eauto.
  - eapply sublist_NoDup; [exact gr_map_nodup0|]. apply fmap_sublist, sublist_filter.
  - intros p h [Hp _]%weak_lookup_filter; eauto.
Qed.

Lemma Graph_top g R w t :
  Graph (Some g) R w -> smap_wf t -> t ⊆ w_topGoals w ->
  (s_keepGoing settings = true -> forall kv, kv ∈ w_topGoals w -> kv ∈ t \/ kv.2 = g) ->
  (forall G, w_heap w !! g = Some G -> ~ busy G) ->
  Graph (Some g) R (set_topGoals t w).
Proof.
  intros [] Hwf Hsub Hkeep HnB. constructor; wsimpl; try done.
  - intros k h Hk. apply gr_top0. by apply Hsub.
  - intros Hk h H HH HB. destruct (gr_held0 Hk _ _ HH HB) as [(kv & -> & Hkv)%list_elem_of_fmap|?]; [|by right].
    left. wsimpl. destruct (Hkeep Hk kv Hkv) as [?|E]; [by apply list_elem_of_fmap; exists kv|].
    rewrite E in HH. destruct (HnB _ HH HB).
Qed.

Lemma Graph_end g w G :
  Graph (Some g) [] w -> w_heap w !! g = Some G -> g_waiters G = [] ->
  (forall p, weak_lookup p (w_substitutionGoals w) <> Some g) -> (forall kv, kv ∈ w_topGoals w -> kv.2 <> g) ->
  Graph None [] w.
Proof.
  intros [] Hg Hw Hm Ht.
  assert (forall h H, w_heap w !! h = Some H -> effective (Some g) [] h H = g_waiters H) as Heff.
  { intros h H HH. unfold effective. case_decide; [|done]. simplify_eq. done. }
  assert (forall h H, effective None [] h H = g_waiters H) as Heff' by done.
  constructor; try done; try setoid_rewrite Heff'.
  - intros j J k h HJ Hk. destruct (gr_waitees0 _ _ _ _ HJ Hk) as (H & HH & ? & Hin & ? & HB). exists H.
    rewrite Heff in Hin by done. split_and!; try done. intros _. apply HB. intros [= <-].
    simplify_eq. rewrite Hw in Hin. set_solver.
  - intros h H j J HH Hin HJ. rewrite <- (Heff h H HH) in Hin. eauto.
  - intros h H HH. rewrite <- (Heff h H HH). eauto.
  - intros h H j HH Hin. rewrite <- (Heff h H HH) in Hin. eauto.
  - intros p h H Hp HH. destruct (gr_map_alive0 _ _ _ Hp HH) as [? HB]. split; [done|]. intros _. apply HB.
    intros [= <-]. by apply (Hm p).
  - intros k h Hk. destruct (gr_top0 _ _ Hk) as (H & HH & ? & HB). exists H. split_and!; try done. intros _.
    apply HB. intros [= <-]. by apply (Ht _ Hk).
Qed.

(** Changes to the running goal between its suspensions. *)
Lemma Inv_self g R B w f :
  (forall G, g_class (f G) = g_class G /\ g_waitees (f G) = g_waitees G /\ g_thr (f G) = g_thr G /\
     (busy (f G) -> busy G)) ->
  Inv (Some g) R [g] B w -> Inv (Some g) R [g] B (upd g f w).
Proof.
  intros Hf (HG & HS & HW). split; [apply Graph_self; [|done]; intros G; destruct (Hf G); naive_solver|].
  assert (forall h, h <> g -> alter f g (w_heap w) !! h = w_heap w !! h) as Hne.
  { intros h Hh. by rewrite lookup_alter_ne. }
  split.
  - apply (Slots_heap w); [|done..]. intros h. wsimpl. rewrite lookup_alter. case_decide as E; [subst h|].
    + destruct (w_heap w !! g) as [G|]; cbn; constructor. by destruct (Hf G) as (? & _ & ? & _).
    + destruct (w_heap w !! h); by constructor.
  - apply (Wakeups_heap _ _ _ w); [..|done]; try done; wsimpl.
    + intros h Hh. rewrite Hne by set_solver. destruct (w_heap w !! h); by constructor.
    + intros h. by rewrite lookup_alter_is_Some.
Qed.

(** The part of [removeGoal] on the top-level goals. *)
Lemma remove_top late pins g G B w :
  Inv (Some g) [] [g] B w -> w_heap w !! g = Some G -> ~ busy G -> g ∈ pins ->
  exists w',
    (if goals_mem storeDir G (w_topGoals w)
     then collect late pins (set_topGoals
       (if bool_decide (g_exitCode G = ecFailed) && negb (s_keepGoing settings) then []
        else goals_erase storeDir G (w_topGoals w)) w)
     else Ok w) = Ok w' /\ Inv (Some g) [] [g] B w' /\ w_heap w' !! g = Some G /\ evolves (Some g) pins w w' /\
    w_substitutionGoals w' = w_substitutionGoals w /\ (forall kv, kv ∈ w_topGoals w' -> kv.2 <> g).
Proof.
  intros HI Hg HnB Hp. pose proof HI as (HG & HS & HW).
  assert (forall k h, (k, h) ∈ w_topGoals w -> h = g -> k = gkey G) as Hkey.
  { intros k h Hk ->. destruct (gr_top _ _ _ HG _ _ Hk) as (G' & HG' & <- & _). by simplify_eq. }
  unfold goals_mem. case_bool_decide as Hmem.
  - set (t := if bool_decide (g_exitCode G = ecFailed) && negb (s_keepGoing settings) then []
             else goals_erase storeDir G (w_topGoals w)).
    assert (t ⊆ goals_erase storeDir G (w_topGoals w)) as Ht by (unfold t; case_match; set_solver).
    assert (Inv (Some g) [] [g] B (set_topGoals t w)) as HI1.
    { split; [|split; [by destruct HS|by destruct HW]]. apply Graph_top; [done| | | |].
      - unfold t. case_match; [constructor|]. apply goals_erase_wf, (gr_top_wf _ _ _ HG).
      - intros kv [? _]%Ht%goals_erase_elem. done.
      - intros Hk [k h] Hkv. unfold t. rewrite Hk, andb_false_r.
        destruct (decide (k = gkey G)) as [->|]; [right|left; by apply goals_erase_elem].
        destruct (gr_top _ _ _ HG _ _ Hkv) as (K & HK & EK & HB). cbn. destruct (decide (h = g)) as [|Hne]; [done|].
        eapply (gr_self _ _ _ HG); [done|done|done|apply HB; congruence|].
        apply gkey_path; [by eapply (gr_path _ _ _ HG)..|done].
      - intros K HK. by simplify_eq. }
    destruct (collect_ok late _ _ _ _ pins _ HI1 ltac:(set_solver)) as (w2 & -> & HI2 & Hsh & _).
    exists w2. split; [done|]. split; [done|]. split; [by rewrite (sh_pins _ _ _ Hsh)|]. split; [|split].
    + eapply evolves_trans; [|by eapply evolves_shrinks]. constructor; wsimpl; eauto 10.
      intros kv [? _]%Ht%goals_erase_elem. done.
    + by rewrite (sh_map _ _ _ Hsh).
    + rewrite (sh_top _ _ _ Hsh). wsimpl. intros [k h] [Hk Hne]%Ht%goals_erase_elem E. by eapply Hne, Hkey.
  - exists w. split_and!; try done; [apply evolves_refl|]. intros [k h] Hk E. apply Hmem, list_elem_of_fmap.
    exists (k, h). split; [|done]. symmetry. by eapply Hkey.
Qed.

Lemma removeGoal_ok late pins g G B w :
  Inv (Some g) [] [g] B w -> w_heap w !! g = Some G -> ~ busy G -> g ∈ pins ->
  exists w', removeGoal settings storeDir late pins g w = Ok w' /\ Inv (Some g) [] [g] B w' /\
    w_heap w' !! g = Some G /\ evolves (Some g) pins w w' /\
    (forall p, weak_lookup p (w_substitutionGoals w') <> Some g) /\ (forall kv, kv ∈ w_topGoals w' -> kv.2 <> g).
Proof.
  intros HI Hg HnB Hp. pose proof HI as (HG & HS & HW).
  unfold removeGoal, deref. rewrite Hg. cbn [rbind].
  destruct (gr_path _ _ _ HG _ _ Hg) as (p & r & Hpr). rewrite Hpr.
  set (w1 := set_goalMaps _ _ w).
  assert (Inv (Some g) [] [g] B w1) as HI1.
  { split; [by eapply Graph_forget|]. split; [by destruct HS|by destruct HW]. }
  assert (forall p, weak_lookup p (w_substitutionGoals w1) <> Some g) as Hm.
  { intros q [_ []]%weak_lookup_filter; [done|]. apply (gr_map_nodup _ _ _ HG). }
  destruct (remove_top late pins g G B w1 HI1 Hg HnB Hp) as (w2 & -> & HI2 & Hg2 & Hev & Hmap & Htop).
  cbn [rbind]. destruct (wk_waiting _ _ _ _ (proj2 (proj2 HI2))) as [E1 E2]. rewrite E1, E2.
  cbn [wake_all foldl]. replace (set_waiting [] [] w2) with w2 by (destruct w2; wsimpl; by subst).
  exists w2. split_and!; try done.
  - by destruct Hev.
  - intros q. rewrite Hmap. apply Hm.
Qed.

(** The running goal has ended. *)
Lemma end_ok g B w G :
  Inv (Some g) [] [g] B w -> w_heap w !! g = Some G -> g_waiters G = [] ->
  (forall p, weak_lookup p (w_substitutionGoals w) <> Some g) -> (forall kv, kv ∈ w_topGoals w -> kv.2 <> g) ->
  status w (g ∈ B ++ w_awake w) (g ∈ w_wantingToBuild w) (eof_read w g) G ->
  Inv None [] [] B w.
Proof.
  intros (HG & HS & HW) Hg Hw Hm Ht Hst. eapply Inv_close; [|done|done|exact Hst].
  split; [by eapply Graph_end|]. split; [done|]. by destruct HW.
Qed.

(** The running goal has been suspended. *)
Lemma suspend_ok g B w G :
  Inv (Some g) (g_waiters G) [g] B w -> w_heap w !! g = Some G -> busy G -> Inv None [] [g] B w.
Proof.
  intros (HG & HS & HW) Hg HB. split; [|split; [done|by destruct HW]]. destruct HG.
  assert (forall h H, w_heap w !! h = Some H -> effective (Some g) (g_waiters G) h H = effective None [] h H) as Heff.
  { intros h H HH. unfold effective. rewrite (decide_False (P := None = Some h)) by done.
    case_decide; [|done]. by simplify_eq. }
  constructor; try done.
  - intros j J k h HJ Hk. destruct (gr_waitees0 _ _ _ _ HJ Hk) as (H & HH & ? & Hin & ? & HBH). exists H.
    rewrite <- Heff by done. split_and!; try done. intros _. destruct (decide (h = g)) as [->|]; [by simplify_eq|].
    apply HBH. congruence.
  - intros h H j J HH. rewrite <- Heff by done. eauto.
  - intros h H HH. rewrite <- Heff by done. eauto.
  - intros h H j HH. rewrite <- Heff by done. eauto.
  - intros p h H Hp HH. destruct (gr_map_alive0 _ _ _ Hp HH) as [? HBH]. split; [done|]. intros _.
    destruct (decide (h = g)) as [->|]; [by simplify_eq|]. apply HBH. congruence.
  - intros k h Hk. destruct (gr_top0 _ _ Hk) as (H & HH & ? & HBH). exists H. split_and!; try done. intros _.
    destruct (decide (h = g)) as [->|]; [by simplify_eq|]. apply HBH. congruence.
Qed.

(** The goal starts to run. *)
Lemma resume_ok g B w G :
  Inv None [] [] (g :: B) w -> w_heap w !! g = Some G -> busy G -> g ∉ w_wantingToBuild w ->
  Inv (Some g) (g_waiters G) [g] B w.
Proof.
  intros (HG & HS & HW) Hg HB Hwant. destruct HG.
  assert (forall h H, w_heap w !! h = Some H -> effective (Some g) (g_waiters G) h H = effective None [] h H) as Heff.
  { intros h H HH. unfold effective. rewrite (decide_False (P := None = Some h)) by done.
    case_decide; [|done]. by simplify_eq. }
  split; [|split; [done|]].
  - constructor; try done.
    + intros j J k h HJ Hk. destruct (gr_waitees0 _ _ _ _ HJ Hk) as (H & HH & ? & Hin & ? & HBH). exists H.
      rewrite Heff by done. split_and!; auto.
    + intros h H j J HH. rewrite Heff by done. eauto.
    + intros h H HH. rewrite Heff by done. eauto.
    + intros h H j HH. rewrite Heff by done. eauto.
    + intros p h H Hp HH. destruct (gr_map_alive0 _ _ _ Hp HH). auto.
    + intros j J h H [= <-] HJ HH HBH E. simplify_eq. specialize (gr_map_busy0 _ _ Hg HB) as E1.
      specialize (gr_map_busy0 _ _ HH HBH) as E2. congruence.
    + intros k h Hk. destruct (gr_top0 _ _ Hk) as (H & HH & ? & HBH). exists H. auto.
  - destruct HW. cbn [app] in *. apply NoDup_cons in wk_nodup0 as [Hna Hnd]. constructor; try done.
    + intros h Hh. apply wk_used0. by right.
    + intros h [= <-]. split; [set_solver|done].
    + intros h ->%list_elem_of_singleton. done.
    + intros h H HH He. eapply status_mono; [| | | |apply wk_status0; [done|set_solver]]; try done.
      rewrite elem_of_cons. set_solver.
    + intros Hk h Hh. apply wk_alive0; [done|]. rewrite elem_of_cons. naive_solver.
Qed.

Lemma amDone_ok late pins g G B result w :
  Inv (Some g) (g_waiters G) [g] B w -> w_heap w !! g = Some G -> g ∈ pins ->
  busy G -> g_co G <> None -> g_waitees G = [] -> g_thr G = None ->
  result <> ecBusy -> (result = ecSuccess -> path_of G ∈ st_valid (w_store w)) ->
  exists w' G', amDone settings storeDir late pins g result w = Ok w' /\ Inv None [] [] B w' /\
    w_heap w' !! g = Some G' /\ g_co G' = None /\ g_exitCode G' = result /\ evolves (Some g) pins w w'.
Proof.
  intros HI Hg Hp HB Hco Hw Ht Hres Hok. unfold amDone, deref. rewrite Hg. cbn [rbind].
  rewrite (bool_decide_true (is_Some (g_co G))), (bool_decide_true (g_exitCode G = ecBusy)),
    (bool_decide_false (result = ecBusy)) by (done || by destruct (g_co G)).
  cbn [assert_ negb rbind].
  set (G1 := set_exitCode result G). set (w1 := upd g (set_exitCode result) w).
  assert (w_heap w1 !! g = Some G1) as Hg1 by (unfold w1; wsimpl; by rewrite lookup_alter_eq, Hg).
  assert (Inv (Some g) (g_waiters G) [g] B w1) as HI1.
  { apply Inv_self; [|done]. intros K. unfold busy. wsimpl. done. }
  destruct (notify_waiters_ok late pins g G1 _ B result w1 HI1 Hg1 Hp) as (w2 & -> & HI2 & Hg2 & Hev2); [done..|].
  cbn [rbind]. set (w3 := upd g (set_waiters []) w2).
  assert (w_heap w3 !! g = Some (set_waiters [] G1)) as Hg3 by (unfold w3; wsimpl; by rewrite lookup_alter_eq, Hg2).
  assert (Inv (Some g) [] [g] B w3) as HI3 by (by apply Inv_self).
  destruct (removeGoal_ok late pins g (set_waiters [] G1) B w3 HI3 Hg3) as (w4 & -> & HI4 & Hg4 & Hev4 & Hm & Htop); [done..|].
  cbn [rbind]. unfold cleanup, deref. rewrite Hg4. cbn [rbind].
  destruct (gr_path _ _ _ (proj1 HI) _ _ Hg) as (p & r & Hpr). unfold G1. wsimpl. rewrite Hpr.
  unfold join. wsimpl. rewrite Ht. cbn [rbind]. eexists _, (set_co None (set_waiters [] G1)).
  split; [done|]. split; [|split; [by wsimpl; rewrite lookup_alter_eq, Hg4|]; split; [done|]; split; [done|]].
  - eapply end_ok; [by apply Inv_self|by wsimpl; rewrite lookup_alter_eq, Hg4|done|done|done|].
    unfold status. wsimpl. split; [done|]. split; [|split].
    + split; [done|]. split; [done|]. intros E. wsimpl. apply (ev_valid _ _ _ _ Hev4), (ev_valid _ _ _ _ Hev2). auto.
    + by apply (wk_self _ _ _ _ (proj2 (proj2 HI4)) g).
    + apply (wk_exempt _ _ _ _ (proj2 (proj2 HI4)) g). set_solver.
  - eapply evolves_trans; [by apply (evolves_upd _ _ _ g (set_exitCode result))|].
    eapply evolves_trans; [done|]. eapply evolves_trans; [by apply (evolves_upd _ _ _ g (set_waiters []))|].
    eapply evolves_trans; [done|]. by apply evolves_upd.
Qed.

(** ** New goals and new waitees *)

Lemma weak_lookup_insert (m : list (StorePath * gid)) p q g :
  weak_lookup q (weak_insert p g m) = if decide (q = p) then Some g else weak_lookup q m.
Proof.
  unfold weak_insert. cbn [weak_lookup]. case_bool_decide as E; case_decide as E'; try done.
  induction m as [|[k h] m IH]; [done|]. rewrite filter_cons. cbn [fst].
  case_decide as Hk; cbn [weak_lookup]; case_bool_decide; try done; congruence.
Qed.

Lemma weak_insert_nodup (m : list (StorePath * gid)) p g : NoDup m.*1 -> NoDup (weak_insert p g m).*1.
Proof.
  intros Hnd. unfold weak_insert. csimpl. apply NoDup_cons. split.
  - intros ([k h] & -> & [Hk _]%list_elem_of_filter)%list_elem_of_fmap. done.
  - eapply sublist_NoDup; [exact Hnd|]. apply fmap_sublist, sublist_filter.
Qed.

Lemma smap_emplace_elem (m : list (bytes * gid)) k g kv :
  smap_wf m -> kv ∈ smap_emplace k g m -> kv = (k, g) \/ kv ∈ m.
Proof.
  intros Hwf Hin. destruct kv as [k' g']. apply (smap_elem_lookup _ _ _ (smap_emplace_wf k g m Hwf)) in Hin.
  unfold smap_emplace in Hin. destruct (smap_lookup k m) eqn:E.
  - right. by apply smap_lookup_Some_elem.
  - destruct (decide (k = k')) as [<-|Hne].
    + rewrite smap_lookup_insert_eq in Hin. left. congruence.
    + rewrite smap_lookup_insert_ne in Hin by done. right. by apply smap_lookup_Some_elem.
Qed.

Lemma smap_emplace_old (m : list (bytes * gid)) k g kv :
  smap_wf m -> kv ∈ m -> kv ∈ smap_emplace k g m.
Proof.
  intros Hwf Hin. destruct kv as [k' g']. unfold smap_emplace. destruct (smap_lookup k m) eqn:E; [done|].
  apply smap_lookup_Some_elem. rewrite smap_lookup_insert_ne; [by apply smap_elem_lookup|].
  intros ->. by rewrite (smap_elem_lookup _ _ _ Hwf Hin) in E.
Qed.

Lemma smap_emplace_new (m : list (bytes * gid)) k g :
  smap_lookup k m = None \/ smap_lookup k m = Some g -> (k, g) ∈ smap_emplace k g m.
Proof.
  unfold smap_emplace. intros [E|E]; rewrite E; apply smap_lookup_Some_elem; [apply smap_lookup_insert_eq|done].
Qed.

(** [g] registers with [h], which may be new. *)
Record registers (g h : gid) (G H' : Goal) (w w' : Worker) : Prop := {
  rg_ne : h <> g;
  rg_g : w_heap w !! g = Some G /\
    w_heap w' !! g = Some (set_waitees (smap_emplace (gkey H') h (g_waitees G)) G);
  rg_h : w_heap w' !! h = Some H' /\ is_path H' /\ busy H' /\ rank (path_of H') < rank (path_of G);
  rg_old : (exists H, w_heap w !! h = Some H /\ g_class H' = g_class H /\ g_exitCode H' = g_exitCode H /\
      g_waitees H' = g_waitees H /\ g_waiters H' = addToWeakGoals (g_waiters H) g) \/
    (w_heap w !! h = None /\ g_waitees H' = [] /\ g_waiters H' = [g] /\ ~ used w h);
  rg_other : forall i, i <> g -> i <> h -> w_heap w' !! i = w_heap w !! i;
  rg_lookup : smap_lookup (gkey H') (g_waitees G) = None \/ smap_lookup (gkey H') (g_waitees G) = Some h;
  rg_used : used w' h /\ forall i, used w i -> used w' i;
  rg_map : weak_lookup (path_of H') (w_substitutionGoals w') = Some h /\
    (forall p, p <> path_of H' -> weak_lookup p (w_substitutionGoals w') = weak_lookup p (w_substitutionGoals w)) /\
    (forall i I, w_heap w !! i = Some I -> busy I -> path_of I = path_of H' -> i = h) /\
    NoDup (w_substitutionGoals w').*1;
  rg_top : w_topGoals w' = w_topGoals w;
}.

(** A goal of the new state is an old one, up to what [g] registered, or new. *)
Lemma registers_back g h G H' R w w' i I' :
  Graph (Some g) R w -> registers g h G H' w w' -> w_heap w' !! i = Some I' ->
  (exists I, w_heap w !! i = Some I /\ g_class I' = g_class I /\ (busy I' <-> busy I) /\
    (forall kv, kv ∈ g_waitees I' -> kv ∈ g_waitees I \/ (i = g /\ kv = (gkey H', h))) /\
    (forall kv, kv ∈ g_waitees I -> kv ∈ g_waitees I') /\ smap_wf (g_waitees I') /\
    (forall j, j ∈ effective (Some g) R i I' <-> j ∈ effective (Some g) R i I \/ (i = h /\ j = g)) /\
    sset_wf (effective (Some g) R i I')) \/
  (i = h /\ I' = H' /\ w_heap w !! h = None /\ g_waitees H' = [] /\ g_waiters H' = [g] /\ ~ used w h).
Proof.
  intros HG [Hne (Hg & Hg') (Hh & _ & HB & _) Hold Hoth _ _ _ _] Hi.
  destruct (decide (i = g)) as [->|Hig].
  { left. rewrite Hg' in Hi. injection Hi as <-. exists G. wsimpl. unfold effective. rewrite !decide_True by done.
    pose proof (gr_waitees_wf _ _ _ HG _ _ Hg) as Hwf.
    pose proof (gr_waiters_wf _ _ _ HG _ _ Hg) as Hwf2. unfold effective in Hwf2. rewrite decide_True in Hwf2 by done.
    split_and!; try done; [|by intros kv; apply smap_emplace_old|by apply smap_emplace_wf|naive_solver].
    intros kv [->|?]%smap_emplace_elem; auto. }
  destruct (decide (i = h)) as [->|Hih].
  - rewrite Hh in Hi. injection Hi as <-. destruct Hold as [(H & HH & E1 & E2 & E3 & E4)|Hnew]; [left|by right].
    exists H. unfold effective, busy. rewrite E2, E3, E4, !decide_False by congruence.
    pose proof (gr_waiters_wf _ _ _ HG _ _ HH) as Hwf2. unfold effective in Hwf2.
    rewrite decide_False in Hwf2 by congruence.
    pose proof (gr_waitees_wf _ _ _ HG _ _ HH). split_and!; try done; [by left| |by apply sset_insert_wf].
    intros j. unfold addToWeakGoals. rewrite sset_insert_elem. naive_solver.
  - left. rewrite Hoth in Hi by done. exists I'. pose proof (gr_waiters_wf _ _ _ HG _ _ Hi).
    pose proof (gr_waitees_wf _ _ _ HG _ _ Hi).
    split_and!; try done; [by left|naive_solver].
Qed.

Lemma registers_fwd g h G H' w w' i I :
  registers g h G H' w w' -> w_heap w !! i = Some I -> exists I', w_heap w' !! i = Some I'.
Proof.
  intros [Hne (Hg & Hg') (Hh & _) _ Hoth _ _ _ _] Hi. destruct (decide (i = g)) as [->|]; [eauto|].
  destruct (decide (i = h)) as [->|]; [eauto|]. rewrite Hoth by done. eauto.
Qed.

Lemma Graph_register g h G H' R w w' :
  Graph (Some g) R w -> registers g h G H' w w' -> Graph (Some g) R w'.
Proof.
  intros HG HR. pose proof (fun i I' => registers_back _ _ _ _ _ _ _ i I' HG HR) as Hb.
  pose proof (fun i I => registers_fwd _ _ _ _ _ _ i I HR) as Hf.
  assert (forall i I, w_heap w !! i = Some I -> exists I', w_heap w' !! i = Some I' /\ path_of I' = path_of I /\
    gkey I' = gkey I /\ (busy I' <-> busy I) /\ (forall kv, kv ∈ g_waitees I -> kv ∈ g_waitees I') /\
    forall j, j ∈ effective (Some g) R i I -> j ∈ effective (Some g) R i I') as Hfw.
  { intros i I HI. destruct (Hf i I HI) as [I' HI']. exists I'.
    destruct (Hb i I' HI') as [(I2 & HI2 & E & HB & _ & Hkv & _ & Heff & _)|(-> & _ & ? & _)]; [|congruence].
    simplify_eq. destruct (same_class_path _ _ E). split_and!; try done. intros j Hj. apply Heff. by left. }
  pose proof HR as [Hne (Hg & Hg') (Hh & Hpath & HBh & Hr) Hold Hoth Hlk (Hu & Hu') (Hm1 & Hm2 & Hm3 & Hm4) Ht].
  pose proof (smap_emplace_new _ _ _ Hlk) as Hnew.
  assert (g ∈ g_waiters H') as Hgw.
  { destruct Hold as [(H & _ & _ & _ & _ & ->)|(_ & _ & -> & _)]; [apply sset_insert_elem|]; set_solver. }
  assert (effective (Some g) R h H' = g_waiters H') as Heffh by (unfold effective; by rewrite decide_False by congruence).
  constructor; rewrite ?Ht; try done.
  - intros i I' [(I & HI & _)|(-> & _)]%Hb; [|done]. by eapply Hu', (gr_used _ _ _ HG).
  - intros i I' [(I & HI & E & _)|(-> & -> & _)]%Hb; [|done]. unfold is_path. rewrite E. by eapply (gr_path _ _ _ HG).
  - intros i I' [(I & HI & _ & _ & _ & _ & ? & _)|(-> & -> & _ & -> & _)]%Hb; [done|constructor].
  - intros j J' k i [(J & HJ & E1 & _ & Hkv & _)|(-> & -> & _ & E & _)]%Hb Hk; [|rewrite E in Hk; set_solver].
    destruct (same_class_path _ _ E1) as [-> _]. destruct (Hkv _ Hk) as [Hk'|[-> [= -> ->]]].
    + destruct (gr_waitees _ _ _ HG _ _ _ _ HJ Hk') as (I & HI & <- & Hin & Hrk & HB).
      destruct (Hfw _ _ HI) as (I' & HI' & E3 & E4 & HB' & _ & Heff). exists I'. rewrite HB', E3, E4. split_and!; auto.
    + exists H'. rewrite Heffh. simplify_eq. split_and!; auto.
  - intros i I' j J' HI' Hin HJ'.
    assert (i = h -> j = g -> (gkey I', i) ∈ g_waitees J') as Hreg.
    { intros -> ->. rewrite Hg' in HJ'. rewrite Hh in HI'. by simplify_eq. }
    destruct (Hb _ _ HI') as [(I & HI & E1 & _ & _ & _ & _ & Heff & _)|(-> & -> & _ & _ & E & _)].
    + apply Heff in Hin as [Hin|[-> ->]]; [|auto]. destruct (same_class_path _ _ E1) as [_ ->].
      destruct (Hb _ _ HJ') as [(J & HJ & _ & _ & _ & Hkv & _)|(-> & _ & _ & _ & _ & Hnu)].
      * apply Hkv. by eapply (gr_waiters _ _ _ HG).
      * destruct Hnu. by eapply (gr_waiters_used _ _ _ HG).
    + apply Hreg; [done|]. rewrite Heffh, E in Hin. set_solver.
  - intros i I' [(I & _ & _ & _ & _ & _ & _ & _ & ?)|(-> & -> & _ & _ & E & _)]%Hb; [done|].
    rewrite Heffh, E. repeat constructor.
  - intros i I' j [(I & HI & _ & _ & _ & _ & _ & Heff & _)|(-> & -> & _ & _ & E & _)]%Hb Hin.
    + apply Heff in Hin as [Hin|[-> ->]]; apply Hu'; [by eapply (gr_waiters_used _ _ _ HG)|].
      by eapply (gr_used _ _ _ HG).
    + rewrite Heffh, E in Hin. apply list_elem_of_singleton in Hin as ->. by eapply Hu', (gr_used _ _ _ HG).
  - intros i I' [(I & HI & E & HB & _)|(-> & -> & _)]%Hb HB'; [|done].
    destruct (same_class_path _ _ E) as [-> _]. apply HB in HB'. destruct (decide (path_of I = path_of H')) as [Ep|Ep].
    + rewrite (Hm3 _ _ HI HB' Ep), Ep. done.
    + rewrite Hm2 by done. by apply (gr_map_busy _ _ _ HG).
  - intros p i I' Hp HI'. destruct (decide (p = path_of H')) as [->|Hpne].
    + rewrite Hm1 in Hp. injection Hp as <-. simplify_eq. done.
    + rewrite Hm2 in Hp by done.
      destruct (Hb _ _ HI') as [(I & HI & E & HB & _)|(-> & _ & _ & _ & _ & Hnu)].
      * destruct (same_class_path _ _ E) as [-> _]. rewrite HB. by apply (gr_map_alive _ _ _ HG).
      * destruct Hnu. by eapply (gr_map_used _ _ _ HG).
  - intros j J' i I' [= <-] HJ' HI' HB E. rewrite Hg' in HJ'. injection HJ' as <-.
    change (path_of (set_waitees _ G)) with (path_of G) in E.
    destruct (Hb _ _ HI') as [(I & HI & EI & HBI & _)|(-> & -> & _)]; [|rewrite E in Hr; lia].
    destruct (same_class_path _ _ EI) as [EI' _]. eapply (gr_self _ _ _ HG); [done|done|done|by apply HBI|congruence].
  - intros p i Hp. destruct (decide (p = path_of H')) as [->|Hpne]; [congruence|].
    rewrite Hm2 in Hp by done. by eapply Hu', (gr_map_used _ _ _ HG).
  - apply (gr_top_wf _ _ _ HG).
  - intros k i Hk. destruct (gr_top _ _ _ HG _ _ Hk) as (I & HI & <- & HB).
    destruct (Hfw _ _ HI) as (I' & HI' & _ & E2 & HB' & _). exists I'. rewrite HB', E2. auto.
  - intros Hk i I' HI' HB. destruct (Hb _ _ HI') as [(I & HI & _ & HBI & _)|(-> & -> & _)].
    + apply HBI in HB. destruct (gr_held _ _ _ HG Hk _ _ HI HB) as [?|(j & J & HJ & Hj)]; [left; by rewrite Ht|].
      right. destruct (Hfw _ _ HJ) as (J' & HJ' & _ & _ & _ & Hkv & _). exists j, J'. split; [done|].
      apply list_elem_of_fmap in Hj as (kv & -> & Hkv'). apply list_elem_of_fmap. exists kv. auto.
    + right. exists g, (set_waitees (smap_emplace (gkey H') h (g_waitees G)) G). split; [done|].
      apply list_elem_of_fmap. by exists (gkey H', h).
Qed.

Hypothesis alloc_inj : forall i j, alloc i = alloc j -> i = j.

Lemma unused_fresh w : ~ used w (alloc (w_allocated w)).
Proof. intros (i & Hi & E%alloc_inj). lia. Qed.

Lemma lock_slot_Some {K} `{EqDecision K} (k : K) m w g :
  lock_slot k m w = Some g <-> weak_lookup k m = Some g /\ is_Some (w_heap w !! g).
Proof.
  unfold lock_slot, alive. destruct (weak_lookup k m) as [h|]; [|naive_solver].
  case_bool_decide; naive_solver.
Qed.

(** The worker with a new goal for [p]. *)
Definition with_new (p : StorePath) (repair : bool) (w : Worker) : Worker :=
  snd (makePathSubstitutionGoal alloc p repair None w).

Section make.
Context (p : StorePath) (repair : bool) (w : Worker).
Hypothesis Hslot : lock_slot p (w_substitutionGoals w) w = None.
Let h := alloc (w_allocated w).
Let H0 := new_goal (PathSubstitution p repair None) Co_path_init.

Lemma make_new :
  makePathSubstitutionGoal alloc p repair None w = (h, with_new p repair w) /\
  w_heap (with_new p repair w) = <[h := H0]> (w_heap w) /\ w_allocated (with_new p repair w) = S (w_allocated w) /\
  w_substitutionGoals (with_new p repair w) = weak_insert p h (w_substitutionGoals w) /\
  w_topGoals (with_new p repair w) = w_topGoals w /\ w_awake (with_new p repair w) = sset_insert h (w_awake w) /\
  w_wantingToBuild (with_new p repair w) = w_wantingToBuild w /\ w_children (with_new p repair w) = w_children w /\
  w_nrSubstitutions (with_new p repair w) = w_nrSubstitutions w /\ w_store (with_new p repair w) = w_store w /\
  w_waitingForAnyGoal (with_new p repair w) = w_waitingForAnyGoal w /\
  w_waitingForAWhile (with_new p repair w) = w_waitingForAWhile w.
Proof. unfold with_new, makePathSubstitutionGoal. rewrite Hslot. done. Qed.

Lemma used_new i : used (with_new p repair w) i <-> used w i \/ i = h.
Proof.
  unfold used. destruct make_new as (_ & _ & -> & _). unfold h. split.
  - intros (k & Hk & ->). destruct (decide (k = w_allocated w)) as [->|]; [by right|]. left. exists k.
    split; [lia|done].
  - intros [(k & Hk & ->)| ->]; eexists; (split; [|done]); lia.
Qed.

Lemma make_wakeups x R E B :
  Inv x R E B w -> (forall g, x = Some g -> used w g) ->
  Slots (with_new p repair w) /\ Wakeups x E B (with_new p repair w).
Proof.
  intros (HG & HS & HW) Hself. pose proof used_new as Hu. pose proof (unused_fresh w) as Hn. fold h in Hn.
  assert (w_heap w !! h = None) as Hh.
  { apply eq_None_not_Some. intros [K HK]. by eapply Hn, (gr_used _ _ _ HG). }
  assert (h ∉ B ++ w_awake w) as Hact by (intros Hin; by apply Hn, (wk_used _ _ _ _ HW)).
  assert (h ∉ w_wantingToBuild w) as Hwant by (intros Hin; by apply Hn, (wk_want_used _ _ _ _ HW)).
  assert (forall i I, <[h:=H0]> (w_heap w) !! i = Some I -> (i = h /\ I = H0) \/ (i <> h /\ w_heap w !! i = Some I)) as Hb.
  { intros i I. rewrite lookup_insert. case_decide; naive_solver. }
  destruct make_new as (_ & E1 & E2 & E3 & E4 & E5 & E6 & E7 & E8 & E9 & E10 & E11).
  destruct HS, HW. split; constructor; rewrite ?E1, ?E5, ?E6, ?E7, ?E8, ?E9, ?E10, ?E11; try done.
  - intros c Hc. destruct (sl_child0 c Hc) as (K & HK & ?). exists K. split; [|done].
    rewrite lookup_insert_ne; [done|]. congruence.
  - intros i I [[-> ->]|[_ HI]]%Hb; [done|eauto].
  - intros i I [[-> ->]|[_ HI]]%Hb; [done|eauto].
  - by apply sset_insert_wf.
  - apply NoDup_app in wk_nodup0 as (HB & HBa & _). apply NoDup_app. split; [done|].
    split; [|by apply sset_nodup, sset_insert_wf]. intros i Hi [->|?]%sset_insert_elem; set_solver.
  - intros i [?|[->|?]%sset_insert_elem]%elem_of_app; apply Hu; [left|by right|left]; apply wk_used0; set_solver.
  - intros i Hi. apply Hu. auto.
  - intros i Hi. destruct (wk_self0 i Hi) as [He Hna]. split; [done|].
    intros [?|[->|?]%sset_insert_elem]%elem_of_app; [set_solver| |set_solver].
    by apply Hn, Hself.
  - intros i I [[-> ->]|[Hne HI]]%Hb He.
    + unfold status. cbn. split_and!; try done. apply elem_of_app. right. apply sset_insert_elem. by left.
    + eapply status_mono; [| | | |by apply wk_status0]; rewrite ?E9; try done.
      * rewrite !elem_of_app, sset_insert_elem. naive_solver.
      * unfold eof_read. by rewrite E7.
  - intros Hk i Hi. rewrite lookup_insert. case_decide; [done|]. apply wk_alive0; [done|].
    destruct Hi as [[?|[->|?]%sset_insert_elem]%elem_of_app|?]; set_solver.
Qed.
End make.

(** What every goal is about to do. *)
Definition control (w : Worker) : gmap gid (GoalClass * option Co) :=
  (fun G => (g_class G, g_co G)) <$> w_heap w.

Definition new_control (p : StorePath) (repair : bool) : GoalClass * option Co :=
  (PathSubstitution p repair None, Some Co_path_init).

Lemma control_lookup w g : control w !! g = (fun G => (g_class G, g_co G)) <$> w_heap w !! g.
Proof. apply lookup_fmap. Qed.

Lemma control_upd g f w :
  (forall G, g_class (f G) = g_class G /\ g_co (f G) = g_co G) -> control (upd g f w) = control w.
Proof.
  intros Hf. apply map_eq. intros i. rewrite !control_lookup. wsimpl. rewrite lookup_alter. case_decide; [subst|done].
  destruct (w_heap w !! i) as [G|]; [|done]. cbn. by destruct (Hf G) as [-> ->].
Qed.

(** What adding references changes outside the graph. *)
Record grows (w w' : Worker) : Prop := {
  gw_store : w_store w' = w_store w;
  gw_alive : forall i, is_Some (w_heap w !! i) -> is_Some (w_heap w' !! i);
  gw_top : w_topGoals w' = w_topGoals w;
}.

Lemma grows_refl w : grows w w.
Proof. done. Qed.

Lemma grows_trans w w1 w2 : grows w w1 -> grows w1 w2 -> grows w w2.
Proof. intros [] []. constructor; [congruence|auto|congruence]. Qed.

(** [addWaitee]. *)
Definition waits_for (k : bytes) (g h : gid) (w : Worker) : Worker :=
  upd h (fun H => set_waiters (addToWeakGoals (g_waiters H) g) H)
    (upd g (fun G => set_waitees (smap_emplace k h (g_waitees G)) G) w).

Lemma waits_for_lookup k g h w i :
  h <> g ->
  w_heap (waits_for k g h w) !! i =
  if decide (i = h) then (fun H => set_waiters (addToWeakGoals (g_waiters H) g) H) <$> w_heap w !! h
  else if decide (i = g) then (fun G => set_waitees (smap_emplace k h (g_waitees G)) G) <$> w_heap w !! g
  else w_heap w !! i.
Proof.
  intros Hne. unfold waits_for. wsimpl. rewrite lookup_alter.
  destruct (decide (h = i)) as [<-|Hh]; rewrite lookup_alter.
  - rewrite (decide_False (P := g = h)) by congruence. by rewrite decide_True.
  - rewrite (decide_False (P := i = h)) by congruence.
    destruct (decide (g = i)) as [<-|]; [by rewrite decide_True|by rewrite decide_False by congruence].
Qed.

Lemma waits_for_wakeups x B k g h w :
  h <> g -> Slots w -> Wakeups x [g] B w ->
  Slots (waits_for k g h w) /\ Wakeups x [g] B (waits_for k g h w).
Proof.
  intros Hne HS HW. pose proof (fun i => waits_for_lookup k g h w i Hne) as Hl.
  split; [apply (Slots_heap w); [|done..]|apply (Wakeups_heap _ _ _ w); [..|done]; try done].
  - intros i. rewrite Hl. destruct (decide (i = h)) as [->|]; [destruct (w_heap w !! h); by constructor|].
    destruct (decide (i = g)) as [->|]; [destruct (w_heap w !! g); by constructor|].
    destruct (w_heap w !! i); by constructor.
  - intros i Hi. rewrite Hl. rewrite (decide_False (P := i = g)) by set_solver.
    destruct (decide (i = h)) as [->|]; [destruct (w_heap w !! h); by constructor|].
    destruct (w_heap w !! i); by constructor.
  - intros i. rewrite Hl. destruct (decide (i = h)) as [->|]; [by rewrite fmap_is_Some|].
    destruct (decide (i = g)) as [->|]; [by rewrite fmap_is_Some|done].
Qed.

Lemma waits_for_grows k g h w : grows w (waits_for k g h w) /\ control (waits_for k g h w) = control w.
Proof.
  split; [constructor; try done; intros i; unfold waits_for; wsimpl; by rewrite !lookup_alter_is_Some|].
  unfold waits_for. by rewrite !control_upd.
Qed.

(** [addWaitee(worker.makePathSubstitutionGoal(r))]. *)
Lemma add_reference_ok g G R B w r :
  Inv (Some g) R [g] B w -> w_heap w !! g = Some G -> busy G -> rank r < rank (path_of G) ->
  exists h w1 w', makePathSubstitutionGoal alloc r false None w = (h, w1) /\ addWaitee storeDir g h w1 = Ok w' /\
    Inv (Some g) R [g] B w' /\
    w_heap w' !! g = Some (set_waitees (smap_emplace (path_key r) h (g_waitees G)) G) /\
    grows w w' /\
    (control w' = control w \/
     (control w !! h = None /\ control w' = <[h := new_control r false]> (control w))).
Proof.
  intros HI Hg HB Hr. pose proof HI as (HG & HS & HW).
  destruct (lock_slot r (w_substitutionGoals w) w) as [h|] eqn:Hslot.
  - apply lock_slot_Some in Hslot as Hs. destruct Hs as [Hm [H HH]].
    destruct (gr_map_alive _ _ _ HG _ _ _ Hm HH) as [Hp HBh].
    assert (h <> g) as Hne by (intros ->; simplify_eq; lia).
    specialize (HBh ltac:(congruence)). pose proof (gr_path _ _ _ HG _ _ HH) as Hpath.
    assert (gkey H = path_key r) as Hk by (by rewrite gkey_of, Hp).
    exists h, w, (waits_for (path_key r) g h w). split; [unfold makePathSubstitutionGoal; by rewrite Hslot|].
    split; [unfold addWaitee, deref; rewrite HH; cbn [rbind]; unfold goals_insert; by rewrite Hk|].
    pose proof (fun i => waits_for_lookup (path_key r) g h w i Hne) as Hl.
    destruct (waits_for_grows (path_key r) g h w) as [Hgw Hctl].
    assert (w_heap (waits_for (path_key r) g h w) !! g =
      Some (set_waitees (smap_emplace (path_key r) h (g_waitees G)) G)) as Hg'.
    { rewrite Hl. rewrite decide_False by congruence. by rewrite decide_True, Hg. }
    split; [|split; [done|]; split; [by destruct Hgw|by left]].
    split; [|by apply waits_for_wakeups].
    apply (Graph_register g h G (set_waiters (addToWeakGoals (g_waiters H) g) H) R w); [done|].
    assert (gkey (set_waiters (addToWeakGoals (g_waiters H) g) H) = path_key r) as Hk' by done.
    constructor; rewrite ?Hk'; try done.
    + split; [by rewrite Hl, decide_True, HH|]. split; [done|]. split; [done|].
      change (path_of (set_waiters _ H)) with (path_of H). by rewrite Hp.
    + left. by exists H.
    + intros i Hig Hih. by rewrite Hl, !decide_False.
    + destruct (smap_lookup (path_key r) (g_waitees G)) as [h'|] eqn:El; [right|by left].
      apply smap_lookup_Some_elem in El. destruct (gr_waitees _ _ _ HG _ _ _ _ Hg El) as (K & HK & EK & _ & Hrk & HBK).
      rewrite gkey_of in EK by (by eapply (gr_path _ _ _ HG)). unfold path_key in EK. apply key_inj in EK.
      destruct (decide (h' = g)) as [->|Hne']; [simplify_eq; lia|].
      pose proof (gr_map_busy _ _ _ HG _ _ HK (HBK ltac:(congruence))) as Hm'. congruence.
    + split; [by eapply (gr_used _ _ _ HG)|done].
    + change (path_of (set_waiters _ H)) with (path_of H). rewrite Hp. split_and!; try done.
      * intros i I HI' HBI E. pose proof (gr_map_busy _ _ _ HG _ _ HI' HBI) as Hm'. congruence.
      * apply (gr_map_nodup _ _ _ HG).
  - set (h := alloc (w_allocated w)). set (w1 := with_new r false w).
    destruct (make_new r false w Hslot) as (Hmk & Hhp & _ & Hmap & Htp & _ & _ & _ & _ & Hst & _). fold h w1 in Hmk, Hhp, Hmap, Htp, Hst.
    pose proof (used_new r false w Hslot) as Hu. fold h w1 in Hu. pose proof (unused_fresh w) as Hnu. fold h in Hnu.
    assert (used w g) as Hug by (by eapply (gr_used _ _ _ HG)).
    assert (h <> g) as Hne by (by intros ->).
    assert (w_heap w !! h = None) as HhN.
    { apply eq_None_not_Some. intros [K HK]. by eapply Hnu, (gr_used _ _ _ HG). }
    set (H0 := new_goal (PathSubstitution r false None) Co_path_init).
    assert (gkey H0 = path_key r) as Hk by done.
    exists h, w1, (waits_for (path_key r) g h w1). split; [done|].
    split; [unfold addWaitee, deref; rewrite Hhp, lookup_insert_eq; cbn [rbind]; by unfold goals_insert|].
    pose proof (fun i => waits_for_lookup (path_key r) g h w1 i Hne) as Hl.
    destruct (waits_for_grows (path_key r) g h w1) as [Hgw Hctl].
    destruct (make_wakeups r false w Hslot _ _ _ _ HI) as [HS1 HW1]; [by intros ? [= <-]|].
    split; [|split; [|split; [|right]]].
    + split; [|by apply waits_for_wakeups].
      apply (Graph_register g h G (set_waiters [g] H0) R w); [done|].
      assert (gkey (set_waiters [g] H0) = path_key r) as Hk' by done.
      constructor; rewrite ?Hk'; try done.
      * split; [done|]. rewrite Hl, decide_False, decide_True by congruence. by rewrite Hhp, lookup_insert_ne, Hg.
      * split; [by rewrite Hl, decide_True, Hhp, lookup_insert_eq|]. split; [by eexists _, _|]. done.
      * by right.
      * intros i Hig Hih. by rewrite Hl, !decide_False, Hhp, lookup_insert_ne.
      * left. destruct (smap_lookup (path_key r) (g_waitees G)) as [h'|] eqn:El; [|done].
        apply smap_lookup_Some_elem in El.
        destruct (gr_waitees _ _ _ HG _ _ _ _ Hg El) as (K & HK & EK & _ & Hrk & HBK).
        rewrite gkey_of in EK by (by eapply (gr_path _ _ _ HG)). unfold path_key in EK. apply key_inj in EK.
        destruct (decide (h' = g)) as [->|Hne']; [simplify_eq; lia|].
        pose proof (gr_map_busy _ _ _ HG _ _ HK (HBK ltac:(congruence))) as Hm'. rewrite EK in Hm'.
        assert (lock_slot r (w_substitutionGoals w) w = Some h') by (by apply lock_slot_Some; eauto). congruence.
      * split; [apply Hu; by right|]. intros i Hi. apply Hu. by left.
      * change (path_of (set_waiters [g] H0)) with r. change (w_substitutionGoals (waits_for _ g h w1)) with (w_substitutionGoals w1).
        rewrite Hmap. split; [by rewrite weak_lookup_insert, decide_True|].
        split; [intros p Hp; by rewrite weak_lookup_insert, decide_False|].
        split; [|apply weak_insert_nodup, (gr_map_nodup _ _ _ HG)].
        intros i I HI' HBI <-. pose proof (gr_map_busy _ _ _ HG _ _ HI' HBI) as Hm'.
        assert (lock_slot (path_of I) (w_substitutionGoals w) w = Some i) by (by apply lock_slot_Some; eauto). congruence.
    + rewrite Hl, decide_False, decide_True by congruence. by rewrite Hhp, lookup_insert_ne, Hg.
    + destruct Hgw. constructor; [by rewrite gw_store0| |by rewrite gw_top0].
      intros i Hi. apply gw_alive0. rewrite Hhp, lookup_insert. by case_decide.
    + rewrite control_lookup, HhN. split; [done|]. rewrite Hctl. unfold control. by rewrite Hhp, fmap_insert.
Qed.

End invariant.
