(* ===== verification/SubstitutionWork.v ===== *)
(** * The work of a substitution goal

    Every resumption of the coroutine of a path substitution goal keeps the
    invariant of the scheduler, fails no assertion when the references that the
    substituters report are acyclic, and leaves less work to do, or puts the
    goal in the queue for a slot. *)

From stdpp Require Import gmap.
From S2P Require Import Prelude.
From S2P Require Import Containers.
From S2P Require Import Hash.
From S2P Require Import StorePath.
From S2P Require Import ContentAddress.
From S2P Require Import PathInfo.
From S2P Require Import Worker.
From S2P Require Import Substitution.
From S2P Require Import SubstitutionInv.

(** ** Potential

    An upper bound of the work that is left: a goal for [p] has, for every
    substituter it may still try, a few steps and the work of the goals for the
    references that the substituter reports. *)

Fixpoint sum_with {A} (f : A -> nat) (l : list A) : nat :=
  match l with [] => 0 | x :: l => f x + sum_with f l end.

Lemma sum_with_ext {A} (f g : A -> nat) l : (forall x, x ∈ l -> f x = g x) -> sum_with f l = sum_with g l.
Proof.
  induction l as [|x l IH]; intros Hfg; [done|]. cbn. rewrite Hfg by set_solver. f_equal. apply IH. set_solver.
Qed.

Definition refs_of (sub : Substituter) (p : StorePath) : list StorePath :=
  match sub_queryPathInfo sub p with InfoFound i => refs i | _ => [] end.

Section potential.
Context (substituters : list Substituter) (rank : StorePath -> nat).

(** [fuel] bounds the length of chains of references. *)
Fixpoint cost (fuel : nat) (p : StorePath) : nat :=
  match fuel with
  | 0 => 0
  | S fuel =>
      3 + sum_with (fun sub => 6 + sum_with (fun r => if decide (r = p) then 0 else cost fuel r) (refs_of sub p))
            substituters
  end.

Definition full_cost (p : StorePath) : nat := cost (S (rank p)) p.
Definition refs_cost (p : StorePath) (l : list StorePath) : nat :=
  sum_with (fun r => if decide (r = p) then 0 else full_cost r) l.
Definition try_cost (p : StorePath) (l : list Substituter) : nat :=
  2 + sum_with (fun sub => 6 + refs_cost p (refs_of sub p)) l.

(** The references that substituters report are acyclic. *)
Definition acyclic : Prop :=
  forall sub p r, sub ∈ substituters -> r ∈ refs_of sub p -> r <> p -> rank r < rank p.

Lemma cost_fuel (Hac : acyclic) n m p : rank p < n -> rank p < m -> cost n p = cost m p.
Proof.
  revert m p. induction n as [|n IH]; intros [|m] p Hn Hm; try lia. cbn [cost]. apply (f_equal (Nat.add 3)).
  apply sum_with_ext. intros sub Hsub. apply (f_equal (Nat.add 6)). apply sum_with_ext. intros r Hr. case_decide as E; [done|].
  pose proof (Hac sub p r Hsub Hr E). apply IH; lia.
Qed.

Lemma full_cost_eq (Hac : acyclic) p : full_cost p = 1 + try_cost p substituters.
Proof.
  unfold full_cost, try_cost. cbn [cost]. apply (f_equal (Nat.add 3)).
  apply sum_with_ext. intros sub Hsub. apply (f_equal (Nat.add 6)). apply sum_with_ext. intros r Hr. case_decide as E; [done|].
  pose proof (Hac sub p r Hsub Hr E). unfold full_cost. apply cost_fuel; [done|lia|lia].
Qed.

Definition weight (cc : GoalClass * option Co) : nat :=
  match cc with
  | (PathSubstitution p _ _, Some co) =>
      match co with
      | Co_path_init => full_cost p
      | Co_path_refs a => 5 + try_cost p (at_rest a)
      | Co_path_woken a => 4 + try_cost p (at_rest a)
      | Co_path_slot a => 3 + try_cost p (at_rest a)
      | Co_path_running a => 2 + try_cost p (at_rest a)
      | _ => 0
      end
  | _ => 0
  end.

Definition potential (m : gmap gid (GoalClass * option Co)) : nat :=
  map_fold (fun _ cc n => weight cc + n) 0 m.

Lemma potential_insert m h cc : m !! h = None -> potential (<[h := cc]> m) = weight cc + potential m.
Proof. intros Hh. unfold potential. rewrite map_fold_insert_L; [done| |done]. intros. lia. Qed.

Lemma potential_delete m h cc : m !! h = Some cc -> potential m = weight cc + potential (delete h m).
Proof. intros Hh. unfold potential. rewrite (map_fold_delete_L _ _ h cc m); [done| |done]. intros. lia. Qed.

Lemma potential_subseteq m m' : m ⊆ m' -> potential m <= potential m'.
Proof.
  revert m'. induction m as [|h cc m Hh IH] using map_ind; intros m' Hsub.
  - unfold potential at 1. rewrite map_fold_empty. lia.
  - rewrite potential_insert by done. pose proof (lookup_weaken _ _ h cc (lookup_insert_eq _ _ _) Hsub) as Hm.
    rewrite (potential_delete m' h cc Hm). apply Nat.add_le_mono_l, IH.
    apply map_subseteq_spec. intros i c Hi. rewrite lookup_delete_ne; [|congruence].
    eapply lookup_weaken; [|exact Hsub]. rewrite lookup_insert_ne; [done|congruence].
Qed.

End potential.

(** ** The coroutine *)

(** The operation succeeds with [P], or throws. *)
Definition good {A} (P : A -> Prop) (r : result A) : Prop :=
  match r with Ok a => P a | Err (Throw _) => True | Err _ => False end.

Lemma good_bind {A B} (P : A -> Prop) (Q : B -> Prop) (r : result A) (k : A -> result B) :
  good P r -> (forall a, P a -> good Q (k a)) -> good Q (rbind r k).
Proof. destruct r as [a|[]]; cbn; auto. Qed.

Lemma good_mono {A} (P Q : A -> Prop) (r : result A) : good P r -> (forall a, P a -> Q a) -> good Q r.
Proof. destruct r as [a|[]]; cbn; auto. Qed.

(** Checking the content address of an answer for another path than the one
    asked for does not abort. *)
Definition answers_checked `{Digest} (xp : xpSettings) (substituters : list Substituter) : Prop :=
  forall sub p info f, sub ∈ substituters -> sub_queryPathInfo sub p = InfoFound info -> vpi_path info <> p ->
    isContentAddressed (sub_storeDir sub) xp info = Err f -> exists e, f = Throw e.

Section coroutine.
Context `{digest : Digest} {xp : xpSettings} {settings : Settings} {storeDir : bytes}.
Context {substituters : list Substituter} {pathInfoIsUntrusted : ValidPathInfo -> bool}.
Context {alloc : nat -> gid} {rank : StorePath -> nat}.
Context (late : gid -> outcome) (pins B : list gid).
Hypothesis alloc_inj : forall i j, alloc i = alloc j -> i = j.
Hypothesis Hacyclic : acyclic substituters rank.
Hypothesis Hchecked : answers_checked xp substituters.

#[local] Notation Inv := (@Inv settings storeDir substituters alloc rank).
#[local] Notation potential := (potential substituters rank).
#[local] Notation try_cost := (try_cost substituters rank).

(** The state while the coroutine of [g] runs and waits for nothing. *)
Record active (g : gid) (G : Goal) (w : Worker) : Prop := {
  ac_inv : Inv (Some g) (g_waiters G) [g] B w;
  ac_g : w_heap w !! g = Some G;
  ac_pin : g ∈ pins;
  ac_busy : busy G;
  ac_co : g_co G <> None;
  ac_waitees : g_waitees G = [];
  ac_thr : g_thr G = None;
}.

(** What the work of a goal leaves behind; [k] bounds the potential. *)
Record worked (w : Worker) (k : nat) (w' : Worker) : Prop := {
  wd_inv : Inv None [] [] B w';
  wd_valid : st_valid (w_store w) ⊆ st_valid (w_store w');
  wd_top : w_topGoals w' ⊆ w_topGoals w;
  wd_pins : forall p, p ∈ pins -> is_Some (w_heap w !! p) -> is_Some (w_heap w' !! p);
  wd_class : forall h H H', w_heap w !! h = Some H -> w_heap w' !! h = Some H' -> g_class H' = g_class H;
  wd_potential : potential (control w') < k;
}.

Definition others (g : gid) (w : Worker) : nat := potential (delete g (control w)).

Lemma evolves_control g w w' : evolves (Some g) pins w w' -> delete g (control w') ⊆ delete g (control w).
Proof.
  intros Hev. apply map_subseteq_spec. intros i cc. rewrite !lookup_delete. case_decide as E; [done|].
  rewrite !control_lookup. intros (H' & HH' & ->)%fmap_Some.
  destruct (ev_back _ _ _ _ Hev _ _ HH') as (H & HH & E1 & E2). rewrite HH. cbn.
  destruct E2 as (-> & _); [congruence|]. by rewrite E1.
Qed.

Lemma path_done_ok g G w result status k :
  active g G w -> result <> ecBusy -> (result = ecSuccess -> path_of G ∈ st_valid (w_store w)) ->
  others g w < k ->
  good (worked w k) (path_done settings storeDir late pins g result status w).
Proof.
  intros [HI Hg Hp HB Hco Hw Ht] Hres Hok Hk. unfold path_done.
  set (w0 := upd g (set_status status) w). set (G0 := set_status status G).
  assert (w_heap w0 !! g = Some G0) as Hg0 by (unfold w0; wsimpl; by rewrite lookup_alter_eq, Hg).
  assert (Inv (Some g) (g_waiters G0) [g] B w0) as HI0 by (by apply Inv_self).
  destruct (amDone_ok late pins g G0 B result w0 HI0 Hg0 Hp HB Hco Hw Ht Hres Hok)
    as (w' & G' & -> & HI' & Hg' & Hco' & _ & Hev).
  assert (evolves (Some g) pins w w') as Hev0.
  { eapply evolves_trans; [|done]. by apply evolves_upd. }
  cbn. constructor; try done.
  - apply Hev0.
  - apply Hev0.
  - apply Hev0.
  - intros h K K' HK HK'. destruct (ev_back _ _ _ _ Hev0 _ _ HK') as (K2 & HK2 & E & _). by simplify_eq.
  - assert (control w' !! g = Some (g_class G', None)) as Hc by (by rewrite control_lookup, Hg'; cbn; rewrite Hco').
    rewrite (potential_delete _ _ _ _ _ Hc). eapply Nat.le_lt_trans; [|exact Hk].
    assert (weight substituters rank (g_class G', None) = 0) as -> by (by destruct (g_class G')).
    apply potential_subseteq. by apply evolves_control.
Qed.
Lemma potential_suspend g co G w :
  w_heap w !! g = Some G ->
  potential (control (suspend g co w)) = weight substituters rank (g_class G, Some co) + others g w.
Proof.
  intros Hg. rewrite (potential_delete _ _ _ g (g_class G, Some co)).
  - unfold others. do 2 f_equal. apply map_eq. intros i. rewrite !lookup_delete. case_decide; [done|].
    rewrite !control_lookup. unfold suspend. wsimpl. by rewrite lookup_alter_ne.
  - rewrite control_lookup. unfold suspend. wsimpl. by rewrite lookup_alter_eq, Hg.
Qed.

(** A suspension that changes nothing else. *)
Lemma suspended g G w co :
  Inv (Some g) (g_waiters G) [g] B w -> w_heap w !! g = Some G -> busy G ->
  Inv None [] [g] B (suspend g co w) /\ w_heap (suspend g co w) !! g = Some (set_co (Some co) G).
Proof.
  intros HI Hg HB. assert (w_heap (suspend g co w) !! g = Some (set_co (Some co) G)) as Hg'.
  { unfold suspend. wsimpl. by rewrite lookup_alter_eq, Hg. }
  split; [|done]. eapply (suspend_ok g B _ (set_co (Some co) G)); [|done|done].
  by apply Inv_self.
Qed.

(** [f] does not touch what [control] and the statement of [worked] see. *)
Definition quiet (f : Worker -> Worker) : Prop :=
  forall w, control (f w) = control w /\ w_store (f w) = w_store w /\ w_topGoals (f w) = w_topGoals w.

Lemma suspend_worked w g co f w' k :
  w' = f (suspend g co w) -> quiet f -> Inv None [] [] B w' -> potential (control (suspend g co w)) < k ->
  worked w k w'.
Proof.
  intros -> Hf HI Hk. destruct (Hf (suspend g co w)) as (E1 & E2 & E3).
  assert (forall h, fst <$> control (f (suspend g co w)) !! h = fst <$> control w !! h) as Hcl.
  { intros h. rewrite E1, !control_lookup. unfold suspend. wsimpl. rewrite lookup_alter.
    case_decide; [subst|done]. by destruct (w_heap w !! h). }
  constructor; try done.
  - by rewrite E2.
  - by rewrite E3.
  - intros p _ [P HP]. specialize (Hcl p). rewrite !control_lookup, HP in Hcl.
    destruct (w_heap (f (suspend g co w)) !! p); [by eexists|done].
  - intros h K K' HK HK'. specialize (Hcl h). rewrite !control_lookup, HK, HK' in Hcl. cbn in Hcl. congruence.
  - by rewrite E1.
Qed.

(** [tryToRun], when the references are accounted for. *)
Lemma tryToRun_ok g G w path repair a k :
  active g G w -> g_class G = PathSubstitution path repair None ->
  attempt_ok (substituters := substituters) a -> refs_ok (storeDir := storeDir) w G a ->
  4 + try_cost path (at_rest a) + others g w < k ->
  good (worked w k) (tryToRun settings storeDir late pins g path a w).
Proof.
  intros HA Hc Ha Hr Hk. pose proof HA as [HI Hg Hp HB Hco Hw Ht]. unfold tryToRun, deref. rewrite Hg. cbn [rbind].
  destruct (0 <? g_nrFailed G) eqn:Ef.
  - apply (path_done_ok g G); [done| | |lia]; by case_match.
  - apply Nat.ltb_ge in Ef. assert (path_of G = path) as Hpath by (unfold path_of; by rewrite Hc).
    assert (forallb (fun i => bool_decide (i = path) || isValidPath w i) (refs (at_info a)) = true) as ->.
    { apply forallb_forall. intros r Hin%list_elem_of_In. apply orb_true_iff. unfold isValidPath.
      rewrite !bool_decide_eq_true. destruct (decide (r = path)) as [|Hne]; [by left|right].
      destruct (Hr r Hin) as [?|[Hk'|?]]; [congruence|done| |lia]. rewrite Hw in Hk'. set_solver. }
    cbn [assert_ rbind good].
    destruct (suspended g G w (Co_path_woken a) HI Hg HB) as [HI' Hg'].
    assert (g ∉ B ++ w_awake w) as Hna by (by apply (wk_self _ _ _ _ (proj2 (proj2 HI)) g)).
    assert (g ∉ w_wantingToBuild w) as Hnw by (apply (wk_exempt _ _ _ _ (proj2 (proj2 HI)) g); set_solver).
    eapply (suspend_worked _ g (Co_path_woken a) (wakeUp g)); [done|done| |].
    + change (suspend g (Co_path_woken a) (wakeUp g w)) with (wakeUp g (suspend g (Co_path_woken a) w)).
      eapply Inv_close; [apply Inv_wake; [done|set_solver|by rewrite Hg'|done|done]|done|done|].
      unfold status. cbn [g_co set_co]. split; [done|]. split_and!; try done. wsimpl. apply elem_of_app. right.
      apply sset_insert_elem. by left.
    + rewrite (potential_suspend _ _ G) by done. cbn [weight]. rewrite Hc. done.
Qed.
#[local] Notation path_key := (@path_key storeDir).
#[local] Notation refs_cost := (refs_cost substituters rank).

Lemma smap_emplace_keys (m : list (bytes * gid)) k g : smap_wf m ->
  k ∈ (smap_emplace k g m).*1 /\ forall k', k' ∈ m.*1 -> k' ∈ (smap_emplace k g m).*1.
Proof.
  intros Hwf. split.
  - destruct (smap_lookup k m) as [h|] eqn:E.
    + apply smap_lookup_Some_elem in E. apply list_elem_of_fmap. exists (k, h). split; [done|].
      by apply smap_emplace_old.
    + apply list_elem_of_fmap. exists (k, g). split; [done|]. apply smap_emplace_new. by left.
  - intros k' (kv & -> & Hkv)%list_elem_of_fmap. apply list_elem_of_fmap. exists kv. split; [done|].
    by apply smap_emplace_old.
Qed.

(** New goals only add to the control state. *)
Lemma new_goal_others g h r w w' :
  w_heap w !! g <> None ->
  control w' = control w \/ (control w !! h = None /\ control w' = <[h := new_control r false]> (control w)) ->
  others g w' <= others g w + full_cost substituters rank r /\ control w ⊆ control w'.
Proof.
  unfold others. intros Hg [->|[Hh ->]]; [split; [lia|done]|]. split; [|by apply insert_subseteq].
  assert (h <> g) as Hne.
  { intros ->. rewrite control_lookup in Hh. by apply fmap_None in Hh. }
  rewrite delete_insert_ne by done. rewrite potential_insert; [cbn; lia|].
  by rewrite lookup_delete_ne.
Qed.

Lemma add_references_ok g path l w G :
  Inv (Some g) (g_waiters G) [g] B w -> w_heap w !! g = Some G -> busy G -> path_of G = path ->
  (forall r, r ∈ l -> r <> path -> rank r < rank path) ->
  exists w' m, add_references storeDir alloc g path l w = Ok w' /\ Inv (Some g) (g_waiters G) [g] B w' /\
    w_heap w' !! g = Some (set_waitees m G) /\ (forall r, r ∈ l -> r <> path -> path_key r ∈ m.*1) /\
    (forall k, k ∈ (g_waitees G).*1 -> k ∈ m.*1) /\ grows w w' /\
    others g w' <= others g w + refs_cost path l /\ control w ⊆ control w'.
Proof.
  revert w G. induction l as [|r l IH]; intros w G HI Hg HB Hpath Hrk; cbn [add_references].
  - exists w, (g_waitees G). split_and!; try done; [by destruct G|set_solver|cbn; lia].
  - unfold refs_cost, SubstitutionWork.refs_cost. cbn [sum_with]. fold (refs_cost path l).
    case_bool_decide as Er; [rewrite decide_True by done|rewrite decide_False by done].
    + destruct (IH w G HI Hg HB Hpath) as (w' & m & ? & ? & ? & Hm & ?); [set_solver|].
      exists w', m. split_and!; try done. all: try by destruct_and?.
      intros r' [->|?]%elem_of_cons; auto. done.
    + destruct (add_reference_ok alloc_inj g G _ B w r HI Hg HB) as (h & w1 & w2 & -> & -> & HI2 & Hg2 & Hgw & Hc).
      { rewrite Hpath. apply Hrk; [set_solver|done]. }
      cbn [rbind]. set (m1 := smap_emplace (path_key r) h (g_waitees G)) in *.
      pose proof (gr_waitees_wf _ _ _ (proj1 HI) _ _ Hg) as Hwf.
      destruct (smap_emplace_keys (g_waitees G) (path_key r) h Hwf) as [Hk1 Hk2].
      destruct (IH w2 (set_waitees m1 G) HI2 Hg2 HB Hpath) as (w' & m & E & HI' & Hg' & Hm1 & Hm2 & Hgw' & Ho & Hs); [set_solver|].
      destruct (new_goal_others g h r w w2 ltac:(congruence) Hc) as [Ho1 Hs1].
      exists w', m. split_and!; try done.
      * intros r' [->|?]%elem_of_cons Hne; [|auto]. by apply Hm2.
      * intros k Hk. apply Hm2. auto.
      * by eapply grows_trans.
      * lia.
      * by transitivity (control w2).
Qed.

Lemma worked_grows w w1 k w' :
  grows w w1 -> control w ⊆ control w1 -> worked w1 k w' -> worked w k w'.
Proof.
  intros Hg Hs []. constructor; try done.
  - by rewrite <- (gw_store _ _ Hg).
  - by rewrite <- (gw_top _ _ Hg).
  - intros p Hp Ha. by apply wd_pins0, (gw_alive _ _ Hg).
  - intros h K K' HK HK'. assert (control w1 !! h = Some (g_class K, g_co K)) as Hc.
    { eapply lookup_weaken; [|exact Hs]. by rewrite control_lookup, HK. }
    rewrite control_lookup in Hc. apply fmap_Some in Hc as (K1 & HK1 & [= E _]). rewrite E. eauto.
Qed.
(** What a usable answer looks like. *)
Lemma usable_info_ok path sub :
  sub ∈ substituters ->
  good (fun info => forall i, info = Some i -> refs i = refs_of sub path)
    (usable_info xp settings pathInfoIsUntrusted path sub path).
Proof.
  intros Hsub. unfold usable_info, refs_of. destruct (sub_queryPathInfo sub path) as [info| | |] eqn:Eq.
  - apply (good_bind (fun o => forall i, o = Some i -> refs i = refs info)).
    + case_bool_decide as Ep; [by intros i [= <-]|].
      destruct (isContentAddressed (sub_storeDir sub) xp info) as [b|f] eqn:Eca.
      * cbn. intros i. case_match eqn:Eb; [|done]. intros [= <-]. done.
      * destruct (Hchecked sub path info f Hsub Eq Ep Eca) as [e ->]. done.
    + intros [i|]; cbn; [|done]. intros Hi. case_match; [done|]. intros i' [= <-]. auto.
  - done.
  - by case_match.
  - by case_match.
Qed.

Lemma try_cost_cons path sub l :
  try_cost path (sub :: l) = 6 + refs_cost path (refs_of sub path) + try_cost path l.
Proof. unfold SubstitutionWork.try_cost, SubstitutionWork.refs_cost. cbn. lia. Qed.

Lemma try_substituters_ok path repair l g G w failed k :
  active g G w -> g_class G = PathSubstitution path repair None ->
  Forall (fun s => s ∈ substituters) l -> try_cost path l + others g w < k ->
  good (worked w k)
    (try_substituters xp settings storeDir pathInfoIsUntrusted alloc late pins g path None l failed w).
Proof.
  intros HA Hc Hl Hk. pose proof HA as [HI Hg Hp HB Hco Hw Ht].
  assert (path_of G = path) as Hpath by (unfold path_of; by rewrite Hc).
  induction Hl as [|sub l Hsub Hl IH]; cbn [try_substituters].
  { apply (path_done_ok g G); [done| | |lia]; by destruct failed. }
  rewrite try_cost_cons in Hk. specialize (IH ltac:(lia)).
  unfold cleanup, deref. rewrite Hg. cbn [rbind]. rewrite Hc. unfold join. rewrite Ht. cbn [rbind].
  unfold substituter_path. cbn [rbind]. case_bool_decide; [|done].
  eapply good_bind; [by apply usable_info_ok|]. intros [info|] Hinfo; [|done].
  specialize (Hinfo info eq_refl).
  destruct (add_references_ok g path (refs info) w G HI Hg HB Hpath)
    as (w1 & m & -> & HI1 & Hg1 & Hm & _ & Hgw & Ho & Hs).
  { intros r Hr Hne. rewrite Hinfo in Hr. by eapply Hacyclic. }
  cbn [rbind]. unfold deref. rewrite Hg1. cbn [rbind g_waitees set_waitees]. rewrite Hinfo in Ho.
  set (a := mkAttempt sub path info l failed). apply (good_mono (worked w1 k)); [|intros w'; by apply worked_grows].
  case_bool_decide as Em.
  - apply (tryToRun_ok g (set_waitees m G) w1 path repair a k); [|done|done| |unfold a; cbn [at_rest]; lia].
    + by constructor.
    + intros r Hr Hne. exfalso. pose proof (Hm r Hr ltac:(by rewrite <- Hpath)) as Hin. rewrite Em in Hin. set_solver.
  - cbn. destruct (suspended g (set_waitees m G) w1 (Co_path_refs a) HI1 Hg1 HB) as [HI' Hg'].
    eapply (suspend_worked _ g (Co_path_refs a) (fun w => w)); [done|done| |].
    + assert (g ∉ B ++ w_awake w1) as Hna by (by apply (wk_self _ _ _ _ (proj2 (proj2 HI1)) g)).
      eapply Inv_close; [done|done|done|]. unfold status. cbn [g_co set_co]. split; [done|].
      split_and!; try done.
      * intros r Hr Hne. right; left. apply Hm; [done|]. by rewrite <- Hpath.
      * apply (wk_exempt _ _ _ _ (proj2 (proj2 HI')) g). set_solver.
    + rewrite (potential_suspend _ _ (set_waitees m G)) by done. cbn [weight g_class set_waitees]. rewrite Hc.
      unfold a. cbn [at_rest]. lia.
Qed.

Lemma worked_store w w1 k w' :
  w_heap w1 = w_heap w -> w_topGoals w1 = w_topGoals w -> st_valid (w_store w) ⊆ st_valid (w_store w1) ->
  worked w1 k w' -> worked w k w'.
Proof.
  intros E1 E2 E3 []. constructor; try done.
  - by transitivity (st_valid (w_store w1)).
  - by rewrite <- E2.
  - by rewrite <- E1.
  - by rewrite <- E1.
Qed.

Lemma path_init_ok path repair g G w k :
  active g G w -> g_class G = PathSubstitution path repair None ->
  1 + try_cost path substituters + others g w <= k ->
  good (worked w k) (path_init xp settings storeDir substituters pathInfoIsUntrusted alloc late pins g path repair None w).
Proof.
  intros HA Hc Hk. unfold path_init. set (w1 := addTempRoot path w).
  assert (active g G w1) as HA1.
  { destruct HA as [(HG & HS & HW)]. constructor; try done. split; [by destruct HG|]. split; [by destruct HS|].
    by destruct HW. }
  apply (good_mono (worked w1 k)); [|intros w'; by apply worked_store].
  assert (path_of G = path) as Hpath by (unfold path_of; by rewrite Hc).
  case_match eqn:Hv.
  - apply andb_true_iff in Hv as [_ Hv%bool_decide_eq_true].
    apply (path_done_ok g G); [done|done| |change (others g w1) with (others g w); lia]. by rewrite Hpath.
  - case_match; [done|]. apply (try_substituters_ok path repair _ g G); [done|done| |].
    + unfold subs. case_match; [|constructor]. by apply Forall_forall.
    + change (others g w1) with (others g w).
      assert (try_cost path (subs settings substituters) <= try_cost path substituters); [|lia].
      unfold subs. case_match; [done|]. unfold SubstitutionWork.try_cost. cbn. lia.
Qed.
(** Waiting for a slot. *)
Lemma Inv_enqueue w g G a :
  Inv None [] [g] B w -> w_heap w !! g = Some G -> g_co G = Some (Co_path_slot a) -> busy G ->
  g_waitees G = [] -> g_thr G = None -> attempt_ok (substituters := substituters) a ->
  g ∉ B ++ w_awake w -> w_children w <> [] ->
  Inv None [] [] B (set_wantingToBuild (addToWeakGoals (w_wantingToBuild w) g) w).
Proof.
  intros (HG & HS & HW) Hg Hco HB Hw Ht Ha Hna Hc. split; [by destruct HG|]. split; [by destruct HS|].
  unfold addToWeakGoals. constructor; wsimpl; try by destruct HW.
  - intros h [->|?]%sset_insert_elem; [by eapply (gr_used _ _ _ HG)|by apply (wk_want_used _ _ _ _ HW)].
  - set_solver.
  - intros h K HK _. destruct (decide (h = g)) as [->|Hne].
    + simplify_eq. unfold status. rewrite Hco. split; [done|]. split_and!; try done. right. split; [done|].
      apply sset_insert_elem. by left.
    + eapply status_mono; [| | | |apply (wk_status _ _ _ _ HW); [done|set_solver]]; try done.
      rewrite sset_insert_elem. naive_solver.
  - intros Hk h [?|[->|?]%sset_insert_elem]; [by apply (wk_alive _ _ _ _ HW); auto|done|by apply (wk_alive _ _ _ _ HW); auto].
Qed.

(** The start of a thread. *)
Definition start_child (g : gid) (w : Worker) : Worker :=
  set_children (w_children w ++ [mkChild g true false false true]) (w_nrLocalBuilds w) (S (w_nrSubstitutions w))
    (upd g (set_thr (Some Running)) w).

Lemma Inv_start w g G a :
  Inv None [] [g] B w -> w_heap w !! g = Some G -> g_co G = Some (Co_path_running a) -> busy G ->
  g_waitees G = [] -> g_thr G = None -> attempt_ok (substituters := substituters) a ->
  g ∉ B ++ w_awake w -> w_nrSubstitutions w < Nat.max 1 (s_maxSubstitutionJobs settings) ->
  Inv None [] [] B (start_child g w).
Proof.
  intros (HG & HS & HW) Hg Hco HB Hw Ht Ha Hna Hlt. unfold start_child.
  assert (g ∉ ch_goal <$> w_children w) as Hnc.
  { intros (c & -> & Hc)%list_elem_of_fmap. destruct (sl_child _ HS c Hc) as (K & HK & Hthr & _). by simplify_eq. }
  assert (forall h K, alter (set_thr (Some Running)) g (w_heap w) !! h = Some K ->
    (h = g /\ K = set_thr (Some Running) G) \/ (h <> g /\ w_heap w !! h = Some K)) as Hb.
  { intros h K. rewrite lookup_alter. case_decide as E; [subst h; rewrite Hg; cbn; naive_solver|naive_solver]. }
  split; [eapply Graph_sim; [| | | |exact HG]; try done; by apply heap_sim_alter|]. split.
  - constructor; wsimpl.
    + intros c [Hc| ->%list_elem_of_singleton]%elem_of_app.
      * destruct (sl_child _ HS c Hc) as (K & HK & ?). exists K. split; [|done]. rewrite lookup_alter_ne; [done|].
        intros ->. apply Hnc, list_elem_of_fmap. by exists c.
      * exists (set_thr (Some Running) G). cbn [ch_goal]. rewrite lookup_alter_eq, Hg. split_and!; naive_solver.
    + intros h K [[-> ->]|[Hne HK]]%Hb Hthr; rewrite fmap_app, elem_of_app; [right; cbn; set_solver|left].
      by eapply (sl_thr _ HS).
    + intros h K [[-> ->]|[Hne HK]]%Hb Hthr; [done|]. by eapply (sl_copied _ HS).
    + rewrite fmap_app. apply NoDup_app. split; [apply (sl_nodup _ HS)|]. split; [|cbn; apply NoDup_singleton].
      cbn. intros h Hh ->%list_elem_of_singleton. done.
    + rewrite length_app, (sl_nr _ HS). cbn. lia.
    + rewrite length_app. rewrite (sl_nr _ HS) in Hlt. cbn. lia.
    + intros _. by destruct (w_children w).
  - constructor; wsimpl; try by destruct HW.
    + set_solver.
    + intros h K HK _. unfold eof_read. wsimpl. apply Hb in HK as [[-> ->]|[Hne HK]].
      * unfold status. cbn [g_co set_thr]. rewrite Hco. split; [done|]. split_and!; try done; [apply (wk_exempt _ _ _ _ HW); set_solver|].
        split; [done|]. intros (c & [Hc| ->%list_elem_of_singleton]%elem_of_app & E & Ho); [|done].
        destruct Hnc. apply list_elem_of_fmap. by exists c.
      * eapply status_mono; [| | | |apply (wk_status _ _ _ _ HW); [done|set_solver]]; try done. unfold eof_read.
        setoid_rewrite elem_of_app. split; [naive_solver|].
        intros (c & [Hc| ->%list_elem_of_singleton] & E & Ho); [naive_solver|done].
    + intros Hk h Hh. rewrite lookup_alter_is_Some. by apply (wk_alive _ _ _ _ HW).
Qed.
Lemma active_flux g G w : active g G w -> g ∉ B ++ w_awake w /\ g ∉ w_wantingToBuild w.
Proof.
  intros [HI _ _ _ _ _ _]. split; [by apply (wk_self _ _ _ _ (proj2 (proj2 HI)) g)|].
  apply (wk_exempt _ _ _ _ (proj2 (proj2 HI)) g). set_solver.
Qed.

(** A goal that wants a slot gets one, with less work left, or waits without
    waking up anyone. *)
Lemma path_slot_ok path repair g G w a :
  active g G w -> g_class G = PathSubstitution path repair None -> attempt_ok (substituters := substituters) a ->
  good (fun w' => worked w (4 + try_cost path (at_rest a) + others g w) w' /\
      (potential (control w') < 3 + try_cost path (at_rest a) + others g w \/
       (w_awake w' = w_awake w /\ w_children w' = w_children w)))
    (path_slot settings g a w).
Proof.
  intros HA Hc Ha. destruct (active_flux _ _ _ HA) as [Hna Hnw]. pose proof HA as [HI Hg Hp HB Hco Hw Ht].
  pose proof (sl_nr _ (proj1 (proj2 HI))) as Hnr. unfold path_slot. case_match eqn:Hfull.
  - apply Nat.leb_le in Hfull. unfold waitForBuildSlot, deref. rewrite Hg. cbn [rbind].
    assert (w_nrSubstitutions w <? s_maxSubstitutionJobs settings = false) as E by (apply Nat.ltb_ge; lia).
    rewrite E, (bool_decide_true (jobCategory (g_class G) = JobCategory.Substitution)) by done.
    cbn [negb andb orb good rbind].
    destruct (suspended g G w (Co_path_slot a) HI Hg HB) as [HI' Hg'].
    split; [|by right].
    eapply (suspend_worked _ g (Co_path_slot a)
      (fun w => set_wantingToBuild (addToWeakGoals (w_wantingToBuild w) g) w)); [done|done| |].
    + change (suspend g (Co_path_slot a) (set_wantingToBuild ?s w)) with
        (set_wantingToBuild s (suspend g (Co_path_slot a) w)).
      eapply (Inv_enqueue (suspend g (Co_path_slot a) w) g _ a); [exact HI'|exact Hg'|done..|].
      cbn [w_children suspend upd set_heap]. intros E'. rewrite E' in Hnr. cbn in Hnr. lia.
    + rewrite (potential_suspend _ _ G) by done. cbn [weight]. rewrite Hc. lia.
  - apply Nat.leb_gt in Hfull. unfold childStarted, deref. wsimpl. rewrite lookup_alter_eq, Hg.
    cbn [fmap option_fmap option_map rbind jobCategory good].
    destruct (suspended g G w (Co_path_running a) HI Hg HB) as [HI' Hg'].
    set (w' := suspend g (Co_path_running a) _).
    assert (w' = start_child g (suspend g (Co_path_running a) w)) as Ew'.
    { unfold w', start_child, suspend, upd, set_children, set_heap. wsimpl. f_equal.
      apply map_eq. intros i. destruct (decide (g = i)) as [<-|]; [|by rewrite !lookup_alter_ne].
      rewrite !lookup_alter_eq. by destruct (w_heap w !! g). }
    assert (quiet (start_child g)) as Hq.
    { intros w0. split; [|done]. unfold start_child. change (control (set_children ?a ?b ?c ?d)) with (control d).
      by apply control_upd. }
    assert (potential (control (suspend g (Co_path_running a) w)) < 3 + try_cost path (at_rest a) + others g w) as Hpot.
    { rewrite (potential_suspend _ _ G) by done. cbn [weight]. rewrite Hc. lia. }
    split; [|left; rewrite Ew'; by destruct (Hq (suspend g (Co_path_running a) w)) as [-> _]].
    eapply (suspend_worked _ g (Co_path_running a) (start_child g)); [done|done| |lia].
    rewrite Ew'. by eapply (Inv_start _ _ _ a); [exact HI'|exact Hg'|..].
Qed.

Lemma path_finish_ok path repair g G w a k :
  Inv (Some g) (g_waiters G) [g] B w -> w_heap w !! g = Some G -> g ∈ pins -> busy G -> g_co G <> None ->
  g_waitees G = [] -> g_thr G <> None -> g_class G = PathSubstitution path repair None ->
  attempt_ok (substituters := substituters) a -> try_cost path (at_rest a) + others g w < k ->
  good (worked w k) (path_finish xp settings storeDir pathInfoIsUntrusted alloc late pins g path None a w).
Proof.
  intros HI Hg Hp HB Hco Hw Ht Hc Ha Hk. unfold path_finish, deref. rewrite Hg. cbn [rbind].
  destruct (terminate_ok late _ _ _ _ _ _ _ HI Hg Ht ltac:(set_solver))
    as (o & w1 & w2 & -> & -> & HI2 & Hh & Htop & _ & _ & _ & Hv & Ho & _). cbn [rbind].
  assert (w_heap w2 !! g = Some (set_thr None G)) as Hg2 by (by rewrite Hh, lookup_alter_eq, Hg).
  assert (active g (set_thr None G) w2) as HA by (by constructor).
  assert (control w2 = control w) as Hctl.
  { transitivity (control (upd g (set_thr None) w)); [unfold control; wsimpl; by rewrite Hh|by apply control_upd]. }
  assert (others g w2 = others g w) as Hot by (unfold others; by rewrite Hctl).
  apply (good_mono (worked w2 k)).
  - destruct o.
    + apply (good_mono (worked (markContentsGood path w2) k));
        [apply (path_done_ok g (set_thr None G)); [|done| |]|].
      * destruct HA as [(HG & HS & HW)]. constructor; try done. split; [by destruct HG|]. split; [by destruct HS|].
        by destruct HW.
      * intros _. by apply Ho.
      * change (others g (markContentsGood path w2)) with (others g w2). rewrite Hot. lia.
      * intros w'. by apply worked_store.
    + apply (try_substituters_ok path repair _ g (set_thr None G)); [done|done|done|lia].
    + apply (try_substituters_ok path repair _ g (set_thr None G)); [done|done|done|lia].
  - intros w' []. constructor; try done.
    + by transitivity (st_valid (w_store w2)).
    + by rewrite <- Htop.
    + intros p Hpp Hal. apply wd_pins0; [done|]. by rewrite Hh, lookup_alter_is_Some.
    + intros h K K' HK HK'. destruct (decide (g = h)) as [<-|Hne].
      * simplify_eq. by apply (wd_class0 g (set_thr None G)).
      * apply (wd_class0 h K); [by rewrite Hh, lookup_alter_ne|done].
Qed.
(** [Goal::work] on a goal of the batch: no assertion fails, the invariant is
    kept, and less work is left, or the goal waits for a slot. *)
Lemma work_ok g G w :
  Inv None [] [] (g :: B) w -> w_heap w !! g = Some G -> g ∈ pins ->
  good (fun w' => worked w (S (potential (control w))) w' /\
      (potential (control w') < potential (control w) \/
       (w_awake w' = w_awake w /\ w_children w' = w_children w)))
    (work xp settings storeDir substituters pathInfoIsUntrusted alloc late pins g w).
Proof.
  intros HI Hg Hp. pose proof HI as (HG & _ & HW).
  destruct (gr_path _ _ _ HG _ _ Hg) as (path & repair & Hc).
  pose proof (wk_status _ _ _ _ HW g G Hg ltac:(set_solver)) as Hst. unfold status in Hst.
  assert (g ∈ (g :: B) ++ w_awake w) as Hact by set_solver.
  unfold work, deref. rewrite Hg. cbn [rbind]. rewrite Hc.
  destruct (g_co G) as [co|] eqn:Hco; [|naive_solver]. destruct Hst as [HB Hst].
  assert (control w !! g = Some (PathSubstitution path repair None, Some co)) as Hctl
    by (by rewrite control_lookup, Hg; cbn; rewrite Hc, Hco).
  pose proof (potential_delete substituters rank _ _ _ Hctl) as Hpot. fold (others g w) in Hpot. cbn [weight] in Hpot.
  assert (g ∉ w_wantingToBuild w -> Inv (Some g) (g_waiters G) [g] B w) as Hres by (intros; by apply resume_ok).
  assert (forall r, good (worked w (potential (control w))) r ->
    good (fun w' => worked w (S (potential (control w))) w' /\
      (potential (control w') < potential (control w) \/
       (w_awake w' = w_awake w /\ w_children w' = w_children w))) r) as Hless.
  { intros r Hr. eapply good_mono; [done|]. intros w' []. split; [|by left]. constructor; try done. lia. }
  destruct co as [|a|a|a|a| | |]; try done.
  - destruct Hst as (Hw & Ht & _ & Hnw). apply Hless, (path_init_ok path repair g G); [|done|].
    + constructor; auto. congruence.
    + rewrite Hpot, full_cost_eq by done. lia.
  - destruct Hst as (Ht & Ha & Hr & Hnw & Hw). apply Hless, (tryToRun_ok g G w path repair); try done; [|rewrite Hpot; lia].
    constructor; auto; [congruence|by apply Hw].
  - destruct Hst as (Hw & Ht & Ha & _ & Hnw). apply Hless.
    eapply good_mono; [apply (path_slot_ok path repair g G w a); [|done|done]|].
    + constructor; auto. congruence.
    + intros w' [Hwk _]. by rewrite Hpot.
  - destruct Hst as (Hw & Ht & Ha & [[_ Hnw]|[? _]]); [|done].
    eapply good_mono; [apply (path_slot_ok path repair g G w a); [|done|done]|].
    + constructor; auto. congruence.
    + intros w'. rewrite Hpot. done.
  - destruct Hst as (Hw & Ht & Ha & Hnw & _). apply Hless.
    apply (path_finish_ok path repair g G); auto; [congruence|rewrite Hpot; lia].
Qed.
End coroutine.
