(* ===== verification/SubstitutionLoop.v ===== *)
(** * The main loop on path substitutions

    The invariant of the configurations of [Worker::run] when it starts with
    path substitutions only: it holds at the start, every step keeps it, and
    the steps that make a difference decrease a measure. *)

From stdpp Require Import gmap.
From S2P Require Import Prelude.
From S2P Require Import Containers.
From S2P Require Import Hash.
From S2P Require Import StorePath.
From S2P Require Import ContentAddress.
From S2P Require Import PathInfo.
From S2P Require Import Worker.
From S2P Require Import Substitution.
From S2P Require Import SubstitutionInv.
From S2P Require Import SubstitutionWork.

Section spec.
Context `{digest : Digest} {xp : xpSettings} {settings : Settings} {storeDir : bytes}.
Context {substituters : list Substituter} {pathInfoIsUntrusted : ValidPathInfo -> bool}.
Context {alloc : nat -> gid} {rank : StorePath -> nat}.
Hypothesis alloc_inj : forall i j, alloc i = alloc j -> i = j.
Hypothesis Hacyclic : acyclic substituters rank.
Hypothesis Hchecked : answers_checked xp substituters.

#[local] Notation Inv := (@Inv settings storeDir substituters alloc rank).
#[local] Notation potential := (potential substituters rank).
#[local] Notation used := (@used alloc).

(** ** The start of a run *)

(** A worker that has only made goals. *)
Record fresh (w : Worker) : Prop := {
  fr_goal : forall g G, w_heap w !! g = Some G -> exists p r,
    G = new_goal (PathSubstitution p r None) Co_path_init /\
    weak_lookup p (w_substitutionGoals w) = Some g /\ used w g /\ g ∈ w_awake w;
  fr_map : forall p g, weak_lookup p (w_substitutionGoals w) = Some g ->
    exists r, w_heap w !! g = Some (new_goal (PathSubstitution p r None) Co_path_init);
  fr_map_nodup : NoDup (w_substitutionGoals w).*1;
  fr_awake : sset_wf (w_awake w) /\ forall g, g ∈ w_awake w -> is_Some (w_heap w !! g);
  fr_rest : w_wantingToBuild w = [] /\ w_waitingForAnyGoal w = [] /\ w_waitingForAWhile w = [] /\
    w_children w = [] /\ w_nrSubstitutions w = 0;
}.

Lemma fresh_empty s : fresh (empty_worker s).
Proof.
  constructor; cbn; try done; try set_solver.
  - constructor.
  - split; [constructor|set_solver].
Qed.

Lemma fresh_make p repair w g w' :
  fresh w -> makePathSubstitutionGoal alloc p repair None w = (g, w') ->
  fresh w' /\ (forall h H, w_heap w !! h = Some H -> w_heap w' !! h = Some H) /\ w_topGoals w' = w_topGoals w /\
  (forall h, is_Some (w_heap w' !! h) -> h = g \/ is_Some (w_heap w !! h)) /\
  exists G, w_heap w' !! g = Some G /\ path_of G = p.
Proof.
  intros Hf. destruct (lock_slot p (w_substitutionGoals w) w) as [h|] eqn:Hslot.
  - unfold makePathSubstitutionGoal. rewrite Hslot. intros [= <- <-]. split_and!; try done; [by right|].
    apply lock_slot_Some in Hslot as [Hm _]. destruct (fr_map _ Hf _ _ Hm) as [r Hr]. by eexists.
  - destruct (make_new (alloc := alloc) p repair w Hslot) as (-> & E1 & E2 & E3 & E4 & E5 & E6 & E7 & E8 & E9 & E10 & E11).
    intros [= <- <-]. set (h := alloc (w_allocated w)) in *. set (w1 := with_new (alloc := alloc) p repair w) in *.
    pose proof (used_new (alloc := alloc) p repair w Hslot) as Hu. fold w1 h in Hu.
    assert (w_heap w !! h = None) as Hh.
    { apply eq_None_not_Some. intros [K HK]. destruct (fr_goal _ Hf _ _ HK) as (_ & _ & _ & _ & Hus & _).
      by apply (unused_fresh alloc_inj w). }
    assert (weak_lookup p (w_substitutionGoals w) = None) as Hp.
    { destruct (weak_lookup p (w_substitutionGoals w)) as [i|] eqn:E; [|done].
      destruct (fr_map _ Hf _ _ E) as [r Hr]. assert (lock_slot p (w_substitutionGoals w) w = Some i); [|congruence].
      apply lock_slot_Some. by rewrite Hr. }
    split_and!; [|intros i I HI; rewrite E1, lookup_insert_ne; [done|congruence]|done| |by rewrite E1, lookup_insert_eq; eexists];
      [|intros i; rewrite E1, lookup_insert; case_decide; [by left|by right]].
    constructor; rewrite ?E1, ?E3, ?E5, ?E6, ?E7, ?E8, ?E10, ?E11.
    + intros i I. rewrite lookup_insert. case_decide as Ei.
      * subst i. intros [= <-]. exists p, repair. rewrite weak_lookup_insert, decide_True, sset_insert_elem by done.
        split_and!; try done; [apply Hu; by right|by left].
      * intros HI. destruct (fr_goal _ Hf _ _ HI) as (q & r & -> & Hq & Hus & Haw). exists q, r.
        rewrite weak_lookup_insert, sset_insert_elem. split_and!; try done; [|apply Hu; by left|by right].
        rewrite decide_False; [done|]. intros ->. congruence.
    + intros q i. rewrite weak_lookup_insert. case_decide as Eq.
      * subst q. intros [= <-]. exists repair. by rewrite lookup_insert_eq.
      * intros Hq. destruct (fr_map _ Hf _ _ Hq) as [r Hr]. exists r. rewrite lookup_insert_ne; [done|congruence].
    + apply weak_insert_nodup, (fr_map_nodup _ Hf).
    + destruct (fr_awake _ Hf) as [Hwf Hal]. split; [by apply sset_insert_wf|].
      intros i [->|Hi]%sset_insert_elem; [by rewrite lookup_insert_eq|].
      destruct (Hal i Hi) as [I HI]. rewrite lookup_insert_ne; [by eexists|congruence].
    + apply (fr_rest _ Hf).
Qed.

Lemma fresh_make_goals paths w gs w' :
  fresh w -> make_goals alloc paths w = (gs, w') ->
  fresh w' /\ (forall h H, w_heap w !! h = Some H -> w_heap w' !! h = Some H) /\ w_topGoals w' = w_topGoals w /\
  (forall h, is_Some (w_heap w' !! h) -> h ∈ gs \/ is_Some (w_heap w !! h)) /\
  Forall2 (fun pr g => exists G, w_heap w' !! g = Some G /\ path_of G = pr.1) paths gs.
Proof.
  revert w gs w'. induction paths as [|[p r] paths IH]; intros w gs w' Hf; cbn [make_goals].
  { intros [= <- <-]. split_and!; try done. by right. }
  destruct (makePathSubstitutionGoal alloc p r None w) as [g w1] eqn:E1.
  destruct (make_goals alloc paths w1) as [gs1 w2] eqn:E2. intros [= <- <-].
  destruct (fresh_make _ _ _ _ _ Hf E1) as (Hf1 & Hk1 & Ht1 & Ha1 & G & Hg & Hp).
  destruct (IH _ _ _ Hf1 E2) as (Hf2 & Hk2 & Ht2 & Ha2 & HF). split_and!; auto; [congruence| |].
  { intros h [?|[->|?]%Ha1]%Ha2; [left; set_solver|left; set_solver|by right]. }
  constructor; [|done]. exists G. auto.
Qed.
(** ** Sets of goals, ordered by key *)

#[local] Notation gkey := (gkey storeDir).

Definition gather (w : Worker) (s : list (bytes * gid)) (l : list gid) : list (bytes * gid) :=
  foldl (fun s g => match w_heap w !! g with Some G => goals_insert storeDir G g s | None => s end) s l.

(** No two of the goals [P] have the same key. *)
Definition distinct_keys (w : Worker) (P : gid -> Prop) : Prop :=
  forall g h G H, P g -> P h -> w_heap w !! g = Some G -> w_heap w !! h = Some H -> gkey G = gkey H -> g = h.

Lemma gather_elem w s l :
  smap_wf s -> distinct_keys w (fun g => g ∈ s.*2 \/ g ∈ l) ->
  (forall k g, (k, g) ∈ s -> exists G, w_heap w !! g = Some G /\ gkey G = k) ->
  smap_wf (gather w s l) /\
  forall k g, (k, g) ∈ gather w s l <-> (k, g) ∈ s \/ (g ∈ l /\ exists G, w_heap w !! g = Some G /\ gkey G = k).
Proof.
  revert s. induction l as [|i l IH]; intros s Hwf Hd Hs; cbn [gather foldl]; [split; [done|set_solver]|].
  fold (gather w (match w_heap w !! i with Some G => goals_insert storeDir G i s | None => s end) l).
  destruct (w_heap w !! i) as [I|] eqn:Hi.
  - assert (forall kv, kv ∈ smap_emplace (gkey I) i s <-> kv = (gkey I, i) \/ kv ∈ s) as Hem.
    { intros kv. split; [by apply smap_emplace_elem|]. intros [->|?]; [|by apply smap_emplace_old].
      apply smap_emplace_new. destruct (smap_lookup (gkey I) s) as [h|] eqn:El; [|by left].
      apply smap_lookup_Some_elem in El. destruct (Hs _ _ El) as (K & HK & Ek).
      right. f_equal. apply (Hd h i K I); try done; [left|right; set_solver].
      apply list_elem_of_fmap. by exists (gkey I, h). }
    destruct (IH (smap_emplace (gkey I) i s)) as [Hwf' Hel].
    + by apply smap_emplace_wf.
    + intros g h G K Hg Hh. apply Hd.
      * destruct Hg as [(kv & -> & [->|Hkv]%Hem)%list_elem_of_fmap|?]; [right; cbn; set_solver|left; set_solver|right; set_solver].
      * destruct Hh as [(kv & -> & [->|Hkv]%Hem)%list_elem_of_fmap|?]; [right; cbn; set_solver|left; set_solver|right; set_solver].
    + intros k g [[= -> ->]|Hkv]%Hem; [by exists I|auto].
    + split; [done|]. intros k g. rewrite Hel, Hem, elem_of_cons. split.
      * intros [[[= -> ->]|?]|[? ?]]; [right; split; [by left|by exists I]|by left|right; auto].
      * intros [?|[[->|?] (G & HG & <-)]]; [by left; right| |right; eauto]. simplify_eq. by left; left.
  - destruct (IH s Hwf) as [Hwf' Hel]; [intros g h G K Hg Hh; apply Hd; set_solver|done|].
    split; [done|]. intros k g. rewrite Hel, elem_of_cons. split; [naive_solver|].
    intros [?|[[->|?] (G & HG & E)]]; [by left|congruence|right; eauto].
Qed.

Lemma gather_spec w l :
  distinct_keys w (fun g => g ∈ l) ->
  smap_wf (gather w [] l) /\
  (forall k g, (k, g) ∈ gather w [] l <-> g ∈ l /\ exists G, w_heap w !! g = Some G /\ gkey G = k) /\
  (forall g, g ∈ (gather w [] l).*2 <-> g ∈ l /\ is_Some (w_heap w !! g)) /\
  NoDup (gather w [] l).*2.
Proof.
  intros Hd. destruct (gather_elem w [] l) as [Hwf Hel]; [constructor| |set_solver|].
  { intros g h G K Hg Hh. apply Hd; set_solver. }
  assert (forall k g, (k, g) ∈ gather w [] l <-> g ∈ l /\ exists G, w_heap w !! g = Some G /\ gkey G = k) as Hel'.
  { intros k g. rewrite Hel. set_solver. }
  split; [done|]. split; [done|]. split.
  - intros g. rewrite list_elem_of_fmap. split.
    + intros ([k h] & -> & [? (G & HG & _)]%Hel'). split; [done|]. cbn. by rewrite HG.
    + intros [Hg [G HG]]. exists (gkey G, g). split; [done|]. apply Hel'. eauto.
  - unfold smap_wf in Hwf. pose proof (sset_nodup _ Hwf) as Hnd. clear Hwf.
    assert (forall k g, (k, g) ∈ gather w [] l -> exists G, w_heap w !! g = Some G /\ gkey G = k) as Hk.
    { intros k g [_ ?]%Hel'. done. }
    clear Hel Hel'. induction (gather w [] l) as [|[k g] m IH]; csimpl; [constructor|]. csimpl in Hnd.
    apply NoDup_cons in Hnd as [Hn Hnd]. apply NoDup_cons. split; [|apply IH; [done|set_solver]].
    intros ([k' g'] & E & Hin)%list_elem_of_fmap. cbn in E. subst g'.
    destruct (Hk k g ltac:(set_solver)) as (G & HG & <-). destruct (Hk k' g ltac:(set_solver)) as (G' & HG' & <-).
    simplify_eq. apply Hn, list_elem_of_fmap. by exists (gkey G, g).
Qed.
(** ** Configurations *)

Record CInv (c : Config) : Prop := {
  ci_inv : exists B, Inv None [] [] B (c_worker c) /\ (w_topGoals (c_worker c) <> [] -> B = c_pending c);
  ci_pending : w_topGoals (c_worker c) = [] -> c_pending c = [];
  ci_batch : c_pending c ⊆ c_batch c;
  ci_alive : forall g, g ∈ c_caller c ++ c_batch c -> is_Some (w_heap (c_worker c) !! g);
}.

(** The goals the caller holds are those for the paths it asked for. *)
Definition asked (paths : list (StorePath * bool)) (c : Config) : Prop :=
  Forall2 (fun pr g => exists G, w_heap (c_worker c) !! g = Some G /\ path_of G = pr.1) paths (c_caller c).

Lemma fresh_inv w t :
  fresh w -> smap_wf t ->
  (forall k g, (k, g) ∈ t -> exists G, w_heap w !! g = Some G /\ gkey G = k) ->
  (forall g, is_Some (w_heap w !! g) -> g ∈ t.*2) ->
  Inv None [] [] [] (set_topGoals t w).
Proof.
  intros Hf Hwf Ht Hall. destruct (fr_rest _ Hf) as (E1 & E2 & E3 & E4 & E5).
  assert (forall g G, w_heap w !! g = Some G -> exists p r, G = new_goal (PathSubstitution p r None) Co_path_init /\
    weak_lookup p (w_substitutionGoals w) = Some g /\ used w g /\ g ∈ w_awake w) as Hg by apply Hf.
  split; [|split]; constructor; wsimpl; rewrite ?E1, ?E2, ?E3, ?E4, ?E5; try done.
  - intros g G (p & r & _ & _ & ? & _)%Hg. done.
  - intros g G (p & r & -> & _)%Hg. by eexists _, _.
  - intros g G (p & r & -> & _)%Hg. constructor.
  - intros g G k h (p & r & -> & _)%Hg. set_solver.
  - intros h H g G (p & r & -> & _)%Hg. cbn. set_solver.
  - intros h H (p & r & -> & _)%Hg. constructor.
  - intros h H g (p & r & -> & _)%Hg. cbn. set_solver.
  - intros g G (p & r & -> & ? & _)%Hg _. done.
  - intros p g G Hp HG. destruct (fr_map _ Hf _ _ Hp) as [r Hr]. by simplify_eq.
  - apply (fr_map_nodup _ Hf).
  - intros p g Hp. destruct (fr_map _ Hf _ _ Hp) as [r Hr]. by destruct (Hg _ _ Hr) as (_ & _ & _ & _ & ? & _).
  - intros k g Hk. destruct (Ht _ _ Hk) as (G & HG & <-). exists G. split_and!; try done. intros _.
    by destruct (Hg _ _ HG) as (? & ? & -> & _).
  - intros _ g G HG _. left. apply Hall. by rewrite HG.
  - set_solver.
  - intros g G (p & r & -> & _)%Hg. done.
  - intros g G (p & r & -> & _)%Hg. done.
  - constructor.
  - cbn. lia.
  - apply (fr_awake _ Hf).
  - cbn. apply sset_nodup, (fr_awake _ Hf).
  - intros g Hin. cbn in Hin. destruct (fr_awake _ Hf) as [_ Hal]. destruct (Hal g Hin) as [G HG].
    by destruct (Hg _ _ HG) as (_ & _ & _ & _ & ? & _).
  - set_solver.
  - set_solver.
  - intros g G HG _. destruct (Hg _ _ HG) as (p & r & -> & _ & _ & Haw). unfold status. cbn.
    split_and!; try done. set_solver.
  - intros _ g [Hin|?]; [|set_solver]. by apply (fr_awake _ Hf).
Qed.
Lemma start_ok paths s :
  CInv (start_run storeDir alloc paths s) /\ asked paths (start_run storeDir alloc paths s) /\
  c_finished (start_run storeDir alloc paths s) = false.
Proof.
  unfold start_run. destruct (make_goals alloc paths (empty_worker s)) as [gs w] eqn:E.
  destruct (fresh_make_goals _ _ _ _ (fresh_empty s) E) as (Hf & _ & _ & Ha & HF).
  change (top_goals storeDir gs w) with (gather w [] gs).
  destruct (gather_spec w gs) as (Hwf & Hel & Hv & _).
  { intros g h G K _ _ HG HK Ek. destruct (fr_goal _ Hf _ _ HG) as (p & r & -> & Hp & _).
    destruct (fr_goal _ Hf _ _ HK) as (q & r' & -> & Hq & _). apply (key_inj p r None q r' None) in Ek. subst q. congruence. }
  split; [|by split]. constructor; cbn [c_worker c_caller c_batch c_pending]; try done.
  - exists []. split; [|done]. apply fresh_inv; try done.
    + intros k g [_ ?]%Hel. done.
    + intros g Hg. apply Hv. split; [|done]. destruct (Ha g Hg) as [?|[? Hg']]; [done|]. cbn in Hg'. by rewrite lookup_empty in Hg'.
  - intros g. rewrite app_nil_r. intros Hg. wsimpl. apply list_elem_of_lookup in Hg as [i Hi].
    destruct (Forall2_lookup_r _ _ _ _ _ HF Hi) as (pr & _ & G & HG & _). by rewrite HG.
Qed.
(** ** No deadlock *)

(** Someone will make progress: a busy goal leads to a goal that is awake or
    to a running child, because references are acyclic. *)
Lemma no_deadlock w : Inv None [] [] [] w -> w_awake w = [] -> w_topGoals w <> [] -> w_children w <> [].
Proof.
  intros (HG & HS & HW) Haw Htop.
  assert (forall n g G, rank (path_of G) < n -> w_heap w !! g = Some G -> busy G -> w_children w <> []) as Hch.
  { induction n as [|n IH]; [lia|]. intros g G Hn Hg HB.
    pose proof (wk_status _ _ _ _ HW g G Hg ltac:(set_solver)) as Hst. rewrite Haw in Hst.
    assert (g ∉ ([] : list gid) ++ []) as Hna by set_solver. unfold status in Hst.
    destruct (g_co G) as [co|]; [|by destruct Hst]. destruct Hst as [_ Hst].
    destruct co as [|a|a|a|a| | |]; try done.
    - by destruct Hst as (_ & _ & ? & _).
    - destruct Hst as (_ & _ & _ & _ & Hw). destruct (g_waitees G) as [|[k h] m] eqn:Em; [by destruct Hna; apply Hw|].
      destruct (gr_waitees _ _ _ HG g G k h Hg) as (K & HK & _ & _ & Hr & HBK); [rewrite Em; set_solver|].
      apply (IH h K); [lia|done|by apply HBK].
    - by destruct Hst as (_ & _ & _ & ? & _).
    - destruct Hst as (_ & _ & _ & [[? _]|[_ Hwant]]); [done|]. apply (sl_want _ HS). intros E. rewrite E in Hwant. set_solver.
    - destruct Hst as (_ & Ht & _). pose proof (sl_thr _ HS _ _ Hg Ht) as Hin. intros E. rewrite E in Hin. set_solver. }
  destruct (w_topGoals w) as [|[k g] t] eqn:Et; [done|].
  destruct (gr_top _ _ _ HG k g) as (G & Hg & _ & HB); [rewrite Et; set_solver|].
  apply (Hch (S (rank (path_of G))) g G); [lia|done|by apply HB].
Qed.

(** ** The end of a run with --keep-going *)

Lemma rank_bound (m : gmap gid Goal) : exists M, forall g G, m !! g = Some G -> rank (path_of G) <= M.
Proof.
  induction m as [|g G m Hg [M IH]] using map_ind; [exists 0; intros g G; by rewrite lookup_empty|].
  exists (Nat.max M (rank (path_of G))). intros h K [[<- <-]|[_ HK]]%lookup_insert_Some; [lia|].
  pose proof (IH _ _ HK). lia.
Qed.

Lemma all_done B w :
  Inv None [] [] B w -> s_keepGoing settings = true -> w_topGoals w = [] ->
  forall g G, w_heap w !! g = Some G -> ~ busy G.
Proof.
  intros (HG & HS & HW) Hk Ht. destruct (rank_bound (w_heap w)) as [M HM].
  assert (forall n g G, M - rank (path_of G) < n -> w_heap w !! g = Some G -> ~ busy G) as Hn.
  { induction n as [|n IH]; [lia|]. intros g G Hn Hg HB.
    destruct (gr_held _ _ _ HG Hk _ _ Hg HB) as [Hin|(h & K & HK & ([k g'] & E & Hin)%list_elem_of_fmap)].
    - rewrite Ht in Hin. set_solver.
    - cbn in E. subst g'. destruct (gr_waitees _ _ _ HG _ _ _ _ HK Hin) as (G' & HG' & _ & _ & Hr & _). simplify_eq.
      apply (IH h K); [pose proof (HM _ _ HK); lia|done|].
      assert (g_waitees K <> []) as Hne by (intros E; rewrite E in Hin; set_solver).
      destruct (waiting_status _ _ _ _ _ (wk_status _ _ _ _ HW h K HK ltac:(set_solver)) Hne) as (? & _ & ? & _). done. }
  intros g G. apply (Hn (S (M - rank (path_of G)))). lia.
Qed.

Lemma end_asserts B w :
  Inv None [] [] B w -> s_keepGoing settings = true -> w_topGoals w = [] ->
  w_awake w = [] /\ w_wantingToBuild w = [] /\ w_children w = [].
Proof.
  intros HI Hk Ht. pose proof (all_done B w HI Hk Ht) as Hd. destruct HI as (HG & HS & HW).
  assert (forall g, g ∈ B ++ w_awake w \/ g ∈ w_wantingToBuild w -> False) as Hnone.
  { intros g Hin. destruct (wk_alive _ _ _ _ HW Hk g Hin) as [G Hg]. specialize (Hd g G Hg).
    pose proof (wk_status _ _ _ _ HW g G Hg ltac:(set_solver)) as Hst. unfold status in Hst.
    destruct (g_co G) as [co|]; [by destruct Hst|]. destruct Hst as (_ & _ & ? & ?). by destruct Hin. }
  assert (w_wantingToBuild w = []) as Hw.
  { destruct (w_wantingToBuild w) as [|g l] eqn:E; [done|]. destruct (Hnone g). right. set_solver. }
  split; [|split; [done|]].
  - destruct (w_awake w) as [|g l] eqn:E; [done|]. destruct (Hnone g). left. set_solver.
  - destruct (w_children w) as [|c l] eqn:E; [done|].
    destruct (sl_child _ HS c) as (G & Hg & Ht' & _); [rewrite E; set_solver|].
    pose proof (wk_status _ _ _ _ HW _ G Hg ltac:(set_solver)) as Hst. specialize (Hd _ G Hg). unfold status, ended in Hst.
    destruct (g_co G) as [co|]; [by destruct Hst|]. by destruct Hst as (_ & (_ & ? & _) & _).
Qed.
(** ** Polling *)

Definition ready (p : poll_result) (c : Child) : bool :=
  ch_open c && ch_closed c && bool_decide (ch_goal c ∈ p_ready p).
Definition polled (p : poll_result) (c : Child) : Child :=
  if ready p c then mkChild (ch_goal c) false true (ch_respectTimeouts c) (ch_inBuildSlot c) else c.
Definition woken (p : poll_result) (s : list gid) (l : list Child) : list gid :=
  foldl (fun s c => if ready p c then sset_insert (ch_goal c) s else s) s l.

Lemma poll_children_eq p l w :
  (forall c, c ∈ l -> is_Some (w_heap w !! ch_goal c) /\ ch_respectTimeouts c = false) ->
  poll_children p l w = Ok (polled p <$> l, set_awake (woken p (w_awake w) l) w).
Proof.
  revert w. induction l as [|c l IH]; intros w Hl; cbn [poll_children]; [by destruct w|].
  destruct (Hl c ltac:(set_solver)) as [[G HG] Hr]. unfold poll_child. rewrite HG. fold (ready p c).
  unfold woken. cbn [foldl]. csimpl. unfold polled at 1. destruct (ready p c).
  - cbn [ch_respectTimeouts ch_goal]. rewrite Hr, andb_false_r. cbn [andb negb assert_ rbind].
    rewrite (IH (wakeUp (ch_goal c) w)); [done|]. intros c' Hc'. apply Hl. set_solver.
  - rewrite Hr, andb_false_r. cbn [andb negb assert_ rbind].
    rewrite (IH w); [done|]. intros c' Hc'. apply Hl. set_solver.
Qed.

Lemma woken_spec p s l :
  (sset_wf s -> sset_wf (woken p s l)) /\
  (forall g, g ∈ woken p s l <-> g ∈ s \/ exists c, c ∈ l /\ ready p c = true /\ ch_goal c = g) /\
  length (woken p s l) <= length s + length (filter (fun c => ready p c = true) l).
Proof.
  unfold woken. revert s. induction l as [|c l IH]; intros s; cbn [foldl].
  { split_and!; [done|set_solver|cbn; lia]. }
  destruct (IH (if ready p c then sset_insert (ch_goal c) s else s)) as (H1 & H2 & H3).
  rewrite filter_cons. destruct (ready p c) eqn:Er.
  - split_and!; [auto with nix| |].
    + intros g. rewrite H2, sset_insert_elem. split.
      * intros [[->|?]|(c' & ? & ?)]; [right; exists c; set_solver|by left|right; exists c'; set_solver].
      * intros [?|(c' & [->|?]%elem_of_cons & ? & E)]; [by left; right|left; by left|right; eauto].
    + rewrite decide_True by done. cbn [length].
      assert (length (sset_insert (ch_goal c) s) <= S (length s)); [|lia].
      clear. induction s as [|x s IH]; cbn; [lia|]. case_match; cbn; lia.
  - rewrite decide_False by done. split_and!; [done| |lia]. intros g. rewrite H2. split.
    + intros [?|(c' & ? & ?)]; [by left|right; exists c'; set_solver].
    + intros [?|(c' & [->|?]%elem_of_cons & E & ?)]; [by left|congruence|right; eauto].
Qed.

(** A child has one entry. *)
Lemma child_unique w c c' : Slots (settings := settings) w -> c ∈ w_children w -> c' ∈ w_children w -> ch_goal c = ch_goal c' -> c = c'.
Proof.
  intros HS Hc Hc' E. pose proof (sl_nodup _ HS) as Hnd. revert Hc Hc' Hnd. generalize (w_children w) as l. clear HS.
  induction l as [|x l IH]; [set_solver|]. csimpl. intros [->|Hc]%elem_of_cons [->|Hc']%elem_of_cons [Hx Hnd]%NoDup_cons; auto.
  - destruct Hx. apply list_elem_of_fmap. by exists c'.
  - destruct Hx. apply list_elem_of_fmap. by exists c.
Qed.

Lemma polled_goal p c : ch_goal (polled p c) = ch_goal c.
Proof. unfold polled. by case_match. Qed.

Lemma polled_goals p (l : list Child) : ch_goal <$> (polled p <$> l) = ch_goal <$> l.
Proof. induction l as [|c l IH]; csimpl; [done|]. by rewrite polled_goal, IH. Qed.

Lemma waitForInput_ok p w :
  Inv None [] [] [] w ->
  exists w', waitForInput p w = Ok w' /\ Inv None [] [] [] w' /\ w_heap w' = w_heap w /\ w_store w' = w_store w /\
    w_topGoals w' = w_topGoals w /\ w_children w' = polled p <$> w_children w /\
    w_awake w' = woken p (w_awake w) (w_children w).
Proof.
  intros (HG & HS & HW). unfold waitForInput. rewrite poll_children_eq; [|].
  2:{ intros c Hc. destruct (sl_child _ HS c Hc) as (G & HG' & _ & _ & -> & _). by rewrite HG'. }
  cbn [rbind]. destruct (wk_waiting _ _ _ _ HW) as [E1 E2]. wsimpl. rewrite E2, (bool_decide_true (@nil gid = [])) by done. cbn [negb andb].
  eexists. split; [done|]. split; [|done].
  destruct (woken_spec p (w_awake w) (w_children w)) as (H1 & H2 & _).
  assert (forall c, c ∈ w_children w -> ready p c = true -> ch_goal c ∉ w_awake w) as Hopen.
  { intros c Hc Hr Hin. destruct (sl_child _ HS c Hc) as (G & HG' & Ht & _).
    pose proof (wk_status _ _ _ _ HW _ G HG' ltac:(set_solver)) as Hst. unfold status, ended in Hst.
    destruct (g_co G) as [co|]; [|by destruct Hst as (_ & (_ & ? & _) & _)]. destruct Hst as [_ Hst].
    destruct co as [|a|a|a|a| | |]; try done; try by destruct_and? Hst.
    destruct Hst as (_ & _ & _ & _ & [Hrd _]). destruct (Hrd Hin) as (c' & Hc' & E & Ho).
    rewrite (child_unique w c' c HS Hc' Hc E) in Ho. unfold ready in Hr. rewrite Ho in Hr. done. }
  assert (forall g, eof_read w g \/ (exists c, c ∈ w_children w /\ ready p c = true /\ ch_goal c = g) <->
    exists c, c ∈ polled p <$> w_children w /\ ch_goal c = g /\ ch_open c = false) as Hrd.
  { intros g. split.
    - intros [(c & Hc & E & Ho)|(c & Hc & Hr & E)].
      + exists (polled p c). rewrite polled_goal. split_and!; [by apply list_elem_of_fmap_2|done|].
        unfold polled. by case_match.
      + exists (polled p c). rewrite polled_goal. split_and!; [by apply list_elem_of_fmap_2|done|].
        unfold polled. by rewrite Hr.
    - intros (c' & (c & -> & Hc)%list_elem_of_fmap & E & Ho). rewrite polled_goal in E. unfold polled in Ho.
      destruct (ready p c) eqn:Er; [right; eauto|left; by exists c]. }
  split; [by destruct HG|]. split.
  - constructor; wsimpl; try by destruct HS.
    + intros c' (c & -> & Hc)%list_elem_of_fmap. rewrite polled_goal.
      destruct (sl_child _ HS c Hc) as (G & HG' & Ht & Es & Er & Hcl & Ho). exists G.
      split; [done|]. unfold polled. destruct (ready p c) eqn:Erd; [|done]. cbn. split_and!; try done.
      unfold ready in Erd. apply andb_true_iff in Erd as [[_ Ecl]%andb_true_iff _]. by rewrite <- Hcl.
    + intros g G HG' Ht. pose proof (sl_thr _ HS g G HG' Ht) as (c & -> & Hc)%list_elem_of_fmap.
      apply list_elem_of_fmap. exists (polled p c). rewrite polled_goal. split; [done|]. by apply list_elem_of_fmap_2.
    + rewrite polled_goals. apply (sl_nodup _ HS).
    + rewrite length_fmap. apply HS.
    + rewrite length_fmap. apply HS.
    + intros Hne E. apply fmap_nil_inv in E. by apply (sl_want _ HS).
  - constructor; wsimpl; try by destruct HW.
    + apply H1, HW.
    + cbn. apply sset_nodup, H1, HW.
    + cbn. intros g [Hg|(c & Hc & _ & <-)]%H2; [by apply (wk_used _ _ _ _ HW)|].
      destruct (sl_child _ HS c Hc) as (G & HG' & _). by apply (gr_used _ _ _ HG _ _ HG').
    + intros g G HG' _. pose proof (wk_status _ _ _ _ HW g G HG' ltac:(set_solver)) as Hst.
      destruct (decide (Exists (fun c => ready p c = true /\ ch_goal c = g) (w_children w))) as [Hex|Hnex].
      * apply Exists_exists in Hex as (c & Hc & Hr & E). destruct (sl_child _ HS c Hc) as (K & HK & Ht & _).
        rewrite E in HK. simplify_eq.
        unfold status, ended in *. destruct (g_co G) as [co|]; [|by destruct Hst as (_ & (_ & ? & _) & _)].
        destruct Hst as [HB Hst]. split; [done|]. destruct co as [|a|a|a|a| | |]; try done; try by destruct_and? Hst.
        destruct Hst as (? & _ & ? & ? & _). split_and!; try done. split; intros _.
        -- apply Hrd. right. by exists c.
        -- cbn. apply H2. right. by exists c.
      * assert (forall c, c ∈ w_children w -> ready p c = true -> ch_goal c <> g) as Hno.
        { intros c Hc Hr E. apply Hnex, Exists_exists. by exists c. }
        eapply status_mono; [| | | |exact Hst]; try done.
        -- cbn. rewrite H2. split; [by left|]. intros [?|(c & Hc & Hr & E)]; [done|]. by destruct (Hno c Hc Hr).
        -- unfold eof_read at 2. wsimpl. rewrite <- Hrd. split; [by left|].
           intros [?|(c & Hc & Hr & E)]; [done|]. by destruct (Hno c Hc Hr).
    + intros Hk g [Hin|Hin]; [|apply (wk_alive _ _ _ _ HW Hk); by right].
      cbn in Hin. apply H2 in Hin as [Hin|(c & Hc & _ & <-)]; [apply (wk_alive _ _ _ _ HW Hk); by left|].
      destruct (sl_child _ HS c Hc) as (G & HG' & _). by rewrite HG'.
Qed.
(** ** The environment *)

Definition running (w : Worker) (g : gid) : Prop := exists G, w_heap w !! g = Some G /\ g_thr G = Some Running.

#[local] Instance running_dec w g : Decision (running w g).
Proof.
  unfold running. destruct (w_heap w !! g) as [G|]; [|right; naive_solver].
  destruct (decide (g_thr G = Some Running)); [left|right]; naive_solver.
Defined.

Lemma close_child_goals g (l : list Child) : ch_goal <$> (close_child g <$> l) = ch_goal <$> l.
Proof. induction l as [|c l IH]; csimpl; [done|]. rewrite IH. unfold close_child at 1. by case_bool_decide. Qed.

Lemma set_children_same (w : Worker) : set_children (w_children w) (w_nrLocalBuilds w) (w_nrSubstitutions w) w = w.
Proof. by destruct w. Qed.

(** Only the end of a running thread is seen. *)
Lemma thread_ends_idle g o w : Slots (settings := settings) w -> ~ running w g -> thread_ends g o w = w.
Proof.
  intros HS Hn. unfold thread_ends.
  assert (close_child g <$> w_children w = w_children w) as ->.
  { rewrite <- (list_fmap_id (w_children w)) at 2. apply list_fmap_ext. intros i c Hc%list_elem_of_lookup_2.
    unfold close_child. case_bool_decide as E; [|done]. destruct (sl_child _ HS c Hc) as (G & HG & _ & _ & _ & Hcl & _).
    assert (ch_closed c = true) as Ec; [|by destruct c; cbn in *; subst].
    apply Hcl. intros Ht. apply Hn. exists G. by rewrite <- E. }
  rewrite set_children_same. destruct (w_heap w !! g) as [G|] eqn:HG; [|done].
  destruct (g_thr G) as [[|]|] eqn:Ht; try done. destruct Hn. by exists G.
Qed.

Lemma thread_ends_ok B g o w :
  Inv None [] [] B w -> running w g ->
  let w' := thread_ends g o w in
  Inv None [] [] B w' /\ w_topGoals w' = w_topGoals w /\ control w' = control w /\ w_awake w' = w_awake w /\
  w_children w' = close_child g <$> w_children w /\ st_valid (w_store w) ⊆ st_valid (w_store w').
Proof.
  intros (HG & HS & HW) (G & Hg & Ht). unfold thread_ends. wsimpl. rewrite Hg, Ht.
  set (s' := thread_effect (g_class G) o (w_store w)).
  assert (st_valid (w_store w) ⊆ st_valid s') as Hv.
  { unfold s', thread_effect. repeat case_match; cbn; set_solver. }
  assert (o = CopyDone -> path_of G ∈ st_valid s') as Ho.
  { intros ->. destruct (gr_path _ _ _ HG _ _ Hg) as (p & r & Ep). unfold s', path_of. rewrite Ep. cbn. set_solver. }
  assert (forall h K, alter (set_thr (Some (Finished o))) g (w_heap w) !! h = Some K ->
    (h = g /\ K = set_thr (Some (Finished o)) G) \/ (h <> g /\ w_heap w !! h = Some K)) as Hb.
  { intros h K. rewrite lookup_alter. case_decide as E; [subst h; rewrite Hg; cbn; naive_solver|naive_solver]. }
  split; [|split_and!; try done; transitivity (control (upd g (set_thr (Some (Finished o))) w)); [done|by apply control_upd]].
  split; [eapply Graph_sim; [| | | |exact HG]; try done; by apply heap_sim_alter|]. split.
  - constructor; wsimpl.
    + intros c' (c & -> & Hc)%list_elem_of_fmap. destruct (sl_child _ HS c Hc) as (K & HK & Hthr & ? & ? & Hcl & Hop).
      unfold close_child. case_bool_decide as E; cbn [ch_goal ch_inBuildSlot ch_respectTimeouts ch_closed ch_open].
      * rewrite E in *. simplify_eq. rewrite lookup_alter_eq, Hg. eexists. split_and!; try done.
      * rewrite lookup_alter_ne by done. exists K. done.
    + rewrite close_child_goals. intros h K [[-> ->]|[Hne HK]]%Hb Hthr; [|by eapply (sl_thr _ HS)].
      apply (sl_thr _ HS _ _ Hg). by rewrite Ht.
    + intros h K [[-> ->]|[Hne HK]]%Hb Hthr; [cbn in Hthr; simplify_eq; by apply Ho|].
      apply Hv. by eapply (sl_copied _ HS).
    + rewrite close_child_goals. apply (sl_nodup _ HS).
    + rewrite length_fmap. apply HS.
    + rewrite length_fmap. apply HS.
    + intros Hne E. apply fmap_nil_inv in E. by apply (sl_want _ HS).
  - assert (forall h, eof_read w h <-> exists c, c ∈ close_child g <$> w_children w /\ ch_goal c = h /\ ch_open c = false) as Hrd.
    { intros h. split.
      - intros (c & Hc & E & Eo). exists (close_child g c). split; [by apply list_elem_of_fmap_2|].
        unfold close_child. by case_bool_decide.
      - intros (c' & (c & -> & Hc)%list_elem_of_fmap & E & Eo). exists c. split; [done|].
        unfold close_child in E, Eo. by case_bool_decide. }
    constructor; wsimpl; try by destruct HW.
    + intros h K HK _. apply Hb in HK as [[-> ->]|[Hne HK]].
      * pose proof (wk_status _ _ _ _ HW g G Hg ltac:(set_solver)) as Hst. unfold status, ended in *. wsimpl.
        rewrite Ht in Hst.
        destruct (g_co G) as [[]|]; try by destruct_and? Hst.
        destruct Hst as (? & ? & _ & ? & ? & Hst). split_and!; try done. unfold eof_read at 1. wsimpl. by rewrite <- Hrd.
      * eapply status_mono; [exact Hv| | | |apply (wk_status _ _ _ _ HW); [done|set_solver]]; try done.
    + intros Hk h Hh. rewrite lookup_alter_is_Some. by apply (wk_alive _ _ _ _ HW).
Qed.

Lemma external_ok B p w : Inv None [] [] B w -> Inv None [] [] B (external_path p w).
Proof.
  intros (HG & HS & HW). split; [by destruct HG|].
  assert (st_valid (w_store w) ⊆ st_valid (w_store (external_path p w))) as Hv by (cbn; set_solver). split.
  - destruct HS. constructor; try done. intros g G HG' Ht. apply Hv. eauto.
  - constructor; try by destruct HW. intros g G HG' HE.
    eapply status_mono; [exact Hv| | | |apply (wk_status _ _ _ _ HW); [exact HG'|exact HE]]; done.
Qed.
(** ** Measures *)

Definition child_cost (c : Child) : nat := (if ch_closed c then 0 else 1) + (if ch_open c then 5 else 0).

(** The second component counts the steps until the potential changes. *)
Definition measure (c : Config) : nat * nat :=
  (potential (control (c_worker c)),
   sum_with child_cost (w_children (c_worker c)) + 4 * length (w_awake (c_worker c)) + 2 * length (c_pending c) +
   (if decide (c_batch c = []) then 0 else 1) + (if c_finished c then 0 else 1)).

Definition less (m m' : nat * nat) : Prop := m.1 < m'.1 \/ (m.1 <= m'.1 /\ m.2 < m'.2).
Definition at_most (m m' : nat * nat) : Prop := m.1 < m'.1 \/ (m.1 <= m'.1 /\ m.2 <= m'.2).

Lemma less_at_most m m' : less m m' -> at_most m m'.
Proof. unfold less, at_most. lia. Qed.
Lemma at_most_refl m : at_most m m.
Proof. unfold at_most. lia. Qed.
Lemma at_most_trans m1 m2 m3 : at_most m1 m2 -> at_most m2 m3 -> at_most m1 m3.
Proof. unfold at_most. lia. Qed.
Lemma less_at_most_trans m1 m2 m3 : less m1 m2 -> at_most m2 m3 -> less m1 m3.
Proof. unfold less, at_most. lia. Qed.

Lemma less_wf : well_founded less.
Proof.
  assert (forall a b m, m.1 <= a -> m.2 <= b -> Acc less m) as H.
  { induction a as [a IHa] using (well_founded_induction lt_wf). induction b as [b IHb] using (well_founded_induction lt_wf).
    intros m Ha Hb. constructor. intros m' [Hl|[Hl Hr]].
    - apply (IHa m'.1 ltac:(lia) m'.2); lia.
    - apply (IHb m'.2); lia. }
  intros m. by apply (H m.1 m.2).
Qed.

Lemma sum_with_fmap_le {A} (f : A -> A) (h : A -> nat) l :
  (forall x, x ∈ l -> h (f x) <= h x) -> sum_with h (f <$> l) <= sum_with h l.
Proof.
  induction l as [|x l IH]; intros Hl; csimpl; [lia|]. cbn. pose proof (Hl x ltac:(set_solver)).
  assert (sum_with h (f <$> l) <= sum_with h l) by (apply IH; set_solver). lia.
Qed.

Lemma sum_with_fmap_lt {A} (f : A -> A) (h : A -> nat) l x :
  (forall x, x ∈ l -> h (f x) <= h x) -> x ∈ l -> h (f x) < h x -> sum_with h (f <$> l) < sum_with h l.
Proof.
  induction l as [|y l IH]; intros Hl Hx Hlt; [set_solver|]. csimpl. cbn [sum_with].
  assert (sum_with h (f <$> l) <= sum_with h l) by (apply sum_with_fmap_le; set_solver).
  pose proof (Hl y ltac:(set_solver)). apply elem_of_cons in Hx as [->|Hx]; [lia|].
  assert (sum_with h (f <$> l) < sum_with h l) by (apply IH; set_solver). lia.
Qed.

(** Reading the end of a pipe pays for the wakeup. *)
Lemma polled_cost p (l : list Child) :
  sum_with child_cost (polled p <$> l) + 5 * length (filter (fun c => ready p c = true) l) <= sum_with child_cost l.
Proof.
  induction l as [|c l IH]; csimpl; [cbn; lia|]. rewrite filter_cons. unfold polled at 1. destruct (ready p c) eqn:Er.
  - rewrite decide_True by done. unfold ready in Er. apply andb_true_iff in Er as [[Eo Ec]%andb_true_iff _].
    cbn [sum_with length]. unfold child_cost at 1 3. rewrite Eo, Ec. cbn [ch_closed ch_open]. lia.
  - rewrite decide_False by done. cbn [sum_with]. lia.
Qed.

(** ** Batches *)

Lemma active_busy B w g G :
  Inv None [] [] B w -> w_heap w !! g = Some G -> g ∈ B ++ w_awake w -> busy G.
Proof.
  intros (_ & _ & HW) Hg Hin. pose proof (wk_status _ _ _ _ HW g G Hg ltac:(set_solver)) as Hst.
  unfold status in Hst. destruct (g_co G) as [co|]; [by destruct Hst|]. by destruct Hst as (_ & _ & ? & _).
Qed.

Lemma busy_distinct B w : Inv None [] [] B w -> distinct_keys w (fun g => g ∈ w_awake w).
Proof.
  intros HI g h G H Hg Hh HG HH Ek.
  pose proof (active_busy _ _ _ _ HI HG ltac:(set_solver)). pose proof (active_busy _ _ _ _ HI HH ltac:(set_solver)).
  destruct HI as (HGr & _). assert (path_of G = path_of H) as Ep
    by (eapply gkey_path; [by eapply (gr_path _ _ _ HGr)|by eapply (gr_path _ _ _ HGr)|done]).
  pose proof (gr_map_busy _ _ _ HGr g G HG ltac:(done)) as E1. pose proof (gr_map_busy _ _ _ HGr h H HH ltac:(done)) as E2.
  rewrite Ep in E1. congruence.
Qed.

Lemma start_batch w :
  Inv None [] [] [] w ->
  let awake2 := (lock_awake storeDir w).*2 in
  Inv None [] [] awake2 (set_awake [] w) /\ (forall g, g ∈ awake2 -> is_Some (w_heap w !! g)) /\
  length awake2 <= length (w_awake w).
Proof.
  intros HI. change (lock_awake storeDir w) with (gather w [] (w_awake w)).
  destruct (gather_spec w (w_awake w) (busy_distinct _ _ HI)) as (_ & _ & Hel & Hnd).
  set (awake2 := (gather w [] (w_awake w)).*2) in *. cbn zeta.
  split; [|split; [intros g Hg; by apply Hel|apply submseteq_length, NoDup_submseteq; [done|intros g Hg; by apply Hel]]].
  destruct HI as (HG & HS & HW). split; [by destruct HG|]. split; [by destruct HS|].
  constructor; wsimpl; try by destruct HW.
  - constructor.
  - by rewrite app_nil_r.
  - intros g. rewrite app_nil_r. intros [Hg _]%Hel. apply (wk_used _ _ _ _ HW). set_solver.
  - intros g G Hg HE. eapply status_mono; [| | | |apply (wk_status _ _ _ _ HW); [exact Hg|exact HE]]; try done.
    rewrite app_nil_r, Hel, Hg. cbn. split; [|naive_solver]. intros ?. split; [done|by eexists].
  - intros Hk g. rewrite app_nil_r. intros [[_ ?]%Hel|?]; [done|]. apply (wk_alive _ _ _ _ HW Hk). by right.
Qed.
(** ** Steps *)

(** What a step keeps for the caller. *)
Record advances (c c' : Config) : Prop := {
  ad_caller : c_caller c' = c_caller c;
  ad_valid : st_valid (w_store (c_worker c)) ⊆ st_valid (w_store (c_worker c'));
  ad_class : forall h H H', w_heap (c_worker c) !! h = Some H -> w_heap (c_worker c') !! h = Some H' ->
    g_class H' = g_class H;
}.

Definition idle (c : Config) : Prop :=
  c_pending c = [] /\ c_batch c = [] /\ w_awake (c_worker c) = [] /\ w_topGoals (c_worker c) <> [].

(** The events that make a difference: the end of a running thread, and a
    round of the loop, unless it only polls and nothing is ready. *)
Definition productive (e : event) (c : Config) : Prop :=
  c_finished c = false /\
  match e with
  | EvLoop p _ => idle c -> exists x, x ∈ w_children (c_worker c) /\ ready p x = true
  | EvThread g _ => running (c_worker c) g
  | EvExternal _ => False
  end.

Record stepped (e : event) (c c' : Config) : Prop := {
  stp_inv : CInv c';
  stp_advances : advances c c';
  stp_at_most : at_most (measure c') (measure c);
  stp_less : productive e c -> less (measure c') (measure c);
}.

Lemma stepped_less e c c' : CInv c' -> advances c c' -> less (measure c') (measure c) -> stepped e c c'.
Proof. intros. constructor; auto using less_at_most. Qed.

(** A goal of the batch is worked. *)
Lemma step_work p late c g pending :
  CInv c -> c_finished c = false -> c_pending c = g :: pending ->
  good (stepped (EvLoop p late) c)
    (run_step xp settings storeDir substituters pathInfoIsUntrusted alloc late p c).
Proof.
  intros [(B & HI & HB) Hp Hbatch Hal] Hf Ep. unfold run_step. rewrite Ep.
  assert (w_topGoals (c_worker c) <> []) as Htop by (intros Et; rewrite (Hp Et) in Ep; done).
  rewrite (HB Htop), Ep in HI.
  assert (g ∈ c_caller c ++ c_batch c) as Hin by (apply elem_of_app; right; apply Hbatch; rewrite Ep; set_solver).
  destruct (Hal g Hin) as [G Hg].
  eapply good_bind; [by eapply (work_ok (rank := rank) late (c_caller c ++ c_batch c) pending)|].
  intros w' [[HI' Hv Ht Hpins Hcl Hpot] Hless]. cbn [good].
  assert (length (if bool_decide (w_topGoals w' = []) then [] else pending) <= length pending) as Hlen
    by (case_match; cbn; lia).
  apply stepped_less.
  - constructor; cbn [c_worker c_caller c_batch c_pending].
    + exists pending. split; [done|]. intros Hne. by rewrite bool_decide_false.
    + intros E. by rewrite bool_decide_true.
    + case_match; [set_solver|]. rewrite Ep in Hbatch. set_solver.
    + intros h Hh. apply Hpins; [done|]. auto.
  - by constructor.
  - unfold less, measure. cbn [c_worker c_batch c_pending c_finished fst snd]. rewrite Ep, Hf. cbn [length].
    destruct Hless as [?|[-> ->]]; [by left|right]. split; [lia|]. lia.
Qed.

(** A batch ends, and with it the goals that only it held. *)
Lemma step_end_batch p late c :
  CInv c -> c_finished c = false -> c_pending c = [] -> c_batch c <> [] ->
  good (stepped (EvLoop p late) c)
    (run_step xp settings storeDir substituters pathInfoIsUntrusted alloc late p c).
Proof.
  intros [(B & HI & HB) Hp Hbatch Hal] Hf Ep Eb. unfold run_step. rewrite Ep, (bool_decide_false (c_batch c = [])) by done.
  cbn [negb]. destruct (collect_ok late _ _ _ _ (c_caller c) _ HI ltac:(set_solver)) as (w' & -> & HI' & [sh_heap sh_pins sh_top sh_alloc sh_map sh_valid sh_awake sh_want sh_quiet] & _).
  cbn [rbind good]. apply stepped_less.
  - constructor; cbn [c_worker c_caller c_batch c_pending]; try done.
    + exists B. split; [done|]. rewrite sh_top, <- Ep. done.
    + intros h. rewrite app_nil_r. intros Hh. rewrite sh_pins by done. apply Hal. set_solver.
  - constructor; cbn [c_worker]; try done. intros h H H' HH HH'. pose proof (lookup_weaken _ _ _ _ HH' sh_heap). congruence.
  - unfold less, measure. cbn [c_worker c_batch c_pending c_finished fst snd]. rewrite Ep, Hf.
    rewrite decide_True by done. rewrite decide_False by done.
    assert (control w' ⊆ control (c_worker c)) as Hc by (by apply map_fmap_mono).
    destruct sh_quiet as [[-> ->]|(g & G & Hg & Hco & Hg')].
    + right. split; [by apply potential_subseteq|]. cbn. lia.
    + left. assert (control (c_worker c) !! g = Some (g_class G, g_co G)) as Hctl by (by rewrite control_lookup, Hg).
      rewrite (potential_delete _ _ _ _ _ Hctl).
      assert (0 < weight substituters rank (g_class G, g_co G)) as Hpos.
      { destruct HI as (HG & _ & HW). destruct (gr_path _ _ _ HG _ _ Hg) as (q & r & Eq).
        pose proof (wk_status _ _ _ _ HW g G Hg ltac:(set_solver)) as Hst. unfold status in Hst.
        rewrite Eq. destruct (g_co G) as [co|]; [|done]. destruct Hst as [_ Hst]. cbn [weight].
        destruct co; try done; try lia. rewrite full_cost_eq by done. lia. }
      assert (potential (control w') <= potential (delete g (control (c_worker c)))); [|lia].
      apply potential_subseteq, map_subseteq_spec. intros h x Hh. rewrite lookup_delete_ne; [by eapply lookup_weaken|].
      intros <-. rewrite control_lookup, Hg' in Hh. done.
Qed.

(** A new batch starts. *)
Lemma step_start_batch p late c :
  CInv c -> c_finished c = false -> c_pending c = [] -> c_batch c = [] ->
  w_awake (c_worker c) <> [] -> w_topGoals (c_worker c) <> [] ->
  good (stepped (EvLoop p late) c)
    (run_step xp settings storeDir substituters pathInfoIsUntrusted alloc late p c).
Proof.
  intros [(B & HI & HB) Hp Hbatch Hal] Hf Ep Eb Ha Ht. unfold run_step.
  rewrite Ep, (bool_decide_true (c_batch c = [])), (bool_decide_false (w_awake (c_worker c) = [])),
    (bool_decide_false (w_topGoals (c_worker c) = [])) by done. cbn [negb andb good].
  rewrite (HB Ht), Ep in HI. destruct (start_batch _ HI) as (HI' & Hal' & Hlen). cbn zeta in *.
  apply stepped_less.
  - constructor; cbn [c_worker c_caller c_batch c_pending]; try done.
    + eexists. split; [exact HI'|done].
    + intros h [Hh|Hh]%elem_of_app; [apply Hal; set_solver|by apply Hal'].
  - constructor; cbn [c_worker]; try done. intros. wsimpl. congruence.
  - unfold less, measure. cbn [c_worker c_batch c_pending c_finished fst snd]. right. split; [done|].
    rewrite Ep, Eb, Hf. wsimpl. rewrite (decide_True (P := @nil gid = [])) by done.
    assert (0 < length (w_awake (c_worker c))) by (destruct (w_awake (c_worker c)); [done|cbn; lia]).
    case_decide; cbn [length]; lia.
Qed.

(** The end of the run. *)
Lemma step_finish p late c :
  CInv c -> c_finished c = false -> c_pending c = [] -> c_batch c = [] -> w_topGoals (c_worker c) = [] ->
  good (stepped (EvLoop p late) c)
    (run_step xp settings storeDir substituters pathInfoIsUntrusted alloc late p c).
Proof.
  intros HC Hf Ep Eb Ht. pose proof HC as [(B & HI & HB) Hp Hbatch Hal]. unfold run_step.
  rewrite Ep, (bool_decide_true (c_batch c = [])), (bool_decide_true (w_topGoals (c_worker c) = [])) by done.
  rewrite andb_false_r. cbn [negb].
  assert (forall b, (s_keepGoing settings = true -> b = true) -> negb (s_keepGoing settings) || b = true) as Hor
    by (intros b; destruct (s_keepGoing settings); auto).
  rewrite !Hor; [|intros Hk; apply bool_decide_eq_true; by destruct (end_asserts _ _ HI Hk Ht) as (? & ? & ?)..].
  cbn [assert_ rbind good]. apply stepped_less.
  - constructor; cbn [c_worker c_caller c_batch c_pending]; try done; [by exists B|by rewrite <- Eb].
  - constructor; cbn [c_worker]; try done. intros. congruence.
  - unfold less, measure. cbn [c_worker c_batch c_pending c_finished fst snd]. rewrite Ep, Eb, Hf. right. lia.
Qed.

(** Waiting for children. *)
Lemma step_wait p late c :
  CInv c -> c_finished c = false -> idle c ->
  good (stepped (EvLoop p late) c)
    (run_step xp settings storeDir substituters pathInfoIsUntrusted alloc late p c).
Proof.
  intros [(B & HI & HB) Hp Hbatch Hal] Hf (Ep & Eb & Ea & Ht). unfold run_step.
  rewrite Ep, (bool_decide_true (c_batch c = [])), (bool_decide_true (w_awake (c_worker c) = [])),
    (bool_decide_false (w_topGoals (c_worker c) = [])) by done. cbn [negb andb].
  rewrite (HB Ht), Ep in HI.
  rewrite (bool_decide_false (w_children (c_worker c) = [])) by (by apply no_deadlock). cbn [negb orb].
  destruct (waitForInput_ok p _ HI) as (w' & -> & HI' & Eh & Es & Et & Ec & Eaw). cbn [rbind good].
  pose proof (polled_cost p (w_children (c_worker c))) as Hcost.
  destruct (woken_spec p (w_awake (c_worker c)) (w_children (c_worker c))) as (_ & _ & Hlen).
  assert (control w' = control (c_worker c)) as Ectl by (unfold control; by rewrite Eh).
  constructor.
  - constructor; cbn [c_worker c_caller c_batch c_pending]; try done.
    + eexists. split; [exact HI'|done].
    + rewrite Eh, <- Eb. done.
  - constructor; cbn [c_worker]; [done|by rewrite Es|]. intros h H H'. rewrite Eh. congruence.
  - unfold at_most, measure. cbn [c_worker c_batch c_pending c_finished fst snd]. rewrite Ep, Eb, Hf, Ectl, Ec, Eaw.
    right. lia.
  - intros [_ Hpr]. destruct Hpr as (x & Hx & Hr); [done|].
    unfold less, measure. cbn [c_worker c_batch c_pending c_finished fst snd]. rewrite Ep, Eb, Hf, Ectl, Ec, Eaw.
    right. assert (0 < length (filter (fun c => ready p c = true) (w_children (c_worker c)))); [|lia].
    assert (x ∈ filter (fun c => ready p c = true) (w_children (c_worker c))) as Hin by (by apply list_elem_of_filter).
    destruct (filter (fun c => ready p c = true) (w_children (c_worker c))); [set_solver|cbn; lia].
Qed.

#[local] Notation step := (step xp settings storeDir substituters pathInfoIsUntrusted alloc).

Lemma step_thread g o c : CInv c -> c_finished c = false ->
  stepped (EvThread g o) c (on_worker (thread_ends g o) c).
Proof.
  intros HC Hf. pose proof HC as [(B & HI & HB) Hp Hbatch Hal]. destruct (decide (running (c_worker c) g)) as [Hr|Hn].
  - destruct (thread_ends_ok B g o _ HI Hr) as (HI' & Et & Ec & Ea & Ech & Hv). cbn zeta in *.
    assert (forall h, fst <$> control (thread_ends g o (c_worker c)) !! h = fst <$> control (c_worker c) !! h) as Hcl
      by (intros h; by rewrite Ec).
    apply stepped_less.
    + constructor; cbn [on_worker c_worker c_caller c_batch c_pending]; try done.
      * exists B. split; [done|]. by rewrite Et.
      * by rewrite Et.
      * intros h Hh. destruct (Hal h Hh) as [K HK]. specialize (Hcl h). rewrite !control_lookup, HK in Hcl.
        destruct (w_heap (thread_ends g o (c_worker c)) !! h); [by eexists|done].
    + constructor; cbn [on_worker c_worker]; try done. intros h H H' HH HH'. specialize (Hcl h).
      rewrite !control_lookup, HH, HH' in Hcl. cbn in Hcl. congruence.
    + unfold less, measure. cbn [on_worker c_worker c_batch c_pending c_finished fst snd]. rewrite Ec, Ea, Ech. right. split; [done|].
      destruct Hr as (G & Hg & Ht). destruct HI as (HG & HS & HW).
      pose proof (sl_thr _ HS g G Hg ltac:(by rewrite Ht)) as (x & -> & Hx)%list_elem_of_fmap.
      destruct (sl_child _ HS x Hx) as (K & HK & _ & _ & _ & Hcl' & _). simplify_eq.
      assert (sum_with child_cost (close_child (ch_goal x) <$> w_children (c_worker c)) <
        sum_with child_cost (w_children (c_worker c))); [|lia].
      apply (sum_with_fmap_lt _ _ _ x); [|done|].
      * intros y _. unfold close_child, child_cost. case_bool_decide; cbn [ch_closed ch_open]; repeat case_match; lia.
      * unfold close_child, child_cost. rewrite bool_decide_true by done. cbn [ch_closed ch_open].
        destruct (ch_closed x); [by destruct Hcl' as [[] _]|]. lia.
  - assert (on_worker (thread_ends g o) c = c) as E.
    { unfold on_worker. rewrite thread_ends_idle; [by destruct c|apply HI|done]. }
    rewrite E. constructor; [done|by constructor; [done|done|congruence]|apply at_most_refl|]. by intros [_ ?].
Qed.

Lemma step_external p c : CInv c -> stepped (EvExternal p) c (on_worker (external_path p) c).
Proof.
  intros [(B & HI & HB) Hp Hbatch Hal]. constructor.
  - constructor; try done. exists B. split; [by apply external_ok|done].
  - constructor; cbn; [done|set_solver|congruence].
  - apply at_most_refl.
  - by intros [_ ?].
Qed.

(** Every step keeps the invariant, whatever the environment does. *)
Lemma step_ok e c : CInv c -> good (stepped e c) (step e c).
Proof.
  intros HC. unfold Substitution.step. destruct (c_finished c) eqn:Hf.
  { constructor; [done|by constructor; [done|done|congruence]|apply at_most_refl|]. intros [? _]. congruence. }
  destruct e as [p late|g o|p]; [|by apply step_thread|by apply step_external].
  destruct (c_pending c) as [|g pending] eqn:Ep; [|by eapply step_work].
  destruct (decide (c_batch c = [])) as [Eb|Eb]; [|by apply step_end_batch].
  destruct (decide (w_topGoals (c_worker c) = [])) as [Et|Et]; [by apply step_finish|].
  destruct (decide (w_awake (c_worker c) = [])) as [Ea|Ea]; [by apply step_wait|by apply step_start_batch].
Qed.
End spec.
