(* ===== verification/SubstitutionSpec.v ===== *)
(** * What a substitution run promises

    The theorems on [Worker::run] when it starts with path substitutions: no
    assertion fails, the slots are respected, success means validity, the run
    makes progress and ends. Three assumptions are made, none of which the code
    checks: the addresses of goals are not reused; the references that the
    substituters report are acyclic apart from self-references; an answer for
    another path than the one asked for can be checked without an abort. Two
    runs show what happens otherwise: cyclic references, and goals for outputs
    of content-addressed derivations. *)

From stdpp Require Import gmap.
From S2P Require Import Prelude.
From S2P Require Import Containers.
From S2P Require Import Hash.
From S2P Require Import StorePath.
From S2P Require Import ContentAddress.
From S2P Require Import PathInfo.
From S2P Require Import LocalStore.
From S2P Require Import Worker.
From S2P Require Import Substitution.
From S2P Require Import SubstitutionInv.
From S2P Require Import SubstitutionWork.
From S2P Require Import SubstitutionLoop.

Section runs.
Context `{digest : Digest} {xp : xpSettings} {settings : Settings} {storeDir : bytes}.
Context {substituters : list Substituter} {pathInfoIsUntrusted : ValidPathInfo -> bool}.
Context {alloc : nat -> gid} {rank : StorePath -> nat}.
Hypothesis alloc_inj : forall i j, alloc i = alloc j -> i = j.
Hypothesis Hacyclic : acyclic substituters rank.
Hypothesis Hchecked : answers_checked xp substituters.

#[local] Notation step := (step xp settings storeDir substituters pathInfoIsUntrusted alloc).
#[local] Notation exec := (exec xp settings storeDir substituters pathInfoIsUntrusted alloc).
#[local] Notation start_run := (start_run storeDir alloc).
#[local] Notation CInv := (@CInv settings storeDir substituters alloc rank).
#[local] Notation measure := (measure (substituters := substituters) (rank := rank)).

(** What any sequence of events keeps. *)
Record executed (c c' : Config) : Prop := {
  ex_inv : CInv c';
  ex_asked : forall paths, asked paths c -> asked paths c';
  ex_valid : st_valid (w_store (c_worker c)) ⊆ st_valid (w_store (c_worker c'));
  ex_at_most : at_most (measure c') (measure c);
}.

Lemma advances_asked paths c c' : CInv c' -> advances c c' -> asked paths c -> asked paths c'.
Proof.
  intros HC [Ec _ Hcl] Ha. unfold asked in *. rewrite Ec.
  apply Forall2_same_length_lookup in Ha as [Hlen Ha]. apply Forall2_same_length_lookup. split; [done|].
  intros i pr g Hi Hg. destruct (Ha _ _ _ Hi Hg) as (G & HG & <-). apply list_elem_of_lookup_2 in Hg.
  destruct (ci_alive _ HC g) as [G' HG']; [rewrite Ec; set_solver|].
  exists G'. split; [done|]. unfold path_of. by rewrite (Hcl _ _ _ HG HG').
Qed.

Lemma exec_ok es c : CInv c -> good (executed c) (exec es c).
Proof.
  revert c. induction es as [|e es IH]; intros c HC; cbn [Substitution.exec].
  { constructor; auto using at_most_refl. }
  eapply good_bind; [by apply (step_ok (rank := rank))|]. intros c1 [HC1 Had Hm _].
  eapply good_mono; [by apply IH|]. intros c2 [HC2 Ha2 Hv2 Hm2]. constructor; [done| | |].
  - intros paths Ha. by eapply Ha2, advances_asked.
  - etransitivity; [apply (ad_valid _ _ Had)|done].
  - by eapply at_most_trans.
Qed.

Lemma run_ok es paths s :
  good (fun c => CInv c /\ asked paths c) (exec es (start_run paths s)).
Proof.
  destruct (start_ok (settings := settings) (storeDir := storeDir) (substituters := substituters) (rank := rank) alloc_inj Hacyclic Hchecked paths s)
    as (HC & Ha & _).
  eapply good_mono; [by apply exec_ok|]. intros c [HC' Ha' _ _]. auto.
Qed.

Lemma run_inv es paths s c : exec es (start_run paths s) = Ok c -> CInv c /\ asked paths c.
Proof. intros E. pose proof (run_ok es paths s) as H. by rewrite E in H. Qed.

(** A configuration that has not ended can make progress. *)
Lemma progress c : CInv c -> c_finished c = false -> exists e, productive e c.
Proof.
  intros [(B & HI & HB) Hp Hbatch Hal] Hf.
  destruct (decide (c_pending c = [] /\ c_batch c = [] /\ w_awake (c_worker c) = [] /\ w_topGoals (c_worker c) <> []))
    as [Hid|Hn]; [|exists (EvLoop (mkPoll [] [] false) (fun _ => CopyDone)); split; [done|by intros ?]].
  destruct Hid as (Ep & Eb & Ea & Et). rewrite (HB Et), Ep in HI.
  pose proof (no_deadlock alloc_inj Hacyclic Hchecked _ HI Ea Et) as Hch. destruct (w_children (c_worker c)) as [|x l] eqn:Ex; [done|].
  assert (x ∈ w_children (c_worker c)) as Hx by (rewrite Ex; set_solver).
  destruct HI as (HG & HS & HW). destruct (sl_child _ HS x Hx) as (G & Hg & Ht & _ & _ & Hcl & Hop).
  assert (ch_open x = true) as Ho.
  { destruct (ch_open x) eqn:Eo; [done|]. exfalso.
    pose proof (wk_status _ _ _ _ HW _ G Hg ltac:(set_solver)) as Hst. unfold status, ended in Hst. rewrite Ea in Hst.
    destruct (g_co G) as [co|]; [|by destruct Hst as (_ & (_ & ? & _) & _)]. destruct Hst as [_ Hst].
    destruct co as [|a|a|a|a| | |]; try done; try by destruct_and? Hst.
    destruct Hst as (_ & _ & _ & _ & [_ Hst]). assert (ch_goal x ∈ [] ++ ([] : list gid)); [|set_solver].
    apply Hst. by exists x. }
  destruct (ch_closed x) eqn:Ec.
  - exists (EvLoop (mkPoll [ch_goal x] [] false) (fun _ => CopyDone)). split; [done|]. intros _. exists x.
    split; [done|]. unfold ready. rewrite Ho, Ec. cbn [andb p_ready]. apply bool_decide_eq_true. set_solver.
  - exists (EvThread (ch_goal x) CopyDone). split; [done|]. exists G. split; [done|].
    destruct (g_thr G) as [[|o]|] eqn:Eg; [done| |done]. exfalso. assert (false = true); [|done]. by apply Hcl.
Qed.

(** [c'] follows from [c] by any events and a last one that makes a
    difference. *)
Definition follows (c' c : Config) : Prop :=
  exists es e c1, exec es c = Ok c1 /\ productive e c1 /\ step e c1 = Ok c'.

Lemma follows_inv c c' : CInv c -> follows c' c -> CInv c' /\ less (measure c') (measure c).
Proof.
  intros HC (es & e & c1 & E1 & Hp & E2). pose proof (exec_ok es c HC) as H1. rewrite E1 in H1. destruct H1 as [HC1 _ _ Hm1].
  pose proof (step_ok (pathInfoIsUntrusted := pathInfoIsUntrusted) (rank := rank) alloc_inj Hacyclic Hchecked e c1 HC1) as H2. rewrite E2 in H2. destruct H2 as [HC2 _ _ Hl].
  split; [done|]. eapply less_at_most_trans; [by apply Hl|done].
Qed.

Lemma follows_acc c : CInv c -> Acc follows c.
Proof.
  remember (measure c) as m eqn:Em. revert c Em. induction m as [m IH] using (well_founded_induction less_wf).
  intros c -> HC. constructor. intros c' Hf. destruct (follows_inv _ _ HC Hf) as [HC' Hl]. eapply IH; [exact Hl|done|done].
Qed.

Lemma exec_app es1 es2 c : exec (es1 ++ es2) c = let* c1 := exec es1 c in exec es2 c1.
Proof.
  revert c. induction es1 as [|e es1 IH]; intros c; cbn [app Substitution.exec rbind]; [done|].
  destruct (step e c) as [c1|]; cbn [rbind]; [apply IH|done].
Qed.

Lemma completes c : CInv c -> exists es, good (fun c' => c_finished c' = true) (exec es c).
Proof.
  intros HC. pose proof (follows_acc c HC) as Hacc. induction Hacc as [c _ IH].
  destruct (c_finished c) eqn:Hf; [by exists []|].
  destruct (progress c HC Hf) as [e Hp]. destruct (step e c) as [c1|f] eqn:Es.
  - assert (follows c1 c) as Hfo by (by exists [], e, c).
    destruct (follows_inv _ _ HC Hfo) as [HC1 _]. destruct (IH c1 Hfo HC1) as [es Hes].
    exists (e :: es). cbn [Substitution.exec]. by rewrite Es.
  - exists [e]. pose proof (step_ok (pathInfoIsUntrusted := pathInfoIsUntrusted) (rank := rank) alloc_inj Hacyclic Hchecked e c HC) as H2. cbn [Substitution.exec].
    rewrite Es in *. cbn in *. by destruct f.
Qed.

(** What the goals of the caller have done. *)
Lemma run_outcome es paths s c :
  exec es (start_run paths s) = Ok c ->
  Forall2 (fun pr g => exists G, w_heap (c_worker c) !! g = Some G /\ path_of G = pr.1 /\
      (g_exitCode G = ecSuccess -> pr.1 ∈ st_valid (w_store (c_worker c))) /\
      (w_topGoals (c_worker c) = [] -> s_keepGoing settings = true -> g_exitCode G <> ecBusy))
    paths (c_caller c).
Proof.
  intros [HC Ha]%run_inv. eapply Forall2_impl; [exact Ha|]. cbn. intros [p r] g (G & HG & Hp). exists G. cbn in *.
  split; [done|]. split; [done|]. destruct (ci_inv _ HC) as (B & HI & _). split.
  - intros Hs. destruct HI as (_ & _ & HW). pose proof (wk_status _ _ _ _ HW g G HG ltac:(set_solver)) as Hst.
    unfold status, ended, busy in Hst. rewrite Hs, Hp in Hst. destruct (g_co G) as [co|]; [by destruct Hst|]. naive_solver.
  - intros Ht Hk. by apply (all_done alloc_inj Hacyclic Hchecked B _ HI Hk Ht g G).
Qed.

(** ** The theorems *)

Lemma run_throws es paths s f : exec es (start_run paths s) = Err f -> exists e, f = Throw e.
Proof. intros E. pose proof (run_ok es paths s) as H. rewrite E in H. destruct f; first [done|by eexists]. Qed.

Lemma run_acc paths s : Acc follows (start_run paths s).
Proof. apply follows_acc. by apply (start_ok (settings := settings) (storeDir := storeDir) (substituters := substituters) (rank := rank) alloc_inj Hacyclic Hchecked paths s). Qed.

Lemma run_completes es paths s c :
  exec es (start_run paths s) = Ok c ->
  exists es', match exec es' c with
    | Ok c' => c_finished c' = true
    | Err f => exists e, f = Throw e
    end.
Proof.
  intros [HC _]%run_inv. destruct (completes c HC) as [es' Hes]. exists es'.
  destruct (exec es' c) as [c'|f]; [done|]. destruct f; first [done|by eexists].
Qed.

(** A goal that reports success has made its path valid; with
    --keep-going, every requested goal has ended when the run ends. *)
Theorem substitution_outcome es paths s c :
  exec es (start_run paths s) = Ok c ->
  Forall2 (fun pr g => exists G, w_heap (c_worker c) !! g = Some G /\ path_of G = pr.1 /\
      (g_exitCode G = ecSuccess -> pr.1 ∈ st_valid (w_store (c_worker c))) /\
      (w_topGoals (c_worker c) = [] -> s_keepGoing settings = true -> g_exitCode G <> ecBusy))
    paths (c_caller c).
Proof. apply run_outcome. Qed.

(** The number of substitutions the worker counts is the number of its
    children, each of which is a copy of a living goal, and never exceeds
    max-substitution-jobs (or 1). *)
Theorem substitution_slots es paths s c :
  exec es (start_run paths s) = Ok c ->
  w_nrSubstitutions (c_worker c) = length (w_children (c_worker c)) /\
  length (w_children (c_worker c)) <= Nat.max 1 (s_maxSubstitutionJobs settings) /\
  NoDup (ch_goal <$> w_children (c_worker c)) /\
  forall g, g ∈ ch_goal <$> w_children (c_worker c) <->
    exists G, w_heap (c_worker c) !! g = Some G /\ g_thr G <> None.
Proof.
  intros [HC _]%run_inv. destruct (ci_inv _ HC) as (B & (_ & HS & _) & _). split_and!; [apply HS..|].
  intros g. split.
  - intros (x & -> & Hx)%list_elem_of_fmap. destruct (sl_child _ HS x Hx) as (G & ? & ? & _). eauto.
  - intros (G & HG & Ht). by eapply (sl_thr _ HS).
Qed.

(** [Store::ensurePath] returns only when the path is valid. *)
Theorem ensurePath_valid path es s s' :
  ensurePath xp settings storeDir substituters pathInfoIsUntrusted alloc path es s = Ok (Some s') ->
  path ∈ st_valid s'.
Proof.
  unfold ensurePath. case_bool_decide as Hv; [by intros [= <-]|].
  destruct (exec es (start_run [(path, false)] s)) as [c|f] eqn:E; [|done]. cbn [rbind]. case_match; [|done].
  apply run_outcome in E. inversion E as [|pr g ps gs (G & HG & _ & Hok & _) HF E1 E2].
  unfold deref. rewrite HG. cbn [rbind]. case_bool_decide as Hs; [|done]. intros [= <-]. by apply Hok.
Qed.
End runs.

(** C5: substitution does not abort. Take substituters whose reported references
    are acyclic apart from self-references ([acyclic]: a rank decreases along
    them) and whose answers for another path than the one asked for can be
    checked without an abort ([answers_checked]), and goals whose addresses are
    not reused while the run lasts. Then, whatever else the substituters answer,
    however copies end, whichever paths other processes add and in whatever
    order all this is observed, a run that starts with path substitutions never
    fails an assertion and never uses a goal that has been destroyed: its only
    failures are exceptions. In particular the references of a path are valid
    when it is copied, every waiter of a goal waits for it, and the counters of
    the slots do not underflow. The code checks neither condition on the
    answers; with cyclic references the run aborts at worker.cc:404
    ([cyclic_references_abort]). *)
Theorem substitution_safe `{Digest} xp settings storeDir substituters pathInfoIsUntrusted alloc rank es paths s f :
  (forall i j, alloc i = alloc j -> i = j) -> acyclic substituters rank -> answers_checked xp substituters ->
  exec xp settings storeDir substituters pathInfoIsUntrusted alloc es (start_run storeDir alloc paths s) = Err f ->
  exists e, f = Throw e.
Proof. intros Hinj Hac Hch. by apply (run_throws (rank := rank)). Qed.

(** C6: substitution terminates, for substituters whose reported references are
    acyclic apart from self-references ([acyclic]), whose answers for another
    path than asked for can be checked without an abort ([answers_checked]), and
    goals whose addresses are not reused; the code does not check the first two.
    A run then has only finitely many events that make a difference (rounds of
    the loop that find something to do, ends of copies), whatever happens in
    between: it cannot go on for ever. *)
Theorem substitution_terminates `{Digest} xp settings storeDir substituters pathInfoIsUntrusted alloc rank paths s :
  (forall i j, alloc i = alloc j -> i = j) -> acyclic substituters rank -> answers_checked xp substituters ->
  Acc (follows (xp := xp) (settings := settings) (storeDir := storeDir) (substituters := substituters)
         (pathInfoIsUntrusted := pathInfoIsUntrusted) (alloc := alloc))
    (start_run storeDir alloc paths s).
Proof. intros Hinj Hac Hch. by apply (run_acc (rank := rank)). Qed.

(** C7: substitution is not stuck, for substituters whose reported references
    are acyclic apart from self-references ([acyclic]), whose answers for another
    path than asked for can be checked without an abort ([answers_checked]), and
    goals whose addresses are not reused; the code does not check the first two,
    and with a cycle the run ends in an abort instead. However far a run has
    come, it can then be completed: there are events after which it has ended or
    thrown an exception. *)
Theorem substitution_completes `{Digest} xp settings storeDir substituters pathInfoIsUntrusted alloc rank es paths s c :
  (forall i j, alloc i = alloc j -> i = j) -> acyclic substituters rank -> answers_checked xp substituters ->
  exec xp settings storeDir substituters pathInfoIsUntrusted alloc es (start_run storeDir alloc paths s) = Ok c ->
  exists es', match exec xp settings storeDir substituters pathInfoIsUntrusted alloc es' c with
    | Ok c' => c_finished c' = true
    | Err f => exists e, f = Throw e
    end.
Proof. intros Hinj Hac Hch. by apply (run_completes (rank := rank)). Qed.

(** ** Runs *)

(** A substituter that has [example_a] with references to itself and to
    [example_b], whose references are [brefs]. *)
Definition example_info (p : StorePath) (rs : list StorePath) : ValidPathInfo :=
  mkValidPathInfo p (mkPathInfo None dummy_hash rs 0 1 false [] None).
Definition example_substituter (brefs : list StorePath) : Substituter :=
  mkSubstituter (L "/nix/store") true
    (fun p => if bool_decide (p = example_a) then InfoFound (example_info example_a [example_a; example_b])
              else if bool_decide (p = example_b) then InfoFound (example_info example_b brefs)
              else InfoInvalidPath)
    (fun _ => Ok None).
Definition example_settings (keepGoing : bool) : Settings := mkSettings keepGoing false false true 4 1.
Definition example_rank (p : StorePath) : nat := if bool_decide (p = example_a) then 1 else 0.
Definition no_path : StoreState := mkStoreState [] [] [].
Definition round (ready : list gid) : event := EvLoop (mkPoll ready [] false) (fun _ => CopyDone).

Definition example_exec (brefs : list StorePath) (es : list event) (c : Config) : result Config :=
  @exec padded_digest (fun _ => true) (example_settings true) (L "/nix/store") [example_substituter brefs]
    (fun _ => false) Z.of_nat es c.
Definition example_start : Config := start_run (L "/nix/store") Z.of_nat [(example_a, false)] no_path.

(** The goal for [example_a] waits for the one for [example_b], which is copied
    first. *)
Definition example_events : list event :=
  replicate 9 (round []) ++ [EvThread 1 CopyDone; round [1%Z]] ++
  replicate 10 (round []) ++ [EvThread 0 CopyDone; round [0%Z]] ++ replicate 5 (round []).

Lemma example_acyclic : acyclic [example_substituter []] example_rank.
Proof.
  intros sub p r ->%list_elem_of_singleton. unfold refs_of, example_rank. cbn [sub_queryPathInfo example_substituter].
  repeat case_bool_decide; subst; cbn; set_solver by lia.
Qed.

Lemma example_checked brefs : @answers_checked padded_digest (fun _ => true) [example_substituter brefs].
Proof.
  intros sub p info f ->%list_elem_of_singleton. cbn [sub_queryPathInfo example_substituter].
  repeat case_bool_decide; subst; [intros [= <-]|intros [= <-]|done]; done.
Qed.

Lemma example_run_ends :
  match example_exec [] example_events example_start with
  | Ok c => c_finished c = true /\ st_valid (w_store (c_worker c)) = [example_a; example_b]
  | Err _ => False
  end.
Proof. vm_compute. auto. Qed.

(** A substituter that has [example_a], as above, but fails to answer for
    [example_b]. *)
Definition failing_substituter : Substituter :=
  mkSubstituter (L "/nix/store") true
    (fun p => if bool_decide (p = example_a) then InfoFound (example_info example_a [example_a; example_b]) else InfoError)
    (fun _ => Ok None).

(** The goal for [example_a] waits for the one for [example_b], which throws. *)
Lemma substitution_safe_witness :
  let run := @exec padded_digest (fun _ => true) (example_settings true) (L "/nix/store") [failing_substituter]
    (fun _ => false) Z.of_nat in
  match run (replicate 4 (round [])) example_start with
  | Ok c => match w_heap (c_worker c) !! 0%Z with Some G => snd <$> g_waitees G = [1%Z] | None => False end
  | Err _ => False
  end /\
  run (replicate 5 (round [])) example_start = Err (Throw Error) /\ exists e, Throw Error = Throw e.
Proof.
  cbv zeta. split_and!; [by vm_compute..|].
  apply (@substitution_safe padded_digest (fun _ => true) (example_settings true) (L "/nix/store") [failing_substituter]
    (fun _ => false) Z.of_nat example_rank (replicate 5 (round [])) [(example_a, false)] no_path).
  - apply Nat2Z.inj.
  - intros sub p r ->%list_elem_of_singleton. unfold refs_of, example_rank. cbn [sub_queryPathInfo failing_substituter].
    repeat case_bool_decide; subst; cbn; set_solver by lia.
  - intros sub p info f ->%list_elem_of_singleton. cbn [sub_queryPathInfo failing_substituter].
    case_bool_decide; subst; [intros [= <-]|]; done.
  - by vm_compute.
Defined.

Lemma substitution_outcome_witness :
  match example_exec [] example_events example_start with
  | Ok c => w_topGoals (c_worker c) = [] /\
      Forall2 (fun pr g => exists G, w_heap (c_worker c) !! g = Some G /\ path_of G = pr.1 /\
        (g_exitCode G = ecSuccess -> pr.1 ∈ st_valid (w_store (c_worker c))) /\
        (w_topGoals (c_worker c) = [] -> true = true -> g_exitCode G <> ecBusy)) [(example_a, false)] (c_caller c)
  | Err _ => False
  end.
Proof.
  destruct (example_exec [] example_events example_start) as [c|f] eqn:E; [split|by vm_compute in E].
  - assert (match example_exec [] example_events example_start with Ok c => w_topGoals (c_worker c) | Err _ => [([], 0%Z)] end = [])
      as H by (by vm_compute). by rewrite E in H.
  - by eapply (@substitution_outcome padded_digest (fun _ => true) (example_settings true) (L "/nix/store")
      [example_substituter []] (fun _ => false) Z.of_nat example_rank Nat2Z.inj example_acyclic (example_checked [])).
Defined.

Lemma substitution_slots_witness :
  match example_exec [] (take 9 example_events) example_start with
  | Ok c => length (w_children (c_worker c)) = 1 /\ w_nrSubstitutions (c_worker c) = length (w_children (c_worker c))
  | Err _ => False
  end.
Proof.
  destruct (example_exec [] (take 9 example_events) example_start) as [c|f] eqn:E; [split|by vm_compute in E].
  - assert (match example_exec [] (take 9 example_events) example_start with
      | Ok c => length (w_children (c_worker c)) | Err _ => 0 end = 1) as H by (by vm_compute). by rewrite E in H.
  - by apply (@substitution_slots padded_digest (fun _ => true) (example_settings true) (L "/nix/store")
      [example_substituter []] (fun _ => false) Z.of_nat example_rank Nat2Z.inj example_acyclic (example_checked []) _ _ _ _ E).
Defined.

Lemma substitution_terminates_witness :
  Acc (@follows padded_digest (fun _ => true) (example_settings true) (L "/nix/store") [example_substituter []]
    (fun _ => false) Z.of_nat) example_start.
Proof.
  exact (@substitution_terminates padded_digest (fun _ => true) (example_settings true) (L "/nix/store")
    [example_substituter []] (fun _ => false) Z.of_nat example_rank _ _ Nat2Z.inj example_acyclic (example_checked [])).
Defined.

Lemma substitution_completes_witness :
  match example_exec [] (take 9 example_events) example_start with
  | Ok c => c_finished c = false /\ exists es, match example_exec [] es c with
      | Ok c' => c_finished c' = true
      | Err f => exists e, f = Throw e
      end
  | Err _ => False
  end.
Proof.
  destruct (example_exec [] (take 9 example_events) example_start) as [c|f] eqn:E; [split|by vm_compute in E].
  - assert (match example_exec [] (take 9 example_events) example_start with
      | Ok c => c_finished c | Err _ => true end = false) as H by (by vm_compute). by rewrite E in H.
  - exact (@substitution_completes padded_digest (fun _ => true) (example_settings true) (L "/nix/store")
      [example_substituter []] (fun _ => false) Z.of_nat example_rank _ _ _ _ Nat2Z.inj example_acyclic (example_checked []) E).
Defined.

Lemma ensurePath_valid_witness :
  match @ensurePath padded_digest (fun _ => true) (example_settings true) (L "/nix/store") [example_substituter []]
    (fun _ => false) Z.of_nat example_a example_events no_path with
  | Ok (Some s) => example_a ∈ st_valid s
  | _ => False
  end.
Proof.
  destruct (@ensurePath padded_digest (fun _ => true) (example_settings true) (L "/nix/store") [example_substituter []]
    (fun _ => false) Z.of_nat example_a example_events no_path) as [[s|]|f] eqn:E; [|by vm_compute in E..].
  exact (@ensurePath_valid padded_digest (fun _ => true) (example_settings true) (L "/nix/store")
      [example_substituter []] (fun _ => false) Z.of_nat example_rank Nat2Z.inj example_acyclic (example_checked []) _ _ _ _ E).
Defined.

(** Cyclic references abort the program: when a substituter says that
    [example_a] refers to [example_b] and the other way round, their goals wait
    for each other, nothing is awake or running, and the assertion of
    [Worker::run] that some goal is awake fails. *)
Theorem cyclic_references_abort :
  match example_exec [example_a] (replicate 6 (round [])) example_start with
  | Ok c => w_awake (c_worker c) = [] /\ w_children (c_worker c) = [] /\ w_topGoals (c_worker c) <> [] /\
      example_exec [example_a] [round []] c = Err AssertFailed
  | Err _ => False
  end.
Proof. by vm_compute. Qed.

(** Two goals for outputs, as a content-addressed derivation has them. *)
Definition an_output (name : string) : DrvOutput := mkDrvOutput dummy_hash (L name).
Definition output_start : Config :=
  let '(x, w) := makeDrvOutputSubstitutionGoal Z.of_nat (an_output "x") (empty_worker no_path) in
  let '(y, w) := makeDrvOutputSubstitutionGoal Z.of_nat (an_output "y") w in
  mkConfig (set_topGoals (top_goals (L "/nix/store") [x; y] w) w) [x; y] [] [] false.

(** The realisation of "x" depends on those of "b" and "c"; the query for "b"
    fails. *)
Definition output_substituter : Substituter :=
  mkSubstituter (L "/nix/store") true (fun _ => InfoInvalidPath)
    (fun id => if bool_decide (id = an_output "x")
               then Ok (Some (mkRealisation id example_a [] [(an_output "b", example_a); (an_output "c", example_a)]))
               else if bool_decide (id = an_output "b") then throw Error else Ok None).

(** A goal for an output that is dropped while its query is running leaves
    its entry in [children] behind, because [DrvOutputSubstitutionGoal] has no
    destructor that would remove it. The next [waitForInput] fails the
    assertion that the goal of a child exists. Here "x" gives up "c" after the
    failure of "b" (without --keep-going), but ends with
    [ecIncompleteClosure], since its output path is not available, so that
    the run goes on for "y". *)
Theorem dropped_query_aborts :
  let run := @exec padded_digest (fun _ => true) (example_settings false) (L "/nix/store") [output_substituter]
    (fun _ => false) Z.of_nat in
  match run (replicate 4 (round []) ++ [EvThread 0 CopyDone; round [0%Z]] ++ replicate 8 (round []) ++
     [EvThread 2 CopyDone; round [2%Z]] ++ replicate 6 (round [])) output_start with
  | Ok c => w_awake (c_worker c) = [] /\ (fun x => alive (c_worker c) (ch_goal x)) <$> w_children (c_worker c) = [true; false] /\
      run [round []] c = Err AssertFailed
  | Err _ => False
  end.
Proof. by vm_compute. Qed.
