(* ===== verification/Expr.v ===== *)
(** * Expressions (libexpr/nixexpr.hh, nixexpr.cc)

    The syntax tree of the language and the resolution of variables:
    [bindVars] gives every variable the number of environments to go up and
    the displacement in that environment, or the innermost [with] that may
    define it. The C++ objects are annotated in place; here [bindVars] returns
    the annotated expression. A pointer to an [ExprWith] is what [lookupVar]
    reads through it ([WithInfo]). Positions, names of functions and doc
    comments are left out. *)

From Stdlib Require Import SpecFloat.
From S2P Require Import Prelude.
From S2P Require Import Containers.

(** ** Syntax *)

(** A symbol is an index into the symbol table; symbols are ordered by it. *)
Abbreviation Symbol := Z.
Abbreviation Displacement := nat.
Abbreviation Level := nat.

(** [prevWith] and [parentWith] of an [ExprWith]. *)
Inductive WithInfo := mkWithInfo (prevWith : nat) (parentWith : option WithInfo).

Definition prevWith (w : WithInfo) : nat := let 'mkWithInfo p _ := w in p.
Definition parentWith (w : WithInfo) : option WithInfo := let 'mkWithInfo _ p := w in p.

(** [fromWith], [level] and [displ] of an [ExprVar]. *)
Inductive VarRef :=
| Unresolved
| Lexical (level : Level) (displ : Displacement)
| FromWith (w : WithInfo) (level : Level).

Inductive Kind := Plain | Inherited | InheritedFrom.

Inductive AttrName (E : Type) := NameSymbol (symbol : Symbol) | NameExpr (expr : E).
Arguments NameSymbol {E} _.
Arguments NameExpr {E} _.

Record AttrDef (E : Type) := mkAttrDef { ad_kind : Kind; ad_e : E; ad_displ : Displacement }.
Arguments mkAttrDef {E} _ _ _.
Arguments ad_kind {E} _.
Arguments ad_e {E} _.
Arguments ad_displ {E} _.

Record Formal (E : Type) := mkFormal { fm_name : Symbol; fm_def : option E }.
Arguments mkFormal {E} _ _.
Arguments fm_name {E} _.
Arguments fm_def {E} _.

Record Formals (E : Type) := mkFormals { fs_formals : list (Formal E); fs_ellipsis : bool }.
Arguments mkFormals {E} _ _.
Arguments fs_formals {E} _.
Arguments fs_ellipsis {E} _.

(** [ExprAttrs]: [attrs] is a map ordered by symbol. *)
Record Attrs (E : Type) := mkAttrs {
  at_recursive : bool;
  at_attrs : list (Symbol * AttrDef E);
  at_inheritFromExprs : option (list E);
  at_dynamicAttrs : list (E * E);
}.
Arguments mkAttrs {E} _ _ _ _.
Arguments at_recursive {E} _.
Arguments at_attrs {E} _.
Arguments at_inheritFromExprs {E} _.
Arguments at_dynamicAttrs {E} _.

Inductive BinOp := OpEq | OpNEq | OpAnd | OpOr | OpImpl | OpUpdate | OpConcatLists.

Inductive Expr :=
| ExprInt (n : Z)
| ExprFloat (f : spec_float)
| ExprString (s : bytes)
| ExprPath (s : bytes)
| ExprVar (name : Symbol) (ref : VarRef)
| ExprInheritFrom (displ : Displacement)
| ExprSelect (e : Expr) (attrPath : list (AttrName Expr)) (def : option Expr)
| ExprOpHasAttr (e : Expr) (attrPath : list (AttrName Expr))
| ExprAttrs (a : Attrs Expr)
| ExprList (elems : list Expr)
| ExprLambda (arg : option Symbol) (formals : option (Formals Expr)) (body : Expr)
| ExprCall (fun_ : Expr) (args : list Expr)
| ExprLet (a : Attrs Expr) (body : Expr)
| ExprWith (attrs body : Expr)
| ExprIf (cond then_ else_ : Expr)
| ExprAssert (cond body : Expr)
| ExprOpNot (e : Expr)
| ExprBinOp (op : BinOp) (e1 e2 : Expr)
| ExprConcatStrings (forceString : bool) (es : list Expr).

(** [chooseByKind]. *)
Definition chooseByKind {A} (k : Kind) (plain inherited inheritedFrom : A) : A :=
  match k with Plain => plain | Inherited => inherited | InheritedFrom => inheritedFrom end.

(** [Formals::has]: the formals are sorted. *)
Definition has {E} (formals : list (Formal E)) (arg : Symbol) : bool :=
  match filter (fun f => ~ (fm_name f < arg)%Z) formals with
  | f :: _ => bool_decide (fm_name f = arg)
  | [] => false
  end.

(** ** Static environments *)

Inductive Frame := IsWith (w : WithInfo) | Vars (vars : list (Symbol * Displacement)).

(** A static environment with those above it. *)
Definition StaticEnv := list Frame.

(** A stable sort by the symbol. *)
Fixpoint sort_insert {A} (x : Symbol * A) (l : list (Symbol * A)) : list (Symbol * A) :=
  match l with
  | [] => [x]
  | y :: l => if (y.1 <=? x.1)%Z then y :: sort_insert x l else x :: y :: l
  end.
Definition stable_sort {A} (l : list (Symbol * A)) : list (Symbol * A) := foldl (fun l x => sort_insert x l) [] l.

(** [StaticEnv::sort] *)
Definition StaticEnv_sort (vars : list (Symbol * Displacement)) : list (Symbol * Displacement) := stable_sort vars.

(** [StaticEnv::deduplicate]: of the entries for a symbol the last one stays. *)
Fixpoint deduplicate (vars : list (Symbol * Displacement)) : list (Symbol * Displacement) :=
  match vars with
  | [] => []
  | x :: vars' =>
      match vars' with
      | y :: _ => if bool_decide (x.1 = y.1) then deduplicate vars' else x :: deduplicate vars'
      | [] => [x]
      end
  end.

(** [StaticEnv::find]: [std::lower_bound] for the pair of [name] and 0. *)
Definition StaticEnv_find (name : Symbol) (vars : list (Symbol * Displacement)) : option Displacement :=
  match filter (fun v => ~ (v.1 < name)%Z) vars with
  | v :: _ => if bool_decide (v.1 = name) then Some v.2 else None
  | [] => None
  end.

(** ** [bindVars] *)

(** The search of [ExprVar::bindVars]. *)
Fixpoint bind_search (name : Symbol) (curEnv : StaticEnv) (level : Level) (withLevel : option Level) :
    (Level * Displacement) + option Level :=
  match curEnv with
  | [] => inr withLevel
  | IsWith _ :: up =>
      bind_search name up (S level) (match withLevel with None => Some level | Some l => Some l end)
  | Vars vars :: up =>
      match StaticEnv_find name vars with
      | Some displ => inl (level, displ)
      | None => bind_search name up (S level) withLevel
      end
  end.

(** [for (e = env; e && !fromWith; e = e->up) fromWith = e->isWith]. *)
Fixpoint innermost_with (env : StaticEnv) : option WithInfo :=
  match env with
  | [] => None
  | IsWith w :: _ => Some w
  | Vars _ :: up => innermost_with up
  end.

Definition bind_var (name : Symbol) (env : StaticEnv) : result VarRef :=
  match bind_search name env 0 None with
  | inl (level, displ) => Ok (Lexical level displ)
  | inr None => throw UndefinedVarError
  | inr (Some withLevel) =>
      match innermost_with env with
      | Some w => Ok (FromWith w withLevel)
      | None => Ok (Lexical withLevel 0)
      end
  end.

(** The level of the nearest enclosing [with], 0 if there is none. *)
Fixpoint with_level (curEnv : StaticEnv) (level : nat) : nat :=
  match curEnv with
  | [] => 0
  | IsWith _ :: _ => level
  | Vars _ :: up => with_level up (S level)
  end.

Definition bind_with (env : StaticEnv) : WithInfo := mkWithInfo (with_level env 1) (innermost_with env).

(** [i.second.displ = displ++]. *)
Fixpoint number_attrs {E} (displ : Displacement) (l : list (Symbol * AttrDef E)) : list (Symbol * AttrDef E) :=
  match l with
  | [] => []
  | (s, d) :: l => (s, mkAttrDef (ad_kind d) (ad_e d) displ) :: number_attrs (S displ) l
  end.
Definition attrs_vars {E} (l : list (Symbol * AttrDef E)) : list (Symbol * Displacement) :=
  (fun kv => (kv.1, ad_displ kv.2)) <$> l.

Definition lambda_vars {E} (arg : option Symbol) (formals : option (Formals E)) : list (Symbol * Displacement) :=
  let names := option_list arg ++ match formals with Some fs => fm_name <$> fs_formals fs | None => [] end in
  let vars := zip names (seq 0 (length names)) in
  match formals with Some _ => StaticEnv_sort vars | None => vars end.

(** Traversals. *)
Section traverse.
Context {E : Type} (f : E -> result E).

Definition bind_list : list E -> result (list E) :=
  fix go l := match l with [] => Ok [] | e :: l => let* e := f e in let* l := go l in Ok (e :: l) end.
Definition bind_option (o : option E) : result (option E) :=
  match o with Some e => let* e := f e in Ok (Some e) | None => Ok None end.
Definition bind_path : list (AttrName E) -> result (list (AttrName E)) :=
  fix go l :=
    match l with
    | [] => Ok []
    | NameSymbol s :: l => let* l := go l in Ok (NameSymbol s :: l)
    | NameExpr e :: l => let* e := f e in let* l := go l in Ok (NameExpr e :: l)
    end.
Definition bind_formals : list (Formal E) -> result (list (Formal E)) :=
  fix go l :=
    match l with
    | [] => Ok []
    | mkFormal n d :: l => let* d := bind_option d in let* l := go l in Ok (mkFormal n d :: l)
    end.
Definition bind_dynamic : list (E * E) -> result (list (E * E)) :=
  fix go l :=
    match l with
    | [] => Ok []
    | (n, v) :: l => let* n := f n in let* v := f v in let* l := go l in Ok ((n, v) :: l)
    end.
End traverse.

(** The definitions of a set, each in the environment of its kind. *)
Definition bind_attrs {E} (f : Kind -> E -> result E) :
    list (Symbol * AttrDef E) -> result (list (Symbol * AttrDef E)) :=
  fix go l :=
    match l with
    | [] => Ok []
    | (s, mkAttrDef k e d) :: l =>
        let* e := f k e in
        let* l := go l in
        Ok ((s, mkAttrDef k e d) :: l)
    end.

Fixpoint bindVars (env : StaticEnv) (e : Expr) {struct e} : result Expr :=
  match e with
  | ExprInt _ | ExprFloat _ | ExprString _ | ExprPath _ | ExprInheritFrom _ => Ok e
  | ExprVar name _ => let* ref := bind_var name env in Ok (ExprVar name ref)
  | ExprSelect e attrPath def =>
      let* e := bindVars env e in
      let* def := bind_option (bindVars env) def in
      let* attrPath := bind_path (bindVars env) attrPath in
      Ok (ExprSelect e attrPath def)
  | ExprOpHasAttr e attrPath =>
      let* e := bindVars env e in
      let* attrPath := bind_path (bindVars env) attrPath in
      Ok (ExprOpHasAttr e attrPath)
  | ExprAttrs (mkAttrs recursive attrs inheritFromExprs dynamicAttrs) =>
      let newEnv := if recursive then Vars (attrs_vars (number_attrs 0 attrs)) :: env else env in
      (* bindInheritSources *)
      let* inheritFromExprs :=
        match inheritFromExprs with
        | Some l => let* l := bind_list (bindVars newEnv) l in Ok (Some l)
        | None => Ok None
        end in
      let* attrs := bind_attrs (fun k => bindVars (chooseByKind k newEnv env (Vars [] :: newEnv))) attrs in
      let* dynamicAttrs := bind_dynamic (bindVars newEnv) dynamicAttrs in
      Ok (ExprAttrs (mkAttrs recursive (if recursive then number_attrs 0 attrs else attrs)
                       inheritFromExprs dynamicAttrs))
  | ExprList elems => let* elems := bind_list (bindVars env) elems in Ok (ExprList elems)
  | ExprLambda arg formals body =>
      let newEnv := Vars (lambda_vars arg formals) :: env in
      let* formals :=
        match formals with
        | Some (mkFormals fs ell) =>
            let* fs := bind_formals (bindVars newEnv) fs in Ok (Some (mkFormals fs ell))
        | None => Ok None
        end in
      let* body := bindVars newEnv body in
      Ok (ExprLambda arg formals body)
  | ExprCall fun_ args =>
      let* fun_ := bindVars env fun_ in
      let* args := bind_list (bindVars env) args in
      Ok (ExprCall fun_ args)
  | ExprLet (mkAttrs recursive attrs inheritFromExprs dynamicAttrs) body =>
      let newEnv := Vars (attrs_vars (number_attrs 0 attrs)) :: env in
      let* inheritFromExprs :=
        match inheritFromExprs with
        | Some l => let* l := bind_list (bindVars newEnv) l in Ok (Some l)
        | None => Ok None
        end in
      let* attrs := bind_attrs (fun k => bindVars (chooseByKind k newEnv env (Vars [] :: newEnv))) attrs in
      let* body := bindVars newEnv body in
      Ok (ExprLet (mkAttrs recursive (number_attrs 0 attrs) inheritFromExprs dynamicAttrs) body)
  | ExprWith attrs body =>
      let* attrs := bindVars env attrs in
      let* body := bindVars (IsWith (bind_with env) :: env) body in
      Ok (ExprWith attrs body)
  | ExprIf cond then_ else_ =>
      let* cond := bindVars env cond in
      let* then_ := bindVars env then_ in
      let* else_ := bindVars env else_ in
      Ok (ExprIf cond then_ else_)
  | ExprAssert cond body =>
      let* cond := bindVars env cond in
      let* body := bindVars env body in
      Ok (ExprAssert cond body)
  | ExprOpNot e => let* e := bindVars env e in Ok (ExprOpNot e)
  | ExprBinOp op e1 e2 =>
      let* e1 := bindVars env e1 in
      let* e2 := bindVars env e2 in
      Ok (ExprBinOp op e1 e2)
  | ExprConcatStrings forceString es =>
      let* es := bind_list (bindVars env) es in Ok (ExprConcatStrings forceString es)
  end.
