(* ===== verification/Scoping.v ===== *)
(** * Scoping: what [bindVars] establishes

    A shape describes an environment as the evaluator will build it: one slot
    for a [with], a number of slots otherwise. [wf] says that every variable
    of an expression denotes a slot of the environments it will be evaluated
    in, and keeps what the parser guarantees; [parsed] is what the parser
    guarantees, and with [src = true] also that attributes of [inherit (e)]
    refer to sources of their own set, which the parser does not guarantee when
    it merges sets. Then: [bindVars] turns parsed expressions into well-formed
    ones, and finds the variable that the scoping rules of the language give. *)

From Stdlib Require Import SpecFloat Sorting.Sorted.
From S2P Require Import Prelude.
From S2P Require Import Containers.
From S2P Require Import Expr.

(** ** Induction on expressions *)

Section all.
Context {E : Type} (P : E -> Prop).

Definition all_list : list E -> Prop :=
  fix go l := match l with [] => True | e :: l => P e /\ go l end.
Definition all_option (o : option E) : Prop := match o with Some e => P e | None => True end.
Definition all_from (o : option (list E)) : Prop := match o with Some l => all_list l | None => True end.
Definition all_path : list (AttrName E) -> Prop :=
  fix go l :=
    match l with
    | [] => True
    | NameSymbol _ :: l => go l
    | NameExpr e :: l => P e /\ go l
    end.
Definition all_formals : list (Formal E) -> Prop :=
  fix go l := match l with [] => True | mkFormal _ d :: l => all_option d /\ go l end.
Definition all_dynamic : list (E * E) -> Prop :=
  fix go l := match l with [] => True | (n, v) :: l => P n /\ P v /\ go l end.
End all.

Definition all_attrs {E} (P : Kind -> E -> Prop) : list (Symbol * AttrDef E) -> Prop :=
  fix go l := match l with [] => True | (_, mkAttrDef k e _) :: l => P k e /\ go l end.

Section induction.
Context (P : Expr -> Prop).
Context (HInt : forall n, P (ExprInt n)) (HFloat : forall f, P (ExprFloat f))
  (HString : forall s, P (ExprString s)) (HPath : forall s, P (ExprPath s))
  (HVar : forall n r, P (ExprVar n r)) (HInheritFrom : forall d, P (ExprInheritFrom d))
  (HSelect : forall e path def, P e -> all_path P path -> all_option P def -> P (ExprSelect e path def))
  (HHas : forall e path, P e -> all_path P path -> P (ExprOpHasAttr e path))
  (HAttrs : forall r attrs from dyn, all_attrs (fun _ => P) attrs -> all_from P from -> all_dynamic P dyn ->
     P (ExprAttrs (mkAttrs r attrs from dyn)))
  (HList : forall es, all_list P es -> P (ExprList es))
  (HLambda0 : forall arg body, P body -> P (ExprLambda arg None body))
  (HLambda : forall arg fs ell body, all_formals P fs -> P body -> P (ExprLambda arg (Some (mkFormals fs ell)) body))
  (HCall : forall f args, P f -> all_list P args -> P (ExprCall f args))
  (HLet : forall r attrs from dyn body, all_attrs (fun _ => P) attrs -> all_from P from -> all_dynamic P dyn ->
     P body -> P (ExprLet (mkAttrs r attrs from dyn) body))
  (HWith : forall a b, P a -> P b -> P (ExprWith a b))
  (HIf : forall a b c, P a -> P b -> P c -> P (ExprIf a b c))
  (HAssert : forall a b, P a -> P b -> P (ExprAssert a b))
  (HNot : forall e, P e -> P (ExprOpNot e))
  (HBin : forall op a b, P a -> P b -> P (ExprBinOp op a b))
  (HConcat : forall fs es, all_list P es -> P (ExprConcatStrings fs es)).

Fixpoint Expr_nested_ind (e : Expr) : P e.
Proof.
  destruct e as [n|f|s|s|n r|d|e path def|e path|[r attrs from dyn]|es|arg [[fs ell]|] body|f args
    |[r attrs from dyn] body|a b|a b c|a b|e|op a b|fs es].
  - apply HInt.
  - apply HFloat.
  - apply HString.
  - apply HPath.
  - apply HVar.
  - apply HInheritFrom.
  - apply HSelect; [apply Expr_nested_ind| |destruct def; [apply Expr_nested_ind|exact I]].
    induction path as [|[s|x] path IH]; simpl; [exact I|exact IH|exact (conj (Expr_nested_ind x) IH)].
  - apply HHas; [apply Expr_nested_ind|].
    induction path as [|[s|x] path IH]; simpl; [exact I|exact IH|exact (conj (Expr_nested_ind x) IH)].
  - apply HAttrs.
    + induction attrs as [|[s [k x d]] attrs IH]; simpl; [exact I|exact (conj (Expr_nested_ind x) IH)].
    + destruct from as [l|]; [|exact I].
      induction l as [|x l IH]; simpl; [exact I|exact (conj (Expr_nested_ind x) IH)].
    + induction dyn as [|[x y] dyn IH]; simpl; [exact I|].
      exact (conj (Expr_nested_ind x) (conj (Expr_nested_ind y) IH)).
  - apply HList. induction es as [|x l IH]; simpl; [exact I|exact (conj (Expr_nested_ind x) IH)].
  - apply HLambda; [|apply Expr_nested_ind].
    induction fs as [|[s [x|]] fs IH]; simpl; [exact I|exact (conj (Expr_nested_ind x) IH)|exact (conj I IH)].
  - apply HLambda0, Expr_nested_ind.
  - apply HCall; [apply Expr_nested_ind|].
    induction args as [|x l IH]; simpl; [exact I|exact (conj (Expr_nested_ind x) IH)].
  - apply HLet; [| | |apply Expr_nested_ind].
    + induction attrs as [|[s [k x d]] attrs IH]; simpl; [exact I|exact (conj (Expr_nested_ind x) IH)].
    + destruct from as [l|]; [|exact I].
      induction l as [|x l IH]; simpl; [exact I|exact (conj (Expr_nested_ind x) IH)].
    + induction dyn as [|[x y] dyn IH]; simpl; [exact I|].
      exact (conj (Expr_nested_ind x) (conj (Expr_nested_ind y) IH)).
  - apply HWith; apply Expr_nested_ind.
  - apply HIf; apply Expr_nested_ind.
  - apply HAssert; apply Expr_nested_ind.
  - apply HNot; apply Expr_nested_ind.
  - apply HBin; apply Expr_nested_ind.
  - apply HConcat. induction es as [|x l IH]; simpl; [exact I|exact (conj (Expr_nested_ind x) IH)].
Qed.
End induction.

(** ** Well-formed expressions *)

Inductive Shape := SWith | SVars (size : nat).
Definition shape_size (s : Shape) : nat := match s with SWith => 1 | SVars n => n end.

(** The chain of [with]s starts at the first environment. *)
Fixpoint wf_with (w : WithInfo) (S : list Shape) : Prop :=
  match w with
  | mkWithInfo prev parent =>
      S !! 0 = Some SWith /\
      match parent with Some w => wf_with w (drop prev S) | None => True end
  end.

Definition wf_ref (S : list Shape) (ref : VarRef) : Prop :=
  match ref with
  | Unresolved => False
  | Lexical level displ => exists s, S !! level = Some s /\ displ < shape_size s
  | FromWith w level => wf_with w (drop level S)
  end.

Definition valid_symbol (N : nat) (s : Symbol) : Prop := (0 < s <= Z.of_nat N)%Z.

Definition sorted_names (l : list Symbol) : Prop := StronglySorted Z.lt l.

(** The attributes are a map; an inherited-from attribute has a source. *)
Definition attrs_ok {E} (N : nat) (from : option (list E)) (attrs : list (Symbol * AttrDef E)) : Prop :=
  sorted_names attrs.*1 /\ Forall (valid_symbol N) attrs.*1 /\
  Forall (fun d : AttrDef E => ad_kind d = InheritedFrom -> is_Some from) attrs.*2.

Definition numbered {E} (attrs : list (Symbol * AttrDef E)) : Prop :=
  forall i kv, attrs !! i = Some kv -> ad_displ kv.2 = i.

Definition formals_ok {E} (N : nat) (fs : list (Formal E)) : Prop :=
  sorted_names (fm_name <$> fs) /\ Forall (valid_symbol N) (fm_name <$> fs).

Definition from_size {E} (from : option (list E)) : nat := match from with Some l => length l | None => 0 end.
Definition arg_size {E} (arg : option Symbol) (formals : option (Formals E)) : nat :=
  length (option_list arg) + match formals with Some fs => length (fs_formals fs) | None => 0 end.

(** [N] symbols exist. An attribute of [inherit (e)] refers to the environment
    that holds the sources of its set; [src] says whether it is required to be
    one of them. *)
Fixpoint wf (src : bool) (N : nat) (S : list Shape) (e : Expr) {struct e} : Prop :=
  match e with
  | ExprInt _ | ExprFloat _ | ExprString _ | ExprPath _ => True
  | ExprVar _ ref => wf_ref S ref
  | ExprInheritFrom displ => src = true -> wf_ref S (Lexical 0 displ)
  | ExprSelect e path def => wf src N S e /\ all_path (wf src N S) path /\ all_option (wf src N S) def
  | ExprOpHasAttr e path => wf src N S e /\ all_path (wf src N S) path
  | ExprAttrs (mkAttrs recursive attrs from dyn) =>
      let S' := if recursive then SVars (length attrs) :: S else S in
      (attrs_ok N from attrs /\ (recursive = true -> numbered attrs)) /\
      all_attrs (fun k e => wf src N (chooseByKind k S' S (SVars (from_size from) :: S')) e) attrs /\
      all_from (wf src N S') from /\
      all_dynamic (wf src N S') dyn
  | ExprList es => all_list (wf src N S) es
  | ExprLambda arg formals body =>
      let S' := SVars (arg_size arg formals) :: S in
      match formals with
      | Some (mkFormals fs _) => formals_ok N fs /\ all_formals (wf src N S') fs
      | None => is_Some arg
      end /\
      wf src N S' body
  | ExprCall f args => wf src N S f /\ all_list (wf src N S) args
  | ExprLet (mkAttrs _ attrs from _) body =>
      let S' := SVars (length attrs) :: S in
      attrs_ok N from attrs /\
      all_attrs (fun k e => wf src N (chooseByKind k S' S (SVars (from_size from) :: S')) e) attrs /\
      all_from (wf src N S') from /\
      wf src N S' body
  | ExprWith a b => wf src N S a /\ wf src N (SWith :: S) b
  | ExprIf a b c => wf src N S a /\ wf src N S b /\ wf src N S c
  | ExprAssert a b => wf src N S a /\ wf src N S b
  | ExprOpNot e => wf src N S e
  | ExprBinOp _ a b => wf src N S a /\ wf src N S b
  | ExprConcatStrings _ es => all_list (wf src N S) es
  end.

(** What the parser guarantees before [bindVars]. That the attributes of
    [inherit (e)] refer to sources of their own set ([src = true]) is true of
    the sets as they are written, but not of all sets the parser makes by
    merging two ([ParserState.merged_inherit_out_of_bounds]). *)
Definition inherits_from (src : bool) (n : nat) (e : Expr) : Prop :=
  exists displ name, e = ExprSelect (ExprInheritFrom displ) [NameSymbol name] None /\ (src = true -> displ < n).

Fixpoint parsed (src : bool) (N : nat) (e : Expr) {struct e} : Prop :=
  match e with
  | ExprInt _ | ExprFloat _ | ExprString _ | ExprPath _ | ExprVar _ _ => True
  | ExprInheritFrom _ => False
  | ExprSelect e path def => parsed src N e /\ all_path (parsed src N) path /\ all_option (parsed src N) def
  | ExprOpHasAttr e path => parsed src N e /\ all_path (parsed src N) path
  | ExprAttrs (mkAttrs _ attrs from dyn) =>
      attrs_ok N from attrs /\
      all_attrs (fun k e => match k with InheritedFrom => inherits_from src (from_size from) e | _ => parsed src N e end) attrs /\
      all_from (parsed src N) from /\ all_dynamic (parsed src N) dyn
  | ExprList es => all_list (parsed src N) es
  | ExprLambda arg formals body =>
      match formals with
      | Some (mkFormals fs _) => formals_ok N fs /\ all_formals (parsed src N) fs
      | None => is_Some arg
      end /\
      parsed src N body
  | ExprCall f args => parsed src N f /\ all_list (parsed src N) args
  | ExprLet (mkAttrs _ attrs from _) body =>
      attrs_ok N from attrs /\
      all_attrs (fun k e => match k with InheritedFrom => inherits_from src (from_size from) e | _ => parsed src N e end) attrs /\
      all_from (parsed src N) from /\ parsed src N body
  | ExprWith a b => parsed src N a /\ parsed src N b
  | ExprIf a b c => parsed src N a /\ parsed src N b /\ parsed src N c
  | ExprAssert a b => parsed src N a /\ parsed src N b
  | ExprOpNot e => parsed src N e
  | ExprBinOp _ a b => parsed src N a /\ parsed src N b
  | ExprConcatStrings _ es => all_list (parsed src N) es
  end.

(** ** Traversals *)

Section traversals.
Context {E : Type} (f : E -> result E) (P : E -> Prop).

Definition establishes (e : E) : Prop := forall e', f e = Ok e' -> P e'.

Lemma bind_list_all l l' : all_list establishes l -> bind_list f l = Ok l' -> all_list P l' /\ length l' = length l.
Proof.
  revert l'. induction l as [|e l IH]; intros l' Hl H; simpl in *; inv_result; [done|].
  destruct Hl as [He Hl]. edestruct IH as [? ?]; [done..|]. simpl. split; [|lia]. split; [by apply He|done].
Qed.
Lemma bind_option_all o o' : all_option establishes o -> bind_option f o = Ok o' -> all_option P o'.
Proof. destruct o as [e|]; simpl; intros He H; inv_result; simpl; [by apply He|done]. Qed.
Lemma bind_path_all l l' : all_path establishes l -> bind_path f l = Ok l' -> all_path P l'.
Proof.
  revert l'. induction l as [|[s|e] l IH]; intros l' Hl H; simpl in *; inv_result; simpl; [done|by apply IH|].
  destruct Hl as [He Hl]. split; [by apply He|by apply IH].
Qed.
Lemma bind_formals_all l l' :
  all_formals establishes l -> bind_formals f l = Ok l' -> all_formals P l' /\ fm_name <$> l' = fm_name <$> l.
Proof.
  revert l'. induction l as [|[s d] l IH]; intros l' Hl H; simpl in *; inv_result; simpl; [done|].
  destruct Hl as [He Hl]. edestruct IH as [? ?]; [done..|]. split; [|by f_equal].
  split; [by eapply bind_option_all|done].
Qed.
Lemma bind_dynamic_all l l' : all_dynamic establishes l -> bind_dynamic f l = Ok l' -> all_dynamic P l'.
Proof.
  revert l'. induction l as [|[s d] l IH]; intros l' Hl H; simpl in *; inv_result; simpl; [done|].
  destruct Hl as (Hs & Hd & Hl). split_and!; [by apply Hs|by apply Hd|by apply IH].
Qed.
End traversals.

Definition name_kinds {E} (l : list (Symbol * AttrDef E)) : list (Symbol * Kind) :=
  (fun kv => (kv.1, ad_kind kv.2)) <$> l.

Lemma bind_attrs_all {E} (f : Kind -> E -> result E) (P : Kind -> E -> Prop) l l' :
  all_attrs (fun k => establishes (f k) (P k)) l -> bind_attrs f l = Ok l' ->
  all_attrs P l' /\ name_kinds l' = name_kinds l.
Proof.
  revert l'. induction l as [|[s [k e d]] l IH]; intros l' Hl H; simpl in *; inv_result; simpl; [done|].
  destruct Hl as [He Hl]. edestruct IH as [? ?]; [done..|]. split; [|by f_equal]. split; [by apply He|done].
Qed.

Lemma number_attrs_name_kinds {E} n (l : list (Symbol * AttrDef E)) : name_kinds (number_attrs n l) = name_kinds l.
Proof.
  revert n. induction l as [|[s d] l IH]; intros n; [done|].
  cbn [number_attrs]. unfold name_kinds in *. cbn [fmap list_fmap]. by rewrite IH.
Qed.
Lemma number_attrs_all {E} (P : Kind -> E -> Prop) n l : all_attrs P l -> all_attrs P (number_attrs n l).
Proof. revert n. induction l as [|[s [k e d]] l IH]; intros n; simpl; [done|]. intros [? ?]. auto. Qed.
Lemma number_attrs_lookup {E} n (l : list (Symbol * AttrDef E)) i kv :
  number_attrs n l !! i = Some kv -> ad_displ kv.2 = n + i.
Proof.
  revert n i. induction l as [|[s d] l IH]; intros n [|i] H; simplify_eq/=; [lia|]. apply IH in H. lia.
Qed.
Lemma number_attrs_numbered {E} (l : list (Symbol * AttrDef E)) : numbered (number_attrs 0 l).
Proof. intros i kv. apply number_attrs_lookup. Qed.

Lemma name_kinds_fst {E} (l : list (Symbol * AttrDef E)) : l.*1 = (name_kinds l).*1.
Proof. unfold name_kinds. by rewrite <- list_fmap_compose. Qed.
Lemma name_kinds_snd {E} (l : list (Symbol * AttrDef E)) : ad_kind <$> l.*2 = (name_kinds l).*2.
Proof. unfold name_kinds. by rewrite <- !list_fmap_compose. Qed.
Lemma name_kinds_length {E} (l : list (Symbol * AttrDef E)) : length (name_kinds l) = length l.
Proof. apply length_fmap. Qed.

Lemma attrs_ok_name_kinds {E} N (from from' : option (list E)) l l' :
  name_kinds l' = name_kinds l -> (is_Some from -> is_Some from') -> attrs_ok N from l -> attrs_ok N from' l'.
Proof.
  intros Hl Hf (Hs & Hv & Hk). unfold attrs_ok. rewrite (name_kinds_fst l'), Hl, <- name_kinds_fst.
  split_and!; [done..|].
  assert (Hk' : Forall (fun k => k = InheritedFrom -> is_Some from') (ad_kind <$> l'.*2)).
  { rewrite name_kinds_snd, Hl, <- name_kinds_snd. apply Forall_fmap.
    eapply Forall_impl; [exact Hk|]. simpl. auto. }
  by apply Forall_fmap in Hk'.
Qed.

Lemma all_attrs_mp {E} (P Q R : Kind -> E -> Prop) l :
  all_attrs P l -> all_attrs Q l -> (forall k e, P k e -> Q k e -> R k e) -> all_attrs R l.
Proof.
  intros HP HQ HR. induction l as [|[s [k e d]] l IH]; simpl in *; [done|].
  destruct HP, HQ. split; [by apply HR|by apply IH].
Qed.
Lemma all_list_mp {E} (P Q R : E -> Prop) l :
  all_list P l -> all_list Q l -> (forall e, P e -> Q e -> R e) -> all_list R l.
Proof.
  intros HP HQ HR. induction l as [|e l IH]; simpl in *; [done|].
  destruct HP, HQ. split; [by apply HR|by apply IH].
Qed.
Lemma all_option_mp {E} (P Q R : E -> Prop) o :
  all_option P o -> all_option Q o -> (forall e, P e -> Q e -> R e) -> all_option R o.
Proof. destruct o; simpl; auto. Qed.
Lemma all_from_mp {E} (P Q R : E -> Prop) o :
  all_from P o -> all_from Q o -> (forall e, P e -> Q e -> R e) -> all_from R o.
Proof. destruct o; simpl; [apply all_list_mp|done]. Qed.
Lemma all_path_mp {E} (P Q R : E -> Prop) l :
  all_path P l -> all_path Q l -> (forall e, P e -> Q e -> R e) -> all_path R l.
Proof.
  intros HP HQ HR. induction l as [|[s|e] l IH]; simpl in *; [done|by apply IH|].
  destruct HP, HQ. split; [by apply HR|by apply IH].
Qed.
Lemma all_formals_mp {E} (P Q R : E -> Prop) l :
  all_formals P l -> all_formals Q l -> (forall e, P e -> Q e -> R e) -> all_formals R l.
Proof.
  intros HP HQ HR. induction l as [|[s d] l IH]; simpl in *; [done|].
  destruct HP, HQ. split; [by apply (all_option_mp P Q)|by apply IH].
Qed.
Lemma all_dynamic_mp {E} (P Q R : E -> Prop) l :
  all_dynamic P l -> all_dynamic Q l -> (forall e, P e -> Q e -> R e) -> all_dynamic R l.
Proof.
  intros HP HQ HR. induction l as [|[s d] l IH]; simpl in *; [done|].
  destruct HP as (?&?&?), HQ as (?&?&?). split_and!; [by apply HR..|by apply IH].
Qed.

(** ** [bindVars] yields well-formed expressions *)

(** The environments that a static environment describes have these shapes. *)
Fixpoint compat (env : StaticEnv) (S : list Shape) : Prop :=
  match env, S with
  | [], [] => True
  | IsWith w :: up, s :: S' => s = SWith /\ wf_with w S /\ compat up S'
  | Vars vars :: up, s :: S' => (exists n, s = SVars n) /\ Forall (fun v => v.2 < shape_size s) vars /\ compat up S'
  | _, _ => False
  end.

Lemma StaticEnv_find_elem name vars d : StaticEnv_find name vars = Some d -> (name, d) ∈ vars.
Proof.
  unfold StaticEnv_find. destruct (filter _ vars) as [|[s d'] l] eqn:Hf; [done|]. simpl.
  destruct (bool_decide_reflect (s = name)) as [->|]; [|done]. intros [= <-].
  assert (H : (name, d') ∈ filter (fun v => ~ (v.1 < name)%Z) vars) by (rewrite Hf; left).
  by apply list_elem_of_filter in H as [_ ?].
Qed.

Lemma bind_search_lexical name env S level wl l d :
  compat env S -> bind_search name env level wl = inl (l, d) ->
  exists i s, l = level + i /\ S !! i = Some s /\ d < shape_size s.
Proof.
  revert S level wl. induction env as [|[w|vars] env IH]; intros [|s S] level wl Hc H; simpl in *; try done.
  - destruct Hc as (_ & _ & Hc). destruct (IH _ _ _ Hc H) as (i & s' & -> & ? & ?).
    exists (Datatypes.S i), s'. split; [lia|done].
  - destruct Hc as (_ & Hv & Hc). destruct (StaticEnv_find name vars) as [d'|] eqn:Hf.
    + injection H as <- <-. apply StaticEnv_find_elem in Hf. rewrite Forall_forall in Hv.
      exists 0, s. split; [lia|]. split; [done|]. by apply Hv in Hf.
    + destruct (IH _ _ _ Hc H) as (i & s' & -> & ? & ?). exists (Datatypes.S i), s'. split; [lia|done].
Qed.

(** The position of the innermost [with]. *)
Fixpoint with_index (env : StaticEnv) : option nat :=
  match env with
  | [] => None
  | IsWith _ :: _ => Some 0
  | Vars _ :: up => Datatypes.S <$> with_index up
  end.

Lemma bind_search_with name env level wl r :
  bind_search name env level wl = inr r ->
  r = match wl with Some l => Some l | None => (fun i => level + i) <$> with_index env end.
Proof.
  revert level wl. induction env as [|[w|vars] env IH]; intros level wl H; simpl in *.
  - injection H as <-. by destruct wl.
  - apply IH in H as ->. destruct wl; simpl; [done|]. f_equal. lia.
  - destruct (StaticEnv_find name vars); [done|]. apply IH in H as ->. destruct wl; [done|].
    destruct (with_index env); simpl; [|done]. f_equal. lia.
Qed.

Lemma with_index_innermost env : is_Some (with_index env) <-> is_Some (innermost_with env).
Proof.
  induction env as [|[w|vars] env IH]; simpl; [done|by split; eauto|].
  rewrite fmap_is_Some. done.
Qed.

Lemma innermost_with_wf env S w i :
  compat env S -> innermost_with env = Some w -> with_index env = Some i -> wf_with w (drop i S).
Proof.
  revert S i. induction env as [|[w'|vars] env IH]; intros [|s S] i Hc Hw Hi; simpl in *; try done.
  - simplify_eq. tauto.
  - destruct Hc as (_ & _ & Hc). apply fmap_Some in Hi as (j & Hj & ->). simpl. by apply (IH S j).
Qed.

Lemma bind_var_wf name env S ref : compat env S -> bind_var name env = Ok ref -> wf_ref S ref.
Proof.
  unfold bind_var. intros Hc. destruct (bind_search name env 0 None) as [[l d]|r] eqn:Hs.
  - intros [= <-]. destruct (bind_search_lexical _ _ _ _ _ _ _ Hc Hs) as (i & s & -> & ? & ?). by exists s.
  - apply bind_search_with in Hs. subst r. destruct (with_index env) as [i|] eqn:Hi; simpl; [|done].
    assert (is_Some (innermost_with env)) as [w Hw] by (apply with_index_innermost; eauto).
    rewrite Hw. intros [= <-]. simpl. by eapply innermost_with_wf.
Qed.

Lemma with_level_index env level :
  with_level env level = match with_index env with Some i => level + i | None => 0 end.
Proof.
  revert level. induction env as [|[w|vars] env IH]; intros level; simpl; [done|lia|].
  rewrite IH. destruct (with_index env); simpl; lia.
Qed.

Lemma bind_with_wf env S : compat env S -> wf_with (bind_with env) (SWith :: S).
Proof.
  intros Hc. unfold bind_with. simpl. split; [done|].
  destruct (innermost_with env) as [w|] eqn:Hw; [|done].
  assert (is_Some (with_index env)) as [i Hi] by (apply with_index_innermost; eauto).
  rewrite with_level_index, Hi. simpl. by eapply innermost_with_wf.
Qed.

Lemma attrs_vars_bound {E} n (l : list (Symbol * AttrDef E)) :
  Forall (fun v => v.2 < n + length l) (attrs_vars (number_attrs n l)).
Proof.
  revert n. induction l as [|[s d] l IH]; intros n; simpl; constructor; simpl; [lia|].
  eapply Forall_impl; [apply (IH (S n))|]. simpl. intros. lia.
Qed.

Lemma sort_insert_perm {A} (x : Symbol * A) l : sort_insert x l ≡ₚ x :: l.
Proof.
  induction l as [|y l IH]; simpl; [done|]. destruct (_ <=? _)%Z; [|done]. rewrite IH. by constructor.
Qed.
Lemma stable_sort_perm {A} (l : list (Symbol * A)) : stable_sort l ≡ₚ l.
Proof.
  unfold stable_sort. rewrite <- (app_nil_l l) at 2. generalize (@nil (Symbol * A)).
  induction l as [|x l IH]; intros acc; simpl; [by rewrite app_nil_r|].
  rewrite IH, sort_insert_perm. apply Permutation_middle.
Qed.

Lemma lambda_vars_bound {E} arg (formals : option (Formals E)) :
  Forall (fun v => v.2 < arg_size arg formals) (lambda_vars arg formals).
Proof.
  unfold lambda_vars.
  set (names := option_list arg ++ _). set (vars := zip names _).
  assert (Hv : Forall (fun v : Symbol * nat => v.2 < arg_size arg formals) vars).
  { replace (arg_size arg formals) with (length names).
    - apply Forall_forall. intros [s d] H. subst vars. apply elem_of_zip_r in H. simpl.
      apply elem_of_seq in H. lia.
    - subst names. unfold arg_size. rewrite length_app. destruct formals; [by rewrite length_fmap|done]. }
  destruct formals; [|done]. unfold StaticEnv_sort. by rewrite stable_sort_perm.
Qed.

Lemma bind_from_all (f : Expr -> result Expr) P from from' :
  all_from (establishes f P) from ->
  match from with Some l => let* l := bind_list f l in Ok (Some l) | None => Ok None end = Ok from' ->
  all_from P from' /\ from_size from' = from_size from /\ (is_Some from -> is_Some from').
Proof.
  destruct from as [l|]; intros Hl H; inv_result; [|done].
  edestruct (bind_list_all f P) as [? ?]; [done..|]. simpl. eauto.
Qed.

Section bindVars_wf.
Context (src : bool) (N : nat).

Definition binds (e : Expr) : Prop :=
  forall env S, compat env S -> parsed src N e -> establishes (bindVars env) (wf src N S) e.

Lemma inherits_from_binds n env S e : inherits_from src n e ->
  establishes (bindVars (Vars [] :: env)) (wf src N (SVars n :: S)) e.
Proof. intros (d & name & -> & Hd) e' H. simpl in H. inv_result. simpl. split; [intros Hsrc; specialize (Hd Hsrc); eauto|done]. Qed.

(** The attributes and sources of a set or a [let]. *)
Lemma bind_defs_wf newEnv env S' S from attrs from' attrs' :
  compat newEnv S' -> compat env S ->
  all_attrs (fun _ => binds) attrs -> all_from binds from ->
  all_attrs (fun k e => match k with InheritedFrom => inherits_from src (from_size from) e | _ => parsed src N e end) attrs ->
  all_from (parsed src N) from ->
  match from with Some l => let* l := bind_list (bindVars newEnv) l in Ok (Some l) | None => Ok None end = Ok from' ->
  bind_attrs (fun k => bindVars (chooseByKind k newEnv env (Vars [] :: newEnv))) attrs = Ok attrs' ->
  all_attrs (fun k e => wf src N (chooseByKind k S' S (SVars (from_size from') :: S')) e) attrs' /\
  all_from (wf src N S') from' /\ name_kinds attrs' = name_kinds attrs /\ (is_Some from -> is_Some from').
Proof.
  intros Hc' Hc IHa IHf Hp Hpf Hf Ha.
  edestruct (bind_from_all (bindVars newEnv) (wf src N S')) as (Hf1 & Hf2 & Hf3); [|done|].
  { eapply all_from_mp; [exact IHf|exact Hpf|]. intros e He Hpe. by apply He. }
  edestruct (bind_attrs_all (fun k => bindVars (chooseByKind k newEnv env (Vars [] :: newEnv)))
    (fun k => wf src N (chooseByKind k S' S (SVars (from_size from') :: S')))) as [Ha1 Ha2]; [|done|by split_and!].
  eapply all_attrs_mp; [exact IHa|exact Hp|]. intros k e He Hpe.
  destruct k; simpl; [by apply He|by apply He|]. rewrite Hf2. by apply inherits_from_binds.
Qed.

Lemma compat_rec env S {E} (attrs : list (Symbol * AttrDef E)) : compat env S ->
  compat (Vars (attrs_vars (number_attrs 0 attrs)) :: env) (SVars (length attrs) :: S).
Proof. intros Hc. simpl. split; [eauto|]. split; [apply (attrs_vars_bound 0)|done]. Qed.

Lemma compat_lambda env S {E} arg (formals : option (Formals E)) : compat env S ->
  compat (Vars (lambda_vars arg formals) :: env) (SVars (arg_size arg formals) :: S).
Proof. intros Hc. simpl. split; [eauto|]. split; [apply lambda_vars_bound|done]. Qed.

Lemma name_kinds_same_length {E} (l l' : list (Symbol * AttrDef E)) :
  name_kinds l' = name_kinds l -> length l' = length l.
Proof. intros H. by rewrite <- (name_kinds_length l'), H, name_kinds_length. Qed.

Lemma binds_attrs r attrs from dyn :
  all_attrs (fun _ => binds) attrs -> all_from binds from -> all_dynamic binds dyn ->
  binds (ExprAttrs (mkAttrs r attrs from dyn)).
Proof.
  intros IHa IHf IHd env S Hc (Hok & Hp & Hpf & Hpd) e' H. cbn [bindVars] in H. inv_result.
  set (newEnv := if r then Vars (attrs_vars (number_attrs 0 attrs)) :: env else env) in *. set (S' := if r then SVars (length attrs) :: S else S).
  assert (Hc' : compat newEnv S') by (subst newEnv S'; destruct r; [by apply compat_rec|done]).
  edestruct (bind_defs_wf newEnv env S' S) as (Ha & Hf & Hk & Hs); [done..|].
  cbn [wf]. set (attrs' := if r then number_attrs 0 _ else _).
  assert (Hk' : name_kinds attrs' = name_kinds attrs)
    by (subst attrs'; destruct r; [by rewrite number_attrs_name_kinds|done]).
  rewrite (name_kinds_same_length _ _ Hk'). fold S'. split_and!.
  - by eapply attrs_ok_name_kinds.
  - intros ->. apply number_attrs_numbered.
  - subst attrs'. destruct r; [by apply number_attrs_all|done].
  - done.
  - eapply bind_dynamic_all; [|done].
    eapply all_dynamic_mp; [exact IHd|exact Hpd|]. intros e He Hpe. by apply He.
Qed.

Lemma binds_let r attrs from dyn body :
  all_attrs (fun _ => binds) attrs -> all_from binds from -> binds body ->
  binds (ExprLet (mkAttrs r attrs from dyn) body).
Proof.
  intros IHa IHf IHb env S Hc (Hok & Hp & Hpf & Hpb) e' H. cbn [bindVars] in H. inv_result.
  assert (Hc' := compat_rec _ _ attrs Hc).
  edestruct (bind_defs_wf (Vars (attrs_vars (number_attrs 0 attrs)) :: env) env (SVars (length attrs) :: S) S)
    as (Ha & Hf & Hk & Hs); [done..|].
  cbn [wf].
  assert (Hk' : name_kinds (number_attrs 0 x0) = name_kinds attrs) by (by rewrite number_attrs_name_kinds).
  rewrite (name_kinds_same_length _ _ Hk'). split_and!.
  - by eapply attrs_ok_name_kinds.
  - by apply number_attrs_all.
  - done.
  - by eapply IHb.
Qed.

Lemma binds_lambda arg fs ell body : all_formals binds fs -> binds body ->
  binds (ExprLambda arg (Some (mkFormals fs ell)) body).
Proof.
  intros IHf IHb env S Hc [[Hok Hp] Hb] e' H. cbn [bindVars] in H. inv_result.
  assert (Hc' := compat_lambda _ _ arg (Some (mkFormals fs ell)) Hc).
  set (S' := SVars _ :: S) in Hc'.
  edestruct (bind_formals_all (bindVars (Vars (lambda_vars arg (Some (mkFormals fs ell))) :: env)) (wf src N S'))
    as [Hf Hn]; [|done|].
  { eapply all_formals_mp; [exact IHf|exact Hp|]. intros e He Hpe. by apply He. }
  assert (Hl : length x1 = length fs) by (by rewrite <- (length_fmap fm_name x1), Hn, length_fmap).
  cbn [wf]. unfold arg_size. cbn [fs_formals]. rewrite Hl. fold (arg_size arg (Some (mkFormals fs ell))).
  split; [split; [by unfold formals_ok; rewrite Hn|done]|]. by eapply IHb.
Qed.

Lemma binds_list env S l l' : all_list binds l -> compat env S -> all_list (parsed src N) l ->
  bind_list (bindVars env) l = Ok l' -> all_list (wf src N S) l'.
Proof.
  intros IH Hc Hp H. eapply (bind_list_all (bindVars env)); [|done].
  eapply all_list_mp; [exact IH|exact Hp|]. intros e He Hpe. by apply He.
Qed.
Lemma binds_option env S l l' : all_option binds l -> compat env S -> all_option (parsed src N) l ->
  bind_option (bindVars env) l = Ok l' -> all_option (wf src N S) l'.
Proof.
  intros IH Hc Hp H. eapply (bind_option_all (bindVars env)); [|done].
  eapply all_option_mp; [exact IH|exact Hp|]. intros e He Hpe. by apply He.
Qed.
Lemma binds_path env S l l' : all_path binds l -> compat env S -> all_path (parsed src N) l ->
  bind_path (bindVars env) l = Ok l' -> all_path (wf src N S) l'.
Proof.
  intros IH Hc Hp H. eapply (bind_path_all (bindVars env)); [|done].
  eapply all_path_mp; [exact IH|exact Hp|]. intros e He Hpe. by apply He.
Qed.

Lemma bindVars_establishes e : binds e.
Proof.
  induction e using Expr_nested_ind;
    try by (apply binds_attrs || apply binds_let || apply binds_lambda).
  all: intros env S Hc Hp e' H'; cbn [bindVars] in H'; inv_result; simpl in Hp |- *; try done.
  all: destruct_and?; repeat split.
  all: try by (eapply binds_list || eapply binds_option || eapply binds_path).
  all: try match goal with
    | He : binds ?x, H : bindVars _ ?x = Ok _ |- wf _ _ _ _ => eapply He; [|done|exact H]
    end; try done.
  - by eapply bind_var_wf.
  - by apply (compat_lambda env S (E := Expr) arg None).
  - cbn [compat]. split; [done|]. split; [by apply bind_with_wf|done].
Qed.
End bindVars_wf.

(** ** [bindVars] fails only with an undefined variable *)

Section errors.
Context {E : Type} (f : E -> result E).

Definition undefined_only {A} (r : result A) : Prop := forall x, r = Err x -> x = Throw UndefinedVarError.

Lemma undefined_only_bind {A B} (r : result A) (k : A -> result B) :
  undefined_only r -> (forall a, undefined_only (k a)) -> undefined_only (rbind r k).
Proof. intros Hr Hk x. destruct r as [a|e]; simpl; [apply Hk|]. intros [= <-]. by apply Hr. Qed.
Lemma undefined_only_ok {A} (a : A) : undefined_only (Ok a).
Proof. done. Qed.

Definition fails_undefined (e : E) : Prop := undefined_only (f e).

Lemma bind_list_undefined l : all_list fails_undefined l -> undefined_only (bind_list f l).
Proof.
  induction l as [|e l IH]; simpl; [done|]. intros [He Hl].
  apply undefined_only_bind; [done|]. intros. apply undefined_only_bind; [by apply IH|done].
Qed.
Lemma bind_option_undefined o : all_option fails_undefined o -> undefined_only (bind_option f o).
Proof. destruct o; simpl; [|done]. intros He. by apply undefined_only_bind. Qed.
Lemma bind_path_undefined l : all_path fails_undefined l -> undefined_only (bind_path f l).
Proof.
  induction l as [|[s|e] l IH]; simpl; [done|intros Hl; apply undefined_only_bind; [by apply IH|done]|].
  intros [He Hl]. apply undefined_only_bind; [done|]. intros. apply undefined_only_bind; [by apply IH|done].
Qed.
Lemma bind_formals_undefined l : all_formals fails_undefined l -> undefined_only (bind_formals f l).
Proof.
  induction l as [|[s d] l IH]; simpl; [done|]. intros [He Hl].
  apply undefined_only_bind; [by apply bind_option_undefined|]. intros. apply undefined_only_bind; [by apply IH|done].
Qed.
Lemma bind_dynamic_undefined l : all_dynamic fails_undefined l -> undefined_only (bind_dynamic f l).
Proof.
  induction l as [|[s d] l IH]; simpl; [done|]. intros (Hs & Hd & Hl).
  apply undefined_only_bind; [done|]. intros. apply undefined_only_bind; [done|].
  intros. apply undefined_only_bind; [by apply IH|done].
Qed.
End errors.

Lemma bind_attrs_undefined {E} (f : Kind -> E -> result E) l :
  all_attrs (fun k => fails_undefined (f k)) l -> undefined_only (bind_attrs f l).
Proof.
  induction l as [|[s [k e d]] l IH]; simpl; [done|]. intros [He Hl].
  apply undefined_only_bind; [done|]. intros. apply undefined_only_bind; [by apply IH|done].
Qed.

Lemma bind_var_undefined name env : undefined_only (bind_var name env).
Proof. intros x. unfold bind_var. repeat case_match; intros [=]; subst; done. Qed.

Lemma bindVars_undefined e : forall env, undefined_only (bindVars env e).
Proof.
  induction e using Expr_nested_ind; intros env; cbn [bindVars]; try done.
  all: repeat match goal with
    | |- undefined_only (rbind _ _) => apply undefined_only_bind; [|intros ?]
    | |- undefined_only (bind_var _ _) => apply bind_var_undefined
    | |- undefined_only (bind_list _ _) => apply bind_list_undefined
    | |- undefined_only (bind_option _ _) => apply bind_option_undefined
    | |- undefined_only (bind_path _ _) => apply bind_path_undefined
    | |- undefined_only (bind_formals _ _) => apply bind_formals_undefined
    | |- undefined_only (bind_dynamic _ _) => apply bind_dynamic_undefined
    | |- undefined_only (bind_attrs _ _) => apply bind_attrs_undefined
    | |- undefined_only (match ?o with _ => _ end) => destruct o as [l|]
    end; try done; try (by eauto).
  all: match goal with
    | H : all_path _ ?l |- all_path _ ?l => eapply all_path_mp; [exact H|exact H|]
    | H : all_option _ ?l |- all_option _ ?l => eapply all_option_mp; [exact H|exact H|]
    | H : all_list _ ?l |- all_list _ ?l => eapply all_list_mp; [exact H|exact H|]
    | H : all_from _ (Some ?l) |- all_list _ ?l => eapply all_list_mp; [exact H|exact H|]
    | H : all_formals _ ?l |- all_formals _ ?l => eapply all_formals_mp; [exact H|exact H|]
    | H : all_dynamic _ ?l |- all_dynamic _ ?l => eapply all_dynamic_mp; [exact H|exact H|]
    | H : all_attrs _ ?l |- all_attrs _ ?l => eapply all_attrs_mp; [exact H|exact H|]
    end; unfold fails_undefined; eauto.
Qed.

(** ** The variable that is found *)

Lemma lower_bound_sorted {A} (name : Z) (l : list (Z * A)) :
  StronglySorted Z.le l.*1 -> NoDup l.*1 ->
  forall a, match filter (fun v => ~ (v.1 < name)%Z) l with
       | v :: _ => if bool_decide (v.1 = name) then Some v.2 else None
       | [] => None
       end = Some a <-> (name, a) ∈ l.
Proof.
  induction l as [|[s b] l IH]; intros Hs Hd a; [simpl; split; [done|by intros ?%not_elem_of_nil]|].
  simpl in Hs, Hd. apply StronglySorted_inv in Hs as [Hs Hle]. apply NoDup_cons in Hd as [Hn Hd].
  rewrite filter_cons. simpl. destruct (decide (s < name)%Z) as [Hlt|Hge].
  - rewrite decide_False by tauto. rewrite IH by done. rewrite elem_of_cons.
    split; [tauto|]. intros [[= -> _]|?]; [lia|done].
  - rewrite decide_True by done. simpl. rewrite elem_of_cons. case_bool_decide as He.
    + subst s. split; [intros [= ->]; by left|].
      intros [[= ->]|Hin]; [done|]. destruct Hn. apply list_elem_of_fmap. by exists (name, a).
    + split; [done|]. intros [[= -> _]|Hin]; [done|].
      rewrite Forall_forall in Hle. assert (s <= name)%Z; [|lia]. apply Hle.
      apply list_elem_of_fmap. by exists (name, a).
Qed.

Lemma sorted_names_NoDup l : sorted_names l -> NoDup l.
Proof.
  intros H. induction H as [|x l H IH Hf]; constructor; [|done].
  intros Hin. rewrite Forall_forall in Hf. apply Hf in Hin. lia.
Qed.
Lemma sorted_names_le l : sorted_names l -> StronglySorted Z.le l.
Proof.
  intros H. induction H as [|x l H IH Hf]; constructor; [done|].
  eapply Forall_impl; [exact Hf|]. simpl. lia.
Qed.

Lemma attrs_vars_zip {E} n (l : list (Symbol * AttrDef E)) :
  attrs_vars (number_attrs n l) = zip l.*1 (seq n (length l)).
Proof. revert n. induction l as [|[s d] l IH]; intros n; [done|]. simpl. f_equal. apply IH. Qed.

Lemma elem_of_zip_seq {A} (l : list A) n x d : (x, d) ∈ zip l (seq n (length l)) <-> n <= d /\ l !! (d - n) = Some x.
Proof.
  revert n. induction l as [|y l IH]; intros n; simpl.
  - split; [by intros ?%not_elem_of_nil|by intros [_ ?]].
  - rewrite elem_of_cons, IH. split.
    + intros [[= -> ->]|[? ?]]; [by rewrite Nat.sub_diag|]. split; [lia|].
      by replace (d - n) with (S (d - S n)) by lia.
    + intros [Hle Hl]. destruct (decide (d = n)) as [->|].
      * left. rewrite Nat.sub_diag in Hl. simpl in Hl. congruence.
      * right. split; [lia|]. by replace (d - n) with (S (d - S n)) in Hl by lia.
Qed.

Lemma zip_fst {A} (l : list A) n : (zip l (seq n (length l))).*1 = l.
Proof. apply fst_zip. by rewrite length_seq. Qed.

Lemma sort_insert_sorted {A} (x : Symbol * A) l : StronglySorted Z.le l.*1 -> StronglySorted Z.le (sort_insert x l).*1.
Proof.
  induction l as [|y l IH]; intros Hs; simpl; [by repeat constructor|].
  simpl in Hs. apply StronglySorted_inv in Hs as [Hs Hf]. destruct (Z.leb_spec y.1 x.1); simpl.
  - constructor; [by apply IH|]. rewrite sort_insert_perm. simpl. by constructor.
  - constructor; [by constructor|]. constructor; [lia|]. eapply Forall_impl; [exact Hf|]. simpl. lia.
Qed.
Lemma stable_sort_sorted {A} (l : list (Symbol * A)) : StronglySorted Z.le (stable_sort l).*1.
Proof.
  unfold stable_sort. assert (H : StronglySorted Z.le (@nil (Symbol * A)).*1) by constructor.
  revert H. generalize (@nil (Symbol * A)). induction l as [|x l IH]; intros acc H; simpl; [done|].
  by apply IH, sort_insert_sorted.
Qed.

(** Sorting distinct names. *)
Lemma sorted_names_intro l : StronglySorted Z.le l -> NoDup l -> sorted_names l.
Proof.
  intros H. induction H as [|x l H IH Hf]; intros Hd; constructor.
  - apply IH. by inversion Hd.
  - apply NoDup_cons in Hd as [Hn _]. rewrite Forall_forall in Hf |- *. intros y Hy.
    assert (x <> y) by (by intros ->). specialize (Hf y Hy). lia.
Qed.
Lemma stable_sort_names {A} (l : list (Symbol * A)) : NoDup l.*1 -> sorted_names (stable_sort l).*1.
Proof.
  intros Hd. apply sorted_names_intro; [apply stable_sort_sorted|]. by rewrite stable_sort_perm.
Qed.

Lemma attrs_find {E} (attrs : list (Symbol * AttrDef E)) name d : sorted_names attrs.*1 ->
  StaticEnv_find name (attrs_vars (number_attrs 0 attrs)) = Some d <-> attrs.*1 !! d = Some name.
Proof.
  intros Hs. rewrite attrs_vars_zip, <- (length_fmap fst).
  assert (Hz := zip_fst attrs.*1 0). unfold StaticEnv_find. rewrite lower_bound_sorted.
  - rewrite elem_of_zip_seq, Nat.sub_0_r. split; [by intros [_ ?]|split; [lia|done]].
  - rewrite Hz. by apply sorted_names_le.
  - rewrite Hz. by apply sorted_names_NoDup.
Qed.

(** The names of the slots of a function's environment. *)
Definition lambda_names {E} (arg : option Symbol) (formals : option (Formals E)) : list Symbol :=
  option_list arg ++ match formals with Some fs => fm_name <$> fs_formals fs | None => [] end.

Lemma lambda_find {E} arg (formals : option (Formals E)) name d : NoDup (lambda_names arg formals) ->
  StaticEnv_find name (lambda_vars arg formals) = Some d <-> lambda_names arg formals !! d = Some name.
Proof.
  intros Hd. unfold lambda_vars. fold (lambda_names arg formals). set (names := lambda_names arg formals) in *.
  assert (Hz := zip_fst names 0). unfold StaticEnv_find. rewrite lower_bound_sorted.
  - transitivity ((name, d) ∈ zip names (seq 0 (length names))).
    { unfold StaticEnv_sort. destruct formals; [by rewrite stable_sort_perm|done]. }
    rewrite elem_of_zip_seq, Nat.sub_0_r. split; [by intros [_ ?]|split; [lia|done]].
  - destruct formals; [apply stable_sort_sorted|]. rewrite Hz. subst names. unfold lambda_names.
    rewrite app_nil_r. destruct arg; repeat constructor.
  - unfold StaticEnv_sort. destruct formals; [by rewrite stable_sort_perm, Hz|by rewrite Hz].
Qed.

Definition frame_find (name : Symbol) (fr : Frame) : option Displacement :=
  match fr with Vars vars => StaticEnv_find name vars | IsWith _ => None end.

(** The levels of the enclosing [with]s, from the inside out. *)
Fixpoint with_levels (env : StaticEnv) (level : nat) : list nat :=
  match env with
  | [] => []
  | IsWith _ :: up => level :: with_levels up (S level)
  | Vars _ :: up => with_levels up (S level)
  end.

(** The levels at which the loop of [lookupVar] looks. *)
Fixpoint visited (w : WithInfo) (level : nat) : list nat :=
  match w with
  | mkWithInfo prev parent =>
      level :: match parent with Some w => visited w (level + prev) | None => [] end
  end.

(** The [with]s of a static environment were annotated by [bindVars]. *)
Fixpoint linked (env : StaticEnv) : Prop :=
  match env with
  | [] => True
  | IsWith w :: up => w = bind_with up /\ linked up
  | Vars _ :: up => linked up
  end.

Lemma with_levels_none env n : innermost_with env = None -> with_levels env n = [].
Proof. revert n. induction env as [|[w|vars] env IH]; intros n H; simpl in *; [done|done|by apply IH]. Qed.

Lemma visited_levels env n w i :
  linked env -> innermost_with env = Some w -> with_index env = Some i -> visited w (n + i) = with_levels env n.
Proof.
  revert n w i. induction env as [|[w'|vars] env IH]; intros n w i Hl Hw Hi; simpl in *; [done| |].
  - destruct Hl as [-> Hl]. simplify_eq. unfold bind_with. cbn [visited]. rewrite Nat.add_0_r. f_equal.
    destruct (innermost_with env) as [w|] eqn:Hw; [|by rewrite with_levels_none].
    assert (is_Some (with_index env)) as [i Hi] by (apply with_index_innermost; eauto).
    rewrite with_level_index, Hi, <- (IH (S n) w i) by done. f_equal. lia.
  - apply fmap_Some in Hi as (j & Hj & ->). rewrite <- (IH (S n) w j) by done. f_equal. lia.
Qed.

Lemma bind_search_first name env level wl :
  match bind_search name env level wl with
  | inl (l, d) =>
      exists i fr, l = level + i /\ env !! i = Some fr /\ frame_find name fr = Some d /\
              Forall (fun fr => frame_find name fr = None) (take i env)
  | inr _ => Forall (fun fr => frame_find name fr = None) env
  end.
Proof.
  revert level wl. induction env as [|[w|vars] env IH]; intros level wl; simpl; [done| |].
  - specialize (IH (S level) (match wl with None => Some level | Some l => Some l end)).
    destruct (bind_search _ _ _ _) as [[l d]|r]; [|by constructor].
    destruct IH as (i & fr & -> & ? & ? & ?). exists (S i), fr. split_and!; [lia|done..|]. simpl. by constructor.
  - destruct (StaticEnv_find name vars) as [d|] eqn:Hf.
    { exists 0, (Vars vars). split_and!; [lia|done..|constructor]. }
    specialize (IH (S level) wl). destruct (bind_search _ _ _ _) as [[l d]|r]; [|by constructor].
    destruct IH as (i & fr & -> & ? & ? & ?). exists (S i), fr. split_and!; [lia|done..|]. simpl. by constructor.
Qed.

(** ** Claims *)

(** C19: [bindVars] resolves a variable by the scoping rules. It denotes the
    innermost binding by a function, a [let] or a recursive set, before any
    [with]; if there is none, the loop of [lookupVar] looks into all enclosing
    [with]s, each once and from the inside out; if there is no [with] either,
    the variable is undefined. *)
Theorem bind_var_scoping (name : Symbol) (env : StaticEnv) :
  linked env ->
  match bind_var name env with
  | Ok (Lexical level displ) =>
      (exists fr, env !! level = Some fr /\ frame_find name fr = Some displ) /\
      Forall (fun fr => frame_find name fr = None) (take level env)
  | Ok (FromWith w level) =>
      Forall (fun fr => frame_find name fr = None) env /\
      visited w level = with_levels env 0
  | Ok Unresolved => False
  | Err f =>
      f = Throw UndefinedVarError /\
      Forall (fun fr => frame_find name fr = None) env /\ with_levels env 0 = []
  end.
Proof.
  intros Hl. unfold bind_var. assert (H := bind_search_first name env 0 None).
  destruct (bind_search name env 0 None) as [[l d]|r] eqn:Hs.
  - destruct H as (i & fr & -> & ? & ? & ?). eauto.
  - apply bind_search_with in Hs. subst r. destruct (with_index env) as [i|] eqn:Hi; simpl.
    + assert (is_Some (innermost_with env)) as [w Hw] by (apply with_index_innermost; eauto).
      rewrite Hw. split; [done|]. by rewrite <- (visited_levels env 0 w i).
    + split_and!; [done..|]. apply with_levels_none. apply eq_None_not_Some.
      rewrite <- with_index_innermost, Hi. by intros [].
Qed.

(** A function in a [with] in a [let] in a [with]. *)
Definition example_env : StaticEnv :=
  let base := [Vars [(1%Z, 0); (2%Z, 1)]] in
  let env1 := IsWith (bind_with base) :: base in
  let env2 := Vars [(3%Z, 0)] :: env1 in
  Vars [(4%Z, 0)] :: IsWith (bind_with env2) :: env2.

Lemma bind_var_scoping_witness :
  linked example_env /\
  bind_var 2 example_env = Ok (Lexical 4 1) /\
  bind_var 9 example_env = Ok (FromWith (mkWithInfo 2 (Some (mkWithInfo 0 None))) 1) /\
  visited (mkWithInfo 2 (Some (mkWithInfo 0 None))) 1 = with_levels example_env 0.
Proof.
  assert (Hl : linked example_env) by (vm_compute; tauto).
  split_and!; [done|reflexivity..|]. exact (proj2 (bind_var_scoping 9 example_env Hl)).
Defined.

(** The binding that is found in the environment of a recursive set, of a
    [let] or of a function is the one with that name: slot [displ] of the
    environment is the one of the [displ]-th attribute, or of the argument
    and then the formals in order. *)
Theorem frame_slots {E} (attrs : list (Symbol * AttrDef E)) (arg : option Symbol) (formals : option (Formals E)) :
  sorted_names attrs.*1 -> NoDup (lambda_names arg formals) ->
  forall name displ,
    (frame_find name (Vars (attrs_vars (number_attrs 0 attrs))) = Some displ <-> attrs.*1 !! displ = Some name) /\
    (frame_find name (Vars (lambda_vars arg formals)) = Some displ <-> lambda_names arg formals !! displ = Some name).
Proof. intros Hs Hd name displ. split; [by apply attrs_find|by apply lambda_find]. Qed.

Lemma frame_slots_witness :
  frame_find 5 (Vars (lambda_vars (Some 7%Z)
    (Some (mkFormals [mkFormal 5%Z None; mkFormal 6%Z (Some (ExprInt 0))] true)))) = Some 1.
Proof.
  refine (proj2 (proj2 (frame_slots (E := Expr) [] (Some 7%Z) (Some (mkFormals [mkFormal 5%Z None;
    mkFormal 6%Z (Some (ExprInt 0))] true)) _ _ 5%Z 1)) _).
  - constructor.
  - apply (bool_decide_unpack _). vm_compute. exact I.
  - reflexivity.
Defined.

(** C20: [bindVars] gives every variable of a parsed expression a place in the
    environments that the evaluator builds: the level exists and the
    displacement is a slot of that environment, or the level is one of a
    [with] and the links lead from [with] to [with]; and it keeps the order of
    attributes and formals and numbers the attributes of recursive sets. With
    [src = false] this is for everything the parser makes, and nothing is said
    about which source an attribute of [inherit (e)] refers to: the parser
    chooses it, [bindVars] does not. With [src = true], for expressions in which
    those attributes refer to sources of their own set (which merging two sets
    in the parser may break, parser-state.hh:185), they do so afterwards. *)
Theorem bindVars_wf (src : bool) (N : nat) (env : StaticEnv) (S : list Shape) (e e' : Expr) :
  compat env S -> parsed src N e -> bindVars env e = Ok e' -> wf src N S e'.
Proof. intros Hc Hp. by apply (bindVars_establishes src N e env S). Qed.

(** [x: with x; rec { a = b; b = c; inherit (a) d; }] *)
Definition example_expr : Expr :=
  ExprLambda (Some 1%Z) None (ExprWith (ExprVar 1%Z Unresolved)
    (ExprAttrs (mkAttrs true
       [(2%Z, mkAttrDef Plain (ExprVar 3%Z Unresolved) 0); (3%Z, mkAttrDef Plain (ExprVar 4%Z Unresolved) 0);
        (5%Z, mkAttrDef InheritedFrom (ExprSelect (ExprInheritFrom 0) [NameSymbol 5%Z] None) 0)]
       (Some [ExprVar 2%Z Unresolved]) []))).

(** The same with [inherit (a) d] referring to a source that is not there. *)
Definition example_merged : Expr :=
  ExprAttrs (mkAttrs true
    [(2%Z, mkAttrDef Plain (ExprVar 3%Z Unresolved) 0); (3%Z, mkAttrDef Plain (ExprInt 1) 0);
     (5%Z, mkAttrDef InheritedFrom (ExprSelect (ExprInheritFrom 7) [NameSymbol 5%Z] None) 0)]
    (Some [ExprVar 2%Z Unresolved]) []).

Lemma bindVars_wf_witness :
  (exists e', bindVars [] example_expr = Ok e' /\ wf true 5 [] e') /\
  (exists e', bindVars [] example_merged = Ok e' /\ wf false 5 [] e').
Proof.
  split.
  - eexists. split; [reflexivity|]. apply (bindVars_wf true 5 [] [] example_expr); [exact I| |reflexivity].
    simpl. split; [by eexists|]. split; [done|]. split.
    + split; [repeat constructor|]. split; [|by repeat constructor].
      repeat constructor; done.
    + split_and!; try done. exists 0, 5%Z. split; [done|lia].
  - eexists. split; [reflexivity|]. apply (bindVars_wf false 5 [] [] example_merged); [exact I| |reflexivity].
    simpl. split.
    + split; [repeat constructor|]. split; [|by repeat constructor].
      repeat constructor; done.
    + split_and!; try done. by exists 7, 5%Z.
Defined.
