(* ===== verification/Values.v ===== *)
(** * Values and the state of the evaluator (libexpr/value.hh, eval.hh,
    attr-set.*, symbol-table.hh, libutil/checked-arithmetic.hh)

    A [Value *] and an [Env *] are addresses. A value that the C++ code writes
    through a reference to a result is returned; a temporary whose address
    matters gets an address of its own. An operation is a function from states
    to a result and a state: the effects of an evaluation that fails stay,
    because [builtins.tryEval] goes on after it. Strings end at a NUL byte, as
    C strings do; a string context is the set of its encoded elements.
    Positions, traces and external values are left out; all paths belong to one
    source accessor. *)

From Stdlib Require Import SpecFloat.
From stdpp Require Import gmap.
From S2P Require Import Prelude.
From S2P Require Import Containers.
From S2P Require Import StorePath.
From S2P Require Import Expr.

(** ** Numbers *)

(** [NixInt]: 64 bits, checked. *)
Definition i64_fits (n : Z) : bool := (- 2 ^ 63 <=? n)%Z && (n <? 2 ^ 63)%Z.
Definition checked (n : Z) : option Z := if i64_fits n then Some n else None.
Definition checked_add (a b : Z) : option Z := checked (a + b).
Definition checked_sub (a b : Z) : option Z := checked (a - b).
Definition checked_mul (a b : Z) : option Z := checked (a * b).
Definition checked_div (a b : Z) : option Z := if (b =? 0)%Z then None else checked (Z.quot a b).

(** [NixFloat]: IEEE double precision, rounding to nearest even. *)
Definition f64_add : spec_float -> spec_float -> spec_float := SFadd 53 1024.
Definition f64_sub : spec_float -> spec_float -> spec_float := SFsub 53 1024.
Definition f64_mul : spec_float -> spec_float -> spec_float := SFmul 53 1024.
Definition f64_div : spec_float -> spec_float -> spec_float := SFdiv 53 1024.
Definition f64_of_int (n : Z) : spec_float := binary_normalize 53 1024 n 0 false.

(** Decimal digits of [n >= 0]. *)
Fixpoint digits_loop (fuel : nat) (n : Z) (acc : bytes) : bytes :=
  match fuel with
  | 0 => acc
  | S fuel =>
      let acc := chr (48 + n mod 10) :: acc in
      if (n <? 10)%Z then acc else digits_loop fuel (n / 10) acc
  end.
Definition digits (n : Z) : bytes := digits_loop (S (Z.to_nat (Z.log2 n))) n [].

(** [std::to_string] of an integer and of a double ([%f]). *)
Definition int_to_string (n : Z) : bytes := if (n <? 0)%Z then L "-" ++ digits (- n) else digits n.

(** [m * 10^6 / 2^k], to the nearest, ties to even. *)
Definition micros (m k : Z) : Z :=
  let q := (m * 10 ^ 6 / 2 ^ k)%Z in
  let r := (m * 10 ^ 6 - q * 2 ^ k)%Z in
  match (2 * r ?= 2 ^ k)%Z with
  | Lt => q
  | Gt => q + 1
  | Eq => if Z.even q then q else q + 1
  end%Z.
Definition pad6 (s : bytes) : bytes := repeat "0"%char (6 - length s) ++ s.
Definition float_to_string (f : spec_float) : bytes :=
  match f with
  | S754_zero s => (if s then L "-" else []) ++ L "0.000000"
  | S754_infinity s => if s then L "-inf" else L "inf"
  | S754_nan => L "nan"
  | S754_finite s m e =>
      let q := if (0 <=? e)%Z then (Zpos m * 2 ^ e * 10 ^ 6)%Z else micros (Zpos m) (- e) in
      (if s then L "-" else []) ++ digits (q / 10 ^ 6) ++ L "." ++ pad6 (digits (q mod 10 ^ 6))
  end.

(** ** Values *)

Abbreviation addr := N.

(** The primitive operations that are modelled. *)
Inductive builtin :=
| P_typeOf | P_isNull | P_isFunction | P_isInt | P_isFloat | P_isString | P_isBool | P_isPath
| P_isAttrs | P_isList | P_abort | P_throw | P_tryEval | P_seq | P_deepSeq
| P_attrNames | P_attrValues | P_getAttr | P_hasAttr | P_removeAttrs | P_listToAttrs
| P_intersectAttrs | P_catAttrs | P_functionArgs | P_mapAttrs
| P_elemAt | P_head | P_tail | P_map | P_filter | P_elem | P_concatLists | P_length
| P_foldlStrict | P_any | P_all | P_genList
| P_add | P_sub | P_mul | P_div | P_bitAnd | P_bitOr | P_bitXor | P_lessThan
| P_toString | P_substring | P_stringLength
| P_sort | P_partition | P_groupBy | P_concatMap | P_genericClosure
| P_concatStringsSep | P_replaceStrings | P_parseDrvName | P_splitVersion | P_baseNameOf | P_dirOf
| P_ceil | P_floor.

Definition arity (p : builtin) : nat :=
  match p with
  | P_getAttr | P_hasAttr | P_removeAttrs | P_intersectAttrs | P_catAttrs | P_mapAttrs
  | P_seq | P_deepSeq | P_elemAt | P_map | P_filter | P_elem | P_any | P_all | P_genList
  | P_add | P_sub | P_mul | P_div | P_bitAnd | P_bitOr | P_bitXor | P_lessThan
  | P_sort | P_partition | P_groupBy | P_concatMap | P_concatStringsSep => 2
  | P_foldlStrict | P_substring | P_replaceStrings => 3
  | _ => 1
  end.

Record Lambda := mkLambda { lam_arg : option Symbol; lam_formals : option (Formals Expr); lam_body : Expr }.

Abbreviation Bindings := (list (Symbol * addr)).

Inductive Value :=
| VInt (n : Z)
| VFloat (f : spec_float)
| VBool (b : bool)
| VString (s : bytes) (context : list bytes)
| VPath (s : bytes)
| VNull
| VAttrs (attrs : Bindings)
| VList (elems : list addr)
| VThunk (env : addr) (expr : Expr)
| VBlackhole
| VApp (left right : addr)
| VLambda (env : addr) (fun_ : Lambda)
| VPrimOp (p : builtin)
| VPrimOpApp (left right : addr).

Inductive ValueType := nThunk | nInt | nFloat | nBool | nString | nPath | nNull | nAttrs | nList | nFunction.
#[export] Instance ValueType_eq_dec : EqDecision ValueType.
Proof. solve_decision. Defined.

(** [Value::type()]. *)
Definition type (v : Value) : ValueType :=
  match v with
  | VInt _ => nInt
  | VFloat _ => nFloat
  | VBool _ => nBool
  | VString _ _ => nString
  | VPath _ => nPath
  | VNull => nNull
  | VAttrs _ => nAttrs
  | VList _ => nList
  | VThunk _ _ | VBlackhole | VApp _ _ => nThunk
  | VLambda _ _ | VPrimOp _ | VPrimOpApp _ _ => nFunction
  end.

(** A C string ends at the first NUL. *)
Fixpoint c_str (s : bytes) : bytes :=
  match s with
  | [] => []
  | c :: s => if char_eqb c NUL then [] else c :: c_str s
  end.
Definition mkString (s : bytes) (context : list bytes) : Value := VString (c_str s) context.

Record Env := mkEnv { env_up : option addr; env_values : list (option addr) }.

(** ** The state *)

Record EvalState := mkEvalState {
  es_values : gmap addr Value;
  es_nextValue : addr;
  es_envs : gmap addr Env;
  es_nextEnv : addr;
  es_symbols : list bytes;
  es_callDepth : nat;
  es_srcToStore : list (bytes * StorePath);
}.

Definition M (A : Type) : Type := EvalState -> result A * EvalState.

Definition ret {A} (a : A) : M A := fun st => (Ok a, st).
Definition fail {A} (f : failure) : M A := fun st => (Err f, st).
Definition error {A} (e : exn) : M A := fail (Throw e).
Definition ebind {A B} (m : M A) (k : A -> M B) : M B :=
  fun st => match m st with (Ok a, st) => k a st | (Err f, st) => (Err f, st) end.
Definition lift {A} (r : result A) : M A := fun st => (r, st).
Definition massert (b : bool) : M unit := if b then ret tt else fail AssertFailed.
(** [catch]: [h] gives what to do with a failure, [None] to pass it on. *)
Definition mcatch {A} (m : M A) (h : failure -> option (M A)) : M A :=
  fun st =>
    match m st with
    | (Ok a, st) => (Ok a, st)
    | (Err f, st) => match h f with Some m => m st | None => (Err f, st) end
    end.
(** [catch (...) { cleanup; throw; }]. *)
Definition on_failure {A} (m : M A) (cleanup : EvalState -> EvalState) : M A :=
  fun st => match m st with (Ok a, st) => (Ok a, st) | (Err f, st) => (Err f, cleanup st) end.

Notation "'let!' x ':=' m 'in' k" := (ebind m (fun x => k))
  (at level 10, x pattern, m at level 100, k at level 200) : nix_scope.

Fixpoint mmap {A B} (f : A -> M B) (l : list A) : M (list B) :=
  match l with
  | [] => ret []
  | x :: l => let! y := f x in let! l := mmap f l in ret (y :: l)
  end.

Definition set_values (m : gmap addr Value) (st : EvalState) : EvalState :=
  mkEvalState m (es_nextValue st) (es_envs st) (es_nextEnv st) (es_symbols st) (es_callDepth st) (es_srcToStore st).
Definition set_envs (m : gmap addr Env) (st : EvalState) : EvalState :=
  mkEvalState (es_values st) (es_nextValue st) m (es_nextEnv st) (es_symbols st) (es_callDepth st) (es_srcToStore st).
Definition set_callDepth (n : nat) (st : EvalState) : EvalState :=
  mkEvalState (es_values st) (es_nextValue st) (es_envs st) (es_nextEnv st) (es_symbols st) n (es_srcToStore st).

(** [*p] and [*p = v]. *)
Definition read (p : addr) : M Value :=
  fun st => (match es_values st !! p with Some v => Ok v | None => Err UndefinedBehaviour end, st).
Definition write (p : addr) (v : Value) : M unit :=
  fun st => (Ok tt, set_values (<[p := v]> (es_values st)) st).

(** [allocValue], initialised with [v]. *)
Definition allocValue (v : Value) : M addr :=
  fun st => (Ok (es_nextValue st),
    mkEvalState (<[es_nextValue st := v]> (es_values st)) (es_nextValue st + 1) (es_envs st) (es_nextEnv st)
      (es_symbols st) (es_callDepth st) (es_srcToStore st)).

(** [allocEnv]: the slots are null. *)
Definition allocEnv (size : nat) (up : addr) : M addr :=
  fun st => (Ok (es_nextEnv st),
    mkEvalState (es_values st) (es_nextValue st) (<[es_nextEnv st := mkEnv (Some up) (replicate size None)]> (es_envs st))
      (es_nextEnv st + 1) (es_symbols st) (es_callDepth st) (es_srcToStore st)).

Definition read_env (e : addr) : M Env :=
  fun st => (match es_envs st !! e with Some env => Ok env | None => Err UndefinedBehaviour end, st).
(** [env.values[displ]] *)
Definition env_slot (e : addr) (displ : Displacement) : M (option addr) :=
  let! env := read_env e in
  match env_values env !! displ with Some p => ret p | None => fail UndefinedBehaviour end.
(** [env.values[displ] = p] *)
Definition env_set (e : addr) (displ : Displacement) (p : addr) : M unit :=
  let! env := read_env e in
  if (displ <? length (env_values env)) then
    fun st => (Ok tt, set_envs (<[e := mkEnv (env_up env) (<[displ := Some p]> (env_values env))]> (es_envs st)) st)
  else fail UndefinedBehaviour.
Definition go_up (e : addr) : M addr :=
  let! env := read_env e in
  match env_up env with Some up => ret up | None => fail UndefinedBehaviour end.

(** ** Symbols *)

Fixpoint index_of (s : bytes) (l : list bytes) (i : Z) : option Z :=
  match l with
  | [] => None
  | t :: l => if bool_decide (s = t) then Some i else index_of s l (i + 1)%Z
  end.

(** [SymbolTable::create]. *)
Definition symbols_create (s : bytes) : M Symbol :=
  fun st =>
    match index_of s (es_symbols st) 1 with
    | Some i => (Ok i, st)
    | None =>
        (Ok (Z.of_nat (length (es_symbols st)) + 1)%Z,
         mkEvalState (es_values st) (es_nextValue st) (es_envs st) (es_nextEnv st) (es_symbols st ++ [s])
           (es_callDepth st) (es_srcToStore st))
    end.

(** [SymbolTable::operator[]]. *)
Definition symbols_get (s : Symbol) : M bytes :=
  fun st =>
    (if (s <=? 0)%Z then Err AssertFailed
     else match es_symbols st !! Z.to_nat (s - 1) with Some b => Ok b | None => Err AssertFailed end, st).

(** The symbols the constructor of [EvalState] creates. *)
Definition init_symbols : list bytes :=
  (L <$> ["<with>"; "outPath"; "drvPath"; "type"; "meta"; "name"; "value"; "system"; "__overrides"; "outputs";
         "outputName"; "__ignoreNulls"; "file"; "line"; "column"; "__functor"; "__toString"; "right"; "wrong";
         "__structuredAttrs"; "allowedReferences"; "allowedRequisites"; "disallowedReferences";
         "disallowedRequisites"; "maxSize"; "maxClosureSize"; "builder"; "args"; "__contentAddressed"; "__impure";
         "outputHash"; "outputHashAlgo"; "outputHashMode"; "recurseForDerivations"; "description"; "self"]%string)
  ++ [[]] ++
  (L <$> ["startSet"; "operator"; "key"; "path"; "prefix"; "outputSpecified"; "__sub"; "__lessThan"; "__mul";
         "__div"; "or"; "__findFile"; "__nixPath"; "body"]%string).
Definition sOutPath : Symbol := 2.
Definition sType : Symbol := 4.
Definition sName : Symbol := 6.
Definition sValue : Symbol := 7.
Definition sOverrides : Symbol := 9.
Definition sFunctor : Symbol := 16.
Definition sToString : Symbol := 17.
Definition sRight : Symbol := 18.
Definition sWrong : Symbol := 19.
Definition sStartSet : Symbol := 38.
Definition sOperator : Symbol := 39.
Definition sKey : Symbol := 40.

(** ** Attribute sets *)

(** [Bindings::find] and [Bindings::get]: [std::lower_bound]. *)
Definition attrs_get (name : Symbol) (b : Bindings) : option addr :=
  match filter (fun kv => ~ (kv.1 < name)%Z) b with
  | kv :: _ => if bool_decide (kv.1 = name) then Some kv.2 else None
  | [] => None
  end.

(** [Bindings::sort] *)
Definition attrs_sort (b : Bindings) : Bindings := stable_sort b.

(** [BindingsBuilder]: a vector with a capacity. *)
Record Builder := mkBuilder { bb_capacity : nat; bb_attrs : Bindings }.

(** [allocBindings]; sizes are 32 bits wide. *)
Definition buildBindings (capacity : nat) : M Builder :=
  if (2 ^ 32 <=? Z.of_nat capacity)%Z then error Error else ret (mkBuilder capacity []).

Definition push_back (name : Symbol) (p : addr) (b : Builder) : M Builder :=
  if (length (bb_attrs b) <? bb_capacity b)
  then ret (mkBuilder (bb_capacity b) (bb_attrs b ++ [(name, p)]))
  else fail AssertFailed.

Fixpoint push_all (l : Bindings) (b : Builder) : M Builder :=
  match l with
  | [] => ret b
  | (name, p) :: l => let! b := push_back name p b in push_all l b
  end.
