(* ===== verification/Eval.v ===== *)
(** * The evaluator (libexpr/eval.cc, eval-inline.hh)

    One definition per function. The functions are mutually recursive, without
    a measure that decreases; they take the functions they call recursively as
    a record [Rec], and Evaluator ties the knot with fuel. [Rec]'s fields have
    the C++ names; [r_closure] is the loop of [genericClosure]. *)

From Stdlib Require Import SpecFloat.
From stdpp Require Import gmap.
From S2P Require Import Prelude.
From S2P Require Import Containers.
From S2P Require Import CanonPath.
From S2P Require Import StorePath.
From S2P Require Import Expr.
From S2P Require Import Values.

Record Rec := mkRec {
  r_eval : addr -> Expr -> M Value;
  r_forceValue : addr -> M Value;
  r_callFunction : addr -> list addr -> M Value;
  r_primop : builtin -> list addr -> M Value;
  r_eqValues : addr -> addr -> M bool;
  r_assertEqValues : addr -> addr -> M unit;
  r_coerceToString : addr -> list bytes -> bool -> bool -> bool -> M (bytes * list bytes);
  r_compareValues : addr -> addr -> M bool;
  r_forceValueDeep : list addr -> addr -> M (list addr);
  r_closure : addr -> list addr -> list addr -> list addr -> M (list addr);
}.

(** Addresses of [vEmptyList], [vNull], [vTrue] and [vFalse]. *)
Definition vEmptyList : addr := 0%N.
Definition vNull : addr := 1%N.
Definition vTrue : addr := 2%N.
Definition vFalse : addr := 3%N.
Definition getBool (b : bool) : addr := if b then vTrue else vFalse.

Definition maxPrimOpArity : nat := 8.

Section eval.
Context (R : Rec).
(** [settings.maxCallDepth]; the directory of the store and [fetchToStore]. *)
Context (maxCallDepth : nat) (storeDir : bytes) (fetchToStore : bytes -> result StorePath).

(** ** Forcing *)

Definition forceValue (p : addr) : M Value :=
  let! v := read p in
  match v with
  | VThunk env expr =>
      let! _ := write p VBlackhole in
      let! v := on_failure (r_eval R env expr) (fun st => set_values (<[p := v]> (es_values st)) st) in
      let! _ := write p v in
      ret v
  | VBlackhole => error InfiniteRecursionError
  | VApp l r =>
      let! v := r_callFunction R l [r] in
      let! _ := write p v in
      ret v
  | _ => ret v
  end.

Definition forceAttrs (p : addr) : M Bindings :=
  let! v := r_forceValue R p in
  match v with VAttrs b => ret b | _ => error TypeError end.
Definition forceList (p : addr) : M (list addr) :=
  let! v := r_forceValue R p in
  match v with VList l => ret l | _ => error TypeError end.
Definition forceInt (p : addr) : M Z :=
  let! v := r_forceValue R p in
  match v with VInt n => ret n | _ => error TypeError end.
Definition forceFloat (p : addr) : M spec_float :=
  let! v := r_forceValue R p in
  match v with VInt n => ret (f64_of_int n) | VFloat f => ret f | _ => error TypeError end.
Definition forceBool (p : addr) : M bool :=
  let! v := r_forceValue R p in
  match v with VBool b => ret b | _ => error TypeError end.
Definition isFunctor (v : Value) : bool :=
  match v with VAttrs b => bool_decide (is_Some (attrs_get sFunctor b)) | _ => false end.
Definition forceFunction (p : addr) : M unit :=
  let! v := r_forceValue R p in
  if bool_decide (type v = nFunction) || isFunctor v then ret tt else error TypeError.
Definition forceString (p : addr) : M (bytes * list bytes) :=
  let! v := r_forceValue R p in
  match v with VString s context => ret (s, context) | _ => error TypeError end.
Definition forceStringNoCtx (p : addr) : M bytes :=
  let! (s, context) := forceString p in
  if bool_decide (context = []) then ret s else error EvalError.

(** A temporary [Value]. *)
Definition eval_tmp (env : addr) (e : Expr) : M addr :=
  let! v := r_eval R env e in allocValue v.

Definition evalBool (env : addr) (e : Expr) : M bool :=
  let! v := r_eval R env e in
  match v with VBool b => ret b | _ => error TypeError end.
Definition evalAttrs (env : addr) (e : Expr) : M Bindings :=
  let! v := r_eval R env e in
  match v with VAttrs b => ret b | _ => error TypeError end.

(** ** Variables *)

Fixpoint go_up_n (level : nat) (env : addr) : M addr :=
  match level with
  | 0 => ret env
  | S level => let! up := go_up env in go_up_n level up
  end.

(** The loop over the enclosing [with]s. *)
Fixpoint with_loop (name : Symbol) (w : WithInfo) (env : addr) : M addr :=
  let! p := env_slot env 0 in
  match p with
  | None => fail UndefinedBehaviour
  | Some p =>
      let! b := forceAttrs p in
      match attrs_get name b with
      | Some q => ret q
      | None =>
          match w with
          | mkWithInfo _ None => error UndefinedVarError
          | mkWithInfo prev (Some w) => let! env := go_up_n prev env in with_loop name w env
          end
      end
  end.

(** [lookupVar]; [None] is a null pointer. *)
Definition lookupVar (env : addr) (name : Symbol) (ref : VarRef) (noEval : bool) : M (option addr) :=
  match ref with
  | Unresolved => fail UndefinedBehaviour
  | Lexical level displ => let! env := go_up_n level env in env_slot env displ
  | FromWith w level =>
      let! env := go_up_n level env in
      if noEval then ret None
      else let! p := with_loop name w env in ret (Some p)
  end.

Definition mkThunk (env : addr) (e : Expr) : M addr := allocValue (VThunk env e).

Definition maybeThunk (env : addr) (e : Expr) : M addr :=
  match e with
  | ExprInt n => allocValue (VInt n)
  | ExprFloat f => allocValue (VFloat f)
  | ExprString s => allocValue (mkString s [])
  | ExprPath s => allocValue (VPath s)
  | ExprVar name ref =>
      let! v := lookupVar env name ref true in
      match v with Some p => ret p | None => mkThunk env e end
  | ExprInheritFrom displ =>
      let! v := env_slot env displ in
      match v with Some p => ret p | None => mkThunk env e end
  | ExprList [] => ret vEmptyList
  | _ => mkThunk env e
  end.

Definition eval_var (env : addr) (name : Symbol) (ref : VarRef) : M Value :=
  let! v := lookupVar env name ref false in
  match v with Some p => r_forceValue R p | None => fail UndefinedBehaviour end.

(** ** Attribute sets *)

(** [getName] *)
Definition getName (env : addr) (name : AttrName Expr) : M Symbol :=
  match name with
  | NameSymbol s => ret s
  | NameExpr e => let! p := eval_tmp env e in let! s := forceStringNoCtx p in symbols_create s
  end.

Fixpoint fill_env (env : addr) (displ : Displacement) (l : list Expr) (up : addr) : M unit :=
  match l with
  | [] => ret tt
  | e :: l =>
      let! p := maybeThunk up e in
      let! _ := env_set env displ p in
      fill_env env (S displ) l up
  end.
Definition buildInheritFromEnv (from : list Expr) (up : addr) : M addr :=
  let! env := allocEnv (length from) up in
  let! _ := fill_env env 0 from up in
  ret env.
Definition inherit_env (from : option (list Expr)) (up : addr) : M (option addr) :=
  match from with
  | Some l => let! env := buildInheritFromEnv l up in ret (Some env)
  | None => ret None
  end.

(** The environment [chooseByKind] gives. *)
Definition def_env (k : Kind) (env2 env : addr) (inheritEnv : option addr) : M addr :=
  match chooseByKind k (Some env2) (Some env) inheritEnv with
  | Some e => ret e
  | None => fail UndefinedBehaviour
  end.

(** The attributes of a [rec] set, in [env2] and in the bindings. *)
Fixpoint rec_attrs (hasOverrides : bool) (env2 env : addr) (inheritEnv : option addr) (displ : Displacement)
    (l : list (Symbol * AttrDef Expr)) (b : Builder) : M Builder :=
  match l with
  | [] => ret b
  | (name, d) :: l =>
      let! denv := def_env (ad_kind d) env2 env inheritEnv in
      let! p :=
        match hasOverrides, ad_kind d with
        | true, (Plain | InheritedFrom) => mkThunk denv (ad_e d)
        | _, _ => maybeThunk denv (ad_e d)
        end in
      let! _ := env_set env2 displ p in
      let! b := push_back name p b in
      rec_attrs hasOverrides env2 env inheritEnv (S displ) l b
  end.

(** The attributes of a set that is not recursive. *)
Fixpoint plain_attrs (env : addr) (inheritEnv : option addr) (l : list (Symbol * AttrDef Expr)) (b : Builder) :
    M Builder :=
  match l with
  | [] => ret b
  | (name, d) :: l =>
      let! denv := def_env (ad_kind d) env env inheritEnv in
      let! p := maybeThunk denv (ad_e d) in
      let! b := push_back name p b in
      plain_attrs env inheritEnv l b
  end.

Definition find_def (name : Symbol) (attrs : list (Symbol * AttrDef Expr)) : option (AttrDef Expr) :=
  smap_lookup name attrs.

(** Assignment to the [displ]-th binding. *)
Definition builder_set (displ : Displacement) (name : Symbol) (p : addr) (b : Builder) : M Builder :=
  if (displ <? length (bb_attrs b))
  then ret (mkBuilder (bb_capacity b) (<[displ := (name, p)]> (bb_attrs b)))
  else fail UndefinedBehaviour.

Fixpoint override_attrs (env2 : addr) (attrs : list (Symbol * AttrDef Expr)) (l : Bindings) (b : Builder) :
    M Builder :=
  match l with
  | [] => ret b
  | (name, p) :: l =>
      let! b :=
        match find_def name attrs with
        | Some j =>
            let! b := builder_set (ad_displ j) name p b in
            let! _ := env_set env2 (ad_displ j) p in
            ret b
        | None => push_back name p b
        end in
      override_attrs env2 attrs l b
  end.

(** [__overrides] *)
Definition apply_overrides (env2 : addr) (attrs : list (Symbol * AttrDef Expr)) (overrides : AttrDef Expr)
    (b : Builder) : M Builder :=
  match bb_attrs b !! ad_displ overrides with
  | None => fail UndefinedBehaviour
  | Some (_, vOverrides) =>
      let! o := forceAttrs vOverrides in
      let! b2 := buildBindings (bb_capacity b + length o) in
      let! b2 := push_all (bb_attrs b) b2 in
      override_attrs env2 attrs o b2
  end.

Fixpoint dynamic_attrs (dynamicEnv : addr) (l : list (Expr * Expr)) (b : Builder) (sort : bool) :
    M (Builder * bool) :=
  match l with
  | [] => ret (b, sort)
  | (nameExpr, valueExpr) :: l =>
      let! nameVal := eval_tmp dynamicEnv nameExpr in
      let! v := r_forceValue R nameVal in
      match v with
      | VNull => dynamic_attrs dynamicEnv l b sort
      | _ =>
          let! s := forceStringNoCtx nameVal in
          let! nameSym := symbols_create s in
          let b := if sort then mkBuilder (bb_capacity b) (attrs_sort (bb_attrs b)) else b in
          match attrs_get nameSym (bb_attrs b) with
          | Some _ => error EvalError
          | None =>
              let! p := maybeThunk dynamicEnv valueExpr in
              let! b := push_back nameSym p b in
              dynamic_attrs dynamicEnv l b true
          end
      end
  end.

Definition eval_attrs (env : addr) (a : Attrs Expr) : M Value :=
  let attrs := at_attrs a in
  let! b := buildBindings (length attrs + length (at_dynamicAttrs a)) in
  let! (b, dynamicEnv, sort) :=
    if at_recursive a then
      let! env2 := allocEnv (length attrs) env in
      let! inheritEnv := inherit_env (at_inheritFromExprs a) env2 in
      let overrides := find_def sOverrides attrs in
      let! b := rec_attrs (bool_decide (is_Some overrides)) env2 env inheritEnv 0 attrs b in
      match overrides with
      | Some o => let! b := apply_overrides env2 attrs o b in ret (b, env2, true)
      | None => ret (b, env2, false)
      end
    else
      let! inheritEnv := inherit_env (at_inheritFromExprs a) env in
      let! b := plain_attrs env inheritEnv attrs b in
      ret (b, env, false) in
  let! (b, sort) := dynamic_attrs dynamicEnv (at_dynamicAttrs a) b sort in
  ret (VAttrs (if sort then attrs_sort (bb_attrs b) else bb_attrs b)).

Fixpoint let_attrs (env2 env : addr) (inheritEnv : option addr) (displ : Displacement)
    (l : list (Symbol * AttrDef Expr)) : M unit :=
  match l with
  | [] => ret tt
  | (_, d) :: l =>
      let! denv := def_env (ad_kind d) env2 env inheritEnv in
      let! p := maybeThunk denv (ad_e d) in
      let! _ := env_set env2 displ p in
      let_attrs env2 env inheritEnv (S displ) l
  end.

Definition eval_let (env : addr) (a : Attrs Expr) (body : Expr) : M Value :=
  let! env2 := allocEnv (length (at_attrs a)) env in
  let! inheritEnv := inherit_env (at_inheritFromExprs a) env2 in
  let! _ := let_attrs env2 env inheritEnv 0 (at_attrs a) in
  r_eval R env2 body.

(** [ExprSelect::eval], from the value [cur] on. *)
Fixpoint select_path (env : addr) (def : option Expr) (path : list (AttrName Expr)) (cur : addr) : M Value :=
  match path with
  | [] => r_forceValue R cur
  | i :: path =>
      let! name := getName env i in
      match def with
      | Some d =>
          let! v := r_forceValue R cur in
          match v with
          | VAttrs b =>
              match attrs_get name b with
              | Some p => select_path env def path p
              | None => r_eval R env d
              end
          | _ => r_eval R env d
          end
      | None =>
          let! b := forceAttrs cur in
          match attrs_get name b with
          | Some p => select_path env def path p
          | None => error EvalError
          end
      end
  end.
Definition eval_select (env : addr) (e : Expr) (path : list (AttrName Expr)) (def : option Expr) : M Value :=
  let! vTmp := eval_tmp env e in
  select_path env def path vTmp.

Fixpoint has_path (env : addr) (path : list (AttrName Expr)) (cur : addr) : M Value :=
  match path with
  | [] => ret (VBool true)
  | i :: path =>
      let! v := r_forceValue R cur in
      let! name := getName env i in
      match v with
      | VAttrs b =>
          match attrs_get name b with
          | Some p => has_path env path p
          | None => ret (VBool false)
          end
      | _ => ret (VBool false)
      end
  end.
Definition eval_hasAttr (env : addr) (e : Expr) (path : list (AttrName Expr)) : M Value :=
  let! vTmp := eval_tmp env e in
  has_path env path vTmp.

(** The loops of [ExprOpUpdate::eval]. *)
Fixpoint update_loop (fuel : nat) (i j : Bindings) (b : Builder) : M Builder :=
  match fuel with
  | 0 => fail OutOfFuel
  | S fuel =>
      match i, j with
      | (ni, pi) :: i', (nj, pj) :: j' =>
          if bool_decide (ni = nj) then let! b := push_back nj pj b in update_loop fuel i' j' b
          else if (ni <? nj)%Z then let! b := push_back ni pi b in update_loop fuel i' j b
          else let! b := push_back nj pj b in update_loop fuel i j' b
      | _, _ => let! b := push_all i b in push_all j b
      end
  end.
Definition eval_update (env : addr) (e1 e2 : Expr) : M Value :=
  let! a1 := evalAttrs env e1 in
  let! a2 := evalAttrs env e2 in
  if bool_decide (a1 = []) then ret (VAttrs a2)
  else if bool_decide (a2 = []) then ret (VAttrs a1)
  else
    let! b := buildBindings (length a1 + length a2) in
    let! b := update_loop (S (length a1 + length a2)) a1 a2 b in
    ret (VAttrs (bb_attrs b)).

(** ** Functions *)

(** The formal arguments; the result counts the attributes used. *)
Fixpoint bind_args (env2 : addr) (attrs : Bindings) (displ : Displacement) (formals : list (Formal Expr))
    (attrsUsed : nat) : M nat :=
  match formals with
  | [] => ret attrsUsed
  | f :: formals =>
      match attrs_get (fm_name f) attrs with
      | None =>
          match fm_def f with
          | None => error TypeError
          | Some d =>
              let! p := maybeThunk env2 d in
              let! _ := env_set env2 displ p in
              bind_args env2 attrs (S displ) formals attrsUsed
          end
      | Some p =>
          let! _ := env_set env2 displ p in
          bind_args env2 attrs (S displ) formals (S attrsUsed)
      end
  end.

Definition lambda_size (lambda : Lambda) : nat :=
  (match lam_arg lambda with Some _ => 1 | None => 0 end) +
  match lam_formals lambda with Some fs => length (fs_formals fs) | None => 0 end.

Definition call_lambda (env : addr) (lambda : Lambda) (arg : addr) : M Value :=
  let! env2 := allocEnv (lambda_size lambda) env in
  let! _ :=
    match lam_formals lambda with
    | None => env_set env2 0 arg
    | Some fs =>
        let! attrs := forceAttrs arg in
        let! displ :=
          match lam_arg lambda with
          | Some _ => let! _ := env_set env2 0 arg in ret 1
          | None => ret 0
          end in
        let! attrsUsed := bind_args env2 attrs displ (fs_formals fs) 0 in
        if negb (fs_ellipsis fs) && negb (attrsUsed =? length attrs) then
          if existsb (fun kv => negb (has (fs_formals fs) kv.1)) attrs then error TypeError
          else fail AssertFailed (* unreachable() *)
        else ret tt
    end in
  r_eval R env2 (lam_body lambda).

(** [makeAppChain] *)
Fixpoint makeAppChain (v : Value) (args : list addr) : M Value :=
  match args with
  | [] => ret v
  | arg :: args => let! fun2 := allocValue v in makeAppChain (VPrimOpApp fun2 arg) args
  end.

(** The arguments of a chain of [tPrimOpApp], and its head; a chain longer
    than the array for the arguments overruns it. *)
Fixpoint app_chain (fuel : nat) (v : Value) (args : list addr) : M (builtin * list addr) :=
  match v with
  | VPrimOpApp l r =>
      match fuel with
      | 0 => fail UndefinedBehaviour
      | S fuel => let! v := read l in app_chain fuel v (r :: args)
      end
  | VPrimOp p => ret (p, args)
  | _ => fail AssertFailed
  end.

(** The loop over the arguments. *)
Fixpoint call_loop (fuel : nat) (vCur : Value) (args : list addr) : M Value :=
  match args, fuel with
  | [], _ => ret vCur
  | _ :: _, 0 => fail OutOfFuel
  | arg :: rest, S fuel =>
      match vCur with
      | VLambda env lambda =>
          let! v := call_lambda env lambda arg in call_loop fuel v rest
      | VPrimOp p =>
          if (length args <? arity p) then makeAppChain vCur args
          else let! v := r_primop R p (take (arity p) args) in call_loop fuel v (drop (arity p) args)
      | VPrimOpApp _ _ =>
          let! (p, done) := app_chain maxPrimOpArity vCur [] in
          let argsLeft := arity p - length done in
          if (length args <? argsLeft) then makeAppChain vCur args
          else
            let! v := r_primop R p (done ++ take argsLeft args) in
            call_loop fuel v (drop argsLeft args)
      | VAttrs b =>
          match attrs_get sFunctor b with
          | Some functor =>
              let! self := allocValue vCur in
              let! v := r_callFunction R functor [self; arg] in
              call_loop fuel v rest
          | None => error TypeError
          end
      | _ => error TypeError
      end
  end.

(** [addCallDepth] and the destructor of [CallDepth]. *)
Definition with_callDepth {A} (m : M A) : M A :=
  fun st =>
    if (maxCallDepth <? es_callDepth st) then (Err (Throw EvalError), st)
    else
      let '(r, st') := m (set_callDepth (S (es_callDepth st)) st) in
      (r, set_callDepth (es_callDepth st' - 1) st').

Definition callFunction (fun_ : addr) (args : list addr) : M Value :=
  with_callDepth (
    let! vCur := r_forceValue R fun_ in
    call_loop (length args) vCur args).

Definition eval_call (env : addr) (fun_ : Expr) (args : list Expr) : M Value :=
  let! vFun := eval_tmp env fun_ in
  let! vArgs := mmap (maybeThunk env) args in
  r_callFunction R vFun vArgs.

(** ** Equality *)

Definition isDerivation (v : Value) : M bool :=
  match v with
  | VAttrs b =>
      match attrs_get sType b with
      | None => ret false
      | Some i =>
          let! t := r_forceValue R i in
          ret (match t with VString s _ => bool_decide (s = L "derivation") | _ => false end)
      end
  | _ => ret false
  end.

Definition eq_list : list addr -> list addr -> M bool :=
  fix go l1 l2 :=
    match l1, l2 with
    | p1 :: l1, p2 :: l2 =>
        let! b := r_eqValues R p1 p2 in if b then go l1 l2 else ret false
    | _, _ => ret true
    end.
Definition eq_attrs : Bindings -> Bindings -> M bool :=
  fix go b1 b2 :=
    match b1, b2 with
    | (n1, p1) :: b1, (n2, p2) :: b2 =>
        if bool_decide (n1 = n2) then
          let! b := r_eqValues R p1 p2 in if b then go b1 b2 else ret false
        else ret false
    | _, _ => ret true
    end.

(** The paths of two derivations that have one. *)
Definition both_outPath (v1 v2 : Value) (b1 b2 : Bindings) : M (option (addr * addr)) :=
  let! d1 := isDerivation v1 in
  let! d2 := if d1 then isDerivation v2 else ret false in
  ret (if d1 && d2 then
         match attrs_get sOutPath b1, attrs_get sOutPath b2 with
         | Some i, Some j => Some (i, j)
         | _, _ => None
         end
       else None).

Definition eqValues (p1 p2 : addr) : M bool :=
  let! v1 := r_forceValue R p1 in
  let! v2 := r_forceValue R p2 in
  if bool_decide (p1 = p2) then ret true
  else match v1, v2 with
  | VInt n, VFloat f => ret (SFeqb (f64_of_int n) f)
  | VFloat f, VInt n => ret (SFeqb f (f64_of_int n))
  | VInt n1, VInt n2 => ret (n1 =? n2)%Z
  | VBool b1, VBool b2 => ret (Bool.eqb b1 b2)
  | VString s1 _, VString s2 _ => ret (bool_decide (s1 = s2))
  | VPath s1, VPath s2 => ret (bool_decide (s1 = s2))
  | VNull, VNull => ret true
  | VList l1, VList l2 => if (length l1 =? length l2) then eq_list l1 l2 else ret false
  | VAttrs b1, VAttrs b2 =>
      let! o := both_outPath v1 v2 b1 b2 in
      match o with
      | Some (i, j) => r_eqValues R i j
      | None => if (length b1 =? length b2) then eq_attrs b1 b2 else ret false
      end
  | VFloat f1, VFloat f2 => ret (SFeqb f1 f2)
  | _, _ =>
      if bool_decide (type v1 = type v2) && bool_decide (type v1 = nThunk) then fail AssertFailed
      else ret false
  end.

Definition assertEq_list : list addr -> list addr -> M unit :=
  fix go l1 l2 :=
    match l1, l2 with
    | p1 :: l1, p2 :: l2 => let! _ := r_assertEqValues R p1 p2 in go l1 l2
    | _, _ => ret tt
    end.
Definition assertEq_attrs (b1 b2 : Bindings) : Bindings -> Bindings -> M unit :=
  fix go i j :=
    match i, j with
    | (n1, p1) :: i, (n2, p2) :: j =>
        if bool_decide (n1 = n2) then
          let! _ := r_assertEqValues R p1 p2 in go i j
        else if bool_decide (attrs_get n1 b2 = None) then error AssertionError
        else if bool_decide (attrs_get n2 b1 = None) then error AssertionError
        else fail AssertFailed
    | _, _ => ret tt
    end.

Definition numeric (v : Value) : bool :=
  match v with VInt _ | VFloat _ => true | _ => false end.
Definition assert_that (b : bool) : M unit := if b then ret tt else error AssertionError.

Definition assertEqValues (p1 p2 : addr) : M unit :=
  let! v1 := r_forceValue R p1 in
  let! v2 := r_forceValue R p2 in
  if bool_decide (p1 = p2) then ret tt
  else if numeric v1 && numeric v2 then let! b := r_eqValues R p1 p2 in assert_that b
  else match v1, v2 with
  | VBool b1, VBool b2 => assert_that (Bool.eqb b1 b2)
  | VString s1 _, VString s2 _ => assert_that (bool_decide (s1 = s2))
  | VPath s1, VPath s2 => assert_that (bool_decide (s1 = s2))
  | VNull, VNull => ret tt
  | VList l1, VList l2 => if (length l1 =? length l2) then assertEq_list l1 l2 else error AssertionError
  | VAttrs b1, VAttrs b2 =>
      let! o := both_outPath v1 v2 b1 b2 in
      match o with
      | Some (i, j) => r_assertEqValues R i j
      | None => if (length b1 =? length b2) then assertEq_attrs b1 b2 b1 b2 else error AssertionError
      end
  | _, _ =>
      if bool_decide (type v1 = type v2) && bool_decide (type v1 = nThunk) then fail AssertFailed
      else error AssertionError
  end.

(** ** Strings *)

(** [copyPathToStore] *)
Definition copyPathToStore (context : list bytes) (path : bytes) : M (StorePath * list bytes) :=
  if bool_decide (L ".drv" `suffix_of` path) then error EvalError
  else
    let! dstPath :=
      fun st =>
        match smap_lookup path (es_srcToStore st) with
        | Some p => (Ok p, st)
        | None =>
            match fetchToStore path with
            | Ok p =>
                (Ok p, mkEvalState (es_values st) (es_nextValue st) (es_envs st) (es_nextEnv st) (es_symbols st)
                         (es_callDepth st) (smap_emplace path p (es_srcToStore st)))
            | Err f => (Err f, st)
            end
        end in
    ret (dstPath, sset_insert (sp_to_string dstPath) context).

(** The elements of a list, separated by blanks. *)
Fixpoint coerce_list (l : list addr) (context : list bytes) (coerceMore copyToStore canonicalizePath : bool)
    (result : bytes) : M (bytes * list bytes) :=
  match l with
  | [] => ret (result, context)
  | v2 :: l =>
      let! (s, context) := r_coerceToString R v2 context coerceMore copyToStore canonicalizePath in
      let! v := read v2 in
      let sep := negb (bool_decide (l = [])) && match v with VList [] => false | _ => true end in
      coerce_list l context coerceMore copyToStore canonicalizePath
        (result ++ s ++ (if sep then L " " else []))
  end.

Definition coerceToString (p : addr) (context : list bytes) (coerceMore copyToStore canonicalizePath : bool) :
    M (bytes * list bytes) :=
  let! v := r_forceValue R p in
  match v with
  | VString s ctx => ret (s, sset_union context ctx)
  | VPath path =>
      if negb canonicalizePath && negb copyToStore then ret (path, context)
      else if copyToStore then
        let! (dst, context) := copyPathToStore context path in
        ret (printStorePath storeDir dst, context)
      else ret (path, context)
  | VAttrs b =>
      (* tryAttrsToString *)
      match attrs_get sToString b with
      | Some i =>
          let! v1 := r_callFunction R i [p] in
          let! p1 := allocValue v1 in
          r_coerceToString R p1 context coerceMore copyToStore true
      | None =>
          match attrs_get sOutPath b with
          | None => error TypeError
          | Some i => r_coerceToString R i context coerceMore copyToStore canonicalizePath
          end
      end
  | _ =>
      if coerceMore then
        match v with
        | VBool b => ret (if b then L "1" else [], context)
        | VInt n => ret (int_to_string n, context)
        | VFloat f => ret (float_to_string f, context)
        | VNull => ret ([], context)
        | VList l => coerce_list l context coerceMore copyToStore canonicalizePath []
        | _ => error TypeError
        end
      else error TypeError
  end.

(** The local variables of [ExprConcatStrings::eval]. *)
Record concat_state := mkConcat {
  cs_first : bool;
  cs_firstType : ValueType;
  cs_n : Z;
  cs_nf : spec_float;
  cs_s : bytes;
  cs_context : list bytes;
}.

Definition concat_step (env : addr) (i : Expr) (c : concat_state) : M concat_state :=
  let! vTmp := eval_tmp env i in
  let! v := read vTmp in
  let firstType := if cs_first c then type v else cs_firstType c in
  match firstType with
  | nInt =>
      match v with
      | VInt m =>
          match checked_add (cs_n c) m with
          | Some n => ret (mkConcat false nInt n (cs_nf c) (cs_s c) (cs_context c))
          | None => error EvalError
          end
      | VFloat f => ret (mkConcat false nFloat (cs_n c) (f64_add (f64_of_int (cs_n c)) f) (cs_s c) (cs_context c))
      | _ => error EvalError
      end
  | nFloat =>
      match v with
      | VInt m => ret (mkConcat false nFloat (cs_n c) (f64_add (cs_nf c) (f64_of_int m)) (cs_s c) (cs_context c))
      | VFloat f => ret (mkConcat false nFloat (cs_n c) (f64_add (cs_nf c) f) (cs_s c) (cs_context c))
      | _ => error EvalError
      end
  | _ =>
      let! (part, context) :=
        r_coerceToString R vTmp (cs_context c) false (bool_decide (firstType = nString)) (negb (cs_first c)) in
      ret (mkConcat false firstType (cs_n c) (cs_nf c) (cs_s c ++ part) context)
  end.

Fixpoint concat_loop (env : addr) (es : list Expr) (c : concat_state) : M concat_state :=
  match es with
  | [] => ret c
  | i :: es => let! c := concat_step env i c in concat_loop env es c
  end.

Definition eval_concatStrings (env : addr) (forceString : bool) (es : list Expr) : M Value :=
  let! c := concat_loop env es (mkConcat (negb forceString) nString 0 (S754_zero false) [] []) in
  match cs_firstType c with
  | nInt => ret (VInt (cs_n c))
  | nFloat => ret (VFloat (cs_nf c))
  | nPath =>
      if bool_decide (cs_context c = []) then let! p := lift (CanonPath_raw (cs_s c)) in ret (VPath p)
      else error EvalError
  | _ => ret (mkString (cs_s c) (cs_context c))
  end.

(** ** Lists *)

(** [concatLists], the lists in order. *)
Definition concatLists (lists : list addr) : M Value :=
  let! ls := mmap forceList lists in
  let len := length (concat ls) in
  match last (filter (fun l => l <> []) ls) with
  | Some l => if (len =? length l) then ret (VList l) else ret (VList (concat ls))
  | None => ret (VList (concat ls))
  end.

(** [forceValueDeep]; [seen] is the set of values visited. *)
Fixpoint deep_list (l : list addr) (seen : list addr) : M (list addr) :=
  match l with
  | [] => ret seen
  | p :: l => let! seen := r_forceValueDeep R seen p in deep_list l seen
  end.
Definition forceValueDeep (seen : list addr) (p : addr) : M (list addr) :=
  if bool_decide (p ∈ seen) then ret seen
  else
    let seen := p :: seen in
    let! v := r_forceValue R p in
    match v with
    | VAttrs b => deep_list (snd <$> b) seen
    | VList l => deep_list l seen
    | _ => ret seen
    end.

(** ** Operators and [Expr::eval] *)

Definition eval_binop (env : addr) (op : BinOp) (e1 e2 : Expr) : M Value :=
  match op with
  | OpEq | OpNEq =>
      let! v1 := eval_tmp env e1 in
      let! v2 := eval_tmp env e2 in
      let! b := r_eqValues R v1 v2 in
      ret (VBool (match op with OpNEq => negb b | _ => b end))
  | OpAnd => let! b := evalBool env e1 in if b then let! b := evalBool env e2 in ret (VBool b) else ret (VBool false)
  | OpOr => let! b := evalBool env e1 in if b then ret (VBool true) else let! b := evalBool env e2 in ret (VBool b)
  | OpImpl => let! b := evalBool env e1 in if b then let! b := evalBool env e2 in ret (VBool b) else ret (VBool true)
  | OpUpdate => eval_update env e1 e2
  | OpConcatLists =>
      let! v1 := eval_tmp env e1 in
      let! v2 := eval_tmp env e2 in
      concatLists [v1; v2]
  end.

Definition eval_assert (env : addr) (cond body : Expr) : M Value :=
  let! b := evalBool env cond in
  if b then r_eval R env body
  else
    let! _ :=
      match cond with
      | ExprBinOp OpEq e1 e2 =>
          let! v1 := eval_tmp env e1 in
          let! v2 := eval_tmp env e2 in
          r_assertEqValues R v1 v2
      | _ => ret tt
      end in
    error AssertionError.

Definition eval_with (env : addr) (attrs body : Expr) : M Value :=
  let! env2 := allocEnv 1 env in
  let! p := maybeThunk env attrs in
  let! _ := env_set env2 0 p in
  r_eval R env2 body.

Definition eval (env : addr) (e : Expr) : M Value :=
  match e with
  | ExprInt n => ret (VInt n)
  | ExprFloat f => ret (VFloat f)
  | ExprString s => ret (mkString s [])
  | ExprPath s => ret (VPath s)
  | ExprVar name ref => eval_var env name ref
  | ExprInheritFrom displ => eval_var env 0 (Lexical 0 displ)
  | ExprSelect e path def => eval_select env e path def
  | ExprOpHasAttr e path => eval_hasAttr env e path
  | ExprAttrs a => eval_attrs env a
  | ExprList elems => let! l := mmap (maybeThunk env) elems in ret (VList l)
  | ExprLambda arg formals body => ret (VLambda env (mkLambda arg formals body))
  | ExprCall fun_ args => eval_call env fun_ args
  | ExprLet a body => eval_let env a body
  | ExprWith attrs body => eval_with env attrs body
  | ExprIf cond then_ else_ =>
      let! b := evalBool env cond in r_eval R env (if b then then_ else else_)
  | ExprAssert cond body => eval_assert env cond body
  | ExprOpNot e => let! b := evalBool env e in ret (VBool (negb b))
  | ExprBinOp op e1 e2 => eval_binop env op e1 e2
  | ExprConcatStrings forceString es => eval_concatStrings env forceString es
  end.
End eval.
