(* ===== verification/AttrSets.v ===== *)
(** * Attribute sets: look-up and update (libexpr/attr-set.hh, eval.cc)

    Bindings are sorted by symbol and have no duplicates; then the binary
    search finds a binding if there is one, and the loops of the update
    operator compute the union that prefers the right operand. *)

From Stdlib Require Import SpecFloat Sorting.Sorted.
From stdpp Require Import gmap.
From S2P Require Import Prelude.
From S2P Require Import Containers.
From S2P Require Import Expr.
From S2P Require Import Scoping.
From S2P Require Import Values.
From S2P Require Import Eval.

(** ** Look-up *)

Lemma attrs_get_elem name b p : attrs_get name b = Some p -> (name, p) ∈ b.
Proof.
  unfold attrs_get. destruct (filter _ b) as [|[s q] l] eqn:Hf; [done|]. simpl.
  case_bool_decide; [|done]. intros [= <-]. subst s.
  assert (H : (name, q) ∈ filter (fun kv => ~ (kv.1 < name)%Z) b) by (rewrite Hf; left).
  by apply list_elem_of_filter in H as [_ ?].
Qed.
Lemma attrs_get_spec name b : sorted_names b.*1 -> forall p, attrs_get name b = Some p <-> (name, p) ∈ b.
Proof.
  intros Hs p. apply lower_bound_sorted; [by apply sorted_names_le|by apply sorted_names_NoDup].
Qed.
Lemma attrs_get_None name b : sorted_names b.*1 -> attrs_get name b = None <-> name ∉ b.*1.
Proof.
  intros Hs. destruct (attrs_get name b) as [p|] eqn:Hg.
  - split; [done|]. intros Hn. destruct Hn. apply attrs_get_spec in Hg; [|done].
    apply list_elem_of_fmap. by exists (name, p).
  - split; [|done]. intros _ [[n p] [-> Hin]]%list_elem_of_fmap. apply attrs_get_spec in Hin; [|done]. simpl in *.
    congruence.
Qed.


(** Where two sets first differ, one of the names is missing in the other set. *)
Lemma first_difference (names : list Symbol) n1 n2 (l1 l2 : list Symbol) :
  sorted_names (names ++ n1 :: l1) -> sorted_names (names ++ n2 :: l2) -> n1 <> n2 ->
  n1 ∉ names ++ n2 :: l2 \/ n2 ∉ names ++ n1 :: l1.
Proof.
  assert (H : forall n m l l', sorted_names (names ++ n :: l) -> sorted_names (names ++ m :: l') -> (n < m)%Z ->
    n ∉ names ++ m :: l').
  { intros n m l l' Hn Hm Hlt Hin. apply elem_of_app in Hin as [Hin|Hin].
    - apply sorted_names_NoDup, NoDup_app in Hn as (_ & Hd & _). apply (Hd n Hin). left.
    - clear Hn. induction names as [|x names IH].
      + apply StronglySorted_inv in Hm as [_ Hf]. rewrite Forall_forall in Hf.
        apply elem_of_cons in Hin as [->|Hin]; [lia|]. apply Hf in Hin. lia.
      + apply StronglySorted_inv in Hm as [Hm _]. by apply IH. }
  intros H1 H2 Hne. destruct (Z.lt_total n1 n2) as [Hlt|[?|Hlt]]; [|done|].
  - left. by eapply H.
  - right. by eapply H.
Qed.

(** ** The update of sets *)

Lemma push_back_eq name p b st : length (bb_attrs b) < bb_capacity b ->
  push_back name p b st = (Ok (mkBuilder (bb_capacity b) (bb_attrs b ++ [(name, p)])), st).
Proof. intros H. unfold push_back. by rewrite (proj2 (Nat.ltb_lt _ _) H). Qed.
Lemma push_all_eq l b st : length (bb_attrs b) + length l <= bb_capacity b ->
  push_all l b st = (Ok (mkBuilder (bb_capacity b) (bb_attrs b ++ l)), st).
Proof.
  revert b. induction l as [|[n p] l IH]; intros b Hl; simpl in *.
  - rewrite app_nil_r. by destruct b.
  - unfold ebind. rewrite push_back_eq by lia. rewrite IH by (simpl; rewrite length_app; simpl; lia).
    simpl. by rewrite <- app_assoc.
Qed.

(** [l] has the bindings of [j], and those of [i] whose names [j] lacks. *)
Definition updates (i j l : Bindings) : Prop :=
  sorted_names l.*1 /\ forall n p, (n, p) ∈ l <-> (n, p) ∈ j \/ ((n, p) ∈ i /\ n ∉ j.*1).

Lemma sorted_cons_names n (p : addr) (l : Bindings) : sorted_names ((n, p) :: l).*1 ->
  sorted_names l.*1 /\ forall m q, (m, q) ∈ l -> (n < m)%Z.
Proof.
  intros [Hs Hf]%StronglySorted_inv. split; [done|]. intros m q Hin. rewrite Forall_forall in Hf.
  apply Hf. apply list_elem_of_fmap. by exists (m, q).
Qed.
Lemma sorted_names_cons n (p : addr) (l : Bindings) : sorted_names l.*1 ->
  (forall m q, (m, q) ∈ l -> (n < m)%Z) -> sorted_names ((n, p) :: l).*1.
Proof.
  intros Hs Hf. constructor; [done|]. apply Forall_forall.
  intros m [[m' q] [-> Hin]]%list_elem_of_fmap. by eapply Hf.
Qed.
Lemma elem_of_names n (l : Bindings) : n ∈ l.*1 <-> exists p, (n, p) ∈ l.
Proof.
  rewrite list_elem_of_fmap. split; [intros [[m q] [-> ?]]; eauto|intros [p ?]; by exists (n, p)].
Qed.

Lemma updates_nil_l j : sorted_names j.*1 -> updates [] j j.
Proof. intros Hs. split; [done|]. intros n p. rewrite elem_of_nil. tauto. Qed.
Lemma updates_nil_r i : sorted_names i.*1 -> updates i [] i.
Proof. intros Hs. split; [done|]. intros n p. simpl. rewrite !elem_of_nil. tauto. Qed.

Section updates_step.
Context (ni nj : Symbol) (pi pj : addr) (i j l : Bindings).
Context (Hi : sorted_names ((ni, pi) :: i).*1) (Hj : sorted_names ((nj, pj) :: j).*1).

(** The first name of the result, in the three cases of the loop. *)
Lemma updates_eq : ni = nj -> updates i j l -> updates ((ni, pi) :: i) ((nj, pj) :: j) ((nj, pj) :: l).
Proof.
  intros Heq [Hl Hu]. apply sorted_cons_names in Hi as [Hi1 Hi2]. apply sorted_cons_names in Hj as [Hj1 Hj2]. split.
  - apply sorted_names_cons; [done|]. intros m q [?|[? _]]%Hu; [by eapply Hj2|]. subst. by eapply Hi2.
  - intros n p. cbn [fmap list_fmap fst]. rewrite !elem_of_cons, Hu. split.
    + intros [?|[?|[Hin Hn]]]; [by auto..|]. right. split; [by right|]. intros [->|?]; [|done].
      apply Hi2 in Hin. simpl in *. lia.
    + intros [[?|?]|[[Heq'|?] Hn]]; [by auto..| |].
      * exfalso. apply Hn. left. simpl. congruence.
      * right. right. split; [done|]. intros ?. apply Hn. by right.
Qed.
Lemma updates_left : (ni < nj)%Z -> updates i ((nj, pj) :: j) l -> updates ((ni, pi) :: i) ((nj, pj) :: j) ((ni, pi) :: l).
Proof.
  intros Hlt [Hl Hu]. apply sorted_cons_names in Hi as [Hi1 Hi2]. apply sorted_cons_names in Hj as [Hj1 Hj2]. split.
  - apply sorted_names_cons; [done|]. intros m q [Hin|[? _]]%Hu; [|by eapply Hi2].
    apply elem_of_cons in Hin as [[= -> _]|Hin]; [done|]. apply Hj2 in Hin. lia.
  - intros n p. rewrite (elem_of_cons l), (elem_of_cons i), Hu. split.
    + intros [[= -> ->]|[?|[? ?]]]; [|by auto..]. right. split; [by left|]. intros [q Hq]%elem_of_names.
      apply elem_of_cons in Hq as [[= -> _]|Hq]; [lia|]. apply Hj2 in Hq. lia.
    + intros [?|[[?|?] ?]]; auto.
Qed.
Lemma updates_right : (nj < ni)%Z -> updates ((ni, pi) :: i) j l -> updates ((ni, pi) :: i) ((nj, pj) :: j) ((nj, pj) :: l).
Proof.
  intros Hlt [Hl Hu]. assert (Hi' := Hi). apply sorted_cons_names in Hi as [Hi1 Hi2].
  apply sorted_cons_names in Hj as [Hj1 Hj2]. split.
  - apply sorted_names_cons; [done|]. intros m q [Hin|[Hin _]]%Hu; [by eapply Hj2|].
    apply elem_of_cons in Hin as [[= -> _]|Hin]; [done|]. apply Hi2 in Hin. lia.
  - intros n p. cbn [fmap list_fmap fst]. rewrite (elem_of_cons l), (elem_of_cons j), Hu. split.
    + intros [?|[?|[Hin Hn]]]; [by auto..|]. right. split; [done|]. rewrite elem_of_cons. intros [->|?]; [|done].
      apply elem_of_cons in Hin as [[= -> _]|Hin]; [lia|]. apply Hi2 in Hin. simpl in *. lia.
    + rewrite elem_of_cons. intros [[?|?]|[? Hn]]; [by auto..|]. right. right. split; [done|].
      intros ?. apply Hn. by right.
Qed.
End updates_step.

Lemma update_loop_eq fuel i j b st :
  sorted_names i.*1 -> sorted_names j.*1 -> length i + length j < fuel ->
  length (bb_attrs b) + length i + length j <= bb_capacity b ->
  exists l, update_loop fuel i j b st = (Ok (mkBuilder (bb_capacity b) (bb_attrs b ++ l)), st) /\ updates i j l.
Proof.
  revert i j b. induction fuel as [|fuel IH]; intros i j b Hi Hj Hf Hc; [lia|].
  destruct i as [|[ni pi] i], j as [|[nj pj] j]; cbn [update_loop]; unfold ebind.
  - exists []. simpl. rewrite app_nil_r. destruct b. by split; [|apply updates_nil_l].
  - exists ((nj, pj) :: j). split; [|by apply updates_nil_l]. apply push_all_eq. simpl in *. lia.
  - exists ((ni, pi) :: i). split; [|by apply updates_nil_r]. rewrite push_all_eq by (simpl in *; lia). done.
  - simpl in Hc, Hf.
    destruct (sorted_cons_names _ _ _ Hi) as [Hi1 _]. destruct (sorted_cons_names _ _ _ Hj) as [Hj1 _].
    case_bool_decide as Heq; [|destruct (Z.ltb_spec ni nj)]; rewrite push_back_eq by lia.
    + edestruct (IH i j) as (l & -> & Hl); [done|done|lia|simpl; rewrite length_app; simpl; lia|].
      eexists. split; [simpl; by rewrite <- app_assoc|]. by apply updates_eq.
    + edestruct (IH i ((nj, pj) :: j)) as (l & -> & Hl); [done|done|simpl; lia|simpl; rewrite length_app; simpl; lia|].
      eexists. split; [simpl; by rewrite <- app_assoc|]. by apply updates_left.
    + edestruct (IH ((ni, pi) :: i) j) as (l & -> & Hl); [done|done|simpl; lia|simpl; rewrite length_app; simpl; lia|].
      eexists. split; [simpl; by rewrite <- app_assoc|]. apply updates_right; [done|done|lia|done].
Qed.

Lemma updates_get i j l : sorted_names i.*1 -> sorted_names j.*1 -> updates i j l ->
  forall name, attrs_get name l = match attrs_get name j with Some p => Some p | None => attrs_get name i end.
Proof.
  intros Hi Hj [Hl Hu] name. destruct (attrs_get name j) as [p|] eqn:Hgj.
  - apply attrs_get_spec; [done|]. apply Hu. left. by apply attrs_get_spec.
  - assert (Hn := proj1 (attrs_get_None name j Hj) Hgj). destruct (attrs_get name i) as [p|] eqn:Hgi.
    + apply attrs_get_spec; [done|]. apply Hu. right. split; [by apply attrs_get_spec|done].
    + apply attrs_get_None; [done|]. intros [p Hp]%elem_of_names.
      apply Hu in Hp as [Hp|[Hp _]]; apply attrs_get_spec in Hp; congruence || done.
Qed.

(** ** Claims *)

(** C21: the operator [//] yields a sorted set in which a name has the value of
    the right operand, or that of the left operand if the right one lacks it. *)
Theorem update_right_biased R env e1 e2 st st1 st2 a1 a2 :
  evalAttrs R env e1 st = (Ok a1, st1) -> evalAttrs R env e2 st1 = (Ok a2, st2) ->
  sorted_names a1.*1 -> sorted_names a2.*1 -> (Z.of_nat (length a1 + length a2) < 2 ^ 32)%Z ->
  exists l, eval_update R env e1 e2 st = (Ok (VAttrs l), st2) /\ sorted_names l.*1 /\
    forall name, attrs_get name l = match attrs_get name a2 with Some p => Some p | None => attrs_get name a1 end.
Proof.
  intros H1 H2 Hs1 Hs2 Hlen. unfold eval_update, ebind. rewrite H1, H2.
  assert (Hgoal : exists l, (if bool_decide (a1 = []) then ret (VAttrs a2)
    else if bool_decide (a2 = []) then ret (VAttrs a1)
    else let! b := buildBindings (length a1 + length a2) in
         let! b := update_loop (S (length a1 + length a2)) a1 a2 b in
         ret (VAttrs (bb_attrs b))) st2 = (Ok (VAttrs l), st2) /\ updates a1 a2 l).
  { repeat case_bool_decide; subst.
    - exists a2. by split; [|apply updates_nil_l].
    - exists a1. by split; [|apply updates_nil_r].
    - unfold buildBindings. rewrite (proj2 (Z.leb_gt _ _) Hlen). unfold ebind. cbn [ret].
      edestruct (update_loop_eq (S (length a1 + length a2)) a1 a2) as (l & Hu & Hl); [done|done|lia| |].
      + instantiate (1 := mkBuilder (length a1 + length a2) []). simpl. lia.
      + exists l. split; [|done]. unfold ret at 1. rewrite Hu. done. }
  destruct Hgoal as (l & Heq & Hl). exists l. split; [exact Heq|]. split; [apply Hl|]. by apply updates_get.
Qed.
