(* ===== verification/Primops.v ===== *)
(** * Primitive operations (libexpr/primops.cc)

    Primitive operations of the language that compute on values, one
    definition each. *)

From Stdlib Require Import SpecFloat.
From stdpp Require Import gmap.
From S2P Require Import Prelude.
From S2P Require Import Containers.
From S2P Require Import CanonPath.
From S2P Require Import StorePath.
From S2P Require Import Expr.
From S2P Require Import Values.
From S2P Require Import Eval.

(** [std::sort] of strings with payloads. *)
Fixpoint name_insert {A} (x : bytes * A) (l : list (bytes * A)) : list (bytes * A) :=
  match l with
  | [] => [x]
  | y :: l => if kltb x.1 y.1 then x :: y :: l else y :: name_insert x l
  end.
Definition name_sort {A} (l : list (bytes * A)) : list (bytes * A) := foldl (fun l x => name_insert x l) [] l.

(** The classes derived from [AssertionError]. *)
Definition is_AssertionError (f : failure) : bool :=
  match f with Throw AssertionError | Throw ThrownError => true | _ => false end.

Section primops.
Context (R : Rec).

#[local] Notation forceValue := (r_forceValue R).
#[local] Notation forceAttrs := (forceAttrs R).
#[local] Notation forceList := (forceList R).
#[local] Notation forceInt := (forceInt R).
#[local] Notation forceFloat := (forceFloat R).
#[local] Notation forceBool := (forceBool R).
#[local] Notation forceFunction := (forceFunction R).
#[local] Notation forceStringNoCtx := (forceStringNoCtx R).

(** ** Types *)

Definition type_name (v : Value) : M bytes :=
  match type v with
  | nInt => ret (L "int")
  | nBool => ret (L "bool")
  | nString => ret (L "string")
  | nPath => ret (L "path")
  | nNull => ret (L "null")
  | nAttrs => ret (L "set")
  | nList => ret (L "list")
  | nFunction => ret (L "lambda")
  | nFloat => ret (L "float")
  | nThunk => fail AssertFailed
  end.
Definition prim_typeOf (e : addr) : M Value :=
  let! v := forceValue e in
  let! t := type_name v in
  ret (mkString t []).
Definition prim_is (t : ValueType) (e : addr) : M Value :=
  let! v := forceValue e in ret (VBool (bool_decide (type v = t))).

(** ** Control *)

Definition prim_abort (s : addr) : M Value :=
  let! _ := r_coerceToString R s [] false true true in error Abort.
Definition prim_throw (s : addr) : M Value :=
  let! _ := r_coerceToString R s [] false true true in error ThrownError.

Definition prim_tryEval (e : addr) : M Value :=
  let! b := buildBindings 2 in
  let! b :=
    mcatch
      (let! _ := forceValue e in
       let! b := push_back sValue e b in
       let! success := symbols_create (L "success") in
       push_back success vTrue b)
      (fun f =>
         if is_AssertionError f then Some (
           let! b := push_back sValue vFalse b in
           let! success := symbols_create (L "success") in
           push_back success vFalse b)
         else None) in
  ret (VAttrs (attrs_sort (bb_attrs b))).

Definition prim_seq (e1 e2 : addr) : M Value :=
  let! _ := forceValue e1 in forceValue e2.
Definition prim_deepSeq (e1 e2 : addr) : M Value :=
  let! _ := r_forceValueDeep R [] e1 in forceValue e2.

(** ** Sets *)

Definition names_of (b : Bindings) : M (list (bytes * addr)) :=
  mmap (fun kv : Symbol * addr => let! s := symbols_get kv.1 in ret (s, kv.2)) b.

Definition prim_attrNames (set : addr) : M Value :=
  let! b := forceAttrs set in
  let! l := mmap (fun kv : Symbol * addr =>
              let! s := symbols_get kv.1 in
              let! p := allocValue (mkString s []) in
              ret (c_str s, p)) b in
  ret (VList (snd <$> name_sort l)).
Definition prim_attrValues (set : addr) : M Value :=
  let! b := forceAttrs set in
  let! l := names_of b in
  ret (VList (snd <$> name_sort l)).

(** The function [getAttr]. *)
Definition getAttr (name : Symbol) (b : Bindings) : M addr :=
  match attrs_get name b with Some p => ret p | None => error TypeError end.

Definition prim_getAttr (s set : addr) : M Value :=
  let! attr := forceStringNoCtx s in
  let! b := forceAttrs set in
  let! name := symbols_create attr in
  let! i := getAttr name b in
  forceValue i.
Definition prim_hasAttr (s set : addr) : M Value :=
  let! attr := forceStringNoCtx s in
  let! b := forceAttrs set in
  let! name := symbols_create attr in
  ret (VBool (bool_decide (is_Some (attrs_get name b)))).

(** [std::set_difference] of sorted ranges. *)
Fixpoint set_difference (fuel : nat) (b : Bindings) (names : list Symbol) : Bindings :=
  match fuel with
  | 0 => []
  | S fuel =>
      match b, names with
      | [], _ => []
      | _, [] => b
      | (n, p) :: b', m :: names' =>
          if (n <? m)%Z then (n, p) :: set_difference fuel b' names
          else if (m <? n)%Z then set_difference fuel b names'
          else set_difference fuel b' names'
      end
  end.
Fixpoint symbol_insert (x : Symbol) (l : list Symbol) : list Symbol :=
  match l with [] => [x] | y :: l => if (y <=? x)%Z then y :: symbol_insert x l else x :: y :: l end.
Definition prim_removeAttrs (set names : addr) : M Value :=
  let! b := forceAttrs set in
  let! l := forceList names in
  let! syms := mmap (fun e => let! s := forceStringNoCtx e in symbols_create s) l in
  let sorted := foldl (fun l x => symbol_insert x l) [] syms in
  let! attrs := buildBindings (length b) in
  let! attrs := push_all (set_difference (length b + length sorted) b sorted) attrs in
  ret (VAttrs (bb_attrs attrs)).

Fixpoint listToAttrs_loop (l : list addr) (seen : list Symbol) (b : Builder) : M Builder :=
  match l with
  | [] => ret b
  | v2 :: l =>
      let! e := forceAttrs v2 in
      let! j := getAttr sName e in
      let! name := forceStringNoCtx j in
      let! sym := symbols_create name in
      if bool_decide (sym ∈ seen) then listToAttrs_loop l seen b
      else
        let! j2 := getAttr sValue e in
        let! b := push_back sym j2 b in
        listToAttrs_loop l (sym :: seen) b
  end.
Definition prim_listToAttrs (e : addr) : M Value :=
  let! l := forceList e in
  let! b := buildBindings (length l) in
  let! b := listToAttrs_loop l [] b in
  ret (VAttrs (attrs_sort (bb_attrs b))).

Definition prim_intersectAttrs (e1 e2 : addr) : M Value :=
  let! l := forceAttrs e1 in
  let! r := forceAttrs e2 in
  let! b := buildBindings (Nat.min (length l) (length r)) in
  let! b :=
    if (length l <? length r)
    then push_all (omap (fun kv => (fun p => (kv.1, p)) <$> attrs_get kv.1 r) l) b
    else push_all (filter (fun kv => is_Some (attrs_get kv.1 l)) r) b in
  ret (VAttrs (bb_attrs b)).

Fixpoint catAttrs_loop (name : Symbol) (l : list addr) : M (list addr) :=
  match l with
  | [] => ret []
  | v2 :: l =>
      let! b := forceAttrs v2 in
      let! res := catAttrs_loop name l in
      ret (match attrs_get name b with Some p => p :: res | None => res end)
  end.
Definition prim_catAttrs (attr lists : addr) : M Value :=
  let! s := forceStringNoCtx attr in
  let! name := symbols_create s in
  let! l := forceList lists in
  let! res := catAttrs_loop name l in
  ret (VList res).

Definition prim_functionArgs (f : addr) : M Value :=
  let! v := forceValue f in
  match v with
  | VPrimOp _ | VPrimOpApp _ _ => ret (VAttrs [])
  | VLambda _ lambda =>
      match lam_formals lambda with
      | None => ret (VAttrs [])
      | Some fs =>
          let! b := buildBindings (length (fs_formals fs)) in
          let! b := push_all ((fun f => (fm_name f, getBool (bool_decide (is_Some (fm_def f))))) <$> fs_formals fs) b in
          ret (VAttrs (attrs_sort (bb_attrs b)))
      end
  | _ => error TypeError
  end.

Fixpoint mapAttrs_loop (f : addr) (l : Bindings) (b : Builder) : M Builder :=
  match l with
  | [] => ret b
  | (name, value) :: l =>
      let! s := symbols_get name in
      let! vName := allocValue (mkString s []) in
      let! vFun2 := allocValue (VApp f vName) in
      let! p := allocValue (VApp vFun2 value) in
      let! b := push_back name p b in
      mapAttrs_loop f l b
  end.
Definition prim_mapAttrs (f attrset : addr) : M Value :=
  let! l := forceAttrs attrset in
  let! b := buildBindings (length l) in
  let! b := mapAttrs_loop f l b in
  ret (VAttrs (bb_attrs b)).

(** ** Lists *)

(** The index is compared after a conversion to 32 bits. *)
Definition prim_elemAt (xs n : addr) : M Value :=
  let! i := forceInt n in
  let! l := forceList xs in
  if (i <? 0)%Z || (Z.of_nat (length l) <=? u32 i)%Z then error EvalError
  else if (Z.of_nat (length l) <=? i)%Z then fail UndefinedBehaviour
  else match l !! Z.to_nat i with
       | Some p => forceValue p
       | None => fail UndefinedBehaviour
       end.

Definition prim_head (list_ : addr) : M Value :=
  let! l := forceList list_ in
  match l with [] => error EvalError | p :: _ => forceValue p end.
Definition prim_tail (list_ : addr) : M Value :=
  let! l := forceList list_ in
  match l with [] => error EvalError | _ :: l => ret (VList l) end.

Definition prim_map (f list_ : addr) : M Value :=
  let! l := forceList list_ in
  if bool_decide (l = []) then ret (VList l)
  else
    let! _ := forceFunction f in
    let! l := mmap (fun p => allocValue (VApp f p)) l in
    ret (VList l).

(** [callFunction] into a temporary, and [forceBool] of it. *)
Definition call_pred (f : addr) (args : list addr) : M bool :=
  let! v := r_callFunction R f args in
  let! p := allocValue v in
  forceBool p.

Fixpoint filter_loop (f : addr) (l : list addr) : M (list addr) :=
  match l with
  | [] => ret []
  | p :: l =>
      let! b := call_pred f [p] in
      let! vs := filter_loop f l in
      ret (if b then p :: vs else vs)
  end.
Definition prim_filter (f list_ : addr) : M Value :=
  let! l := forceList list_ in
  if bool_decide (l = []) then ret (VList l)
  else
    let! _ := forceFunction f in
    let! vs := filter_loop f l in
    ret (VList vs).

Fixpoint elem_loop (x : addr) (l : list addr) : M bool :=
  match l with
  | [] => ret false
  | p :: l => let! b := r_eqValues R x p in if b then ret true else elem_loop x l
  end.
Definition prim_elem (x xs : addr) : M Value :=
  let! l := forceList xs in let! b := elem_loop x l in ret (VBool b).

Definition prim_concatLists (lists : addr) : M Value :=
  let! l := forceList lists in concatLists R l.
Definition prim_length (e : addr) : M Value :=
  let! l := forceList e in ret (VInt (Z.of_nat (length l))).

Fixpoint foldl_loop (op vCur : addr) (l : list addr) : M addr :=
  match l with
  | [] => ret vCur
  | elem :: l =>
      let! v := r_callFunction R op [vCur; elem] in
      let! vCur := allocValue v in
      foldl_loop op vCur l
  end.
Definition prim_foldlStrict (op nul list_ : addr) : M Value :=
  let! _ := forceFunction op in
  let! l := forceList list_ in
  let! p := foldl_loop op nul l in
  forceValue p.

Fixpoint anyOrAll_loop (any : bool) (f : addr) (l : list addr) : M Value :=
  match l with
  | [] => ret (VBool (negb any))
  | elem :: l =>
      let! res := call_pred f [elem] in
      if Bool.eqb res any then ret (VBool any) else anyOrAll_loop any f l
  end.
Definition anyOrAll (any : bool) (f list_ : addr) : M Value :=
  let! _ := forceFunction f in
  let! l := forceList list_ in
  anyOrAll_loop any f l.

Definition prim_genList (generator length_ : addr) : M Value :=
  let! len := forceInt length_ in
  if (len <? 0)%Z then error EvalError
  else
    let! _ := forceFunction generator in
    let! l := mmap (fun n => let! arg := allocValue (VInt (Z.of_nat n)) in allocValue (VApp generator arg))
                (seq 0 (Z.to_nat len)) in
    ret (VList l).

(** ** Arithmetic *)

Definition arith (fop : spec_float -> spec_float -> spec_float) (iop : Z -> Z -> option Z) (e1 e2 : addr) : M Value :=
  let! v1 := forceValue e1 in
  let! v2 := forceValue e2 in
  if bool_decide (type v1 = nFloat) || bool_decide (type v2 = nFloat) then
    let! f1 := forceFloat e1 in
    let! f2 := forceFloat e2 in
    ret (VFloat (fop f1 f2))
  else
    let! i1 := forceInt e1 in
    let! i2 := forceInt e2 in
    match iop i1 i2 with Some n => ret (VInt n) | None => error EvalError end.
Definition prim_add : addr -> addr -> M Value := arith f64_add checked_add.
Definition prim_sub : addr -> addr -> M Value := arith f64_sub checked_sub.
Definition prim_mul : addr -> addr -> M Value := arith f64_mul checked_mul.
Definition prim_div (e1 e2 : addr) : M Value :=
  let! v1 := forceValue e1 in
  let! v2 := forceValue e2 in
  let! f2 := forceFloat e2 in
  if SFeqb f2 (S754_zero false) then error EvalError
  else if bool_decide (type v1 = nFloat) || bool_decide (type v2 = nFloat) then
    let! f1 := forceFloat e1 in ret (VFloat (f64_div f1 f2))
  else
    let! i1 := forceInt e1 in
    let! i2 := forceInt e2 in
    match checked_div i1 i2 with Some n => ret (VInt n) | None => error EvalError end.

Definition bitop (op : Z -> Z -> Z) (e1 e2 : addr) : M Value :=
  let! i1 := forceInt e1 in
  let! i2 := forceInt e2 in
  ret (VInt (op i1 i2)).

(** [CompareValues]; both values have been forced. *)
Definition compare_list : list addr -> list addr -> M bool :=
  fix go l1 l2 :=
    match l1, l2 with
    | _, [] => ret false
    | [], _ => ret true
    | p1 :: l1, p2 :: l2 =>
        let! eq := r_eqValues R p1 p2 in
        if eq then go l1 l2 else r_compareValues R p1 p2
    end.
Definition compareValues (p1 p2 : addr) : M bool :=
  let! v1 := read p1 in
  let! v2 := read p2 in
  match v1, v2 with
  | VFloat f, VInt n => ret (SFltb f (f64_of_int n))
  | VInt n, VFloat f => ret (SFltb (f64_of_int n) f)
  | VInt n1, VInt n2 => ret (n1 <? n2)%Z
  | VFloat f1, VFloat f2 => ret (SFltb f1 f2)
  | VString s1 _, VString s2 _ => ret (kltb s1 s2)
  | VPath s1, VPath s2 => ret (kltb s1 s2)
  | VList l1, VList l2 => compare_list l1 l2
  | _, _ => error EvalError
  end.
Definition prim_lessThan (e1 e2 : addr) : M Value :=
  let! _ := forceValue e1 in
  let! _ := forceValue e2 in
  let! b := r_compareValues R e1 e2 in
  ret (VBool b).

(** ** Strings *)

Definition prim_toString (e : addr) : M Value :=
  let! (s, context) := r_coerceToString R e [] true false true in ret (mkString s context).

(** The start is compared after a conversion to 32 bits; [substr] throws
    [std::out_of_range]. *)
Definition prim_substring (start len s : addr) : M Value :=
  let! start := forceInt start in
  if (start <? 0)%Z then error EvalError
  else
    let! len := forceInt len in
    let len := if (len <? 0)%Z then (2 ^ 63 - 1)%Z else len in
    let! empty :=
      if (len =? 0)%Z then
        let! v := forceValue s in
        ret (match v with VString _ context => Some context | _ => None end)
      else ret None in
    match empty with
    | Some context => ret (mkString [] context)
    | None =>
        let! (s, context) := r_coerceToString R s [] false true true in
        if (Z.of_nat (length s) <=? u32 start)%Z then ret (mkString [] context)
        else if (Z.of_nat (length s) <? start)%Z then error OutOfRange
        else ret (mkString (take (Z.to_nat (Z.min len (Z.of_nat (length s)))) (drop (Z.to_nat start) s)) context)
    end.

Definition prim_stringLength (e : addr) : M Value :=
  let! (s, _) := r_coerceToString R e [] false true true in ret (VInt (Z.of_nat (length s))).

End primops.
