(* ===== verification/ListPrimops.v ===== *)
(** * Primitive operations on lists that take functions (libexpr/primops.cc)

    [sort], [partition], [groupBy], [concatMap] and [genericClosure]. The order
    in which [std::stable_sort] and [std::set] compare elements is not
    specified; here both scan linearly. The order can only be observed through
    comparisons that fail. *)

From Stdlib Require Import SpecFloat.
From stdpp Require Import gmap.
From S2P Require Import Prelude.
From S2P Require Import Expr.
From S2P Require Import Values.
From S2P Require Import Eval.
From S2P Require Import Primops.

Section list_primops.
Context (R : Rec).

#[local] Notation forceValue := (r_forceValue R).
#[local] Notation forceAttrs := (forceAttrs R).
#[local] Notation forceList := (forceList R).
#[local] Notation forceFunction := (forceFunction R).
#[local] Notation forceStringNoCtx := (forceStringNoCtx R).

(** ** Sorting *)

(** Insertion of [x] into a sorted range, given in reverse. *)
Fixpoint insert_back (lt : addr -> addr -> M bool) (x : addr) (r : list addr) : M (list addr) :=
  match r with
  | [] => ret [x]
  | y :: r' =>
      let! b := lt x y in
      if b then let! r' := insert_back lt x r' in ret (y :: r')
      else ret (x :: r)
  end.
Fixpoint sort_loop (lt : addr -> addr -> M bool) (r l : list addr) : M (list addr) :=
  match l with
  | [] => ret (reverse r)
  | x :: l => let! r := insert_back lt x r in sort_loop lt r l
  end.
Definition std_stable_sort (lt : addr -> addr -> M bool) (l : list addr) : M (list addr) := sort_loop lt [] l.

Definition sort_comparator (f : addr) (a b : addr) : M bool :=
  let! v := read f in
  match v with
  | VPrimOp P_lessThan => r_compareValues R a b
  | _ => call_pred R f [a; b]
  end.

Definition prim_sort (f list_ : addr) : M Value :=
  let! l := forceList list_ in
  if bool_decide (l = []) then ret (VList l)
  else
    let! _ := forceFunction f in
    let! _ := mmap forceValue l in
    let! l := std_stable_sort (sort_comparator f) l in
    ret (VList l).

(** ** Partition, grouping, concatenation *)

Fixpoint partition_loop (f : addr) (l right_ wrong : list addr) : M (list addr * list addr) :=
  match l with
  | [] => ret (right_, wrong)
  | vElem :: l =>
      let! _ := forceValue vElem in
      let! b := call_pred R f [vElem] in
      if b then partition_loop f l (right_ ++ [vElem]) wrong
      else partition_loop f l right_ (wrong ++ [vElem])
  end.
Definition prim_partition (f list_ : addr) : M Value :=
  let! _ := forceFunction f in
  let! l := forceList list_ in
  let! (right_, wrong) := partition_loop f l [] [] in
  let! attrs := buildBindings 2 in
  let! r := allocValue (VList right_) in
  let! attrs := push_back sRight r attrs in
  let! w := allocValue (VList wrong) in
  let! attrs := push_back sWrong w attrs in
  ret (VAttrs (attrs_sort (bb_attrs attrs))).

(** A [std::map] from symbols to vectors. *)
Fixpoint group_add (sym : Symbol) (p : addr) (m : list (Symbol * list addr)) : list (Symbol * list addr) :=
  match m with
  | [] => [(sym, [p])]
  | (k, l) :: m' =>
      if (sym =? k)%Z then (k, l ++ [p]) :: m'
      else if (sym <? k)%Z then (sym, [p]) :: m
      else (k, l) :: group_add sym p m'
  end.
Fixpoint groupBy_loop (f : addr) (l : list addr) (m : list (Symbol * list addr)) : M (list (Symbol * list addr)) :=
  match l with
  | [] => ret m
  | vElem :: l =>
      let! v := r_callFunction R f [vElem] in
      let! res := allocValue v in
      let! name := forceStringNoCtx res in
      let! sym := symbols_create name in
      groupBy_loop f l (group_add sym vElem m)
  end.
Fixpoint groups_insert (m : list (Symbol * list addr)) (b : Builder) : M Builder :=
  match m with
  | [] => ret b
  | (sym, l) :: m =>
      let! p := allocValue (VList l) in
      let! b := push_back sym p b in
      groups_insert m b
  end.
Definition prim_groupBy (f list_ : addr) : M Value :=
  let! _ := forceFunction f in
  let! l := forceList list_ in
  let! m := groupBy_loop f l [] in
  let! b := buildBindings (length m) in
  let! b := groups_insert m b in
  ret (VAttrs (bb_attrs b)).

Definition prim_concatMap (f list_ : addr) : M Value :=
  let! _ := forceFunction f in
  let! l := forceList list_ in
  let! lists := mmap (fun vElem =>
                  let! v := r_callFunction R f [vElem] in
                  let! p := allocValue v in
                  forceList p) l in
  ret (VList (concat lists)).

(** ** Closures *)

(** [doneKeys.insert(key)]: [None] if an equivalent key is there. *)
Fixpoint keys_insert (key : addr) (doneKeys : list addr) : M (option (list addr)) :=
  match doneKeys with
  | [] => ret (Some [key])
  | k :: ks =>
      let! b := r_compareValues R key k in
      if b then ret (Some (key :: doneKeys))
      else
        let! b := r_compareValues R k key in
        if b then
          let! o := keys_insert key ks in
          ret (match o with Some ks => Some (k :: ks) | None => None end)
        else ret None
  end.

(** The loop; [res] in reverse. *)
Definition closure_loop (op : addr) (workSet doneKeys res : list addr) : M (list addr) :=
  match workSet with
  | [] => ret (reverse res)
  | e :: workSet =>
      let! b := forceAttrs e in
      let! key := getAttr sKey b in
      let! _ := forceValue key in
      let! o := keys_insert key doneKeys in
      match o with
      | None => r_closure R op workSet doneKeys res
      | Some doneKeys =>
          let! v := r_callFunction R op [e] in
          let! newElements := allocValue v in
          let! l := forceList newElements in
          let! _ := mmap forceValue l in
          r_closure R op (workSet ++ l) doneKeys (e :: res)
      end
  end.

Definition prim_genericClosure (arg : addr) : M Value :=
  let! b := forceAttrs arg in
  let! startSet := getAttr sStartSet b in
  let! l := forceList startSet in
  if bool_decide (l = []) then ret (VList l)
  else
    let! op := getAttr sOperator b in
    let! _ := forceFunction op in
    let! res := r_closure R op l [] [] in
    ret (VList res).
End list_primops.
