(* ===== verification/StringPrimops.v ===== *)
(** * Primitive operations on strings, names, paths and floats (libexpr/primops.cc)

    [concatStringsSep], [replaceStrings], [parseDrvName], [splitVersion],
    [baseNameOf], [dirOf], [ceil] and [floor]. *)

From Stdlib Require Import SpecFloat.
From stdpp Require Import gmap.
From S2P Require Import Prelude.
From S2P Require Import Containers.
From S2P Require Import CanonPath.
From S2P Require Import Names.
From S2P Require Import Expr.
From S2P Require Import Values.
From S2P Require Import Eval.
From S2P Require Import Primops.

(** [legacyBaseNameOf]: one trailing slash is ignored. *)
Definition legacyBaseNameOf (path : bytes) : bytes :=
  if bool_decide (path = []) then []
  else
    let last := length path - 1 in
    let last := if char_eqb (nth last path NUL) slash && (0 <? last) then last - 1 else last in
    let pos := match rfind_char slash (take (last + 1) path) with None => 0 | Some pos => pos + 1 end in
    substr path pos (last + 1 - pos).

(** [floor] and [ceil] of a double, exactly; infinities and NaN have none. *)
Definition float_floor (f : spec_float) : option Z :=
  match f with
  | S754_zero _ => Some 0%Z
  | S754_finite s m e =>
      let z := if s then Zneg m else Zpos m in
      Some (if (0 <=? e)%Z then z * 2 ^ e else z / 2 ^ (- e))%Z
  | _ => None
  end.
Definition float_ceil (f : spec_float) : option Z :=
  match f with
  | S754_zero _ => Some 0%Z
  | S754_finite s m e =>
      let z := if s then Zneg m else Zpos m in
      Some (if (0 <=? e)%Z then z * 2 ^ e else - ((- z) / 2 ^ (- e)))%Z
  | _ => None
  end.
(** Conversion to [int64_t], undefined out of range. *)
Definition float_to_int (o : option Z) : M Value :=
  match o with
  | Some n => if i64_fits n then ret (VInt n) else fail UndefinedBehaviour
  | None => fail UndefinedBehaviour
  end.

(** The loop of [splitVersion]. *)
Fixpoint version_components (fuel : nat) (s : bytes) : list bytes :=
  match fuel, s with
  | S fuel, _ :: _ =>
      let '(component, rest) := nextComponent s in
      if bool_decide (component = []) then [] else component :: version_components fuel rest
  | _, _ => []
  end.

(** The first of the strings [from] that occurs at position [p] of [s], with
    its index. *)
Fixpoint find_from (s : bytes) (p : nat) (from : list bytes) (j_index : nat) : option (nat * bytes) :=
  match from with
  | [] => None
  | i :: from =>
      if bool_decide (substr s p (length i) = i) then Some (j_index, i) else find_from s p from (S j_index)
  end.
Fixpoint cache_find (j_index : nat) (cache : list (nat * bytes)) : option bytes :=
  match cache with
  | [] => None
  | (j, s) :: cache => if (j =? j_index) then Some s else cache_find j_index cache
  end.
(** [if (p < s.size()) res += s\[p\]] *)
Definition char_at (s : bytes) (p : nat) : bytes := take 1 (drop p s).

Section string_primops.
Context (R : Rec).

#[local] Notation forceValue := (r_forceValue R).
#[local] Notation forceList := (forceList R).
#[local] Notation forceFloat := (forceFloat R).
#[local] Notation forceString := (forceString R).
#[local] Notation forceStringNoCtx := (forceStringNoCtx R).

Definition prim_ceil (e : addr) : M Value := let! f := forceFloat e in float_to_int (float_ceil f).
Definition prim_floor (e : addr) : M Value := let! f := forceFloat e in float_to_int (float_floor f).

Definition prim_baseNameOf (e : addr) : M Value :=
  let! (s, context) := r_coerceToString R e [] false false true in
  ret (mkString (legacyBaseNameOf s) context).
Definition prim_dirOf (e : addr) : M Value :=
  let! v := forceValue e in
  match v with
  | VPath path =>
      if isRoot path then ret (VPath path)
      else match parent path with Some p => ret (VPath p) | None => fail AssertFailed end
  | _ =>
      let! (s, context) := r_coerceToString R e [] false false true in
      ret (mkString (dirOf s) context)
  end.

Definition prim_parseDrvName (e : addr) : M Value :=
  let! s := forceStringNoCtx e in
  let parsed := DrvName_parse s in
  let! attrs := buildBindings 2 in
  let! n := allocValue (mkString (name parsed) []) in
  let! attrs := push_back sName n attrs in
  let! sVersion := symbols_create (L "version") in
  let! v := allocValue (mkString (version parsed) []) in
  let! attrs := push_back sVersion v attrs in
  ret (VAttrs (attrs_sort (bb_attrs attrs))).
Definition prim_splitVersion (e : addr) : M Value :=
  let! s := forceStringNoCtx e in
  let! l := mmap (fun c => allocValue (mkString c [])) (version_components (length s) s) in
  ret (VList l).

Fixpoint concatSep_loop (sep : bytes) (first : bool) (l : list addr) (res : bytes) (context : list bytes) :
    M (bytes * list bytes) :=
  match l with
  | [] => ret (res, context)
  | elem :: l =>
      let res := if first then res else res ++ sep in
      let! (s, context) := r_coerceToString R elem context false true true in
      concatSep_loop sep false l (res ++ s) context
  end.
Definition prim_concatStringsSep (sep list_ : addr) : M Value :=
  let! (sep, context) := forceString sep in
  let! l := forceList list_ in
  let! (res, context) := concatSep_loop sep true l [] context in
  ret (mkString res context).

(** The string to put for the pattern number [j_index]. *)
Definition replacement (to : list addr) (j_index : nat) (cache : list (nat * bytes)) (context : list bytes) :
    M (bytes * list (nat * bytes) * list bytes) :=
  match cache_find j_index cache with
  | Some s => ret (s, cache, context)
  | None =>
      match to !! j_index with
      | None => fail UndefinedBehaviour
      | Some j =>
          let! (ts, ctx) := forceString j in
          ret (ts, (j_index, ts) :: cache, sset_union context ctx)
      end
  end.

Fixpoint replace_loop (fuel : nat) (from : list bytes) (to : list addr) (s : bytes) (p : nat)
    (cache : list (nat * bytes)) (context : list bytes) (res : bytes) : M (bytes * list bytes) :=
  match fuel with
  | 0 => fail OutOfFuel
  | S fuel =>
      if (length s <? p) then ret (res, context)
      else
        match find_from s p from 0 with
        | Some (j_index, i) =>
            let! (v, cache, context) := replacement to j_index cache context in
            if bool_decide (i = []) then replace_loop fuel from to s (p + 1) cache context (res ++ v ++ char_at s p)
            else replace_loop fuel from to s (p + length i) cache context (res ++ v)
        | None => replace_loop fuel from to s (p + 1) cache context (res ++ char_at s p)
        end
  end.

Definition prim_replaceStrings (from to s : addr) : M Value :=
  let! from := forceList from in
  let! to := forceList to in
  if negb (length from =? length to) then error EvalError
  else
    let! from := mmap (fun elem => let! (s, _) := forceString elem in ret s) from in
    let! (s, context) := forceString s in
    let! (res, context) := replace_loop (length s + 2) from to s 0 [] context [] in
    ret (mkString res context).
End string_primops.
