(* ===== verification/Evaluator.v ===== *)
(** * The evaluator as a whole (libexpr/eval.cc, primops.cc)

    The table of primitive operations, the recursion of the evaluator tied with
    fuel, the state after start-up and [EvalState::eval]. *)

From Stdlib Require Import SpecFloat.
From stdpp Require Import gmap.
From S2P Require Import Prelude.
From S2P Require Import Containers.
From S2P Require Import CanonPath.
From S2P Require Import StorePath.
From S2P Require Import Expr.
From S2P Require Import Values.
From S2P Require Import Eval.
From S2P Require Import Primops.
From S2P Require Import ListPrimops.
From S2P Require Import StringPrimops.

(** ** The table of primitive operations *)

Section table.
Context (R : Rec).

Definition call_primop (p : builtin) (args : list addr) : M Value :=
  match p, args with
  | P_typeOf, [e] => prim_typeOf R e
  | P_isNull, [e] => prim_is R nNull e
  | P_isFunction, [e] => prim_is R nFunction e
  | P_isInt, [e] => prim_is R nInt e
  | P_isFloat, [e] => prim_is R nFloat e
  | P_isString, [e] => prim_is R nString e
  | P_isBool, [e] => prim_is R nBool e
  | P_isPath, [e] => prim_is R nPath e
  | P_isAttrs, [e] => prim_is R nAttrs e
  | P_isList, [e] => prim_is R nList e
  | P_abort, [s] => prim_abort R s
  | P_throw, [s] => prim_throw R s
  | P_tryEval, [e] => prim_tryEval R e
  | P_seq, [e1; e2] => prim_seq R e1 e2
  | P_deepSeq, [e1; e2] => prim_deepSeq R e1 e2
  | P_attrNames, [s] => prim_attrNames R s
  | P_attrValues, [s] => prim_attrValues R s
  | P_getAttr, [s; set] => prim_getAttr R s set
  | P_hasAttr, [s; set] => prim_hasAttr R s set
  | P_removeAttrs, [s; l] => prim_removeAttrs R s l
  | P_listToAttrs, [e] => prim_listToAttrs R e
  | P_intersectAttrs, [e1; e2] => prim_intersectAttrs R e1 e2
  | P_catAttrs, [a; l] => prim_catAttrs R a l
  | P_functionArgs, [f] => prim_functionArgs R f
  | P_mapAttrs, [f; s] => prim_mapAttrs R f s
  | P_elemAt, [xs; n] => prim_elemAt R xs n
  | P_head, [l] => prim_head R l
  | P_tail, [l] => prim_tail R l
  | P_map, [f; l] => prim_map R f l
  | P_filter, [f; l] => prim_filter R f l
  | P_elem, [x; l] => prim_elem R x l
  | P_concatLists, [l] => prim_concatLists R l
  | P_length, [e] => prim_length R e
  | P_foldlStrict, [op; nul; l] => prim_foldlStrict R op nul l
  | P_any, [f; l] => anyOrAll R true f l
  | P_all, [f; l] => anyOrAll R false f l
  | P_genList, [f; n] => prim_genList R f n
  | P_add, [e1; e2] => prim_add R e1 e2
  | P_sub, [e1; e2] => prim_sub R e1 e2
  | P_mul, [e1; e2] => prim_mul R e1 e2
  | P_div, [e1; e2] => prim_div R e1 e2
  | P_bitAnd, [e1; e2] => bitop R Z.land e1 e2
  | P_bitOr, [e1; e2] => bitop R Z.lor e1 e2
  | P_bitXor, [e1; e2] => bitop R Z.lxor e1 e2
  | P_lessThan, [e1; e2] => prim_lessThan R e1 e2
  | P_toString, [e] => prim_toString R e
  | P_substring, [a; l; s] => prim_substring R a l s
  | P_stringLength, [e] => prim_stringLength R e
  | P_sort, [f; l] => prim_sort R f l
  | P_partition, [f; l] => prim_partition R f l
  | P_groupBy, [f; l] => prim_groupBy R f l
  | P_concatMap, [f; l] => prim_concatMap R f l
  | P_genericClosure, [s] => prim_genericClosure R s
  | P_concatStringsSep, [s; l] => prim_concatStringsSep R s l
  | P_replaceStrings, [from; to; s] => prim_replaceStrings R from to s
  | P_parseDrvName, [e] => prim_parseDrvName R e
  | P_splitVersion, [e] => prim_splitVersion R e
  | P_baseNameOf, [e] => prim_baseNameOf R e
  | P_dirOf, [e] => prim_dirOf R e
  | P_ceil, [e] => prim_ceil R e
  | P_floor, [e] => prim_floor R e
  | _, _ => fail UndefinedBehaviour
  end.
End table.

(** ** The knot *)

Section knot.
Context (maxCallDepth : nat) (storeDir : bytes) (fetchToStore : bytes -> result StorePath).

Definition no_fuel : Rec :=
  mkRec (fun _ _ => fail OutOfFuel) (fun _ => fail OutOfFuel) (fun _ _ => fail OutOfFuel)
    (fun _ _ => fail OutOfFuel) (fun _ _ => fail OutOfFuel) (fun _ _ => fail OutOfFuel)
    (fun _ _ _ _ _ => fail OutOfFuel) (fun _ _ => fail OutOfFuel) (fun _ _ => fail OutOfFuel)
    (fun _ _ _ _ => fail OutOfFuel).

Definition unfold_rec (R : Rec) : Rec :=
  mkRec (eval R) (forceValue R) (callFunction R maxCallDepth) (call_primop R) (eqValues R) (assertEqValues R)
    (coerceToString R storeDir fetchToStore) (compareValues R) (forceValueDeep R)
    (closure_loop R).

Fixpoint evaluator (fuel : nat) : Rec :=
  match fuel with
  | 0 => no_fuel
  | S fuel => unfold_rec (evaluator fuel)
  end.

(** The state after the constructor of [EvalState], with the primitive
    operations [prims] in the base environment, in this order. *)
Definition base_values (prims : list builtin) : list Value :=
  [VList []; VNull; VBool true; VBool false] ++ (VPrimOp <$> prims).
Definition initial_state (prims : list builtin) (symbols : list bytes) : EvalState :=
  mkEvalState
    (list_to_map (zip (N.of_nat <$> seq 0 (length (base_values prims))) (base_values prims)))
    (N.of_nat (length (base_values prims)))
    {[ 0%N := mkEnv None ((fun i => Some (N.of_nat i)) <$> seq 1 (3 + length prims)) ]}
    1 (init_symbols ++ symbols) 0 [].

(** [EvalState::eval] of an expression in the base environment. *)
Definition eval_expr (fuel : nat) (staticBaseEnv : StaticEnv) (e : Expr) : M Value :=
  let! e := lift (bindVars staticBaseEnv e) in
  r_eval (evaluator fuel) 0%N e.
End knot.
