(* ===== verification/EvalInv.v ===== *)
(** * Invariant of the evaluator's state, and rules for its operations

    A world types a state: the shapes of the environments that code may refer
    to, the number of values and symbols, and the values that are never
    overwritten (the heads of partial applications of primitive operations).
    Worlds only grow. [safe F w m Q]: from a state that the world [w]
    describes, [m] never fails an assertion nor meets undefined behaviour, the
    environments in [F], which no code refers to yet, are not modified, and if [m] returns [a], a larger
    world describes the state, and [Q] holds of it and of [a]. A failure that
    [builtins.tryEval] catches leaves such a state, too. *)

From Stdlib Require Import SpecFloat Sorting.Sorted.
From stdpp Require Import gmap.
From S2P Require Import Prelude.
From S2P Require Import Containers.
From S2P Require Import StorePath.
From S2P Require Import Expr.
From S2P Require Import Scoping.
From S2P Require Import Values.
From S2P Require Import Eval.
From S2P Require Import Primops.
From S2P Require Import ListPrimops.
From S2P Require Import StringPrimops.
From S2P Require Import Evaluator.

(** ** Worlds *)

Record world := mkWorld {
  w_shapes : gmap addr (list Shape);
  w_frozen : gmap addr Value;
  w_next : addr;
  w_symbols : list bytes;
}.

(** [w'] comes later than [w]. *)
Record later (w w' : world) : Prop := {
  later_shapes : w_shapes w ⊆ w_shapes w';
  later_frozen : forall p, (p < w_next w)%N -> w_frozen w' !! p = w_frozen w !! p;
  later_next : (w_next w <= w_next w')%N;
  later_symbols : w_symbols w `prefix_of` w_symbols w';
}.

Definition vaddr (w : world) (p : addr) : Prop := (p < w_next w)%N.
Definition venv (w : world) (e : addr) (S : list Shape) : Prop := w_shapes w !! e = Some S.
Definition vsym (w : world) (s : Symbol) : Prop := valid_symbol (length (w_symbols w)) s.
Definition vexpr (w : world) (S : list Shape) (e : Expr) : Prop := wf true (length (w_symbols w)) S e.

Record vbindings (w : world) (b : Bindings) : Prop := {
  vb_sorted : sorted_names b.*1;
  vb_syms : Forall (vsym w) b.*1;
  vb_addrs : Forall (vaddr w) b.*2;
}.

(** [p] applied to [n] arguments. *)
Inductive chain (w : world) : addr -> builtin -> nat -> Prop :=
| chain_head l p : vaddr w l -> w_frozen w !! l = Some (VPrimOp p) -> chain w l p 0
| chain_app l l' r p n :
    vaddr w l -> w_frozen w !! l = Some (VPrimOpApp l' r) -> chain w l' p n -> vaddr w r -> chain w l p (S n).

Definition lambda_expr (f : Lambda) : Expr := ExprLambda (lam_arg f) (lam_formals f) (lam_body f).

(** Every primitive operation but [elemAt], [ceil] and [floor]. *)
Definition allowed (p : builtin) : Prop :=
  match p with P_elemAt | P_ceil | P_floor => False | _ => True end.

Definition vvalue (w : world) (v : Value) : Prop :=
  match v with
  | VAttrs b => vbindings w b
  | VList l => Forall (vaddr w) l
  | VThunk env e => exists S, venv w env S /\ vexpr w S e
  | VLambda env f => exists S, venv w env S /\ vexpr w S (lambda_expr f)
  | VApp l r => vaddr w l /\ vaddr w r
  | VPrimOp p => allowed p
  | VPrimOpApp l r => exists p n, chain w l p n /\ S n < arity p /\ allowed p /\ vaddr w r
  | _ => True
  end.

Definition whnf (v : Value) : Prop := type v <> nThunk.

(** Slots from [U !! e] on of environment [e] may still be null. *)
Definition venv_object (U : gmap addr nat) (w : world) (st : EvalState) (e : addr) (S : list Shape) : Prop :=
  exists s up env, S = s :: up /\ es_envs st !! e = Some env /\
    length (env_values env) = shape_size s /\
    (up = [] \/ exists b, env_up env = Some b /\ venv w b up) /\
    forall i o, env_values env !! i = Some o ->
      match o with Some p => vaddr w p | None => exists n, U !! e = Some n /\ n <= i end.

Record valid (U : gmap addr nat) (w : world) (st : EvalState) : Prop := {
  valid_next : es_nextValue st = w_next w;
  valid_value : forall p, vaddr w p -> exists v, es_values st !! p = Some v /\ vvalue w v;
  valid_unused : forall p, (w_next w <= p)%N -> es_values st !! p = None;
  valid_frozen : w_frozen w ⊆ es_values st;
  valid_frozen_whnf : forall p v, w_frozen w !! p = Some v -> whnf v;
  valid_symbols : es_symbols st = w_symbols w;
  valid_init : init_symbols `prefix_of` w_symbols w;
  valid_constants : (4 <= w_next w)%N;
  valid_fresh : forall e, (es_nextEnv st <= e)%N -> w_shapes w !! e = None /\ es_envs st !! e = None /\ U !! e = None;
  valid_env : forall e S, venv w e S -> venv_object U w st e S;
}.

(** ** Later worlds *)

#[export] Instance later_preorder : PreOrder later.
Proof.
  split.
  - intros w. split; [done|done|lia|done].
  - intros w1 w2 w3 [S1 F1 N1 Y1] [S2 F2 N2 Y2]. split; [by etrans|..|lia|by etrans].
    intros p Hp. rewrite F2 by lia. by apply F1.
Qed.

Lemma wf_more_symbols N : forall S e N', N <= N' -> wf true N S e -> wf true N' S e.
Proof.
  intros S e N' HN. assert (Hv : forall s, valid_symbol N s -> valid_symbol N' s) by (unfold valid_symbol; lia).
  assert (Ha : forall (from : option (list Expr)) attrs, attrs_ok N from attrs -> attrs_ok N' from attrs).
  { intros from attrs (? & ? & ?). split_and!; [done| |done]. by eapply Forall_impl. }
  revert S. induction e using Expr_nested_ind; intros S; simpl; try done.
  - intros (? & ? & ?). split_and!; [by apply IHe| |].
    + eapply all_path_mp; [exact H|done|]. auto.
    + eapply all_option_mp; [exact H0|done|]. auto.
  - intros (? & ?). split_and!; [by apply IHe|]. eapply all_path_mp; [exact H|done|]. auto.
  - intros ((? & ?) & ? & ? & ?). split_and!; [by apply Ha|done|..].
    + eapply all_attrs_mp; [exact H|done|]. simpl. auto.
    + eapply all_from_mp; [exact H0|done|]. auto.
    + eapply all_dynamic_mp; [exact H1|done|]. auto.
  - intros ?. eapply all_list_mp; [exact H|done|]. auto.
  - intros [? ?]. split; [done|]. by apply IHe.
  - intros [[[? ?] ?] ?]. split; [|by apply IHe]. split; [split; [done|by eapply Forall_impl]|].
    eapply all_formals_mp; [exact H|done|]. auto.
  - intros [? ?]. split; [by apply IHe|]. eapply all_list_mp; [exact H|done|]. auto.
  - intros (? & ? & ? & ?). split_and!; [by apply Ha|..|by apply IHe].
    + eapply all_attrs_mp; [exact H|done|]. simpl. auto.
    + eapply all_from_mp; [exact H0|done|]. auto.
  - intros [? ?]. auto.
  - intros (? & ? & ?). auto.
  - intros [? ?]. auto.
  - auto.
  - intros [? ?]. auto.
  - intros ?. eapply all_list_mp; [exact H|done|]. auto.
Qed.

Section later.
Context {w w' : world} (Hle : later w w').

Lemma vaddr_later p : vaddr w p -> vaddr w' p.
Proof. unfold vaddr. destruct Hle. lia. Qed.
Lemma vaddrs_later l : Forall (vaddr w) l -> Forall (vaddr w') l.
Proof. intros H. eapply Forall_impl; [exact H|apply vaddr_later]. Qed.
Lemma venv_later e S : venv w e S -> venv w' e S.
Proof. unfold venv. intros H. eapply lookup_weaken; [exact H|apply Hle]. Qed.
Lemma symbols_later : length (w_symbols w) <= length (w_symbols w').
Proof. destruct Hle. by apply prefix_length. Qed.
Lemma vsym_later s : vsym w s -> vsym w' s.
Proof. unfold vsym, valid_symbol. assert (H := symbols_later). lia. Qed.
Lemma vsyms_later l : Forall (vsym w) l -> Forall (vsym w') l.
Proof. intros H. eapply Forall_impl; [exact H|apply vsym_later]. Qed.
Lemma vexpr_later S e : vexpr w S e -> vexpr w' S e.
Proof. apply wf_more_symbols, symbols_later. Qed.
Lemma vbindings_later b : vbindings w b -> vbindings w' b.
Proof. intros [? ? ?]. split; [done|by apply vsyms_later|by apply vaddrs_later]. Qed.
Lemma chain_later l p n : chain w l p n -> chain w' l p n.
Proof.
  induction 1 as [l p Hl Hf|l l' r p n Hl Hf Hc IH Hr].
  - constructor; [by apply vaddr_later|]. by rewrite (later_frozen _ _ Hle).
  - econstructor; [by apply vaddr_later| |done|by apply vaddr_later]. by rewrite (later_frozen _ _ Hle).
Qed.
Lemma vvalue_later v : vvalue w v -> vvalue w' v.
Proof.
  destruct v; simpl; try done.
  - apply vbindings_later.
  - apply vaddrs_later.
  - intros (S & ? & ?). eauto using venv_later, vexpr_later.
  - intros [? ?]. eauto using vaddr_later.
  - intros (S & ? & ?). eauto using venv_later, vexpr_later.
  - intros (p & n & ? & ? & ? & ?). eauto 10 using chain_later, vaddr_later.
Qed.
Lemma vexprs_later S l : all_list (vexpr w S) l -> all_list (vexpr w' S) l.
Proof. intros H. eapply all_list_mp; [exact H|exact H|]. eauto using vexpr_later. Qed.
Lemma vpath_later S l : all_path (vexpr w S) l -> all_path (vexpr w' S) l.
Proof. intros H. eapply all_path_mp; [exact H|exact H|]. eauto using vexpr_later. Qed.
Lemma voption_later S l : all_option (vexpr w S) l -> all_option (vexpr w' S) l.
Proof. intros H. eapply all_option_mp; [exact H|exact H|]. eauto using vexpr_later. Qed.
Lemma vfrom_later S l : all_from (vexpr w S) l -> all_from (vexpr w' S) l.
Proof. intros H. eapply all_from_mp; [exact H|exact H|]. eauto using vexpr_later. Qed.
Lemma vformals_later S l : all_formals (vexpr w S) l -> all_formals (vexpr w' S) l.
Proof. intros H. eapply all_formals_mp; [exact H|exact H|]. eauto using vexpr_later. Qed.
Lemma vdynamic_later S l : all_dynamic (vexpr w S) l -> all_dynamic (vexpr w' S) l.
Proof. intros H. eapply all_dynamic_mp; [exact H|exact H|]. eauto using vexpr_later. Qed.
Lemma vattrs_later S l : all_attrs (fun k => vexpr w (S k)) l -> all_attrs (fun k => vexpr w' (S k)) l.
Proof. intros H. eapply all_attrs_mp; [exact H|exact H|]. simpl. eauto using vexpr_later. Qed.
End later.

(** Move the facts about a world to a later one. *)
Ltac to_later Hle :=
  let w := lazymatch type of Hle with later ?w _ => w end in
  cbv beta in *;
  repeat match goal with
  | H : vaddr w _ |- _ => apply (vaddr_later Hle) in H
  | H : Forall (vaddr w) _ |- _ => apply (vaddrs_later Hle) in H
  | H : venv w _ _ |- _ => apply (venv_later Hle) in H
  | H : vsym w _ |- _ => apply (vsym_later Hle) in H
  | H : Forall (vsym w) _ |- _ => apply (vsyms_later Hle) in H
  | H : vexpr w _ _ |- _ => apply (vexpr_later Hle) in H
  | H : vbindings w _ |- _ => apply (vbindings_later Hle) in H
  | H : chain w _ _ _ |- _ => apply (chain_later Hle) in H
  | H : vvalue w _ |- _ => apply (vvalue_later Hle) in H
  | H : all_list (vexpr w _) _ |- _ => apply (vexprs_later Hle) in H
  | H : all_path (vexpr w _) _ |- _ => apply (vpath_later Hle) in H
  | H : all_option (vexpr w _) _ |- _ => apply (voption_later Hle) in H
  | H : all_from (vexpr w _) _ |- _ => apply (vfrom_later Hle) in H
  | H : all_formals (vexpr w _) _ |- _ => apply (vformals_later Hle) in H
  | H : all_dynamic (vexpr w _) _ |- _ => apply (vdynamic_later Hle) in H
  | H : all_attrs (fun k => vexpr w _) _ |- _ => apply (vattrs_later Hle) in H
  end.

(** ** Triples *)

Definition benign (f : failure) : Prop := f <> UndefinedBehaviour /\ f <> AssertFailed.

(** The environments [F] are there, and unknown to the world. *)
Definition framed (F : gmap addr Env) (w : world) (st : EvalState) : Prop :=
  F ⊆ es_envs st /\ forall e, is_Some (F !! e) -> w_shapes w !! e = None.

Definition outcome {A} (F : gmap addr Env) (w : world) (r : result A * EvalState)
    (Q : gmap addr nat -> world -> A -> Prop) : Prop :=
  match r with
  | (Ok a, st) => exists U' w', later w w' /\ valid U' w' st /\ framed F w' st /\ Q U' w' a
  | (Err f, st) =>
      benign f /\
      (is_AssertionError f = true -> exists w', later w w' /\ valid ∅ w' st /\ framed F w' st)
  end.

Definition safeU {A} (F : gmap addr Env) (U : gmap addr nat) (w : world) (m : M A)
    (Q : gmap addr nat -> world -> A -> Prop) : Prop :=
  forall st, valid U w st -> framed F w st -> outcome F w (m st) Q.

Definition safe {A} (F : gmap addr Env) (w : world) (m : M A) (Q : world -> A -> Prop) : Prop :=
  safeU F ∅ w m (fun U' w' a => U' = ∅ /\ Q w' a).

Section rules.
Context {F : gmap addr Env}.

Lemma outcome_later {A} w w' (r : result A * EvalState) Q : later w w' -> outcome F w' r Q -> outcome F w r Q.
Proof.
  intros Hle. destruct r as [[a|f] st]; simpl.
  - intros (U' & w2 & ? & ?). exists U', w2. split; [by etrans|done].
  - intros [? H]. split; [done|]. intros Hf. destruct (H Hf) as (w2 & ? & ?). exists w2. split; [by etrans|done].
Qed.
Lemma outcome_mono {A} w (r : result A * EvalState) (P Q : gmap addr nat -> world -> A -> Prop) :
  outcome F w r P -> (forall U' w' a, later w w' -> P U' w' a -> Q U' w' a) -> outcome F w r Q.
Proof.
  intros H HPQ. destruct r as [[a|f] st]; simpl in *; [|done].
  destruct H as (U' & w2 & ? & ? & ? & ?). exists U', w2. eauto.
Qed.

Lemma safeU_mono {A} U w (m : M A) (P Q : gmap addr nat -> world -> A -> Prop) :
  safeU F U w m P -> (forall U' w' a, later w w' -> P U' w' a -> Q U' w' a) -> safeU F U w m Q.
Proof. intros H HPQ st ? ?. eapply outcome_mono; [by apply H|done]. Qed.
Lemma safe_mono {A} w (m : M A) (P Q : world -> A -> Prop) :
  safe F w m P -> (forall w' a, later w w' -> P w' a -> Q w' a) -> safe F w m Q.
Proof. intros H HPQ. eapply safeU_mono; [exact H|]. intros U' w' a Hle [? ?]. auto. Qed.

Lemma safeU_bind {A B} U w (m : M A) (k : A -> M B) P Q :
  safeU F U w m P -> (forall U' w' a, later w w' -> P U' w' a -> safeU F U' w' (k a) Q) ->
  safeU F U w (ebind m k) Q.
Proof.
  intros Hm Hk st Hst HF. unfold ebind. specialize (Hm st Hst HF).
  destruct (m st) as [[a|f] st']; simpl in Hm; [|done].
  destruct Hm as (U' & w' & Hle & Hv & HF' & HP). eapply outcome_later; [exact Hle|]. by apply (Hk U').
Qed.
Lemma safe_bind {A B} w (m : M A) (k : A -> M B) P Q :
  safe F w m P -> (forall w' a, later w w' -> P w' a -> safe F w' (k a) Q) -> safe F w (ebind m k) Q.
Proof.
  intros Hm Hk. eapply safeU_bind; [exact Hm|]. intros U' w' a Hle [-> HP]. by apply Hk.
Qed.
Lemma safeU_ret {A} U w (a : A) (Q : gmap addr nat -> world -> A -> Prop) : Q U w a -> safeU F U w (ret a) Q.
Proof. intros HQ st Hst HF. exists U, w. done. Qed.
Lemma safe_ret {A} w (a : A) (Q : world -> A -> Prop) : Q w a -> safe F w (ret a) Q.
Proof. intros HQ. by apply safeU_ret. Qed.
Lemma safe_error {A} w e (Q : world -> A -> Prop) : safe F w (error e) Q.
Proof. intros st Hst HF. split; [done|]. intros _. by exists w. Qed.
Lemma safeU_error {A} U w e (Q : gmap addr nat -> world -> A -> Prop) :
  is_AssertionError (Throw e) = false -> safeU F U w (error e) Q.
Proof. intros He st Hst HF. split; [done|]. by rewrite He. Qed.
Lemma safe_fuel {A} w (Q : world -> A -> Prop) : safe F w (fail OutOfFuel) Q.
Proof. intros st Hst HF. by split. Qed.
Lemma safe_lift {A} w (r : result A) (Q : world -> A -> Prop) :
  match r with Ok a => Q w a | Err f => benign f end -> safe F w (lift r) Q.
Proof.
  intros Hr st Hst HF. unfold lift. destruct r as [a|f]; simpl; [by exists ∅, w|].
  split; [done|]. intros _. by exists w.
Qed.

(** ** Memory *)

Lemma safeU_read U w p : vaddr w p -> safeU F U w (read p) (fun U' w' v => U' = U /\ vvalue w' v).
Proof.
  intros Hp st Hst HF. unfold read. destruct (valid_value _ _ _ Hst p Hp) as (v & -> & Hv). by exists U, w.
Qed.
Lemma safe_read w p : vaddr w p -> safe F w (read p) vvalue.
Proof. apply safeU_read. Qed.

Definition w_alloc (w : world) (o : option Value) : world :=
  mkWorld (w_shapes w) (match o with Some v => <[w_next w := v]> (w_frozen w) | None => w_frozen w end)
    (w_next w + 1) (w_symbols w).

Lemma w_alloc_later w o : later w (w_alloc w o).
Proof.
  split; simpl; [done|..|lia|done]. intros p Hp. destruct o; [|done]. rewrite lookup_insert_ne by lia. done.
Qed.

Lemma venv_object_later U U' w w' st st' e S :
  later w w' -> es_envs st' !! e = es_envs st !! e -> U' !! e = U !! e ->
  venv_object U w st e S -> venv_object U' w' st' e S.
Proof.
  intros Hle He HU (s & up & env & -> & Henv & Hl & Hup & Hi). exists s, up, env. rewrite He.
  split_and!; [done..| |].
  - destruct Hup as [?|(b & ? & ?)]; [by left|]. right. exists b. eauto using venv_later.
  - intros i [p|] Hp; specialize (Hi _ _ Hp); simpl in Hi; [by eapply vaddr_later|by rewrite HU].
Qed.

Lemma alloc_valid U w st v o :
  valid U w st -> (forall v', o = Some v' -> v' = v /\ whnf v) -> vvalue (w_alloc w o) v ->
  valid U (w_alloc w o) (allocValue v st).2.
Proof.
  intros Hst Ho Hv. assert (Hle := w_alloc_later w o). destruct Hst. split; simpl; try done.
  - congruence.
  - intros p Hp. unfold vaddr in Hp. simpl in Hp. rewrite valid_next0. destruct (decide (p = w_next w)) as [->|].
    + exists v. by rewrite lookup_insert_eq.
    + rewrite lookup_insert_ne by done. destruct (valid_value0 p) as (v' & ? & ?); [unfold vaddr; lia|].
      exists v'. split; [done|by eapply vvalue_later].
  - intros p Hp. rewrite valid_next0, lookup_insert_ne by lia. apply valid_unused0. lia.
  - rewrite valid_next0. destruct o as [v'|]; [destruct (Ho v' eq_refl) as [-> _]; by apply insert_mono|].
    etrans; [exact valid_frozen0|]. apply insert_subseteq. apply valid_unused0. lia.
  - intros p v'. destruct o as [v''|]; [|by apply valid_frozen_whnf0].
    intros [[<- <-]|[_ ?]]%lookup_insert_Some; [by destruct (Ho v'' eq_refl) as [-> ?]|by eapply valid_frozen_whnf0].
  - lia.
  - intros e S HS. eapply venv_object_later; [exact Hle|done|done|]. by apply valid_env0.
Qed.

Lemma safeU_allocValue U w v : vvalue w v -> safeU F U w (allocValue v) (fun U' w' p => U' = U /\ vaddr w' p).
Proof.
  intros Hv st Hst HF. simpl. exists U, (w_alloc w None). split; [apply w_alloc_later|].
  split; [|split; [done|split; [done|]]].
  - apply (alloc_valid U w st v None); [done|done|]. eapply vvalue_later; [apply w_alloc_later|done].
  - rewrite (valid_next _ _ _ Hst). unfold vaddr. simpl. lia.
Qed.
Lemma safe_allocValue w v : vvalue w v -> safe F w (allocValue v) vaddr.
Proof. apply safeU_allocValue. Qed.

(** A value that is never overwritten. *)
Lemma safe_allocFrozen w v : vvalue w v -> whnf v ->
  safe F w (allocValue v) (fun w' p => vaddr w' p /\ w_frozen w' !! p = Some v).
Proof.
  intros Hv Hw st Hst HF. simpl. exists ∅, (w_alloc w (Some v)). split; [apply w_alloc_later|].
  split; [|split; [done|split; [done|]]].
  - apply (alloc_valid ∅ w st v (Some v)); [done|by intros ? [= <-]|]. eapply vvalue_later; [apply w_alloc_later|done].
  - rewrite (valid_next _ _ _ Hst). split; [unfold vaddr; simpl; lia|]. simpl. by rewrite lookup_insert_eq.
Qed.

(** A value that may be overwritten. *)
Definition thawed (w : world) (p : addr) : Prop := vaddr w p /\ w_frozen w !! p = None.

Lemma thawed_later w w' p : later w w' -> thawed w p -> thawed w' p.
Proof. intros Hle [Hp Hf]. split; [by eapply vaddr_later|]. by rewrite (later_frozen _ _ Hle). Qed.

Lemma write_valid U w st p v :
  valid U w st -> thawed w p -> vvalue w v ->
  valid U w (set_values (<[p := v]> (es_values st)) st).
Proof.
  intros Hst [Hp Hf] Hv. destruct Hst. split; simpl; try done.
  - intros q Hq. destruct (decide (q = p)) as [->|].
    + exists v. by rewrite lookup_insert_eq.
    + rewrite lookup_insert_ne by done. by apply valid_value0.
  - intros q Hq. unfold vaddr in Hp. rewrite lookup_insert_ne by lia. by apply valid_unused0.
  - apply map_subseteq_spec. intros q u Hq. rewrite lookup_insert_ne by congruence.
    by eapply lookup_weaken.
Qed.

Lemma safe_write w p v : thawed w p -> vvalue w v -> safe F w (write p v) (fun w' _ => True).
Proof. intros Hp Hv st Hst HF. simpl. exists ∅, w. split_and!; [done|by apply write_valid|done..]. Qed.

(** A thunk or an application may be overwritten. *)
Lemma safe_read_thawed w p : vaddr w p ->
  safe F w (read p) (fun w' v => vvalue w' v /\ (type v = nThunk -> thawed w' p)).
Proof.
  intros Hp st Hst HF. unfold read. destruct (valid_value _ _ _ Hst p Hp) as (v & Hpv & Hv). rewrite Hpv.
  exists ∅, w. split_and!; [done..|]. intros Ht. split; [done|].
  destruct (w_frozen w !! p) as [v'|] eqn:Hf; [|done]. exfalso.
  apply (valid_frozen_whnf _ _ _ Hst _ _ Hf). apply (lookup_weaken _ (es_values st)) in Hf; [|apply Hst].
  by simplify_eq.
Qed.

Lemma safe_on_failure {A} w (m : M A) cleanup Q :
  safe F w m Q ->
  (forall w' st, later w w' -> valid ∅ w' st -> valid ∅ w' (cleanup st) /\ es_envs (cleanup st) = es_envs st) ->
  safe F w (on_failure m cleanup) Q.
Proof.
  intros Hm Hc st Hst HF. specialize (Hm st Hst HF). unfold on_failure.
  destruct (m st) as [[a|f] st']; simpl in *; [done|]. destruct Hm as [? Hm]. split; [done|].
  intros Hf. destruct (Hm Hf) as (w' & Hle & Hv & HF1 & HF2). destruct (Hc w' st' Hle Hv) as [? He].
  exists w'. split_and!; [done..|]. split; [by rewrite He|done].
Qed.

(** ** Environments *)

Definition w_env (w : world) (e : addr) (S : list Shape) : world :=
  mkWorld (<[e := S]> (w_shapes w)) (w_frozen w) (w_next w) (w_symbols w).

Lemma w_env_later w e S : w_shapes w !! e = None -> later w (w_env w e S).
Proof. intros He. split; simpl; [by apply insert_subseteq|done|lia|done]. Qed.

(** An environment becomes known to the world. *)
Lemma register_valid U w st e n s up Sup :
  valid U w st -> w_shapes w !! e = None -> U !! e = None ->
  es_envs st !! e = Some (mkEnv (Some up) (replicate n None)) -> n = shape_size s -> venv w up Sup ->
  valid (<[e := 0]> U) (w_env w e (s :: Sup)) st.
Proof.
  intros Hst He HU Hobj Hn Hup. assert (Hle := w_env_later w e (s :: Sup) He).
  destruct Hst. split; simpl; try done.
  - intros p Hp. destruct (valid_value0 p Hp) as (v & ? & ?). exists v. split; [done|by eapply vvalue_later].
  - intros e' He'. destruct (decide (e' = e)) as [->|].
    + destruct (valid_fresh0 e He') as (_ & ? & _). congruence.
    + rewrite !lookup_insert_ne by done. by apply valid_fresh0.
  - intros e' S HS. unfold venv in HS. simpl in HS. destruct (decide (e' = e)) as [->|].
    + rewrite lookup_insert_eq in HS. injection HS as <-.
      exists s, Sup, (mkEnv (Some up) (replicate n None)). simpl. rewrite length_replicate.
      split_and!; [done..| |].
      * right. exists up. split; [done|by eapply venv_later].
      * intros i o [-> Hi]%lookup_replicate. exists 0. rewrite lookup_insert_eq. split; [done|lia].
    + rewrite lookup_insert_ne in HS by done. eapply venv_object_later; [exact Hle|done| |by apply valid_env0].
      by rewrite lookup_insert_ne.
Qed.

Lemma allocEnv_valid U w st n up : valid U w st -> valid U w (allocEnv n up st).2.
Proof.
  intros Hst. assert (Hf := valid_fresh _ _ _ Hst). destruct Hst. split; simpl; try done.
  - intros e He. destruct (Hf e) as (? & ? & ?); [lia|]. by rewrite lookup_insert_ne by lia.
  - intros e S HS. eapply venv_object_later; [done|..|done|by apply valid_env0]. simpl.
    rewrite lookup_insert_ne; [done|]. intros <-. destruct (Hf (es_nextEnv st)) as [? _]; [lia|].
    unfold venv in HS. congruence.
Qed.

Lemma safeU_allocEnv U w n s up Sup :
  n = shape_size s -> venv w up Sup ->
  safeU F U w (allocEnv n up)
    (fun U' w' e => U' = <[e := 0]> U /\ U !! e = None /\ venv w' e (s :: Sup)).
Proof.
  intros Hn Hup st Hst [HF HFw]. simpl. set (e := es_nextEnv st).
  destruct (valid_fresh _ _ _ Hst e) as (Hs & He & HU); [lia|].
  exists (<[e := 0]> U), (w_env w e (s :: Sup)). split; [by apply w_env_later|]. split_and!; [|..|done|done|].
  - apply (register_valid U w _ e n s up Sup); [|done|done| |done|done].
    + apply (allocEnv_valid U w st n up Hst).
    + simpl. by rewrite lookup_insert_eq.
  - split; simpl.
    + etrans; [exact HF|]. by apply insert_subseteq.
    + intros e' He'. rewrite lookup_insert_ne; [by apply HFw|]. intros ->.
      rewrite (lookup_weaken_None _ _ _ He HF) in He'. by destruct He'.
  - unfold venv. simpl. by rewrite lookup_insert_eq.
Qed.

(** An environment that is filled after [m]. *)
Lemma safe_allocEnv_delayed {A B} w n s up Sup (m : M A) (k : addr -> A -> M B) P Q :
  n = shape_size s -> venv w up Sup ->
  (forall F, safe F w m P) ->
  (forall w1 w2 e a, later w w1 -> P w1 a -> later w1 w2 -> venv w2 e (s :: Sup) ->
     safeU F {[ e := 0 ]} w2 (k e a) (fun U' w' a => U' = ∅ /\ Q w' a)) ->
  safe F w (let! e := allocEnv n up in let! a := m in k e a) Q.
Proof.
  intros Hn Hup Hm Hk st Hst [HF HFw]. unfold ebind. simpl. set (e := es_nextEnv st).
  destruct (valid_fresh _ _ _ Hst e) as (Hs & He & HU); [lia|].
  assert (HFe : F !! e = None) by (by eapply lookup_weaken_None).
  set (obj := mkEnv (Some up) (replicate n None)). set (st1 := (allocEnv n up st).2).
  assert (Hst1 : valid ∅ w st1) by (by apply allocEnv_valid).
  assert (HF1 : framed (<[e := obj]> F) w st1).
  { split; [by apply insert_mono|]. intros e'. destruct (decide (e' = e)) as [->|]; [done|].
    rewrite lookup_insert_ne by done. apply HFw. }
  specialize (Hm _ st1 Hst1 HF1). change (mkEvalState _ _ _ _ _ _ _) with st1.
  destruct (m st1) as [[a|f] st2]; simpl in Hm |- *.
  - destruct Hm as (U' & w' & Hle & Hv & [HF2 HFw2] & -> & HP).
    assert (Hobj : es_envs st2 !! e = Some obj) by (eapply lookup_weaken; [apply lookup_insert_eq|exact HF2]).
    assert (Hs' : w_shapes w' !! e = None) by (apply HFw2; rewrite lookup_insert_eq; by eexists).
    eapply outcome_later; [exact Hle|]. eapply outcome_later; [exact (w_env_later w' e (s :: Sup) Hs')|].
    eapply (Hk w'); [done|done|by apply w_env_later|..].
    + unfold venv. simpl. by rewrite lookup_insert_eq.
    + eapply register_valid; [done..|by eapply venv_later].
    + split; [etrans; [by apply insert_subseteq|exact HF2]|]. intros e' He'. simpl.
      rewrite lookup_insert_ne; [|intros <-; rewrite HFe in He'; by destruct He'].
      apply HFw2. rewrite lookup_insert_ne; [done|]. intros <-. rewrite HFe in He'. by destruct He'.
  - destruct Hm as [? Hm]. split; [done|]. intros Hf. destruct (Hm Hf) as (w' & ? & ? & HF2 & HFw2).
    exists w'. split_and!; [done..|]. split; [etrans; [by apply insert_subseteq|exact HF2]|].
    intros e' He'. apply HFw2. rewrite lookup_insert_ne; [done|]. intros <-. rewrite HFe in He'. by destruct He'.
Qed.

Lemma venv_read U w st e S : valid U w st -> venv w e S ->
  exists s up env, S = s :: up /\ read_env e st = (Ok env, st) /\ length (env_values env) = shape_size s /\
    (up = [] \/ exists b, env_up env = Some b /\ venv w b up) /\
    forall i o, env_values env !! i = Some o ->
      match o with Some p => vaddr w p | None => exists n, U !! e = Some n /\ n <= i end.
Proof.
  intros Hst He. destruct (valid_env _ _ _ Hst e S He) as (s & up & env & -> & Henv & ?).
  exists s, up, env. split; [done|]. unfold read_env. by rewrite Henv.
Qed.

(** A slot is null only while its environment is being filled. *)
Lemma safeU_env_slot U w e s up displ : venv w e (s :: up) -> displ < shape_size s ->
  safeU F U w (env_slot e displ)
    (fun U' w' o => U' = U /\ match o with Some p => vaddr w' p | None => U <> ∅ end).
Proof.
  intros He Hd st Hst HF. destruct (venv_read _ _ _ _ _ Hst He) as (s' & up' & env & [= <- <-] & Hr & Hl & _ & Hi).
  unfold env_slot, ebind. rewrite Hr. destruct (lookup_lt_is_Some_2 (env_values env) displ) as [o Ho]; [lia|].
  rewrite Ho. exists U, w. split_and!; [done..|]. specialize (Hi _ _ Ho).
  destruct o; [done|]. destruct Hi as (n & HU & _). intros ->. by rewrite lookup_empty in HU.
Qed.
Lemma safe_env_slot w e s up displ : venv w e (s :: up) -> displ < shape_size s ->
  safe F w (env_slot e displ) (fun w' o => exists p, o = Some p /\ vaddr w' p).
Proof.
  intros He Hd. eapply safeU_mono; [by eapply safeU_env_slot|]. intros U' w' [p|] _ [-> H]; [by eauto|done].
Qed.

Lemma safeU_go_up U w e s up : venv w e (s :: up) -> up <> [] ->
  safeU F U w (go_up e) (fun U' w' b => U' = U /\ venv w' b up).
Proof.
  intros He Hup st Hst HF. destruct (venv_read _ _ _ _ _ Hst He) as (s' & up' & env & [= <- <-] & Hr & _ & Hb & _).
  unfold go_up, ebind. rewrite Hr. destruct Hb as [?|(b & -> & ?)]; [done|]. exists U, w. by split_and!.
Qed.

Definition slot_filled (U U' : gmap addr nat) (e : addr) (displ : nat) : Prop :=
  (forall e', e' <> e -> U' !! e' = U !! e') /\
  (U' !! e = U !! e \/ (U !! e = Some displ /\ U' !! e = Some (S displ))).

Lemma safeU_env_set_gen U U' w e s up displ p :
  venv w e (s :: up) -> displ < shape_size s -> vaddr w p -> slot_filled U U' e displ ->
  safeU F U w (env_set e displ p) (fun U'' w' _ => U'' = U').
Proof.
  intros He Hd Hp [HU1 HU2] st Hst [HF HFw].
  destruct (venv_read _ _ _ _ _ Hst He) as (s' & up' & env & [= <- <-] & Hr & Hl & Hb & Hi).
  unfold env_set, ebind. rewrite Hr. rewrite (proj2 (Nat.ltb_lt displ _)) by lia. simpl.
  exists U', w. split; [done|]. split_and!; [|..|done].
  - destruct Hst. split; simpl; try done.
    + intros e' He'. destruct (valid_fresh0 e' He') as (Hs & ? & HU). destruct (decide (e' = e)) as [->|].
      { unfold venv in He. congruence. }
      rewrite lookup_insert_ne, HU1 by done. done.
    + intros e' S HS. destruct (decide (e' = e)) as [->|].
      * unfold venv in He, HS. rewrite HS in He. injection He as ->.
        eexists s, up, _. simpl. rewrite lookup_insert_eq. split_and!; [done..| |done|].
        -- simpl. by rewrite length_insert.
        -- simpl. intros i o. destruct (decide (i = displ)) as [->|].
           ++ rewrite list_lookup_insert_eq by lia. by intros [= <-].
           ++ rewrite list_lookup_insert_ne by done. intros Ho. specialize (Hi _ _ Ho). destruct o; [done|].
              destruct Hi as (k & HUn & ?). destruct HU2 as [->|[HU2 HU3]]; [by exists k|].
              exists (Datatypes.S displ). split; [done|]. rewrite HU2 in HUn. simplify_eq. lia.
      * eapply venv_object_later; [done|..|by apply HU1|by apply valid_env0]. simpl. by rewrite lookup_insert_ne.
  - split; [|done]. simpl. apply map_subseteq_spec. intros e' v Hv. rewrite lookup_insert_ne.
    + by eapply lookup_weaken.
    + intros <-. unfold venv in He. rewrite HFw in He; [done|by eexists].
Qed.

(** The next slot of an environment that is being filled. *)
Lemma safeU_env_set U w e s up n p : venv w e (s :: up) -> n < shape_size s -> vaddr w p ->
  safeU F (<[e := n]> U) w (env_set e n p) (fun U' _ _ => U' = <[e := S n]> U).
Proof.
  intros He Hn Hp. eapply safeU_env_set_gen; [done..|]. split.
  - intros e' He'. by rewrite !lookup_insert_ne.
  - right. by rewrite !lookup_insert_eq.
Qed.
(** Any slot of an environment that has been filled. *)
Lemma safe_env_set w e s up n p : venv w e (s :: up) -> n < shape_size s -> vaddr w p ->
  safe F w (env_set e n p) (fun _ _ => True).
Proof.
  intros He Hn Hp. eapply safeU_mono; [eapply (safeU_env_set_gen ∅ ∅); [done..|]|].
  - split; [done|by left].
  - simpl. by intros.
Qed.

Lemma safeU_filled {A} U w e s up n (m : M A) Q :
  venv w e (s :: up) -> n = shape_size s -> U !! e = None -> safeU F U w m Q -> safeU F (<[e := n]> U) w m Q.
Proof.
  intros He Hn HU Hm st Hst HF. apply Hm; [|done]. assert (Hst' := Hst). destruct Hst. split; try done.
  - intros e' He'. destruct (valid_fresh0 e' He') as (? & ? & HU'). split_and!; [done..|].
    destruct (decide (e' = e)) as [->|]; [done|]. by rewrite lookup_insert_ne in HU'.
  - intros e' S HS. destruct (valid_env0 e' S HS) as (s' & up' & env & -> & Henv & Hl & Hup & Hi).
    exists s', up', env. split_and!; [done..|]. intros i o Ho. specialize (Hi i o Ho).
    destruct o; [done|]. destruct Hi as (k & HUk & Hk). destruct (decide (e' = e)) as [->|].
    + rewrite lookup_insert_eq in HUk. injection HUk as <-. unfold venv in He, HS. rewrite He in HS.
      injection HS as <- <-. apply lookup_lt_Some in Ho. lia.
    + rewrite lookup_insert_ne in HUk by done. eauto.
Qed.

(** ** Symbols *)

Lemma index_of_Some s l i k : index_of s l i = Some k -> (i <= k)%Z /\ l !! Z.to_nat (k - i) = Some s.
Proof.
  revert i. induction l as [|t l IH]; intros i H; simpl in *; [done|].
  case_bool_decide; [simplify_eq; split; [lia|by rewrite Z.sub_diag]|].
  apply IH in H as [? H]. split; [lia|]. by replace (Z.to_nat (k - i)) with (S (Z.to_nat (k - (i + 1)))) by lia.
Qed.

Definition w_symbol (w : world) (s : bytes) : world :=
  mkWorld (w_shapes w) (w_frozen w) (w_next w) (w_symbols w ++ [s]).

Lemma safe_symbols_create w s :
  safe F w (symbols_create s) (fun w' i => vsym w' i /\ w_symbols w' !! Z.to_nat (i - 1) = Some s).
Proof.
  intros st Hst HF. unfold symbols_create. rewrite (valid_symbols _ _ _ Hst).
  destruct (index_of s (w_symbols w) 1) as [i|] eqn:Hi; simpl.
  - apply index_of_Some in Hi as [? Hi]. exists ∅, w. split_and!; [done..| |done].
    apply lookup_lt_Some in Hi. unfold vsym, valid_symbol. lia.
  - exists ∅, (w_symbol w s).
    assert (Hle : later w (w_symbol w s)) by (split; simpl; [done|done|lia|by apply prefix_app_r]).
    split_and!; [done| |done|done| |].
    + destruct Hst. split; simpl; try done.
      * intros p Hp. destruct (valid_value0 p Hp) as (v & ? & ?). exists v. split; [done|by eapply vvalue_later].
      * by apply prefix_app_r.
    + unfold vsym, valid_symbol. simpl. rewrite length_app. simpl. lia.
    + simpl. rewrite lookup_app_r by lia.
      by replace (Z.to_nat (Z.of_nat (length (w_symbols w)) + 1 - 1) - length (w_symbols w)) with 0 by lia.
Qed.

Lemma safe_symbols_get w s : vsym w s -> safe F w (symbols_get s) (fun _ _ => True).
Proof.
  intros Hs st Hst HF. unfold symbols_get. rewrite (valid_symbols _ _ _ Hst). unfold vsym, valid_symbol in Hs.
  rewrite (proj2 (Z.leb_gt s 0)) by lia.
  destruct (lookup_lt_is_Some_2 (w_symbols w) (Z.to_nat (s - 1))) as [b ->]; [lia|]. by exists ∅, w.
Qed.

(** ** Attribute sets *)

Lemma safe_buildBindings w n : safe F w (buildBindings n) (fun _ b => b = mkBuilder n []).
Proof. unfold buildBindings. destruct (_ <=? _)%Z; [apply safe_error|by apply safe_ret]. Qed.

Lemma safeU_push_back U w name p b : length (bb_attrs b) < bb_capacity b ->
  safeU F U w (push_back name p b)
    (fun U' _ b' => U' = U /\ b' = mkBuilder (bb_capacity b) (bb_attrs b ++ [(name, p)])).
Proof. intros H. unfold push_back. rewrite (proj2 (Nat.ltb_lt _ _) H). by apply safeU_ret. Qed.
Lemma safe_push_back w name p b : length (bb_attrs b) < bb_capacity b ->
  safe F w (push_back name p b) (fun _ b' => b' = mkBuilder (bb_capacity b) (bb_attrs b ++ [(name, p)])).
Proof. apply safeU_push_back. Qed.

Lemma safe_push_all w l b : length (bb_attrs b) + length l <= bb_capacity b ->
  safe F w (push_all l b) (fun _ b' => b' = mkBuilder (bb_capacity b) (bb_attrs b ++ l)).
Proof.
  revert w b. induction l as [|[n p] l IH]; intros w b Hl; simpl in *.
  - apply safe_ret. rewrite app_nil_r. by destruct b.
  - eapply safe_bind; [apply safe_push_back; lia|]. intros w' b' _ ->.
    eapply safe_mono; [apply IH; simpl; rewrite length_app; simpl; lia|].
    simpl. intros w2 b2 _ ->. by rewrite <- app_assoc.
Qed.
End rules.
