(* ===== verification/EvalResults.v ===== *)
(** * Results of evaluations (libexpr/eval.cc, primops.cc)

    [clean m]: a value that [m] returns has been computed, it is not a thunk, a
    pending call or a black hole. This needs no assumption on the state. *)

From Stdlib Require Import SpecFloat.
From stdpp Require Import gmap.
From S2P Require Import Prelude.
From S2P Require Import Containers.
From S2P Require Import CanonPath.
From S2P Require Import StorePath.
From S2P Require Import Expr.
From S2P Require Import Values.
From S2P Require Import Eval.
From S2P Require Import Primops.
From S2P Require Import ListPrimops.
From S2P Require Import StringPrimops.
From S2P Require Import Evaluator.
From S2P Require Import EvalInv.

Definition yields {A} (m : M A) (a : A) : Prop := exists st st', m st = (Ok a, st').
Definition clean (m : M Value) : Prop := forall v, yields m v -> whnf v.

Create HintDb clean.

Lemma clean_ret v : whnf v -> clean (ret v).
Proof. by intros Hv u (st & st' & [= <- _]). Qed.
Lemma clean_fail f : clean (fail f).
Proof. by intros u (st & st' & [=]). Qed.
Lemma clean_error e : clean (error e).
Proof. apply clean_fail. Qed.
Lemma clean_bind {A} (m : M A) (k : A -> M Value) : (forall a, yields m a -> clean (k a)) -> clean (ebind m k).
Proof.
  intros Hk v (st & st' & H). unfold ebind in H. destruct (m st) as [[a|f] st1] eqn:E; [|done].
  apply (Hk a); [by exists st, st1|by exists st1, st'].
Qed.
Lemma clean_callDepth n m : clean m -> clean (with_callDepth n m).
Proof.
  intros Hm v (st & st' & H). unfold with_callDepth in H. destruct (_ <? _); [done|].
  destruct (m _) as [r st1] eqn:E. simplify_eq. apply Hm. by eexists _, _.
Qed.

(** The recursive calls that return values. *)
Record Rec_clean (R : Rec) : Prop := {
  rc_eval env e : clean (r_eval R env e);
  rc_force p : clean (r_forceValue R p);
  rc_call f args : clean (r_callFunction R f args);
  rc_primop p args : clean (r_primop R p args);
}.

Section clean.
Context (R : Rec) (HR : Rec_clean R).
Context (maxCallDepth : nat) (storeDir : bytes) (fetchToStore : bytes -> result StorePath).

#[local] Hint Resolve rc_eval rc_force rc_call rc_primop clean_fail clean_error : clean.

Ltac clean_step :=
  lazymatch goal with
  | |- clean (ebind _ _) => apply clean_bind; intros ? ?
  | |- clean (ret _) => apply clean_ret; first [done | match goal with H : yields _ ?v |- whnf ?v => revert H; apply rc_force; exact HR end]
  | |- clean (with_callDepth _ _) => apply clean_callDepth
  | |- clean (match ?x with _ => _ end) => destruct x
  | |- clean _ => solve [auto 2 with clean nocore]
  end.
Ltac clean_auto := repeat clean_step.

Lemma clean_forceValue p : clean (forceValue R p).
Proof.
  intros v (st & st' & H). unfold forceValue, ebind, read in H.
  destruct (es_values st !! p) as [u|]; [|done].
  destruct u as [| | | | | | | |env e| |l r| | |]; try (by injection H as <- _); try done.
  - unfold on_failure in H. cbn in H. destruct (r_eval R env e _) as [[u|f] st2] eqn:E; [|done]. injection H as <- _.
    apply (rc_eval _ HR env e). by eexists _, st2.
  - destruct (r_callFunction R l [r] st) as [[u|f] st2] eqn:E; [|done]. injection H as <- _.
    apply (rc_call _ HR l [r]). by exists st, st2.
Qed.

(** ** The evaluator *)

Lemma clean_eval_var env name ref : clean (eval_var R env name ref).
Proof. unfold eval_var. clean_auto. Qed.
Lemma clean_eval_attrs env a : clean (eval_attrs R env a).
Proof. unfold eval_attrs. clean_auto. Qed.
Lemma clean_eval_let env a body : clean (eval_let R env a body).
Proof. unfold eval_let. clean_auto. Qed.
Lemma clean_select_path env def path cur : clean (select_path R env def path cur).
Proof. revert cur. induction path as [|i path IH]; intros cur; cbn [select_path]; clean_auto. Qed.
#[local] Hint Resolve clean_select_path : clean.
Lemma clean_eval_select env e path def : clean (eval_select R env e path def).
Proof. unfold eval_select. clean_auto. Qed.
Lemma clean_has_path env path cur : clean (has_path R env path cur).
Proof. revert cur. induction path as [|i path IH]; intros cur; cbn [has_path]; clean_auto. Qed.
#[local] Hint Resolve clean_has_path : clean.
Lemma clean_eval_hasAttr env e path : clean (eval_hasAttr R env e path).
Proof. unfold eval_hasAttr. clean_auto. Qed.
Lemma clean_eval_update env e1 e2 : clean (eval_update R env e1 e2).
Proof. unfold eval_update. clean_auto. Qed.

Lemma clean_call_lambda env f arg : clean (call_lambda R env f arg).
Proof. unfold call_lambda. clean_auto. Qed.
Lemma clean_makeAppChain v args : whnf v -> clean (makeAppChain v args).
Proof.
  revert v. induction args as [|a args IH]; intros v Hv; cbn [makeAppChain]; [by apply clean_ret|].
  apply clean_bind. intros p _. by apply IH.
Qed.
Lemma clean_call_loop fuel v args : whnf v -> clean (call_loop R fuel v args).
Proof.
  revert v args. induction fuel as [|fuel IH]; intros v [|arg args] Hv; cbn [call_loop];
    [by apply clean_ret|apply clean_fail|by apply clean_ret|].
  assert (Hnext : forall m rest, clean m -> clean (let! v := m in call_loop R fuel v rest)).
  { intros m rest Hm. apply clean_bind. intros u Hu. by apply IH, Hm. }
  destruct v; try apply clean_error.
  - destruct (attrs_get _ _) as [p|]; [|apply clean_error]. apply clean_bind. intros self _. by apply Hnext, (rc_call _ HR).
  - apply Hnext, clean_call_lambda.
  - destruct (_ <? _); [by apply clean_makeAppChain|]. by apply Hnext, (rc_primop _ HR).
  - apply clean_bind. intros [p done_] _. destruct (_ <? _); [by apply clean_makeAppChain|]. by apply Hnext, (rc_primop _ HR).
Qed.
Lemma clean_callFunction f args : clean (callFunction R maxCallDepth f args).
Proof.
  unfold callFunction. apply clean_callDepth, clean_bind. intros v Hv. by apply clean_call_loop, (rc_force _ HR f).
Qed.
Lemma clean_eval_call env f args : clean (eval_call R env f args).
Proof. unfold eval_call. clean_auto. Qed.

Lemma clean_eval_concatStrings env b es : clean (eval_concatStrings R env b es).
Proof. unfold eval_concatStrings. clean_auto. Qed.
Lemma clean_concatLists l : clean (concatLists R l).
Proof. unfold concatLists. clean_auto. Qed.
#[local] Hint Resolve clean_eval_update clean_concatLists : clean.
Lemma clean_eval_binop env op e1 e2 : clean (eval_binop R env op e1 e2).
Proof. unfold eval_binop. destruct op; clean_auto. Qed.
Lemma clean_eval_assert env c b : clean (eval_assert R env c b).
Proof. unfold eval_assert. clean_auto. Qed.
Lemma clean_eval_with env a b : clean (eval_with R env a b).
Proof. unfold eval_with. clean_auto. Qed.
#[local] Hint Resolve clean_eval_var clean_eval_select clean_eval_hasAttr clean_eval_attrs clean_eval_call clean_eval_let
  clean_eval_with clean_eval_assert clean_eval_binop clean_eval_concatStrings : clean.
Lemma clean_eval env e : clean (eval R env e).
Proof. destruct e; cbn [eval]; clean_auto. Qed.

(** ** The primitive operations *)

Lemma clean_anyOrAll_loop b f l : clean (anyOrAll_loop R b f l).
Proof. induction l as [|x l IH]; cbn [anyOrAll_loop]; clean_auto. Qed.
#[local] Hint Resolve clean_anyOrAll_loop : clean.

Lemma clean_call_primop p args : clean (call_primop R p args).
Proof.
  destruct args as [|a1 [|a2 [|a3 [|a4 args]]]]; destruct p; cbn [call_primop]; try apply clean_fail.
  all: unfold prim_typeOf, prim_is, prim_abort, prim_throw, prim_tryEval, prim_seq, prim_deepSeq, prim_attrNames,
    prim_attrValues, prim_getAttr, prim_hasAttr, prim_removeAttrs, prim_listToAttrs, prim_intersectAttrs,
    prim_catAttrs, prim_functionArgs, prim_mapAttrs, prim_elemAt, prim_head, prim_tail, prim_map, prim_filter,
    prim_elem, prim_concatLists, prim_length, prim_foldlStrict, anyOrAll, prim_genList, prim_add, prim_sub, prim_mul,
    arith, prim_div, bitop, prim_lessThan, prim_toString, prim_substring, prim_stringLength, prim_sort,
    prim_partition, prim_groupBy, prim_concatMap, prim_genericClosure, prim_ceil, prim_floor, float_to_int,
    prim_baseNameOf, prim_dirOf, prim_parseDrvName, prim_splitVersion, prim_concatStringsSep, prim_replaceStrings;
    clean_auto.
Qed.

Lemma unfold_rec_clean : Rec_clean (unfold_rec maxCallDepth storeDir fetchToStore R).
Proof.
  split; intros; simpl; [apply clean_eval|apply clean_forceValue|apply clean_callFunction|apply clean_call_primop].
Qed.
End clean.

Lemma evaluator_clean maxCallDepth storeDir fetchToStore n : Rec_clean (evaluator maxCallDepth storeDir fetchToStore n).
Proof. induction n as [|n IH]; [split; intros; apply clean_fail|by apply unfold_rec_clean]. Qed.
