(* ===== verification/EvalSafe.v ===== *)
(** * Safety of the evaluator

    Each function of [Eval] is safe if the functions it calls recursively are:
    in a state that satisfies the invariant it does not read or write outside
    of an environment, list or set, does not follow a null pointer, does not
    fail an assertion, and leaves a state that satisfies the invariant. *)

From Stdlib Require Import SpecFloat Sorting.Sorted.
From stdpp Require Import gmap.
From S2P Require Import Prelude.
From S2P Require Import Containers.
From S2P Require Import CanonPath.
From S2P Require Import StorePath.
From S2P Require Import Expr.
From S2P Require Import Scoping.
From S2P Require Import Values.
From S2P Require Import Eval.
From S2P Require Import AttrSets.
From S2P Require Import Primops.
From S2P Require Import ListPrimops.
From S2P Require Import StringPrimops.
From S2P Require Import Evaluator.
From S2P Require Import EvalInv.

(** A value that has been computed. *)
Definition good (w : world) (v : Value) : Prop := vvalue w v /\ whnf v.

Definition any {A} : world -> A -> Prop := fun _ _ => True.

(** What the functions of the evaluator promise each other. *)
Class Rec_safe (R : Rec) : Prop := {
  rs_eval F w env e S : venv w env S -> vexpr w S e -> safe F w (r_eval R env e) good;
  rs_force F w p : vaddr w p -> safe F w (r_forceValue R p) good;
  rs_call F w f args : vaddr w f -> Forall (vaddr w) args -> safe F w (r_callFunction R f args) good;
  rs_primop F w p args :
    allowed p -> length args = arity p -> Forall (vaddr w) args -> safe F w (r_primop R p args) good;
  rs_eq F w p1 p2 : vaddr w p1 -> vaddr w p2 -> safe F w (r_eqValues R p1 p2) any;
  rs_assertEq F w p1 p2 : vaddr w p1 -> vaddr w p2 -> safe F w (r_assertEqValues R p1 p2) any;
  rs_coerce F w p ctx more copy canon : vaddr w p -> safe F w (r_coerceToString R p ctx more copy canon) any;
  rs_compare F w p1 p2 : vaddr w p1 -> vaddr w p2 -> safe F w (r_compareValues R p1 p2) any;
  rs_deep F w seen p : vaddr w p -> safe F w (r_forceValueDeep R seen p) any;
  rs_closure F w op workSet doneKeys res :
    vaddr w op -> Forall (vaddr w) workSet -> Forall (vaddr w) doneKeys -> Forall (vaddr w) res ->
    safe F w (r_closure R op workSet doneKeys res) (fun w' l => Forall (vaddr w') l);
}.

(** Facts about a value that may be overwritten move, too. *)
Ltac thawed_to_later Hle :=
  repeat match goal with H : thawed ?w _ |- _ =>
    lazymatch type of Hle with later w _ => apply (thawed_later _ _ _ Hle) in H end end.

(** The first step, by lemma [lem]; the facts move to the later world. *)
Ltac next_world Hle :=
  to_later Hle; thawed_to_later Hle;
  let w := lazymatch type of Hle with later ?w _ => w end in
  let w' := lazymatch type of Hle with later _ ?w' => w' end in
  clear Hle; clear dependent w; rename w' into w.
Tactic Notation "sbind" uconstr(lem) "as" simple_intropattern(a) simple_intropattern(H) :=
  eapply safe_bind;
  [eapply lem; try done; try (by eauto); try (by repeat constructor)
  |let w' := fresh "w'" in let Hle := fresh "Hle" in intros w' a Hle H; next_world Hle].
Ltac sret := apply safe_ret.
Ltac serr := apply safe_error.

Section eval_safe.
Context (R : Rec) {HR : Rec_safe R}.
Context (F : gmap addr Env).
Implicit Types w : world.

(** ** Forcing *)

Lemma forceAttrs_safe w p : vaddr w p -> safe F w (forceAttrs R p) vbindings.
Proof.
  intros Hp. unfold forceAttrs. sbind rs_force as v [Hv _]. destruct v; try serr. by sret.
Qed.
Lemma forceList_safe w p : vaddr w p -> safe F w (forceList R p) (fun w' l => Forall (vaddr w') l).
Proof. intros Hp. unfold forceList. sbind rs_force as v [Hv _]. destruct v; try serr. by sret. Qed.
Lemma forceInt_safe w p : vaddr w p -> safe F w (forceInt R p) any.
Proof. intros Hp. unfold forceInt. sbind rs_force as v [Hv _]. destruct v; try serr. by sret. Qed.
Lemma forceFloat_safe w p : vaddr w p -> safe F w (forceFloat R p) any.
Proof. intros Hp. unfold forceFloat. sbind rs_force as v [Hv _]. destruct v; (serr || by sret). Qed.
Lemma forceBool_safe w p : vaddr w p -> safe F w (forceBool R p) any.
Proof. intros Hp. unfold forceBool. sbind rs_force as v [Hv _]. destruct v; try serr. by sret. Qed.
Lemma forceFunction_safe w p : vaddr w p -> safe F w (forceFunction R p) any.
Proof. intros Hp. unfold forceFunction. sbind rs_force as v [Hv _]. destruct (_ || _); [by sret|serr]. Qed.
Lemma forceString_safe w p : vaddr w p -> safe F w (forceString R p) any.
Proof. intros Hp. unfold forceString. sbind rs_force as v [Hv _]. destruct v; try serr. by sret. Qed.
Lemma forceStringNoCtx_safe w p : vaddr w p -> safe F w (forceStringNoCtx R p) any.
Proof. intros Hp. unfold forceStringNoCtx. sbind forceString_safe as [s c] _. case_bool_decide; [by sret|serr]. Qed.

Lemma eval_tmp_safe w env e S : venv w env S -> vexpr w S e -> safe F w (eval_tmp R env e) vaddr.
Proof. intros Henv He. unfold eval_tmp. sbind rs_eval as v [Hv _]. by apply safe_allocValue. Qed.
Lemma evalBool_safe w env e S : venv w env S -> vexpr w S e -> safe F w (evalBool R env e) any.
Proof. intros Henv He. unfold evalBool. sbind rs_eval as v [Hv _]. destruct v; try serr. by sret. Qed.
Lemma evalAttrs_safe w env e S : venv w env S -> vexpr w S e -> safe F w (evalAttrs R env e) vbindings.
Proof. intros Henv He. unfold evalAttrs. sbind rs_eval as v [Hv _]. destruct v; try serr. by sret. Qed.

Lemma forceValue_safe w p : vaddr w p -> safe F w (forceValue R p) good.
Proof.
  intros Hp. unfold forceValue. sbind safe_read_thawed as v [Hv Ht].
  destruct v as [| | | | | | | |env e| |l r| | |]; try (by sret); try serr.
  - specialize (Ht eq_refl). sbind safe_write as [] _.
    destruct Hv as (S & Henv & He).
    eapply safe_bind.
    { eapply safe_on_failure; [by eapply rs_eval|]. intros w' st Hle Hst.
      split; [|done]. apply write_valid; [done|by eapply thawed_later|].
      exists S. eauto using venv_later, vexpr_later. }
    intros w' v Hle [Hv Hw]. next_world Hle. sbind safe_write as [] _. by sret.
  - specialize (Ht eq_refl). destruct Hv as [Hl Hr]. sbind rs_call as v [Hv Hw].
    sbind safe_write as [] _. by sret.
Qed.

(** ** Variables *)

Lemma vbindings_elem w b name p : vbindings w b -> (name, p) ∈ b -> vsym w name /\ vaddr w p.
Proof.
  intros [_ Hs Ha] Hin. rewrite Forall_fmap in Hs. rewrite Forall_fmap in Ha. rewrite Forall_forall in Hs. rewrite Forall_forall in Ha.
  split; [by apply (Hs _ Hin)|by apply (Ha _ Hin)].
Qed.
Lemma vbindings_get w b name p : vbindings w b -> attrs_get name b = Some p -> vaddr w p.
Proof. intros Hb Hg%attrs_get_elem. by eapply vbindings_elem. Qed.

Lemma go_up_n_safe U w env S level : venv w env S -> level < length S ->
  safeU F U w (go_up_n level env) (fun U' w' e => U' = U /\ venv w' e (drop level S)).
Proof.
  revert w env S. induction level as [|level IH]; intros w env S Henv Hl; simpl.
  - by apply safeU_ret.
  - destruct S as [|s up]; simpl in Hl; [lia|].
    eapply safeU_bind; [eapply safeU_go_up; [done|by (destruct up; simpl in *; [lia|])]|].
    intros U' w' e _ [-> He]. apply IH; [done|lia].
Qed.

Lemma wf_with_cons wi S : wf_with wi S -> exists up, S = SWith :: up.
Proof. destruct wi as [prev parent], S as [|s up]; simpl; intros [[=] _]; subst. eauto. Qed.

Lemma with_loop_safe name : forall wi w env S, venv w env S -> wf_with wi S ->
  safe F w (with_loop R name wi env) vaddr.
Proof.
  fix IH 1. intros [prev parent] w env S Henv Hw. destruct (wf_with_cons _ _ Hw) as [up ->].
  cbn [with_loop]. sbind safe_env_slot as o (p & -> & Hp).
  sbind forceAttrs_safe as b Hb. destruct (attrs_get name b) as [q|] eqn:Hq.
  - sret. by eapply vbindings_get.
  - destruct parent as [wi|]; [|serr]. destruct Hw as [_ Hw].
    destruct (wf_with_cons _ _ Hw) as [up' Hup].
    eapply safeU_bind; [eapply go_up_n_safe; [done|]|].
    + apply Nat.lt_nge. intros Hge. by rewrite drop_ge in Hup.
    + intros U' w' e Hle [-> He]. by eapply IH.
Qed.

Lemma lookupVar_safe w env S name ref : venv w env S -> wf_ref S ref ->
  safe F w (lookupVar R env name ref false) (fun w' o => exists p, o = Some p /\ vaddr w' p).
Proof.
  intros Henv Href. destruct ref as [|level displ|wi level]; [done|..]; simpl in *.
  - destruct Href as (s & Hs & Hd).
    eapply safeU_bind; [eapply go_up_n_safe; [done|by eapply lookup_lt_Some]|]. intros U' w' e _ [-> He].
    rewrite (drop_S _ _ _ Hs) in He. by eapply safe_env_slot.
  - destruct (wf_with_cons _ _ Href) as [up Hup].
    eapply safeU_bind; [eapply go_up_n_safe; [done|]|].
    + apply Nat.lt_nge. intros Hge. by rewrite drop_ge in Hup.
    + intros U' w' e _ [-> He]. eapply safe_bind; [by eapply with_loop_safe|]. intros w2 p _ Hp. sret. eauto.
Qed.

Lemma lookupVar_noEval_safe U w env S name ref : venv w env S -> wf_ref S ref ->
  safeU F U w (lookupVar R env name ref true) (fun U' w' o => U' = U /\ forall p, o = Some p -> vaddr w' p).
Proof.
  intros Henv Href. destruct ref as [|level displ|wi level]; [done|..]; simpl in *.
  - destruct Href as (s & Hs & Hd).
    eapply safeU_bind; [eapply go_up_n_safe; [done|by eapply lookup_lt_Some]|]. intros U' w' e _ [-> He].
    rewrite (drop_S _ _ _ Hs) in He. eapply safeU_mono; [by eapply safeU_env_slot|].
    intros U' w2 o _ [-> Ho]. split; [done|]. by intros p ->.
  - destruct (wf_with_cons _ _ Href) as [up Hup].
    eapply safeU_bind; [eapply go_up_n_safe; [done|]|].
    + apply Nat.lt_nge. intros Hge. by rewrite drop_ge in Hup.
    + intros U' w' e _ [-> He]. by apply safeU_ret.
Qed.

Lemma mkThunk_safeU U w env S e : venv w env S -> vexpr w S e ->
  safeU F U w (mkThunk env e) (fun U' w' p => U' = U /\ vaddr w' p).
Proof. intros Henv He. apply safeU_allocValue. by exists S. Qed.

Lemma maybeThunk_safeU U w env S e : venv w env S -> vexpr w S e ->
  safeU F U w (maybeThunk R env e) (fun U' w' p => U' = U /\ vaddr w' p).
Proof.
  intros Henv He.
  assert (Ht : safeU F U w (mkThunk env e) (fun U' w' p => U' = U /\ vaddr w' p)) by (by eapply mkThunk_safeU).
  destruct e as [| | | |name ref|displ| | | |[|x es]| | | | | | | | | ]; try exact Ht; try by apply safeU_allocValue.
  - eapply safeU_bind; [by eapply lookupVar_noEval_safe|]. intros U' w' [p|] Hle [-> Hp].
    + apply safeU_ret. eauto.
    + eapply mkThunk_safeU; [by eapply venv_later|by eapply vexpr_later].
  - destruct (He eq_refl) as (s & Hs & Hd). destruct S as [|s' up]; [done|]. simpl in Hs. simplify_eq.
    eapply safeU_bind; [by eapply safeU_env_slot|]. intros U' w' [p|] Hle [-> Hp].
    + by apply safeU_ret.
    + eapply mkThunk_safeU; [by eapply venv_later|]. intros _. by exists s.
  - intros st Hst HF. exists U, w. split_and!; [done..|].
    assert (H := valid_constants _ _ _ Hst). unfold vaddr, vEmptyList. lia.
Qed.
Lemma maybeThunk_safe w env S e : venv w env S -> vexpr w S e -> safe F w (maybeThunk R env e) vaddr.
Proof. apply maybeThunk_safeU. Qed.

Lemma eval_var_safe w env S name ref : venv w env S -> wf_ref S ref -> safe F w (eval_var R env name ref) good.
Proof. intros Henv Href. unfold eval_var. sbind lookupVar_safe as o (p & -> & Hp). by apply rs_force. Qed.

(** ** Attribute sets *)

Lemma getName_safe w env S i : venv w env S -> match i with NameExpr e => vexpr w S e | _ => True end ->
  safe F w (getName R env i) any.
Proof.
  intros Henv Hi. destruct i as [s|e]; simpl; [by sret|].
  sbind eval_tmp_safe as p Hp. sbind forceStringNoCtx_safe as s _.
  eapply safe_mono; [apply safe_symbols_create|done].
Qed.

Lemma fill_env_safe U w env s up Sup displ l :
  venv w env (s :: Sup) -> venv w up Sup -> all_list (vexpr w Sup) l -> displ + length l <= shape_size s ->
  safeU F (<[env := displ]> U) w (fill_env R env displ l up) (fun U' _ _ => U' = <[env := displ + length l]> U).
Proof.
  revert w displ. induction l as [|e l IH]; intros w displ Henv Hup Hl Hs; simpl in *.
  - apply safeU_ret. by rewrite Nat.add_0_r.
  - destruct Hl as [He Hl]. eapply safeU_bind; [by eapply maybeThunk_safeU|]. intros U' w' p Hle [-> Hp].
    next_world Hle. eapply safeU_bind; [eapply safeU_env_set; [done|lia|done]|]. intros U' w' _ Hle ->.
    next_world Hle. eapply safeU_mono; [apply IH; [done..|lia]|].
    intros U' w' _ _ ->. f_equal. lia.
Qed.

Lemma inherit_env_safe U w from up Sup :
  venv w up Sup -> all_from (vexpr w Sup) from ->
  safeU F U w (inherit_env R from up)
    (fun U' w' o => U' = U /\ (is_Some from -> is_Some o) /\ forall e, o = Some e -> venv w' e (SVars (from_size from) :: Sup)).
Proof.
  intros Hup Hf. destruct from as [l|]; simpl; [|apply safeU_ret; split_and!; [done| |done]; by intros []].
  unfold buildInheritFromEnv.
  eapply (safeU_bind _ _ _ _ (fun U' w' e => U' = U /\ venv w' e (SVars (length l) :: Sup))).
  - eapply safeU_bind; [by eapply (safeU_allocEnv _ _ _ (SVars (length l)))|].
    intros U' w' e Hle (-> & HU & He). next_world Hle.
    eapply safeU_bind; [eapply fill_env_safe; done|]. intros U' w' _ Hle ->. next_world Hle.
    eapply safeU_filled; [done|done|done|]. by apply safeU_ret.
  - intros U' w' e _ [-> He]. apply safeU_ret. split_and!; [done|by eexists|]. by intros e' [= <-].
Qed.

(** The environments in which the definitions of a set are evaluated. *)
Record venvs w (env2 : addr) (S2 : list Shape) (env : addr) (S : list Shape) (ie : option addr) (n : nat) : Prop := {
  venvs_new : venv w env2 S2;
  venvs_old : venv w env S;
  venvs_from : forall e, ie = Some e -> venv w e (SVars n :: S2);
}.
Lemma venvs_later w w' env2 S2 env S ie n : later w w' -> venvs w env2 S2 env S ie n -> venvs w' env2 S2 env S ie n.
Proof. intros Hle [? ? H]. split; [by eapply venv_later..|]. intros e He. eapply venv_later; [done|by apply H]. Qed.

Definition kind_shapes (S2 S : list Shape) (n : nat) (k : Kind) : list Shape :=
  chooseByKind k S2 S (SVars n :: S2).

Lemma def_env_safe U w env2 S2 env S ie n k :
  venvs w env2 S2 env S ie n -> (k = InheritedFrom -> is_Some ie) ->
  safeU F U w (def_env k env2 env ie) (fun U' w' e => U' = U /\ venv w' e (kind_shapes S2 S n k)).
Proof.
  intros [H2 H1 Hf] Hk. unfold def_env. destruct k; simpl; [by apply safeU_ret..|].
  destruct (Hk eq_refl) as [e ->]. apply safeU_ret. eauto.
Qed.

(** The definitions [l], with expressions that are well-formed in their environments. *)
Record vdefs w (S2 S : list Shape) (ie : option addr) (n : nat) (l : list (Symbol * AttrDef Expr)) : Prop := {
  vdefs_exprs : all_attrs (fun k => vexpr w (kind_shapes S2 S n k)) l;
  vdefs_kinds : Forall (fun d : AttrDef Expr => ad_kind d = InheritedFrom -> is_Some ie) l.*2;
}.
Lemma vdefs_later w w' S2 S ie n l : later w w' -> vdefs w S2 S ie n l -> vdefs w' S2 S ie n l.
Proof. intros Hle [? ?]. split; [by eapply vattrs_later|done]. Qed.
Lemma vdefs_cons w S2 S ie n s d l : vdefs w S2 S ie n ((s, d) :: l) ->
  (ad_kind d = InheritedFrom -> is_Some ie) /\ vexpr w (kind_shapes S2 S n (ad_kind d)) (ad_e d) /\ vdefs w S2 S ie n l.
Proof. destruct d as [k e displ]. intros [[? ?] [? ?]%Forall_cons]. done. Qed.

Ltac to_later_sets Hle :=
  repeat match goal with
  | H : venvs ?w _ _ _ _ _ _ |- _ => lazymatch type of Hle with later w _ => apply (venvs_later _ _ _ _ _ _ _ _ Hle) in H end
  | H : vdefs ?w _ _ _ _ _ |- _ => lazymatch type of Hle with later w _ => apply (vdefs_later _ _ _ _ _ _ _ Hle) in H end
  end; next_world Hle.

(** A builder to which the names [names] have been added. *)
Record pushed w (b : Builder) (names : list Symbol) (b' : Builder) : Prop := {
  pushed_capacity : bb_capacity b' = bb_capacity b;
  pushed_names : (bb_attrs b').*1 = (bb_attrs b).*1 ++ names;
  pushed_addrs : Forall (vaddr w) (bb_attrs b').*2;
}.

Lemma rec_attrs_safe U w o env2 s up env S ie n displ l b :
  venvs w env2 (s :: up) env S ie n -> vdefs w (s :: up) S ie n l ->
  displ + length l <= shape_size s -> length (bb_attrs b) + length l <= bb_capacity b ->
  Forall (vaddr w) (bb_attrs b).*2 ->
  safeU F (<[env2 := displ]> U) w (rec_attrs R o env2 env ie displ l b)
    (fun U' w' b' => U' = <[env2 := displ + length l]> U /\ pushed w' b l.*1 b').
Proof.
  revert w displ b. induction l as [|[name d] l IH]; intros w displ b He Hl Hd Hb Ha; simpl in *.
  - apply safeU_ret. rewrite Nat.add_0_r. split; [done|]. split; [done|by rewrite app_nil_r|done].
  - apply vdefs_cons in Hl as (Hk & Hx & Hl).
    eapply safeU_bind; [by eapply def_env_safe|]. intros U' w' denv Hle [-> Hdenv]. to_later_sets Hle.
    eapply (safeU_bind _ _ _ _ (fun U' w' p => U' = <[env2 := displ]> U /\ vaddr w' p)).
    { destruct o, (ad_kind d); try (by eapply maybeThunk_safeU); by eapply mkThunk_safeU. }
    intros U' w' p Hle [-> Hp]. to_later_sets Hle.
    eapply safeU_bind; [eapply safeU_env_set; [apply He|lia|done]|]. intros U' w' _ Hle ->. to_later_sets Hle.
    eapply safeU_bind; [apply safeU_push_back; lia|]. intros U' w' b' Hle [-> ->]. to_later_sets Hle.
    eapply safeU_mono; [apply IH; [done|done|lia|simpl; rewrite length_app; simpl; lia|]|].
    + simpl. rewrite fmap_app. apply Forall_app. split; [done|by constructor].
    + simpl. intros U' w' b' _ [-> [Hc Hn Ha']]. split; [f_equal; lia|]. split; [done| |done].
      rewrite Hn. simpl. by rewrite fmap_app, <- app_assoc.
Qed.

Lemma plain_attrs_safe w env S ie n l b :
  venvs w env S env S ie n -> vdefs w S S ie n l ->
  length (bb_attrs b) + length l <= bb_capacity b -> Forall (vaddr w) (bb_attrs b).*2 ->
  safe F w (plain_attrs R env ie l b) (fun w' b' => pushed w' b l.*1 b').
Proof.
  revert w b. induction l as [|[name d] l IH]; intros w b He Hl Hb Ha; simpl in *.
  - sret. split; [done|by rewrite app_nil_r|done].
  - apply vdefs_cons in Hl as (Hk & Hx & Hl).
    eapply safeU_bind; [by eapply def_env_safe|]. intros U' w' denv Hle [-> Hdenv]. to_later_sets Hle.
    eapply safe_bind; [by eapply maybeThunk_safe|]. intros w' p Hle Hp. to_later_sets Hle.
    eapply safe_bind; [apply safe_push_back; lia|]. intros w' b' Hle ->. to_later_sets Hle.
    eapply safe_mono; [apply IH; [done|done|simpl; rewrite length_app; simpl; lia|]|].
    + simpl. rewrite fmap_app. apply Forall_app. split; [done|by constructor].
    + simpl. intros w' b' _ [Hc Hn Ha']. split; [done| |done]. rewrite Hn. simpl. by rewrite fmap_app, <- app_assoc.
Qed.

Lemma let_attrs_safe U w env2 s up env S ie n displ l :
  venvs w env2 (s :: up) env S ie n -> vdefs w (s :: up) S ie n l -> displ + length l <= shape_size s ->
  safeU F (<[env2 := displ]> U) w (let_attrs R env2 env ie displ l)
    (fun U' w' _ => U' = <[env2 := displ + length l]> U).
Proof.
  revert w displ. induction l as [|[name d] l IH]; intros w displ He Hl Hd; simpl in *.
  - apply safeU_ret. by rewrite Nat.add_0_r.
  - apply vdefs_cons in Hl as (Hk & Hx & Hl).
    eapply safeU_bind; [by eapply def_env_safe|]. intros U' w' denv Hle [-> Hdenv]. to_later_sets Hle.
    eapply safeU_bind; [by eapply maybeThunk_safeU|]. intros U' w' p Hle [-> Hp]. to_later_sets Hle.
    eapply safeU_bind; [eapply safeU_env_set; [apply He|lia|done]|]. intros U' w' _ Hle ->. to_later_sets Hle.
    eapply safeU_mono; [apply IH; [done|done|lia]|]. intros U' w' _ _ ->. f_equal. lia.
Qed.

Lemma find_def_numbered name attrs j : numbered attrs -> find_def name attrs = Some j -> attrs.*1 !! ad_displ j = Some name.
Proof.
  intros Hn Hf. assert (H : (name, j) ∈ attrs).
  { clear Hn. unfold find_def in Hf. induction attrs as [|[s d] attrs IH]; simpl in Hf; [done|].
    case_bool_decide; simplify_eq; [left|right; by apply IH]. }
  apply list_elem_of_lookup in H as [i Hi]. rewrite list_lookup_fmap. assert (H := Hn i (name, j) Hi). simpl in H. by rewrite H, Hi.
Qed.
Lemma find_def_None name attrs : find_def name attrs = None -> name ∉ attrs.*1.
Proof.
  unfold find_def. induction attrs as [|[s d] attrs IH]; simpl; [by intros _ ?%not_elem_of_nil|].
  case_bool_decide; [done|]. intros Hf. rewrite not_elem_of_cons. eauto.
Qed.

Lemma override_attrs_safe w env2 s up attrs extra l b :
  venv w env2 (s :: up) -> length attrs <= shape_size s -> numbered attrs ->
  (bb_attrs b).*1 = attrs.*1 ++ extra -> length (bb_attrs b) + length l <= bb_capacity b ->
  Forall (vaddr w) (bb_attrs b).*2 -> Forall (vaddr w) l.*2 ->
  safe F w (override_attrs env2 attrs l b)
    (fun w' b' => pushed w' b (filter (fun n => n ∉ attrs.*1) l.*1) b').
Proof.
  revert w b extra. induction l as [|[name p] l IH]; intros w b extra He Hs Hn Hb Hc Ha Hl; simpl in *.
  - sret. split; [done|by rewrite app_nil_r|done].
  - apply Forall_cons in Hl as [Hp Hl].
    destruct (find_def name attrs) as [j|] eqn:Hf.
    + assert (Hj := find_def_numbered _ _ _ Hn Hf). assert (Hlt := lookup_lt_Some _ _ _ Hj).
      rewrite length_fmap in Hlt.
      assert (Hb' : ad_displ j < length (bb_attrs b)).
      { rewrite <- (length_fmap fst), Hb, length_app, length_fmap. lia. }
      set (b1 := mkBuilder (bb_capacity b) (<[ad_displ j := (name, p)]> (bb_attrs b))).
      eapply (safe_bind _ _ _ (fun _ b' => b' = b1)).
      { unfold builder_set. rewrite (proj2 (Nat.ltb_lt _ _) Hb').
        change (safe F w (let! _ := env_set env2 (ad_displ j) p in ret b1) (fun _ b' => b' = b1)).
        sbind safe_env_set as [] _; [lia|]. by sret. }
      intros w' b' Hle ->. next_world Hle.
      assert (Hnames : (bb_attrs b1).*1 = (bb_attrs b).*1).
      { subst b1. cbn [bb_attrs]. rewrite list_fmap_insert. apply list_insert_id. rewrite Hb. rewrite lookup_app_l; [done|].
        by rewrite length_fmap. }
      eapply safe_mono; [apply (IH w b1 extra)|]; try done.
      * by rewrite Hnames.
      * simpl. rewrite length_insert. lia.
      * subst b1. cbn [bb_attrs]. rewrite list_fmap_insert. by apply Forall_insert.
      * intros w' b' _ [Hc' Hn' Ha']. split; [done| |done]. rewrite Hn', Hnames.
        rewrite filter_cons_False; [done|]. intros Hin. apply Hin. by eapply list_elem_of_lookup_2.
    + sbind safe_push_back as b' ->; [lia|].
      eapply safe_mono; [apply (IH w _ (extra ++ [name]))|]; try done; simpl.
      * rewrite fmap_app, Hb, <- app_assoc. done.
      * rewrite length_app. simpl. lia.
      * rewrite fmap_app. apply Forall_app. split; [done|by constructor].
      * intros w' b' _ [Hc' Hn' Ha']. split; [done| |done]. rewrite Hn'. simpl.
        rewrite filter_cons_True by (by apply find_def_None). by rewrite fmap_app, <- app_assoc.
Qed.

Lemma apply_overrides_safe w env2 s up attrs o b :
  venv w env2 (s :: up) -> length attrs <= shape_size s -> numbered attrs ->
  (bb_attrs b).*1 = attrs.*1 -> find_def sOverrides attrs = Some o -> length (bb_attrs b) <= bb_capacity b ->
  Forall (vaddr w) (bb_attrs b).*2 ->
  safe F w (apply_overrides R env2 attrs o b)
    (fun w' b' => bb_capacity b <= bb_capacity b' /\
       length (bb_attrs b') - length (bb_attrs b) <= bb_capacity b' - bb_capacity b /\
       Forall (vaddr w') (bb_attrs b').*2 /\
       exists names, (bb_attrs b').*1 = attrs.*1 ++ filter (fun n => n ∉ attrs.*1) names /\
         NoDup names /\ Forall (vsym w') names).
Proof.
  intros He Hs Hn Hb Ho Hc Ha. unfold apply_overrides.
  assert (Hj := find_def_numbered _ _ _ Hn Ho). rewrite <- Hb, list_lookup_fmap in Hj.
  destruct (bb_attrs b !! ad_displ o) as [[name p]|] eqn:Hp; simpl in Hj; [|done].
  assert (Hpa : vaddr w p).
  { rewrite Forall_fmap, Forall_forall in Ha. apply (Ha (name, p)). by eapply list_elem_of_lookup_2. }
  sbind forceAttrs_safe as l Hl.
  sbind safe_buildBindings as b2 ->.
  sbind safe_push_all as b2 ->; [simpl; lia|]. simpl.
  eapply safe_mono; [eapply (override_attrs_safe _ _ _ _ _ []); try done|]; simpl.
  - by rewrite Hb, app_nil_r.
  - lia.
  - apply Hl.
  - intros w' b' Hle [Hc' Hn' Ha']. next_world Hle. simpl in *. split; [lia|].
    assert (Hlen : length (bb_attrs b') <= length (bb_attrs b) + length l).
    { rewrite <- (length_fmap fst (bb_attrs b')), Hn', length_app, length_fmap.
      assert (H := length_filter (fun n => n ∉ attrs.*1) l.*1). rewrite length_fmap in H. lia. }
    split; [lia|]. split; [done|]. exists l.*1. rewrite Hn', Hb. split; [done|].
    split; [apply sorted_names_NoDup, Hl|apply Hl].
Qed.

(** Distinct names, sorted unless [sort] says that they will be. *)
Record vbuilder w (b : Builder) (sort : bool) : Prop := {
  vbu_distinct : NoDup (bb_attrs b).*1;
  vbu_sorted : sort = false -> sorted_names (bb_attrs b).*1;
  vbu_syms : Forall (vsym w) (bb_attrs b).*1;
  vbu_addrs : Forall (vaddr w) (bb_attrs b).*2;
}.
Lemma vbuilder_later w w' b sort : later w w' -> vbuilder w b sort -> vbuilder w' b sort.
Proof. intros Hle [? ? ? ?]. split; [done..|by eapply vsyms_later|by eapply vaddrs_later]. Qed.

Lemma vbuilder_bindings w b sort : vbuilder w b sort ->
  vbindings w (if sort then attrs_sort (bb_attrs b) else bb_attrs b).
Proof.
  intros [Hd Hs Hv Ha]. destruct sort; [|by split; auto].
  unfold attrs_sort. split; [by apply stable_sort_names|by rewrite stable_sort_perm..].
Qed.
Lemma vbuilder_sort w b sort : vbuilder w b sort ->
  let b' := if sort then mkBuilder (bb_capacity b) (attrs_sort (bb_attrs b)) else b in
  vbuilder w b' sort /\ sorted_names (bb_attrs b').*1 /\ bb_capacity b' = bb_capacity b /\
  length (bb_attrs b') = length (bb_attrs b).
Proof.
  intros Hb. assert (H := vbuilder_bindings _ _ _ Hb). destruct H as [Hs Hv Ha], Hb as [Hd ? ? ?].
  destruct sort; simpl in *; [|by split_and!; auto].
  assert (Hl : length (attrs_sort (bb_attrs b)) = length (bb_attrs b)).
  { apply Permutation_length. apply stable_sort_perm. }
  split_and!; [|done..]. split; simpl; [by apply sorted_names_NoDup|done..].
Qed.

Lemma vbuilder_push w b sort name p :
  vbuilder w b sort -> name ∉ (bb_attrs b).*1 -> vsym w name -> vaddr w p ->
  vbuilder w (mkBuilder (bb_capacity b) (bb_attrs b ++ [(name, p)])) true.
Proof.
  intros [Hd _ Hv Ha] Hn Hs Hp. split; simpl; rewrite ?fmap_app; [|done|..].
  - apply NoDup_app. split_and!; [done| |apply NoDup_singleton]. intros x Hx ->%list_elem_of_singleton. done.
  - apply Forall_app. split; [done|by constructor].
  - apply Forall_app. split; [done|by constructor].
Qed.

Ltac to_later_builder Hle :=
  repeat match goal with
  | H : vbuilder ?w _ _ |- _ => lazymatch type of Hle with later w _ => apply (vbuilder_later _ _ _ _ Hle) in H end
  end; to_later_sets Hle.

Lemma dynamic_attrs_safe w env S l b sort :
  venv w env S -> all_dynamic (vexpr w S) l -> vbuilder w b sort -> length (bb_attrs b) + length l <= bb_capacity b ->
  safe F w (dynamic_attrs R env l b sort) (fun w' bs => vbuilder w' bs.1 bs.2).
Proof.
  revert w b sort. induction l as [|[n v] l IH]; intros w b sort He Hl Hb Hc; simpl in *; [by sret|].
  destruct Hl as (Hn & Hv & Hl).
  eapply safe_bind; [by eapply eval_tmp_safe|]. intros w' p Hle Hp. to_later_builder Hle.
  eapply safe_bind; [by apply rs_force|]. intros w' x Hle _. to_later_builder Hle.
  assert (x = VNull \/ forall A (a b : A), match x with VNull => a | _ => b end = b) as [-> | Hx]
    by (destruct x; auto); [apply IH; [done..|lia]|]. rewrite Hx.
  eapply safe_bind; [by apply forceStringNoCtx_safe|]. intros w' s Hle _. to_later_builder Hle.
  eapply safe_bind; [apply safe_symbols_create|]. intros w' name Hle [Hname _]. to_later_builder Hle.
  destruct (vbuilder_sort _ _ _ Hb) as (Hb1 & Hs1 & Hc1 & Hl1). clear Hb. cbv zeta in *.
  set (b1 := if sort then _ else b) in *. clearbody b1.
  destruct (attrs_get name (bb_attrs b1)) eqn:Hg; [serr|]. apply attrs_get_None in Hg; [|done].
  eapply safe_bind; [by eapply maybeThunk_safe|]. intros w' q Hle Hq. to_later_builder Hle.
  eapply safe_bind; [apply safe_push_back; lia|]. intros w' b2 Hle ->. to_later_builder Hle.
  apply IH; [done..| |simpl; rewrite length_app; simpl; lia]. by eapply vbuilder_push.
Qed.

Lemma pushed_vbuilder w b' n (attrs : list (Symbol * AttrDef Expr)) (from : option (list Expr)) :
  attrs_ok (length (w_symbols w)) from attrs -> pushed w (mkBuilder n []) attrs.*1 b' ->
  vbuilder w b' false /\ bb_capacity b' = n /\ length (bb_attrs b') = length attrs.
Proof.
  intros (Hs & Hv & _) [Hc Hn Ha]. simpl in *. split; [|split; [done|]].
  - split; rewrite ?Hn; [by apply sorted_names_NoDup|done..].
  - by rewrite <- (length_fmap fst), Hn, length_fmap.
Qed.

(** What is left of [ExprAttrs::eval] once the static attributes are there. *)
Lemma finish_attrs_safe w env S dyn b sort :
  venv w env S -> all_dynamic (vexpr w S) dyn -> vbuilder w b sort -> length (bb_attrs b) + length dyn <= bb_capacity b ->
  safe F w (let! (b, sort) := dynamic_attrs R env dyn b sort in
            ret (VAttrs (if sort then attrs_sort (bb_attrs b) else bb_attrs b))) good.
Proof.
  intros. eapply safe_bind; [by eapply dynamic_attrs_safe|]. intros w' [b' sort'] _ Hb. sret.
  split; [by apply vbuilder_bindings|done].
Qed.

Lemma vdefs_intro w S2 S ie (from : option (list Expr)) attrs :
  attrs_ok (length (w_symbols w)) from attrs ->
  all_attrs (fun k e => wf true (length (w_symbols w)) (chooseByKind k S2 S (SVars (from_size from) :: S2)) e) attrs ->
  (is_Some from -> is_Some ie) -> vdefs w S2 S ie (from_size from) attrs.
Proof.
  intros (_ & _ & Hk) Ha Hi. split; [done|]. eapply Forall_impl; [exact Hk|]. simpl. auto.
Qed.

Lemma eval_attrs_plain_safe w env S attrs from dyn :
  venv w env S -> vexpr w S (ExprAttrs (mkAttrs false attrs from dyn)) ->
  safe F w (eval_attrs R env (mkAttrs false attrs from dyn)) good.
Proof.
  intros Henv He. unfold eval_attrs. cbn [at_attrs at_dynamicAttrs at_recursive at_inheritFromExprs].
  sbind safe_buildBindings as b ->.
  eapply (safe_bind _ _ _ (fun w' x => x.1.2 = env /\ x.2 = false /\
    pushed w' (mkBuilder (length attrs + length dyn) []) attrs.*1 x.1.1)).
  - destruct He as ((Hok & _) & Ha & Hf & _). fold (vexpr w S) in Hf.
    change (all_from (vexpr w S) from) in Hf.
    eapply safeU_bind; [by eapply inherit_env_safe|]. intros U' w' ie Hle (-> & Hi & Hie).
    assert (Hd := vdefs_later _ _ _ _ ie _ _ Hle (vdefs_intro _ _ _ _ _ _ Hok Ha Hi)). next_world Hle.
    eapply safe_bind; [eapply plain_attrs_safe; [split; [exact Henv|exact Henv|exact Hie]|done|simpl; lia|by constructor]|].
    intros w' b Hle Hb. by sret.
  - intros w' [[b denv] sort] Hle H. simpl in H. destruct H as (-> & -> & Hb). next_world Hle.
    destruct He as ((Hok & _) & _ & _ & Hd).
    destruct (pushed_vbuilder _ _ _ _ _ Hok Hb) as (Hb1 & Hb2 & Hb3).
    eapply finish_attrs_safe; [done..|lia].
Qed.

(** The environment and the static attributes of a [rec] set, before [k]. *)
Lemma rec_env_safe {A} w env S attrs from dyn n o (k : addr -> Builder -> M A) Q :
  venv w env S -> vexpr w S (ExprAttrs (mkAttrs true attrs from dyn)) -> length attrs <= n ->
  (forall w' env2 b, later w w' -> venv w' env2 (SVars (length attrs) :: S) ->
     pushed w' (mkBuilder n []) attrs.*1 b -> safe F w' (k env2 b) Q) ->
  safe F w (let! env2 := allocEnv (length attrs) env in
            let! inheritEnv := inherit_env R from env2 in
            let! b := rec_attrs R o env2 env inheritEnv 0 attrs (mkBuilder n []) in
            k env2 b) Q.
Proof.
  intros Henv He Hn Hk. eapply safeU_bind; [by eapply (safeU_allocEnv _ _ _ (SVars (length attrs)))|].
  intros U' w1 env2 Hle1 (-> & HU & He2). to_later Hle1.
  destruct He as ((Hok & _) & Ha & Hf & _). set (S2 := SVars (length attrs) :: S) in *.
  change (all_from (vexpr w1 S2) from) in Hf.
  eapply safeU_bind; [by eapply inherit_env_safe|]. intros U' w2 ie Hle2 (-> & Hi & Hie).
  assert (Hd := vdefs_later _ _ _ _ ie _ _ Hle2 (vdefs_intro _ _ _ _ _ _ Hok Ha Hi)). to_later Hle2.
  eapply safeU_bind; [eapply rec_attrs_safe; [split; [exact He2|exact Henv|exact Hie]|done|simpl; lia|simpl; lia|by constructor]|].
  intros U' w3 b Hle3 [-> Hb]. to_later Hle3.
  eapply safeU_filled; [done|done|done|]. apply Hk; [|done|done]. by repeat (etrans; [eassumption|]).
Qed.

Lemma eval_attrs_rec_safe w env S attrs from dyn :
  venv w env S -> vexpr w S (ExprAttrs (mkAttrs true attrs from dyn)) ->
  safe F w (eval_attrs R env (mkAttrs true attrs from dyn)) good.
Proof.
  intros Henv He. unfold eval_attrs. cbn [at_attrs at_dynamicAttrs at_recursive at_inheritFromExprs].
  sbind safe_buildBindings as b ->.
  eapply (safe_bind _ _ _ (fun w' x => venv w' x.1.2 (SVars (length attrs) :: S) /\ vbuilder w' x.1.1 x.2 /\
    length (bb_attrs x.1.1) + length dyn <= bb_capacity x.1.1)).
  - eapply rec_env_safe; [done|done|lia|]. intros w' env2 b Hle He2 Hb. to_later Hle.
    destruct He as ((Hok & Hnum) & _ & _ & _). assert (Hn := pushed_names _ _ _ _ Hb). simpl in Hn.
    destruct (pushed_vbuilder _ _ _ _ _ Hok Hb) as (Hb1 & Hb2 & Hb3). clear Hle.
    destruct (find_def sOverrides attrs) as [o|] eqn:Ho; [|sret; simpl; split_and!; [done|done|lia]].
    eapply safe_bind; [eapply apply_overrides_safe; [done|simpl; lia|by apply Hnum|done|done|lia|apply Hb1]|].
    intros w2 b' Hle (Hc & Hl & Ha & names & Hn' & Hd & Hs). sret. simpl. destruct Hok as (Hso & Hsy & _).
    split_and!; [by eapply venv_later| |lia]. split; rewrite ?Hn'; [|done| |done].
    + apply NoDup_app. split_and!; [by apply sorted_names_NoDup| |by apply NoDup_filter].
      intros x Hx [? _]%list_elem_of_filter. done.
    + apply Forall_app. split; [by eapply vsyms_later|]. rewrite Forall_forall in Hs. apply Forall_forall.
      intros x [_ Hx]%list_elem_of_filter. by apply Hs.
  - intros w' [[b denv] sort] Hle (Hden & Hb & Hl). simpl in *. to_later Hle.
    destruct He as (_ & _ & _ & Hd). eapply finish_attrs_safe; [done..|lia].
Qed.

Lemma eval_attrs_safe w env S a : venv w env S -> vexpr w S (ExprAttrs a) -> safe F w (eval_attrs R env a) good.
Proof. destruct a as [[] attrs from dyn]; [apply eval_attrs_rec_safe|apply eval_attrs_plain_safe]. Qed.

Lemma eval_let_safe w env S a body : venv w env S -> vexpr w S (ExprLet a body) -> safe F w (eval_let R env a body) good.
Proof.
  destruct a as [r attrs from dyn]. intros Henv He. unfold eval_let. cbn [at_attrs at_inheritFromExprs].
  eapply safeU_bind; [by eapply (safeU_allocEnv _ _ _ (SVars (length attrs)))|].
  intros U' w' env2 Hle (-> & HU & He2). next_world Hle. assert (Hbody := He).
  destruct He as (Hok & Ha & Hf & _). set (S2 := SVars (length attrs) :: S) in *.
  change (all_from (vexpr w S2) from) in Hf.
  eapply safeU_bind; [by eapply inherit_env_safe|]. intros U' w' ie Hle (-> & Hi & Hie).
  assert (Hd := vdefs_later _ _ _ _ ie _ _ Hle (vdefs_intro _ _ _ _ _ _ Hok Ha Hi)). next_world Hle.
  eapply safeU_bind; [eapply let_attrs_safe; [split; [exact He2|exact Henv|exact Hie]|done|simpl; lia]|].
  intros U' w' _ Hle ->. next_world Hle. eapply safeU_filled; [done|done|done|].
  destruct Hbody as (_ & _ & _ & Hbody). by eapply rs_eval.
Qed.

(** ** Selection *)

Lemma select_path_safe w env S def path cur :
  venv w env S -> all_option (vexpr w S) def -> all_path (vexpr w S) path -> vaddr w cur ->
  safe F w (select_path R env def path cur) good.
Proof.
  revert w cur. induction path as [|i path IH]; intros w cur Henv Hdef Hp Hc; cbn [select_path]; [by apply rs_force|].
  assert (Hi : match i with NameExpr e => vexpr w S e | _ => True end /\ all_path (vexpr w S) path) by (by destruct i).
  clear Hp. destruct Hi as [Hi Hp].
  eapply safe_bind; [by eapply getName_safe|]. intros w' name Hle _. clear Hi. next_world Hle.
  destruct def as [d|]; simpl in Hdef.
  - sbind rs_force as v [Hv _]. destruct v; try (by eapply rs_eval).
    destruct (attrs_get name attrs) eqn:Hg; [|by eapply rs_eval]. apply IH; try done. by eapply vbindings_get.
  - sbind forceAttrs_safe as b Hb. destruct (attrs_get name b) eqn:Hg; [|serr].
    apply IH; try done. by eapply vbindings_get.
Qed.
Lemma eval_select_safe w env S e path def :
  venv w env S -> vexpr w S (ExprSelect e path def) -> safe F w (eval_select R env e path def) good.
Proof.
  intros Henv He. unfold eval_select. destruct He as (He & Hp & Hd).
  change (vexpr w S e) in He. change (all_path (vexpr w S) path) in Hp. change (all_option (vexpr w S) def) in Hd.
  sbind eval_tmp_safe as p Hv. by eapply select_path_safe.
Qed.

Lemma has_path_safe w env S path cur :
  venv w env S -> all_path (vexpr w S) path -> vaddr w cur -> safe F w (has_path R env path cur) good.
Proof.
  revert w cur. induction path as [|i path IH]; intros w cur Henv Hp Hc; cbn [has_path]; [by sret|].
  assert (Hi : match i with NameExpr e => vexpr w S e | _ => True end /\ all_path (vexpr w S) path) by (by destruct i).
  clear Hp. destruct Hi as [Hi Hp].
  eapply safe_bind; [by apply rs_force|]. intros w' v Hle [Hv _].
  assert (Hi' : match i with NameExpr e => vexpr w' S e | _ => True end) by (destruct i; [done|by eapply vexpr_later]).
  clear Hi. next_world Hle.
  eapply safe_bind; [by eapply getName_safe|]. intros w' name Hle _. clear Hi'. next_world Hle.
  destruct v; try (by sret). destruct (attrs_get name attrs) eqn:Hg; [|by sret].
  apply IH; try done. by eapply vbindings_get.
Qed.
Lemma eval_hasAttr_safe w env S e path :
  venv w env S -> vexpr w S (ExprOpHasAttr e path) -> safe F w (eval_hasAttr R env e path) good.
Proof.
  intros Henv He. unfold eval_hasAttr. destruct He as (He & Hp).
  change (vexpr w S e) in He. change (all_path (vexpr w S) path) in Hp.
  sbind eval_tmp_safe as p Hv. by eapply has_path_safe.
Qed.

Lemma safe_pure {A} w (m : M A) a (Q : world -> A -> Prop) :
  (forall st, m st = (Ok a, st)) -> Q w a -> safe F w m Q.
Proof. intros Hm HQ st Hst HF. rewrite Hm. by exists ∅, w. Qed.

Lemma vbindings_updates w i j l : vbindings w i -> vbindings w j -> updates i j l -> vbindings w l.
Proof.
  intros Hi Hj [Hs Hu].
  assert (Hl : forall n p, (n, p) ∈ l -> vsym w n /\ vaddr w p).
  { intros n p [Hin|[Hin _]]%Hu; (eapply vbindings_elem; [|exact Hin]; done). }
  split; [done|..]; apply Forall_forall.
  - intros n [[m p] [-> Hin]]%list_elem_of_fmap. by apply Hl in Hin as [? _].
  - intros n [[m p] [-> Hin]]%list_elem_of_fmap. by apply Hl in Hin as [_ ?].
Qed.

Lemma eval_update_safe w env S e1 e2 : venv w env S -> vexpr w S e1 -> vexpr w S e2 ->
  safe F w (eval_update R env e1 e2) good.
Proof.
  intros Henv H1 H2. unfold eval_update. sbind evalAttrs_safe as a1 Ha1. sbind evalAttrs_safe as a2 Ha2.
  case_bool_decide; [by sret|]. case_bool_decide; [by sret|].
  sbind safe_buildBindings as b ->.
  eapply (safe_bind _ _ _ (fun w' b => vbindings w' (bb_attrs b))).
  - intros st Hst HF.
    destruct (update_loop_eq (Datatypes.S (length a1 + length a2)) a1 a2 (mkBuilder (length a1 + length a2) []) st)
      as (l & -> & Hl); [apply Ha1|apply Ha2|lia|simpl; lia|].
    exists ∅, w. split_and!; [done..|]. simpl. by apply (vbindings_updates w a1 a2).
  - intros w' b _ Hb. by sret.
Qed.

(** ** Functions *)

Definition args_used (attrs : Bindings) (formals : list (Formal Expr)) : nat :=
  length (filter (fun f => is_Some (attrs_get (fm_name f) attrs)) formals).

Lemma bind_args_safe U w env2 s up attrs displ formals used :
  venv w env2 (s :: up) -> vbindings w attrs -> all_formals (vexpr w (s :: up)) formals ->
  displ + length formals <= shape_size s ->
  safeU F (<[env2 := displ]> U) w (bind_args R env2 attrs displ formals used)
    (fun U' w' n => U' = <[env2 := displ + length formals]> U /\ n = used + args_used attrs formals).
Proof.
  revert w displ used. induction formals as [|[name def] formals IH]; intros w displ used He Ha Hf Hd; simpl in *.
  - apply safeU_ret. by rewrite !Nat.add_0_r.
  - destruct Hf as [Hdef Hf]. unfold args_used in *. rewrite filter_cons. cbn [fm_name].
    destruct (attrs_get name attrs) as [p|] eqn:Hg.
    + eapply safeU_bind; [eapply safeU_env_set; [done|lia|by eapply vbindings_get]|].
      intros U' w' _ Hle ->. next_world Hle. rewrite decide_True by (by eexists).
      eapply safeU_mono; [apply IH; [done..|lia]|]. simpl. intros U' w' n _ [-> ->]. split; [f_equal; lia|lia].
    + destruct def as [d|]; [|by apply safeU_error].
      eapply safeU_bind; [by eapply maybeThunk_safeU|]. intros U' w' p Hle [-> Hp]. simpl in Hdef. next_world Hle.
      eapply safeU_bind; [eapply safeU_env_set; [done|lia|done]|]. intros U' w' _ Hle ->. next_world Hle.
      rewrite decide_False by (by intros []).
      eapply safeU_mono; [apply IH; [done..|lia]|]. simpl. intros U' w' n _ [-> ->]. split; [f_equal; lia|done].
Qed.

(** If every attribute is a formal, every attribute has been used. *)
Lemma has_elem (formals : list (Formal Expr)) name : has formals name = true -> name ∈ fm_name <$> formals.
Proof.
  unfold has. destruct (filter _ formals) as [|f l] eqn:Hf; [done|]. case_bool_decide; [|done]. intros _. subst name.
  apply list_elem_of_fmap. exists f. split; [done|].
  assert (H : f ∈ filter (fun f' => ~ (fm_name f' < fm_name f)%Z) formals) by (rewrite Hf; left).
  by apply list_elem_of_filter in H as [_ ?].
Qed.
Lemma all_args_used w attrs formals N : vbindings w attrs -> formals_ok N formals ->
  existsb (fun kv : Symbol * addr => negb (has formals kv.1)) attrs = false -> args_used attrs formals = length attrs.
Proof.
  intros Hb [Hs _] He. unfold args_used. set (fs := filter _ formals).
  rewrite <- (length_fmap fm_name fs), <- (length_fmap fst attrs).
  assert (Hin : forall n, n ∈ fm_name <$> fs <-> n ∈ attrs.*1).
  { intros n. rewrite !list_elem_of_fmap. split.
    - intros (f & -> & [Hg Hf]%list_elem_of_filter). destruct Hg as [p Hp]. exists (fm_name f, p).
      split; [done|]. by apply attrs_get_elem.
    - intros ([m p] & -> & Hin). simpl.
      assert (Hh : has formals m = true).
      { apply Bool.negb_false_iff. destruct (negb (has formals m)) eqn:Hn; [|done]. rewrite <- He. symmetry.
        apply existsb_exists. exists (m, p). split; [by apply list_elem_of_In|done]. }
      apply has_elem, list_elem_of_fmap in Hh as (f & -> & Hf). exists f. split; [done|].
      apply list_elem_of_filter. split; [|done]. exists p. apply attrs_get_spec; [apply Hb|done]. }
  apply Permutation_length. apply NoDup_Permutation; [|apply sorted_names_NoDup, Hb|done].
  assert (Hd : NoDup (fm_name <$> formals)) by (by apply sorted_names_NoDup).
  clear -Hd. subst fs. induction formals as [|f formals IH]; [constructor|].
  apply NoDup_cons in Hd as [Hn Hd]. rewrite filter_cons. case_decide; [|by apply IH].
  apply NoDup_cons. split; [|by apply IH]. intros Hin. apply Hn.
  apply list_elem_of_fmap in Hin as (g & Hg & Hin). apply list_elem_of_filter in Hin as [_ ?].
  apply list_elem_of_fmap. eauto.
Qed.
End eval_safe.

Lemma safe_ext {A} F w (m m' : M A) Q : (forall st, m st = m' st) -> safe F w m' Q -> safe F w m Q.
Proof. intros Hm H st Hst HF. rewrite Hm. by apply H. Qed.

Lemma ebind_assoc {A B C} (m : M A) (k : A -> M B) (h : B -> M C) st :
  ebind (ebind m k) h st = ebind m (fun a => ebind (k a) h) st.
Proof. unfold ebind. by destruct (m st) as [[a|f] st']. Qed.

Section call_safe.
Context (R : Rec) {HR : Rec_safe R}.
Context (maxCallDepth : nat).
Context (F : gmap addr Env).
Implicit Types w : world.

Lemma lambda_size_shape f : lambda_size f = shape_size (SVars (arg_size (lam_arg f) (lam_formals f))).
Proof. destruct f as [[] [] body]; done. Qed.

(** The formals of a function, in an environment that has been allocated. *)
Lemma bind_formals_safe w env2 up f fs ell attrs arg :
  lam_formals f = Some (mkFormals fs ell) ->
  venv w env2 (SVars (arg_size (lam_arg f) (lam_formals f)) :: up) ->
  vexpr w up (lambda_expr f) -> vbindings w attrs -> vaddr w arg ->
  safeU F {[ env2 := 0 ]} w
    (let! displ :=
       match lam_arg f with
       | Some _ => let! _ := env_set env2 0 arg in ret 1
       | None => ret 0
       end in
     let! attrsUsed := bind_args R env2 attrs displ fs 0 in
     if negb ell && negb (attrsUsed =? length attrs) then
       if existsb (fun kv => negb (has fs kv.1)) attrs then error TypeError else fail AssertFailed
     else ret tt)
    (fun U' _ _ => U' = ∅).
Proof.
  destruct f as [o formals body]. cbn [lam_arg lam_formals]. intros -> He [[Hok Hfs] _] Ha Harg.
  assert (Hsz : length (option_list o) + length fs = arg_size o (Some (mkFormals fs ell))) by done.
  assert (exists N, formals_ok N fs) as [N HN] by eauto.
  simpl in Hfs. set (n := arg_size o _) in *. change (all_formals (vexpr w (SVars n :: up)) fs) in Hfs.
  change {[env2 := 0]} with (<[env2 := 0]> (∅ : gmap addr nat)).
  eapply (safeU_bind _ _ _ _ (fun U' _ d => U' = <[env2 := d]> ∅ /\ d = length (option_list o))).
  { destruct o as [s|]; [|by apply safeU_ret].
    eapply safeU_bind; [eapply safeU_env_set; [done|simpl in *; lia|done]|]. intros U' w' _ _ ->. by apply safeU_ret. }
  intros U' w' displ Hle [-> ->].
  next_world Hle. eapply safeU_bind; [eapply bind_args_safe; [done|done|done|simpl; lia]|].
  intros U' w' used Hle [-> ->]. next_world Hle.
  eapply safeU_filled; [done|done|done|]. simpl.
  destruct (negb ell && _) eqn:Hu; [|by apply safeU_ret].
  destruct (existsb _ attrs) eqn:Hex; [by apply safeU_error|].
  erewrite all_args_used in Hu by done. rewrite Nat.eqb_refl, andb_false_r in Hu. done.
Qed.

Lemma call_lambda_safe w env S f arg : venv w env S -> vexpr w S (lambda_expr f) -> vaddr w arg ->
  safe F w (call_lambda R env f arg) good.
Proof.
  intros Henv Hf Harg. unfold call_lambda. destruct (lam_formals f) as [[fs ell]|] eqn:Hfs.
  - eapply safe_ext.
    { intros st. unfold ebind at 1. cbn [allocEnv]. rewrite ebind_assoc. reflexivity. }
    change (safe F w (let! env2 := allocEnv (lambda_size f) env in
      let! attrs := forceAttrs R arg in
      let! _ := (let! displ := match lam_arg f with
                               | Some _ => let! _ := env_set env2 0 arg in ret 1
                               | None => ret 0
                               end in
                 let! attrsUsed := bind_args R env2 attrs displ fs 0 in
                 if negb ell && negb (attrsUsed =? length attrs) then
                   if existsb (fun kv => negb (has fs kv.1)) attrs then error TypeError else fail AssertFailed
                 else ret tt) in
      r_eval R env2 (lam_body f)) good).
    eapply safe_allocEnv_delayed; [apply lambda_size_shape|done|intros F'; by apply forceAttrs_safe|].
    intros w1 w2 env2 attrs Hle1 Ha Hle2 He2. to_later Hle1. to_later Hle2. clear Hle1 Hle2.
    eapply safeU_bind; [by eapply bind_formals_safe|]. intros U' w' _ Hle ->. to_later Hle.
    eapply rs_eval; [done|]. by destruct f as [o fo body], Hf as [_ Hb].
  - eapply safeU_bind; [eapply safeU_allocEnv; [apply lambda_size_shape|done]|].
    intros U' w' env2 Hle (-> & HU & He2). next_world Hle. destruct f as [o formals body]. simpl in Hfs. subst formals.
    destruct Hf as [[s Hs] Hb]. simpl in Hs. subst o.
    eapply safeU_bind; [eapply safeU_env_set; [done|apply Nat.lt_0_1|done]|]. intros U' w' _ Hle ->. to_later Hle.
    eapply safeU_filled; [done|done|done|]. eapply rs_eval; [done|].
    eapply (wf_more_symbols (length (w_symbols w))); [by apply symbols_later|done].
Qed.

(** ** Partial applications *)

(** [v] is [p] applied to [n] arguments. *)
Definition applied w (v : Value) (p : builtin) (n : nat) : Prop :=
  match v with
  | VPrimOp q => q = p /\ n = 0
  | VPrimOpApp l r => exists m, n = S m /\ chain w l p m /\ vaddr w r
  | _ => False
  end.
Lemma applied_good w v p n : applied w v p n -> n < arity p -> allowed p -> good w v.
Proof.
  intros Hv Hn Hp. destruct v; simpl in Hv; try done.
  - destruct Hv as [-> ->]. by split.
  - destruct Hv as (m & -> & Hc & Hr). split; [|done]. exists p, m. by split_and!.
Qed.
Lemma good_applied w v : good w v -> match v with VPrimOp _ | VPrimOpApp _ _ => True | _ => False end ->
  exists p n, applied w v p n /\ n < arity p /\ allowed p.
Proof.
  intros [Hv _] Hp. destruct v; simpl in *; try done.
  - exists p, 0. split_and!; [done|done| |done]. by destruct p; simpl; lia.
  - destruct Hv as (p & n & ? & ? & ? & ?). exists p, (S n). split_and!; eauto.
Qed.
Lemma applied_later w w' v p n : later w w' -> applied w v p n -> applied w' v p n.
Proof.
  intros Hle. destruct v; simpl; try done. intros (m & -> & ? & ?). exists m.
  split_and!; [done|by eapply chain_later|by eapply vaddr_later].
Qed.
Lemma applied_chain w v p n l : vaddr w l -> w_frozen w !! l = Some v -> applied w v p n -> chain w l p n.
Proof.
  intros Hl Hf Hv. destruct v; simpl in Hv; try done.
  - destruct Hv as [-> ->]. by constructor.
  - destruct Hv as (m & -> & ? & ?). by econstructor.
Qed.
Lemma chain_applied w l p n : chain w l p n -> vaddr w l /\ exists v, w_frozen w !! l = Some v /\ applied w v p n.
Proof.
  destruct 1 as [l p Hl Hf|l l' r p n Hl Hf Hc Hr]; (split; [done|]); eexists; (split; [exact Hf|]); simpl; eauto.
Qed.

Lemma makeAppChain_safe w v p n args :
  applied w v p n -> n + length args < arity p -> allowed p -> Forall (vaddr w) args ->
  safe F w (makeAppChain v args) good.
Proof.
  revert w v n. induction args as [|arg args IH]; intros w v n Hv Hn Hp Hargs; simpl in *.
  - sret. eapply applied_good; [done|lia|done].
  - apply Forall_cons in Hargs as [Harg Hargs].
    assert (Hg : good w v) by (eapply applied_good; [done|lia|done]).
    eapply safe_bind; [apply safe_allocFrozen; apply Hg|]. intros w' l Hle [Hl Hf].
    apply (applied_later _ _ _ _ _ Hle) in Hv. to_later Hle.
    apply (IH _ _ (S n)); [|lia|done|done]. exists n. split_and!; [done|by eapply applied_chain|done].
Qed.

Lemma safe_read_frozen w l v : vaddr w l -> w_frozen w !! l = Some v -> safe F w (read l) (fun _ v' => v' = v).
Proof.
  intros Hl Hf st Hst HF. unfold read.
  rewrite (lookup_weaken _ (es_values st) _ _ Hf) by apply Hst. by exists ∅, w.
Qed.

Lemma app_chain_safe w fuel v p n args :
  applied w v p n -> n <= fuel -> Forall (vaddr w) args ->
  safe F w (app_chain fuel v args) (fun w' x => x.1 = p /\ length x.2 = n + length args /\ Forall (vaddr w') x.2).
Proof.
  revert w v n args. induction fuel as [|fuel IH]; intros w v n args Hv Hn Hargs.
  - destruct v; simpl in *; try done.
    + sret. by destruct Hv as [-> ->].
    + destruct Hv as (m & -> & _). lia.
  - destruct v; simpl in *; try done.
    + sret. by destruct Hv as [-> ->].
    + destruct Hv as (m & -> & Hc & Hr). destruct (chain_applied _ _ _ _ Hc) as (Hl & v & Hf & Hv).
      eapply safe_bind; [by apply safe_read_frozen|]. intros w' v' Hle ->.
      apply (applied_later _ _ _ _ _ Hle) in Hv. to_later Hle.
      eapply safe_mono; [apply (IH _ _ m); [done|lia|by constructor]|].
      simpl. intros w2 x _ (? & ? & ?). split_and!; [done|lia|done].
Qed.

Lemma arity_bounds p : 1 <= arity p <= maxPrimOpArity.
Proof. unfold maxPrimOpArity. destruct p; simpl; lia. Qed.

Lemma call_loop_safe w fuel vCur args :
  good w vCur -> Forall (vaddr w) args -> length args <= fuel -> safe F w (call_loop R fuel vCur args) good.
Proof.
  revert w vCur args. induction fuel as [|fuel IH]; intros w vCur args Hv Hargs Hl.
  { destruct args; simpl in *; [by sret|lia]. }
  destruct args as [|arg rest]; [by sret|]. assert (Hargs' := Hargs). apply Forall_cons in Hargs' as [Harg Hrest].
  simpl in Hl. destruct vCur; try serr; cbn [call_loop].
  - (* functor *)
    destruct (attrs_get sFunctor attrs) as [f|] eqn:Hf; [|serr]. destruct Hv as [Hv _].
    assert (Hfa : vaddr w f) by (by eapply vbindings_get).
    sbind safe_allocValue as self Hs. sbind rs_call as v Hg. apply IH; [done|done|lia].
  - destruct Hv as [(S & Henv & Hf) _]. sbind call_lambda_safe as v Hg. apply IH; [done|done|lia].
  - destruct (good_applied w (VPrimOp p)) as (q & n & [-> ->] & Hn & Hp); [done|done|].
    case_match eqn:Hlt; [apply Nat.ltb_lt in Hlt|apply Nat.ltb_ge in Hlt].
    + by eapply (makeAppChain_safe _ _ _ 0).
    + sbind rs_primop as v Hg; [rewrite length_take; lia|by apply Forall_take|].
      apply IH; [done|by apply Forall_drop|]. rewrite length_drop. simpl in *. lia.
  - destruct (good_applied w (VPrimOpApp left right)) as (p & n & Ha & Hn & Hp); [done|done|].
    assert (Hb := arity_bounds p).
    eapply safe_bind; [eapply app_chain_safe; [done|lia|constructor]|]. intros w' [q done_] Hle H. simpl in H.
    destruct H as (-> & Hdone & Hda). apply (applied_later _ _ _ _ _ Hle) in Ha. to_later Hle. clear Hv Hle.
    rewrite Nat.add_0_r in Hdone.
    case_match eqn:Hlt; [apply Nat.ltb_lt in Hlt|apply Nat.ltb_ge in Hlt].
    + eapply makeAppChain_safe; [done|lia|done|done].
    + sbind rs_primop as v Hg.
      * rewrite length_app, length_take. lia.
      * apply Forall_app. split; [done|by apply Forall_take].
      * apply IH; [done|by apply Forall_drop|]. rewrite length_drop. simpl in *. lia.
Qed.

Lemma callDepth_valid U w st n : valid U w st -> valid U w (set_callDepth n st).
Proof. intros []. by split. Qed.
Lemma with_callDepth_safe {A} w (m : M A) Q : safe F w m Q -> safe F w (with_callDepth maxCallDepth m) Q.
Proof.
  intros Hm st Hst HF. unfold with_callDepth. destruct (_ <? _); [by apply (safe_error w)|].
  specialize (Hm (set_callDepth (S (es_callDepth st)) st) (callDepth_valid _ _ _ _ Hst) HF).
  destruct (m _) as [[a|f] st']; simpl in *.
  - destruct Hm as (U' & w' & ? & ? & ? & ?). exists U', w'. split; [done|]. split; [by apply callDepth_valid|]. split; assumption.
  - destruct Hm as [? Hm]. split; [done|]. intros Hf. destruct (Hm Hf) as (w' & ? & ? & ?).
    exists w'. split_and!; [done|by apply callDepth_valid|done].
Qed.

Lemma callFunction_safe w f args : vaddr w f -> Forall (vaddr w) args ->
  safe F w (callFunction R maxCallDepth f args) good.
Proof.
  intros Hf Ha. apply with_callDepth_safe. sbind rs_force as v Hv. by apply call_loop_safe.
Qed.

Lemma mmap_safe {A B} (P : world -> B -> Prop) (f : A -> M B) (I : world -> A -> Prop) w l :
  (forall w w' a, later w w' -> I w a -> I w' a) -> (forall w w' b, later w w' -> P w b -> P w' b) ->
  (forall w a, I w a -> safe F w (f a) P) -> Forall (I w) l ->
  safe F w (mmap f l) (fun w' bs => Forall (P w') bs).
Proof.
  intros HI HP Hf. revert w. induction l as [|a l IH]; intros w Hl; simpl; [by sret|].
  apply Forall_cons in Hl as [Ha Hl].
  eapply safe_bind; [by apply Hf|]. intros w1 b Hle1 Hb.
  eapply safe_bind; [apply IH; eapply Forall_impl; [exact Hl|]; eauto|]. intros w2 bs Hle2 Hbs.
  sret. constructor; [|done]. by eapply HP.
Qed.

Lemma maybeThunks_safe w env S es : venv w env S -> all_list (vexpr w S) es ->
  safe F w (mmap (maybeThunk R env) es) (fun w' l => Forall (vaddr w') l).
Proof.
  intros Henv Hes. apply (mmap_safe vaddr _ (fun w e => venv w env S /\ vexpr w S e)).
  - intros ? ? ? Hle [? ?]. split; [by eapply venv_later|by eapply vexpr_later].
  - intros ? ? ? Hle ?. by eapply vaddr_later.
  - intros ? ? [? ?]. by eapply maybeThunk_safe.
  - clear -Henv Hes. induction es as [|e es IH]; constructor; destruct Hes; auto.
Qed.

Lemma eval_call_safe w env S f args : venv w env S -> vexpr w S (ExprCall f args) ->
  safe F w (eval_call R env f args) good.
Proof.
  intros Henv [Hf Ha]. unfold eval_call. change (vexpr w S f) in Hf. change (all_list (vexpr w S) args) in Ha.
  sbind eval_tmp_safe as vf Hvf. sbind maybeThunks_safe as vs Hvs. by apply rs_call.
Qed.
End call_safe.

(** ** Equality, strings and lists *)

Lemma whnf_types v1 v2 : whnf v1 -> bool_decide (type v1 = type v2) && bool_decide (type v1 = nThunk) = false.
Proof. intros Hw. rewrite (bool_decide_false (type v1 = nThunk)) by done. apply andb_false_r. Qed.

Section rest_safe.
Context (R : Rec) {HR : Rec_safe R}.
Context (storeDir : bytes) (fetchToStore : bytes -> result StorePath).
Context (Hfetch : forall path f, fetchToStore path = Err f -> benign f).
Context (F : gmap addr Env).
Implicit Types w : world.

Lemma isDerivation_safe w v : vvalue w v -> safe F w (isDerivation R v) any.
Proof.
  intros Hv. destruct v; try by sret. simpl. destruct (attrs_get sType attrs) as [i|] eqn:Hi; [|by sret].
  assert (vaddr w i) by (by eapply vbindings_get). sbind rs_force as t [Ht _]. by sret.
Qed.
Lemma both_outPath_safe w b1 b2 : vbindings w b1 -> vbindings w b2 ->
  safe F w (both_outPath R (VAttrs b1) (VAttrs b2) b1 b2)
    (fun w' o => vbindings w' b1 /\ vbindings w' b2 /\ forall i j, o = Some (i, j) -> vaddr w' i /\ vaddr w' j).
Proof.
  intros H1 H2. unfold both_outPath. sbind isDerivation_safe as d1 _.
  eapply (safe_bind _ _ _ any); [destruct d1; [by apply isDerivation_safe|by sret]|].
  intros w' d2 Hle _. next_world Hle. sret. split_and!; [done..|]. intros i j. destruct (d1 && d2); [|done].
  destruct (attrs_get sOutPath b1) eqn:Hi, (attrs_get sOutPath b2) eqn:Hj; try done. intros [= <- <-].
  split; [exact (vbindings_get _ _ _ _ H1 Hi)|exact (vbindings_get _ _ _ _ H2 Hj)].
Qed.

Lemma eq_list_safe w l1 l2 : Forall (vaddr w) l1 -> Forall (vaddr w) l2 -> safe F w (eq_list R l1 l2) any.
Proof.
  revert w l2. induction l1 as [|p1 l1 IH]; intros w [|p2 l2] H1 H2; simpl; try by sret.
  apply Forall_cons in H1 as [? ?]. apply Forall_cons in H2 as [? ?].
  sbind rs_eq as b _. destruct b; [by apply IH|by sret].
Qed.
Lemma eq_attrs_safe w b1 b2 : Forall (vaddr w) b1.*2 -> Forall (vaddr w) b2.*2 -> safe F w (eq_attrs R b1 b2) any.
Proof.
  revert w b2. induction b1 as [|[n1 p1] l1 IH]; intros w [|[n2 p2] l2] H1 H2; simpl; try by sret.
  apply Forall_cons in H1 as [? H1]. apply Forall_cons in H2 as [? H2]. simpl in *.
  change (Forall (vaddr w) l1.*2) in H1. change (Forall (vaddr w) l2.*2) in H2.
  case_bool_decide; [|by sret]. sbind rs_eq as b _. destruct b; [by apply IH|by sret].
Qed.

Lemma eqValues_safe w p1 p2 : vaddr w p1 -> vaddr w p2 -> safe F w (eqValues R p1 p2) any.
Proof.
  intros H1 H2. unfold eqValues. sbind rs_force as v1 [Hv1 Hw1]. sbind rs_force as v2 [Hv2 _].
  case_bool_decide; [by sret|].
  destruct v1, v2; try (rewrite whnf_types by done); try by sret.
  - eapply safe_bind; [by apply both_outPath_safe|]. intros w' o Hle (Hb1 & Hb2 & Ho).
    destruct o as [[i j]|]; [destruct (Ho i j eq_refl); by apply rs_eq|]. destruct (_ =? _); [|by sret].
    apply eq_attrs_safe; [apply Hb1|apply Hb2].
  - destruct (_ =? _); [by apply eq_list_safe|by sret].
Qed.

Lemma assertEq_list_safe w l1 l2 : Forall (vaddr w) l1 -> Forall (vaddr w) l2 -> safe F w (assertEq_list R l1 l2) any.
Proof.
  revert w l2. induction l1 as [|p1 l1 IH]; intros w [|p2 l2] H1 H2; simpl; try by sret.
  apply Forall_cons in H1 as [? ?]. apply Forall_cons in H2 as [? ?].
  sbind rs_assertEq as b _. by apply IH.
Qed.
Lemma assertEq_attrs_safe w names b1 b2 i j :
  b1.*1 = names ++ i.*1 -> b2.*1 = names ++ j.*1 -> sorted_names b1.*1 -> sorted_names b2.*1 ->
  Forall (vaddr w) i.*2 -> Forall (vaddr w) j.*2 -> safe F w (assertEq_attrs R b1 b2 i j) any.
Proof.
  revert w names j. induction i as [|[n1 p1] i IH]; intros w names [|[n2 p2] j] Hb1 Hb2 Hs1 Hs2 H1 H2; simpl; try by sret.
  apply Forall_cons in H1 as [? H1]. apply Forall_cons in H2 as [? H2]. simpl in *.
  change (Forall (vaddr w) i.*2) in H1. change (Forall (vaddr w) j.*2) in H2.
  case_bool_decide as Hn; [subst n2|].
  - sbind rs_assertEq as b _. apply (IH _ (names ++ [n1])); [..|done|done]; try done; by rewrite <- app_assoc.
  - case_bool_decide as Hg1; [serr|]. case_bool_decide as Hg2; [serr|].
    rewrite attrs_get_None in Hg1 by done. rewrite attrs_get_None in Hg2 by done. exfalso.
    rewrite Hb1, Hb2 in *. destruct (first_difference names n1 n2 i.*1 j.*1) as [?|?]; done.
Qed.

Lemma assertEqValues_safe w p1 p2 : vaddr w p1 -> vaddr w p2 -> safe F w (assertEqValues R p1 p2) any.
Proof.
  intros H1 H2. unfold assertEqValues. sbind rs_force as v1 [Hv1 Hw1]. sbind rs_force as v2 [Hv2 _].
  case_bool_decide; [by sret|].
  destruct (numeric v1 && numeric v2).
  { sbind rs_eq as b _. destruct b; [by sret|serr]. }
  destruct v1, v2; try (rewrite whnf_types by done); try serr; try by sret.
  - unfold assert_that. case_match; [by sret|serr].
  - unfold assert_that. case_match; [by sret|serr].
  - unfold assert_that. case_match; [by sret|serr].
  - eapply safe_bind; [by apply both_outPath_safe|]. intros w' o Hle (Hb1 & Hb2 & Ho).
    destruct o as [[i j]|]; [destruct (Ho i j eq_refl); by apply rs_assertEq|]. destruct (_ =? _); [|serr].
    apply (assertEq_attrs_safe _ []); [done|done|apply Hb1|apply Hb2|apply Hb1|apply Hb2].
  - destruct (_ =? _); [by apply assertEq_list_safe|serr].
Qed.

Lemma copyPathToStore_safe w ctx path : safe F w (copyPathToStore fetchToStore ctx path) any.
Proof.
  unfold copyPathToStore. case_bool_decide; [serr|].
  eapply (safe_bind _ _ _ any); [|intros w' p _ _; by sret].
  intros st Hst HF. destruct (smap_lookup path (es_srcToStore st)) as [p|]; [by exists ∅, w|].
  destruct (fetchToStore path) as [p|f] eqn:Hf.
  - exists ∅, w. split_and!; [done| |exact HF|done..]. by destruct Hst; split.
  - split; [by eapply Hfetch|]. intros _. by exists w.
Qed.

Lemma coerce_list_safe w l ctx more copy canon acc : Forall (vaddr w) l ->
  safe F w (coerce_list R l ctx more copy canon acc) any.
Proof.
  revert w ctx acc. induction l as [|p l IH]; intros w ctx acc Hl; simpl; [by sret|].
  apply Forall_cons in Hl as [Hp Hl]. sbind rs_coerce as [s c] _. sbind safe_read as v _. by apply IH.
Qed.

Lemma coerceToString_safe w p ctx more copy canon : vaddr w p ->
  safe F w (coerceToString R storeDir fetchToStore p ctx more copy canon) any.
Proof.
  intros Hp. unfold coerceToString. sbind rs_force as v [Hv _].
  destruct v; try (destruct more; (serr || by sret)).
  - destruct (_ && _); [by sret|]. destruct copy; [|by sret]. sbind copyPathToStore_safe as [d c] _. by sret.
  - destruct (attrs_get sToString attrs) as [i|] eqn:Hi.
    + assert (vaddr w i) by (by eapply vbindings_get). sbind rs_call as v1 [Hv1 _].
      sbind safe_allocValue as p1 Hp1. by apply rs_coerce.
    + destruct (attrs_get sOutPath attrs) as [i|] eqn:Ho; [|serr]. apply rs_coerce. by eapply vbindings_get.
  - destruct more; [by apply coerce_list_safe|serr].
Qed.

Lemma concat_step_safe w env S i c : venv w env S -> vexpr w S i -> safe F w (concat_step R env i c) any.
Proof.
  intros Henv Hi. unfold concat_step. sbind eval_tmp_safe as p Hp. sbind safe_read as v _.
  destruct (if cs_first c then type v else cs_firstType c) eqn:Ht;
    try (sbind rs_coerce as [s ctx] _; by sret).
  - destruct v; try serr; [destruct (checked_add _ _); [by sret|serr]|by sret].
  - destruct v; try serr; by sret.
Qed.
Lemma concat_loop_safe w env S es c : venv w env S -> all_list (vexpr w S) es -> safe F w (concat_loop R env es c) any.
Proof.
  revert w c. induction es as [|e es IH]; intros w c Henv Hes; simpl; [by sret|].
  destruct Hes as [He Hes]. change (all_list (vexpr w S) es) in Hes. sbind concat_step_safe as c' _. by apply IH.
Qed.
Lemma eval_concatStrings_safe w env S force es : venv w env S -> all_list (vexpr w S) es ->
  safe F w (eval_concatStrings R env force es) good.
Proof.
  intros Henv Hes. unfold eval_concatStrings. sbind concat_loop_safe as c _.
  destruct (cs_firstType c); try by sret. case_bool_decide; [|serr].
  eapply (safe_bind _ _ _ any); [|intros w' p _ _; by sret]. apply safe_lift. by rewrite CanonPath_raw_ref.
Qed.

Lemma forceLists_safe w ls : Forall (vaddr w) ls ->
  safe F w (mmap (forceList R) ls) (fun w' lists => Forall (Forall (vaddr w')) lists).
Proof.
  intros Hl. apply (mmap_safe _ (fun w l => Forall (vaddr w) l) _ vaddr); [..|done].
  - intros ? ? ? Hle. by apply vaddr_later.
  - intros ? ? ? Hle. by apply vaddrs_later.
  - intros ? ? ?. by apply forceList_safe.
Qed.
Lemma concatLists_safe w ls : Forall (vaddr w) ls -> safe F w (concatLists R ls) good.
Proof.
  intros Hl. unfold concatLists. sbind forceLists_safe as lists Hls.
  assert (Hc : good w (VList (concat lists))) by (split; [by apply Forall_concat|done]).
  destruct (last _) as [l|] eqn:Hlast; [|by sret]. destruct (_ =? _); sret; [|done]. split; [|done].
  apply last_Some_elem_of, list_elem_of_filter in Hlast as [_ Hin]. rewrite Forall_forall in Hls. by apply Hls.
Qed.

Lemma deep_list_safe w l seen : Forall (vaddr w) l -> safe F w (deep_list R l seen) any.
Proof.
  revert w seen. induction l as [|p l IH]; intros w seen Hl; simpl; [by sret|].
  apply Forall_cons in Hl as [Hp Hl]. sbind rs_deep as s _. by apply IH.
Qed.
Lemma forceValueDeep_safe w seen p : vaddr w p -> safe F w (forceValueDeep R seen p) any.
Proof.
  intros Hp. unfold forceValueDeep. case_bool_decide; [by sret|]. sbind rs_force as v [Hv _].
  destruct v; try (by sret); [by apply deep_list_safe, Hv|by apply deep_list_safe].
Qed.

(** ** Expressions *)

Lemma eval_binop_safe w env S op e1 e2 : venv w env S -> vexpr w S e1 -> vexpr w S e2 ->
  safe F w (eval_binop R env op e1 e2) good.
Proof.
  intros Henv H1 H2. destruct op; simpl.
  - sbind eval_tmp_safe as v1 Hv1. sbind eval_tmp_safe as v2 Hv2. sbind rs_eq as b _. by sret.
  - sbind eval_tmp_safe as v1 Hv1. sbind eval_tmp_safe as v2 Hv2. sbind rs_eq as b _. by sret.
  - sbind evalBool_safe as b _. destruct b; [sbind evalBool_safe as b _|]; by sret.
  - sbind evalBool_safe as b _. destruct b; [|sbind evalBool_safe as b _]; by sret.
  - sbind evalBool_safe as b _. destruct b; [sbind evalBool_safe as b _|]; by sret.
  - by eapply eval_update_safe.
  - sbind eval_tmp_safe as v1 Hv1. sbind eval_tmp_safe as v2 Hv2. apply concatLists_safe. by repeat constructor.
Qed.

Lemma eval_assert_safe w env S cond body : venv w env S -> vexpr w S cond -> vexpr w S body ->
  safe F w (eval_assert R env cond body) good.
Proof.
  intros Henv Hc Hb. unfold eval_assert. sbind evalBool_safe as b _. destruct b; [by eapply rs_eval|].
  eapply (safe_bind _ _ _ any); [|intros; serr].
  destruct cond; try by sret. destruct op; try by sret. destruct Hc as [H1 H2].
  change (vexpr w S cond1) in H1. change (vexpr w S cond2) in H2.
  sbind eval_tmp_safe as v1 Hv1. sbind eval_tmp_safe as v2 Hv2. by apply rs_assertEq.
Qed.

Lemma eval_with_safe w env S attrs body : venv w env S -> vexpr w S attrs -> vexpr w (SWith :: S) body ->
  safe F w (eval_with R env attrs body) good.
Proof.
  intros Henv Ha Hb. unfold eval_with. eapply safeU_bind; [by eapply (safeU_allocEnv _ _ _ SWith)|].
  intros U' w' env2 Hle (-> & HU & He2). next_world Hle.
  eapply safeU_bind; [by eapply maybeThunk_safeU|]. intros U' w' p Hle [-> Hp]. next_world Hle.
  eapply safeU_bind; [eapply safeU_env_set; [done|simpl; lia|done]|]. intros U' w' _ Hle ->. next_world Hle.
  eapply safeU_filled; [done|done|done|]. by eapply rs_eval.
Qed.

Lemma eval_safe w env S e : venv w env S -> vexpr w S e -> safe F w (eval R env e) good.
Proof.
  intros Henv He. destruct e; cbn [eval]; try by sret.
  - by eapply eval_var_safe.
  - eapply eval_var_safe; [done|done|]. by apply He.
  - by eapply eval_select_safe.
  - by eapply eval_hasAttr_safe.
  - by eapply eval_attrs_safe.
  - sbind maybeThunks_safe as l Hl. by sret.
  - sret. split; [|done]. by exists S.
  - by eapply eval_call_safe.
  - by eapply eval_let_safe.
  - destruct He. by eapply eval_with_safe.
  - destruct He as (H1 & H2 & H3). change (vexpr w S e1) in H1. change (vexpr w S e2) in H2. change (vexpr w S e3) in H3.
    sbind evalBool_safe as b _. destruct b; by eapply rs_eval.
  - destruct He. by eapply eval_assert_safe.
  - change (vexpr w S e) in He. sbind evalBool_safe as b _. by sret.
  - destruct He. by eapply eval_binop_safe.
  - by eapply eval_concatStrings_safe.
Qed.
End rest_safe.
