(* ===== verification/PrimopsSafe.v ===== *)
(** * Safety of the primitive operations of Primops

    Every one of them but [elemAt] is safe, given that the functions it calls
    recursively are. *)

From Stdlib Require Import SpecFloat Sorting.Sorted.
From stdpp Require Import gmap.
From S2P Require Import Prelude.
From S2P Require Import Containers.
From S2P Require Import CanonPath.
From S2P Require Import StorePath.
From S2P Require Import Expr.
From S2P Require Import Scoping.
From S2P Require Import Values.
From S2P Require Import Eval.
From S2P Require Import AttrSets.
From S2P Require Import Primops.
From S2P Require Import ListPrimops.
From S2P Require Import StringPrimops.
From S2P Require Import Evaluator.
From S2P Require Import EvalInv.
From S2P Require Import EvalSafe.

Section primops_safe.
Context (R : Rec) {HR : Rec_safe R}.
Context (F : gmap addr Env).
Implicit Types w : world.

(** ** Types and control *)

Lemma prim_typeOf_safe w e : vaddr w e -> safe F w (prim_typeOf R e) good.
Proof.
  intros He. unfold prim_typeOf. sbind rs_force as v [Hv Hw].
  eapply (safe_bind _ _ _ any); [|intros; by sret].
  unfold type_name. unfold whnf in Hw. destruct (type v); try (by sret). done.
Qed.
Lemma prim_is_safe w t e : vaddr w e -> safe F w (prim_is R t e) good.
Proof. intros He. unfold prim_is. sbind rs_force as v _. by sret. Qed.
Lemma prim_abort_safe w e : vaddr w e -> safe F w (prim_abort R e) good.
Proof. intros He. unfold prim_abort. sbind rs_coerce as v _. serr. Qed.
Lemma prim_throw_safe w e : vaddr w e -> safe F w (prim_throw R e) good.
Proof. intros He. unfold prim_throw. sbind rs_coerce as v _. serr. Qed.

Lemma safe_mcatch {A} w (m : M A) h Q :
  safe F w m Q ->
  (forall w' f, later w w' ->
     match h f with Some m' => is_AssertionError f = true /\ safe F w' m' Q | None => True end) ->
  safe F w (mcatch m h) Q.
Proof.
  intros Hm Hh st Hst HF. specialize (Hm st Hst HF). unfold mcatch.
  destruct (m st) as [[a|f] st'] eqn:E; [done|]. assert (Hf := Hh w f (reflexivity w)).
  destruct (h f) as [m'|] eqn:Hm'; [|done]. destruct Hf as [Hf _]. destruct Hm as [_ Hm].
  destruct (Hm Hf) as (w' & Hle & Hv & HF'). eapply outcome_later; [exact Hle|].
  specialize (Hh w' f Hle). rewrite Hm' in Hh. by apply Hh.
Qed.

Lemma constants_valid {A} w (m : M A) Q : ((4 <= w_next w)%N -> safe F w m Q) -> safe F w m Q.
Proof. intros H st Hst HF. apply H; [apply Hst|done..]. Qed.
Lemma init_valid {A} w (m : M A) Q : (init_symbols `prefix_of` w_symbols w -> safe F w m Q) -> safe F w m Q.
Proof. intros H st Hst HF. apply H; [apply Hst|done..]. Qed.

Lemma Forall_two {A} (P : A -> Prop) x y : P x -> P y -> Forall P [x; y].
Proof. intros. by repeat apply Forall_cons_2; [..|apply Forall_nil_2]. Qed.

(** A set with two different names. *)
Lemma two_names_set w n m p q : n <> m -> vsym w n -> vsym w m -> vaddr w p -> vaddr w q ->
  vbindings w (attrs_sort [(n, p); (m, q)]).
Proof.
  intros Hne Hn Hm Hp Hq. split.
  - apply stable_sort_names. simpl. apply NoDup_cons. split; [by intros ?%list_elem_of_singleton|apply NoDup_singleton].
  - unfold attrs_sort. rewrite stable_sort_perm. by apply Forall_two.
  - unfold attrs_sort. rewrite stable_sort_perm. by apply Forall_two.
Qed.

(** The names [value] and [success] differ. *)
Lemma tryEval_set w p vSuccess i : init_symbols `prefix_of` w_symbols w -> vaddr w p -> vaddr w vSuccess ->
  vsym w i -> w_symbols w !! Z.to_nat (i - 1) = Some (L "success") ->
  vbindings w (attrs_sort [(sValue, p); (i, vSuccess)]).
Proof.
  intros Hi Hp Hs Hv Hn. assert (Hne : sValue <> i).
  { intros <-. assert (H : w_symbols w !! 6 = Some (L "value")) by (eapply prefix_lookup_Some; [|exact Hi]; done).
    change (Z.to_nat (sValue - 1)) with 6 in Hn. rewrite H in Hn. discriminate Hn. }
  assert (Hsv : vsym w sValue).
  { apply prefix_length in Hi. unfold vsym, valid_symbol, sValue.
    change (length init_symbols) with 51 in Hi. lia. }
  by apply two_names_set.
Qed.

Lemma prim_tryEval_safe w e : vaddr w e -> safe F w (prim_tryEval R e) good.
Proof.
  intros He. unfold prim_tryEval. sbind safe_buildBindings as b ->.
  eapply (safe_bind _ _ _ (fun w' b => vbindings w' (attrs_sort (bb_attrs b)))); [|intros w' b _ Hb; by sret].
  assert (Hpush : forall w p q, vaddr w p -> vaddr w q ->
    safe F w (let! b := push_back sValue p (mkBuilder 2 []) in
              let! success := symbols_create (L "success") in
              push_back success q b) (fun w' b => vbindings w' (attrs_sort (bb_attrs b)))).
  { clear. intros w p q Hp Hq. eapply safe_bind; [apply safe_push_back; simpl; lia|]. intros w' b Hle ->. next_world Hle.
    eapply safe_bind; [apply safe_symbols_create|]. intros w' i Hle [Hi Hn]. to_later Hle.
    apply init_valid. intros Hinit.
    eapply safe_mono; [apply safe_push_back; simpl; lia|]. intros w2 b Hle2 ->. simpl.
    eapply vbindings_later; [exact Hle2|]. by apply tryEval_set. }
  apply safe_mcatch.
  - sbind rs_force as v _. apply constants_valid. intros Hc. apply Hpush; [done|]. unfold vaddr, vTrue. lia.
  - intros w' f Hle. destruct (is_AssertionError f) eqn:Hf; [|done]. split; [done|].
    apply constants_valid. intros Hc. apply Hpush; unfold vaddr, vFalse; lia.
Qed.

Lemma prim_seq_safe w e1 e2 : vaddr w e1 -> vaddr w e2 -> safe F w (prim_seq R e1 e2) good.
Proof. intros H1 H2. unfold prim_seq. sbind rs_force as v _. by apply rs_force. Qed.
Lemma prim_deepSeq_safe w e1 e2 : vaddr w e1 -> vaddr w e2 -> safe F w (prim_deepSeq R e1 e2) good.
Proof. intros H1 H2. unfold prim_deepSeq. sbind rs_deep as v _. by apply rs_force. Qed.

(** ** Sets *)

Definition vbinding w (kv : Symbol * addr) : Prop := vsym w kv.1 /\ vaddr w kv.2.
Lemma vbinding_later w w' kv : later w w' -> vbinding w kv -> vbinding w' kv.
Proof. intros Hle [? ?]. split; [by eapply vsym_later|by eapply vaddr_later]. Qed.
Lemma vbindings_Forall w b : vbindings w b -> Forall (vbinding w) b.
Proof. intros Hb. apply Forall_forall. intros [n p] Hin. by eapply vbindings_elem. Qed.
Lemma vbindings_intro w b : sorted_names b.*1 -> Forall (vbinding w) b -> vbindings w b.
Proof.
  intros Hs Hb. split; [done|..]; apply Forall_fmap; (eapply Forall_impl; [exact Hb|]); by intros ? [? ?].
Qed.

Lemma name_insert_perm {A} (x : bytes * A) l : name_insert x l ≡ₚ x :: l.
Proof. induction l as [|y l IH]; simpl; [done|]. destruct (kltb _ _); [done|]. rewrite IH. constructor. Qed.
Lemma name_sort_perm {A} (l : list (bytes * A)) : name_sort l ≡ₚ l.
Proof.
  unfold name_sort. rewrite <- (app_nil_l l) at 2. generalize (@nil (bytes * A)).
  induction l as [|x l IH]; intros acc; simpl; [by rewrite app_nil_r|].
  rewrite IH, name_insert_perm. apply Permutation_middle.
Qed.
Lemma named_values w (l : list (bytes * addr)) : Forall (fun x => vaddr w x.2) l -> good w (VList (snd <$> name_sort l)).
Proof. intros Hl. split; [|done]. simpl. apply Forall_fmap. by rewrite name_sort_perm. Qed.

Lemma prim_attrNames_safe w set : vaddr w set -> safe F w (prim_attrNames R set) good.
Proof.
  intros Hs. unfold prim_attrNames. sbind forceAttrs_safe as b Hb.
  eapply safe_bind.
  - apply (mmap_safe F (fun w x => vaddr w x.2) _ vbinding); [by intros; eapply vbinding_later| |..].
    + intros; by eapply vaddr_later.
    + clear. intros w [n p] [Hn Hp]. sbind safe_symbols_get as s _. sbind safe_allocValue as q Hq. by sret.
    + by apply vbindings_Forall.
  - intros w' l _ Hl. sret. by apply named_values.
Qed.
Lemma prim_attrValues_safe w set : vaddr w set -> safe F w (prim_attrValues R set) good.
Proof.
  intros Hs. unfold prim_attrValues. sbind forceAttrs_safe as b Hb.
  eapply safe_bind.
  - apply (mmap_safe F (fun w x => vaddr w x.2) _ vbinding); [by intros; eapply vbinding_later| |..].
    + intros; by eapply vaddr_later.
    + clear. intros w [n p] [Hn Hp]. sbind safe_symbols_get as s _. by sret.
    + by apply vbindings_Forall.
  - intros w' l _ Hl. sret. by apply named_values.
Qed.

Lemma getAttr_safe w name b : vbindings w b -> safe F w (getAttr name b) vaddr.
Proof.
  intros Hb. unfold getAttr. destruct (attrs_get name b) eqn:Hg; [|serr]. sret. by eapply vbindings_get.
Qed.
Lemma prim_getAttr_safe w s set : vaddr w s -> vaddr w set -> safe F w (prim_getAttr R s set) good.
Proof.
  intros Hs Hset. unfold prim_getAttr. sbind forceStringNoCtx_safe as a _. sbind forceAttrs_safe as b Hb.
  sbind safe_symbols_create as n _. sbind getAttr_safe as i Hi. by apply rs_force.
Qed.
Lemma prim_hasAttr_safe w s set : vaddr w s -> vaddr w set -> safe F w (prim_hasAttr R s set) good.
Proof.
  intros Hs Hset. unfold prim_hasAttr. sbind forceStringNoCtx_safe as a _. sbind forceAttrs_safe as b Hb.
  sbind safe_symbols_create as n _. by sret.
Qed.

(** A selection of the bindings of a set. *)
Lemma sublist_sorted (l l' : list Symbol) : sublist l l' -> sorted_names l' -> sorted_names l.
Proof.
  intros H. induction H as [|x l l' H IH|x l l' H IH]; intros Hs; [done|..]; apply StronglySorted_inv in Hs as [Hs Hf].
  - constructor; [by apply IH|]. rewrite Forall_forall in Hf |- *. intros y Hy. apply Hf. by eapply elem_of_sublist.
  - by apply IH.
Qed.
Lemma fmap_sublist {A B} (f : A -> B) l l' : sublist l l' -> sublist (f <$> l) (f <$> l').
Proof. induction 1; simpl; by constructor. Qed.
Lemma vbindings_sublist w b b' : sublist b' b -> vbindings w b -> vbindings w b'.
Proof.
  intros Hsub Hb. apply vbindings_intro.
  - eapply sublist_sorted; [by apply fmap_sublist|apply Hb].
  - assert (H := vbindings_Forall _ _ Hb). rewrite Forall_forall in H |- *. intros x Hx. apply H.
    by eapply elem_of_sublist.
Qed.

Lemma set_difference_sublist fuel b names : sublist (set_difference fuel b names) b.
Proof.
  revert b names. induction fuel as [|fuel IH]; intros b names; simpl; [apply sublist_nil_l|].
  destruct b as [|[n p] b]; [done|]. destruct names as [|m names]; [done|].
  destruct (n <? m)%Z; [by constructor|]. destruct (m <? n)%Z; [apply IH|by constructor].
Qed.
Lemma symbols_of_safe w l : Forall (vaddr w) l ->
  safe F w (mmap (fun e => let! s := forceStringNoCtx R e in symbols_create s) l) any.
Proof.
  intros Hl. eapply safe_mono; [apply (mmap_safe F any _ vaddr)|done].
  - intros; by eapply vaddr_later.
  - done.
  - clear -HR. intros w e He. sbind forceStringNoCtx_safe as s _. eapply safe_mono; [apply safe_symbols_create|done].
  - done.
Qed.
Lemma prim_removeAttrs_safe w set names : vaddr w set -> vaddr w names -> safe F w (prim_removeAttrs R set names) good.
Proof.
  intros Hs Hn. unfold prim_removeAttrs. sbind forceAttrs_safe as b Hb. sbind forceList_safe as l Hl.
  sbind symbols_of_safe as syms _. sbind safe_buildBindings as b0 ->.
  set (d := set_difference _ _ _). assert (Hd : sublist d b) by apply set_difference_sublist.
  sbind safe_push_all as b1 ->; [simpl; by apply sublist_length|]. simpl. sret. split; [|done].
  by eapply vbindings_sublist.
Qed.

Lemma listToAttrs_loop_safe w l seen b :
  Forall (vaddr w) l -> NoDup (bb_attrs b).*1 -> (forall n, n ∈ (bb_attrs b).*1 -> n ∈ seen) ->
  Forall (vbinding w) (bb_attrs b) -> length (bb_attrs b) + length l <= bb_capacity b ->
  safe F w (listToAttrs_loop R l seen b)
    (fun w' b' => NoDup (bb_attrs b').*1 /\ Forall (vbinding w') (bb_attrs b')).
Proof.
  revert w seen b. induction l as [|v2 l IH]; intros w seen b Hl Hd Hseen Hb Hc; simpl; [by sret|].
  apply Forall_cons in Hl as [Hv2 Hl]. simpl in Hc.
  assert (Hmono : forall w', later w w' -> Forall (vbinding w') (bb_attrs b)).
  { intros w' Hle. eapply Forall_impl; [exact Hb|]. intros. by eapply vbinding_later. }
  eapply safe_bind; [by apply forceAttrs_safe|]. intros w1 e Hle1 He. to_later Hle1.
  eapply safe_bind; [by apply getAttr_safe|]. intros w2 j Hle2 Hj. to_later Hle2.
  eapply safe_bind; [by apply forceStringNoCtx_safe|]. intros w3 name Hle3 _. to_later Hle3.
  eapply safe_bind; [apply safe_symbols_create|]. intros w4 sym Hle4 [Hsym _]. to_later Hle4.
  assert (Hb4 : Forall (vbinding w4) (bb_attrs b)) by (apply Hmono; by repeat (etrans; [eassumption|])).
  case_bool_decide as Hin; [apply IH; [done..|lia]|].
  eapply safe_bind; [by apply getAttr_safe|]. intros w5 j2 Hle5 Hj2. to_later Hle5.
  eapply safe_bind; [apply safe_push_back; lia|]. intros w6 b' Hle6 ->. to_later Hle6.
  apply IH; simpl; [done|..|rewrite length_app; simpl; lia].
  - rewrite fmap_app. apply NoDup_app. split_and!; [done| |apply NoDup_singleton].
    intros x Hx%Hseen ->%list_elem_of_singleton. done.
  - intros n. rewrite fmap_app, elem_of_app, elem_of_cons. intros [?|?%list_elem_of_singleton]; [right; by apply Hseen|by left].
  - apply Forall_app. split; [|by constructor].
    eapply Forall_impl; [exact Hb4|]. intros. eapply vbinding_later; [|done]. by etrans.
Qed.
Lemma prim_listToAttrs_safe w e : vaddr w e -> safe F w (prim_listToAttrs R e) good.
Proof.
  intros He. unfold prim_listToAttrs. sbind forceList_safe as l Hl. sbind safe_buildBindings as b ->.
  eapply safe_bind; [apply listToAttrs_loop_safe; simpl; [done|constructor|done|by constructor|lia]|].
  intros w' b _ [Hd Hb]. sret. split; [|done]. apply vbindings_intro; [by apply stable_sort_names|].
  unfold attrs_sort. by rewrite stable_sort_perm.
Qed.

Lemma intersect_left_sorted (l r : Bindings) :
  sorted_names l.*1 -> sublist (omap (fun kv => (fun p : addr => (kv.1, p)) <$> attrs_get kv.1 r) l).*1 l.*1.
Proof.
  intros _. induction l as [|[n p] l IH]; [constructor|]. simpl. destruct (attrs_get n r); simpl; by constructor.
Qed.
Lemma omap_length_le {A B} (f : A -> option B) l : length (omap f l) <= length l.
Proof. induction l as [|x l IH]; simpl; [done|]. destruct (f x); simpl; [apply le_n_S, IH|apply Nat.le_le_succ_r, IH]. Qed.
Lemma prim_intersectAttrs_safe w e1 e2 : vaddr w e1 -> vaddr w e2 -> safe F w (prim_intersectAttrs R e1 e2) good.
Proof.
  intros H1 H2. unfold prim_intersectAttrs. sbind forceAttrs_safe as l Hl. sbind forceAttrs_safe as r Hr.
  sbind safe_buildBindings as b ->.
  eapply (safe_bind _ _ _ (fun w' b => vbindings w' (bb_attrs b))); [|intros w' b _ Hb; by sret].
  case_match eqn:Hlt; [apply Nat.ltb_lt in Hlt|apply Nat.ltb_ge in Hlt].
  - eapply safe_mono; [apply safe_push_all; simpl; rewrite Nat.min_l by lia; apply omap_length_le|].
    intros w' b Hle ->. next_world Hle. simpl. apply vbindings_intro.
    + eapply sublist_sorted; [apply intersect_left_sorted, Hl|apply Hl].
    + apply Forall_forall. intros [n p] Hin. apply list_elem_of_omap in Hin as ([m q] & Hin & Hg). simpl in Hg.
      destruct (attrs_get m r) eqn:Hgr; [|done]. simplify_eq/=. split; simpl.
      * by eapply (vbindings_elem w l).
      * exact (vbindings_get _ _ _ _ Hr Hgr).
  - set (d := filter _ r). assert (Hd : sublist d r) by apply sublist_filter.
    assert (Hdl : length d <= length l).
    { rewrite <- (length_fmap fst d), <- (length_fmap fst l). apply submseteq_length, NoDup_submseteq.
      - apply sorted_names_NoDup. eapply sublist_sorted; [by apply fmap_sublist|apply Hr].
      - intros n [[m p] [-> Hin]]%list_elem_of_fmap. apply list_elem_of_filter in Hin as [[q Hq] _].
        apply attrs_get_elem in Hq. apply list_elem_of_fmap. by exists (m, q). }
    assert (length d <= length r) by (by apply sublist_length).
    eapply safe_mono; [apply safe_push_all; simpl; lia|]. intros w' b Hle ->. next_world Hle. simpl.
    by eapply vbindings_sublist.
Qed.

Lemma catAttrs_loop_safe w name l : Forall (vaddr w) l ->
  safe F w (catAttrs_loop R name l) (fun w' l => Forall (vaddr w') l).
Proof.
  revert w. induction l as [|v2 l IH]; intros w Hl; simpl; [by sret|]. apply Forall_cons in Hl as [Hv Hl].
  sbind forceAttrs_safe as b Hb. sbind IH as res Hres. sret.
  destruct (attrs_get name b) eqn:Hg; [|done]. constructor; [by eapply vbindings_get|done].
Qed.
Lemma prim_catAttrs_safe w a l : vaddr w a -> vaddr w l -> safe F w (prim_catAttrs R a l) good.
Proof.
  intros Ha Hl. unfold prim_catAttrs. sbind forceStringNoCtx_safe as s _. sbind safe_symbols_create as n _.
  sbind forceList_safe as l' Hl'. sbind catAttrs_loop_safe as res Hres. by sret.
Qed.

Lemma prim_functionArgs_safe w f : vaddr w f -> safe F w (prim_functionArgs R f) good.
Proof.
  intros Hf. unfold prim_functionArgs. sbind rs_force as v [Hv _].
  assert (Hnil : good w (VAttrs [])) by (split; [apply vbindings_intro; by constructor|done]).
  destruct v as [| | | | | | | | | | |env lam| |]; try serr; try by sret.
  destruct (lam_formals lam) as [fs|] eqn:Hfs; [|by sret]. apply constants_valid. intros Hc.
  set (l := (fun f : Formal Expr => _) <$> fs_formals fs).
  assert (Hn : l.*1 = fm_name <$> fs_formals fs) by (subst l; by rewrite <- list_fmap_compose).
  assert (Hb : vbindings w l).
  { destruct Hv as (S & _ & Hx). unfold lambda_expr in Hx. rewrite Hfs in Hx. destruct fs as [fs ell], Hx as [[[Hs Hy] _] _].
    split; [by rewrite Hn|by rewrite Hn|]. subst l. rewrite <- list_fmap_compose. apply Forall_fmap, Forall_forall.
    intros g _. unfold vaddr, getBool, vTrue, vFalse. simpl. case_bool_decide; lia. }
  sbind safe_buildBindings as b ->.
  eapply safe_bind; [apply safe_push_all; simpl; subst l; by rewrite length_fmap|]. intros w' b Hle ->.
  next_world Hle. simpl. sret. split; [|done]. unfold attrs_sort. split.
  - apply stable_sort_names, sorted_names_NoDup, Hb.
  - rewrite stable_sort_perm. apply Hb.
  - rewrite stable_sort_perm. apply Hb.
Qed.

Lemma mapAttrs_loop_safe w f l b : vaddr w f -> Forall (vbinding w) l -> Forall (vbinding w) (bb_attrs b) ->
  length (bb_attrs b) + length l <= bb_capacity b ->
  safe F w (mapAttrs_loop f l b)
    (fun w' b' => (bb_attrs b').*1 = (bb_attrs b).*1 ++ l.*1 /\ Forall (vbinding w') (bb_attrs b')).
Proof.
  revert w b. induction l as [|[n v] l IH]; intros w b Hf Hl Hb Hc; cbn [mapAttrs_loop].
  { sret. by rewrite app_nil_r. }
  apply Forall_cons in Hl as [[Hn Hv] Hl]. simpl in Hn, Hv, Hc.
  assert (Hmono : forall w' (l : Bindings), later w w' -> Forall (vbinding w) l -> Forall (vbinding w') l).
  { intros w' l' Hle Hl'. eapply Forall_impl; [exact Hl'|]. intros. by eapply vbinding_later. }
  eapply safe_bind; [by apply safe_symbols_get|]. intros w1 s Hle1 _. to_later Hle1.
  eapply safe_bind; [by apply safe_allocValue|]. intros w2 p1 Hle2 Hp1. to_later Hle2.
  eapply safe_bind; [by apply safe_allocValue|]. intros w3 p2 Hle3 Hp2. to_later Hle3.
  eapply safe_bind; [by apply safe_allocValue|]. intros w4 p3 Hle4 Hp3. to_later Hle4.
  eapply safe_bind; [apply safe_push_back; lia|]. intros w5 b' Hle5 ->. to_later Hle5.
  assert (Hle : later w w5) by (by repeat (etrans; [eassumption|])).
  eapply safe_mono; [apply IH; simpl; [done|by apply Hmono| |rewrite length_app; simpl; lia]|].
  - apply Forall_app. split; [by apply Hmono|by constructor].
  - simpl. intros w' b' _ [Hn' Hb']. split; [|done]. by rewrite Hn', fmap_app, <- app_assoc.
Qed.
Lemma prim_mapAttrs_safe w f a : vaddr w f -> vaddr w a -> safe F w (prim_mapAttrs R f a) good.
Proof.
  intros Hf Ha. unfold prim_mapAttrs. sbind forceAttrs_safe as l Hl. sbind safe_buildBindings as b ->.
  eapply safe_bind; [apply mapAttrs_loop_safe; simpl; [done|by apply vbindings_Forall|by constructor|lia]|].
  intros w' b _ [Hn Hb]. sret. split; [|done]. apply vbindings_intro; [|done]. simpl in Hn. rewrite Hn. apply Hl.
Qed.

(** ** Lists *)

Lemma prim_head_safe w e : vaddr w e -> safe F w (prim_head R e) good.
Proof.
  intros He. unfold prim_head. sbind forceList_safe as l Hl. destruct l; [serr|].
  apply Forall_cons in Hl as [? _]. by apply rs_force.
Qed.
Lemma prim_tail_safe w e : vaddr w e -> safe F w (prim_tail R e) good.
Proof.
  intros He. unfold prim_tail. sbind forceList_safe as l Hl. destruct l; [serr|].
  apply Forall_cons in Hl as [_ ?]. by sret.
Qed.
Lemma prim_map_safe w f e : vaddr w f -> vaddr w e -> safe F w (prim_map R f e) good.
Proof.
  intros Hf He. unfold prim_map. sbind forceList_safe as l Hl. case_bool_decide; [by sret|].
  sbind forceFunction_safe as u _.
  eapply safe_bind; [apply (mmap_safe F vaddr _ (fun w p => vaddr w f /\ vaddr w p))|intros w' l' _ Hl'; by sret].
  - intros ? ? ? Hle [? ?]. eauto using vaddr_later.
  - intros. by eapply vaddr_later.
  - intros ? ? [? ?]. by apply safe_allocValue.
  - eapply Forall_impl; [exact Hl|]. done.
Qed.
Lemma call_pred_safe w f args : vaddr w f -> Forall (vaddr w) args -> safe F w (call_pred R f args) any.
Proof.
  intros Hf Ha. unfold call_pred. sbind rs_call as v [Hv _]. sbind safe_allocValue as p Hp. by apply forceBool_safe.
Qed.
Lemma filter_loop_safe w f l : vaddr w f -> Forall (vaddr w) l ->
  safe F w (filter_loop R f l) (fun w' l => Forall (vaddr w') l).
Proof.
  revert w. induction l as [|p l IH]; intros w Hf Hl; simpl; [by sret|]. apply Forall_cons in Hl as [Hp Hl].
  sbind call_pred_safe as b _. sbind IH as vs Hvs. sret. destruct b; [by constructor|done].
Qed.
Lemma prim_filter_safe w f e : vaddr w f -> vaddr w e -> safe F w (prim_filter R f e) good.
Proof.
  intros Hf He. unfold prim_filter. sbind forceList_safe as l Hl. case_bool_decide; [by sret|].
  sbind forceFunction_safe as u _. sbind filter_loop_safe as vs Hvs. by sret.
Qed.
Lemma elem_loop_safe w x l : vaddr w x -> Forall (vaddr w) l -> safe F w (elem_loop R x l) any.
Proof.
  revert w. induction l as [|p l IH]; intros w Hx Hl; simpl; [by sret|]. apply Forall_cons in Hl as [Hp Hl].
  sbind rs_eq as b _. destruct b; [by sret|by apply IH].
Qed.
Lemma prim_elem_safe w x e : vaddr w x -> vaddr w e -> safe F w (prim_elem R x e) good.
Proof. intros Hx He. unfold prim_elem. sbind forceList_safe as l Hl. sbind elem_loop_safe as b _. by sret. Qed.
Lemma prim_concatLists_safe w e : vaddr w e -> safe F w (prim_concatLists R e) good.
Proof. intros He. unfold prim_concatLists. sbind forceList_safe as l Hl. by apply concatLists_safe. Qed.
Lemma prim_length_safe w e : vaddr w e -> safe F w (prim_length R e) good.
Proof. intros He. unfold prim_length. sbind forceList_safe as l Hl. by sret. Qed.
Lemma foldl_loop_safe w op cur l : vaddr w op -> vaddr w cur -> Forall (vaddr w) l ->
  safe F w (foldl_loop R op cur l) vaddr.
Proof.
  revert w cur. induction l as [|p l IH]; intros w cur Ho Hc Hl; simpl; [by sret|]. apply Forall_cons in Hl as [Hp Hl].
  sbind rs_call as v [Hv _]. sbind safe_allocValue as q Hq. by apply IH.
Qed.
Lemma prim_foldlStrict_safe w op nul e : vaddr w op -> vaddr w nul -> vaddr w e ->
  safe F w (prim_foldlStrict R op nul e) good.
Proof.
  intros Ho Hn He. unfold prim_foldlStrict. sbind forceFunction_safe as u _. sbind forceList_safe as l Hl.
  sbind foldl_loop_safe as p Hp. by apply rs_force.
Qed.
Lemma anyOrAll_loop_safe w any_ f l : vaddr w f -> Forall (vaddr w) l -> safe F w (anyOrAll_loop R any_ f l) good.
Proof.
  revert w. induction l as [|p l IH]; intros w Hf Hl; simpl; [by sret|]. apply Forall_cons in Hl as [Hp Hl].
  sbind call_pred_safe as b _. destruct (Bool.eqb b any_); [by sret|by apply IH].
Qed.
Lemma anyOrAll_safe w any_ f e : vaddr w f -> vaddr w e -> safe F w (anyOrAll R any_ f e) good.
Proof.
  intros Hf He. unfold anyOrAll. sbind forceFunction_safe as u _. sbind forceList_safe as l Hl. by apply anyOrAll_loop_safe.
Qed.
Lemma prim_genList_safe w g n : vaddr w g -> vaddr w n -> safe F w (prim_genList R g n) good.
Proof.
  intros Hg Hn. unfold prim_genList. sbind forceInt_safe as len _. destruct (_ <? _)%Z; [serr|].
  sbind forceFunction_safe as u _.
  eapply safe_bind; [apply (mmap_safe F vaddr _ (fun w _ => vaddr w g))|intros w' l' _ Hl'; by sret].
  - intros. by eapply vaddr_later.
  - intros. by eapply vaddr_later.
  - clear. intros w i Hg. sbind safe_allocValue as arg Harg. by apply safe_allocValue.
  - by apply Forall_forall.
Qed.

(** ** Arithmetic and strings *)

Lemma arith_safe w fop iop e1 e2 : vaddr w e1 -> vaddr w e2 -> safe F w (arith R fop iop e1 e2) good.
Proof.
  intros H1 H2. unfold arith. sbind rs_force as v1 _. sbind rs_force as v2 _. destruct (_ || _).
  - sbind forceFloat_safe as f1 _. sbind forceFloat_safe as f2 _. by sret.
  - sbind forceInt_safe as i1 _. sbind forceInt_safe as i2 _. destruct (iop i1 i2); [by sret|serr].
Qed.
Lemma prim_div_safe w e1 e2 : vaddr w e1 -> vaddr w e2 -> safe F w (prim_div R e1 e2) good.
Proof.
  intros H1 H2. unfold prim_div. sbind rs_force as v1 _. sbind rs_force as v2 _. sbind forceFloat_safe as f2 _.
  destruct (SFeqb _ _); [serr|]. destruct (_ || _).
  - sbind forceFloat_safe as f1 _. by sret.
  - sbind forceInt_safe as i1 _. sbind forceInt_safe as i2 _. destruct (checked_div i1 i2); [by sret|serr].
Qed.
Lemma bitop_safe w op e1 e2 : vaddr w e1 -> vaddr w e2 -> safe F w (bitop R op e1 e2) good.
Proof. intros H1 H2. unfold bitop. sbind forceInt_safe as i1 _. sbind forceInt_safe as i2 _. by sret. Qed.

Lemma compare_list_safe w l1 l2 : Forall (vaddr w) l1 -> Forall (vaddr w) l2 -> safe F w (compare_list R l1 l2) any.
Proof.
  revert w l2. induction l1 as [|p1 l1 IH]; intros w [|p2 l2] H1 H2; simpl; try by sret.
  apply Forall_cons in H1 as [? ?]. apply Forall_cons in H2 as [? ?].
  sbind rs_eq as b _. destruct b; [by apply IH|by apply rs_compare].
Qed.
Lemma compareValues_safe w p1 p2 : vaddr w p1 -> vaddr w p2 -> safe F w (compareValues R p1 p2) any.
Proof.
  intros H1 H2. unfold compareValues. sbind safe_read as v1 Hv1. sbind safe_read as v2 Hv2.
  destruct v1, v2; try serr; try by sret. by apply compare_list_safe.
Qed.
Lemma prim_lessThan_safe w e1 e2 : vaddr w e1 -> vaddr w e2 -> safe F w (prim_lessThan R e1 e2) good.
Proof.
  intros H1 H2. unfold prim_lessThan. sbind rs_force as v1 _. sbind rs_force as v2 _. sbind rs_compare as b _. by sret.
Qed.
Lemma prim_toString_safe w e : vaddr w e -> safe F w (prim_toString R e) good.
Proof. intros He. unfold prim_toString. sbind rs_coerce as [s c] _. by sret. Qed.
Lemma prim_stringLength_safe w e : vaddr w e -> safe F w (prim_stringLength R e) good.
Proof. intros He. unfold prim_stringLength. sbind rs_coerce as [s c] _. by sret. Qed.
Lemma prim_substring_safe w a l s : vaddr w a -> vaddr w l -> vaddr w s -> safe F w (prim_substring R a l s) good.
Proof.
  intros Ha Hl Hs. unfold prim_substring. sbind forceInt_safe as start _. destruct (_ <? _)%Z; [serr|].
  sbind forceInt_safe as len _. cbv zeta.
  eapply (safe_bind _ _ _ (fun w' _ => vaddr w' s)).
  - case_match; [sbind rs_force as v _|]; by sret.
  - intros w' [ctx|] Hle Hs'; [by sret|]. clear Hs. next_world Hle. sbind rs_coerce as [t c] _.
    case_match; [by sret|]. case_match; [serr|by sret].
Qed.

End primops_safe.
