(* ===== verification/ListPrimopsSafe.v ===== *)
(** * Safety of the primitive operations of ListPrimops and StringPrimops *)

From Stdlib Require Import SpecFloat Sorting.Sorted.
From stdpp Require Import gmap.
From S2P Require Import Prelude.
From S2P Require Import Containers.
From S2P Require Import CanonPath.
From S2P Require Import StorePath.
From S2P Require Import Expr.
From S2P Require Import Scoping.
From S2P Require Import Values.
From S2P Require Import Eval.
From S2P Require Import AttrSets.
From S2P Require Import Primops.
From S2P Require Import ListPrimops.
From S2P Require Import StringPrimops.
From S2P Require Import Evaluator.
From S2P Require Import EvalInv.
From S2P Require Import EvalSafe.
From S2P Require Import PrimopsSafe.

Section list_primops_safe.
Context (R : Rec) {HR : Rec_safe R}.
Context (F : gmap addr Env).
Implicit Types w : world.

(** ** Sorting *)

Lemma insert_back_safe w lt x r :
  (forall w' a b, later w w' -> vaddr w' a -> vaddr w' b -> safe F w' (lt a b) any) ->
  vaddr w x -> Forall (vaddr w) r ->
  safe F w (insert_back lt x r) (fun w' l => Forall (vaddr w') l).
Proof.
  revert w. induction r as [|y r IH]; intros w Hlt Hx Hr; simpl; [sret; by constructor|].
  apply Forall_cons in Hr as [Hy Hr].
  eapply safe_bind; [by apply (Hlt w)|]. intros w1 b Hle1 _. to_later Hle1. destruct b; [|sret; by repeat constructor].
  eapply safe_bind; [apply IH; [|done..]|].
  - intros w' a b Hle. apply Hlt. by etrans.
  - intros w2 r' Hle2 Hr'. to_later Hle2. sret. by constructor.
Qed.
Lemma sort_loop_safe w lt r l :
  (forall w' a b, later w w' -> vaddr w' a -> vaddr w' b -> safe F w' (lt a b) any) ->
  Forall (vaddr w) r -> Forall (vaddr w) l ->
  safe F w (sort_loop lt r l) (fun w' l => Forall (vaddr w') l).
Proof.
  revert w r. induction l as [|x l IH]; intros w r Hlt Hr Hl; simpl; [sret; by apply Forall_reverse|].
  apply Forall_cons in Hl as [Hx Hl].
  eapply safe_bind; [by apply insert_back_safe|]. intros w1 r' Hle1 Hr'. to_later Hle1.
  apply IH; [|done..]. intros w' a b Hle. apply Hlt. by etrans.
Qed.
Lemma sort_comparator_safe w f a b : vaddr w f -> vaddr w a -> vaddr w b -> safe F w (sort_comparator R f a b) any.
Proof.
  intros Hf Ha Hb. unfold sort_comparator. sbind safe_read as v _.
  assert (safe F w (call_pred R f [a; b]) any) by (by apply call_pred_safe; [..|repeat constructor]).
  destruct v as [| | | | | | | | | | | |p|]; try done. destruct p; try done. by apply rs_compare.
Qed.
Lemma forceValues_safe w l : Forall (vaddr w) l -> safe F w (mmap (r_forceValue R) l) any.
Proof.
  intros Hl. eapply safe_mono; [apply (mmap_safe F any _ vaddr)|done].
  - intros; by eapply vaddr_later.
  - done.
  - intros w' p Hp. eapply safe_mono; [by apply rs_force|done].
  - done.
Qed.
Lemma prim_sort_safe w f e : vaddr w f -> vaddr w e -> safe F w (prim_sort R f e) good.
Proof.
  intros Hf He. unfold prim_sort. sbind forceList_safe as l Hl. case_bool_decide; [by sret|].
  sbind forceFunction_safe as u _. sbind forceValues_safe as u' _.
  eapply safe_bind; [apply sort_loop_safe; [|by constructor|done]|].
  - intros w' a b Hle Ha Hb. to_later Hle. by apply sort_comparator_safe.
  - intros w' l' _ Hl'. by sret.
Qed.

(** ** Partition, grouping, concatenation *)

Ltac push_binding b :=
  eapply safe_bind; [apply safe_push_back; simpl; lia|];
  let w' := fresh "w'" in let Hle := fresh "Hle" in intros w' b Hle ->; next_world Hle.

Lemma partition_loop_safe w f l right_ wrong :
  vaddr w f -> Forall (vaddr w) l -> Forall (vaddr w) right_ -> Forall (vaddr w) wrong ->
  safe F w (partition_loop R f l right_ wrong) (fun w' rw => Forall (vaddr w') rw.1 /\ Forall (vaddr w') rw.2).
Proof.
  revert w right_ wrong. induction l as [|p l IH]; intros w r x Hf Hl Hr Hx; simpl; [by sret|].
  apply Forall_cons in Hl as [Hp Hl]. sbind rs_force as v _. sbind call_pred_safe as b _.
  destruct b; apply IH; try done; (apply Forall_app; split; [done|by repeat constructor]).
Qed.

Lemma right_wrong_set w p q : init_symbols `prefix_of` w_symbols w -> vaddr w p -> vaddr w q ->
  vbindings w (attrs_sort [(sRight, p); (sWrong, q)]).
Proof.
  intros Hi Hp Hq. apply prefix_length in Hi. change (length init_symbols) with 51 in Hi.
  change (attrs_sort _) with [(sRight, p); (sWrong, q)].
  apply vbindings_intro; [repeat constructor|].
  apply Forall_two; split; simpl; try done; unfold vsym, valid_symbol, sRight, sWrong; lia.
Qed.
Lemma prim_partition_safe w f e : vaddr w f -> vaddr w e -> safe F w (prim_partition R f e) good.
Proof.
  intros Hf He. unfold prim_partition. sbind forceFunction_safe as u _. sbind forceList_safe as l Hl.
  eapply safe_bind; [by apply partition_loop_safe|]. intros w' [r x] Hle [Hr Hx]. simpl in Hr, Hx. next_world Hle.
  sbind safe_buildBindings as b ->.
  sbind safe_allocValue as p Hp. push_binding b.
  sbind safe_allocValue as q Hq. push_binding b.
  apply init_valid. intros Hi. sret. split; [|done]. simpl. by apply right_wrong_set.
Qed.

(** Groups under valid symbols, in order. *)
Definition vgroups w (m : list (Symbol * list addr)) : Prop :=
  sorted_names m.*1 /\ Forall (fun g => vsym w g.1 /\ Forall (vaddr w) g.2) m.
Lemma vgroups_later w w' m : later w w' -> vgroups w m -> vgroups w' m.
Proof.
  intros Hle [Hs Hm]. split; [done|]. eapply Forall_impl; [exact Hm|]. intros g [? ?].
  split; [by eapply vsym_later|by eapply vaddrs_later].
Qed.
Lemma group_add_names (P : Symbol -> Prop) sym p m : P sym -> Forall P m.*1 -> Forall P (group_add sym p m).*1.
Proof.
  intros Hs. induction m as [|[k l] m IH]; simpl; intros Hm; [by constructor|].
  apply Forall_cons in Hm as [Hk Hm].
  destruct (sym =? k)%Z; simpl; [by constructor|]. destruct (sym <? k)%Z; simpl; constructor; auto.
Qed.
Lemma group_add_valid w sym p m : vsym w sym -> vaddr w p -> vgroups w m -> vgroups w (group_add sym p m).
Proof.
  intros Hsym Hp [Hs Hm]. induction m as [|[k l] m IH]; cbn [group_add].
  { split; [apply SSorted_cons; [apply SSorted_nil|by apply Forall_nil_2]|].
    apply Forall_singleton. split; [done|]. by apply Forall_singleton. }
  simpl in Hs. apply StronglySorted_inv in Hs as [Hs Hk]. apply Forall_cons in Hm as [[Hk' Hl] Hm]. simpl in Hk', Hl.
  destruct (IH Hs Hm) as [IHs IHm]. destruct (Z.eqb_spec sym k) as [->|Hne].
  - split; simpl; [by constructor|]. constructor; [|done]. split; [done|]. simpl. apply Forall_app. split; [done|by apply Forall_singleton].
  - destruct (Z.ltb_spec sym k).
    + split; simpl; [constructor; [by constructor|]; constructor; [done|]|].
      * eapply Forall_impl; [exact Hk|]. simpl. lia.
      * constructor; [split; [done|by apply Forall_singleton]|]. by constructor.
    + split; simpl; [constructor; [done|]|by constructor]. apply group_add_names; [lia|done].
Qed.
Lemma groupBy_loop_safe w f l m : vaddr w f -> Forall (vaddr w) l -> vgroups w m ->
  safe F w (groupBy_loop R f l m) vgroups.
Proof.
  revert w m. induction l as [|p l IH]; intros w m Hf Hl Hm; simpl; [by sret|]. apply Forall_cons in Hl as [Hp Hl].
  eapply safe_bind; [by apply rs_call; [..|repeat constructor]|]. intros w1 v Hle1 [Hv _]. to_later Hle1.
  eapply safe_bind; [by apply safe_allocValue|]. intros w2 q Hle2 Hq. to_later Hle2.
  eapply safe_bind; [by apply forceStringNoCtx_safe|]. intros w3 name Hle3 _. to_later Hle3.
  eapply safe_bind; [apply safe_symbols_create|]. intros w4 sym Hle4 [Hsym _]. to_later Hle4.
  apply IH; [done..|]. apply group_add_valid; [done..|]. eapply vgroups_later; [|done].
  by repeat (etrans; [eassumption|]).
Qed.
Lemma groups_insert_safe w m b : Forall (fun g : Symbol * list addr => vsym w g.1 /\ Forall (vaddr w) g.2) m ->
  Forall (vbinding w) (bb_attrs b) -> length (bb_attrs b) + length m <= bb_capacity b ->
  safe F w (groups_insert m b)
    (fun w' b' => (bb_attrs b').*1 = (bb_attrs b).*1 ++ m.*1 /\ Forall (vbinding w') (bb_attrs b')).
Proof.
  revert w b. induction m as [|[sym l] m IH]; intros w b Hm Hb Hc; simpl.
  { sret. by rewrite app_nil_r. }
  apply Forall_cons in Hm as [[Hsym Hl] Hm]. simpl in Hsym, Hl, Hc.
  eapply safe_bind; [by apply safe_allocValue|]. intros w1 p Hle1 Hp. to_later Hle1.
  eapply safe_bind; [apply safe_push_back; lia|]. intros w2 b' Hle2 ->. to_later Hle2.
  assert (Hle : later w w2) by (by etrans).
  eapply safe_mono; [apply IH|].
  - eapply Forall_impl; [exact Hm|]. intros g [? ?]. split; [by eapply vsym_later|by eapply vaddrs_later].
  - simpl. apply Forall_app. split; [|by constructor]. eapply Forall_impl; [exact Hb|]. intros. by eapply vbinding_later.
  - simpl. rewrite length_app. simpl. lia.
  - simpl. intros w' b' _ [Hn Hb']. split; [|done]. by rewrite Hn, fmap_app, <- app_assoc.
Qed.
Lemma prim_groupBy_safe w f e : vaddr w f -> vaddr w e -> safe F w (prim_groupBy R f e) good.
Proof.
  intros Hf He. unfold prim_groupBy. sbind forceFunction_safe as u _. sbind forceList_safe as l Hl.
  eapply safe_bind; [apply groupBy_loop_safe; [done..|]; split; [constructor|by constructor]|]. intros w' m Hle [Hs Hm].
  eapply safe_bind; [apply safe_buildBindings|]. intros w2 b Hle2 ->.
  eapply safe_bind; [apply groups_insert_safe; [|by constructor|simpl; lia]|].
  - eapply (vgroups_later _ _ m Hle2). by split.
  - intros w3 b _ [Hn Hb]. sret. split; [|done]. simpl. apply vbindings_intro; [|done]. simpl in Hn. by rewrite Hn.
Qed.
Lemma Forall_concat_addr w (ls : list (list addr)) : Forall (Forall (vaddr w)) ls -> Forall (vaddr w) (concat ls).
Proof. induction 1; simpl; [by constructor|]. by apply Forall_app. Qed.
Lemma prim_concatMap_safe w f e : vaddr w f -> vaddr w e -> safe F w (prim_concatMap R f e) good.
Proof.
  intros Hf He. unfold prim_concatMap. sbind forceFunction_safe as u _. sbind forceList_safe as l Hl.
  eapply safe_bind; [apply (mmap_safe F (fun w l => Forall (vaddr w) l) _ (fun w p => vaddr w f /\ vaddr w p))|].
  - intros ? ? ? Hle [? ?]. eauto using vaddr_later.
  - intros. by eapply vaddrs_later.
  - clear -HR. intros w p [Hf Hp]. sbind rs_call as v [Hv _]. sbind safe_allocValue as q Hq. by apply forceList_safe.
  - eapply Forall_impl; [exact Hl|]. done.
  - intros w' ls _ Hls. sret. split; [|done]. by apply Forall_concat_addr.
Qed.

(** ** Closures *)

Lemma keys_insert_safe w key ks : vaddr w key -> Forall (vaddr w) ks ->
  safe F w (keys_insert R key ks) (fun w' o => match o with Some l => Forall (vaddr w') l | None => True end).
Proof.
  revert w. induction ks as [|k ks IH]; intros w Hk Hks; simpl; [sret; by repeat constructor|].
  apply Forall_cons in Hks as [Hk' Hks]. sbind rs_compare as b _. destruct b; [sret; by repeat constructor|].
  sbind rs_compare as b _. destruct b; [|by sret]. sbind IH as o Ho. sret. destruct o; [by constructor|done].
Qed.
Lemma closure_loop_safe w op workSet doneKeys res :
  vaddr w op -> Forall (vaddr w) workSet -> Forall (vaddr w) doneKeys -> Forall (vaddr w) res ->
  safe F w (closure_loop R op workSet doneKeys res) (fun w' l => Forall (vaddr w') l).
Proof.
  intros Hop Hw Hd Hr. unfold closure_loop. destruct workSet as [|e workSet]; [sret; by apply Forall_reverse|].
  apply Forall_cons in Hw as [He Hw]. sbind forceAttrs_safe as b Hb. sbind getAttr_safe as key Hkey.
  sbind rs_force as v _. sbind keys_insert_safe as o Ho. destruct o as [ks|]; [|by apply rs_closure].
  sbind rs_call as v' [Hv' _]. sbind safe_allocValue as q Hq. sbind forceList_safe as l Hl.
  sbind forceValues_safe as u _. apply rs_closure; [done|by apply Forall_app|done|by constructor].
Qed.
Lemma prim_genericClosure_safe w arg : vaddr w arg -> safe F w (prim_genericClosure R arg) good.
Proof.
  intros Ha. unfold prim_genericClosure. sbind forceAttrs_safe as b Hb. sbind getAttr_safe as s Hs.
  sbind forceList_safe as l Hl. case_bool_decide; [by sret|]. sbind getAttr_safe as op Hop.
  sbind forceFunction_safe as u _. sbind rs_closure as res Hres. by sret.
Qed.

(** ** Strings *)

Lemma prim_baseNameOf_safe w e : vaddr w e -> safe F w (prim_baseNameOf R e) good.
Proof. intros He. unfold prim_baseNameOf. sbind rs_coerce as [s c] _. by sret. Qed.
Lemma prim_dirOf_safe w e : vaddr w e -> safe F w (prim_dirOf R e) good.
Proof.
  intros He. unfold prim_dirOf. sbind rs_force as v _.
  assert (safe F w (let! (s, context) := r_coerceToString R e [] false false true in
                    ret (mkString (dirOf s) context)) good) by (sbind rs_coerce as [s c] _; by sret).
  destruct v as [| | | |path| | | | | | | | |]; try done. unfold parent. destruct (isRoot path); by sret.
Qed.
Lemma name_version_set w p q i : init_symbols `prefix_of` w_symbols w -> vaddr w p -> vaddr w q ->
  vsym w i -> w_symbols w !! Z.to_nat (i - 1) = Some (L "version") ->
  vbindings w (attrs_sort [(sName, p); (i, q)]).
Proof.
  intros Hi Hp Hq Hv Hn. assert (Hne : sName <> i).
  { intros <-. assert (H : w_symbols w !! 5 = Some (L "name")) by (eapply prefix_lookup_Some; [|exact Hi]; done).
    change (Z.to_nat (sName - 1)) with 5 in Hn. rewrite H in Hn. discriminate Hn. }
  assert (Hsv : vsym w sName).
  { apply prefix_length in Hi. unfold vsym, valid_symbol, sName. change (length init_symbols) with 51 in Hi. lia. }
  by apply two_names_set.
Qed.
Lemma prim_parseDrvName_safe w e : vaddr w e -> safe F w (prim_parseDrvName R e) good.
Proof.
  intros He. unfold prim_parseDrvName. sbind forceStringNoCtx_safe as s _. sbind safe_buildBindings as b ->.
  sbind safe_allocValue as n Hn. push_binding b.
  eapply safe_bind; [apply safe_symbols_create|]. intros w' i Hle [Hi Hv]. to_later Hle.
  apply init_valid. intros Hinit.
  eapply safe_bind; [by apply safe_allocValue|]. intros w2 p Hle2 Hp. to_later Hle2.
  apply init_valid. intros Hinit2.
  eapply safe_bind; [apply safe_push_back; simpl; lia|]. intros w3 b Hle3 ->. sret. split; [|done]. simpl.
  eapply vbindings_later; [exact Hle3|]. apply name_version_set; try done.
  eapply prefix_lookup_Some; [exact Hv|apply Hle2].
Qed.
Lemma prim_splitVersion_safe w e : vaddr w e -> safe F w (prim_splitVersion R e) good.
Proof.
  intros He. unfold prim_splitVersion. sbind forceStringNoCtx_safe as s _.
  eapply safe_bind; [apply (mmap_safe F vaddr _ (fun _ _ => True))|intros w' l _ Hl; by sret].
  - done.
  - intros; by eapply vaddr_later.
  - intros w' c _. by apply safe_allocValue.
  - by apply Forall_forall.
Qed.
Lemma concatSep_loop_safe w sep first l res context : Forall (vaddr w) l ->
  safe F w (concatSep_loop R sep first l res context) any.
Proof.
  revert w first res context. induction l as [|p l IH]; intros w first res context Hl; simpl; [by sret|].
  apply Forall_cons in Hl as [Hp Hl]. sbind rs_coerce as [s c] _. by apply IH.
Qed.
Lemma prim_concatStringsSep_safe w s e : vaddr w s -> vaddr w e -> safe F w (prim_concatStringsSep R s e) good.
Proof.
  intros Hs He. unfold prim_concatStringsSep. sbind forceString_safe as [sep c] _. sbind forceList_safe as l Hl.
  sbind concatSep_loop_safe as [res c'] _. by sret.
Qed.

Lemma find_from_lt s p from j k i : find_from s p from j = Some (k, i) -> k < j + length from.
Proof.
  revert j. induction from as [|x from IH]; intros j; simpl; [done|]. case_bool_decide; [intros [= <- <-]; lia|].
  intros Hk%IH. lia.
Qed.
Lemma replacement_safe w to j cache context : Forall (vaddr w) to -> j < length to ->
  safe F w (replacement R to j cache context) any.
Proof.
  intros Hto Hj. unfold replacement. destruct (cache_find j cache); [by sret|].
  destruct (lookup_lt_is_Some_2 to j Hj) as [p Hp]. rewrite Hp. rewrite Forall_forall in Hto.
  assert (vaddr w p) by (by eapply Hto, list_elem_of_lookup_2). sbind forceString_safe as [ts c] _. by sret.
Qed.
Lemma replace_loop_safe fuel w from to s p cache context res : Forall (vaddr w) to -> length from = length to ->
  safe F w (replace_loop R fuel from to s p cache context res) any.
Proof.
  revert w p cache context res. induction fuel as [|fuel IH]; intros w p cache context res Hto Hl; simpl; [apply safe_fuel|].
  destruct (_ <? _); [by sret|]. destruct (find_from s p from 0) as [[j i]|] eqn:Hf; [|by apply IH].
  apply find_from_lt in Hf. sbind replacement_safe as [[v c] ctx] _; [lia|]. case_bool_decide; by apply IH.
Qed.
Lemma mmap_length {A B} (f : A -> M B) l st l' st' : mmap f l st = (Ok l', st') -> length l' = length l.
Proof.
  revert st l' st'. induction l as [|x l IH]; intros st l' st'; simpl; [by intros [= <- _]|].
  unfold ebind. destruct (f x st) as [[y|] st1]; [|done]. destruct (mmap f l st1) as [[ys|] st2] eqn:E; [|done].
  intros [= <- _]. simpl. f_equal. by eapply IH.
Qed.
Lemma safe_result {A} w (m : M A) Q (P : A -> Prop) :
  safe F w m Q -> (forall st a st', m st = (Ok a, st') -> P a) -> safe F w m (fun w' a => Q w' a /\ P a).
Proof.
  intros Hm HP st Hst HF. specialize (Hm st Hst HF). destruct (m st) as [[a|f] st'] eqn:E; [|done]. simpl in *.
  destruct Hm as (U & w' & ? & ? & ? & ? & ?). exists U, w'. split_and!; try done. by eapply HP.
Qed.
Lemma prim_replaceStrings_safe w from to s : vaddr w from -> vaddr w to -> vaddr w s ->
  safe F w (prim_replaceStrings R from to s) good.
Proof.
  intros Hf Ht Hs. unfold prim_replaceStrings. sbind forceList_safe as lf Hlf. sbind forceList_safe as lt Hlt.
  destruct (Nat.eqb_spec (length lf) (length lt)) as [Hl|]; [|serr]. cbn [negb].
  eapply safe_bind; [apply (safe_result _ _ any (fun l => length l = length lf)); [|intros; by eapply mmap_length]|].
  - eapply safe_mono; [apply (mmap_safe F any _ vaddr)|done].
    + intros; by eapply vaddr_later.
    + done.
    + clear -HR. intros w e He. sbind forceString_safe as [t c] _. by sret.
    + done.
  - intros w' fr Hle [_ Hfr]. next_world Hle. sbind forceString_safe as [t c] _.
    sbind replace_loop_safe as [r c'] _; [by rewrite Hfr|]. by sret.
Qed.
End list_primops_safe.
