(* ===== verification/EvaluatorSafe.v ===== *)
(** * Safety of whole evaluations

    Every primitive operation but [elemAt], [ceil] and [floor] is safe; with the
    evaluator's own functions this closes the recursion: no amount of fuel makes
    an evaluation of a parsed expression fail an assertion or meet undefined
    behaviour, provided that the attributes of [inherit (e)] refer to sources of
    their own set, which the parser may break when it merges two sets (then the
    evaluator does read outside of an environment,
    [ParserState.merged_inherit_out_of_bounds]). The three exceptions among the
    primitive operations, with their conditions, are claims of their own. *)

From Stdlib Require Import SpecFloat Sorting.Sorted.
From stdpp Require Import gmap.
From S2P Require Import Prelude.
From S2P Require Import Containers.
From S2P Require Import CanonPath.
From S2P Require Import StorePath.
From S2P Require Import Expr.
From S2P Require Import Scoping.
From S2P Require Import Values.
From S2P Require Import Eval.
From S2P Require Import AttrSets.
From S2P Require Import Primops.
From S2P Require Import ListPrimops.
From S2P Require Import StringPrimops.
From S2P Require Import Evaluator.
From S2P Require Import EvalInv.
From S2P Require Import EvalSafe.
From S2P Require Import PrimopsSafe.
From S2P Require Import ListPrimopsSafe.

Section table_safe.
Context (R : Rec) {HR : Rec_safe R}.
Context (F : gmap addr Env).

Lemma call_primop_safe w p args : allowed p -> length args = arity p -> Forall (vaddr w) args ->
  safe F w (call_primop R p args) good.
Proof.
  intros Hp Hl Hargs.
  destruct args as [|a1 [|a2 [|a3 [|]]]]; destruct p; try discriminate Hl; try done;
    repeat (apply Forall_cons in Hargs as [? Hargs]); cbn [call_primop].
  all: first
    [ by apply prim_typeOf_safe | by apply prim_is_safe | by apply prim_abort_safe | by apply prim_throw_safe
    | by apply prim_tryEval_safe | by apply prim_seq_safe | by apply prim_deepSeq_safe | by apply prim_attrNames_safe
    | by apply prim_attrValues_safe | by apply prim_getAttr_safe | by apply prim_hasAttr_safe
    | by apply prim_removeAttrs_safe | by apply prim_listToAttrs_safe | by apply prim_intersectAttrs_safe
    | by apply prim_catAttrs_safe | by apply prim_functionArgs_safe | by apply prim_mapAttrs_safe
    | by apply prim_head_safe | by apply prim_tail_safe | by apply prim_map_safe | by apply prim_filter_safe
    | by apply prim_elem_safe | by apply prim_concatLists_safe | by apply prim_length_safe
    | by apply prim_foldlStrict_safe | by apply anyOrAll_safe | by apply prim_genList_safe | by apply arith_safe
    | by apply prim_div_safe | by apply bitop_safe | by apply prim_lessThan_safe | by apply prim_toString_safe
    | by apply prim_substring_safe | by apply prim_stringLength_safe
    | by apply prim_sort_safe | by apply prim_partition_safe | by apply prim_groupBy_safe | by apply prim_concatMap_safe
    | by apply prim_genericClosure_safe | by apply prim_concatStringsSep_safe | by apply prim_replaceStrings_safe
    | by apply prim_parseDrvName_safe | by apply prim_splitVersion_safe | by apply prim_baseNameOf_safe
    | by apply prim_dirOf_safe ].
Qed.
End table_safe.

(** ** Whole evaluations *)

Section knot_safe.
Context (maxCallDepth : nat) (storeDir : bytes) (fetchToStore : bytes -> result StorePath).
Context (Hfetch : forall path f, fetchToStore path = Err f -> benign f).

Lemma no_fuel_safe : Rec_safe no_fuel.
Proof. split; intros; apply safe_fuel. Qed.

Lemma unfold_rec_safe R : Rec_safe R -> Rec_safe (unfold_rec maxCallDepth storeDir fetchToStore R).
Proof.
  intros HR. split; simpl; intros.
  - by eapply eval_safe.
  - by apply forceValue_safe.
  - by apply callFunction_safe.
  - by apply call_primop_safe.
  - by apply eqValues_safe.
  - by apply assertEqValues_safe.
  - by apply coerceToString_safe.
  - by apply compareValues_safe.
  - by apply forceValueDeep_safe.
  - by apply closure_loop_safe.
Qed.

Lemma evaluator_safe fuel : Rec_safe (evaluator maxCallDepth storeDir fetchToStore fuel).
Proof. induction fuel as [|fuel IH]; [apply no_fuel_safe|by apply unfold_rec_safe]. Qed.

Lemma numbered_map_lookup {A} (l : list A) n p :
  (list_to_map (zip (N.of_nat <$> seq n (length l)) l) : gmap addr A) !! p =
  if (N.of_nat n <=? p)%N then l !! (N.to_nat p - n) else None.
Proof.
  revert n. induction l as [|x l IH]; intros n; simpl.
  - rewrite lookup_empty. by destruct (_ <=? _)%N.
  - destruct (decide (p = N.of_nat n)) as [->|Hne].
    + rewrite lookup_insert_eq, N.leb_refl, Nat2N.id, Nat.sub_diag. done.
    + rewrite lookup_insert_ne, IH by done.
      destruct (N.leb_spec (N.of_nat n) p), (N.leb_spec (N.of_nat (S n)) p); [|lia|lia|done].
      by replace (N.to_nat p - n) with (S (N.to_nat p - S n)) by lia.
Qed.

Definition initial_world (prims : list builtin) (symbols : list bytes) : world :=
  mkWorld {[ 0%N := [SVars (3 + length prims)] ]} ∅ (N.of_nat (length (base_values prims))) (init_symbols ++ symbols).

Lemma initial_valid prims symbols : Forall allowed prims ->
  valid ∅ (initial_world prims symbols) (initial_state prims symbols).
Proof.
  intros Hp. assert (Hlen : length (base_values prims) = 4 + length prims) by (unfold base_values; by rewrite length_app, length_fmap).
  unfold initial_state. split; cbn [es_nextValue es_values es_symbols es_nextEnv es_envs w_next w_shapes w_frozen w_symbols initial_world].
  - done.
  - intros p Hv. unfold vaddr in Hv. cbn [w_next initial_world] in Hv. rewrite numbered_map_lookup, Nat.sub_0_r, (proj2 (N.leb_le _ _)) by lia.
    destruct (lookup_lt_is_Some_2 (base_values prims) (N.to_nat p)) as [v Hv']; [lia|]. exists v. split; [done|].
    unfold base_values in Hv'. rewrite Forall_forall in Hp.
    apply list_elem_of_lookup_2, elem_of_app in Hv' as [Hin|Hin].
    + repeat (apply elem_of_cons in Hin as [->|Hin]; [simpl; by try apply Forall_nil_2|]). by apply not_elem_of_nil in Hin.
    + apply list_elem_of_fmap in Hin as (q & -> & Hq). by apply Hp.
  - intros p Hle. rewrite numbered_map_lookup, Nat.sub_0_r. destruct (_ <=? _)%N; [|done]. apply lookup_ge_None. lia.
  - apply map_empty_subseteq.
  - done.
  - done.
  - by apply prefix_app_r.
  - rewrite Hlen. lia.
  - intros e He. rewrite !lookup_singleton_ne, lookup_empty by lia. done.
  - intros e S HS. unfold venv in HS. cbn [w_shapes initial_world] in HS.
    apply lookup_singleton_Some in HS as [<- <-].
    eexists _, [], _. split; [done|]. cbn [es_envs]. rewrite lookup_singleton_eq. split; [done|]. cbn [env_values].
    split; [by rewrite length_fmap, length_seq|]. split; [by left|].
    intros i o Ho. apply list_lookup_fmap_Some in Ho as (k & -> & Hk). apply lookup_seq in Hk as [-> Hk].
    unfold vaddr. cbn [w_next initial_world]. rewrite Hlen. lia.
Qed.

Lemma eval_expr_outcome fuel prims symbols vars e :
  Forall allowed prims -> Forall (fun v => v.2 < 3 + length prims) vars ->
  parsed true (length (init_symbols ++ symbols)) e ->
  outcome ∅ (initial_world prims symbols)
    (eval_expr maxCallDepth storeDir fetchToStore fuel [Vars vars] e (initial_state prims symbols))
    (fun U w v => U = ∅ /\ good w v).
Proof.
  intros Hp Hv He. set (w := initial_world prims symbols).
  assert (Hs : safe ∅ w (eval_expr maxCallDepth storeDir fetchToStore fuel [Vars vars] e) good).
  { unfold eval_expr. eapply (safe_bind _ _ _ (fun w' e' => venv w' 0%N [SVars (3 + length prims)] /\
      vexpr w' [SVars (3 + length prims)] e')).
    - apply safe_lift. destruct (bindVars [Vars vars] e) as [e'|f] eqn:Hb.
      + split; [by apply lookup_singleton_eq|].
        eapply (bindVars_establishes true _ e [Vars vars]); [|exact He|exact Hb]. split; [by eexists|]. by split.
      + by apply bindVars_undefined in Hb as ->.
    - intros w' e' _ [Henv He']. by eapply (evaluator_safe fuel). }
  apply Hs; [by apply initial_valid|]. split; [apply map_empty_subseteq|]. intros e'. rewrite lookup_empty. by intros [].
Qed.
End knot_safe.

(** C4: no evaluation of a parsed expression, all of whose [inherit (e)]
    attributes refer to a source of their own set, fails an assertion, reads or
    writes outside of an environment, set or list, or follows a null pointer,
    for any limit on the call depth, any fuel, and any primitive operations
    other than [elemAt], [ceil] and [floor] in the base environment; a result is
    a value, not a thunk. The condition on [inherit (e)] is [parsed true], not
    [parsed false]: the parser ensures it for each set as written, but may break
    it when it merges two sets with such attributes (parser-state.hh:185). The
    other conditions: copying a path to the store fails only by throwing, and
    the variables of the base environment have slots in it. *)
Theorem eval_expr_safe maxCallDepth storeDir fetchToStore fuel prims symbols vars e :
  (forall path f, fetchToStore path = Err f -> benign f) ->
  Forall allowed prims -> Forall (fun v : Symbol * Displacement => v.2 < 3 + length prims) vars ->
  parsed true (length (init_symbols ++ symbols)) e ->
  match (eval_expr maxCallDepth storeDir fetchToStore fuel [Vars vars] e (initial_state prims symbols)).1 with
  | Ok v => type v <> nThunk
  | Err f => f <> UndefinedBehaviour /\ f <> AssertFailed
  end.
Proof.
  intros Hf Hp Hv He.
  assert (H := eval_expr_outcome maxCallDepth storeDir fetchToStore Hf fuel prims symbols vars e Hp Hv He).
  destruct (eval_expr _ _ _ _ _ _ _) as [[v|f] st]; simpl in *; [|apply H].
  by destruct H as (U & w & _ & _ & _ & _ & _ & Hw).
Qed.

(** [with { b = 41; }; (x: { a ? b, ... }@args: a + x) 1 { }] *)
Definition example_program : Expr :=
  ExprWith (ExprAttrs (mkAttrs false [(53%Z, mkAttrDef Plain (ExprInt 41) 0)] None []))
    (ExprCall
       (ExprLambda (Some 54%Z) None
          (ExprLambda (Some 55%Z) (Some (mkFormals [mkFormal 52%Z (Some (ExprVar 53%Z Unresolved))] true))
             (ExprConcatStrings false [ExprVar 52%Z Unresolved; ExprVar 54%Z Unresolved])))
       [ExprInt 1; ExprAttrs (mkAttrs false [] None [])]).

Lemma eval_expr_safe_witness :
  (eval_expr 10000 (L "/nix/store") (fun _ => throw Error) 30 [Vars []] example_program
     (initial_state [P_map; P_tryEval] [L "a"; L "b"; L "x"; L "args"])).1 = Ok (VInt 42) /\
  type (VInt 42) <> nThunk.
Proof.
  split; [vm_compute; reflexivity|].
  apply (eval_expr_safe 10000 (L "/nix/store") (fun _ => throw Error) 30 [P_map; P_tryEval]
    [L "a"; L "b"; L "x"; L "args"] [] example_program).
  - intros path f [= <-]. done.
  - by repeat constructor.
  - constructor.
  - simpl. unfold attrs_ok, formals_ok, valid_symbol. simpl. repeat split; repeat constructor; simpl; try lia; try done; by eexists.
Defined.

(** ** Indices are compared at 32 bits *)

(** C27: [builtins.elemAt] compares the index with the size of the list after
    converting it to 32 bits, and then uses all of it: it yields the element
    if the index is in range, throws if it is negative or out of range and
    fits 32 bits, but an index of [2^32] or more whose lower 32 bits are in
    range passes the check and is read beyond the end of the list. *)
Theorem elemAt_truncated_check R xs n i l st st1 st2 :
  forceInt R n st = (Ok i, st1) -> forceList R xs st1 = (Ok l, st2) ->
  (Z.of_nat (length l) <= 2 ^ 32)%Z ->
  ((0 <= i < Z.of_nat (length l))%Z ->
     exists p, l !! Z.to_nat i = Some p /\ prim_elemAt R xs n st = r_forceValue R p st2) /\
  ((i < 0 \/ Z.of_nat (length l) <= i < 2 ^ 32)%Z -> prim_elemAt R xs n st = (throw EvalError, st2)) /\
  ((2 ^ 32 <= i)%Z -> (i mod 2 ^ 32 < Z.of_nat (length l))%Z -> prim_elemAt R xs n st = (Err UndefinedBehaviour, st2)).
Proof.
  intros Hn Hl Hsize. unfold prim_elemAt, ebind. rewrite Hn, Hl. unfold u32. split_and!.
  - intros Hi. rewrite (proj2 (Z.ltb_ge i 0)), Z.mod_small by lia. rewrite !(proj2 (Z.leb_gt _ _)) by lia. simpl.
    destruct (lookup_lt_is_Some_2 l (Z.to_nat i)) as [p Hp]; [lia|]. exists p. by rewrite Hp.
  - intros [Hi|Hi].
    + by rewrite (proj2 (Z.ltb_lt i 0)) by lia.
    + rewrite Z.mod_small by lia. rewrite (proj2 (Z.leb_le _ i)), orb_true_r by lia. done.
  - intros Hi Hm. rewrite (proj2 (Z.ltb_ge i 0)) by lia. rewrite (proj2 (Z.leb_gt _ (i mod _))) by lia.
    by rewrite (proj2 (Z.leb_le _ i)) by lia.
Qed.

(** The list [[ 1 2 ]] and the index [2^32 + 1], evaluated. *)
Definition example_index : EvalState :=
  snd ((let! a := allocValue (VInt 1) in let! b := allocValue (VInt 2) in
   let! l := allocValue (VList [a; b]) in allocValue (VInt (2 ^ 32 + 1))) (initial_state [] [])).

Lemma elemAt_truncated_check_witness :
  exists R, prim_elemAt R 6 7 example_index = (Err UndefinedBehaviour, example_index).
Proof.
  exists (evaluator 100 (L "/nix/store") (fun _ => throw Error) 2).
  destruct (elemAt_truncated_check (evaluator 100 (L "/nix/store") (fun _ => throw Error) 2) 6 7
    (2 ^ 32 + 1) [4; 5]%N example_index example_index example_index) as (_ & _ & H);
    [vm_compute; reflexivity..|vm_compute; discriminate|].
  apply H; vm_compute; [discriminate|reflexivity].
Defined.

(** [builtins.substring], too: a start of [2^32] or more whose lower 32
    bits are less than the length of the string is not answered with the empty
    string, as documented, but ends in [std::out_of_range]; all other starts
    give the part of the string from there, or the empty string. *)
Theorem substring_truncated_check R a n e start len s context st st1 st2 st3 :
  forceInt R a st = (Ok start, st1) -> forceInt R n st1 = (Ok len, st2) ->
  r_coerceToString R e [] false true true st2 = (Ok (s, context), st3) ->
  (0 <= start)%Z -> (0 < len)%Z -> (Z.of_nat (length s) < 2 ^ 32)%Z ->
  prim_substring R a n e st =
    if (start <? 2 ^ 32)%Z || (Z.of_nat (length s) <=? start mod 2 ^ 32)%Z
    then (Ok (mkString (take (Z.to_nat (Z.min len (Z.of_nat (length s)))) (drop (Z.to_nat start) s)) context), st3)
    else (throw OutOfRange, st3).
Proof.
  intros Ha Hn He Hstart Hlen Hs. unfold prim_substring, ebind. rewrite Ha, (proj2 (Z.ltb_ge start 0)) by lia.
  rewrite Hn. cbv zeta. rewrite (proj2 (Z.ltb_ge len 0)), (proj2 (Z.eqb_neq len 0)) by lia. cbn [ret]. unfold ret at 1.
  rewrite He. unfold u32.
  destruct (Z.ltb_spec start (2 ^ 32)); cbn [orb].
  - rewrite Z.mod_small by lia. destruct (Z.leb_spec (Z.of_nat (length s)) start).
    + rewrite drop_ge, take_nil by lia. done.
    + by rewrite (proj2 (Z.ltb_ge _ _)) by lia.
  - destruct (Z.leb_spec (Z.of_nat (length s)) (start mod 2 ^ 32)).
    + rewrite drop_ge, take_nil by lia. done.
    + by rewrite (proj2 (Z.ltb_lt _ _)) by lia.
Qed.

Definition example_substring : EvalState :=
  snd ((let! a := allocValue (VInt (2 ^ 32)) in let! b := allocValue (VInt 2) in
   allocValue (VString (L "abc") [])) (initial_state [] [])).

Lemma substring_truncated_check_witness :
  exists R, prim_substring R 4 5 6 example_substring = (throw OutOfRange, example_substring).
Proof.
  exists (evaluator 100 (L "/nix/store") (fun _ => throw Error) 3).
  apply (substring_truncated_check (evaluator 100 (L "/nix/store") (fun _ => throw Error) 3) 4 5 6
    (2 ^ 32) 2 (L "abc") [] example_substring example_substring example_substring example_substring);
    try (vm_compute; reflexivity); vm_compute; discriminate.
Defined.

(** [{ a = 1; b = 2; } // { b = 3; }] *)
Lemma update_right_biased_witness :
  let R := evaluator 100 (L "/nix/store") (fun _ => throw Error) 5 in
  let st := initial_state [] [L "a"; L "b"] in
  let e1 := ExprAttrs (mkAttrs false [(52%Z, mkAttrDef Plain (ExprInt 1) 0); (53%Z, mkAttrDef Plain (ExprInt 2) 0)] None []) in
  let e2 := ExprAttrs (mkAttrs false [(53%Z, mkAttrDef Plain (ExprInt 3) 0)] None []) in
  exists l, (eval_update R 0%N e1 e2 st).1 = Ok (VAttrs l) /\ attrs_get 52 l = Some 4%N /\ attrs_get 53 l = Some 6%N.
Proof.
  cbv zeta. set (R := evaluator _ _ _ _). set (st := initial_state _ _). set (e1 := ExprAttrs _). set (e2 := ExprAttrs _).
  destruct (update_right_biased R 0%N e1 e2 st (evalAttrs R 0%N e1 st).2
    (evalAttrs R 0%N e2 (evalAttrs R 0%N e1 st).2).2 [(52%Z, 4%N); (53%Z, 5%N)] [(53%Z, 6%N)]) as (l & Hl & _ & Hg).
  - vm_compute. reflexivity.
  - vm_compute. reflexivity.
  - repeat constructor.
  - repeat constructor.
  - vm_compute. reflexivity.
  - exists l. rewrite Hl, !Hg. split; [done|]. by vm_compute.
Defined.
