(* ===== verification/EvalFuel.v ===== *)
(** * More fuel does not change a result

    [mle m m']: where [m] does not run out of fuel, [m'] behaves like [m]. All
    functions of the evaluator are monotone in the functions that they call
    recursively, so an evaluation that ends has the same outcome, and leaves
    the same state, with any larger amount of fuel. *)

From Stdlib Require Import SpecFloat.
From stdpp Require Import gmap.
From S2P Require Import Prelude.
From S2P Require Import Containers.
From S2P Require Import CanonPath.
From S2P Require Import StorePath.
From S2P Require Import Expr.
From S2P Require Import Values.
From S2P Require Import Eval.
From S2P Require Import Primops.
From S2P Require Import ListPrimops.
From S2P Require Import StringPrimops.
From S2P Require Import Evaluator.

Definition mle {A} (m m' : M A) : Prop := forall st, (m st).1 = Err OutOfFuel \/ m' st = m st.

Create HintDb mle.

Lemma mle_refl {A} (m : M A) : mle m m.
Proof. by right. Qed.
Lemma mle_fuel {A} (m : M A) : mle (fail OutOfFuel) m.
Proof. by left. Qed.
Lemma mle_bind {A B} (m m' : M A) (k k' : A -> M B) :
  mle m m' -> (forall a, mle (k a) (k' a)) -> mle (ebind m k) (ebind m' k').
Proof.
  intros Hm Hk st. unfold ebind. specialize (Hm st). destruct (m st) as [[a|f] st'] eqn:E; simpl in Hm.
  - destruct Hm as [| ->]; [done|]. apply Hk.
  - destruct Hm as [[= ->]| ->]; [by left|by right].
Qed.
Lemma mle_catch {A} (m m' : M A) h h' :
  mle m m' -> h OutOfFuel = None ->
  (forall f, match h f, h' f with Some n, Some n' => mle n n' | None, None => True | _, _ => False end) ->
  mle (mcatch m h) (mcatch m' h').
Proof.
  intros Hm Ho Hh st. unfold mcatch. specialize (Hm st). destruct (m st) as [[a|f] st'] eqn:E; simpl in Hm.
  - destruct Hm as [| ->]; [done|]. by right.
  - destruct Hm as [[= ->]| ->]; [rewrite Ho; by left|]. specialize (Hh f).
    destruct (h f), (h' f); try done; try apply Hh; by right.
Qed.
Lemma mle_on_failure {A} (m m' : M A) c : mle m m' -> mle (on_failure m c) (on_failure m' c).
Proof.
  intros Hm st. unfold on_failure. specialize (Hm st). destruct (m st) as [[a|f] st'] eqn:E; simpl in Hm.
  - destruct Hm as [| ->]; [done|]. by right.
  - destruct Hm as [[= ->]| ->]; [by left|by right].
Qed.
Lemma mle_callDepth {A} n (m m' : M A) : mle m m' -> mle (with_callDepth n m) (with_callDepth n m').
Proof.
  intros Hm st. unfold with_callDepth. destruct (_ <? _); [by right|]. destruct (Hm (set_callDepth (S (es_callDepth st)) st)) as [H|H].
  - destruct (m _) as [r st']. simpl in H. subst r. by left.
  - right. by rewrite H.
Qed.
Lemma mle_mmap {A B} (f f' : A -> M B) l : (forall a, mle (f a) (f' a)) -> mle (mmap f l) (mmap f' l).
Proof.
  intros Hf. induction l as [|x l IH]; simpl; [apply mle_refl|].
  apply mle_bind; [done|]. intros y. apply mle_bind; [done|]. intros. apply mle_refl.
Qed.

Record Rec_le (R R' : Rec) : Prop := {
  le_eval env e : mle (r_eval R env e) (r_eval R' env e);
  le_force p : mle (r_forceValue R p) (r_forceValue R' p);
  le_call f args : mle (r_callFunction R f args) (r_callFunction R' f args);
  le_primop p args : mle (r_primop R p args) (r_primop R' p args);
  le_eq p1 p2 : mle (r_eqValues R p1 p2) (r_eqValues R' p1 p2);
  le_assertEq p1 p2 : mle (r_assertEqValues R p1 p2) (r_assertEqValues R' p1 p2);
  le_coerce p c b1 b2 b3 : mle (r_coerceToString R p c b1 b2 b3) (r_coerceToString R' p c b1 b2 b3);
  le_compare p1 p2 : mle (r_compareValues R p1 p2) (r_compareValues R' p1 p2);
  le_deep s p : mle (r_forceValueDeep R s p) (r_forceValueDeep R' s p);
  le_closure op l d s : mle (r_closure R op l d s) (r_closure R' op l d s);
}.

(** One step: a structural rule, a case distinction that both sides make, or a
    lemma on a function of the evaluator. *)
Ltac mle_step :=
  lazymatch goal with
  | |- mle (ebind _ _) (ebind _ _) => apply mle_bind; [|intros ?]
  | |- mle (mmap _ _) (mmap _ _) => apply mle_mmap; intros ?
  | |- mle (on_failure _ _) (on_failure _ _) => apply mle_on_failure
  | |- mle (with_callDepth _ _) (with_callDepth _ _) => apply mle_callDepth
  | |- mle (match ?x with _ => _ end) (match ?x with _ => _ end) => destruct x
  | |- mle ?m ?m' => first [apply mle_refl | solve [auto 2 with mle nocore]]
  end.
Ltac mle_auto := repeat mle_step.

Section monotone.
Context (R R' : Rec) (HR : Rec_le R R').
Context (maxCallDepth : nat) (storeDir : bytes) (fetchToStore : bytes -> result StorePath).

#[local] Hint Extern 1 (mle (r_eval _ _ _) _) => apply (le_eval _ _ HR) : mle.
#[local] Hint Extern 1 (mle (r_forceValue _ _) _) => apply (le_force _ _ HR) : mle.
#[local] Hint Extern 1 (mle (r_callFunction _ _ _) _) => apply (le_call _ _ HR) : mle.
#[local] Hint Extern 1 (mle (r_primop _ _ _) _) => apply (le_primop _ _ HR) : mle.
#[local] Hint Extern 1 (mle (r_eqValues _ _ _) _) => apply (le_eq _ _ HR) : mle.
#[local] Hint Extern 1 (mle (r_assertEqValues _ _ _) _) => apply (le_assertEq _ _ HR) : mle.
#[local] Hint Extern 1 (mle (r_coerceToString _ _ _ _ _ _) _) => apply (le_coerce _ _ HR) : mle.
#[local] Hint Extern 1 (mle (r_compareValues _ _ _) _) => apply (le_compare _ _ HR) : mle.
#[local] Hint Extern 1 (mle (r_forceValueDeep _ _ _) _) => apply (le_deep _ _ HR) : mle.
#[local] Hint Extern 1 (mle (r_closure _ _ _ _ _) _) => apply (le_closure _ _ HR) : mle.


(** ** Forcing and variables *)

Lemma mle_forceValue p : mle (forceValue R p) (forceValue R' p).
Proof. unfold forceValue. mle_auto. Qed.
#[local] Hint Resolve mle_forceValue : mle.
Lemma mle_forceAttrs p : mle (forceAttrs R p) (forceAttrs R' p).
Proof. unfold forceAttrs. mle_auto. Qed.
#[local] Hint Resolve mle_forceAttrs : mle.
Lemma mle_forceList p : mle (forceList R p) (forceList R' p).
Proof. unfold forceList. mle_auto. Qed.
#[local] Hint Resolve mle_forceList : mle.
Lemma mle_forceInt p : mle (forceInt R p) (forceInt R' p).
Proof. unfold forceInt. mle_auto. Qed.
#[local] Hint Resolve mle_forceInt : mle.
Lemma mle_forceFloat p : mle (forceFloat R p) (forceFloat R' p).
Proof. unfold forceFloat. mle_auto. Qed.
#[local] Hint Resolve mle_forceFloat : mle.
Lemma mle_forceBool p : mle (forceBool R p) (forceBool R' p).
Proof. unfold forceBool. mle_auto. Qed.
#[local] Hint Resolve mle_forceBool : mle.
Lemma mle_forceFunction p : mle (forceFunction R p) (forceFunction R' p).
Proof. unfold forceFunction. mle_auto. Qed.
#[local] Hint Resolve mle_forceFunction : mle.
Lemma mle_forceString p : mle (forceString R p) (forceString R' p).
Proof. unfold forceString. mle_auto. Qed.
#[local] Hint Resolve mle_forceString : mle.
Lemma mle_forceStringNoCtx p : mle (forceStringNoCtx R p) (forceStringNoCtx R' p).
Proof. unfold forceStringNoCtx. mle_auto. Qed.
#[local] Hint Resolve mle_forceStringNoCtx : mle.
Lemma mle_eval_tmp env e : mle (eval_tmp R env e) (eval_tmp R' env e).
Proof. unfold eval_tmp. mle_auto. Qed.
#[local] Hint Resolve mle_eval_tmp : mle.
Lemma mle_evalBool env e : mle (evalBool R env e) (evalBool R' env e).
Proof. unfold evalBool. mle_auto. Qed.
#[local] Hint Resolve mle_evalBool : mle.
Lemma mle_evalAttrs env e : mle (evalAttrs R env e) (evalAttrs R' env e).
Proof. unfold evalAttrs. mle_auto. Qed.
#[local] Hint Resolve mle_evalAttrs : mle.
Lemma mle_with_loop name : forall w env, mle (with_loop R name w env) (with_loop R' name w env).
Proof. fix IH 1. intros [prev [w|]] env; cbn [with_loop]; mle_auto. Qed.
#[local] Hint Resolve mle_with_loop : mle.
Lemma mle_lookupVar env name ref b : mle (lookupVar R env name ref b) (lookupVar R' env name ref b).
Proof. unfold lookupVar. mle_auto. Qed.
#[local] Hint Resolve mle_lookupVar : mle.
Lemma mle_maybeThunk env e : mle (maybeThunk R env e) (maybeThunk R' env e).
Proof. unfold maybeThunk. mle_auto. Qed.
#[local] Hint Resolve mle_maybeThunk : mle.
Lemma mle_eval_var env name ref : mle (eval_var R env name ref) (eval_var R' env name ref).
Proof. unfold eval_var. mle_auto. Qed.
#[local] Hint Resolve mle_eval_var : mle.

(** ** Attribute sets *)

Lemma mle_getName env i : mle (getName R env i) (getName R' env i).
Proof. unfold getName. mle_auto. Qed.
#[local] Hint Resolve mle_getName : mle.
Lemma mle_fill_env env d l up : mle (fill_env R env d l up) (fill_env R' env d l up).
Proof. revert d. induction l as [|e l IH]; intros d; cbn [fill_env]; mle_auto. Qed.
#[local] Hint Resolve mle_fill_env : mle.
Lemma mle_buildInheritFromEnv l up : mle (buildInheritFromEnv R l up) (buildInheritFromEnv R' l up).
Proof. unfold buildInheritFromEnv. mle_auto. Qed.
#[local] Hint Resolve mle_buildInheritFromEnv : mle.
Lemma mle_inherit_env o up : mle (inherit_env R o up) (inherit_env R' o up).
Proof. unfold inherit_env. mle_auto. Qed.
#[local] Hint Resolve mle_inherit_env : mle.
Lemma mle_rec_attrs o env2 env ie d l b : mle (rec_attrs R o env2 env ie d l b) (rec_attrs R' o env2 env ie d l b).
Proof. revert d b. induction l as [|[n x] l IH]; intros d b; cbn [rec_attrs]; mle_auto. Qed.
#[local] Hint Resolve mle_rec_attrs : mle.
Lemma mle_plain_attrs env ie l b : mle (plain_attrs R env ie l b) (plain_attrs R' env ie l b).
Proof. revert b. induction l as [|[n x] l IH]; intros b; cbn [plain_attrs]; mle_auto. Qed.
#[local] Hint Resolve mle_plain_attrs : mle.
Lemma mle_apply_overrides env2 attrs o b : mle (apply_overrides R env2 attrs o b) (apply_overrides R' env2 attrs o b).
Proof. unfold apply_overrides. mle_auto. Qed.
#[local] Hint Resolve mle_apply_overrides : mle.
Lemma mle_dynamic_attrs env l b s : mle (dynamic_attrs R env l b s) (dynamic_attrs R' env l b s).
Proof. revert b s. induction l as [|[n x] l IH]; intros b s; cbn [dynamic_attrs]; mle_auto. Qed.
#[local] Hint Resolve mle_dynamic_attrs : mle.
Lemma mle_eval_attrs env a : mle (eval_attrs R env a) (eval_attrs R' env a).
Proof. unfold eval_attrs. mle_auto. Qed.
#[local] Hint Resolve mle_eval_attrs : mle.
Lemma mle_let_attrs env2 env ie d l : mle (let_attrs R env2 env ie d l) (let_attrs R' env2 env ie d l).
Proof. revert d. induction l as [|[n x] l IH]; intros d; cbn [let_attrs]; mle_auto. Qed.
#[local] Hint Resolve mle_let_attrs : mle.
Lemma mle_eval_let env a body : mle (eval_let R env a body) (eval_let R' env a body).
Proof. unfold eval_let. mle_auto. Qed.
#[local] Hint Resolve mle_eval_let : mle.
Lemma mle_select_path env def path cur : mle (select_path R env def path cur) (select_path R' env def path cur).
Proof. revert cur. induction path as [|i path IH]; intros cur; cbn [select_path]; mle_auto. Qed.
#[local] Hint Resolve mle_select_path : mle.
Lemma mle_eval_select env e path def : mle (eval_select R env e path def) (eval_select R' env e path def).
Proof. unfold eval_select. mle_auto. Qed.
#[local] Hint Resolve mle_eval_select : mle.
Lemma mle_has_path env path cur : mle (has_path R env path cur) (has_path R' env path cur).
Proof. revert cur. induction path as [|i path IH]; intros cur; cbn [has_path]; mle_auto. Qed.
#[local] Hint Resolve mle_has_path : mle.
Lemma mle_eval_hasAttr env e path : mle (eval_hasAttr R env e path) (eval_hasAttr R' env e path).
Proof. unfold eval_hasAttr. mle_auto. Qed.
#[local] Hint Resolve mle_eval_hasAttr : mle.
Lemma mle_eval_update env e1 e2 : mle (eval_update R env e1 e2) (eval_update R' env e1 e2).
Proof. unfold eval_update. mle_auto. Qed.
#[local] Hint Resolve mle_eval_update : mle.

(** ** Functions *)

Lemma mle_bind_args env2 attrs d fs n : mle (bind_args R env2 attrs d fs n) (bind_args R' env2 attrs d fs n).
Proof. revert d n. induction fs as [|f fs IH]; intros d n; cbn [bind_args]; mle_auto. Qed.
#[local] Hint Resolve mle_bind_args : mle.
Lemma mle_call_lambda env f arg : mle (call_lambda R env f arg) (call_lambda R' env f arg).
Proof. unfold call_lambda. mle_auto. Qed.
#[local] Hint Resolve mle_call_lambda : mle.
Lemma mle_call_loop fuel v args : mle (call_loop R fuel v args) (call_loop R' fuel v args).
Proof. revert v args. induction fuel as [|fuel IH]; intros v [|arg args]; cbn [call_loop]; mle_auto. Qed.
#[local] Hint Resolve mle_call_loop : mle.
Lemma mle_callFunction f args : mle (callFunction R maxCallDepth f args) (callFunction R' maxCallDepth f args).
Proof. unfold callFunction. mle_auto. Qed.
#[local] Hint Resolve mle_callFunction : mle.
Lemma mle_eval_call env f args : mle (eval_call R env f args) (eval_call R' env f args).
Proof. unfold eval_call. mle_auto. Qed.
#[local] Hint Resolve mle_eval_call : mle.

(** ** Equality, strings, lists *)

Lemma mle_isDerivation v : mle (isDerivation R v) (isDerivation R' v).
Proof. unfold isDerivation. mle_auto. Qed.
#[local] Hint Resolve mle_isDerivation : mle.
Lemma mle_both_outPath v1 v2 b1 b2 : mle (both_outPath R v1 v2 b1 b2) (both_outPath R' v1 v2 b1 b2).
Proof. unfold both_outPath. mle_auto. Qed.
#[local] Hint Resolve mle_both_outPath : mle.
Lemma mle_eq_list l1 l2 : mle (eq_list R l1 l2) (eq_list R' l1 l2).
Proof. revert l2. induction l1 as [|p1 l1 IH]; intros [|p2 l2]; simpl; mle_auto. Qed.
#[local] Hint Resolve mle_eq_list : mle.
Lemma mle_eq_attrs l1 l2 : mle (eq_attrs R l1 l2) (eq_attrs R' l1 l2).
Proof. revert l2. induction l1 as [|[n1 p1] l1 IH]; intros [|[n2 p2] l2]; simpl; mle_auto. Qed.
#[local] Hint Resolve mle_eq_attrs : mle.
Lemma mle_assertEq_list l1 l2 : mle (assertEq_list R l1 l2) (assertEq_list R' l1 l2).
Proof. revert l2. induction l1 as [|p1 l1 IH]; intros [|p2 l2]; simpl; mle_auto. Qed.
#[local] Hint Resolve mle_assertEq_list : mle.
Lemma mle_assertEq_attrs b1 b2 l1 l2 : mle (assertEq_attrs R b1 b2 l1 l2) (assertEq_attrs R' b1 b2 l1 l2).
Proof. revert l2. induction l1 as [|[n1 p1] l1 IH]; intros [|[n2 p2] l2]; simpl; mle_auto. Qed.
#[local] Hint Resolve mle_assertEq_attrs : mle.
Lemma mle_eqValues p1 p2 : mle (eqValues R p1 p2) (eqValues R' p1 p2).
Proof. unfold eqValues. mle_auto. Qed.
#[local] Hint Resolve mle_eqValues : mle.
Lemma mle_assertEqValues p1 p2 : mle (assertEqValues R p1 p2) (assertEqValues R' p1 p2).
Proof. unfold assertEqValues. mle_auto. Qed.
#[local] Hint Resolve mle_assertEqValues : mle.
Lemma mle_coerce_list l c b1 b2 b3 acc : mle (coerce_list R l c b1 b2 b3 acc) (coerce_list R' l c b1 b2 b3 acc).
Proof. revert c acc. induction l as [|p l IH]; intros c acc; cbn [coerce_list]; mle_auto. Qed.
#[local] Hint Resolve mle_coerce_list : mle.
Lemma mle_coerceToString p c b1 b2 b3 : mle (coerceToString R storeDir fetchToStore p c b1 b2 b3) (coerceToString R' storeDir fetchToStore p c b1 b2 b3).
Proof. unfold coerceToString. mle_auto. Qed.
#[local] Hint Resolve mle_coerceToString : mle.
Lemma mle_concat_step env e c : mle (concat_step R env e c) (concat_step R' env e c).
Proof. unfold concat_step. mle_auto. Qed.
#[local] Hint Resolve mle_concat_step : mle.
Lemma mle_concat_loop env es c : mle (concat_loop R env es c) (concat_loop R' env es c).
Proof. revert c. induction es as [|e es IH]; intros c; cbn [concat_loop]; mle_auto. Qed.
#[local] Hint Resolve mle_concat_loop : mle.
Lemma mle_eval_concatStrings env b es : mle (eval_concatStrings R env b es) (eval_concatStrings R' env b es).
Proof. unfold eval_concatStrings. mle_auto. Qed.
#[local] Hint Resolve mle_eval_concatStrings : mle.
Lemma mle_concatLists l : mle (concatLists R l) (concatLists R' l).
Proof. unfold concatLists. mle_auto. Qed.
#[local] Hint Resolve mle_concatLists : mle.
Lemma mle_deep_list l s : mle (deep_list R l s) (deep_list R' l s).
Proof. revert s. induction l as [|p l IH]; intros s; cbn [deep_list]; mle_auto. Qed.
#[local] Hint Resolve mle_deep_list : mle.
Lemma mle_forceValueDeep s p : mle (forceValueDeep R s p) (forceValueDeep R' s p).
Proof. unfold forceValueDeep. mle_auto. Qed.
#[local] Hint Resolve mle_forceValueDeep : mle.
Lemma mle_eval_binop env op e1 e2 : mle (eval_binop R env op e1 e2) (eval_binop R' env op e1 e2).
Proof. unfold eval_binop. mle_auto. Qed.
#[local] Hint Resolve mle_eval_binop : mle.
Lemma mle_eval_assert env c b : mle (eval_assert R env c b) (eval_assert R' env c b).
Proof. unfold eval_assert. mle_auto. Qed.
#[local] Hint Resolve mle_eval_assert : mle.
Lemma mle_eval_with env a b : mle (eval_with R env a b) (eval_with R' env a b).
Proof. unfold eval_with. mle_auto. Qed.
#[local] Hint Resolve mle_eval_with : mle.
Lemma mle_eval env e : mle (eval R env e) (eval R' env e).
Proof. unfold eval. mle_auto. Qed.
#[local] Hint Resolve mle_eval : mle.

(** ** Primitive operations *)

Lemma mle_prim_typeOf p : mle (prim_typeOf R p) (prim_typeOf R' p).
Proof. unfold prim_typeOf. mle_auto. Qed.
#[local] Hint Resolve mle_prim_typeOf : mle.
Lemma mle_prim_abort p : mle (prim_abort R p) (prim_abort R' p).
Proof. unfold prim_abort. mle_auto. Qed.
#[local] Hint Resolve mle_prim_abort : mle.
Lemma mle_prim_throw p : mle (prim_throw R p) (prim_throw R' p).
Proof. unfold prim_throw. mle_auto. Qed.
#[local] Hint Resolve mle_prim_throw : mle.
Lemma mle_prim_attrNames p : mle (prim_attrNames R p) (prim_attrNames R' p).
Proof. unfold prim_attrNames. mle_auto. Qed.
#[local] Hint Resolve mle_prim_attrNames : mle.
Lemma mle_prim_attrValues p : mle (prim_attrValues R p) (prim_attrValues R' p).
Proof. unfold prim_attrValues. mle_auto. Qed.
#[local] Hint Resolve mle_prim_attrValues : mle.
Lemma mle_prim_functionArgs p : mle (prim_functionArgs R p) (prim_functionArgs R' p).
Proof. unfold prim_functionArgs. mle_auto. Qed.
#[local] Hint Resolve mle_prim_functionArgs : mle.
Lemma mle_prim_head p : mle (prim_head R p) (prim_head R' p).
Proof. unfold prim_head. mle_auto. Qed.
#[local] Hint Resolve mle_prim_head : mle.
Lemma mle_prim_tail p : mle (prim_tail R p) (prim_tail R' p).
Proof. unfold prim_tail. mle_auto. Qed.
#[local] Hint Resolve mle_prim_tail : mle.
Lemma mle_prim_concatLists p : mle (prim_concatLists R p) (prim_concatLists R' p).
Proof. unfold prim_concatLists. mle_auto. Qed.
#[local] Hint Resolve mle_prim_concatLists : mle.
Lemma mle_prim_length p : mle (prim_length R p) (prim_length R' p).
Proof. unfold prim_length. mle_auto. Qed.
#[local] Hint Resolve mle_prim_length : mle.
Lemma mle_prim_toString p : mle (prim_toString R p) (prim_toString R' p).
Proof. unfold prim_toString. mle_auto. Qed.
#[local] Hint Resolve mle_prim_toString : mle.
Lemma mle_prim_stringLength p : mle (prim_stringLength R p) (prim_stringLength R' p).
Proof. unfold prim_stringLength. mle_auto. Qed.
#[local] Hint Resolve mle_prim_stringLength : mle.
Lemma mle_prim_is t p : mle (prim_is R t p) (prim_is R' t p).
Proof. unfold prim_is. mle_auto. Qed.
#[local] Hint Resolve mle_prim_is : mle.
Lemma mle_prim_tryEval p : mle (prim_tryEval R p) (prim_tryEval R' p).
Proof.
  unfold prim_tryEval. mle_auto. apply mle_catch; [mle_auto|done|].
  intros f. destruct (is_AssertionError f); [apply mle_refl|done].
Qed.
#[local] Hint Resolve mle_prim_tryEval : mle.
Lemma mle_prim_seq p q : mle (prim_seq R p q) (prim_seq R' p q).
Proof. unfold prim_seq. mle_auto. Qed.
#[local] Hint Resolve mle_prim_seq : mle.
Lemma mle_prim_deepSeq p q : mle (prim_deepSeq R p q) (prim_deepSeq R' p q).
Proof. unfold prim_deepSeq. mle_auto. Qed.
#[local] Hint Resolve mle_prim_deepSeq : mle.
Lemma mle_prim_getAttr p q : mle (prim_getAttr R p q) (prim_getAttr R' p q).
Proof. unfold prim_getAttr. mle_auto. Qed.
#[local] Hint Resolve mle_prim_getAttr : mle.
Lemma mle_prim_hasAttr p q : mle (prim_hasAttr R p q) (prim_hasAttr R' p q).
Proof. unfold prim_hasAttr. mle_auto. Qed.
#[local] Hint Resolve mle_prim_hasAttr : mle.
Lemma mle_prim_removeAttrs p q : mle (prim_removeAttrs R p q) (prim_removeAttrs R' p q).
Proof. unfold prim_removeAttrs. mle_auto. Qed.
#[local] Hint Resolve mle_prim_removeAttrs : mle.
Lemma mle_listToAttrs_loop l s b : mle (listToAttrs_loop R l s b) (listToAttrs_loop R' l s b).
Proof. revert s b. induction l as [|p l IH]; intros s b; cbn [listToAttrs_loop]; mle_auto. Qed.
#[local] Hint Resolve mle_listToAttrs_loop : mle.
Lemma mle_prim_listToAttrs p : mle (prim_listToAttrs R p) (prim_listToAttrs R' p).
Proof. unfold prim_listToAttrs. mle_auto. Qed.
#[local] Hint Resolve mle_prim_listToAttrs : mle.
Lemma mle_prim_intersectAttrs p q : mle (prim_intersectAttrs R p q) (prim_intersectAttrs R' p q).
Proof. unfold prim_intersectAttrs. mle_auto. Qed.
#[local] Hint Resolve mle_prim_intersectAttrs : mle.
Lemma mle_catAttrs_loop n l : mle (catAttrs_loop R n l) (catAttrs_loop R' n l).
Proof. induction l as [|p l IH]; cbn [catAttrs_loop]; mle_auto. Qed.
#[local] Hint Resolve mle_catAttrs_loop : mle.
Lemma mle_prim_catAttrs p q : mle (prim_catAttrs R p q) (prim_catAttrs R' p q).
Proof. unfold prim_catAttrs. mle_auto. Qed.
#[local] Hint Resolve mle_prim_catAttrs : mle.
Lemma mle_prim_mapAttrs p q : mle (prim_mapAttrs R p q) (prim_mapAttrs R' p q).
Proof. unfold prim_mapAttrs. mle_auto. Qed.
#[local] Hint Resolve mle_prim_mapAttrs : mle.
Lemma mle_prim_elemAt p q : mle (prim_elemAt R p q) (prim_elemAt R' p q).
Proof. unfold prim_elemAt. mle_auto. Qed.
#[local] Hint Resolve mle_prim_elemAt : mle.
Lemma mle_prim_map p q : mle (prim_map R p q) (prim_map R' p q).
Proof. unfold prim_map. mle_auto. Qed.
#[local] Hint Resolve mle_prim_map : mle.
Lemma mle_call_pred f args : mle (call_pred R f args) (call_pred R' f args).
Proof. unfold call_pred. mle_auto. Qed.
#[local] Hint Resolve mle_call_pred : mle.
Lemma mle_filter_loop f l : mle (filter_loop R f l) (filter_loop R' f l).
Proof. induction l as [|p l IH]; cbn [filter_loop]; mle_auto. Qed.
#[local] Hint Resolve mle_filter_loop : mle.
Lemma mle_prim_filter p q : mle (prim_filter R p q) (prim_filter R' p q).
Proof. unfold prim_filter. mle_auto. Qed.
#[local] Hint Resolve mle_prim_filter : mle.
Lemma mle_elem_loop x l : mle (elem_loop R x l) (elem_loop R' x l).
Proof. induction l as [|p l IH]; cbn [elem_loop]; mle_auto. Qed.
#[local] Hint Resolve mle_elem_loop : mle.
Lemma mle_prim_elem p q : mle (prim_elem R p q) (prim_elem R' p q).
Proof. unfold prim_elem. mle_auto. Qed.
#[local] Hint Resolve mle_prim_elem : mle.
Lemma mle_foldl_loop op c l : mle (foldl_loop R op c l) (foldl_loop R' op c l).
Proof. revert c. induction l as [|p l IH]; intros c; cbn [foldl_loop]; mle_auto. Qed.
#[local] Hint Resolve mle_foldl_loop : mle.
Lemma mle_prim_foldlStrict p q r : mle (prim_foldlStrict R p q r) (prim_foldlStrict R' p q r).
Proof. unfold prim_foldlStrict. mle_auto. Qed.
#[local] Hint Resolve mle_prim_foldlStrict : mle.
Lemma mle_anyOrAll_loop b f l : mle (anyOrAll_loop R b f l) (anyOrAll_loop R' b f l).
Proof. induction l as [|p l IH]; cbn [anyOrAll_loop]; mle_auto. Qed.
#[local] Hint Resolve mle_anyOrAll_loop : mle.
Lemma mle_anyOrAll b p q : mle (anyOrAll R b p q) (anyOrAll R' b p q).
Proof. unfold anyOrAll. mle_auto. Qed.
#[local] Hint Resolve mle_anyOrAll : mle.
Lemma mle_prim_genList p q : mle (prim_genList R p q) (prim_genList R' p q).
Proof. unfold prim_genList. mle_auto. Qed.
#[local] Hint Resolve mle_prim_genList : mle.
Lemma mle_arith f g p q : mle (arith R f g p q) (arith R' f g p q).
Proof. unfold arith. mle_auto. Qed.
#[local] Hint Resolve mle_arith : mle.
Lemma mle_prim_div p q : mle (prim_div R p q) (prim_div R' p q).
Proof. unfold prim_div. mle_auto. Qed.
#[local] Hint Resolve mle_prim_div : mle.
Lemma mle_bitop f p q : mle (bitop R f p q) (bitop R' f p q).
Proof. unfold bitop. mle_auto. Qed.
#[local] Hint Resolve mle_bitop : mle.
Lemma mle_compare_list l1 l2 : mle (compare_list R l1 l2) (compare_list R' l1 l2).
Proof. revert l2. induction l1 as [|p1 l1 IH]; intros [|p2 l2]; simpl; mle_auto. Qed.
#[local] Hint Resolve mle_compare_list : mle.
Lemma mle_compareValues p q : mle (compareValues R p q) (compareValues R' p q).
Proof. unfold compareValues. mle_auto. Qed.
#[local] Hint Resolve mle_compareValues : mle.
Lemma mle_prim_lessThan p q : mle (prim_lessThan R p q) (prim_lessThan R' p q).
Proof. unfold prim_lessThan. mle_auto. Qed.
#[local] Hint Resolve mle_prim_lessThan : mle.
Lemma mle_prim_substring p q r : mle (prim_substring R p q r) (prim_substring R' p q r).
Proof. unfold prim_substring. mle_auto. Qed.
#[local] Hint Resolve mle_prim_substring : mle.
Lemma mle_insert_back lt lt' x r : (forall a b, mle (lt a b) (lt' a b)) ->
  mle (insert_back lt x r) (insert_back lt' x r).
Proof. intros H. induction r as [|y r IH]; simpl; [apply mle_refl|]. apply mle_bind; [done|]. intros b. mle_auto. Qed.
Lemma mle_sort_loop lt lt' r l : (forall a b, mle (lt a b) (lt' a b)) -> mle (sort_loop lt r l) (sort_loop lt' r l).
Proof.
  intros H. revert r. induction l as [|x l IH]; intros r; simpl; [apply mle_refl|].
  apply mle_bind; [by apply mle_insert_back|done].
Qed.
Lemma mle_sort_comparator f a b : mle (sort_comparator R f a b) (sort_comparator R' f a b).
Proof. unfold sort_comparator. mle_auto. Qed.
#[local] Hint Resolve mle_sort_comparator : mle.
Lemma mle_std_sort f l : mle (std_stable_sort (sort_comparator R f) l) (std_stable_sort (sort_comparator R' f) l).
Proof. apply mle_sort_loop. intros. mle_auto. Qed.
#[local] Hint Resolve mle_std_sort : mle.
Lemma mle_prim_sort f l : mle (prim_sort R f l) (prim_sort R' f l).
Proof. unfold prim_sort. mle_auto. Qed.
#[local] Hint Resolve mle_prim_sort : mle.
Lemma mle_partition_loop f l a b : mle (partition_loop R f l a b) (partition_loop R' f l a b).
Proof. revert a b. induction l as [|x l IH]; intros a b; simpl; mle_auto. Qed.
#[local] Hint Resolve mle_partition_loop : mle.
Lemma mle_prim_partition f l : mle (prim_partition R f l) (prim_partition R' f l).
Proof. unfold prim_partition. mle_auto. Qed.
#[local] Hint Resolve mle_prim_partition : mle.
Lemma mle_groupBy_loop f l m : mle (groupBy_loop R f l m) (groupBy_loop R' f l m).
Proof. revert m. induction l as [|x l IH]; intros m; simpl; mle_auto. Qed.
#[local] Hint Resolve mle_groupBy_loop : mle.
Lemma mle_prim_groupBy f l : mle (prim_groupBy R f l) (prim_groupBy R' f l).
Proof. unfold prim_groupBy. mle_auto. Qed.
#[local] Hint Resolve mle_prim_groupBy : mle.
Lemma mle_prim_concatMap f l : mle (prim_concatMap R f l) (prim_concatMap R' f l).
Proof. unfold prim_concatMap. mle_auto. Qed.
#[local] Hint Resolve mle_prim_concatMap : mle.
Lemma mle_keys_insert k l : mle (keys_insert R k l) (keys_insert R' k l).
Proof. induction l as [|x l IH]; simpl; mle_auto. Qed.
#[local] Hint Resolve mle_keys_insert : mle.
Lemma mle_closure_loop op l d s : mle (closure_loop R op l d s) (closure_loop R' op l d s).
Proof. unfold closure_loop. mle_auto. Qed.
#[local] Hint Resolve mle_closure_loop : mle.
Lemma mle_prim_genericClosure p : mle (prim_genericClosure R p) (prim_genericClosure R' p).
Proof. unfold prim_genericClosure. mle_auto. Qed.
#[local] Hint Resolve mle_prim_genericClosure : mle.
Lemma mle_prim_ceil p : mle (prim_ceil R p) (prim_ceil R' p).
Proof. unfold prim_ceil. mle_auto. Qed.
#[local] Hint Resolve mle_prim_ceil : mle.
Lemma mle_prim_floor p : mle (prim_floor R p) (prim_floor R' p).
Proof. unfold prim_floor. mle_auto. Qed.
#[local] Hint Resolve mle_prim_floor : mle.
Lemma mle_prim_baseNameOf p : mle (prim_baseNameOf R p) (prim_baseNameOf R' p).
Proof. unfold prim_baseNameOf. mle_auto. Qed.
#[local] Hint Resolve mle_prim_baseNameOf : mle.
Lemma mle_prim_dirOf p : mle (prim_dirOf R p) (prim_dirOf R' p).
Proof. unfold prim_dirOf. mle_auto. Qed.
#[local] Hint Resolve mle_prim_dirOf : mle.
Lemma mle_prim_parseDrvName p : mle (prim_parseDrvName R p) (prim_parseDrvName R' p).
Proof. unfold prim_parseDrvName. mle_auto. Qed.
#[local] Hint Resolve mle_prim_parseDrvName : mle.
Lemma mle_prim_splitVersion p : mle (prim_splitVersion R p) (prim_splitVersion R' p).
Proof. unfold prim_splitVersion. mle_auto. Qed.
#[local] Hint Resolve mle_prim_splitVersion : mle.
Lemma mle_concatSep_loop sep f l s c : mle (concatSep_loop R sep f l s c) (concatSep_loop R' sep f l s c).
Proof. revert f s c. induction l as [|x l IH]; intros f s c; simpl; mle_auto. Qed.
#[local] Hint Resolve mle_concatSep_loop : mle.
Lemma mle_prim_concatStringsSep p q : mle (prim_concatStringsSep R p q) (prim_concatStringsSep R' p q).
Proof. unfold prim_concatStringsSep. mle_auto. Qed.
#[local] Hint Resolve mle_prim_concatStringsSep : mle.
Lemma mle_replacement to j c d : mle (replacement R to j c d) (replacement R' to j c d).
Proof. unfold replacement. mle_auto. Qed.
#[local] Hint Resolve mle_replacement : mle.
Lemma mle_replace_loop n from to s p c d t : mle (replace_loop R n from to s p c d t) (replace_loop R' n from to s p c d t).
Proof. revert p c d t. induction n as [|n IH]; intros p c d t; cbn [replace_loop]; mle_auto. Qed.
#[local] Hint Resolve mle_replace_loop : mle.
Lemma mle_prim_replaceStrings p q r : mle (prim_replaceStrings R p q r) (prim_replaceStrings R' p q r).
Proof. unfold prim_replaceStrings. mle_auto. Qed.
#[local] Hint Resolve mle_prim_replaceStrings : mle.

Lemma mle_call_primop p args : mle (call_primop R p args) (call_primop R' p args).
Proof.
  destruct args as [|a1 [|a2 [|a3 [|a4 args]]]]; destruct p; cbn [call_primop]; try apply mle_refl;
    unfold prim_add, prim_sub, prim_mul; auto with mle.
Qed.
#[local] Hint Resolve mle_call_primop : mle.

Lemma unfold_rec_le : Rec_le (unfold_rec maxCallDepth storeDir fetchToStore R) (unfold_rec maxCallDepth storeDir fetchToStore R').
Proof. split; intros; simpl; auto with mle. Qed.
End monotone.

Section fuel.
Context (maxCallDepth : nat) (storeDir : bytes) (fetchToStore : bytes -> result StorePath).

Lemma Rec_le_refl R : Rec_le R R.
Proof. split; intros; apply mle_refl. Qed.
Lemma no_fuel_le R : Rec_le no_fuel R.
Proof. split; intros; apply mle_fuel. Qed.
Lemma evaluator_le n m : n <= m ->
  Rec_le (evaluator maxCallDepth storeDir fetchToStore n) (evaluator maxCallDepth storeDir fetchToStore m).
Proof.
  revert m. induction n as [|n IH]; intros m Hm; [apply no_fuel_le|].
  destruct m as [|m]; [lia|]. apply unfold_rec_le, IH. lia.
Qed.
End fuel.

(** ** Whole evaluations *)

(** An evaluation that ends, with a value, an exception or a failed
    assertion, has the same outcome and leaves the same state with any larger
    amount of fuel. *)
Theorem eval_expr_more_fuel maxCallDepth storeDir fetchToStore n m env e st :
  n <= m ->
  (eval_expr maxCallDepth storeDir fetchToStore n env e st).1 <> Err OutOfFuel ->
  eval_expr maxCallDepth storeDir fetchToStore m env e st = eval_expr maxCallDepth storeDir fetchToStore n env e st.
Proof.
  intros Hnm Hr.
  assert (H : mle (eval_expr maxCallDepth storeDir fetchToStore n env e) (eval_expr maxCallDepth storeDir fetchToStore m env e)).
  { unfold eval_expr. apply mle_bind; [apply mle_refl|]. intros e'. by apply le_eval, evaluator_le. }
  by destruct (H st).
Qed.

(** [let a = a; in a] ends with an exception. *)
Lemma eval_expr_more_fuel_witness :
  let e := ExprLet (mkAttrs true [(52%Z, mkAttrDef Plain (ExprVar 52%Z Unresolved) 0)] None []) (ExprVar 52%Z Unresolved) in
  (eval_expr 100 (L "/nix/store") (fun _ => throw Error) 10 [] e (initial_state [] [L "a"])).1 = throw InfiniteRecursionError /\
  eval_expr 100 (L "/nix/store") (fun _ => throw Error) 1000 [] e (initial_state [] [L "a"]) =
  eval_expr 100 (L "/nix/store") (fun _ => throw Error) 10 [] e (initial_state [] [L "a"]).
Proof.
  cbv zeta. split; [vm_compute; reflexivity|].
  apply (eval_expr_more_fuel 100 (L "/nix/store") (fun _ => throw Error) 10 1000); [lia|vm_compute; discriminate].
Defined.
