(* ===== verification/EvalKeep.v ===== *)
(** * Computed values stay

    [kept m]: whatever [m] does, a value that has been computed is not
    overwritten, and the black holes are the same before and after. With it:
    the two implementations of equality agree. *)

From Stdlib Require Import SpecFloat Sorting.Sorted.
From stdpp Require Import gmap.
From S2P Require Import Prelude.
From S2P Require Import Containers.
From S2P Require Import CanonPath.
From S2P Require Import StorePath.
From S2P Require Import Expr.
From S2P Require Import Scoping.
From S2P Require Import Values.
From S2P Require Import Eval.
From S2P Require Import AttrSets.
From S2P Require Import Primops.
From S2P Require Import ListPrimops.
From S2P Require Import StringPrimops.
From S2P Require Import Evaluator.
From S2P Require Import EvalInv.
From S2P Require Import EvalResults.
From S2P Require Import EvalSafe.
From S2P Require Import PrimopsSafe.
From S2P Require Import EvaluatorSafe.
From S2P Require Import EvalFuel.

Definition fresh_values (st : EvalState) : Prop := forall p, (es_nextValue st <= p)%N -> es_values st !! p = None.

Record keeps (st st' : EvalState) : Prop := {
  keeps_fresh : fresh_values st';
  keeps_next : (es_nextValue st <= es_nextValue st')%N;
  keeps_values : forall p v, es_values st !! p = Some v -> whnf v -> es_values st' !! p = Some v;
}.

(** The values under evaluation. *)
Definition blackhole (st : EvalState) (p : addr) : Prop := es_values st !! p = Some VBlackhole.

Record evolves (st st' : EvalState) : Prop := {
  ev_keeps : keeps st st';
  ev_holes : forall p, blackhole st' p <-> blackhole st p;
}.

Definition kept {A} (m : M A) : Prop := forall st, fresh_values st -> evolves st (m st).2.

Create HintDb kept.

Lemma keeps_refl st : fresh_values st -> keeps st st.
Proof. intros H. split; [done|lia|done]. Qed.
Lemma keeps_trans st1 st2 st3 : keeps st1 st2 -> keeps st2 st3 -> keeps st1 st3.
Proof. intros [F1 N1 V1] [F2 N2 V2]. split; [done|lia|]. eauto. Qed.
Lemma ev_refl st : fresh_values st -> evolves st st.
Proof. intros H. split; [by apply keeps_refl|done]. Qed.
Lemma ev_trans st1 st2 st3 : evolves st1 st2 -> evolves st2 st3 -> evolves st1 st3.
Proof. intros [K1 H1] [K2 H2]. split; [by eapply keeps_trans|]. intros p. by rewrite H2, H1. Qed.
Lemma evolves_fresh st st' : evolves st st' -> fresh_values st'.
Proof. intros [[? _ _] _]. done. Qed.
#[local] Hint Resolve evolves_fresh : core.

(** A computation that only reads the values. *)
Lemma evolves_same st st' :
  fresh_values st -> es_values st' = es_values st -> es_nextValue st' = es_nextValue st -> evolves st st'.
Proof.
  intros Hst Hv Hn. split; [split; [|lia|by rewrite Hv]|intros p; unfold blackhole; by rewrite Hv].
  intros p Hp. rewrite Hv. apply Hst. lia.
Qed.
Lemma kept_same {A} (m : M A) :
  (forall st, es_values (m st).2 = es_values st /\ es_nextValue (m st).2 = es_nextValue st) -> kept m.
Proof. intros Hm st Hst. destruct (Hm st) as [Hv Hn]. by apply evolves_same. Qed.
Lemma kept_bind {A B} (m : M A) (k : A -> M B) : kept m -> (forall a, yields m a -> kept (k a)) -> kept (ebind m k).
Proof.
  intros Hm Hk st Hst. unfold ebind. specialize (Hm st Hst). destruct (m st) as [[a|f] st'] eqn:E; simpl in *; [|done].
  eapply ev_trans; [done|]. apply Hk; [by exists st, st'|eauto].
Qed.
Lemma kept_catch {A} (m : M A) h : kept m -> (forall f n, h f = Some n -> kept n) -> kept (mcatch m h).
Proof.
  intros Hm Hh st Hst. unfold mcatch. specialize (Hm st Hst). destruct (m st) as [[a|f] st']; simpl in *; [done|].
  destruct (h f) as [n|] eqn:Hn; [|done]. eapply ev_trans; [done|]. eapply Hh; [done|eauto].
Qed.
Lemma kept_callDepth {A} n (m : M A) : kept m -> kept (with_callDepth n m).
Proof.
  intros Hm st Hst. unfold with_callDepth. destruct (_ <? _); [by apply ev_refl|].
  specialize (Hm (set_callDepth (S (es_callDepth st)) st) Hst). destruct (m _) as [r st']. simpl in *.
  destruct Hm as [[F N V] H]. split; [by split|done].
Qed.
Lemma kept_mmap {A B} (f : A -> M B) l : (forall a, kept (f a)) -> kept (mmap f l).
Proof.
  intros Hf. induction l as [|x l IH]; simpl; [by apply kept_same|].
  apply kept_bind; [done|]. intros y _. apply kept_bind; [done|]. intros. by apply kept_same.
Qed.
Lemma kept_ret {A} (a : A) : kept (ret a).
Proof. by apply kept_same. Qed.
Lemma kept_fail {A} f : kept (fail (A := A) f).
Proof. by apply kept_same. Qed.
Lemma kept_error {A} e : kept (error (A := A) e).
Proof. by apply kept_same. Qed.
Lemma kept_lift {A} (r : result A) : kept (lift r).
Proof. by apply kept_same. Qed.
Lemma kept_read p : kept (read p).
Proof. by apply kept_same. Qed.
Lemma kept_read_env e : kept (read_env e).
Proof. by apply kept_same. Qed.
Lemma kept_allocEnv n up : kept (allocEnv n up).
Proof. by apply kept_same. Qed.
Lemma kept_symbols_get s : kept (symbols_get s).
Proof. by apply kept_same. Qed.
Lemma kept_symbols_create s : kept (symbols_create s).
Proof. apply kept_same. intros st. unfold symbols_create. by destruct (index_of _ _ _). Qed.
Lemma kept_allocValue v : v <> VBlackhole -> kept (allocValue v).
Proof.
  intros Hv st Hst. split; [split|]; simpl; [|lia|..].
  - intros p Hp. simpl in *. rewrite lookup_insert_ne by lia. apply Hst. lia.
  - intros p u Hp Hu. rewrite lookup_insert_ne; [done|]. intros <-. by rewrite Hst in Hp by lia.
  - intros p. unfold blackhole. simpl. destruct (decide (es_nextValue st = p)) as [<-|].
    + rewrite lookup_insert_eq, Hst by lia. naive_solver.
    + by rewrite lookup_insert_ne.
Qed.
Lemma whnf_not_hole v : whnf v -> v <> VBlackhole.
Proof. by intros H ->. Qed.
#[export] Hint Resolve kept_ret kept_fail kept_error kept_lift kept_read kept_read_env kept_allocEnv kept_symbols_get
  kept_symbols_create : kept.
#[export] Hint Extern 1 (kept (allocValue _)) => apply kept_allocValue; discriminate : kept.

Ltac kept_step :=
  lazymatch goal with
  | |- kept (ebind _ _) => apply kept_bind; [|intros ? ?]
  | |- kept (mmap _ _) => apply kept_mmap; intros ?
  | |- kept (with_callDepth _ _) => apply kept_callDepth
  | |- kept (match ?x with _ => _ end) => destruct x
  | |- kept _ => solve [auto 2 with kept nocore]
  end.
Ltac kept_auto := repeat kept_step.

Lemma kept_env_slot e d : kept (env_slot e d).
Proof. unfold env_slot. kept_auto. Qed.
Lemma kept_env_set e d p : kept (env_set e d p).
Proof. unfold env_set. apply kept_bind; [kept_auto|]. intros env _. destruct (_ <? _); [by apply kept_same|kept_auto]. Qed.
Lemma kept_go_up e : kept (go_up e).
Proof. unfold go_up. kept_auto. Qed.
Lemma kept_go_up_n n e : kept (go_up_n n e).
Proof. revert e. induction n as [|n IH]; intros e; simpl; [kept_auto|]. apply kept_bind; [apply kept_go_up|done]. Qed.
Lemma kept_buildBindings n : kept (buildBindings n).
Proof. unfold buildBindings. kept_auto. Qed.
Lemma kept_push_back n p b : kept (push_back n p b).
Proof. unfold push_back. kept_auto. Qed.
#[export] Hint Resolve kept_env_slot kept_env_set kept_go_up kept_go_up_n kept_buildBindings kept_push_back : kept.
Lemma kept_push_all l b : kept (push_all l b).
Proof. revert b. induction l as [|[n p] l IH]; intros b; simpl; kept_auto. Qed.
Lemma kept_mkThunk env e : kept (mkThunk env e).
Proof. unfold mkThunk. kept_auto. Qed.
Lemma kept_def_env k e2 e ie : kept (def_env k e2 e ie).
Proof. unfold def_env. kept_auto. Qed.
Lemma kept_builder_set d n p b : kept (builder_set d n p b).
Proof. unfold builder_set. kept_auto. Qed.
#[export] Hint Resolve kept_push_all kept_mkThunk kept_def_env kept_builder_set : kept.
Lemma kept_override_attrs e attrs l b : kept (override_attrs e attrs l b).
Proof. revert b. induction l as [|[n p] l IH]; intros b; simpl; kept_auto. Qed.
Lemma kept_update_loop n i j b : kept (update_loop n i j b).
Proof. revert i j b. induction n as [|n IH]; intros [|[ni pi] i] [|[nj pj] j] b; cbn [update_loop]; kept_auto. Qed.
Lemma kept_makeAppChain v args : v <> VBlackhole -> kept (makeAppChain v args).
Proof.
  revert v. induction args as [|a args IH]; intros v Hv; simpl; [kept_auto|].
  apply kept_bind; [by apply kept_allocValue|]. intros p _. by apply IH.
Qed.
Lemma kept_app_chain n v args : kept (app_chain n v args).
Proof. revert v args. induction n as [|n IH]; intros v args; destruct v; simpl; kept_auto. Qed.
Lemma kept_assert_that b : kept (assert_that b).
Proof. unfold assert_that. kept_auto. Qed.
Lemma kept_copyPathToStore fetchToStore c path : kept (copyPathToStore fetchToStore c path).
Proof.
  unfold copyPathToStore. destruct (bool_decide _); [kept_auto|]. apply kept_bind; [|intros; kept_auto].
  apply kept_same. intros st. destruct (smap_lookup _ _); [done|]. by destruct (fetchToStore path).
Qed.
Lemma kept_names_of b : kept (names_of b).
Proof. unfold names_of. kept_auto. Qed.
Lemma kept_getAttr n b : kept (getAttr n b).
Proof. unfold getAttr. kept_auto. Qed.
Lemma kept_mapAttrs_loop f l b : kept (mapAttrs_loop f l b).
Proof. revert b. induction l as [|[n p] l IH]; intros b; cbn [mapAttrs_loop]; kept_auto. Qed.
Lemma kept_type_name v : kept (type_name v).
Proof. unfold type_name. kept_auto. Qed.
#[export] Hint Extern 1 (kept (makeAppChain _ _)) => apply kept_makeAppChain; discriminate : kept.
#[export] Hint Resolve kept_override_attrs kept_update_loop kept_app_chain kept_assert_that
  kept_copyPathToStore kept_names_of kept_getAttr kept_mapAttrs_loop kept_type_name : kept.

Record Rec_kept (R : Rec) : Prop := {
  rk_eval env e : kept (r_eval R env e);
  rk_force p : kept (r_forceValue R p);
  rk_call f args : kept (r_callFunction R f args);
  rk_primop p args : kept (r_primop R p args);
  rk_eq p1 p2 : kept (r_eqValues R p1 p2);
  rk_assertEq p1 p2 : kept (r_assertEqValues R p1 p2);
  rk_coerce p c b1 b2 b3 : kept (r_coerceToString R p c b1 b2 b3);
  rk_compare p1 p2 : kept (r_compareValues R p1 p2);
  rk_deep s p : kept (r_forceValueDeep R s p);
  rk_closure op l d s : kept (r_closure R op l d s);
}.

Section kept.
Context (R : Rec) (HR : Rec_kept R) (HC : Rec_clean R).
Context (maxCallDepth : nat) (storeDir : bytes) (fetchToStore : bytes -> result StorePath).

#[local] Hint Extern 1 (kept (r_eval _ _ _)) => apply (rk_eval _ HR) : kept.
#[local] Hint Extern 1 (kept (r_forceValue _ _)) => apply (rk_force _ HR) : kept.
#[local] Hint Extern 1 (kept (r_callFunction _ _ _)) => apply (rk_call _ HR) : kept.
#[local] Hint Extern 1 (kept (r_primop _ _ _)) => apply (rk_primop _ HR) : kept.
#[local] Hint Extern 1 (kept (r_eqValues _ _ _)) => apply (rk_eq _ HR) : kept.
#[local] Hint Extern 1 (kept (r_assertEqValues _ _ _)) => apply (rk_assertEq _ HR) : kept.
#[local] Hint Extern 1 (kept (r_coerceToString _ _ _ _ _ _)) => apply (rk_coerce _ HR) : kept.
#[local] Hint Extern 1 (kept (r_compareValues _ _ _)) => apply (rk_compare _ HR) : kept.
#[local] Hint Extern 1 (kept (r_forceValueDeep _ _ _)) => apply (rk_deep _ HR) : kept.
#[local] Hint Extern 1 (kept (r_closure _ _ _ _ _)) => apply (rk_closure _ HR) : kept.

(** A temporary that holds a result. *)
#[local] Hint Extern 1 (kept (allocValue ?v)) =>
  match goal with
  | H : yields (r_eval _ _ _) v |- _ => apply kept_allocValue, whnf_not_hole, (rc_eval _ HC _ _ _ H)
  | H : yields (r_callFunction _ _ _) v |- _ => apply kept_allocValue, whnf_not_hole, (rc_call _ HC _ _ _ H)
  end : kept.

(** ** Forcing and variables *)

(** Writing to a value that has not been computed. *)
Lemma write_keeps st st' p v v' : fresh_values st -> keeps st st' -> es_values st !! p = Some v -> ~ whnf v ->
  keeps st (set_values (<[p := v']> (es_values st')) st').
Proof.
  intros Hst [Hf Hn Hv] Hp Hw. split; simpl; [|done|].
  - intros q Hq. simpl in *. rewrite lookup_insert_ne; [by apply Hf|]. intros ->.
    rewrite Hst in Hp; [done|]. lia.
  - intros q u Hq Hu. rewrite lookup_insert_ne; [by apply Hv|]. intros <-. rewrite Hp in Hq. injection Hq as <-. done.
Qed.

(** What is written at the end of an evaluation is not a black hole. *)
Lemma write_evolves st st1 st2 p v v' : fresh_values st -> es_values st !! p = Some v -> ~ whnf v -> v <> VBlackhole ->
  v' <> VBlackhole -> keeps st st1 -> (forall q, q <> p -> blackhole st1 q <-> blackhole st q) -> evolves st1 st2 ->
  evolves st (set_values (<[p := v']> (es_values st2)) st2).
Proof.
  intros Hst Hp Hw Hv Hv' Hk Hh [Hk2 Hh2]. split; [eapply write_keeps; [done|by eapply keeps_trans|done|done]|].
  intros q. unfold blackhole in *. simpl. destruct (decide (q = p)) as [->|Hq].
  - rewrite lookup_insert_eq, Hp. naive_solver.
  - rewrite lookup_insert_ne, Hh2 by done. by apply Hh.
Qed.

Lemma kept_forceValue p : kept (forceValue R p).
Proof.
  intros st Hst. unfold forceValue, ebind, read. destruct (es_values st !! p) as [v|] eqn:Hp; [|by apply ev_refl].
  destruct v as [| | | | | | | |env e| |l r| | |] eqn:Ev; try by apply ev_refl.
  - simpl. set (st1 := set_values _ st).
    assert (Hw : ~ whnf (VThunk env e)) by (by intros []).
    assert (H1 : keeps st st1) by (eapply write_keeps; [done|by apply keeps_refl|done|done]).
    assert (Hh : forall q, q <> p -> blackhole st1 q <-> blackhole st q)
      by (intros q Hq; unfold blackhole, st1; simpl; by rewrite lookup_insert_ne).
    unfold on_failure. assert (H2 := rk_eval _ HR env e st1 (keeps_fresh _ _ H1)).
    assert (Hr := fun v st2 H => rc_eval _ HC env e v (ex_intro _ st1 (ex_intro _ st2 H))).
    destruct (r_eval R env e st1) as [[v'|f] st2] eqn:E; simpl in *; eapply write_evolves; try done.
    by eapply whnf_not_hole, Hr.
  - assert (Hw : ~ whnf (VApp l r)) by (by intros []).
    assert (H2 := rk_call _ HR l [r] st Hst).
    assert (Hr := fun v st2 H => rc_call _ HC l [r] v (ex_intro _ st (ex_intro _ st2 H))).
    destruct (r_callFunction R l [r] st) as [[v'|f] st2] eqn:E; simpl in *; [|done].
    assert (v' <> VBlackhole) by (by eapply whnf_not_hole, Hr).
    eapply (write_evolves st st); try done; by apply keeps_refl.
Qed.
#[local] Hint Resolve kept_forceValue : kept.
Lemma kept_forceAttrs p : kept (forceAttrs R p).
Proof. unfold forceAttrs. kept_auto. Qed.
#[local] Hint Resolve kept_forceAttrs : kept.
Lemma kept_forceList p : kept (forceList R p).
Proof. unfold forceList. kept_auto. Qed.
#[local] Hint Resolve kept_forceList : kept.
Lemma kept_forceInt p : kept (forceInt R p).
Proof. unfold forceInt. kept_auto. Qed.
#[local] Hint Resolve kept_forceInt : kept.
Lemma kept_forceFloat p : kept (forceFloat R p).
Proof. unfold forceFloat. kept_auto. Qed.
#[local] Hint Resolve kept_forceFloat : kept.
Lemma kept_forceBool p : kept (forceBool R p).
Proof. unfold forceBool. kept_auto. Qed.
#[local] Hint Resolve kept_forceBool : kept.
Lemma kept_forceFunction p : kept (forceFunction R p).
Proof. unfold forceFunction. kept_auto. Qed.
#[local] Hint Resolve kept_forceFunction : kept.
Lemma kept_forceString p : kept (forceString R p).
Proof. unfold forceString. kept_auto. Qed.
#[local] Hint Resolve kept_forceString : kept.
Lemma kept_forceStringNoCtx p : kept (forceStringNoCtx R p).
Proof. unfold forceStringNoCtx. kept_auto. Qed.
#[local] Hint Resolve kept_forceStringNoCtx : kept.
Lemma kept_eval_tmp env e : kept (eval_tmp R env e).
Proof. unfold eval_tmp. kept_auto. Qed.
#[local] Hint Resolve kept_eval_tmp : kept.
Lemma kept_evalBool env e : kept (evalBool R env e).
Proof. unfold evalBool. kept_auto. Qed.
#[local] Hint Resolve kept_evalBool : kept.
Lemma kept_evalAttrs env e : kept (evalAttrs R env e).
Proof. unfold evalAttrs. kept_auto. Qed.
#[local] Hint Resolve kept_evalAttrs : kept.
Lemma kept_with_loop name : forall w env, kept (with_loop R name w env).
Proof. fix IH 1. intros [prev [w|]] env; cbn [with_loop]; kept_auto. Qed.
#[local] Hint Resolve kept_with_loop : kept.
Lemma kept_lookupVar env name ref b : kept (lookupVar R env name ref b).
Proof. unfold lookupVar. kept_auto. Qed.
#[local] Hint Resolve kept_lookupVar : kept.
Lemma kept_maybeThunk env e : kept (maybeThunk R env e).
Proof. unfold maybeThunk. kept_auto. Qed.
#[local] Hint Resolve kept_maybeThunk : kept.
Lemma kept_eval_var env name ref : kept (eval_var R env name ref).
Proof. unfold eval_var. kept_auto. Qed.
#[local] Hint Resolve kept_eval_var : kept.

(** ** Attribute sets *)

Lemma kept_getName env i : kept (getName R env i).
Proof. unfold getName. kept_auto. Qed.
#[local] Hint Resolve kept_getName : kept.
Lemma kept_fill_env env d l up : kept (fill_env R env d l up).
Proof. revert d. induction l as [|e l IH]; intros d; cbn [fill_env]; kept_auto. Qed.
#[local] Hint Resolve kept_fill_env : kept.
Lemma kept_buildInheritFromEnv l up : kept (buildInheritFromEnv R l up).
Proof. unfold buildInheritFromEnv. kept_auto. Qed.
#[local] Hint Resolve kept_buildInheritFromEnv : kept.
Lemma kept_inherit_env o up : kept (inherit_env R o up).
Proof. unfold inherit_env. kept_auto. Qed.
#[local] Hint Resolve kept_inherit_env : kept.
Lemma kept_rec_attrs o env2 env ie d l b : kept (rec_attrs R o env2 env ie d l b).
Proof. revert d b. induction l as [|[n x] l IH]; intros d b; cbn [rec_attrs]; kept_auto. Qed.
#[local] Hint Resolve kept_rec_attrs : kept.
Lemma kept_plain_attrs env ie l b : kept (plain_attrs R env ie l b).
Proof. revert b. induction l as [|[n x] l IH]; intros b; cbn [plain_attrs]; kept_auto. Qed.
#[local] Hint Resolve kept_plain_attrs : kept.
Lemma kept_apply_overrides env2 attrs o b : kept (apply_overrides R env2 attrs o b).
Proof. unfold apply_overrides. kept_auto. Qed.
#[local] Hint Resolve kept_apply_overrides : kept.
Lemma kept_dynamic_attrs env l b s : kept (dynamic_attrs R env l b s).
Proof. revert b s. induction l as [|[n x] l IH]; intros b s; cbn [dynamic_attrs]; kept_auto. Qed.
#[local] Hint Resolve kept_dynamic_attrs : kept.
Lemma kept_eval_attrs env a : kept (eval_attrs R env a).
Proof. unfold eval_attrs. kept_auto. Qed.
#[local] Hint Resolve kept_eval_attrs : kept.
Lemma kept_let_attrs env2 env ie d l : kept (let_attrs R env2 env ie d l).
Proof. revert d. induction l as [|[n x] l IH]; intros d; cbn [let_attrs]; kept_auto. Qed.
#[local] Hint Resolve kept_let_attrs : kept.
Lemma kept_eval_let env a body : kept (eval_let R env a body).
Proof. unfold eval_let. kept_auto. Qed.
#[local] Hint Resolve kept_eval_let : kept.
Lemma kept_select_path env def path cur : kept (select_path R env def path cur).
Proof. revert cur. induction path as [|i path IH]; intros cur; cbn [select_path]; kept_auto. Qed.
#[local] Hint Resolve kept_select_path : kept.
Lemma kept_eval_select env e path def : kept (eval_select R env e path def).
Proof. unfold eval_select. kept_auto. Qed.
#[local] Hint Resolve kept_eval_select : kept.
Lemma kept_has_path env path cur : kept (has_path R env path cur).
Proof. revert cur. induction path as [|i path IH]; intros cur; cbn [has_path]; kept_auto. Qed.
#[local] Hint Resolve kept_has_path : kept.
Lemma kept_eval_hasAttr env e path : kept (eval_hasAttr R env e path).
Proof. unfold eval_hasAttr. kept_auto. Qed.
#[local] Hint Resolve kept_eval_hasAttr : kept.
Lemma kept_eval_update env e1 e2 : kept (eval_update R env e1 e2).
Proof. unfold eval_update. kept_auto. Qed.
#[local] Hint Resolve kept_eval_update : kept.

(** ** Functions *)

Lemma kept_bind_args env2 attrs d fs n : kept (bind_args R env2 attrs d fs n).
Proof. revert d n. induction fs as [|f fs IH]; intros d n; cbn [bind_args]; kept_auto. Qed.
#[local] Hint Resolve kept_bind_args : kept.
Lemma kept_call_lambda env f arg : kept (call_lambda R env f arg).
Proof. unfold call_lambda. kept_auto. Qed.
#[local] Hint Resolve kept_call_lambda : kept.
Lemma kept_call_loop fuel v args : kept (call_loop R fuel v args).
Proof. revert v args. induction fuel as [|fuel IH]; intros v [|arg args]; cbn [call_loop]; kept_auto. Qed.
#[local] Hint Resolve kept_call_loop : kept.
Lemma kept_callFunction f args : kept (callFunction R maxCallDepth f args).
Proof. unfold callFunction. kept_auto. Qed.
#[local] Hint Resolve kept_callFunction : kept.
Lemma kept_eval_call env f args : kept (eval_call R env f args).
Proof. unfold eval_call. kept_auto. Qed.
#[local] Hint Resolve kept_eval_call : kept.

(** ** Equality, strings, lists *)

Lemma kept_isDerivation v : kept (isDerivation R v).
Proof. unfold isDerivation. kept_auto. Qed.
#[local] Hint Resolve kept_isDerivation : kept.
Lemma kept_both_outPath v1 v2 b1 b2 : kept (both_outPath R v1 v2 b1 b2).
Proof. unfold both_outPath. kept_auto. Qed.
#[local] Hint Resolve kept_both_outPath : kept.
Lemma kept_eq_list l1 l2 : kept (eq_list R l1 l2).
Proof. revert l2. induction l1 as [|p1 l1 IH]; intros [|p2 l2]; simpl; kept_auto. Qed.
#[local] Hint Resolve kept_eq_list : kept.
Lemma kept_eq_attrs l1 l2 : kept (eq_attrs R l1 l2).
Proof. revert l2. induction l1 as [|[n1 p1] l1 IH]; intros [|[n2 p2] l2]; simpl; kept_auto. Qed.
#[local] Hint Resolve kept_eq_attrs : kept.
Lemma kept_assertEq_list l1 l2 : kept (assertEq_list R l1 l2).
Proof. revert l2. induction l1 as [|p1 l1 IH]; intros [|p2 l2]; simpl; kept_auto. Qed.
#[local] Hint Resolve kept_assertEq_list : kept.
Lemma kept_assertEq_attrs b1 b2 l1 l2 : kept (assertEq_attrs R b1 b2 l1 l2).
Proof. revert l2. induction l1 as [|[n1 p1] l1 IH]; intros [|[n2 p2] l2]; simpl; kept_auto. Qed.
#[local] Hint Resolve kept_assertEq_attrs : kept.
Lemma kept_eqValues p1 p2 : kept (eqValues R p1 p2).
Proof. unfold eqValues. kept_auto. Qed.
#[local] Hint Resolve kept_eqValues : kept.
Lemma kept_assertEqValues p1 p2 : kept (assertEqValues R p1 p2).
Proof. unfold assertEqValues. kept_auto. Qed.
#[local] Hint Resolve kept_assertEqValues : kept.
Lemma kept_coerce_list l c b1 b2 b3 acc : kept (coerce_list R l c b1 b2 b3 acc).
Proof. revert c acc. induction l as [|p l IH]; intros c acc; cbn [coerce_list]; kept_auto. Qed.
#[local] Hint Resolve kept_coerce_list : kept.
Lemma kept_coerceToString p c b1 b2 b3 : kept (coerceToString R storeDir fetchToStore p c b1 b2 b3).
Proof. unfold coerceToString. kept_auto. Qed.
#[local] Hint Resolve kept_coerceToString : kept.
Lemma kept_concat_step env e c : kept (concat_step R env e c).
Proof. unfold concat_step. kept_auto. Qed.
#[local] Hint Resolve kept_concat_step : kept.
Lemma kept_concat_loop env es c : kept (concat_loop R env es c).
Proof. revert c. induction es as [|e es IH]; intros c; cbn [concat_loop]; kept_auto. Qed.
#[local] Hint Resolve kept_concat_loop : kept.
Lemma kept_eval_concatStrings env b es : kept (eval_concatStrings R env b es).
Proof. unfold eval_concatStrings. kept_auto. Qed.
#[local] Hint Resolve kept_eval_concatStrings : kept.
Lemma kept_concatLists l : kept (concatLists R l).
Proof. unfold concatLists. kept_auto. Qed.
#[local] Hint Resolve kept_concatLists : kept.
Lemma kept_deep_list l s : kept (deep_list R l s).
Proof. revert s. induction l as [|p l IH]; intros s; cbn [deep_list]; kept_auto. Qed.
#[local] Hint Resolve kept_deep_list : kept.
Lemma kept_forceValueDeep s p : kept (forceValueDeep R s p).
Proof. unfold forceValueDeep. kept_auto. Qed.
#[local] Hint Resolve kept_forceValueDeep : kept.
Lemma kept_eval_binop env op e1 e2 : kept (eval_binop R env op e1 e2).
Proof. unfold eval_binop. kept_auto. Qed.
#[local] Hint Resolve kept_eval_binop : kept.
Lemma kept_eval_assert env c b : kept (eval_assert R env c b).
Proof. unfold eval_assert. kept_auto. Qed.
#[local] Hint Resolve kept_eval_assert : kept.
Lemma kept_eval_with env a b : kept (eval_with R env a b).
Proof. unfold eval_with. kept_auto. Qed.
#[local] Hint Resolve kept_eval_with : kept.
Lemma kept_eval env e : kept (eval R env e).
Proof. unfold eval. kept_auto. Qed.
#[local] Hint Resolve kept_eval : kept.

(** ** Primitive operations *)

Lemma kept_prim_typeOf p : kept (prim_typeOf R p).
Proof. unfold prim_typeOf. kept_auto. Qed.
#[local] Hint Resolve kept_prim_typeOf : kept.
Lemma kept_prim_abort p : kept (prim_abort R p).
Proof. unfold prim_abort. kept_auto. Qed.
#[local] Hint Resolve kept_prim_abort : kept.
Lemma kept_prim_throw p : kept (prim_throw R p).
Proof. unfold prim_throw. kept_auto. Qed.
#[local] Hint Resolve kept_prim_throw : kept.
Lemma kept_prim_attrNames p : kept (prim_attrNames R p).
Proof. unfold prim_attrNames. kept_auto. Qed.
#[local] Hint Resolve kept_prim_attrNames : kept.
Lemma kept_prim_attrValues p : kept (prim_attrValues R p).
Proof. unfold prim_attrValues. kept_auto. Qed.
#[local] Hint Resolve kept_prim_attrValues : kept.
Lemma kept_prim_functionArgs p : kept (prim_functionArgs R p).
Proof. unfold prim_functionArgs. kept_auto. Qed.
#[local] Hint Resolve kept_prim_functionArgs : kept.
Lemma kept_prim_head p : kept (prim_head R p).
Proof. unfold prim_head. kept_auto. Qed.
#[local] Hint Resolve kept_prim_head : kept.
Lemma kept_prim_tail p : kept (prim_tail R p).
Proof. unfold prim_tail. kept_auto. Qed.
#[local] Hint Resolve kept_prim_tail : kept.
Lemma kept_prim_concatLists p : kept (prim_concatLists R p).
Proof. unfold prim_concatLists. kept_auto. Qed.
#[local] Hint Resolve kept_prim_concatLists : kept.
Lemma kept_prim_length p : kept (prim_length R p).
Proof. unfold prim_length. kept_auto. Qed.
#[local] Hint Resolve kept_prim_length : kept.
Lemma kept_prim_toString p : kept (prim_toString R p).
Proof. unfold prim_toString. kept_auto. Qed.
#[local] Hint Resolve kept_prim_toString : kept.
Lemma kept_prim_stringLength p : kept (prim_stringLength R p).
Proof. unfold prim_stringLength. kept_auto. Qed.
#[local] Hint Resolve kept_prim_stringLength : kept.
Lemma kept_prim_is t p : kept (prim_is R t p).
Proof. unfold prim_is. kept_auto. Qed.
#[local] Hint Resolve kept_prim_is : kept.
Lemma kept_prim_tryEval p : kept (prim_tryEval R p).
Proof.
  unfold prim_tryEval. apply kept_bind; [kept_auto|]. intros b _. apply kept_bind; [|intros; kept_auto].
  apply kept_catch; [kept_auto|]. intros f n. destruct (is_AssertionError f); [intros [= <-]; kept_auto|done].
Qed.
#[local] Hint Resolve kept_prim_tryEval : kept.
Lemma kept_prim_seq p q : kept (prim_seq R p q).
Proof. unfold prim_seq. kept_auto. Qed.
#[local] Hint Resolve kept_prim_seq : kept.
Lemma kept_prim_deepSeq p q : kept (prim_deepSeq R p q).
Proof. unfold prim_deepSeq. kept_auto. Qed.
#[local] Hint Resolve kept_prim_deepSeq : kept.
Lemma kept_prim_getAttr p q : kept (prim_getAttr R p q).
Proof. unfold prim_getAttr. kept_auto. Qed.
#[local] Hint Resolve kept_prim_getAttr : kept.
Lemma kept_prim_hasAttr p q : kept (prim_hasAttr R p q).
Proof. unfold prim_hasAttr. kept_auto. Qed.
#[local] Hint Resolve kept_prim_hasAttr : kept.
Lemma kept_prim_removeAttrs p q : kept (prim_removeAttrs R p q).
Proof. unfold prim_removeAttrs. kept_auto. Qed.
#[local] Hint Resolve kept_prim_removeAttrs : kept.
Lemma kept_listToAttrs_loop l s b : kept (listToAttrs_loop R l s b).
Proof. revert s b. induction l as [|p l IH]; intros s b; cbn [listToAttrs_loop]; kept_auto. Qed.
#[local] Hint Resolve kept_listToAttrs_loop : kept.
Lemma kept_prim_listToAttrs p : kept (prim_listToAttrs R p).
Proof. unfold prim_listToAttrs. kept_auto. Qed.
#[local] Hint Resolve kept_prim_listToAttrs : kept.
Lemma kept_prim_intersectAttrs p q : kept (prim_intersectAttrs R p q).
Proof. unfold prim_intersectAttrs. kept_auto. Qed.
#[local] Hint Resolve kept_prim_intersectAttrs : kept.
Lemma kept_catAttrs_loop n l : kept (catAttrs_loop R n l).
Proof. induction l as [|p l IH]; cbn [catAttrs_loop]; kept_auto. Qed.
#[local] Hint Resolve kept_catAttrs_loop : kept.
Lemma kept_prim_catAttrs p q : kept (prim_catAttrs R p q).
Proof. unfold prim_catAttrs. kept_auto. Qed.
#[local] Hint Resolve kept_prim_catAttrs : kept.
Lemma kept_prim_mapAttrs p q : kept (prim_mapAttrs R p q).
Proof. unfold prim_mapAttrs. kept_auto. Qed.
#[local] Hint Resolve kept_prim_mapAttrs : kept.
Lemma kept_prim_elemAt p q : kept (prim_elemAt R p q).
Proof. unfold prim_elemAt. kept_auto. Qed.
#[local] Hint Resolve kept_prim_elemAt : kept.
Lemma kept_prim_map p q : kept (prim_map R p q).
Proof. unfold prim_map. kept_auto. Qed.
#[local] Hint Resolve kept_prim_map : kept.
Lemma kept_call_pred f args : kept (call_pred R f args).
Proof. unfold call_pred. kept_auto. Qed.
#[local] Hint Resolve kept_call_pred : kept.
Lemma kept_filter_loop f l : kept (filter_loop R f l).
Proof. induction l as [|p l IH]; cbn [filter_loop]; kept_auto. Qed.
#[local] Hint Resolve kept_filter_loop : kept.
Lemma kept_prim_filter p q : kept (prim_filter R p q).
Proof. unfold prim_filter. kept_auto. Qed.
#[local] Hint Resolve kept_prim_filter : kept.
Lemma kept_elem_loop x l : kept (elem_loop R x l).
Proof. induction l as [|p l IH]; cbn [elem_loop]; kept_auto. Qed.
#[local] Hint Resolve kept_elem_loop : kept.
Lemma kept_prim_elem p q : kept (prim_elem R p q).
Proof. unfold prim_elem. kept_auto. Qed.
#[local] Hint Resolve kept_prim_elem : kept.
Lemma kept_foldl_loop op c l : kept (foldl_loop R op c l).
Proof. revert c. induction l as [|p l IH]; intros c; cbn [foldl_loop]; kept_auto. Qed.
#[local] Hint Resolve kept_foldl_loop : kept.
Lemma kept_prim_foldlStrict p q r : kept (prim_foldlStrict R p q r).
Proof. unfold prim_foldlStrict. kept_auto. Qed.
#[local] Hint Resolve kept_prim_foldlStrict : kept.
Lemma kept_anyOrAll_loop b f l : kept (anyOrAll_loop R b f l).
Proof. induction l as [|p l IH]; cbn [anyOrAll_loop]; kept_auto. Qed.
#[local] Hint Resolve kept_anyOrAll_loop : kept.
Lemma kept_anyOrAll b p q : kept (anyOrAll R b p q).
Proof. unfold anyOrAll. kept_auto. Qed.
#[local] Hint Resolve kept_anyOrAll : kept.
Lemma kept_prim_genList p q : kept (prim_genList R p q).
Proof. unfold prim_genList. kept_auto. Qed.
#[local] Hint Resolve kept_prim_genList : kept.
Lemma kept_arith f g p q : kept (arith R f g p q).
Proof. unfold arith. kept_auto. Qed.
#[local] Hint Resolve kept_arith : kept.
Lemma kept_prim_div p q : kept (prim_div R p q).
Proof. unfold prim_div. kept_auto. Qed.
#[local] Hint Resolve kept_prim_div : kept.
Lemma kept_bitop f p q : kept (bitop R f p q).
Proof. unfold bitop. kept_auto. Qed.
#[local] Hint Resolve kept_bitop : kept.
Lemma kept_compare_list l1 l2 : kept (compare_list R l1 l2).
Proof. revert l2. induction l1 as [|p1 l1 IH]; intros [|p2 l2]; simpl; kept_auto. Qed.
#[local] Hint Resolve kept_compare_list : kept.
Lemma kept_compareValues p q : kept (compareValues R p q).
Proof. unfold compareValues. kept_auto. Qed.
#[local] Hint Resolve kept_compareValues : kept.
Lemma kept_prim_lessThan p q : kept (prim_lessThan R p q).
Proof. unfold prim_lessThan. kept_auto. Qed.
#[local] Hint Resolve kept_prim_lessThan : kept.
Lemma kept_prim_substring p q r : kept (prim_substring R p q r).
Proof. unfold prim_substring. kept_auto. Qed.
#[local] Hint Resolve kept_prim_substring : kept.
Lemma kept_insert_back lt x r : (forall a b, kept (lt a b)) -> kept (insert_back lt x r).
Proof. intros H. induction r as [|y r IH]; simpl; [kept_auto|]. apply kept_bind; [done|]. intros b _. kept_auto. Qed.
Lemma kept_sort_loop lt r l : (forall a b, kept (lt a b)) -> kept (sort_loop lt r l).
Proof.
  intros H. revert r. induction l as [|x l IH]; intros r; simpl; [kept_auto|].
  apply kept_bind; [by apply kept_insert_back|done].
Qed.
Lemma kept_sort_comparator f a b : kept (sort_comparator R f a b).
Proof. unfold sort_comparator. kept_auto. Qed.
#[local] Hint Resolve kept_sort_comparator : kept.
Lemma kept_std_sort f l : kept (std_stable_sort (sort_comparator R f) l).
Proof. apply kept_sort_loop. intros. kept_auto. Qed.
#[local] Hint Resolve kept_std_sort : kept.
Lemma kept_prim_sort f l : kept (prim_sort R f l).
Proof. unfold prim_sort. kept_auto. Qed.
#[local] Hint Resolve kept_prim_sort : kept.
Lemma kept_partition_loop f l a b : kept (partition_loop R f l a b).
Proof. revert a b. induction l as [|x l IH]; intros a b; simpl; kept_auto. Qed.
#[local] Hint Resolve kept_partition_loop : kept.
Lemma kept_prim_partition f l : kept (prim_partition R f l).
Proof. unfold prim_partition. kept_auto. Qed.
#[local] Hint Resolve kept_prim_partition : kept.
Lemma kept_groupBy_loop f l m : kept (groupBy_loop R f l m).
Proof. revert m. induction l as [|x l IH]; intros m; simpl; kept_auto. Qed.
#[local] Hint Resolve kept_groupBy_loop : kept.
Lemma kept_groups_insert m b : kept (groups_insert m b).
Proof. revert b. induction m as [|[s l] m IH]; intros b; simpl; kept_auto. Qed.
#[local] Hint Resolve kept_groups_insert : kept.
Lemma kept_prim_groupBy f l : kept (prim_groupBy R f l).
Proof. unfold prim_groupBy. kept_auto. Qed.
#[local] Hint Resolve kept_prim_groupBy : kept.
Lemma kept_prim_concatMap f l : kept (prim_concatMap R f l).
Proof. unfold prim_concatMap. kept_auto. Qed.
#[local] Hint Resolve kept_prim_concatMap : kept.
Lemma kept_keys_insert k l : kept (keys_insert R k l).
Proof. induction l as [|x l IH]; simpl; kept_auto. Qed.
#[local] Hint Resolve kept_keys_insert : kept.
Lemma kept_closure_loop op l d s : kept (closure_loop R op l d s).
Proof. unfold closure_loop. kept_auto. Qed.
#[local] Hint Resolve kept_closure_loop : kept.
Lemma kept_prim_genericClosure p : kept (prim_genericClosure R p).
Proof. unfold prim_genericClosure. kept_auto. Qed.
#[local] Hint Resolve kept_prim_genericClosure : kept.
Lemma kept_float_to_int o : kept (float_to_int o).
Proof. unfold float_to_int. kept_auto. Qed.
#[local] Hint Resolve kept_float_to_int : kept.
Lemma kept_prim_ceil p : kept (prim_ceil R p).
Proof. unfold prim_ceil. kept_auto. Qed.
#[local] Hint Resolve kept_prim_ceil : kept.
Lemma kept_prim_floor p : kept (prim_floor R p).
Proof. unfold prim_floor. kept_auto. Qed.
#[local] Hint Resolve kept_prim_floor : kept.
Lemma kept_prim_baseNameOf p : kept (prim_baseNameOf R p).
Proof. unfold prim_baseNameOf. kept_auto. Qed.
#[local] Hint Resolve kept_prim_baseNameOf : kept.
Lemma kept_prim_dirOf p : kept (prim_dirOf R p).
Proof. unfold prim_dirOf. kept_auto. Qed.
#[local] Hint Resolve kept_prim_dirOf : kept.
Lemma kept_prim_parseDrvName p : kept (prim_parseDrvName R p).
Proof. unfold prim_parseDrvName. kept_auto. Qed.
#[local] Hint Resolve kept_prim_parseDrvName : kept.
Lemma kept_prim_splitVersion p : kept (prim_splitVersion R p).
Proof. unfold prim_splitVersion. kept_auto. Qed.
#[local] Hint Resolve kept_prim_splitVersion : kept.
Lemma kept_concatSep_loop sep f l s c : kept (concatSep_loop R sep f l s c).
Proof. revert f s c. induction l as [|x l IH]; intros f s c; simpl; kept_auto. Qed.
#[local] Hint Resolve kept_concatSep_loop : kept.
Lemma kept_prim_concatStringsSep p q : kept (prim_concatStringsSep R p q).
Proof. unfold prim_concatStringsSep. kept_auto. Qed.
#[local] Hint Resolve kept_prim_concatStringsSep : kept.
Lemma kept_replacement to j c d : kept (replacement R to j c d).
Proof. unfold replacement. kept_auto. Qed.
#[local] Hint Resolve kept_replacement : kept.
Lemma kept_replace_loop n from to s p c d t : kept (replace_loop R n from to s p c d t).
Proof. revert p c d t. induction n as [|n IH]; intros p c d t; cbn [replace_loop]; kept_auto. Qed.
#[local] Hint Resolve kept_replace_loop : kept.
Lemma kept_prim_replaceStrings p q r : kept (prim_replaceStrings R p q r).
Proof. unfold prim_replaceStrings. kept_auto. Qed.
#[local] Hint Resolve kept_prim_replaceStrings : kept.

Lemma kept_call_primop p args : kept (call_primop R p args).
Proof.
  destruct args as [|a1 [|a2 [|a3 [|a4 args]]]]; destruct p; cbn [call_primop]; try apply kept_fail;
    unfold prim_add, prim_sub, prim_mul; auto with kept.
Qed.
#[local] Hint Resolve kept_call_primop : kept.

Lemma unfold_rec_kept : Rec_kept (unfold_rec maxCallDepth storeDir fetchToStore R).
Proof. split; intros; simpl; auto with kept. Qed.
End kept.

Lemma evaluator_kept maxCallDepth storeDir fetchToStore n :
  Rec_kept (evaluator maxCallDepth storeDir fetchToStore n).
Proof. induction n as [|n IH]; [split; intros; apply kept_fail|]. by apply unfold_rec_kept, evaluator_clean. Qed.

(** ** The two implementations of equality *)

(** What [assertEqValues] does where [eqValues] yields [r]. *)
Definition assert_result (r : result bool) : result unit :=
  match r with
  | Ok true => Ok tt
  | Ok false => throw AssertionError
  | Err f => Err f
  end.

Definition matches (m : M bool) (m' : M unit) (st : EvalState) : Prop :=
  forall r st', m st = (r, st') -> r <> Err OutOfFuel -> m' st = (assert_result r, st').

Lemma matches_ret b (m' : M unit) st : m' st = (assert_result (Ok b), st) -> matches (ret b) m' st.
Proof. intros H r st' [= <- <-] _. done. Qed.
Lemma matches_bind {A} (m m' : M A) (k : A -> M bool) (k' : A -> M unit) st :
  mle m m' -> (forall a st', m st = (Ok a, st') -> matches (k a) (k' a) st') -> matches (ebind m k) (ebind m' k') st.
Proof.
  intros Hm Hk r st' Hr Hf. unfold ebind in *. specialize (Hm st). destruct (m st) as [[a|f] st1] eqn:E; simpl in Hm.
  - destruct Hm as [| ->]; [done|]. by apply (Hk a st1).
  - simplify_eq. destruct Hm as [[= ->]| ->]; done.
Qed.
Lemma matches_if (m : M bool) (m' : M unit) k k' st :
  matches m m' st -> (forall st', m st = (Ok true, st') -> matches k k' st') ->
  matches (let! b := m in if b then k else ret false) (let! _ := m' in k') st.
Proof.
  intros Hm Hk r st' Hr Hf. unfold ebind in *. destruct (m st) as [[[]|f] st1] eqn:E.
  - rewrite (Hm _ _ E) by done. by apply (Hk st1).
  - rewrite (Hm _ _ E) by done. unfold ret in Hr. by simplify_eq.
  - simplify_eq. by rewrite (Hm _ _ E).
Qed.

(** The state after a safe computation. *)
Lemma run_safe {A} w st (m : M A) Q a st' : (forall F, safe F w m Q) -> valid ∅ w st -> m st = (Ok a, st') ->
  exists w', later w w' /\ valid ∅ w' st' /\ Q w' a.
Proof.
  intros Hm Hst Hr. assert (HF : framed ∅ w st).
  { split; [apply map_empty_subseteq|]. intros e. rewrite lookup_empty. by intros []. }
  specialize (Hm ∅ st Hst HF). rewrite Hr in Hm. destruct Hm as (U & w' & ? & ? & ? & -> & ?). eauto.
Qed.

Section matches.
Context (maxCallDepth : nat) (storeDir : bytes) (fetchToStore : bytes -> result StorePath).
Context (Hfetch : forall path f, fetchToStore path = Err f -> benign f).

Let ev := evaluator maxCallDepth storeDir fetchToStore.

#[local] Instance ev_safe n : Rec_safe (ev n).
Proof. by apply evaluator_safe. Qed.

Lemma force_stores R p v st st' : forceValue R p st = (Ok v, st') -> es_values st' !! p = Some v.
Proof.
  unfold forceValue, ebind, read. destruct (es_values st !! p) as [u|] eqn:Hp; [|done].
  destruct u as [| | | | | | | |env e| |l r| | |]; try (by intros [= <- <-]); try done.
  - unfold on_failure. simpl. destruct (r_eval R env e _) as [[u|f] st1]; [|done]. intros [= <- <-]. simpl.
    by rewrite lookup_insert_eq.
  - destruct (r_callFunction R l [r] st) as [[u|f] st1]; [|done]. intros [= <- <-]. simpl. by rewrite lookup_insert_eq.
Qed.
Lemma force_ready R p v st : es_values st !! p = Some v -> whnf v -> forceValue R p st = (Ok v, st).
Proof. intros Hp Hw. unfold forceValue, ebind, read. rewrite Hp. by destruct v. Qed.

(** Both values, once they have been forced. *)
Lemma force_both n w st p1 p2 v1 st1 v2 st2 :
  valid ∅ w st -> vaddr w p1 -> vaddr w p2 ->
  r_forceValue (ev n) p1 st = (Ok v1, st1) -> r_forceValue (ev n) p2 st1 = (Ok v2, st2) ->
  exists w', later w w' /\ valid ∅ w' st2 /\ good w' v1 /\ good w' v2 /\
    es_values st2 !! p1 = Some v1 /\ es_values st2 !! p2 = Some v2 /\ 0 < n.
Proof.
  intros Hst Hp1 Hp2 H1 H2. destruct n as [|n]; [done|].
  destruct (run_safe _ _ _ _ _ _ (fun F => rs_force F w p1 Hp1) Hst H1) as (w1 & Hle1 & Hst1 & Hv1 & Hw1).
  to_later Hle1.
  destruct (run_safe _ _ _ _ _ _ (fun F => rs_force F w1 p2 Hp2) Hst1 H2) as (w2 & Hle2 & Hst2 & Hv2 & Hw2).
  exists w2. to_later Hle2. split_and!; [by etrans|done|by split|by split|..|lia].
  - assert (Hk := rk_force _ (evaluator_kept maxCallDepth storeDir fetchToStore (S n)) p2 st1).
    fold ev in Hk. rewrite H2 in Hk. apply Hk; [|exact (force_stores (ev n) _ _ _ _ H1)|done].
    intros p Hp. apply (valid_unused _ _ _ Hst1). by rewrite (valid_next _ _ _ Hst1) in Hp.
  - exact (force_stores (ev n) _ _ _ _ H2).
Qed.

(** Numbers that have been computed. *)
Definition number_eq (v1 v2 : Value) : bool :=
  match v1, v2 with
  | VInt n, VFloat f => SFeqb (f64_of_int n) f
  | VFloat f, VInt n => SFeqb f (f64_of_int n)
  | VInt n1, VInt n2 => (n1 =? n2)%Z
  | VFloat f1, VFloat f2 => SFeqb f1 f2
  | _, _ => false
  end.
Lemma eq_ready n p1 p2 v1 v2 st : p1 <> p2 -> es_values st !! p1 = Some v1 -> es_values st !! p2 = Some v2 ->
  numeric v1 && numeric v2 = true -> r_eqValues (ev (S (S n))) p1 p2 st = (Ok (number_eq v1 v2), st).
Proof.
  intros Hne H1 H2 Hn. simpl. unfold eqValues, ebind. simpl.
  rewrite (force_ready _ _ _ _ H1) by (by destruct v1). rewrite (force_ready _ _ _ _ H2) by (by destruct v1, v2).
  rewrite bool_decide_false by done. by destruct v1, v2.
Qed.

Definition matches_below (n m : nat) : Prop := forall p1 p2 w st, valid ∅ w st -> vaddr w p1 -> vaddr w p2 ->
  matches (r_eqValues (ev n) p1 p2) (r_assertEqValues (ev m) p1 p2) st.

Section step.
Context (n m : nat) (Hnm : n < m) (IH : matches_below n m).

Lemma matches_list l1 l2 w st : valid ∅ w st -> Forall (vaddr w) l1 -> Forall (vaddr w) l2 ->
  matches (eq_list (ev n) l1 l2) (assertEq_list (ev m) l1 l2) st.
Proof.
  revert l2 w st. induction l1 as [|p1 l1 IHl]; intros [|p2 l2] w st Hst H1 H2; simpl; try by apply matches_ret.
  apply Forall_cons in H1 as [Hp1 H1]. apply Forall_cons in H2 as [Hp2 H2].
  apply matches_if; [by eapply IH|]. intros st' Hr.
  destruct (run_safe _ _ _ _ _ _ (fun F => rs_eq F w p1 p2 Hp1 Hp2) Hst Hr) as (w' & Hle & Hst' & _).
  to_later Hle. by eapply IHl.
Qed.

Lemma matches_attrs names b1 b2 i j w st :
  b1.*1 = names ++ i.*1 -> b2.*1 = names ++ j.*1 -> sorted_names b1.*1 -> sorted_names b2.*1 ->
  valid ∅ w st -> Forall (vaddr w) i.*2 -> Forall (vaddr w) j.*2 ->
  matches (eq_attrs (ev n) i j) (assertEq_attrs (ev m) b1 b2 i j) st.
Proof.
  revert names j w st. induction i as [|[n1 p1] i IHl]; intros names [|[n2 p2] j] w st Hb1 Hb2 Hs1 Hs2 Hst H1 H2; simpl;
    try by apply matches_ret.
  apply Forall_cons in H1 as [Hp1 H1]. apply Forall_cons in H2 as [Hp2 H2]. simpl in *.
  case_bool_decide as Hn; [subst n2|].
  - apply matches_if; [by eapply IH|]. intros st' Hr.
    destruct (run_safe _ _ _ _ _ _ (fun F => rs_eq F w p1 p2 Hp1 Hp2) Hst Hr) as (w' & Hle & Hst' & _).
    apply (IHl (names ++ [n1]) j w'); try done; [by rewrite <- app_assoc..| |]; by eapply vaddrs_later.
  - apply matches_ret. case_bool_decide as Hg1; [done|]. case_bool_decide as Hg2; [done|].
    rewrite attrs_get_None in Hg1 by done. rewrite attrs_get_None in Hg2 by done. exfalso.
    rewrite Hb1, Hb2 in *. destruct (first_difference names n1 n2 i.*1 j.*1) as [?|?]; done.
Qed.

Lemma matches_step : matches_below (S n) (S m).
Proof.
  intros p1 p2 w st Hst Hp1 Hp2.
  assert (Hle := evaluator_le maxCallDepth storeDir fetchToStore n m (Nat.lt_le_incl _ _ Hnm)). fold ev in Hle.
  change (matches (eqValues (ev n) p1 p2) (assertEqValues (ev m) p1 p2) st). unfold eqValues, assertEqValues.
  apply matches_bind; [apply Hle|]. intros v1 st1 H1.
  apply matches_bind; [apply Hle|]. intros v2 st2 H2.
  destruct (force_both _ _ _ _ _ _ _ _ _ Hst Hp1 Hp2 H1 H2) as (w2 & Hw & Hst2 & [Hv1 Hw1] & [Hv2 _] & Hs1 & Hs2 & Hn).
  case_bool_decide as Hne; [by apply matches_ret|].
  destruct (numeric v1 && numeric v2) eqn:Hnum.
  { assert (Heq : (let! b := r_eqValues (ev m) p1 p2 in assert_that b) st2 = (assert_result (Ok (number_eq v1 v2)), st2)).
    { destruct m as [|[|m']]; [lia..|]. unfold ebind. rewrite (eq_ready m' _ _ _ _ _ Hne Hs1 Hs2 Hnum).
      by destruct (number_eq v1 v2). }
    destruct v1, v2; try discriminate Hnum; by apply matches_ret. }
  destruct v1, v2; try discriminate Hnum; try (rewrite !whnf_types by done); try by apply matches_ret.
  - apply matches_ret. by destruct b, b0.
  - apply matches_ret. by case_bool_decide.
  - apply matches_ret. by case_bool_decide.
  - apply matches_bind; [by apply mle_both_outPath|]. intros o st3 H3.
    destruct (run_safe _ _ _ _ _ _ (fun F => both_outPath_safe (ev n) F w2 attrs attrs0 Hv1 Hv2) Hst2 H3)
      as (w3 & Hle3 & Hst3 & Hb1 & Hb2 & Ho).
    destruct o as [[i j]|]; [destruct (Ho i j eq_refl); by eapply IH|]. destruct (_ =? _); [|by apply matches_ret].
    apply (matches_attrs [] _ _ _ _ w3); [done|done|apply Hb1|apply Hb2|done|apply Hb1|apply Hb2].
  - destruct (_ =? _); [by eapply matches_list|by apply matches_ret].
Qed.
End step.

Lemma matches_all n m : n < m -> matches_below n m.
Proof.
  revert m. induction n as [|n IH]; intros m Hm; [intros p1 p2 w st _ _ _ r st' [= <- _]; done|].
  destruct m as [|m]; [lia|]. apply matches_step; [lia|]. apply IH. lia.
Qed.
End matches.

(** ** Claims *)

(** C13: evaluation never changes a value that has been computed: whatever an
    expression does, whether it ends with a value or with a failure, a value
    that is not a thunk keeps its content, at its address, and new values are
    put at new addresses. Only thunks and pending calls are overwritten. *)
Theorem eval_keeps_values maxCallDepth storeDir fetchToStore n env e st :
  fresh_values st ->
  keeps st (r_eval (evaluator maxCallDepth storeDir fetchToStore n) env e st).2.
Proof. intros Hst. by apply evaluator_kept. Qed.

Lemma initial_fresh prims symbols : fresh_values (initial_state prims symbols).
Proof.
  intros p Hp. unfold initial_state in *. cbn [es_nextValue es_values] in *. rewrite numbered_map_lookup, Nat.sub_0_r.
  destruct (_ <=? _)%N; [|done]. apply lookup_ge_None. lia.
Qed.

Lemma eval_keeps_values_witness :
  let st := initial_state [P_map] [] in
  keeps st (r_eval (evaluator 100 (L "/nix/store") (fun _ => throw Error) 10) 0%N (ExprList [ExprInt 1; ExprVar 0 (Lexical 0 3)]) st).2.
Proof.
  cbv zeta. apply (eval_keeps_values 100 (L "/nix/store") (fun _ => throw Error) 10). apply initial_fresh.
Defined.


(** [let x = x; in x]: forcing [x] fails, and it is a thunk again. *)
Definition example_loop : EvalState :=
  snd ((let! env := allocEnv 1 0 in let! x := allocValue (VThunk env (ExprVar 0 (Lexical 0 0))) in env_set env 0 x)
    (initial_state [] [])).


(** C11: [assertEqValues] matches [eqValues], as their comments demand: where
    [eqValues] returns true it returns, where [eqValues] returns false it
    throws an [AssertionError] and does not reach its assertions, where
    [eqValues] throws it throws the same; and it leaves the same state. *)
Theorem assertEqValues_matches maxCallDepth storeDir fetchToStore n m p1 p2 w st r st' :
  (forall path f, fetchToStore path = Err f -> benign f) ->
  valid ∅ w st -> vaddr w p1 -> vaddr w p2 -> n < m ->
  r_eqValues (evaluator maxCallDepth storeDir fetchToStore n) p1 p2 st = (r, st') -> r <> Err OutOfFuel ->
  r_assertEqValues (evaluator maxCallDepth storeDir fetchToStore m) p1 p2 st = (assert_result r, st').
Proof. intros Hf Hst Hp1 Hp2 Hnm. by apply (matches_all maxCallDepth storeDir fetchToStore Hf n m Hnm p1 p2 w st). Qed.

Lemma assertEqValues_matches_witness :
  let st := initial_state [P_map] [] in
  r_assertEqValues (evaluator 100 (L "/nix/store") (fun _ => throw Error) 5) 2 3 st = (throw AssertionError, st).
Proof.
  cbv zeta.
  apply (assertEqValues_matches 100 (L "/nix/store") (fun _ => throw Error) 4 5 2 3 (initial_world [P_map] [])
    (initial_state [P_map] []) (Ok false) (initial_state [P_map] [])).
  - intros path f [= <-]. done.
  - apply initial_valid. by repeat constructor.
  - by vm_compute.
  - by vm_compute.
  - lia.
  - vm_compute. reflexivity.
  - discriminate.
Defined.
