(* ===== verification/PrimopsSpec.v ===== *)
(** * What the primitive operations on lists and strings compute

    The operations call functions of the program and force values. [computes I
    m a] says that [m] returns [a] from every state that satisfies [I], and that
    [I] holds afterwards; the theorems are about operations whose arguments
    compute something in this sense. Closures are in ClosureSpec. *)

From Stdlib Require Import SpecFloat Sorting.Sorted.
From stdpp Require Import gmap.
From S2P Require Import Prelude.
From S2P Require Import Containers.
From S2P Require Import StorePath.
From S2P Require Import Expr.
From S2P Require Import Values.
From S2P Require Import Eval.
From S2P Require Import Primops.
From S2P Require Import ListPrimops.
From S2P Require Import StringPrimops.
From S2P Require Import Evaluator.
From S2P Require Import EvalInv.
From S2P Require Import EvalFuel.
From S2P Require Import EvalResults.
From S2P Require Import EvalKeep.

(** ** Computations *)

Definition computes {A} (I : EvalState -> Prop) (m : M A) (a : A) : Prop :=
  forall st, I st -> exists st', m st = (Ok a, st') /\ I st'.

Section computes.
Context (I : EvalState -> Prop).

Lemma computes_ret {A} (a : A) : computes I (ret a) a.
Proof. intros st Hst. by exists st. Qed.
Lemma computes_bind {A B} (m : M A) (k : A -> M B) a b :
  computes I m a -> computes I (k a) b -> computes I (ebind m k) b.
Proof.
  intros Hm Hk st Hst. destruct (Hm st Hst) as (st1 & H1 & Hst1). unfold ebind. rewrite H1. by apply Hk.
Qed.
(** The function [f] maps a list. *)
Lemma computes_mmap {A B} (f : A -> M B) (g : A -> B) l :
  (forall x, x ∈ l -> computes I (f x) (g x)) -> computes I (mmap f l) (g <$> l).
Proof.
  induction l as [|x l IH]; intros H; simpl; [apply computes_ret|].
  eapply computes_bind; [apply H; by left|]. eapply computes_bind; [apply IH; intros; apply H; by right|].
  apply computes_ret.
Qed.
End computes.
#[export] Hint Resolve computes_ret : computes.

(** ** Sorting *)

(** A strict weak order: the strict part of a total preorder. *)
Record strict_weak {A} (lt : A -> A -> bool) (l : list A) : Prop := {
  sw_asym a b : a ∈ l -> b ∈ l -> lt a b = true -> lt b a = false;
  sw_trans a b c : a ∈ l -> b ∈ l -> c ∈ l -> lt b a = false -> lt c b = false -> lt c a = false;
}.
Definition equivalent {A} (lt : A -> A -> bool) (a b : A) : bool := negb (lt a b) && negb (lt b a).

(** Sorted in reverse: no element is greater than one before it. *)
Definition rev_sorted {A} (lt : A -> A -> bool) (r : list A) : Prop := StronglySorted (fun y x => lt y x = false) r.

Fixpoint insert_pure {A} (lt : A -> A -> bool) (x : A) (r : list A) : list A :=
  match r with
  | [] => [x]
  | y :: r' => if lt x y then y :: insert_pure lt x r' else x :: r
  end.

Section sorting.
Context {A : Type} (lt : A -> A -> bool) (U : list A) (Hlt : strict_weak lt U).
Implicit Types (x y : A) (r l : list A).

Lemma insert_pure_perm x r : insert_pure lt x r ≡ₚ x :: r.
Proof. induction r as [|y r IH]; simpl; [done|]. destruct (lt x y); [|done]. rewrite IH. constructor. Qed.
Lemma insert_pure_sorted x r : x ∈ U -> Forall (fun y => y ∈ U) r -> rev_sorted lt r -> rev_sorted lt (insert_pure lt x r).
Proof.
  intros Hx. induction r as [|y r IH]; simpl; intros Hr Hs; [by repeat constructor|].
  apply Forall_cons in Hr as [Hy Hr]. apply StronglySorted_inv in Hs as [Hs Hf]. destruct (lt x y) eqn:E.
  - constructor; [by apply IH|]. rewrite insert_pure_perm. constructor; [by apply (sw_asym _ _ Hlt)|done].
  - constructor; [by constructor|]. constructor; [done|].
    rewrite Forall_forall in Hf, Hr |- *. intros z Hz. eapply (sw_trans _ _ Hlt z y x); auto.
Qed.
(** An element is inserted behind those that are equivalent to it. *)
Lemma insert_pure_stable a x r : a ∈ U -> x ∈ U -> Forall (fun y => y ∈ U) r -> rev_sorted lt r ->
  filter (fun y => equivalent lt a y = true) (insert_pure lt x r) = filter (fun y => equivalent lt a y = true) (x :: r).
Proof.
  intros Ha Hx. induction r as [|y r IH]; intros Hr Hs; [done|]. apply Forall_cons in Hr as [Hy Hr].
  apply StronglySorted_inv in Hs as [Hs Hf]. cbn [insert_pure]. destruct (lt x y) eqn:E; [|done].
  rewrite filter_cons, IH by done. rewrite !filter_cons.
  destruct (decide (equivalent lt a x = true)) as [Hax|], (decide (equivalent lt a y = true)) as [Hay|]; try done.
  exfalso. unfold equivalent in *. rewrite andb_true_iff, !negb_true_iff in *. destruct Hax, Hay.
  assert (lt x y = false); [|congruence]. eapply (sw_trans _ _ Hlt y a x); done.
Qed.
End sorting.

Lemma rev_sorted_lookup {A} (lt : A -> A -> bool) l i j x y :
  rev_sorted lt (reverse l) -> i < j -> l !! i = Some x -> l !! j = Some y -> lt y x = false.
Proof.
  revert i j. induction l as [|z l IH] using rev_ind; intros i j Hs Hij Hx Hy; [done|].
  rewrite reverse_snoc in Hs. apply StronglySorted_inv in Hs as [Hs Hf].
  assert (Hj : j < length (l ++ [z])) by (by eapply lookup_lt_Some). rewrite length_app in Hj. simpl in Hj.
  rewrite lookup_app_l in Hx by lia. destruct (decide (j < length l)).
  - rewrite lookup_app_l in Hy by done. by eapply (IH i j).
  - replace j with (length l) in Hy by lia. rewrite list_lookup_middle in Hy by done. injection Hy as <-.
    rewrite Forall_forall in Hf. apply Hf. rewrite elem_of_reverse. by eapply list_elem_of_lookup_2.
Qed.

Section sort_computes.
Context (I : EvalState -> Prop) (ltm : addr -> addr -> M bool) (lt : addr -> addr -> bool).

Lemma insert_back_computes x r : (forall y, y ∈ r -> computes I (ltm x y) (lt x y)) ->
  computes I (insert_back ltm x r) (insert_pure lt x r).
Proof.
  induction r as [|y r IH]; intros H; simpl; [apply computes_ret|]. eapply computes_bind; [apply H; by left|].
  destruct (lt x y); [|apply computes_ret].
  eapply computes_bind; [apply IH; intros; apply H; by right|apply computes_ret].
Qed.
Lemma sort_loop_computes U r l : strict_weak lt U ->
  (forall x y, x ∈ U -> y ∈ U -> computes I (ltm x y) (lt x y)) ->
  Forall (fun x => x ∈ U) r -> Forall (fun x => x ∈ U) l -> rev_sorted lt r ->
  exists l', computes I (sort_loop ltm r l) l' /\ l' ≡ₚ r ++ l /\ rev_sorted lt (reverse l') /\
    forall a, a ∈ U -> filter (fun y => equivalent lt a y = true) l' =
                       filter (fun y => equivalent lt a y = true) (reverse r ++ l).
Proof.
  intros Hlt Hc. revert r. induction l as [|x l IH]; intros r Hr Hl Hs; simpl.
  { exists (reverse r). split_and!; [apply computes_ret|by rewrite app_nil_r, reverse_Permutation|by rewrite reverse_involutive|].
    intros a _. by rewrite app_nil_r. }
  apply Forall_cons in Hl as [Hx Hl].
  destruct (IH (insert_pure lt x r)) as (l' & H1 & H2 & H3 & H4); [by rewrite insert_pure_perm; constructor|done| |].
  { by eapply insert_pure_sorted. }
  exists l'. split_and!.
  - eapply computes_bind; [|exact H1]. apply insert_back_computes. intros y Hy. rewrite Forall_forall in Hr. auto.
  - rewrite H2, insert_pure_perm. by rewrite <- Permutation_middle.
  - done.
  - intros a Ha. rewrite H4, !filter_app, filter_cons by done.
    rewrite !filter_reverse, (insert_pure_stable lt U), filter_cons by done.
    destruct (decide (equivalent lt a x = true)); [|done]. by rewrite reverse_cons, <- app_assoc.
Qed.
End sort_computes.

(** ** The comparison function of [builtins.sort] *)

(** A property of states that evaluations keep can be added to an invariant. *)
Definition kept_by_eval (K : EvalState -> Prop) : Prop := forall st st', K st -> keeps st st' -> K st'.
Lemma computes_and {A} (I K : EvalState -> Prop) (m : M A) a :
  (forall st, I st -> fresh_values st) -> kept_by_eval K -> kept m -> computes I m a ->
  computes (fun st => I st /\ K st) m a.
Proof.
  intros HI HK Hm Hc st [Hst Hk]. destruct (Hc st Hst) as (st' & H & Hst'). exists st'. split_and!; [done..|].
  eapply HK; [exact Hk|]. assert (He := Hm st (HI st Hst)). rewrite H in He. apply He.
Qed.

(** [p] has been computed, and is [v]. *)
Definition ready (p : addr) (v : Value) (st : EvalState) : Prop := es_values st !! p = Some v /\ whnf v.
Lemma ready_kept p v : kept_by_eval (ready p v).
Proof. intros st st' [Hp Hw] Hk. split; [|done]. by eapply keeps_values. Qed.

Section sort_calls.
Context (maxCallDepth : nat) (storeDir : bytes) (fetchToStore : bytes -> result StorePath).
Abbreviation Rn := (evaluator maxCallDepth storeDir fetchToStore).

Lemma force_ready_value n p v st : ready p v st -> r_forceValue (Rn (S n)) p st = (Ok v, st).
Proof. intros [Hp Hw]. by apply (force_ready (Rn n)). Qed.

(** A comparison of values other than lists depends on nothing else. *)
Lemma compare_ready n m x y v1 v2 st st' : ready x v1 st -> ready y v2 st -> ready x v1 st' -> ready y v2 st' ->
  (forall l, v1 <> VList l) ->
  r_compareValues (Rn (S n)) x y st = ((r_compareValues (Rn (S m)) x y st').1, st).
Proof.
  intros [H1 _] [H2 _] [H1' _] [H2' _] Hl. cbn [evaluator unfold_rec r_compareValues].
  unfold compareValues, ebind, read. rewrite H1, H2, H1', H2'.
  destruct v1, v2; try done. by destruct (Hl elems).
Qed.

Lemma compare_ints n x y a b st : ready x (VInt a) st -> ready y (VInt b) st ->
  r_compareValues (Rn (S n)) x y st = (Ok (a <? b)%Z, st).
Proof.
  intros [H1 _] [H2 _]. change (r_compareValues (Rn (S n))) with (compareValues (Rn n)).
  unfold compareValues, ebind, read. by rewrite H1, H2.
Qed.

(** What calling [builtins.lessThan] yields is what a comparison yields. *)
Lemma lessThan_call n f x y v1 v2 st b st' :
  ready f (VPrimOp P_lessThan) st -> ready x v1 st -> ready y v2 st -> (forall l, v1 <> VList l) ->
  call_pred (Rn n) f [x; y] st = (Ok b, st') -> r_compareValues (Rn n) x y st = (Ok b, st).
Proof.
  intros Hf Hx Hy Hl H. unfold call_pred, ebind in H.
  destruct (r_callFunction (Rn n) f [x; y] st) as [[v|e] st1] eqn:E; [|done].
  destruct n as [|n]; [done|]. cbn [evaluator unfold_rec r_callFunction] in E. unfold callFunction, with_callDepth in E.
  destruct (maxCallDepth <? _); [done|]. set (st0 := set_callDepth _ st) in E.
  destruct n as [|n]; [done|]. unfold ebind in E. rewrite (force_ready_value n f (VPrimOp P_lessThan) st0 Hf) in E.
  cbn [call_loop length arity Nat.ltb Nat.leb take drop evaluator unfold_rec r_primop call_primop] in E.
  unfold prim_lessThan, ebind in E. destruct n as [|n]; [done|].
  rewrite (force_ready_value n x v1 st0 Hx), (force_ready_value n y v2 st0 Hy) in E.
  rewrite (compare_ready (S (S n)) n x y v1 v2 st st0) by done.
  rewrite (compare_ready n n x y v1 v2 st0 st0) in E by done.
  destruct (r_compareValues (Rn (S n)) x y st0).1 as [b'|e]; [|done]. cbn in E. injection E as <- <-. cbn in H.
  unfold forceBool, ebind in H.
  rewrite (force_ready_value (S (S n)) _ (VBool b')) in H; [by injection H as <- _|].
  split; [cbn; by rewrite lookup_insert_eq|done].
Qed.

Lemma call_lessThan n f x y v1 v2 st b :
  ready f (VPrimOp P_lessThan) st -> ready x v1 st -> ready y v2 st -> (forall l, v1 <> VList l) ->
  es_callDepth st <= maxCallDepth -> (r_compareValues (Rn (S n)) x y st).1 = Ok b ->
  exists st', call_pred (Rn (S (S (S n)))) f [x; y] st = (Ok b, st') /\ es_callDepth st' = es_callDepth st.
Proof.
  intros Hf Hx Hy Hl Hd Hb. eexists. unfold call_pred, ebind.
  change (r_callFunction (Rn (S (S (S n))))) with (callFunction (Rn (S (S n))) maxCallDepth).
  unfold callFunction, with_callDepth. rewrite (proj2 (Nat.ltb_ge _ _)) by done. set (st0 := set_callDepth _ st).
  unfold ebind. rewrite (force_ready_value (S n) f (VPrimOp P_lessThan) st0 Hf).
  cbn [call_loop length arity Nat.ltb Nat.leb take drop].
  change (r_primop (Rn (S (S n))) P_lessThan) with (call_primop (Rn (S n)) P_lessThan). cbn [call_primop].
  unfold prim_lessThan, ebind. rewrite (force_ready_value n x v1 st0 Hx), (force_ready_value n y v2 st0 Hy).
  rewrite (compare_ready n n x y v1 v2 st0 st), Hb by done. unfold forceBool, ebind. cbn [ret allocValue].
  rewrite (force_ready_value (S (S n)) _ (VBool b)); [|split; [cbn; by rewrite lookup_insert_eq|done]].
  split; [reflexivity|]. cbn. lia.
Qed.

Context (n : nat) (I : EvalState -> Prop) (fv : Value) (l : list addr).
Hypothesis Hfresh : forall st, I st -> fresh_values st.
Hypothesis Hvalue : forall p, p ∈ l -> exists v, computes I (r_forceValue (Rn n) p) v /\
  (fv = VPrimOp P_lessThan -> forall l', v <> VList l').

(** [p] has been computed, and is not a list if [f] is [builtins.lessThan]. *)
Definition comparable (p : addr) (st : EvalState) : Prop :=
  exists v, ready p v st /\ (fv = VPrimOp P_lessThan -> forall l', v <> VList l').
Lemma comparable_kept p : kept_by_eval (comparable p).
Proof. intros st st' (v & Hv & Hl) Hk. exists v. split; [by eapply ready_kept|done]. Qed.

(** The elements are forced one after the other. *)
Lemma force_elements l' st : l' ⊆ l -> I st -> exists vs st', mmap (r_forceValue (Rn n)) l' st = (Ok vs, st') /\ I st' /\
  keeps st st' /\ Forall (fun p => comparable p st') l'.
Proof.
  revert st. induction l' as [|p l' IH]; intros st Hsub Hst.
  { exists [], st. split_and!; [done..|by apply keeps_refl, Hfresh|done]. }
  destruct (Hvalue p) as (v & Hv & Hnl); [set_solver|]. destruct (Hv st Hst) as (st1 & H1 & Hst1).
  destruct (IH st1) as (vs & st2 & H2 & Hst2 & Hk2 & Hl2); [set_solver|done|].
  assert (Hk1 := rk_force _ (evaluator_kept maxCallDepth storeDir fetchToStore n) p st (Hfresh st Hst)). rewrite H1 in Hk1.
  exists (v :: vs), st2. cbn [mmap]. unfold ebind. rewrite H1, H2. split_and!; [done..|by eapply keeps_trans; [apply Hk1|]|].
  constructor; [|done]. eapply comparable_kept; [|exact Hk2]. exists v. split; [|done].
  assert (Hw := rc_force _ (evaluator_clean maxCallDepth storeDir fetchToStore n) p v (ex_intro _ st (ex_intro _ st1 H1))).
  split; [|done]. destruct n as [|k]; [done|]. exact (force_stores (Rn k) _ _ _ _ H1).
Qed.

Context (f : addr) (lt : addr -> addr -> bool).
Hypothesis Hcall : forall x y, x ∈ l -> y ∈ l -> computes I (call_pred (Rn n) f [x; y]) (lt x y).

(** When the elements are sorted, [f] and they have been computed. *)
Definition forced (st : EvalState) : Prop := ready f fv st /\ Forall (fun p => comparable p st) l.

Lemma forced_kept : kept_by_eval forced.
Proof.
  intros st st' [Hf Hl] Hk. split; [by eapply ready_kept|]. eapply Forall_impl; [exact Hl|]. intros p Hp. eapply comparable_kept; [exact Hp|exact Hk].
Qed.

Lemma sort_comparator_computes x y : x ∈ l -> y ∈ l ->
  computes (fun st => I st /\ forced st) (sort_comparator (Rn n) f x y) (lt x y).
Proof.
  intros Hx Hy st [Hst Hfd]. unfold sort_comparator, ebind, read. destruct (Hfd) as [[Hf Hw] Hl]. rewrite Hf.
  assert (Hc : exists st', call_pred (Rn n) f [x; y] st = (Ok (lt x y), st') /\ I st' /\ forced st').
  { apply (computes_and I forced); [done|apply forced_kept| |by apply Hcall|done]. apply kept_call_pred; [apply evaluator_kept|apply evaluator_clean]. }
  assert (Hdec : fv = VPrimOp P_lessThan \/
    match fv with VPrimOp P_lessThan => r_compareValues (Rn n) x y | _ => call_pred (Rn n) f [x; y] end
      = call_pred (Rn n) f [x; y]) by (destruct fv as [| | | | | | | | | | | |[]|]; auto).
  destruct Hdec as [Hlt|Hne].
  - rewrite Hlt in *. destruct Hc as (st' & Hc & _). rewrite Forall_forall in Hl.
    destruct (Hl x Hx) as (v1 & Hv1 & Hn1), (Hl y Hy) as (v2 & Hv2 & _).
    exists st. split; [|done]. eapply lessThan_call; [by split|done|done|auto|done].
  - by rewrite Hne.
Qed.

End sort_calls.

(** C22: [builtins.sort] sorts by the function it is given. If calling the function on
    two elements computes a strict weak order, from every state that satisfies
    an invariant that the calls keep, then the result is a permutation of the
    list, no element is less than one before it, and equivalent elements keep
    their order. This includes [builtins.lessThan], which is not called but
    compared with directly, for elements that are not lists (comparing lists
    forces their elements). [std::stable_sort] is modelled by an insertion sort. *)
Theorem sort_sorts maxCallDepth storeDir fetchToStore n I f fv list_ l (lt : addr -> addr -> bool) :
  let R := evaluator maxCallDepth storeDir fetchToStore n in
  (forall st, I st -> fresh_values st) ->
  computes I (forceList R list_) l ->
  computes I (r_forceValue R f) fv -> computes I (forceFunction R f) tt ->
  (forall p, p ∈ l -> exists v, computes I (r_forceValue R p) v /\ (fv = VPrimOp P_lessThan -> forall l', v <> VList l')) ->
  (forall x y, x ∈ l -> y ∈ l -> computes I (call_pred R f [x; y]) (lt x y)) ->
  strict_weak lt l ->
  exists l', computes I (prim_sort R f list_) (VList l') /\ l' ≡ₚ l /\
    (forall i j x y, i < j -> l' !! i = Some x -> l' !! j = Some y -> lt y x = false) /\
    (forall a, a ∈ l -> filter (fun y => equivalent lt a y = true) l' = filter (fun y => equivalent lt a y = true) l).
Proof.
  intros R Hfresh Hl Hfv Hf Hv Hc Hlt. set (J st := I st /\ forced fv l f st).
  destruct (sort_loop_computes J (sort_comparator R f) lt l [] l) as (l' & H1 & H2 & H3 & H4);
    [done|by apply sort_comparator_computes|constructor|by apply Forall_forall|constructor|].
  exists l'. split; [|split; [done|split; [|done]]].
  - unfold prim_sort. eapply computes_bind; [exact Hl|]. case_bool_decide as Hnil.
    { rewrite Hnil in H2. apply Permutation_nil_r in H2 as ->. rewrite Hnil. apply computes_ret. }
    intros st Hst. destruct (Hf st Hst) as (st1 & Hf1 & Hst1), (Hfv st Hst) as (st1' & Hf2 & _).
    assert (st1' = st1) as -> by (unfold forceFunction, ebind in Hf1; rewrite Hf2 in Hf1; case_match; by injection Hf1).
    destruct (force_elements maxCallDepth storeDir fetchToStore n I fv l Hfresh Hv l st1) as (vs & st2 & Hm & Hst2 & Hk & Hfl); [done..|].
    destruct (H1 st2) as (st3 & Hs & Hst3 & _).
    { split; [done|]. split; [|done]. eapply ready_kept; [|exact Hk].
      assert (Hw := rc_force _ (evaluator_clean maxCallDepth storeDir fetchToStore n) f fv (ex_intro _ st (ex_intro _ st1 Hf2))).
      split; [|done]. subst R. destruct n as [|k]; [done|]. exact (force_stores _ _ _ _ _ Hf2). }
    exists st3. split; [|done]. unfold ebind. rewrite Hf1. fold R in Hm. rewrite Hm. unfold std_stable_sort. by rewrite Hs.
  - intros i j x y Hij Hx Hy. apply (rev_sorted_lookup lt l' i j); done.
Qed.

(** The values [2], [1], [[ 2 1 ]] and [builtins.lessThan], in any state. *)
Definition example_sort (st : EvalState) : Prop :=
  fresh_values st /\ es_callDepth st = 0 /\
  ready 4 (VInt 2) st /\ ready 5 (VInt 1) st /\ ready 6 (VList [4; 5]%N) st /\ ready 7 (VPrimOp P_lessThan) st.
Definition example_sort_state : EvalState :=
  snd ((let! a := allocValue (VInt 2) in let! b := allocValue (VInt 1) in
   let! _ := allocValue (VList [a; b]) in allocValue (VPrimOp P_lessThan)) (initial_state [] [])).

Lemma example_sort_satisfied : example_sort example_sort_state.
Proof.
  assert (Hk : kept (let! a := allocValue (VInt 2) in let! b := allocValue (VInt 1) in
    let! _ := allocValue (VList [a; b]) in allocValue (VPrimOp P_lessThan))) by kept_auto.
  split; [exact (evolves_fresh _ _ (Hk _ (initial_fresh [] [])))|]. split_and!; [done|by split..].
Qed.
Lemma example_sort_computes {A} (m : M A) a : kept m ->
  (forall st, example_sort st -> exists st', m st = (Ok a, st') /\ es_callDepth st' = 0) -> computes example_sort m a.
Proof.
  intros Hm H st Hst. destruct (H st Hst) as (st' & E & Hd). exists st'. split; [done|]. destruct Hst as (Hf & _ & Hr).
  assert (He := Hm st Hf). rewrite E in He. cbn in He. split; [by eapply evolves_fresh|]. split; [done|].
  destruct_and! Hr. split_and!; (eapply ready_kept; [done|apply He]).
Qed.
Ltac computes_eq := intros ? <-; eexists; split; [vm_compute; reflexivity|reflexivity].

Lemma sort_sorts_witness :
  example_sort example_sort_state /\
  exists l', computes example_sort (prim_sort (evaluator 100 (L "/nix/store") (fun _ => throw Error) 5) 7 6) (VList l') /\
    l' ≡ₚ [4; 5]%N.
Proof.
  split; [apply example_sort_satisfied|].
  assert (HK := evaluator_kept 100 (L "/nix/store") (fun _ => throw Error) 5).
  assert (Hforce : forall p v, (forall st, example_sort st -> ready p v st) ->
    computes example_sort (r_forceValue (evaluator 100 (L "/nix/store") (fun _ => throw Error) 5) p) v).
  { intros p v Hp st Hst. exists st. split; [|done]. by apply force_ready_value, Hp. }
  destruct (sort_sorts 100 (L "/nix/store") (fun _ => throw Error) 5 example_sort 7 (VPrimOp P_lessThan) 6 [4; 5]%N
    (fun x y => (x =? 5)%N && (y =? 4)%N)) as (l' & H1 & H2 & _).
  - intros st Hst. apply Hst.
  - eapply computes_bind; [apply (Hforce _ (VList [4; 5]%N)); intros st Hst; apply Hst|apply computes_ret].
  - apply Hforce. intros st Hst. apply Hst.
  - eapply computes_bind; [apply (Hforce _ (VPrimOp P_lessThan)); intros st Hst; apply Hst|apply computes_ret].
  - intros p Hp. rewrite !elem_of_cons, elem_of_nil in Hp.
    destruct Hp as [->|[->|[]]]; eexists; (split; [apply Hforce; intros st Hst; apply Hst|done]).
  - intros x y Hx Hy. apply example_sort_computes; [apply kept_call_pred; [done|apply evaluator_clean]|].
    intros st (Hf & Hd & Ha & Hb & _ & Hlt). rewrite !elem_of_cons, elem_of_nil in Hx, Hy.
    assert (Hcall : forall p q i j b, ready p (VInt i) st -> ready q (VInt j) st -> (i <? j)%Z = b -> exists st',
      call_pred (evaluator 100 (L "/nix/store") (fun _ => throw Error) 5) 7 [p; q] st = (Ok b, st') /\
      es_callDepth st' = 0).
    { intros p q i j b Hp Hq <-.
      destruct (call_lessThan 100 (L "/nix/store") (fun _ => throw Error) 2 7 p q (VInt i) (VInt j) st (i <? j)%Z)
        as (st' & E & Hd'); [done..|lia|by rewrite (compare_ints _ _ _ _ p q i j)|].
      exists st'. split; [exact E|lia]. }
    destruct Hx as [->|[->|[]]], Hy as [->|[->|[]]];
      (eapply Hcall; [by first [exact Ha|exact Hb]|by first [exact Ha|exact Hb]|reflexivity]).
  - split.
    + intros a b Ha Hb. rewrite !elem_of_cons, elem_of_nil in Ha, Hb.
      destruct Ha as [->|[->|[]]], Hb as [->|[->|[]]]; done.
    + intros a b c Ha Hb Hc. rewrite !elem_of_cons, elem_of_nil in Ha, Hb, Hc.
      destruct Ha as [->|[->|[]]], Hb as [->|[->|[]]], Hc as [->|[->|[]]]; done.
  - by exists l'.
Defined.

(** ** Replacing strings *)

Section replacing.
Context (from : list bytes) (to : nat -> bytes).

(** The first pattern that [t] starts with. *)
Fixpoint first_match (from : list bytes) (t : bytes) (j : nat) : option (nat * bytes) :=
  match from with
  | [] => None
  | i :: from => if bool_decide (i `prefix_of` t) then Some (j, i) else first_match from t (S j)
  end.

(** [replaced t r js]: the patterns in [t] are replaced from left to right, the
    first one in the list where several match; the empty pattern matches before
    every character and at the end. [js] are the patterns that matched. *)
Inductive replaced : bytes -> bytes -> list nat -> Prop :=
| replaced_end : first_match from [] 0 = None -> replaced [] [] []
| replaced_empty_end j : first_match from [] 0 = Some (j, []) -> replaced [] (to j) [j]
| replaced_skip c t r js : first_match from (c :: t) 0 = None -> replaced t r js -> replaced (c :: t) (c :: r) js
| replaced_empty c t r j js :
    first_match from (c :: t) 0 = Some (j, []) -> replaced t r js -> replaced (c :: t) (to j ++ c :: r) (j :: js)
| replaced_match i t r j js :
    i <> [] -> first_match from t 0 = Some (j, i) -> replaced (drop (length i) t) r js ->
    replaced t (to j ++ r) (j :: js).

Lemma first_match_prefix f t j k i : first_match f t j = Some (k, i) -> i `prefix_of` t /\ i ∈ f.
Proof.
  revert j. induction f as [|x f IH]; intros j; simpl; [done|]. case_bool_decide as Hp.
  - intros [= <- <-]. split; [done|by left].
  - intros [? ?]%IH. split; [done|by right].
Qed.
(** The result is unique. *)
Lemma replaced_unique t r js r' js' : replaced t r js -> replaced t r' js' -> r = r' /\ js = js'.
Proof.
  intros H. revert r' js'. induction H as [Hm|j Hm|c t r js Hm _ IH|c t r j js Hm _ IH|i t r j js Hi Hm _ IH];
    intros r' js' H'; inversion H'; subst; simplify_eq; try done.
  all: match goal with G : replaced _ _ _ |- _ => by apply IH in G as [-> ->] end.
Qed.
Lemma find_from_first_match f s p j : p <= length s -> find_from s p f j = first_match f (drop p s) j.
Proof.
  intros Hp. revert j. induction f as [|x f IH]; intros j; simpl; [done|]. rewrite IH. unfold substr.
  erewrite bool_decide_ext; [done|]. split.
  - intros <-. exists (drop (length x) (drop p s)). by rewrite take_drop.
  - intros [u ->]. by rewrite take_app_length.
Qed.
End replacing.

Section replace_computes.
Context (R : Rec) (I : EvalState -> Prop).
Context (from : list bytes) (addrs : list addr) (to : nat -> bytes) (ctxs : nat -> list bytes) (s : bytes).
Context (Hlen : length from = length addrs).
Context (Hto : forall j a, addrs !! j = Some a -> computes I (forceString R a) (to j, ctxs j)).

(** The cache holds replacements, whose contexts have been added. *)
Definition cache_ok (cache : list (nat * bytes)) (context : list bytes) : Prop :=
  forall j v, cache_find j cache = Some v -> v = to j /\ ctxs j ⊆ context.

Lemma first_match_index f t j k i : first_match f t j = Some (k, i) -> j <= k < j + length f.
Proof.
  revert j. induction f as [|x f IH]; intros j; simpl; [done|]. case_bool_decide; [intros [= <- <-]; lia|].
  intros Hk%IH. lia.
Qed.
Lemma replacement_computes j cache context : j < length from -> cache_ok cache context ->
  exists cache' context', computes I (replacement R addrs j cache context) (to j, cache', context') /\
    cache_ok cache' context' /\ forall e, e ∈ context' <-> e ∈ context \/ e ∈ ctxs j.
Proof.
  intros Hj Hc. unfold replacement. destruct (cache_find j cache) as [v|] eqn:Hv.
  - destruct (Hc j v Hv) as [-> Hsub]. exists cache, context. split_and!; [apply computes_ret|done|]. intros e. set_solver.
  - destruct (lookup_lt_is_Some_2 addrs j) as [a Ha]; [lia|]. rewrite Ha.
    exists ((j, to j) :: cache), (sset_union context (ctxs j)). split_and!.
    + eapply computes_bind; [by apply Hto|]. apply computes_ret.
    + intros k v. simpl. destruct (Nat.eqb_spec j k) as [<-|].
      * intros [= <-]. split; [done|]. intros e He. apply sset_union_elem. by right.
      * intros [-> Hsub]%Hc. split; [done|]. intros e He. apply sset_union_elem. left. by apply Hsub.
    + intros e. apply sset_union_elem.
Qed.

Lemma replace_loop_end fuel cache context res :
  computes I (replace_loop R (S fuel) from addrs s (length s + 1) cache context res) (res, context).
Proof. cbn [replace_loop]. rewrite (proj2 (Nat.ltb_lt _ _)) by lia. apply computes_ret. Qed.

Lemma drop_cons_lookup p : p < length s -> exists c, drop p s = c :: drop (p + 1) s /\ char_at s p = [c].
Proof.
  intros Hp. destruct (lookup_lt_is_Some_2 s p Hp) as [c Hc]. exists c. rewrite (drop_S s c p Hc). unfold char_at.
  rewrite (drop_S s c p Hc). by rewrite Nat.add_1_r.
Qed.

(** The last round, at the end of the string. *)
Lemma replace_loop_last fuel cache context res : cache_ok cache context ->
  exists r js context', replaced from to [] r js /\
    computes I (replace_loop R (S (S fuel)) from addrs s (length s) cache context res) (res ++ r, context') /\
    forall e, e ∈ context' <-> e ∈ context \/ exists j, j ∈ js /\ e ∈ ctxs j.
Proof.
  intros Hc. remember (S fuel) as fuel'. cbn [replace_loop]. subst fuel'.
  rewrite (proj2 (Nat.ltb_ge _ _)) by lia. rewrite find_from_first_match, drop_all by done.
  assert (Hend : char_at s (length s) = []) by (unfold char_at; by rewrite drop_all).
  destruct (first_match from [] 0) as [[j i]|] eqn:Hm.
  - destruct (first_match_prefix _ _ _ _ _ Hm) as [Hi%prefix_nil_inv _]. subst i.
    apply first_match_index in Hm as Hj.
    destruct (replacement_computes j cache context) as (cache' & context' & H1 & H2 & H3); [lia|done|].
    exists (to j), [j], context'. split_and!; [by constructor| |].
    + eapply computes_bind; [exact H1|]. rewrite bool_decide_true, Hend, app_nil_r by done. apply replace_loop_end.
    + intros e. rewrite H3. set_solver.
  - exists [], [], context. split_and!; [by constructor| |].
    + rewrite Hend, app_nil_r. apply replace_loop_end.
    + intros e. set_solver.
Qed.

Lemma replace_loop_computes fuel p cache context res :
  p <= length s -> length s + 2 <= p + fuel -> cache_ok cache context ->
  exists r js context', replaced from to (drop p s) r js /\
    computes I (replace_loop R fuel from addrs s p cache context res) (res ++ r, context') /\
    forall e, e ∈ context' <-> e ∈ context \/ exists j, j ∈ js /\ e ∈ ctxs j.
Proof.
  revert p cache context res. induction fuel as [|fuel IH]; intros p cache context res Hp Hf Hc; [lia|].
  destruct (decide (p = length s)) as [->|Hne].
  { destruct fuel as [|fuel]; [lia|]. rewrite drop_all. by apply replace_loop_last. }
  cbn [replace_loop]. rewrite (proj2 (Nat.ltb_ge _ _)) by lia. rewrite find_from_first_match by done.
  destruct (drop_cons_lookup p) as (c & Hd & Hchar); [lia|].
  destruct (first_match from (drop p s) 0) as [[j i]|] eqn:Hm.
  - destruct (first_match_prefix _ _ _ _ _ Hm) as [[u Hu] _]. apply first_match_index in Hm as Hj.
    destruct (replacement_computes j cache context) as (cache' & context' & H1 & H2 & H3); [lia|done|].
    destruct (decide (i = [])) as [->|Hi].
    + destruct (IH (p + 1) cache' context' (res ++ to j ++ char_at s p)) as (r & js & c' & G1 & G2 & G3); [lia|lia|done|].
      exists (to j ++ c :: r), (j :: js), c'. split_and!.
      * rewrite Hd in *. by constructor.
      * eapply computes_bind; [exact H1|]. rewrite bool_decide_true by done. rewrite Hchar in *.
         rewrite <- !app_assoc in G2. exact G2.
      * intros e. rewrite G3, H3. set_solver.
    + assert (Hpi : p + length i <= length s).
      { apply (f_equal length) in Hu. rewrite length_drop, length_app in Hu. lia. }
      assert (0 < length i) by (destruct i; [done|simpl; lia]).
      destruct (IH (p + length i) cache' context' (res ++ to j)) as (r & js & c' & G1 & G2 & G3); [lia|lia|done|].
      exists (to j ++ r), (j :: js), c'. split_and!.
      * econstructor; [done|exact Hm|]. by rewrite drop_drop.
      * eapply computes_bind; [exact H1|]. rewrite bool_decide_false by done. by rewrite <- app_assoc in G2.
      * intros e. rewrite G3, H3. set_solver.
  - destruct (IH (p + 1) cache context (res ++ char_at s p)) as (r & js & c' & G1 & G2 & G3); [lia|lia|done|].
    exists (c :: r), js, c'. split_and!; [rewrite Hd in *; by constructor| |done].
    rewrite Hchar in *. by rewrite <- app_assoc in G2.
Qed.
End replace_computes.

Lemma computes_mmap_Forall2 {A B} I (f : A -> M B) l ys :
  Forall2 (fun x y => computes I (f x) y) l ys -> computes I (mmap f l) ys.
Proof.
  induction 1 as [|x y l ys Hx _ IH]; simpl; [apply computes_ret|].
  eapply computes_bind; [exact Hx|]. eapply computes_bind; [exact IH|apply computes_ret].
Qed.

(** C23: [builtins.replaceStrings] replaces from left to right, at each position
    the first pattern of the list that occurs there, the empty pattern before
    every character and at the end; every replacement is inserted as it is, and
    the context of the result is that of the string and of the replacements
    that were used, however often the cache is consulted. *)
Theorem replaceStrings_replaces R I from to s lf fs lt tos ctxs str context :
  computes I (forceList R from) lf -> computes I (forceList R to) lt -> length lf = length lt ->
  Forall2 (fun a x => exists c, computes I (forceString R a) (x, c)) lf fs ->
  (forall j a, lt !! j = Some a -> computes I (forceString R a) (tos j, ctxs j)) ->
  computes I (forceString R s) (str, context) ->
  exists r js context',
    computes I (prim_replaceStrings R from to s) (mkString r context') /\
    replaced fs tos str r js /\ (forall r' js', replaced fs tos str r' js' -> r' = r) /\
    forall e, e ∈ context' <-> e ∈ context \/ exists j, j ∈ js /\ e ∈ ctxs j.
Proof.
  intros Hf Ht Hlen Hfs Hto Hs. assert (Hl := Forall2_length _ _ _ Hfs).
  destruct (replace_loop_computes R I fs lt tos ctxs str) with (fuel := length str + 2) (p := 0)
    (cache := @nil (nat * bytes)) (context := context) (res := @nil ascii) as (r & js & context' & H1 & H2 & H3);
    [congruence|done|lia|lia|done|].
  exists r, js, context'. split_and!; [|done| |done].
  - unfold prim_replaceStrings. eapply computes_bind; [exact Hf|]. eapply computes_bind; [exact Ht|].
    rewrite Hlen, Nat.eqb_refl. cbn [negb]. eapply computes_bind.
    { apply computes_mmap_Forall2. eapply Forall2_impl; [exact Hfs|]. intros a x [c Hc].
      eapply computes_bind; [exact Hc|apply computes_ret]. }
    eapply computes_bind; [exact Hs|]. eapply computes_bind; [exact H2|apply computes_ret].
  - intros r' js' H'. by destruct (replaced_unique _ _ _ _ _ _ _ H' H1).
Qed.

(** [replaceStrings [ "a" (empty) ] [ "b" "-" ] "ac"]: addresses 4 to 7 hold the
    strings, 8 and 9 the lists, 10 the argument. *)
Definition example_replace : EvalState :=
  snd ((let! a := allocValue (VString (L "a") []) in let! e := allocValue (VString [] []) in
   let! b := allocValue (VString (L "b") [L "x"]) in let! m := allocValue (VString (L "-") []) in
   let! _ := allocValue (VList [a; e]) in let! _ := allocValue (VList [b; m]) in
   allocValue (VString (L "ac") [])) (initial_state [] [])).

Lemma replaceStrings_replaces_witness :
  exists r js context',
    computes (eq example_replace) (prim_replaceStrings (evaluator 100 (L "/nix/store") (fun _ => throw Error) 3) 8 9 10)
      (mkString r context') /\
    replaced [L "a"; []] (fun j => if (j =? 0) then L "b" else L "-") (L "ac") r js /\
    forall e, e ∈ context' <-> e ∈ @nil bytes \/ exists j, j ∈ js /\ e ∈ (if (j =? 0) then [L "x"] else []).
Proof.
  destruct (replaceStrings_replaces (evaluator 100 (L "/nix/store") (fun _ => throw Error) 3) (eq example_replace) 8 9 10
    [4; 5]%N [L "a"; []] [6; 7]%N (fun j => if (j =? 0) then L "b" else L "-")
    (fun j => if (j =? 0) then [L "x"] else []) (L "ac") []) as (r & js & c & H1 & H2 & _ & H3).
  - computes_eq.
  - computes_eq.
  - done.
  - repeat constructor; eexists; computes_eq.
  - intros [|[|j]] a [= <-]; computes_eq.
  - computes_eq.
  - by exists r, js, c.
Defined.

Abbreviation Ex := (evaluator 100 (L "/nix/store") (fun _ => throw Error)).

(** ** Rounding *)

(** C28: [builtins.floor] and [builtins.ceil] yield the next lower and the next
    higher integer of a float, exactly, where these fit 64 bits; for a larger
    float, an infinity or NaN, the conversion to an integer is undefined
    behaviour instead of an evaluation error. *)
Theorem rounding_out_of_range R p f st st1 :
  forceFloat R p st = (Ok f, st1) ->
  match f with
  | S754_zero _ => prim_floor R p st = (Ok (VInt 0), st1) /\ prim_ceil R p st = (Ok (VInt 0), st1)
  | S754_finite s m e =>
      let z := ((if s then Zneg m else Zpos m) * 2 ^ Z.max 0 e)%Z in
      let d := (2 ^ Z.max 0 (- e))%Z in
      exists lo hi : Z,
        (lo * d <= z < (lo + 1) * d)%Z /\ ((hi - 1) * d < z <= hi * d)%Z /\
        prim_floor R p st = (if i64_fits lo then Ok (VInt lo) else Err UndefinedBehaviour, st1) /\
        prim_ceil R p st = (if i64_fits hi then Ok (VInt hi) else Err UndefinedBehaviour, st1)
  | _ => prim_floor R p st = (Err UndefinedBehaviour, st1) /\ prim_ceil R p st = (Err UndefinedBehaviour, st1)
  end.
Proof.
  intros Hf. unfold prim_floor, prim_ceil, ebind. rewrite Hf. destruct f as [s| s| |s m e]; simpl; [done..|].
  set (z := if s then Zneg m else Zpos m). destruct (Z.leb_spec 0 e) as [He|He].
  - exists (z * 2 ^ e)%Z, (z * 2 ^ e)%Z. rewrite (Z.max_r 0 e), (Z.max_l 0 (- e)), Z.pow_0_r by lia.
    split_and!; [lia..| |]; by destruct (i64_fits _).
  - exists (z / 2 ^ (- e))%Z, (- (- z / 2 ^ (- e)))%Z. rewrite (Z.max_l 0 e), (Z.max_r 0 (- e)), Z.pow_0_r, Z.mul_1_r by lia.
    assert (Hd : (0 < 2 ^ (- e))%Z) by (apply Z.pow_pos_nonneg; lia). set (d := (2 ^ (- e))%Z) in *.
    assert (H1 := Z.mul_div_le z d Hd). assert (H2 := Z.mul_succ_div_gt z d Hd).
    assert (H3 := Z.mul_div_le (- z) d Hd). assert (H4 := Z.mul_succ_div_gt (- z) d Hd).
    split_and!; [lia..| |]; by destruct (i64_fits _).
Qed.

(** The float [1e19]. *)
Definition example_float : EvalState :=
  snd (allocValue (VFloat (f64_of_int (10 ^ 19))) (initial_state [] [])).

Lemma rounding_out_of_range_witness :
  exists R, prim_floor R 4 example_float = (Err UndefinedBehaviour, example_float) /\
            prim_ceil R 4 example_float = (Err UndefinedBehaviour, example_float).
Proof.
  exists (Ex 2).
  assert (H := rounding_out_of_range (Ex 2) 4 (f64_of_int (10 ^ 19)) example_float example_float ltac:(vm_compute; reflexivity)).
  remember (f64_of_int (10 ^ 19)) as f eqn:E. vm_compute in E. subst f. cbv zeta in H.
  destruct H as (lo & hi & Hlo & Hhi & -> & ->).
  change (2 ^ Z.max 0 (- (11)))%Z with 1%Z in Hlo, Hhi. change (2 ^ Z.max 0 11)%Z with 2048%Z in Hlo, Hhi.
  replace lo with 10000000000000000000%Z by lia. replace hi with 10000000000000000000%Z by lia. by split.
Defined.
