(* ===== verification/ClosureSpec.v ===== *)
(** * Closures (libexpr/primops.cc, [builtins.genericClosure])

    The elements of a closure are values that denote nodes of a graph; the
    operator may build new values each time it is called. [elem st p k] says
    that in state [st] the value at [p] is an element for node [k], and [key st p
    k] that it is the key of such an element. The closure of the nodes is
    computed, for every such reading of the values. *)

From Stdlib Require Import SpecFloat Sorting.Sorted.
From stdpp Require Import gmap.
From S2P Require Import Prelude.
From S2P Require Import Containers.
From S2P Require Import StorePath.
From S2P Require Import Expr.
From S2P Require Import Values.
From S2P Require Import Eval.
From S2P Require Import Primops.
From S2P Require Import ListPrimops.
From S2P Require Import Evaluator.
From S2P Require Import EvalInv.
From S2P Require Import EvalFuel.
From S2P Require Import EvalResults.
From S2P Require Import EvalKeep.
From S2P Require Import PrimopsSpec.

(** ** Sorted keys *)

Section keys.
Context {K : Type} (lt : K -> K -> bool) (U : list K) (Hlt : strict_weak lt U).

Definition covered (l : list K) (x : K) : Prop := exists y, y ∈ l /\ equivalent lt x y = true.
Definition increasing (l : list K) : Prop := StronglySorted (fun a b => lt a b = true) l.

Lemma lt_trans a b c : a ∈ U -> b ∈ U -> c ∈ U -> lt a b = true -> lt b c = true -> lt a c = true.
Proof.
  intros Ha Hb Hc Hab Hbc. destruct (lt a c) eqn:E; [done|].
  assert (lt c b = false) by (by apply (sw_asym _ _ Hlt)).
  assert (lt a b = false) by (by eapply (sw_trans _ _ Hlt b c a)). congruence.
Qed.
Lemma equivalent_sym a b : equivalent lt a b = equivalent lt b a.
Proof. unfold equivalent. apply andb_comm. Qed.

Fixpoint keys_pure (e : K) (ds : list K) : option (list K) :=
  match ds with
  | [] => Some [e]
  | d :: ds' =>
      if lt e d then Some (e :: ds)
      else if lt d e then match keys_pure e ds' with Some ds' => Some (d :: ds') | None => None end
      else None
  end.
Lemma keys_pure_spec e ds : e ∈ U -> Forall (fun d => d ∈ U) ds -> increasing ds ->
  match keys_pure e ds with
  | Some ds' => ds' ≡ₚ e :: ds /\ increasing ds' /\ ~ covered ds e
  | None => covered ds e
  end.
Proof.
  intros He. induction ds as [|d ds IH]; simpl; intros Hds Hs.
  { split_and!; [done|by repeat constructor|]. intros (y & Hy & _). by apply elem_of_nil in Hy. }
  apply Forall_cons in Hds as [Hd Hds]. apply StronglySorted_inv in Hs as [Hs Hf].
  rewrite Forall_forall in Hf, Hds. destruct (lt e d) eqn:Hed.
  - split_and!; [done| |].
    + constructor; [constructor; [done|by apply Forall_forall]|]. constructor; [done|].
      apply Forall_forall. intros x Hx. eapply (lt_trans e d x); auto.
    + intros (y & [->|Hy]%elem_of_cons & Heq); unfold equivalent in Heq; apply andb_true_iff in Heq as [Heq _].
      * by rewrite Hed in Heq.
      * rewrite (lt_trans e d y) in Heq by auto. done.
  - destruct (lt d e) eqn:Hde.
    + specialize (IH (proj2 (Forall_forall _ _) Hds) Hs). destruct (keys_pure e ds) as [ds'|].
      * destruct IH as (Hp & Hi & Hn). split_and!; [rewrite Hp; constructor| |].
        -- constructor; [done|]. rewrite Hp. constructor; [done|by apply Forall_forall].
        -- intros (y & [->|Hy]%elem_of_cons & Heq); [|by apply Hn; exists y].
           unfold equivalent in Heq. rewrite Hde, andb_comm in Heq. done.
      * destruct IH as (y & Hy & Heq). exists y. split; [by right|done].
    + exists d. split; [by left|]. unfold equivalent. by rewrite Hed, Hde.
Qed.
Lemma increasing_NoDup ds : Forall (fun d => d ∈ U) ds -> increasing ds -> NoDup ds.
Proof.
  induction ds as [|d ds IH]; intros HU Hs; [constructor|]. apply Forall_cons in HU as [Hd HU].
  apply StronglySorted_inv in Hs as [Hs Hf]. rewrite Forall_forall in Hf. constructor; [|by apply IH].
  intros Hin. assert (H := Hf d Hin). assert (H' := sw_asym _ _ Hlt d d Hd Hd H). congruence.
Qed.
Lemma covered_mono l l' x : l ⊆ l' -> covered l x -> covered l' x.
Proof. intros Hl (y & Hy & He). exists y. auto. Qed.
End keys.


(** ** Runs *)

Section runs.
Context {K : Type} (elem key : EvalState -> addr -> K -> Prop).

(** What values denote does not change. *)
Record unharmed (st st' : EvalState) : Prop := {
  uh_elem p k : elem st p k -> elem st' p k;
  uh_key p k : key st p k -> key st' p k;
}.
(** [m] returns, with a result and a state that satisfy [Q]. *)
Definition runs {A} (st : EvalState) (m : M A) (Q : EvalState -> A -> Prop) : Prop :=
  exists a st', m st = (Ok a, st') /\ unharmed st st' /\ Q st' a.

Lemma unharmed_refl st : unharmed st st.
Proof. by split. Qed.
Lemma unharmed_trans st1 st2 st3 : unharmed st1 st2 -> unharmed st2 st3 -> unharmed st1 st3.
Proof. intros [E1 K1] [E2 K2]. split; auto. Qed.
Lemma unharmed_elems st st' l ks : unharmed st st' -> Forall2 (elem st) l ks -> Forall2 (elem st') l ks.
Proof. intros H Hl. eapply Forall2_impl; [exact Hl|apply H]. Qed.
Lemma unharmed_keys st st' l ks : unharmed st st' -> Forall2 (key st) l ks -> Forall2 (key st') l ks.
Proof. intros H Hl. eapply Forall2_impl; [exact Hl|apply H]. Qed.

Lemma runs_ret {A} st (a : A) (Q : EvalState -> A -> Prop) : Q st a -> runs st (ret a) Q.
Proof. intros H. exists a, st. split_and!; [done|apply unharmed_refl|done]. Qed.
Lemma runs_ret_bind {A B} st (a : A) (k : A -> M B) Q : runs st (k a) Q -> runs st (ebind (ret a) k) Q.
Proof. done. Qed.
Lemma runs_bind {A B} st (m : M A) (k : A -> M B) Q P :
  runs st m Q -> (forall st' a, unharmed st st' -> Q st' a -> runs st' (k a) P) -> runs st (ebind m k) P.
Proof.
  intros (a & st1 & H1 & Hu & HQ) Hk. destruct (Hk st1 a Hu HQ) as (b & st2 & H2 & Hu2 & HP).
  exists b, st2. unfold ebind. rewrite H1. split_and!; [done|by eapply unharmed_trans|done].
Qed.
(** Three steps, of which the last one's result goes on. *)
Lemma runs_bind3 {A B C E} st (m : M A) (f : A -> M B) (g : B -> M C) (k : C -> M E) Q P :
  runs st (let! v := m in let! p := f v in g p) Q -> (forall st' c, unharmed st st' -> Q st' c -> runs st' (k c) P) ->
  runs st (let! v := m in let! p := f v in let! l := g p in k l) P.
Proof.
  intros (c & st1 & H1 & Hu & HQ) Hk. destruct (Hk st1 c Hu HQ) as (b & st2 & H2 & Hu2 & HP).
  exists b, st2. split_and!; [|by eapply unharmed_trans|done]. unfold ebind in *.
  destruct (m st) as [[v|] st3]; [|done]. destruct (f v st3) as [[p|] st4]; [|done]. by rewrite H1.
Qed.
Lemma runs_mono {A} st (m : M A) Q P : runs st m Q -> (forall st' a, Q st' a -> P st' a) -> runs st m P.
Proof. intros (a & st1 & H1 & Hu & HQ) HP. exists a, st1. auto. Qed.
Lemma runs_le {A} st (m m' : M A) Q : runs st m Q -> mle m m' -> runs st m' Q.
Proof.
  intros (a & st1 & H1 & Hu & HQ) Hle. exists a, st1. split_and!; [|done..].
  destruct (Hle st) as [H|H]; [rewrite H1 in H; done|by rewrite H].
Qed.
End runs.

(** ** Graphs and their closures *)

(** What the evaluator computes, with fuel [m] or more, on elements for the
    nodes in [U]: the key of an element, the order of the keys, the elements for
    the successors of a node, at most [D] of them. *)
Record closure_graph {K} (Rn : nat -> Rec) (op : addr) (elem key : EvalState -> addr -> K -> Prop) (U : list K)
    (lt : K -> K -> bool) (next : K -> list K) (m D : nat) : Prop := {
  cg_key n st e k : m <= n -> k ∈ U -> elem st e k ->
    runs elem key st (let! b := forceAttrs (Rn n) e in let! p := getAttr sKey b in let! _ := r_forceValue (Rn n) p in ret p)
      (fun st' p => key st' p k);
  cg_compare n st p q j k : m <= n -> j ∈ U -> k ∈ U -> key st p j -> key st q k ->
    runs elem key st (r_compareValues (Rn n) p q) (fun _ b => b = lt j k);
  cg_next n st e k : m <= n -> k ∈ U -> elem st e k ->
    runs elem key st (let! v := r_callFunction (Rn n) op [e] in let! p := allocValue v in forceList (Rn n) p)
      (fun st' l => Forall2 (elem st') l (next k));
  cg_force n st e k : m <= n -> k ∈ U -> elem st e k -> runs elem key st (r_forceValue (Rn n) e) (fun _ _ => True);
  cg_order : strict_weak lt U;
  cg_closed k j : k ∈ U -> j ∈ next k -> j ∈ U;
  cg_degree k : k ∈ U -> length (next k) <= D;
}.

(** Reachable from [start] by [next]. *)
Inductive reaches {K} (start : list K) (next : K -> list K) : K -> Prop :=
| reaches_start x : x ∈ start -> reaches start next x
| reaches_next e x : reaches start next e -> x ∈ next e -> reaches start next x.

(** [res] is the closure of [start], with one node for each key. *)
Record is_closure {K} (lt : K -> K -> bool) (start : list K) (next : K -> list K) (res : list K) : Prop := {
  ic_start x : x ∈ start -> covered lt res x;
  ic_next e x : e ∈ res -> x ∈ next e -> covered lt res x;
  ic_reached x : x ∈ res -> reaches start next x;
  ic_distinct : exists ds, ds ≡ₚ res /\ increasing lt ds;
}.

Section closures.
Context (maxCallDepth : nat) (storeDir : bytes) (fetchToStore : bytes -> result StorePath).
Abbreviation Rn := (evaluator maxCallDepth storeDir fetchToStore).
Context {K : Type} (elem key : EvalState -> addr -> K -> Prop) (op : addr) (U start : list K) (m D : nat).
Context (lt : K -> K -> bool) (next : K -> list K).
Context (G : closure_graph Rn op elem key U lt next m D).
#[local] Notation runs := (runs elem key).
#[local] Notation unharmed := (unharmed elem key).

(** [doneKeys.insert] on keys that denote [ds]. *)
Definition inserted (st : EvalState) (o : option (list addr)) (r : option (list K)) : Prop :=
  match o, r with
  | Some l, Some ds => Forall2 (key st) l ds
  | None, None => True
  | _, _ => False
  end.
Lemma keys_insert_runs n st p k l ds : m <= n -> k ∈ U -> Forall (fun d => d ∈ U) ds ->
  key st p k -> Forall2 (key st) l ds ->
  runs st (keys_insert (Rn n) p l) (fun st' o => inserted st' o (keys_pure lt k ds)).
Proof.
  intros Hn Hk. revert st ds. induction l as [|q l IH]; intros st ds Hds Hp Hl.
  { apply Forall2_nil_inv_l in Hl as ->. apply runs_ret. by constructor. }
  apply Forall2_cons_inv_l in Hl as (d & ds' & Hq & Hl' & ->).
  apply Forall_cons in Hds as [Hd Hds]. cbn [keys_insert keys_pure].
  eapply runs_bind; [by apply (cg_compare _ _ _ _ _ _ _ _ _ G n st p q k d)|]. intros st1 b Hu1 ->.
  destruct (lt k d).
  { apply runs_ret. constructor; [by apply Hu1|]. constructor; [by apply Hu1|by eapply unharmed_keys]. }
  eapply runs_bind; [apply (cg_compare _ _ _ _ _ _ _ _ _ G n st1 q p d k); [done..|by apply Hu1|by apply Hu1]|].
  intros st2 b Hu2 ->. assert (Hu := unharmed_trans _ _ _ _ _ Hu1 Hu2). destruct (lt d k); [|by apply runs_ret].
  eapply runs_bind; [apply IH; [done|by apply Hu|by eapply unharmed_keys]|]. intros st3 o Hu3 Ho. apply runs_ret.
  destruct o as [l3|], (keys_pure lt k ds') as [ds3|]; try done. cbn in *. constructor; [|done]. by apply Hu3, Hu.
Qed.

(** The invariant of the loop, on the nodes. *)
Record closure_inv (W ds res : list K) : Prop := {
  ci_work : Forall (fun x => x ∈ U) W;
  ci_done : Forall (fun x => x ∈ U) ds;
  ci_res : ds ≡ₚ res;
  ci_sorted : increasing lt ds;
  ci_start x : x ∈ start -> covered lt res x \/ x ∈ W;
  ci_next e x : e ∈ res -> x ∈ next e -> covered lt res x \/ x ∈ W;
  ci_reached x : x ∈ res \/ x ∈ W -> reaches start next x;
}.

(** An element whose key is known is dropped. *)
Lemma closure_inv_skip e W ds res : closure_inv (e :: W) ds res -> covered lt res e -> closure_inv W ds res.
Proof.
  intros [H1 H2 H3 H4 H5 H6 H7] He. split; try done.
  - by apply Forall_cons in H1 as [_ H1].
  - intros x Hx. destruct (H5 x Hx) as [?|[->|?]%elem_of_cons]; auto.
  - intros y x Hy Hx. destruct (H6 y x Hy Hx) as [?|[->|?]%elem_of_cons]; auto.
  - intros x [Hx|Hx]; apply H7; [by left|right; by right].
Qed.
(** A new element is added, and its successors are put on the list. *)
Lemma closure_inv_add e W ds ds' res : closure_inv (e :: W) ds res -> ds' ≡ₚ e :: ds -> increasing lt ds' ->
  closure_inv (W ++ next e) ds' (e :: res).
Proof.
  intros [H1 H2 H3 H4 H5 H6 H7] Hp Hs. apply Forall_cons in H1 as [He H1].
  assert (Heq : equivalent lt e e = true).
  { assert (lt e e = false); [|unfold equivalent; by rewrite H]. destruct (lt e e) eqn:E; [|done].
    assert (H := sw_asym _ _ (cg_order _ _ _ _ _ _ _ _ _ G) e e He He E). congruence. }
  assert (Hcov : covered lt (e :: res) e) by (exists e; split; [by left|done]).
  assert (Hmono : forall x, covered lt res x \/ x ∈ e :: W -> covered lt (e :: res) x \/ x ∈ W ++ next e).
  { intros x [Hx|[->|Hx]%elem_of_cons]; [left|by left|right; apply elem_of_app; by left].
    eapply covered_mono; [|exact Hx]. set_solver. }
  split.
  - apply Forall_app. split; [done|]. apply Forall_forall. intros x Hx. by eapply (cg_closed _ _ _ _ _ _ _ _ _ G).
  - rewrite Hp. by constructor.
  - by rewrite Hp, H3.
  - done.
  - auto.
  - intros y x [->|Hy]%elem_of_cons Hx; [right; apply elem_of_app; by right|]. apply Hmono. by eapply H6.
  - intros x Hx. rewrite elem_of_cons, elem_of_app in Hx.
    assert (Hre : reaches start next e) by (apply H7; right; by left).
    destruct Hx as [[->|Hx]|[Hx|Hx]]; [done|apply H7; by left|apply H7; right; by right|by eapply reaches_next].
Qed.

(** At the end the keys of the start set and of all successors are there. *)
Lemma closure_inv_done ds res : closure_inv [] ds res -> is_closure lt start next (reverse res).
Proof.
  intros [_ _ H3 H4 H5 H6 H7].
  assert (Hc : forall x, covered lt res x \/ x ∈ @nil K -> covered lt (reverse res) x).
  { intros x [Hx|Hx%elem_of_nil]; [|done]. eapply covered_mono; [|exact Hx]. intros y. by rewrite elem_of_reverse. }
  split; [auto|intros y x; rewrite elem_of_reverse; eauto|intros x; rewrite elem_of_reverse; auto|].
  exists ds. by rewrite reverse_Permutation.
Qed.
Lemma closure_inv_length W ds res : closure_inv W ds res -> length res <= length U.
Proof.
  intros Hinv. rewrite <- (ci_res _ _ _ Hinv). apply submseteq_length, NoDup_submseteq.
  - eapply increasing_NoDup; [apply G|apply Hinv|apply Hinv].
  - intros x Hx. assert (HU := ci_done _ _ _ Hinv). rewrite Forall_forall in HU. auto.
Qed.

(** The addresses that the loop works on denote [W], [ds] and [res]. *)
Record denotes (st : EvalState) (workSet doneKeys resAddrs : list addr) (W ds res : list K) : Prop := {
  dn_work : Forall2 (elem st) workSet W;
  dn_done : Forall2 (key st) doneKeys ds;
  dn_res : Forall2 (elem st) resAddrs res;
}.
Lemma denotes_later st st' a b c W ds res : unharmed st st' -> denotes st a b c W ds res -> denotes st' a b c W ds res.
Proof. intros Hu [H1 H2 H3]. split; [by eapply unharmed_elems|by eapply unharmed_keys|by eapply unharmed_elems]. Qed.

Lemma force_elems_runs n st l ks : m <= n -> Forall (fun k => k ∈ U) ks -> Forall2 (elem st) l ks ->
  runs st (mmap (r_forceValue (Rn n)) l) (fun _ _ => True).
Proof.
  intros Hn. revert st ks. induction l as [|e l IH]; intros st ks HU Hl; [by apply runs_ret|].
  apply Forall2_cons_inv_l in Hl as (k & ks' & He & Hl' & ->). apply Forall_cons in HU as [Hk HU].
  cbn [mmap]. eapply runs_bind; [by eapply (cg_force _ _ _ _ _ _ _ _ _ G)|]. intros st1 v Hu1 _.
  eapply runs_bind; [eapply IH; [exact HU|by eapply unharmed_elems]|]. intros. by apply runs_ret.
Qed.

(** One round of the loop: up to the insertion of the key, and after it. *)
Definition closure_after (n : nat) (e : addr) (workSet doneKeys res : list addr) (o : option (list addr)) :
    M (list addr) :=
  match o with
  | None => r_closure (Rn n) op workSet doneKeys res
  | Some doneKeys =>
      let! v := r_callFunction (Rn n) op [e] in let! p := allocValue v in let! l := forceList (Rn n) p in
      let! _ := mmap (r_forceValue (Rn n)) l in r_closure (Rn n) op (workSet ++ l) doneKeys (e :: res)
  end.
Lemma closure_step_runs n st e k Wa W da ds ra res Q : m <= n -> k ∈ U -> Forall (fun x => x ∈ U) ds ->
  elem st e k -> denotes st Wa da ra W ds res ->
  (forall st' o, unharmed st st' -> inserted st' o (keys_pure lt k ds) ->
     runs st' (closure_after n e Wa da ra o) Q) ->
  runs st (closure_loop (Rn n) op (e :: Wa) da ra) Q.
Proof.
  intros Hn Hk Hds He Hd Hnext. destruct (cg_key _ _ _ _ _ _ _ _ _ G n st e k Hn Hk He) as (p & st1 & Hkey & Hu1 & Hp).
  assert (Hi : runs st1 (keys_insert (Rn n) p da) (fun st' o => inserted st' o (keys_pure lt k ds))).
  { eapply keys_insert_runs; [done..|]. by eapply unharmed_keys, Hd. }
  destruct (runs_bind _ _ st1 _ (closure_after n e Wa da ra) _ Q Hi) as (out & st2 & Hout & Hu2 & HQ).
  { intros st' o Hu. apply Hnext. by eapply unharmed_trans. }
  exists out, st2. split_and!; [|by eapply unharmed_trans|done]. cbn [closure_loop]. revert Hkey Hout. unfold ebind.
  destruct (forceAttrs (Rn n) e st) as [[b|] st3]; [|done]. destruct (getAttr sKey b st3) as [[q|] st4]; [|done].
  destruct (r_forceValue (Rn n) q st4) as [[v|] st5]; [|done]. intros [= -> ->]. done.
Qed.

Lemma closure_loop_runs k n st Wa da ra W ds res :
  closure_inv W ds res -> denotes st Wa da ra W ds res ->
  length W + D * (length U - length res) <= k -> m + k < n ->
  runs st (r_closure (Rn n) op Wa da ra) (fun st' out => exists ks, Forall2 (elem st') out ks /\ is_closure lt start next ks).
Proof.
  revert n st Wa da ra W ds res. induction k as [k IH] using lt_wf_ind; intros n st Wa da ra W ds res Hinv Hd Hk Hn.
  destruct n as [|n]; [lia|]. change (r_closure (Rn (S n))) with (closure_loop (Rn n)).
  destruct Hd as [HW Hds Hres]. destruct Wa as [|e Wa'].
  { apply Forall2_nil_inv_l in HW as ->. apply runs_ret. exists (reverse res). split; [by apply Forall2_reverse|]. by apply closure_inv_done with ds. }
  apply Forall2_cons_inv_l in HW as (k0 & W' & He & HW' & ->).
  assert (Hk0 : k0 ∈ U) by (apply (Forall_inv (ci_work _ _ _ Hinv))).
  assert (Hpure := keys_pure_spec lt U (cg_order _ _ _ _ _ _ _ _ _ G) k0 ds Hk0 (ci_done _ _ _ Hinv) (ci_sorted _ _ _ Hinv)).
  eapply (closure_step_runs n st e k0 Wa' W' da ds ra res); [lia|done|apply Hinv|done|by split|]. intros st1 o Hu1 Ho. simpl in Hk. unfold closure_after.
  destruct o as [da'|], (keys_pure lt k0 ds) as [ds'|]; try done.
  - destruct Hpure as (Hp & Hs & _). assert (Hinv' := closure_inv_add k0 W' ds ds' res Hinv Hp Hs).
    assert (Hlen := closure_inv_length _ _ _ Hinv'). assert (HD := cg_degree _ _ _ _ _ _ _ _ _ G k0 Hk0). simpl in Hlen.
    assert (Hnx := cg_next _ _ _ _ _ _ _ _ _ G n st1 e k0 ltac:(lia) Hk0 (uh_elem _ _ _ _ Hu1 _ _ He)).
    eapply runs_bind3; [exact Hnx|]. intros st2 l Hu2 Hl.
    assert (HUl : Forall (fun j => j ∈ U) (next k0))
      by (apply Forall_forall; intros j Hj; by eapply (cg_closed _ _ _ _ _ _ _ _ _ G)).
    eapply runs_bind; [eapply (force_elems_runs n st2 l (next k0)); [lia|done..]|]. intros st3 vs Hu3 _.
    assert (Hu12 := unharmed_trans _ _ _ _ _ Hu1 Hu2). assert (Hu := unharmed_trans _ _ _ _ _ Hu12 Hu3).
    assert (Hu23 := unharmed_trans _ _ _ _ _ Hu2 Hu3).
    eapply (IH (k - 1)); [lia|exact Hinv'| | |lia].
    + split; [apply Forall2_app; [exact (unharmed_elems _ _ _ _ _ _ Hu HW')|exact (unharmed_elems _ _ _ _ _ _ Hu3 Hl)]| |].
      * exact (unharmed_keys _ _ _ _ _ _ Hu23 Ho).
      * constructor; [by apply Hu|exact (unharmed_elems _ _ _ _ _ _ Hu Hres)].
    + rewrite length_app. simpl. assert (D * (length U - S (length res)) + D = D * (length U - length res)) by nia. lia.
  - eapply (IH (k - 1)) with (W := W') (ds := ds) (res := res);
      [clear - Hk; destruct k; [inversion Hk|lia]| | |clear - Hk; remember (D * _); lia|clear - Hk Hn; remember (D * _); lia].
    + eapply closure_inv_skip; [exact Hinv|]. eapply covered_mono; [|exact Hpure]. intros x. by rewrite (ci_res _ _ _ Hinv).
    + eapply denotes_later; [exact Hu1|]. by split.
Qed.
End closures.

(** ** Claims *)

(** C24: [builtins.genericClosure] computes closures and terminates. Take any
    reading of values as elements for nodes of a graph and as their keys that
    evaluations of the set do not change: the operator, called on an element for
    a node, returns elements for the successors of the node, in new values or
    old ones, and comparing keys is a strict weak order of the nodes. If the
    nodes that can be reached are finitely many, with at most [D] successors
    each, then, with fuel for one round per element of the start set and per
    successor, the result has elements for nodes such that the keys of the start
    set and of all successors are among theirs, no two have equal keys, and all
    are reachable from the start set. *)
Theorem genericClosure_closes {K} maxCallDepth storeDir fetchToStore (elem key : EvalState -> addr -> K -> Prop) op
    (U start : list K) lt next m D n arg st :
  let Rn := evaluator maxCallDepth storeDir fetchToStore in
  closure_graph Rn op elem key U lt next m D -> start ⊆ U ->
  runs elem key st (forceAttrs (Rn n) arg) (fun st1 b =>
    attrs_get sOperator b = Some op /\ exists s, attrs_get sStartSet b = Some s /\
    runs elem key st1 (forceList (Rn n) s) (fun st2 l => Forall2 (elem st2) l start /\
      runs elem key st2 (forceFunction (Rn n) op) (fun _ _ => True))) ->
  m + length start + D * length U < n ->
  runs elem key st (prim_genericClosure (Rn n) arg) (fun st' v => exists res ks,
    v = VList res /\ Forall2 (elem st') res ks /\ is_closure lt start next ks).
Proof.
  intros Rn G HU Harg Hn. unfold prim_genericClosure.
  eapply runs_bind; [exact Harg|]. intros st1 b Hu1 (Ho & s & Hs & Hl). unfold getAttr. rewrite Hs, Ho.
  apply runs_ret_bind.
  eapply runs_bind; [exact Hl|]. intros st2 l Hu2 [Hls Hf]. case_bool_decide as Hnil.
  { subst l. apply Forall2_nil_inv_l in Hls. subst start. apply runs_ret. exists [], []. split_and!; [done|done|].
    split; try (intros *; by rewrite elem_of_nil). exists []. split; [done|constructor]. }
  apply runs_ret_bind.
  eapply runs_bind; [exact Hf|]. intros st3 ? Hu3 _.
  eapply runs_bind.
  { eapply (closure_loop_runs maxCallDepth storeDir fetchToStore elem key op U start m D lt next G
      (length start + D * length U) n st3 l [] [] start [] []).
    - split; [by apply Forall_forall|by apply Forall_nil_2|done|apply SSorted_nil| | |].
      + intros x Hx. by right.
      + intros e x He. by apply elem_of_nil in He.
      + intros x [Hx%elem_of_nil|Hx]; [done|by constructor].
    - split; [by eapply unharmed_elems|constructor..].
    - simpl. rewrite Nat.sub_0_r. done.
    - lia. }
  intros st4 res Hu4 (ks & Hks & Hc). apply runs_ret. by exists res, ks.
Qed.

(** [{ startSet = [ { key = 0; } ]; operator = x: [ { key = 1; } ]; }]: each call
    of the operator makes a new list of a new thunk. Addresses 4 to 8 hold the
    key, the element, the list, the function and the set. *)
Definition example_succ : Expr := ExprAttrs (mkAttrs false [(sKey, mkAttrDef Plain (ExprInt 1) 0)] None []).
Definition example_op : Value := VLambda 0%N (mkLambda (Some 52%Z) None (ExprList [example_succ])).
Definition example_alloc : M addr :=
  let! k := allocValue (VInt 0) in let! e := allocValue (VAttrs [(sKey, k)]) in let! s := allocValue (VList [e]) in
  let! op := allocValue example_op in allocValue (VAttrs [(sStartSet, s); (sOperator, op)]).
Definition example_closure : EvalState := snd (example_alloc (initial_state [] [])).

Record example_world (st : EvalState) : Prop := {
  xw_fresh : fresh_values st;
  xw_depth : es_callDepth st = 0;
  xw_op : es_values st !! 7%N = Some example_op;
}.
Definition example_key (st : EvalState) (p : addr) (k : Z) : Prop := example_world st /\ es_values st !! p = Some (VInt k).
(** An element is a set with a key, or a thunk of [{ key = 1; }]. *)
Definition example_elem (st : EvalState) (p : addr) (k : Z) : Prop :=
  example_world st /\
  ((exists a, es_values st !! p = Some (VAttrs [(sKey, a)]) /\ es_values st !! a = Some (VInt k)) \/
   (k = 1%Z /\ exists env, es_values st !! p = Some (VThunk env example_succ))).

(** What such evaluations do: add values, and evaluate thunks of successors. *)
Record example_grows (st st' : EvalState) : Prop := {
  xg_world : example_world st';
  xg_values p v : es_values st !! p = Some v -> es_values st' !! p = Some v \/
    (exists env, v = VThunk env example_succ) /\
    exists a, es_values st' !! p = Some (VAttrs [(sKey, a)]) /\ es_values st' !! a = Some (VInt 1);
}.
Lemma grows_unharmed st st' : example_grows st st' -> unharmed example_elem example_key st st'.
Proof.
  intros [Hw Hv]. split; intros p k [_ H]; (split; [done|]).
  - destruct H as [(a & Hp & Ha)|(-> & env & Hp)].
    + left. exists a. destruct (Hv _ _ Hp) as [?|[[? [=]] _]], (Hv _ _ Ha) as [?|[[? [=]] _]]. done.
    + destruct (Hv _ _ Hp) as [?|[_ (a & ? & ?)]]; [right; eauto|left; eauto].
  - by destruct (Hv _ _ H) as [?|[[? [=]] _]].
Qed.
Lemma example_grows_refl st : example_world st -> example_grows st st.
Proof. intros H. split; auto. Qed.

Lemma fresh_old st p v : fresh_values st -> es_values st !! p = Some v -> (p < es_nextValue st)%N.
Proof. intros Hf Hp. apply N.nle_gt. intros H. by rewrite Hf in Hp. Qed.

(** The thunk of a successor is evaluated. *)
Lemma example_force n st p env : example_world st -> es_values st !! p = Some (VThunk env example_succ) ->
  exists st' a, r_forceValue (Ex (S (S n))) p st = (Ok (VAttrs [(sKey, a)]), st') /\ example_grows st st' /\
    es_values st' !! p = Some (VAttrs [(sKey, a)]) /\ es_values st' !! a = Some (VInt 1).
Proof.
  intros [Hf Hd Ho] Hp. assert (Hne := fresh_old _ _ _ Hf Hp). assert (H7 := fresh_old _ _ _ Hf Ho).
  assert (H7p : p <> 7%N) by (intros ->; rewrite Ho in Hp; done).
  eexists _, (es_nextValue st). split_and!.
  - change (r_forceValue (Ex (S (S n)))) with (forceValue (Ex (S n))). unfold forceValue, read, ebind. rewrite Hp.
    cbn. reflexivity.
  - split; [split|]; cbn.
    + intros q Hq. cbn in *. rewrite !lookup_insert_ne by lia. apply Hf. lia.
    + done.
    + by rewrite !lookup_insert_ne by lia.
    + intros q v Hq. assert (Hnq := fresh_old _ _ _ Hf Hq).
      destruct (decide (q = p)) as [->|].
      * right. rewrite Hp in Hq. injection Hq as <-. split; [by eexists|]. exists (es_nextValue st).
        by rewrite lookup_insert_eq, lookup_insert_ne, lookup_insert_eq by lia.
      * left. by rewrite !lookup_insert_ne by lia.
  - cbn. by rewrite lookup_insert_eq.
  - cbn. by rewrite lookup_insert_ne, lookup_insert_eq by lia.
Qed.

(** The operator makes a list of one thunk. *)
Lemma example_next st e : example_world st ->
  exists st', (let! v := r_callFunction (Ex 3) 7 [e] in let! p := allocValue v in forceList (Ex 3) p) st
      = (Ok [es_nextValue st], st') /\
    example_grows st st' /\ exists env, es_values st' !! es_nextValue st = Some (VThunk env example_succ).
Proof.
  intros [Hf Hd Ho]. assert (H7 := fresh_old _ _ _ Hf Ho).
  eexists. split.
  - unfold ebind. change (r_callFunction (Ex 3)) with (callFunction (Ex 2) 100). unfold callFunction, with_callDepth.
    rewrite Hd. cbn. unfold ebind. cbn. unfold forceValue, read, ebind. cbn. rewrite Ho. cbn.
    unfold ebind, allocEnv. cbn. rewrite lookup_insert_eq. cbn.
    unfold forceList, ebind. cbn. unfold forceValue, read, ebind. cbn. rewrite lookup_insert_eq. cbn. reflexivity.
  - split.
    + split; [split|]; cbn.
      * intros q Hq. cbn in *. rewrite !lookup_insert_ne by lia. apply Hf. lia.
      * done.
      * by rewrite !lookup_insert_ne by lia.
      * intros q v Hq. left. assert (Hnq := fresh_old _ _ _ Hf Hq).
        by rewrite !lookup_insert_ne by lia.
    + cbn. eexists. by rewrite lookup_insert_ne, lookup_insert_eq by lia.
Qed.

(** An element of the example, forced. *)
Lemma example_element n st e k : example_elem st e k ->
  exists st' a, r_forceValue (Ex (S (S n))) e st = (Ok (VAttrs [(sKey, a)]), st') /\ example_grows st st' /\
    es_values st' !! a = Some (VInt k).
Proof.
  intros [Hw [(a & He & Ha)|(-> & env & He)]].
  - exists st, a. split_and!; [|by apply example_grows_refl|done]. by apply force_ready_value.
  - destruct (example_force n st e env Hw He) as (st' & a & ? & ? & ? & ?). eauto.
Qed.

Lemma example_graph : closure_graph Ex 7 example_elem example_key [0; 1]%Z Z.ltb (fun _ => [1%Z]) 3 1.
Proof.
  assert (Hle := evaluator_le 100 (L "/nix/store") (fun _ => throw Error) 3).
  split.
  - intros n st e k Hn _ He. destruct n as [|[|n]]; [lia..|].
    destruct (example_element n st e k He) as (st' & a & H1 & Hg & Ha). exists a, st'.
    split_and!; [|by apply grows_unharmed|by split; [apply Hg|]].
    assert (Hget : getAttr sKey [(sKey, a)] = ret a) by reflexivity.
    unfold forceAttrs, ebind. rewrite H1. unfold ret at 1. rewrite Hget. unfold ret.
    by rewrite (force_ready_value _ _ _ _ _ (VInt k)).
  - intros n st p q j k Hn _ _ [Hw Hp] [_ Hq]. destruct n as [|n]; [lia|]. exists (j <? k)%Z, st.
    split_and!; [by apply compare_ints|by apply grows_unharmed, example_grows_refl|done].
  - intros n st e k Hn _ [Hw _]. eapply runs_le.
    + destruct (example_next st e Hw) as (st' & H & Hg & env & Hv). exists [es_nextValue st], st'.
      split_and!; [exact H|by apply grows_unharmed|]. constructor; [|constructor]. split; [apply Hg|]. right. eauto.
    + apply mle_bind; [by apply le_call, Hle|]. intros v. apply mle_bind; [apply mle_refl|]. intros p.
      apply mle_forceList. by apply Hle.
  - intros n st e k Hn _ He. destruct n as [|[|n]]; [lia..|].
    destruct (example_element n st e k He) as (st' & a & H1 & Hg & Ha). exists (VAttrs [(sKey, a)]), st'.
    split_and!; [done|by apply grows_unharmed|done].
  - split; intros *; rewrite ?Z.ltb_lt, ?Z.ltb_ge; lia.
  - intros k j _ ->%list_elem_of_singleton. set_solver.
  - simpl. lia.
Qed.

Lemma genericClosure_closes_witness :
  runs example_elem example_key example_closure (prim_genericClosure (Ex 10) 8) (fun st' v => exists res ks,
    v = VList res /\ Forall2 (example_elem st') res ks /\ is_closure Z.ltb [0%Z] (fun _ => [1%Z]) ks).
Proof.
  assert (Hk : kept example_alloc) by (unfold example_alloc, example_op; kept_auto).
  assert (Hw : example_world example_closure).
  { split; [exact (evolves_fresh _ _ (Hk _ (initial_fresh [] [])))|done|done]. }
  assert (Hsame := grows_unharmed _ _ (example_grows_refl _ Hw)).
  apply (genericClosure_closes 100 (L "/nix/store") (fun _ => throw Error) example_elem example_key 7 [0; 1]%Z [0%Z] Z.ltb
    (fun _ => [1%Z]) 3 1 10 8 example_closure).
  - apply example_graph.
  - set_solver.
  - exists [(sStartSet, 6%N); (sOperator, 7%N)], example_closure. split_and!; [by vm_compute|done|done|].
    exists 6%N. split; [done|]. exists [5%N], example_closure. split_and!; [by vm_compute|done|..].
    { constructor; [|constructor]. split; [done|left; by exists 4%N]. }
    exists tt, example_closure. by split_and!.
  - simpl. lia.
Defined.
