(* ===== verification/ParserState.v ===== *)
(** * Actions of the parser (libexpr/parser-state.hh, parser.y)

    The actions that build attribute sets, check formal arguments and strip
    the indentation of strings. An [ExprInheritFrom] is an object that several
    attributes may share and that [addAttr] modifies: in the expressions of
    this file [ExprInheritFrom] carries the number of such an object, the list
    of displacements is the objects, and [resolve] reads them in the end. A
    set that is modified in place is returned. *)

From Stdlib Require Import SpecFloat Sorting.Sorted.
From stdpp Require Import gmap.
From S2P Require Import Prelude.
From S2P Require Import Containers.
From S2P Require Import StorePath.
From S2P Require Import Expr.
From S2P Require Import Scoping.
From S2P Require Import Values.
From S2P Require Import Eval.
From S2P Require Import Primops.
From S2P Require Import ListPrimops.
From S2P Require Import StringPrimops.
From S2P Require Import Evaluator.

(** ** Sets *)

(** The displacements of the [ExprInheritFrom] objects. *)
Abbreviation Froms := (list Displacement).

Abbreviation AttrDefs := (list (Symbol * AttrDef Expr)).

Fixpoint attrs_insert (s : Symbol) (d : AttrDef Expr) (l : AttrDefs) : AttrDefs :=
  match l with
  | [] => [(s, d)]
  | (t, e) :: l' =>
      if (s <? t)%Z then (s, d) :: l
      else if (t <? s)%Z then (t, e) :: attrs_insert s d l'
      else (s, d) :: l'
  end.

Definition empty_attrs : Attrs Expr := mkAttrs false [] None [].

(** [from.displ += n] of the object that the attribute selects from. *)
Definition shift_from (d : AttrDef Expr) (n : nat) (froms : Froms) : result Froms :=
  match ad_kind d with
  | InheritedFrom =>
      match ad_e d with
      | ExprSelect (ExprInheritFrom id) _ _ =>
          match froms !! id with
          | Some displ => Ok (<[id := displ + n]> froms)
          | None => Err UndefinedBehaviour
          end
      | _ => throw Error (* std::bad_cast *)
      end
  | _ => Ok froms
  end.

(** Appending to [inheritFromExprs]. *)
Definition from_append (from1 from2 : option (list Expr)) : option (list Expr) :=
  match from2 with
  | Some l2 => Some (default [] from1 ++ l2)
  | None => from1
  end.

(** The second [addAttr]: add the definition [k], [e] of [symbol]. *)
Fixpoint add_def (froms : Froms) (attrs : AttrDefs) (symbol : Symbol) (k : Kind) (e : Expr) {struct e} :
    result (Froms * AttrDefs) :=
  match smap_lookup symbol attrs with
  | None => Ok (froms, attrs_insert symbol (mkAttrDef k e 0) attrs)
  | Some j =>
      match e, ad_e j with
      | ExprAttrs (mkAttrs _ aeAttrs aeFrom aeDyn), ExprAttrs (mkAttrs jRec jAttrs jFrom jDyn) =>
          let size := match aeFrom, jFrom with
                      | _, Some l => Some (length l)
                      | Some _, None => Some 0
                      | None, None => None
                      end in
          let* (froms, jAttrs) :=
            (fix go (l : AttrDefs) (froms : Froms) (jAttrs : AttrDefs) : result (Froms * AttrDefs) :=
               match l with
               | [] => Ok (froms, jAttrs)
               | (s, mkAttrDef k e d) :: l =>
                   let* froms :=
                     match k, size with
                     | InheritedFrom, None => Err UndefinedBehaviour
                     | _, _ => shift_from (mkAttrDef k e d) (default 0 size) froms
                     end in
                   let* (froms, jAttrs) := add_def froms jAttrs s k e in
                   go l froms jAttrs
               end) aeAttrs froms jAttrs in
          Ok (froms, attrs_insert symbol
                (mkAttrDef (ad_kind j)
                   (ExprAttrs (mkAttrs jRec jAttrs (from_append jFrom aeFrom) (jDyn ++ aeDyn))) (ad_displ j)) attrs)
      | _, _ => throw ParseError
      end
  end.

Definition with_attrs (a : Attrs Expr) (l : AttrDefs) : Attrs Expr :=
  mkAttrs (at_recursive a) l (at_inheritFromExprs a) (at_dynamicAttrs a).
Definition push_dynamic (a : Attrs Expr) (n v : Expr) : Attrs Expr :=
  mkAttrs (at_recursive a) (at_attrs a) (at_inheritFromExprs a) (at_dynamicAttrs a ++ [(n, v)]).

(** The first [addAttr], for an attribute path. *)
Fixpoint addAttr (froms : Froms) (attrs : Attrs Expr) (attrPath : list (AttrName Expr)) (e : Expr) :
    result (Froms * Attrs Expr) :=
  match attrPath with
  | [] => Err AssertFailed
  | [NameSymbol symbol] =>
      let* (froms, l) := add_def froms (at_attrs attrs) symbol Plain e in
      Ok (froms, with_attrs attrs l)
  | [NameExpr n] => Ok (froms, push_dynamic attrs n e)
  | NameSymbol symbol :: path =>
      match smap_lookup symbol (at_attrs attrs) with
      | Some j =>
          match ad_e j with
          | ExprAttrs nested =>
              let* (froms, nested) := addAttr froms nested path e in
              Ok (froms, with_attrs attrs (attrs_insert symbol (mkAttrDef (ad_kind j) (ExprAttrs nested) (ad_displ j))
                                             (at_attrs attrs)))
          | _ => throw ParseError
          end
      | None =>
          let* (froms, nested) := addAttr froms empty_attrs path e in
          Ok (froms, with_attrs attrs (attrs_insert symbol (mkAttrDef Plain (ExprAttrs nested) 0) (at_attrs attrs)))
      end
  | NameExpr n :: path =>
      let* (froms, nested) := addAttr froms empty_attrs path e in
      Ok (froms, push_dynamic attrs n (ExprAttrs nested))
  end.

(** [inherit names;] *)
Fixpoint add_inherited (attrs : AttrDefs) (names : list Symbol) : result AttrDefs :=
  match names with
  | [] => Ok attrs
  | i :: names =>
      match smap_lookup i attrs with
      | Some _ => throw ParseError
      | None => add_inherited (attrs_insert i (mkAttrDef Inherited (ExprVar i Unresolved) 0) attrs) names
      end
  end.
Definition addInherit (accum : Attrs Expr) (names : list Symbol) : result (Attrs Expr) :=
  let* l := add_inherited (at_attrs accum) names in Ok (with_attrs accum l).

(** [inherit (expr) names;]: all names share one object. *)
Fixpoint add_inherited_from (id : nat) (attrs : AttrDefs) (names : list Symbol) : result AttrDefs :=
  match names with
  | [] => Ok attrs
  | i :: names =>
      match smap_lookup i attrs with
      | Some _ => throw ParseError
      | None =>
          add_inherited_from id
            (attrs_insert i (mkAttrDef InheritedFrom (ExprSelect (ExprInheritFrom id) [NameSymbol i] None) 0) attrs) names
      end
  end.
Definition addInheritFrom (froms : Froms) (accum : Attrs Expr) (expr : Expr) (names : list Symbol) :
    result (Froms * Attrs Expr) :=
  let from := default [] (at_inheritFromExprs accum) ++ [expr] in
  let* l := add_inherited_from (length froms) (at_attrs accum) names in
  Ok (froms ++ [length from - 1], mkAttrs (at_recursive accum) l (Some from) (at_dynamicAttrs accum)).

(** The displacements, read from the objects. *)
Fixpoint resolve (froms : Froms) (e : Expr) {struct e} : Expr :=
  let path := fix go (l : list (AttrName Expr)) :=
    match l with
    | [] => []
    | NameSymbol s :: l => NameSymbol s :: go l
    | NameExpr x :: l => NameExpr (resolve froms x) :: go l
    end in
  let option_ o := match o with Some x => Some (resolve froms x) | None => None end in
  let attrs := fix go (l : AttrDefs) :=
    match l with
    | [] => []
    | (s, mkAttrDef k x d) :: l => (s, mkAttrDef k (resolve froms x) d) :: go l
    end in
  let set a :=
    match a with
    | mkAttrs r l from dyn =>
        mkAttrs r (attrs l) (match from with Some f => Some (map (resolve froms) f) | None => None end)
          (map (fun nv => match nv with (n, v) => (resolve froms n, resolve froms v) end) dyn)
    end in
  match e with
  | ExprInt _ | ExprFloat _ | ExprString _ | ExprPath _ | ExprVar _ _ => e
  | ExprInheritFrom id => ExprInheritFrom (default 0 (froms !! id))
  | ExprSelect x p def => ExprSelect (resolve froms x) (path p) (option_ def)
  | ExprOpHasAttr x p => ExprOpHasAttr (resolve froms x) (path p)
  | ExprAttrs a => ExprAttrs (set a)
  | ExprList es => ExprList (map (resolve froms) es)
  | ExprLambda arg formals body =>
      ExprLambda arg
        (match formals with
         | Some (mkFormals fs ell) =>
             Some (mkFormals (map (fun f => match f with mkFormal n d => mkFormal n (option_ d) end) fs) ell)
         | None => None
         end) (resolve froms body)
  | ExprCall f args => ExprCall (resolve froms f) (map (resolve froms) args)
  | ExprLet a body => ExprLet (set a) (resolve froms body)
  | ExprWith a b => ExprWith (resolve froms a) (resolve froms b)
  | ExprIf a b c => ExprIf (resolve froms a) (resolve froms b) (resolve froms c)
  | ExprAssert a b => ExprAssert (resolve froms a) (resolve froms b)
  | ExprOpNot x => ExprOpNot (resolve froms x)
  | ExprBinOp op a b => ExprBinOp op (resolve froms a) (resolve froms b)
  | ExprConcatStrings b es => ExprConcatStrings b (map (resolve froms) es)
  end.

(** ** Merging of sets *)

(** The loop of [add_def], on its own. *)
Definition merge_defs (size : option nat) : AttrDefs -> Froms -> AttrDefs -> result (Froms * AttrDefs) :=
  fix go l froms jAttrs :=
    match l with
    | [] => Ok (froms, jAttrs)
    | (s, mkAttrDef k e d) :: l =>
        let* froms :=
          match k, size with
          | InheritedFrom, None => Err UndefinedBehaviour
          | _, _ => shift_from (mkAttrDef k e d) (default 0 size) froms
          end in
        let* (froms, jAttrs) := add_def froms jAttrs s k e in
        go l froms jAttrs
    end.

Lemma add_def_merge froms attrs symbol k kj dj r aeAttrs aeFrom aeDyn jRec jAttrs jFrom jDyn :
  smap_lookup symbol attrs = Some (mkAttrDef kj (ExprAttrs (mkAttrs jRec jAttrs jFrom jDyn)) dj) ->
  add_def froms attrs symbol k (ExprAttrs (mkAttrs r aeAttrs aeFrom aeDyn)) =
    let* (froms, jAttrs) :=
      merge_defs (match aeFrom, jFrom with
                  | _, Some l => Some (length l)
                  | Some _, None => Some 0
                  | None, None => None
                  end) aeAttrs froms jAttrs in
    Ok (froms, attrs_insert symbol
          (mkAttrDef kj (ExprAttrs (mkAttrs jRec jAttrs (from_append jFrom aeFrom) (jDyn ++ aeDyn))) dj) attrs).
Proof. intros H. cbn [add_def]. rewrite H. reflexivity. Qed.

Lemma add_def_new froms attrs symbol k e : smap_lookup symbol attrs = None ->
  add_def froms attrs symbol k e = Ok (froms, attrs_insert symbol (mkAttrDef k e 0) attrs).
Proof. intros H. destruct e; cbn [add_def]; by rewrite H. Qed.

(** Whether an attribute selects from the object [id]. *)
Definition selects_from (id : nat) (d : AttrDef Expr) : bool :=
  match ad_kind d, ad_e d with
  | InheritedFrom, ExprSelect (ExprInheritFrom id') _ _ => bool_decide (id = id')
  | _, _ => false
  end.
Definition uses (id : nat) (l : AttrDefs) : nat := length (List.filter (fun sd => selects_from id sd.2) l).

(** Every inherited attribute selects from one of [n] objects. *)
Definition selects_known (n : nat) (d : AttrDef Expr) : Prop :=
  ad_kind d = InheritedFrom -> exists id path def, ad_e d = ExprSelect (ExprInheritFrom id) path def /\ id < n.

Lemma attrs_insert_lookup_ne s s' d l : s <> s' -> smap_lookup s' (attrs_insert s d l) = smap_lookup s' l.
Proof.
  intros Hne. induction l as [|[t e] l IH]; simpl; [by rewrite bool_decide_false|].
  destruct (s <? t)%Z eqn:H1; [simpl; by rewrite (bool_decide_false (s' = s))|].
  destruct (t <? s)%Z eqn:H2; simpl; [by rewrite IH|].
  assert (t = s) as -> by (apply Z.ltb_ge in H1, H2; lia). by rewrite !(bool_decide_false (s' = s)).
Qed.
Lemma attrs_insert_lookup s d l : smap_lookup s (attrs_insert s d l) = Some d.
Proof.
  induction l as [|[t e] l IH]; simpl; [by rewrite bool_decide_true|].
  destruct (s <? t)%Z eqn:H1; [simpl; by rewrite bool_decide_true|].
  destruct (t <? s)%Z eqn:H2; simpl; [|by rewrite bool_decide_true].
  rewrite bool_decide_false; [done|]. apply Z.ltb_lt in H2. lia.
Qed.

Lemma shift_from_spec d n froms : selects_known (length froms) d ->
  exists froms', shift_from d n froms = Ok froms' /\ length froms' = length froms /\
    forall id displ, froms !! id = Some displ -> froms' !! id = Some (displ + if selects_from id d then n else 0).
Proof.
  intros Hd. unfold shift_from, selects_from. destruct d as [k e displ0]. unfold selects_known in Hd. simpl in *.
  destruct k; [by exists froms; split_and!; [..|intros; rewrite Nat.add_0_r]..|].
  destruct (Hd eq_refl) as (id & path & def & -> & Hid).
  destruct (lookup_lt_is_Some_2 froms id Hid) as [x Hx]. rewrite Hx. eexists. split; [done|].
  split; [by rewrite length_insert|]. intros id' displ Hid'. case_bool_decide as He.
  - subst id'. simplify_eq. by rewrite list_lookup_insert_eq.
  - rewrite list_lookup_insert_ne by done. by rewrite Nat.add_0_r.
Qed.

Lemma merge_defs_spec size l froms jAttrs :
  NoDup l.*1 -> (forall s, s ∈ l.*1 -> smap_lookup s jAttrs = None) ->
  Forall (fun sd => selects_known (length froms) sd.2) l ->
  exists froms' jAttrs', merge_defs (Some size) l froms jAttrs = Ok (froms', jAttrs') /\
    (forall id displ, froms !! id = Some displ -> froms' !! id = Some (displ + uses id l * size)) /\
    (forall s d, (s, d) ∈ l -> smap_lookup s jAttrs' = Some (mkAttrDef (ad_kind d) (ad_e d) 0)) /\
    (forall s, s ∉ l.*1 -> smap_lookup s jAttrs' = smap_lookup s jAttrs).
Proof.
  revert froms jAttrs. induction l as [|[s [k e d]] l IH]; intros froms jAttrs Hd Hn Hs.
  - exists froms, jAttrs. split; [done|]. split; [intros; by rewrite Nat.add_0_r|]. split; [|done].
    by intros ? ? ?%not_elem_of_nil.
  - apply NoDup_cons in Hd as [Hns Hd]. apply Forall_cons in Hs as [Hk Hs]. simpl in Hk.
    destruct (shift_from_spec _ size _ Hk) as (froms1 & Hshift & Hlen & Hf1).
    assert (Hnone : smap_lookup s jAttrs = None) by (apply Hn; left).
    set (j1 := attrs_insert s (mkAttrDef k e 0) jAttrs).
    destruct (IH froms1 j1) as (froms' & jAttrs' & Hm & Hf' & Hj1 & Hj2); [done| |by rewrite Hlen|].
    { intros t Ht. subst j1. rewrite attrs_insert_lookup_ne; [apply Hn; by right|]. by intros ->. }
    exists froms', jAttrs'. split_and!.
    + cbn [merge_defs default]. replace (match k with InheritedFrom => _ | _ => _ end) with (Ok froms1)
        by (destruct k; symmetry; exact Hshift).
      cbn [rbind]. rewrite add_def_new by done. exact Hm.
    + intros id displ Hid. rewrite (Hf' id _ (Hf1 id _ Hid)). f_equal. unfold uses. simpl.
      destruct (selects_from id _); simpl; lia.
    + intros t x Hin. apply elem_of_cons in Hin as [[= -> ->]|Hin]; [|by apply Hj1].
      rewrite Hj2 by done. apply attrs_insert_lookup.
    + intros t Ht. apply not_elem_of_cons in Ht as [Hne Ht]. rewrite Hj2 by done. simpl in Hne.
      by apply attrs_insert_lookup_ne.
Qed.

(** ** Claims on sets *)

(** Merging two definitions of a set adds the number of sources of the
    first set to the displacement of an [inherit (expr)] object once for every
    name that shares the object. With one name the displacement is the place
    of its source in the merged list; with more it is not, unless the first
    set has no sources. *)
Theorem addAttr_merge_displacements froms attrs symbol kj dj r aeAttrs aeFrom aeDyn jRec jAttrs jFrom jDyn :
  smap_lookup symbol attrs = Some (mkAttrDef kj (ExprAttrs (mkAttrs jRec jAttrs (Some jFrom) jDyn)) dj) ->
  NoDup aeAttrs.*1 -> (forall s, s ∈ aeAttrs.*1 -> smap_lookup s jAttrs = None) ->
  Forall (fun sd => selects_known (length froms) sd.2) aeAttrs ->
  exists froms' jAttrs' l,
    addAttr froms (mkAttrs false attrs None []) [NameSymbol symbol] (ExprAttrs (mkAttrs r aeAttrs (Some aeFrom) aeDyn)) =
      Ok (froms', mkAttrs false l None []) /\
    smap_lookup symbol l = Some (mkAttrDef kj (ExprAttrs (mkAttrs jRec jAttrs' (Some (jFrom ++ aeFrom)) (jDyn ++ aeDyn))) dj) /\
    (forall s d, (s, d) ∈ aeAttrs -> smap_lookup s jAttrs' = Some (mkAttrDef (ad_kind d) (ad_e d) 0)) /\
    forall id displ, froms !! id = Some displ -> displ < length aeFrom ->
      exists displ', froms' !! id = Some displ' /\ displ' = displ + uses id aeAttrs * length jFrom /\
        (uses id aeAttrs = 1 -> (jFrom ++ aeFrom) !! displ' = aeFrom !! displ).
Proof.
  intros Hj Hd Hn Hs.
  destruct (merge_defs_spec (length jFrom) aeAttrs froms jAttrs Hd Hn Hs) as (froms' & jAttrs' & Hm & Hf & Hj1 & _).
  eexists froms', jAttrs', _. cbn [addAttr at_attrs]. erewrite add_def_merge by exact Hj. cbn beta iota. rewrite Hm. cbn [rbind].
  split; [reflexivity|]. split; [apply attrs_insert_lookup|]. split; [done|].
  intros id displ Hid Hlt. eexists. split; [by apply Hf|]. split; [done|]. intros ->.
  rewrite lookup_app_r by lia. f_equal. lia.
Qed.

(** [{ a = { inherit (x) p; }; a = { inherit (y) q r; }; }] with sets for [x] and [y], as the parser builds it. *)
Definition parse_merged : result (Froms * Attrs Expr) :=
  let x := ExprAttrs (mkAttrs false [(53%Z, mkAttrDef Plain (ExprInt 1) 0)] None []) in
  let y := ExprAttrs (mkAttrs false [(54%Z, mkAttrDef Plain (ExprInt 2) 0); (55%Z, mkAttrDef Plain (ExprInt 3) 0)] None []) in
  let* (froms, set1) := addInheritFrom [] empty_attrs x [53%Z] in
  let* (froms, a) := addAttr froms empty_attrs [NameSymbol 52%Z] (ExprAttrs set1) in
  let* (froms, set2) := addInheritFrom froms empty_attrs y [54%Z; 55%Z] in
  addAttr froms a [NameSymbol 52%Z] (ExprAttrs set2).

Lemma addAttr_merge_displacements_witness :
  exists froms' jAttrs' l,
    addAttr [0; 0]
      (mkAttrs false [(1%Z, mkAttrDef Plain (ExprAttrs (mkAttrs false
         [(2%Z, mkAttrDef InheritedFrom (ExprSelect (ExprInheritFrom 0) [NameSymbol 2%Z] None) 0)]
         (Some [ExprInt 0]) [])) 0)] None []) [NameSymbol 1%Z]
      (ExprAttrs (mkAttrs false [(3%Z, mkAttrDef InheritedFrom (ExprSelect (ExprInheritFrom 1) [NameSymbol 3%Z] None) 0)]
         (Some [ExprInt 5]) [])) = Ok (froms', mkAttrs false l None []) /\
    smap_lookup 1%Z l = Some (mkAttrDef Plain (ExprAttrs (mkAttrs false jAttrs' (Some [ExprInt 0; ExprInt 5]) [])) 0) /\
    froms' !! 1 = Some 1.
Proof.
  destruct (addAttr_merge_displacements [0; 0]
    [(1%Z, mkAttrDef Plain (ExprAttrs (mkAttrs false
         [(2%Z, mkAttrDef InheritedFrom (ExprSelect (ExprInheritFrom 0) [NameSymbol 2%Z] None) 0)]
         (Some [ExprInt 0]) [])) 0)] 1%Z Plain 0 false
    [(3%Z, mkAttrDef InheritedFrom (ExprSelect (ExprInheritFrom 1) [NameSymbol 3%Z] None) 0)] [ExprInt 5] [] false
    [(2%Z, mkAttrDef InheritedFrom (ExprSelect (ExprInheritFrom 0) [NameSymbol 2%Z] None) 0)] [ExprInt 0] [])
    as (froms' & jAttrs' & l & H1 & H2 & _ & H3).
  - reflexivity.
  - apply NoDup_singleton.
  - intros s ->%list_elem_of_singleton. reflexivity.
  - constructor; [|constructor]. intros _. exists 1, [NameSymbol 3%Z], None. split; [done|simpl; lia].
  - exists froms', jAttrs', l. split; [exact H1|]. split; [exact H2|].
    destruct (H3 1 0 eq_refl) as (d & Hd & -> & _); [simpl; lia|]. exact Hd.
Defined.

(** With two names in the second [inherit (y)], the displacement of their
    common object is 2, of 2 sources, and an access to such an attribute reads
    beyond the end of the environment; had [y] only one name, its value would
    be found. *)
Theorem merged_inherit_out_of_bounds :
  exists froms a,
    parse_merged = Ok (froms, a) /\ froms = [0; 2] /\
    (eval_expr 100 (L "/nix/store") (fun _ => throw Error) 20 []
       (resolve froms (ExprSelect (ExprAttrs a) [NameSymbol 52%Z; NameSymbol 54%Z] None))
       (initial_state [] [L "a"; L "p"; L "q"; L "r"])).1 = Err UndefinedBehaviour /\
    (eval_expr 100 (L "/nix/store") (fun _ => throw Error) 20 []
       (resolve [0; 1] (ExprSelect (ExprAttrs a) [NameSymbol 52%Z; NameSymbol 54%Z] None))
       (initial_state [] [L "a"; L "p"; L "q"; L "r"])).1 = Ok (VInt 2).
Proof. eexists _, _. split; [vm_compute; reflexivity|]. split; [reflexivity|]. split; vm_compute; reflexivity. Qed.

(** ** Formal arguments *)

Definition sort_formals {E} (l : list (Formal E)) : list (Formal E) :=
  snd <$> stable_sort ((fun f => (fm_name f, f)) <$> l).

Fixpoint has_duplicate (names : list Symbol) : bool :=
  match names with
  | n :: rest =>
      match rest with
      | m :: _ => bool_decide (n = m) || has_duplicate rest
      | [] => false
      end
  | [] => false
  end.

Definition validateFormals {E} (formals : Formals E) (arg : option Symbol) : result (Formals E) :=
  let fs := sort_formals (fs_formals formals) in
  if has_duplicate (fm_name <$> fs) then throw ParseError
  else if match arg with Some a => has fs a | None => false end then throw ParseError
  else Ok (mkFormals fs (fs_ellipsis formals)).

Lemma sort_formals_names {E} (l : list (Formal E)) :
  StronglySorted Z.le (fm_name <$> sort_formals l) /\ sort_formals l ≡ₚ l.
Proof.
  unfold sort_formals. set (l' := (fun f => (fm_name f, f)) <$> l).
  assert (Hp : stable_sort l' ≡ₚ l') by apply stable_sort_perm. split.
  - replace (fm_name <$> (stable_sort l').*2) with (stable_sort l').*1; [apply stable_sort_sorted|].
    rewrite <- list_fmap_compose. apply list_fmap_ext. intros i [n f] Hi. simpl.
    apply list_elem_of_lookup_2 in Hi. rewrite Hp in Hi. apply list_elem_of_fmap in Hi as (g & [= -> ->] & _). done.
  - rewrite Hp. subst l'. rewrite <- list_fmap_compose. by rewrite list_fmap_id.
Qed.

Lemma has_duplicate_spec names : StronglySorted Z.le names -> has_duplicate names = false <-> NoDup names.
Proof.
  induction names as [|n names IH]; intros Hs; [split; [constructor|done]|].
  apply StronglySorted_inv in Hs as [Hs Hf]. rewrite NoDup_cons, <- IH by done. cbn [has_duplicate].
  destruct names as [|m names]; [split; [split; [apply not_elem_of_nil|done]|done]|].
  rewrite orb_false_iff, bool_decide_eq_false. split; [intros [Hne Hd]; split; [|done]|intros [Hn Hd]; split; [|done]].
  - intros Hin. apply Forall_cons in Hf as [Hle Hf]. apply elem_of_cons in Hin as [->|Hin]; [done|].
    apply StronglySorted_inv in Hs as [_ Hf']. rewrite Forall_forall in Hf'. apply Hf' in Hin. lia.
  - intros ->. apply Hn. left.
Qed.

Lemma has_spec {E} (fs : list (Formal E)) a : StronglySorted Z.le (fm_name <$> fs) -> NoDup (fm_name <$> fs) ->
  has fs a = true <-> a ∈ fm_name <$> fs.
Proof.
  intros Hs Hd. assert (H := lower_bound_sorted a ((fun f => (fm_name f, f)) <$> fs)).
  rewrite <- !list_fmap_compose in H. specialize (H Hs Hd).
  assert (Hf : forall l : list (Formal E), filter (fun v => ~ (v.1 < a)%Z) ((fun f => (fm_name f, f)) <$> l) =
    (fun f => (fm_name f, f)) <$> filter (fun f => ~ (fm_name f < a)%Z) l).
  { intros l. induction l as [|f l IH]; [done|]. cbn [fmap list_fmap]. rewrite !filter_cons. simpl.
    case_decide; cbn [fmap list_fmap]; by rewrite <- IH. }
  rewrite Hf in H. unfold has. rewrite list_elem_of_fmap.
  destruct (filter _ fs) as [|f l]; simpl in *.
  - split; [done|]. intros (g & -> & Hg). exfalso. specialize (H g). destruct H as [_ H].
    discriminate H. apply list_elem_of_fmap. eauto.
  - rewrite bool_decide_eq_true. split.
    + intros <-. exists f. split; [done|]. specialize (H f). rewrite bool_decide_true in H by done.
      destruct H as [H _]. specialize (H eq_refl). apply list_elem_of_fmap in H as (g & [= _ ->] & ?). done.
    + intros (g & -> & Hg). specialize (H g). destruct H as [_ H].
      case_bool_decide; [done|]. discriminate H. apply list_elem_of_fmap. eauto.
Qed.

(** C26: [validateFormals] accepts the formal arguments of a function exactly
    if no name occurs twice, the name of the whole argument included; it sorts
    them, as [Formals::has] and the scoping of the body require. *)
Theorem validateFormals_spec {E} (formals : Formals E) (arg : option Symbol) :
  match validateFormals formals arg with
  | Ok fs =>
      NoDup (lambda_names arg (Some fs)) /\ sorted_names (fm_name <$> fs_formals fs) /\
      fs_formals fs ≡ₚ fs_formals formals /\ fs_ellipsis fs = fs_ellipsis formals
  | Err f => f = Throw ParseError /\ ~ NoDup (lambda_names arg (Some formals))
  end.
Proof.
  unfold validateFormals. destruct (sort_formals_names (fs_formals formals)) as [Hs Hp].
  set (fs := sort_formals _) in *. assert (Hpn : fm_name <$> fs ≡ₚ fm_name <$> fs_formals formals) by (by rewrite Hp).
  assert (Hd := has_duplicate_spec _ Hs). destruct (has_duplicate (fm_name <$> fs)).
  { split; [done|]. unfold lambda_names. rewrite <- Hpn. intros H. apply NoDup_app in H as (_ & _ & H).
    by apply Hd in H. }
  apply proj1 in Hd. specialize (Hd eq_refl). assert (Hin := fun a => has_spec fs a Hs Hd).
  destruct (match arg with Some a => has fs a | None => false end) eqn:Ha.
  - split; [done|]. unfold lambda_names. rewrite <- Hpn. destruct arg as [a|]; [|done]. apply Hin in Ha.
    intros H. apply NoDup_app in H as (_ & H & _). apply (H a); [left|done].
  - simpl. split; [|split; [by apply sorted_names_intro|done]]. unfold lambda_names. simpl.
    apply NoDup_app. split_and!; [destruct arg; [apply NoDup_singleton|constructor]| |done].
    intros x Hx Hx'. destruct arg as [a|]; [|by apply not_elem_of_nil in Hx].
    apply list_elem_of_singleton in Hx as ->. apply Hin in Hx'. by rewrite Hx' in Ha.
Qed.

(** ** Indented strings *)

(** A part of an indented string: an expression or a [StringToken]. *)
Inductive part := PExpr (e : Expr) | PString (s : bytes) (hasIndentation : bool).

Definition space : ascii := " "%char.
Definition newline : ascii := "010"%char.

(** [atStartOfLine], [minIndent] and [curIndent]. *)
Record indent_state := mkIndent { is_start : bool; is_min : N; is_cur : N }.

Definition end_start (st : indent_state) : indent_state :=
  if is_start st then mkIndent false (if (is_cur st <? is_min st)%N then is_cur st else is_min st) (is_cur st) else st.
Definition indent_char (st : indent_state) (c : ascii) : indent_state :=
  if is_start st then
    if char_eqb c space then mkIndent true (is_min st) (is_cur st + 1)
    else if char_eqb c newline then mkIndent true (is_min st) 0
    else end_start st
  else if char_eqb c newline then mkIndent true (is_min st) 0
  else st.
Definition indent_part (st : indent_state) (p : part) : indent_state :=
  match p with
  | PString s true => foldl indent_char st s
  | _ => end_start st
  end.
Definition min_indent (es : list part) : N :=
  is_min (foldl indent_part (mkIndent true 1000000 0) es).

(** [atStartOfLine] and [curDropped] of the second loop. *)
Fixpoint trim_chars (minIndent : N) (atStartOfLine : bool) (curDropped : N) (t : bytes) : bytes * bool * N :=
  match t with
  | [] => ([], atStartOfLine, curDropped)
  | c :: t =>
      let '(keep, start, dropped) :=
        if atStartOfLine then
          if char_eqb c space then ((minIndent <=? curDropped)%N, true, (curDropped + 1)%N)
          else if char_eqb c newline then (true, true, 0%N)
          else (true, false, 0%N)
        else (true, char_eqb c newline, curDropped) in
      let '(s2, start, dropped) := trim_chars minIndent start dropped t in
      (if keep then c :: s2 else s2, start, dropped)
  end.

(** The last line is removed if it consists of spaces. *)
Fixpoint drop_blank_line (s : bytes) : option bytes :=
  (* [Some s'] if [s] has a newline: [s] without its last line if that is blank *)
  match s with
  | [] => None
  | c :: s' =>
      match drop_blank_line s' with
      | Some r => Some (c :: r)
      | None => if char_eqb c newline then Some (if forallb (fun c => char_eqb c space) s' then [c] else c :: s') else None
      end
  end.

Fixpoint trim_parts (minIndent : N) (atStartOfLine : bool) (curDropped : N) (es : list part) : list Expr :=
  match es with
  | [] => []
  | PExpr e :: es => e :: trim_parts minIndent false 0 es
  | PString t _ :: es' =>
      let '(s2, start, dropped) := trim_chars minIndent atStartOfLine curDropped t in
      let s2 := match es' with [] => default s2 (drop_blank_line s2) | _ => s2 end in
      (if bool_decide (s2 = []) then [] else [ExprString s2]) ++ trim_parts minIndent start dropped es'
  end.

Definition stripIndentation (es : list part) : Expr :=
  match es with
  | [] => ExprString []
  | _ =>
      match trim_parts (min_indent es) true 0 es with
      | [] => ExprString []
      | [ExprString s] => ExprString s
      | es2 => ExprConcatStrings true es2
      end
  end.

(** *** A string without antiquotations, line by line *)

Fixpoint split_lines (s : bytes) : list bytes :=
  match s with
  | [] => [[]]
  | c :: s =>
      if char_eqb c newline then [] :: split_lines s
      else match split_lines s with l :: ls => (c :: l) :: ls | [] => [[c]] end
  end.
Fixpoint join_lines (ls : list bytes) : bytes :=
  match ls with
  | [] => []
  | [l] => l
  | l :: ls => l ++ newline :: join_lines ls
  end.

Fixpoint leading_spaces (l : bytes) : nat :=
  match l with c :: l => if char_eqb c space then S (leading_spaces l) else 0 | [] => 0 end.
Definition blank (l : bytes) : bool := forallb (fun c => char_eqb c space) l.

(** The least indentation of a line that is not blank. *)
Definition indentation (ls : list bytes) : N :=
  foldl (fun m l => if blank l then m else N.min m (N.of_nat (leading_spaces l))) 1000000%N ls.

Definition unindent (m : N) (l : bytes) : bytes := drop (Nat.min (leading_spaces l) (N.to_nat m)) l.

(** The last line is emptied if it is blank and not the only one. *)
Fixpoint clear_last (ls : list bytes) : list bytes :=
  match ls with
  | [] => []
  | [l] => [l]
  | [l; l'] => [l; if blank l' then [] else l']
  | l :: ls => l :: clear_last ls
  end.

Definition strip_lines (s : bytes) : bytes :=
  let ls := split_lines s in join_lines (clear_last (unindent (indentation ls) <$> ls)).

Definition line_min (m : N) (l : bytes) : N := if blank l then m else N.min m (N.of_nat (leading_spaces l)).

Lemma split_lines_cons s : exists l ls, split_lines s = l :: ls.
Proof.
  destruct s as [|c s]; simpl; [eauto|]. destruct (char_eqb c newline); [eauto|].
  destruct (split_lines s); eauto.
Qed.

Lemma end_start_min m k : is_min (end_start (mkIndent true m k)) = N.min m k.
Proof. unfold end_start. simpl. destruct (N.ltb_spec k m); lia. Qed.

(** The first loop, from the start of a line and from within one. *)
Lemma indent_chars s m k :
  (forall l ls, split_lines s = l :: ls ->
     is_min (foldl indent_char (mkIndent true m k) s) =
     foldl line_min (if blank l then m else N.min m (k + N.of_nat (leading_spaces l))) ls) /\
  (forall l ls, split_lines s = l :: ls -> is_min (foldl indent_char (mkIndent false m k) s) = foldl line_min m ls).
Proof.
  revert m k. induction s as [|c s IH]; intros m k; split; intros l ls Hs; simpl in Hs.
  - by injection Hs as <- <-.
  - by injection Hs as <- <-.
  - destruct (split_lines_cons s) as (l' & ls' & Hs'). rewrite Hs' in Hs. cbn [foldl]. unfold indent_char at 2. cbn [is_start is_min is_cur].
    destruct (char_eqb c space) eqn:Hc.
    { assert (char_eqb c newline = false) as Hcn by (apply char_eqb_eq in Hc as ->; done).
      rewrite Hcn in Hs. injection Hs as <- <-. rewrite (proj1 (IH m _) _ _ Hs'). unfold blank. simpl. rewrite Hc. simpl.
      destruct (forallb _ l'); [done|]. f_equal. lia. }
    destruct (char_eqb c newline) eqn:Hn.
    { injection Hs as <- <-. rewrite (proj1 (IH m 0%N) _ _ Hs'). simpl. unfold line_min at 3. by rewrite N.add_0_l. }
    injection Hs as <- <-. unfold blank. simpl. rewrite Hc. simpl.
    assert (He : end_start (mkIndent true m k) = mkIndent false (N.min m (k + 0)) k).
    { unfold end_start. simpl. destruct (N.ltb_spec k m); f_equal; lia. }
    cbn [is_min is_cur]. rewrite He. exact (proj2 (IH _ _) _ _ Hs').
  - destruct (split_lines_cons s) as (l' & ls' & Hs'). rewrite Hs' in Hs. cbn [foldl]. unfold indent_char at 2. cbn [is_start is_min is_cur].
    destruct (char_eqb c newline) eqn:Hn; injection Hs as <- <-.
    + rewrite (proj1 (IH m 0%N) _ _ Hs'). simpl. unfold line_min at 3. by rewrite N.add_0_l.
    + exact (proj2 (IH _ _) _ _ Hs').
Qed.
Lemma min_indent_lines s : min_indent [PString s true] = indentation (split_lines s).
Proof.
  unfold min_indent, indentation. cbn [foldl indent_part]. destruct (split_lines_cons s) as (l & ls & Hs).
  rewrite (proj1 (indent_chars s _ _) _ _ Hs), Hs. simpl. by rewrite N.add_0_l.
Qed.

(** The second loop, likewise. *)
Lemma trim_chars_lines m s k :
  (forall l ls, split_lines s = l :: ls ->
     (trim_chars m true k s).1.1 =
     join_lines (drop (Nat.min (leading_spaces l) (N.to_nat (m - k))) l :: (unindent m <$> ls))) /\
  (forall l ls, split_lines s = l :: ls -> (trim_chars m false 0 s).1.1 = join_lines (l :: (unindent m <$> ls))).
Proof.
  assert (Hjoin : forall c l ls, join_lines ((c :: l) :: ls) = c :: join_lines (l :: ls)) by (intros c l []; done).
  assert (Hnl : forall ls, ls <> [] -> join_lines ([] :: ls) = newline :: join_lines ls) by (by intros []).
  revert k. induction s as [|c s IH]; intros k; split; intros l ls Hs; simpl in Hs.
  - by injection Hs as <- <-.
  - by injection Hs as <- <-.
  - destruct (split_lines_cons s) as (l' & ls' & Hs'). rewrite Hs' in Hs. cbn [trim_chars].
    destruct (char_eqb c space) eqn:Hc.
    { assert (char_eqb c newline = false) as Hcn by (apply char_eqb_eq in Hc as ->; done).
      rewrite Hcn in Hs. injection Hs as <- <-. specialize (IH (k + 1)%N). apply proj1 in IH. specialize (IH _ _ Hs').
      destruct (trim_chars m true (k + 1) s) as [[s2 start] dropped]. simpl in IH |- *. rewrite Hc, IH.
      destruct (N.leb_spec m k).
      - replace (N.to_nat (m - k)) with 0 by lia. replace (N.to_nat (m - (k + 1))) with 0 by lia.
        rewrite !Nat.min_0_r. exact (eq_sym (Hjoin _ _ _)).
      - replace (N.to_nat (m - k)) with (S (N.to_nat (m - (k + 1)))) by lia. done. }
    destruct (char_eqb c newline) eqn:Hn.
    { injection Hs as <- <-. specialize (IH 0%N). apply proj1 in IH. specialize (IH _ _ Hs').
      destruct (trim_chars m true 0 s) as [[s2 start] dropped]. simpl in IH |- *.
      apply char_eqb_eq in Hn as ->. rewrite IH, N.sub_0_r. by destruct ls'. }
    injection Hs as <- <-. specialize (IH 0%N). apply proj2 in IH. specialize (IH _ _ Hs').
    destruct (trim_chars m false 0 s) as [[s2 start] dropped]. simpl in IH |- *. rewrite Hc, IH. exact (eq_sym (Hjoin _ _ _)).
  - destruct (split_lines_cons s) as (l' & ls' & Hs'). rewrite Hs' in Hs. cbn [trim_chars].
    destruct (char_eqb c newline) eqn:Hn; injection Hs as <- <-; specialize (IH 0%N).
    + apply proj1 in IH. specialize (IH _ _ Hs'). destruct (trim_chars m true 0 s) as [[s2 start] dropped].
      simpl in IH |- *. apply char_eqb_eq in Hn as ->. rewrite IH, N.sub_0_r. by destruct ls'.
    + apply proj2 in IH. specialize (IH _ _ Hs'). destruct (trim_chars m false 0 s) as [[s2 start] dropped].
      simpl in IH |- *. rewrite IH. exact (eq_sym (Hjoin _ _ _)).
Qed.

Lemma split_lines_no_newline s : Forall (fun l => newline ∉ l) (split_lines s).
Proof.
  induction s as [|c s IH]; simpl; [constructor; [apply not_elem_of_nil|constructor]|].
  destruct (char_eqb c newline) eqn:Hn; [constructor; [apply not_elem_of_nil|done]|].
  destruct (split_lines s) as [|l ls]; [constructor; [|constructor]|apply Forall_cons in IH as [? ?]; constructor; [|done]];
    rewrite not_elem_of_cons; (split; [by apply char_eqb_ne in Hn|]); [apply not_elem_of_nil|done].
Qed.

Lemma drop_blank_line_none l : newline ∉ l -> drop_blank_line l = None.
Proof.
  induction l as [|c l IH]; [done|]. rewrite not_elem_of_cons. intros [Hc Hl]. simpl. rewrite IH by done.
  by rewrite (proj2 (char_eqb_ne c newline)).
Qed.
Lemma drop_blank_line_app l rest : newline ∉ l ->
  drop_blank_line (l ++ newline :: rest) =
  Some (l ++ newline :: default (if blank rest then [] else rest) (drop_blank_line rest)).
Proof.
  intros Hl. induction l as [|c l IH]; simpl.
  - destruct (drop_blank_line rest) as [r|]; [done|]. simpl. unfold blank. by destruct (forallb _ rest).
  - apply not_elem_of_cons in Hl as [_ Hl]. by rewrite IH.
Qed.

Lemma clear_last_lines ls : Forall (fun l => newline ∉ l) ls -> 
  default (join_lines ls) (drop_blank_line (join_lines ls)) = join_lines (clear_last ls).
Proof.
  assert (H : forall l l' ls, Forall (fun l => newline ∉ l) (l :: l' :: ls) ->
    drop_blank_line (join_lines (l :: l' :: ls)) = Some (join_lines (clear_last (l :: l' :: ls)))).
  { intros l l' ls0. revert l l'. induction ls0 as [|l'' ls0 IH]; intros l l' Hl.
    - apply Forall_cons in Hl as [Hl Hl']. apply Forall_cons in Hl' as [Hl' _]. cbn [join_lines clear_last].
      rewrite drop_blank_line_app, drop_blank_line_none by done. simpl. by destruct (blank l').
    - apply Forall_cons in Hl as [Hl Hl']. change (join_lines (l :: l' :: l'' :: ls0))
        with (l ++ newline :: join_lines (l' :: l'' :: ls0)).
      rewrite drop_blank_line_app by done. rewrite IH by done. cbn [default].
      change (clear_last (l :: l' :: l'' :: ls0)) with (l :: clear_last (l' :: l'' :: ls0)).
      destruct (clear_last (l' :: l'' :: ls0)) as [|x xs] eqn:E; [|done].
      destruct ls0; discriminate E. }
  intros Hl. destruct ls as [|l [|l' ls]]; [done| |by rewrite H].
  apply Forall_cons in Hl as [Hl _]. simpl. by rewrite drop_blank_line_none.
Qed.

Lemma drop_no_newline n l : newline ∉ l -> newline ∉ drop n l.
Proof. intros H Hin. apply H. rewrite <- (take_drop n l). apply elem_of_app. by right. Qed.

(** ** Claims *)

(** C25: an indented string that is one token, so has neither antiquotations nor
    escapes (the lexer makes a token of its own of each, lexer.l:201-218), has
    the text of its lines, each without the indentation that the lines that are
    not blank have in common, and with an empty last line if that line is blank. *)
Theorem stripIndentation_lines (s : bytes) : stripIndentation [PString s true] = ExprString (strip_lines s).
Proof.
  unfold stripIndentation. rewrite min_indent_lines. set (m := indentation (split_lines s)).
  cbn [trim_parts]. destruct (split_lines_cons s) as (l & ls & Hs).
  assert (Ht : (trim_chars m true 0 s).1.1 = join_lines (unindent m <$> split_lines s)).
  { rewrite (proj1 (trim_chars_lines m s 0) _ _ Hs), Hs, N.sub_0_r. done. }
  destruct (trim_chars m true 0 s) as [[s2 start] dropped]. simpl in Ht. subst s2.
  rewrite clear_last_lines.
  - unfold strip_lines. fold m. set (r := join_lines (clear_last (unindent m <$> split_lines s))).
    case_bool_decide as Hr; [by rewrite Hr|done].
  - apply Forall_fmap. eapply Forall_impl; [apply split_lines_no_newline|]. intros x Hx. by apply drop_no_newline.
Qed.
