(* ===== verification/Urls.v ===== *)
(** * URLs and store references (libutil/url.cc, url-parts.hh, libstore/store-reference.cc)

    Percent encoding, query strings, [parseURL] and [ParsedURL::to_string], and
    the references to stores on the command line.

    [parseURL] matches one regular expression. Its parts use disjoint
    characters around the delimiters: no part before the fragment contains a
    [#], none before the query a [?], a scheme no colon and an authority no
    slash. So the match, if there is one, cuts the string at the first [#], what
    is before it at the first [?], and what is before that at the first colon;
    the definitions here do so and check the parts. *)

From S2P Require Import Prelude.
From S2P Require Import Containers.
From S2P Require Import Strings.
From S2P Require Import CanonPath.

(** ** Percent encoding *)

Definition hex_digit (c : ascii) : option Z :=
  if is_digit c then Some (code c - code "0")%Z
  else if in_range "a" "f" c then Some (code c - code "a" + 10)%Z
  else if in_range "A" "F" c then Some (code c - code "A" + 10)%Z
  else None.
Definition is_hex (c : ascii) : bool := bool_decide (is_Some (hex_digit c)).
Definition is_space (c : ascii) : bool := char_eqb c " " || in_range "009" "013" c.

(** [std::stoul] of two characters, base 16: leading white space and a sign are
    skipped, and it stops at the first character that is no digit. *)
Definition stoul16 (x y : ascii) : option Z :=
  match hex_digit x, hex_digit y with
  | Some a, Some b => Some (a * 16 + b)%Z
  | Some a, None => Some a
  | None, Some b =>
      if is_space x || char_eqb x "+" then Some b
      else if char_eqb x "-" then Some (- b)%Z
      else None
  | None, None => None
  end.

Fixpoint percentDecode (in_ : bytes) : result bytes :=
  match in_ with
  | [] => Ok []
  | c :: rest =>
      if char_eqb c "%" then
        match rest with
        | x :: y :: rest =>
            match stoul16 x y with
            | Some n => let* decoded := percentDecode rest in Ok (chr n :: decoded)
            | None => throw BadURL
            end
        | _ => throw BadURL
        end
      else let* decoded := percentDecode rest in Ok (c :: decoded)
  end.

Definition unreserved (c : ascii) : bool := is_alpha c || is_digit c || one_of (L "-._~") c.
(** [strchr] also finds the terminating NUL. *)
Definition kept_char (keep : bytes) (c : ascii) : bool := unreserved c || char_eqb c NUL || one_of keep c.
Definition upper_hex (n : Z) : ascii := nth (Z.to_nat n) (L "0123456789ABCDEF") NUL.
Definition percentEncode (keep s : bytes) : bytes :=
  concat ((fun c => if kept_char keep c then [c]
                    else ["%"%char; upper_hex (code c / 16); upper_hex (code c mod 16)]) <$> s).

(** ** Query strings *)

Abbreviation Params := (list (bytes * bytes)).

Definition allowedInQuery : bytes := L ":@/?".
Definition allowedInPath : bytes := L ":@/".

Fixpoint decodeQuery_loop (l : list bytes) (res : Params) : result Params :=
  match l with
  | [] => Ok res
  | s :: l =>
      match find_char "=" s with
      | None => decodeQuery_loop l res
      | Some e =>
          let* value := percentDecode (drop (e + 1) s) in
          decodeQuery_loop l (smap_emplace (take e s) value res)
      end
  end.
Definition decodeQuery (query : bytes) : result Params :=
  decodeQuery_loop (tokenizeString query (L "&")) [].

Fixpoint encodeQuery_loop (first : bool) (ss : Params) : bytes :=
  match ss with
  | [] => []
  | (name, value) :: ss =>
      (if first then [] else L "&") ++ percentEncode allowedInQuery name ++ L "=" ++ percentEncode allowedInQuery value
      ++ encodeQuery_loop false ss
  end.
Definition encodeQuery (ss : Params) : bytes := encodeQuery_loop true ss.

(** ** The grammar (url-parts.hh) *)

(** A sequence of characters from [ok] and [%HH]. *)
Fixpoint pct_string (ok : ascii -> bool) (s : bytes) : bool :=
  match s with
  | [] => true
  | c :: s' =>
      if char_eqb c "%" then
        match s' with x :: y :: s'' => is_hex x && is_hex y && pct_string ok s'' | _ => false end
      else ok c && pct_string ok s'
  end.
Definition subdelim (c : ascii) : bool := one_of (dquote :: L "!$&'()*+,;=") c.
Definition pchar (c : ascii) : bool := unreserved c || subdelim c || one_of (L ":@") c.
Definition query_char (c : ascii) : bool := pchar c || one_of (dquote :: L "/? ") c.
Definition fragment_char (c : ascii) : bool := pchar c || one_of (dquote :: L "/? ^") c.
Definition path_char (c : ascii) : bool := pchar c || char_eqb c "/".

Definition isValidSchemeName (s : bytes) : bool :=
  match s with
  | [] => false
  | c :: s => is_lower c && forallb (fun c => is_lower c || is_digit c || one_of (L "+.-") c) s
  end.

(** [\w] *)
Definition is_word (c : ascii) : bool := is_alpha c || is_digit c || char_eqb c "_".
Definition ipv6Segment (s : bytes) : bool :=
  let '(a, b) := match find_char "%" s with Some i => (take i s, Some (drop (i + 1) s)) | None => (s, None) end in
  negb (bool_decide (a = [])) && forallb (fun c => is_hex c || char_eqb c ":") a &&
  match b with Some b => negb (bool_decide (b = [])) && forallb is_word b | None => true end.
Definition ipv6Address (s : bytes) : bool :=
  ipv6Segment s ||
  match s with
  | "["%char :: s' =>
      match last s' with Some "]"%char => ipv6Segment (take (length s' - 1) s') | _ => false end
  | _ => false
  end.
Definition hostname (s : bytes) : bool := pct_string (fun c => unreserved c || subdelim c) s.
Definition host (s : bytes) : bool := ipv6Address s || hostname s.
Definition host_port (s : bytes) : bool :=
  host s ||
  match rfind_char ":" s with
  | Some i => let port := drop (i + 1) s in negb (bool_decide (port = [])) && forallb is_digit port && host (take i s)
  | None => false
  end.
Definition user (s : bytes) : bool := pct_string (fun c => unreserved c || subdelim c || char_eqb c ":") s.
Definition authority_ok (s : bytes) : bool :=
  match find_char "@" s with
  | Some i => user (take i s) && host_port (drop (i + 1) s)
  | None => host_port s
  end.

(** ** Parsing and printing *)

Record ParsedURL := mkParsedURL {
  scheme : bytes;
  authority : option bytes;
  path : bytes;
  query : Params;
  fragment : bytes;
}.

(** [parseUrlScheme]: the application and the transport. *)
Definition parseUrlScheme (scheme : bytes) : option bytes * bytes := splitPrefixTo scheme "+".

(** Before and after the first [c]. *)
Definition cut (c : ascii) (s : bytes) : bytes * option bytes :=
  match find_char c s with
  | Some i => (take i s, Some (drop (i + 1) s))
  | None => (s, None)
  end.

(** Authority and path of what follows the scheme. *)
Definition hierarchy (rest : bytes) : option (option bytes * bytes) :=
  let plain := if pct_string path_char rest then Some (None, rest) else None in
  match rest with
  | "/"%char :: "/"%char :: rest' =>
      let i := default (length rest') (find_char "/" rest') in
      if authority_ok (take i rest') && pct_string path_char (drop i rest')
      then Some (Some (take i rest'), drop i rest') else plain
  | _ => plain
  end.

Definition parseURL (url : bytes) : result ParsedURL :=
  let '(before, fragment) := cut "#" url in
  let '(base, query) := cut "?" before in
  match cut ":" base with
  | (scheme, Some rest) =>
      match hierarchy rest with
      | Some (authority, path) =>
          if isValidSchemeName scheme && pct_string query_char (default [] query) &&
             pct_string fragment_char (default [] fragment)
          then
            let transportIsFile := bool_decide ((parseUrlScheme scheme).2 = L "file") in
            if transportIsFile && match authority with Some (_ :: _) => true | _ => false end then throw BadURL
            else
              let path := if transportIsFile && bool_decide (path = []) then L "/" else path in
              let* path := percentDecode path in
              let* query := decodeQuery (default [] query) in
              let* fragment := percentDecode (default [] fragment) in
              Ok (mkParsedURL scheme authority path query fragment)
          else throw BadURL
      | None => throw BadURL
      end
  | (_, None) => throw BadURL
  end.

Definition ParsedURL_to_string (u : ParsedURL) : bytes :=
  scheme u ++ L ":" ++ match authority u with Some a => L "//" ++ a | None => [] end
  ++ percentEncode allowedInPath (path u)
  ++ (if bool_decide (query u = []) then [] else L "?" ++ encodeQuery (query u))
  ++ (if bool_decide (fragment u = []) then [] else L "#" ++ percentEncode [] (fragment u)).

Definition canonicalise (u : ParsedURL) : result ParsedURL :=
  let* p := CanonPath_raw (path u) in
  Ok (mkParsedURL (scheme u) (authority u) p (query u) (fragment u)).

(** ** Store references *)

Inductive StoreVariant := Auto | Specified (scheme authority : bytes).
Record StoreReference := mkStoreReference { sr_variant : StoreVariant; sr_params : Params }.

Definition StoreReference_render (r : StoreReference) : bytes :=
  match sr_variant r with
  | Auto => L "auto"
  | Specified s a => s ++ L "://" ++ a
  end ++ (if bool_decide (sr_params r = []) then [] else L "?" ++ encodeQuery (sr_params r)).

Definition isNonUriPath (spec : bytes) : bool :=
  bool_decide (find_sub (L "://") spec = None) && bool_decide (is_Some (find_char "/" spec)).
Definition splitUriAndParams (uri : bytes) : result (bytes * Params) :=
  match find_char "?" uri with
  | Some q => let* params := decodeQuery (drop (q + 1) uri) in Ok (take q uri, params)
  | None => Ok (uri, [])
  end.
(** [params.insert(begin, end)]: existing bindings win. *)
Definition insert_params (params extra : Params) : Params :=
  foldl (fun m kv => smap_emplace kv.1 kv.2 m) params extra.

(** [dir] is the current directory. *)
Definition StoreReference_parse (dir uri : bytes) (extraParams : Params) : result StoreReference :=
  match parseURL uri with
  | Ok u =>
      Ok (mkStoreReference (Specified (scheme u) (default [] (authority u) ++ path u)) (insert_params extraParams (query u)))
  | Err (Throw BadURL) =>
      let* (baseURI, uriParams) := splitUriAndParams uri in
      let params := insert_params extraParams uriParams in
      if bool_decide (baseURI = []) || bool_decide (baseURI = L "auto") then Ok (mkStoreReference Auto params)
      else if bool_decide (baseURI = L "daemon") then Ok (mkStoreReference (Specified (L "unix") []) params)
      else if bool_decide (baseURI = L "local") then Ok (mkStoreReference (Specified (L "local") []) params)
      else if isNonUriPath baseURI then
        let* p := absPath baseURI dir in Ok (mkStoreReference (Specified (L "local") p) params)
      else throw UsageError
  | Err f => Err f
  end.

(** ** Encoding and decoding are inverse *)

(** A character is not in a literal. *)
Ltac not_in := apply (bool_decide_unpack _); vm_compute; exact I.

Lemma all_bytes (P : ascii -> bool) : forallb (fun n => P (chr (Z.of_nat n))) (seq 0 256) = true -> forall c, P c = true.
Proof.
  intros H c. rewrite forallb_forall in H. assert (Hc := code_bound c).
  specialize (H (Z.to_nat (code c))). rewrite Z2Nat.id, chr_code in H by lia. apply H, in_seq. lia.
Qed.

(** No character has both properties. *)
Lemma byte_disjoint (P Q : ascii -> bool) :
  forallb (fun n => negb (P (chr (Z.of_nat n))) || negb (Q (chr (Z.of_nat n)))) (seq 0 256) = true ->
  forall c, P c = true -> Q c = false.
Proof.
  intros H c Hc. assert (G := all_bytes (fun c => negb (P c) || negb (Q c)) H c). cbv beta in G. rewrite Hc in G.
  by apply negb_true_iff in G.
Qed.

(** The two digits of a byte. *)
Lemma upper_hex_stoul c : stoul16 (upper_hex (code c / 16)) (upper_hex (code c mod 16)) = Some (code c).
Proof.
  assert (H := all_bytes
    (fun c => match stoul16 (upper_hex (code c / 16)) (upper_hex (code c mod 16)) with
              | Some n => (n =? code c)%Z | None => false end) ltac:(vm_compute; reflexivity) c). simpl in H.
  destruct (stoul16 _ _) as [n|]; [|done]. by apply Z.eqb_eq in H as ->.
Qed.
Lemma upper_hex_is_hex c :
  is_hex (upper_hex (code c / 16)) = true /\ is_hex (upper_hex (code c mod 16)) = true.
Proof.
  apply andb_true_iff.
  apply (all_bytes (fun c => is_hex (upper_hex (code c / 16)) && is_hex (upper_hex (code c mod 16)))).
  vm_compute. reflexivity.
Qed.

Lemma percentEncode_cons keep c s :
  percentEncode keep (c :: s) =
    (if kept_char keep c then [c] else ["%"%char; upper_hex (code c / 16); upper_hex (code c mod 16)])
    ++ percentEncode keep s.
Proof. done. Qed.
Lemma kept_percent keep : "%"%char ∉ keep -> kept_char keep "%" = false.
Proof. intros H. unfold kept_char, one_of. rewrite (bool_decide_false (_ ∈ keep)) by done. vm_compute. reflexivity. Qed.
Lemma percentDecode_cons_ne c s : c <> "%"%char ->
  percentDecode (c :: s) = let* decoded := percentDecode s in Ok (c :: decoded).
Proof. intros H. cbn [percentDecode]. by rewrite (proj2 (char_eqb_ne _ _)) by done. Qed.
Lemma percentDecode_encode keep s : "%"%char ∉ keep -> percentDecode (percentEncode keep s) = Ok s.
Proof.
  intros Hk. induction s as [|c s IH]; [done|]. rewrite percentEncode_cons. destruct (kept_char keep c) eqn:E.
  - cbn [app]. rewrite percentDecode_cons_ne, IH; [done|]. intros ->. by rewrite kept_percent in E.
  - cbn [app percentDecode]. rewrite (proj2 (char_eqb_eq _ _)), upper_hex_stoul, IH by done. cbn [rbind]. by rewrite chr_code.
Qed.

(** The characters of an encoded string. *)
Lemma percentEncode_chars (P : ascii -> Prop) keep s :
  (forall c, c ∈ s -> kept_char keep c = true -> P c) -> P "%"%char ->
  (forall c, is_hex c = true -> P c) -> Forall P (percentEncode keep s).
Proof.
  intros H Hp Hh. induction s as [|c s IH]; [constructor|]. rewrite percentEncode_cons. apply Forall_app. split.
  - destruct (kept_char keep c) eqn:E; [apply Forall_singleton, H; [by left|done]|].
    destruct (upper_hex_is_hex c). repeat apply Forall_cons_2; auto.
  - apply IH. intros d Hd. apply H. by right.
Qed.
Lemma percentEncode_pct (ok : ascii -> bool) keep s : "%"%char ∉ keep ->
  (forall c, c ∈ s -> kept_char keep c = true -> ok c = true) -> pct_string ok (percentEncode keep s) = true.
Proof.
  intros Hk H. induction s as [|c s IH]; [done|]. rewrite percentEncode_cons.
  assert (Hs : pct_string ok (percentEncode keep s) = true) by (apply IH; intros; apply H; [by right|done]).
  destruct (kept_char keep c) eqn:E; cbn [app pct_string].
  - rewrite (proj2 (char_eqb_ne _ _)), Hs, H; [done|by left|done|]. intros ->. by rewrite kept_percent in E.
  - rewrite (proj2 (char_eqb_eq _ _)) by done. destruct (upper_hex_is_hex c) as [-> ->]. by rewrite Hs.
Qed.
Lemma percentEncode_kept keep s : Forall (fun c => kept_char keep c = true) s -> percentEncode keep s = s.
Proof. induction 1 as [|c s Hc _ IH]; [done|]. by rewrite percentEncode_cons, Hc, IH. Qed.

(** ** Queries *)

(** A character that stands for itself in a query. *)
Definition query_plain (c : ascii) : bool := unreserved c || one_of allowedInQuery c.
Definition params_ok (q : Params) : Prop :=
  smap_wf q /\ Forall (fun kv => Forall (fun c => query_plain c = true) kv.1 /\ NUL ∉ kv.2) q.

Lemma query_plain_kept c : query_plain c = true -> kept_char allowedInQuery c = true.
Proof. unfold query_plain, kept_char. destruct (unreserved c), (one_of _ c); simpl; try done. by rewrite orb_true_r. Qed.
Lemma plain_name name : Forall (fun c => query_plain c = true) name -> percentEncode allowedInQuery name = name.
Proof. intros H. apply percentEncode_kept. eapply Forall_impl; [exact H|]. apply query_plain_kept. Qed.

Definition encoded_param (kv : bytes * bytes) : bytes :=
  percentEncode allowedInQuery kv.1 ++ L "=" ++ percentEncode allowedInQuery kv.2.
Lemma encodeQuery_concat q : encodeQuery q = concatStringsSep (L "&") (encoded_param <$> q).
Proof.
  unfold encodeQuery. destruct q as [|[n v] q]; [done|].
  rewrite fmap_cons, concatStringsSep_cons. cbn [encodeQuery_loop app]. unfold encoded_param at 1. cbn [fst snd].
  rewrite <- !app_assoc. do 3 f_equal.
  induction q as [|[n' v'] q IH]; [done|]. rewrite !fmap_cons. cbn [encodeQuery_loop concat]. unfold encoded_param at 1. cbn [fst snd].
  rewrite <- !app_assoc. by rewrite IH.
Qed.
(** No character of an encoded string is one of the delimiters. *)
Definition delimiter (c : ascii) : bool := one_of (L "&=#") c.
Lemma encoded_delimiter c s : delimiter c = true -> c ∉ percentEncode allowedInQuery s.
Proof.
  intros Hd Hin. assert (H := percentEncode_chars (fun c => delimiter c = false) allowedInQuery s).
  rewrite Forall_forall in H. enough (delimiter c = false) by congruence. apply H; [|done| |done].
  - intros d _. by apply (byte_disjoint (kept_char allowedInQuery) delimiter).
  - by apply (byte_disjoint is_hex delimiter).
Qed.
Lemma encoded_param_token kv : "&"%char ∉ encoded_param kv /\ encoded_param kv <> [].
Proof.
  unfold encoded_param. split.
  - rewrite !elem_of_app. intros [H|[H|H]]; [by apply encoded_delimiter in H| |by apply encoded_delimiter in H].
    by apply list_elem_of_singleton in H.
  - intros H. apply app_eq_nil in H as [_ H]. done.
Qed.
Lemma decodeQuery_loop_encoded q acc : smap_wf (acc ++ q) ->
  Forall (fun kv : bytes * bytes => Forall (fun c => query_plain c = true) kv.1) q ->
  decodeQuery_loop (encoded_param <$> q) acc = Ok (acc ++ q).
Proof.
  revert acc. induction q as [|[n v] q IH]; intros acc Hwf Hq; [by rewrite app_nil_r|].
  apply Forall_cons in Hq as [Hn Hq]. cbn [fst] in Hn. rewrite fmap_cons. cbn [decodeQuery_loop].
  assert (E : encoded_param (n, v) = n ++ "="%char :: percentEncode allowedInQuery v).
  { unfold encoded_param. cbn [fst snd]. by rewrite plain_name. }
  rewrite E.
  assert (He : "="%char ∉ n).
  { intros Hin. rewrite Forall_forall in Hn. by apply Hn in Hin. }
  rewrite find_char_app by done. rewrite take_app_length, cons_middle, app_assoc. rewrite drop_app_length' by (rewrite length_app; done).
  rewrite percentDecode_encode by not_in. cbn [rbind].
  rewrite smap_emplace_snoc by (by eapply smap_wf_prefix). rewrite IH; [by rewrite <- app_assoc|by rewrite <- app_assoc|done].
Qed.
Lemma decodeQuery_encodeQuery q : smap_wf q ->
  Forall (fun kv : bytes * bytes => Forall (fun c => query_plain c = true) kv.1) q -> decodeQuery (encodeQuery q) = Ok q.
Proof.
  intros Hwf Hq. unfold decodeQuery. rewrite encodeQuery_concat, tokenizeString_ref.
  destruct q as [|kv q]; [done|]. remember (kv :: q) as q' eqn:E.
  change (L "&") with ["&"%char]. rewrite split_concat.
  - rewrite filter_all; [by apply (decodeQuery_loop_encoded q' [])|].
    apply Forall_fmap, Forall_forall. intros x _. apply encoded_param_token.
  - subst q'. done.
  - apply Forall_fmap, Forall_forall. intros x _. apply encoded_param_token.
Qed.

(** ** URLs *)

Lemma cut_app c a b : c ∉ a -> cut c (a ++ c :: b) = (a, Some b).
Proof.
  intros H. unfold cut. rewrite find_char_app by done.
  rewrite take_app_length, cons_middle, app_assoc, drop_app_length' by (by rewrite length_app). done.
Qed.
Lemma cut_none c a : c ∉ a -> cut c a = (a, None).
Proof. intros H. unfold cut. by rewrite (proj2 (find_char_None _ _)) by done. Qed.
(** A part that is printed with its delimiter unless it is empty. *)
Definition optional_part (c : ascii) (b : bytes) : bytes := if bool_decide (b = []) then [] else c :: b.
Lemma cut_optional c a b : c ∉ a ->
  exists o, cut c (a ++ optional_part c b) = (a, o) /\ default [] o = b.
Proof.
  intros H. unfold optional_part. case_bool_decide as E.
  - exists None. by rewrite app_nil_r, cut_none.
  - exists (Some b). by rewrite cut_app.
Qed.

(** The characters that may occur in an authority. *)
Definition authority_char (c : ascii) : bool := unreserved c || subdelim c || one_of (L ":@%[]_") c.
Lemma pct_string_chars (ok P : ascii -> bool) s :
  (forall c, ok c = true -> P c = true) -> P "%"%char = true -> (forall c, is_hex c = true -> P c = true) ->
  pct_string ok s = true -> forallb P s = true.
Proof.
  intros H Hp Hh. remember (length s) as n eqn:Hn. revert s Hn. induction n as [n IH] using lt_wf_ind. intros s -> Hs.
  destruct s as [|c s]; [done|]. cbn [pct_string] in Hs. destruct (char_eqb c "%") eqn:E.
  - apply char_eqb_eq in E as ->. destruct s as [|x [|y s]]; [done|done|].
    apply andb_true_iff in Hs as [[Hx Hy]%andb_true_iff Hs]. cbn [forallb]. rewrite Hp, (Hh x), (Hh y) by done. simpl.
    eapply IH; [|done|done]. simpl. lia.
  - apply andb_true_iff in Hs as [Hc Hs]. cbn [forallb]. rewrite H by done. simpl. eapply IH; [|done|done]. simpl. lia.
Qed.
Lemma char_subset (P Q : ascii -> bool) :
  forallb (fun n => negb (P (chr (Z.of_nat n))) || Q (chr (Z.of_nat n))) (seq 0 256) = true ->
  forall c, P c = true -> Q c = true.
Proof.
  intros H c Hc. assert (G := all_bytes (fun c => negb (P c) || Q c) H c). cbv beta in G. by rewrite Hc in G.
Qed.
Lemma forallb_subset (P Q : ascii -> bool) s : (forall c, P c = true -> Q c = true) -> forallb P s = true -> forallb Q s = true.
Proof. intros H. rewrite !forallb_forall. auto. Qed.
Ltac char_subset := apply char_subset; vm_compute; reflexivity.

Lemma hostname_chars s : hostname s = true -> forallb authority_char s = true.
Proof. apply pct_string_chars; [char_subset|done|char_subset]. Qed.
Lemma user_chars s : user s = true -> forallb authority_char s = true.
Proof. apply pct_string_chars; [char_subset|done|char_subset]. Qed.
Lemma forallb_cut (P : ascii -> bool) c s i : P c = true -> s = take i s ++ c :: drop (S i) s ->
  forallb P (take i s) = true -> forallb P (drop (i + 1) s) = true -> forallb P s = true.
Proof.
  intros Hc E H1 H2. rewrite Nat.add_1_r in H2. rewrite E, forallb_app. cbn [forallb]. by rewrite H1, Hc, H2.
Qed.
Lemma ipv6Segment_chars s : ipv6Segment s = true -> forallb authority_char s = true.
Proof.
  unfold ipv6Segment. destruct (find_char "%" s) as [i|] eqn:E; rewrite !andb_true_iff.
  - intros [[_ Ha] [_ Hb]]. apply find_char_split in E as (E & _ & _). eapply forallb_cut; [|exact E|..]; [done|..].
    + eapply forallb_subset; [|exact Ha]. char_subset.
    + eapply forallb_subset; [|exact Hb]. char_subset.
  - intros [[_ Ha] _]. eapply forallb_subset; [|exact Ha]. char_subset.
Qed.
Lemma ipv6Address_chars s : ipv6Address s = true -> forallb authority_char s = true.
Proof.
  unfold ipv6Address. rewrite orb_true_iff. intros [H|H]; [by apply ipv6Segment_chars|].
  destruct s as [|c s']; [done|]. destruct (decide (c = "["%char)) as [->|Hc].
  - destruct (last s') as [d|] eqn:E; [|done]. destruct (decide (d = "]"%char)) as [->|Hd].
    + apply last_Some in E as [l ->]. rewrite length_app in H. simpl in H.
      rewrite Nat.add_sub, take_app_length in H. cbn [forallb]. rewrite forallb_app, ipv6Segment_chars by done. done.
    + destruct d as [[] [] [] [] [] [] [] []]; try done; by exfalso.
  - destruct c as [[] [] [] [] [] [] [] []]; try done; by exfalso.
Qed.
Lemma host_chars s : host s = true -> forallb authority_char s = true.
Proof. unfold host. rewrite orb_true_iff. intros [H|H]; [by apply ipv6Address_chars|by apply hostname_chars]. Qed.
Lemma host_port_chars s : host_port s = true -> forallb authority_char s = true.
Proof.
  unfold host_port. rewrite orb_true_iff. intros [H|H]; [by apply host_chars|].
  destruct (rfind_char ":" s) as [i|] eqn:E; [|done]. apply andb_true_iff in H as [[_ Hp]%andb_true_iff Hh].
  apply rfind_char_split in E as (E & _ & _). eapply forallb_cut; [|exact E|..]; [done|by apply host_chars|].
  eapply forallb_subset; [|exact Hp]. char_subset.
Qed.
Lemma authority_chars s : authority_ok s = true -> forallb authority_char s = true.
Proof.
  unfold authority_ok. destruct (find_char "@" s) as [i|] eqn:E; [|apply host_port_chars].
  rewrite andb_true_iff. intros [Hu Hh]. apply find_char_split in E as (E & _ & _).
  eapply forallb_cut; [|exact E|..]; [done|by apply user_chars|by apply host_port_chars].
Qed.
Lemma forallb_not_in (P : ascii -> bool) s c : forallb P s = true -> P c = false -> c ∉ s.
Proof. rewrite forallb_forall. intros H Hc Hin%list_elem_of_In. apply H in Hin. congruence. Qed.

(** *** The round trip *)

Record url_ok (u : ParsedURL) : Prop := {
  uo_scheme : isValidSchemeName (scheme u) = true;
  uo_authority a : authority u = Some a -> authority_ok a = true;
  uo_path : match authority u with
            | Some _ => path u = [] \/ take 1 (path u) = L "/"
            | None => take 2 (path u) <> L "//"
            end;
  uo_file : (parseUrlScheme (scheme u)).2 = L "file" ->
            path u <> [] /\ match authority u with Some a => a = [] | None => True end;
  uo_query : params_ok (query u);
  uo_nul : NUL ∉ path u /\ NUL ∉ fragment u;
}.

Lemma encoded_path_chars p : NUL ∉ p -> forallb (fun c => path_char c || char_eqb c "%") (percentEncode allowedInPath p) = true.
Proof.
  intros Hn. apply forallb_forall. intros c Hc%list_elem_of_In.
  assert (H := percentEncode_chars (fun c => path_char c || char_eqb c "%" = true) allowedInPath p).
  rewrite Forall_forall in H. apply H; [|done| |done].
  - intros d Hd Hk. assert (d <> NUL) by (by intros ->).
    apply (char_subset (fun d => kept_char allowedInPath d && negb (char_eqb d NUL)) (fun d => path_char d || char_eqb d "%"));
      [vm_compute; reflexivity|]. rewrite Hk, (proj2 (char_eqb_ne _ _)) by done. done.
  - char_subset.
Qed.
Lemma encoded_path_pct p : NUL ∉ p -> pct_string path_char (percentEncode allowedInPath p) = true.
Proof.
  intros Hn. apply percentEncode_pct; [not_in|]. intros c Hc Hk. assert (c <> NUL) by (by intros ->).
  apply (char_subset (fun d => kept_char allowedInPath d && negb (char_eqb d NUL)) path_char); [vm_compute; reflexivity|].
  rewrite Hk, (proj2 (char_eqb_ne _ _)) by done. done.
Qed.
Lemma pct_string_app ok a b : pct_string ok a = true -> pct_string ok (a ++ b) = pct_string ok b.
Proof.
  remember (length a) as n eqn:Hn. revert a Hn. induction n as [n IH] using lt_wf_ind. intros a -> Ha.
  destruct a as [|c a]; [done|]. cbn [pct_string app] in *. destruct (char_eqb c "%").
  - destruct a as [|x [|y a]]; [done|done|]. cbn [app] in *. apply andb_true_iff in Ha as [-> Ha]. simpl.
    eapply IH; [|done|done]. simpl. lia.
  - apply andb_true_iff in Ha as [-> Ha]. simpl. eapply IH; [|done|done]. simpl. lia.
Qed.
Lemma encoded_query_pct s : NUL ∉ s -> pct_string query_char (percentEncode allowedInQuery s) = true.
Proof.
  intros Hn. apply percentEncode_pct; [not_in|]. intros c Hc Hk. assert (c <> NUL) by (by intros ->).
  apply (char_subset (fun d => kept_char allowedInQuery d && negb (char_eqb d NUL)) query_char); [vm_compute; reflexivity|].
  rewrite Hk, (proj2 (char_eqb_ne _ _)) by done. done.
Qed.
Lemma plain_no_nul name : Forall (fun c => query_plain c = true) name -> NUL ∉ name.
Proof. intros H Hin. rewrite Forall_forall in H. by apply H in Hin. Qed.
Lemma encodeQuery_pct q first : Forall (fun kv => Forall (fun c => query_plain c = true) kv.1 /\ NUL ∉ kv.2) q ->
  pct_string query_char (encodeQuery_loop first q) = true.
Proof.
  intros H. revert first. induction H as [|[n v] q [Hn Hv] _ IH]; intros first; [done|]. cbn [fst snd] in Hn, Hv.
  cbn [encodeQuery_loop]. rewrite pct_string_app by (by destruct first).
  rewrite pct_string_app by (apply encoded_query_pct; by apply plain_no_nul).
  rewrite (pct_string_app _ (L "=")) by done. rewrite pct_string_app by (by apply encoded_query_pct). apply IH.
Qed.
Lemma encodeQuery_no_hash q first : Forall (fun kv => Forall (fun c => query_plain c = true) kv.1 /\ NUL ∉ kv.2) q ->
  "#"%char ∉ encodeQuery_loop first q.
Proof.
  intros H. eapply (forallb_not_in (fun c => query_char c || char_eqb c "%")); [|done].
  eapply pct_string_chars; [| | |by eapply encodeQuery_pct]; [char_subset|done|char_subset].
Qed.
Lemma encodeQuery_nil q : encodeQuery q = [] <-> q = [].
Proof.
  split; [|by intros ->]. destruct q as [|[n v] q]; [done|]. unfold encodeQuery. cbn [encodeQuery_loop app].
  intros H. apply app_eq_nil in H as [_ H]. done.
Qed.
Lemma percentEncode_nil keep s : percentEncode keep s = [] <-> s = [].
Proof.
  split; [|by intros ->]. destruct s as [|c s]; [done|]. rewrite percentEncode_cons. by destruct (kept_char keep c).
Qed.
Lemma encoded_fragment_pct s : NUL ∉ s -> pct_string fragment_char (percentEncode [] s) = true.
Proof.
  intros Hn. apply percentEncode_pct; [not_in|]. intros c Hc Hk. assert (c <> NUL) by (by intros ->).
  apply (char_subset (fun d => kept_char [] d && negb (char_eqb d NUL)) fragment_char); [vm_compute; reflexivity|].
  rewrite Hk, (proj2 (char_eqb_ne _ _)) by done. done.
Qed.
Lemma scheme_chars s : isValidSchemeName s = true ->
  forallb (fun c => is_lower c || is_digit c || one_of (L "+.-") c) s = true.
Proof. destruct s as [|c s]; [done|]. simpl. rewrite andb_true_iff. intros [-> ->]. done. Qed.

(** The part between the scheme and the query. *)
Definition printed_hierarchy (u : ParsedURL) : bytes :=
  match authority u with Some a => L "//" ++ a | None => [] end ++ percentEncode allowedInPath (path u).
Lemma hierarchy_printed u : url_ok u -> hierarchy (printed_hierarchy u) = Some (authority u, percentEncode allowedInPath (path u)).
Proof.
  intros Hu. unfold printed_hierarchy, hierarchy. destruct Hu as [_ Ha Hp _ _ [Hn _]].
  assert (Hpct := encoded_path_pct _ Hn). destruct (authority u) as [a|].
  - specialize (Ha a eq_refl). assert (Hs : "/"%char ∉ a) by (eapply forallb_not_in; [by apply authority_chars|done]).
    change (L "//" ++ a) with ("/"%char :: "/"%char :: a). cbn [app].
    assert (E : default (length (a ++ percentEncode allowedInPath (path u)))
                  (find_char "/" (a ++ percentEncode allowedInPath (path u))) = length a).
    { destruct Hp as [->|Hp].
      - unfold percentEncode. simpl. rewrite app_nil_r. by rewrite (proj2 (find_char_None _ _)).
      - destruct (path u) as [|c p]; [done|]. simpl in Hp. injection Hp as ->. rewrite percentEncode_cons.
        change (kept_char allowedInPath "/") with true. cbn [app]. by rewrite find_char_app. }
    rewrite E, take_app_length, drop_app_length, Ha, Hpct. done.
  - cbn [app]. rewrite Hpct. assert (H2 : take 2 (percentEncode allowedInPath (path u)) <> L "//").
    { intros H. apply Hp. destruct (path u) as [|c [|d p]]; rewrite ?percentEncode_cons in H; try done.
      - destruct (kept_char allowedInPath c) eqn:E; [done|]. simpl in H. injection H as H _. done.
      - destruct (kept_char allowedInPath c) eqn:E; [|done]. simpl in H. injection H as -> H. f_equal.
        destruct (kept_char allowedInPath d) eqn:E'; [|done]. simpl in H. by injection H as ->. }
    destruct (percentEncode allowedInPath (path u)) as [|c [|d r]]; [done| |].
    + destruct c as [[] [] [] [] [] [] [] []]; done.
    + destruct (decide (c = "/"%char)) as [->|Hc]; [destruct (decide (d = "/"%char)) as [->|Hd]|].
      * done.
      * destruct d as [[] [] [] [] [] [] [] []]; done.
      * destruct c as [[] [] [] [] [] [] [] []]; done.
Qed.

Lemma ParsedURL_to_string_parts u :
  ParsedURL_to_string u =
    ((scheme u ++ ":"%char :: printed_hierarchy u) ++ optional_part "?" (encodeQuery (query u)))
    ++ optional_part "#" (percentEncode [] (fragment u)).
Proof.
  unfold ParsedURL_to_string, optional_part, printed_hierarchy.
  rewrite !(bool_decide_ext _ _ (encodeQuery_nil _)), !(bool_decide_ext _ _ (percentEncode_nil [] _)).
  rewrite <- !app_assoc. change (L ":") with [":"%char]. cbn [app]. by rewrite <- !app_assoc.
Qed.
Lemma printed_hierarchy_chars u : url_ok u ->
  forallb (fun c => path_char c || char_eqb c "%" || authority_char c) (printed_hierarchy u) = true.
Proof.
  intros Hu. unfold printed_hierarchy. rewrite forallb_app, andb_true_iff. split.
  - destruct (authority u) as [a|] eqn:Ha; [|done]. rewrite forallb_app, andb_true_iff. split; [done|].
    eapply forallb_subset; [|apply authority_chars, (uo_authority _ Hu); exact Ha]. intros c ->. apply orb_true_r.
  - eapply forallb_subset; [|by apply encoded_path_chars, Hu]. by intros c ->.
Qed.

(** What precedes the query. *)
Definition base_char (c : ascii) : bool := path_char c || char_eqb c "%" || authority_char c || char_eqb c ":".
Definition printed_base (u : ParsedURL) : bytes := scheme u ++ ":"%char :: printed_hierarchy u.
Lemma printed_base_chars u : url_ok u -> forallb base_char (printed_base u) = true.
Proof.
  intros Hu. unfold printed_base. rewrite forallb_app. cbn [forallb].
  apply andb_true_iff. split; [|apply andb_true_iff; split; [done|]].
  - eapply forallb_subset; [|apply scheme_chars, (uo_scheme _ Hu)]. char_subset.
  - eapply forallb_subset; [|by apply printed_hierarchy_chars]. char_subset.
Qed.
Lemma cut_fragment u : url_ok u ->
  exists o, cut "#" (ParsedURL_to_string u) = (printed_base u ++ optional_part "?" (encodeQuery (query u)), o) /\
    default [] o = percentEncode [] (fragment u).
Proof.
  intros Hu. rewrite ParsedURL_to_string_parts. apply cut_optional. rewrite elem_of_app. intros [H|H].
  - revert H. eapply forallb_not_in; [by apply printed_base_chars|done].
  - unfold optional_part in H. case_bool_decide; [by apply elem_of_nil in H|].
    apply elem_of_cons in H as [H|H]; [done|]. eapply encodeQuery_no_hash; [|exact H]. apply (uo_query _ Hu).
Qed.
Lemma cut_query u : url_ok u ->
  exists o, cut "?" (printed_base u ++ optional_part "?" (encodeQuery (query u))) = (printed_base u, o) /\
    default [] o = encodeQuery (query u).
Proof. intros Hu. apply cut_optional. eapply forallb_not_in; [by apply printed_base_chars|done]. Qed.
Lemma cut_scheme u : url_ok u -> cut ":" (printed_base u) = (scheme u, Some (printed_hierarchy u)).
Proof. intros Hu. apply cut_app. eapply forallb_not_in; [apply scheme_chars, (uo_scheme _ Hu)|done]. Qed.

Lemma parse_printed u : url_ok u -> parseURL (ParsedURL_to_string u) = Ok u.
Proof.
  intros Hu. destruct (uo_query _ Hu) as [Hwf Hq]. destruct (uo_nul _ Hu) as [_ Hf].
  destruct (cut_fragment u Hu) as (f & Ef & Hf'). destruct (cut_query u Hu) as (q & Eq & Hq').
  unfold parseURL. rewrite Ef, Eq, cut_scheme, hierarchy_printed, (uo_scheme _ Hu), Hf', Hq' by done.
  unfold encodeQuery at 1. rewrite encodeQuery_pct, encoded_fragment_pct by done. cbn [andb].
  assert (Hfile : bool_decide ((parseUrlScheme (scheme u)).2 = L "file") &&
                  match authority u with Some (_ :: _) => true | _ => false end = false).
  { case_bool_decide as Hs; [|done]. destruct (uo_file _ Hu Hs) as [_ Ha]. by destruct (authority u) as [[|]|]. }
  assert (Hpath : bool_decide ((parseUrlScheme (scheme u)).2 = L "file") &&
                  bool_decide (percentEncode allowedInPath (path u) = []) = false).
  { case_bool_decide as Hs; [|done]. destruct (uo_file _ Hu Hs) as [Hp _]. apply bool_decide_eq_false. by rewrite percentEncode_nil. }
  rewrite Hfile, Hpath, percentDecode_encode by not_in. cbn [rbind]. rewrite decodeQuery_encodeQuery.
  - cbn [rbind]. rewrite percentDecode_encode by not_in. by destruct u.
  - done.
  - eapply Forall_impl; [exact Hq|]. by intros kv [? _].
Qed.

(** C34: uRLs round-trip: a URL with a valid scheme and authority, a path that
    fits the authority, and query names that need no encoding parses back from
    its printed form to itself, whatever characters other than NUL the path,
    the values of the query and the fragment contain. *)
Theorem parseURL_to_string u : url_ok u -> parseURL (ParsedURL_to_string u) = Ok u.
Proof. apply parse_printed. Qed.

(** A path with a space and a percent sign, an IPv6 address with a port, and
    a query value with the delimiters of the grammar. *)
Definition example_url : ParsedURL :=
  mkParsedURL (L "git+https") (Some (L "me@[fe80::1%eth0]:8443")) (L "/a b/100%") [(L "dir", L "x&y=#z?"); (L "rev", [])] (L "out^dev").
Lemma example_url_ok : url_ok example_url.
Proof.
  split.
  - vm_compute. reflexivity.
  - intros a [= <-]. vm_compute. reflexivity.
  - right. reflexivity.
  - intros H. exfalso. revert H. apply (bool_decide_unpack _). vm_compute. exact I.
  - split; [|by repeat (apply Forall_cons_2; [split; [by repeat constructor|not_in]|]); apply Forall_nil].
    repeat first [apply SSorted_nil|apply Forall_nil|apply SSorted_cons|apply Forall_cons_2|vm_compute; reflexivity].
  - split; not_in.
Qed.
Lemma parseURL_to_string_witness :
  ParsedURL_to_string example_url
    = L "git+https://me@[fe80::1%eth0]:8443/a%20b/100%25?dir=x%26y%3D%23z?&rev=#out%5Edev" /\
  parseURL (ParsedURL_to_string example_url) = Ok example_url.
Proof. split; [vm_compute; reflexivity|]. apply (parseURL_to_string example_url), example_url_ok. Defined.

(** ** Store references round-trip *)

(** A reference that names a store by a URL: its location is an authority and
    a path of characters that stand for themselves. *)
Definition reference_ok (r : StoreReference) : Prop :=
  match sr_variant r with
  | Auto => params_ok (sr_params r)
  | Specified s a =>
      exists auth p, a = auth ++ p /\ url_ok (mkParsedURL s (Some auth) p (sr_params r) []) /\
        Forall (fun c => kept_char allowedInPath c = true) p
  end.

Lemma insert_params_app pre q : smap_wf (pre ++ q) -> insert_params pre q = pre ++ q.
Proof.
  unfold insert_params. revert pre. induction q as [|[k v] q IH]; intros pre H; [by rewrite app_nil_r|]. cbn [foldl fst snd].
  rewrite smap_emplace_snoc by (by eapply smap_wf_prefix). rewrite IH by (by rewrite <- app_assoc). by rewrite <- app_assoc.
Qed.
Lemma insert_params_nil q : smap_wf q -> insert_params [] q = q.
Proof. apply (insert_params_app []). Qed.

Lemma render_url s auth p q : Forall (fun c => kept_char allowedInPath c = true) p ->
  StoreReference_render (mkStoreReference (Specified s (auth ++ p)) q) = ParsedURL_to_string (mkParsedURL s (Some auth) p q []).
Proof.
  intros Hp. unfold StoreReference_render, ParsedURL_to_string. cbn [sr_variant sr_params scheme authority path query fragment].
  rewrite (percentEncode_kept _ _ Hp), (bool_decide_true ([] = [])), app_nil_r by done.
  change (L "://") with (L ":" ++ L "//"). by rewrite <- !app_assoc.
Qed.
Lemma render_auto q : params_ok q ->
  exists o, cut "?" (L "auto" ++ optional_part "?" (encodeQuery q)) = (L "auto", o) /\ default [] o = encodeQuery q /\
    parseURL (L "auto" ++ optional_part "?" (encodeQuery q)) = throw BadURL.
Proof.
  intros [_ Hq]. destruct (cut_optional "?" (L "auto") (encodeQuery q)) as (o & Eo & Ho); [not_in|].
  exists o. split; [done|]. split; [done|]. unfold parseURL. rewrite cut_none, Eo; [done|].
  rewrite elem_of_app. intros [H|H]; [revert H; not_in|]. unfold optional_part in H.
  case_bool_decide; [by apply elem_of_nil in H|]. apply elem_of_cons in H as [H|H]; [done|].
  by eapply encodeQuery_no_hash; [|exact H].
Qed.

(** References to stores round-trip: a reference whose location needs no
    encoding, with any parameters whose names need none, parses back from its
    rendered form to itself, in every current directory. *)
Theorem StoreReference_parse_render dir r :
  reference_ok r -> StoreReference_parse dir (StoreReference_render r) [] = Ok r.
Proof.
  destruct r as [[|s a] q]; unfold reference_ok; cbn [sr_variant sr_params].
  - intros Hq. destruct (render_auto q Hq) as (o & Eo & Ho & Hbad).
    assert (E : StoreReference_render (mkStoreReference Auto q) = L "auto" ++ optional_part "?" (encodeQuery q)).
    { unfold StoreReference_render, optional_part. cbn [sr_variant sr_params].
      by rewrite (bool_decide_ext _ _ (encodeQuery_nil _)). }
    rewrite E. unfold StoreReference_parse. rewrite Hbad. unfold throw, splitUriAndParams. clear E Hbad.
    unfold cut in Eo. destruct Hq as [Hwf Hq]. set (uri := L "auto" ++ _) in *. clearbody uri.
    destruct (find_char "?" uri) as [i|]; injection Eo as Ei <-; cbn [default from_option id] in Ho.
    + rewrite Ho, decodeQuery_encodeQuery, Ei; [|done|eapply Forall_impl; [exact Hq|by intros kv [? _]]].
      cbn [rbind]. by rewrite insert_params_nil.
    + rewrite Ei. cbn [rbind]. symmetry in Ho. by apply encodeQuery_nil in Ho as ->.
  - intros (auth & p & -> & Hu & Hp). rewrite render_url by done. unfold StoreReference_parse.
    rewrite parse_printed by done. cbn [scheme authority path query default from_option id].
    rewrite insert_params_nil by apply (uo_query _ Hu). done.
Qed.

Definition example_reference : StoreReference :=
  mkStoreReference (Specified (L "ssh-ng") (L "me@host:22/a")) [(L "remote-program", L "nix daemon"); (L "trusted", L "true")].
Lemma StoreReference_parse_render_witness :
  StoreReference_render example_reference = L "ssh-ng://me@host:22/a?remote-program=nix%20daemon&trusted=true" /\
  StoreReference_parse (L "/home") (StoreReference_render example_reference) [] = Ok example_reference.
Proof.
  split; [vm_compute; reflexivity|]. apply (StoreReference_parse_render (L "/home") example_reference).
  exists (L "me@host:22"), (L "/a"). split; [reflexivity|]. split; [|by repeat constructor]. split.
  - vm_compute. reflexivity.
  - intros a [= <-]. vm_compute. reflexivity.
  - right. reflexivity.
  - intros H. exfalso. revert H. apply (bool_decide_unpack _). vm_compute. exact I.
  - split; [|by repeat (apply Forall_cons_2; [split; [by repeat constructor|not_in]|]); apply Forall_nil].
    repeat first [apply SSorted_nil|apply Forall_nil|apply SSorted_cons|apply Forall_cons_2|vm_compute; reflexivity].
  - split; not_in.
Defined.

(** ** Where the round trips end *)

(** The location of a store is rendered as it is but decoded by [parse]: a store
    in a directory whose name contains [%41] is another store after a round
    trip, and one with a space in it cannot be parsed back. *)
Theorem StoreReference_render_unencoded :
  let at_path p := mkStoreReference (Specified (L "local") (L p)) [] in
  (StoreReference_parse (L "/") (L "/tmp/100%41") [] = Ok (at_path "/tmp/100%41") /\
   StoreReference_parse (L "/") (StoreReference_render (at_path "/tmp/100%41")) [] = Ok (at_path "/tmp/100A")) /\
  (StoreReference_parse (L "/") (L "/tmp/a b") [] = Ok (at_path "/tmp/a b") /\
   StoreReference_parse (L "/") (StoreReference_render (at_path "/tmp/a b")) [] = throw UsageError).
Proof. cbv zeta beta. repeat split; vm_compute; reflexivity. Qed.

(** Names of query parameters are encoded but not decoded. *)
Theorem decodeQuery_keeps_names :
  encodeQuery [(L "a b", L "c d")] = L "a%20b=c%20d" /\ decodeQuery (L "a%20b=c%20d") = Ok [(L "a%20b", L "c d")].
Proof. split; vm_compute; reflexivity. Qed.

(** [std::stoul] accepts signs and white space, and stops at the first character
    that is no digit, so sequences that are not two digits are decoded. *)
Theorem percentDecode_lenient :
  percentDecode (L "%-1") = Ok [chr 255] /\ percentDecode (L "%4g") = Ok [chr 4] /\ percentDecode (L "% 4") = Ok [chr 4].
Proof. split_and!; vm_compute; reflexivity. Qed.

(** [strchr] finds the terminator of its string: NUL is not encoded, and the
    printed URL is not a URL. *)
Theorem percentEncode_nul :
  percentEncode [] [NUL] = [NUL] /\
  parseURL (ParsedURL_to_string (mkParsedURL (L "path") None ("/"%char :: [NUL]) [] [])) = throw BadURL.
Proof. split; vm_compute; reflexivity. Qed.
