(* ===== verification/ThreadPool.v ===== *)
(** * The thread pool and parallel graph processing (libutil/thread-pool.hh, thread-pool.cc)

    [processGraph] runs a function on every node of a graph, each node after its
    dependencies, on the threads of a [ThreadPool]. The model is a transition
    system: a step is one critical section of one thread, or one call of
    [getEdges] or [processNode]; threads sleep on the condition variable and are
    woken up by notifications. The lock of the pool is only held within a step;
    the lock of the graph can be held across steps, because the release of a
    node takes the lock of the pool for every node it enqueues.

    The threads are numbered, thread 0 being the one that called
    [processGraph]. The log is the history of the calls of [processNode]. *)

From stdpp Require Import relations.
From S2P Require Import Prelude.
From S2P Require Import Containers.

(** What a work item throws. *)
Inductive work_exn :=
| WorkFailed (e : exn)
| Interrupted
| ThreadPoolShutDown.

Inductive outcome :=
| Succeeded
| Raised (e : work_exn)
| Incomplete.  (** "graph processing incomplete (cyclic reference?)" *)

Section thread_pool.
Context {T : Type} `{OrdKey T}.

Record Graph := mkGraph {
  left : list T;
  refs : list (T * list T);
  rrefs : list (T * list T);
}.

(** [m\[k\]] *)
Definition edges_of (m : list (T * list T)) (k : T) : list T := default [] (smap_lookup k m).
Definition add_edge (k x : T) (m : list (T * list T)) : list (T * list T) :=
  smap_insert k (sset_insert x (edges_of m k)) m.

(** Where a thread is. *)
Inductive pc :=
(** thread 0, before [doWork] *)
| Enqueueing (rest : list T)
| Process
(** [doWork]: about to take the lock, sleeping, after a work item *)
| Idle
| Waiting
| Finished (exc : option work_exn)
(** the function [worker] *)
| Start (node : T)
| GetRefs (node : T)
| GotRefs (node : T) (refs : list T)
| DoWork (node : T)
| Processed (node : T)
| Releasing (node : T) (todo : list T)
(** the end of a thread, and of thread 0 *)
| Exited
| LeftLoop
| Checking
| Joining (r : outcome)
| Done (r : outcome).

Inductive call := Began (node : T) | Completed (node : T).

Record Pool := mkPool {
  pending : list T;
  active : nat;
  exception : option work_exn;
  quit : bool;
  draining : bool;
  threads : list pc;
  graph : Graph;
  graph_lock : option nat;
  log : list call;  (** latest first *)
}.

Definition set_threads (l : list pc) (st : Pool) : Pool :=
  mkPool (pending st) (active st) (exception st) (quit st) (draining st) l (graph st) (graph_lock st) (log st).
Definition set_thread (i : nat) (p : pc) (st : Pool) : Pool := set_threads (<[i := p]> (threads st)) st.
Definition set_pending (l : list T) (st : Pool) : Pool :=
  mkPool l (active st) (exception st) (quit st) (draining st) (threads st) (graph st) (graph_lock st) (log st).
Definition set_active (n : nat) (st : Pool) : Pool :=
  mkPool (pending st) n (exception st) (quit st) (draining st) (threads st) (graph st) (graph_lock st) (log st).
Definition set_exception (e : option work_exn) (st : Pool) : Pool :=
  mkPool (pending st) (active st) e (quit st) (draining st) (threads st) (graph st) (graph_lock st) (log st).
Definition set_draining (st : Pool) : Pool :=
  mkPool (pending st) (active st) (exception st) (quit st) true (threads st) (graph st) (graph_lock st) (log st).
Definition set_graph (g : Graph) (st : Pool) : Pool :=
  mkPool (pending st) (active st) (exception st) (quit st) (draining st) (threads st) g (graph_lock st) (log st).
Definition set_lock (l : option nat) (st : Pool) : Pool :=
  mkPool (pending st) (active st) (exception st) (quit st) (draining st) (threads st) (graph st) l (log st).
Definition add_log (c : call) (st : Pool) : Pool :=
  mkPool (pending st) (active st) (exception st) (quit st) (draining st) (threads st) (graph st) (graph_lock st)
    (c :: log st).

(** ** The pool *)

Definition is_waiting (p : pc) : bool := match p with Waiting => true | _ => false end.
Definition awake (p : pc) : pc := if is_waiting p then Idle else p.

(** [quit = true; work.notify_all()] *)
Definition quit_all (st : Pool) : Pool :=
  mkPool (pending st) (active st) (exception st) true (draining st) (awake <$> threads st) (graph st) (graph_lock st) (log st).
(** [work.notify_one()], which wakes up the thread [wake]; none if another
    thread sleeps and this one does not. *)
Definition notify_one (wake : nat) (st : Pool) : option Pool :=
  if existsb is_waiting (threads st) then
    match threads st !! wake with
    | Some Waiting => Some (set_thread wake Idle st)
    | _ => None
    end
  else Some st.

(** [ThreadPool::enqueue] after the check of [quit]. There is a thread for each
    of the [workers] and the one that calls [process]. *)
Definition enqueue (maxThreads wake : nat) (t : T) (st : Pool) : option Pool :=
  let st := set_pending (pending st ++ [t]) st in
  let st := if (length (threads st) <? length (pending st)) && (length (threads st) <? maxThreads)
            then set_threads (threads st ++ [Idle]) st else st in
  notify_one wake st.

Definition exit_pc (i : nat) : pc := match i with 0 => LeftLoop | S _ => Exited end.

(** The inner loop of [doWork], up to the next wait, item or return. *)
Definition next_item (i : nat) (st : Pool) : Pool :=
  if quit st then set_thread i (exit_pc i) st
  else
    match pending st with
    | w :: ws => set_thread i (Start w) (set_active (S (active st)) (set_pending ws st))
    | [] =>
        if (active st =? 0) && draining st then quit_all (set_thread i (exit_pc i) st)
        else set_thread i Waiting st
    end.

(** The first part of the loop of [doWork], after an item; none if
    [assert(state->active)] fails. *)
Definition item_done (exc : option work_exn) (st : Pool) : option Pool :=
  match active st with
  | 0 => None
  | S n =>
      let st := set_active n st in
      Some (match exc, exception st with
            | Some e, None => quit_all (set_exception (Some e) st)
            | _, _ => st
            end)
  end.

(** ** Processing a graph *)

Context (getEdges : T -> exn + list T) (processNode : T -> option exn) (maxThreads : nat).

(** The edges to nodes that are left, in both directions. *)
Fixpoint register_loop (node : T) (es : list T) (g : Graph) : Graph :=
  match es with
  | [] => g
  | ref :: es =>
      register_loop node es
        (if sset_mem ref (left g) then mkGraph (left g) (add_edge node ref (refs g)) (add_edge ref node (rrefs g)) else g)
  end.
(** With [graph->refs\[node\]] at the end, which creates an entry. *)
Definition register (node : T) (es : list T) (g : Graph) : Graph :=
  let g := register_loop node es g in
  mkGraph (left g) (smap_emplace node [] (refs g)) (rrefs g).

Definition start_work (i : nat) (node : T) (st : Pool) : Pool := add_log (Began node) (set_thread i (DoWork node) st).

(** One dependant of a finished node. *)
Definition release_one (i wake : nat) (node rref : T) (todo : list T) (st : Pool) : option (result Pool) :=
  let rs := edges_of (refs (graph st)) rref in
  if sset_mem node rs then
    let rs := sset_erase node rs in
    let st := set_graph (mkGraph (left (graph st)) (smap_insert rref rs (refs (graph st))) (rrefs (graph st))) st in
    if bool_decide (rs = []) then
      if quit st then Some (Ok (set_thread i (Finished (Some ThreadPoolShutDown)) (set_lock None st)))
      else Ok <$> enqueue maxThreads wake rref (set_thread i (Releasing node todo) st)
    else Some (Ok (set_thread i (Releasing node todo) st))
  else Some (Err AssertFailed).

Definition forget (node : T) (g : Graph) : Graph :=
  mkGraph (sset_erase node (left g)) (smap_erase node (refs g)) (smap_erase node (rrefs g)).

Definition exited (p : pc) : bool := match p with Exited => true | _ => false end.

(** A step of thread [i]; none if it cannot take one. *)
Definition run_thread (i wake : nat) (st : Pool) : option (result Pool) :=
  let locked (k : option (result Pool)) := match graph_lock st with None => k | Some _ => None end in
  let go p := Some (Ok (set_thread i p st)) in
  match threads st !! i with
  | None => None
  | Some p =>
      match p with
      | Enqueueing (node :: rest) =>
          if quit st then go Process
          else Ok <$> enqueue maxThreads wake node (set_thread i (Enqueueing rest) st)
      | Enqueueing [] => go Process
      | Process => Some (Ok (set_draining (set_thread i Idle st)))
      | Idle => Some (Ok (next_item i st))
      | Waiting => None
      | Finished exc =>
          match item_done exc st with
          | Some st => Some (Ok (next_item i st))
          | None => Some (Err AssertFailed)
          end
      | Start node =>
          locked (match smap_lookup node (refs (graph st)) with
                  | None => go (GetRefs node)
                  | Some _ => Some (Ok (start_work i node st))
                  end)
      | GetRefs node =>
          match getEdges node with
          | inl e => go (Finished (Some (WorkFailed e)))
          | inr es => go (GotRefs node (sset_erase node es))
          end
      | GotRefs node es =>
          locked (
            let g := register node es (graph st) in
            if bool_decide (edges_of (refs g) node = []) then Some (Ok (start_work i node (set_graph g st)))
            else Some (Ok (set_thread i (Finished None) (set_graph g st))))
      | DoWork node =>
          match processNode node with
          | Some e => go (Finished (Some (WorkFailed e)))
          | None => Some (Ok (add_log (Completed node) (set_thread i (Processed node) st)))
          end
      | Processed node =>
          locked (Some (Ok (set_lock (Some i) (set_thread i (Releasing node (edges_of (rrefs (graph st)) node)) st))))
      | Releasing node (rref :: todo) => release_one i wake node rref todo st
      | Releasing node [] =>
          Some (Ok (set_thread i (Finished None) (set_lock None (set_graph (forget node (graph st)) st))))
      | LeftLoop =>
          if quit st then
            match exception st with
            | Some e => Some (Ok (quit_all (set_thread i (Joining (Raised e)) st)))
            | None => go Checking
            end
          else Some (Err AssertFailed)
      | Checking =>
          locked (Some (Ok (quit_all
            (set_thread i (Joining (if bool_decide (left (graph st) = []) then Succeeded else Incomplete)) st))))
      | Joining r => if forallb exited (tail (threads st)) then go (Done r) else None
      | Exited | Done _ => None
      end
  end.

(** A step, an interrupt during a call, a spurious wake-up. *)
Inductive event := Run (i wake : nat) | Interrupt (i : nat) | Spurious (i : nat).

Definition pool_step (ev : event) (st : Pool) : option (result Pool) :=
  match ev with
  | Run i wake => run_thread i wake st
  | Interrupt i =>
      match threads st !! i with
      | Some (GetRefs _ | DoWork _) => Some (Ok (set_thread i (Finished (Some Interrupted)) st))
      | _ => None
      end
  | Spurious i =>
      match threads st !! i with
      | Some Waiting => Some (Ok (set_thread i Idle st))
      | _ => None
      end
  end.

Definition pool_init (nodes : list T) : Pool :=
  mkPool [] 0 None false false [Enqueueing nodes] (mkGraph nodes [] []) None [].

Fixpoint pool_run (evs : list event) (st : Pool) : option (result Pool) :=
  match evs with
  | [] => Some (Ok st)
  | ev :: evs =>
      match pool_step ev st with
      | Some (Ok st) => pool_run evs st
      | o => o
      end
  end.
End thread_pool.
