(* ===== verification/TaskGraph.v ===== *)
(** * The tasks of [processGraph], without threads (libutil/thread-pool.hh)

    The specification that the thread pool implements: an unordered collection of
    tasks, one for each node that waits for its turn or is being worked on. The
    invariant says where a node can be and what is known of its dependencies; it
    gives the order of the calls and, if no task is lost, completeness. *)

From stdpp Require Import relations.
From S2P Require Import Prelude.
From S2P Require Import Containers.
From S2P Require Import ThreadPool.

Section graph_ops.
Context {T : Type} `{OrdKey T}.
Implicit Types (g : Graph (T := T)) (m : list (T * list T)) (n d : T).

Lemma edges_of_erase k x m : edges_of (smap_erase k m) x = if decide (x = k) then [] else edges_of m x.
Proof. unfold edges_of. rewrite smap_lookup_erase. by destruct (decide _). Qed.
Lemma edges_of_insert k v x m : edges_of (smap_insert k v m) x = if decide (x = k) then v else edges_of m x.
Proof. unfold edges_of. rewrite smap_lookup_insert. by destruct (decide _). Qed.
Lemma edges_of_entry x y m : y ∈ edges_of m x -> is_Some (smap_lookup x m).
Proof. unfold edges_of. destruct (smap_lookup x m); [done|]. by intros ?%elem_of_nil. Qed.

Definition refs_of g n : list T := edges_of (refs g) n.
Definition rrefs_of g n : list T := edges_of (rrefs g) n.
Definition entry g n : Prop := is_Some (smap_lookup n (refs g)).
#[global] Instance entry_dec g n : Decision (entry g n).
Proof. unfold entry. apply _. Defined.

Lemma register_loop_left n es g : left (register_loop n es g) = left g.
Proof. revert g. induction es as [|r es IH]; intros g; cbn [register_loop]; [done|]. rewrite IH. by case_match. Qed.
Lemma register_loop_refs n es g x d :
  d ∈ refs_of (register_loop n es g) x <-> d ∈ refs_of g x \/ x = n /\ d ∈ es /\ d ∈ left g.
Proof.
  revert g. induction es as [|r es IH]; intros g; cbn [register_loop]; [set_solver|]. rewrite IH.
  unfold sset_mem. case_bool_decide as Hr; cbn [left]; [|set_solver].
  unfold refs_of at 1, add_edge. cbn [refs]. rewrite edges_of_insert.
  destruct (decide (x = n)) as [->|Hx]; [rewrite sset_insert_elem|]; unfold refs_of; set_solver.
Qed.
Lemma register_loop_rrefs n es g x d :
  d ∈ rrefs_of (register_loop n es g) x <-> d ∈ rrefs_of g x \/ d = n /\ x ∈ es /\ x ∈ left g.
Proof.
  revert g. induction es as [|r es IH]; intros g; cbn [register_loop]; [set_solver|]. rewrite IH.
  unfold sset_mem. case_bool_decide as Hr; cbn [left]; [|set_solver].
  unfold rrefs_of at 1, add_edge. cbn [rrefs]. rewrite edges_of_insert.
  destruct (decide (x = r)) as [->|Hx]; [rewrite sset_insert_elem|]; unfold rrefs_of; set_solver.
Qed.
Lemma register_loop_entry n es g x : x <> n -> smap_lookup x (refs (register_loop n es g)) = smap_lookup x (refs g).
Proof.
  intros Hx. revert g. induction es as [|r es IH]; intros g; cbn [register_loop]; [done|]. rewrite IH.
  case_match; [|done]. unfold add_edge. cbn [refs]. by rewrite smap_lookup_insert_ne by congruence.
Qed.
Lemma register_loop_rrefs_wf n es g : (forall x, sset_wf (rrefs_of g x)) -> forall x, sset_wf (rrefs_of (register_loop n es g) x).
Proof.
  revert g. induction es as [|r es IH]; intros g Hg; cbn [register_loop]; [done|]. apply IH. case_match; [|done].
  intros x. unfold rrefs_of, add_edge. cbn [rrefs]. rewrite edges_of_insert. case_decide; [|apply Hg].
  apply sset_insert_wf, Hg.
Qed.

Lemma register_left n es g : left (register n es g) = left g.
Proof. apply register_loop_left. Qed.
Lemma emplace_refs n es g x :
  refs_of (register n es g) x = refs_of (register_loop n es g) x.
Proof.
  unfold register, refs_of, edges_of, smap_emplace. cbn [refs].
  destruct (smap_lookup n _) eqn:E; [done|]. rewrite smap_lookup_insert. case_decide; [|done]. subst. by rewrite E.
Qed.
Lemma register_refs n es g x d : d ∈ refs_of (register n es g) x <-> d ∈ refs_of g x \/ x = n /\ d ∈ es /\ d ∈ left g.
Proof. rewrite emplace_refs. apply register_loop_refs. Qed.
Lemma register_refs_ne n es g x : x <> n -> refs_of (register n es g) x = refs_of g x.
Proof. intros Hx. rewrite emplace_refs. unfold refs_of, edges_of. by rewrite register_loop_entry. Qed.
Lemma register_rrefs n es g x d : d ∈ rrefs_of (register n es g) x <-> d ∈ rrefs_of g x \/ d = n /\ x ∈ es /\ x ∈ left g.
Proof. apply register_loop_rrefs. Qed.
Lemma register_entry n es g x : entry (register n es g) x <-> x = n \/ entry g x.
Proof.
  unfold entry, register, smap_emplace. cbn [refs]. destruct (decide (x = n)) as [->|Hx].
  - destruct (smap_lookup n (refs (register_loop n es g))) eqn:E; [rewrite E|rewrite smap_lookup_insert_eq]; split; eauto.
  - assert (E := register_loop_entry n es g x Hx). destruct (smap_lookup n (refs (register_loop n es g))) eqn:E'.
    + rewrite E. naive_solver.
    + rewrite smap_lookup_insert_ne, E by congruence. naive_solver.
Qed.
Lemma register_rrefs_wf n es g : (forall x, sset_wf (rrefs_of g x)) -> forall x, sset_wf (rrefs_of (register n es g) x).
Proof. apply register_loop_rrefs_wf. Qed.
End graph_ops.

Section task_graph.
Context {T : Type} `{OrdKey T}.
Context (nodes : list T) (getEdges : T -> exn + list T).
Implicit Types (n d r : T).

(** ** Tasks *)

Inductive stage :=
| New
| Queued
| Started
| Asking
| Asked (es : list T)
| Working
| Worked
| Freeing (todo : list T).

Record GState := mkG { g_tasks : list (T * stage); g_graph : Graph (T := T); g_log : list (call (T := T)) }.

Definition dep n d : Prop := d ∈ nodes /\ d <> n /\ exists es, getEdges n = inr es /\ d ∈ es.

(** Somebody holds the lock of the graph. *)
Definition freeing (ts : list (T * stage)) : Prop := exists d todo, (d, Freeing todo) ∈ ts.

Inductive stage_step (g : Graph) n : stage -> stage -> Prop :=
| ss_queue : stage_step g n New Queued
| ss_start : stage_step g n Queued Started
| ss_ask : ~ entry g n -> stage_step g n Started Asking
| ss_asked es : getEdges n = inr es -> stage_step g n Asking (Asked (sset_erase n es)).

Definition drop_ref n r (g : Graph) : Graph :=
  mkGraph (left g) (smap_insert r (sset_erase n (refs_of g r)) (refs g)) (rrefs g).

(** The steps that lose no task. *)
Inductive gmove : GState -> GState -> Prop :=
| gm_stage n s s' ts ts1 ts2 g l :
    ts1 ≡ₚ (n, s) :: ts -> ts2 ≡ₚ (n, s') :: ts -> stage_step g n s s' -> gmove (mkG ts1 g l) (mkG ts2 g l)
| gm_begin n ts ts1 ts2 g l :
    ts1 ≡ₚ (n, Started) :: ts -> ts2 ≡ₚ (n, Working) :: ts -> entry g n ->
    gmove (mkG ts1 g l) (mkG ts2 g (Began n :: l))
| gm_register_begin n es ts ts1 ts2 g l :
    ts1 ≡ₚ (n, Asked es) :: ts -> ts2 ≡ₚ (n, Working) :: ts -> ~ freeing ts -> refs_of (register n es g) n = [] ->
    gmove (mkG ts1 g l) (mkG ts2 (register n es g) (Began n :: l))
| gm_register_park n es ts ts1 ts2 g l :
    ts1 ≡ₚ (n, Asked es) :: ts -> ts2 ≡ₚ ts -> ~ freeing ts -> refs_of (register n es g) n <> [] ->
    gmove (mkG ts1 g l) (mkG ts2 (register n es g) l)
| gm_complete n ts ts1 ts2 g l :
    ts1 ≡ₚ (n, Working) :: ts -> ts2 ≡ₚ (n, Worked) :: ts -> gmove (mkG ts1 g l) (mkG ts2 g (Completed n :: l))
| gm_free n ts ts1 ts2 g l :
    ts1 ≡ₚ (n, Worked) :: ts -> ts2 ≡ₚ (n, Freeing (rrefs_of g n)) :: ts -> ~ freeing ts ->
    gmove (mkG ts1 g l) (mkG ts2 g l)
| gm_release n r todo ts ts1 ts2 g l :
    ts1 ≡ₚ (n, Freeing (r :: todo)) :: ts ->
    ts2 ≡ₚ (n, Freeing todo) :: (if bool_decide (sset_erase n (refs_of g r) = []) then [(r, Queued)] else []) ++ ts ->
    gmove (mkG ts1 g l) (mkG ts2 (drop_ref n r g) l)
| gm_forget n ts ts1 ts2 g l :
    ts1 ≡ₚ (n, Freeing []) :: ts -> ts2 ≡ₚ ts -> gmove (mkG ts1 g l) (mkG ts2 (forget n g) l).

Definition droppable (s : stage) : bool := match s with New | Asking | Working => true | _ => false end.

(** The steps that lose tasks, after a failure. *)
Inductive gdrop : GState -> GState -> Prop :=
| gd_tasks ds ts ts1 ts2 g l :
    ts1 ≡ₚ ds ++ ts -> ts2 ≡ₚ ts -> ds <> [] -> Forall (fun t => droppable t.2 = true) ds -> gdrop (mkG ts1 g l) (mkG ts2 g l)
| gd_release n r todo ts ts1 ts2 g l :
    ts1 ≡ₚ (n, Freeing (r :: todo)) :: ts -> ts2 ≡ₚ ts -> gdrop (mkG ts1 g l) (mkG ts2 (drop_ref n r g) l).

Lemma gmove_perm ts1 ts1' g l st' : ts1' ≡ₚ ts1 -> gmove (mkG ts1 g l) st' -> gmove (mkG ts1' g l) st'.
Proof. intros Hp Hm. inversion Hm; subst; econstructor; try done; by rewrite Hp. Qed.

(** ** The invariant *)

(** Every call begins after its dependencies completed, and only once. *)
Fixpoint log_ok (l : list (call (T := T))) : Prop :=
  match l with
  | [] => True
  | Began n :: l => n ∈ nodes /\ Began n ∉ l /\ (forall d, dep n d -> Completed d ∈ l) /\ log_ok l
  | Completed n :: l => Began n ∈ l /\ Completed n ∉ l /\ log_ok l
  end.

Definition unstarted (g : Graph) (l : list (call (T := T))) n : Prop := Began n ∉ l /\ ~ entry g n.
Definition stage_ok (g : Graph) (l : list (call (T := T))) n (s : stage) : Prop :=
  match s with
  | New | Asking => unstarted g l n
  | Queued | Started => Began n ∉ l
  | Asked es => unstarted g l n /\ exists es', getEdges n = inr es' /\ es = sset_erase n es'
  | Working => Began n ∈ l /\ Completed n ∉ l /\ entry g n
  | Worked => Completed n ∈ l
  | Freeing todo => Completed n ∈ l /\ NoDup todo /\ forall x, n ∈ refs_of g x <-> x ∈ todo
  end.

(** A node that waits for another one. *)
Record parked (st : GState) n d : Prop := {
  pk_left : n ∈ left (g_graph st);
  pk_left' : d ∈ left (g_graph st);
  pk_dep : dep n d;
  pk_task : n ∉ (g_tasks st).*1;
  pk_log : Began n ∉ g_log st;
  pk_rref : n ∈ rrefs_of (g_graph st) d;
}.

Record ginv (st : GState) : Prop := {
  gi_nodup : NoDup (g_tasks st).*1;
  gi_tasks n s : (n, s) ∈ g_tasks st -> n ∈ left (g_graph st) /\ stage_ok (g_graph st) (g_log st) n s;
  gi_left n : n ∈ left (g_graph st) -> n ∈ nodes;
  gi_gone n : n ∈ nodes -> n ∉ left (g_graph st) -> Completed n ∈ g_log st;
  gi_parked n d : d ∈ refs_of (g_graph st) n -> parked st n d;
  gi_mirror n d : n ∈ rrefs_of (g_graph st) d ->
    n ∈ nodes /\ (d ∈ refs_of (g_graph st) n \/ Completed d ∈ g_log st /\ (d, Worked) ∉ g_tasks st);
  gi_rrefs d : sset_wf (rrefs_of (g_graph st) d);
  gi_entry n d : entry (g_graph st) n -> dep n d -> d ∈ refs_of (g_graph st) n \/ Completed d ∈ g_log st;
  gi_log : log_ok (g_log st);
}.

Lemma log_completed_began n l : log_ok l -> Completed n ∈ l -> Began n ∈ l.
Proof.
  induction l as [|[m|m] l IH]; cbn [log_ok]; [by intros _ ?%elem_of_nil|..]; rewrite !elem_of_cons.
  - intros (_ & _ & _ & Hl) [[=]|Hn]. right. auto.
  - intros (Hb & _ & Hl) [[= ->]|Hn]; right; auto.
Qed.

(** A task that moves on. *)
Lemma ginv_tasks ts1 ts2 g l : ts1 ≡ₚ ts2 -> ginv (mkG ts1 g l) -> ginv (mkG ts2 g l).
Proof.
  intros Hp [H1 H2 H3 H4 H5 H6 H7 H8 H9]. cbn [g_tasks g_graph g_log] in *. split; cbn [g_tasks g_graph g_log].
  - by rewrite <- Hp.
  - intros n s. rewrite <- Hp. apply H2.
  - done.
  - done.
  - intros n d Hd. destruct (H5 n d Hd) as [? ? ? Ht ? ?]. split; try done. cbn [g_tasks] in *. by rewrite <- Hp.
  - intros n d Hn. rewrite <- Hp. by apply H6.
  - done.
  - done.
  - done.
Qed.
Lemma ginv_restage n s s' ts g l :
  ginv (mkG ((n, s) :: ts) g l) -> stage_ok g l n s' -> s' <> Worked ->
  ginv (mkG ((n, s') :: ts) g l).
Proof.
  intros [H1 H2 H3 H4 H5 H6 H7 H8 H9] Hs Hw. cbn [g_tasks g_graph g_log] in *. split; cbn [g_tasks g_graph g_log]; try done.
  - intros m t. rewrite elem_of_cons. intros [[= -> ->]|Hm].
    + split; [|done]. eapply (H2 n s). by left.
    + apply H2. by right.
  - intros m d Hd. by destruct (H5 m d Hd); split.
  - intros m d Hm. destruct (H6 m d Hm) as [? [?|[Hc Hn]]]; [by eauto|]. split; [done|]. right. split; [done|].
    rewrite not_elem_of_cons in Hn |- *. split; [congruence|apply Hn].
Qed.
Lemma ginv_drop ds ts g l : ginv (mkG (ds ++ ts) g l) -> ginv (mkG ts g l).
Proof.
  intros [H1 H2 H3 H4 H5 H6 H7 H8 H9]. cbn [g_tasks g_graph g_log] in *. split; cbn [g_tasks g_graph g_log]; try done.
  - rewrite fmap_app in H1. by apply NoDup_app in H1 as (_ & _ & ?).
  - intros m t Hm. apply H2, elem_of_app. by right.
  - intros m d Hd. destruct (H5 m d Hd) as [? ? ? Ht ? ?]. split; try done. cbn [g_tasks] in *.
    rewrite fmap_app, not_elem_of_app in Ht. apply Ht.
  - intros m d Hm. destruct (H6 m d Hm) as [? [?|[Hc Hn]]]; [by eauto|]. split; [done|]. right. split; [done|].
    rewrite not_elem_of_app in Hn. apply Hn.
Qed.

(** The head of the tasks is nowhere else. *)
Lemma ginv_head n s ts g l : ginv (mkG ((n, s) :: ts) g l) ->
  n ∈ left g /\ stage_ok g l n s /\ n ∉ ts.*1 /\ (forall d, d ∉ refs_of g n).
Proof.
  intros Hi. destruct (gi_tasks _ Hi n s) as [Hl Hs]; [by left|]. split; [done|]. split; [done|].
  destruct (proj1 (NoDup_cons _ _) (gi_nodup _ Hi)) as [Hn _]. split; [done|].
  intros d Hd. apply (gi_parked _ Hi) in Hd as [? ? ? Ht ? ?]. apply Ht. by left.
Qed.

(** A call that begins, its dependencies being completed. *)
Lemma ginv_begin n s ts g l :
  ginv (mkG ((n, s) :: ts) g l) -> s <> Worked -> Began n ∉ l -> entry g n -> (forall d, dep n d -> Completed d ∈ l) ->
  ginv (mkG ((n, Working) :: ts) g (Began n :: l)).
Proof.
  intros Hi Hsw Hb He Hd. destruct (ginv_head _ _ _ _ _ Hi) as (Hleft & Hs & Hn & Hr).
  destruct Hi as [H1 H2 H3 H4 H5 H6 H7 H8 H9]. cbn [g_tasks g_graph g_log] in *. split; cbn [g_tasks g_graph g_log]; try done.
  - intros m t. rewrite elem_of_cons. intros [[= -> ->]|Hm].
    + split; [done|]. split; [by left|]. split; [|done]. rewrite not_elem_of_cons. split; [done|].
      intros Hc. by apply Hb, log_completed_began.
    + destruct (H2 m t) as [Hl Ht]; [by right|]. split; [done|].
      assert (m <> n). { intros ->. apply Hn, list_elem_of_fmap. by exists (n, t). }
      destruct t; cbn [stage_ok] in *; unfold unstarted in *; set_solver.
  - intros m Hm Hm'. right. by apply H4.
  - intros m d Hmd. destruct (H5 m d Hmd) as [? ? ? Ht Hlog ?]. split; try done. cbn [g_log g_tasks] in *.
    rewrite not_elem_of_cons. split; [|done]. intros [= ->]. by eapply Hr.
  - intros m d Hm. destruct (H6 m d Hm) as [? [?|[Hc Hw]]]; [by eauto|]. split; [done|]. right.
    split; [by right|]. rewrite not_elem_of_cons in Hw |- *. split; [done|apply Hw].
  - intros m d Hm Hmd. destruct (H8 m d Hm Hmd); [by left|right; by right].
  - split; [by apply H3|]. done.
Qed.

Lemma stage_ok_register n es g l m t :
  m <> n -> (forall todo, t <> Freeing todo) -> stage_ok g l m t -> stage_ok (register n es g) l m t.
Proof.
  intros Hm Hf Ht. destruct t; cbn [stage_ok] in *; unfold unstarted in *; rewrite ?register_entry; try done.
  - split; [apply Ht|]. intros [?|?]; [done|]. by apply Ht.
  - split; [apply Ht|]. intros [?|?]; [done|]. by apply Ht.
  - destruct Ht as [[Hb He] Hes]. split; [|done]. split; [done|]. by intros [?|?].
  - split; [apply Ht|]. split; [apply Ht|]. right. apply Ht.
  - by destruct (Hf todo).
Qed.

(** The edges of [n] become known: it waits for the ones that are left. *)
Lemma ginv_register n es ts ts' g l :
  ginv (mkG ((n, Asked es) :: ts) g l) -> ~ freeing ts ->
  (ts' = ts \/ ts' = (n, Queued) :: ts /\ refs_of (register n es g) n = []) ->
  ginv (mkG ts' (register n es g) l).
Proof.
  intros Hi Hf Hts. destruct (ginv_head _ _ _ _ _ Hi) as (Hleft & [[Hb Hne] (es' & Hes & ->)] & Hn & Hr).
  destruct Hi as [H1 H2 H3 H4 H5 H6 H7 H8 H9]. cbn [g_tasks g_graph g_log] in *.
  assert (Hsub : forall m t, (m, t) ∈ ts' -> m = n /\ t = Queued \/ m <> n /\ (m, t) ∈ ts).
  { intros m t Hm. assert (Hmt : (m, t) ∈ ts -> m <> n) by (intros Hmt ->; apply Hn, list_elem_of_fmap; by exists (n, t)).
    destruct Hts as [->|[-> _]]; [by right; auto|]. apply elem_of_cons in Hm as [[= -> ->]|Hm]; [by left|right; auto]. }
  assert (Hcompl : forall m, Completed m ∈ l -> m <> n) by (intros m Hm ->; by apply Hb, log_completed_began).
  split; cbn [g_tasks g_graph g_log]; rewrite ?register_left; try done.
  - destruct Hts as [->|[-> _]]; [|exact H1]. by apply NoDup_cons in H1 as [_ ?].
  - intros m t Hm. destruct (Hsub m t Hm) as [[-> ->]|[Hmn Hm']]; [done|].
    destruct (H2 m t) as [? Ht]; [by right|]. split; [done|].
    apply stage_ok_register; [done| |done]. intros todo ->. apply Hf. by eexists _, _.
  - intros m d Hd. assert (Hd' := Hd). rewrite register_refs in Hd. destruct Hd as [Hd|(-> & Hd & Hdl)].
    + destruct (H5 m d Hd) as [? ? ? Ht ? ?]. split; cbn [g_tasks g_graph g_log] in *; rewrite ?register_left; try done.
      * rewrite fmap_cons, not_elem_of_cons in Ht. destruct Ht as [Hmn Ht].
        intros ([? t] & -> & Hm)%list_elem_of_fmap. destruct (Hsub _ _ Hm) as [[? _]|[_ Hm']]; [done|].
        apply Ht, list_elem_of_fmap. by eexists.
      * rewrite register_rrefs. by left.
    + assert (ts' = ts) as ->.
      { destruct Hts as [?|[_ E]]; [done|]. rewrite E in Hd'. by apply elem_of_nil in Hd'. }
      apply sset_erase_elem in Hd as [Hdn Hd]. split; cbn [g_tasks g_graph g_log]; rewrite ?register_left; try done.
      * split; [by apply H3|]. split; [done|]. by exists es'.
      * rewrite register_rrefs. right. rewrite sset_erase_elem. done.
  - intros m d Hm. rewrite register_rrefs in Hm. destruct Hm as [Hm|(-> & Hd & Hdl)].
    + destruct (H6 m d Hm) as [? [?|[Hc Hw]]]; split; try done; [left; rewrite register_refs; by left|]. right. split; [done|].
      intros Hm'. destruct (Hsub _ _ Hm') as [[_ ?]|[_ ?]]; [done|]. apply Hw. by right.
    + split; [by apply H3|]. left. rewrite register_refs. by right.
  - intros d. by apply register_rrefs_wf.
  - intros m d He Hd. rewrite register_refs. rewrite register_entry in He. destruct (decide (m = n)) as [->|Hmn].
    + destruct Hd as (Hdn & Hdne & es2 & Hes2 & Hd). rewrite Hes in Hes2. injection Hes2 as <-.
      destruct (decide (d ∈ left g)) as [Hdl|Hdl]; [|right; by apply H4]. left. right.
      split; [done|]. by rewrite sset_erase_elem.
    + destruct He as [?|He]; [done|]. destruct (H8 m d He Hd); [left; by left|by right].
Qed.
Lemma dep_completed_register n es ts g l :
  ginv (mkG ((n, Asked es) :: ts) g l) -> refs_of (register n es g) n = [] -> forall d, dep n d -> Completed d ∈ l.
Proof.
  intros Hi Hr d (Hd & Hne & es2 & Hes2 & Hin). destruct (ginv_head _ _ _ _ _ Hi) as (_ & [_ (es' & Hes & ->)] & _ & _).
  rewrite Hes in Hes2. injection Hes2 as <-. apply (gi_gone _ Hi); [done|]. cbn [g_graph]. intros Hl.
  assert (Hd' : d ∈ refs_of (register n (sset_erase n es') g) n).
  { rewrite register_refs. right. by rewrite sset_erase_elem. }
  rewrite Hr in Hd'. by apply elem_of_nil in Hd'.
Qed.

Lemma ginv_complete n ts g l :
  ginv (mkG ((n, Working) :: ts) g l) -> ginv (mkG ((n, Worked) :: ts) g (Completed n :: l)).
Proof.
  intros Hi. destruct (ginv_head _ _ _ _ _ Hi) as (Hleft & (Hb & Hc & He) & Hn & Hr).
  destruct Hi as [H1 H2 H3 H4 H5 H6 H7 H8 H9]. cbn [g_tasks g_graph g_log] in *. split; cbn [g_tasks g_graph g_log]; try done.
  - intros m t. rewrite elem_of_cons. intros [[= -> ->]|Hm]; [by split; [|left]|].
    destruct (H2 m t) as [Hl Ht]; [by right|]. split; [done|].
    assert (m <> n) by (intros ->; apply Hn, list_elem_of_fmap; by exists (n, t)).
    destruct t; cbn [stage_ok] in *; unfold unstarted in *; set_solver.
  - intros m Hm Hm'. right. by apply H4.
  - intros m d Hmd. destruct (H5 m d Hmd) as [? ? ? Ht Hlog ?]. split; try done. cbn [g_log].
    by rewrite not_elem_of_cons.
  - intros m d Hm. destruct (H6 m d Hm) as [? [?|[Hd Hw]]]; split; [done|by left|done|]. right. split; [by right|].
    rewrite not_elem_of_cons in Hw |- *. split; [|apply Hw]. congruence.
  - intros m d Hm Hmd. destruct (H8 m d Hm Hmd); [by left|right; by right].
Qed.

Lemma drop_ref_refs_eq n r g : refs_of (drop_ref n r g) r = sset_erase n (refs_of g r).
Proof. unfold refs_of at 1, drop_ref. cbn [refs]. rewrite edges_of_insert. by rewrite decide_True. Qed.
Lemma drop_ref_refs_ne n r g x : x <> r -> refs_of (drop_ref n r g) x = refs_of g x.
Proof. intros Hx. unfold refs_of, drop_ref. cbn [refs]. by rewrite edges_of_insert, decide_False. Qed.
Lemma drop_ref_refs n r g x d : d ∈ refs_of (drop_ref n r g) x <-> d ∈ refs_of g x /\ ~ (x = r /\ d = n).
Proof.
  unfold refs_of, drop_ref. cbn [refs]. rewrite edges_of_insert. case_decide; [|naive_solver].
  subst. rewrite sset_erase_elem. unfold refs_of. naive_solver.
Qed.
Lemma drop_ref_entry n r g x : entry g r -> entry (drop_ref n r g) x <-> entry g x.
Proof.
  intros Hr. unfold entry, drop_ref. cbn [refs]. rewrite smap_lookup_insert. case_decide; [|done]. subst. split; [done|eauto].
Qed.
(** Only the edge from [r] to [n] goes away. *)
Lemma stage_ok_drop_ref n r g l m t : m <> n -> entry g r -> stage_ok g l m t -> stage_ok (drop_ref n r g) l m t.
Proof.
  intros Hm Hr Ht. destruct t; cbn [stage_ok] in *; unfold unstarted in *; rewrite ?drop_ref_entry by done; try done.
  destruct Ht as (? & ? & Ht). split; [done|]. split; [done|]. intros x. rewrite drop_ref_refs, <- Ht. naive_solver.
Qed.
Lemma ginv_release n r todo ts q g l :
  ginv (mkG ((n, Freeing (r :: todo)) :: ts) g l) ->
  (q = [] \/ q = [(r, Queued)] /\ sset_erase n (refs_of g r) = []) ->
  ginv (mkG ((n, Freeing todo) :: q ++ ts) (drop_ref n r g) l).
Proof.
  intros Hi Hq. destruct (ginv_head _ _ _ _ _ Hi) as (Hleft & (Hc & Hnd & Hfr) & Hn & Hr).
  destruct Hi as [H1 H2 H3 H4 H5 H6 H7 H8 H9]. cbn [g_tasks g_graph g_log] in *.
  assert (Hnr : n ∈ refs_of g r) by (apply Hfr; by left). assert (He : entry g r) by (by eapply edges_of_entry).
  destruct (H5 r n Hnr) as [Hrl _ _ Hrt Hrb _]. cbn [g_tasks g_graph g_log] in *.
  assert (Hq1 : forall m t, (m, t) ∈ q -> m = r /\ t = Queued /\ forall d, d ∉ refs_of (drop_ref n r g) r).
  { intros m t Hm. destruct Hq as [->|[-> E]]; [by apply elem_of_nil in Hm|].
    apply list_elem_of_singleton in Hm as [= -> ->]. split; [done|]. split; [done|]. intros d.
    rewrite drop_ref_refs. intros [Hd Hdn]. assert (Hd' : d ∈ sset_erase n (refs_of g r)) by (apply sset_erase_elem; naive_solver).
    rewrite E in Hd'. by apply elem_of_nil in Hd'. }
  rewrite fmap_cons, not_elem_of_cons in Hrt. destruct Hrt as [Hrn Hrt]. cbn [fst] in Hrn.
  apply NoDup_cons in Hnd as [Hrtodo Hnd].
  assert (Hin : forall m t, (m, t) ∈ (n, Freeing todo) :: q ++ ts -> (m, t) = (n, Freeing todo) \/ (m, t) ∈ q \/ (m, t) ∈ ts).
  { intros m t. by rewrite elem_of_cons, elem_of_app. }
  split; cbn [g_tasks g_graph g_log]; try done.
  - rewrite fmap_cons, fmap_app. cbn [fst]. destruct Hq as [->|[-> _]]; [exact H1|].
    apply NoDup_cons in H1 as [_ H1]. apply NoDup_cons. split; [|by apply NoDup_cons].
    cbn [fmap list_fmap app fst]. by rewrite not_elem_of_cons.
  - intros m t [[= -> ->]|[Hm|Hm]]%Hin; cbn [drop_ref left].
    + split; [done|]. split; [done|]. split; [done|]. intros x. rewrite drop_ref_refs, Hfr, elem_of_cons. set_solver.
    + by destruct (Hq1 m t Hm) as (-> & -> & _).
    + destruct (H2 m t) as [? Ht]; [by right|]. split; [done|]. apply stage_ok_drop_ref; [|done|done].
      intros ->. apply Hn, list_elem_of_fmap. by exists (n, t).
  - intros m d Hd. assert (Hd' := Hd). rewrite drop_ref_refs in Hd. destruct Hd as [Hd Hdn].
    destruct (H5 m d Hd) as [? ? ? Ht ? ?]. split; try done. cbn [g_tasks] in *.
    intros ([m' t] & -> & Hm)%list_elem_of_fmap. cbn [fst] in *. apply Hin in Hm as [[= -> ->]|[Hm|Hm]].
    + apply Ht. by left.
    + destruct (Hq1 _ _ Hm) as (-> & _ & Hno). by apply (Hno d).
    + apply Ht. right. apply list_elem_of_fmap. by exists (m', t).
  - intros m d Hm. destruct (H6 m d Hm) as [? Hor]. split; [done|]. rewrite drop_ref_refs.
    assert (Hw : forall d, d ∉ ts.*1 \/ (d, Worked) ∉ ts -> (d, Worked) ∉ (n, Freeing todo) :: q ++ ts).
    { intros d' Hd' [[=]|[Hm'|Hm']]%Hin; [by destruct (Hq1 _ _ Hm') as (_ & [=] & _)|]. destruct Hd' as [Hd'|Hd']; [|done].
      apply Hd', list_elem_of_fmap. by exists (d', Worked). }
    destruct Hor as [Hd|[Hd Hd']].
    + destruct (decide (m = r /\ d = n)) as [[-> ->]|Hne]; [|by left]. right. split; [done|]. apply Hw. by left.
    + right. split; [done|]. apply Hw. right. intros Hin'. apply Hd'. by right.
  - intros m d He' Hd. rewrite drop_ref_entry in He' by done. rewrite drop_ref_refs.
    destruct (H8 m d He' Hd) as [Hmd|?]; [|by right]. destruct (decide (m = r /\ d = n)) as [[-> ->]|]; [by right|by left].
Qed.

Lemma ginv_forget n ts g l : ginv (mkG ((n, Freeing []) :: ts) g l) -> ginv (mkG ts (forget n g) l).
Proof.
  intros Hi. destruct (ginv_head _ _ _ _ _ Hi) as (Hleft & (Hc & _ & Hfr) & Hn & Hr).
  destruct Hi as [H1 H2 H3 H4 H5 H6 H7 H8 H9]. cbn [g_tasks g_graph g_log] in *.
  assert (Hrefs : forall x d, d ∈ refs_of (forget n g) x <-> d ∈ refs_of g x).
  { intros x d. unfold refs_of, forget. cbn [refs]. rewrite edges_of_erase. case_decide; [|done]. subst.
    split; [by intros ?%elem_of_nil|]. intros Hd. by destruct (Hr d). }
  assert (Hrrefs : forall x, rrefs_of (forget n g) x = if decide (x = n) then [] else rrefs_of g x).
  { intros x. unfold rrefs_of, forget. cbn [rrefs]. apply edges_of_erase. }
  assert (Hentry : forall x, entry (forget n g) x <-> x <> n /\ entry g x).
  { intros x. unfold entry, forget. cbn [refs]. rewrite smap_lookup_erase. case_decide; [|naive_solver].
    split; [by intros [? [=]]|naive_solver]. }
  assert (Hne : forall x, n ∉ refs_of g x) by (intros x Hx%Hfr; by apply elem_of_nil in Hx).
  split; cbn [g_tasks g_graph g_log].
  - by apply NoDup_cons in H1 as [_ ?].
  - intros m t Hm. assert (Hmn : m <> n) by (intros ->; apply Hn, list_elem_of_fmap; by exists (n, t)).
    destruct (H2 m t) as [? Ht]; [by right|]. split; [by apply sset_erase_elem|].
    destruct t; cbn [stage_ok] in *; unfold unstarted in *; rewrite ?Hentry; try naive_solver.
  - intros m [_ Hm]%sset_erase_elem. by apply H3.
  - intros m Hm Hm'. cbn [forget left] in Hm'. rewrite sset_erase_elem in Hm'. destruct (decide (m = n)) as [->|]; [done|].
    apply H4; [done|]. naive_solver.
  - intros m d Hd. rewrite Hrefs in Hd. destruct (H5 m d Hd) as [? ? ? Ht ? ?]. cbn [g_tasks g_graph g_log] in *.
    assert (d <> n) by (intros ->; by apply (Hne m)). rewrite fmap_cons, not_elem_of_cons in Ht. destruct Ht as [Hmn Ht].
    split; cbn [g_tasks g_graph g_log forget left]; try done.
    + by apply sset_erase_elem.
    + by apply sset_erase_elem.
    + by rewrite Hrrefs, decide_False.
  - intros m d. rewrite Hrrefs, Hrefs. case_decide as Hdn; [by intros ?%elem_of_nil|]. intros Hm.
    destruct (H6 m d Hm) as [? [?|[? Hw]]]; split; [done|by left|done|]. right. split; [done|]. by intros ?; apply Hw; right.
  - intros d. rewrite Hrrefs. case_decide; [apply SSorted_nil|done].
  - intros m d [_ He]%Hentry Hd. rewrite Hrefs. by apply H8.
  - done.
Qed.

(** ** Steps keep the invariant *)

Lemma gmove_inv st st' : gmove st st' -> ginv st -> ginv st'.
Proof.
  intros Hm Hi. destruct Hm as [n s s' ts ts1 ts2 g l E1 E2 Hs|n ts ts1 ts2 g l E1 E2 He|n es ts ts1 ts2 g l E1 E2 Hf Hr
    |n es ts ts1 ts2 g l E1 E2 Hf Hr|n ts ts1 ts2 g l E1 E2|n ts ts1 ts2 g l E1 E2 Hf|n r todo ts ts1 ts2 g l E1 E2
    |n ts ts1 ts2 g l E1 E2]; apply (ginv_tasks _ _ _ _ E1) in Hi; eapply ginv_tasks; try (symmetry; exact E2).
  - destruct (ginv_head _ _ _ _ _ Hi) as (_ & Hok & _).
    destruct Hs; (eapply ginv_restage; [exact Hi| |done]); cbn [stage_ok] in *; [apply Hok|done|by split|by eauto].
  - destruct (ginv_head _ _ _ _ _ Hi) as (_ & Hok & _ & Hr). eapply ginv_begin; [exact Hi|done|exact Hok|done|].
    intros d Hd. destruct (gi_entry _ Hi n d He Hd) as [Hd'|?]; [|done]. by apply Hr in Hd'.
  - destruct (ginv_head _ _ _ _ _ Hi) as (_ & [[Hb _] _] & _).
    eapply ginv_begin; [eapply (ginv_register n es ts _ g l Hi Hf); by right| |..]; try done.
    + rewrite register_entry. by left.
    + by eapply dep_completed_register.
  - eapply (ginv_register n es ts _ g l Hi Hf). by left.
  - by apply ginv_complete.
  - destruct (ginv_head _ _ _ _ _ Hi) as (_ & Hok & Hn & _). eapply ginv_restage; [exact Hi| |done].
    split; [exact Hok|]. split; [apply sset_nodup, (gi_rrefs _ Hi)|]. intros x. split.
    + intros Hx. apply (pk_rref _ _ _ (gi_parked _ Hi x n Hx)).
    + intros Hx. destruct (gi_mirror _ Hi x n Hx) as [_ [?|[_ Hw]]]; [done|]. exfalso. apply Hw. by left.
  - apply (ginv_release n r todo); [done|]. case_bool_decide; [by right|by left].
  - by eapply ginv_forget.
Qed.
Lemma gdrop_inv st st' : gdrop st st' -> ginv st -> ginv st'.
Proof.
  intros Hm Hi. destruct Hm as [ds ts ts1 ts2 g l E1 E2|n r todo ts ts1 ts2 g l E1 E2];
    apply (ginv_tasks _ _ _ _ E1) in Hi; apply (ginv_tasks ts); try done.
  - by eapply ginv_drop.
  - eapply (ginv_drop [_]), (ginv_release n r todo ts []); [done|by left].
Qed.

Lemma ginv_init : sset_wf nodes -> ginv (mkG ((fun n => (n, New)) <$> nodes) (mkGraph nodes [] []) []).
Proof.
  intros Hn. assert (Hnil : forall n d, d ∉ refs_of (mkGraph nodes [] []) n) by (intros n d; apply not_elem_of_nil).
  split; cbn [g_tasks g_graph g_log].
  - rewrite <- list_fmap_compose. cbn. rewrite list_fmap_id. by apply sset_nodup.
  - intros n s (m & [= -> ->] & Hm)%list_elem_of_fmap. split; [done|]. split; [apply not_elem_of_nil|]. by intros [? [=]].
  - done.
  - done.
  - intros n d Hd. by apply Hnil in Hd.
  - intros n d Hd. by apply elem_of_nil in Hd.
  - intros d. apply SSorted_nil.
  - intros n d [? [=]].
  - done.
Qed.

(** ** Nothing is forgotten *)

(** Every node that is left has a task or waits for another node. *)
Definition gcov (st : GState) : Prop :=
  forall n, n ∈ left (g_graph st) -> n ∈ (g_tasks st).*1 \/ refs_of (g_graph st) n <> [].

Lemma gmove_cov st st' : gmove st st' -> ginv st -> gcov st -> gcov st'.
Proof.
  intros Hm Hi Hc. destruct Hm as [n s s' ts ts1 ts2 g l E1 E2 Hs|n ts ts1 ts2 g l E1 E2 He|n es ts ts1 ts2 g l E1 E2 Hf Hr
    |n es ts ts1 ts2 g l E1 E2 Hf Hr|n ts ts1 ts2 g l E1 E2|n ts ts1 ts2 g l E1 E2 Hf|n r todo ts ts1 ts2 g l E1 E2
    |n ts ts1 ts2 g l E1 E2]; intros m Hm'; specialize (Hc m); cbn [g_tasks g_graph] in *;
    rewrite E2; rewrite E1 in Hc; rewrite ?fmap_cons in *; cbn [fst] in *.
  - by apply Hc.
  - by apply Hc.
  - rewrite register_left in Hm'. destruct (decide (m = n)) as [->|Hne]; [left; by left|].
    rewrite register_refs_ne by done. by apply Hc.
  - rewrite register_left in Hm'. destruct (decide (m = n)) as [->|Hne]; [by right|].
    rewrite register_refs_ne by done. destruct (Hc Hm') as [[?|?]%elem_of_cons|?]; [done|by left|by right].
  - by apply Hc.
  - by apply Hc.
  - destruct (Hc Hm') as [[->|Hin]%elem_of_cons|Hne]; [left; by left|left; right; rewrite fmap_app, elem_of_app; by right|].
    destruct (decide (m = r)) as [->|Hmr].
    + case_bool_decide as E; [left; right; by left|]. right. by rewrite drop_ref_refs_eq.
    + right. by rewrite drop_ref_refs_ne.
  - cbn [forget left] in Hm'. apply sset_erase_elem in Hm' as [Hmn Hm'].
    destruct (Hc Hm') as [[?|?]%elem_of_cons|?]; [done|by left|]. right. unfold refs_of, forget. cbn [refs].
    by rewrite edges_of_erase, decide_False.
Qed.

(** ** The work that is left *)

Definition weight (g : Graph (T := T)) (t : T * stage) : nat :=
  let N := length nodes in
  match t.2 with
  | New => N + 11
  | Queued => if decide (entry g t.1) then N + 5 else N + 10
  | Started => if decide (entry g t.1) then N + 4 else N + 9
  | Asking => N + 8
  | Asked _ => N + 7
  | Working => N + 3
  | Worked => N + 2
  | Freeing todo => S (length todo)
  end.
Definition waits (g : Graph (T := T)) n : nat := if decide (refs_of g n = []) then 0 else 1.
Definition gwork (st : GState) : nat :=
  sum_list_with (weight (g_graph st)) (g_tasks st) + (length nodes + 6) * sum_list_with (waits (g_graph st)) nodes.

Lemma sum_list_with_ext {A} (f h : A -> nat) l : (forall x, x ∈ l -> f x = h x) -> sum_list_with f l = sum_list_with h l.
Proof.
  induction l as [|x l IH]; intros Hfh; [done|]. cbn [sum_list_with]. rewrite Hfh by (by left).
  f_equal. apply IH. intros y Hy. apply Hfh. by right.
Qed.
(** Only the summand of [n] changes. *)
Lemma sum_list_with_change (f h : T -> nat) n l : NoDup l -> n ∈ l -> (forall x, x <> n -> f x = h x) ->
  sum_list_with f l + h n = sum_list_with h l + f n.
Proof.
  intros Hl Hn Hfh. apply list_elem_of_split in Hn as (l1 & l2 & ->).
  apply NoDup_app in Hl as (_ & Hd & Hl2). apply NoDup_cons in Hl2 as [Hn2 _].
  rewrite !sum_list_with_app. cbn [sum_list_with].
  rewrite (sum_list_with_ext f h l1), (sum_list_with_ext f h l2); [lia|..]; intros x Hx; apply Hfh; intros ->; [done|].
  apply (Hd n Hx). by left.
Qed.
Lemma weight_ext g g' ts : (forall m s, (m, s) ∈ ts -> entry g' m <-> entry g m) ->
  sum_list_with (weight g') ts = sum_list_with (weight g) ts.
Proof.
  intros Hg. apply sum_list_with_ext. intros [m s] Hm. unfold weight. cbn [fst snd]. specialize (Hg m s Hm).
  destruct s; try done; destruct (decide (entry g' m)), (decide (entry g m)); tauto.
Qed.
Lemma rrefs_length st d : ginv st -> length (rrefs_of (g_graph st) d) <= length nodes.
Proof.
  intros Hi. apply submseteq_length, NoDup_submseteq; [apply sset_nodup, (gi_rrefs _ Hi)|].
  intros n Hn. by destruct (gi_mirror _ Hi n d Hn).
Qed.

Hypothesis nodes_wf : sset_wf nodes.

Lemma waits_change n g g' : n ∈ nodes -> (forall x, x <> n -> refs_of g' x = refs_of g x) ->
  sum_list_with (waits g') nodes + waits g n = sum_list_with (waits g) nodes + waits g' n.
Proof.
  intros Hn Hx. apply sum_list_with_change; [by apply sset_nodup|done|]. intros x Hx'. unfold waits. by rewrite Hx.
Qed.
Lemma task_ne m s n (ts : list (T * stage)) : n ∉ ts.*1 -> (m, s) ∈ ts -> m <> n.
Proof. intros Hn Hm ->. apply Hn, list_elem_of_fmap. by exists (n, s). Qed.

Lemma release_work n r todo ts g l : ginv (mkG ((n, Freeing (r :: todo)) :: ts) g l) ->
  sum_list_with (weight (drop_ref n r g)) ts = sum_list_with (weight g) ts /\
  sum_list_with (waits (drop_ref n r g)) nodes + 1
    = sum_list_with (waits g) nodes + (if bool_decide (sset_erase n (refs_of g r) = []) then 0 else 1) /\
  weight (drop_ref n r g) (r, Queued) = length nodes + 5.
Proof.
  intros Hi. destruct (ginv_head _ _ _ _ _ Hi) as (_ & (_ & _ & Hfr) & Hn & _).
  assert (Hnr : n ∈ refs_of g r) by (apply Hfr; by left). assert (He : entry g r) by (by eapply edges_of_entry).
  assert (Hrl := pk_left _ _ _ (gi_parked _ Hi r n Hnr)). cbn [g_graph] in Hrl. split_and!.
  - apply weight_ext. intros m s _. by apply drop_ref_entry.
  - assert (E := waits_change r g (drop_ref n r g)).
    assert (E1 : waits g r = 1).
    { unfold waits. rewrite decide_False; [done|]. intros E'. rewrite E' in Hnr. by apply elem_of_nil in Hnr. }
    assert (E2 : waits (drop_ref n r g) r = if bool_decide (sset_erase n (refs_of g r) = []) then 0 else 1).
    { unfold waits. rewrite drop_ref_refs_eq. by case_bool_decide; case_decide. }
    rewrite E1, E2 in E. apply E; [by apply (gi_left _ Hi)|apply drop_ref_refs_ne].
  - unfold weight. cbn [fst snd]. rewrite decide_True; [done|]. by apply drop_ref_entry.
Qed.

(** Every step does some of it. *)
Lemma gmove_work st st' : gmove st st' -> ginv st -> gwork st' < gwork st.
Proof.
  intros Hm Hi. unfold gwork. destruct Hm as [n s s' ts ts1 ts2 g l E1 E2 Hs|n ts ts1 ts2 g l E1 E2 He
    |n es ts ts1 ts2 g l E1 E2 Hf Hr|n es ts ts1 ts2 g l E1 E2 Hf Hr|n ts ts1 ts2 g l E1 E2|n ts ts1 ts2 g l E1 E2 Hf
    |n r todo ts ts1 ts2 g l E1 E2|n ts ts1 ts2 g l E1 E2]; cbn [g_tasks g_graph]; rewrite E1, E2;
    apply (ginv_tasks _ _ _ _ E1) in Hi; assert (Hh := ginv_head _ _ _ _ _ Hi); destruct Hh as (Hl & Hok & Hn & Hnr);
    cbn [sum_list_with].
  - destruct Hs; unfold weight; cbn [fst snd]; repeat destruct (decide _); try done; lia.
  - unfold weight at 1 3. cbn [fst snd]. rewrite decide_True by done. lia.
  - rewrite (weight_ext g (register n es g) ts).
    + assert (E := waits_change n g (register n es g) (gi_left _ Hi n Hl) (register_refs_ne n es g)).
      unfold waits at 2 4 in E. rewrite Hr in E. rewrite (decide_True (P := [] = [])) in E by done.
      unfold weight at 1 3. cbn [fst snd]. nia.
    + intros m s Hm. apply (task_ne _ _ _ _ Hn) in Hm. rewrite register_entry. naive_solver.
  - rewrite (weight_ext g (register n es g) ts).
    + assert (E := waits_change n g (register n es g) (gi_left _ Hi n Hl) (register_refs_ne n es g)).
      unfold waits at 2 4 in E. rewrite (decide_False (P := refs_of (register n es g) n = [])) in E by done.
      rewrite (decide_True (P := refs_of g n = [])) in E by (by apply elem_of_nil_inv).
      unfold weight at 2. cbn [fst snd]. nia.
    + intros m s Hm. apply (task_ne _ _ _ _ Hn) in Hm. rewrite register_entry. naive_solver.
  - unfold weight at 1 3. cbn [fst snd]. lia.
  - unfold weight at 1 3. cbn [fst snd]. assert (Hlen := rrefs_length _ n Hi). cbn [g_graph] in Hlen. lia.
  - destruct (release_work _ _ _ _ _ _ Hi) as (W1 & W2 & W3). rewrite sum_list_with_app, W1.
    change (weight _ (n, Freeing todo)) with (S (length todo)).
    change (weight _ (n, Freeing (r :: todo))) with (S (S (length todo))).
    case_bool_decide; cbn [sum_list_with]; rewrite ?W3; nia.
  - rewrite (weight_ext g (forget n g) ts).
    + assert (E := waits_change n g (forget n g) (gi_left _ Hi n Hl)).
      assert (Hf : refs_of (forget n g) n = []).
      { unfold refs_of, forget. cbn [refs]. by rewrite edges_of_erase, decide_True. }
      unfold waits at 2 4 in E. rewrite Hf, (decide_True (P := [] = [])) in E by done.
      unfold weight at 2. cbn [fst snd length]. enough (sum_list_with (waits (forget n g)) nodes + 0 <= sum_list_with (waits g) nodes) by nia.
      rewrite <- Nat.add_0_r, <- E; [lia|]. intros x Hx. unfold refs_of, forget. cbn [refs]. by rewrite edges_of_erase, decide_False.
    + intros m s Hm. apply (task_ne _ _ _ _ Hn) in Hm. unfold entry, forget. cbn [refs].
      by rewrite smap_lookup_erase, decide_False.
Qed.
Lemma gdrop_work st st' : gdrop st st' -> ginv st -> gwork st' < gwork st.
Proof.
  intros Hm Hi. unfold gwork. destruct Hm as [ds ts ts1 ts2 g l E1 E2 Hds|n r todo ts ts1 ts2 g l E1 E2];
    cbn [g_tasks g_graph]; rewrite E1, E2; apply (ginv_tasks _ _ _ _ E1) in Hi.
  - rewrite sum_list_with_app. destruct ds as [|[n s] ds]; [done|]. cbn [sum_list_with].
    assert (0 < weight g (n, s)) by (unfold weight; cbn [fst snd]; destruct s; try case_decide; lia). lia.
  - destruct (release_work _ _ _ _ _ _ Hi) as (W1 & W2 & W3). cbn [sum_list_with]. rewrite W1.
    unfold weight at 2. cbn [fst snd length]. case_bool_decide; nia.
Qed.

(** ** Cycles *)

(** A chain of dependencies that ends in [x]. *)
Lemma cycle_or_chain l k : l <> [] -> (forall n, n ∈ l -> exists d, d ∈ l /\ dep n d) ->
  (exists n, tc dep n n) \/
  exists x c, length (x :: c) = S k /\ NoDup (x :: c) /\ (forall y, y ∈ x :: c -> y ∈ l /\ rtc dep y x).
Proof.
  intros Hl Hd. induction k as [|k [IH|(x & c & Hk & Hnd & Hc)]]; [|by left|].
  - right. destruct l as [|x l]; [done|]. exists x, []. split; [done|]. split; [apply NoDup_singleton|].
    intros y ->%list_elem_of_singleton. split; [by left|done].
  - destruct (Hd x) as (d & Hdl & Hxd); [apply Hc; by left|]. destruct (decide (d ∈ x :: c)) as [Hin|Hin].
    + left. exists d. destruct (Hc d Hin) as [_ Hr]. eapply tc_rtc_l; [exact Hr|by apply tc_once].
    + right. exists d, (x :: c). split; [by cbn [length] in *; lia|]. split; [by apply NoDup_cons|].
      intros y [->|Hy]%elem_of_cons; [done|]. destruct (Hc y Hy). split; [done|]. by eapply rtc_r.
Qed.
Lemma finite_cycle l : l <> [] -> (forall n, n ∈ l -> exists d, d ∈ l /\ dep n d) -> exists n, tc dep n n.
Proof.
  intros Hl Hd. destruct (cycle_or_chain l (length l) Hl Hd) as [?|(x & c & Hk & Hnd & Hc)]; [done|].
  assert (Hlen : length (x :: c) <= length l).
  { apply submseteq_length, NoDup_submseteq; [done|]. intros y Hy. by apply Hc. }
  lia.
Qed.
End task_graph.
