(* ===== verification/ThreadPoolInv.v ===== *)
(** * The invariant of the thread pool (libutil/thread-pool.cc)

    What holds of the threads, the locks and the flags between any two steps of
    [processGraph], and that every step keeps it. The graph itself is the subject
    of TaskGraph: [abs] forgets the threads, and a step of the pool is a step of
    the tasks, or invisible there. *)

From stdpp Require Import relations.
From S2P Require Import Prelude.
From S2P Require Import Containers.
From S2P Require Import ThreadPool.
From S2P Require Import TaskGraph.

Section pool_inv.
Context {T : Type} `{OrdKey T}.
Context (nodes : list T) (getEdges : T -> exn + list T) (processNode : T -> option exn) (maxThreads : nat).
Implicit Types (st : Pool (T := T)) (p q : pc (T := T)).

(** ** The tasks of the threads *)

Definition pc_tasks p : list (T * stage (T := T)) :=
  match p with
  | Enqueueing rest => (fun n => (n, New)) <$> rest
  | Start n => [(n, Started)]
  | GetRefs n => [(n, Asking)]
  | GotRefs n es => [(n, Asked es)]
  | DoWork n => [(n, Working)]
  | Processed n => [(n, Worked)]
  | Releasing n todo => [(n, Freeing todo)]
  | _ => []
  end.
Definition thread_tasks (l : list (pc (T := T))) : list (T * stage (T := T)) := concat (pc_tasks <$> l).
Definition tasks st : list (T * stage (T := T)) := ((fun n => (n, Queued)) <$> pending st) ++ thread_tasks (threads st).
Definition abs st : GState := mkG (tasks st) (graph st) (log st).

Lemma thread_tasks_split l i p : l !! i = Some p ->
  exists ts, thread_tasks l ≡ₚ pc_tasks p ++ ts /\ forall q, thread_tasks (<[i := q]> l) ≡ₚ pc_tasks q ++ ts.
Proof.
  intros Hi. exists (thread_tasks (take i l) ++ thread_tasks (drop (S i) l)). unfold thread_tasks. split.
  - rewrite <- (take_drop_middle l i p Hi) at 1. rewrite fmap_app, concat_app, fmap_cons. cbn [concat].
    by rewrite Permutation_app_swap_app.
  - intros q. rewrite insert_take_drop by (by eapply lookup_lt_Some).
    rewrite fmap_app, concat_app, fmap_cons. cbn [concat]. by rewrite Permutation_app_swap_app.
Qed.
Lemma tasks_split st i p : threads st !! i = Some p ->
  exists ts, tasks st ≡ₚ pc_tasks p ++ ts /\ forall q, tasks (set_thread i q st) ≡ₚ pc_tasks q ++ ts.
Proof.
  intros Hi. destruct (thread_tasks_split _ _ _ Hi) as (ts & H1 & H2). unfold tasks. cbn [pending threads].
  exists (((fun n => (n, Queued)) <$> pending st) ++ ts). split; [|intros q]; rewrite ?H1; cbn [set_thread set_threads pending threads];
    rewrite ?H2; by rewrite Permutation_app_swap_app.
Qed.
Lemma pc_tasks_awake p : pc_tasks (awake p) = pc_tasks p.
Proof. by destruct p. Qed.
Lemma thread_tasks_awake l : thread_tasks (awake <$> l) = thread_tasks l.
Proof.
  unfold thread_tasks. rewrite <- list_fmap_compose. f_equal. apply list_fmap_ext. intros i p _. apply pc_tasks_awake.
Qed.
Lemma tasks_quit_all st : tasks (quit_all st) = tasks st.
Proof. unfold tasks. cbn [quit_all pending threads]. by rewrite thread_tasks_awake. Qed.
Lemma thread_tasks_wake l i : l !! i = Some Waiting -> thread_tasks (<[i := Idle]> l) ≡ₚ thread_tasks l.
Proof. intros Hi. destruct (thread_tasks_split _ _ _ Hi) as (ts & H1 & H2). by rewrite H1, H2. Qed.

(** A thread with a work item. *)
Definition busy p : nat :=
  match p with
  | Finished _ | Start _ | GetRefs _ | GotRefs _ _ | DoWork _ | Processed _ | Releasing _ _ => 1
  | _ => 0
  end.
Lemma sum_list_with_insert {A} (f : A -> nat) (l : list A) (i : nat) (x y : A) : l !! i = Some x ->
  sum_list_with f (<[i := y]> l) + f x = sum_list_with f l + f y.
Proof.
  intros Hi. rewrite insert_take_drop by (by eapply lookup_lt_Some). rewrite <- (take_drop_middle l i x Hi) at 3.
  rewrite !sum_list_with_app. cbn [sum_list_with]. lia.
Qed.

(** Waking up sleeping threads and starting new ones. *)
Definition woken (l l' : list (pc (T := T))) : Prop :=
  forall (i : nat) p, l' !! i = Some p -> l !! i = Some p \/ p = Idle /\ (l !! i = Some Waiting \/ l !! i = None /\ 0 < i).

Lemma enqueue_spec wake n st st' : 0 < length (threads st) -> enqueue maxThreads wake n st = Some st' ->
  exists l, st' = set_threads l (set_pending (pending st ++ [n]) st) /\ woken (threads st) l /\
    length (threads st) <= length l /\ length l <= Nat.max (length (threads st)) maxThreads /\
    (forall (i : nat) p, threads st !! i = Some p -> p <> Waiting -> l !! i = Some p) /\
    thread_tasks l ≡ₚ thread_tasks (threads st) /\
    sum_list_with busy l = sum_list_with busy (threads st).
Proof.
  intros Hlen. unfold enqueue. cbv zeta. match goal with |- context [notify_one _ ?s] => set (st1 := s) end.
  assert (E : exists k, st1 = set_threads (threads st ++ replicate k Idle) (set_pending (pending st ++ [n]) st) /\
                length (threads st) + k <= Nat.max (length (threads st)) maxThreads).
  { subst st1. destruct (_ && _) eqn:E.
    - exists 1. split; [done|]. apply andb_true_iff in E as [_ E%Nat.ltb_lt]. cbn [set_pending threads] in E. lia.
    - exists 0. cbn [replicate]. rewrite app_nil_r. split; [by destruct st|lia]. }
  destruct E as (k & E & Hk). clearbody st1. subst st1. unfold notify_one. cbn [set_threads threads].
  set (l0 := threads st ++ replicate k Idle).
  assert (Hw0 : woken (threads st) l0).
  { intros i p Hi. subst l0. apply lookup_app_Some in Hi as [?|[Hi Hp]]; [by left|]. apply lookup_replicate in Hp as [-> _].
    right. split; [done|]. right. split; [by apply lookup_ge_None|lia]. }
  assert (Ht0 : thread_tasks l0 = thread_tasks (threads st)).
  { subst l0. unfold thread_tasks. rewrite fmap_app, concat_app, <- app_nil_r. f_equal. clear. by induction k. }
  assert (Hl0 : length l0 = length (threads st) + k) by (subst l0; by rewrite length_app, length_replicate).
  assert (Hpre : forall i p, threads st !! i = Some p -> l0 !! i = Some p).
  { intros i p Hi. subst l0. by apply lookup_app_l_Some. }
  assert (Hb0 : sum_list_with busy l0 = sum_list_with busy (threads st)).
  { subst l0. rewrite sum_list_with_app, <- Nat.add_0_r. f_equal. clear. by induction k. }
  destruct (existsb is_waiting l0) eqn:Ex.
  - destruct (l0 !! wake) as [[]|] eqn:Ew; try done. intros [= <-]. exists (<[wake := Idle]> l0). split; [done|]. split_and!.
    + intros i p Hi. destruct (decide (i = wake)) as [->|Hne].
      * rewrite list_lookup_insert_eq in Hi by (by eapply lookup_lt_Some). injection Hi as <-.
        destruct (Hw0 _ _ Ew) as [?|[? _]]; [|done]. right. split; [done|]. by left.
      * rewrite list_lookup_insert_ne in Hi by done. by apply Hw0.
    + rewrite length_insert. lia.
    + rewrite length_insert. lia.
    + intros i p Hi Hp. rewrite list_lookup_insert_ne; [by apply Hpre|]. intros ->. apply Hpre in Hi. congruence.
    + by rewrite thread_tasks_wake, Ht0.
    + assert (E := sum_list_with_insert busy _ _ _ Idle Ew). cbn [busy] in E. lia.
  - intros [= <-]. exists l0. split; [done|]. split_and!; [done|lia|lia|auto|by rewrite Ht0|done].
Qed.
Lemma enqueue_tasks wake n st st' : 0 < length (threads st) -> enqueue maxThreads wake n st = Some st' ->
  tasks st' ≡ₚ (n, Queued) :: tasks st /\ graph st' = graph st /\ log st' = log st.
Proof.
  intros Hl Hs. apply enqueue_spec in Hs as (l & -> & _ & _ & _ & _ & Ht & _); [|done]. split; [|done].
  unfold tasks. cbn [set_threads set_pending pending threads]. rewrite Ht, fmap_app. cbn [fmap list_fmap].
  rewrite <- app_assoc. cbn [app]. by rewrite <- Permutation_middle.
Qed.

(** ** The threads *)

(** What a call may throw. *)
Definition legit (e : work_exn) : Prop :=
  match e with
  | WorkFailed x => exists n, getEdges n = inl x \/ processNode n = Some x
  | Interrupted => True
  | ThreadPoolShutDown => False
  end.
Definition outcome_ok st (r : outcome) : Prop :=
  match r with
  | Succeeded => exception st = None /\ left (graph st) = []
  | Raised e => exception st = Some e
  | Incomplete => exception st = None /\ left (graph st) <> []
  end.

Definition in_loop st (i : nat) : Prop := i = 0 -> draining st = true.
Definition pc_ok st (i : nat) p : Prop :=
  match p with
  | Enqueueing _ | Process => i = 0 /\ draining st = false
  | Idle | Start _ | GetRefs _ | GotRefs _ _ | DoWork _ | Processed _ => in_loop st i
  | Waiting => in_loop st i /\ quit st = false
  | Finished exc =>
      in_loop st i /\
      match exc with Some e => legit e \/ e = ThreadPoolShutDown /\ exception st <> None | None => True end
  | Releasing _ _ => in_loop st i /\ graph_lock st = Some i
  | Exited => i <> 0 /\ quit st = true
  | LeftLoop => i = 0 /\ draining st = true /\ quit st = true
  | Checking => i = 0 /\ draining st = true /\ quit st = true /\ exception st = None
  | Joining r => i = 0 /\ draining st = true /\ quit st = true /\ outcome_ok st r
  | Done r => i = 0 /\ draining st = true /\ quit st = true /\ outcome_ok st r /\ Forall (fun p => p = Exited) (tail (threads st))
  end.
Definition over p : bool := match p with Exited | Done _ => true | _ => false end.
Definition holds_lock p : bool := match p with Releasing _ _ => true | _ => false end.

Record sinv st : Prop := {
  s_active : active st = sum_list_with busy (threads st);
  s_main : exists p, threads st !! 0 = Some p;
  s_pcs i p : threads st !! i = Some p -> pc_ok st i p;
  s_lock i : graph_lock st = Some i -> exists p, threads st !! i = Some p /\ holds_lock p = true;
  s_quit : quit st = true -> exception st <> None \/ pending st = [] /\ active st = 0 /\ draining st = true;
  s_exc e : exception st = Some e -> legit e /\ quit st = true;
  s_alive : quit st = false -> exists i p, threads st !! i = Some p /\ p <> Waiting;
}.

Lemma busy_active st i p : sinv st -> threads st !! i = Some p -> busy p = 1 -> 0 < active st.
Proof.
  intros Hs Hi Hb. rewrite (s_active _ Hs). apply list_elem_of_lookup_2 in Hi.
  apply (sum_list_with_in _ busy) in Hi. lia.
Qed.
Lemma active_has_busy st : sinv st -> 0 < active st -> exists i p, threads st !! i = Some p /\ busy p = 1.
Proof.
  intros Hs. rewrite (s_active _ Hs). clear Hs. induction (threads st) as [|p l IH]; cbn [sum_list_with]; [lia|].
  intros Hl. destruct (busy p) as [|[|]] eqn:E; [|by exists 0, p|by destruct p].
  destruct IH as (i & p' & Hi & Hb); [lia|]. by exists (S i), p'.
Qed.
Lemma busy_not_over st i p : sinv st -> threads st !! i = Some p -> over p = false -> i <> 0 ->
  forall r, threads st !! 0 <> Some (Done r).
Proof.
  intros Hs Hi Ho Hne r Hd. destruct (s_pcs _ Hs _ _ Hd) as (_ & _ & _ & _ & Hall).
  destruct i as [|i]; [done|]. rewrite <- (lookup_tail (threads st)) in Hi. rewrite Forall_lookup in Hall.
  apply Hall in Hi as ->. done.
Qed.
(** After [quit] without an exception nobody works. *)
Lemma quiet_quit st : sinv st -> 0 < active st -> quit st = true -> exception st <> None.
Proof. intros Hs Ha Hq. destruct (s_quit _ Hs Hq) as [?|(_ & ? & _)]; [done|lia]. Qed.

(** A thread moves on, without touching the flags. *)
Lemma sinv_set_thread st i p q : sinv st -> threads st !! i = Some p -> over p = false -> holds_lock p = holds_lock q ->
  busy p = busy q -> pc_ok st i q -> q <> Waiting -> (forall r, q <> Done r) -> sinv (set_thread i q st).
Proof.
  intros Hs Hi Ho Hl Hb Hq Hw Hd. assert (Hlt := lookup_lt_Some _ _ _ Hi).
  destruct Hs as [H1 H2 H3 H4 H5 H6 H7] eqn:E. clear E. split; cbn [set_thread set_threads active threads graph_lock quit exception draining pending graph].
  - rewrite H1. assert (E := sum_list_with_insert busy _ _ _ q Hi). lia.
  - destruct H2 as [p0 H2]. destruct (decide (i = 0)) as [->|Hne]; [exists q; by apply list_lookup_insert_eq|].
    exists p0. by rewrite list_lookup_insert_ne.
  - intros j p'. destruct (decide (j = i)) as [->|Hne].
    + rewrite list_lookup_insert_eq by done. intros [= <-]. destruct q; try exact Hq. by destruct (Hd r).
    + rewrite list_lookup_insert_ne by done. intros Hj. assert (Hp' := H3 _ _ Hj). destruct p'; try exact Hp'.
      exfalso. destruct Hp' as (-> & _). eapply (busy_not_over st i p); [by split|done|done|done|exact Hj].
  - intros j Hj. destruct (H4 j Hj) as (p' & Hp' & Hh). destruct (decide (j = i)) as [->|Hne].
    + exists q. split; [by apply list_lookup_insert_eq|congruence].
    + exists p'. by rewrite list_lookup_insert_ne.
  - done.
  - done.
  - intros _. exists i, q. split; [by apply list_lookup_insert_eq|done].
Qed.
Lemma sinv_set_graph st g : sinv st -> 0 < active st -> sinv (set_graph g st).
Proof.
  intros Hs Ha. assert (Hex := quiet_quit _ Hs Ha). destruct Hs as [H1 H2 H3 H4 H5 H6 H7]. split; try done.
  intros i p Hi. assert (Hp := H3 i p Hi). destruct p; try exact Hp.
  - destruct Hp as (? & ? & Hq & Ho). split_and!; try done. destruct r; [|done|]; by destruct (Hex Hq), Ho.
  - destruct Hp as (? & ? & Hq & Ho & ?). split_and!; try done. destruct r; [|done|]; by destruct (Hex Hq), Ho.
Qed.
Lemma sinv_add_log st c : sinv st -> sinv (add_log c st).
Proof. intros [H1 H2 H3 H4 H5 H6 H7]. by split. Qed.

(** Nothing but the locks and one thread changes. *)
Lemma sinv_set_lock st i p q lock : sinv st -> threads st !! i = Some p -> busy p = 1 -> busy q = 1 ->
  (holds_lock p = true \/ graph_lock st = None) -> lock = (if holds_lock q then Some i else None) ->
  pc_ok (set_lock lock st) i q -> sinv (set_thread i q (set_lock lock st)).
Proof.
  intros Hs Hi Hb Hb' Hp -> Hq. assert (Hlt := lookup_lt_Some _ _ _ Hi).
  assert (Ho : over p = false) by (by destruct p). assert (Hd := busy_not_over st i p Hs Hi Ho).
  assert (Hothers : forall j p', j <> i -> threads st !! j = Some p' -> holds_lock p' = false).
  { intros j p' Hne Hj. destruct (holds_lock p') eqn:E; [|done]. destruct p'; try done. destruct (s_pcs _ Hs _ _ Hj) as [_ Hl].
    destruct Hp as [Hp|Hp]; [|congruence]. destruct p; try done. destruct (s_pcs _ Hs _ _ Hi) as [_ Hl']. congruence. }
  destruct Hs as [H1 H2 H3 H4 H5 H6 H7].
  split; cbn [set_thread set_threads set_lock active threads graph_lock quit exception draining pending graph].
  - rewrite H1. assert (E := sum_list_with_insert busy _ _ _ q Hi). lia.
  - destruct H2 as [p0 H2]. destruct (decide (i = 0)) as [->|Hne]; [exists q; by apply list_lookup_insert_eq|].
    exists p0. by rewrite list_lookup_insert_ne.
  - intros j p'. destruct (decide (j = i)) as [->|Hne].
    + rewrite list_lookup_insert_eq by done. intros [= <-]. destruct q; try exact Hq; done.
    + rewrite list_lookup_insert_ne by done. intros Hj. assert (Hp' := H3 _ _ Hj). specialize (Hothers j p' Hne Hj).
      destruct p'; try exact Hp'; [done|]. exfalso. destruct Hp' as (-> & _). by apply (Hd ltac:(done) r).
  - intros j. destruct (holds_lock q) eqn:E; [|done]. intros [= <-]. exists q. split; [by apply list_lookup_insert_eq|done].
  - done.
  - done.
  - intros _. exists i, q. split; [by apply list_lookup_insert_eq|]. by intros ->.
Qed.

Lemma sinv_draining st : sinv st -> threads st !! 0 = Some Process -> sinv (set_draining (set_thread 0 Idle st)).
Proof.
  intros Hs Hi. assert (Hlt := lookup_lt_Some _ _ _ Hi). destruct (s_pcs _ Hs _ _ Hi) as [_ Hdr].
  destruct Hs as [H1 H2 H3 H4 H5 H6 H7].
  split; cbn [set_draining set_thread set_threads active threads graph_lock quit exception draining pending graph].
  - rewrite H1. assert (E := sum_list_with_insert busy _ _ _ Idle Hi). cbn [busy] in E. lia.
  - exists Idle. by apply list_lookup_insert_eq.
  - intros j p'. destruct (decide (j = 0)) as [->|Hne].
    + rewrite list_lookup_insert_eq by done. by intros [= <-].
    + rewrite list_lookup_insert_ne by done. intros Hj. assert (Hp' := H3 _ _ Hj).
      destruct p'; cbn [pc_ok] in *; unfold in_loop in *; naive_solver.
  - intros j Hj. destruct (H4 j Hj) as (p' & Hp' & Hh). exists p'. rewrite list_lookup_insert_ne; [done|].
    intros <-. rewrite Hi in Hp'. by injection Hp' as <-.
  - intros Hq. destruct (H5 Hq) as [?|(_ & _ & ?)]; [by left|congruence].
  - done.
  - intros _. exists 0, Idle. split; [by apply list_lookup_insert_eq|done].
Qed.

Lemma sinv_enqueue st wake n st' : sinv st -> quit st = false -> enqueue maxThreads wake n st = Some st' -> sinv st'.
Proof.
  intros Hs Hq He. assert (Hl : 0 < length (threads st)).
  { destruct (s_main _ Hs) as [p Hp]. by apply lookup_lt_Some in Hp. }
  apply enqueue_spec in He as (l & -> & Hw & Hlen & _ & Hk & _ & Ha); [|done].
  destruct Hs as [H1 H2 H3 H4 H5 H6 H7].
  split; cbn [set_pending set_threads active threads graph_lock quit exception draining pending graph].
  - congruence.
  - apply lookup_lt_is_Some. lia.
  - intros i p Hi. destruct (Hw i p Hi) as [Hi'|(-> & Hi')].
    + assert (Hp := H3 _ _ Hi'). destruct p; try exact Hp. destruct Hp as (_ & _ & ? & _). congruence.
    + destruct Hi' as [Hi'|[_ Hi']]; [apply (H3 _ _ Hi')|]. intros ->. lia.
  - intros i Hi. destruct (H4 i Hi) as (p & Hp & Hh). exists p. split; [|done]. apply Hk; [done|]. by intros ->.
  - congruence.
  - done.
  - intros _. destruct (H7 Hq) as (i & p & Hi & Hp). exists i, p. split; [by apply Hk|done].
Qed.

Lemma awake_lookup (l : list (pc (T := T))) i p : (awake <$> l) !! i = Some p -> exists p', l !! i = Some p' /\ p = awake p'.
Proof. rewrite list_lookup_fmap. destruct (l !! i) as [p'|]; [|done]. intros [= <-]. by exists p'. Qed.
Lemma busy_awake (l : list (pc (T := T))) : sum_list_with busy (awake <$> l) = sum_list_with busy l.
Proof. induction l as [|p l IH]; [done|]. rewrite fmap_cons. cbn [sum_list_with]. rewrite IH. by destruct p. Qed.

(** The pool is told to quit: because of an exception, or because the work is
    done. *)
Lemma sinv_quit_all st eo : sinv st -> quit st = false ->
  (exists e, eo = Some e /\ legit e) \/ eo = None /\ pending st = [] /\ active st = 0 /\ draining st = true ->
  sinv (quit_all (set_exception eo st)).
Proof.
  intros Hs Hq Hor. assert (Hex : exception st = None).
  { destruct (exception st) eqn:E; [|done]. apply (s_exc _ Hs) in E as [_ E]. congruence. }
  destruct Hs as [H1 H2 H3 H4 H5 H6 H7].
  split; cbn [quit_all set_exception active threads graph_lock quit exception draining pending graph].
  - by rewrite busy_awake.
  - destruct H2 as [p H2]. exists (awake p). by rewrite list_lookup_fmap, H2.
  - intros i p (p' & Hi & ->)%awake_lookup. assert (Hp := H3 _ _ Hi).
    destruct p'; cbn [awake is_waiting]; try exact Hp; try (exfalso; cbn [pc_ok] in Hp; destruct_and!; congruence).
    + apply Hp.
    + split; [apply Hp|]. destruct exc as [e|]; [|done]. left. destruct Hp as [_ [?|[_ ?]]]; done.
  - intros i Hi. destruct (H4 i Hi) as (p & Hp & Hh). exists (awake p). rewrite list_lookup_fmap, Hp. split; [done|]. by destruct p.
  - intros _. destruct Hor as [(e & -> & _)|(-> & ?)]; [by left|by right].
  - intros e ->. destruct Hor as [(e' & [= <-] & ?)|[[=] _]]. done.
  - done.
Qed.
Lemma quit_all_set_thread i q st : is_waiting q = false -> quit_all (set_thread i q st) = set_thread i q (quit_all st).
Proof.
  intros Hq. unfold quit_all, set_thread, set_threads. cbn [pending active exception quit draining threads graph graph_lock log].
  rewrite list_fmap_insert. by destruct q.
Qed.
Lemma set_exception_id st : exception st = None -> set_exception None st = st.
Proof. intros E. destruct st. cbn in *. by subst. Qed.
(** [quit_all] when the pool is already told to. *)
Lemma quit_all_id st : sinv st -> quit st = true -> quit_all st = st.
Proof.
  intros Hs Hq. assert (Ht : awake <$> threads st = threads st).
  { rewrite <- (list_fmap_id (threads st)) at 2. apply list_fmap_ext. intros i p Hi.
    destruct p; try done. destruct (s_pcs _ Hs _ _ Hi) as [_ ?]. congruence. }
  unfold quit_all. rewrite Ht. destruct st. cbn in *. by subst.
Qed.

Definition same_abs st st' : Prop := tasks st' ≡ₚ tasks st /\ graph st' = graph st /\ log st' = log st.
Lemma tasks_set_thread st i p q : threads st !! i = Some p -> pc_tasks p = [] -> pc_tasks q = [] ->
  tasks (set_thread i q st) ≡ₚ tasks st.
Proof. intros Hi Hp Hq. destruct (tasks_split _ _ _ Hi) as (ts & H1 & H2). by rewrite H1, H2, Hp, Hq. Qed.

Lemma sinv_exit st i : sinv st -> threads st !! i = Some Idle -> quit st = true -> sinv (set_thread i (exit_pc i) st).
Proof.
  intros Hs Hi Hq. assert (Hp := s_pcs _ Hs _ _ Hi). cbn [pc_ok] in Hp. unfold in_loop in Hp.
  eapply sinv_set_thread; [done|exact Hi|..]; try done; destruct i; cbn [exit_pc pc_ok busy holds_lock]; naive_solver.
Qed.
(** An idle thread takes an item or goes to sleep; somebody else is awake then. *)
Lemma sinv_idle st i q ws : sinv st -> quit st = false -> threads st !! i = Some Idle -> pc_ok st i q ->
  holds_lock q = false -> (forall r, q <> Done r) ->
  (q = Waiting -> exists j p, threads st !! j = Some p /\ p <> Waiting /\ j <> i) ->
  sinv (set_thread i q (set_active (active st + busy q) (set_pending ws st))).
Proof.
  intros [H1 H2 H3 H4 H5 H6 H7] Hq Hi Hp Hl Hd Hother. assert (Hlt := lookup_lt_Some _ _ _ Hi).
  split; cbn [set_thread set_threads set_active set_pending active threads graph_lock quit exception draining pending graph].
  - rewrite H1. assert (E := sum_list_with_insert busy _ _ _ q Hi). cbn [busy] in E. lia.
  - apply lookup_lt_is_Some. rewrite length_insert. destruct H2 as [? ?%lookup_lt_Some]. lia.
  - intros j p'. destruct (decide (j = i)) as [->|Hne].
    + rewrite list_lookup_insert_eq by done. intros [= <-]. destruct q; try exact Hp. by destruct (Hd r).
    + rewrite list_lookup_insert_ne by done. intros Hj. assert (Hp' := H3 _ _ Hj).
      destruct p'; try exact Hp'. destruct Hp' as (_ & _ & ? & _). congruence.
  - intros j Hj. destruct (H4 j Hj) as (p' & Hp' & Hh). exists p'. rewrite list_lookup_insert_ne; [done|].
    intros <-. rewrite Hi in Hp'. by injection Hp' as <-.
  - congruence.
  - done.
  - intros _. destruct (is_waiting q) eqn:Ew.
    + destruct Hother as (j & p & Hj & Hw & Hne); [by destruct q|]. exists j, p. by rewrite list_lookup_insert_ne.
    + exists i, q. split; [by apply list_lookup_insert_eq|]. by intros ->.
Qed.
Lemma other_awake st i : sinv st -> threads st !! i = Some Idle -> (active st =? 0) && draining st = false ->
  exists j p, threads st !! j = Some p /\ p <> Waiting /\ j <> i.
Proof.
  intros Hs Hi Ea. assert (Hp := s_pcs _ Hs _ _ Hi). cbn [pc_ok] in Hp. destruct (active st) as [|a] eqn:Eact.
  - destruct (s_main _ Hs) as [p0 Hp0]. exists 0, p0. cbn in Ea. split; [done|].
    assert (Hne : 0 <> i) by (intros <-; rewrite Hp in Ea; done). split; [|done].
    intros ->. destruct (s_pcs _ Hs _ _ Hp0) as [Hd _]. rewrite Hd in Ea; done.
  - destruct (active_has_busy st Hs) as (j & p & Hj & Hb); [lia|]. exists j, p. split; [done|].
    split; [by intros ->|]. intros ->. rewrite Hi in Hj. by injection Hj as <-.
Qed.
Lemma no_exception st : sinv st -> quit st = false -> exception st = None.
Proof. intros Hs Hq. destruct (exception st) eqn:E; [|done]. apply (s_exc _ Hs) in E as [_ E]. congruence. Qed.

Lemma pop_move st i w ws a : threads st !! i = Some Idle -> pending st = w :: ws ->
  gmove getEdges (abs st) (abs (set_thread i (Start w) (set_active a (set_pending ws st)))).
Proof.
  intros Hi Epend. destruct (thread_tasks_split _ _ _ Hi) as (ts & T1 & T2).
  eapply (gm_stage getEdges w Queued Started (((fun n => (n, Queued)) <$> ws) ++ ts)); [| |constructor].
  - unfold tasks. rewrite Epend, T1. done.
  - unfold tasks. cbn [set_thread set_threads set_active set_pending pending threads].
    rewrite T2. cbn [pc_tasks app]. by rewrite <- Permutation_middle.
Qed.

(** The loop of [doWork] finds the next item. *)
Lemma next_item_spec st i : sinv st -> threads st !! i = Some Idle ->
  sinv (next_item i st) /\ (same_abs st (next_item i st) \/ gmove getEdges (abs st) (abs (next_item i st))).
Proof.
  intros Hs Hi. assert (Hp := s_pcs _ Hs _ _ Hi). cbn [pc_ok] in Hp. unfold next_item. destruct (quit st) eqn:Hq.
  { split; [by apply sinv_exit|]. left. split; [|done]. eapply tasks_set_thread; [exact Hi|done|by destruct i]. }
  destruct (pending st) as [|w ws] eqn:Epend; [destruct ((active st =? 0) && draining st) eqn:Ea|].
  - apply andb_true_iff in Ea as [Ea%Nat.eqb_eq Ed]. rewrite quit_all_set_thread by (by destruct i).
    assert (Hi' : threads (quit_all st) !! i = Some Idle) by (cbn [quit_all threads]; by rewrite list_lookup_fmap, Hi). split.
    + apply sinv_exit; [|done|done]. rewrite <- (set_exception_id st) by (by apply no_exception).
      apply sinv_quit_all; [done|done|]. by right.
    + left. split; [|done]. rewrite (tasks_set_thread _ _ Idle); [by rewrite tasks_quit_all|done|done|by destruct i].
  - split; [|left; split; [by eapply tasks_set_thread|done]].
    assert (Hw := sinv_idle st i Waiting [] Hs Hq Hi). cbn [busy] in Hw. rewrite Nat.add_0_r in Hw.
    assert (E : set_active (active st) (set_pending [] st) = st) by (destruct st; cbn in *; by subst).
    rewrite E in Hw. apply Hw; [done|done|done|]. intros _. by apply other_awake.
  - split.
    + assert (Hw := sinv_idle st i (Start w) ws Hs Hq Hi). cbn [busy] in Hw. rewrite Nat.add_1_r in Hw. by apply Hw.
    + right. by apply pop_move.
Qed.

(** ** After an item *)

Lemma next_item_override st i q : next_item i (set_thread i q st) = next_item i st.
Proof.
  unfold next_item. cbn [set_thread set_threads quit pending active draining].
  assert (E : forall p st', threads st' = threads st ->
    set_thread i p (set_threads (<[i := q]> (threads st)) st') = set_thread i p st').
  { intros p st' E. unfold set_thread, set_threads. cbn [threads pending active exception quit draining graph graph_lock log].
    by rewrite list_insert_insert_eq, E. }
  destruct (quit st); [by apply E|]. destruct (pending st) as [|w ws].
  - destruct (_ && _); [|by apply E]. f_equal. by apply E.
  - by apply (E (Start w) (set_active (S (active st)) (set_pending ws st))).
Qed.
Lemma sinv_item_done st i exc n : sinv st -> threads st !! i = Some (Finished exc) -> active st = S n ->
  sinv (set_thread i Idle (set_active n st)).
Proof.
  intros Hs Hi Ea. assert (Hp := s_pcs _ Hs _ _ Hi). assert (Hlt := lookup_lt_Some _ _ _ Hi).
  assert (Hd := busy_not_over st i _ Hs Hi eq_refl). assert (Hx := quiet_quit _ Hs). rewrite Ea in Hx. specialize (Hx ltac:(lia)).
  destruct Hs as [H1 H2 H3 H4 H5 H6 H7].
  split; cbn [set_thread set_threads set_active active threads graph_lock quit exception draining pending graph].
  - assert (E := sum_list_with_insert busy _ _ _ Idle Hi). cbn [busy] in E. lia.
  - apply lookup_lt_is_Some. rewrite length_insert. destruct H2 as [? ?%lookup_lt_Some]. lia.
  - intros j p'. destruct (decide (j = i)) as [->|Hne].
    + rewrite list_lookup_insert_eq by done. intros [= <-]. apply Hp.
    + rewrite list_lookup_insert_ne by done. intros Hj. assert (Hp' := H3 _ _ Hj). destruct p'; try exact Hp'.
      exfalso. destruct Hp' as (-> & _). by apply (Hd ltac:(done) r).
  - intros j Hj. destruct (H4 j Hj) as (p' & Hp' & Hh). exists p'. rewrite list_lookup_insert_ne; [done|].
    intros <-. rewrite Hi in Hp'. by injection Hp' as <-.
  - intros Hq. left. by apply Hx.
  - done.
  - intros _. exists i, Idle. split; [by apply list_lookup_insert_eq|done].
Qed.
(** The state after [item_done], with the thread in the loop. *)
Lemma item_done_spec st i exc st' : sinv st -> threads st !! i = Some (Finished exc) -> item_done exc st = Some st' ->
  sinv (set_thread i Idle st') /\ tasks (set_thread i Idle st') ≡ₚ tasks st /\ graph st' = graph st /\ log st' = log st /\
  (exc <> None -> exception st' <> None) /\ (exception st <> None -> exception st' <> None).
Proof.
  intros Hs Hi He. assert (Hact := busy_active _ _ _ Hs Hi eq_refl). assert (Hp := s_pcs _ Hs _ _ Hi).
  assert (Hlt := lookup_lt_Some _ _ _ Hi). unfold item_done in He. destruct (active st) as [|n] eqn:Ea; [done|].
  set (st1 := set_thread i Idle (set_active n st)).
  assert (Hs1 : sinv st1) by (by eapply sinv_item_done).
  assert (Ht1 : tasks st1 ≡ₚ tasks st) by (by apply (tasks_set_thread (set_active n st) i (Finished exc) Idle)).
  destruct exc as [e|]; [destruct (exception st) as [e'|] eqn:Eex|]; cbn [set_active exception] in He; rewrite ?Eex in He;
    injection He as <-; cbn [set_active exception]; rewrite ?Eex; [done| |by split_and!].
  assert (Hq : quit st = false).
  { destruct (quit st) eqn:Hq; [|done]. exfalso. apply (quiet_quit _ Hs); [lia|done|done]. }
  assert (Hlegit : legit e) by (destruct Hp as [_ [?|[_ ?]]]; done).
  assert (E : set_thread i Idle (quit_all (set_exception (Some e) (set_active n st))) = quit_all (set_exception (Some e) st1)).
  { unfold st1. by rewrite <- quit_all_set_thread. }
  rewrite E. split; [|split; [|done]].
  - apply sinv_quit_all; [done|done|]. left. by exists e.
  - rewrite tasks_quit_all. exact Ht1.
Qed.

(** ** A step of the pool is a step of the tasks *)

Definition failing st : Prop := exception st <> None \/ exists i e, threads st !! i = Some (Finished (Some e)).

(** A step on the tasks; tasks are only lost after a failure. *)
Definition moved st st' : Prop :=
  sinv st' /\ (failing st -> failing st') /\
  (gmove getEdges (abs st) (abs st') \/ gdrop (abs st) (abs st') /\ failing st').
Definition simulated st st' : Prop := moved st st' \/ sinv st' /\ (failing st -> failing st') /\ same_abs st st'.

Lemma failing_step st st' i p : threads st !! i = Some p -> (forall e, p <> Finished (Some e)) ->
  exception st' = exception st -> (forall j q, j <> i -> q <> Waiting -> threads st !! j = Some q -> threads st' !! j = Some q) ->
  failing st -> failing st'.
Proof.
  intros Hi Hp Hex Hth [?|(j & e & Hj)]; [left; congruence|]. right. exists j, e. apply Hth; [|done|done].
  intros ->. rewrite Hi in Hj. injection Hj as ->. by apply (Hp e).
Qed.
Lemma failing_set_thread st st' i p q : threads st !! i = Some p -> (forall e, p <> Finished (Some e)) ->
  exception st' = exception st -> threads st' = <[i := q]> (threads st) -> failing st -> failing st'.
Proof.
  intros Hi Hp Hex Hth. apply (failing_step _ _ _ _ Hi Hp Hex). intros j q' Hne _ Hj. by rewrite Hth, list_lookup_insert_ne.
Qed.
Lemma not_freeing st p ts : sinv st -> graph_lock st = None -> tasks st ≡ₚ pc_tasks p ++ ts -> ~ freeing ts.
Proof.
  intros Hs Hl Ht (d & todo & Hd). assert (Hin : (d, Freeing todo) ∈ tasks st) by (rewrite Ht, elem_of_app; by right).
  unfold tasks in Hin. apply elem_of_app in Hin as [(n & [=] & _)%list_elem_of_fmap|Hin].
  unfold thread_tasks in Hin. apply list_elem_of_In, in_concat in Hin as (l & Hl1 & Hl2).
  apply list_elem_of_In, list_elem_of_fmap in Hl1 as (q & -> & Hq). apply list_elem_of_lookup in Hq as [j Hj].
  apply list_elem_of_In in Hl2. assert (Hok := s_pcs _ Hs _ _ Hj). destruct q; cbn [pc_tasks] in Hl2;
    try (apply elem_of_nil in Hl2; done); try (apply list_elem_of_singleton in Hl2; done).
  - by apply list_elem_of_fmap in Hl2 as (? & [=] & _).
  - destruct Hok as [_ Hok]. congruence.
Qed.

Section one_step.
Context (st : Pool (T := T)) (i : nat) (p : pc (T := T)) (Hs : sinv st) (Hi : threads st !! i = Some p).

(** A step of a thread that concerns no task. *)
Lemma sim_stay q st' : sinv st' -> (forall e, p <> Finished (Some e)) -> pc_tasks p = [] -> pc_tasks q = [] ->
  tasks st' = tasks (set_thread i q st) -> exception st' = exception st -> threads st' = <[i := q]> (threads st) ->
  graph st' = graph st -> log st' = log st -> simulated st st'.
Proof.
  intros Hs' Hp Hp0 Hq0 Ht Hex Hth Hg Hl. right. split; [done|]. split; [by eapply failing_set_thread|].
  split; [|done]. rewrite Ht. by eapply tasks_set_thread.
Qed.
(** A step on one task. *)
Lemma sim_stage q n s s' : over p = false -> (forall e, p <> Finished (Some e)) -> holds_lock p = holds_lock q ->
  busy p = busy q -> pc_ok st i q -> q <> Waiting -> (forall r, q <> Done r) ->
  pc_tasks p = [(n, s)] -> pc_tasks q = [(n, s')] -> stage_step getEdges (graph st) n s s' ->
  moved st (set_thread i q st).
Proof.
  intros Ho Hp Hh Hb Hq Hw Hd Hp0 Hq0 Hss. split; [by eapply sinv_set_thread|]. split; [by eapply failing_set_thread|].
  left. destruct (tasks_split _ _ _ Hi) as (ts & T1 & T2). rewrite Hp0 in T1. specialize (T2 q). rewrite Hq0 in T2.
  by eapply (gm_stage getEdges n s s' ts).
Qed.
(** A call that throws. *)
Lemma sim_throw n s e : busy p = 1 -> holds_lock p = false -> pc_tasks p = [(n, s)] -> droppable s = true -> legit e ->
  moved st (set_thread i (Finished (Some e)) st).
Proof.
  intros Hb Hh Hp0 Hdr He. assert (Hok := s_pcs _ Hs _ _ Hi).
  assert (Hin : in_loop st i) by (destruct p; try done; apply Hok).
  assert (Hlt := lookup_lt_Some _ _ _ Hi).
  assert (Hf : failing (set_thread i (Finished (Some e)) st)) by (right; exists i, e; by apply list_lookup_insert_eq).
  split; [|split; [done|]].
  - eapply sinv_set_thread; [done|exact Hi|..]; try done; try (by destruct p). split; [done|]. by left.
  - right. split; [|done]. destruct (tasks_split _ _ _ Hi) as (ts & T1 & T2).
    rewrite Hp0 in T1. eapply (gd_tasks [(n, s)] ts); [exact T1|by rewrite (T2 (Finished (Some e)))|done|by constructor].
Qed.
(** A call that begins, the graph being [g]. *)
Lemma sim_begin n s g : busy p = 1 -> holds_lock p = false -> (forall e, p <> Finished e) -> pc_tasks p = [(n, s)] -> graph_lock st = None ->
  (forall ts ts1 ts2, ts1 ≡ₚ (n, s) :: ts -> ts2 ≡ₚ (n, Working) :: ts -> ~ freeing ts ->
     gmove getEdges (mkG ts1 (graph st) (log st)) (mkG ts2 g (Began n :: log st))) ->
  moved st (start_work i n (set_graph g st)).
Proof.
  intros Hb Hh Hnf Hp0 Hl Hm. assert (Hok := s_pcs _ Hs _ _ Hi). assert (Hin : in_loop st i) by (destruct p; try done; apply Hok).
  assert (Hact := busy_active _ _ _ Hs Hi Hb). destruct (tasks_split _ _ _ Hi) as (ts & T1 & T2). split; [|split].
  - apply sinv_add_log. eapply sinv_set_thread; [by apply sinv_set_graph|exact Hi|..]; try done; by destruct p.
  - by eapply (failing_set_thread _ _ _ _ (DoWork n) Hi).
  - left. assert (T1' := T1). rewrite Hp0 in T1'. apply (Hm ts); [exact T1'|exact (T2 (DoWork n))|by eapply not_freeing].
Qed.
End one_step.

Lemma sinv_done st r : sinv st -> threads st !! 0 = Some (Joining r) -> Forall (fun p => p = Exited) (tail (threads st)) ->
  sinv (set_thread 0 (Done r) st).
Proof.
  intros Hs Hi Hall. assert (Hok := s_pcs _ Hs _ _ Hi). destruct Hs as [H1 H2 H3 H4 H5 H6 H7].
  destruct (threads st) as [|p l] eqn:Et; [done|]. injection Hi as ->. cbn [tail] in Hall.
  split; cbn [set_thread set_threads active threads graph_lock quit exception draining pending graph]; rewrite ?Et; cbn [list_insert insert]; try done.
  - by exists (Done r).
  - intros j p. destruct j as [|j]; cbn [lookup list_lookup].
    + intros [= <-]. cbn [pc_ok]. unfold outcome_ok. cbn [threads set_thread set_threads draining quit exception graph]. rewrite Et.
      cbn [insert list_insert tail]. destruct Hok as (? & ? & ? & ?). done.
    + intros Hj. assert (Hp := H3 (S j) p Hj). rewrite Forall_lookup in Hall. by rewrite (Hall _ _ Hj) in Hp |- *.
  - intros j Hj. destruct (H4 j Hj) as (p & Hp & Hh). destruct j as [|j]; cbn [lookup list_lookup] in *.
    + by injection Hp as <-.
    + rewrite Forall_lookup in Hall. by rewrite (Hall _ _ Hp) in Hh.
  - intros Hq. destruct Hok as (_ & _ & ? & _). congruence.
Qed.

Lemma threads_positive st : sinv st -> 0 < length (threads st).
Proof. intros Hs. destruct (s_main _ Hs) as [p Hp]. by apply lookup_lt_Some in Hp. Qed.

(** The loop over the dependants. *)
Lemma release_sim st i wake n r todo res : sinv st -> ginv nodes getEdges (abs st) ->
  threads st !! i = Some (Releasing n (r :: todo)) -> release_one maxThreads i wake n r todo st = Some res ->
  exists st', res = Ok st' /\ moved st st'.
Proof.
  intros Hs Hg Hi Hr. assert (Hlt := lookup_lt_Some _ _ _ Hi). assert (Hok := s_pcs _ Hs _ _ Hi).
  assert (Hact := busy_active _ _ _ Hs Hi eq_refl). destruct (tasks_split _ _ _ Hi) as (ts & T1 & T2). cbn [pc_tasks app] in T1.
  apply (ginv_tasks _ _ _ _ _ _ T1) in Hg. destruct (ginv_head _ _ _ _ _ _ _ Hg) as (_ & (_ & _ & Hfr) & _).
  assert (Hnr : n ∈ refs_of (graph st) r) by (apply Hfr; by left). unfold release_one in Hr. unfold refs_of in Hnr.
  unfold sset_mem in Hr. rewrite bool_decide_true in Hr by done.
  set (st1 := set_graph _ st) in Hr. assert (Hs1 : sinv st1) by (by apply sinv_set_graph).
  assert (Hset : sinv (set_thread i (Releasing n todo) st1)) by (eapply sinv_set_thread; [done|exact Hi|..]; done).
  case_bool_decide as Hempty; [destruct (quit st1) eqn:Hq|].
  - injection Hr as <-. eexists. split; [done|].
    assert (Hex : exception st <> None) by (by apply quiet_quit). split; [|split; [by left|]].
    + eapply (sinv_set_lock st1 i (Releasing n (r :: todo))); [done|exact Hi|done|done|by left|done|].
      split; [apply Hok|]. right. done.
    + right. split; [|by left]. eapply (gd_release n r todo ts); [exact T1|]. exact (T2 (Finished (Some ThreadPoolShutDown))).
  - apply fmap_Some in Hr as (st' & He & ->). exists st'. split; [done|].
    assert (He' := He). apply enqueue_tasks in He' as (Ht & Hg' & Hlog); [|by apply threads_positive].
    split; [|split].
    + by eapply sinv_enqueue; [exact Hset| |exact He].
    + apply enqueue_spec in He as (l & -> & _ & _ & _ & Hk & _); [|by apply threads_positive].
      eapply (failing_step _ _ _ _ Hi); [done|done|]. intros j q Hne Hw Hj. apply Hk; [|done]. cbn. by rewrite list_lookup_insert_ne.
    + left. unfold abs. rewrite Hg', Hlog. eapply (gm_release getEdges n r todo ts); [exact T1|].
      rewrite Ht. rewrite bool_decide_true by done. assert (T2' := T2 (Releasing n todo)). cbn [pc_tasks app] in T2'.
      change (tasks (set_thread i (Releasing n todo) st1)) with (tasks (set_thread i (Releasing n todo) st)).
      rewrite T2'. apply perm_swap.
  - injection Hr as <-. eexists. split; [done|]. split; [done|]. split; [by eapply (failing_set_thread _ _ _ _ (Releasing n todo) Hi)|].
    left. eapply (gm_release getEdges n r todo ts); [exact T1|]. rewrite bool_decide_false by done.
    exact (T2 (Releasing n todo)).
Qed.

(** The function [worker]. *)
Definition is_worker p : bool := match p with Start _ | GetRefs _ | GotRefs _ _ | DoWork _ | Processed _ | Releasing _ _ => true | _ => false end.
Lemma worker_sim st i wake p res : sinv st -> ginv nodes getEdges (abs st) -> threads st !! i = Some p -> is_worker p = true ->
  run_thread getEdges processNode maxThreads i wake st = Some res -> exists st', res = Ok st' /\ moved st st'.
Proof.
  intros Hs Hg Hi Hw. unfold run_thread. rewrite Hi. assert (Hok := s_pcs _ Hs _ _ Hi). destruct p as [| | | | |node|node|node es|node|node|node todo| | | | |]; try done.
  - destruct (graph_lock st) eqn:Hl; [done|]. destruct (smap_lookup node (refs (graph st))) eqn:E; intros [= <-]; (eexists; split; [done|]).
    + replace (start_work i node st) with (start_work i node (set_graph (graph st) st)) by (by destruct st).
      eapply sim_begin; [done|exact Hi|..]; try done. intros ts ts1 ts2 E1 E2 Hf. eapply (gm_begin getEdges node ts); [done|done|].
      unfold entry. by rewrite E.
    + eapply sim_stage; [done|exact Hi|..]; try done. constructor. unfold entry. rewrite E. by intros [? [=]].
  - destruct (getEdges node) as [e|es] eqn:E; intros [= <-]; (eexists; split; [done|]).
    + eapply sim_throw; [done|exact Hi|..]; try done. exists node. by left.
    + eapply sim_stage; [done|exact Hi|..]; try done. by constructor.
  - destruct (graph_lock st) eqn:Hl; [done|]. case_bool_decide as E; intros [= <-]; (eexists; split; [done|]).
    + eapply sim_begin; [done|exact Hi|..]; try done. intros ts ts1 ts2 E1 E2 Hf. by eapply (gm_register_begin getEdges node es ts).
    + assert (Hact := busy_active _ _ _ Hs Hi eq_refl). destruct (tasks_split _ _ _ Hi) as (ts & T1 & T2). split; [|split].
      * eapply sinv_set_thread; [by apply sinv_set_graph|exact Hi|..]; done.
      * by eapply (failing_set_thread _ _ _ _ (Finished None) Hi).
      * left. eapply (gm_register_park getEdges node es ts); [exact T1|exact (T2 (Finished None))|by eapply not_freeing|done].
  - destruct (processNode node) as [e|] eqn:E; intros [= <-]; (eexists; split; [done|]).
    + eapply sim_throw; [done|exact Hi|..]; try done. exists node. by right.
    + destruct (tasks_split _ _ _ Hi) as (ts & T1 & T2). split; [|split].
      * apply sinv_add_log. eapply sinv_set_thread; [done|exact Hi|..]; done.
      * by eapply (failing_set_thread _ _ _ _ (Processed node) Hi).
      * left. eapply (gm_complete getEdges node ts); [exact T1|exact (T2 (Processed node))].
  - destruct (graph_lock st) eqn:Hl; [done|]. intros [= <-]. eexists. split; [done|].
    destruct (tasks_split _ _ _ Hi) as (ts & T1 & T2). split; [|split].
    + eapply (sinv_set_lock st i (Processed node)); [done|exact Hi|done|done|by right|done|done].
    + by eapply (failing_set_thread _ _ _ _ (Releasing node (edges_of (rrefs (graph st)) node)) Hi).
    + left. eapply (gm_free getEdges node ts); [exact T1|exact (T2 (Releasing node _))|by eapply not_freeing].
  - destruct todo as [|r todo]; [|by apply release_sim]. intros [= <-]. eexists. split; [done|].
    assert (Hact := busy_active _ _ _ Hs Hi eq_refl). destruct (tasks_split _ _ _ Hi) as (ts & T1 & T2). split; [|split].
    + eapply (sinv_set_lock _ i (Releasing node [])); [by apply sinv_set_graph|exact Hi|done|done|by left|done|]. split; [apply Hok|done].
    + by eapply (failing_set_thread _ _ _ _ (Finished None) Hi).
    + left. eapply (gm_forget getEdges node ts); [exact T1|exact (T2 (Finished None))].
Qed.

Lemma next_item_others st i : exception (next_item i st) = exception st /\
  forall j q, j <> i -> q <> Waiting -> threads st !! j = Some q -> threads (next_item i st) !! j = Some q.
Proof.
  unfold next_item. destruct (quit st); [|destruct (pending st) as [|w ws]; [destruct (_ && _)|]];
    (split; [done|]); intros j q Hne Hw Hj; cbn [quit_all set_thread set_threads set_active set_pending threads];
    rewrite ?list_lookup_fmap, list_lookup_insert_ne, Hj by done; [done| |done|done]. cbn. by destruct q.
Qed.
Lemma idle_sim st i : sinv st -> threads st !! i = Some Idle -> simulated st (next_item i st).
Proof.
  intros Hs Hi. destruct (next_item_spec st i Hs Hi) as [Hs' Ha]. destruct (next_item_others st i) as [Hex Hth].
  assert (Hf : failing st -> failing (next_item i st)) by (by eapply failing_step).
  destruct Ha as [?|?]; [by right|]. left. split; [done|]. split; [done|]. by left.
Qed.
Lemma finished_sim st i exc res : sinv st -> threads st !! i = Some (Finished exc) ->
  match item_done exc st with Some st => Some (Ok (next_item i st)) | None => Some (Err AssertFailed) end = Some res ->
  exists st', res = Ok st' /\ simulated st st'.
Proof.
  intros Hs Hi. destruct (item_done exc st) as [st1|] eqn:E.
  2: { unfold item_done in E. assert (Hact := busy_active _ _ _ Hs Hi eq_refl). destruct (active st); [lia|done]. }
  intros [= <-]. eexists. split; [done|]. assert (E' := E).
  apply (item_done_spec st i) in E' as (Hs1 & Ht1 & Hg1 & Hl1 & Hx1 & Hx2); [|done|done].
  rewrite <- (next_item_override st1 i Idle). assert (Hlt := lookup_lt_Some _ _ _ Hi).
  assert (Hi1 : threads (set_thread i Idle st1) !! i = Some Idle).
  { apply list_lookup_insert_eq. unfold item_done in E. destruct (active st); [done|]. injection E as <-.
    destruct exc, (exception _); cbn [set_active quit_all set_exception threads]; rewrite ?length_fmap; done. }
  assert (Hf : failing (set_thread i Idle st1) -> failing (next_item i (set_thread i Idle st1))).
  { by destruct (idle_sim _ _ Hs1 Hi1) as [(_ & ? & _)|(_ & ? & _)]. }
  destruct (next_item_spec _ _ Hs1 Hi1) as [Hs2 Ha].
  assert (Hf' : failing st -> failing (next_item i (set_thread i Idle st1))).
  { intros [Hex|(j & e & Hj)]; [apply Hf; left; by apply Hx2|]. destruct (decide (j = i)) as [->|Hne].
    + apply Hf. left. apply Hx1. rewrite Hi in Hj. by injection Hj as ->.
    + apply Hf. right. exists j, e. cbn [set_thread set_threads threads]. rewrite list_lookup_insert_ne by done.
      unfold item_done in E. destruct (active st); [done|]. injection E as <-.
      destruct exc, (exception _); cbn [set_active quit_all set_exception threads]; rewrite ?list_lookup_fmap, Hj; done. }
  destruct Ha as [(Ht2 & Hg2 & Hl2)|Hm]; [right|left]; (split; [done|]); (split; [done|]).
  - split_and!; [by rewrite Ht2|by rewrite Hg2|by rewrite Hl2].
  - left. unfold abs at 1. rewrite <- Hg1, <- Hl1. by eapply gmove_perm; [symmetry; exact Ht1|].
Qed.

(** Thread 0 before and after [doWork]. *)
Lemma enqueueing_sim st i wake n rest res : sinv st -> threads st !! i = Some (Enqueueing (n :: rest)) ->
  (if quit st then Some (Ok (set_thread i Process st))
   else Ok <$> enqueue maxThreads wake n (set_thread i (Enqueueing rest) st)) = Some res ->
  exists st', res = Ok st' /\ moved st st'.
Proof.
  intros Hs Hi. assert (Hok := s_pcs _ Hs _ _ Hi). destruct (tasks_split _ _ _ Hi) as (ts & T1 & T2).
  destruct (quit st) eqn:Hq.
  - intros [= <-]. eexists. split; [done|]. assert (Hex : exception st <> None).
    { destruct (s_quit _ Hs Hq) as [?|(_ & _ & ?)]; [done|]. destruct Hok. congruence. }
    split; [by eapply sinv_set_thread|]. split; [by left|]. right. split; [|by left].
    eapply (gd_tasks _ ts); [exact T1|exact (T2 Process)|done|]. by apply Forall_fmap, Forall_forall.
  - intros (st' & He & ->)%fmap_Some. exists st'. split; [done|].
    assert (Hs1 : sinv (set_thread i (Enqueueing rest) st)) by (by eapply sinv_set_thread).
    assert (He' := He). apply enqueue_tasks in He' as (Ht & Hg' & Hlog); [|by apply threads_positive]. split; [|split].
    + by eapply sinv_enqueue; [exact Hs1| |exact He].
    + apply enqueue_spec in He as (l & -> & _ & _ & _ & Hk & _); [|by apply threads_positive].
      eapply (failing_step _ _ _ _ Hi); [done|done|]. intros j q Hne Hw Hj. apply Hk; [|done]. cbn. by rewrite list_lookup_insert_ne.
    + left. unfold abs. rewrite Hg', Hlog.
      eapply (gm_stage getEdges n New Queued (pc_tasks (Enqueueing rest) ++ ts)); [exact T1| |constructor].
      by rewrite Ht, (T2 (Enqueueing rest)).
Qed.
Lemma joining_sim st i p r : sinv st -> threads st !! i = Some p -> p = LeftLoop \/ p = Checking -> quit st = true ->
  outcome_ok st r -> simulated st (quit_all (set_thread i (Joining r) st)).
Proof.
  intros Hs Hi Hp Hq Ho. rewrite quit_all_set_thread, quit_all_id by done. assert (Hok := s_pcs _ Hs _ _ Hi).
  eapply (sim_stay _ _ _ Hi (Joining r)); try done; [|by destruct Hp as [->| ->]..].
  eapply sinv_set_thread; [done|exact Hi|..]; try done; [by destruct Hp as [->| ->]..|].
  destruct Hp as [->| ->]; destruct Hok as (-> & ? & _); done.
Qed.
Lemma run_thread_sim st i wake res : sinv st -> ginv nodes getEdges (abs st) ->
  run_thread getEdges processNode maxThreads i wake st = Some res -> exists st', res = Ok st' /\ simulated st st'.
Proof.
  intros Hs Hg Hr. destruct (threads st !! i) as [p|] eqn:Hi; [|by unfold run_thread in Hr; rewrite Hi in Hr].
  destruct (is_worker p) eqn:Hw; [destruct (worker_sim st i wake p res) as (st' & -> & ?); try done; exists st'; split; [done|by left]|]. unfold run_thread in Hr. rewrite Hi in Hr.
  assert (Hok := s_pcs _ Hs _ _ Hi). destruct p as [[|n rest]| | | |exc| | | | | | | | | |r|]; try done.
  - injection Hr as <-. eexists. split; [done|]. eapply (sim_stay _ _ _ Hi Process); try done. by eapply sinv_set_thread.
  - destruct (enqueueing_sim st i wake n rest res) as (st' & -> & ?); try done. exists st'. split; [done|by left].
  - injection Hr as <-. eexists. split; [done|]. destruct Hok as [-> _].
    eapply (sim_stay _ _ _ Hi Idle); try done. by apply sinv_draining.
  - injection Hr as <-. eexists. split; [done|]. by apply idle_sim.
  - by eapply finished_sim.
  - destruct Hok as (-> & Hd & Hq). rewrite Hq in Hr. destruct (exception st) as [e|] eqn:Ex; injection Hr as <-; (eexists; split; [done|]).
    + apply (joining_sim st 0 LeftLoop); try done. by left.
    + eapply (sim_stay _ _ _ Hi Checking); try done. eapply sinv_set_thread; [done|exact Hi|..]; done.
  - destruct Hok as (-> & Hd & Hq & Hx). destruct (graph_lock st); [done|]. injection Hr as <-. eexists. split; [done|].
    apply (joining_sim st 0 Checking); try done; [by right|]. by case_bool_decide.
  - destruct (forallb exited (tail (threads st))) eqn:E; [|done]. injection Hr as <-. eexists. split; [done|].
    destruct Hok as (-> & Hd & Hq & Hx). eapply (sim_stay _ _ _ Hi (Done r)); try done. apply sinv_done; [done|done|].
    apply Forall_forall. intros p Hp. rewrite forallb_forall in E. specialize (E p). rewrite <- list_elem_of_In in E.
    specialize (E Hp). by destruct p.
Qed.

(** Every step is safe and is a step of the tasks. *)
Lemma pool_step_sim ev st res : sinv st -> ginv nodes getEdges (abs st) ->
  pool_step getEdges processNode maxThreads ev st = Some res -> exists st', res = Ok st' /\ simulated st st'.
Proof.
  intros Hs Hg. destruct ev as [i wake|i|i]; cbn [pool_step]; [by apply run_thread_sim|..];
    destruct (threads st !! i) as [p|] eqn:Hi; try done; assert (Hok := s_pcs _ Hs _ _ Hi).
  - destruct p as [| | | | | |n| |n| | | | | | |]; try done; intros [= <-]; (eexists; split; [done|]);
      left; (eapply sim_throw; [done|exact Hi|..]); done.
  - destruct p; try done. intros [= <-]. eexists. split; [done|].
    eapply (sim_stay _ _ _ Hi Idle); try done. eapply sinv_set_thread; [done|exact Hi|..]; try done. apply Hok.
Qed.
End pool_inv.
