(* ===== verification/ThreadPoolSpec.v ===== *)
(** * What [processGraph] promises (libutil/thread-pool.hh)

    Under every interleaving of the threads, every choice of the thread that a
    notification wakes up, spurious wake-ups and interrupts: the order of the
    calls, the meaning of the outcome, progress, and a bound on the length of a
    run. *)

From stdpp Require Import relations.
From S2P Require Import Prelude.
From S2P Require Import Containers.
From S2P Require Import ThreadPool.
From S2P Require Import TaskGraph.
From S2P Require Import ThreadPoolInv.

(** The branches of [run_thread]. *)
Ltac run_cases :=
  cbn zeta;
  repeat match goal with
  | |- context [match graph_lock ?st with _ => _ end] => destruct (graph_lock st)
  | |- context [if quit ?st then _ else _] => destruct (quit st) eqn:?
  | |- context [match exception ?st with _ => _ end] => destruct (exception st)
  | |- context [match smap_lookup ?a ?b with _ => _ end] => destruct (smap_lookup a b)
  | |- context [match ?f ?a with inl _ => _ | inr _ => _ end] => destruct (f a)
  | |- context [match ?f ?a with Some _ => _ | None => _ end] => is_var f; destruct (f a)
  | |- context [if forallb ?a ?b then _ else _] => destruct (forallb a b)
  end.

Section pool_spec.
Context {T : Type} `{OrdKey T}.
Context (nodes : list T) (getEdges : T -> exn + list T) (processNode : T -> option exn) (maxThreads : nat).
Hypothesis nodes_wf : sset_wf nodes.
Implicit Types (st : Pool (T := T)).

Notation sinv := (sinv getEdges processNode).
Notation ginv := (ginv nodes getEdges).
Notation pool_step := (pool_step getEdges processNode maxThreads).
Notation pool_run := (pool_run getEdges processNode maxThreads).

(** ** The invariant of all runs *)

Record pinv st : Prop := {
  p_sched : sinv st;
  p_graph : ginv (abs st);
  p_covered : gcov (abs st) \/ failing st;
  p_threads : length (threads st) <= S maxThreads;
}.

Lemma same_abs_ginv st st' : same_abs st st' -> ginv (abs st) -> ginv (abs st').
Proof.
  intros (Ht & Hg & Hl) Hi. unfold abs. rewrite Hg, Hl. by eapply ginv_tasks; [symmetry; exact Ht|].
Qed.
Lemma same_abs_cov st st' : same_abs st st' -> gcov (abs st) -> gcov (abs st').
Proof. intros (Ht & Hg & _) Hc n. cbn. rewrite Hg, Ht. apply Hc. Qed.

Lemma enqueue_length wake n st st' : 0 < length (threads st) -> enqueue maxThreads wake n st = Some st' ->
  length (threads st') <= Nat.max (length (threads st)) maxThreads.
Proof. intros Hl He. apply enqueue_spec in He as (l & -> & _ & _ & ? & _); done. Qed.
Lemma next_item_length i st : length (threads (next_item i st)) = length (threads st).
Proof.
  unfold next_item. destruct (quit st); [|destruct (pending st); [destruct (_ && _)|]];
    cbn [quit_all set_thread set_threads set_active set_pending threads]; by rewrite ?length_fmap, length_insert.
Qed.
Lemma item_done_length exc st st' : item_done exc st = Some st' -> length (threads st') = length (threads st).
Proof.
  unfold item_done. destruct (active st) as [|n]; [done|]. cbn [set_active exception].
  intros [= <-]. destruct exc; [destruct (exception st)|]; cbn [quit_all set_active set_exception threads]; by rewrite ?length_fmap.
Qed.
Lemma pool_step_length ev st st' : sinv st -> pool_step ev st = Some (Ok st') ->
  length (threads st') <= Nat.max (length (threads st)) maxThreads.
Proof.
  intros Hs. assert (Hpos := threads_positive _ _ _ Hs).
  assert (Hset : forall i p, 0 < length (threads (set_thread i p st))) by (intros; cbn; by rewrite length_insert).
  destruct ev as [i wake|i|i]; cbn [ThreadPool.pool_step].
  2, 3: destruct (threads st !! i) as [[]|]; try done; intros [= <-]; cbn; rewrite length_insert; lia.
  unfold run_thread. destruct (threads st !! i) as [p|] eqn:Hi; [|done].
  destruct p as [[|n rest]| | | |exc|node|node|node es|node|node|node [|r todo]| | | |r|]; try done; run_cases; try done.
  all: try (intros [= <-]; cbn; rewrite ?length_fmap, length_insert; lia).
  - intros (st1 & He & [= <-])%fmap_Some. apply enqueue_length in He; [|done]. cbn in He. by rewrite length_insert in He.
  - intros [= <-]. rewrite next_item_length. lia.
  - destruct (item_done exc st) as [st1|] eqn:E; [|done]. intros [= <-]. rewrite next_item_length, (item_done_length _ _ _ E). lia.
  - case_bool_decide; intros [= <-]; cbn; rewrite length_insert; lia.
  - unfold release_one. destruct (sset_mem _ _); [|done]. case_bool_decide; [destruct (quit _)|].
    + intros [= <-]. cbn. rewrite length_insert. lia.
    + intros (st1 & He & [= <-])%fmap_Some. apply enqueue_length in He; cbn in *; rewrite length_insert in *; done.
    + intros [= <-]. cbn. rewrite length_insert. lia.
Qed.

Lemma pinv_init : pinv (pool_init nodes).
Proof.
  split.
  - split; cbn; try done.
    + by eexists.
    + intros [|i] p; [|done]. by intros [= <-].
    + intros _. exists 0, (Enqueueing nodes). done.
  - unfold abs, tasks, thread_tasks. cbn [pool_init pending threads graph log fmap list_fmap concat app pc_tasks].
    rewrite app_nil_r. by apply ginv_init.
  - left. intros n Hn. left. cbn in Hn. unfold abs, tasks, thread_tasks. cbn. rewrite app_nil_r.
    apply list_elem_of_fmap. exists (n, New). split; [done|]. by apply list_elem_of_fmap; exists n.
  - cbn. lia.
Qed.
Lemma pinv_step ev st res : pinv st -> pool_step ev st = Some res -> exists st', res = Ok st' /\ pinv st'.
Proof.
  intros [Hs Hg Hc Hl] Hr. destruct (pool_step_sim nodes getEdges processNode maxThreads ev st res Hs Hg Hr) as (st' & -> & Hsim).
  exists st'. split; [done|]. apply pool_step_length in Hr; [|done].
  destruct Hsim as [(Hs' & Hf & [Hm|[Hd Hfail]])|(Hs' & Hf & Ha)].
  - split; [done|by eapply gmove_inv| |lia]. destruct Hc as [Hc|?]; [|by right; auto]. left. by eapply gmove_cov.
  - split; [done|by eapply gdrop_inv|by right|lia].
  - split; [done|by eapply same_abs_ginv| |lia]. destruct Hc; [left; by eapply same_abs_cov|right; auto].
Qed.
Lemma pinv_run evs st res : pinv st -> pool_run evs st = Some res -> exists st', res = Ok st' /\ pinv st'.
Proof.
  revert st. induction evs as [|ev evs IH]; intros st Hp; cbn [ThreadPool.pool_run]; [intros [= <-]; by exists st|].
  destruct (pool_step ev st) as [r|] eqn:E; [|done]. destruct (pinv_step _ _ _ Hp E) as (st' & -> & Hp'). by apply IH.
Qed.

(** ** Order and outcome *)

Lemma log_ok_split l l1 l2 n : log_ok nodes getEdges l -> l = l1 ++ Began n :: l2 ->
  n ∈ nodes /\ Began n ∉ l2 /\ forall d, dep nodes getEdges n d -> Completed d ∈ l2.
Proof.
  revert l. induction l1 as [|c l1 IH]; intros l Hl ->; cbn [app log_ok] in Hl.
  - destruct Hl as (? & ? & ? & _). done.
  - destruct c; apply (IH (l1 ++ Began n :: l2)); naive_solver.
Qed.

Lemma pinv_outcome st r : pinv st -> threads st !! 0 = Some (Done r) ->
  Forall (fun p => p = Exited) (tail (threads st)) /\
  match r with
  | Succeeded => forall n, n ∈ nodes -> Completed n ∈ log st
  | Raised e => legit getEdges processNode e
  | Incomplete => exists n, tc (dep nodes getEdges) n n
  end.
Proof.
  intros [Hs Hg Hc _] H0. destruct (s_pcs _ _ _ Hs _ _ H0) as (_ & _ & Hq & Ho & Hall). split; [done|].
  destruct r as [|e|]; cbn [outcome_ok] in Ho.
  - destruct Ho as [_ Hl]. intros n Hn. apply (gi_gone _ _ _ Hg); [done|]. cbn [abs g_graph]. rewrite Hl. apply not_elem_of_nil.
  - by apply (s_exc _ _ _ Hs).
  - destruct Ho as [Hex Hl].
    assert (Hthreads : forall i p, threads st !! i = Some p -> pc_tasks p = [] /\ forall e, p <> Finished (Some e)).
    { intros i p Hi. destruct i as [|i]; [rewrite H0 in Hi; by injection Hi as <-|].
      rewrite <- lookup_tail in Hi. rewrite Forall_lookup in Hall. by apply Hall in Hi as ->. }
    destruct Hc as [Hc|[?|(i & e & Hi)]]; [|done|by destruct (Hthreads _ _ Hi) as [_ Hn]; destruct (Hn e)].
    assert (Ht : tasks st = []).
    { destruct (s_quit _ _ _ Hs Hq) as [?|(Hp & _)]; [done|]. unfold tasks, thread_tasks. rewrite Hp. cbn.
      assert (Hnil : Forall (fun p => pc_tasks p = []) (threads st)).
      { apply Forall_lookup. intros i p Hi. by apply (Hthreads i p). }
      clear - Hnil. induction Hnil as [|p l Hp _ IH]; [done|]. cbn. by rewrite Hp. }
    apply (finite_cycle nodes getEdges (left (graph st))); [done|]. intros n Hn.
    destruct (Hc n Hn) as [Hn'|Hn']; [cbn [abs g_tasks] in Hn'; rewrite Ht in Hn'; by apply elem_of_nil in Hn'|].
    destruct (refs_of (g_graph (abs st)) n) as [|d ds] eqn:E; [done|].
    destruct (gi_parked _ _ _ Hg n d) as [_ Hd Hdep _ _ _]; [rewrite E; by left|]. by exists d.
Qed.

(** ** The length of a run *)

Definition pc_weight (p : pc (T := T)) : nat :=
  match p with
  | Enqueueing _ => 9
  | Process | Start _ | GetRefs _ | GotRefs _ _ | DoWork _ | Processed _ | Releasing _ _ => 8
  | Finished _ => 7
  | Idle => 6
  | Waiting => 5
  | LeftLoop => 4
  | Checking => 3
  | Joining _ => 2
  | Exited | Done _ => 0
  end.
Definition flag (b : bool) : nat := if b then 1 else 0.
Definition work_left st : nat :=
  gwork nodes (abs st) + flag (negb (quit st)) + flag (bool_decide (exception st = None)).
Definition measure st : nat := work_left st * (9 * S maxThreads + 1) + sum_list_with pc_weight (threads st).
(** Quadratic in the number of nodes, because a node has up to [N] dependants. *)
Definition run_bound (N : nat) : nat := (N * (N + 11) + 2) * (9 * S maxThreads + 1) + 9.

Lemma pc_weight_bound (l : list (pc (T := T))) : sum_list_with pc_weight l <= 9 * length l.
Proof.
  induction l as [|p l IH]; cbn [sum_list_with length]; [lia|]. assert (pc_weight p <= 9) by (destruct p; cbn; lia). lia.
Qed.
Lemma measure_work st st' : work_left st' < work_left st -> length (threads st') <= S maxThreads -> measure st' < measure st.
Proof. intros Hw Hl. unfold measure. assert (Hb := pc_weight_bound (threads st')). nia. Qed.
Lemma measure_thread st st' i p q : threads st !! i = Some p -> threads st' = <[i := q]> (threads st) ->
  work_left st' = work_left st -> pc_weight q < pc_weight p -> measure st' < measure st.
Proof.
  intros Hi Ht Hw Hlt. unfold measure. rewrite Hw, Ht. assert (E := sum_list_with_insert pc_weight _ _ _ q Hi). lia.
Qed.
Lemma same_abs_gwork st st' : same_abs st st' -> gwork nodes (abs st') = gwork nodes (abs st).
Proof. intros (Ht & Hg & _). unfold gwork, abs. cbn [g_tasks g_graph]. by rewrite Hg, Ht. Qed.
Lemma moved_gwork st st' : ginv (abs st) -> moved getEdges processNode st st' -> gwork nodes (abs st') < gwork nodes (abs st).
Proof. intros Hg (_ & _ & [Hm|[Hd _]]); [by eapply gmove_work|by eapply gdrop_work]. Qed.
Lemma measure_init : measure (pool_init nodes) = run_bound (length nodes).
Proof.
  assert (E1 : forall l, sum_list_with (weight nodes (mkGraph nodes [] [])) ((fun n => (n, New)) <$> l) = length l * (length nodes + 11)).
  { induction l as [|n l IH]; [done|]. rewrite fmap_cons. cbn [sum_list_with length]. rewrite IH. unfold weight. cbn. lia. }
  assert (E2 : forall l, sum_list_with (waits (mkGraph nodes [] [])) l = 0) by (by induction l).
  assert (E3 : tasks (pool_init nodes) = (fun n => (n, New)) <$> nodes).
  { unfold tasks, thread_tasks. cbn. by rewrite app_nil_r. }
  unfold measure, run_bound, work_left, gwork. cbn [abs g_tasks g_graph]. rewrite E3.
  cbn [pool_init threads graph exception quit negb flag sum_list_with pc_weight]. rewrite E1, E2.
  rewrite bool_decide_true by done. cbn [flag]. nia.
Qed.

(** Flags are only ever raised. *)
Definition flags_le st st' : Prop :=
  (quit st = true -> quit st' = true) /\ (exception st <> None -> exception st' <> None).
Lemma flags_work st st' : flags_le st st' ->
  flag (negb (quit st')) + flag (bool_decide (exception st' = None)) <=
  flag (negb (quit st)) + flag (bool_decide (exception st = None)).
Proof.
  intros [Hq He]. assert (flag (negb (quit st')) <= flag (negb (quit st))).
  { destruct (quit st) eqn:E; [by rewrite Hq|]. destruct (quit st'); cbn; lia. }
  assert (flag (bool_decide (exception st' = None)) <= flag (bool_decide (exception st = None))).
  { case_bool_decide as E1; case_bool_decide as E2; cbn; try lia. by destruct He. }
  lia.
Qed.
Lemma moved_measure st st' : ginv (abs st) -> moved getEdges processNode st st' -> flags_le st st' ->
  length (threads st') <= S maxThreads -> measure st' < measure st.
Proof.
  intros Hg Hm Hf Hl. apply measure_work; [|done]. unfold work_left.
  assert (H1 := moved_gwork _ _ Hg Hm). assert (H2 := flags_work _ _ Hf). lia.
Qed.

Lemma idle_measure st i : sinv st -> ginv (abs st) -> threads st !! i = Some Idle -> length (threads st) <= S maxThreads ->
  measure (next_item i st) < measure st.
Proof.
  intros Hs Hg Hi Hl. destruct (next_item_spec getEdges processNode st i Hs Hi) as [Hs' Ha].
  assert (Hlen := next_item_length i st). revert Hs' Ha Hlen. unfold next_item. destruct (quit st) eqn:Hq.
  { intros _ _ _. apply (measure_thread st _ i Idle (exit_pc i)); try done. 2: { destruct i; cbn; lia. }
    unfold work_left. rewrite (same_abs_gwork st); [done|]. split; [|done]. eapply tasks_set_thread; [exact Hi|done|by destruct i]. }
  destruct (pending st) as [|w ws] eqn:Ep; [destruct (_ && _)|]; intros Hs' Ha Hlen.
  - apply measure_work; [|lia]. unfold work_left. rewrite (same_abs_gwork st).
    + cbn [quit_all set_thread set_threads quit exception]. rewrite Hq. cbn [negb flag]. lia.
    + split; [|done]. rewrite tasks_quit_all. eapply tasks_set_thread; [exact Hi|done|by destruct i].
  - apply (measure_thread st _ i Idle Waiting); try done; [|cbn; lia].
    unfold work_left. rewrite (same_abs_gwork st); [done|]. split; [|done]. by eapply tasks_set_thread.
  - apply measure_work; [|lia]. unfold work_left.
    assert (Hm := gmove_work _ _ nodes_wf _ _ (pop_move getEdges st i w ws (S (active st)) Hi Ep) Hg).
    cbn [set_thread set_threads set_active set_pending quit exception] in *. lia.
Qed.

Lemma finished_measure st i exc st1 : sinv st -> ginv (abs st) -> threads st !! i = Some (Finished exc) -> length (threads st) <= S maxThreads ->
  item_done exc st = Some st1 -> measure (next_item i st1) < measure st.
Proof.
  intros Hs Hg Hi Hl E. assert (E' := E). assert (Hlt := lookup_lt_Some _ _ _ Hi).
  apply (item_done_spec getEdges processNode st i) in E' as (Hs1 & Ht1 & Hg1 & Hl1 & _ & _); [|done|done].
  assert (Hsame : same_abs st (set_thread i Idle st1)) by done. rewrite <- (next_item_override st1 i Idle).
  assert (Hlen : length (threads (set_thread i Idle st1)) = length (threads st)).
  { cbn [set_thread set_threads threads]. by rewrite length_insert, (item_done_length _ _ _ E). }
  transitivity (measure (set_thread i Idle st1)).
  - apply idle_measure; [done|by eapply same_abs_ginv| |lia]. apply list_lookup_insert_eq. by rewrite (item_done_length _ _ _ E).
  - assert (Hw := same_abs_gwork _ _ Hsame). unfold item_done in E. destruct (active st) as [|n]; [done|]. cbn [set_active exception] in E.
    destruct exc as [e|]; [destruct (exception st) as [e'|] eqn:Eex|]; injection E as <-.
    + apply (measure_thread st _ i (Finished (Some e)) Idle); try done; [|cbn; lia]. unfold work_left. by rewrite Hw.
    + apply measure_work; [|lia]. unfold work_left. rewrite Hw. cbn [set_thread set_threads quit_all set_exception set_active quit exception].
      rewrite Eex, (bool_decide_false (Some e = None)), (bool_decide_true (None = None)) by done. destruct (quit st); cbn; lia.
    + apply (measure_thread st _ i (Finished None) Idle); try done; [|cbn; lia]. unfold work_left. by rewrite Hw.
Qed.
(** Steps of thread 0 that concern no task and no flag. *)
Lemma stay_measure st st' i p q : threads st !! i = Some p -> threads st' = <[i := q]> (threads st) -> same_abs st st' ->
  quit st' = quit st -> exception st' = exception st -> pc_weight q < pc_weight p -> measure st' < measure st.
Proof.
  intros Hi Ht Ha Hq He Hw. apply (measure_thread st st' i p q); try done. unfold work_left.
  by rewrite (same_abs_gwork _ _ Ha), Hq, He.
Qed.

Lemma enqueue_flags wake n st st' : 0 < length (threads st) -> enqueue maxThreads wake n st = Some st' ->
  quit st' = quit st /\ exception st' = exception st.
Proof. intros Hl He. by apply enqueue_spec in He as (l & -> & _). Qed.
Lemma worker_flags st i wake p st' : threads st !! i = Some p -> is_worker p = true ->
  run_thread getEdges processNode maxThreads i wake st = Some (Ok st') -> quit st' = quit st /\ exception st' = exception st.
Proof.
  intros Hi Hw. unfold run_thread. rewrite Hi. assert (Hlt := lookup_lt_Some _ _ _ Hi).
  destruct p as [| | | | |node|node|node es|node|node|node [|r todo]| | | | |]; try done; run_cases; try done; try (by intros [= <-]).
  - case_bool_decide; by intros [= <-].
  - unfold release_one. destruct (sset_mem _ _); [|done]. case_bool_decide; [|by intros [= <-]].
    match goal with |- context [if ?b then _ else _] => destruct b end; [by intros [= <-]|].
    intros (st1 & He & [= <-])%fmap_Some. apply enqueue_flags in He; [done|]. cbn. rewrite length_insert. lia.
Qed.
Lemma run_measure st i wake st' : pinv st -> run_thread getEdges processNode maxThreads i wake st = Some (Ok st') ->
  measure st' < measure st.
Proof.
  intros Hp Hr. assert (Hl : length (threads st') <= S maxThreads).
  { assert (Hr' := pinv_step (Run i wake) st _ Hp Hr). destruct Hr' as (? & [= <-] & Hp'). apply (p_threads _ Hp'). }
  destruct Hp as [Hs Hg _ Hl0]. destruct (threads st !! i) as [p|] eqn:Hi; [|by unfold run_thread in Hr; rewrite Hi in Hr].
  destruct (is_worker p) eqn:Hw.
  { assert (Hr' := Hr). eapply worker_sim in Hr' as (? & [= <-] & Hm); [|done|done|done|done].
    eapply worker_flags in Hr as [Hq He]; [|done|done]. apply moved_measure; try done. by split; congruence. }
  unfold run_thread in Hr. rewrite Hi in Hr. assert (Hok := s_pcs _ _ _ Hs _ _ Hi).
  destruct p as [[|n rest]| | | |exc| | | | | | | | | |r|]; try done.
  - injection Hr as <-. eapply (stay_measure st _ i _ Process Hi); try done; [|cbn; lia]. split; [by eapply tasks_set_thread|done].
  - assert (Hr' := Hr). eapply enqueueing_sim in Hr' as (? & [= <-] & Hm); [|done|done]. apply moved_measure; try done.
    assert (Hlt := lookup_lt_Some _ _ _ Hi). destruct (quit st) eqn:Hq; [injection Hr as <-; split; cbn; congruence|].
    apply fmap_Some in Hr as (st1 & He & [= <-]). apply enqueue_flags in He as [? ?]; [split; cbn in *; congruence|].
    cbn. rewrite length_insert. lia.
  - injection Hr as <-. eapply (stay_measure st _ i _ Idle Hi); try done; [|cbn; lia]. split; [by eapply (tasks_set_thread st i)|done].
  - injection Hr as <-. by apply idle_measure.
  - destruct (item_done exc st) as [st1|] eqn:E; [|done]. injection Hr as <-. by eapply finished_measure.
  - destruct Hok as (-> & Hd & Hq). rewrite Hq in Hr. destruct (exception st) as [e|] eqn:Ex; injection Hr as <-.
    + rewrite quit_all_set_thread, (quit_all_id _ _ st Hs Hq) by done.
      eapply (stay_measure st _ 0 _ (Joining _) Hi); try done; [|cbn; lia]. split; [by eapply tasks_set_thread|done].
    + eapply (stay_measure st _ 0 _ Checking Hi); try done; [|cbn; lia]. split; [by eapply tasks_set_thread|done].
  - destruct Hok as (-> & Hd & Hq & Hx). destruct (graph_lock st); [done|]. injection Hr as <-.
    rewrite quit_all_set_thread, (quit_all_id _ _ st Hs Hq) by done.
    eapply (stay_measure st _ 0 _ (Joining _) Hi); try done; [|cbn; lia]. split; [by eapply tasks_set_thread|done].
  - destruct (forallb _ _); [|done]. injection Hr as <-.
    eapply (stay_measure st _ i _ (Done r) Hi); try done; [|cbn; lia]. split; [by eapply tasks_set_thread|done].
Qed.

Definition is_spurious (ev : event) : bool := match ev with Spurious _ => true | _ => false end.
Lemma step_measure ev st st' : pinv st -> pool_step ev st = Some (Ok st') -> measure st' + 1 <= measure st + 2 * flag (is_spurious ev).
Proof.
  intros Hp Hr. destruct ev as [i wake|i|i]; cbn [is_spurious flag].
  - apply run_measure in Hr; [lia|done].
  - cbn [ThreadPool.pool_step] in Hr. destruct (threads st !! i) as [p|] eqn:Hi; [|done]. destruct Hp as [Hs Hg _ Hl].
    assert (Hlt : measure st' < measure st); [|lia].
    destruct p as [| | | | | |n| |n| | | | | | |]; try done; injection Hr as <-; apply moved_measure;
      try (by eapply sim_throw); try done; cbn; by rewrite length_insert.
  - cbn [ThreadPool.pool_step] in Hr. destruct (threads st !! i) as [[]|] eqn:Hi; try done. injection Hr as <-.
    unfold measure. assert (E := sum_list_with_insert pc_weight _ _ _ Idle Hi). cbn [pc_weight] in E.
    assert (Ew : work_left (set_thread i Idle st) = work_left st).
    { unfold work_left. rewrite (same_abs_gwork st); [done|]. split; [by eapply tasks_set_thread|done]. }
    rewrite Ew. cbn [set_thread set_threads threads]. lia.
Qed.
Definition spurious_count (evs : list event) : nat := sum_list_with (fun ev => flag (is_spurious ev)) evs.
Lemma run_length evs st st' : pinv st -> pool_run evs st = Some (Ok st') ->
  length evs + measure st' <= measure st + 2 * spurious_count evs.
Proof.
  revert st. induction evs as [|ev evs IH]; intros st Hp; cbn [ThreadPool.pool_run]; [intros [= <-]; cbn; lia|].
  destruct (pool_step ev st) as [r|] eqn:E; [|done]. assert (E' := pinv_step _ _ _ Hp E). destruct E' as (st1 & -> & Hp1). intros Hr.
  apply step_measure in E; [|done]. apply IH in Hr; [|done]. unfold spurious_count in *. cbn [length sum_list_with]. lia.
Qed.

(** ** Progress *)

Lemma enqueue_enabled n st : exists wake st', enqueue maxThreads wake n st = Some st'.
Proof.
  unfold enqueue. cbv zeta. match goal with |- context [notify_one _ ?s] => generalize s end. intros st1.
  unfold notify_one. destruct (existsb is_waiting (threads st1)) eqn:E; [|by exists 0, st1].
  apply existsb_exists in E as (p & Hp%list_elem_of_In & Hw). apply list_elem_of_lookup in Hp as [j Hj].
  exists j, (set_thread j Idle st1). rewrite Hj. by destruct p.
Qed.
Definition can_run st (i : nat) : Prop := exists wake r, run_thread getEdges processNode maxThreads i wake st = Some r.

(** Releasing a node never blocks. *)
Lemma release_enabled st i p : threads st !! i = Some p -> holds_lock p = true -> can_run st i.
Proof.
  intros Hi Hh. unfold can_run, run_thread. rewrite Hi. destruct p as [| | | | | | | | | |n [|r todo]| | | | |]; try done.
  - exists 0. by eexists.
  - unfold release_one. destruct (sset_mem _ _); [|exists 0; by eexists]. case_bool_decide; [|exists 0; by eexists].
    match goal with |- context [if ?b then _ else _] => destruct b end; [exists 0; by eexists|].
    match goal with |- context [enqueue _ _ r ?s] => destruct (enqueue_enabled r s) as (wake & st' & E) end.
    exists wake. rewrite E. by eexists.
Qed.
(** Nothing but the lock of the graph stops a thread that is awake. *)
Lemma awake_enabled st i p : threads st !! i = Some p -> over p = false -> p <> Waiting -> (forall r, p <> Joining r) ->
  graph_lock st = None -> can_run st i.
Proof.
  intros Hi Ho Hw Hj Hl. destruct (holds_lock p) eqn:Hh; [by eapply release_enabled|].
  unfold can_run, run_thread. rewrite Hi, Hl.
  destruct p as [[|n rest]| | | |exc|node|node|node es|node|node| | | | |r|]; try done; try (by exists 0; run_cases; eexists).
  - destruct (quit st); [exists 0; by eexists|].
    destruct (enqueue_enabled n (set_thread i (Enqueueing rest) st)) as (wake & st' & E). exists wake. rewrite E. by eexists.
  - exists 0. destruct (item_done exc st); by eexists.
  - exists 0. case_bool_decide; by eexists.
  - by destruct (Hj r).
Qed.
Lemma awake_progress st i p : sinv st -> threads st !! i = Some p -> over p = false -> p <> Waiting -> (forall r, p <> Joining r) ->
  exists j, can_run st j.
Proof.
  intros Hs Hi Ho Hw Hj. destruct (graph_lock st) as [j|] eqn:Hl; [|exists i; by eapply awake_enabled].
  destruct (s_lock _ _ _ Hs j Hl) as (q & Hq & Hh). exists j. by eapply release_enabled.
Qed.
Lemma pool_progress st : sinv st -> (forall r, threads st !! 0 <> Some (Done r)) -> exists i, can_run st i.
Proof.
  intros Hs Hd. destruct (quit st) eqn:Hq.
  - assert (Hnw : forall i, threads st !! i <> Some Waiting).
    { intros i Hi. destruct (s_pcs _ _ _ Hs _ _ Hi) as [_ ?]. congruence. }
    destruct (s_main _ _ _ Hs) as [p Hp]. destruct p as [| | | | | | | | | | | | | |r|r] eqn:Ep.
    16: by destruct (Hd r).
    15: { destruct (forallb exited (tail (threads st))) eqn:E.
          - exists 0, 0. unfold run_thread. rewrite Hp, E. by eexists.
          - assert (Hex : exists j q, tail (threads st) !! j = Some q /\ exited q = false).
            { clear - E. induction (tail (threads st)) as [|q l IH]; [done|]. cbn in E. destruct (exited q) eqn:Eq.
              - destruct IH as (j & q' & ? & ?); [done|]. by exists (S j), q'.
              - by exists 0, q. }
            destruct Hex as (j & q & Hj & Hex). rewrite lookup_tail in Hj. assert (Hok := s_pcs _ _ _ Hs _ _ Hj).
            eapply (awake_progress st (S j) q); [done|done|..].
            + destruct q; try done. by destruct Hok.
            + intros ->. by destruct (Hnw (S j)).
            + intros r' ->. by destruct Hok. }
    all: eapply (awake_progress st 0); [done|exact Hp|..]; try done; try (by destruct (Hnw 0)).
    by destruct (s_pcs _ _ _ Hs _ _ Hp).
  - destruct (s_alive _ _ _ Hs Hq) as (i & p & Hi & Hw). assert (Hok := s_pcs _ _ _ Hs _ _ Hi).
    eapply (awake_progress st i p); try done.
    + destruct p; try done; cbn in Hok; destruct_and!; congruence.
    + intros r ->. destruct Hok as (_ & _ & ? & _). congruence.
Qed.
End pool_spec.

(** ** What a run promises *)

Section claims.
Context {T : Type} `{OrdKey T}.
Context (nodes : list T) (getEdges : T -> exn + list T) (processNode : T -> option exn) (maxThreads : nat).

(** C8: [processGraph] respects the order. In every state of every run no
    assertion fails, [processNode] is called at most once for a node, only for
    the given nodes, and only after the calls for all nodes it depends on have
    returned. The log has the latest call first. *)
Theorem processGraph_ordered evs st : sset_wf nodes ->
  pool_run getEdges processNode maxThreads evs (pool_init nodes) = Some (Ok st) ->
  (forall ev r, pool_step getEdges processNode maxThreads ev st = Some r -> exists st', r = Ok st') /\
  forall later n earlier, log st = later ++ Began n :: earlier ->
    n ∈ nodes /\ Began n ∉ earlier /\ forall d, dep nodes getEdges n d -> Completed d ∈ earlier.
Proof.
  intros Hn Hr. destruct (pinv_run nodes getEdges processNode maxThreads evs _ _ (pinv_init _ _ _ _ Hn) Hr) as (st' & [= <-] & Hp).
  split.
  - intros ev r Hs. destruct (pinv_step nodes getEdges processNode maxThreads ev st r Hp Hs) as (st' & -> & _). by exists st'.
  - intros later n earlier. apply log_ok_split, (gi_log _ _ _ (p_graph _ _ _ _ _ Hp)).
Qed.

(** C9: what the outcome of [processGraph] means. When it returns, its threads
    have ended; if it succeeds, every node has been processed; if it throws an
    exception of a work item, a call threw that exception or was interrupted,
    and it is never the one of the pool that is shut down; if it reports an
    incomplete graph, the dependencies have a cycle. *)
Theorem processGraph_outcome evs st r : sset_wf nodes ->
  pool_run getEdges processNode maxThreads evs (pool_init nodes) = Some (Ok st) -> threads st !! 0 = Some (Done r) ->
  Forall (fun p => p = Exited) (tail (threads st)) /\
  match r with
  | Succeeded => forall n, n ∈ nodes -> Completed n ∈ log st
  | Raised e => legit getEdges processNode e
  | Incomplete => exists n, tc (dep nodes getEdges) n n
  end.
Proof.
  intros Hn Hr H0. destruct (pinv_run nodes getEdges processNode maxThreads evs _ _ (pinv_init _ _ _ _ Hn) Hr) as (st' & [= <-] & Hp).
  by apply (pinv_outcome nodes getEdges processNode maxThreads).
Qed.

(** C10: [processGraph] makes progress and ends. As long as it has not returned
    some thread can take a step, whoever sleeps on the condition variable: no
    wake-up is lost and there is no deadlock. A run has a bounded number of
    steps, up to spurious wake-ups. *)
Theorem processGraph_terminates evs st : sset_wf nodes ->
  pool_run getEdges processNode maxThreads evs (pool_init nodes) = Some (Ok st) ->
  length evs <= run_bound maxThreads (length nodes) + 2 * spurious_count evs /\
  ((forall r, threads st !! 0 <> Some (Done r)) ->
   exists i wake st', pool_step getEdges processNode maxThreads (Run i wake) st = Some (Ok st')).
Proof.
  intros Hn Hr. assert (Hi := pinv_init nodes getEdges processNode maxThreads Hn).
  destruct (pinv_run nodes getEdges processNode maxThreads evs _ _ Hi Hr) as (st' & [= <-] & Hp). split.
  - apply run_length with (nodes := nodes) in Hr; [|done|done]. rewrite measure_init in Hr. lia.
  - intros Hd. destruct (pool_progress getEdges processNode maxThreads st (p_sched _ _ _ _ _ Hp) Hd) as (i & wake & r & Hrun).
    exists i, wake. destruct (pinv_step nodes getEdges processNode maxThreads (Run i wake) st r Hp Hrun) as (st' & -> & _). by exists st'.
Qed.
End claims.

(** One schedule: the thread with the highest number that can take a step. *)
Section schedule.
Context {T : Type} `{OrdKey T} (getEdges : T -> exn + list T) (processNode : T -> option exn) (maxThreads : nat).

Fixpoint first_enabled (evs : list event) (st : Pool (T := T)) : option (event * Pool (T := T)) :=
  match evs with
  | [] => None
  | ev :: evs =>
      match pool_step getEdges processNode maxThreads ev st with
      | Some (Ok st') => Some (ev, st')
      | _ => first_enabled evs st
      end
  end.
Fixpoint schedule (fuel : nat) (st : Pool (T := T)) : list event :=
  match fuel with
  | 0 => []
  | S fuel =>
      let ids := rev (seq 0 (length (threads st))) in
      match first_enabled (i ← ids; wake ← ids; [Run i wake]) st with
      | Some (ev, st) => ev :: schedule fuel st
      | None => []
      end
  end.
Definition state_after (evs : list event) (st : Pool (T := T)) : Pool (T := T) :=
  match pool_run getEdges processNode maxThreads evs st with Some (Ok st) => st | _ => st end.
End schedule.

(** 0 needs 1 and 2, 1 needs 2; 9 is not to be processed. *)
Definition example_edges (n : Z) : exn + list Z :=
  inr (if (n =? 0)%Z then [0; 1; 2]%Z else if (n =? 1)%Z then [2; 9]%Z else []).
Definition example_pool : Pool (T := Z) := pool_init [0; 1; 2]%Z.
Definition example_run (fuel : nat) : list event := schedule example_edges (fun _ => None) 2 fuel example_pool.
Definition example_state (fuel : nat) : Pool (T := Z) := state_after example_edges (fun _ => None) 2 (example_run fuel) example_pool.

Lemma example_nodes_wf : sset_wf [0; 1; 2]%Z.
Proof. repeat first [apply SSorted_nil|apply Forall_nil|apply SSorted_cons|apply Forall_cons_2|vm_compute; reflexivity]. Qed.

Lemma processGraph_ordered_witness :
  log (example_state 60)
    = [Completed 0; Began 0; Completed 1; Began 1; Completed 2; Began 2]%Z /\
  forall later n earlier, log (example_state 60) = later ++ Began n :: earlier ->
    n ∈ [0; 1; 2]%Z /\ Began n ∉ earlier /\ forall d, dep [0; 1; 2]%Z example_edges n d -> Completed d ∈ earlier.
Proof.
  split; [vm_compute; reflexivity|].
  apply (processGraph_ordered [0; 1; 2]%Z example_edges (fun _ => None) 2 (example_run 60)); [apply example_nodes_wf|].
  vm_compute. reflexivity.
Defined.

(** With an edge back from 2 to 0. *)
Definition cyclic_edges (n : Z) : exn + list Z := if (n =? 2)%Z then inr [0]%Z else example_edges n.
Definition cyclic_run : list event := schedule cyclic_edges (fun _ => None) 2 60 example_pool.
Lemma processGraph_outcome_witness :
  threads (example_state 60) = [Done Succeeded; Exited] /\ (forall n, n ∈ [0; 1; 2]%Z -> Completed n ∈ log (example_state 60)) /\
  threads (state_after cyclic_edges (fun _ => None) 2 cyclic_run example_pool) = [Done Incomplete; Exited] /\
  exists n, tc (dep [0; 1; 2]%Z cyclic_edges) n n.
Proof.
  split; [vm_compute; reflexivity|]. split; [|split; [vm_compute; reflexivity|]].
  - eapply (processGraph_outcome [0; 1; 2]%Z example_edges (fun _ => None) 2 (example_run 60) (example_state 60) Succeeded);
      [apply example_nodes_wf|vm_compute; reflexivity..].
  - eapply (processGraph_outcome [0; 1; 2]%Z cyclic_edges (fun _ => None) 2 cyclic_run
      (state_after cyclic_edges (fun _ => None) 2 cyclic_run example_pool) Incomplete);
      [apply example_nodes_wf|vm_compute; reflexivity..].
Defined.

(** In the middle of the run. *)
Lemma processGraph_terminates_witness :
  length (example_run 60) = 40 /\
  exists i wake st', pool_step example_edges (fun _ => None) 2 (Run i wake) (example_state 20) = Some (Ok st').
Proof.
  split; [vm_compute; reflexivity|].
  apply (processGraph_terminates [0; 1; 2]%Z example_edges (fun _ => None) 2 (example_run 20)).
  - apply example_nodes_wf.
  - vm_compute. reflexivity.
  - intros r Hr. vm_compute in Hr. discriminate Hr.
Defined.
