(* ===== verification/Suggestions.v ===== *)
(** * Suggestions (libutil/suggestions.cc)

    The edit distance by which corrections of misspelt names are ranked, and the
    choice of the best ones. [levenshteinDistance] keeps two rows of the matrix
    of distances between prefixes and swaps them; lengths are assumed to fit
    [int]. *)

From stdpp Require Import relations.
From S2P Require Import Prelude.
From S2P Require Import Containers.

(** ** The two rows *)

(** The loop over [second], from position [j]. *)
Fixpoint inner_loop (c : ascii) (second : bytes) (j : nat) (v0 v1 : list Z) : list Z :=
  match second with
  | [] => v1
  | d :: second =>
      let deletionCost := (nth (j + 1) v0 0 + 1)%Z in
      let insertionCost := (nth j v1 0 + 1)%Z in
      let substitutionCost := (if char_eqb c d then nth j v0 0 else nth j v0 0 + 1)%Z in
      inner_loop c second (j + 1) v0 (<[(j + 1)%nat := Z.min (Z.min deletionCost insertionCost) substitutionCost]> v1)
  end.
(** The loop over [first], from position [i]. *)
Fixpoint outer_loop (first second : bytes) (i : nat) (v0 v1 : list Z) : list Z :=
  match first with
  | [] => v0
  | c :: first =>
      let v1 := <[0%nat := (Z.of_nat i + 1)%Z]> v1 in
      let v1 := inner_loop c second 0 v0 v1 in
      outer_loop first second (i + 1) v1 v0
  end.
Definition levenshteinDistance (first second : bytes) : Z :=
  let n := length second in
  let v0 := Z.of_nat <$> seq 0 (n + 1) in
  let v1 := replicate (n + 1) 0%Z in
  nth n (outer_loop first second 0 v0 v1) 0%Z.

(** ** Ranking *)

(** Suggestions are ordered by their distance, then by the string. *)
Definition Suggestion : Type := Z * bytes.

Definition bestMatches (allMatches : list bytes) (query : bytes) : list Suggestion :=
  foldl (fun res m => sset_insert (levenshteinDistance query m, m) res) [] allMatches.

Fixpoint trim_loop (limit maxDistance count : Z) (suggestions res : list Suggestion) : list Suggestion :=
  match suggestions with
  | [] => res
  | elt :: suggestions =>
      if (limit <=? count)%Z || (maxDistance <? elt.1)%Z then res
      else trim_loop limit maxDistance (count + 1) suggestions (sset_insert elt res)
  end.
Definition trim (limit maxDistance : Z) (suggestions : list Suggestion) : list Suggestion :=
  trim_loop limit maxDistance 0 suggestions [].

(** [operator+=] *)
Definition add_suggestions (this other : list Suggestion) : list Suggestion := sset_union this other.

(** ** Edits *)

(** One character is inserted, deleted or replaced. *)
Inductive edit : bytes -> bytes -> Prop :=
| edit_insert s c t : edit (s ++ t) (s ++ c :: t)
| edit_delete s c t : edit (s ++ c :: t) (s ++ t)
| edit_replace s c d t : edit (s ++ c :: t) (s ++ d :: t).

(** An alignment of two strings with [k] differences. *)
Inductive align : nat -> bytes -> bytes -> Prop :=
| al_nil : align 0 [] []
| al_keep k c s t : align k s t -> align k (c :: s) (c :: t)
| al_replace k c d s t : align k s t -> align (S k) (c :: s) (d :: t)
| al_delete k c s t : align k s t -> align (S k) (c :: s) t
| al_insert k d s t : align k s t -> align (S k) s (d :: t).

Lemma align_refl s : align 0 s s.
Proof. induction s; by constructor. Qed.
Lemma edit_cons c s t : edit s t -> edit (c :: s) (c :: t).
Proof.
  destruct 1 as [s d t|s d t|s d e t].
  - apply (edit_insert (c :: s)).
  - apply (edit_delete (c :: s)).
  - apply (edit_replace (c :: s)).
Qed.
Lemma nsteps_cons c k s t : nsteps edit k s t -> nsteps edit k (c :: s) (c :: t).
Proof. apply nsteps_congruence, edit_cons. Qed.
Lemma align_edits k s t : align k s t -> nsteps edit k s t.
Proof.
  induction 1 as [|k c s t _ IH|k c d s t _ IH|k c s t _ IH|k d s t _ IH].
  - constructor.
  - by apply nsteps_cons.
  - eapply nsteps_r; [apply nsteps_cons, IH|]. apply (edit_replace []).
  - eapply nsteps_l; [apply (edit_delete [])|done].
  - eapply nsteps_r; [done|]. apply (edit_insert []).
Qed.
(** An edit concerns the first character or the rest. *)
Lemma edit_cons_inv d t u : edit (d :: t) u ->
  (exists e, u = e :: d :: t) \/ u = t \/ (exists e, u = e :: t) \/ exists u', u = d :: u' /\ edit t u'.
Proof.
  intros He. inversion He as [s' e t' E1 E2|s' e t' E1 E2|s' e f t' E1 E2]; destruct s' as [|x s']; cbn in E1; simplify_eq/=; eauto.
  - do 3 right. eexists. split; [done|]. constructor.
  - do 3 right. eexists. split; [done|]. constructor.
  - do 3 right. eexists. split; [done|]. constructor.
Qed.
(** One more edit costs one more difference, at most. *)
Lemma align_edit k s t u : align k s t -> edit t u -> exists k', k' <= S k /\ align k' s u.
Proof.
  intros Ha. revert u. induction Ha as [|k c s t Ha IH|k c d s t Ha IH|k c s t Ha IH|k d s t Ha IH]; intros u He.
  - inversion He as [s c t E1 E2|s c t E1 E2|s c d t E1 E2]; [|by destruct s..].
    destruct s, t; try done. subst. exists 1. split; [lia|]. cbn. repeat constructor.
  - apply edit_cons_inv in He as [[e ->]|[->|[[e ->]|(u' & -> & He)]]].
    + exists (S k). split; [lia|]. by repeat constructor.
    + exists (S k). split; [lia|]. by constructor.
    + exists (S k). split; [lia|]. by constructor.
    + destruct (IH u' He) as (k' & ? & ?). exists k'. split; [done|]. by constructor.
  - apply edit_cons_inv in He as [[e ->]|[->|[[e ->]|(u' & -> & He)]]].
    + exists (S (S k)). split; [lia|]. by repeat constructor.
    + exists (S k). split; [lia|]. by constructor.
    + exists (S k). split; [lia|]. by constructor.
    + destruct (IH u' He) as (k' & ? & ?). exists (S k'). split; [lia|]. by constructor.
  - destruct (IH u He) as (k' & ? & ?). exists (S k'). split; [lia|]. by constructor.
  - apply edit_cons_inv in He as [[e ->]|[->|[[e ->]|(u' & -> & He)]]].
    + exists (S (S k)). split; [lia|]. by repeat constructor.
    + exists k. split; [lia|]. done.
    + exists (S k). split; [lia|]. by constructor.
    + destruct (IH u' He) as (k' & ? & ?). exists (S k'). split; [lia|]. by constructor.
Qed.
Lemma edits_align k s t : nsteps edit k s t -> exists k', k' <= k /\ align k' s t.
Proof.
  revert t. induction k as [|k IH]; intros t Hn.
  - inversion Hn; subst. exists 0. split; [done|apply align_refl].
  - apply nsteps_inv_r in Hn as (u & Hu & He). destruct (IH u Hu) as (k1 & Hk1 & Ha).
    destruct (align_edit _ _ _ _ Ha He) as (k2 & Hk2 & Ha2). exists k2. split; [lia|done].
Qed.

(** ** The recursive distance *)

Fixpoint lev (s t : bytes) : Z :=
  match s with
  | [] => Z.of_nat (length t)
  | c :: s' =>
      (fix go (t : bytes) : Z :=
         match t with
         | [] => Z.of_nat (length s)
         | d :: t' => Z.min (Z.min (lev s' t + 1) (go t' + 1)) (lev s' t' + if char_eqb c d then 0 else 1)
         end%Z) t
  end.
Lemma lev_nil_r s : lev s [] = Z.of_nat (length s).
Proof. by destruct s. Qed.
Lemma lev_cons c s d t :
  lev (c :: s) (d :: t) = Z.min (Z.min (lev s (d :: t) + 1) (lev (c :: s) t + 1)) (lev s t + if char_eqb c d then 0 else 1)%Z.
Proof. done. Qed.
Lemma lev_align s t : exists k, lev s t = Z.of_nat k /\ align k s t.
Proof.
  revert t. induction s as [|c s IHs]; intros t.
  - exists (length t). split; [done|]. induction t; by constructor.
  - induction t as [|d t (k2 & E2 & A2)].
    + destruct (IHs []) as (k & E & A). rewrite lev_nil_r in E. exists (S k). split; [cbn; lia|]. by constructor.
    + rewrite lev_cons, E2. destruct (IHs (d :: t)) as (k1 & -> & A1). destruct (IHs t) as (k3 & -> & A3).
      destruct (Z.min_dec (Z.min (Z.of_nat k1 + 1) (Z.of_nat k2 + 1)) (Z.of_nat k3 + if char_eqb c d then 0 else 1)) as [->| ->].
      * destruct (Z.min_dec (Z.of_nat k1 + 1) (Z.of_nat k2 + 1)) as [->| ->].
        -- exists (S k1). split; [lia|]. by constructor.
        -- exists (S k2). split; [lia|]. by constructor.
      * destruct (char_eqb c d) eqn:E; [apply char_eqb_eq in E as ->; exists k3|exists (S k3)]; (split; [lia|]); by constructor.
Qed.
Lemma align_lev k s t : align k s t -> (lev s t <= Z.of_nat k)%Z.
Proof.
  induction 1 as [|k c s t _ IH|k c d s t _ IH|k c s t _ IH|k d s t _ IH].
  - done.
  - rewrite lev_cons, (proj2 (char_eqb_eq c c)) by done. lia.
  - rewrite lev_cons. destruct (char_eqb c d); lia.
  - destruct t as [|d t]; [|rewrite lev_cons; lia]. rewrite lev_nil_r in *. cbn [length]. lia.
  - destruct s as [|c s]; [cbn [lev length] in *; lia|]. rewrite lev_cons. lia.
Qed.

(** ** The rows hold distances of prefixes *)

(** Distances between prefixes, whose last characters are compared. *)
Definition dist (s t : bytes) (i j : nat) : Z := lev (reverse (take i s)) (reverse (take j t)).

Lemma reverse_take_S {A} (l : list A) i x : l !! i = Some x -> reverse (take (S i) l) = x :: reverse (take i l).
Proof. intros Hi. by rewrite (take_S_r _ _ _ Hi), reverse_snoc. Qed.
Lemma dist_0_l s t j : j <= length t -> dist s t 0 j = Z.of_nat j.
Proof. intros Hj. unfold dist. rewrite take_0, reverse_nil. cbn [lev]. rewrite length_reverse, length_take. lia. Qed.
Lemma dist_0_r s t i : i <= length s -> dist s t i 0 = Z.of_nat i.
Proof. intros Hi. unfold dist. rewrite take_0, reverse_nil, lev_nil_r, length_reverse, length_take. lia. Qed.
Lemma dist_S s t i j c d : s !! i = Some c -> t !! j = Some d ->
  dist s t (S i) (S j) =
    Z.min (Z.min (dist s t i (S j) + 1) (dist s t (S i) j + 1)) (if char_eqb c d then dist s t i j else dist s t i j + 1)%Z.
Proof.
  intros Hi Hj. unfold dist. rewrite (reverse_take_S s i c Hi), (reverse_take_S t j d Hj), lev_cons.
  destruct (char_eqb c d); rewrite ?Z.add_0_r; done.
Qed.

Definition row (s t : bytes) (i : nat) : list Z := dist s t i <$> seq 0 (length t + 1).
Lemma row_nth s t i j : j <= length t -> nth j (row s t i) 0%Z = dist s t i j.
Proof.
  intros Hj. unfold row. rewrite nth_lookup, list_lookup_fmap, lookup_seq_lt by lia. done.
Qed.
(** The inner loop completes the next row. *)
Lemma inner_loop_row s t i c done_ rest v1 :
  s !! i = Some c -> t = done_ ++ rest -> length v1 = length t + 1 ->
  (forall k, k <= length done_ -> nth k v1 0%Z = dist s t (S i) k) ->
  inner_loop c rest (length done_) (row s t i) v1 = row s t (S i).
Proof.
  intros Hc. revert done_ v1. induction rest as [|d rest IH]; intros done_ v1 Ht Hlen Hv1; cbn [inner_loop].
  - rewrite app_nil_r in Ht. subst done_. unfold row. apply list_eq. intros k. rewrite list_lookup_fmap.
    destruct (decide (k <= length t)) as [Hk|Hk].
    + rewrite lookup_seq_lt by lia. cbn. rewrite <- (Hv1 k Hk), nth_lookup.
      destruct (v1 !! k) eqn:E; [done|]. apply lookup_ge_None in E. lia.
    + rewrite lookup_seq_ge, lookup_ge_None_2 by lia. done.
  - assert (Hd : t !! length done_ = Some d) by (subst t; apply list_lookup_middle; done).
    assert (Hlt := lookup_lt_Some _ _ _ Hd). set (x := Z.min _ _).
    assert (Hx : x = dist s t (S i) (S (length done_))).
    { subst x. rewrite (dist_S s t i (length done_) c d) by done. rewrite !row_nth, Hv1 by lia.
      by rewrite Nat.add_1_r. }
    specialize (IH (done_ ++ [d]) (<[(length done_ + 1)%nat := x]> v1)). rewrite length_app in IH. cbn [length] in IH. apply IH.
    + by rewrite <- app_assoc.
    + by rewrite length_insert.
    + intros k Hk. rewrite nth_lookup. destruct (decide (k = length done_ + 1)) as [->|Hne].
      * rewrite list_lookup_insert_eq by lia. cbn. by rewrite Hx, Nat.add_1_r.
      * rewrite list_lookup_insert_ne by done. rewrite <- nth_lookup. apply Hv1. lia.
Qed.
Lemma outer_loop_row s t pre rest v1 : s = pre ++ rest -> length v1 = length t + 1 ->
  outer_loop rest t (length pre) (row s t (length pre)) v1 = row s t (length s).
Proof.
  revert pre v1. induction rest as [|c rest IH]; intros pre v1 Hs Hlen; cbn [outer_loop].
  - rewrite app_nil_r in Hs. by subst.
  - assert (Hc : s !! length pre = Some c) by (subst s; by apply list_lookup_middle).
    assert (Hlt := lookup_lt_Some _ _ _ Hc).
    rewrite (inner_loop_row s t (length pre) c [] t); [|done|done|by rewrite length_insert|].
    + specialize (IH (pre ++ [c]) (row s t (length pre))). rewrite length_app in IH. cbn [length] in IH.
      rewrite <- (Nat.add_1_r (length pre)). apply IH; [by rewrite <- app_assoc|]. unfold row. by rewrite length_fmap, length_seq.
    + intros k Hk. cbn [length] in Hk. assert (k = 0) as -> by lia. rewrite dist_0_r by lia.
      destruct v1; [cbn in Hlen; lia|]. cbn. lia.
Qed.
Lemma levenshtein_lev s t : levenshteinDistance s t = lev (reverse s) (reverse t).
Proof.
  unfold levenshteinDistance. assert (E : Z.of_nat <$> seq 0 (length t + 1) = row s t 0).
  { unfold row. apply list_fmap_ext. intros k j Hk. apply lookup_seq in Hk as [-> ?]. by rewrite dist_0_l by lia. }
  rewrite E, (outer_loop_row s t [] s) by (by rewrite ?length_replicate). rewrite row_nth by done.
  unfold dist. by rewrite !firstn_all.
Qed.

Lemma edit_reverse s t : edit s t -> edit (reverse s) (reverse t).
Proof. destruct 1; rewrite !reverse_app, ?reverse_cons, <- ?app_assoc; cbn [app]; constructor. Qed.
Lemma edits_reverse k s t : nsteps edit k (reverse s) (reverse t) <-> nsteps edit k s t.
Proof.
  split; intros Hn; apply (nsteps_congruence reverse edit) in Hn; try apply edit_reverse; [|done].
  by rewrite !reverse_involutive in Hn.
Qed.
Lemma levenshtein_edits s t :
  exists n, levenshteinDistance s t = Z.of_nat n /\ nsteps edit n s t /\ forall k, nsteps edit k s t -> n <= k.
Proof.
  rewrite levenshtein_lev. destruct (lev_align (reverse s) (reverse t)) as (n & E & A). exists n.
  split; [done|]. split; [by apply edits_reverse, align_edits|].
  intros k Hk. apply edits_reverse, edits_align in Hk as (k' & Hk & A'). apply align_lev in A'. lia.
Qed.

(** C40: [levenshteinDistance] is the edit distance: the strings are that many
    insertions, deletions and replacements of single characters apart, and no
    fewer. *)
Theorem levenshteinDistance_minimal s t :
  exists n, levenshteinDistance s t = Z.of_nat n /\ nsteps edit n s t /\ forall k, nsteps edit k s t -> n <= k.
Proof. apply levenshtein_edits. Qed.

Example levenshtein_kitten : levenshteinDistance (L "kitten") (L "sitting") = 3%Z.
Proof. vm_compute. reflexivity. Qed.

(** ** The best suggestions *)

Lemma bestMatches_spec allMatches query :
  sset_wf (bestMatches allMatches query) /\
  forall k m, (k, m) ∈ bestMatches allMatches query <-> m ∈ allMatches /\ k = levenshteinDistance query m.
Proof.
  unfold bestMatches.
  assert (G : forall l res, sset_wf res ->
    sset_wf (foldl (fun res m => sset_insert (levenshteinDistance query m, m) res) res l) /\
    forall k m, (k, m) ∈ foldl (fun res m => sset_insert (levenshteinDistance query m, m) res) res l <->
      (k, m) ∈ res \/ m ∈ l /\ k = levenshteinDistance query m).
  { induction l as [|x l IH]; intros res Hres; cbn [foldl].
    - split; [done|]. intros k m. rewrite elem_of_nil. naive_solver.
    - destruct (IH _ (sset_insert_wf (levenshteinDistance query x, x) res Hres)) as [H1 H2]. split; [done|].
      intros k m. rewrite H2, sset_insert_elem, elem_of_cons. naive_solver. }
  destruct (G allMatches [] ltac:(constructor)) as [H1 H2]. split; [done|]. intros k m. rewrite H2, elem_of_nil. naive_solver.
Qed.

Definition close (maxDistance : Z) (x : Suggestion) : bool := (x.1 <=? maxDistance)%Z.
Lemma suggestion_order (x y : Suggestion) : klt x y -> (x.1 <= y.1)%Z.
Proof.
  destruct x as [a s], y as [b t]. unfold klt. cbn. unfold pair_compare. cbn.
  destruct (Z.compare_spec a b); [lia|lia|done].
Qed.
Lemma trim_loop_spec limit maxDistance count l res : sset_wf (res ++ l) -> (0 <= count)%Z ->
  trim_loop limit maxDistance count l res
    = res ++ take (Z.to_nat (limit - count)) (filter (fun x => close maxDistance x = true) l).
Proof.
  revert count res. induction l as [|x l IH]; intros count res Hwf Hc; cbn [trim_loop].
  { rewrite filter_nil, take_nil. by rewrite app_nil_r. }
  assert (Hx : sset_wf (res ++ [x])).
  { unfold sset_wf in *. rewrite cons_middle, app_assoc in Hwf. by apply StronglySorted_app in Hwf as (_ & ? & _). }
  destruct (Z.leb_spec limit count) as [Hl|Hl]; cbn [orb].
  { by rewrite (Z2Nat.nonpos (limit - count)), take_0, app_nil_r by lia. }
  destruct (Z.ltb_spec maxDistance x.1) as [Hd|Hd].
  - assert (Hnil : filter (fun x => close maxDistance x = true) (x :: l) = []).
    { apply elem_of_nil_inv. intros y. rewrite list_elem_of_filter, elem_of_cons. unfold close. intros [Hy Hin].
      unfold sset_wf in Hwf. apply StronglySorted_app in Hwf as (_ & _ & Hxl). apply StronglySorted_inv in Hxl as [_ Hxl].
      destruct Hin as [->|Hin]; [lia|]. rewrite Forall_forall in Hxl. apply Hxl, suggestion_order in Hin. lia. }
    rewrite Hnil. destruct (Z.to_nat (limit - count)); by rewrite app_nil_r.
  - rewrite sset_insert_snoc, IH by (try done; try lia; by rewrite <- app_assoc). rewrite <- app_assoc. f_equal.
    rewrite filter_cons_True by (unfold close; lia). cbn [app].
    replace (Z.to_nat (limit - count)) with (S (Z.to_nat (limit - (count + 1)))) by lia. done.
Qed.
(** The [limit] closest ones, as long as they are close enough. *)
Theorem trim_spec limit maxDistance l : sset_wf l ->
  trim limit maxDistance l = take (Z.to_nat limit) (filter (fun x => close maxDistance x = true) l).
Proof. intros Hl. unfold trim. rewrite trim_loop_spec by done. by rewrite Z.sub_0_r. Qed.
