(* ===== verification/LruCache.v ===== *)
(** * The least-recently-used cache (libutil/lru-cache.hh)

    A map from keys to values and a list of the keys in the order of their last
    use, with pointers in both directions: an entry of the map has an iterator
    into the list, a node of the list an iterator into the map. List nodes are
    numbered here, and the iterators into the map are keys; an iterator that
    points nowhere is undefined behaviour. *)

From S2P Require Import Prelude.
From S2P Require Import Containers.

Section lru.
Context {K V : Type} `{OrdKey K}.
Implicit Types (k : K) (v : V) (l : list (K * V)).

Record LRUCache := mkLRU {
  capacity : nat;
  data : list (K * (nat * V));
  lru : list (nat * K);
  next_node : nat;  (** the number of the next list node *)
}.
Implicit Types (c : LRUCache).

Definition empty_cache (capacity : nat) : LRUCache := mkLRU capacity [] [] 0.

(** [lru.erase(it)] *)
Definition lru_erase (it : nat) (l : list (nat * K)) : result (list (nat * K)) :=
  if bool_decide (it ∈ l.*1) then Ok (filter (fun n => n.1 <> it) l) else Err UndefinedBehaviour.
(** [data.erase(i)] for an iterator *)
Definition data_erase (k : K) (d : list (K * (nat * V))) : result (list (K * (nat * V))) :=
  match smap_lookup k d with Some _ => Ok (smap_erase k d) | None => Err UndefinedBehaviour end.

Definition cache_erase k c : result (bool * LRUCache) :=
  match smap_lookup k (data c) with
  | None => Ok (false, c)
  | Some (it, _) =>
      let* lru' := lru_erase it (lru c) in
      let* data' := data_erase k (data c) in
      Ok (true, mkLRU (capacity c) data' lru' (next_node c))
  end.

(** Retire the oldest item. *)
Definition retire c : result LRUCache :=
  match lru c with
  | [] => Err UndefinedBehaviour
  | (it, k) :: lru' =>
      let* data' := data_erase k (data c) in
      Ok (mkLRU (capacity c) data' lru' (next_node c))
  end.

Definition upsert k v c : result LRUCache :=
  if (capacity c =? 0) then Ok c
  else
    let* (_, c) := cache_erase k c in
    let* c := if (capacity c <=? length (data c)) then retire c else Ok c in
    let* _ := assert_ (negb (bool_decide (is_Some (smap_lookup k (data c))))) in
    let j := next_node c in
    Ok (mkLRU (capacity c) (smap_insert k (j, v) (data c)) (lru c ++ [(j, k)]) (S j)).

Definition cache_get k c : result (option V * LRUCache) :=
  match smap_lookup k (data c) with
  | None => Ok (None, c)
  | Some (it, v) =>
      let* lru' := lru_erase it (lru c) in
      let j := next_node c in
      Ok (Some v, mkLRU (capacity c) (smap_insert k (j, v) (data c)) (lru' ++ [(j, k)]) (S j))
  end.

Definition cache_size c : nat := length (data c).
Definition cache_clear c : LRUCache := mkLRU (capacity c) [] [] (next_node c).

(** ** Operations and their observable results *)

Inductive cache_op := Upsert (k : K) (v : V) | Erase (k : K) | Get (k : K) | Size | Clear.
Inductive observation := Unit | Bool (b : bool) | Found (o : option V) | Number (n : nat).

Definition exec (op : cache_op) c : result (observation * LRUCache) :=
  match op with
  | Upsert k v => let* c := upsert k v c in Ok (Unit, c)
  | Erase k => let* (b, c) := cache_erase k c in Ok (Bool b, c)
  | Get k => let* (o, c) := cache_get k c in Ok (Found o, c)
  | Size => Ok (Number (cache_size c), c)
  | Clear => Ok (Unit, cache_clear c)
  end.
Fixpoint exec_all (ops : list cache_op) c : result (list observation * LRUCache) :=
  match ops with
  | [] => Ok ([], c)
  | op :: ops =>
      let* (o, c) := exec op c in
      let* (os, c) := exec_all ops c in
      Ok (o :: os, c)
  end.

(** ** The specification: a list of bindings, the least recently used one first *)

Definition spec_op (cap : nat) (op : cache_op) l : observation * list (K * V) :=
  match op with
  | Upsert k v =>
      (Unit, if (cap =? 0) then l
             else let l := smap_erase k l in (if (cap <=? length l) then tail l else l) ++ [(k, v)])
  | Erase k => (Bool (bool_decide (is_Some (smap_lookup k l))), smap_erase k l)
  | Get k =>
      match smap_lookup k l with
      | None => (Found None, l)
      | Some v => (Found (Some v), smap_erase k l ++ [(k, v)])
      end
  | Size => (Number (length l), l)
  | Clear => (Unit, [])
  end.
Fixpoint spec_all (cap : nat) (ops : list cache_op) l : list observation * list (K * V) :=
  match ops with
  | [] => ([], l)
  | op :: ops =>
      let '(o, l) := spec_op cap op l in
      let '(os, l) := spec_all cap ops l in
      (o :: os, l)
  end.

(** ** The invariant *)

(** A node of the list and the binding it stands for. *)
Definition node_ok (d : list (K * (nat * V))) (n : nat * K) (kv : K * V) : Prop :=
  n.2 = kv.1 /\ smap_lookup kv.1 d = Some (n.1, kv.2).
Record represents c l : Prop := {
  r_nodes : Forall2 (node_ok (data c)) (lru c) l;
  r_ids : NoDup (lru c).*1;
  r_keys : NoDup l.*1;
  r_next : Forall (fun n => n.1 < next_node c) (lru c);
  r_data k : is_Some (smap_lookup k (data c)) -> k ∈ l.*1;
  r_wf : smap_wf (data c);
  r_size : length l <= capacity c;
}.

Lemma smap_erase_keys {B} k (m : list (K * B)) : (smap_erase k m).*1 = sset_erase k m.*1.
Proof.
  unfold smap_erase, sset_erase. induction m as [|[x b] m IH]; [done|]. rewrite fmap_cons, !filter_cons. cbn [fst].
  destruct (decide (x <> k)); [|done]. by rewrite fmap_cons, IH.
Qed.
Lemma Forall2_filter {A B} (P P' : A -> B -> Prop) (Q : A -> Prop) (Q' : B -> Prop)
    `{forall x, Decision (Q x)} `{forall y, Decision (Q' y)} (xs : list A) (ys : list B) :
  Forall2 P xs ys -> Forall2 (fun x y => Q x <-> Q' y) xs ys -> (forall x y, P x y -> Q' y -> P' x y) ->
  Forall2 P' (filter Q xs) (filter Q' ys).
Proof.
  intros Hp Hq HP. induction Hp as [|x y xs ys Hp _ IH]; [constructor|]. apply Forall2_cons in Hq as [Hxy Hq].
  rewrite !filter_cons. destruct (decide (Q x)), (decide (Q' y)); [constructor; auto|tauto|tauto|auto].
Qed.
Lemma NoDup_fmap_filter {A B} (f : A -> B) (P : A -> Prop) `{forall x, Decision (P x)} (xs : list A) :
  NoDup (f <$> xs) -> NoDup (f <$> filter P xs).
Proof.
  induction xs as [|x xs IH]; [done|]. rewrite fmap_cons, NoDup_cons, filter_cons. intros [Hx Hnd].
  case_decide; [|auto]. rewrite fmap_cons, NoDup_cons. split; [|auto]. intros (y & E & [_ Hy]%list_elem_of_filter)%list_elem_of_fmap.
  apply Hx. rewrite E. by apply list_elem_of_fmap_2.
Qed.

Lemma rep_node c l k it v : represents c l -> smap_lookup k (data c) = Some (it, v) -> (it, k) ∈ lru c /\ (k, v) ∈ l.
Proof.
  intros Hr Hk. assert (Hin := r_data _ _ Hr k (mk_is_Some _ _ Hk)).
  apply list_elem_of_fmap in Hin as ([k' v'] & -> & Hin). cbn [fst] in *. apply list_elem_of_lookup in Hin as [i Hi].
  destruct (Forall2_lookup_r _ _ _ _ _ (r_nodes _ _ Hr) Hi) as ([it' k''] & Hn & [E1 E2]). cbn [fst snd] in *. subst k''.
  rewrite Hk in E2. injection E2 as -> ->. split; by eapply list_elem_of_lookup_2.
Qed.
Lemma rep_lookup c l k : represents c l -> smap_lookup k l = snd <$> smap_lookup k (data c).
Proof.
  intros Hr. destruct (smap_lookup k (data c)) as [[it v]|] eqn:E; cbn [fmap option_fmap option_map snd].
  - destruct (rep_node _ _ _ _ _ Hr E) as [_ Hin]. assert (Hnd := r_keys _ _ Hr). clear - Hin Hnd.
    induction l as [|[x w] l IH]; [by apply elem_of_nil in Hin|]. apply NoDup_cons in Hnd as [Hx Hnd]. cbn [smap_lookup fst] in *.
    apply elem_of_cons in Hin as [[= -> ->]|Hin]; [by rewrite bool_decide_true|].
    rewrite bool_decide_false; [by apply IH|]. intros ->. apply Hx, list_elem_of_fmap. by exists (x, v).
  - apply smap_lookup_None. intros ([k' v'] & -> & [i Hi]%list_elem_of_lookup)%list_elem_of_fmap.
    destruct (Forall2_lookup_r _ _ _ _ _ (r_nodes _ _ Hr) Hi) as (n & _ & [_ E2]). cbn [fst] in *. congruence.
Qed.
Lemma rep_length c l : represents c l -> length (data c) = length l.
Proof.
  intros Hr. rewrite <- (length_fmap fst (data c)), <- (length_fmap fst l). apply Permutation_length, NoDup_Permutation.
  - apply sset_nodup, (r_wf _ _ Hr).
  - apply Hr.
  - intros k. split.
    + intros Hk. apply (r_data _ _ Hr). destruct (smap_lookup k (data c)) eqn:E; [done|]. by apply smap_lookup_None in E.
    + intros Hk. destruct (decide (k ∈ (data c).*1)) as [|Hn]; [done|]. exfalso.
      apply smap_lookup_None in Hn. assert (Hl := rep_lookup _ _ k Hr). rewrite Hn in Hl. by apply smap_lookup_None in Hl.
Qed.

(** Taking out the binding of [k], whose node is [it]. *)
Lemma rep_erase c l k it v : represents c l -> smap_lookup k (data c) = Some (it, v) ->
  represents (mkLRU (capacity c) (smap_erase k (data c)) (filter (fun n => n.1 <> it) (lru c)) (next_node c)) (smap_erase k l).
Proof.
  intros Hr Hk. destruct (rep_node _ _ _ _ _ Hr Hk) as [Hit _].
  assert (Hiff : Forall2 (fun n kv => n.1 <> it <-> kv.1 <> k) (lru c) l).
  { apply Forall2_same_length_lookup. split; [apply (Forall2_length _ _ _ (r_nodes _ _ Hr))|].
    intros i [id k1] [k2 w] Hn Hl. destruct (Forall2_lookup_lr _ _ _ _ _ _ (r_nodes _ _ Hr) Hn Hl) as [E1 E2]. cbn [fst snd] in *. subst k1.
    split; intros Hne ->; apply Hne; [congruence|].
    apply list_elem_of_lookup in Hit as [j Hj].
    assert (i = j) as <-.
    { eapply (NoDup_lookup _ _ _ it (r_ids _ _ Hr)); rewrite list_lookup_fmap; [by rewrite Hn|by rewrite Hj]. }
    rewrite Hn in Hj. by injection Hj as ->. }
  split; cbn [data lru next_node capacity].
  - eapply Forall2_filter; [apply Hr|exact Hiff|]. intros n kv [E1 E2] Hne. split; [done|]. by rewrite smap_lookup_erase, decide_False.
  - apply NoDup_fmap_filter, Hr.
  - rewrite smap_erase_keys. by apply NoDup_filter, Hr.
  - apply Forall_forall. intros n [_ Hn]%list_elem_of_filter. assert (Hx := r_next _ _ Hr). rewrite Forall_forall in Hx. by apply Hx.
  - intros x. rewrite smap_lookup_erase. case_decide; [by intros []|]. intros Hx%(r_data _ _ Hr).
    rewrite smap_erase_keys. by apply sset_erase_elem.
  - unfold smap_wf. rewrite smap_erase_keys. by apply sset_erase_wf, (r_wf _ _ Hr).
  - unfold smap_erase. etransitivity; [apply length_filter|apply Hr].
Qed.

(** Adding a binding as the most recently used one. *)
Lemma rep_push c l k v d : represents c l -> k ∉ l.*1 -> length l < capacity c ->
  smap_wf d -> (forall x, smap_lookup x d = if decide (x = k) then Some (next_node c, v) else smap_lookup x (data c)) ->
  represents (mkLRU (capacity c) d (lru c ++ [(next_node c, k)]) (S (next_node c))) (l ++ [(k, v)]).
Proof.
  intros Hr Hk Hlen Hwf Hd. split; cbn [data lru next_node capacity].
  - apply Forall2_app.
    + apply Forall2_same_length_lookup. split; [apply (Forall2_length _ _ _ (r_nodes _ _ Hr))|].
      intros i n kv Hn Hl. destruct (Forall2_lookup_lr _ _ _ _ _ _ (r_nodes _ _ Hr) Hn Hl) as [E1 E2]. split; [done|].
      rewrite Hd, decide_False; [done|]. intros <-. apply Hk, list_elem_of_fmap. exists kv. split; [done|]. by eapply list_elem_of_lookup_2.
    + constructor; [|constructor]. split; [done|]. cbn [fst snd]. by rewrite Hd, decide_True.
  - rewrite fmap_app. apply NoDup_app. split; [apply Hr|]. split; [|apply NoDup_singleton].
    intros x ([id k'] & E & Hin)%list_elem_of_fmap Hx%list_elem_of_singleton. cbn [fst] in *. subst.
    assert (Hn := r_next _ _ Hr). rewrite Forall_forall in Hn. apply Hn in Hin. cbn [fst] in Hin. lia.
  - rewrite fmap_app. apply NoDup_app. split; [apply Hr|]. split; [|apply NoDup_singleton].
    intros x Hx ->%list_elem_of_singleton. done.
  - apply Forall_app. split; [|constructor; [cbn; lia|constructor]]. eapply Forall_impl; [apply Hr|]. cbn. lia.
  - intros x. rewrite Hd, fmap_app, elem_of_app. case_decide; [subst; intros _; right; by left|].
    intros Hx%(r_data _ _ Hr). by left.
  - done.
  - rewrite length_app. cbn. lia.
Qed.

(** ** The operations *)

Lemma lru_erase_ok c l k it v : represents c l -> smap_lookup k (data c) = Some (it, v) ->
  lru_erase it (lru c) = Ok (filter (fun n => n.1 <> it) (lru c)).
Proof.
  intros Hr Hk. destruct (rep_node _ _ _ _ _ Hr Hk) as [Hit _]. unfold lru_erase. rewrite bool_decide_true; [done|].
  apply list_elem_of_fmap. by exists (it, k).
Qed.
Lemma smap_erase_None {B} k (m : list (K * B)) : smap_lookup k m = None -> smap_erase k m = m.
Proof.
  intros Hk%smap_lookup_None. unfold smap_erase. apply filter_all, Forall_forall. intros kv Hkv <-.
  apply Hk, list_elem_of_fmap. by exists kv.
Qed.
Lemma erase_refines c l k : represents c l ->
  exists c', cache_erase k c = Ok (bool_decide (is_Some (smap_lookup k l)), c') /\ represents c' (smap_erase k l) /\ capacity c' = capacity c.
Proof.
  intros Hr. unfold cache_erase. rewrite (rep_lookup _ _ k Hr). destruct (smap_lookup k (data c)) as [[it v]|] eqn:E.
  - rewrite (lru_erase_ok _ _ _ _ _ Hr E). cbn [rbind]. unfold data_erase. rewrite E. cbn [rbind].
    eexists. split; [done|]. split; [by eapply rep_erase|done].
  - exists c. split; [done|]. split; [|done]. rewrite smap_erase_None; [done|]. by rewrite (rep_lookup _ _ k Hr), E.
Qed.
Lemma retire_refines c l : represents c l -> l <> [] ->
  exists c', retire c = Ok c' /\ represents c' (tail l) /\ capacity c' = capacity c.
Proof.
  intros Hr Hl. assert (Hn := r_nodes _ _ Hr). destruct l as [|[k v] l]; [done|].
  destruct (lru c) as [|[it k'] ns] eqn:El; [by inversion Hn|]. apply Forall2_cons in Hn as [[E1 E2] Hn]. cbn [fst snd] in *. subst k'.
  assert (Hids := r_ids _ _ Hr). assert (Hkeys := r_keys _ _ Hr). rewrite El in Hids.
  apply NoDup_cons in Hids as [Hit _]. apply NoDup_cons in Hkeys as [Hk _].
  unfold retire. rewrite El. unfold data_erase. rewrite E2. cbn [rbind]. eexists. split; [done|]. split; [|done].
  assert (He := rep_erase _ _ _ _ _ Hr E2). rewrite El in He.
  assert (F1 : filter (fun n : nat * K => n.1 <> it) ((it, k) :: ns) = ns).
  { rewrite filter_cons_False by (cbn; tauto). apply filter_all, Forall_forall. intros n Hin <-. apply Hit, list_elem_of_fmap. by exists n. }
  assert (F2 : smap_erase k ((k, v) :: l) = l).
  { unfold smap_erase. rewrite filter_cons_False by (cbn; tauto). apply filter_all, Forall_forall. intros n Hin <-. apply Hk, list_elem_of_fmap. by exists n. }
  by rewrite F1, F2 in He.
Qed.
Lemma upsert_refines c l k v : represents c l ->
  exists c', upsert k v c = Ok c' /\ represents c' (spec_op (capacity c) (Upsert k v) l).2 /\ capacity c' = capacity c.
Proof.
  intros Hr. unfold upsert. cbn [spec_op snd]. destruct (Nat.eqb_spec (capacity c) 0) as [|Hcap]; [by exists c|].
  destruct (erase_refines _ _ k Hr) as (c1 & -> & Hr1 & Hc1). cbn [rbind].
  assert (Hlen := rep_length _ _ Hr1). rewrite Hlen, Hc1.
  assert (Hk1 : k ∉ (smap_erase k l).*1) by (rewrite smap_erase_keys, sset_erase_elem; tauto).
  assert (H2 : exists c2, (if (capacity c <=? length (smap_erase k l)) then retire c1 else Ok c1) = Ok c2 /\
    represents c2 (if (capacity c <=? length (smap_erase k l)) then tail (smap_erase k l) else smap_erase k l) /\
    capacity c2 = capacity c /\
    length (if (capacity c <=? length (smap_erase k l)) then tail (smap_erase k l) else smap_erase k l) < capacity c /\
    k ∉ (if (capacity c <=? length (smap_erase k l)) then tail (smap_erase k l) else smap_erase k l).*1).
  { assert (Hs := r_size _ _ Hr1). rewrite Hc1 in Hs. destruct (Nat.leb_spec (capacity c) (length (smap_erase k l))) as [Hge|Hlt].
    - destruct (smap_erase k l) as [|x l'] eqn:El; [cbn in Hge; lia|].
      destruct (retire_refines _ _ Hr1) as (c2 & -> & Hr2 & Hc2); [done|]. exists c2. cbn [tail length] in *.
      split_and!; [done|done|congruence|lia|]. intros Hin. apply Hk1. by right.
    - exists c1. split_and!; done. }
  destruct H2 as (c2 & -> & Hr2 & Hc2 & Hlt & Hk2). cbn [rbind]. revert Hr2 Hlt Hk2. generalize (if capacity c <=? length (smap_erase k l) then tail (smap_erase k l) else smap_erase k l).
  intros l2 Hr2 Hlt Hk2. assert (Hnone : smap_lookup k (data c2) = None).
  { destruct (smap_lookup k (data c2)) eqn:E; [|done]. by destruct (Hk2 (r_data _ _ Hr2 k (mk_is_Some _ _ E))). }
  rewrite Hnone, bool_decide_false by (by intros []). cbn [negb assert_ rbind]. eexists. split; [done|]. split; [|done].
  apply rep_push; [done|done|lia|apply smap_insert_wf, Hr2|]. intros x. apply smap_lookup_insert.
Qed.
Lemma get_refines c l k : represents c l ->
  exists c', cache_get k c = Ok (smap_lookup k l, c') /\ represents c' (spec_op (capacity c) (Get k) l).2 /\ capacity c' = capacity c.
Proof.
  intros Hr. unfold cache_get. cbn [spec_op]. rewrite (rep_lookup _ _ k Hr).
  destruct (smap_lookup k (data c)) as [[it v]|] eqn:E; cbn [fmap option_fmap option_map snd]; [|by exists c].
  rewrite (lru_erase_ok _ _ _ _ _ Hr E). cbn [rbind]. eexists. split; [done|]. split; [|done].
  assert (He := rep_erase _ _ _ _ _ Hr E). apply (rep_push _ _ k v (smap_insert k (next_node c, v) (data c))) in He; [done|..].
  - rewrite smap_erase_keys, sset_erase_elem. tauto.
  - cbn [capacity]. assert (Hs := r_size _ _ Hr). destruct (rep_node _ _ _ _ _ Hr E) as [_ Hin].
    enough (length (smap_erase k l) < length l) by lia. apply length_filter_lt with (x := (k, v)); [done|]. cbn. tauto.
  - apply smap_insert_wf, Hr.
  - intros x. cbn [data next_node]. rewrite smap_lookup_insert, smap_lookup_erase. by case_decide.
Qed.

Lemma rep_empty_at cap n : represents (mkLRU cap [] [] n) [].
Proof.
  split; cbn.
  - apply Forall2_nil_2.
  - apply NoDup_nil_2.
  - apply NoDup_nil_2.
  - apply Forall_nil_2.
  - by intros k [].
  - apply SSorted_nil.
  - lia.
Qed.
Lemma exec_refines op c l : represents c l ->
  exists c', exec op c = Ok ((spec_op (capacity c) op l).1, c') /\ represents c' (spec_op (capacity c) op l).2 /\
    capacity c' = capacity c.
Proof.
  intros Hr. destruct op as [k v|k|k| |]; cbn [exec].
  - destruct (upsert_refines _ _ k v Hr) as (c' & -> & ?). by exists c'.
  - destruct (erase_refines _ _ k Hr) as (c' & -> & ?). by exists c'.
  - destruct (get_refines _ _ k Hr) as (c' & -> & ?). exists c'. split; [|done]. cbn [rbind spec_op]. by destruct (smap_lookup k l).
  - exists c. cbn [spec_op fst snd]. unfold cache_size. by rewrite (rep_length _ _ Hr).
  - exists (cache_clear c). split; [done|]. split; [|done]. apply rep_empty_at.
Qed.
Lemma exec_all_refines ops c l : represents c l ->
  exists c', exec_all ops c = Ok ((spec_all (capacity c) ops l).1, c') /\ represents c' (spec_all (capacity c) ops l).2 /\
    capacity c' = capacity c.
Proof.
  revert c l. induction ops as [|op ops IH]; intros c l Hr; cbn [exec_all spec_all]; [by exists c|].
  destruct (exec_refines op c l Hr) as (c1 & -> & Hr1 & Hc1). destruct (spec_op (capacity c) op l) as [o l1]. cbn [rbind fst snd] in *.
  destruct (IH c1 l1 Hr1) as (c2 & -> & Hr2 & Hc2). rewrite Hc1 in *. destruct (spec_all (capacity c) ops l1) as [os l2].
  cbn [rbind fst snd] in *. by exists c2.
Qed.
Lemma rep_empty cap : represents (empty_cache cap) [].
Proof. apply rep_empty_at. Qed.

(** C39: [LRUCache] implements a list of at most [capacity] bindings, ordered by
    their last use, from which the oldest is dropped when there is no room: every
    sequence of operations on a new cache succeeds, with the results the
    specification gives, and follows no dangling iterator on the way. *)
Theorem LRUCache_refines cap ops :
  exists c, exec_all ops (empty_cache cap) = Ok ((spec_all cap ops []).1, c) /\ cache_size c <= cap /\
    (lru c).*2 = (spec_all cap ops []).2.*1.
Proof.
  destruct (exec_all_refines ops (empty_cache cap) [] (rep_empty cap)) as (c & E & Hr & Hc). cbn [empty_cache capacity] in *.
  exists c. split; [done|]. unfold cache_size. rewrite (rep_length _ _ Hr). split; [assert (Hs := r_size _ _ Hr); lia|].
  apply list_eq_Forall2, Forall2_fmap. eapply Forall2_impl; [apply Hr|]. by intros n kv [? _].
Qed.
End lru.

Example lru_example :
  (spec_all 2 [Upsert 1%Z "a"%char; Upsert 2%Z "b"%char; Get 1%Z; Upsert 3%Z "c"%char; Get 2%Z; Get 1%Z; Size] []).1
    = [Unit; Unit; Found (Some "a"%char); Unit; Found None; Found (Some "a"%char); Number 2].
Proof. vm_compute. reflexivity. Qed.
