(* ===== verification/StringContext.v ===== *)
(** * Elements of string contexts (libexpr/value/context.cc)

    The dependencies that a string of the expression language carries: store
    paths, derivations with their closure, outputs of derivations, and their
    encoding as strings. *)

From S2P Require Import Prelude.
From S2P Require Import Containers.
From S2P Require Import Hash.
From S2P Require Import StorePath.
From S2P Require Import OutputsSpec.
From S2P Require Import DerivedPath.

Inductive NixStringContextElem :=
| ContextOpaque (path : StorePath)
| ContextDrvDeep (drvPath : StorePath)
| ContextBuilt (drvPath : SingleDerivedPath) (output : bytes).

Definition of_single (p : SingleDerivedPath) : NixStringContextElem :=
  match p with
  | SingleDerivedPath.Opaque path => ContextOpaque path
  | SingleDerivedPath.Built drvPath output => ContextBuilt drvPath output
  end.

Section context.
Context (xp : xpSettings).

(** Every call removes a character. *)
Fixpoint parseRest_fuel (fuel : nat) (s : bytes) : result SingleDerivedPath :=
  match fuel with
  | 0 => Err OutOfFuel
  | S fuel =>
      match find_char "!" s with
      | None => let* path := StorePath_parse s in Ok (SingleDerivedPath.Opaque path)
      | Some index =>
          let* drv := parseRest_fuel fuel (drop (index + 1) s) in
          drvRequireExperiment xp drv ;;; Ok (SingleDerivedPath.Built drv (take index s))
      end
  end.
Definition parseRest (s : bytes) : result SingleDerivedPath := parseRest_fuel (S (length s)) s.

Definition NixStringContextElem_parse (s : bytes) : result NixStringContextElem :=
  match s with
  | [] => throw BadNixStringContextElem
  | c :: s' =>
      if char_eqb c "!" then
        match find_char "!" s' with
        | None => throw BadNixStringContextElem
        | Some _ => let* p := parseRest s' in Ok (of_single p)
        end
      else if char_eqb c "=" then let* p := StorePath_parse s' in Ok (ContextDrvDeep p)
      else
        match find_char "!" s with
        | Some _ => throw BadNixStringContextElem
        | None => let* p := parseRest s in Ok (of_single p)
        end
  end.

Fixpoint toStringRest (p : SingleDerivedPath) : bytes :=
  match p with
  | SingleDerivedPath.Opaque path => sp_to_string path
  | SingleDerivedPath.Built drvPath output => output ++ L "!" ++ toStringRest drvPath
  end.
Definition NixStringContextElem_to_string (e : NixStringContextElem) : bytes :=
  match e with
  | ContextBuilt drvPath output => L "!" ++ toStringRest (SingleDerivedPath.Built drvPath output)
  | ContextOpaque path => toStringRest (SingleDerivedPath.Opaque path)
  | ContextDrvDeep drvPath => L "=" ++ sp_to_string drvPath
  end.

(** ** The elements that have an encoding *)

Definition path_valid (p : StorePath) : Prop := StorePath_parse (sp_to_string p) = Ok p.
Fixpoint rest_ok (p : SingleDerivedPath) : Prop :=
  match p with
  | SingleDerivedPath.Opaque path => path_valid path /\ "!"%char ∉ sp_to_string path
  | SingleDerivedPath.Built drvPath output => "!"%char ∉ output /\ rest_ok drvPath /\ drvRequireExperiment xp drvPath = Ok tt
  end.
Definition elem_ok (e : NixStringContextElem) : Prop :=
  match e with
  | ContextOpaque path => rest_ok (SingleDerivedPath.Opaque path)
  | ContextDrvDeep drvPath => path_valid drvPath
  | ContextBuilt drvPath output => rest_ok (SingleDerivedPath.Built drvPath output)
  end.

Lemma StorePath_parse_string s p : StorePath_parse s = Ok p -> sp_to_string p = s.
Proof.
  unfold StorePath_parse. destruct (_ <? _); [done|]. destruct (forallb _ _); [|done]. destruct (checkPathName _ _); [|done].
  by intros [= <-].
Qed.
Lemma path_valid_head c s p : StorePath_parse (c :: s) = Ok p -> hash_char c = true.
Proof.
  unfold StorePath_parse. destruct (_ <? _); [done|]. unfold sp_hashPart, HashLen. cbn [sp_to_string take forallb].
  destruct (hash_char c); done.
Qed.

Lemma parseRest_spec fuel s p : length s < fuel ->
  parseRest_fuel fuel s = Ok p <-> s = toStringRest p /\ rest_ok p.
Proof.
  revert s p. induction fuel as [|fuel IH]; intros s p Hf; [lia|]. cbn [parseRest_fuel].
  destruct (find_char "!" s) as [i|] eqn:E.
  - apply find_char_split in E as (Es & Hi & Hlt). rewrite Nat.add_1_r, rbind_Ok.
    assert (Hlen : length (drop (S i) s) < fuel) by (rewrite length_drop; lia). split.
    + intros (drv & Hd & Hb). apply IH in Hd as [Ed Hok]; [|done]. apply rbind_Ok in Hb as ([] & Hx & [= <-]).
      cbn [toStringRest rest_ok]. split; [|done]. rewrite <- Ed. exact Es.
    + intros [Hs Hok]. destruct p as [path|drv output]; cbn [toStringRest rest_ok] in *.
      * exfalso. destruct Hok as [_ Hno]. apply Hno. rewrite <- Hs, Es. apply elem_of_app. right. by left.
      * destruct Hok as (Ho & Hok & Hx). assert (Hpre : take i s = output /\ drop (S i) s = toStringRest drv).
        { rewrite Es in Hs. change (L "!" ++ toStringRest drv) with ("!"%char :: toStringRest drv) in Hs.
          assert (Hlen' : length (take i s) = length output).
          { assert (F1 := find_char_app "!" (take i s) (drop (S i) s) Hi).
            assert (F2 := find_char_app "!" output (toStringRest drv) Ho). congruence. }
          apply app_inj_1 in Hs as [-> [= ->]]; done. }
        destruct Hpre as [-> Hd]. exists drv. split; [by apply IH|]. by rewrite Hx.
  - apply find_char_None in E. rewrite rbind_Ok. split.
    + intros (path & Hp & [= <-]). assert (Ep := StorePath_parse_string _ _ Hp). cbn [toStringRest rest_ok]. unfold path_valid.
      by rewrite Ep.
    + intros [Hs Hok]. destruct p as [path|drv output]; cbn [toStringRest rest_ok] in *.
      * exists path. split; [|done]. rewrite Hs. apply Hok.
      * exfalso. apply E. rewrite Hs, elem_of_app. right. by left.
Qed.
Lemma parseRest_iff s p : parseRest s = Ok p <-> s = toStringRest p /\ rest_ok p.
Proof. apply parseRest_spec. lia. Qed.

Lemma of_single_string p : (exists path, p = SingleDerivedPath.Opaque path) ->
  NixStringContextElem_to_string (of_single p) = toStringRest p.
Proof. by intros [path ->]. Qed.
Lemma rest_opaque p : rest_ok p -> "!"%char ∉ toStringRest p -> exists path, p = SingleDerivedPath.Opaque path.
Proof.
  destruct p as [path|drv output]; [by eauto|]. intros _ Hn. exfalso. apply Hn. cbn [toStringRest]. apply elem_of_app. right. by left.
Qed.
Lemma rest_built p : rest_ok p -> "!"%char ∈ toStringRest p -> exists drv output, p = SingleDerivedPath.Built drv output.
Proof. destruct p as [path|drv output]; [|by eauto]. by intros [_ ?]. Qed.

Lemma parse_sound s e : NixStringContextElem_parse s = Ok e -> NixStringContextElem_to_string e = s /\ elem_ok e.
Proof.
  destruct s as [|c s]; [done|]. cbn [NixStringContextElem_parse]. destruct (char_eqb c "!") eqn:E1; [|destruct (char_eqb c "=") eqn:E2].
  - apply char_eqb_eq in E1 as ->. destruct (find_char "!" s) as [i|] eqn:Ei; [|done].
    intros (p & [Hs Hok]%parseRest_iff & [= <-])%rbind_Ok.
    destruct (rest_built p Hok) as (drv & output & ->).
    { rewrite <- Hs. destruct (decide ("!"%char ∈ s)) as [|Hn]; [done|]. apply find_char_None in Hn. congruence. }
    cbn [of_single NixStringContextElem_to_string elem_ok]. by rewrite <- Hs.
  - apply char_eqb_eq in E2 as ->. intros (p & Hp & [= <-])%rbind_Ok. assert (Ep := StorePath_parse_string _ _ Hp).
    cbn [NixStringContextElem_to_string elem_ok]. unfold path_valid. by rewrite Ep.
  - destruct (find_char "!" (c :: s)) as [i|] eqn:Ei; [done|]. intros (p & [Hs Hok]%parseRest_iff & [= <-])%rbind_Ok.
    apply find_char_None in Ei. destruct (rest_opaque p Hok) as [path ->]; [by rewrite <- Hs|].
    by rewrite of_single_string by eauto.
Qed.
Lemma parse_complete e : elem_ok e -> NixStringContextElem_parse (NixStringContextElem_to_string e) = Ok e.
Proof.
  destruct e as [path|path|drv output]; cbn [elem_ok NixStringContextElem_to_string].
  - intros Hok. assert (Hok' := Hok). destruct Hok' as [Hv Hn]. unfold path_valid in Hv.
    assert (Hr : parseRest (toStringRest (SingleDerivedPath.Opaque path)) = Ok (SingleDerivedPath.Opaque path)) by (by apply parseRest_iff).
    cbn [toStringRest] in *. destruct (sp_to_string path) as [|c s] eqn:E; [done|]. unfold NixStringContextElem_parse.
    assert (Hc := path_valid_head _ _ _ Hv).
    destruct (char_eqb c "!") eqn:E1; [by apply char_eqb_eq in E1 as ->|].
    destruct (char_eqb c "=") eqn:E2; [by apply char_eqb_eq in E2 as ->|].
    rewrite (proj2 (find_char_None "!" (c :: s))) by done. by rewrite Hr.
  - intros Hv. change (L "=" ++ sp_to_string path) with ("="%char :: sp_to_string path). cbn [NixStringContextElem_parse].
    unfold path_valid in Hv. change (char_eqb "=" "!") with false. change (char_eqb "=" "=") with true. cbn iota. by rewrite Hv.
  - intros Hok.
    assert (Hr := proj2 (parseRest_iff _ (SingleDerivedPath.Built drv output)) (conj eq_refl Hok)).
    cbn [app]. unfold NixStringContextElem_parse. change (L "!" ++ toStringRest (SingleDerivedPath.Built drv output))
      with ("!"%char :: toStringRest (SingleDerivedPath.Built drv output)). cbn iota.
    change (char_eqb "!" "!") with true. cbn iota.
    destruct (find_char "!" _) as [i|] eqn:E; [by rewrite Hr|]. apply find_char_None in E. exfalso. apply E.
    cbn [toStringRest]. apply elem_of_app. right. by left.
Qed.
End context.

(** C35: the encoding of context elements. A string parses to an element exactly
    if it is the printed form of that element and the element is well-formed:
    its store path is valid, no output contains an exclamation mark, and
    dynamic derivations are enabled if it needs them. So no two strings encode
    the same element, and no element has two meanings. *)
Theorem NixStringContextElem_roundtrip xp s e :
  NixStringContextElem_parse xp s = Ok e <-> NixStringContextElem_to_string e = s /\ elem_ok xp e.
Proof. split; [apply parse_sound|]. intros [<- Hok]. by apply parse_complete. Qed.

Example context_example :
  NixStringContextElem_parse (fun _ => false) (L "!out!00bgd045z0d4icpbc2yyz4gx48ak44la-a.drv")
    = Ok (ContextBuilt (SingleDerivedPath.Opaque (mkStorePath (L "00bgd045z0d4icpbc2yyz4gx48ak44la-a.drv"))) (L "out")).
Proof. vm_compute. reflexivity. Qed.
